(* ===== verification/_CoqProject ===== *)
-Q . S2P
Prelude.v
Common.v
Pools.v
Slab.v
TranslateTable.v
IntrusiveList.v
IRTypes.v
Inst.v
InstSpec.v
HIR.v
HIRSpec.v
LocalElim.v
LocalElimSpec.v
CFG.v
CFGSpec.v
Dominance.v
HostMemory.v
HostMemorySpec.v
HostMemoryWin.v
HostMemoryWinSpec.v
Backend.v
BackendSpec.v
Thread.v
HandleTable.v
HandleTableSpec.v
Vapours.v
TinyMT.v
PageBitmap.v
PageBitmapSpec.v
PageHeap.v
PageHeapSpec.v
PageHeapInit.v
PageHeapRefine.v
MemoryRegion.v
MemoryRegionSpec.v
PageGroup.v
PageGroupSpec.v
MemoryManager.v
MemoryManagerSpec.v
MemoryManagerGroup.v
MemoryManagerInit.v
MemoryManagerStart.v
MemoryManagerRefine.v
Libc.v
LibcSpec.v
LibcStrings.v
RBTree.v
RBTreeSpec.v
RBTreeBalance.v
RBTreeOps.v
RBTreeRefine.v
RBTreeRegion.v
PageTableEntry.v
InitPageTable.v
InitPageTableSpec.v
InitPageTableMap.v
InitAllocator.v
InitAllocatorSpec.v
InitAllocatorLaws.v
InitPageTableExact.v
RegionType.v
InitPageTableEdit.v
InitPageTableUnmap.v
StartUp.v
SlabSetup.v
SlabSetupSpec.v
StartUpPhases.v
StartUpSpec.v
StartUpStacks.v
StartUpHost.v
StartUpCores.v
