(* ===== verification/Prelude.v ===== *)
(** * SwiftHorizon: a verification development

    SwiftHorizon runs guest programs of a console kernel on a host: a runtime
    that translates guest code through an intermediate representation
    (src/source/runtime), a host layer for memory and threads (src/source/host,
    src/source/base) and the Atmosphere kernel libraries it links
    (src/source/externals/libmesosphere and libvapours).  This library models the
    data structures, algorithms and allocators of these parts as executable
    definitions and proves what they promise.

    ** Conventions

    - A C++ function is a definition with the same name; a loop is a [Fixpoint]
      of its own, structural where the code counts and with fuel where it
      searches.  Running out of fuel is the fault [OutOfFuel], so a theorem that
      a definition returns [Ok] is a theorem that the loop ends.
    - Code that changes state is a computation in [stM S], a state monad with
      faults.  A fault is an assertion that fails, an abort, or an undefined
      behaviour the code could run into (see [fault] below).  Theorems of the
      form "[f s = Ok (r, s')]" therefore also say that none of them happens.
    - Integers are [Z] with their width written out ([wrap], [u32], [u64]);
      pointers are positions in a heap or a list that the state holds.
    - Code outside the repository, and the vendored dlmalloc, is a parameter: classes [Posix],
      [IntervalSet], [Darwin], [MSpace] and [Bytes] hold the operations, their
      [...Laws] classes the documented behaviour that proofs rely on; each has an
      instance, which the witnesses use.
    - Every theorem with hypotheses is followed by a witness that applies it to
      concrete data, usually to a state computed by the definitions.

    ** The runtime

    - Common.v: alignment, bit fields, flag operators, [VirtualVector]
      (runtime/common, base).  Least and greatest multiples at every width; a bit
      field reads back what was stored and keeps its neighbours.
    - Pools.v: [MemArena] and [ObjectPool] (runtime/common/mem_arena.h,
      object_pool.h).  Blocks are disjoint and inside their chunks.
    - Slab.v: the slab allocator (runtime/common/slab_alloc).  [Slab] is
      one thread, [SlabConcurrent] the interleavings of compare-and-swap loops as
      a step relation: allocations never collide, concurrent frees can (ABA).
    - TranslateTable.v: the hash table from guest locations to code
      (runtime/backend/translate_table.h).  Put and Lookup refine a finite map;
      Remove does not, and the theorems say how.
    - IntrusiveList.v: circular lists (libvapours util_intrusive_list.hpp) refine
      sequences.
    - IRTypes.v, Inst.v, InstSpec.v: opcodes, signatures, instructions, use
      counts and pseudo-operation chains (runtime/ir).
    - HIR.v, HIRSpec.v: the HIR builder (runtime/ir/hir_builder.cpp, block.cpp):
      the graphs it makes are well-formed.  A block is linked in the lists of its
      function through one node.  [EndFunction] computes exactly the predecessors
      and successors of graphs whose degrees stay below 2^16 and whose vectors fit
      the chunks of the arena, and writes out of bounds where a vector does not.
    - LocalElim.v, LocalElimSpec.v: the local elimination pass, proved against a
      semantics of the IR to preserve values, locals and effects.
    - CFG.v, CFGSpec.v, Dominance.v: the control-flow pass.  Its search for a
      common dominator is the meet of the dominator tree, and on reducible graphs
      its dominators are the immediate dominators of the graph.  The list of the
      reverse post order and the block list share their nodes: a build with
      assertions aborts at the first block it pushes.
    - Backend.v, BackendSpec.v: code memory, code cache and publication of
      generated code (runtime/backend).  A block of code may lie anywhere, since
      dlmalloc takes more memory from the system when its space is used up.

    ** The host layer

    - HostMemory.v, HostMemorySpec.v: the POSIX arena (host/host_memory.cpp)
      refines a page map and touches nothing outside its window; [Free], which
      changes contents only, is specified on bytes.
    - HostMemoryWin.v, HostMemoryWinSpec.v: the placeholder tracker for Windows;
      the unmap loop ends and removes exactly the range.
    - Thread.v: priorities and names of threads (base/thread.cpp).

    ** The kernel libraries

    - HandleTable.v, HandleTableSpec.v: [KHandleTable] refines an abstract table
      of entries; reference counts are balanced, stale handles stay invalid.
    - Vapours.v, TinyMT.v: bit utilities and the random number generator.
    - PageBitmap.v, PageBitmapSpec.v: [KPageBitmap] refines a set of offsets.
    - PageHeap.v, PageHeapSpec.v, PageHeapInit.v, PageHeapRefine.v: [KPageHeap]
      refines a set of free pages.  The bitmaps share one management memory
      ([repr_in], [repr_in_frame]); the free blocks partition the free pages and
      are coalesced, from which follows that allocation is complete.
    - MemoryRegion.v, MemoryRegionSpec.v: [KMemoryRegionTree], the map of the
      address space.  The tree is its sequence of regions in order; [Insert]
      changes what exactly the addresses of the range see.
    - PageGroup.v, PageGroupSpec.v: [KPageGroup], runs of pages that are joined
      where they touch.
    - MemoryManager.v: [KMemoryManager], one page heap with reference counts for
      each region of user memory, linked per pool.  MemoryManagerSpec.v gives the
      abstract state (every page free or not, and its count) and the operations of
      one and of all managers on it, MemoryManagerGroup.v the allocation of page
      groups, MemoryManagerInit.v and MemoryManagerStart.v start-up, and
      MemoryManagerRefine.v the contract: start-up establishes the invariant, the
      references of ranges and groups are exact, allocations take exactly the
      pages they report, and closing a group undoes its allocation.  The locks of
      the pools are not modelled: an operation is the steps of one caller.
    - RBTree.v: the intrusive red-black tree of libvapours
      ([freebsd/tree.hpp], [util_intrusive_red_black_tree.hpp]), every function on
      a heap of entries.  RBTreeSpec.v relates heap and tree through positions (a
      context and a subtree) and proves the rotations, for both directions at once;
      RBTreeBalance.v that the loops after an insertion and a removal restore the
      colours; RBTreeOps.v search, insertion, removal and height; RBTreeRefine.v
      that the container is a sorted sequence with logarithmic searches;
      RBTreeRegion.v that it does what MemoryRegion.v takes from the sequence.
    - RegionType.v: the region types that libmesosphere derives at compile time;
      the derivations of one type with the same number of siblings, dense or sparse,
      are incomparable.
    - Libc.v, LibcSpec.v, LibcStrings.v: the C routines of the kernel
      (kernel/ams/libc/kern_libc_generic.c) over a memory of bytes.  The variants
      that work on words are equal to byte-wise functions; that a word without
      null byte is recognised is proved for the bit trick that does it.  The arm64
      configuration takes the string routines from this file and the memory
      routines from assembly.

    ** Kernel start-up

    The kernel lays out its address space before it runs (kernel/host/kern_init_core.cpp
    over libmesosphere's start-up page table).  Memory is a finite map of words,
    which the tables, the free list of the allocator and the slab region share.

    - PageTableEntry.v, InitPageTable.v, InitPageTableEdit.v: entries and the whole of
      [KInitialPageTable].  InitPageTableSpec.v reads the tables as a tree and gives
      their meaning, [translate]; InitPageTableMap.v and InitPageTableExact.v prove
      that [Map] extends the translation by exactly its range, for every allocator
      that satisfies the class [LawfulAllocator], and that [IsFree] decides it;
      InitPageTableUnmap.v that [UnmapTtbr0Entries] leaves exactly device memory.
    - InitAllocator.v, InitAllocatorSpec.v, InitAllocatorLaws.v: the page allocators of
      start-up, as instances of that class.  The list of free chunks in memory is
      related to a sequence of ranges; allocation at random places refines
      allocation from the sequence with the same draws.
    - SlabSetup.v, SlabSetupSpec.v: how the slab heaps are shuffled and spread over
      the slab region; they fit, for every outcome of the draws.
    - StartUp.v, StartUpPhases.v: placing, mapping and tagging regions, and the two
      phases of [InitializeCore] with the board of the host.  StartUpSpec.v and
      StartUpStacks.v prove the placement and the stacks of the cores over the
      region tree, the allocator and the page table together, StartUpCores.v that
      every core starts on its own one; StartUpHost.v what [InitForKernel] passes
      to it.

    Linker symbols, the variables of the board, system registers, and the sizes of
    kernel classes are inputs there; register writes and calls that start other
    cores are recorded.

    ** Fuel

    The probe loops of the translation table get one round more than there are
    slots, which each probe visits at most once; [Remove] takes its fuel as an
    argument, since the theorem about it is that no fuel is enough.  The dominator
    walks get one round more than there are blocks, by which chain lengths are
    bounded, and the depth-first searches twice the number of edges plus one; the
    loops of [KPageHeap::Free] get the number of pages, since every round frees at
    least one; [GetRequiredDepth] gets 11 rounds, the base-64 digits of a 64-bit
    size; the Windows unmap loop gets one round more than there are tracked
    intervals.  The walks over the managers of a pool get the size of the array
    of managers, and the loops over ranges of pages the number of pages; the word
    loops of the C library get the number of bytes, and the loops over a red-black
    tree the number of entries, which bounds its height.  The loops of the page
    table get the number of pages of the range, or of entries of a table.  Each
    bound is discharged in the theorem about the loop.  Loops that draw until a
    random number fits take their fuel as an argument: the theorems say for which
    draws they end.

    ** Not modelled

    The vixl assembler, dlmalloc, boost and the Catch test framework are third
    party; the JIT translator only calls vixl.  Logging, file access and the
    system calls that apply thread attributes are I/O.  Exception entry is assembly.
    [KPageTable], the scheduler and the other kernel objects of libmesosphere are
    not modelled, nor the arm64 copies of files whose host version is. *)

From stdpp Require Export base tactics numbers option list gmap fin_maps strings.
From Stdlib Require Export ZArith Lia.

#[export] Set Default Proof Using "Type".
#[export] Set Default Goal Selector "!".

(** ** Faults and results

    [ASSERT] and [ASSERT_MSG] throw a [std::logic_error] (base/logging.cpp);
    C's [assert] and [abort] stop the process; the remaining constructors name
    the undefined behaviours that a definition can run into.  [Deadlock] is a
    thread that waits for a lock it holds, [OutOfFuel] a loop that did not end
    within the fuel it was given, [BadShift] a shift by the width of the word or
    more, [DivByZero] a division by zero. *)
Inductive fault : Set :=
  | AssertFailed
  | Aborted
  | NullDeref
  | OutOfBounds
  | BadAlloc
  | Deadlock
  | UseAfterFree
  | BadShift
  | DivByZero
  | OutOfFuel.

#[export] Instance fault_eq_dec : EqDecision fault.
Proof. solve_decision. Defined.

Inductive res (A : Type) : Type :=
  | Ok (a : A)
  | Err (e : fault).
Arguments Ok {A} a.
Arguments Err {A} e.

#[export] Instance res_ret : MRet res := @Ok.
#[export] Instance res_bind : MBind res := λ A B f m,
  match m with Ok a => f a | Err e => Err e end.
#[export] Instance res_fmap : FMap res := λ A B f m,
  match m with Ok a => Ok (f a) | Err e => Err e end.

#[export] Instance res_eq_dec `{EqDecision A} : EqDecision (res A).
Proof. solve_decision. Defined.

(** A check that throws when the condition is false. *)
Definition check (b : bool) (e : fault) : res unit :=
  if b then Ok tt else Err e.

Definition of_option {A} (e : fault) (o : option A) : res A :=
  match o with Some a => Ok a | None => Err e end.

(** ** The state monad with faults *)
Definition stM (S A : Type) : Type := S → res (A * S).

#[export] Instance st_ret S : MRet (stM S) := λ A a s, Ok (a, s).
#[export] Instance st_bind S : MBind (stM S) := λ A B f m s,
  match m s with Ok (a, s') => f a s' | Err e => Err e end.

Definition st_get {S} : stM S S := λ s, Ok (s, s).
Definition st_put {S} (s : S) : stM S unit := λ _, Ok (tt, s).
Definition st_mod {S} (f : S → S) : stM S unit := λ s, Ok (tt, f s).
Definition st_lift {S A} (r : res A) : stM S A := λ s,
  match r with Ok a => Ok (a, s) | Err e => Err e end.
Definition st_throw {S A} (e : fault) : stM S A := λ _, Err e.
Definition st_check {S} (b : bool) (e : fault) : stM S unit :=
  if b then mret tt else st_throw e.

(** [for i in l] with a state-passing body. *)
Fixpoint st_iter {S A} (f : A → stM S unit) (l : list A) : stM S unit :=
  match l with
  | [] => mret tt
  | x :: l' => f x ≫= λ _, st_iter f l'
  end.

Section monad_lemmas.
Context {S : Type}.

Lemma res_bind_Ok {A B} (m : res A) (f : A → res B) (b : B) :
  m ≫= f = Ok b ↔ ∃ a, m = Ok a ∧ f a = Ok b.
Proof.
  destruct m as [a|e]; simpl; naive_solver.
Qed.

Lemma st_bind_Ok {A B} (m : stM S A) (f : A → stM S B) (s s' : S) (b : B) :
  (m ≫= f) s = Ok (b, s') ↔
  ∃ a s1, m s = Ok (a, s1) ∧ f a s1 = Ok (b, s').
Proof.
  unfold mbind, st_bind. destruct (m s) as [[a s1]|e]; naive_solver.
Qed.

Lemma st_bind_run {A B} (m : stM S A) (f : A → stM S B) (s s1 : S) (a : A) :
  m s = Ok (a, s1) → (m ≫= f) s = f a s1.
Proof. intros H. unfold mbind, st_bind. by rewrite H. Qed.

Lemma st_bind_err {A B} (m : stM S A) (f : A → stM S B) (s : S) (e : fault) :
  m s = Err e → (m ≫= f) s = Err e.
Proof. intros H. unfold mbind, st_bind. by rewrite H. Qed.

Lemma st_check_Ok b e (s s' : S) u :
  st_check b e s = Ok (u, s') ↔ b = true ∧ s' = s.
Proof. destruct b, u; cbv; naive_solver. Qed.

Lemma check_Ok b e u : check b e = Ok u ↔ b = true.
Proof. destruct b, u; cbv; naive_solver. Qed.

Lemma of_option_Ok {A} e (o : option A) a : of_option e o = Ok a ↔ o = Some a.
Proof. destruct o; cbv; naive_solver. Qed.

(** A property of the state kept by every step of an iteration. *)
Lemma st_iter_inv {A} (P : S → Prop) (f : A → stM S unit) (l : list A) s s' u :
  (∀ x s1 s2 u, x ∈ l → P s1 → f x s1 = Ok (u, s2) → P s2) →
  P s → st_iter f l s = Ok (u, s') → P s'.
Proof.
  revert s u. induction l as [|x l IH]; intros s u Hf HP; simpl.
  - intros [= _ <-]. done.
  - rewrite st_bind_Ok. intros (v & s1 & H1 & H2).
    eapply IH; [|eapply Hf; [by left|done|done]|done].
    intros; eapply Hf; [by right|done|done].
Qed.
End monad_lemmas.

(** ** Relational invariants of computations

    [m] relates the state before to the state after whenever it succeeds. *)
Section tracks.
Context {S : Type} (R : S → S → Prop) {Hpre : PreOrder R}.

Definition tracks {A} (m : stM S A) : Prop := ∀ s a s', m s = Ok (a, s') → R s s'.

Lemma tracks_ret {A} (a : A) : tracks (mret a).
Proof using All. intros s ?? [= _ <-]. reflexivity. Qed.

Lemma tracks_get : tracks st_get.
Proof using All. intros s ?? [= _ <-]. reflexivity. Qed.

Lemma tracks_throw {A} e : tracks (A := A) (st_throw e).
Proof using All. by intros s ??. Qed.

Lemma tracks_lift {A} (r : res A) : tracks (st_lift r).
Proof using All. intros s ? s'. destruct r; [|done]. intros [= _ <-]. reflexivity. Qed.

Lemma tracks_check b e : tracks (st_check b e).
Proof using All. destruct b; [apply tracks_ret|apply tracks_throw]. Qed.

Lemma tracks_bind {A B} (m : stM S A) (f : A → stM S B) :
  tracks m → (∀ a, tracks (f a)) → tracks (m ≫= f).
Proof using All.
  intros Hm Hf s b s' H. apply st_bind_Ok in H as (a & s1 & H1 & H2).
  etrans; [by eapply Hm|by eapply Hf].
Qed.

Lemma tracks_iter {A} (f : A → stM S unit) (l : list A) :
  (∀ x, tracks (f x)) → tracks (st_iter f l).
Proof using All. intros Hf. induction l; [apply tracks_ret|by apply tracks_bind]. Qed.
End tracks.

Lemma tracks_impl {S A} (R R' : S → S → Prop) (m : stM S A) :
  (∀ s s', R s s' → R' s s') → tracks R m → tracks R' m.
Proof. intros H Hm s a s' Hr. by eapply H, Hm. Qed.

Create HintDb tracks.
#[export] Hint Resolve tracks_ret tracks_get tracks_throw tracks_lift tracks_check
  tracks_bind tracks_iter : tracks.

(** Split every successful bind among the hypotheses. *)
Ltac inv_ok :=
  repeat match goal with
  | H : Ok _ = Ok _ |- _ => injection H; clear H; intros; subst
  | H : Ok _ = Err _ |- _ => discriminate H
  | H : Err _ = Ok _ |- _ => discriminate H
  | H : mret _ _ = Ok _ |- _ => unfold mret, st_ret in H
  | H : st_get _ = Ok _ |- _ => unfold st_get in H
  | H : st_put _ _ = Ok _ |- _ => unfold st_put in H
  | H : st_mod _ _ = Ok _ |- _ => unfold st_mod in H
  | H : st_throw _ _ = Ok _ |- _ => discriminate H
  | H : st_check _ _ _ = Ok _ |- _ => apply st_check_Ok in H as [? ->]
  | H : check _ _ = Ok _ |- _ => apply check_Ok in H
  | H : of_option _ _ = Ok _ |- _ => apply of_option_Ok in H
  | H : (_ ≫= _) _ = Ok (_, _) |- _ =>
      apply st_bind_Ok in H; destruct H as (? & ? & ? & ?)
  | H : (_ ≫= _) = Ok _ |- _ =>
      apply res_bind_Ok in H; destruct H as (? & ? & ?)
  end.

(** ** Machine integers: unsigned values of a width, as [Z] *)
Open Scope Z_scope.

#[global] Arguments Z.eqb : simpl never.
#[global] Arguments Z.leb : simpl never.
#[global] Arguments Z.ltb : simpl never.
#[global] Arguments Z.pow : simpl never.
#[global] Arguments Z.modulo : simpl never.
#[global] Arguments Z.div : simpl never.

Definition wrap (w : Z) (z : Z) : Z := z mod 2 ^ w.
Definition in_width (w : Z) (z : Z) : Prop := 0 ≤ z < 2 ^ w.

Abbreviation u8 := (wrap 8).
Abbreviation u16 := (wrap 16).
Abbreviation u32 := (wrap 32).
Abbreviation u64 := (wrap 64).

(** Two's-complement reading of a 64-bit pattern ([ssize_t]). *)
Definition s64 (z : Z) : Z :=
  let m := z mod 2 ^ 64 in if m <? 2 ^ 63 then m else m - 2 ^ 64.

Section wrap_lemmas.
Implicit Types w z : Z.

Lemma pow2_pos w : 0 ≤ w → 0 < 2 ^ w.
Proof. intros. by apply Z.pow_pos_nonneg. Qed.

Lemma wrap_in_width w z : 0 ≤ w → in_width w (wrap w z).
Proof. intros. apply Z.mod_pos_bound. by apply pow2_pos. Qed.

Lemma wrap_small w z : in_width w z → wrap w z = z.
Proof. intros. by apply Z.mod_small. Qed.

Lemma wrap_add_l w a b : wrap w (wrap w a + b) = wrap w (a + b).
Proof. unfold wrap. by rewrite Zplus_mod_idemp_l. Qed.

Lemma wrap_add_r w a b : wrap w (a + wrap w b) = wrap w (a + b).
Proof. unfold wrap. by rewrite Zplus_mod_idemp_r. Qed.

Lemma wrap_sub_l w a b : wrap w (wrap w a - b) = wrap w (a - b).
Proof. unfold wrap. by rewrite Zminus_mod_idemp_l. Qed.

Lemma wrap_wrap w z : wrap w (wrap w z) = wrap w z.
Proof. unfold wrap. by rewrite Zmod_mod. Qed.
End wrap_lemmas.

(** ** Bits *)
Lemma land_ones_mod z n : 0 ≤ n → Z.land z (Z.ones n) = z mod 2 ^ n.
Proof. intros. by apply Z.land_ones. Qed.

Lemma land_pow2_pred z n : 0 ≤ n → Z.land z (2 ^ n - 1) = z mod 2 ^ n.
Proof.
  intros. rewrite <- Z.land_ones by done. by rewrite Z.ones_equiv.
Qed.

(** ** Lists *)
Section list_lemmas.
Context {A : Type}.

(** Number of elements of a list that satisfy a boolean test. *)
Fixpoint countb (f : A → bool) (l : list A) : nat :=
  match l with
  | [] => 0
  | x :: l' => (if f x then 1 else 0) + countb f l'
  end%nat.

Lemma countb_app f (l k : list A) :
  countb f (l ++ k) = (countb f l + countb f k)%nat.
Proof. induction l; simpl; lia. Qed.

Lemma countb_insert f (l : list A) i x y :
  l !! i = Some x →
  (countb f (<[i:=y]> l) + (if f x then 1 else 0) =
   countb f l + (if f y then 1 else 0))%nat.
Proof.
  revert i. induction l as [|a l IH]; intros [|i] H; simplify_eq/=; [lia|].
  specialize (IH _ H). lia.
Qed.
End list_lemmas.

Create HintDb swift.
Create Rewrite HintDb swift.
#[export] Hint Resolve wrap_in_width pow2_pos : swift.
#[export] Hint Rewrite wrap_add_l wrap_add_r wrap_sub_l wrap_wrap : swift.
