(* ===== verification/Common.v ===== *)
(** * Common helpers of the runtime and of the host layer

    [base/types.h], [base/alignment.h] (the same text is
    [runtime/common/alignment.h]), [runtime/common/bit_fields.h],
    [runtime/common/common_funcs.h] and [runtime/common/virtual_vector.h]
    (the same text is [host/virtual_vector.h]). *)

From S2P Require Import Prelude.

(** ** Alignment *)
Module Align.

(** [operator ""_KB], [_MB], [_GB] of base/types.h: 64-bit products. *)
Definition lit_KB (n : Z) : Z := u64 (n * 1024).
Definition lit_MB (n : Z) : Z := u64 (lit_KB n * 1024).
Definition lit_GB (n : Z) : Z := u64 (lit_MB n * 1024).

(** [AlignUp<T>] and [AlignDown<T>] at a [w]-bit unsigned [T]; [value % size]
    is computed in 64 bits and cast back.  [size = 0] is undefined in C++ and
    excluded by every theorem. *)
Definition AlignUp (w value size : Z) : Z :=
  let md := wrap w (value mod size) in
  let value' := wrap w (value - md) in
  wrap w (if md =? 0 then value' else value' + size).

Definition AlignDown (w value size : Z) : Z :=
  wrap w (value - value mod size).

Section with_args.
Context (w value size : Z).
Context (Hw : 0 ≤ w ≤ 64) (Hv : in_width w value) (Hs : 0 < size).

Lemma mod_in_width : wrap w (value mod size) = value mod size.
Proof using Hv Hs Hw.
  apply wrap_small. unfold in_width in *.
  pose proof (Z.mod_pos_bound value size Hs).
  pose proof (Z.mod_le value size ltac:(lia) Hs). lia.
Qed.

Lemma AlignDown_spec :
  AlignDown w value size = size * (value / size).
Proof using Hv Hs Hw.
  unfold AlignDown. pose proof (Z.div_mod value size ltac:(lia)).
  pose proof (Z.mod_pos_bound value size Hs).
  pose proof (Z.mod_le value size ltac:(unfold in_width in *; lia) Hs).
  rewrite wrap_small; unfold in_width in *; lia.
Qed.

Lemma AlignUp_raw :
  AlignUp w value size =
  wrap w (if value mod size =? 0 then value else size * (value / size + 1)).
Proof using Hv Hs Hw.
  unfold AlignUp. cbv zeta. rewrite mod_in_width.
  pose proof (Z.div_mod value size ltac:(lia)).
  pose proof (Z.mod_pos_bound value size Hs).
  pose proof (Z.mod_le value size ltac:(unfold in_width in *; lia) Hs).
  destruct (Z.eqb_spec (value mod size) 0) as [E|E].
  - rewrite E, wrap_wrap. f_equal. lia.
  - rewrite wrap_add_l. f_equal. lia.
Qed.
End with_args.

(** Alignment of a value that leaves room for one more unit: the result is
    the least multiple of [size] that is at least [value]. *)
Lemma AlignUp_bounds w value size :
  0 ≤ w ≤ 64 → 0 < size → 0 ≤ value → value + size ≤ 2 ^ w →
  AlignUp w value size mod size = 0 ∧
  value ≤ AlignUp w value size < value + size.
Proof.
  intros Hw Hs H0 Hfit.
  rewrite AlignUp_raw by (unfold in_width; lia).
  pose proof (Z.div_mod value size ltac:(lia)).
  pose proof (Z.mod_pos_bound value size Hs).
  destruct (Z.eqb_spec (value mod size) 0) as [E|E].
  - rewrite wrap_small by (unfold in_width; lia). lia.
  - rewrite wrap_small by (unfold in_width; lia). split; [|lia].
    rewrite Z.mul_comm, Z.mod_mul; lia.
Qed.

(** On every unsigned width up to 64 bits, [AlignUp] of a value with
    [size] bytes of headroom is the least multiple of [size] at or above it,
    [AlignDown] the greatest at or below it, and both fix aligned values. *)
Theorem align_least_greatest w value size :
  0 ≤ w ≤ 64 → 0 < size → 0 ≤ value → value + size ≤ 2 ^ w →
  (∀ m, value ≤ m * size → AlignUp w value size ≤ m * size) ∧
  (∀ m, m * size ≤ value → m * size ≤ AlignDown w value size) ∧
  value ≤ AlignUp w value size ∧ AlignDown w value size ≤ value ∧
  (size | AlignUp w value size) ∧ (size | AlignDown w value size) ∧
  ((size | value) → AlignUp w value size = value ∧ AlignDown w value size = value).
Proof.
  intros Hw Hs H0 Hfit.
  destruct (AlignUp_bounds w value size) as [Hm Hb]; try done.
  apply Z.mod_divide in Hm as [q Hq]; [|lia].
  rewrite (AlignDown_spec w value size) by (unfold in_width; lia).
  pose proof (Z.div_mod value size ltac:(lia)).
  pose proof (Z.mod_pos_bound value size Hs).
  set (u := AlignUp w value size) in *. clearbody u. subst u.
  set (d := value / size) in *. set (r := value mod size) in *. clearbody d r.
  split_and!; try nia.
  - intros m Hm. assert (q < m + 1) by nia. nia.
  - intros m Hm. assert (m < d + 1) by nia. nia.
  - by exists q.
  - exists d. lia.
  - intros [k ->]. assert (q = k) by nia. assert (d = k) by nia. nia.
Qed.

Lemma align_least_greatest_witness :
  AlignUp 64 0x1001 0x1000 = 0x2000 ∧ 0x1001 ≤ AlignUp 64 0x1001 0x1000.
Proof.
  split; [reflexivity|].
  apply (align_least_greatest 64 0x1001 0x1000); lia.
Defined.

End Align.

(** ** Bit fields *)
Module BitField.

(** [BitField<position, bits, T>] for a [w]-bit [T] with [32 ≤ w]: below 32
    bits C++ would promote [~(T)0] to [int].  A shift by [w] or more is
    undefined, so [position < w]. *)
Definition mask (position bits w : Z) : Z :=
  wrap w (Z.shiftl (Z.shiftr (2 ^ w - 1) (w - bits)) position).

Definition set (position bits w storage val : Z) : Z :=
  Z.lor (Z.land storage (wrap w (Z.lnot (mask position bits w))))
        (Z.land (wrap w (Z.shiftl val position)) (mask position bits w)).

Definition get (position bits w storage : Z) : Z :=
  Z.shiftr (Z.land storage (mask position bits w)) position.

Lemma wrap_testbit w z i :
  0 ≤ w → 0 ≤ i → Z.testbit (wrap w z) i = (i <? w) && Z.testbit z i.
Proof.
  intros. unfold wrap. destruct (Z.ltb_spec i w).
  - rewrite Z.mod_pow2_bits_low; [done|lia].
  - rewrite Z.mod_pow2_bits_high; [done|lia].
Qed.

Lemma in_width_testbit_high w z i :
  0 ≤ w → in_width w z → w ≤ i → Z.testbit z i = false.
Proof.
  intros Hw Hz Hi. rewrite <- (wrap_small w z) by done.
  rewrite wrap_testbit by lia. destruct (Z.ltb_spec i w); [lia|done].
Qed.

Section field.
Context (position bits w : Z).
Context (Hpos : 0 ≤ position < w) (Hbits : 0 < bits ≤ w).

Lemma mask_testbit i :
  0 ≤ i →
  Z.testbit (mask position bits w) i =
  (position <=? i) && (i <? Z.min w (position + bits)).
Proof using Hpos Hbits.
  intros Hi. unfold mask. rewrite wrap_testbit, Z.shiftl_spec by lia.
  destruct (Z.leb_spec position i).
  2:{ rewrite (Z.testbit_neg_r _ (i - position)) by lia. by rewrite andb_false_r. }
  rewrite Z.shiftr_spec by lia.
  replace (2 ^ w - 1) with (Z.ones w) by (rewrite Z.ones_equiv; lia).
  destruct (Z.ltb_spec i w), (Z.ltb_spec i (Z.min w (position + bits)));
    try lia; simpl; try done.
  - apply Z.ones_spec_low. lia.
  - apply Z.ones_spec_high. lia.
Qed.

Lemma set_testbit storage val i :
  in_width w storage → 0 ≤ i →
  Z.testbit (set position bits w storage val) i =
  if (position <=? i) && (i <? Z.min w (position + bits))
  then Z.testbit val (i - position) else Z.testbit storage i.
Proof using Hpos Hbits.
  intros Hst Hi. unfold set.
  rewrite Z.lor_spec, !Z.land_spec, !wrap_testbit, Z.lnot_spec,
    Z.shiftl_spec, mask_testbit by lia.
  destruct (Z.leb_spec position i), (Z.ltb_spec i (Z.min w (position + bits))),
    (Z.ltb_spec i w); simpl; rewrite ?andb_true_r, ?andb_false_r, ?orb_false_r;
    try lia; try done.
  all: by rewrite (in_width_testbit_high w storage i) by (done || lia).
Qed.

Lemma get_testbit storage i :
  0 ≤ i →
  Z.testbit (get position bits w storage) i =
  (i <? Z.min bits (w - position)) && Z.testbit storage (i + position).
Proof using Hpos Hbits.
  intros Hi. unfold get. rewrite Z.shiftr_spec, Z.land_spec, mask_testbit by lia.
  destruct (Z.leb_spec position (i + position)); [|lia].
  destruct (Z.ltb_spec (i + position) (Z.min w (position + bits))),
    (Z.ltb_spec i (Z.min bits (w - position))); try lia;
    by rewrite ?andb_true_r, ?andb_false_r.
Qed.
End field.

Lemma get_set_value position bits w storage val :
  0 ≤ position < w → 0 < bits ≤ w → in_width w storage →
  get position bits w (set position bits w storage val) =
    val mod 2 ^ Z.min bits (w - position).
Proof.
  intros Hpos Hbits Hst. apply Z.bits_inj'. intros i Hi.
  rewrite get_testbit, set_testbit by (done || lia).
  fold (wrap (Z.min bits (w - position)) val). rewrite wrap_testbit by lia.
  destruct (Z.ltb_spec i (Z.min bits (w - position))); [|done]. simpl.
  destruct (Z.leb_spec position (i + position)); [|lia].
  destruct (Z.ltb_spec (i + position) (Z.min w (position + bits))); [|lia].
  simpl. f_equal. lia.
Qed.

(** Assigning a bit field and reading it back gives the assigned value
    reduced to the bits of the field that lie inside the storage, and leaves
    every bit of the storage outside the field as it was. *)
Theorem get_set position bits w storage val :
  0 ≤ position < w → 0 < bits ≤ w → in_width w storage →
  get position bits w (set position bits w storage val) =
    val mod 2 ^ Z.min bits (w - position) ∧
  ∀ i, 0 ≤ i → i < position ∨ position + bits ≤ i →
    Z.testbit (set position bits w storage val) i = Z.testbit storage i.
Proof.
  intros Hpos Hbits Hst. split; [by apply get_set_value|].
  intros i Hi Hout. rewrite set_testbit by done.
  destruct (Z.leb_spec position i), (Z.ltb_spec i (Z.min w (position + bits)));
    simpl; try done; lia.
Qed.

Lemma get_set_witness :
  get 4 8 32 (set 4 8 32 0xFFFF 0xAB) = 0xAB ∧ in_width 32 0xFFFF.
Proof.
  assert (H : in_width 32 0xFFFF) by (unfold in_width; lia). split; [|exact H].
  rewrite (proj1 (get_set 4 8 32 0xFFFF 0xAB ltac:(lia) ltac:(lia) H)).
  reflexivity.
Defined.

(** *** [JitCache] of backend/jit_code.h *)
Record JitCache := { cache_id : Z; offset_in : Z }.

Definition set_CacheID (s : Z) (v : Z) : Z := set 0 8 32 s v.
Definition get_CacheID (s : Z) : Z := get 0 8 32 s.
Definition set_Offset (s : Z) (v : Z) : Z := set 9 32 32 s v.
Definition get_Offset (s : Z) : Z := get 9 32 32 s.

(** [JitCache::Offset] is declared 32 bits wide at position 9 of a
    32-bit storage: an offset is stored faithfully exactly when it is below
    2^23, larger offsets lose their upper nine bits. *)
Theorem JitCache_offset_capacity s v :
  in_width 32 s → in_width 32 v →
  get_Offset (set_Offset s v) = v mod 2 ^ 23 ∧
  (get_Offset (set_Offset s v) = v ↔ v < 2 ^ 23).
Proof.
  intros Hs Hv. unfold get_Offset, set_Offset.
  rewrite get_set_value by (done || lia).
  change (Z.min 32 (32 - 9)) with 23. unfold in_width in Hv.
  split; [done|]. split; [|intros; apply Z.mod_small; lia].
  intros <-. apply Z.mod_pos_bound. lia.
Qed.

Lemma JitCache_offset_capacity_witness :
  get_Offset (set_Offset 0 0x800000) = 0 ∧ in_width 32 0x800000.
Proof.
  assert (H : in_width 32 0x800000) by (unfold in_width; lia). split; [|exact H].
  rewrite (proj1 (JitCache_offset_capacity 0 0x800000
    ltac:(unfold in_width; lia) H)). reflexivity.
Defined.

End BitField.

(** ** Functions of [common_funcs.h] *)
Module Funcs.

(** The bit operators that [DECLARE_ENUM_FLAG_OPERATORS] generates, on the
    [w]-bit underlying type. *)
Definition flag_or (a b : Z) : Z := Z.lor a b.
Definition flag_and (a b : Z) : Z := Z.land a b.
Definition flag_xor (a b : Z) : Z := Z.lxor a b.
Definition flag_shl (w a b : Z) : Z := wrap w (Z.shiftl a b).
Definition flag_shr (a b : Z) : Z := Z.shiftr a b.
Definition flag_not (w a : Z) : Z := wrap w (Z.lnot a).
Definition flag_True (a : Z) : bool := negb (a =? 0).
Definition flag_False (a : Z) : bool := a =? 0.

(** [EndWith]: [str.compare(pos, n, suffix)] compares the [n] characters of
    [str] from [pos] with [suffix]. *)
Definition EndWith (str suffix : list Ascii.ascii) : bool :=
  (length suffix <=? length str)%nat &&
  bool_decide (take (length suffix)
    (drop (length str - length suffix) str) = suffix).

(** [ContainsElement] throws unless [start_pos] is inside the container, so
    also on an empty container. *)
Definition ContainsElement {A} `{EqDecision A}
    (container : list A) (value : A) (start_pos : nat) : res bool :=
  check (start_pos <? length container)%nat AssertFailed ≫= λ _,
  Ok (bool_decide (value ∈ drop start_pos container)).

Lemma EndWith_spec str suffix :
  EndWith str suffix = true ↔ ∃ prefix, str = prefix ++ suffix.
Proof.
  unfold EndWith. rewrite andb_true_iff, Nat.leb_le, bool_decide_eq_true.
  split.
  - intros [Hlen Heq]. exists (take (length str - length suffix) str).
    rewrite <- Heq at 2.
    rewrite (take_ge (drop _ _)) by (rewrite length_drop; lia).
    by rewrite take_drop.
  - intros [p ->]. rewrite length_app. split; [lia|].
    replace (length p + length suffix - length suffix)%nat with (length p) by lia.
    rewrite drop_app_length. by apply take_ge.
Qed.

Lemma ContainsElement_spec {A} `{EqDecision A} (l : list A) x :
  l ≠ [] → ContainsElement l x 0 = Ok (bool_decide (x ∈ l)).
Proof. by destruct l. Qed.

End Funcs.

(** ** [VirtualVector] *)
Module VirtualVector.

(** The pages come from the operating system: [mmap] gives a base address or
    fails, [munmap] tells whether it succeeded. *)
Record PageOS := {
  os_mmap : Z → option Z;
  os_munmap : Z → Z → bool;
}.

(** [AllocateMemoryPages]: [ASSERT(base)] after a failed [mmap], in a function
    that is [noexcept]. *)
Definition AllocateMemoryPages (os : PageOS) (size : Z) : res Z :=
  of_option Aborted (os_mmap os size).

(** [FreeMemoryPages], [noexcept] too: nothing for a null base,
    [ASSERT(munmap == 0)] else. *)
Definition FreeMemoryPages (os : PageOS) (base : option Z) (size : Z) : res unit :=
  match base with
  | None => Ok tt
  | Some b => check (os_munmap os b size) Aborted
  end.

Record t := mk { alloc_size : Z; base_ptr : option Z; start_index : Z }.

Section ops.
Context (os : PageOS) (sizeof_T : Z).

Definition make (count : Z) : res t :=
  let sz := u64 (count * sizeof_T) in
  b ← AllocateMemoryPages os sz;
  Ok (mk sz (Some b) 0).

Definition resize (v : t) (count : Z) : res t :=
  let new_size := u64 (count * sizeof_T) in
  if new_size =? alloc_size v then Ok v else
  _ ← FreeMemoryPages os (base_ptr v) (alloc_size v);
  b ← AllocateMemoryPages os new_size;
  Ok (mk new_size (Some b) (start_index v)).

(** [operator[]]: the address of element [index - start_index]. *)
Definition elem_addr (v : t) (index : Z) : res Z :=
  match base_ptr v with
  | None => Err NullDeref
  | Some b => Ok (u64 (b + u64 (index - start_index v) * sizeof_T))
  end.

Definition size (v : t) : Z := alloc_size v / sizeof_T.
Definition SetStartIndex (v : t) (index : Z) : t :=
  mk (alloc_size v) (base_ptr v) index.

Definition Overlap (v : t) (index : Z) : bool :=
  let i := s64 (index - start_index v) in
  (0 <=? i) && (i <=? size v).

Lemma resize_size v count v' :
  0 < sizeof_T → 0 ≤ count → count * sizeof_T < 2 ^ 64 →
  resize v count = Ok v' → size v' = count ∧ start_index v' = start_index v.
Proof.
  intros Hs Hc Hfit. unfold resize. cbv zeta.
  rewrite wrap_small by (unfold in_width; nia).
  destruct (Z.eqb_spec (count * sizeof_T) (alloc_size v)) as [E|E];
    intros; inv_ok; unfold size; simpl; [rewrite <- E|]; split; try done;
    by apply Z.div_mul; lia.
Qed.

(** [Overlap] accepts the indices from [start_index] up to and
    including [start_index + size()]: one index past the last element that
    [operator[]] may be used with. *)
Theorem Overlap_range v index :
  in_width 63 (start_index v) → in_width 63 index →
  Overlap v index = true ↔
  start_index v ≤ index ≤ start_index v + size v.
Proof.
  unfold in_width. intros Hs Hi. unfold Overlap, s64. cbv zeta.
  destruct (Z.le_gt_cases (start_index v) index) as [H|H].
  - rewrite Z.mod_small by lia.
    destruct (Z.ltb_spec (index - start_index v) (2 ^ 63)); [|lia].
    rewrite andb_true_iff, !Z.leb_le. lia.
  - replace (index - start_index v) with
      (index - start_index v + 2 ^ 64 + (-1) * 2 ^ 64) by lia.
    rewrite Z.mod_add, Z.mod_small by lia.
    destruct (Z.ltb_spec (index - start_index v + 2 ^ 64) (2 ^ 63)); [lia|].
    rewrite andb_true_iff, !Z.leb_le. lia.
Qed.
End ops.

Lemma Overlap_range_witness :
  Overlap 8 (mk 32 (Some 0x1000) 10) 14 = true ∧ in_width 63 14.
Proof.
  assert (H : in_width 63 14) by (unfold in_width; lia). split; [|exact H].
  apply (Overlap_range 8 (mk 32 (Some 0x1000) 10) 14); [|exact H|].
  - unfold in_width. cbn [start_index]. lia.
  - unfold size. cbn [start_index alloc_size]. change (32 / 8) with 4. lia.
Defined.

End VirtualVector.
