(* ===== verification/Pools.v ===== *)
(** * Memory pools of the runtime

    [runtime/common/mem_arena.h] (bump allocation in byte chunks) and
    [runtime/common/object_pool.h] (slots of one type in chunks). *)

From S2P Require Import Prelude.

(** ** [MemArena] *)
Module MemArena.

(** A [Chunk] keeps its fill and its capacity; its [storage] is a buffer of
    [num_size] bytes of its own, named by the chunk's position.  [node]
    points to the chunk allocated last. *)
Record Chunk := mkChunk { used_size : Z; num_size : Z }.

Record t := mk { chunks : list Chunk; node : nat; new_chunk_size : Z }.

(** A block of memory handed out: [len] bytes at [off] of chunk [chunk]. *)
Record ptr := mkPtr { chunk : nat; off : Z; len : Z }.

Definition make (chunk_size : Z) : t :=
  mk [mkChunk 0 chunk_size] 0 chunk_size.

Definition FreeChunk (a : t) (size : Z) : res (nat * t) :=
  c ← of_option NullDeref (chunks a !! node a);
  if u64 (used_size c + size) <=? num_size c then Ok (node a, a)
  else
    let n := length (chunks a) in
    Ok (n, mk (chunks a ++ [mkChunk 0 (new_chunk_size a)]) n (new_chunk_size a)).

(** [Memory(size)]: the bytes from [used_size] of the chunk that [FreeChunk]
    returns; nothing checks that they fit in it. *)
Definition Memory (a : t) (size : Z) : res (ptr * t) :=
  '(i, a1) ← FreeChunk a size;
  c ← of_option NullDeref (chunks a1 !! i);
  Ok (mkPtr i (used_size c) size,
      mk (<[i := mkChunk (u64 (used_size c + size)) (num_size c)]> (chunks a1))
         (node a1) (new_chunk_size a1)).

(** [Create<T>] and [CreateArray<T>]. *)
Definition Create (a : t) (sizeof_T : Z) : res (ptr * t) := Memory a sizeof_T.
Definition CreateArray (a : t) (sizeof_T n : Z) : res (ptr * t) :=
  Memory a (u64 (sizeof_T * n)).

(** The block lies inside the storage of its chunk. *)
Definition in_bounds (a : t) (p : ptr) : Prop :=
  ∃ c, chunks a !! chunk p = Some c ∧ 0 ≤ off p ∧ off p + len p ≤ num_size c.

Definition disjoint_ptr (p q : ptr) : Prop :=
  chunk p ≠ chunk q ∨ off p + len p ≤ off q ∨ off q + len q ≤ off p.

(** The invariant: [node] is the last chunk, fills are within capacities, and
    the blocks [live] handed out so far lie below the fill of their chunk. *)
Record inv (a : t) (live : list ptr) : Prop := {
  inv_node : S (node a) = length (chunks a);
  inv_size : in_width 63 (new_chunk_size a);
  inv_fill : ∀ i c, chunks a !! i = Some c →
    0 ≤ used_size c ≤ num_size c ∧ num_size c = new_chunk_size a;
  inv_live : ∀ p, p ∈ live → ∃ c, chunks a !! chunk p = Some c ∧
    0 ≤ off p ∧ 0 ≤ len p ∧ off p + len p ≤ used_size c;
  inv_disj : ∀ i j p q, i ≠ j → live !! i = Some p → live !! j = Some q →
    disjoint_ptr p q;
}.

Lemma arena_inv_make sz : in_width 63 sz → inv (make sz) [].
Proof.
  intros Hsz. split; simpl; try done.
  - intros i c Hc. destruct i; simplify_eq/=. unfold in_width in Hsz. lia.
  - intros p Hp. by apply elem_of_nil in Hp.
Qed.

Section memory.
Context (a : t) (live : list ptr) (size : Z).
Context (Hinv : inv a live) (Hsize : 0 ≤ size ≤ new_chunk_size a).

(** The chunk chosen has room, and the other chunks are the old ones. *)
Lemma arena_FreeChunk_room :
  ∃ i a1 c, FreeChunk a size = Ok (i, a1) ∧ inv a1 live ∧
    new_chunk_size a1 = new_chunk_size a ∧
    node a1 = i ∧ chunks a1 !! i = Some c ∧ used_size c + size ≤ num_size c.
Proof using Hinv Hsize.
  destruct Hinv as [Hnode Hncs Hfill Hlive Hdisj].
  destruct (lookup_lt_is_Some_2 (chunks a) (node a)) as [c Hc]; [lia|].
  destruct (Hfill _ _ Hc) as [Hu Hn]. unfold in_width in Hncs.
  unfold FreeChunk. rewrite Hc. simpl.
  rewrite wrap_small by (unfold in_width; lia).
  destruct (Z.leb_spec (used_size c + size) (num_size c)).
  { exists (node a), a, c. split_and!; done. }
  eexists _, _, _. split; [reflexivity|]. simpl.
  rewrite lookup_app_r, Nat.sub_diag by lia. split_and!; try done; [|simpl; lia].
  split; simpl; try done.
  - rewrite length_app. simpl. lia.
  - intros i c' Hc'. apply lookup_app_Some in Hc' as [Hc'|[_ Hc']]; [eauto|].
    destruct (i - length (chunks a))%nat; simplify_eq/=. lia.
  - intros p Hp. destruct (Hlive p Hp) as (c' & Hc' & ?).
    exists c'. split; [by apply lookup_app_l_Some|done].
Qed.

Lemma arena_Memory_inv :
  ∃ p a', Memory a size = Ok (p, a') ∧ inv a' (p :: live) ∧ len p = size ∧
    in_bounds a' p ∧ new_chunk_size a' = new_chunk_size a.
Proof using Hinv Hsize.
  destruct arena_FreeChunk_room as (i & a1 & c & HF & H1 & Hncs & Hi & Hc & Hroom).
  destruct H1 as [Hnode1 Hw Hfill Hlive Hdisj].
  destruct (Hfill _ _ Hc) as [Hu Hn]. unfold in_width in Hw.
  unfold Memory. rewrite HF. simpl. rewrite Hc. simpl.
  rewrite wrap_small by (unfold in_width; lia).
  assert (Hlt : (i < length (chunks a1))%nat) by (by eapply lookup_lt_Some).
  set (c' := mkChunk (used_size c + size) (num_size c)).
  assert (Hup : ∀ j d, <[i:=c']> (chunks a1) !! j = Some d →
            (j = i ∧ d = c') ∨ (j ≠ i ∧ chunks a1 !! j = Some d)).
  { intros j d. rewrite list_lookup_insert. case_decide; naive_solver. }
  eexists _, _. split; [reflexivity|]. simpl. split_and!; try done.
  2:{ exists c'. simpl. rewrite list_lookup_insert_eq by done. split_and!; [done|lia|lia]. }
  split; simpl; try done.
  - rewrite length_insert. lia.
  - intros j d Hd. destruct (Hup _ _ Hd) as [[-> ->]|[_ ?]]; [simpl; lia|eauto].
  - intros p [->|Hp]%elem_of_cons.
    { exists c'. simpl. rewrite list_lookup_insert_eq by done. split_and!; [done|lia..]. }
    destruct (Hlive p Hp) as (d & Hd & ?).
    destruct (decide (chunk p = i)) as [E|E].
    + exists c'. rewrite E, list_lookup_insert_eq by done.
      rewrite E in Hd. simplify_eq. simpl. split_and!; [done|lia..].
    + exists d. by rewrite list_lookup_insert_ne by done.
  - assert (Hnew : ∀ q, q ∈ live → disjoint_ptr (mkPtr i (used_size c) size) q).
    { intros q Hq. destruct (Hlive q Hq) as (d & Hd & ?).
      destruct (decide (chunk q = i)) as [E|E]; [|by left].
      rewrite E in Hd. simplify_eq. right. simpl. lia. }
    assert (Hsym : ∀ p q, disjoint_ptr p q → disjoint_ptr q p)
      by (unfold disjoint_ptr; intuition).
    intros [|j] [|k] p q Hjk Hp Hq; simplify_eq/=; try done.
    + apply Hnew. by eapply list_elem_of_lookup_2.
    + apply Hsym, Hnew. by eapply list_elem_of_lookup_2.
    + eapply (Hdisj j k); [lia|done|done].
Qed.
End memory.

(** A sequence of requests. *)
Fixpoint alloc_all (a : t) (sizes : list Z) : res (list ptr * t) :=
  match sizes with
  | [] => Ok ([], a)
  | sz :: rest =>
      '(p, a1) ← Memory a sz;
      '(ps, a2) ← alloc_all a1 rest;
      Ok (p :: ps, a2)
  end.

Lemma alloc_all_inv a live sizes :
  inv a live → Forall (λ sz, 0 ≤ sz ≤ new_chunk_size a) sizes →
  ∃ ps a', alloc_all a sizes = Ok (ps, a') ∧ inv a' (reverse ps ++ live) ∧
    map len ps = sizes.
Proof.
  revert a live. induction sizes as [|sz rest IH]; intros a live Hinv HF; simpl.
  { exists [], a. done. }
  apply Forall_cons in HF as [Hsz HF].
  destruct (arena_Memory_inv a live sz Hinv Hsz) as (p & a1 & -> & Hinv1 & Hl & _ & Hncs).
  simpl.
  destruct (IH a1 (p :: live) Hinv1) as (ps & a' & -> & Hinv' & Hm).
  { by rewrite Hncs. }
  exists (p :: ps), a'. simpl. rewrite reverse_cons, <- app_assoc. split_and!; [done..|].
  by f_equal.
Qed.

(** As long as no request is larger than the chunk size, every block
    that the arena hands out lies inside the storage of its chunk and no two
    blocks overlap. *)
Theorem arena_blocks_valid sz sizes :
  in_width 63 sz → Forall (λ n, 0 ≤ n ≤ sz) sizes →
  ∃ ps a, alloc_all (make sz) sizes = Ok (ps, a) ∧ map len ps = sizes ∧
    Forall (in_bounds a) ps ∧
    ∀ i j p q, i ≠ j → ps !! i = Some p → ps !! j = Some q → disjoint_ptr p q.
Proof.
  intros Hsz HF.
  destruct (alloc_all_inv (make sz) [] sizes) as (ps & a & He & Hinv & Hm);
    [by apply arena_inv_make|done|].
  rewrite app_nil_r in Hinv. exists ps, a. split_and!; try done.
  - apply Forall_forall. intros p Hp.
    destruct (inv_live _ _ Hinv p) as (c & Hc & ?); [by apply elem_of_reverse|].
    exists c. destruct (inv_fill _ _ Hinv _ _ Hc). split_and!; [done|lia..].
  - intros i j p q Hij Hp Hq.
    pose proof (lookup_lt_Some _ _ _ Hp). pose proof (lookup_lt_Some _ _ _ Hq).
    eapply (inv_disj _ _ Hinv (length ps - S i) (length ps - S j)); [lia|..];
      rewrite reverse_lookup by lia; rewrite <- ?Hp, <- ?Hq; f_equal; lia.
Qed.

Lemma arena_blocks_valid_witness :
  in_width 63 512 ∧
  ∃ ps a, alloc_all (make 512) [400; 200; 8] = Ok (ps, a) ∧ map len ps = [400; 200; 8].
Proof.
  assert (H : in_width 63 512) by (unfold in_width; lia). split; [exact H|].
  destruct (arena_blocks_valid 512 [400; 200; 8] H) as (ps & a & He & Hl & _).
  - repeat constructor; lia.
  - exists ps, a. by split.
Defined.

(** A request larger than the chunk size is served from a chunk that is
    too small for it: the block reaches past the end of the storage.  The
    arena of [HIRPools{1}] has 512-byte chunks, so the vector of block
    pointers of a function with 65 blocks is such a request. *)
Theorem arena_large_request_overflows sz a live size p a' :
  in_width 63 sz → inv a live → new_chunk_size a = sz →
  sz < size → size < 2 ^ 63 →
  Memory a size = Ok (p, a') → ¬ in_bounds a' p.
Proof.
  intros Hsz [Hnode Hncs Hfill Hlive Hdisj] <- Hbig Hmax HM (c & Hc & Ho & Hend).
  destruct (lookup_lt_is_Some_2 (chunks a) (node a)) as [d Hd]; [lia|].
  destruct (Hfill _ _ Hd) as [Hu Hn]. unfold in_width in *.
  unfold Memory, FreeChunk in HM. rewrite Hd in HM. simpl in HM.
  rewrite wrap_small in HM by (unfold in_width; lia).
  destruct (Z.leb_spec (used_size d + size) (num_size d)); [lia|].
  simpl in HM. rewrite lookup_app_r, Nat.sub_diag in HM by lia. simpl in HM. inv_ok.
  simpl in Hc. rewrite list_lookup_insert_eq in Hc by (rewrite length_app; simpl; lia).
  simplify_eq/=. lia.
Qed.

Lemma arena_large_request_overflows_witness :
  ∃ p a', CreateArray (make 512) 8 65 = Ok (p, a') ∧ ¬ in_bounds a' p.
Proof.
  assert (H : in_width 63 512) by (unfold in_width; lia).
  eexists _, _. split; [reflexivity|].
  eapply (arena_large_request_overflows 512 (make 512) [] 520 _ _ H (arena_inv_make 512 H));
    [reflexivity|lia|lia|reflexivity].
Defined.

End MemArena.

(** ** [ObjectPool] *)
Module ObjectPool.

Record Chunk := mkChunk { used_objects : Z; num_objects : Z }.

Record t := mk { chunks : list Chunk; node : nat; new_chunk_size : Z }.

(** A slot: entry [index] of the storage of chunk [chunk]. *)
Record slot := mkSlot { chunk : nat; index : Z }.

(** The constructor sizes the chunks in bytes ([chunk_size * sizeof(T)]) and
    uses that number as a number of objects. *)
Definition make (chunk_size sizeof_T : Z) : t :=
  let n := u64 (chunk_size * sizeof_T) in mk [mkChunk 0 n] 0 n.

Definition FreeChunk (p : t) : res (nat * t) :=
  c ← of_option NullDeref (chunks p !! node p);
  if negb (used_objects c =? num_objects c) then Ok (node p, p)
  else
    let n := length (chunks p) in
    Ok (n, mk (chunks p ++ [mkChunk 0 (new_chunk_size p)]) n (new_chunk_size p)).

(** [Memory()], and [Create], which constructs the object in the slot. *)
Definition Memory (p : t) : res (slot * t) :=
  '(i, p1) ← FreeChunk p;
  c ← of_option NullDeref (chunks p1 !! i);
  Ok (mkSlot i (used_objects c),
      mk (<[i := mkChunk (u64 (used_objects c + 1)) (num_objects c)]> (chunks p1))
         (node p1) (new_chunk_size p1)).

Definition Create (p : t) : res (slot * t) := Memory p.

(** [Chunk::Release]. *)
Definition Release (c : Chunk) : Chunk := mkChunk 0 (num_objects c).

Definition ReleaseContents (p : t) : t :=
  match chunks p with
  | [] => p
  | root :: rest =>
      if used_objects root =? num_objects root then
        let total :=
          u64 (num_objects root + new_chunk_size p * Z.of_nat (length rest)) in
        mk [mkChunk 0 total] 0 (new_chunk_size p)
      else mk [Release root] 0 (new_chunk_size p)
  end.

Definition capacity (p : t) : Z := foldr (λ c n, num_objects c + n) 0 (chunks p).

(** The invariant over the slots [live] created since the last release. *)
Record inv (p : t) (live : list slot) : Prop := {
  inv_node : S (node p) = length (chunks p);
  inv_ncs : 0 < new_chunk_size p;
  inv_cap : capacity p + new_chunk_size p < 2 ^ 64;
  inv_fill : ∀ i c, chunks p !! i = Some c →
    0 ≤ used_objects c ≤ num_objects c ∧ 0 < num_objects c;
  inv_tail : ∀ i c, chunks p !! S i = Some c → num_objects c = new_chunk_size p;
  inv_live : ∀ s, s ∈ live → ∃ c, chunks p !! chunk s = Some c ∧
    0 ≤ index s < used_objects c;
  inv_nodup : NoDup live;
}.

Lemma capacity_app l k n m :
  capacity (mk (l ++ k) n m) = capacity (mk l n m) + capacity (mk k n m).
Proof. unfold capacity. simpl. induction l; simpl in *; lia. Qed.

Lemma capacity_insert l i c d n m :
  l !! i = Some c → num_objects d = num_objects c →
  capacity (mk (<[i:=d]> l) n m) = capacity (mk l n m).
Proof.
  unfold capacity. simpl. revert i. induction l as [|x l IH]; intros [|i] H E;
    simplify_eq/=; [lia|]. specialize (IH _ H E). lia.
Qed.

Lemma capacity_lookup l i c n m :
  (∀ i c, l !! i = Some c → 0 < num_objects c) → l !! i = Some c →
  num_objects c ≤ capacity (mk l n m).
Proof.
  unfold capacity. simpl. intros Hpos. revert i.
  assert (Hge : ∀ k, (∀ i c, k !! i = Some c → 0 < num_objects c) →
    0 ≤ foldr (λ c z, num_objects c + z) 0 k).
  { clear. induction k as [|x k IH]; intros Hp; simpl; [lia|].
    specialize (IH (λ i, Hp (S i))). pose proof (Hp 0%nat x eq_refl). lia. }
  induction l as [|x l IH]; intros [|i] H; simplify_eq/=.
  - specialize (Hge l (λ i, Hpos (S i))). lia.
  - specialize (IH (λ i, Hpos (S i)) _ H). pose proof (Hpos 0%nat x eq_refl). lia.
Qed.

Lemma pool_inv_make chunk_size sizeof_T :
  0 < chunk_size * sizeof_T < 2 ^ 63 → inv (make chunk_size sizeof_T) [].
Proof.
  intros H. unfold make. cbv zeta. rewrite wrap_small by (unfold in_width; lia).
  split; simpl; try done; try lia.
  - unfold capacity. simpl. lia.
  - intros i c Hc. destruct i; simplify_eq/=. lia.
  - intros s Hs. by apply elem_of_nil in Hs.
  - constructor.
Qed.

Section memory.
Context (p : t) (live : list slot).
Context (Hinv : inv p live) (Hroom : capacity p + 2 * new_chunk_size p < 2 ^ 64).

Lemma pool_FreeChunk_room :
  ∃ i p1 c, FreeChunk p = Ok (i, p1) ∧ inv p1 live ∧
    new_chunk_size p1 = new_chunk_size p ∧
    node p1 = i ∧ chunks p1 !! i = Some c ∧ used_objects c < num_objects c ∧
    (used_objects c = 0 ∨ p1 = p).
Proof using Hinv Hroom.
  destruct Hinv as [Hnode Hncs Hcap Hfill Htail Hlive Hnd].
  destruct (lookup_lt_is_Some_2 (chunks p) (node p)) as [c Hc]; [lia|].
  destruct (Hfill _ _ Hc) as [Hu Hn].
  unfold FreeChunk. rewrite Hc. simpl.
  destruct (Z.eqb_spec (used_objects c) (num_objects c)) as [E|E]; simpl.
  2:{ exists (node p), p, c. split_and!; try done; [lia|by right]. }
  eexists _, _, _. split; [reflexivity|]. simpl.
  rewrite lookup_app_r, Nat.sub_diag by lia.
  split_and!; try done; [|by left].
  split; simpl; try done.
  - rewrite length_app. simpl. lia.
  - rewrite capacity_app. destruct p as [l nd m]. simpl in *.
    unfold capacity at 2. simpl. unfold capacity in Hroom |- *. simpl in *. lia.
  - intros i d Hd. apply lookup_app_Some in Hd as [Hd|[_ Hd]]; [eauto|].
    destruct (i - length (chunks p))%nat; simplify_eq/=. lia.
  - intros i d Hd. apply lookup_app_Some in Hd as [Hd|[_ Hd]]; [eauto|].
    destruct (S i - length (chunks p))%nat; simplify_eq/=. done.
  - intros s Hs. destruct (Hlive s Hs) as (d & Hd & ?).
    exists d. split; [by apply lookup_app_l_Some|done].
Qed.

Lemma pool_Memory_inv :
  ∃ s p', Memory p = Ok (s, p') ∧ inv p' (s :: live) ∧
    new_chunk_size p' = new_chunk_size p.
Proof using Hinv Hroom.
  destruct pool_FreeChunk_room as (i & p1 & c & HF & H1 & Hncs & Hi & Hc & Hlt & _).
  destruct H1 as [Hnode Hn1 Hcap Hfill Htail Hlive Hnd].
  destruct (Hfill _ _ Hc) as [Hu Hn].
  assert (num_objects c ≤ capacity p1).
  { destruct p1 as [l nd m]. eapply capacity_lookup; [|done].
    intros j d Hd. by destruct (Hfill _ _ Hd). }
  unfold Memory. rewrite HF. simpl. rewrite Hc. simpl.
  rewrite wrap_small by (unfold in_width; lia).
  assert (Hlen : (i < length (chunks p1))%nat) by (by eapply lookup_lt_Some).
  set (c' := mkChunk (used_objects c + 1) (num_objects c)).
  assert (Hup : ∀ j d, <[i:=c']> (chunks p1) !! j = Some d →
            (j = i ∧ d = c') ∨ (j ≠ i ∧ chunks p1 !! j = Some d)).
  { intros j d. rewrite list_lookup_insert. case_decide; naive_solver. }
  eexists _, _. split; [reflexivity|]. split; [|done].
  split; simpl; try done.
  - rewrite length_insert. lia.
  - erewrite capacity_insert; [|done|done]. by destruct p1.
  - intros j d Hd. destruct (Hup _ _ Hd) as [[-> ->]|[_ ?]]; [simpl; lia|eauto].
  - intros j d Hd. destruct (Hup _ _ Hd) as [[<- ->]|[_ ?]]; [|eauto].
    simpl. eauto.
  - intros s [->|Hs]%elem_of_cons.
    { exists c'. simpl. rewrite list_lookup_insert_eq by done. split; [done|lia]. }
    destruct (Hlive s Hs) as (d & Hd & ?).
    destruct (decide (chunk s = i)) as [E|E].
    + exists c'. rewrite E, list_lookup_insert_eq by done.
      rewrite E in Hd. simplify_eq. simpl. split; [done|lia].
    + exists d. by rewrite list_lookup_insert_ne by done.
  - constructor; [|done]. intros Hin. destruct (Hlive _ Hin) as (d & Hd & Hix).
    simpl in *. simplify_eq. lia.
Qed.
End memory.

Lemma capacity_cons_tail root rest n m nd :
  (∀ i c, (root :: rest) !! S i = Some c → num_objects c = n) →
  capacity (mk (root :: rest) nd m) =
  num_objects root + n * Z.of_nat (length rest).
Proof.
  unfold capacity. simpl. intros Ht. f_equal.
  induction rest as [|x rest IH]; simpl; [lia|].
  rewrite IH by (intros i c; apply (Ht (S i))).
  rewrite (Ht 0%nat x eq_refl). lia.
Qed.

Lemma ReleaseContents_inv p live :
  inv p live →
  inv (ReleaseContents p) [] ∧
  new_chunk_size (ReleaseContents p) = new_chunk_size p ∧
  capacity (ReleaseContents p) ≤ capacity p ∧
  (∀ root, chunks p !! 0%nat = Some root → used_objects root = num_objects root →
    capacity (ReleaseContents p) = capacity p).
Proof.
  intros [Hnode Hncs Hcap Hfill Htail Hlive Hnd].
  destruct p as [[|root rest] nd m]; simpl in *; [lia|].
  destruct (Hfill 0%nat root eq_refl) as [Hu Hn].
  rewrite (capacity_cons_tail root rest m m nd Htail) in Hcap.
  rewrite (capacity_cons_tail root rest m m nd Htail).
  unfold ReleaseContents. simpl.
  destruct (Z.eqb_spec (used_objects root) (num_objects root)) as [E|E].
  - rewrite wrap_small by (unfold in_width; nia).
    unfold capacity. simpl. split_and!; try done; try lia.
    split; simpl; try done; try lia.
    + unfold capacity. simpl. lia.
    + intros i c Hc. destruct i; simplify_eq/=. nia.
    + intros s Hs. by apply elem_of_nil in Hs.
    + constructor.
  - unfold capacity. simpl. split_and!; try done; try nia.
    + split; simpl; try done; try lia.
      * unfold capacity. simpl. nia.
      * intros i c Hc. destruct i; simplify_eq/=. lia.
      * intros s Hs. by apply elem_of_nil in Hs.
      * constructor.
    + intros r [= <-] ?. lia.
Qed.

(** Sequences of operations on a pool, with the slots in use. *)
Inductive op := OpCreate | OpRelease.

Fixpoint run (p : t) (live : list slot) (ops : list op) : res (t * list slot) :=
  match ops with
  | [] => Ok (p, live)
  | OpCreate :: ops' => '(s, p1) ← Create p; run p1 (s :: live) ops'
  | OpRelease :: ops' => run (ReleaseContents p) [] ops'
  end.

Lemma Memory_capacity p s p' :
  Memory p = Ok (s, p') → 0 < new_chunk_size p →
  capacity p' ≤ capacity p + new_chunk_size p.
Proof.
  unfold Memory, FreeChunk. destruct (chunks p !! node p) as [c|] eqn:Hc; [|done].
  simpl. destruct (negb _); simpl.
  - rewrite Hc. simpl. intros. inv_ok.
    erewrite capacity_insert; [|done|done]. destruct p. simpl in *. lia.
  - rewrite lookup_app_r, Nat.sub_diag by lia. simpl. intros. inv_ok.
    rewrite (capacity_insert _ _ (mkChunk 0 (new_chunk_size p)));
      [|by rewrite lookup_app_r, Nat.sub_diag by lia|done].
    rewrite capacity_app. unfold capacity. simpl. lia.
Qed.

Lemma run_inv ops : ∀ p live,
  inv p live →
  capacity p + Z.of_nat (length ops + 2) * new_chunk_size p < 2 ^ 64 →
  ∃ p' live', run p live ops = Ok (p', live') ∧ inv p' live'.
Proof.
  induction ops as [|o ops IH]; intros p live Hinv Hcap; simpl; [by exists p, live|].
  pose proof (inv_ncs _ _ Hinv). simpl in Hcap. destruct o.
  - destruct (pool_Memory_inv p live Hinv) as (s & p1 & HM & Hinv1 & Hn); [nia|].
    pose proof (Memory_capacity _ _ _ HM ltac:(lia)).
    unfold Create. rewrite HM. simpl. apply IH; [done|]. rewrite Hn. nia.
  - destruct (ReleaseContents_inv p live Hinv) as (Hinv1 & Hn & Hle & _).
    apply IH; [done|]. rewrite Hn. nia.
Qed.

(** Under any sequence of [Create] and [ReleaseContents] the objects
    created since the last release sit in pairwise distinct slots, each inside
    the storage of its chunk. *)
Theorem pool_slots_distinct chunk_size sizeof_T ops :
  0 < chunk_size * sizeof_T < 2 ^ 63 →
  Z.of_nat (length ops + 3) * (chunk_size * sizeof_T) < 2 ^ 64 →
  ∃ p live, run (make chunk_size sizeof_T) [] ops = Ok (p, live) ∧
    NoDup live ∧
    ∀ s, s ∈ live → ∃ c, chunks p !! chunk s = Some c ∧
      0 ≤ index s < num_objects c.
Proof.
  intros Hc Hops.
  destruct (run_inv ops (make chunk_size sizeof_T) []) as (p & live & Hr & Hinv).
  - by apply pool_inv_make.
  - unfold make, capacity. cbv zeta. simpl.
    rewrite wrap_small by (unfold in_width; lia). nia.
  - exists p, live. split_and!; [done|by apply inv_nodup in Hinv|].
    intros s Hs. destruct (inv_live _ _ Hinv s Hs) as (c & Hch & Hi).
    exists c. destruct (inv_fill _ _ Hinv _ _ Hch). split; [done|lia].
Qed.

Lemma pool_slots_distinct_witness :
  ∃ p live, run (make 1 2) [] [OpCreate; OpCreate; OpCreate; OpRelease; OpCreate]
    = Ok (p, live) ∧ NoDup live.
Proof.
  destruct (pool_slots_distinct 1 2
    [OpCreate; OpCreate; OpCreate; OpRelease; OpCreate]) as (p & live & H & Hn & _);
    [lia|simpl; lia|].
  exists p, live. by split.
Defined.

(** A release squashes the pool: when the first chunk was full, the one
    chunk that remains holds as many objects as all the chunks did before. *)
Theorem release_keeps_capacity p live root :
  inv p live → chunks p !! 0%nat = Some root →
  used_objects root = num_objects root →
  capacity (ReleaseContents p) = capacity p ∧
  length (chunks (ReleaseContents p)) = 1%nat ∧ inv (ReleaseContents p) [].
Proof.
  intros Hinv Hr Hf. destruct (ReleaseContents_inv p live Hinv) as (H1 & _ & _ & H2).
  split_and!; [by eapply H2| |done].
  destruct p as [[|r l] nd m]; simpl in *; [done|]. simplify_eq.
  unfold ReleaseContents. simpl. by rewrite Hf, Z.eqb_refl.
Qed.

Lemma release_keeps_capacity_witness :
  capacity (ReleaseContents (mk [mkChunk 2 2; mkChunk 1 2] 1 2)) = 4.
Proof.
  refine (proj1 (release_keeps_capacity (mk [mkChunk 2 2; mkChunk 1 2] 1 2) []
    (mkChunk 2 2) _ eq_refl eq_refl)).
  split; simpl; try done; try (unfold capacity; simpl; lia).
  - intros [|[|i]] c Hc; simplify_eq/=; lia.
  - intros [|i] c Hc; simplify_eq/=; lia.
  - intros s Hs. by apply elem_of_nil in Hs.
  - constructor.
Defined.

End ObjectPool.
