(* ===== verification/Slab.v ===== *)
(** * The slab allocator

    [runtime/common/slab_alloc.h] and [slab_alloc.cc]: a lock-free list of
    free nodes, the heap of equal objects cut from one region, and the
    allocation functions of [SlabObject].  [Slab] is the single-threaded
    behaviour, [SlabConcurrent] the interleavings of the compare-and-swap
    loops of several threads. *)

From S2P Require Import Prelude.

Module Slab.

(** Addresses are [Z], a null [Node*] is [None].  [next] is what the first
    word of each node holds. *)
Record SlabAllocator := mkAlloc {
  head : option Z;
  next : gmap Z (option Z);
  size_ : Z;
}.

Definition SlabAllocator_init : SlabAllocator := mkAlloc None ∅ 0.

Definition Alloc_Initialize (a : SlabAllocator) (size : Z) : SlabAllocator :=
  mkAlloc (head a) (next a) size.

(** [Allocate]: with no other thread the first compare-and-swap succeeds
    (a spurious failure reloads the same head). *)
Definition Allocate (a : SlabAllocator) : res (option Z * SlabAllocator) :=
  match head a with
  | None => Ok (None, a)
  | Some ret =>
      n ← of_option OutOfBounds (next a !! ret);
      Ok (Some ret, mkAlloc n (next a) (size_ a))
  end.

Definition Free (a : SlabAllocator) (obj : Z) : SlabAllocator :=
  mkAlloc (Some obj) (<[obj := head a]> (next a)) (size_ a).

(** [SlabHeap<T>]. *)
Record SlabHeap := mkHeap {
  allocator : SlabAllocator;
  start : Z;
  end_ : Z;
}.

Definition SlabHeap_init : SlabHeap := mkHeap SlabAllocator_init 0 0.

Definition Contains (h : SlabHeap) (addr : Z) : bool :=
  (start h <=? addr) && (addr <? end_ h).
Definition GetObjectSize (h : SlabHeap) : Z := size_ (allocator h).
Definition GetSlabHeapSize (h : SlabHeap) : Z :=
  (end_ h - start h) / GetObjectSize h.
Definition GetObjectIndexImpl (h : SlabHeap) (obj : Z) : Z :=
  (obj - start h) / GetObjectSize h.

Definition Heap_Allocate (h : SlabHeap) : res (option Z * SlabHeap) :=
  '(r, a) ← Allocate (allocator h); Ok (r, mkHeap a (start h) (end_ h)).

Definition Heap_Free (h : SlabHeap) (obj : Z) : res SlabHeap :=
  _ ← check (Contains h obj) Aborted;
  Ok (mkHeap (Free (allocator h) obj) (start h) (end_ h)).

(** The loop of [Initialize]: [num_obj] objects freed from the end down. *)
Fixpoint init_loop (n : nat) (object_size cur : Z) (a : SlabAllocator) : SlabAllocator :=
  match n with
  | O => a
  | S n' => init_loop n' object_size (cur - object_size) (Free a (cur - object_size))
  end.

Definition Heap_Initialize (h : SlabHeap) (sizeof_T memory memory_size : Z) : SlabHeap :=
  let alloc := Alloc_Initialize (allocator h) sizeof_T in
  let num_obj := memory_size / sizeof_T in
  let e := memory + num_obj * sizeof_T in
  mkHeap (init_loop (Z.to_nat num_obj) sizeof_T e alloc) memory e.

(** [SlabObject<T, override>]: the slab first, [malloc] when it is empty;
    [malloc] is a parameter (its address, or null). *)
Definition TryAllocate (override : bool) (malloc : option Z) (h : SlabHeap)
    : res (option Z * SlabHeap) :=
  if override then
    '(r, h1) ← Heap_Allocate h;
    match r with Some _ => Ok (r, h1) | None => Ok (malloc, h1) end
  else Ok (malloc, h).

(** [TryFree]: [inl] is the heap after a return to the slab, [inr] the
    pointer given to [free]. *)
Definition TryFree (override : bool) (h : SlabHeap) (obj : Z) : res (SlabHeap + Z) :=
  if override && Contains h obj then inl <$> Heap_Free h obj else Ok (inr obj).

(** ** The abstract free list *)
Fixpoint chain (nxt : gmap Z (option Z)) (h : option Z) (l : list Z) : Prop :=
  match l with
  | [] => h = None
  | x :: l' => h = Some x ∧ ∃ n, nxt !! x = Some n ∧ chain nxt n l'
  end.

Definition free_list (a : SlabAllocator) (l : list Z) : Prop :=
  chain (next a) (head a) l ∧ NoDup l.

Lemma chain_insert nxt h l o v :
  o ∉ l → chain nxt h l → chain (<[o:=v]> nxt) h l.
Proof.
  revert h. induction l as [|x l IH]; intros h Hin; simpl; [done|].
  intros (-> & n & Hn & Hc). apply not_elem_of_cons in Hin as [Hne Hin].
  split; [done|]. exists n. rewrite lookup_insert_ne by done. auto.
Qed.

(** [Allocate] refines taking the first element of the free list, and [Free]
    refines consing one. *)
Lemma Allocate_refines a l :
  free_list a l →
  match l with
  | [] => Allocate a = Ok (None, a)
  | x :: l' => ∃ a', Allocate a = Ok (Some x, a') ∧ free_list a' l' ∧ size_ a' = size_ a
  end.
Proof.
  intros [Hc Hnd]. unfold Allocate. destruct l as [|x l]; simpl in Hc.
  - by rewrite Hc.
  - destruct Hc as (-> & n & Hn & Hc). rewrite Hn. simpl.
    eexists. split; [done|]. split; [|done]. split; [done|].
    by apply NoDup_cons in Hnd as [_ ?].
Qed.

Lemma Free_refines a l o :
  free_list a l → o ∉ l → free_list (Free a o) (o :: l).
Proof.
  intros [Hc Hnd] Hin. split; [|by constructor]. unfold Free. simpl.
  split; [done|]. exists (head a). rewrite lookup_insert_eq. split; [done|].
  by apply chain_insert.
Qed.

(** The addresses of [n] objects from [base]. *)
Fixpoint objects (n : nat) (base sz : Z) : list Z :=
  match n with O => [] | S n' => base :: objects n' (base + sz) sz end.

Lemma objects_snoc n base sz :
  objects (S n) base sz = objects n base sz ++ [base + Z.of_nat n * sz].
Proof.
  revert base. induction n as [|n IH]; intros base; [simpl; repeat f_equal; lia|].
  change (objects (S (S n)) base sz) with (base :: objects (S n) (base + sz) sz).
  rewrite IH. simpl. do 3 f_equal. lia.
Qed.

Lemma objects_elem n base sz x :
  0 < sz → x ∈ objects n base sz ↔
  ∃ i, 0 ≤ i < Z.of_nat n ∧ x = base + i * sz.
Proof.
  intros Hs. revert base. induction n as [|n IH]; intros base; cbn [objects].
  - rewrite elem_of_nil. split; [done|]. intros (i & ? & _). lia.
  - rewrite elem_of_cons, IH. split.
    + intros [->|(i & Hi & ->)]; [exists 0|exists (i + 1)]; lia.
    + intros (i & Hi & ->). destruct (decide (i = 0)) as [->|]; [left; lia|].
      right. exists (i - 1). lia.
Qed.

Lemma objects_NoDup n base sz : 0 < sz → NoDup (objects n base sz).
Proof.
  intros Hs. revert base. induction n as [|n IH]; intros base; constructor; [|auto].
  rewrite objects_elem by done. intros (i & Hi & He). nia.
Qed.

Lemma init_loop_free n sz base a l :
  0 < sz → free_list a l →
  (∀ x, x ∈ l → x ∉ objects n base sz) →
  free_list (init_loop n sz (base + Z.of_nat n * sz) a) (objects n base sz ++ l).
Proof.
  intros Hs. revert a l. induction n as [|n IH]; intros a l Hf Hd; [done|].
  cbn [init_loop].
  replace (base + Z.of_nat (S n) * sz - sz) with (base + Z.of_nat n * sz) by lia.
  rewrite objects_snoc, <- app_assoc. apply IH.
  - apply Free_refines; [done|]. intros Hin. apply (Hd _ Hin).
    rewrite objects_elem by done. exists (Z.of_nat n). lia.
  - intros x Hx Hin. simpl in Hx. apply elem_of_cons in Hx as [->|Hx].
    + apply objects_elem in Hin as (i & Hi & He); [nia|done].
    + apply (Hd _ Hx). rewrite objects_snoc. set_solver.
Qed.

Lemma init_loop_size n sz cur a : size_ (init_loop n sz cur a) = size_ a.
Proof. revert cur a. induction n as [|n IH]; intros; simpl; [done|]. by rewrite IH. Qed.

Lemma Heap_Initialize_free_list sizeof_T memory memory_size :
  0 < sizeof_T → 0 ≤ memory_size →
  free_list (allocator (Heap_Initialize SlabHeap_init sizeof_T memory memory_size))
    (objects (Z.to_nat (memory_size / sizeof_T)) memory sizeof_T).
Proof.
  intros Hs Hm. pose proof (Z.div_pos memory_size sizeof_T Hm Hs).
  unfold Heap_Initialize. simpl.
  rewrite <- (app_nil_r (objects _ _ _)).
  rewrite <- (Z2Nat.id (memory_size / sizeof_T)) at 2 by done.
  apply init_loop_free; [done|split; [done|constructor]|].
  intros x Hx. by apply elem_of_nil in Hx.
Qed.

(** Initialising a slab heap over a region puts every object of the
    region on the free list exactly once, in address order: the allocations
    that follow return [start], [start + sizeof(T)], and so on, then null. *)
Theorem slab_initialize_free_list sizeof_T memory memory_size :
  0 < sizeof_T → 0 ≤ memory_size →
  let h := Heap_Initialize SlabHeap_init sizeof_T memory memory_size in
  free_list (allocator h)
    (objects (Z.to_nat (memory_size / sizeof_T)) memory sizeof_T) ∧
  GetObjectSize h = sizeof_T ∧
  GetSlabHeapSize h = memory_size / sizeof_T ∧
  ∀ i, 0 ≤ i < memory_size / sizeof_T →
    Contains h (memory + i * sizeof_T) = true ∧
    GetObjectIndexImpl h (memory + i * sizeof_T) = i.
Proof.
  intros Hs Hm h. pose proof (Z.div_pos memory_size sizeof_T Hm Hs).
  assert (Hsz : GetObjectSize h = sizeof_T).
  { unfold GetObjectSize, h, Heap_Initialize. simpl. by rewrite init_loop_size. }
  split_and!; [by apply Heap_Initialize_free_list|done| |].
  - unfold GetSlabHeapSize. rewrite Hsz. unfold h, Heap_Initialize. simpl.
    replace (memory + _ - memory) with (memory_size / sizeof_T * sizeof_T) by lia.
    apply Z.div_mul. lia.
  - intros i Hi. unfold GetObjectIndexImpl. rewrite Hsz.
    unfold Contains, h, Heap_Initialize. simpl. split.
    + rewrite andb_true_iff, Z.leb_le, Z.ltb_lt. nia.
    + replace (memory + i * sizeof_T - memory) with (i * sizeof_T) by lia.
      apply Z.div_mul. lia.
Qed.

Lemma slab_initialize_free_list_witness :
  free_list (allocator (Heap_Initialize SlabHeap_init 16 0x1000 40)) [0x1000; 0x1010].
Proof.
  destruct (slab_initialize_free_list 16 0x1000 40) as [H _]; [lia|lia|]. exact H.
Defined.

(** Operations on one heap by one thread, with the objects in use. *)
Inductive heap_op := OpAllocate | OpFree (obj : Z).

Fixpoint run (h : SlabHeap) (live : list Z) (ops : list heap_op)
    : res (SlabHeap * list Z) :=
  match ops with
  | [] => Ok (h, live)
  | OpAllocate :: ops' =>
      '(r, h1) ← Heap_Allocate h;
      run h1 (match r with Some x => x :: live | None => live end) ops'
  | OpFree o :: ops' =>
      if bool_decide (o ∈ live) then
        h1 ← Heap_Free h o; run h1 (filter (λ x, x ≠ o) live) ops'
      else run h live ops'
  end.

Lemma run_partition ops h live l :
  free_list (allocator h) l → NoDup live → (∀ x, x ∈ live → x ∉ l) →
  (∀ x, x ∈ live → Contains h x = true) → (∀ x, x ∈ l → Contains h x = true) →
  ∃ h' live' l', run h live ops = Ok (h', live') ∧
    free_list (allocator h') l' ∧ NoDup live' ∧
    (∀ x, x ∈ l' ∨ x ∈ live' ↔ x ∈ l ∨ x ∈ live) ∧
    (∀ x, x ∈ live' → x ∉ l').
Proof.
  revert h live l. induction ops as [|[|o] ops IH];
    intros h live l Hf Hnd Hd Hcl Hcf; cbn [run].
  - by exists h, live, l.
  - unfold Heap_Allocate. pose proof (Allocate_refines _ _ Hf) as HA.
    destruct l as [|x l].
    + rewrite HA. simpl. destruct h as [al st en]. by apply (IH _ _ []).
    + destruct HA as (a' & -> & Hf' & _). simpl.
      destruct Hf as [_ Hl]. apply NoDup_cons in Hl as [Hxl _].
      destruct (IH (mkHeap a' (start h) (end_ h)) (x :: live) l) as
        (h' & live' & l' & Hr & ? & ? & Hp & ?); try done.
      * constructor; [|done]. intros Hx. by apply (Hd x Hx); left.
      * intros y [->|Hy]%elem_of_cons; [done|]. intros Hin. by apply (Hd y Hy); right.
      * intros y [->|Hy]%elem_of_cons; [apply Hcf; by left|by apply Hcl].
      * intros y Hy. apply Hcf. by right.
      * exists h', live', l'. split_and!; try done.
        intros y. rewrite Hp, !elem_of_cons. tauto.
  - case_bool_decide as Ho; [|by apply IH].
    unfold Heap_Free. rewrite (Hcl o Ho). simpl.
    destruct (IH (mkHeap (Free (allocator h) o) (start h) (end_ h))
      (filter (λ x, x ≠ o) live) (o :: l)) as
      (h' & live' & l' & Hr & ? & ? & Hp & ?); try done.
    + apply Free_refines; [done|]. by apply Hd.
    + by apply NoDup_filter.
    + intros y [Hy1 Hy2]%list_elem_of_filter. rewrite elem_of_cons.
      intros [->|?]; [done|by apply (Hd y)].
    + intros y [_ Hy]%list_elem_of_filter. by apply Hcl.
    + intros y [->|Hy]%elem_of_cons; [by apply (Hcl o)|by apply Hcf].
    + exists h', live', l'. split_and!; try done.
      intros y. rewrite Hp, elem_of_cons, list_elem_of_filter.
      destruct (decide (y = o)) as [->|]; tauto.
Qed.

(** One thread that allocates and frees in any order never holds an
    object twice, and at every point the objects of the heap are split between
    the free list and the objects in use. *)
Theorem slab_single_thread_safe sizeof_T memory memory_size ops :
  0 < sizeof_T → 0 ≤ memory_size →
  ∃ h live l,
    run (Heap_Initialize SlabHeap_init sizeof_T memory memory_size) [] ops
      = Ok (h, live) ∧
    free_list (allocator h) l ∧ NoDup live ∧ (∀ x, x ∈ live → x ∉ l) ∧
    ∀ x, x ∈ l ∨ x ∈ live ↔
      x ∈ objects (Z.to_nat (memory_size / sizeof_T)) memory sizeof_T.
Proof.
  intros Hs Hm. pose proof (Z.div_pos memory_size sizeof_T Hm Hs).
  set (h := Heap_Initialize SlabHeap_init sizeof_T memory memory_size).
  set (l := objects (Z.to_nat (memory_size / sizeof_T)) memory sizeof_T).
  pose proof (Heap_Initialize_free_list sizeof_T memory memory_size Hs Hm) as Hf.
  fold h l in Hf.
  destruct (run_partition ops h [] l Hf) as (h' & live & l' & ? & ? & ? & Hp & ?).
  - constructor.
  - intros x Hx. by apply elem_of_nil in Hx.
  - intros x Hx. by apply elem_of_nil in Hx.
  - intros x Hx. unfold l in Hx. apply objects_elem in Hx as (i & Hi & ->); [|done].
    unfold Contains, h, Heap_Initialize. simpl.
    rewrite andb_true_iff, Z.leb_le, Z.ltb_lt. nia.
  - exists h', live, l'. split_and!; try done.
    intros x. rewrite Hp, elem_of_nil. tauto.
Qed.

Lemma slab_single_thread_safe_witness :
  ∃ h live, run (Heap_Initialize SlabHeap_init 16 0x1000 40) []
    [OpAllocate; OpAllocate; OpFree 0x1000; OpAllocate; OpAllocate]
    = Ok (h, live) ∧ NoDup live.
Proof.
  destruct (slab_single_thread_safe 16 0x1000 40
    [OpAllocate; OpAllocate; OpFree 0x1000; OpAllocate; OpAllocate])
    as (h & live & l & H & _ & Hn & _); [lia|lia|].
  exists h, live. by split.
Defined.

End Slab.

(** ** Interleavings of the lock-free operations *)
Module SlabConcurrent.

(** Where a thread is inside [SlabAllocator::Allocate] or [Free].
    [ALoaded]: [ret] holds a value of [head]; [AReady]: the argument
    [ret->next] of the compare-and-swap has been read; [FLoaded]: [cur_head]
    holds a value of [head]; [FReady]: [node->next = cur_head] is done. *)
Inductive pc :=
  | Idle
  | ALoaded (ret : option Z)
  | AReady (ret : Z) (nxt : option Z)
  | FLoaded (node : Z) (cur_head : option Z)
  | FReady (node : Z) (cur_head : option Z).

(** [live] lists the objects handed out and not given back, with
    repetitions. *)
Record config := mk {
  head : option Z;
  next : gmap Z (option Z);
  threads : list pc;
  live : list Z;
}.

Definition set_thread (c : config) (i : nat) (p : pc) : config :=
  mk (head c) (next c) (<[i := p]> (threads c)) (live c).

(** One step of thread [i].  The owner of an object may write to it at any
    time.  [frees] says whether threads call [Free] at all. *)
Inductive step (frees : bool) : config → config → Prop :=
  | step_alloc_load c i :
      threads c !! i = Some Idle →
      step frees c (set_thread c i (ALoaded (head c)))
  | step_alloc_null c i :
      threads c !! i = Some (ALoaded None) →
      step frees c (set_thread c i Idle)
  | step_alloc_read c i r n :
      threads c !! i = Some (ALoaded (Some r)) → next c !! r = Some n →
      step frees c (set_thread c i (AReady r n))
  | step_alloc_cas c i r n :
      threads c !! i = Some (AReady r n) → head c = Some r →
      step frees c
        (mk n (next c) (<[i := Idle]> (threads c)) (r :: live c))
  | step_alloc_retry c i r n :
      threads c !! i = Some (AReady r n) →
      step frees c (set_thread c i (ALoaded (head c)))
  | step_free_load c i o l1 l2 :
      frees = true → threads c !! i = Some Idle → live c = l1 ++ o :: l2 →
      step frees c
        (mk (head c) (next c) (<[i := FLoaded o (head c)]> (threads c)) (l1 ++ l2))
  | step_free_write c i o cur :
      threads c !! i = Some (FLoaded o cur) →
      step frees c
        (mk (head c) (<[o := cur]> (next c)) (<[i := FReady o cur]> (threads c)) (live c))
  | step_free_cas c i o cur :
      threads c !! i = Some (FReady o cur) → head c = cur →
      step frees c
        (mk (Some o) (next c) (<[i := Idle]> (threads c)) (live c))
  | step_free_retry c i o cur :
      threads c !! i = Some (FReady o cur) →
      step frees c (set_thread c i (FLoaded o (head c)))
  | step_write c o v :
      o ∈ live c →
      step frees c (mk (head c) (<[o := v]> (next c)) (threads c) (live c)).

(** All objects free, [n] idle threads. *)
Definition init (a : Slab.SlabAllocator) (n : nat) : config :=
  mk (Slab.head a) (Slab.next a) (replicate n Idle) [].

(** What holds while no thread frees: the free list is a chain of objects not
    handed out, and a thread about to swap holds the current successor of its
    object as long as the object is still free. *)
Record inv (c : config) (l : list Z) : Prop := {
  inv_chain : Slab.chain (next c) (head c) l;
  inv_nodup : NoDup (l ++ live c);
  inv_ready : ∀ i r n, threads c !! i = Some (AReady r n) →
    r ∈ l → next c !! r = Some n;
  inv_nofree : ∀ i o cur, threads c !! i ≠ Some (FLoaded o cur) ∧
    threads c !! i ≠ Some (FReady o cur);
}.

Lemma threads_insert (ts : list pc) i j p q :
  <[i := p]> ts !! j = Some q → (j = i ∧ q = p) ∨ ts !! j = Some q.
Proof. rewrite list_lookup_insert. case_decide; naive_solver. Qed.

(** Only the program counter of one thread moves. *)
Lemma inv_set_thread c l i p :
  inv c l →
  (∀ r n, p = AReady r n → r ∈ l → next c !! r = Some n) →
  (∀ o cur, p ≠ FLoaded o cur ∧ p ≠ FReady o cur) →
  inv (set_thread c i p) l.
Proof.
  intros [Hc Hn Hr Hf] Hp Hq. split; simpl; try done.
  - intros j r n Hj. apply threads_insert in Hj as [[-> <-]|Hj]; eauto.
  - intros j o cur. split; intros Hj; apply threads_insert in Hj as [[-> E]|Hj];
      naive_solver.
Qed.

Lemma step_inv c c' l : inv c l → step false c c' → ∃ l', inv c' l'.
Proof.
  intros Hinv Hs. pose proof Hinv as [Hc Hn Hr Hf].
  inversion Hs; subst; try (by exfalso; naive_solver).
  - exists l. apply inv_set_thread; naive_solver.
  - exists l. apply inv_set_thread; naive_solver.
  - exists l. apply inv_set_thread; naive_solver.
  - destruct l as [|x l]; simpl in Hc; [congruence|].
    destruct Hc as (Hh & m & Hm & Hc).
    assert (x = r) as -> by congruence.
    assert (m = n) as -> by (pose proof (Hr _ _ _ H ltac:(by left)); congruence).
    exists l. split; simpl.
    + done.
    + by rewrite <- Permutation_middle.
    + intros j r' n' Hj Hin. apply threads_insert in Hj as [[_ ?]|Hj]; [done|].
      eapply Hr; [done|by right].
    + intros j o cur. split; intros Hj; apply threads_insert in Hj as [[_ ?]|Hj];
        naive_solver.
  - exists l. apply inv_set_thread; naive_solver.
  - assert (Ho : o ∉ l).
    { intros Hin. apply NoDup_app in Hn as (_ & Hn & _). by apply (Hn o). }
    exists l. split; simpl; try done.
    + by apply Slab.chain_insert.
    + intros j r n Hj Hin. rewrite lookup_insert_ne by naive_solver. eauto.
Qed.

Lemma steps_inv c c' l : inv c l → rtc (step false) c c' → ∃ l', inv c' l'.
Proof.
  intros Hi Hs. revert l Hi. induction Hs as [c|c c1 c' H1 _ IH]; intros l Hi; [eauto|].
  destruct (step_inv _ _ _ Hi H1) as [l1 ?]. eauto.
Qed.

(** (C34) As long as no object is freed, any number of threads that allocate
    concurrently never receive the same object twice, whatever the owners
    write into their objects. *)
Theorem concurrent_allocations_distinct a l n c :
  Slab.free_list a l → rtc (step false) (init a n) c → NoDup (live c).
Proof.
  intros [Hc Hn] Hs.
  destruct (steps_inv (init a n) c l) as [l' Hinv]; [|done|].
  - split; simpl; try done.
    + by rewrite app_nil_r.
    + intros i r m Hi. by apply lookup_replicate in Hi as [? _].
    + intros i o cur. split; intros Hi; by apply lookup_replicate in Hi as [? _].
  - apply inv_nodup in Hinv. by apply NoDup_app in Hinv as (_ & _ & ?).
Qed.

Definition two_objects : Slab.SlabAllocator :=
  Slab.mkAlloc (Some 0x10) {[ 0x10 := Some 0x20; 0x20 := None ]} 16.

Lemma two_objects_free : Slab.free_list two_objects [0x10; 0x20].
Proof.
  split.
  - simpl. split; [done|]. eexists. split; [reflexivity|].
    split; [done|]. eexists. split; reflexivity.
  - by apply (bool_decide_unpack (NoDup [0x10; 0x20])).
Qed.

Lemma concurrent_allocations_distinct_witness :
  ∃ c, rtc (step false) (init two_objects 2) c ∧ live c = [0x10] ∧ NoDup (live c).
Proof.
  eexists (mk (Some 0x20) _ [Idle; Idle] [0x10]).
  assert (H : rtc (step false) (init two_objects 2)
    (mk (Some 0x20) (Slab.next two_objects) [Idle; Idle] [0x10])).
  { eapply rtc_l; [by apply (step_alloc_load false _ 0)|].
    eapply rtc_l; [by eapply (step_alloc_read false _ 0 0x10)|].
    eapply rtc_l; [by eapply (step_alloc_cas false _ 0 0x10)|]. apply rtc_refl. }
  split_and!; [exact H|reflexivity|].
  exact (concurrent_allocations_distinct two_objects [0x10; 0x20] 2 _ two_objects_free H).
Defined.

(** With [Free] in play the compare-and-swap is open to ABA: two threads
    on a heap of two free objects can reach a state in which one object has
    been handed out twice. *)
Theorem concurrent_free_aba :
  Slab.free_list two_objects [0x10; 0x20] ∧
  ∃ c, rtc (step true) (init two_objects 2) c ∧ ¬ NoDup (live c).
Proof.
  split; [exact two_objects_free|].
  eexists. split.
  - (* thread 0 reads the head 0x10 and its successor 0x20 *)
    eapply rtc_l; [by apply (step_alloc_load true _ 0)|].
    eapply rtc_l; [by eapply (step_alloc_read true _ 0 0x10)|].
    (* thread 1 allocates 0x10, then 0x20 *)
    eapply rtc_l; [by apply (step_alloc_load true _ 1)|].
    eapply rtc_l; [by eapply (step_alloc_read true _ 1 0x10)|].
    eapply rtc_l; [by eapply (step_alloc_cas true _ 1 0x10)|].
    eapply rtc_l; [by apply (step_alloc_load true _ 1)|].
    eapply rtc_l; [by eapply (step_alloc_read true _ 1 0x20)|].
    eapply rtc_l; [by eapply (step_alloc_cas true _ 1 0x20)|].
    (* thread 1 frees 0x10 *)
    eapply rtc_l; [by eapply (step_free_load true _ 1 0x10 [0x20] [])|].
    eapply rtc_l; [by eapply (step_free_write true _ 1 0x10)|].
    eapply rtc_l; [by eapply (step_free_cas true _ 1 0x10)|].
    (* the swap of thread 0 succeeds and installs 0x20, which is in use *)
    eapply rtc_l; [by eapply (step_alloc_cas true _ 0 0x10)|].
    eapply rtc_l; [by apply (step_alloc_load true _ 0)|].
    eapply rtc_l; [by eapply (step_alloc_read true _ 0 0x20)|].
    eapply rtc_l; [by eapply (step_alloc_cas true _ 0 0x20)|].
    apply rtc_refl.
  - simpl. intros Hn.
    apply (bool_decide_eq_true_2 _) in Hn. vm_compute in Hn. discriminate.
Qed.

End SlabConcurrent.
