(* ===== verification/TranslateTable.v ===== *)
(** * The translation table

    [runtime/backend/translate_table.h]: an open-addressing hash table from
    guest locations to code, with linear probing.  Key 0 marks an empty slot.
    The table is proved to implement a finite map under [Put], [GetOrPut],
    [Lookup] and [Clear]; the theorems on [Remove] and [Replace] describe what
    those two do instead. *)

From S2P Require Import Prelude Common.

Module TranslateTable.

Record TranslateEntry := mkEntry { key : Z; value : Z }.

(** [locked]: the calling thread holds [lock] exclusively. *)
Record t := mk {
  hash_bits : Z;
  size : Z;
  entries : list TranslateEntry;
  locked : bool;
}.

Definition zero_entry : TranslateEntry := mkEntry 0 0.

(** [entries.resize(n)]: keeps what is there, appends zeroed entries. *)
Definition resize_entries (l : list TranslateEntry) (n : nat) : list TranslateEntry :=
  take n l ++ replicate (n - length l) zero_entry.

(** [Reset()]: sizes the vector and plants the sentinel in its last entry. *)
Definition Reset (tb : t) : t :=
  let l := resize_entries (entries tb) (Z.to_nat (size tb + 10)) in
  let lst := (length l - 1)%nat in
  mk (hash_bits tb) (size tb)
     (alter (λ e, mkEntry (2 ^ 64 - 1) (value e)) lst l) (locked tb).

(** The constructor, for [hash_bits ≤ 30] ([1 << hash_bits] is an [int]). *)
Definition make (bits : Z) : t := Reset (mk bits (Z.shiftl 1 bits) [] false).

Definition Hash (tb : t) (k : Z) : Z :=
  let merged := Z.shiftr k 2 in
  u32 (Z.land (Z.lxor (Z.shiftr merged (hash_bits tb)) merged) (size tb - 1)).

Definition entry_at (l : list TranslateEntry) (index : Z) : res TranslateEntry :=
  of_option OutOfBounds (l !! Z.to_nat index).

(** A lock scope: waiting for a lock the thread already holds never ends. *)
Definition with_lock {A} (f : t → res (A * t)) (tb : t) : res (A * t) :=
  if locked tb then Err Deadlock else
  '(a, tb') ← f (mk (hash_bits tb) (size tb) (entries tb) true);
  Ok (a, mk (hash_bits tb') (size tb') (entries tb') false).

Definition set_entries (tb : t) (l : list TranslateEntry) : t :=
  mk (hash_bits tb) (size tb) l (locked tb).

(** The do-while loop of [Put]; the loop leaves through [done] or [abort()]. *)
Fixpoint put_loop (fuel : nat) (sz : Z) (l : list TranslateEntry) (index k v : Z)
    : res (list TranslateEntry) :=
  match fuel with
  | O => Err OutOfFuel
  | S fuel' =>
      e ← entry_at l index;
      if (key e =? 0) || (key e =? k) then
        Ok (<[Z.to_nat index := mkEntry k v]> l)
      else
        let index' := u32 (index + 1) in
        if sz - 1 <=? index' then Err Aborted
        else put_loop fuel' sz l index' k v
  end.

Definition loop_fuel (tb : t) : nat := S (Z.to_nat (size tb)).

Definition Put (tb : t) (k v : Z) : res (bool * t) :=
  with_lock (λ tb,
    l ← put_loop (loop_fuel tb) (size tb) (entries tb) (Hash tb k) k v;
    Ok (true, set_entries tb l)) tb.

(** The loop of [GetOrPut]: the slot index as [2 * index + 1]. *)
Fixpoint getorput_loop (fuel : nat) (sz : Z) (l : list TranslateEntry) (index k v : Z)
    : res (Z * list TranslateEntry) :=
  match fuel with
  | O => Err OutOfFuel
  | S fuel' =>
      e ← entry_at l index;
      if (key e =? 0) || (key e =? k) then
        if (key e =? k) && negb (value e =? 0) then Ok (u32 (2 * index + 1), l)
        else Ok (u32 (2 * index + 1), <[Z.to_nat index := mkEntry k v]> l)
      else
        let index' := u32 (index + 1) in
        if sz - 1 <=? index' then Err Aborted
        else getorput_loop fuel' sz l index' k v
  end.

Definition GetOrPut (tb : t) (k v : Z) : res (Z * t) :=
  with_lock (λ tb,
    '(r, l) ← getorput_loop (loop_fuel tb) (size tb) (entries tb) (Hash tb k) k v;
    Ok (r, set_entries tb l)) tb.

(** The probe loop shared by [Lookup] and [Replace]: the slot found, if any.
    The condition reads the key [c_key] of the slot just examined. *)
Fixpoint find_loop (fuel : nat) (sz : Z) (l : list TranslateEntry) (index k : Z)
    : res (option Z) :=
  match fuel with
  | O => Err OutOfFuel
  | S fuel' =>
      e ← entry_at l index;
      if key e =? k then Ok (Some index)
      else
        let index' := u32 (index + 1) in
        if (index' <? sz - 1) && negb (key e =? 0) then find_loop fuel' sz l index' k
        else Ok None
  end.

Definition Lookup (tb : t) (k : Z) : res Z :=
  if locked tb then Err Deadlock else
  o ← find_loop (loop_fuel tb) (size tb) (entries tb) (Hash tb k) k;
  match o with
  | None => Ok 0
  | Some index => e ← entry_at (entries tb) index; Ok (value e)
  end.

(** [Replace] calls [Put] while its own guard holds the lock. *)
Definition Replace (tb : t) (k v : Z) : res (unit * t) :=
  with_lock (λ tb,
    o ← find_loop (loop_fuel tb) (size tb) (entries tb) (Hash tb k) k;
    match o with
    | Some index =>
        e ← entry_at (entries tb) index;
        Ok (tt, set_entries tb (<[Z.to_nat index := mkEntry (key e) v]> (entries tb)))
    | None => '(_, tb') ← Put tb k v; Ok (tt, tb')
    end) tb.

(** The loop of [Remove], with its step [(index + 1) & size]. *)
Fixpoint remove_loop (fuel : nat) (sz : Z) (l : list TranslateEntry)
    (index stop k : Z) : res (list TranslateEntry) :=
  match fuel with
  | O => Err OutOfFuel
  | S fuel' =>
      e ← entry_at l index;
      if key e =? k then Ok (<[Z.to_nat index := mkEntry 0 (value e)]> l)
      else
        let index' := u32 (Z.land (index + 1) sz) in
        if negb (index' =? stop) && negb (key e =? 0)
        then remove_loop fuel' sz l index' stop k
        else Ok l
  end.

Definition Remove (fuel : nat) (tb : t) (k : Z) : res (unit * t) :=
  with_lock (λ tb,
    let index := Hash tb k in
    l ← remove_loop fuel (size tb) (entries tb) index (u32 (index - 1)) k;
    Ok (tt, set_entries tb l)) tb.

(** [Clear]: [memset] of all the entries. *)
Definition Clear (tb : t) : t :=
  set_entries tb (replicate (length (entries tb)) zero_entry).

(** ** Invariant and abstraction *)

(** Every stored key lies at or after its home slot, behind occupied slots
    with other keys, and never in the part of the array that probing does
    not reach. *)
Record inv (tb : t) : Prop := {
  inv_bits : 1 ≤ hash_bits tb ≤ 30;
  inv_size : size tb = 2 ^ hash_bits tb;
  inv_len : Z.of_nat (length (entries tb)) = size tb + 10;
  inv_lock : locked tb = false;
  inv_probe : ∀ i e, (i < Z.to_nat (size tb))%nat →
    entries tb !! i = Some e → key e ≠ 0 →
    Hash tb (key e) ≤ Z.of_nat i ∧
    (Z.of_nat i < size tb - 1 ∨ Z.of_nat i = Hash tb (key e)) ∧
    ∀ j, (Z.to_nat (Hash tb (key e)) ≤ j < i)%nat →
      ∃ e', entries tb !! j = Some e' ∧ key e' ≠ 0 ∧ key e' ≠ key e;
}.

(** The finite map a table stands for. *)
Definition repr (tb : t) (m : gmap Z Z) : Prop :=
  ∀ k v, k ≠ 0 → m !! k = Some v ↔
    ∃ i, (i < Z.to_nat (size tb))%nat ∧ entries tb !! i = Some (mkEntry k v).

Lemma Hash_range tb k :
  1 ≤ hash_bits tb ≤ 30 → size tb = 2 ^ hash_bits tb → 0 ≤ Hash tb k < size tb.
Proof.
  intros Hb Hs. unfold Hash. cbv zeta. rewrite Hs, land_pow2_pred by lia.
  set (x := _ mod _). assert (0 ≤ x < 2 ^ hash_bits tb) by
    (apply Z.mod_pos_bound, pow2_pos; lia).
  assert (2 ^ hash_bits tb < 2 ^ 32) by (apply Z.pow_lt_mono_r; lia).
  rewrite wrap_small; unfold in_width; lia.
Qed.

Lemma size_bounds tb :
  1 ≤ hash_bits tb ≤ 30 → size tb = 2 ^ hash_bits tb → 2 ≤ size tb < 2 ^ 31.
Proof.
  intros Hb ->. split.
  - change 2 with (2 ^ 1) at 1. apply Z.pow_le_mono_r; lia.
  - apply Z.pow_lt_mono_r; lia.
Qed.

Lemma entry_at_ok (l : list TranslateEntry) index e :
  l !! Z.to_nat index = Some e → entry_at l index = Ok e.
Proof. intros H. unfold entry_at. by rewrite H. Qed.

(** The slots probed before [index] on the way from [h]: occupied by other
    keys. *)
Definition skipped (l : list TranslateEntry) (k h index : Z) : Prop :=
  ∀ j, (Z.to_nat h ≤ j < Z.to_nat index)%nat →
    ∃ e, l !! j = Some e ∧ key e ≠ 0 ∧ key e ≠ k.

(** ** The probe of [Put] *)

(** Where a probe for [k] from [index] ends: the first slot that is empty or
    holds [k], if it comes before the last slot; [None] stands for [abort]. *)
Inductive slot_for (sz : Z) (l : list TranslateEntry) (k h : Z) : option Z → Prop :=
  | slot_here i e :
      h ≤ i → (i < sz - 1 ∨ i = h) → i < sz → skipped l k h i →
      l !! Z.to_nat i = Some e → key e = 0 ∨ key e = k →
      slot_for sz l k h (Some i)
  | slot_none i :
      h ≤ i → sz - 1 ≤ i + 1 → i < sz → skipped l k h (i + 1) →
      slot_for sz l k h None.

Lemma skipped_next l k h index e :
  0 ≤ h ≤ index → skipped l k h index → l !! Z.to_nat index = Some e →
  key e ≠ 0 → key e ≠ k → skipped l k h (index + 1).
Proof.
  intros Hi Hs He H0 Hk j Hj. destruct (decide (j = Z.to_nat index)) as [->|]; [eauto|].
  apply Hs. lia.
Qed.

Section probe.
Context (tb : t) (k : Z) (Hinv : inv tb).
#[local] Abbreviation h := (Hash tb k).

Lemma entry_exists i : 0 ≤ i < size tb → ∃ e, entries tb !! Z.to_nat i = Some e.
Proof using Hinv.
  intros Hi. destruct Hinv. apply lookup_lt_is_Some_2. lia.
Qed.

(** Both probing loops of insertion end at the slot of [slot_for]. *)
Lemma probe_insert_loops v fuel index :
  h ≤ index < size tb → (index < size tb - 1 ∨ index = h) →
  skipped (entries tb) k h index →
  (Z.to_nat (size tb - index) ≤ fuel)%nat →
  ∃ o, slot_for (size tb) (entries tb) k h o ∧
    put_loop fuel (size tb) (entries tb) index k v =
      match o with
      | Some i => Ok (<[Z.to_nat i := mkEntry k v]> (entries tb))
      | None => Err Aborted
      end ∧
    getorput_loop fuel (size tb) (entries tb) index k v =
      match o with
      | Some i =>
          e ← entry_at (entries tb) i;
          if (key e =? k) && negb (value e =? 0)
          then Ok (u32 (2 * i + 1), entries tb)
          else Ok (u32 (2 * i + 1), <[Z.to_nat i := mkEntry k v]> (entries tb))
      | None => Err Aborted
      end.
Proof using Hinv.
  assert (Hh : 0 ≤ h < size tb) by (apply Hash_range; apply Hinv).
  assert (Hsz : 2 ≤ size tb < 2 ^ 31) by (apply size_bounds; apply Hinv).
  revert index. induction fuel as [|fuel IH]; intros index Hi Hlast Hsk Hf; [lia|].
  destruct (entry_exists index) as [e He]; [lia|].
  cbn [put_loop getorput_loop]. rewrite (entry_at_ok _ _ _ He). simpl.
  destruct (Z.eqb_spec (key e) 0) as [E0|E0]; simpl.
  { exists (Some index). rewrite (entry_at_ok _ _ _ He). simpl.
    split_and!; try done. eapply slot_here; eauto; lia. }
  destruct (Z.eqb_spec (key e) k) as [Ek|Ek]; simpl.
  { exists (Some index). rewrite (entry_at_ok _ _ _ He). simpl.
    rewrite (proj2 (Z.eqb_eq _ _) Ek). simpl.
    split_and!; try done. eapply slot_here; eauto; lia. }
  rewrite wrap_small by (unfold in_width; lia).
  assert (Hsk' : skipped (entries tb) k h (index + 1))
    by (eapply skipped_next; eauto; lia).
  destruct (Z.leb_spec (size tb - 1) (index + 1)).
  { exists None. split_and!; try done. eapply slot_none; eauto; lia. }
  apply IH; [lia|lia|done|lia].
Qed.

(** The probing loop of [Lookup] finds the key exactly when it is stored. *)
Lemma find_loop_spec fuel index :
  k ≠ 0 → h ≤ index < size tb → (index < size tb - 1 ∨ index = h) →
  skipped (entries tb) k h index →
  (Z.to_nat (size tb - index) ≤ fuel)%nat →
  ∃ o, find_loop fuel (size tb) (entries tb) index k = Ok o ∧
    match o with
    | Some i => 0 ≤ i < size tb ∧
        ∃ e, entries tb !! Z.to_nat i = Some e ∧ key e = k
    | None => ∀ i e, (i < Z.to_nat (size tb))%nat →
        entries tb !! i = Some e → key e ≠ k
    end.
Proof using Hinv.
  intros Hk0.
  assert (Hh : 0 ≤ h < size tb) by (apply Hash_range; apply Hinv).
  assert (Hsz : 2 ≤ size tb < 2 ^ 31) by (apply size_bounds; apply Hinv).
  revert index. induction fuel as [|fuel IH]; intros index Hi Hlast Hsk Hf; [lia|].
  destruct (entry_exists index) as [e He]; [lia|].
  cbn [find_loop]. rewrite (entry_at_ok _ _ _ He). simpl.
  destruct (Z.eqb_spec (key e) k) as [Ek|Ek].
  { exists (Some index). split; [done|]. split; [lia|eauto]. }
  rewrite wrap_small by (unfold in_width; lia).
  destruct (Z.ltb_spec (index + 1) (size tb - 1)), (Z.eqb_spec (key e) 0) as [E0|E0];
    simpl.
  2:{ apply IH; [lia|lia|by eapply skipped_next; eauto; lia|lia]. }
  all: exists None; (split; [done|]); intros i e' Hlt He' Heq.
  all: destruct (inv_probe tb Hinv i e' Hlt He') as (Hge & Hend & Hocc); [congruence|].
  all: rewrite Heq in Hge, Hend, Hocc.
  all: destruct (decide (i < Z.to_nat index)%nat) as [Hl|Hl];
    [destruct (Hsk i) as (e2 & ? & ? & ?); [lia|congruence]|].
  all: destruct (decide (i = Z.to_nat index)) as [->|Hne]; [congruence|].
  - destruct (Hocc (Z.to_nat index)) as (e2 & ? & ? & ?); [lia|congruence].
  - destruct (Hocc (Z.to_nat index)) as (e2 & ? & ? & ?); [lia|congruence].
  - lia.
Qed.

Lemma skipped_start : skipped (entries tb) k h h.
Proof using Type. intros j Hj. lia. Qed.

Lemma find_spec :
  k ≠ 0 →
  ∃ o, find_loop (loop_fuel tb) (size tb) (entries tb) h k = Ok o ∧
    match o with
    | Some i => 0 ≤ i < size tb ∧
        ∃ e, entries tb !! Z.to_nat i = Some e ∧ key e = k
    | None => ∀ i e, (i < Z.to_nat (size tb))%nat →
        entries tb !! i = Some e → key e ≠ k
    end.
Proof using Hinv.
  intros Hk.
  assert (Hh : 0 ≤ h < size tb) by (apply Hash_range; apply Hinv).
  apply find_loop_spec; [done|lia|by right|apply skipped_start|].
  unfold loop_fuel. lia.
Qed.

Lemma insert_spec v :
  ∃ o, slot_for (size tb) (entries tb) k h o ∧
    put_loop (loop_fuel tb) (size tb) (entries tb) h k v =
      match o with
      | Some i => Ok (<[Z.to_nat i := mkEntry k v]> (entries tb))
      | None => Err Aborted
      end ∧
    getorput_loop (loop_fuel tb) (size tb) (entries tb) h k v =
      match o with
      | Some i =>
          e ← entry_at (entries tb) i;
          if (key e =? k) && negb (value e =? 0)
          then Ok (u32 (2 * i + 1), entries tb)
          else Ok (u32 (2 * i + 1), <[Z.to_nat i := mkEntry k v]> (entries tb))
      | None => Err Aborted
      end.
Proof using Hinv.
  assert (Hh : 0 ≤ h < size tb) by (apply Hash_range; apply Hinv).
  apply probe_insert_loops; [lia|by right|apply skipped_start|].
  unfold loop_fuel. lia.
Qed.
End probe.

(** A stored key occupies one slot. *)
Lemma key_unique tb i j e e' :
  inv tb → (i < Z.to_nat (size tb))%nat → (j < Z.to_nat (size tb))%nat →
  entries tb !! i = Some e → entries tb !! j = Some e' →
  key e ≠ 0 → key e = key e' → i = j.
Proof.
  intros Hinv Hi Hj He He' H0 Heq.
  destruct (inv_probe tb Hinv i e Hi He H0) as (Hgi & _ & Hoi).
  destruct (inv_probe tb Hinv j e' Hj He' ltac:(congruence)) as (Hgj & _ & Hoj).
  destruct (Nat.lt_trichotomy i j) as [Hlt|[?|Hlt]]; [|done|]; exfalso.
  - destruct (Hoj i) as (e2 & ? & ? & ?); [rewrite <- Heq; lia|congruence].
  - destruct (Hoi j) as (e2 & ? & ? & ?); [rewrite Heq; lia|congruence].
Qed.

Lemma Hash_set_entries tb l k : Hash (set_entries tb l) k = Hash tb k.
Proof. done. Qed.

(** Writing [k] into the slot a probe found keeps the invariant and updates
    the map at [k]. *)
Lemma slot_update tb k v i m :
  inv tb → repr tb m → k ≠ 0 →
  slot_for (size tb) (entries tb) k (Hash tb k) (Some i) →
  let tb' := set_entries tb (<[Z.to_nat i := mkEntry k v]> (entries tb)) in
  inv tb' ∧ repr tb' (<[k := v]> m).
Proof.
  intros Hinv Hrep Hk Hslot tb'. inversion Hslot as [i' e Hhi Hlast Hlt Hsk He Hke|]; subst.
  assert (Hh : 0 ≤ Hash tb k < size tb) by (apply Hash_range; apply Hinv).
  pose proof Hinv as [Hb Hs Hlen Hlk Hpr].
  assert (HiL : (Z.to_nat i < length (entries tb))%nat) by lia.
  (* a slot that held another key than [k] before the write was not slot [i] *)
  assert (Hother : ∀ j e', <[Z.to_nat i := mkEntry k v]> (entries tb) !! j = Some e' →
      (j = Z.to_nat i ∧ e' = mkEntry k v) ∨ (j ≠ Z.to_nat i ∧ entries tb !! j = Some e')).
  { intros j e'. rewrite list_lookup_insert. case_decide; naive_solver. }
  split.
  - subst tb'. split; try done; [simpl; by rewrite length_insert|].
    intros j e' Hj He' H0. rewrite Hash_set_entries. cbn [size entries set_entries] in *.
    destruct (Hother _ _ He') as [[-> ->]|[Hne He'']].
    + cbn [key] in *. split_and!; [lia|lia|].
      intros j' Hj'. destruct (Hsk j') as (e2 & ? & ? & ?); [lia|].
      exists e2. rewrite list_lookup_insert_ne by lia. done.
    + destruct (Hpr j e' Hj He'' H0) as (Hg & Hl & Ho).
      split_and!; [done|done|].
      intros j' Hj'. destruct (Ho j' Hj') as (e2 & He2 & H20 & H2k).
      destruct (decide (j' = Z.to_nat i)) as [->|]; [|exists e2; by rewrite list_lookup_insert_ne].
      exists (mkEntry k v). rewrite list_lookup_insert_eq by done. cbn [key].
      split_and!; [done|done|]. intros E. destruct Hke; congruence.
  - intros k' v' Hk'. rewrite lookup_insert. case_decide as E.
    + subst k'. split.
      * intros [= <-]. exists (Z.to_nat i). simpl. rewrite list_lookup_insert_eq by done.
        split; [lia|done].
      * intros (j & Hj & Hjl). simpl in Hj, Hjl.
        destruct (Hother _ _ Hjl) as [[_ E]|[Hne Hj2]]; [congruence|]. exfalso.
        destruct (Hpr j _ Hj Hj2 Hk) as (Hg & Hl & Ho). simpl in *.
        destruct (Nat.lt_trichotomy j (Z.to_nat i)) as [Hlt'|[?|Hlt']]; [|done|].
        -- destruct (Hsk j) as (e2 & ? & ? & ?); [lia|]. simplify_eq/=.
        -- destruct (Ho (Z.to_nat i)) as (e2 & ? & ? & ?); [lia|]. destruct Hke; congruence.
    + rewrite (Hrep k' v' Hk'). split; intros (j & Hj & Hjl); simpl in *.
      * exists j. split; [done|]. rewrite list_lookup_insert_ne; [done|].
        intros <-. simplify_eq/=. destruct Hke; congruence.
      * destruct (Hother _ _ Hjl) as [[_ [= ? ?]]|[Hne Hj2]]; [congruence|]. by exists j.
Qed.

Lemma lookup_zero_entries (l : list TranslateEntry) n i e :
  (i < n)%nat → (∀ j, (j < n)%nat → l !! j = Some zero_entry) →
  l !! i = Some e → e = zero_entry.
Proof. intros Hi Hz He. rewrite (Hz i Hi) in He. by simplify_eq. Qed.

(** A table whose probed slots are all zero is the empty map. *)
Lemma zero_table tb :
  1 ≤ hash_bits tb ≤ 30 → size tb = 2 ^ hash_bits tb →
  Z.of_nat (length (entries tb)) = size tb + 10 → locked tb = false →
  (∀ j, (j < Z.to_nat (size tb))%nat → entries tb !! j = Some zero_entry) →
  inv tb ∧ repr tb ∅.
Proof.
  intros Hb Hs Hlen Hlk Hz. split.
  - split; try done. intros i e Hi He H0. exfalso. apply H0.
    by rewrite (lookup_zero_entries _ _ _ _ Hi Hz He).
  - intros k v Hk. rewrite lookup_empty. split; [done|].
    intros (i & Hi & He). by apply (lookup_zero_entries _ _ _ _ Hi Hz) in He as [= ? ?].
Qed.

Lemma make_inv bits : 1 ≤ bits ≤ 30 → inv (make bits) ∧ repr (make bits) ∅.
Proof.
  intros Hb.
  assert (Hsz : 2 ≤ 2 ^ bits).
  { change 2 with (2 ^ 1) at 1. apply Z.pow_le_mono_r; lia. }
  apply zero_table; unfold make, Reset; cbn [hash_bits size locked entries];
    rewrite ?Z.shiftl_1_l; try done; unfold resize_entries;
    rewrite take_nil; simpl length; rewrite Nat.sub_0_r.
  - rewrite length_alter. simpl. rewrite length_replicate. lia.
  - intros j Hj. rewrite list_lookup_alter_ne.
    + simpl. apply lookup_replicate. split; [done|lia].
    + simpl. rewrite length_replicate. lia.
Qed.

Lemma Clear_inv tb : inv tb → inv (Clear tb) ∧ repr (Clear tb) ∅.
Proof.
  intros [Hb Hs Hlen Hlk _]. apply zero_table; simpl; try done.
  - by rewrite length_replicate.
  - intros j Hj. apply lookup_replicate. split; [done|lia].
Qed.

Lemma with_lock_run {A} (f : t → res (A * t)) tb a tb' :
  locked tb = false →
  f (mk (hash_bits tb) (size tb) (entries tb) true) = Ok (a, tb') →
  with_lock f tb = Ok (a, mk (hash_bits tb') (size tb') (entries tb') false).
Proof. intros Hl Hf. unfold with_lock. by rewrite Hl, Hf. Qed.

(** Rebuilding an unlocked table from its fields. *)
Lemma unlocked_eta tb l :
  locked tb = false →
  mk (hash_bits tb) (size tb) l false = set_entries tb l.
Proof. intros Hl. unfold set_entries. by rewrite Hl. Qed.

Lemma Lookup_repr tb m k :
  inv tb → repr tb m → k ≠ 0 → Lookup tb k = Ok (default 0 (m !! k)).
Proof.
  intros Hinv Hrep Hk. unfold Lookup. rewrite (inv_lock tb Hinv).
  destruct (find_spec tb k Hinv Hk) as ([i|] & -> & Hf); simpl.
  - destruct Hf as (Hi & [k' v] & He & Hke). simpl in Hke. subst k'.
    rewrite (entry_at_ok _ _ _ He). simpl.
    rewrite (proj2 (Hrep k v Hk)); [done|]. exists (Z.to_nat i). split; [lia|done].
  - destruct (m !! k) as [v|] eqn:Hm; [|done]. exfalso.
    apply (Hrep k v Hk) in Hm as (i & Hi & He). by apply (Hf i _ Hi He).
Qed.

(** [Put] either updates the map or aborts with every reachable slot taken. *)
Lemma Put_repr tb m k v :
  inv tb → repr tb m → k ≠ 0 →
  (∃ tb', Put tb k v = Ok (true, tb') ∧ inv tb' ∧ repr tb' (<[k := v]> m)) ∨
  (Put tb k v = Err Aborted ∧
   ∃ i, Hash tb k ≤ i < size tb ∧ size tb - 1 ≤ i + 1 ∧
     skipped (entries tb) k (Hash tb k) (i + 1)).
Proof.
  intros Hinv Hrep Hk. pose proof (inv_lock tb Hinv) as Hlk.
  destruct (insert_spec tb k Hinv v) as ([i|] & Hslot & Hput & _).
  - left. destruct (slot_update tb k v i m Hinv Hrep Hk Hslot) as [H1 H2].
    eexists. split; [|split; [exact H1|exact H2]].
    unfold Put. erewrite with_lock_run; [|done|].
    2:{ change (loop_fuel _) with (loop_fuel tb). change (Hash _ k) with (Hash tb k).
        cbn [size entries]. rewrite Hput. reflexivity. }
    simpl. by rewrite unlocked_eta.
  - right. inversion Hslot; subst. split; [|exists i; split_and!; done].
    unfold Put, with_lock. rewrite Hlk. change (loop_fuel _) with (loop_fuel tb).
    change (Hash _ k) with (Hash tb k). cbn [size entries]. by rewrite Hput.
Qed.

(** (C23) The table implements a finite map: in every state that represents a
    map, [Lookup] of a non-zero key returns the value last stored under it, 0
    for an absent key, and always ends. *)
Theorem Lookup_correct tb m k :
  inv tb → repr tb m → k ≠ 0 → Lookup tb k = Ok (default 0 (m !! k)).
Proof. apply Lookup_repr. Qed.

Lemma Lookup_correct_witness : Lookup (make 4) 0x1000 = Ok 0.
Proof.
  destruct (make_inv 4) as [Hi Hr]; [lia|].
  exact (Lookup_correct (make 4) ∅ 0x1000 Hi Hr ltac:(done)).
Defined.

(** (C33) [Put] of a non-zero key either updates exactly that key of the map
    and keeps the table well-formed, or aborts; it aborts only when every slot
    from the home slot of the key to the last but one holds another key. *)
Theorem Put_correct tb m k v :
  inv tb → repr tb m → k ≠ 0 →
  (∃ tb', Put tb k v = Ok (true, tb') ∧ inv tb' ∧ repr tb' (<[k := v]> m)) ∨
  (Put tb k v = Err Aborted ∧
   ∃ i, Hash tb k ≤ i < size tb ∧ size tb - 1 ≤ i + 1 ∧
     skipped (entries tb) k (Hash tb k) (i + 1)).
Proof. apply Put_repr. Qed.

Lemma Put_correct_witness :
  ∃ tb', Put (make 4) 0x1000 7 = Ok (true, tb') ∧ inv tb' ∧ repr tb' (<[0x1000 := 7]> ∅).
Proof.
  destruct (make_inv 4) as [Hi Hr]; [lia|].
  destruct (Put_correct (make 4) ∅ 0x1000 7 Hi Hr ltac:(done)) as [H|[E _]]; [exact H|].
  vm_compute in E. discriminate E.
Defined.

(** [GetOrPut] returns [2 * index + 1] for the one slot that holds the key
    afterwards; a non-zero value stored before is kept, otherwise the new
    value is stored. *)
Theorem GetOrPut_correct tb m k v r tb' :
  inv tb → repr tb m → k ≠ 0 → GetOrPut tb k v = Ok (r, tb') →
  ∃ i w, r = 2 * i + 1 ∧ 0 ≤ i < size tb ∧
    entries tb' !! Z.to_nat i = Some (mkEntry k w) ∧
    w = (if decide (default 0 (m !! k) = 0) then v else default 0 (m !! k)) ∧
    inv tb' ∧ repr tb' (<[k := w]> m).
Proof.
  intros Hinv Hrep Hk. pose proof (inv_lock tb Hinv) as Hlk.
  pose proof (size_bounds tb (inv_bits tb Hinv) (inv_size tb Hinv)).
  assert (Hh : 0 ≤ Hash tb k < size tb) by (apply Hash_range; apply Hinv).
  destruct (insert_spec tb k Hinv v) as (o & Hslot & _ & Hget).
  unfold GetOrPut, with_lock. rewrite Hlk. change (loop_fuel _) with (loop_fuel tb).
  change (Hash _ k) with (Hash tb k). cbn [size entries]. rewrite Hget.
  destruct o as [i|]; [|done].
  inversion Hslot as [? e Hhi Hlast Hlt Hsk He Hke|]; subst.
  rewrite (entry_at_ok _ _ _ He). destruct e as [ke ve]. simpl in Hke |- *.
  assert (Hm : ke = k → m !! k = Some ve).
  { intros ->. apply (Hrep k ve Hk). exists (Z.to_nat i). split; [lia|done]. }
  assert (Hn : ke = 0 → m !! k = None).
  { intros ->. destruct (m !! k) as [w|] eqn:Hmk; [|done]. exfalso.
    apply (Hrep k w Hk) in Hmk as (j & Hj & Hjl).
    destruct (inv_probe tb Hinv j _ Hj Hjl Hk) as (_ & _ & Ho). simpl in Ho.
    destruct (Nat.lt_trichotomy j (Z.to_nat i)) as [Hlt'|[->|Hlt']].
    - destruct (inv_probe tb Hinv j _ Hj Hjl Hk) as (Hg & _). simpl in Hg.
      destruct (Hsk j) as (e2 & ? & ? & ?); [lia|]. simplify_eq/=.
    - simplify_eq/=.
    - destruct (Ho (Z.to_nat i)) as (e2 & ? & ? & _); [lia|]. simplify_eq/=. }
  destruct (slot_update tb k v i m Hinv Hrep Hk Hslot) as [H1 H2].
  rewrite (wrap_small 32 (2 * i + 1)) by (unfold in_width; lia).
  destruct (Z.eqb_spec ke k) as [->|Hne]; simpl.
  - rewrite (Hm eq_refl). simpl. destruct (Z.eqb_spec ve 0) as [->|Hv]; simpl;
      intros [= <- <-].
    + exists i, v. rewrite unlocked_eta by done. split_and!; try done; try lia.
      simpl. rewrite list_lookup_insert_eq; [done|]. pose proof (inv_len tb Hinv). lia.
    + exists i, ve. rewrite unlocked_eta by done. rewrite decide_False by done.
      assert (set_entries tb (entries tb) = tb) as -> by (by destruct tb).
      rewrite insert_id by (by apply Hm). split_and!; try done; lia.
  - destruct Hke as [->|?]; [|done]. rewrite (Hn eq_refl). simpl. intros [= <- <-].
    exists i, v. rewrite unlocked_eta by done. split_and!; try done; try lia.
    simpl. rewrite list_lookup_insert_eq; [done|]. pose proof (inv_len tb Hinv). lia.
Qed.

Lemma GetOrPut_correct_witness :
  ∃ r tb', GetOrPut (make 4) 0x40 9 = Ok (r, tb') ∧ ∃ i, r = 2 * i + 1.
Proof.
  destruct (make_inv 4) as [Hi Hr]; [lia|].
  destruct (GetOrPut (make 4) 0x40 9) as [[r tb']|] eqn:E; [|by vm_compute in E].
  exists r, tb'. split; [done|].
  destruct (GetOrPut_correct (make 4) ∅ 0x40 9 r tb' Hi Hr ltac:(done) E)
    as (i & _ & -> & _). by exists i.
Defined.

(** ** [Replace] and [Remove] *)

(** [Replace] of a stored key updates the map at that key; for a key that
    is not stored it calls [Put] with the lock held and never returns. *)
Theorem Replace_behaviour tb m k v :
  inv tb → repr tb m → k ≠ 0 →
  match m !! k with
  | Some _ => ∃ tb', Replace tb k v = Ok (tt, tb') ∧ inv tb' ∧ repr tb' (<[k := v]> m)
  | None => Replace tb k v = Err Deadlock
  end.
Proof.
  intros Hinv Hrep Hk. pose proof (inv_lock tb Hinv) as Hlk.
  destruct (find_spec tb k Hinv Hk) as (o & Hfind & Hf).
  unfold Replace. destruct (m !! k) as [w|] eqn:Hm.
  - apply (Hrep k w Hk) in Hm as (i0 & Hi0 & He0).
    destruct o as [i|]; [|exfalso; by eapply (Hf i0)].
    destruct Hf as (Hi & [k' w'] & He & Hke). simpl in Hke. subst k'.
    assert (Hslot : slot_for (size tb) (entries tb) k (Hash tb k) (Some i)).
    { destruct (inv_probe tb Hinv (Z.to_nat i) _ ltac:(lia) He Hk) as (Hg & Hl & Ho).
      simpl in *. rewrite Z2Nat.id in Hg, Hl by lia.
      eapply slot_here; [done|done|lia| |done|by right]. intros j Hj. by apply Ho. }
    destruct (slot_update tb k v i m Hinv Hrep Hk Hslot) as [H1 H2].
    eexists. split; [|split; [exact H1|exact H2]].
    erewrite with_lock_run; [|done|].
    2:{ change (loop_fuel _) with (loop_fuel tb). change (Hash _ k) with (Hash tb k).
        cbn [size entries]. rewrite Hfind. simpl. rewrite (entry_at_ok _ _ _ He).
        reflexivity. }
    simpl. by rewrite unlocked_eta.
  - destruct o as [i|].
    { exfalso. destruct Hf as (Hi & [k' w'] & He & Hke). simpl in Hke. subst k'.
      assert (m !! k = Some w'); [|congruence].
      apply (Hrep k w' Hk). exists (Z.to_nat i). split; [lia|done]. }
    unfold with_lock at 1. rewrite Hlk.
    change (loop_fuel _) with (loop_fuel tb). change (Hash _ k) with (Hash tb k).
    cbn [size entries]. rewrite Hfind. reflexivity.
Qed.

Lemma Replace_behaviour_witness : Replace (make 4) 0x40 9 = Err Deadlock.
Proof.
  destruct (make_inv 4) as [Hi Hr]; [lia|].
  exact (Replace_behaviour (make 4) ∅ 0x40 9 Hi Hr ltac:(done)).
Defined.

Lemma remove_home fuel tb k e :
  inv tb → entries tb !! Z.to_nat (Hash tb k) = Some e → key e = k →
  Remove (S fuel) tb k =
    Ok (tt, set_entries tb
              (<[Z.to_nat (Hash tb k) := mkEntry 0 (value e)]> (entries tb))).
Proof.
  intros Hinv He Hk. pose proof (inv_lock tb Hinv) as Hlk.
  unfold Remove. erewrite with_lock_run; [|done|].
  2:{ cbv zeta. change (Hash _ k) with (Hash tb k). cbn [size entries remove_loop].
      rewrite (entry_at_ok _ _ _ He). simpl. rewrite Hk, Z.eqb_refl. reflexivity. }
  simpl. by rewrite unlocked_eta.
Qed.

(** Removing a key that sits in its home slot empties the slot: a key with
    the same home slot that is stored further along, and that could be looked
    up before, is lost to [Lookup] although it is still in the table. *)
Theorem Remove_orphans_collisions fuel tb m a b w e :
  inv tb → repr tb m → b ≠ 0 → a ≠ b → Hash tb a = Hash tb b →
  entries tb !! Z.to_nat (Hash tb a) = Some e → key e = a →
  m !! b = Some w → w ≠ 0 →
  ∃ tb', Remove (S fuel) tb a = Ok (tt, tb') ∧
    Lookup tb b = Ok w ∧ Lookup tb' b = Ok 0 ∧
    ∃ i, entries tb' !! i = Some (mkEntry b w).
Proof.
  intros Hinv Hrep Hb Hab Hh He Hka Hm Hw.
  assert (Hr : 0 ≤ Hash tb a < size tb) by (apply Hash_range; apply Hinv).
  pose proof (inv_len tb Hinv).
  eexists. split_and!; [by apply remove_home| | |].
  - rewrite (Lookup_repr tb m b Hinv Hrep Hb), Hm. done.
  - unfold Lookup. cbn [locked set_entries]. rewrite (inv_lock tb Hinv).
    rewrite Hash_set_entries, <- Hh. cbn [size entries set_entries].
    assert (∀ f, find_loop (S f) (size tb)
      (<[Z.to_nat (Hash tb a) := mkEntry 0 (value e)]> (entries tb)) (Hash tb a) b
      = Ok None) as Hnone.
    { intros f. cbn [find_loop]. unfold entry_at.
      rewrite list_lookup_insert_eq by lia. simpl.
      destruct (Z.eqb_spec 0 b); [congruence|]. by rewrite andb_false_r. }
    unfold loop_fuel. by rewrite Hnone.
  - apply (Hrep b w Hb) in Hm as (i & Hi & Hi'). exists i. simpl.
    rewrite list_lookup_insert_ne; [done|]. intros E. subst i. simplify_eq/=.
Qed.

(** Two keys with home slot 0 of a 16-slot table. *)
Definition collision_table : t :=
  match Put (make 4) 0x44 1 with
  | Ok (_, tb) => match Put tb 0x88 2 with Ok (_, tb') => tb' | _ => make 4 end
  | _ => make 4
  end.

Lemma collision_table_inv :
  inv collision_table ∧ repr collision_table (<[0x88 := 2]> (<[0x44 := 1]> ∅)).
Proof.
  unfold collision_table. destruct (make_inv 4) as [Hi Hr]; [lia|].
  destruct (Put_repr (make 4) ∅ 0x44 1 Hi Hr ltac:(done)) as [(t1 & E & Hi1 & Hr1)|[E _]];
    [|by vm_compute in E]. rewrite E.
  destruct (Put_repr t1 _ 0x88 2 Hi1 Hr1 ltac:(done)) as [(t2 & E2 & Hi2 & Hr2)|[E2 _]].
  - by rewrite E2.
  - vm_compute in E. injection E as <-. by vm_compute in E2.
Qed.

Lemma Remove_orphans_collisions_witness :
  ∃ tb', Remove 1 collision_table 0x44 = Ok (tt, tb') ∧
    Lookup collision_table 0x88 = Ok 2 ∧ Lookup tb' 0x88 = Ok 0.
Proof.
  destruct collision_table_inv as [Hi Hr].
  destruct (Remove_orphans_collisions 0 collision_table _ 0x44 0x88 2 (mkEntry 0x44 1)
    Hi Hr) as (tb' & H1 & H2 & H3 & _);
    [done|done|reflexivity|reflexivity|reflexivity|reflexivity|done|].
  exists tb'. by split_and!.
Defined.

Lemma land_below_pow2 x n : 0 ≤ n → 0 ≤ x < 2 ^ n → Z.land x (2 ^ n) = 0.
Proof.
  intros Hn Hx. apply Z.bits_inj'. intros i Hi.
  rewrite Z.land_spec, Z.pow2_bits_eqb, Z.bits_0 by done.
  destruct (Z.eqb_spec n i) as [<-|]; [|by rewrite andb_false_r].
  by rewrite (BitField.in_width_testbit_high n x n).
Qed.

(** (C40) The step [(index + 1) & size] of [Remove] goes to slot 0 from every
    slot but the last: for a key whose home slot is neither slot 1, where the
    probe ends, nor the last one, when the home slot and slot 0 hold other
    keys, [Remove] loops forever with the lock held. *)
Theorem Remove_diverges tb k e e0 :
  inv tb → Hash tb k ≠ 1 → Hash tb k < size tb - 1 →
  entries tb !! Z.to_nat (Hash tb k) = Some e → key e ≠ 0 → key e ≠ k →
  entries tb !! 0%nat = Some e0 → key e0 ≠ 0 → key e0 ≠ k →
  ∀ fuel, Remove fuel tb k = Err OutOfFuel.
Proof.
  intros Hinv H1 Hlast He He0 Hek H0 H00 H0k fuel.
  pose proof (inv_lock tb Hinv) as Hlk.
  assert (Hr : 0 ≤ Hash tb k < size tb) by (apply Hash_range; apply Hinv).
  pose proof (size_bounds tb (inv_bits tb Hinv) (inv_size tb Hinv)).
  pose proof (inv_size tb Hinv) as Hsz. pose proof (inv_bits tb Hinv).
  assert (Hstop : u32 (Hash tb k - 1) ≠ 0).
  { destruct (decide (Hash tb k = 0)) as [->|]; [by vm_compute|].
    rewrite wrap_small by (unfold in_width; lia). lia. }
  assert (Hstep : ∀ i, 0 ≤ i < size tb - 1 → u32 (Z.land (i + 1) (size tb)) = 0).
  { intros i Hi. rewrite Hsz, land_below_pow2 by lia. by vm_compute. }
  assert (Hzero : ∀ f, remove_loop f (size tb) (entries tb) 0 (u32 (Hash tb k - 1)) k
                       = Err OutOfFuel).
  { induction f as [|f IH]; [done|]. cbn [remove_loop].
    rewrite (entry_at_ok (entries tb) 0 e0 H0). simpl.
    destruct (Z.eqb_spec (key e0) k); [done|].
    rewrite (Hstep 0) by lia.
    destruct (Z.eqb_spec 0 (u32 (Hash tb k - 1))); [congruence|].
    destruct (Z.eqb_spec (key e0) 0); [done|]. exact IH. }
  assert (Hloop : remove_loop fuel (size tb) (entries tb) (Hash tb k)
                    (u32 (Hash tb k - 1)) k = Err OutOfFuel).
  { destruct fuel as [|f]; [done|]. cbn [remove_loop].
    rewrite (entry_at_ok _ _ _ He). simpl.
    destruct (Z.eqb_spec (key e) k); [done|]. rewrite Hstep by lia.
    destruct (Z.eqb_spec 0 (u32 (Hash tb k - 1))); [congruence|].
    destruct (Z.eqb_spec (key e) 0); [done|]. exact (Hzero f). }
  unfold Remove, with_lock. rewrite Hlk. cbv zeta.
  change (Hash _ k) with (Hash tb k). cbn [size entries]. by rewrite Hloop.
Qed.

Lemma Remove_diverges_witness :
  Hash collision_table 0x88 ≠ 1 ∧ ∀ fuel, Remove fuel collision_table 0x88 = Err OutOfFuel.
Proof.
  split; [discriminate|]. destruct collision_table_inv as [Hi _].
  apply (Remove_diverges collision_table 0x88 (mkEntry 0x44 1) (mkEntry 0x44 1) Hi);
    first [reflexivity | discriminate].
Defined.

End TranslateTable.

(** ** The interface of a code map *)

(** What the users of the table rely on: a representation relation to finite
    maps, and [Lookup] and [Put] that follow it. *)
Class CodeMap (T : Type) := {
  cm_put : T → Z → Z → res (bool * T);
  cm_lookup : T → Z → res Z;
  cm_repr : T → gmap Z Z → Prop;
  cm_lookup_repr tb m k :
    cm_repr tb m → k ≠ 0 → cm_lookup tb k = Ok (default 0 (m !! k));
  cm_put_repr tb m k v b tb' :
    cm_repr tb m → k ≠ 0 → cm_put tb k v = Ok (b, tb') → cm_repr tb' (<[k := v]> m);
}.

Definition table_repr (tb : TranslateTable.t) (m : gmap Z Z) : Prop :=
  TranslateTable.inv tb ∧ TranslateTable.repr tb m.

Lemma table_lookup_repr tb m k :
  table_repr tb m → k ≠ 0 → TranslateTable.Lookup tb k = Ok (default 0 (m !! k)).
Proof. intros [Hi Hr] Hk. by apply TranslateTable.Lookup_repr. Qed.

Lemma table_put_repr tb m k v b tb' :
  table_repr tb m → k ≠ 0 → TranslateTable.Put tb k v = Ok (b, tb') →
  table_repr tb' (<[k := v]> m).
Proof.
  intros [Hi Hr] Hk HP.
  destruct (TranslateTable.Put_repr tb m k v Hi Hr Hk) as [(t2 & E & ? & ?)|[E _]];
    rewrite E in HP; [by simplify_eq|done].
Qed.

#[export] Instance table_code_map : CodeMap TranslateTable.t := {
  cm_put := TranslateTable.Put;
  cm_lookup := TranslateTable.Lookup;
  cm_repr := table_repr;
  cm_lookup_repr := table_lookup_repr;
  cm_put_repr := table_put_repr;
}.

Section code_map_client.
Context `{CodeMap T}.

(** A sequence of insertions. *)
Fixpoint put_all (tb : T) (kvs : list (Z * Z)) : res T :=
  match kvs with
  | [] => Ok tb
  | (k, v) :: rest => '(_, tb1) ← cm_put tb k v; put_all tb1 rest
  end.

Lemma put_all_repr tb m kvs tb' :
  cm_repr tb m → Forall (λ kv, kv.1 ≠ 0) kvs → put_all tb kvs = Ok tb' →
  cm_repr tb' (foldl (λ m kv, <[kv.1 := kv.2]> m) m kvs).
Proof.
  revert tb m. induction kvs as [|[k v] kvs IH]; intros tb m Hr HF He; simpl in *.
  - by simplify_eq.
  - apply Forall_cons in HF as [Hk HF].
    destruct (cm_put tb k v) as [[b tb1]|] eqn:E; [|done]. simpl in He.
    eapply IH; [|done|done]. by eapply cm_put_repr.
Qed.

Lemma put_all_lookup tb kvs tb' k :
  cm_repr tb ∅ → Forall (λ kv, kv.1 ≠ 0) kvs → put_all tb kvs = Ok tb' → k ≠ 0 →
  cm_lookup tb' k =
    Ok (default 0 (foldl (λ (m : gmap Z Z) kv, <[kv.1 := kv.2]> m) ∅ kvs !! k)).
Proof. intros Hr HF He Hk. apply cm_lookup_repr; [|done]. by eapply put_all_repr. Qed.
End code_map_client.

(** After any sequence of successful insertions into a fresh table, a lookup
    returns the value of the last insertion of the key, 0 if there was none. *)
Theorem table_put_all_lookup bits kvs tb k :
  1 ≤ bits ≤ 30 → Forall (λ kv, kv.1 ≠ 0) kvs →
  put_all (TranslateTable.make bits) kvs = Ok tb → k ≠ 0 →
  TranslateTable.Lookup tb k =
    Ok (default 0 (foldl (λ (m : gmap Z Z) kv, <[kv.1 := kv.2]> m) ∅ kvs !! k)).
Proof.
  intros Hb HF He Hk. change (TranslateTable.Lookup tb k) with (cm_lookup tb k).
  eapply put_all_lookup; try done. by apply TranslateTable.make_inv.
Qed.

Lemma table_put_all_lookup_witness :
  ∃ tb, put_all (TranslateTable.make 4) [(0x44, 1); (0x88, 2); (0x44, 3)] = Ok tb ∧
    TranslateTable.Lookup tb 0x44 = Ok 3.
Proof.
  destruct (put_all (TranslateTable.make 4) [(0x44, 1); (0x88, 2); (0x44, 3)]) as [tb|e]
    eqn:E; [|by vm_compute in E].
  exists tb. split; [done|].
  rewrite (table_put_all_lookup 4 [(0x44, 1); (0x88, 2); (0x44, 3)] tb 0x44
    ltac:(lia) ltac:(by repeat constructor) E ltac:(done)). reflexivity.
Defined.
