(* ===== verification/IntrusiveList.v ===== *)
(** * Intrusive lists

    [ams::util::IntrusiveList] (libvapours, [util_intrusive_list.hpp]), the
    circular doubly linked list behind the instruction, block, edge and use
    lists of [runtime/ir].  Nodes live in a heap; a list is its root node. *)

From S2P Require Import Prelude.

Module IntrusiveList.

(** ** Nodes *)

Abbreviation nid := nat.

Record IntrusiveListNode := mkNode { m_prev : nid; m_next : nid }.

Abbreviation nodes := (gmap nid IntrusiveListNode).

(** A reading access to a node that was freed faults. *)
Definition get_node (n : nid) : stM nodes IntrusiveListNode := λ h,
  match h !! n with Some x => Ok (x, h) | None => Err UseAfterFree end.
Definition GetPrev (n : nid) : stM nodes nid := x ← get_node n; mret (m_prev x).
Definition GetNext (n : nid) : stM nodes nid := x ← get_node n; mret (m_next x).
Definition set_prev (n v : nid) : stM nodes unit := λ h,
  match h !! n with
  | Some x => Ok (tt, <[n := mkNode v (m_next x)]> h) | None => Err UseAfterFree
  end.
Definition set_next (n v : nid) : stM nodes unit := λ h,
  match h !! n with
  | Some x => Ok (tt, <[n := mkNode (m_prev x) v]> h) | None => Err UseAfterFree
  end.

(** The constructor: a node linked to itself. *)
Definition node_init (n : nid) : IntrusiveListNode := mkNode n n.

Definition IsLinked (n : nid) : stM nodes bool :=
  next ← GetNext n; mret (negb (bool_decide (next = n))).

(** ** Splicing *)

Definition SplicePrev (this first last : nid) : stM nodes unit :=
  last_prev ← GetPrev last;
  p ← GetPrev this;
  _ ← set_prev first p;
  _ ← set_next last_prev this;
  p' ← GetPrev this;
  _ ← set_next p' first;
  set_prev this last_prev.

Definition SpliceNext (this first last : nid) : stM nodes unit :=
  last_prev ← GetPrev last;
  _ ← set_prev first this;
  n ← GetNext this;
  _ ← set_next last_prev n;
  n' ← GetNext this;
  _ ← set_prev n' last_prev;
  set_next this first.

Definition Unlink_to (this last : nid) : stM nodes unit :=
  last_prev ← GetPrev last;
  p ← GetPrev this;
  _ ← set_next p last;
  p' ← GetPrev this;
  _ ← set_prev last p';
  _ ← set_next last_prev this;
  set_prev this last_prev.

Definition Unlink (this : nid) : stM nodes unit :=
  n ← GetNext this; Unlink_to this n.

(** ** Lists *)

Section list_ops.

(** Whether the build defines [AMS_ENABLE_ASSERTIONS]. *)
Context (assertions : bool).

Definition AMS_ASSERT (b : stM nodes bool) : stM nodes unit :=
  if assertions then c ← b; st_check c Aborted else mret tt.

Definition LinkPrev (this node : nid) : stM nodes unit :=
  _ ← AMS_ASSERT (b ← IsLinked node; mret (negb b));
  SplicePrev this node node.
Definition LinkNext (this node : nid) : stM nodes unit :=
  _ ← AMS_ASSERT (b ← IsLinked node; mret (negb b));
  SpliceNext this node node.

Definition push_back (root node : nid) : stM nodes unit := LinkPrev root node.
Definition push_front (root node : nid) : stM nodes unit := LinkNext root node.
Definition empty (root : nid) : stM nodes bool := b ← IsLinked root; mret (negb b).

Definition pop_back (root : nid) : stM nodes unit :=
  _ ← AMS_ASSERT (b ← empty root; mret (negb b));
  n ← GetPrev root; Unlink n.
Definition pop_front (root : nid) : stM nodes unit :=
  _ ← AMS_ASSERT (b ← empty root; mret (negb b));
  n ← GetNext root; Unlink n.

(** [erase(const_reference)], through [iterator_to] and [erase(iterator)]: the
    successor of the erased node. *)
Definition erase (root n : nid) : stM nodes nid :=
  _ ← AMS_ASSERT (IsLinked n);
  if bool_decide (n = root) then mret root
  else it ← GetNext n; _ ← Unlink n; mret it.

(** [for (auto& x : list)] with a body that leaves the list alone: the nodes it
    visits. *)
Fixpoint walk (fuel : nat) (h : nodes) (root it : nid) : res (list nid) :=
  match fuel with
  | O => Err OutOfFuel
  | S fuel' =>
      if bool_decide (it = root) then Ok []
      else
        x ← of_option UseAfterFree (h !! it);
        l ← walk fuel' h root (m_next x);
        Ok (it :: l)
  end.

Definition iterate (root : nid) : stM nodes (list nid) :=
  first ← GetNext root; h ← st_get; st_lift (walk (S (size h)) h root first).

(** [size()] is the distance from [begin] to [end]. *)
Definition size_list (root : nid) : stM nodes nat :=
  l ← iterate root; mret (length l).

(** [Block::~Block]: the range-for over [inst_list] whose body erases and
    deletes the visited instruction ([DestroyInst]). *)
Definition DestroyInst (root inst : nid) : stM nodes unit :=
  _ ← erase root inst; st_mod (delete inst).

Fixpoint Block_dtor_loop (fuel : nat) (root it : nid) : stM nodes unit :=
  match fuel with
  | O => st_throw OutOfFuel
  | S fuel' =>
      if bool_decide (it = root) then mret tt
      else
        _ ← DestroyInst root it;
        next ← GetNext it;
        Block_dtor_loop fuel' root next
  end.

Definition Block_dtor (root : nid) : stM nodes unit :=
  first ← GetNext root; h ← st_get; Block_dtor_loop (S (size h)) root first.

End list_ops.

(** ** The links of a heap *)

Definition prv (h : nodes) (n : nid) : option nid := m_prev <$> h !! n.
Definition nx (h : nodes) (n : nid) : option nid := m_next <$> h !! n.

Lemma prv_some h n v : prv h n = Some v → is_Some (h !! n).
Proof. unfold prv. by destruct (h !! n). Qed.

Lemma nx_some h n v : nx h n = Some v → is_Some (h !! n).
Proof. unfold nx. by destruct (h !! n). Qed.

Lemma GetPrev_run h n v : prv h n = Some v → GetPrev n h = Ok (v, h).
Proof.
  unfold prv, GetPrev, get_node, mbind, st_bind. destruct (h !! n); by intros; simplify_eq/=.
Qed.

Lemma GetNext_run h n v : nx h n = Some v → GetNext n h = Ok (v, h).
Proof.
  unfold nx, GetNext, get_node, mbind, st_bind. destruct (h !! n); by intros; simplify_eq/=.
Qed.

(** The heap after one link is written. *)
Lemma set_prev_run h n v :
  is_Some (h !! n) → ∃ h', set_prev n v h = Ok (tt, h') ∧ dom h' = dom h ∧
    (∀ y, prv h' y = if decide (n = y) then Some v else prv h y) ∧ (∀ y, nx h' y = nx h y).
Proof.
  intros [x Hx]. unfold set_prev. rewrite Hx. eexists. split; [done|]. split_and!.
  - apply dom_insert_lookup_L. eauto.
  - intros y. unfold prv. rewrite lookup_insert. by case_decide.
  - intros y. unfold nx. rewrite lookup_insert. case_decide; [subst; by rewrite Hx|done].
Qed.

Lemma set_next_run h n v :
  is_Some (h !! n) → ∃ h', set_next n v h = Ok (tt, h') ∧ dom h' = dom h ∧
    (∀ y, nx h' y = if decide (n = y) then Some v else nx h y) ∧ (∀ y, prv h' y = prv h y).
Proof.
  intros [x Hx]. unfold set_next. rewrite Hx. eexists. split; [done|]. split_and!.
  - apply dom_insert_lookup_L. eauto.
  - intros y. unfold nx. rewrite lookup_insert. by case_decide.
  - intros y. unfold prv. rewrite lookup_insert. case_decide; [subst; by rewrite Hx|done].
Qed.

Lemma dom_some (h h' : nodes) n : dom h' = dom h → is_Some (h !! n) → is_Some (h' !! n).
Proof. intros E. rewrite <- !elem_of_dom. by rewrite E. Qed.

(** Run a sequence of reads and writes, collecting what each write changes. *)
Ltac run_links :=
  repeat first
    [ erewrite st_bind_run by (apply GetPrev_run; eassumption)
    | erewrite st_bind_run by (apply GetNext_run; eassumption) ].

Lemma SplicePrev_run h this first last lp p :
  first ≠ this → prv h last = Some lp → prv h this = Some p →
  is_Some (h !! first) → is_Some (h !! lp) → is_Some (h !! p) →
  ∃ h', SplicePrev this first last h = Ok (tt, h') ∧
    (∀ y, prv h' y =
       if decide (this = y) then Some lp else if decide (first = y) then Some p else prv h y) ∧
    (∀ y, nx h' y =
       if decide (p = y) then Some first else if decide (lp = y) then Some this else nx h y).
Proof.
  intros Hne Hl Ht Hf Hlp Hp. unfold SplicePrev. run_links.
  destruct (set_prev_run h first p) as (h1 & R1 & D1 & P1 & N1); [done|].
  erewrite st_bind_run by exact R1.
  destruct (set_next_run h1 lp this) as (h2 & R2 & D2 & N2 & P2); [eauto using dom_some|].
  erewrite st_bind_run by exact R2.
  assert (prv h2 this = Some p) by (rewrite P2, P1; by rewrite decide_False).
  run_links.
  destruct (set_next_run h2 p first) as (h3 & R3 & D3 & N3 & P3); [eauto using dom_some|].
  erewrite st_bind_run by exact R3.
  destruct (set_prev_run h3 this lp) as (h4 & R4 & D4 & P4 & N4).
  { apply prv_some in Ht. eauto using dom_some. }
  exists h4. split; [done|]. split; intros y.
  - by rewrite P4, P3, P2, P1.
  - by rewrite N4, N3, N2, N1.
Qed.

Lemma Unlink_run h this n lp p :
  n ≠ this → p ≠ this → nx h this = Some n → prv h n = Some lp → prv h this = Some p →
  is_Some (h !! lp) → is_Some (h !! p) →
  ∃ h', Unlink this h = Ok (tt, h') ∧ dom h' = dom h ∧
    (∀ y, prv h' y =
       if decide (this = y) then Some lp else if decide (n = y) then Some p else prv h y) ∧
    (∀ y, nx h' y =
       if decide (lp = y) then Some this else if decide (p = y) then Some n else nx h y).
Proof.
  intros Hne Hpt Hn Hl Ht Hlp Hp. unfold Unlink, Unlink_to. run_links.
  destruct (set_next_run h p n) as (h1 & R1 & D1 & N1 & P1); [done|].
  erewrite st_bind_run by exact R1.
  assert (prv h1 this = Some p) by (by rewrite P1). run_links.
  destruct (set_prev_run h1 n p) as (h2 & R2 & D2 & P2 & N2).
  { apply prv_some in Hl. eauto using dom_some. }
  erewrite st_bind_run by exact R2.
  destruct (set_next_run h2 lp this) as (h3 & R3 & D3 & N3 & P3); [eauto using dom_some|].
  erewrite st_bind_run by exact R3.
  destruct (set_prev_run h3 this lp) as (h4 & R4 & D4 & P4 & N4).
  { apply prv_some in Ht. eauto using dom_some. }
  exists h4. split; [done|]. split_and!; [congruence|intros y..].
  - by rewrite P4, P3, P2, P1.
  - by rewrite N4, N3, N2, N1.
Qed.

(** ** Paths and lists *)

(** Consecutive nodes of [l] are linked both ways. *)
Fixpoint path (h : nodes) (l : list nid) : Prop :=
  match l with
  | x :: (y :: _) as l' => nx h x = Some y ∧ prv h y = Some x ∧ path h l'
  | _ => True
  end.

(** The list rooted at [root] holds the nodes [l]. *)
Definition ilist (h : nodes) (root : nid) (l : list nid) : Prop :=
  path h (root :: l ++ [root]) ∧ NoDup (root :: l).

Lemma path_app h l1 x l2 : path h (l1 ++ x :: l2) ↔ path h (l1 ++ [x]) ∧ path h (x :: l2).
Proof.
  induction l1 as [|a l1 IH]; [simpl; naive_solver|].
  destruct l1 as [|b l1]; simpl in *; naive_solver.
Qed.

Lemma path_ext h h' l0 e :
  path h (l0 ++ [e]) → (∀ y, y ∈ l0 → nx h' y = nx h y) →
  (∀ y, y ∈ tail (l0 ++ [e]) → prv h' y = prv h y) → path h' (l0 ++ [e]).
Proof.
  revert e. induction l0 as [|a l0 IH]; intros e Hp Hn Hv; [done|].
  destruct l0 as [|b l0]; simpl in *; destruct Hp as (? & ? & Hp).
  - rewrite Hn by (by left). rewrite Hv by (by left). done.
  - rewrite Hn by (by left). rewrite Hv by (by left). split_and!; [done..|].
    apply IH; [done| |]; intros y Hy; [apply Hn; by right|apply Hv; by right].
Qed.

Lemma split_last (root : nid) l : ∃ l0 e, root :: l = l0 ++ [e].
Proof. destruct (exists_last (l := root :: l)) as (l0 & e & ?); [done|]. eauto. Qed.

Lemma path_snd h l0 x y l : path h (l0 ++ x :: y :: l) → nx h x = Some y ∧ prv h y = Some x.
Proof. rewrite path_app. simpl. naive_solver. Qed.

(** The last node of a list, and the part of the path before it. *)
Lemma ilist_last h root l :
  ilist h root l → ∃ l0 e, root :: l = l0 ++ [e] ∧ path h (l0 ++ [e]) ∧
    nx h e = Some root ∧ prv h root = Some e ∧ NoDup (l0 ++ [e]).
Proof.
  intros [Hp Hnd]. destruct (split_last root l) as (l0 & e & E). exists l0, e.
  assert (Hp' : path h (l0 ++ [e; root])) by (change [e; root] with ([e] ++ [root]);
    rewrite app_assoc, <- E; done).
  destruct (path_snd _ _ _ _ _ Hp'). apply path_app in Hp' as [? _].
  rewrite E in Hnd. done.
Qed.

Lemma tail_elem (x y : nid) (l l0 : list nid) : x :: l = l0 ++ [y] → tail (l0 ++ [y]) = l.
Proof. by intros <-. Qed.

(** A node linked to itself belongs to no list. *)
Definition unlinked (h : nodes) (n : nid) : Prop := prv h n = Some n ∧ nx h n = Some n.

Lemma AMS_ASSERT_run b (m : stM nodes bool) h : m h = Ok (true, h) → AMS_ASSERT b m h = Ok (tt, h).
Proof. intros Hm. destruct b; [|done]. unfold AMS_ASSERT. by rewrite (st_bind_run _ _ _ _ _ Hm). Qed.

Lemma IsLinked_run h n v : nx h n = Some v → IsLinked n h = Ok (negb (bool_decide (v = n)), h).
Proof. intros Hn. unfold IsLinked. by erewrite st_bind_run by (apply GetNext_run; eassumption). Qed.

Lemma push_back_run a h root l n :
  ilist h root l → unlinked h n → n ∉ root :: l →
  ∃ h', push_back a root n h = Ok (tt, h') ∧ ilist h' root (l ++ [n]) ∧
    (∀ y, y ∉ root :: n :: l → prv h' y = prv h y ∧ nx h' y = nx h y).
Proof.
  intros Hi [Hun Hux] Hn. destruct (ilist_last _ _ _ Hi) as (l0 & e & E & Hp & He & Hr & Hnd).
  assert (Hel : e ∈ root :: l) by (rewrite E; set_solver).
  destruct (SplicePrev_run h root n n n e) as (h' & Hs & P & N);
    [set_solver|done|done|by eapply nx_some|by eapply nx_some|by eapply nx_some|].
  exists h'. split_and!.
  - unfold push_back, LinkPrev. erewrite st_bind_run; [exact Hs|]. apply AMS_ASSERT_run.
    erewrite st_bind_run by (by apply IsLinked_run). by rewrite bool_decide_true.
  - split; [|rewrite app_comm_cons, NoDup_app; split_and!; [apply Hi|set_solver|apply NoDup_singleton]].
    rewrite <- app_assoc, app_comm_cons, E, <- app_assoc. simpl. rewrite path_app. split.
    + eapply path_ext; [done| |].
      * apply NoDup_app in Hnd as (_ & Hx & _). intros y Hy.
        assert (e ≠ y) by (intros <-; apply (Hx _ Hy); by left).
        assert (n ≠ y) by (intros <-; apply Hn; rewrite E; set_solver).
        by rewrite N, !decide_False.
      * rewrite (tail_elem root e l l0 E). intros y Hy. destruct Hi as [_ [Hy' _]%NoDup_cons].
        assert (root ≠ y) by set_solver. assert (n ≠ y) by set_solver. by rewrite P, !decide_False.
    + assert (root ≠ n ∧ e ≠ n) as [??] by (split; intros ->; set_solver).
      simpl. split_and!; rewrite ?N, ?P; repeat case_decide; done.
  - intros y Hy. rewrite P, N, !decide_False by set_solver. done.
Qed.

(** Removing a node from the middle of a circular path. *)
Lemma path_remove h h' root l1 n l2 l0 e s l3 :
  path h (root :: (l1 ++ n :: l2) ++ [root]) → NoDup (root :: l1 ++ n :: l2) →
  root :: l1 = l0 ++ [e] → l2 ++ [root] = s :: l3 →
  (∀ y, prv h' y = if decide (n = y) then Some n else if decide (s = y) then Some e else prv h y) →
  (∀ y, nx h' y = if decide (n = y) then Some n else if decide (e = y) then Some s else nx h y) →
  path h' (root :: (l1 ++ l2) ++ [root]).
Proof.
  intros Hp Hnd E1 E2 P N.
  rewrite <- app_assoc, app_comm_cons, E1, <- !app_assoc in Hp. simpl in Hp.
  change (n :: l2 ++ [root]) with ([n] ++ (l2 ++ [root])) in Hp. rewrite E2 in Hp. simpl in Hp.
  apply path_app in Hp as [Hp1 Hp2]. destruct Hp2 as (_ & _ & Hp2).
  change (n :: s :: l3) with ([n] ++ s :: l3) in Hp2. apply path_app in Hp2 as [_ Hp2].
  rewrite <- app_assoc, app_comm_cons, E1, E2, <- app_assoc. simpl.
  assert (Hnd' : NoDup ((l0 ++ [e]) ++ n :: l2)) by (by rewrite <- E1).
  apply NoDup_app in Hnd' as (Hnd1 & Hx & Hnd2). apply NoDup_cons in Hnd2 as [Hn2 Hnd2].
  assert (Hne : n ≠ e) by (intros ->; apply (Hx e); set_solver).
  assert (Hn0 : n ∉ l0 ++ [e]) by (intros Hi; apply (Hx _ Hi); by left).
  assert (He2 : e ∉ l2) by (intros Hi; apply (Hx e); set_solver).
  apply NoDup_cons in Hnd as [Hroot Hnd].
  assert (Hs : s ∈ l2 ∨ s = root) by (destruct l2; simplify_eq/=; set_solver).
  assert (Hns : n ≠ s) by (destruct Hs; [set_solver|subst; set_solver]).
  apply path_app.
  change (path h' (e :: s :: l3))
    with (nx h' e = Some s ∧ prv h' s = Some e ∧ path h' (s :: l3)).
  split_and!.
  - eapply path_ext; [done| |rewrite (tail_elem root e l1 l0 E1)]; intros y Hy.
    + apply NoDup_app in Hnd1 as (_ & Hx1 & _). assert (e ≠ y) by (intros ->; apply (Hx1 _ Hy); by left).
      assert (n ≠ y) by set_solver. by rewrite N, !decide_False.
    + assert (n ≠ y) by (intros ->; apply Hn0; rewrite <- E1; by right).
      assert (s ≠ y).
      { intros ->. destruct Hs as [Hs|Hs]; [|set_solver]. apply (Hx y); [|by right].
        rewrite <- E1. by right. }
      by rewrite P, !decide_False.
  - rewrite N. by repeat case_decide.
  - rewrite P. by repeat case_decide.
  - rewrite <- E2 in *. eapply path_ext; [done| |]; intros y Hy.
    + assert (n ≠ y ∧ e ≠ y) as [??] by set_solver. by rewrite N, !decide_False.
    + destruct l2 as [|s' l2]; simplify_eq/=; [set_solver|]. apply NoDup_cons in Hnd2 as [Hs2 _].
      assert (n ≠ y) by set_solver. assert (s ≠ y) by set_solver. by rewrite P, !decide_False.
Qed.

Lemma erase_run a h root l1 n l2 :
  ilist h root (l1 ++ n :: l2) →
  ∃ h', erase a root n h = Ok (default root (head l2), h') ∧ ilist h' root (l1 ++ l2) ∧
    unlinked h' n ∧ dom h' = dom h ∧
    (∀ y, y ∉ root :: l1 ++ n :: l2 → prv h' y = prv h y ∧ nx h' y = nx h y).
Proof.
  intros [Hp Hnd]. destruct (split_last root l1) as (l0 & e & E1).
  destruct (l2 ++ [root]) as [|s l3] eqn:E2; [by destruct l2|].
  assert (Hseq : path h (l0 ++ e :: n :: s :: l3)).
  { rewrite <- E2. change (e :: n :: l2 ++ [root]) with ([e] ++ n :: l2 ++ [root]).
    rewrite app_assoc, <- E1. simpl. by rewrite <- app_assoc in Hp. }
  destruct (path_snd _ _ _ _ _ Hseq) as [He Hpn].
  change (e :: n :: s :: l3) with ([e] ++ n :: s :: l3) in Hseq. rewrite app_assoc in Hseq.
  destruct (path_snd _ _ _ _ _ Hseq) as [Hn Hs].
  assert (Hes : e ∈ root :: l1) by (rewrite E1; set_solver).
  assert (Hss : s ∈ l2 ∨ s = root) by (destruct l2; simplify_eq/=; set_solver).
  assert (Hr : root ∉ l1 ++ n :: l2) by (by apply NoDup_cons in Hnd as [? _]).
  assert (Hnl : n ∉ l1 ∧ n ∉ l2).
  { apply NoDup_cons in Hnd as [_ Hnd]. apply NoDup_app in Hnd as (_ & Hx & [? _]%NoDup_cons).
    split; [|done]. intros Hi. apply (Hx _ Hi). by left. }
  assert (n ≠ root ∧ e ≠ n ∧ s ≠ n) as (Hnr & Hen & Hsn).
  { split_and!; [set_solver|intros ->; set_solver|intros ->; destruct Hss; set_solver]. }
  destruct (Unlink_run h n s n e) as (h' & Hu & Hd & P & N); try done; try (by eapply nx_some).
  exists h'. split_and!; [|split|..].
  - unfold erase. erewrite st_bind_run.
    2: { apply AMS_ASSERT_run. rewrite (IsLinked_run _ _ _ Hn). by rewrite bool_decide_false. }
    rewrite bool_decide_false by done. erewrite st_bind_run by (by apply GetNext_run).
    erewrite st_bind_run by exact Hu. by destruct l2; simplify_eq/=.
  - eapply path_remove; done.
  - eapply sublist_NoDup; [done|]. apply sublist_skip, sublist_app; [done|by apply sublist_cons].
  - split; [rewrite P|rewrite N]; by rewrite decide_True.
  - done.
  - intros y Hy. rewrite P, N.
    assert (n ≠ y ∧ s ≠ y ∧ e ≠ y) as (? & ? & ?) by (split_and!; set_solver).
    by rewrite !decide_False.
Qed.

Lemma walk_path fuel h root x l l' :
  path h (x :: l') → x :: l' = l ++ [root] → root ∉ l → (length l < fuel)%nat →
  walk fuel h root x = Ok l.
Proof.
  revert x l l'. induction fuel as [|fuel IH]; intros x l l' Hp E Hr Hf; [lia|]. simpl.
  destruct l as [|y l]; simplify_eq/=.
  - by rewrite bool_decide_true.
  - rewrite bool_decide_false by set_solver.
    destruct (l ++ [root]) as [|z r] eqn:E; [by destruct l|].
    destruct Hp as (Hn & _ & Hp). unfold nx in Hn. destruct (h !! y); simplify_eq/=.
    rewrite (IH _ l r); [done|done|done|set_solver|lia].
Qed.

Lemma ilist_dom h root l n : ilist h root l → n ∈ root :: l → is_Some (h !! n).
Proof.
  intros [Hp _] (l1 & l2 & E)%list_elem_of_split. rewrite app_comm_cons, E, <- app_assoc in Hp.
  simpl in Hp. apply path_app in Hp as [_ Hp].
  destruct (l2 ++ [root]) as [|y r] eqn:E2; [by destruct l2|].
  destruct Hp as (Hn & _). by eapply nx_some.
Qed.

Lemma iterate_run h root l : ilist h root l → iterate root h = Ok (l, h).
Proof.
  intros Hi. pose proof Hi as [Hp Hnd]. unfold iterate.
  destruct (l ++ [root]) as [|x r] eqn:E; [by destruct l|].
  assert (nx h root = Some x) as Hx by (apply Hp).
  erewrite st_bind_run by (by apply GetNext_run). erewrite st_bind_run by done.
  unfold st_lift. erewrite (walk_path _ _ _ _ l); [done| |done| |].
  - apply Hp.
  - by apply NoDup_cons in Hnd as [? _].
  - assert (list_to_set (root :: l) ⊆ dom h) as Hs%subseteq_size.
    { intros n Hn%elem_of_list_to_set. apply elem_of_dom. by eapply ilist_dom. }
    rewrite size_list_to_set, size_dom in Hs by done. simpl in Hs. lia.
Qed.

(** (C38) The circular links implement a sequence: iteration visits exactly the
    nodes of the list in order, [push_back] appends an unlinked node, and
    [erase] takes any node out, returns its successor and leaves it unlinked;
    nodes of other lists keep their links.  This holds with and without
    assertions. *)
Theorem list_implements_sequence a h root l :
  ilist h root l →
  iterate root h = Ok (l, h) ∧
  (∀ n, unlinked h n → n ∉ root :: l →
   ∃ h', push_back a root n h = Ok (tt, h') ∧ ilist h' root (l ++ [n]) ∧
     (∀ y, y ∉ root :: n :: l → prv h' y = prv h y ∧ nx h' y = nx h y)) ∧
  (∀ l1 n l2, l = l1 ++ n :: l2 →
   ∃ h', erase a root n h = Ok (default root (head l2), h') ∧ ilist h' root (l1 ++ l2) ∧
     unlinked h' n ∧ dom h' = dom h ∧
     (∀ y, y ∉ root :: l → prv h' y = prv h y ∧ nx h' y = nx h y)).
Proof.
  intros Hi. split_and!; [by apply iterate_run|intros; by apply push_back_run|].
  intros l1 n l2 ->. by apply erase_run.
Qed.

(** A root with two nodes, and a second root. *)
Definition two_lists : nodes :=
  list_to_map [(0, mkNode 2 1); (1, mkNode 0 2); (2, mkNode 1 0); (9, mkNode 9 9)]%nat.

Lemma two_lists_ok : ilist two_lists 0 [1; 2]%nat ∧ ilist two_lists 9 [].
Proof.
  split; (split; [vm_compute; repeat split; reflexivity|]).
  - apply (bool_decide_unpack (NoDup [0; 1; 2]%nat)). vm_compute. exact I.
  - apply NoDup_singleton.
Defined.

Lemma list_implements_sequence_witness :
  iterate 0 two_lists = Ok ([1; 2]%nat, two_lists) ∧
  ∃ h', erase true 0 1 two_lists = Ok (2%nat, h') ∧ ilist h' 0 [2%nat].
Proof.
  destruct (list_implements_sequence true two_lists 0 [1; 2]%nat (proj1 two_lists_ok))
    as (H1 & _ & H2).
  split; [exact H1|]. destruct (H2 [] 1%nat [2%nat] eq_refl) as (h' & ? & ? & _). eauto.
Defined.

(** A circular list read from another of its nodes. *)
Lemma ilist_rotate h r l1 x l2 : ilist h r (l1 ++ x :: l2) → ilist h x (l2 ++ r :: l1).
Proof.
  intros [Hp Hnd]. split.
  - rewrite <- app_assoc, app_comm_cons in Hp. simpl in Hp.
    apply (path_app h (r :: l1) x (l2 ++ [r])) in Hp as [H1 H2].
    rewrite <- app_assoc. apply (path_app h (x :: l2) r (l1 ++ [x])). done.
  - assert (x :: l2 ++ r :: l1 ≡ₚ r :: l1 ++ x :: l2) as -> by solve_Permutation. done.
Qed.

(** The links after the merge, read from the root of the first list. *)
Lemma path_merge h h' ra l1 n l2 l0 e rb :
  ilist h ra (l1 ++ n :: l2) → rb ∉ ra :: l1 ++ n :: l2 → ra :: l1 = l0 ++ [e] →
  (∀ y, prv h' y = if decide (rb = y) then Some e else if decide (n = y) then Some rb else prv h y) →
  (∀ y, nx h' y = if decide (rb = y) then Some n else if decide (e = y) then Some rb else nx h y) →
  ilist h' ra (l1 ++ rb :: n :: l2).
Proof.
  intros [Hp Hnd] Hrb E1 P N. split.
  2: { assert (ra :: l1 ++ rb :: n :: l2 ≡ₚ rb :: ra :: l1 ++ n :: l2) as -> by solve_Permutation.
       by constructor. }
  rewrite <- app_assoc, app_comm_cons, E1, <- app_assoc in Hp. simpl in Hp.
  apply path_app in Hp as [Hp1 (_ & _ & Hp2)].
  rewrite <- app_assoc, app_comm_cons, E1, <- app_assoc. simpl.
  assert (Hnd' : NoDup ((l0 ++ [e]) ++ n :: l2)) by (by rewrite <- E1).
  apply NoDup_app in Hnd' as (Hnd1 & Hx & [Hn2 _]%NoDup_cons).
  apply NoDup_app in Hnd1 as (_ & Hx1 & _). apply NoDup_cons in Hnd as [Hra _].
  assert (Hr0 : rb ∉ l0 ++ [e]) by (rewrite <- E1; set_solver).
  assert (He2 : e ∉ n :: l2) by (apply Hx; set_solver).
  apply path_app. split.
  - eapply path_ext; [done| |rewrite (tail_elem ra e l1 l0 E1)]; intros y Hy.
    + assert (e ≠ y) by (intros ->; apply (Hx1 _ Hy); by left).
      assert (rb ≠ y) by set_solver. by rewrite N, !decide_False.
    + assert (rb ≠ y) by set_solver.
      assert (n ≠ y) by (intros ->; apply (Hx y); [rewrite <- E1; by right|by left]).
      by rewrite P, !decide_False.
  - change (nx h' e = Some rb ∧ prv h' rb = Some e ∧ nx h' rb = Some n ∧ prv h' n = Some rb ∧
      path h' ((n :: l2) ++ [ra])).
    split_and!; [rewrite N|rewrite P|rewrite N|rewrite P|]; [repeat case_decide; set_solver..|].
    eapply path_ext; [done| |]; intros y Hy.
    + assert (rb ≠ y ∧ e ≠ y) as [??] by set_solver. by rewrite N, !decide_False.
    + simpl in Hy. assert (rb ≠ y ∧ n ≠ y) as [??] by set_solver. by rewrite P, !decide_False.
Qed.

(** Linking a node that is in a list fails its assertion. *)
Lemma push_linked_aborts h ra l1 n l2 rb :
  ilist h ra (l1 ++ n :: l2) → push_back true rb n h = Err Aborted.
Proof.
  intros [Hp Hnd]. assert (∃ y, nx h n = Some y ∧ y ≠ n) as (y & Hy & Hyn).
  { rewrite <- app_assoc, app_comm_cons in Hp. apply path_app in Hp as [_ Hp].
    assert (ra ≠ n ∧ n ∉ l2) as [??].
    { apply NoDup_cons in Hnd as [? Hnd]. apply NoDup_app in Hnd as (_ & _ & [? _]%NoDup_cons). set_solver. }
    destruct l2; simpl in Hp; eexists; (split; [apply Hp|]); set_solver. }
  unfold push_back, LinkPrev, AMS_ASSERT. apply st_bind_err.
  unfold mbind, st_bind. rewrite (IsLinked_run _ _ _ Hy). by rewrite bool_decide_false.
Qed.

(** One node cannot be in two lists: pushing a block that is still linked
    in [block_list] (root [ra]) onto the empty [blocks_rpo] (root [rb]) aborts
    in an asserting build; otherwise it merges both lists into one cycle, in
    which iterating either list visits the root of the other as an element. *)
Theorem push_back_linked_node h ra l1 n l2 rb :
  ilist h ra (l1 ++ n :: l2) → ilist h rb [] → rb ∉ ra :: l1 ++ n :: l2 →
  push_back true rb n h = Err Aborted ∧
  ∃ h', push_back false rb n h = Ok (tt, h') ∧
    ilist h' rb (n :: l2 ++ ra :: l1) ∧ ilist h' ra (l1 ++ rb :: n :: l2).
Proof.
  intros Hi Hb Hrb. pose proof Hi as [Hp Hnd].
  destruct (split_last ra l1) as (l0 & e & E1).
  rewrite <- app_assoc, app_comm_cons, E1, <- app_assoc in Hp. simpl in Hp.
  destruct (path_snd _ _ _ _ _ Hp) as [He Hpn].
  assert (Hnr : ra ∉ l1 ++ n :: l2 ∧ e ≠ n ∧ n ∉ l2).
  { assert (Hnd' : NoDup ((l0 ++ [e]) ++ n :: l2)) by (by rewrite <- E1).
    apply NoDup_app in Hnd' as (_ & Hx & [? _]%NoDup_cons). apply NoDup_cons in Hnd as [? _].
    split_and!; [done| |done]. intros ->. apply (Hx n); set_solver. }
  split; [by eapply push_linked_aborts|].
  - destruct Hb as [(Hbn & Hbp & _) _].
    destruct (SplicePrev_run h rb n n e rb) as (h' & Hs & P & N);
      [set_solver|done|done|by eapply prv_some|by eapply nx_some|by eapply prv_some|].
    exists h'. split; [done|].
    assert (ilist h' ra (l1 ++ rb :: n :: l2)) as Ha by (by eapply path_merge).
    split; [|done]. by apply ilist_rotate in Ha.
Qed.

Lemma push_back_linked_node_witness :
  push_back true 9 1 two_lists = Err Aborted ∧
  ∃ h', push_back false 9 1 two_lists = Ok (tt, h') ∧ ilist h' 9 [1; 2; 0]%nat.
Proof.
  destruct (push_back_linked_node two_lists 0 [] 1 [2%nat] 9) as (H1 & h' & H2 & H3 & _).
  - exact (proj1 two_lists_ok).
  - exact (proj2 two_lists_ok).
  - apply (bool_decide_unpack (9 ∉ [0; 1; 2])%nat). vm_compute. exact I.
  - eauto.
Defined.

(** [Block::~Block] deletes the instruction its iterator stands on and then
    advances the iterator: for every block that holds an instruction the
    destructor reads freed memory; an empty block is destroyed cleanly. *)
Theorem Block_dtor_use_after_free a h root l :
  ilist h root l →
  match l with
  | [] => Block_dtor a root h = Ok (tt, h)
  | _ :: _ => Block_dtor a root h = Err UseAfterFree
  end.
Proof.
  intros Hi. pose proof Hi as [Hp Hnd]. destruct l as [|x l]; unfold Block_dtor.
  - destruct Hp as (Hn & _). erewrite st_bind_run by (by apply GetNext_run).
    erewrite st_bind_run by done. simpl. by rewrite bool_decide_true.
  - destruct Hp as (Hn & _). erewrite st_bind_run by (by apply GetNext_run).
    erewrite st_bind_run by done. simpl.
    rewrite bool_decide_false by (apply NoDup_cons in Hnd; set_solver).
    destruct (erase_run a h root [] x l Hi) as (h' & He & _).
    erewrite st_bind_run; [|unfold DestroyInst; by erewrite st_bind_run].
    apply st_bind_err. unfold GetNext. apply st_bind_err. unfold get_node.
    by rewrite lookup_delete_eq.
Qed.

Lemma Block_dtor_use_after_free_witness : Block_dtor true 0 two_lists = Err UseAfterFree.
Proof.
  exact (Block_dtor_use_after_free true two_lists 0 [1; 2]%nat (proj1 two_lists_ok)).
Defined.

End IntrusiveList.
