(* ===== verification/IRTypes.v ===== *)
(** * The intermediate representation: types, operands and opcode table

    [runtime/ir/ir_types.h], [opcodes.h], [ir.inc], [ir_meta.cpp], [args.h],
    [args.cpp], [host_reg.h] and [location.h].  An instruction is a pointer into
    the heap of [Inst.v]; a [Value] is such a pointer, null being [None]. *)

From S2P Require Import Prelude.

(** A pointer to an [Inst]. *)
Abbreviation ptr := nat.

Module OpCode.

(** [enum class OpCode : u8]: [Void], the instructions of [ir.inc] in order,
    [BASE_COUNT], [SetLocation], [COUNT]. *)
Inductive t : Set :=
  | Void | LoadLocal | StoreLocal | LoadUniform | StoreUniform | LoadMemory
  | StoreMemory | LoadMemoryTSO | StoreMemoryTSO | CompareAndSwap | CallLambda
  | CallLocation | CallDynamic | AddPhi | LoadImm | PushRSB | PopRSB | Add | Sub | Adc
  | Sbb | Mul | Div | ZeroExtend | SignExtend | AndImm | OrImm | AndValue | OrValue
  | XorValue | GetCarry | GetOverFlow | GetZero | GetNegate | GetNegZero | GetParity
  | GetNZCV | GetAllFlags | LslImm | LslValue | LsrImm | LsrValue | AsrImm | AsrValue
  | RorImm | RorValue | BitExtract | BitInsert | BitClear | TestBit | BASE_COUNT
  | SetLocation | COUNT.

#[global] Instance OpCode_eq_dec : EqDecision t.
Proof. solve_decision. Defined.

(** The enumerators in declaration order; [code] is the underlying value. *)
Definition all : list t :=
  [Void; LoadLocal; StoreLocal; LoadUniform; StoreUniform; LoadMemory; StoreMemory;
   LoadMemoryTSO; StoreMemoryTSO; CompareAndSwap; CallLambda; CallLocation;
   CallDynamic; AddPhi; LoadImm; PushRSB; PopRSB; Add; Sub; Adc; Sbb; Mul; Div;
   ZeroExtend; SignExtend; AndImm; OrImm; AndValue; OrValue; XorValue; GetCarry;
   GetOverFlow; GetZero; GetNegate; GetNegZero; GetParity; GetNZCV; GetAllFlags;
   LslImm; LslValue; LsrImm; LsrValue; AsrImm; AsrValue; RorImm; RorValue; BitExtract;
   BitInsert; BitClear; TestBit; BASE_COUNT; SetLocation; COUNT].

Definition code (op : t) : Z :=
  match op with
  | Void => 0 | LoadLocal => 1 | StoreLocal => 2 | LoadUniform => 3 | StoreUniform => 4
  | LoadMemory => 5 | StoreMemory => 6 | LoadMemoryTSO => 7 | StoreMemoryTSO => 8
  | CompareAndSwap => 9 | CallLambda => 10 | CallLocation => 11 | CallDynamic => 12
  | AddPhi => 13 | LoadImm => 14 | PushRSB => 15 | PopRSB => 16 | Add => 17 | Sub => 18
  | Adc => 19 | Sbb => 20 | Mul => 21 | Div => 22 | ZeroExtend => 23 | SignExtend => 24
  | AndImm => 25 | OrImm => 26 | AndValue => 27 | OrValue => 28 | XorValue => 29
  | GetCarry => 30 | GetOverFlow => 31 | GetZero => 32 | GetNegate => 33
  | GetNegZero => 34 | GetParity => 35 | GetNZCV => 36 | GetAllFlags => 37
  | LslImm => 38 | LslValue => 39 | LsrImm => 40 | LsrValue => 41 | AsrImm => 42
  | AsrValue => 43 | RorImm => 44 | RorValue => 45 | BitExtract => 46 | BitInsert => 47
  | BitClear => 48 | TestBit => 49 | BASE_COUNT => 50 | SetLocation => 51 | COUNT => 52
  end.

Lemma all_code : map code all = seqZ 0 (Z.of_nat (length all)).
Proof. reflexivity. Qed.

Lemma all_lookup op : all !! Z.to_nat (code op) = Some op.
Proof. by destruct op. Qed.

End OpCode.

Module ArgType.

Inductive t : Set :=
  | Void | Value | Imm | Uniform | Local | Cond | Flags | Operand | Lambda.

#[global] Instance ArgType_eq_dec : EqDecision t.
Proof. solve_decision. Defined.

(** The underlying byte. *)
Definition code (a : t) : Z :=
  match a with
  | Void => 0 | Value => 1 | Imm => 2 | Uniform => 3 | Local => 4
  | Cond => 5 | Flags => 6 | Operand => 7 | Lambda => 8
  end.

Lemma code_inj a b : code a = code b → a = b.
Proof. by destruct a, b. Qed.

End ArgType.

Module ValueType.

Inductive t : Set :=
  | VOID | BOOL | U8 | U16 | U32 | U64 | U128 | S8 | S16 | S32 | S64 | S128
  | V8 | V16 | V32 | V64 | V128 | V256.

#[global] Instance ValueType_eq_dec : EqDecision t.
Proof. solve_decision. Defined.

End ValueType.

Module Cond.

(** [HS] and [LO] are other names of [CS] and [CC]. *)
Inductive t : Set :=
  | EQ | NE | CS | CC | MI | PL | VS | VC | HI | LS | GE | LT | GT | LE | AL | NV.

#[global] Instance Cond_eq_dec : EqDecision t.
Proof. solve_decision. Defined.

End Cond.

(** ** The table of instruction signatures *)

Record IRMeta := mkMeta {
  op_code : OpCode.t;
  name : string;
  return_type : ArgType.t;
  arg_types : list ArgType.t;
}.

(** [ir_meta_infos]: the names [BOOL], [U8], ... of [ir_meta.cpp] all stand for
    [ArgType::Value]. *)
Definition ir_meta_infos : list IRMeta :=
  [mkMeta OpCode.Void "Void" ArgType.Void [];
   mkMeta OpCode.LoadLocal "LoadLocal" ArgType.Value [ArgType.Local];
   mkMeta OpCode.StoreLocal "StoreLocal" ArgType.Void [ArgType.Local; ArgType.Value];
   mkMeta OpCode.LoadUniform "LoadUniform" ArgType.Value [ArgType.Uniform];
   mkMeta OpCode.StoreUniform "StoreUniform" ArgType.Void [ArgType.Uniform; ArgType.Value];
   mkMeta OpCode.LoadMemory "LoadMemory" ArgType.Value [ArgType.Operand];
   mkMeta OpCode.StoreMemory "StoreMemory" ArgType.Void [ArgType.Operand; ArgType.Value];
   mkMeta OpCode.LoadMemoryTSO "LoadMemoryTSO" ArgType.Value [ArgType.Operand];
   mkMeta OpCode.StoreMemoryTSO "StoreMemoryTSO" ArgType.Void [ArgType.Operand; ArgType.Value];
   mkMeta OpCode.CompareAndSwap "CompareAndSwap" ArgType.Value [ArgType.Value; ArgType.Value; ArgType.Value];
   mkMeta OpCode.CallLambda "CallLambda" ArgType.Value [ArgType.Lambda; ArgType.Value; ArgType.Value; ArgType.Value];
   mkMeta OpCode.CallLocation "CallLocation" ArgType.Value [ArgType.Lambda];
   mkMeta OpCode.CallDynamic "CallDynamic" ArgType.Value [ArgType.Lambda];
   mkMeta OpCode.AddPhi "AddPhi" ArgType.Value [ArgType.Value; ArgType.Value; ArgType.Value; ArgType.Value];
   mkMeta OpCode.LoadImm "LoadImm" ArgType.Value [ArgType.Imm];
   mkMeta OpCode.PushRSB "PushRSB" ArgType.Void [ArgType.Value];
   mkMeta OpCode.PopRSB "PopRSB" ArgType.Void [];
   mkMeta OpCode.Add "Add" ArgType.Value [ArgType.Value; ArgType.Operand];
   mkMeta OpCode.Sub "Sub" ArgType.Value [ArgType.Value; ArgType.Operand];
   mkMeta OpCode.Adc "Adc" ArgType.Value [ArgType.Value; ArgType.Operand];
   mkMeta OpCode.Sbb "Sbb" ArgType.Value [ArgType.Value; ArgType.Operand];
   mkMeta OpCode.Mul "Mul" ArgType.Value [ArgType.Value; ArgType.Operand];
   mkMeta OpCode.Div "Div" ArgType.Value [ArgType.Value; ArgType.Operand];
   mkMeta OpCode.ZeroExtend "ZeroExtend" ArgType.Value [ArgType.Value; ArgType.Imm];
   mkMeta OpCode.SignExtend "SignExtend" ArgType.Value [ArgType.Value; ArgType.Imm];
   mkMeta OpCode.AndImm "AndImm" ArgType.Value [ArgType.Value; ArgType.Imm];
   mkMeta OpCode.OrImm "OrImm" ArgType.Value [ArgType.Value; ArgType.Imm];
   mkMeta OpCode.AndValue "AndValue" ArgType.Value [ArgType.Value; ArgType.Value];
   mkMeta OpCode.OrValue "OrValue" ArgType.Value [ArgType.Value; ArgType.Value];
   mkMeta OpCode.XorValue "XorValue" ArgType.Value [ArgType.Value; ArgType.Value];
   mkMeta OpCode.GetCarry "GetCarry" ArgType.Value [ArgType.Value];
   mkMeta OpCode.GetOverFlow "GetOverFlow" ArgType.Value [ArgType.Value];
   mkMeta OpCode.GetZero "GetZero" ArgType.Value [ArgType.Value];
   mkMeta OpCode.GetNegate "GetNegate" ArgType.Value [ArgType.Value];
   mkMeta OpCode.GetNegZero "GetNegZero" ArgType.Value [ArgType.Value];
   mkMeta OpCode.GetParity "GetParity" ArgType.Value [ArgType.Value];
   mkMeta OpCode.GetNZCV "GetNZCV" ArgType.Value [ArgType.Value];
   mkMeta OpCode.GetAllFlags "GetAllFlags" ArgType.Value [ArgType.Value];
   mkMeta OpCode.LslImm "LslImm" ArgType.Value [ArgType.Value; ArgType.Imm];
   mkMeta OpCode.LslValue "LslValue" ArgType.Value [ArgType.Value; ArgType.Value];
   mkMeta OpCode.LsrImm "LsrImm" ArgType.Value [ArgType.Value; ArgType.Imm];
   mkMeta OpCode.LsrValue "LsrValue" ArgType.Value [ArgType.Value; ArgType.Value];
   mkMeta OpCode.AsrImm "AsrImm" ArgType.Value [ArgType.Value; ArgType.Imm];
   mkMeta OpCode.AsrValue "AsrValue" ArgType.Value [ArgType.Value; ArgType.Value];
   mkMeta OpCode.RorImm "RorImm" ArgType.Value [ArgType.Value; ArgType.Imm];
   mkMeta OpCode.RorValue "RorValue" ArgType.Value [ArgType.Value; ArgType.Value];
   mkMeta OpCode.BitExtract "BitExtract" ArgType.Value [ArgType.Value; ArgType.Imm; ArgType.Imm];
   mkMeta OpCode.BitInsert "BitInsert" ArgType.Value [ArgType.Value; ArgType.Value; ArgType.Imm; ArgType.Imm];
   mkMeta OpCode.BitClear "BitClear" ArgType.Value [ArgType.Value; ArgType.Imm; ArgType.Imm];
   mkMeta OpCode.TestBit "TestBit" ArgType.Value [ArgType.Value; ArgType.Imm];
   mkMeta OpCode.BASE_COUNT "BASE_COUNT" ArgType.Void [];
   mkMeta OpCode.SetLocation "SetLocation" ArgType.Void [ArgType.Imm];
   mkMeta OpCode.COUNT "COUNT" ArgType.Void []].

(** [GetIRMetaInfo] throws for [COUNT] and indexes the table by the code. *)
Definition GetIRMetaInfo (op : OpCode.t) : res IRMeta :=
  _ ← check (OpCode.code op <? OpCode.code OpCode.COUNT) AssertFailed;
  of_option OutOfBounds (ir_meta_infos !! Z.to_nat (OpCode.code op)).

(** ** Instruction arguments *)

(** [Imm]: the constructor records the type tag and the union member. *)
Inductive Imm : Set :=
  | Imm_bool (imm_bool : bool)
  | Imm_u8 (imm_u8 : Z)
  | Imm_u16 (imm_u16 : Z)
  | Imm_u32 (imm_u32 : Z)
  | Imm_u64 (imm_u64 : Z).

Definition Imm_type (i : Imm) : ValueType.t :=
  match i with
  | Imm_bool _ => ValueType.BOOL
  | Imm_u8 _ => ValueType.U8
  | Imm_u16 _ => ValueType.U16
  | Imm_u32 _ => ValueType.U32
  | Imm_u64 _ => ValueType.U64
  end.

(** [Value]: a pointer to the defining instruction. *)
Abbreviation Value := (option ptr).

Definition Value_Defined (v : Value) : bool := bool_decide (is_Some v).

Record Uniform := mkUniform { uniform_offset : Z; uniform_type : ValueType.t }.
Definition Uniform_GetOffset (u : Uniform) : Z := uniform_offset u.
Definition Uniform_GetType (u : Uniform) : ValueType.t := uniform_type u.

Record Local := mkLocal { local_id : Z; local_type : ValueType.t }.

(** [Lambda] over [DataClass]: void, a value or an immediate. *)
Inductive Lambda : Set :=
  | Lambda_void
  | Lambda_value (value : Value)
  | Lambda_imm (imm : Imm).

Definition Lambda_IsValue (l : Lambda) : bool :=
  match l with Lambda_value _ => true | _ => false end.
Definition Lambda_GetValue (l : Lambda) : res Value :=
  match l with Lambda_value v => Ok v | _ => Err AssertFailed end.
Definition Lambda_GetImm (l : Lambda) : res Imm :=
  match l with Lambda_imm i => Ok i | _ => Err AssertFailed end.

(** [enum class Flags : u16]. *)
Definition Flags_Carry : Z := Z.shiftl 1 0.
Definition Flags_Overflow : Z := Z.shiftl 1 1.
Definition Flags_Zero : Z := Z.shiftl 1 2.
Definition Flags_Negate : Z := Z.shiftl 1 3.
Definition Flags_Parity : Z := Z.shiftl 1 4.
Definition Flags_NegZero : Z := Z.lor Flags_Zero Flags_Negate.
Definition Flags_NZCV : Z :=
  Z.lor (Z.lor (Z.lor Flags_Carry Flags_Overflow) Flags_Zero) Flags_Negate.
Definition Flags_All : Z := Z.lor Flags_NZCV Flags_Parity.

Inductive OperandOp_Type : Set := Plus | Minus | LSL | LSR | EXT.

Record OperandOp := mkOperandOp { operand_type : OperandOp_Type; shift_ext : Z }.

Definition OperandOp_default : OperandOp := mkOperandOp Plus 0.

(** [ArgClass], the tagged union held by an [Arg]. *)
Inductive Arg : Set :=
  | Arg_Void
  | Arg_Value (value : Value)
  | Arg_Imm (imm : Imm)
  | Arg_Cond (cond : Cond.t)
  | Arg_Operand (operand : OperandOp)
  | Arg_Local (local : Local)
  | Arg_Uniform (uniform : Uniform)
  | Arg_Lambda (lambda : Lambda)
  | Arg_Flags (flags : Z).

Definition Arg_GetType (a : Arg) : ArgType.t :=
  match a with
  | Arg_Void => ArgType.Void
  | Arg_Value _ => ArgType.Value
  | Arg_Imm _ => ArgType.Imm
  | Arg_Cond _ => ArgType.Cond
  | Arg_Operand _ => ArgType.Operand
  | Arg_Local _ => ArgType.Local
  | Arg_Uniform _ => ArgType.Uniform
  | Arg_Lambda _ => ArgType.Lambda
  | Arg_Flags _ => ArgType.Flags
  end.

Definition Arg_IsValue (a : Arg) : bool :=
  bool_decide (Arg_GetType a = ArgType.Value).
Definition Arg_IsImm (a : Arg) : bool :=
  bool_decide (Arg_GetType a = ArgType.Imm).
Definition Arg_IsOperand (a : Arg) : bool :=
  bool_decide (Arg_GetType a = ArgType.Operand).
Definition Arg_IsLambda (a : Arg) : bool :=
  bool_decide (Arg_GetType a = ArgType.Lambda).
Definition Arg_IsVoid (a : Arg) : bool :=
  bool_decide (Arg_GetType a = ArgType.Void).

(** [Arg::Get<T>()]: the union member, after [assert]ing the tag. *)
Definition Arg_Get_Value (a : Arg) : res Value :=
  match a with Arg_Value v => Ok v | _ => Err Aborted end.
Definition Arg_Get_Imm (a : Arg) : res Imm :=
  match a with Arg_Imm i => Ok i | _ => Err Aborted end.
Definition Arg_Get_Local (a : Arg) : res Local :=
  match a with Arg_Local l => Ok l | _ => Err Aborted end.
Definition Arg_Get_Uniform (a : Arg) : res Uniform :=
  match a with Arg_Uniform u => Ok u | _ => Err Aborted end.
Definition Arg_Get_Cond (a : Arg) : res Cond.t :=
  match a with Arg_Cond c => Ok c | _ => Err Aborted end.
Definition Arg_Get_Operand (a : Arg) : res OperandOp :=
  match a with Arg_Operand o => Ok o | _ => Err Aborted end.
Definition Arg_Get_Lambda (a : Arg) : res Lambda :=
  match a with Arg_Lambda l => Ok l | _ => Err Aborted end.
Definition Arg_Get_Flags (a : Arg) : res Z :=
  match a with Arg_Flags f => Ok f | _ => Err Aborted end.

(** [Operand]: an operation on a value and a value or immediate. *)
Record Operand := mkOperand {
  operand_op : OperandOp;
  operand_left : Arg;
  operand_right : Arg;
}.

Definition Operand_default : Operand := mkOperand OperandOp_default Arg_Void Arg_Void.
Definition Operand_imm (left : Value) (right : Imm) (op : OperandOp) : Operand :=
  mkOperand op (Arg_Value left) (Arg_Imm right).
Definition Operand_value (left right : Value) (op : OperandOp) : Operand :=
  mkOperand op (Arg_Value left) (Arg_Value right).

(** ** Host registers and locations *)

Definition HostReg_INVALID : Z := u16 (-1).
Record HostGPR := mkHostGPR { gpr_id : Z }.
Record HostFPR := mkHostFPR { fpr_id : Z }.
Record SpillSlot := mkSpillSlot { spill_offset : Z }.

(** [Location] wraps a [size_t]. *)
Abbreviation Location := Z.
Definition Location_eqb (x y : Location) : bool := x =? y.
Definition Location_ltb (x y : Location) : bool := x <? y.
Definition Location_gtb (x y : Location) : bool := y <? x.

(** The three-way comparison of [Block::Compare] and [Function::Compare]: the
    sign is that of [rhs - lhs]. *)
Definition Location_Compare (lhs rhs : Location) : Z :=
  if Location_gtb rhs lhs then 1
  else if Location_ltb rhs lhs then -1 else 0.

(** ** Properties of the table *)

Lemma GetIRMetaInfo_Ok op :
  op ≠ OpCode.COUNT → ∃ i, GetIRMetaInfo op = Ok i ∧ op_code i = op.
Proof. destruct op; intros ?; try done; eexists; split; reflexivity. Qed.

(** The number of argument slots a signature occupies: an operand takes
    three. *)
Definition slot_width (a : ArgType.t) : nat :=
  match a with ArgType.Operand => 3 | _ => 1 end%nat.
Definition slots_of (l : list ArgType.t) : nat := sum_list (slot_width <$> l).

(** The signature table is indexed consistently: for every opcode below
    [COUNT] the lookup succeeds and gives the entry of that opcode, which needs
    at most the four argument slots of an instruction; [COUNT] is rejected. *)
Theorem ir_meta_table_consistent op :
  match GetIRMetaInfo op with
  | Ok i => op ≠ OpCode.COUNT ∧ op_code i = op ∧ (slots_of (arg_types i) ≤ 4)%nat
  | Err e => op = OpCode.COUNT ∧ e = AssertFailed
  end.
Proof. destruct op; vm_compute; split; try lia; try done; split; try done; lia. Qed.
