(* ===== verification/Inst.v ===== *)
(** * Instructions

    [runtime/ir/instr.h] and [instr.cpp]: instructions as heap objects that
    refer to each other through their arguments, count their uses, and link the
    flag pseudo-operations that read them.  The heap maps pointers to
    instructions; every operation is a heap transformer that can fault. *)

From S2P Require Import Prelude IRTypes.

(** ** Data *)

(** [Inst]: [list_node] is the position in the list of a block. *)
Record Inst := mkInst {
  next_pseudo_inst : option ptr;
  arguments : list Arg;
  inst_op : OpCode.t;
  num_use : Z;
  inst_id : Z;
  ret_type : ValueType.t;
}.

Definition max_args : nat := 4.

Abbreviation heap := (gmap ptr Inst).

(** [Inst(OpCode)]. *)
Definition Inst_init (op : OpCode.t) : Inst :=
  mkInst None (replicate max_args Arg_Void) op 0 0 ValueType.VOID.

Definition set_next (n : option ptr) (i : Inst) : Inst :=
  mkInst n (arguments i) (inst_op i) (num_use i) (inst_id i) (ret_type i).
Definition set_arguments (l : list Arg) (i : Inst) : Inst :=
  mkInst (next_pseudo_inst i) l (inst_op i) (num_use i) (inst_id i) (ret_type i).
Definition set_num_use (n : Z) (i : Inst) : Inst :=
  mkInst (next_pseudo_inst i) (arguments i) (inst_op i) n (inst_id i) (ret_type i).
Definition set_id (n : Z) (i : Inst) : Inst :=
  mkInst (next_pseudo_inst i) (arguments i) (inst_op i) (num_use i) n (ret_type i).
Definition set_ret_type (t : ValueType.t) (i : Inst) : Inst :=
  mkInst (next_pseudo_inst i) (arguments i) (inst_op i) (num_use i) (inst_id i) t.

Definition get_inst (p : ptr) : stM heap Inst := λ h,
  match h !! p with Some i => Ok (i, h) | None => Err NullDeref end.
Definition upd_inst (p : ptr) (f : Inst → Inst) : stM heap unit := λ h,
  match h !! p with Some i => Ok (tt, <[p := f i]> h) | None => Err NullDeref end.

(** [ASSERT(Def())] and its variants. *)
Definition assert_def (v : Value) : stM heap ptr :=
  st_lift (of_option AssertFailed v).

(** ** [Value] *)

Definition Value_SetType (v : Value) (t : ValueType.t) : stM heap unit :=
  d ← assert_def v; upd_inst d (set_ret_type t).
Definition Value_Type (v : Value) : stM heap ValueType.t :=
  d ← assert_def v; i ← get_inst d; mret (ret_type i).
Definition incr_use (i : Inst) : Inst := set_num_use (u8 (num_use i + 1)) i.
Definition decr_use (i : Inst) : Inst := set_num_use (u8 (num_use i - 1)) i.
Definition Value_Use (v : Value) : stM heap unit :=
  d ← assert_def v; upd_inst d incr_use.
Definition Value_UnUse (v : Value) : stM heap unit :=
  d ← assert_def v; upd_inst d decr_use.

(** ** [Inst] *)

Definition IsPseudoOperation (op : OpCode.t) : bool :=
  match op with
  | OpCode.GetCarry | OpCode.GetOverFlow | OpCode.GetNegate | OpCode.GetZero
  | OpCode.GetNZCV | OpCode.GetNegZero | OpCode.GetAllFlags => true
  | _ => false
  end.

Definition Inst_GetOp (this : ptr) : stM heap OpCode.t :=
  i ← get_inst this; mret (inst_op i).
Definition Inst_SetId (this : ptr) (id : Z) : stM heap unit := upd_inst this (set_id id).
Definition Inst_SetReturn (this : ptr) (t : ValueType.t) : stM heap unit :=
  upd_inst this (set_ret_type t).
Definition Inst_HasValue (op : OpCode.t) : res bool :=
  i ← GetIRMetaInfo op; Ok (bool_decide (return_type i = ArgType.Value)).

(** [ArgAt(index)]: [std::array::operator[]], undefined past the end. *)
Definition ArgAt (this : ptr) (index : nat) : stM heap Arg :=
  i ← get_inst this; st_lift (of_option OutOfBounds (arguments i !! index)).

Definition write_arg (this : ptr) (index : nat) (a : Arg) : stM heap unit :=
  _ ← st_check (index <? max_args)%nat OutOfBounds;
  upd_inst this (λ i, set_arguments (<[index := a]> (arguments i)) i).

(** The [assert] inside the pseudo-operation loops: argument 0 of [i] is the
    value [def]. *)
Definition reads_def (def : ptr) (i : Inst) : res unit :=
  a ← of_option OutOfBounds (arguments i !! 0%nat);
  v ← Arg_Get_Value a;
  check (bool_decide (v = Some def)) Aborted.

(** Fuel for a walk along [next_pseudo_inst]: a walk longer than the heap has
    revisited an instruction. *)
Definition walk_fuel (h : heap) : nat := S (size h).

(** The loop of [Inst::Use]: the last instruction of the chain of [def]. *)
Fixpoint use_loop (fuel : nat) (h : heap) (def insert_point : ptr) : res ptr :=
  match fuel with
  | O => Err OutOfFuel
  | S fuel' =>
      i ← of_option NullDeref (h !! insert_point);
      match next_pseudo_inst i with
      | None => Ok insert_point
      | Some n =>
          j ← of_option NullDeref (h !! n);
          _ ← reads_def def j;
          use_loop fuel' h def n
      end
  end.

Definition Inst_Use (this : ptr) (value : Value) : stM heap unit :=
  def ← assert_def value;
  _ ← upd_inst def incr_use;
  self ← get_inst this;
  if IsPseudoOperation (inst_op self) then
    h ← st_get;
    insert_point ← st_lift (use_loop (walk_fuel h) h def def);
    upd_inst insert_point (set_next (Some this))
  else mret tt.

(** The loop of [Inst::UnUse]: the instruction before [this] in the chain of
    [def]; at the end of the chain the null successor is dereferenced. *)
Fixpoint unuse_loop (fuel : nat) (h : heap) (def this insert_point : ptr) : res ptr :=
  match fuel with
  | O => Err OutOfFuel
  | S fuel' =>
      i ← of_option NullDeref (h !! insert_point);
      match next_pseudo_inst i with
      | None => Err NullDeref
      | Some n =>
          if bool_decide (n = this) then Ok insert_point
          else
            j ← of_option NullDeref (h !! n);
            _ ← reads_def def j;
            unuse_loop fuel' h def this n
      end
  end.

Definition Inst_UnUse (this : ptr) (value : Value) : stM heap unit :=
  def ← assert_def value;
  _ ← upd_inst def decr_use;
  self ← get_inst this;
  if IsPseudoOperation (inst_op self) then
    h ← st_get;
    insert_point ← st_lift (unuse_loop (walk_fuel h) h def this def);
    self' ← get_inst this;
    _ ← upd_inst insert_point (set_next (next_pseudo_inst self'));
    upd_inst this (set_next None)
  else mret tt.

Definition DestroyArg (this : ptr) (arg_idx : nat) : stM heap unit :=
  arg ← ArgAt this arg_idx;
  match arg with
  | Arg_Value v => Inst_UnUse this v
  | Arg_Lambda (Lambda_value v) => Inst_UnUse this v
  | _ => mret tt
  end.

(** What can be passed to [SetArg]: one constructor per overload. *)
Inductive argv : Set :=
  | V_Void
  | V_Value (v : Value)
  | V_Imm (i : Imm)
  | V_Cond (c : Cond.t)
  | V_Flags (f : Z)
  | V_Op (o : OperandOp)
  | V_Local (l : Local)
  | V_Uniform (u : Uniform)
  | V_Lambda (l : Lambda)
  | V_Operand (o : Operand).

(** The converting constructors of [Arg]. *)
Definition Arg_of (a : argv) : Arg :=
  match a with
  | V_Void => Arg_Void
  | V_Value v => Arg_Value v
  | V_Imm i => Arg_Imm i
  | V_Cond c => Arg_Cond c
  | V_Flags f => Arg_Flags f
  | V_Op o => Arg_Operand o
  | V_Local l => Arg_Local l
  | V_Uniform u => Arg_Uniform u
  | V_Lambda l => Arg_Lambda l
  | V_Operand o => Arg_Operand (operand_op o)
  end.

Definition use_if_value (this : ptr) (a : Arg) : stM heap unit :=
  match a with Arg_Value v => Inst_Use this v | _ => mret tt end.

(** The overloads of [SetArg]. *)
Definition SetArg (this : ptr) (index : nat) (arg : argv) : stM heap unit :=
  _ ← DestroyArg this index;
  _ ← write_arg this index (Arg_of arg);
  match arg with
  | V_Value v => Inst_Use this v
  | V_Lambda (Lambda_value v) => Inst_Use this v
  | V_Operand o =>
      _ ← DestroyArg this (index + 1);
      _ ← write_arg this (index + 1) (operand_left o);
      _ ← DestroyArg this (index + 2);
      _ ← write_arg this (index + 2) (operand_right o);
      _ ← use_if_value this (operand_left o);
      use_if_value this (operand_right o)
  | _ => mret tt
  end.

(** [SetArgs]: an argument that converts to an operand takes three indices. *)
Definition arg_width (a : argv) : nat :=
  if Arg_IsOperand (Arg_of a) then 3 else 1.

Fixpoint SetArgs_from (this : ptr) (index : nat) (args : list argv) : stM heap unit :=
  match args with
  | [] => mret tt
  | a :: rest => _ ← SetArg this index a; SetArgs_from this (index + arg_width a) rest
  end.

Definition SetArgs (this : ptr) (args : list argv) : stM heap unit :=
  SetArgs_from this 0 args.

(** [GetArg<Operand>(index)] reassembles the three slots. *)
Definition GetArg_Operand (this : ptr) (index : nat) : stM heap Operand :=
  a ← ArgAt this index;
  _ ← st_check (Arg_IsOperand a) AssertFailed;
  op ← st_lift (Arg_Get_Operand a);
  l ← ArgAt this (index + 1);
  r ← ArgAt this (index + 2);
  mret (mkOperand op l r).

Definition GetArg_Value (this : ptr) (index : nat) : stM heap Value :=
  a ← ArgAt this index; st_lift (Arg_Get_Value a).
Definition GetArg_Local (this : ptr) (index : nat) : stM heap Local :=
  a ← ArgAt this index; st_lift (Arg_Get_Local a).

(** The loop of [GetPseudoOperation]. *)
Fixpoint pseudo_loop (fuel : nat) (h : heap) (this : ptr) (code : OpCode.t)
    (cur : option ptr) : res (option ptr) :=
  match fuel with
  | O => Err OutOfFuel
  | S fuel' =>
      match cur with
      | None => Ok None
      | Some p =>
          i ← of_option NullDeref (h !! p);
          if bool_decide (inst_op i = code) then
            a ← of_option OutOfBounds (arguments i !! 0%nat);
            v ← Arg_Get_Value a;
            _ ← check (bool_decide (v = Some this)) AssertFailed;
            Ok (Some p)
          else pseudo_loop fuel' h this code (next_pseudo_inst i)
      end
  end.

Definition GetPseudoOperation (this : ptr) (code : OpCode.t) : stM heap (option ptr) :=
  self ← get_inst this;
  h ← st_get;
  st_lift (pseudo_loop (walk_fuel h) h this code (next_pseudo_inst self)).

(** [~Inst()] and [delete]: the arguments are released, then the memory. *)
Definition Inst_dtor (this : ptr) : stM heap unit :=
  st_iter (DestroyArg this) (seq 0 max_args).
Definition Inst_delete (this : ptr) : stM heap unit :=
  _ ← Inst_dtor this; st_mod (delete this).

(** The concept [InstAllocator]: [New] gives a fresh instruction. *)
Class InstAllocator := {
  New : OpCode.t → stM heap ptr;
  New_spec op h : ∃ p, New op h = Ok (p, <[p := Inst_init op]> h) ∧ h !! p = None;
}.

(** [new Inst(op)]: an address above all others. *)
Definition next_ptr (h : heap) : ptr :=
  map_fold (λ p _ n, Nat.max (S p) n) 0%nat h.
Definition heap_new (op : OpCode.t) : stM heap ptr := λ h,
  let p := next_ptr h in Ok (p, <[p := Inst_init op]> h).

(** [Inst::Create(allocator, op, args...)]. *)
Definition Create `{InstAllocator} (op : OpCode.t) (args : list argv) : stM heap ptr :=
  inst ← New op;
  _ ← SetArgs inst args;
  mret inst.

(** ** [Validate] *)

Section validate.

(** [arg_types] is a [std::vector]: an index past its end is undefined.
    [past_end op i] is the byte that the read finds there, [None] standing for
    a trap (a checked build). *)
Context (past_end : OpCode.t → nat → option Z).

Definition arg_type_at (info : IRMeta) (i : nat) : res Z :=
  match arg_types info !! i with
  | Some t => Ok (ArgType.code t)
  | None => of_option OutOfBounds (past_end (op_code info) i)
  end.

(** The loop over the four slots; [inner] is the slot, [arg] the signature
    index. *)
Fixpoint validate_loop (fuel : nat) (info : IRMeta) (args : list Arg)
    (inner arg : nat) : res unit :=
  match fuel with
  | O => Err OutOfFuel
  | S fuel' =>
      if (inner <? max_args)%nat then
        a ← of_option OutOfBounds (args !! inner);
        t ← arg_type_at info arg;
        _ ← check (ArgType.code (Arg_GetType a) =? t) AssertFailed;
        validate_loop fuel' info args
          (if t =? ArgType.code ArgType.Operand then inner + 3 else inner + 1)
          (arg + 1)
      else Ok tt
  end.

Definition Validate_inst (i : Inst) : res unit :=
  let op := inst_op i in
  _ ← check ((OpCode.code OpCode.Void <=? OpCode.code op) &&
             (OpCode.code op <? OpCode.code OpCode.COUNT)) AssertFailed;
  if bool_decide (op = OpCode.CallLambda) || bool_decide (op = OpCode.CallLocation)
     || bool_decide (op = OpCode.CallDynamic) then
    a ← of_option OutOfBounds (arguments i !! 0%nat);
    check (Arg_IsLambda a) AssertFailed
  else if (OpCode.code OpCode.Void <? OpCode.code op) &&
          (OpCode.code op <? OpCode.code OpCode.BASE_COUNT) then
    info ← GetIRMetaInfo op;
    validate_loop (S max_args) info (arguments i) 0 0
  else if bool_decide (op = OpCode.SetLocation) then
    a ← of_option OutOfBounds (arguments i !! 0%nat);
    check (bool_decide (Arg_GetType a = ArgType.Imm)) AssertFailed
  else Err AssertFailed.

Definition Validate (inst : ptr) : stM heap unit :=
  i ← get_inst inst; st_lift (Validate_inst i).

End validate.
