(* ===== verification/InstSpec.v ===== *)
(** * What the instruction operations guarantee

    Use counting, the chains of flag pseudo-operations, the argument layout and
    the validation of instructions, for the definitions of [Inst.v]. *)

From S2P Require Import Prelude IRTypes Inst.

(** ** Fresh instructions *)

Lemma next_ptr_above (h : heap) p : is_Some (h !! p) → (p < next_ptr h)%nat.
Proof.
  unfold next_ptr. revert p.
  apply (map_fold_weak_ind (λ n h, ∀ p, is_Some (h !! p) → (p < n)%nat)).
  - intros p [? H]. by rewrite lookup_empty in H.
  - intros q i m n Hq IH p. rewrite lookup_insert. case_decide; [subst; lia|].
    intros Hp. specialize (IH p Hp). lia.
Qed.

Lemma heap_new_spec op h :
  ∃ p, heap_new op h = Ok (p, <[p := Inst_init op]> h) ∧ h !! p = None.
Proof.
  exists (next_ptr h). split; [done|].
  destruct (h !! next_ptr h) eqn:E; [|done].
  assert (next_ptr h < next_ptr h)%nat by (apply next_ptr_above; eauto). lia.
Qed.

#[export] Instance heap_allocator : InstAllocator := {
  New := heap_new;
  New_spec := heap_new_spec;
}.

(** ** Counting references *)

(** How often an argument, an instruction, a heap refers to [p]. *)
Definition arg_refs (p : ptr) (a : Arg) : Z :=
  match a with
  | Arg_Value (Some q) | Arg_Lambda (Lambda_value (Some q)) =>
      if decide (q = p) then 1 else 0
  | _ => 0
  end.
Definition args_refs (p : ptr) (l : list Arg) : Z :=
  foldr (λ a n, arg_refs p a + n) 0 l.
Definition refs (h : heap) (p : ptr) : Z :=
  map_fold (λ _ i n, args_refs p (arguments i) + n) 0 h.

(** The use counts are right, modulo 256, when [ext p] uses of [p] are recorded
    outside the heap (by the terminals of blocks), and nothing refers to an
    address outside the heap. *)
Definition count_at (o : option Inst) (n : Z) : Prop :=
  match o with Some i => num_use i = u8 n | None => n = 0 end.
Definition counts_ok (h : heap) (ext : ptr → Z) : Prop :=
  ∀ p, count_at (h !! p) (refs h p + ext p).

Lemma args_refs_cons p a (l : list Arg) :
  args_refs p (a :: l) = arg_refs p a + args_refs p l.
Proof. done. Qed.

Lemma args_refs_insert p (l : list Arg) k a b :
  l !! k = Some a →
  args_refs p (<[k := b]> l) = args_refs p l - arg_refs p a + arg_refs p b.
Proof.
  unfold args_refs. revert k. induction l as [|x l IH]; intros [|k] H; simplify_eq/=; [lia|].
  rewrite (IH _ H). lia.
Qed.

Lemma refs_fresh (h : heap) q i p :
  h !! q = None → refs (<[q := i]> h) p = args_refs p (arguments i) + refs h p.
Proof.
  intros Hq. unfold refs. rewrite map_fold_insert_L; [done| |done].
  intros. lia.
Qed.

Lemma refs_update (h : heap) q i i' p :
  h !! q = Some i →
  refs (<[q := i']> h) p =
    refs h p - args_refs p (arguments i) + args_refs p (arguments i').
Proof.
  intros Hq. rewrite <- (insert_delete_eq h q i').
  rewrite <- (insert_delete_id h q i Hq) at 2.
  rewrite !refs_fresh by apply lookup_delete_eq. lia.
Qed.

Lemma refs_update_same (h : heap) q i i' p :
  h !! q = Some i → arguments i' = arguments i →
  refs (<[q := i']> h) p = refs h p.
Proof. intros Hq Ha. rewrite (refs_update h q i i' p Hq), Ha. lia. Qed.

(** Changing one instruction's count by [d] accounts for [d] more uses. *)
Lemma counts_add h q i i' d ext :
  h !! q = Some i → arguments i' = arguments i → num_use i' = u8 (num_use i + d) →
  counts_ok h ext →
  counts_ok (<[q := i']> h) (λ p, ext p + if decide (q = p) then d else 0).
Proof.
  intros Hq Ha Hn Hc p. rewrite (refs_update_same h q i i' p Hq Ha), lookup_insert.
  specialize (Hc p). case_decide as E; [subst|by rewrite Z.add_0_r].
  rewrite Hq in Hc. simpl in *. rewrite Hn, Hc, wrap_add_l. f_equal. lia.
Qed.

Lemma counts_same h q i i' ext :
  h !! q = Some i → arguments i' = arguments i → num_use i' = num_use i →
  counts_ok h ext → counts_ok (<[q := i']> h) ext.
Proof.
  intros Hq Ha Hn Hc p. rewrite (refs_update_same h q i i' p Hq Ha), lookup_insert.
  specialize (Hc p). case_decide; [subst|done]. rewrite Hq in Hc. simpl in *. congruence.
Qed.

Lemma counts_ext h ext ext' :
  (∀ p, ext p = ext' p) → counts_ok h ext → counts_ok h ext'.
Proof. intros E Hc p. rewrite <- E. by apply Hc. Qed.

Lemma upd_inst_Ok p f (h h' : heap) u :
  upd_inst p f h = Ok (u, h') → ∃ i, h !! p = Some i ∧ h' = <[p := f i]> h.
Proof. unfold upd_inst. destruct (h !! p) as [i|]; [|done]. intros [= _ <-]. eauto. Qed.

Lemma get_inst_Ok p (h h' : heap) i :
  get_inst p h = Ok (i, h') → h !! p = Some i ∧ h' = h.
Proof. unfold get_inst. destruct (h !! p); [|done]. by intros [= <- <-]. Qed.

Lemma st_lift_Ok {S A} (r : res A) (s s' : S) a :
  st_lift r s = Ok (a, s') → r = Ok a ∧ s' = s.
Proof. unfold st_lift. destruct r; [|done]. by intros [= <- <-]. Qed.

Lemma assert_def_Ok v (h h' : heap) d :
  assert_def v h = Ok (d, h') → v = Some d ∧ h' = h.
Proof. intros [H ->]%st_lift_Ok. destruct v; by simplify_eq/=. Qed.

(** Invert the heap primitives. *)
Ltac inv_heap :=
  inv_ok;
  repeat match goal with
  | H : upd_inst _ _ _ = Ok _ |- _ =>
      apply upd_inst_Ok in H; destruct H as (? & ? & ->)
  | H : get_inst _ _ = Ok _ |- _ => apply get_inst_Ok in H; destruct H as [? ->]
  | H : assert_def _ _ = Ok _ |- _ => apply assert_def_Ok in H; destruct H as [-> ->]
  | H : st_lift _ _ = Ok _ |- _ => apply st_lift_Ok in H; destruct H as [? ->]
  end; inv_ok.

(** A use, resp. release, of a value moves its count by one. *)
Definition used (v : Value) (d : Z) (ext : ptr → Z) (p : ptr) : Z :=
  ext p + if decide (v = Some p) then d else 0.

Lemma counts_upd h q f d ext h' u :
  (∀ i, arguments (f i) = arguments i) → (∀ i, num_use (f i) = u8 (num_use i + d)) →
  upd_inst q f h = Ok (u, h') → counts_ok h ext → counts_ok h' (used (Some q) d ext).
Proof.
  intros Ha Hn (i & Hq & ->)%upd_inst_Ok Hc.
  eapply counts_ext, counts_add; [|done|apply Ha|apply Hn|done].
  intros p. unfold used. by repeat case_decide; simplify_eq.
Qed.

Lemma counts_relink h q n ext h' u :
  upd_inst q (set_next n) h = Ok (u, h') → counts_ok h ext → counts_ok h' ext.
Proof. intros (i & Hq & ->)%upd_inst_Ok. by apply counts_same with i. Qed.

Lemma Inst_Use_counts this v h h' u ext :
  Inst_Use this v h = Ok (u, h') → counts_ok h ext → counts_ok h' (used v 1 ext).
Proof.
  unfold Inst_Use. intros (d & h0 & [-> ->]%assert_def_Ok & H)%st_bind_Ok Hc.
  apply st_bind_Ok in H as (? & h1 & H1 & H).
  apply (counts_upd _ _ _ 1 ext) in H1; [|done..].
  destruct u. inv_heap. destruct (IsPseudoOperation _); inv_heap; [|done].
  by eapply counts_same.
Qed.

Lemma Inst_UnUse_counts this v h h' u ext :
  Inst_UnUse this v h = Ok (u, h') → counts_ok h ext → counts_ok h' (used v (-1) ext).
Proof.
  unfold Inst_UnUse. intros (d & h0 & [-> ->]%assert_def_Ok & H)%st_bind_Ok Hc.
  apply st_bind_Ok in H as (? & h1 & H1 & H).
  apply (counts_upd _ _ _ (-1) ext) in H1; [|done..].
  destruct u. inv_heap. destruct (IsPseudoOperation _); inv_heap; [|done].
  eapply counts_same; [done..|]. by eapply counts_same.
Qed.

(** ** Counting through the argument operations *)

(** Two heaps with the same arguments everywhere. *)
Definition args_same (h h' : heap) : Prop :=
  ∀ p, arguments <$> h' !! p = arguments <$> h !! p.

Lemma args_same_upd h q f h' u :
  (∀ i, arguments (f i) = arguments i) → upd_inst q f h = Ok (u, h') → args_same h h'.
Proof.
  intros Hf (i & Hq & ->)%upd_inst_Ok p. rewrite lookup_insert.
  case_decide; [subst|done]. by rewrite Hq; simpl; rewrite Hf.
Qed.

#[export] Instance args_same_preorder : PreOrder args_same.
Proof. split; [by intros h p|]. intros h1 h2 h3 H12 H23 p. by rewrite H23. Qed.

Lemma Inst_UnUse_args this v h h' u :
  Inst_UnUse this v h = Ok (u, h') → args_same h h'.
Proof.
  unfold Inst_UnUse. intros (d & h0 & [-> ->]%assert_def_Ok & H)%st_bind_Ok.
  apply st_bind_Ok in H as (? & h1 & H1%args_same_upd & H); [|done].
  rewrite H1. apply st_bind_Ok in H as (i & h2 & [_ ->]%get_inst_Ok & H).
  destruct (IsPseudoOperation _); [|by inv_ok].
  apply st_bind_Ok in H as (? & ? & H2 & H). inv_ok.
  repeat match goal with
  | H : upd_inst _ _ _ = Ok _ |- _ => apply args_same_upd in H; [|done]
  end. inv_heap. by etrans.
Qed.

(** The value an argument refers to. *)
Definition arg_val (a : Arg) : Value :=
  match a with Arg_Value v | Arg_Lambda (Lambda_value v) => v | _ => None end.

Lemma arg_refs_val p a : arg_refs p a = if decide (arg_val a = Some p) then 1 else 0.
Proof.
  destruct a as [|[q|]| | | | | |[|[q|]|]|]; simpl; try done;
    by repeat case_decide; simplify_eq.
Qed.

Lemma ArgAt_Ok this k h h' a :
  ArgAt this k h = Ok (a, h') →
  h' = h ∧ ∃ i, h !! this = Some i ∧ arguments i !! k = Some a.
Proof. unfold ArgAt. intros H. inv_heap. eauto. Qed.

Lemma DestroyArg_counts this k h h' u ext :
  DestroyArg this k h = Ok (u, h') → counts_ok h ext →
  ∃ a, (∃ i, h' !! this = Some i ∧ arguments i !! k = Some a) ∧ args_same h h' ∧
       counts_ok h' (λ p, ext p - arg_refs p a).
Proof.
  unfold DestroyArg.
  intros (a & h0 & (-> & i & Hi & Ha)%ArgAt_Ok & H)%st_bind_Ok Hc. exists a.
  assert (Hk : args_same h h' ∧ counts_ok h' (used (arg_val a) (-1) ext)).
  { assert (∀ h, counts_ok h ext → counts_ok h (used None (-1) ext)).
    { intros ?. apply counts_ext. intros p. unfold used. by case_decide; [|lia]. }
    destruct a as [| | | | | | |[]|]; inv_ok; simpl; eauto using Inst_UnUse_args, Inst_UnUse_counts;
      split; auto; reflexivity. }
  destruct Hk as [Hs Hk]. repeat split; [|done|].
  - specialize (Hs this). rewrite Hi in Hs. destruct (h' !! this) as [j|]; simplify_eq/=.
    exists j. by rewrite Hs.
  - eapply counts_ext; [|done]. intros p. unfold used. rewrite arg_refs_val.
    case_decide; lia.
Qed.

Lemma write_arg_counts this k b h h' u ext i a :
  write_arg this k b h = Ok (u, h') → h !! this = Some i → arguments i !! k = Some a →
  counts_ok h ext → counts_ok h' (λ p, ext p + arg_refs p a - arg_refs p b).
Proof.
  unfold write_arg. intros H Hi Ha Hc. apply st_bind_Ok in H as (? & ? & H1 & H). inv_ok.
  apply upd_inst_Ok in H as (i' & Hi' & ->). rewrite Hi in Hi'. injection Hi' as <-.
  intros p. rewrite (refs_update h this i _ p Hi), lookup_insert. simpl.
  rewrite (args_refs_insert p _ _ _ b Ha). specialize (Hc p).
  assert (∀ o n m, count_at o n → n = m → count_at o m) as Heq by (by intros ??? ? <-).
  case_decide as E; [subst; rewrite Hi in Hc|]; eapply Heq; [done|lia|done|lia].
Qed.

(** Replacing an argument: the new one is not counted yet. *)
Lemma replace_arg_counts {A} (f : unit → stM heap A) this k b h r ext :
  (_ ← DestroyArg this k; x ← write_arg this k b; f x) h = Ok r → counts_ok h ext →
  ∃ x h', f x h' = Ok r ∧ counts_ok h' (λ p, ext p - arg_refs p b).
Proof.
  destruct r as [r hr]. rewrite st_bind_Ok. intros (u1 & h1 & H1 & H2) Hc.
  apply st_bind_Ok in H2 as (u2 & h2 & H2 & H3).
  eapply DestroyArg_counts in H1 as (a & (i & Hi & Ha) & _ & Hc1); [|done].
  eapply write_arg_counts in H2; [|done..]. exists u2, h2. split; [done|].
  eapply counts_ext; [|done]. intros p. simpl. lia.
Qed.

(** The operands a program can build hold values and immediates. *)
Definition Operand_wf (o : Operand) : bool :=
  negb (Arg_IsLambda (operand_left o)) && negb (Arg_IsLambda (operand_right o)).
Definition argv_wf (a : argv) : bool :=
  match a with V_Operand o => Operand_wf o | _ => true end.

Lemma use_if_value_counts this a h h' u ext :
  use_if_value this a h = Ok (u, h') → negb (Arg_IsLambda a) →
  counts_ok h ext → counts_ok h' (λ p, ext p + arg_refs p a).
Proof.
  intros H Hw Hc. destruct a; simpl in *; inv_ok; try done;
    try (eapply counts_ext; [|done]; intros p; simpl; lia).
  eapply counts_ext; [|by eapply Inst_Use_counts].
  intros p. symmetry. apply (f_equal (Z.add (ext p)) (arg_refs_val p (Arg_Value value))).
Qed.

(** Setting an argument keeps the counts right. *)
Lemma SetArg_counts this k a h h' u ext :
  SetArg this k a h = Ok (u, h') → argv_wf a → counts_ok h ext → counts_ok h' ext.
Proof.
  unfold SetArg. intros H Hw Hc0.
  eapply replace_arg_counts in H as (x & h1 & H & Hc); [|done].
  destruct a as [|v|i|c|f|o|l|uu|[|v|i]|o]; simpl in H;
    try (inv_ok; eapply counts_ext; [|done]; intros p; simpl; lia).
  1-2: eapply counts_ext; [|by eapply Inst_Use_counts];
    intros p; unfold used; rewrite arg_refs_val; simpl; lia.
  eapply replace_arg_counts in H as (x2 & h2 & H & Hc2); [|done].
  eapply replace_arg_counts in H as (x3 & h3 & H & Hc3); [|done].
  apply andb_prop_elim in Hw as [Hl Hr]. apply st_bind_Ok in H as (x4 & h4 & H4 & H).
  eapply use_if_value_counts in H4; [|done..].
  eapply use_if_value_counts in H; [|done..].
  eapply counts_ext; [|done]. intros p. simpl. lia.
Qed.

Lemma SetArgs_from_counts this args k h h' u ext :
  SetArgs_from this k args h = Ok (u, h') → Forall argv_wf args →
  counts_ok h ext → counts_ok h' ext.
Proof.
  intros H Hw. revert k h u H. induction Hw as [|a args Ha _ IH]; intros k h u H Hc; simpl in H.
  - by inv_ok.
  - apply st_bind_Ok in H as (x & h1 & H1 & H). eapply IH; [done|].
    by eapply SetArg_counts.
Qed.

Lemma counts_new op h p ext :
  h !! p = None → counts_ok h ext → counts_ok (<[p := Inst_init op]> h) ext.
Proof.
  intros Hp Hc q. rewrite refs_fresh by done.
  change (args_refs q (arguments (Inst_init op))) with 0.
  rewrite Z.add_0_l, lookup_insert. specialize (Hc q). case_decide; [subst|done].
  rewrite Hp in Hc. unfold count_at in *. by rewrite Hc.
Qed.

Lemma counts_delete h p i ext :
  h !! p = Some i → counts_ok h (λ q, ext q - args_refs q (arguments i)) →
  refs (delete p h) p + ext p = 0 → counts_ok (delete p h) ext.
Proof.
  intros Hp Hc Hz q. destruct (decide (q = p)) as [->|Hq].
  - by rewrite lookup_delete_eq.
  - rewrite lookup_delete_ne by done. specialize (Hc q).
    rewrite <- (insert_delete_id h p i Hp) in Hc.
    rewrite refs_fresh in Hc by apply lookup_delete_eq.
    rewrite lookup_insert_ne, lookup_delete_ne in Hc by done.
    by replace (refs (delete p h) q + ext q) with
      (args_refs q (arguments i) + refs (delete p h) q + (ext q - args_refs q (arguments i)))
      by lia.
Qed.

(** The destructor releases the arguments it visits. *)
Lemma dtor_counts this l h h' u ext i :
  st_iter (DestroyArg this) l h = Ok (u, h') → counts_ok h ext → h !! this = Some i →
  counts_ok h' (λ p, ext p - args_refs p (omap (λ k, arguments i !! k) l)) ∧
  args_same h h'.
Proof.
  revert h u ext i. induction l as [|k l IH]; intros h u ext i H Hc Hi; simpl in *.
  - inv_ok. split; [|reflexivity]. eapply counts_ext; [|done]. intros p. simpl. lia.
  - apply st_bind_Ok in H as (x & h1 & H1 & H).
    eapply DestroyArg_counts in H1 as (a & (j & Hj & Ha) & Hs & Hc1); [|done].
    assert (Hij : arguments j = arguments i)
      by (specialize (Hs this); rewrite Hi, Hj in Hs; by simplify_eq/=).
    eapply IH in H as [H Hs1]; [|done..]. rewrite Hij in *. split; [|by etrans].
    rewrite Ha. eapply counts_ext; [|done]. intros p. simpl. unfold omap. lia.
Qed.

Lemma omap_lookup_seq {A} (l : list A) k :
  omap (λ i, (l : list A) !! (i - k)%nat) (seq k (length l)) = l.
Proof.
  revert k. induction l as [|x l IH]; intros k; simpl; [done|].
  rewrite Nat.sub_diag. simpl. f_equal. rewrite <- (IH (S k)) at 2.
  apply list_omap_ext. apply Forall_Forall2_diag, Forall_seq. intros i Hi.
  replace (i - k)%nat with (S (i - S k)) by lia. done.
Qed.

Lemma Inst_delete_counts this h h' u ext i :
  Inst_delete this h = Ok (u, h') → counts_ok h ext → h !! this = Some i →
  length (arguments i) = max_args → refs h' this + ext this = 0 → counts_ok h' ext.
Proof.
  unfold Inst_delete, Inst_dtor. intros H Hc Hi Hl Hz.
  apply st_bind_Ok in H as (x & h1 & H1 & H). inv_ok.
  eapply dtor_counts in H1 as [Hd Hs]; [|done..]. specialize (Hs this).
  rewrite Hi in Hs. destruct (h1 !! this) as [j|] eqn:Hj; [injection Hs as Hs|done].
  eapply counts_delete; [done| |done]. eapply counts_ext; [|done]. intros p. cbv beta.
  rewrite Hs, <- Hl. do 2 f_equal. etrans; [|apply (omap_lookup_seq (arguments i) 0)].
  apply list_omap_ext, Forall_Forall2_diag, Forall_true. intros k. by rewrite Nat.sub_0_r.
Qed.

(** ** Programs that build and edit instructions *)

(** Every instruction has its four argument slots. *)
Definition slots_ok (h : heap) : Prop :=
  ∀ p i, h !! p = Some i → length (arguments i) = max_args.

Lemma slots_upd h p f h' u :
  (∀ i, length (arguments (f i)) = length (arguments i)) →
  upd_inst p f h = Ok (u, h') → slots_ok h → slots_ok h'.
Proof.
  intros Hf (i & Hi & ->)%upd_inst_Ok Hs q j. rewrite lookup_insert.
  case_decide; [|apply Hs]. intros [= <-]. rewrite Hf. by apply (Hs p).
Qed.

Lemma slots_same h h' : args_same h h' → slots_ok h → slots_ok h'.
Proof.
  intros Ha Hs p i Hp. specialize (Ha p). rewrite Hp in Ha.
  destruct (h !! p) as [j|] eqn:Hj; simplify_eq/=. rewrite Ha. by apply (Hs p).
Qed.

Lemma Inst_Use_args this v h h' u : Inst_Use this v h = Ok (u, h') → args_same h h'.
Proof.
  unfold Inst_Use. intros (d & h0 & [-> ->]%assert_def_Ok & H)%st_bind_Ok.
  apply st_bind_Ok in H as (? & h1 & H1%args_same_upd & H); [|done].
  rewrite H1. apply st_bind_Ok in H as (i & h2 & [_ ->]%get_inst_Ok & H).
  destruct (IsPseudoOperation _); [|by inv_ok].
  apply st_bind_Ok in H as (? & ? & H2 & H). inv_ok.
  repeat match goal with
  | H : upd_inst _ _ _ = Ok _ |- _ => apply args_same_upd in H; [|done]
  end. by inv_heap.
Qed.

Lemma DestroyArg_args this k h h' u : DestroyArg this k h = Ok (u, h') → args_same h h'.
Proof.
  unfold DestroyArg. intros (a & h0 & (-> & _)%ArgAt_Ok & H)%st_bind_Ok.
  destruct a as [| | | | | | |[]|]; inv_ok; eauto using Inst_UnUse_args; reflexivity.
Qed.

Lemma write_arg_slots this k b h h' u :
  write_arg this k b h = Ok (u, h') → slots_ok h → slots_ok h'.
Proof.
  unfold write_arg. intros (? & ? & H1 & H)%st_bind_Ok. inv_ok.
  eapply slots_upd; [|done]. intros i. apply length_insert.
Qed.

Lemma SetArg_slots this k a h h' u :
  SetArg this k a h = Ok (u, h') → slots_ok h → slots_ok h'.
Proof.
  unfold SetArg. intros (? & h1 & H1%DestroyArg_args & H)%st_bind_Ok Hs.
  apply (slots_same _ _ H1) in Hs. apply st_bind_Ok in H as (? & h2 & H2 & H).
  apply (write_arg_slots _ _ _ _ _ _ H2) in Hs. clear h H1 H2.
  destruct a as [|v|i|c|f|o|l|uu|[|v|i]|o]; simpl in H; inv_ok;
    eauto using slots_same, Inst_Use_args.
  assert (Hu : ∀ a h h' u, use_if_value this a h = Ok (u, h') → args_same h h').
  { intros []; simpl; intros; inv_ok; eauto using Inst_Use_args; reflexivity. }
  repeat match goal with
  | H : use_if_value _ _ _ = _ |- _ => apply Hu in H
  | H : DestroyArg _ _ _ = _ |- _ => apply DestroyArg_args in H
  end.
  repeat match goal with
  | Hs : slots_ok ?h, H : args_same ?h _ |- _ => apply (slots_same _ _ H) in Hs; clear H
  | Hs : slots_ok ?h, H : write_arg _ _ _ ?h = _ |- _ => apply (write_arg_slots _ _ _ _ _ _ H) in Hs; clear H
  end. done.
Qed.

(** The operations a program performs on instructions; the second component
    of a state counts the uses recorded by terminals. *)
Inductive ir_step `{InstAllocator} : heap * (ptr → Z) → heap * (ptr → Z) → Prop :=
  | step_new op p h h' e : New op h = Ok (p, h') → ir_step (h, e) (h', e)
  | step_set this k a h h' e :
      argv_wf a → SetArg this k a h = Ok (tt, h') → ir_step (h, e) (h', e)
  | step_delete this h h' e :
      refs h' this + e this = 0 → Inst_delete this h = Ok (tt, h') → ir_step (h, e) (h', e)
  | step_use v h h' e :
      Value_Use v h = Ok (tt, h') → ir_step (h, e) (h', used v 1 e)
  | step_unuse v h h' e :
      Value_UnUse v h = Ok (tt, h') → ir_step (h, e) (h', used v (-1) e).

Definition ir_ok (s : heap * (ptr → Z)) : Prop := counts_ok s.1 s.2 ∧ slots_ok s.1.

Lemma ir_step_ok `{InstAllocator} s s' : ir_step s s' → ir_ok s → ir_ok s'.
Proof.
  intros Hs [Hc Hl]. destruct Hs as [op p h h' e H1|this k a h h' e Hw H1|this h h' e Hz H1
    |v h h' e H1|v h h' e H1]; unfold ir_ok; simpl in *.
  - destruct (New_spec op h) as (q & Hq & Hn). rewrite H1 in Hq. injection Hq as -> ->.
    split; [by apply counts_new|]. intros r i. rewrite lookup_insert.
    case_decide; [by intros [= <-]|apply Hl].
  - eauto using SetArg_counts, SetArg_slots.
  - assert (∃ i, h !! this = Some i) as [i Hi].
    { unfold Inst_delete, Inst_dtor in H1. simpl in H1. inv_ok.
      match goal with H : DestroyArg _ _ h = _ |- _ => unfold DestroyArg in H; inv_ok end.
      repeat match goal with H : ArgAt _ _ _ = _ |- _ => apply ArgAt_Ok in H end. naive_solver. }
    split; [eapply Inst_delete_counts; eauto; by apply (Hl this)|].
    unfold Inst_delete, Inst_dtor in H1. apply st_bind_Ok in H1 as (x & h1 & H1 & H2). inv_ok.
    intros q j. rewrite lookup_delete. case_decide; [done|].
    eapply dtor_counts in H1 as [_ Ha]; [|done..]. by apply (slots_same _ _ Ha).
  - unfold Value_Use in H1. apply st_bind_Ok in H1 as (d & ? & [-> ->]%assert_def_Ok & H1).
    split; [by eapply counts_upd; [..|done|]|by eapply slots_upd; [|done|]].
  - unfold Value_UnUse in H1. apply st_bind_Ok in H1 as (d & ? & [-> ->]%assert_def_Ok & H1).
    split; [by eapply counts_upd; [..|done|]|by eapply slots_upd; [|done|]].
Qed.

Lemma ir_run_ok `{InstAllocator} s s' : rtc ir_step s s' → ir_ok s → ir_ok s'.
Proof. induction 1; eauto using ir_step_ok. Qed.

Lemma ir_ok_empty : ir_ok (∅, λ _, 0).
Proof. split; intros p; [done|]. intros i Hi. simpl in Hi. by rewrite lookup_empty in Hi. Qed.

(** (C8) Use counting is exact: after any sequence of creations, argument
    changes, releases of unreferenced instructions and terminal uses, started
    from the empty heap, [num_use] of every instruction is the number of
    arguments and terminals that refer to it, modulo the 256 of its byte, and
    nothing refers to an instruction that does not exist. *)
Theorem use_counts_exact `{InstAllocator} h ext :
  rtc ir_step (∅, λ _, 0) (h, ext) →
  (∀ p i, h !! p = Some i → num_use i = u8 (refs h p + ext p)) ∧
  (∀ p, h !! p = None → refs h p + ext p = 0).
Proof.
  intros [Hc _]%ir_run_ok; [|apply ir_ok_empty]. simpl in Hc.
  split; [intros p i Hp|intros p Hp]; specialize (Hc p); by rewrite Hp in Hc.
Qed.

(** A value and a flag read of it, built by the operations. *)
Definition sample_heap : heap :=
  match (v ← Create OpCode.LoadImm [V_Imm (Imm_u32 7)];
         _ ← Create OpCode.Add [V_Value (Some v); V_Operand (Operand_value (Some v) (Some v) OperandOp_default)];
         mret tt) ∅ with
  | Ok (_, h) => h | Err _ => ∅
  end.

Lemma use_counts_exact_witness :
  ∃ i, sample_heap !! 0%nat = Some i ∧ num_use i = 3 ∧
    num_use i = u8 (refs sample_heap 0 + 0).
Proof.
  eexists. split; [vm_compute; reflexivity|]. split; [reflexivity|].
  eapply (use_counts_exact sample_heap (λ _, 0)); [|vm_compute; reflexivity].
  eapply rtc_l; [eapply (step_new OpCode.LoadImm); reflexivity|].
  eapply rtc_l; [eapply (step_set 0 0 (V_Imm (Imm_u32 7))); [done|vm_compute; reflexivity]|].
  eapply rtc_l; [eapply (step_new OpCode.Add); reflexivity|].
  eapply rtc_l; [eapply (step_set 1 0 (V_Value (Some 0%nat))); [done|vm_compute; reflexivity]|].
  eapply rtc_l; [eapply (step_set 1 1 (V_Operand (Operand_value (Some 0%nat) (Some 0%nat)
    OperandOp_default))); [done|vm_compute; reflexivity]|].
  apply rtc_refl.
Defined.

(** ** The chain of flag reads of a value *)

Definition nxt (h : heap) (p : ptr) : option (option ptr) :=
  next_pseudo_inst <$> h !! p.

(** [pchain h p l]: the links from [p] on lead through [l] and end. *)
Fixpoint pchain (h : heap) (p : ptr) (l : list ptr) : Prop :=
  match l with
  | [] => nxt h p = Some None
  | q :: l' => nxt h p = Some (Some q) ∧ pchain h q l'
  end.

(** [q] is an instruction whose argument 0 is the value [def]. *)
Definition reader (h : heap) (def q : ptr) : Prop :=
  ∃ j, h !! q = Some j ∧ arguments j !! 0%nat = Some (Arg_Value (Some def)).

Definition chain (h : heap) (def : ptr) (l : list ptr) : Prop :=
  pchain h def l ∧ Forall (reader h def) l.

Lemma pchain_det h p l1 l2 : pchain h p l1 → pchain h p l2 → l1 = l2.
Proof.
  revert p l2. induction l1 as [|q l1 IH]; intros p [|r l2] H1 H2; simpl in *; try done.
  1,2: destruct_and?; congruence.
  destruct H1 as [H1 ?], H2 as [H2 ?]. assert (q = r) as -> by congruence. f_equal. eauto.
Qed.

Lemma pchain_app h p l1 q l2 : pchain h p (l1 ++ q :: l2) → pchain h q l2.
Proof. revert p. induction l1; simpl; intros p [? ?]; eauto. Qed.

Lemma pchain_nodup h p l : pchain h p l → NoDup (p :: l).
Proof.
  revert p. induction l as [|q l IH]; intros p H; [apply NoDup_singleton|].
  constructor; [|apply IH, H]. intros (l1 & l2 & E)%list_elem_of_split.
  pose proof H as H'. rewrite E in H'. apply pchain_app in H'.
  apply (pchain_det _ _ _ _ H) in H'. apply (f_equal length) in E. rewrite H' in E at 1.
  rewrite length_app in E. simpl in E. lia.
Qed.

Lemma pchain_dom h p l q : pchain h p l → q ∈ p :: l → is_Some (h !! q).
Proof.
  revert p. induction l as [|r l IH]; intros p H Hq; simpl in H.
  - apply list_elem_of_singleton in Hq as ->. unfold nxt in H. by destruct (h !! p).
  - destruct H as [H1 H]. apply elem_of_cons in Hq as [->|Hq]; [|eauto].
    unfold nxt in H1. by destruct (h !! p).
Qed.

Lemma pchain_fuel h p l : pchain h p l → (length l < walk_fuel h)%nat.
Proof.
  intros H. unfold walk_fuel. rewrite <- size_dom.
  assert (length (p :: l) = size (list_to_set (p :: l) : gset ptr)) as E
    by (symmetry; apply size_list_to_set; by eapply pchain_nodup).
  assert (list_to_set (p :: l) ⊆ dom h) as Hs%subseteq_size.
  { intros q Hq%elem_of_list_to_set. apply elem_of_dom. by eapply pchain_dom. }
  simpl in *. lia.
Qed.

Lemma pchain_ext h h' p l :
  (∀ q, q ∈ p :: l → nxt h' q = nxt h q) → pchain h p l → pchain h' p l.
Proof.
  revert p. induction l as [|q l IH]; intros p He; simpl; [by rewrite He by (by left)|].
  rewrite He by (by left). intros [? ?]. split; [done|]. apply IH; [|done].
  intros r Hr. apply He. by right.
Qed.

(** The last instruction of a chain. *)
Fixpoint chain_end (p : ptr) (l : list ptr) : ptr :=
  match l with [] => p | q :: l' => chain_end q l' end.

Lemma chain_end_elem p l : chain_end p l ∈ p :: l.
Proof.
  revert p. induction l as [|q l IH]; intros p; [by left|]. right. apply IH.
Qed.

Lemma chain_end_app p l1 q l2 : chain_end p (l1 ++ q :: l2) = chain_end q l2.
Proof. revert p. induction l1; intros p; simpl; auto. Qed.

(** Linking the end of one chain to the start of another. *)
Lemma pchain_link h h' p l1 l l2 :
  pchain h p (l1 ++ l) → nxt h' (chain_end p l1) = Some (head l2) →
  (∀ q, q ∈ p :: l1 → q ≠ chain_end p l1 → nxt h' q = nxt h q) →
  (∀ q l', l2 = q :: l' → pchain h' q l') → pchain h' p (l1 ++ l2).
Proof.
  revert p. induction l1 as [|r l1 IH]; intros p H He Hs H2.
  - simpl in *. destruct l2 as [|q l2]; [done|]. split; [done|]. by apply H2.
  - pose proof (pchain_nodup _ _ _ H) as Hnd. simpl in He, Hs.
    destruct H as [H0 H]. split.
    + rewrite <- H0. apply Hs; [by left|]. intros ->.
      apply NoDup_cons in Hnd as [Hn _]. apply Hn, elem_of_app.
      pose proof (chain_end_elem r l1). set_solver.
    + apply IH; [done..| |done]. intros q Hq. apply Hs. by right.
Qed.

Lemma nxt_insert h p i q :
  nxt (<[p := i]> h) q = if decide (p = q) then Some (next_pseudo_inst i) else nxt h q.
Proof. unfold nxt. rewrite lookup_insert. by case_decide. Qed.

Lemma nxt_Some h p o : nxt h p = Some o → ∃ i, h !! p = Some i ∧ next_pseudo_inst i = o.
Proof. unfold nxt. destruct (h !! p) as [i|]; [|done]. intros [= <-]. eauto. Qed.

Lemma reader_reads h def q :
  reader h def q → ∃ j, h !! q = Some j ∧ reads_def def j = Ok tt.
Proof.
  intros (j & Hj & Ha). exists j. split; [done|]. unfold reads_def. rewrite Ha. simpl.
  unfold mbind, res_bind, check. by rewrite bool_decide_true.
Qed.

Lemma reader_same h h' def q : args_same h h' → reader h def q → reader h' def q.
Proof.
  intros Ha (j & Hj & Hr). specialize (Ha q). rewrite Hj in Ha.
  destruct (h' !! q) as [k|] eqn:Hk; [injection Ha as Ha|done]. exists k. by rewrite Hk, Ha.
Qed.

Lemma use_loop_chain fuel h def p l :
  pchain h p l → Forall (reader h def) l → (length l < fuel)%nat →
  use_loop fuel h def p = Ok (chain_end p l).
Proof.
  revert p l. induction fuel as [|fuel IH]; intros p l Hp Hr Hf; [lia|]. simpl.
  destruct l as [|q l]; simpl in Hp.
  - apply nxt_Some in Hp as (i & Hi & Hn). rewrite Hi. simpl. by rewrite Hn.
  - destruct Hp as [(i & Hi & Hn)%nxt_Some Hp]. rewrite Hi. simpl. rewrite Hn.
    apply Forall_cons in Hr as [(j & Hj & Hd)%reader_reads Hr]. rewrite Hj. simpl.
    rewrite Hd. simpl. apply IH; [done..|simpl in Hf; lia].
Qed.

Lemma unuse_loop_chain fuel h def this p l1 l2 :
  pchain h p (l1 ++ this :: l2) → Forall (reader h def) l1 → this ∉ l1 →
  (length l1 < fuel)%nat → unuse_loop fuel h def this p = Ok (chain_end p l1).
Proof.
  revert p l1. induction fuel as [|fuel IH]; intros p l1 Hp Hr Hn Hf; [lia|]. simpl.
  destruct l1 as [|q l1]; destruct Hp as [(i & Hi & Hx)%nxt_Some Hp];
    rewrite Hi; simpl; rewrite Hx.
  - by rewrite bool_decide_true.
  - rewrite bool_decide_false by set_solver.
    apply Forall_cons in Hr as [(j & Hj & Hd)%reader_reads Hr]. rewrite Hj. simpl.
    rewrite Hd. simpl. apply IH; [done..|set_solver|simpl in Hf; lia].
Qed.

(** A pseudo-operation that reads [def] and is in no chain. *)
Definition loose_reader (h : heap) (def this : ptr) : Prop :=
  reader h def this ∧ nxt h this = Some None ∧ this ≠ def ∧
  ∃ s, h !! this = Some s ∧ IsPseudoOperation (inst_op s) = true.

(** The heap update of a use: one count and one link. *)
Lemma Inst_Use_chain h def l this d :
  chain h def l → loose_reader h def this → this ∉ l → h !! def = Some d →
  ∃ h', Inst_Use this (Some def) h = Ok (tt, h') ∧ chain h' def (l ++ [this]) ∧
    args_same h h' ∧ (∀ q, q ∉ def :: l → h' !! q = h !! q).
Proof.
  intros [Hp Hr] (Ht & Hnt & Hne & s & Hs & Hps) Hnl Hd.
  set (h1 := <[def := incr_use d]> h).
  assert (H1 : ∀ q, nxt h1 q = nxt h q).
  { intros q. unfold h1. rewrite nxt_insert. case_decide; [subst|done].
    unfold nxt. by rewrite Hd. }
  assert (Hu : upd_inst def incr_use h = Ok (tt, h1)) by (unfold upd_inst; by rewrite Hd).
  assert (Ha1 : args_same h h1) by (by eapply args_same_upd; [|done]).
  assert (Hp1 : pchain h1 def l) by (by eapply pchain_ext; [|done]).
  assert (Hr1 : Forall (reader h1 def) l) by (eapply Forall_impl; [done|]; eauto using reader_same).
  destruct (pchain_dom h1 def l (chain_end def l)) as [e He]; [done|apply chain_end_elem|].
  set (h2 := <[chain_end def l := set_next (Some this) e]> h1).
  assert (Hu2 : upd_inst (chain_end def l) (set_next (Some this)) h1 = Ok (tt, h2))
    by (unfold upd_inst; by rewrite He).
  assert (Ha2 : args_same h h2) by (etrans; [done|by eapply args_same_upd; [|done]]).
  pose proof (chain_end_elem def l) as Hel.
  exists h2. repeat split; [| |by eauto using Forall_app_2, Forall_impl, reader_same|done|].
  - unfold Inst_Use, assert_def. erewrite st_bind_run by done. erewrite st_bind_run by done.
    erewrite st_bind_run; [|unfold get_inst, h1; by rewrite lookup_insert_ne, Hs by done].
    rewrite Hps. erewrite st_bind_run by done. unfold st_lift at 1, mbind, st_bind.
    by rewrite (use_loop_chain _ _ _ _ l) by eauto using pchain_fuel.
  - eapply (pchain_link h1 h2 def l []); [by rewrite app_nil_r|..].
    + unfold h2. rewrite nxt_insert. by rewrite decide_True.
    + intros q _ Hq. unfold h2. rewrite nxt_insert. by rewrite decide_False.
    + intros q l' [= <- <-]. simpl. unfold h2. rewrite nxt_insert, decide_False by set_solver.
      by rewrite H1.
  - intros q Hq. unfold h2, h1. rewrite !lookup_insert_ne by set_solver. done.
Qed.

(** A use of [def] by [incr_use] or its release changes no link. *)
Lemma recount_chain h def l d f h1 :
  (∀ i, next_pseudo_inst (f i) = next_pseudo_inst i) → (∀ i, arguments (f i) = arguments i) →
  chain h def l → h !! def = Some d → h1 = <[def := f d]> h →
  upd_inst def f h = Ok (tt, h1) ∧ args_same h h1 ∧ (∀ q, nxt h1 q = nxt h q) ∧ chain h1 def l.
Proof.
  intros Hf Ha [Hp Hr] Hd ->.
  assert (Hu : upd_inst def f h = Ok (tt, <[def := f d]> h)) by (unfold upd_inst; by rewrite Hd).
  assert (Ha1 := args_same_upd _ _ _ _ _ Ha Hu).
  assert (H1 : ∀ q, nxt (<[def := f d]> h) q = nxt h q).
  { intros q. rewrite nxt_insert. case_decide; [subst|done]. unfold nxt. rewrite Hd. simpl. by rewrite Hf. }
  repeat split; [done..| |].
  - by eapply pchain_ext; [|done].
  - eapply Forall_impl; [done|]. eauto using reader_same.
Qed.

Lemma pchain_split h def l1 this l2 :
  pchain h def (l1 ++ this :: l2) →
  def ≠ this ∧ this ∉ l1 ∧ this ∉ l2 ∧ chain_end def l1 ≠ this ∧ chain_end def l1 ∉ l2 ∧
  nxt h this = Some (head l2).
Proof.
  intros Hp. pose proof (pchain_app _ _ _ _ _ Hp) as Hp2.
  apply pchain_nodup in Hp as [Hn Hnd]%NoDup_cons.
  apply NoDup_app in Hnd as (_ & Hx & [??]%NoDup_cons).
  pose proof (chain_end_elem def l1) as Hel%elem_of_cons.
  assert (def ≠ this) by set_solver. assert (this ∉ l1) by set_solver.
  assert (def ∉ l2) by set_solver.
  repeat split; [done..| | |by destruct l2; [|apply Hp2]]; intros Hi.
  - destruct Hel as [E|Hel]; congruence.
  - destruct Hel as [E|Hel]; [congruence|]. apply (Hx _ Hel). by right.
Qed.

Lemma pchain_unlink h def l1 this l2 e t :
  pchain h def (l1 ++ this :: l2) →
  pchain (<[this := set_next None t]> (<[chain_end def l1 := set_next (head l2) e]> h))
    def (l1 ++ l2).
Proof.
  intros Hp. pose proof (pchain_app _ _ _ _ _ Hp) as Hp2.
  destruct (pchain_split _ _ _ _ _ Hp) as (? & ? & ? & ? & ? & _).
  eapply (pchain_link h _ def l1 (this :: l2)); [done|..].
  - rewrite nxt_insert, decide_False by done. by rewrite nxt_insert, decide_True.
  - intros q Hq1 Hq. rewrite !nxt_insert, !decide_False by set_solver. done.
  - intros q l' ->. destruct Hp2 as [_ Hp2]. eapply pchain_ext; [|done].
    intros r Hq. rewrite !nxt_insert, !decide_False by set_solver. done.
Qed.

Lemma Inst_UnUse_run h def l1 this l2 d s h1 :
  chain h def (l1 ++ this :: l2) → h !! def = Some d → h !! this = Some s →
  IsPseudoOperation (inst_op s) = true → h1 = <[def := decr_use d]> h →
  ∃ e, h1 !! chain_end def l1 = Some e ∧
    Inst_UnUse this (Some def) h =
      Ok (tt, <[this := set_next None s]> (<[chain_end def l1 := set_next (head l2) e]> h1)).
Proof.
  intros Hc Hd Hs Hps ->.
  destruct (recount_chain h def _ d decr_use (<[def := decr_use d]> h) ltac:(done) ltac:(done) Hc Hd)
    as (Hu & _ & _ & [Hp Hr]); [done|].
  set (h1 := <[def := decr_use d]> h) in *.
  destruct (pchain_split _ _ _ _ _ Hp) as (? & ? & ? & ? & ? & (s' & Hs1 & Hnx)%nxt_Some).
  assert (s' = s) as -> by (unfold h1 in Hs1; rewrite lookup_insert_ne in Hs1 by done; congruence).
  pose proof (chain_end_elem def l1) as Hel.
  destruct (pchain_dom h1 def _ (chain_end def l1) Hp) as [e He]; [set_solver|].
  exists e. split; [done|].
  unfold Inst_UnUse, assert_def. erewrite st_bind_run by done. erewrite st_bind_run by done.
  erewrite st_bind_run; [|unfold get_inst; by rewrite Hs1]. rewrite Hps.
  erewrite st_bind_run by done. apply Forall_app in Hr as [Hr _].
  assert (length l1 < walk_fuel h1)%nat.
  { pose proof (pchain_fuel _ _ _ Hp) as Hf. rewrite length_app in Hf. lia. }
  erewrite st_bind_run; [|unfold st_lift; by rewrite (unuse_loop_chain _ _ _ _ _ l1 l2)].
  erewrite st_bind_run; [|unfold get_inst; by rewrite Hs1]. rewrite Hnx.
  erewrite st_bind_run; [|unfold upd_inst; by rewrite He].
  unfold upd_inst. by rewrite lookup_insert_ne, Hs1 by done.
Qed.

Lemma Inst_UnUse_chain h def l1 this l2 d s :
  chain h def (l1 ++ this :: l2) → h !! def = Some d → h !! this = Some s →
  IsPseudoOperation (inst_op s) = true →
  ∃ h', Inst_UnUse this (Some def) h = Ok (tt, h') ∧ chain h' def (l1 ++ l2) ∧
    nxt h' this = Some None ∧ args_same h h' ∧
    (∀ q, q ∉ def :: this :: l1 → h' !! q = h !! q).
Proof.
  intros Hc Hd Hs Hps.
  destruct (Inst_UnUse_run _ _ _ _ _ _ _ _ Hc Hd Hs Hps eq_refl) as (e & He & Hrun).
  pose proof (Inst_UnUse_args _ _ _ _ _ Hrun) as Ha.
  destruct (recount_chain h def _ d decr_use _ ltac:(done) ltac:(done) Hc Hd eq_refl)
    as (_ & _ & _ & [Hp _]).
  pose proof (chain_end_elem def l1) as Hel.
  eexists. split; [exact Hrun|]. split; [split|split_and!; [|exact Ha|]].
  - by apply pchain_unlink.
  - destruct Hc as [_ Hr]. apply Forall_app in Hr as [Hr1 Hr2]. apply Forall_cons in Hr2 as [_ Hr2].
    apply Forall_app. split; (eapply Forall_impl; [done|]); eauto using reader_same.
  - by rewrite nxt_insert, decide_True.
  - intros q Hq. rewrite !lookup_insert_ne by set_solver. done.
Qed.

(** [q] is an instruction with opcode [code]. *)
Definition op_is (h : heap) (code : OpCode.t) (q : ptr) : bool :=
  bool_decide (inst_op <$> h !! q = Some code).

Lemma pseudo_loop_chain fuel h def code p l :
  pchain h p l → Forall (reader h def) l → (length l < fuel)%nat →
  pseudo_loop fuel h def code (head l) = Ok (List.find (op_is h code) l).
Proof.
  revert p l. induction fuel as [|fuel IH]; intros p l Hp Hr Hf; [lia|].
  destruct l as [|q l]; [done|]. destruct Hp as [_ Hp]. simpl.
  apply Forall_cons in Hr as [(j & Hj & Ha) Hr]. rewrite Hj. simpl.
  unfold op_is at 1. rewrite Hj. simpl.
  destruct (decide (inst_op j = code)) as [Hc|Hc].
  - rewrite !bool_decide_true by congruence. rewrite Ha. simpl.
    unfold check, mbind, res_bind. by rewrite bool_decide_true.
  - rewrite !bool_decide_false by congruence.
    assert (next_pseudo_inst j = head l) as ->.
    { destruct l; simpl in Hp; destruct_and?; unfold nxt in *; rewrite Hj in *; by simplify_eq/=. }
    apply (IH q); [done..|simpl in Hf; lia].
Qed.

(** A flag pseudo-operation that uses a value is appended to the chain of
    that value, in the order of the uses; releasing it takes it out again
    wherever it stands, keeping the order of the others and clearing its link.
    No argument changes, and no instruction off the chain is touched. *)
Theorem pseudo_chain_maintained h def l1 l2 this d s :
  h !! def = Some d → h !! this = Some s → IsPseudoOperation (inst_op s) = true →
  (chain h def l1 → loose_reader h def this → this ∉ l1 →
   ∃ h', Inst_Use this (Some def) h = Ok (tt, h') ∧ chain h' def (l1 ++ [this]) ∧
     args_same h h' ∧ (∀ q, q ∉ def :: l1 → h' !! q = h !! q)) ∧
  (chain h def (l1 ++ this :: l2) →
   ∃ h', Inst_UnUse this (Some def) h = Ok (tt, h') ∧ chain h' def (l1 ++ l2) ∧
     nxt h' this = Some None ∧ args_same h h' ∧
     (∀ q, q ∉ def :: this :: l1 → h' !! q = h !! q)).
Proof.
  intros Hd Hs Hps. split; intros; [by eapply Inst_Use_chain|by eapply Inst_UnUse_chain].
Qed.

(** [GetPseudoOperation] gives the first instruction of the chain with the
    wanted opcode, null when there is none, and ends on every chain. *)
Theorem GetPseudoOperation_first h def l code :
  chain h def l →
  GetPseudoOperation def code h = Ok (List.find (op_is h code) l, h).
Proof.
  intros [Hp Hr]. pose proof (pchain_fuel _ _ _ Hp) as Hf.
  assert (nxt h def = Some (head l)) as (d & Hd & Hn)%nxt_Some by (destruct l; [done|apply Hp]).
  unfold GetPseudoOperation. erewrite st_bind_run; [|unfold get_inst; by rewrite Hd].
  erewrite st_bind_run by done. unfold st_lift. rewrite Hn.
  by rewrite (pseudo_loop_chain _ _ _ _ def l).
Qed.

(** A value with a carry read and a zero read. *)
Definition flags_heap : heap :=
  match (v ← Create OpCode.LoadImm [V_Imm (Imm_u32 7)];
         _ ← Create OpCode.GetCarry [V_Value (Some v)];
         _ ← Create OpCode.GetZero [V_Value (Some v)];
         mret tt) ∅ with
  | Ok (_, h) => h | Err _ => ∅
  end.

Lemma flags_chain : chain flags_heap 0 [1; 2]%nat.
Proof.
  split; [by vm_compute|].
  repeat constructor; unfold reader; eexists; split; vm_compute; reflexivity.
Defined.

Lemma pseudo_chain_maintained_witness :
  ∃ h', Inst_UnUse 1 (Some 0%nat) flags_heap = Ok (tt, h') ∧ chain h' 0 [2]%nat.
Proof.
  destruct (pseudo_chain_maintained flags_heap 0 [] [2%nat] 1
    (default (Inst_init OpCode.Void) (flags_heap !! 0%nat))
    (default (Inst_init OpCode.Void) (flags_heap !! 1%nat))) as [_ H];
    [vm_compute; reflexivity..|].
  destruct (H flags_chain) as (h' & ? & ? & _). eauto.
Defined.

Lemma GetPseudoOperation_first_witness :
  GetPseudoOperation 0 OpCode.GetZero flags_heap = Ok (Some 2%nat, flags_heap).
Proof. apply (GetPseudoOperation_first flags_heap 0 [1; 2]%nat OpCode.GetZero flags_chain). Defined.

(** ** The layout of arguments *)

(** What [SetArgs] and [Validate] see of an instruction. *)
Definition shape (h : heap) (p : ptr) : option (OpCode.t * list Arg) :=
  (λ i, (inst_op i, arguments i)) <$> h !! p.

(** [h'] is [h] with the arguments of [this] replaced by [l]. *)
Definition set_shape (h : heap) (this : ptr) (op : OpCode.t) (l : list Arg) (h' : heap) : Prop :=
  shape h' this = Some (op, l) ∧ ∀ q, q ≠ this → shape h' q = shape h q.

Lemma shape_Some h p op l :
  shape h p = Some (op, l) ↔ ∃ i, h !! p = Some i ∧ inst_op i = op ∧ arguments i = l.
Proof. unfold shape. destruct (h !! p) as [i|]; simpl; naive_solver. Qed.

Lemma shape_is_Some h p : is_Some (shape h p) ↔ is_Some (h !! p).
Proof. unfold shape. by rewrite fmap_is_Some. Qed.

Lemma set_shape_trans h1 h2 h3 this op l l' :
  set_shape h1 this op l h2 → set_shape h2 this op l' h3 → set_shape h1 this op l' h3.
Proof. intros [? H12] [? H23]. split; [done|]. intros q Hq. by rewrite H23, H12. Qed.

Lemma set_shape_dom h this op l h' q :
  set_shape h this op l h' → is_Some (h !! q) → is_Some (h' !! q).
Proof.
  intros [Ht Ho]. rewrite <- !shape_is_Some. destruct (decide (q = this)) as [->|Hq].
  - by rewrite Ht. - by rewrite Ho.
Qed.

Lemma Inst_Use_plain h this op l d :
  shape h this = Some (op, l) → IsPseudoOperation op = false → is_Some (h !! d) →
  ∃ h', Inst_Use this (Some d) h = Ok (tt, h') ∧ set_shape h this op l h'.
Proof.
  intros Hs Hp [i Hd]. exists (<[d := incr_use i]> h).
  assert (He : ∀ q, shape (<[d := incr_use i]> h) q = shape h q).
  { intros q. unfold shape. rewrite lookup_insert. case_decide; [subst|done]. by rewrite Hd. }
  split; [|by split; [rewrite He|]].
  unfold Inst_Use. erewrite st_bind_run by done.
  erewrite st_bind_run; [|unfold upd_inst; by rewrite Hd].
  rewrite <- He in Hs. apply shape_Some in Hs as (j & Hj & Hop & _).
  erewrite st_bind_run; [|unfold get_inst; by rewrite Hj]. by rewrite Hop, Hp.
Qed.

Lemma write_arg_shape h this op l k a :
  shape h this = Some (op, l) → (k < max_args)%nat →
  ∃ h', write_arg this k a h = Ok (tt, h') ∧ set_shape h this op (<[k := a]> l) h'.
Proof.
  intros (i & Hi & <- & <-)%shape_Some Hk. eexists. split.
  - unfold write_arg, st_check. rewrite (proj2 (Nat.ltb_lt _ _) Hk).
    erewrite st_bind_run by done. unfold upd_inst. by rewrite Hi.
  - split; [unfold shape; by rewrite lookup_insert_eq|].
    intros q Hq. unfold shape. by rewrite lookup_insert_ne.
Qed.

Lemma DestroyArg_void h this op l k :
  shape h this = Some (op, l) → l !! k = Some Arg_Void → DestroyArg this k h = Ok (tt, h).
Proof.
  intros (i & Hi & <- & <-)%shape_Some Hk. unfold DestroyArg, ArgAt.
  erewrite st_bind_run; [|erewrite st_bind_run; [|unfold get_inst; by rewrite Hi];
    unfold st_lift; by rewrite Hk]. done.
Qed.

(** Filling an empty slot. *)
Lemma fill_slot h this op l k a :
  shape h this = Some (op, l) → l !! k = Some Arg_Void → (k < max_args)%nat →
  ∃ h', (∀ A (f : unit → stM heap A),
           (_ ← DestroyArg this k; x ← write_arg this k a; f x) h = f tt h') ∧
        set_shape h this op (<[k := a]> l) h'.
Proof.
  intros Hs Hk Hlt. destruct (write_arg_shape _ _ _ _ _ a Hs Hlt) as (h' & Hw & Hn).
  exists h'. split; [|done]. intros A f. erewrite st_bind_run by (by eapply DestroyArg_void).
  by rewrite (st_bind_run _ _ _ _ _ Hw).
Qed.

(** Every value an argument refers to is an instruction of the heap. *)
Definition arg_defined (h : heap) (a : Arg) : Prop :=
  match a with
  | Arg_Value v | Arg_Lambda (Lambda_value v) => ∃ d, v = Some d ∧ is_Some (h !! d)
  | _ => True
  end.

(** The slots an argument fills. *)
Definition slot_args (a : argv) : list Arg :=
  match a with
  | V_Operand o => [Arg_Operand (operand_op o); operand_left o; operand_right o]
  | V_Op o => [Arg_Operand o; Arg_Void; Arg_Void]
  | _ => [Arg_of a]
  end.
Definition layout (args : list argv) : list Arg := concat (slot_args <$> args).

Lemma slot_args_width a : length (slot_args a) = arg_width a.
Proof. by destruct a. Qed.

Definition argv_ok (h : heap) (a : argv) : Prop :=
  argv_wf a ∧ Forall (arg_defined h) (slot_args a).

Lemma use_if_value_plain h this op l a :
  shape h this = Some (op, l) → IsPseudoOperation op = false → arg_defined h a →
  ∃ h', use_if_value this a h = Ok (tt, h') ∧ set_shape h this op l h'.
Proof.
  intros Hs Hp Hd. destruct a as [|v| | | | | | |]; try (by exists h).
  destruct Hd as (d & -> & Hd). by apply Inst_Use_plain.
Qed.

Lemma arg_defined_mono h this op l h' a :
  set_shape h this op l h' → arg_defined h a → arg_defined h' a.
Proof.
  intros Hs. destruct a as [|v| | | | | |[]|]; simpl; try done;
    intros (d & -> & Hd); eauto using set_shape_dom.
Qed.

Lemma void_lookup (pre : list Arg) n k :
  (k < n)%nat → (pre ++ replicate n Arg_Void) !! (length pre + k)%nat = Some Arg_Void.
Proof. intros. rewrite lookup_app_r by lia. apply lookup_replicate_2. lia. Qed.

Lemma fill_void (pre : list Arg) n a :
  (0 < n)%nat →
  <[length pre := a]> (pre ++ replicate n Arg_Void) =
    (pre ++ [a]) ++ replicate (n - 1) Arg_Void.
Proof.
  intros Hn. destruct n as [|n]; [lia|]. rewrite insert_app_r_alt, Nat.sub_diag by lia.
  simpl. by rewrite <- app_assoc, Nat.sub_0_r.
Qed.

(** Filling the next empty slot, with the layout spelled out. *)
Lemma fill_next h this op pre n k a :
  shape h this = Some (op, pre ++ replicate n Arg_Void) → (length pre + n = max_args)%nat →
  (0 < n)%nat → k = length pre →
  ∃ h', (∀ A (f : unit → stM heap A),
           (_ ← DestroyArg this k; x ← write_arg this k a; f x) h = f tt h') ∧
        set_shape h this op ((pre ++ [a]) ++ replicate (n - 1) Arg_Void) h'.
Proof.
  intros Hs Hl Hn ->. rewrite <- fill_void by done.
  apply fill_slot; [done| |lia]. rewrite <- (Nat.add_0_r (length pre)). by apply void_lookup.
Qed.

Lemma SetArg_fill h this op pre n a :
  shape h this = Some (op, pre ++ replicate n Arg_Void) → (length pre + n = max_args)%nat →
  IsPseudoOperation op = false → argv_ok h a → (arg_width a ≤ n)%nat →
  ∃ h', SetArg this (length pre) a h = Ok (tt, h') ∧
    set_shape h this op (pre ++ slot_args a ++ replicate (n - arg_width a) Arg_Void) h'.
Proof.
  intros Hs Hl Hp [Hw Hd] Hn. unfold SetArg.
  assert (1 ≤ arg_width a)%nat by (by destruct a; vm_compute; lia). assert (0 < n)%nat by lia.
  destruct (fill_next h this op pre n (length pre) (Arg_of a)) as (h1 & R1 & S1); [done..|].
  rewrite R1. destruct a as [|v|i|c|f|o|l|uu|[|v|i]|o]; simpl in *;
    rewrite ?Forall_cons in Hd; destruct_and?;
    try (exists h1; split; [done|]; rewrite <- app_assoc in S1; exact S1).
  - destruct (use_if_value_plain h1 this op _ (Arg_Value v) (proj1 S1) Hp) as (h2 & Hu & S2);
      [by eapply arg_defined_mono|].
    exists h2. split; [done|]. rewrite <- app_assoc in *. by eapply set_shape_trans.
  - exists h1. split; [done|]. rewrite <- app_assoc in S1. simpl in *.
    destruct n as [|[|[|n]]]; try (cbv in Hn; lia). simpl in *. by rewrite Nat.sub_0_r in *.
  - match goal with H : arg_defined _ (Arg_Lambda _) |- _ => rename H into Hdv end.
    destruct (arg_defined_mono _ _ _ _ _ _ S1 Hdv) as (d & -> & Hdd).
    destruct (Inst_Use_plain h1 this op _ d (proj1 S1) Hp Hdd) as (h2 & Hu & S2).
    exists h2. split; [done|]. rewrite <- app_assoc in *. by eapply set_shape_trans.
  - change (3 ≤ n)%nat in Hn.
    destruct (fill_next h1 this op (pre ++ [Arg_Operand (operand_op o)]) (n - 1)
      (length pre + 1) (operand_left o)) as (h2 & R2 & S2);
      [apply S1|rewrite length_app; simpl; lia|lia|by rewrite length_app|]. rewrite R2.
    destruct (fill_next h2 this op ((pre ++ [Arg_Operand (operand_op o)]) ++ [operand_left o])
      (n - 1 - 1) (length pre + 2) (operand_right o)) as (h3 & R3 & S3);
      [apply S2|rewrite !length_app; simpl; lia|lia|rewrite !length_app; simpl; lia|]. rewrite R3.
    pose proof (set_shape_trans _ _ _ _ _ _ _ (set_shape_trans _ _ _ _ _ _ _ S1 S2) S3) as S13.
    destruct (use_if_value_plain h3 this op _ (operand_left o) (proj1 S3) Hp) as (h4 & Hu4 & S4);
      [by eapply arg_defined_mono|].
    pose proof (set_shape_trans _ _ _ _ _ _ _ S13 S4) as S14.
    destruct (use_if_value_plain h4 this op _ (operand_right o) (proj1 S4) Hp) as (h5 & Hu5 & S5);
      [by eapply arg_defined_mono|].
    exists h5. split; [rewrite (st_bind_run _ _ _ _ _ Hu4); exact Hu5|].
    pose proof (set_shape_trans _ _ _ _ _ _ _ S14 S5) as S15. rewrite <- !app_assoc in S15.
    simpl in S15. by replace (n - arg_width (V_Operand o))%nat with (n - 1 - 1 - 1)%nat
      by (change (arg_width (V_Operand o)) with 3%nat; lia).
Qed.

Lemma SetArgs_fill h this op pre n args :
  shape h this = Some (op, pre ++ replicate n Arg_Void) → (length pre + n = max_args)%nat →
  IsPseudoOperation op = false → Forall (argv_ok h) args → (length (layout args) ≤ n)%nat →
  ∃ h', SetArgs_from this (length pre) args h = Ok (tt, h') ∧
    set_shape h this op (pre ++ layout args ++ replicate (n - length (layout args)) Arg_Void) h'.
Proof.
  revert h pre n. induction args as [|a args IH]; intros h pre n Hs Hl Hp Ha Hn.
  { exists h. unfold layout. simpl. rewrite Nat.sub_0_r. by repeat split. }
  apply Forall_cons in Ha as [Ha Has].
  assert (length (layout (a :: args)) = arg_width a + length (layout args))%nat as Hla.
  { unfold layout. simpl. by rewrite length_app, slot_args_width. }
  rewrite Hla in *. destruct (SetArg_fill h this op pre n a) as (h1 & Hr & H1); [done..|lia|].
  destruct (IH h1 (pre ++ slot_args a) (n - arg_width a)%nat) as (h2 & Hr2 & H2).
  - rewrite <- app_assoc. apply H1.
  - rewrite length_app, slot_args_width. lia.
  - done.
  - eapply Forall_impl; [done|]. intros b [Hw Hd]. split; [done|].
    eapply Forall_impl; [done|]. eauto using arg_defined_mono.
  - lia.
  - exists h2. simpl. split.
    + erewrite st_bind_run by done. by rewrite length_app, slot_args_width in Hr2.
    + rewrite <- app_assoc in H2. replace (n - (arg_width a + length (layout args)))%nat
        with (n - arg_width a - length (layout args))%nat by lia.
      unfold layout. simpl. rewrite <- (app_assoc (slot_args a)). by eapply set_shape_trans.
Qed.

(** [Inst::Create] never faults on arguments that fit: for an opcode that
    is not a flag pseudo-operation, with defined values and at most four slots
    in total, it gives a new instruction that holds the arguments at their
    slots, an operand spread over three, the remaining slots void, and leaves
    opcodes and arguments of all others as they were. *)
Theorem Create_layout `{InstAllocator} op args h :
  IsPseudoOperation op = false → Forall (argv_ok h) args →
  (length (layout args) ≤ max_args)%nat →
  ∃ p h', Create op args h = Ok (p, h') ∧ h !! p = None ∧
    shape h' p =
      Some (op, layout args ++ replicate (max_args - length (layout args)) Arg_Void) ∧
    ∀ q, q ≠ p → shape h' q = shape h q.
Proof.
  intros Hp Ha Hn. destruct (New_spec op h) as (p & Hnew & Hfresh).
  assert (shape (<[p := Inst_init op]> h) p = Some (op, [] ++ replicate max_args Arg_Void)) as Hs
    by (unfold shape; by rewrite lookup_insert_eq).
  destruct (SetArgs_fill (<[p := Inst_init op]> h) p op [] max_args args) as (h' & Hr & Hs1 & Ho);
    [done..| |done|].
  { eapply Forall_impl; [done|]. intros a [Hw Hd]. split; [done|].
    eapply Forall_impl; [done|]. intros b. eapply arg_defined_mono. split; [exact Hs|].
    intros q Hq. unfold shape. by rewrite lookup_insert_ne. }
  exists p, h'. split_and!; [|done|done|].
  - unfold Create. erewrite st_bind_run by done. by erewrite st_bind_run.
  - intros q Hq. rewrite Ho by done. unfold shape. by rewrite lookup_insert_ne.
Qed.

(** What [SetArg] stores as an operand, [GetArg<Operand>] reads back. *)
Theorem GetArg_Operand_roundtrip h this op pre n o :
  shape h this = Some (op, pre ++ replicate n Arg_Void) → (length pre + n = max_args)%nat →
  (3 ≤ n)%nat → IsPseudoOperation op = false → argv_ok h (V_Operand o) →
  ∃ h', SetArg this (length pre) (V_Operand o) h = Ok (tt, h') ∧
    GetArg_Operand this (length pre) h' = Ok (o, h').
Proof.
  intros Hs Hl Hn Hp Ho. destruct (SetArg_fill h this op pre n (V_Operand o)) as (h' & Hr & H1 & _);
    [done..|]. exists h'. split; [done|]. apply shape_Some in H1 as (i & Hi & _ & Ha).
  assert (Hat : ∀ k a, slot_args (V_Operand o) !! k = Some a →
    ArgAt this (length pre + k) h' = Ok (a, h')).
  { intros k a Hk. unfold ArgAt. erewrite st_bind_run by (unfold get_inst; by rewrite Hi).
    rewrite Ha. unfold st_lift. rewrite lookup_app_r by lia.
    replace (length pre + k - length pre)%nat with k by lia. by rewrite (lookup_app_l_Some _ _ _ _ Hk). }
  unfold GetArg_Operand. rewrite <- (Nat.add_0_r (length pre)) at 1.
  do 3 (erewrite st_bind_run; [|first [by apply Hat|done]]).
  do 2 (erewrite st_bind_run; [|by apply Hat]). by destruct o.
Qed.

(** ** Validation *)

(** The signature against the slots it owns: an operand owns three slots, of
    which the first is checked. *)
Fixpoint sig_match (types : list ArgType.t) (args : list Arg) : bool :=
  match types, args with
  | [], _ | _, [] => true
  | t :: ts, a :: rest =>
      bool_decide (Arg_GetType a = t) &&
      sig_match ts (if bool_decide (t = ArgType.Operand) then drop 2 rest else rest)
  end.

Lemma code_eqb a b : (ArgType.code a =? ArgType.code b) = bool_decide (a = b).
Proof. by destruct a, b. Qed.

Lemma slots_of_cons t ts : slots_of (t :: ts) = (slot_width t + slots_of ts)%nat.
Proof. done. Qed.

Lemma slots_of_length ts : (length ts ≤ slots_of ts)%nat.
Proof.
  induction ts as [|t ts IH]; [done|]. rewrite slots_of_cons. simpl.
  assert (1 ≤ slot_width t)%nat by (destruct t; simpl; lia). lia.
Qed.

#[local] Opaque max_args.

(** The loop: a mismatch inside the signature throws; a signature that fills
    the slots is accepted; else the next read is past its end. *)
Lemma validate_loop_exact pe fuel info args inner arg :
  length args = max_args → (max_args - inner < fuel)%nat → (arg ≤ length (arg_types info))%nat →
  validate_loop pe fuel info args inner arg =
    if sig_match (drop arg (arg_types info)) (drop inner args) then
      if (max_args <=? inner + slots_of (drop arg (arg_types info)))%nat then Ok tt
      else
        validate_loop pe (fuel - length (drop arg (arg_types info))) info args
          (inner + slots_of (drop arg (arg_types info))) (length (arg_types info))
    else Err AssertFailed.
Proof.
  intros Hl. revert inner arg. induction fuel as [|fuel IH]; intros inner arg Hf Ha; [lia|].
  destruct (arg_types info !! arg) as [t|] eqn:Ht.
  - rewrite (drop_S _ _ _ Ht), slots_of_cons. simpl validate_loop at 1.
    pose proof (lookup_lt_Some _ _ _ Ht) as Hlt.
    destruct (Nat.ltb_spec inner max_args) as [Hi|Hi].
    2: { rewrite (drop_ge args) by lia. simpl. by rewrite (proj2 (Nat.leb_le _ _)) by lia. }
    destruct (lookup_lt_is_Some_2 args inner) as [a Hx]; [lia|]. rewrite Hx. simpl.
    rewrite (drop_S _ _ _ Hx). unfold arg_type_at. rewrite Ht. simpl.
    change 7 with (ArgType.code ArgType.Operand). rewrite !code_eqb.
    destruct (decide (Arg_GetType a = t)) as [E|E].
    2: { by rewrite (bool_decide_false (Arg_GetType a = t)). }
    rewrite (bool_decide_true (Arg_GetType a = t)) by done. simpl. rewrite (Nat.add_1_r arg).
    assert (slot_width t = if bool_decide (t = ArgType.Operand) then 3 else 1)%nat as -> by (by destruct t).
    case_bool_decide as Eo; rewrite IH by lia; rewrite Nat.add_assoc.
    + rewrite drop_drop. by replace (inner + 3)%nat with (S inner + 2)%nat by lia.
    + by rewrite Nat.add_1_r.
  - apply lookup_ge_None in Ht. rewrite (drop_ge (arg_types info)) by done.
    change (slots_of []) with 0%nat. rewrite Nat.add_0_r, Nat.sub_0_r.
    assert (arg = length (arg_types info)) as -> by lia. simpl sig_match.
    destruct (Nat.leb_spec max_args inner) as [Hi|Hi]; [|by destruct (drop inner args)].
    assert (validate_loop pe (S fuel) info args inner (length (arg_types info)) = Ok tt) as ->
      by (simpl; by rewrite (proj2 (Nat.ltb_ge _ _)) by lia).
    by destruct (drop inner args).
Qed.

#[local] Transparent max_args.

(** The opcodes whose arguments are checked against the table. *)
Definition table_checked (op : OpCode.t) : bool :=
  (0 <? OpCode.code op) && (OpCode.code op <? OpCode.code OpCode.BASE_COUNT) &&
  negb (bool_decide (op ∈ [OpCode.CallLambda; OpCode.CallLocation; OpCode.CallDynamic])).

Lemma validate_past pe fuel info args inner :
  length args = max_args → (inner < max_args)%nat → (0 < fuel)%nat →
  pe (op_code info) (length (arg_types info)) = None →
  validate_loop pe fuel info args inner (length (arg_types info)) = Err OutOfBounds.
Proof.
  intros Hl Hi Hf Hp. destruct fuel as [|fuel]; [lia|]. simpl.
  rewrite (proj2 (Nat.ltb_lt _ _) Hi). destruct (lookup_lt_is_Some_2 args inner) as [a Ha]; [lia|].
  rewrite Ha. simpl. unfold arg_type_at. by rewrite (lookup_ge_None_2 _ _ (le_n _)), Hp.
Qed.

Lemma Validate_table pe i info :
  table_checked (inst_op i) = true → GetIRMetaInfo (inst_op i) = Ok info →
  Validate_inst pe i = validate_loop pe (S max_args) info (arguments i) 0 0.
Proof.
  intros Hc Hg. unfold Validate_inst. destruct (inst_op i); try discriminate Hc;
    injection Hg as <-; reflexivity.
Qed.

(** Opcodes outside the table: the calls take a lambda, [SetLocation] an
    immediate, and every other one is refused. *)
Definition special_accepts (i : Inst) : bool :=
  match inst_op i, arguments i with
  | OpCode.CallLambda, a :: _ | OpCode.CallLocation, a :: _ | OpCode.CallDynamic, a :: _ => Arg_IsLambda a
  | OpCode.SetLocation, a :: _ => bool_decide (Arg_GetType a = ArgType.Imm)
  | _, _ => false
  end.

(** (C39) [Validate], whatever lies behind the signatures in memory.  An
    instruction of the table is refused when a slot that its signature owns has
    another type, and accepted when all have theirs and the signature fills the
    four slots.  When they have theirs and slots are left, [Validate] reads the
    signature past its end and faults where that read traps.  Of the other
    opcodes the calls are accepted with a lambda and [SetLocation] with an
    immediate, and nothing else is. *)
Theorem Validate_exact pe i :
  length (arguments i) = max_args →
  (table_checked (inst_op i) = true → ∀ info, GetIRMetaInfo (inst_op i) = Ok info →
     (sig_match (arg_types info) (arguments i) = false → Validate_inst pe i = Err AssertFailed) ∧
     (sig_match (arg_types info) (arguments i) = true →
      (max_args ≤ slots_of (arg_types info))%nat → Validate_inst pe i = Ok tt) ∧
     (sig_match (arg_types info) (arguments i) = true →
      (slots_of (arg_types info) < max_args)%nat →
      pe (op_code info) (length (arg_types info)) = None → Validate_inst pe i = Err OutOfBounds)) ∧
  (table_checked (inst_op i) = false → Validate_inst pe i = check (special_accepts i) AssertFailed).
Proof.
  intros Hl. split.
  - intros Hc info Hg. rewrite (Validate_table _ _ _ Hc Hg).
    rewrite validate_loop_exact by (done || lia). rewrite !drop_0, Nat.add_0_l. split_and!.
    + by intros ->.
    + intros -> Hs. by rewrite (proj2 (Nat.leb_le _ _)).
    + intros -> Hs Hp. rewrite (proj2 (Nat.leb_gt _ _)) by done.
      pose proof (slots_of_length (arg_types info)). apply validate_past; [done|done|lia|done].
  - intros Hc. unfold Validate_inst, special_accepts.
    destruct (arguments i) as [|a args]; [done|].
    destruct (inst_op i); try discriminate Hc; reflexivity.
Qed.

(** An addition of a register to an operand fills its slots; [PopRSB] has no
    argument. *)
Definition add_inst (a : Arg) : Inst :=
  mkInst None [a; Arg_Operand OperandOp_default; Arg_Void; Arg_Void] OpCode.Add 0 0 ValueType.VOID.

Lemma Validate_exact_witness :
  Validate_inst (λ _ _, Some 3) (add_inst (Arg_Value (Some 0%nat))) = Ok tt ∧
  Validate_inst (λ _ _, Some 3) (add_inst (Arg_Imm (Imm_u8 1))) = Err AssertFailed ∧
  Validate_inst (λ _ _, None) (Inst_init OpCode.PopRSB) = Err OutOfBounds.
Proof.
  split_and!.
  - destruct (Validate_exact (λ _ _, Some 3) (add_inst (Arg_Value (Some 0%nat))) eq_refl) as [H _].
    eapply H; [reflexivity|vm_compute; reflexivity|reflexivity|vm_compute; lia].
  - destruct (Validate_exact (λ _ _, Some 3) (add_inst (Arg_Imm (Imm_u8 1))) eq_refl) as [H _].
    eapply H; [reflexivity|vm_compute; reflexivity|reflexivity].
  - destruct (Validate_exact (λ _ _, None) (Inst_init OpCode.PopRSB) eq_refl) as [H _].
    eapply H; [reflexivity|vm_compute; reflexivity|reflexivity|vm_compute; lia|reflexivity].
Defined.

Lemma Create_layout_witness :
  ∃ p h', Create OpCode.LoadImm [V_Imm (Imm_u32 7)] ∅ = Ok (p, h') ∧
    shape h' p = Some (OpCode.LoadImm, [Arg_Imm (Imm_u32 7); Arg_Void; Arg_Void; Arg_Void]).
Proof.
  destruct (Create_layout OpCode.LoadImm [V_Imm (Imm_u32 7)] ∅) as (p & h' & ? & _ & ? & _);
    [done| |vm_compute; lia|by exists p, h'].
  by repeat constructor.
Defined.

Lemma GetArg_Operand_roundtrip_witness :
  ∃ h', SetArg 0 0 (V_Operand Operand_default) {[ 0%nat := Inst_init OpCode.Add ]} = Ok (tt, h') ∧
    GetArg_Operand 0 0 h' = Ok (Operand_default, h').
Proof.
  apply (GetArg_Operand_roundtrip {[ 0%nat := Inst_init OpCode.Add ]} 0 OpCode.Add [] 4 Operand_default);
    [vm_compute; reflexivity|done|lia|done|by repeat constructor].
Defined.
