(* ===== verification/HIR.v ===== *)
(** * The HIR builder

    [runtime/ir/block.h], [block.cpp], [terminal.h], [function.h],
    [hir_builder.h] and [hir_builder.cpp]: functions as lists of basic blocks
    with their edges, values and uses, and the builder that appends
    instructions and blocks.

    A block pointer is the position of the block in the function's
    [block_list], to which blocks are only ever appended; an edge or value
    pointer is its position in the function's share of the pool. *)

From S2P Require Import Prelude IntrusiveList IRTypes Inst.

Abbreviation bptr := nat.
Abbreviation eptr := nat.
Abbreviation vptr := nat.

(** ** Terminals *)

Inductive Terminal : Type :=
  | T_Invalid
  | T_ReturnToDispatch
  | T_LinkBlock (next : Location)
  | T_LinkBlockFast (next : Location)
  | T_PopRSBHint
  | T_If (cond : Value) (then_ else_ : Terminal)
  | T_Switch (value : Value) (cases : list (Imm * Terminal))
  | T_CheckHalt (else_ : Terminal).

(** The constructors that record a use: [If] converts its condition to [BOOL]. *)
Definition If_new (cond : Value) (then_ else_ : Terminal) : stM heap Terminal :=
  _ ← Value_SetType cond ValueType.BOOL;
  _ ← Value_Use cond;
  mret (T_If cond then_ else_).
Definition Switch_new (value : Value) (cases : list (Imm * Terminal)) : stM heap Terminal :=
  _ ← Value_Use value;
  mret (T_Switch value cases).

(** ** Blocks *)

(** [Block]: [inst_list] holds the instructions in order. *)
Record Block := mkBlock {
  location : Location;
  block_end : Location;
  inst_list : list ptr;
  block_term : Terminal;
}.
Definition Block_init (loc : Location) : Block := mkBlock loc 0 [] T_Invalid.
Definition Block_GetStartLocation (b : Block) : Location := location b.
Definition Block_SetEndLocation (l : Location) (b : Block) : Block :=
  mkBlock (location b) l (inst_list b) (block_term b).
Definition Block_SetTerminal (t : Terminal) (b : Block) : Block :=
  mkBlock (location b) (block_end b) (inst_list b) t.
Definition Block_push_inst (i : ptr) (b : Block) : Block :=
  mkBlock (location b) (block_end b) (inst_list b ++ [i]) (block_term b).
(** A [boost::variant] is never empty. *)
Definition Block_HasTerminal (b : Block) : bool := true.

Definition Edge_CONDITIONAL : Z := Z.shiftl 1 0.
Definition Edge_DOMINATES : Z := Z.shiftl 1 1.
Record Edge := mkEdge { src_block : bptr; dest_block : bptr; flags : Z }.
Definition set_flags (z : Z) (e : Edge) : Edge := mkEdge (src_block e) (dest_block e) z.
(** [flags &= ~Edge::DOMINATES] on a byte. *)
Definition clear_dominates (e : Edge) : Edge :=
  set_flags (Z.land (flags e) (u8 (Z.lnot Edge_DOMINATES))) e.
Definition set_dominates (e : Edge) : Edge :=
  set_flags (Z.lor (flags e) Edge_DOMINATES) e.

Inductive ValueAllocated : Type :=
  | VA_NONE | VA_GPR (r : HostGPR) | VA_FPR (r : HostFPR) | VA_MEM (s : SpillSlot).
Definition Allocated (a : ValueAllocated) : bool :=
  match a with VA_NONE => false | _ => true end.

Definition USE_NIL : Z := 255.
Definition USE_PHI : Z := 254.
Record HIRUse := mkUse { use_inst : ptr; arg_idx : Z }.
#[export] Instance HIRUse_eq_dec : EqDecision HIRUse.
Proof. solve_decision. Defined.

Record HIRValue := mkHIRValue {
  hv_value : Value;
  hv_block : bptr;
  allocated : ValueAllocated;
  uses : list HIRUse;
}.

Record HIRPhi := mkPhi { phi_value : vptr; inputs : list vptr }.

Record HIRBlock := mkHIRBlock {
  order_id : Z;
  block : Block;
  outgoing_edges : list eptr;
  incoming_edges : list eptr;
  predecessors : list (option bptr);
  successors : list (option bptr);
  back_edges : list bptr;
  phis : list HIRPhi;
  dominator : option bptr;
}.
Definition HIRBlock_init (loc : Location) (id : Z) : HIRBlock :=
  mkHIRBlock id (Block_init loc) [] [] [] [] [] [] None.

Definition on_block (f : Block → Block) (b : HIRBlock) : HIRBlock :=
  mkHIRBlock (order_id b) (f (block b)) (outgoing_edges b) (incoming_edges b)
    (predecessors b) (successors b) (back_edges b) (phis b) (dominator b).
Definition AddOutgoingEdge (e : eptr) (b : HIRBlock) : HIRBlock :=
  mkHIRBlock (order_id b) (block b) (outgoing_edges b ++ [e]) (incoming_edges b)
    (predecessors b) (successors b) (back_edges b) (phis b) (dominator b).
Definition AddIncomingEdge (e : eptr) (b : HIRBlock) : HIRBlock :=
  mkHIRBlock (order_id b) (block b) (outgoing_edges b) (incoming_edges b ++ [e])
    (predecessors b) (successors b) (back_edges b) (phis b) (dominator b).
Definition AddBackEdge (t : bptr) (b : HIRBlock) : HIRBlock :=
  mkHIRBlock (order_id b) (block b) (outgoing_edges b) (incoming_edges b)
    (predecessors b) (successors b) (back_edges b ++ [t]) (phis b) (dominator b).
Definition SetDominator (d : option bptr) (b : HIRBlock) : HIRBlock :=
  mkHIRBlock (order_id b) (block b) (outgoing_edges b) (incoming_edges b)
    (predecessors b) (successors b) (back_edges b) (phis b) d.
Definition set_vectors (preds succs : list (option bptr)) (b : HIRBlock) : HIRBlock :=
  mkHIRBlock (order_id b) (block b) (outgoing_edges b) (incoming_edges b)
    preds succs (back_edges b) (phis b) (dominator b).
Definition push_phi (p : HIRPhi) (b : HIRBlock) : HIRBlock :=
  mkHIRBlock (order_id b) (block b) (outgoing_edges b) (incoming_edges b)
    (predecessors b) (successors b) (back_edges b) (phis b ++ [p]) (dominator b).
Definition HasIncomingEdges (b : HIRBlock) : bool := negb (bool_decide (incoming_edges b = [])).
Definition HasOutgoingEdges (b : HIRBlock) : bool := negb (bool_decide (outgoing_edges b = [])).

(** ** Functions *)

(** [block_list] holds the blocks in the order of their creation and [blocks]
    the vector filled by [EndFunction] ([None]: the zeroed memory of the arena);
    [values] lists the value map in its order.  [block_nodes] are the list
    nodes: the roots of [block_list] and [blocks_rpo], and the one [list_node]
    of each block, through which both lists link it.  [arena_chunk] is the
    chunk size of the arena of [pools]. *)
Record HIRFunction := mkFunction {
  f_begin : Location;
  f_end : Location;
  max_local_id : Z;
  block_order_id : Z;
  value_order_id : Z;
  block_list : list HIRBlock;
  edges : list Edge;
  pool_values : list HIRValue;
  values : list vptr;
  blocks : list (option bptr);
  block_nodes : IntrusiveList.nodes;
  arena_chunk : Z;
  current_block : option bptr;
}.

Definition block_list_root : IntrusiveList.nid := 0%nat.
Definition blocks_rpo_root : IntrusiveList.nid := 1%nat.
Definition block_node (b : bptr) : IntrusiveList.nid := S (S b).

Definition set_max_local_id (z : Z) (f : HIRFunction) : HIRFunction :=
  mkFunction (f_begin f) (f_end f) z (block_order_id f) (value_order_id f)
    (block_list f) (edges f) (pool_values f) (values f) (blocks f) (block_nodes f) (arena_chunk f)
    (current_block f).
Definition set_value_order_id (z : Z) (f : HIRFunction) : HIRFunction :=
  mkFunction (f_begin f) (f_end f) (max_local_id f) (block_order_id f) z
    (block_list f) (edges f) (pool_values f) (values f) (blocks f) (block_nodes f) (arena_chunk f)
    (current_block f).
Definition set_block_list (l : list HIRBlock) (f : HIRFunction) : HIRFunction :=
  mkFunction (f_begin f) (f_end f) (max_local_id f) (block_order_id f) (value_order_id f)
    l (edges f) (pool_values f) (values f) (blocks f) (block_nodes f) (arena_chunk f) (current_block f).
Definition push_block (id : Z) (nd : IntrusiveList.nodes) (b : HIRBlock) (f : HIRFunction)
    : HIRFunction :=
  mkFunction (f_begin f) (f_end f) (max_local_id f) id (value_order_id f)
    (block_list f ++ [b]) (edges f) (pool_values f) (values f) (blocks f) nd (arena_chunk f)
    (current_block f).
Definition set_edges (l : list Edge) (f : HIRFunction) : HIRFunction :=
  mkFunction (f_begin f) (f_end f) (max_local_id f) (block_order_id f) (value_order_id f)
    (block_list f) l (pool_values f) (values f) (blocks f) (block_nodes f) (arena_chunk f) (current_block f).
Definition set_pool_values (l : list HIRValue) (f : HIRFunction) : HIRFunction :=
  mkFunction (f_begin f) (f_end f) (max_local_id f) (block_order_id f) (value_order_id f)
    (block_list f) (edges f) l (values f) (blocks f) (block_nodes f) (arena_chunk f) (current_block f).
Definition set_values (l : list vptr) (f : HIRFunction) : HIRFunction :=
  mkFunction (f_begin f) (f_end f) (max_local_id f) (block_order_id f) (value_order_id f)
    (block_list f) (edges f) (pool_values f) l (blocks f) (block_nodes f) (arena_chunk f) (current_block f).
Definition set_blocks (l : list (option bptr)) (f : HIRFunction) : HIRFunction :=
  mkFunction (f_begin f) (f_end f) (max_local_id f) (block_order_id f) (value_order_id f)
    (block_list f) (edges f) (pool_values f) (values f) l (block_nodes f) (arena_chunk f) (current_block f).
Definition set_block_nodes (nd : IntrusiveList.nodes) (f : HIRFunction) : HIRFunction :=
  mkFunction (f_begin f) (f_end f) (max_local_id f) (block_order_id f) (value_order_id f)
    (block_list f) (edges f) (pool_values f) (values f) (blocks f) nd (arena_chunk f)
    (current_block f).
Definition set_current_block (b : option bptr) (f : HIRFunction) : HIRFunction :=
  mkFunction (f_begin f) (f_end f) (max_local_id f) (block_order_id f) (value_order_id f)
    (block_list f) (edges f) (pool_values f) (values f) (blocks f) (block_nodes f) (arena_chunk f) b.

Definition MaxBlockCount (f : HIRFunction) : Z := block_order_id f.
Definition MaxValueCount (f : HIRFunction) : Z := value_order_id f.
Definition MaxLocalId (f : HIRFunction) : Z := max_local_id f.

(** The state of an operation on a function: the instructions and the function. *)
Record hir := mkHir { insts : heap; fn : HIRFunction }.

Definition on_insts {A} (m : stM heap A) : stM hir A := λ s,
  match m (insts s) with
  | Ok (a, h) => Ok (a, mkHir h (fn s))
  | Err e => Err e
  end.
Definition get_fn : stM hir HIRFunction := s ← st_get; mret (fn s).
Definition upd_fn (g : HIRFunction → HIRFunction) : stM hir unit :=
  st_mod (λ s, mkHir (insts s) (g (fn s))).

Definition get_block (b : bptr) : stM hir HIRBlock :=
  f ← get_fn; st_lift (of_option NullDeref (block_list f !! b)).
Definition upd_block (b : bptr) (g : HIRBlock → HIRBlock) : stM hir unit :=
  x ← get_block b; upd_fn (λ f, set_block_list (<[b := g x]> (block_list f)) f).
Definition get_edge (e : eptr) : stM hir Edge :=
  f ← get_fn; st_lift (of_option NullDeref (edges f !! e)).
Definition upd_edge (e : eptr) (g : Edge → Edge) : stM hir unit :=
  x ← get_edge e; upd_fn (λ f, set_edges (<[e := g x]> (edges f)) f).
Definition get_value (v : vptr) : stM hir HIRValue :=
  f ← get_fn; st_lift (of_option NullDeref (pool_values f !! v)).
Definition upd_value (v : vptr) (g : HIRValue → HIRValue) : stM hir unit :=
  x ← get_value v; upd_fn (λ f, set_pool_values (<[v := g x]> (pool_values f)) f).

(** ** The value map

    [HIRValueMap] is a red-black tree ordered by [HIRValue::Compare], which puts
    larger ids first. *)

Definition value_id (s : hir) (v : vptr) : res Z :=
  x ← of_option NullDeref (pool_values (fn s) !! v);
  d ← of_option NullDeref (hv_value x);
  i ← of_option NullDeref (insts s !! d);
  Ok (inst_id i).

(** [HIRValue::Compare] on ids. *)
Definition HIRValue_Compare (lhs rhs : Z) : Z :=
  if lhs <? rhs then 1 else if rhs <? lhs then -1 else 0.

Fixpoint map_find (s : hir) (id : Z) (l : list vptr) : res (option vptr) :=
  match l with
  | [] => Ok None
  | v :: l' =>
      k ← value_id s v;
      if HIRValue_Compare id k =? 0 then Ok (Some v) else map_find s id l'
  end.

(** [insert] leaves the tree alone when the id is present. *)
Fixpoint map_insert (s : hir) (v : vptr) (id : Z) (l : list vptr) : res (list vptr) :=
  match l with
  | [] => Ok [v]
  | w :: l' =>
      k ← value_id s w;
      let c := HIRValue_Compare id k in
      if c <? 0 then Ok (v :: w :: l')
      else if c =? 0 then Ok (w :: l')
      else r ← map_insert s v id l'; Ok (w :: r)
  end.

Definition GetHIRValue (value : Value) : stM hir (option vptr) :=
  s ← st_get;
  match values (fn s) with
  | [] => mret None
  | l =>
      d ← st_lift (of_option NullDeref value);
      i ← st_lift (of_option NullDeref (insts s !! d));
      st_lift (map_find s (inst_id i) l)
  end.

(** [pools.values.Create(id, value, block)] and [values.insert]. *)
Definition create_value (id : Z) (inst : ptr) (b : bptr) : stM hir vptr :=
  f ← get_fn;
  let v := length (pool_values f) in
  _ ← on_insts (Inst_SetId inst id);
  _ ← upd_fn (set_pool_values (pool_values f ++ [mkHIRValue (Some inst) b VA_NONE []]));
  s ← st_get;
  l ← st_lift (map_insert s v id (values (fn s)));
  _ ← upd_fn (set_values l);
  mret v.

Definition DestroyHIRValue (v : vptr) : stM hir unit :=
  upd_fn (λ f, set_values (filter (λ w, w ≠ v) (values f)) f).

Definition HIRValue_Use (v : vptr) (inst : ptr) (idx : Z) : stM hir unit :=
  upd_value v (λ x, mkHIRValue (hv_value x) (hv_block x) (allocated x)
                      (uses x ++ [mkUse inst idx])).

Fixpoint remove_first (u : HIRUse) (l : list HIRUse) : list HIRUse :=
  match l with
  | [] => []
  | x :: l' => if bool_decide (x = u) then l' else x :: remove_first u l'
  end.
Definition HIRValue_UnUse (v : vptr) (inst : ptr) (idx : Z) : stM hir unit :=
  upd_value v (λ x, mkHIRValue (hv_value x) (hv_block x) (allocated x)
                      (remove_first (mkUse inst idx) (uses x))).

(** ** Instructions *)

Section append.
Context (past_end : OpCode.t → nat → option Z).
Context `{InstAllocator}.

(** [Block::AppendInst]. *)
Definition HIRBlock_AppendInst (b : bptr) (inst : ptr) : stM hir unit :=
  _ ← on_insts (Validate past_end inst);
  upd_block b (on_block (Block_push_inst inst)).

(** The body of the loop over the arguments in [HIRFunction::AppendInst]. *)
Definition record_use (inst : ptr) (i : nat) : stM hir unit :=
  arg ← on_insts (ArgAt inst i);
  match arg with
  | Arg_Value value | Arg_Lambda (Lambda_value value) =>
      hv ← GetHIRValue value;
      match hv with
      | Some v => HIRValue_Use v inst (Z.of_nat i)
      | None => mret tt
      end
  | _ => mret tt
  end.

Definition HIRFunction_AppendInst (inst : ptr) : stM hir unit :=
  f ← get_fn;
  b ← st_lift (of_option NullDeref (current_block f));
  _ ← HIRBlock_AppendInst b inst;
  op ← on_insts (Inst_GetOp inst);
  has ← st_lift (Inst_HasValue op);
  _ ← (if has : bool then
         f ← get_fn;
         _ ← upd_fn (set_value_order_id (u16 (value_order_id f + 1)));
         _ ← create_value (value_order_id f) inst b;
         mret tt
       else mret tt);
  _ ← st_iter (record_use inst) (seq 0 max_args);
  match op with
  | OpCode.LoadLocal | OpCode.StoreLocal =>
      local ← on_insts (GetArg_Local inst 0);
      upd_fn (λ f, set_max_local_id (Z.max (local_id local) (max_local_id f)) f)
  | _ => mret tt
  end.

(** [HIRFunction::AppendInst(op, args...)]. *)
Definition HIRFunction_AppendNew (op : OpCode.t) (args : list argv) : stM hir ptr :=
  f ← get_fn;
  _ ← st_check (bool_decide (is_Some (current_block f))) AssertFailed;
  inst ← on_insts (Create op args);
  _ ← HIRFunction_AppendInst inst;
  mret inst.

(** The methods that [ir.inc] generates: the return type [BOOL] tags the value. *)
Definition returns_bool (op : OpCode.t) : bool :=
  match op with
  | OpCode.GetCarry | OpCode.GetOverFlow | OpCode.GetZero | OpCode.GetNegate
  | OpCode.GetParity | OpCode.TestBit => true
  | _ => false
  end.
Definition HIRFunction_INST (op : OpCode.t) (args : list argv) : stM hir ptr :=
  inst ← HIRFunction_AppendNew op args;
  _ ← (if returns_bool op then on_insts (Value_SetType (Some inst) ValueType.BOOL)
       else mret tt);
  mret inst.

(** [HIRBlock::AppendPhi]: [block->AddPhi()] has no arguments. *)
Definition AppendPhi (b : bptr) : stM hir nat :=
  inst ← on_insts (Create OpCode.AddPhi []);
  _ ← HIRBlock_AppendInst b inst;
  f ← get_fn;
  _ ← upd_fn (set_value_order_id (u16 (value_order_id f + 1)));
  v ← create_value (value_order_id f) inst b;
  x ← get_block b;
  _ ← upd_block b (push_phi (mkPhi v []));
  mret (length (phis x)).

End append.

(** [HIRPhi::AddInput]. *)
Definition AddInput (b : bptr) (k : nat) (input : vptr) : stM hir unit :=
  x ← get_block b;
  p ← st_lift (of_option NullDeref (phis x !! k));
  _ ← upd_block b (λ y,
        mkHIRBlock (order_id y) (block y) (outgoing_edges y) (incoming_edges y)
          (predecessors y) (successors y) (back_edges y)
          (<[k := mkPhi (phi_value p) (inputs p ++ [input])]> (phis y)) (dominator y));
  v ← get_value (phi_value p);
  d ← st_lift (of_option NullDeref (hv_value v));
  HIRValue_Use input d USE_PHI.

(** ** Blocks and edges *)

(** The [find_if] over [block_list] of [CreateOrGetBlock]. *)
Fixpoint find_block (loc : Location) (l : list HIRBlock) (k : bptr) : option bptr :=
  match l with
  | [] => None
  | b :: l' =>
      if Location_eqb (Block_GetStartLocation (block b)) loc then Some k
      else find_block loc l' (S k)
  end.

(** [block_list.push_back] of a block whose node was just constructed; its
    assertion, that the node is in no list, holds. *)
Definition link_block (b : bptr) (nd : IntrusiveList.nodes) : res IntrusiveList.nodes :=
  '(_, nd') ← IntrusiveList.push_back true block_list_root (block_node b)
                (<[block_node b := IntrusiveList.node_init (block_node b)]> nd);
  Ok nd'.

Definition CreateOrGetBlock (loc : Location) : stM hir bptr :=
  f ← get_fn;
  match find_block loc (block_list f) 0 with
  | Some b => mret b
  | None =>
      nd ← st_lift (link_block (length (block_list f)) (block_nodes f));
      _ ← upd_fn (push_block (u16 (block_order_id f + 1)) nd
                    (HIRBlock_init loc (block_order_id f)));
      mret (length (block_list f))
  end.

Definition AppendBlock (start end_ : Location) : stM hir bptr :=
  b ← CreateOrGetBlock start;
  _ ← upd_block b (on_block (Block_SetEndLocation end_));
  _ ← upd_fn (set_current_block (Some b));
  mret b.

(** [HIRFunction::AddEdge]; null pointers throw. *)
Definition AddEdge (src dest : option bptr) (conditional : bool) : stM hir unit :=
  src ← st_lift (of_option AssertFailed src);
  dest ← st_lift (of_option AssertFailed dest);
  d ← get_block dest;
  let dest_was_dominated := HasIncomingEdges d in
  f ← get_fn;
  let e := length (edges f) in
  let fl := if conditional then Z.lor 0 Edge_CONDITIONAL else 0 in
  _ ← upd_fn (set_edges (edges f ++ [mkEdge src dest fl]));
  _ ← upd_block src (AddOutgoingEdge e);
  _ ← upd_block dest (AddIncomingEdge e);
  if dest_was_dominated then
    d' ← get_block dest;
    st_iter (λ i, upd_edge i clear_dominates) (incoming_edges d')
  else mret tt.

Definition EndBlock (t : Terminal) : stM hir unit :=
  f ← get_fn;
  b ← st_lift (of_option NullDeref (current_block f));
  _ ← upd_block b (on_block (Block_SetTerminal t));
  upd_fn (set_current_block None).

(** A vector of [CreateBlockVector] is an array of the arena, whose blocks fit
    in a chunk or begin a new one: an entry that ends behind the chunk lies
    outside its storage. *)
Definition vector_write (chunk : Z) (v : list (option bptr)) (i : Z) (b : bptr)
    : res (list (option bptr)) :=
  _ ← check (bool_decide (i < Z.of_nat (length v)) && (8 * (i + 1) <=? chunk)) OutOfBounds;
  Ok (<[Z.to_nat i := Some b]> v).

(** The loops over the edges of a block in [EndFunction], with their 16-bit
    index. *)
Fixpoint fill_vector (chunk : Z) (p : Edge → bptr) (es : list Edge) (l : list eptr) (index : Z)
    (v : list (option bptr)) : res (list (option bptr)) :=
  match l with
  | [] => Ok v
  | e :: l' =>
      x ← of_option NullDeref (es !! e);
      v' ← vector_write chunk v index (p x);
      fill_vector chunk p es l' (u16 (index + 1)) v'
  end.

(** The body of the loop over [block_list] in [EndFunction]. *)
Definition finish_block (b : bptr) : stM hir unit :=
  x ← get_block b;
  f ← get_fn;
  let chunk := arena_chunk f in
  v ← st_lift (vector_write chunk (blocks f) (order_id x) b);
  _ ← upd_fn (set_blocks v);
  preds ← st_lift (fill_vector chunk src_block (edges f) (incoming_edges x) 0
                     (replicate (length (incoming_edges x)) None));
  succs ← st_lift (fill_vector chunk dest_block (edges f) (outgoing_edges x) 0
                     (replicate (length (outgoing_edges x)) None));
  upd_block b (set_vectors preds succs).

Definition EndFunction : stM hir unit :=
  _ ← EndBlock T_PopRSBHint;
  f ← get_fn;
  _ ← upd_fn (set_blocks (replicate (Z.to_nat (MaxBlockCount f)) None));
  st_iter finish_block (seq 0 (length (block_list f))).

(** [IdByRPO]: every block refers to the value map of the function.  The root
    of [block_list], which the iteration meets when the lists were merged, is
    no block. *)
Definition renumber_one (cur : Z) (v : vptr) : stM hir Z :=
  x ← get_value v;
  match hv_value x with
  | Some d => _ ← on_insts (Inst_SetId d (u16 cur)); mret (u32 (cur + 1))
  | None => mret cur
  end.
Fixpoint renumber (cur : Z) (l : list vptr) : stM hir Z :=
  match l with
  | [] => mret cur
  | v :: l' => c ← renumber_one cur v; renumber c l'
  end.
Fixpoint renumber_blocks (cur : Z) (l : list IntrusiveList.nid) : stM hir Z :=
  match l with
  | [] => mret cur
  | n :: l' =>
      _ ← st_check (negb (bool_decide (n = block_list_root))) OutOfBounds;
      f ← get_fn; c ← renumber cur (values f); renumber_blocks c l'
  end.
Definition IdByRPO : stM hir unit :=
  f ← get_fn;
  '(l, _) ← st_lift (IntrusiveList.iterate blocks_rpo_root (block_nodes f));
  _ ← renumber_blocks 0 l;
  mret tt.

(** ** The builder *)

Record HIRBuilder := mkBuilder {
  b_insts : heap;
  hir_functions : list HIRFunction;
  current_location : Location;
  current_function : option nat;
  func_cap : Z;
}.

Definition HIRBuilder_init (func_cap : Z) : HIRBuilder := mkBuilder ∅ [] 0 None func_cap.

(** The chunk size that [HIRPools] gives to its arena. *)
Definition HIRPools_chunk (func_cap : Z) : Z := u32 (func_cap * 512).

(** Both list roots are linked to themselves. *)
Definition root_nodes : IntrusiveList.nodes :=
  <[block_list_root := IntrusiveList.node_init block_list_root]>
    {[blocks_rpo_root := IntrusiveList.node_init blocks_rpo_root]}.

Definition function_init (chunk : Z) (start end_ : Location) : HIRFunction :=
  mkFunction start end_ 0 0 0 [] [] [] [] [] root_nodes chunk None.

Definition AppendFunction (start end_ : Location) : stM HIRBuilder nat := λ s,
  match AppendBlock start 0 (mkHir (b_insts s) (function_init (HIRPools_chunk (func_cap s)) start end_)) with
  | Ok (_, s') =>
      let k := length (hir_functions s) in
      Ok (k, mkBuilder (insts s') (hir_functions s ++ [fn s']) (current_location s) (Some k) (func_cap s))
  | Err e => Err e
  end.

Definition SetLocation (l : Location) : stM HIRBuilder unit :=
  st_mod (λ s, mkBuilder (b_insts s) (hir_functions s) l (current_function s) (func_cap s)).

(** An operation on the current function, which must be set. *)
Definition with_current {A} (m : stM hir A) : stM HIRBuilder A := λ s,
  match current_function s with
  | None => Err AssertFailed
  | Some k =>
      match hir_functions s !! k with
      | None => Err NullDeref
      | Some f =>
          match m (mkHir (b_insts s) f) with
          | Ok (a, s') =>
              Ok (a, mkBuilder (insts s') (<[k := fn s']> (hir_functions s))
                       (current_location s) (Some k) (func_cap s))
          | Err e => Err e
          end
      end
  end.

Definition GetNextLocation (t : Terminal) : res Location :=
  match t with
  | T_LinkBlock next | T_LinkBlockFast next => Ok next
  | _ => Err AssertFailed
  end.

(** The successors that [If], [Switch] and [LinkBlock] append. *)
Definition If_body (t : Terminal) (then_t else_t : Terminal) : stM hir (bptr * bptr) :=
  f ← get_fn;
  let pre_block := current_block f in
  _ ← EndBlock t;
  else_ ← st_lift (GetNextLocation else_t);
  then_ ← st_lift (GetNextLocation then_t);
  else_block ← AppendBlock else_ 0;
  then_block ← AppendBlock then_ 0;
  _ ← AddEdge pre_block (Some then_block) true;
  _ ← AddEdge pre_block (Some else_block) true;
  mret (else_block, then_block).

Definition If (cond : Value) (then_t else_t : Terminal) : stM HIRBuilder (bptr * bptr) :=
  with_current (If_body (T_If cond then_t else_t) then_t else_t).

Fixpoint Switch_cases (pre_block : option bptr) (cases : list (Imm * Terminal))
    : stM hir (list (Imm * bptr)) :=
  match cases with
  | [] => mret []
  | (v, t) :: rest =>
      loc ← st_lift (GetNextLocation t);
      b ← AppendBlock loc 0;
      _ ← AddEdge pre_block (Some b) true;
      r ← Switch_cases pre_block rest;
      mret ((v, b) :: r)
  end.

Definition Switch_body (value : Value) (cases : list (Imm * Terminal))
    : stM hir (list (Imm * bptr)) :=
  f ← get_fn;
  let pre_block := current_block f in
  _ ← EndBlock (T_Switch value cases);
  Switch_cases pre_block cases.

Definition Switch (value : Value) (cases : list (Imm * Terminal))
    : stM HIRBuilder (list (Imm * bptr)) := with_current (Switch_body value cases).

Definition LinkBlock_body (next : Location) : stM hir bptr :=
  f ← get_fn;
  let pre_block := current_block f in
  _ ← EndBlock (T_LinkBlock next);
  b ← AppendBlock next 0;
  _ ← AddEdge pre_block (Some b) false;
  mret b.

Definition LinkBlock (next : Location) : stM HIRBuilder bptr :=
  with_current (LinkBlock_body next).

Definition Return : stM HIRBuilder unit :=
  _ ← with_current EndFunction;
  st_mod (λ s, mkBuilder (b_insts s) (hir_functions s) (current_location s) None (func_cap s)).
