(* ===== verification/HIRSpec.v ===== *)
(** * What the HIR builder guarantees

    The control-flow graph of a function under construction: block order,
    locations and edges, for every sequence of builder operations. *)

From S2P Require Import Prelude IntrusiveList IRTypes Inst InstSpec HIR.

(** ** The graph of a function *)

(** Of a block: its order id, location, outgoing and incoming edges. *)
Definition bview (b : HIRBlock) : Z * Location * list eptr * list eptr :=
  (order_id b, location (block b), outgoing_edges b, incoming_edges b).
Definition eview (e : Edge) : bptr * bptr := (src_block e, dest_block e).

(** Two functions with the same graph, block lists and arena, and the same
    current block. *)
Definition same_cfg (s s' : hir) : Prop :=
  bview <$> block_list (fn s') = bview <$> block_list (fn s) ∧
  eview <$> edges (fn s') = eview <$> edges (fn s) ∧
  block_order_id (fn s') = block_order_id (fn s) ∧
  block_nodes (fn s') = block_nodes (fn s) ∧ arena_chunk (fn s') = arena_chunk (fn s).
Definition same_hir (s s' : hir) : Prop :=
  same_cfg s s' ∧ current_block (fn s') = current_block (fn s).

#[export] Instance same_cfg_preorder : PreOrder same_cfg.
Proof.
  split; [by repeat split|]. intros s1 s2 s3 (?&?&?&?&?) (?&?&?&?&?). repeat split; congruence.
Qed.
#[export] Instance same_hir_preorder : PreOrder same_hir.
Proof.
  split; [by repeat split|]. intros s1 s2 s3 [??] [??]. split; [by etrans|congruence].
Qed.

Lemma tracks_on_insts {A} (m : stM heap A) : tracks same_hir (on_insts m).
Proof.
  intros s a s'. unfold on_insts. destruct (m (insts s)) as [[??]|]; [|done].
  by intros [= _ <-].
Qed.

Lemma tracks_get_fn : tracks same_hir get_fn.
Proof. unfold get_fn. eauto with tracks typeclass_instances. Qed.

Lemma tracks_upd_fn g :
  (∀ f, block_list (g f) = block_list f ∧ edges (g f) = edges f ∧
        block_order_id (g f) = block_order_id f ∧ current_block (g f) = current_block f ∧
        block_nodes (g f) = block_nodes f ∧ arena_chunk (g f) = arena_chunk f) →
  tracks same_hir (upd_fn g).
Proof.
  intros Hg s a s' [= _ <-]. destruct (Hg (fn s)) as (E1 & E2 & E3 & E4 & E5 & E6).
  unfold same_hir, same_cfg. simpl. by rewrite E1, E2, E3, E4, E5, E6.
Qed.

Lemma fn_lift_Ok {A} (g : HIRFunction → res A) s x s' :
  (f ← get_fn; st_lift (g f)) s = Ok (x, s') → g (fn s) = Ok x ∧ s' = s.
Proof. intros (f & s1 & [= <- <-] & H)%st_bind_Ok. by apply st_lift_Ok in H. Qed.

Lemma get_block_Ok b s x s' :
  get_block b s = Ok (x, s') → block_list (fn s) !! b = Some x ∧ s' = s.
Proof. intros [H ->]%fn_lift_Ok. by inv_ok. Qed.

Lemma upd_block_Ok b g s u s' :
  upd_block b g s = Ok (u, s') →
  ∃ x, block_list (fn s) !! b = Some x ∧
       s' = mkHir (insts s) (set_block_list (<[b := g x]> (block_list (fn s))) (fn s)).
Proof.
  unfold upd_block. intros (x & s1 & [Hx ->]%get_block_Ok & H)%st_bind_Ok.
  injection H as _ <-. eauto.
Qed.

Lemma get_edge_Ok e s x s' : get_edge e s = Ok (x, s') → edges (fn s) !! e = Some x ∧ s' = s.
Proof. intros [H ->]%fn_lift_Ok. by inv_ok. Qed.

Lemma tracks_get_block b : tracks same_hir (get_block b).
Proof. intros s x s' [_ ->]%get_block_Ok. reflexivity. Qed.

Lemma list_insert_view {A B} (v : A → B) (l : list A) k x y :
  l !! k = Some x → v y = v x → v <$> <[k := y]> l = v <$> l.
Proof. intros Hx E. rewrite list_fmap_insert, E. apply list_insert_id. by rewrite list_lookup_fmap, Hx. Qed.

Lemma tracks_upd_block b g : (∀ x, bview (g x) = bview x) → tracks same_hir (upd_block b g).
Proof.
  intros Hg s u s' (x & Hx & ->)%upd_block_Ok. repeat split; simpl.
  by eapply list_insert_view.
Qed.

Lemma tracks_upd_edge e g : (∀ x, eview (g x) = eview x) → tracks same_hir (upd_edge e g).
Proof.
  intros Hg s u s' H. unfold upd_edge in H.
  apply st_bind_Ok in H as (x & s1 & [Hx ->]%get_edge_Ok & H). injection H as _ <-.
  repeat split; simpl. by eapply list_insert_view.
Qed.

Lemma tracks_get_value v : tracks same_hir (get_value v).
Proof. unfold get_value. eauto using tracks_get_fn with tracks typeclass_instances. Qed.

Lemma tracks_upd_value v g : tracks same_hir (upd_value v g).
Proof. unfold upd_value. apply tracks_bind; [apply _|apply tracks_get_value|]. intros. by apply tracks_upd_fn. Qed.

#[export] Hint Resolve tracks_on_insts tracks_get_fn tracks_get_block tracks_get_value
  tracks_upd_value : tracks.

(** ** Appending instructions leaves the graph alone *)

Lemma tracks_create_value id i b : tracks same_hir (create_value id i b).
Proof.
  unfold create_value. repeat (apply tracks_bind; [apply _|auto with tracks typeclass_instances|intros]);
    auto 8 using tracks_upd_fn with tracks typeclass_instances.
Qed.

Lemma tracks_GetHIRValue v : tracks same_hir (GetHIRValue v).
Proof.
  unfold GetHIRValue. apply tracks_bind; [apply _|auto with tracks typeclass_instances|].
  intros s. destruct (values (fn s)); eauto 6 with tracks typeclass_instances.
Qed.

Lemma tracks_record_use i k : tracks same_hir (record_use i k).
Proof.
  unfold record_use. apply tracks_bind; [apply _|auto with tracks|]. intros arg.
  assert (∀ v, tracks same_hir (hv ← GetHIRValue v;
    match hv with Some w => HIRValue_Use w i (Z.of_nat k) | None => mret tt end)).
  { intros v. apply tracks_bind; [apply _|apply tracks_GetHIRValue|].
    intros []; unfold HIRValue_Use; auto with tracks typeclass_instances. }
  destruct arg as [| | | | | | |[]|]; auto with tracks typeclass_instances.
Qed.

Lemma tracks_AppendInst pe i : tracks same_hir (HIRFunction_AppendInst pe i).
Proof.
  unfold HIRFunction_AppendInst, HIRBlock_AppendInst.
  repeat match goal with
  | |- tracks _ (upd_fn _) => by apply tracks_upd_fn
  | |- tracks _ (upd_block _ _) => by apply tracks_upd_block
  | |- tracks _ (create_value _ _ _) => apply tracks_create_value
  | |- tracks _ (st_iter _ _) => apply tracks_iter; [apply _|intros; apply tracks_record_use]
  | |- tracks _ (_ ≫= _) => apply tracks_bind; [apply _| |intros]
  | |- tracks _ (if ?b then _ else _) => destruct b
  | |- tracks _ (match ?op with _ => _ end) => destruct op
  | |- _ => by auto with tracks typeclass_instances
  end.
Qed.

Lemma tracks_INST `{InstAllocator} pe op args : tracks same_hir (HIRFunction_INST pe op args).
Proof.
  unfold HIRFunction_INST, HIRFunction_AppendNew.
  repeat match goal with
  | |- tracks _ (HIRFunction_AppendInst _ _) => apply tracks_AppendInst
  | |- tracks _ (_ ≫= _) => apply tracks_bind; [apply _| |intros]
  | |- tracks _ (if ?b then _ else _) => destruct b
  | |- _ => by auto with tracks typeclass_instances
  end.
Qed.

(** ** Well-formed graphs *)

(** The positions of the edges that satisfy a test. *)
Definition edges_where (t : bptr * bptr → bool) (es : list (bptr * bptr)) : list eptr :=
  List.filter (λ i, match es !! i with Some e => t e | None => false end) (seq 0 (length es)).

Definition from (k : bptr) (e : bptr * bptr) : bool := bool_decide (e.1 = k).
Definition to (k : bptr) (e : bptr * bptr) : bool := bool_decide (e.2 = k).

(** The locations of the blocks. *)
Definition locs (f : HIRFunction) : list Location := (λ b, location (block b)) <$> block_list f.

(** Blocks are numbered by their creation (on 16 bits) and have distinct
    locations; a block lists exactly its edges, in their order; the endpoints
    of edges and the current block are blocks of the function.  The intrusive
    [block_list] links the blocks in their order, and [blocks_rpo] is empty. *)
Definition block_lists_ok (nd : IntrusiveList.nodes) (n : nat) : Prop :=
  IntrusiveList.ilist nd block_list_root (block_node <$> seq 0 n) ∧
  IntrusiveList.ilist nd blocks_rpo_root [].

Record wf_cfg (f : HIRFunction) : Prop := mkWf {
  wf_count : block_order_id f = u16 (Z.of_nat (length (block_list f)));
  wf_locations : NoDup (locs f);
  wf_blocks : ∀ k b, block_list f !! k = Some b →
    order_id b = u16 (Z.of_nat k) ∧
    outgoing_edges b = edges_where (from k) (eview <$> edges f) ∧
    incoming_edges b = edges_where (to k) (eview <$> edges f);
  wf_edges : ∀ e, e ∈ edges f →
    (src_block e < length (block_list f) ∧ dest_block e < length (block_list f))%nat;
  wf_current : ∀ b, current_block f = Some b → (b < length (block_list f))%nat;
  wf_lists : block_lists_ok (block_nodes f) (length (block_list f));
}.

Lemma edges_where_snoc t es e :
  edges_where t (es ++ [e]) = edges_where t es ++ if t e then [length es] else [].
Proof.
  unfold edges_where. rewrite length_app, seq_app, List.filter_app. simpl. f_equal.
  - apply List.filter_ext_in. intros i Hi%in_seq. rewrite lookup_app_l by lia. done.
  - rewrite lookup_app_r by lia. rewrite Nat.sub_diag. simpl. by destruct (t e).
Qed.

Lemma bview_lookup (l l' : list HIRBlock) k b :
  bview <$> l' = bview <$> l → l' !! k = Some b → ∃ b', l !! k = Some b' ∧ bview b = bview b'.
Proof.
  intros E Hk. assert (Hv : (bview <$> l') !! k = Some (bview b)) by (by rewrite list_lookup_fmap, Hk).
  rewrite E, list_lookup_fmap in Hv. destruct (l !! k) as [b'|]; [|done].
  exists b'. simpl in Hv. split; [done|congruence].
Qed.

Lemma same_length {A B} (v : A → B) (l l' : list A) : v <$> l' = v <$> l → length l' = length l.
Proof. intros E%(f_equal length). by rewrite !length_fmap in E. Qed.

Lemma same_locs s s' : same_cfg s s' → locs (fn s') = locs (fn s).
Proof.
  intros (Eb & _). unfold locs.
  assert (∀ l, (λ b, location (block b)) <$> l =
    (λ v : Z * Location * list eptr * list eptr, v.1.1.2) <$> (bview <$> l)) as E
    by (intros l; by rewrite <- list_fmap_compose).
  by rewrite !E, Eb.
Qed.

Lemma wf_same s s' :
  same_cfg s s' → (∀ b, current_block (fn s') = Some b → (b < length (block_list (fn s)))%nat) →
  wf_cfg (fn s) → wf_cfg (fn s').
Proof.
  intros Hs Hc [W1 W2 W3 W4 _ W6]. pose proof Hs as (Eb & Ee & En & Ed & _).
  pose proof (same_length _ _ _ Eb) as El. split.
  - by rewrite En, El.
  - by rewrite (same_locs _ _ Hs).
  - intros k b Hk. destruct (bview_lookup _ _ _ _ Eb Hk) as (b' & Hk' & Ev).
    destruct (W3 _ _ Hk') as (?&?&?). unfold bview in Ev. injection Ev as -> _ -> ->. by rewrite Ee.
  - intros e He. rewrite El. apply (list_elem_of_fmap_2 eview) in He. rewrite Ee in He.
    apply list_elem_of_fmap in He as (e' & E & He'). unfold eview in E. injection E as -> ->. by apply W4.
  - intros b Hb. rewrite El. by apply Hc.
  - by rewrite El, Ed.
Qed.

Lemma wf_same_hir s s' : same_hir s s' → wf_cfg (fn s) → wf_cfg (fn s').
Proof. intros [Hs Hc] Hw. eapply wf_same; [done| |done]. rewrite Hc. apply Hw. Qed.

(** ** Blocks *)

Lemma find_block_Some loc l k b :
  find_block loc l k = Some b →
  ∃ i x, b = (k + i)%nat ∧ l !! i = Some x ∧ location (block x) = loc.
Proof.
  revert k. induction l as [|y l IH]; intros k; simpl; [done|].
  destruct (Location_eqb _ _) eqn:E.
  - intros [= <-]. exists 0%nat, y. split; [lia|]. split; [done|]. by apply Z.eqb_eq in E.
  - intros (i & x & -> & ? & ?)%IH. exists (S i), x. split; [lia|done].
Qed.

Lemma find_block_None loc l k :
  find_block loc l k = None → loc ∉ (λ b, location (block b)) <$> l.
Proof.
  revert k. induction l as [|y l IH]; intros k; simpl; [set_solver|].
  destruct (Location_eqb _ _) eqn:E; [done|]. apply Z.eqb_neq in E.
  intros H%IH. rewrite not_elem_of_cons. split; [by intros ->|done].
Qed.

(** The function with one more block. *)
Definition grown (f : HIRFunction) (nd : IntrusiveList.nodes) (loc : Location) : HIRFunction :=
  push_block (u16 (block_order_id f + 1)) nd (HIRBlock_init loc (block_order_id f)) f.

Lemma block_nodes_elem n x : x ∈ block_node <$> seq 0 n → (2 ≤ x < S (S n))%nat.
Proof. intros (b & -> & [_ Hb]%elem_of_seq)%list_elem_of_fmap. unfold block_node. lia. Qed.

(** A list does not see the links of nodes that are not in it. *)
Lemma ilist_frame h h' r l :
  (∀ y, y ∈ r :: l → IntrusiveList.prv h' y = IntrusiveList.prv h y ∧
                     IntrusiveList.nx h' y = IntrusiveList.nx h y) →
  IntrusiveList.ilist h r l → IntrusiveList.ilist h' r l.
Proof.
  intros He [Hp Hnd]. split; [|done]. rewrite app_comm_cons in Hp |- *.
  eapply IntrusiveList.path_ext; [done| |]; intros y Hy; apply He; [done|]. simpl in Hy. set_solver.
Qed.

(** A new block is linked behind the others. *)
Lemma link_block_run nd n :
  block_lists_ok nd n → ∃ nd', link_block n nd = Ok nd' ∧ block_lists_ok nd' (S n).
Proof.
  intros [Hl Hr]. set (k := block_node n). set (h := <[k := IntrusiveList.node_init k]> nd).
  assert (Hfr : ∀ y, y ≠ k → IntrusiveList.prv h y = IntrusiveList.prv nd y ∧
    IntrusiveList.nx h y = IntrusiveList.nx nd y).
  { intros y Hy. unfold IntrusiveList.prv, IntrusiveList.nx, h. by rewrite lookup_insert_ne. }
  assert (Hk : k ∉ block_list_root :: (block_node <$> seq 0 n)).
  { intros [?|Hk%block_nodes_elem]%elem_of_cons; [done|]. unfold k, block_node in Hk. lia. }
  destruct (IntrusiveList.push_back_run true h block_list_root (block_node <$> seq 0 n) k)
    as (nd' & Hp & Hi & Ho).
  - eapply ilist_frame; [|done]. intros y Hy. apply Hfr. by intros ->.
  - unfold IntrusiveList.unlinked, IntrusiveList.prv, IntrusiveList.nx, h. by rewrite lookup_insert_eq.
  - done.
  - exists nd'. split; [unfold link_block; fold k; fold h; by rewrite Hp|]. split.
    + by rewrite seq_S, fmap_app.
    + eapply ilist_frame; [|done]. intros y ->%list_elem_of_singleton.
      destruct (Ho blocks_rpo_root) as [-> ->]; [|by apply Hfr].
      rewrite !not_elem_of_cons. split_and!; [done..|]. intros Hy%block_nodes_elem.
      unfold blocks_rpo_root in Hy. lia.
Qed.

Lemma edges_where_none t es : (∀ e, e ∈ es → t e = false) → edges_where t es = [].
Proof.
  intros Ht. unfold edges_where. rewrite <- (List.filter_false (seq 0 (length es))).
  apply List.filter_ext. intros i. destruct (es !! i) eqn:E; [|done].
  apply Ht. by eapply list_elem_of_lookup_2.
Qed.

Lemma wf_grown f nd loc :
  wf_cfg f → loc ∉ locs f → block_lists_ok nd (S (length (block_list f))) →
  wf_cfg (grown f nd loc).
Proof.
  intros [W1 W2 W3 W4 W5 _] Hl Hnd. split; simpl.
  - rewrite W1, length_app, wrap_add_l. f_equal. simpl. lia.
  - unfold locs. simpl. rewrite fmap_app. apply NoDup_app. split_and!; [done|set_solver|apply NoDup_singleton].
  - intros k b. rewrite lookup_app. destruct (block_list f !! k) as [x|] eqn:Hk.
    + intros [= <-]. by apply W3.
    + intros Hb. apply lookup_ge_None in Hk. apply list_lookup_singleton_Some in Hb as [Hk' <-].
      assert (k = length (block_list f)) as -> by lia. simpl. rewrite W1.
      split; [done|]. split; symmetry; apply edges_where_none;
        intros e (e' & -> & He)%list_elem_of_fmap; apply W4 in He as [??];
        unfold from, to; apply bool_decide_eq_false; simpl; lia.
  - intros e He. rewrite length_app. specialize (W4 e He). simpl. lia.
  - intros b Hb. rewrite length_app. specialize (W5 b Hb). simpl. lia.
  - by rewrite length_app, Nat.add_comm.
Qed.

(** [CreateOrGetBlock] never fails: it gives the block at the location when
    there is one, else appends one. *)
Lemma CreateOrGetBlock_run s loc :
  wf_cfg (fn s) →
  ∃ b x s', CreateOrGetBlock loc s = Ok (b, s') ∧ block_list (fn s') !! b = Some x ∧
    location (block x) = loc ∧ wf_cfg (fn s') ∧ insts s' = insts s ∧
    current_block (fn s') = current_block (fn s) ∧
    edges (fn s') = edges (fn s) ∧ block_list (fn s) `prefix_of` block_list (fn s') ∧
    (loc ∈ locs (fn s) → s' = s).
Proof.
  intros Hw. unfold CreateOrGetBlock. erewrite st_bind_run by done.
  destruct (find_block loc (block_list (fn s)) 0) as [b|] eqn:E.
  - apply find_block_Some in E as (i & x & -> & Hx & Hl).
    by exists i, x, s.
  - apply find_block_None in E. destruct (link_block_run _ _ (wf_lists _ Hw)) as (nd & Hn & Hnd).
    eexists (length (block_list (fn s))), _, _.
    split; [by erewrite st_bind_run by (unfold st_lift; by rewrite Hn)|]. simpl. split; [by rewrite lookup_app_r, Nat.sub_diag by lia|].
    split; [done|]. split; [by apply wf_grown|]. split_and!; [done..|by eexists|done].
Qed.

Lemma upd_block_run b g s x :
  block_list (fn s) !! b = Some x →
  upd_block b g s =
    Ok (tt, mkHir (insts s) (set_block_list (<[b := g x]> (block_list (fn s))) (fn s))).
Proof.
  intros Hx. unfold upd_block, get_block, get_fn, mbind, st_bind, st_get, mret, st_ret. simpl.
  unfold st_lift. by rewrite Hx.
Qed.

(** Changing what the graph does not see. *)
Lemma upd_block_same b g s x :
  block_list (fn s) !! b = Some x → (∀ x, bview (g x) = bview x) →
  same_hir s (mkHir (insts s) (set_block_list (<[b := g x]> (block_list (fn s))) (fn s))).
Proof. intros Hx Hg. repeat split; simpl. by eapply list_insert_view. Qed.

Lemma AppendBlock_run s start end_ :
  wf_cfg (fn s) →
  ∃ b x s', AppendBlock start end_ s = Ok (b, s') ∧ block_list (fn s') !! b = Some x ∧
    location (block x) = start ∧ wf_cfg (fn s') ∧ current_block (fn s') = Some b ∧
    insts s' = insts s ∧ edges (fn s') = edges (fn s) ∧
    (bview <$> block_list (fn s)) `prefix_of` (bview <$> block_list (fn s')).
Proof.
  intros Hw. destruct (CreateOrGetBlock_run s start Hw)
    as (b & x & s1 & Hr & Hx & Hl & Hw1 & Hi & Hc & He & [k Hp] & _).
  eexists b, _, _. split.
  { unfold AppendBlock. erewrite st_bind_run by exact Hr.
    erewrite st_bind_run by (by apply upd_block_run). done. }
  simpl. pose proof (lookup_lt_Some _ _ _ Hx).
  split; [by apply list_lookup_insert_eq|]. split; [done|].
  pose proof (upd_block_same b (on_block (Block_SetEndLocation end_)) s1 x Hx ltac:(done)) as [Hs _].
  split_and!; [|done..|].
  - apply (wf_same s1 (mkHir (insts s1) (set_current_block (Some b) (set_block_list _ (fn s1)))));
      [exact Hs| |done]. by intros ? [= <-].
  - destruct Hs as [Hs _]. simpl in Hs. rewrite Hs, Hp, fmap_app. by eexists.
Qed.

(** ** Edges *)

(** The function with one more edge. *)
Definition linked (f : HIRFunction) (src dest : bptr) (fl : Z) : HIRFunction :=
  let e := length (edges f) in
  set_block_list
    (alter (AddIncomingEdge e) dest (alter (AddOutgoingEdge e) src (block_list f)))
    (set_edges (edges f ++ [mkEdge src dest fl]) f).

Lemma insert_alter {A} (l : list A) k g x : l !! k = Some x → <[k := g x]> l = alter g k l.
Proof. revert k. induction l; intros [|k] H; simplify_eq/=; f_equal; auto. Qed.

Lemma alter_lookup {A} (g : A → A) (l : list A) i k :
  alter g i l !! k = (if decide (i = k) then g else id) <$> l !! k.
Proof. rewrite list_lookup_alter. case_decide; [by subst|by destruct (l !! k)]. Qed.

Lemma linked_block f src dest fl k b :
  block_list (linked f src dest fl) !! k = Some b →
  ∃ x, block_list f !! k = Some x ∧ order_id b = order_id x ∧ block b = block x ∧
    outgoing_edges b = outgoing_edges x ++ (if decide (src = k) then [length (edges f)] else []) ∧
    incoming_edges b = incoming_edges x ++ (if decide (dest = k) then [length (edges f)] else []).
Proof.
  simpl. rewrite !alter_lookup. destruct (block_list f !! k) as [x|]; intros Hb; [|done].
  exists x. split; [done|]. repeat case_decide; simplify_eq/=; by rewrite ?app_nil_r.
Qed.

Lemma linked_length f src dest fl :
  length (block_list (linked f src dest fl)) = length (block_list f).
Proof. simpl. by rewrite !length_alter. Qed.

Lemma alter_view {A B} (v : A → B) g k (l : list A) :
  (∀ x, v (g x) = v x) → v <$> alter g k l = v <$> l.
Proof.
  intros Hg. revert k. induction l as [|a l IH]; intros [|k]; [done..| |]; csimpl.
  - by rewrite Hg.
  - by rewrite IH.
Qed.

Lemma linked_locs f src dest fl : locs (linked f src dest fl) = locs f.
Proof. unfold locs. simpl. by rewrite !alter_view. Qed.

Lemma wf_linked f src dest fl :
  wf_cfg f → (src < length (block_list f))%nat → (dest < length (block_list f))%nat →
  wf_cfg (linked f src dest fl).
Proof.
  intros [W1 W2 W3 W4 W5 W6] Hs Hd. split.
  - by rewrite linked_length.
  - by rewrite linked_locs.
  - intros k b (x & Hx & -> & _ & -> & ->)%linked_block. destruct (W3 _ _ Hx) as (? & -> & ->).
    split; [done|]. simpl. rewrite fmap_app. simpl. rewrite !edges_where_snoc, length_fmap.
    unfold from at 3, to at 3. simpl. by repeat case_decide; repeat case_bool_decide.
  - intros e. rewrite linked_length. simpl.
    rewrite elem_of_app, list_elem_of_singleton. intros [He| ->]; [by apply W4|done].
  - intros b. rewrite linked_length. apply W5.
  - by rewrite linked_length.
Qed.

Lemma clear_all_run l s :
  (∀ i, i ∈ l → (i < length (edges (fn s)))%nat) →
  ∃ s', st_iter (λ i, upd_edge i clear_dominates) l s = Ok (tt, s') ∧
        insts s' = insts s ∧ current_block (fn s') = current_block (fn s).
Proof.
  revert s. induction l as [|i l IH]; intros s Hl; [by exists s|].
  destruct (lookup_lt_is_Some_2 (edges (fn s)) i) as [e He]; [apply Hl; by left|].
  destruct (IH (mkHir (insts s) (set_edges (<[i := clear_dominates e]> (edges (fn s))) (fn s))))
    as (s' & Hr & ? & ?).
  { intros j Hj. simpl. rewrite length_insert. apply Hl. by right. }
  exists s'. split; [|done]. simpl. erewrite st_bind_run; [exact Hr|].
  unfold upd_edge, get_edge, get_fn, mbind, st_bind, st_get, mret, st_ret, st_lift. simpl.
  by rewrite He.
Qed.

Lemma edges_where_lt t es i : i ∈ edges_where t es → (i < length es)%nat.
Proof. unfold edges_where. intros Hi%list_elem_of_In%List.filter_In. destruct Hi as [Hi%in_seq _]. lia. Qed.

Lemma tracks_clear_all l : tracks same_hir (st_iter (λ i, upd_edge i clear_dominates) l).
Proof. apply tracks_iter; [apply _|]. intros i. by apply tracks_upd_edge. Qed.

(** The three writes that link an edge. *)
Lemma link_edge_run {A} (k : stM hir A) s src dest fl :
  (src < length (block_list (fn s)))%nat → (dest < length (block_list (fn s)))%nat →
  (_ ← upd_fn (set_edges (edges (fn s) ++ [mkEdge src dest fl]));
   _ ← upd_block src (AddOutgoingEdge (length (edges (fn s))));
   _ ← upd_block dest (AddIncomingEdge (length (edges (fn s)))); k) s =
  k (mkHir (insts s) (linked (fn s) src dest fl)).
Proof.
  intros Hs Hd. destruct (lookup_lt_is_Some_2 _ _ Hs) as [x Hsl].
  erewrite st_bind_run by done. erewrite st_bind_run by (by apply upd_block_run). simpl.
  rewrite (insert_alter _ _ (AddOutgoingEdge _) _ Hsl).
  destruct (lookup_lt_is_Some_2 (alter (AddOutgoingEdge (length (edges (fn s)))) src
    (block_list (fn s))) dest) as [y Hy]; [by rewrite length_alter|].
  erewrite st_bind_run by (by apply upd_block_run). simpl. by rewrite (insert_alter _ _ _ _ Hy).
Qed.

Lemma get_block_run b s x : block_list (fn s) !! b = Some x → get_block b s = Ok (x, s).
Proof. intros E. unfold get_block. erewrite st_bind_run by done. unfold st_lift. by rewrite E. Qed.

Lemma AddEdge_run s src dest c :
  wf_cfg (fn s) → (src < length (block_list (fn s)))%nat →
  (dest < length (block_list (fn s)))%nat →
  ∃ s', AddEdge (Some src) (Some dest) c s = Ok (tt, s') ∧ wf_cfg (fn s') ∧
    eview <$> edges (fn s') = (eview <$> edges (fn s)) ++ [(src, dest)] ∧
    locs (fn s') = locs (fn s) ∧
    insts s' = insts s ∧ current_block (fn s') = current_block (fn s).
Proof.
  intros Hw Hs Hd. set (fl := if c then Z.lor 0 Edge_CONDITIONAL else 0).
  destruct (lookup_lt_is_Some_2 _ _ Hd) as [d Hdl].
  set (s1 := mkHir (insts s) (linked (fn s) src dest fl)).
  assert (Hw1 : wf_cfg (fn s1)) by (by apply wf_linked).
  unfold AddEdge. do 2 (erewrite st_bind_run by done).
  erewrite st_bind_run by (by apply get_block_run). erewrite st_bind_run by done. fold fl.
  rewrite link_edge_run by done. fold s1.
  assert (E1 : eview <$> edges (fn s1) = (eview <$> edges (fn s)) ++ [(src, dest)])
    by (simpl; by rewrite fmap_app).
  destruct (HasIncomingEdges d).
  2: { exists s1. split_and!; [done..| |done|done]. apply linked_locs. }
  destruct (lookup_lt_is_Some_2 (block_list (fn s1)) dest) as [y Hy];
    [unfold s1; simpl fn; by rewrite linked_length|].
  erewrite st_bind_run by (by apply get_block_run).
  destruct (clear_all_run (incoming_edges y) s1) as (s2 & Hr & Hi & Hc).
  { destruct (wf_blocks _ Hw1 _ _ Hy) as (_ & _ & ->). intros i Hi%edges_where_lt.
    by rewrite length_fmap in Hi. }
  exists s2. pose proof (tracks_clear_all _ _ _ _ Hr) as Ht. pose proof Ht as [(Hb & He & _) _].
  split_and!; [done|by eapply wf_same_hir| | |by rewrite Hi|by rewrite Hc].
  - by rewrite He.
  - rewrite (same_locs s1 s2) by apply Ht. apply linked_locs.
Qed.

(** ** Ending a block *)

Lemma EndBlock_run s t b :
  wf_cfg (fn s) → current_block (fn s) = Some b →
  ∃ s', EndBlock t s = Ok (tt, s') ∧ wf_cfg (fn s') ∧ same_cfg s s' ∧
    insts s' = insts s ∧ current_block (fn s') = None.
Proof.
  intros Hw Hc. destruct (lookup_lt_is_Some_2 _ _ (wf_current _ Hw _ Hc)) as [x Hx].
  eexists. split.
  { unfold EndBlock. erewrite st_bind_run by done.
    erewrite st_bind_run by (unfold st_lift; by rewrite Hc).
    erewrite st_bind_run by (by apply upd_block_run). done. }
  destruct (upd_block_same b (on_block (Block_SetTerminal t)) s x Hx ltac:(done)) as [Hs _].
  split_and!; [|exact Hs|done|done].
  apply (wf_same s (mkHir (insts s) (set_current_block None (set_block_list _ (fn s)))));
    [exact Hs|done|done].
Qed.

(** ** Finishing a function *)

(** The targets of the edges of a block, and the sources of the edges to it. *)
Definition succ_of (es : list (bptr * bptr)) (k : bptr) : list bptr := snd <$> List.filter (from k) es.
Definition pred_of (es : list (bptr * bptr)) (k : bptr) : list bptr := fst <$> List.filter (to k) es.

Lemma mapM_total {A B} (f : A → res B) (g : A → B) l :
  (∀ x, x ∈ l → f x = Ok (g x)) → mapM f l = Ok (g <$> l).
Proof.
  induction l as [|x l IH]; intros Hf; [done|].
  change (mapM f (x :: l)) with (y ← f x; k ← mapM f l; mret (y :: k)).
  rewrite Hf by (by left). rewrite IH; [done|]. intros y Hy. apply Hf. by right.
Qed.

Lemma edges_where_proj (p : bptr * bptr → bptr) t es d :
  (λ i, p (default d (es !! i))) <$> edges_where t es = p <$> List.filter t es.
Proof.
  induction es as [|e es IH] using rev_ind; [done|].
  rewrite edges_where_snoc, List.filter_app, !fmap_app. f_equal.
  - rewrite <- IH. apply list_fmap_ext. intros k i Hi%list_elem_of_lookup_2%edges_where_lt.
    by rewrite lookup_app_l.
  - simpl. destruct (t e); [|done]. csimpl. by rewrite lookup_app_r, Nat.sub_diag by lia.
Qed.

Lemma edge_targets (p : Edge → bptr) (q : bptr * bptr → bptr) t es :
  (∀ e, p e = q (eview e)) →
  mapM (λ e, of_option NullDeref (p <$> es !! e)) (edges_where t (eview <$> es)) =
    Ok (q <$> List.filter t (eview <$> es)).
Proof.
  intros Hp. rewrite <- (edges_where_proj q t _ (0, 0)%nat). apply mapM_total.
  intros i Hi%edges_where_lt. rewrite length_fmap in Hi.
  destruct (lookup_lt_is_Some_2 _ _ Hi) as [e He]. rewrite list_lookup_fmap, He. simpl.
  by rewrite Hp.
Qed.

(** The vector of a list of edges that ends inside the chunk is filled. *)
Lemma vector_write_run chunk (l : list bptr) b (r : list (option bptr)) :
  8 * (Z.of_nat (length l) + 1) ≤ chunk →
  vector_write chunk ((Some <$> l) ++ None :: r) (Z.of_nat (length l)) b = Ok ((Some <$> l ++ [b]) ++ r).
Proof.
  intros Hc. unfold vector_write. rewrite bool_decide_true, (proj2 (Z.leb_le _ _) Hc)
    by (rewrite length_app, length_fmap; simpl; lia).
  simpl. rewrite Nat2Z.id, insert_app_r_alt, length_fmap, Nat.sub_diag by (by rewrite length_fmap).
  by rewrite fmap_app, <- app_assoc.
Qed.

Lemma fill_vector_run chunk p es l t pre :
  mapM (λ e, of_option NullDeref (p <$> es !! e)) l = Ok t →
  Z.of_nat (length pre + length l) ≤ 2 ^ 16 →
  fill_vector chunk p es l (u16 (Z.of_nat (length pre))) ((Some <$> pre) ++ replicate (length l) None) =
    if decide (l ≠ [] ∧ chunk < 8 * Z.of_nat (length pre + length l)) then Err OutOfBounds
    else Ok (Some <$> pre ++ t).
Proof.
  revert pre t. induction l as [|e l IH]; intros pre t Hm Hl.
  { injection Hm as <-. rewrite decide_False by tauto. simpl. by rewrite !app_nil_r. }
  change (mapM _ (e :: l)) with
    (y ← of_option NullDeref (p <$> es !! e); k ← mapM (λ e, of_option NullDeref (p <$> es !! e)) l;
     mret (y :: k) : res (list bptr)) in Hm.
  simpl. destruct (es !! e) as [x|]; [|done]. simpl in Hm |- *.
  destruct (mapM _ l) as [t'|] eqn:Ht; [|done]. injection Hm as <-. simpl in Hl.
  rewrite (wrap_small 16 (Z.of_nat (length pre))) by (split; lia).
  destruct (decide (8 * (Z.of_nat (length pre) + 1) ≤ chunk)) as [Hc|Hc].
  - rewrite vector_write_run by done. simpl.
    replace (Z.of_nat (length pre) + 1) with (Z.of_nat (length (pre ++ [p x])))
      by (rewrite length_app; simpl; lia).
    rewrite (IH _ t') by (rewrite ?length_app; simpl; auto; lia).
    rewrite <- app_assoc. simpl app. apply decide_ext. rewrite length_app.
    change (length [p x]) with 1%nat. rewrite Nat2Z.inj_add. simpl length in *.
    destruct l as [|e' l]; [|split; (intros [_ ?]; split; [done|lia])].
    split; [by intros [? _]|]. intros [_ ?]. simpl in *. lia.
  - unfold vector_write. rewrite (proj2 (Z.leb_gt _ _)), andb_false_r by lia. simpl.
    rewrite decide_True; [done|]. split; [done|lia].
Qed.

(** A block and its vectors inside the chunk, and edge counts within the
    16-bit indices. *)
Definition block_fits (chunk : Z) (k : bptr) (x : HIRBlock) : Prop :=
  8 * (Z.of_nat k + 1) ≤ chunk ∧ 8 * Z.of_nat (length (incoming_edges x)) ≤ chunk ∧
  8 * Z.of_nat (length (outgoing_edges x)) ≤ chunk.
#[export] Instance block_fits_dec chunk k x : Decision (block_fits chunk k x).
Proof. unfold block_fits. apply _. Defined.

Definition degree_ok (x : HIRBlock) : Prop :=
  Z.of_nat (length (incoming_edges x)) ≤ 2 ^ 16 ∧ Z.of_nat (length (outgoing_edges x)) ≤ 2 ^ 16.

Definition set_both (f : HIRFunction) (k : bptr) (x : HIRBlock) : HIRFunction :=
  let es := eview <$> edges f in
  set_block_list (<[k := set_vectors (Some <$> pred_of es k) (Some <$> succ_of es k) x]> (block_list f))
    (set_blocks (<[k := Some k]> (blocks f)) f).

Lemma finish_block_run s k x :
  wf_cfg (fn s) → block_list (fn s) !! k = Some x → Z.of_nat k < 2 ^ 16 →
  (k < length (blocks (fn s)))%nat → degree_ok x →
  finish_block k s = if decide (block_fits (arena_chunk (fn s)) k x)
    then Ok (tt, mkHir (insts s) (set_both (fn s) k x)) else Err OutOfBounds.
Proof.
  intros Hw Hx Hk Hb [Hi16 Ho16]. destruct (wf_blocks _ Hw _ _ Hx) as (Ho & Hout & Hin).
  rewrite wrap_small in Ho by (split; lia).
  pose proof (edge_targets src_block fst (to k) (edges (fn s)) ltac:(done)) as Tin.
  pose proof (edge_targets dest_block snd (from k) (edges (fn s)) ltac:(done)) as Tout.
  rewrite <- Hin in Tin. rewrite <- Hout in Tout. unfold block_fits.
  pose proof (fill_vector_run (arena_chunk (fn s)) _ _ _ _ [] Tin ltac:(simpl; lia)) as Fin.
  pose proof (fill_vector_run (arena_chunk (fn s)) _ _ _ _ [] Tout ltac:(simpl; lia)) as Fout.
  change (u16 (Z.of_nat (length []))) with 0 in Fin, Fout. simpl in Fin, Fout.
  unfold finish_block. erewrite st_bind_run by (by apply get_block_run).
  erewrite st_bind_run by done. rewrite Ho.
  destruct (decide (8 * (Z.of_nat k + 1) ≤ arena_chunk (fn s))) as [Hc|Hc].
  2: { rewrite decide_False by tauto. apply st_bind_err. unfold st_lift, vector_write.
       by rewrite (proj2 (Z.leb_gt _ _)), andb_false_r by lia. }
  erewrite st_bind_run.
  2: { unfold st_lift, vector_write. rewrite bool_decide_true, (proj2 (Z.leb_le _ _) Hc) by lia.
       simpl. rewrite Nat2Z.id. done. }
  erewrite st_bind_run by done.
  destruct (decide (8 * Z.of_nat (length (incoming_edges x)) ≤ arena_chunk (fn s))) as [Hci|Hci].
  2: { rewrite decide_False by tauto. apply st_bind_err. unfold st_lift. rewrite Fin, decide_True; [done|].
       split; [by intros E; rewrite E in Hci; simpl in Hci; lia|lia]. }
  rewrite decide_False in Fin by lia. erewrite st_bind_run by (unfold st_lift; by rewrite Fin).
  destruct (decide (8 * Z.of_nat (length (outgoing_edges x)) ≤ arena_chunk (fn s))) as [Hco|Hco].
  2: { rewrite decide_False by tauto. apply st_bind_err. unfold st_lift. rewrite Fout, decide_True; [done|].
       split; [by intros E; rewrite E in Hco; simpl in Hco; lia|lia]. }
  rewrite decide_False in Fout by lia. erewrite st_bind_run by (unfold st_lift; by rewrite Fout).
  rewrite decide_True by done. by erewrite upd_block_run by done.
Qed.

(** What the loop has established for the blocks below [k]. *)
Definition finished (s0 s : hir) (k : nat) : Prop :=
  same_cfg s0 s ∧ insts s = insts s0 ∧ current_block (fn s) = current_block (fn s0) ∧
  blocks (fn s) = (Some <$> seq 0 k) ++ replicate (length (block_list (fn s0)) - k) None ∧
  ∀ j x, (j < k)%nat → block_list (fn s) !! j = Some x →
    successors x = Some <$> succ_of (eview <$> edges (fn s0)) j ∧
    predecessors x = Some <$> pred_of (eview <$> edges (fn s0)) j.

Lemma finish_step s0 s k x :
  wf_cfg (fn s0) → Z.of_nat (length (block_list (fn s0))) < 2 ^ 16 →
  finished s0 s k → block_list (fn s) !! k = Some x → degree_ok x →
  if decide (block_fits (arena_chunk (fn s0)) k x) then
    finish_block k s = Ok (tt, mkHir (insts s) (set_both (fn s) k x)) ∧
    finished s0 (mkHir (insts s) (set_both (fn s) k x)) (S k)
  else finish_block k s = Err OutOfBounds.
Proof.
  intros Hw Hn (Hs & Hi & Hc & Hb & Hv) Hx Hdeg. pose proof Hs as (Eb & Ee & En & _ & Ec).
  pose proof (same_length _ _ _ Eb) as El. pose proof (lookup_lt_Some _ _ _ Hx) as Hk.
  assert (Hws : wf_cfg (fn s)) by (eapply wf_same; [done| |done]; rewrite Hc; apply Hw).
  assert (Hrun := finish_block_run s k x Hws Hx ltac:(lia)).
  rewrite Hb, length_app, length_fmap, length_seq, length_replicate, Ec in Hrun.
  specialize (Hrun ltac:(lia) Hdeg). case_decide; [|done]. split; [done|].
  split_and!; [|done|done| |].
  - etrans; [exact Hs|]. split_and!; try done. simpl. by eapply list_insert_view.
  - change (<[k := Some k]> (blocks (fn s)) =
      (Some <$> seq 0 (S k)) ++ replicate (length (block_list (fn s0)) - S k) None).
    rewrite Hb, seq_S, fmap_app, insert_app_r_alt, length_fmap, length_seq, Nat.sub_diag
      by (rewrite length_fmap, length_seq; lia).
    destruct (length (block_list (fn s0)) - k)%nat as [|m] eqn:Em; [lia|]. simpl.
    replace (length (block_list (fn s0)) - S k)%nat with m by lia. by rewrite <- app_assoc.
  - intros j y Hj. simpl. destruct (decide (j = k)) as [->|Hjk].
    + rewrite list_lookup_insert_eq by done. intros [= <-]. simpl. by rewrite Ee.
    + rewrite list_lookup_insert_ne by done. apply Hv. lia.
Qed.

(** The edge lists of the blocks are those the loop started with. *)
Lemma same_fits s s' chunk k x :
  same_cfg s s' → block_list (fn s') !! k = Some x →
  ∃ y, block_list (fn s) !! k = Some y ∧ (degree_ok y → degree_ok x) ∧
    (block_fits chunk k x ↔ block_fits chunk k y).
Proof.
  intros (Eb & _) Hx. destruct (bview_lookup _ _ _ _ Eb Hx) as (y & Hy & E).
  exists y. unfold bview in E. injection E as _ _ Eo Ei. unfold degree_ok, block_fits.
  by rewrite Eo, Ei.
Qed.

(** The loop ends with all vectors filled, or stops at a block that does not
    fit. *)
Lemma finish_loop s0 s k m :
  wf_cfg (fn s0) → Z.of_nat (length (block_list (fn s0))) < 2 ^ 16 →
  (∀ j x, block_list (fn s0) !! j = Some x → degree_ok x) →
  (k + m = length (block_list (fn s0)))%nat → finished s0 s k →
  (∀ j x, (j < k)%nat → block_list (fn s0) !! j = Some x → block_fits (arena_chunk (fn s0)) j x) →
  (∃ s', st_iter finish_block (seq k m) s = Ok (tt, s') ∧ finished s0 s' (k + m) ∧
     ∀ j x, block_list (fn s0) !! j = Some x → block_fits (arena_chunk (fn s0)) j x) ∨
  (st_iter finish_block (seq k m) s = Err OutOfBounds ∧
     ∃ j x, block_list (fn s0) !! j = Some x ∧ ¬ block_fits (arena_chunk (fn s0)) j x).
Proof.
  intros Hw Hn Hdeg. revert k s. induction m as [|m IH]; intros k s Hk Hf Hfit.
  - left. exists s. rewrite Nat.add_0_r in *. split_and!; [done..|]. intros j x Hj.
    apply Hfit; [|done]. apply lookup_lt_Some in Hj. lia.
  - pose proof Hf as (Hs & _). pose proof Hs as (Eb & _). pose proof (same_length _ _ _ Eb) as El.
    destruct (lookup_lt_is_Some_2 (block_list (fn s)) k) as [x Hx]; [lia|].
    destruct (same_fits _ _ (arena_chunk (fn s0)) _ _ Hs Hx) as (y & Hy & Hdy & Hxy).
    pose proof (finish_step s0 s k x Hw Hn Hf Hx (Hdy (Hdeg _ _ Hy))) as Hstep.
    simpl. case_decide as Hc.
    + destruct Hstep as [Hr Hf']. replace (k + S m)%nat with (S k + m)%nat by lia.
      rewrite (st_bind_run _ _ _ _ _ Hr). apply IH; [lia|done|].
      intros j z Hj Hz. destruct (decide (j = k)) as [->|]; [|apply Hfit; [lia|done]].
      rewrite Hy in Hz. injection Hz as <-. by apply Hxy.
    + right. split; [by apply st_bind_err|]. exists k, y. split; [done|]. by rewrite <- Hxy.
Qed.

(** (C10) [EndFunction] on a function with an open block, fewer than 65536
    blocks and at most 65536 edges to and from each of them.  When every
    vector fits in a chunk of the arena (as many pointers as it has blocks, and
    as each block has edges on either side) it ends: [GetHIRBlocks] then lists
    every block at its order id, the successors of a block are the targets of
    its edges and its predecessors the sources of the edges to it, in the order
    in which the edges were added, and the graph itself is unchanged.  When one
    does not fit it writes outside the storage of the chunk. *)
Theorem EndFunction_vectors s b :
  wf_cfg (fn s) → current_block (fn s) = Some b →
  Z.of_nat (length (block_list (fn s))) < 2 ^ 16 →
  (∀ k x, block_list (fn s) !! k = Some x → degree_ok x) →
  ((∀ k x, block_list (fn s) !! k = Some x → block_fits (arena_chunk (fn s)) k x) →
   ∃ s', EndFunction s = Ok (tt, s') ∧ same_cfg s s' ∧ current_block (fn s') = None ∧
     blocks (fn s') = Some <$> seq 0 (length (block_list (fn s))) ∧
     ∀ k x, block_list (fn s') !! k = Some x →
       order_id x = Z.of_nat k ∧
       successors x = Some <$> succ_of (eview <$> edges (fn s)) k ∧
       predecessors x = Some <$> pred_of (eview <$> edges (fn s)) k) ∧
  ((∃ k x, block_list (fn s) !! k = Some x ∧ ¬ block_fits (arena_chunk (fn s)) k x) →
   EndFunction s = Err OutOfBounds).
Proof.
  intros Hw Hb Hn Hdeg.
  destruct (EndBlock_run s T_PopRSBHint b Hw Hb) as (s1 & Hr1 & Hw1 & Hs1 & Hi1 & Hc1).
  pose proof Hs1 as (Eb & Ee & En & _ & Ec). pose proof (same_length _ _ _ Eb) as El.
  set (n := length (block_list (fn s))) in *.
  set (s2 := mkHir (insts s1) (set_blocks (replicate n None) (fn s1))).
  assert (Hrun : EndFunction s = st_iter finish_block (seq 0 n) s2).
  { unfold EndFunction. erewrite st_bind_run by exact Hr1. erewrite st_bind_run by done.
    unfold MaxBlockCount. rewrite (wf_count _ Hw1), El, wrap_small by (split; lia).
    rewrite Nat2Z.id. by erewrite st_bind_run by done. }
  assert (Hb2 : ∀ k x, block_list (fn s2) !! k = Some x → ∃ y, block_list (fn s) !! k = Some y ∧
    (degree_ok y → degree_ok x) ∧ (block_fits (arena_chunk (fn s)) k x ↔ block_fits (arena_chunk (fn s)) k y))
    by (intros k x; by apply (same_fits s s1)).
  destruct (finish_loop s2 s2 0 n) as [(s' & Hr & Hf & Hfit)|(Hr & k & x & Hx & Hno)].
  - by apply (wf_same_hir s1 s2).
  - simpl. by rewrite El.
  - intros j x (y & Hy & Hd & _)%Hb2. eauto.
  - simpl. by rewrite El.
  - split_and!; [reflexivity|done|done| |lia]. simpl. by rewrite El, Nat.sub_0_r.
  - lia.
  - split.
    2: { intros (k & y & Hy & Hno). destruct Hno.
         destruct (lookup_lt_is_Some_2 (block_list (fn s2)) k) as [x Hx];
           [simpl; rewrite El; by eapply lookup_lt_Some|].
         destruct (Hb2 _ _ Hx) as (y' & Hy' & _ & Hiff). rewrite Hy in Hy'. injection Hy' as <-.
         apply Hiff. specialize (Hfit _ _ Hx). change (arena_chunk (fn s2)) with (arena_chunk (fn s1)) in Hfit.
         by rewrite Ec in Hfit. }
    intros _. exists s'. destruct Hf as (Hs & _ & Hc & Hbs & Hv).
    assert (Hss : same_cfg s s') by (etrans; [exact Hs1|exact Hs]).
    assert (Hn' : length (block_list (fn s')) = n) by (destruct Hss as (E & _); by apply same_length in E).
    change (current_block (fn s2)) with (current_block (fn s1)) in Hc. rewrite Hc1 in Hc.
    split_and!; [by rewrite Hrun|done|done| |].
    + rewrite Hbs. change (length (block_list (fn s2))) with (length (block_list (fn s1))).
      rewrite El, Nat.sub_diag. by rewrite app_nil_r.
    + intros k x Hk. pose proof (lookup_lt_Some _ _ _ Hk) as Hlt. destruct (Hv k x) as [-> ->]; [lia|done|].
      simpl. rewrite Ee. split; [|done].
      assert (Hw' : wf_cfg (fn s')) by (eapply wf_same; [exact Hss| |done]; by rewrite Hc).
      destruct (wf_blocks _ Hw' _ _ Hk) as (-> & _ & _). apply wrap_small. split; lia.
  - split; [|intros _; by rewrite Hrun]. intros Hall. destruct Hno.
    change (arena_chunk (fn s2)) with (arena_chunk (fn s1)). rewrite Ec.
    destruct (Hb2 _ _ Hx) as (y & Hy & _ & Hiff). apply Hiff. by apply Hall.
Qed.

(** Every operation keeps the graph well formed. *)
Definition keeps_wf (s s' : hir) : Prop := wf_cfg (fn s) → wf_cfg (fn s').
#[export] Instance keeps_wf_preorder : PreOrder keeps_wf.
Proof. unfold keeps_wf. split; [by intros s|]. intros s1 s2 s3 H1 H2 Hw. auto. Qed.

Lemma keeps_AppendBlock start end_ : tracks keeps_wf (AppendBlock start end_).
Proof.
  intros s b s' H Hw. destruct (AppendBlock_run s start end_ Hw) as (b' & x & s1 & Hr & _ & _ & ? & _).
  rewrite H in Hr. by injection Hr as -> ->.
Qed.

Lemma keeps_EndBlock t : tracks keeps_wf (EndBlock t).
Proof.
  intros s u s' H Hw. destruct (current_block (fn s)) as [b|] eqn:Hc.
  - destruct (EndBlock_run s t b Hw Hc) as (s1 & Hr & ? & _). rewrite H in Hr. by injection Hr as _ ->.
  - unfold EndBlock in H. apply st_bind_Ok in H as (f & s1 & [= <- <-] & H).
    apply st_bind_Ok in H as (b & s1 & [H1 _]%st_lift_Ok & _). by rewrite Hc in H1.
Qed.

Lemma keeps_AddEdge src dest c : tracks keeps_wf (AddEdge src dest c).
Proof.
  intros s u s' H Hw.
  assert (∃ a b, src = Some a ∧ dest = Some b ∧ (a < length (block_list (fn s)))%nat ∧
    (b < length (block_list (fn s)))%nat) as (a & b & -> & -> & Ha & Hb).
  { unfold AddEdge in H. apply st_bind_Ok in H as (a & ? & [Ha ->]%st_lift_Ok & H).
    apply st_bind_Ok in H as (b & ? & [Hb ->]%st_lift_Ok & H).
    apply st_bind_Ok in H as (d & ? & [Hd ->]%get_block_Ok & H).
    apply st_bind_Ok in H as (f & ? & [= <- <-] & H).
    apply st_bind_Ok in H as (? & ? & [= _ <-] & H).
    apply st_bind_Ok in H as (? & ? & (y & Hy & _)%upd_block_Ok & _). simpl in Hy. inv_ok.
    apply lookup_lt_Some in Hd, Hy. by exists a, b. }
  destruct (AddEdge_run s a b c Hw Ha Hb) as (s1 & Hr & ? & _). rewrite H in Hr. by injection Hr as _ ->.
Qed.

Lemma keeps_same {A} (m : stM hir A) : tracks same_hir m → tracks keeps_wf m.
Proof. apply tracks_impl. intros s s' ??. by eapply wf_same_hir. Qed.

Lemma tracks_finish_block k : tracks same_hir (finish_block k).
Proof.
  unfold finish_block. repeat match goal with
  | |- tracks _ (upd_fn _) => by apply tracks_upd_fn
  | |- tracks _ (upd_block _ _) => by apply tracks_upd_block
  | |- tracks _ (_ ≫= _) => apply tracks_bind; [apply _| |intros]
  | |- _ => by auto with tracks typeclass_instances
  end.
Qed.

(** ** The builder *)

Ltac keeps_step :=
  match goal with
  | |- tracks _ (upd_fn _) => apply keeps_same; by apply tracks_upd_fn
  | |- tracks _ (AppendBlock _ _) => apply keeps_AppendBlock
  | |- tracks _ (EndBlock _) => apply keeps_EndBlock
  | |- tracks _ (AddEdge _ _ _) => apply keeps_AddEdge
  | |- tracks _ (st_iter finish_block _) =>
      apply keeps_same, tracks_iter; [apply _|intros; apply tracks_finish_block]
  | |- tracks _ get_fn => apply keeps_same, tracks_get_fn
  | |- tracks _ (_ ≫= _) => apply tracks_bind; [apply _| |intros]
  | |- tracks _ (st_lift _) => apply tracks_lift, _
  | |- tracks _ (mret _) => apply tracks_ret, _
  end.

Lemma keeps_If t a b : tracks keeps_wf (If_body t a b).
Proof. unfold If_body. repeat keeps_step. Qed.

Lemma keeps_Switch_cases p l : tracks keeps_wf (Switch_cases p l).
Proof. induction l as [|[v t] l IH]; simpl; repeat first [exact IH | keeps_step]. Qed.

Lemma keeps_Switch v l : tracks keeps_wf (Switch_body v l).
Proof. unfold Switch_body. repeat first [apply keeps_Switch_cases | keeps_step]. Qed.

Lemma keeps_LinkBlock l : tracks keeps_wf (LinkBlock_body l).
Proof. unfold LinkBlock_body. repeat keeps_step. Qed.

Lemma keeps_EndFunction : tracks keeps_wf EndFunction.
Proof. unfold EndFunction. repeat keeps_step. Qed.

Definition functions_wf (s : HIRBuilder) : Prop := Forall wf_cfg (hir_functions s).

Lemma with_current_wf {A} (m : stM hir A) s a s' :
  tracks keeps_wf m → with_current m s = Ok (a, s') → functions_wf s → functions_wf s'.
Proof.
  intros Hm H Hw. unfold with_current in H.
  destruct (current_function s) as [k|]; [|done].
  destruct (hir_functions s !! k) as [f|] eqn:Hf; [|done].
  destruct (m _) as [[x s1]|] eqn:Hr; [|done]. injection H as _ <-.
  apply Forall_insert; [done|]. apply (Hm _ _ _ Hr). simpl. by eapply Forall_lookup_1.
Qed.

Lemma wf_function_init chunk start end_ : wf_cfg (function_init chunk start end_).
Proof.
  split; simpl; [done|constructor|done|by intros e ?%elem_of_nil|done|].
  split; (split; [by vm_compute|apply NoDup_singleton]).
Qed.

Lemma AppendFunction_wf start end_ s k s' :
  AppendFunction start end_ s = Ok (k, s') → functions_wf s → functions_wf s'.
Proof.
  unfold AppendFunction. destruct (AppendBlock _ _ _) as [[b s1]|] eqn:Hr; [|done].
  intros [= _ <-] Hw. apply Forall_app. split; [done|]. apply Forall_singleton.
  apply (keeps_AppendBlock _ _ _ _ _ Hr). apply wf_function_init.
Qed.

Section builder.
Context (past_end : OpCode.t → nat → option Z) `{InstAllocator}.

(** The operations a translator front end performs. *)
Inductive builder_step : HIRBuilder → HIRBuilder → Prop :=
  | b_function start end_ k s s' :
      AppendFunction start end_ s = Ok (k, s') → builder_step s s'
  | b_location l s s' : SetLocation l s = Ok (tt, s') → builder_step s s'
  | b_inst op args p s s' :
      with_current (HIRFunction_INST past_end op args) s = Ok (p, s') → builder_step s s'
  | b_block start end_ b s s' :
      with_current (AppendBlock start end_) s = Ok (b, s') → builder_step s s'
  | b_edge src dest c s s' :
      with_current (AddEdge src dest c) s = Ok (tt, s') → builder_step s s'
  | b_if cond t e r s s' : If cond t e s = Ok (r, s') → builder_step s s'
  | b_switch v l r s s' : Switch v l s = Ok (r, s') → builder_step s s'
  | b_link l r s s' : LinkBlock l s = Ok (r, s') → builder_step s s'
  | b_return s s' : Return s = Ok (tt, s') → builder_step s s'.

Lemma builder_step_wf s s' : builder_step s s' → functions_wf s → functions_wf s'.
Proof.
  destruct 1 as [start end_ k s s' Hr|l s s' Hr|op args p s s' Hr|start end_ b s s' Hr|src dest c s s' Hr
    |cond t e r s s' Hr|v l r s s' Hr|l r s s' Hr|s s' Hr]; intros Hw.
  - by eapply AppendFunction_wf.
  - by injection Hr as <-.
  - eapply with_current_wf; [apply keeps_same, tracks_INST|done..].
  - eapply with_current_wf; [apply keeps_AppendBlock|done..].
  - eapply with_current_wf; [apply keeps_AddEdge|done..].
  - eapply with_current_wf; [apply keeps_If|done..].
  - eapply with_current_wf; [apply keeps_Switch|done..].
  - eapply with_current_wf; [apply keeps_LinkBlock|done..].
  - unfold Return in Hr. apply st_bind_Ok in Hr as (u & s1 & Hr & H1). injection H1 as <-.
    eapply (with_current_wf _ _ _ _ keeps_EndFunction) in Hr; done.
Qed.

(** (C9) Every function of a builder has a well-formed control-flow graph after
    any sequence of operations: blocks numbered in creation order, one block per
    location, each block listing exactly the edges that leave and reach it, and
    no edge or current block outside the function; the intrusive list of blocks
    links them in that order. *)
Theorem builder_graphs_wf n s :
  rtc builder_step (HIRBuilder_init n) s → Forall wf_cfg (hir_functions s).
Proof.
  intros Hs. assert (functions_wf (HIRBuilder_init n)) as Hi by constructor.
  revert Hi. induction Hs; eauto using builder_step_wf.
Qed.
End builder.

(** The location of a block. *)
Definition block_at (f : HIRFunction) (b : bptr) (loc : Location) : Prop :=
  locs f !! b = Some loc.

Lemma block_at_lt f b loc : block_at f b loc → (b < length (block_list f))%nat.
Proof. intros H%lookup_lt_Some. unfold locs in H. by rewrite length_fmap in H. Qed.

Lemma block_at_unique f b b' loc :
  wf_cfg f → block_at f b loc → block_at f b' loc → b = b'.
Proof. intros Hw. by apply (proj1 (NoDup_alt _) (wf_locations _ Hw)). Qed.

Lemma AppendBlock_at s loc end_ :
  wf_cfg (fn s) →
  ∃ b s', AppendBlock loc end_ s = Ok (b, s') ∧ block_at (fn s') b loc ∧ wf_cfg (fn s') ∧
    current_block (fn s') = Some b ∧ insts s' = insts s ∧ edges (fn s') = edges (fn s) ∧
    locs (fn s) `prefix_of` locs (fn s').
Proof.
  intros Hw. destruct (AppendBlock_run s loc end_ Hw) as (b & x & s' & Hr & Hx & Hl & Hw' & Hc & Hi & He & [k Hp]).
  exists b, s'. split_and!; [done| |done..|].
  - unfold block_at, locs. by rewrite list_lookup_fmap, Hx; simpl; rewrite Hl.
  - exists ((λ v : Z * Location * list eptr * list eptr, v.1.1.2) <$> k). unfold locs.
    assert (∀ l, (λ b, location (block b)) <$> l =
      (λ v : Z * Location * list eptr * list eptr, v.1.1.2) <$> (bview <$> l)) as E
      by (intros l; by rewrite <- list_fmap_compose).
    by rewrite !E, Hp, fmap_app.
Qed.

Lemma AddEdge_at s src dest c l l' :
  wf_cfg (fn s) → block_at (fn s) src l → block_at (fn s) dest l' →
  ∃ s', AddEdge (Some src) (Some dest) c s = Ok (tt, s') ∧ wf_cfg (fn s') ∧
    eview <$> edges (fn s') = (eview <$> edges (fn s)) ++ [(src, dest)] ∧
    locs (fn s') = locs (fn s) ∧ insts s' = insts s ∧
    current_block (fn s') = current_block (fn s).
Proof. intros Hw Hs%block_at_lt Hd%block_at_lt. by apply AddEdge_run. Qed.

Lemma prefix_at f f' b loc : locs f `prefix_of` locs f' → block_at f b loc → block_at f' b loc.
Proof. intros [k E] Hb. unfold block_at. rewrite E. by apply lookup_app_l_Some. Qed.

Lemma EndBlock_at s t b :
  wf_cfg (fn s) → current_block (fn s) = Some b →
  ∃ s' l, EndBlock t s = Ok (tt, s') ∧ wf_cfg (fn s') ∧ block_at (fn s') b l ∧
    locs (fn s') = locs (fn s) ∧ eview <$> edges (fn s') = eview <$> edges (fn s).
Proof.
  intros Hw Hc. destruct (EndBlock_run s t b Hw Hc) as (s' & Hr & Hw' & Hs & _).
  pose proof (wf_current _ Hw _ Hc) as Hlt.
  destruct (lookup_lt_is_Some_2 (locs (fn s)) b) as [l Hl]; [unfold locs; by rewrite length_fmap|].
  exists s', l. pose proof (same_locs _ _ Hs) as El. destruct Hs as (_ & Ee & _).
  split_and!; try done. unfold block_at. by rewrite El.
Qed.

(** [LinkBlock] closes the current block and moves to the block of the
    target location, which is created on demand and unique, adding exactly one
    edge between them; it never faults while a block is open. *)
Theorem LinkBlock_moves s pre next :
  wf_cfg (fn s) → current_block (fn s) = Some pre →
  ∃ b s', LinkBlock_body next s = Ok (b, s') ∧ wf_cfg (fn s') ∧
    current_block (fn s') = Some b ∧ block_at (fn s') b next ∧
    (∀ b', block_at (fn s') b' next → b' = b) ∧
    locs (fn s) `prefix_of` locs (fn s') ∧
    eview <$> edges (fn s') = (eview <$> edges (fn s)) ++ [(pre, b)].
Proof.
  intros Hw Hc. destruct (EndBlock_at s (T_LinkBlock next) pre Hw Hc) as (s1 & l & R1 & W1 & A1 & L1 & E1).
  destruct (AppendBlock_at s1 next 0 W1) as (b & s2 & R2 & A2 & W2 & C2 & _ & E2 & L2).
  destruct (AddEdge_at s2 pre b false l next W2) as (s3 & R3 & W3 & E3 & L3 & _ & C3);
    [by eapply prefix_at|done|].
  assert (A3 : block_at (fn s3) b next) by (unfold block_at; by rewrite L3).
  exists b, s3. split_and!; try done.
  - unfold LinkBlock_body. erewrite st_bind_run by done. rewrite Hc.
    erewrite st_bind_run by exact R1. erewrite st_bind_run by exact R2.
    by erewrite st_bind_run by exact R3.
  - by rewrite C3.
  - intros b' Hb'. by eapply block_at_unique.
  - by rewrite L3, <- L1.
  - by rewrite E3, E2, E1.
Qed.

(** [If] closes the current block, creates or finds the blocks of both
    targets, leaves the [then] block current, and adds the two edges, [then]
    first; a branch target that is not a block link throws. *)
Theorem If_branches s pre t then_t else_t :
  wf_cfg (fn s) → current_block (fn s) = Some pre →
  match GetNextLocation else_t, GetNextLocation then_t with
  | Ok else_, Ok then_ =>
      ∃ eb tb s', If_body t then_t else_t s = Ok ((eb, tb), s') ∧ wf_cfg (fn s') ∧
        current_block (fn s') = Some tb ∧
        block_at (fn s') eb else_ ∧ block_at (fn s') tb then_ ∧
        eview <$> edges (fn s') = (eview <$> edges (fn s)) ++ [(pre, tb); (pre, eb)]
  | _, _ => If_body t then_t else_t s = Err AssertFailed
  end.
Proof.
  intros Hw Hc. destruct (EndBlock_at s t pre Hw Hc) as (s1 & l & R1 & W1 & A1 & L1 & E1).
  unfold If_body. erewrite st_bind_run by done. rewrite Hc. erewrite st_bind_run by exact R1.
  assert (G : ∀ x, GetNextLocation x = Err AssertFailed ∨ ∃ l, GetNextLocation x = Ok l)
    by (intros []; simpl; eauto).
  destruct (G else_t) as [Ge|[el Ge]]; rewrite Ge; [by erewrite st_bind_err|].
  erewrite st_bind_run by done.
  destruct (G then_t) as [Gt|[tl Gt]]; rewrite Gt; [by erewrite st_bind_err|].
  erewrite st_bind_run by done.
  destruct (AppendBlock_at s1 el 0 W1) as (eb & s2 & R2 & A2 & W2 & _ & _ & E2 & L2).
  destruct (AppendBlock_at s2 tl 0 W2) as (tb & s3 & R3 & A3 & W3 & C3 & _ & E3 & L3).
  assert (P3 : block_at (fn s3) pre l) by eauto using prefix_at.
  assert (P3' : block_at (fn s3) eb el) by eauto using prefix_at.
  destruct (AddEdge_at s3 pre tb true l tl W3) as (s4 & R4 & W4 & E4 & L4 & _ & C4); [done..|].
  destruct (AddEdge_at s4 pre eb true l el W4) as (s5 & R5 & W5 & E5 & L5 & _ & C5);
    [unfold block_at; by rewrite L4..|].
  exists eb, tb, s5. split_and!; try done.
  - erewrite st_bind_run by exact R2. erewrite st_bind_run by exact R3.
    erewrite st_bind_run by exact R4. by erewrite st_bind_run by exact R5.
  - by rewrite C5, C4.
  - unfold block_at. by rewrite L5, L4.
  - unfold block_at. by rewrite L5, L4.
  - rewrite E5, E4, E3, E2, E1, <- app_assoc. done.
Qed.

Lemma Switch_cases_run cases s1 pre l targets :
  wf_cfg (fn s1) → block_at (fn s1) pre l →
  mapM (λ c : Imm * Terminal, GetNextLocation c.2) cases = Ok targets →
  ∃ r s', Switch_cases (Some pre) cases s1 = Ok (r, s') ∧ wf_cfg (fn s') ∧
    fst <$> r = fst <$> cases ∧ Forall2 (λ b l, block_at (fn s') b l) (snd <$> r) targets ∧
    eview <$> edges (fn s') = (eview <$> edges (fn s1)) ++ ((λ b, (pre, b)) <$> (snd <$> r)) ∧
    locs (fn s1) `prefix_of` locs (fn s').
Proof.
  revert s1 targets. induction cases as [|[v t] cases IH]; intros s1 targets W1 A1 Ht.
  { injection Ht as <-. exists [], s1. split_and!; try done. by rewrite app_nil_r. }
  change (mapM _ ((v, t) :: cases)) with
    (y ← GetNextLocation t; k ← mapM (λ c : Imm * Terminal, GetNextLocation c.2) cases; mret (y :: k)) in Ht.
  destruct (GetNextLocation t) as [tl|] eqn:Gt; [|done].
  destruct (mapM _ cases) as [ls|] eqn:Gs; [|done]. injection Ht as <-.
  destruct (AppendBlock_at s1 tl 0 W1) as (b & s2 & R2 & A2 & W2 & _ & _ & E2 & L2).
  destruct (AddEdge_at s2 pre b true l tl W2) as (s3 & R3 & W3 & E3 & L3 & _ & _); [by eapply prefix_at|done|].
  assert (P3 : block_at (fn s3) pre l) by (unfold block_at; rewrite L3; by eapply prefix_at).
  destruct (IH s3 ls W3 P3 eq_refl) as (r & s4 & R4 & W4 & F4 & B4 & E4 & L4).
  exists ((v, b) :: r), s4. split_and!; [|done|by csimpl; f_equal| | |].
  - simpl. rewrite Gt. erewrite st_bind_run by done. erewrite st_bind_run by exact R2.
    erewrite st_bind_run by exact R3. by erewrite st_bind_run by exact R4.
  - csimpl. constructor; [|done]. eapply prefix_at; [done|]. unfold block_at. by rewrite L3.
  - rewrite E4, E3, E2, <- app_assoc. done.
  - etrans; [done|]. by rewrite <- L3.
Qed.

(** [Switch] on link targets never faults while a block is open: it adds
    one edge per case, in order, from the closed block to the block of the
    case's location, and returns these blocks with their case values. *)
Theorem Switch_branches s pre value cases targets :
  wf_cfg (fn s) → current_block (fn s) = Some pre →
  mapM (λ c : Imm * Terminal, GetNextLocation c.2) cases = Ok targets →
  ∃ r s', Switch_body value cases s = Ok (r, s') ∧ wf_cfg (fn s') ∧ fst <$> r = fst <$> cases ∧
    Forall2 (λ b l, block_at (fn s') b l) (snd <$> r) targets ∧
    eview <$> edges (fn s') = (eview <$> edges (fn s)) ++ ((λ b, (pre, b)) <$> (snd <$> r)).
Proof.
  intros Hw Hc Ht. unfold Switch_body. erewrite st_bind_run by done. rewrite Hc.
  destruct (EndBlock_at s (T_Switch value cases) pre Hw Hc) as (s1 & l & R1 & W1 & A1 & L1 & E1).
  erewrite st_bind_run by exact R1. rewrite <- E1.
  destruct (Switch_cases_run cases s1 pre l targets) as (r & s' & ? & ? & ? & ? & ? & _); [done..|].
  by exists r, s'.
Qed.

(** [AppendPhi] can never succeed: the [AddPhi] it appends has no
    arguments, and validation wants four values. *)
Theorem AppendPhi_throws pe b s : AppendPhi pe b s = Err AssertFailed.
Proof.
  unfold AppendPhi. set (p := next_ptr (insts s)).
  assert (Hc : on_insts (Create OpCode.AddPhi []) s =
    Ok (p, mkHir (<[p := Inst_init OpCode.AddPhi]> (insts s)) (fn s))) by reflexivity.
  erewrite st_bind_run by exact Hc. apply st_bind_err. unfold HIRBlock_AppendInst.
  apply st_bind_err. unfold on_insts, Validate, mbind, st_bind, get_inst. simpl.
  by rewrite lookup_insert_eq.
Qed.

(** ** Witnesses *)

(** A function that was just created at location 0. *)
Definition sample_fn : hir :=
  match AppendBlock 0 0 (mkHir ∅ (function_init 512 0 16)) with
  | Ok (_, s) => s | Err _ => mkHir ∅ (function_init 512 0 16)
  end.

Lemma sample_fn_wf : wf_cfg (fn sample_fn).
Proof.
  assert (AppendBlock 0 0 (mkHir ∅ (function_init 512 0 16)) = Ok (0%nat, sample_fn)) as H by reflexivity.
  exact (keeps_AppendBlock _ _ _ _ _ H (wf_function_init 512 0 16)).
Qed.

(** A loop of two blocks, and one block with a chunk too small for a pointer. *)
Definition loop_fn : hir :=
  match (_ ← LinkBlock_body 3; _ ← LinkBlock_body 0; AppendBlock 3 0) sample_fn with
  | Ok (_, s) => s | Err _ => sample_fn
  end.

Lemma loop_fn_wf : wf_cfg (fn loop_fn).
Proof.
  assert (tracks keeps_wf (_ ← LinkBlock_body 3; _ ← LinkBlock_body 0; AppendBlock 3 0)) as Ht
    by (repeat first [apply keeps_LinkBlock | keeps_step]).
  apply (Ht sample_fn 1%nat loop_fn); [vm_compute; reflexivity|apply sample_fn_wf].
Qed.

Definition tiny_fn : hir := mkHir (insts sample_fn)
  (mkFunction 0 16 0 1 0 (block_list (fn sample_fn)) [] [] [] [] (block_nodes (fn sample_fn)) 4 (Some 0%nat)).

Lemma tiny_fn_wf : wf_cfg (fn tiny_fn).
Proof. destruct sample_fn_wf. by split. Qed.

Lemma EndFunction_vectors_witness :
  (∃ s', EndFunction loop_fn = Ok (tt, s') ∧ blocks (fn s') = [Some 0; Some 1]%nat ∧
     ∀ k x, block_list (fn s') !! k = Some x →
       successors x = Some <$> succ_of [(0, 1); (1, 0)]%nat k) ∧
  EndFunction tiny_fn = Err OutOfBounds.
Proof.
  split.
  - destruct (EndFunction_vectors loop_fn 1 loop_fn_wf) as [(s' & ? & _ & _ & ? & Hv) _];
      [reflexivity|vm_compute; reflexivity| | |].
    + intros [|[|k]] x Hk; vm_compute in Hk; [injection Hk as <-; by vm_compute..|done].
    + intros [|[|k]] x Hk; vm_compute in Hk; [injection Hk as <-; by vm_compute..|done].
    + exists s'. split_and!; [done|done|]. intros k x Hk. by destruct (Hv k x Hk) as (_ & ? & _).
  - destruct (EndFunction_vectors tiny_fn 0 tiny_fn_wf) as [_ He]; [reflexivity|vm_compute; reflexivity| |].
    + intros [|k] x Hk; vm_compute in Hk; [injection Hk as <-; by vm_compute|done].
    + apply He. exists 0%nat. eexists. split; [vm_compute; reflexivity|].
      intros [H _]. vm_compute in H. by apply H.
Defined.

Lemma LinkBlock_moves_witness :
  ∃ b s', LinkBlock_body 3 sample_fn = Ok (b, s') ∧ current_block (fn s') = Some b ∧
    eview <$> edges (fn s') = [(0%nat, b)].
Proof.
  destruct (LinkBlock_moves sample_fn 0 3 sample_fn_wf) as (b & s' & ? & _ & ? & _ & _ & _ & ?);
    [reflexivity|]. eauto.
Defined.

Lemma If_branches_witness :
  ∃ eb tb s', If_body T_Invalid (T_LinkBlock 1) (T_LinkBlock 2) sample_fn = Ok ((eb, tb), s') ∧
    block_at (fn s') eb 2 ∧ block_at (fn s') tb 1.
Proof.
  destruct (If_branches sample_fn 0 T_Invalid (T_LinkBlock 1) (T_LinkBlock 2) sample_fn_wf)
    as (eb & tb & s' & ? & _ & _ & ? & ? & _); [reflexivity|]. eauto 6.
Defined.

Lemma Switch_branches_witness :
  ∃ r s', Switch_body None [(Imm_u8 1, T_LinkBlock 7)] sample_fn = Ok (r, s') ∧
    fst <$> r = [Imm_u8 1].
Proof.
  destruct (Switch_branches sample_fn 0 None [(Imm_u8 1, T_LinkBlock 7)] [7] sample_fn_wf)
    as (r & s' & ? & _ & ? & _); [reflexivity..|]. eauto.
Defined.

Lemma builder_graphs_wf_witness :
  ∃ s, rtc (builder_step (λ _ _, Some 0)) (HIRBuilder_init 1) s ∧
    length (hir_functions s) = 1%nat ∧ Forall wf_cfg (hir_functions s).
Proof.
  eexists. split.
  - eapply rtc_l; [eapply (b_function _ 0 16); vm_compute; reflexivity|].
    eapply rtc_l; [eapply (b_inst _ OpCode.LoadImm [V_Imm (Imm_u32 7)]); vm_compute; reflexivity|].
    eapply rtc_l; [eapply (b_link _ 3); vm_compute; reflexivity|].
    eapply rtc_l; [eapply b_return; vm_compute; reflexivity|].
    apply rtc_refl.
  - split; [reflexivity|]. apply (builder_graphs_wf (λ _ _, Some 0) 1).
    eapply rtc_l; [eapply (b_function _ 0 16); vm_compute; reflexivity|].
    eapply rtc_l; [eapply (b_inst _ OpCode.LoadImm [V_Imm (Imm_u32 7)]); vm_compute; reflexivity|].
    eapply rtc_l; [eapply (b_link _ 3); vm_compute; reflexivity|].
    eapply rtc_l; [eapply b_return; vm_compute; reflexivity|].
    apply rtc_refl.
Defined.
