(* ===== verification/LocalElim.v ===== *)
(** * Local elimination and the dataflow pass

    [runtime/ir/opts/local_elimination_pass.cpp]: inside a block, the uses of
    a value loaded from a local are replaced by the value last stored to it;
    [runtime/ir/opts/dataflow_analysis_pass.cpp]. *)

From S2P Require Import Prelude IRTypes Inst HIR.

(** [current_locals]: per local id the [HIRValue] of the last store. *)
Abbreviation locals := (list (option vptr)).

(** The loop over the uses of a loaded value. *)
Definition replace_use (new : Value) (u : HIRUse) : stM heap unit :=
  arg ← ArgAt (use_inst u) (Z.to_nat (arg_idx u));
  if Arg_IsValue arg then SetArg (use_inst u) (Z.to_nat (arg_idx u)) (V_Value new)
  else if Arg_IsLambda arg then
    SetArg (use_inst u) (Z.to_nat (arg_idx u)) (V_Lambda (Lambda_value new))
  else mret tt.

Definition local_at (cur : locals) (id : Z) : res (option vptr) :=
  of_option OutOfBounds (cur !! Z.to_nat id).

(** [case OpCode::LoadLocal]. *)
Definition elim_load (b : bptr) (cur : locals) (inst : ptr) : stM hir unit :=
  local ← on_insts (GetArg_Local inst 0);
  lv ← st_lift (local_at cur (local_id local));
  match lv with
  | None => mret tt
  | Some v =>
      x ← get_value v;
      if bool_decide (hv_block x = b) then
        hv ← GetHIRValue (Some inst);
        match hv with
        | None => mret tt
        | Some w =>
            y ← get_value w;
            _ ← on_insts (st_iter (replace_use (hv_value x)) (uses y));
            DestroyHIRValue w
        end
      else mret tt
  end.

(** [case OpCode::StoreLocal]. *)
Definition elim_store (cur : locals) (inst : ptr) : stM hir locals :=
  local ← on_insts (GetArg_Local inst 0);
  value ← on_insts (GetArg_Value inst 1);
  hv ← GetHIRValue value;
  _ ← st_lift (local_at cur (local_id local));
  mret (<[Z.to_nat (local_id local) := hv]> cur).

Definition elim_inst (b : bptr) (cur : locals) (inst : ptr) : stM hir locals :=
  op ← on_insts (Inst_GetOp inst);
  match op with
  | OpCode.LoadLocal => _ ← elim_load b cur inst; mret cur
  | OpCode.StoreLocal => elim_store cur inst
  | _ => mret cur
  end.

Fixpoint elim_insts (b : bptr) (cur : locals) (l : list ptr) : stM hir locals :=
  match l with
  | [] => mret cur
  | i :: l' => cur' ← elim_inst b cur i; elim_insts b cur' l'
  end.

Fixpoint elim_blocks (cur : locals) (l : list (option bptr)) : stM hir unit :=
  match l with
  | [] => mret tt
  | ob :: l' =>
      b ← st_lift (of_option NullDeref ob);
      hb ← get_block b;
      cur' ← elim_insts b cur (inst_list (block hb));
      elim_blocks cur' l'
  end.

(** [LocalEliminationPass::Run] on a function. *)
Definition LocalElimination_Run : stM hir unit :=
  f ← get_fn;
  elim_blocks (replicate (Z.to_nat (MaxLocalId f + 1)) None) (blocks f).

(** [LocalEliminationPass::Run] on the functions of a builder. *)
Fixpoint elim_functions (h : heap) (fs : list HIRFunction) : res (heap * list HIRFunction) :=
  match fs with
  | [] => Ok (h, [])
  | f :: fs' =>
      r ← LocalElimination_Run (mkHir h f);
      let '(_, s) := r in
      q ← elim_functions (insts s) fs';
      let '(h', fs'') := q in
      Ok (h', fn s :: fs'')
  end.

(** ** [DataflowAnalysisPass::Run]

    One bit vector per block, as long as the value map. *)
Fixpoint dataflow_blocks (s : hir) (vectors : list (list bool)) (l : list (option bptr))
  : res (list (list bool)) :=
  match l with
  | [] => Ok vectors
  | ob :: l' =>
      b ← of_option NullDeref ob;
      hb ← of_option NullDeref (block_list (fn s) !! b);
      let k := Z.to_nat (order_id hb) in
      _ ← check (k <? length vectors)%nat OutOfBounds;
      dataflow_blocks s (<[k := replicate (length (values (fn s))) false]> vectors) l'
  end.

Definition Dataflow_Run (s : hir) : res (list (list bool)) :=
  dataflow_blocks s (replicate (Z.to_nat (MaxBlockCount (fn s))) []) (blocks (fn s)).
