(* ===== verification/LocalElimSpec.v ===== *)
(** * Local elimination preserves the meaning of a function

    A small semantics of the IR: a block executes its instructions in order,
    [LoadLocal] and [StoreLocal] read and write the locals, every other
    operation is an arbitrary function of its evaluated arguments and of the
    outside world.  A path is any sequence of blocks. *)

From S2P Require Import Prelude IRTypes Inst InstSpec HIR HIRSpec LocalElim.

(** ** Semantics *)
Section semantics.
Context {V W : Type}.

(** An evaluated argument. *)
Inductive sarg : Type := S_Val (v : option V) | S_Lambda (v : option V) | S_Arg (a : Arg).

Context (den : OpCode.t → list sarg → W → V * W).

Record mstate := mkState { env : ptr → option V; mem : nat → option V; world : W }.

Definition eval_arg (e : ptr → option V) (a : Arg) : sarg :=
  match a with
  | Arg_Value (Some p) => S_Val (e p)
  | Arg_Lambda (Lambda_value (Some p)) => S_Lambda (e p)
  | _ => S_Arg a
  end.

Definition upd {A B} `{EqDecision A} (f : A → B) (a : A) (b : B) : A → B :=
  λ x, if decide (x = a) then b else f x.

(** The local that an instruction loads; the local and value that it stores. *)
Definition load_of (i : Inst) : option nat :=
  match inst_op i, arguments i with
  | OpCode.LoadLocal, Arg_Local l :: _ => Some (Z.to_nat (local_id l))
  | _, _ => None
  end.
Definition store_of (i : Inst) : option (nat * ptr) :=
  match inst_op i, arguments i with
  | OpCode.StoreLocal, Arg_Local l :: Arg_Value (Some q) :: _ => Some (Z.to_nat (local_id l), q)
  | _, _ => None
  end.

Definition exec (h : heap) (p : ptr) (s : mstate) : mstate :=
  match h !! p with
  | None => s
  | Some i =>
      match load_of i, store_of i with
      | Some l, _ => mkState (upd (env s) p (mem s l)) (mem s) (world s)
      | None, Some (l, q) => mkState (env s) (upd (mem s) l (env s q)) (world s)
      | None, None =>
          let '(v, w) := den (inst_op i) (eval_arg (env s) <$> arguments i) (world s) in
          mkState (upd (env s) p (Some v)) (mem s) w
      end
  end.

Definition block_insts (bl : list HIRBlock) (b : bptr) : list ptr :=
  match bl !! b with Some hb => inst_list (block hb) | None => [] end.

Definition exec_block (bl : list HIRBlock) (h : heap) (b : bptr) (s : mstate) : mstate :=
  foldl (λ s p, exec h p s) s (block_insts bl b).
Definition exec_path (bl : list HIRBlock) (h : heap) (path : list bptr) (s : mstate) : mstate :=
  foldl (λ s b, exec_block bl h b s) s path.

End semantics.
Arguments mstate : clear implicits.
Arguments sarg : clear implicits.

(** ** Places, mentions and replacements *)
Definition at_ (bl : list HIRBlock) (B : bptr) (j : nat) (p : ptr) : Prop :=
  block_insts bl B !! j = Some p.

(** Every instruction has one place. *)
Definition uniq (bl : list HIRBlock) : Prop :=
  ∀ B j B' j' p, at_ bl B j p → at_ bl B' j' p → B = B' ∧ j = j'.

Definition mentions (a : Arg) (p : ptr) : Prop :=
  a = Arg_Value (Some p) ∨ a = Arg_Lambda (Lambda_value (Some p)).

Definition arg_at (h : heap) (p : ptr) (k : nat) : option Arg :=
  i ← h !! p; arguments i !! k.

(** Inside a block, values are used after they are defined. *)
Definition ssa (bl : list HIRBlock) (h : heap) : Prop :=
  ∀ B j q k a p c, at_ bl B j q → arg_at h q k = Some a → mentions a p → at_ bl B c p → (c < j)%nat.

Definition loads (h : heap) (p : ptr) (l : nat) : Prop := ∃ i, h !! p = Some i ∧ load_of i = Some l.
Definition stores (h : heap) (p : ptr) (l : nat) (q : ptr) : Prop :=
  ∃ i, h !! p = Some i ∧ store_of i = Some (l, q).

(** The value [v] is stored to a local at place [b] of a block, and [x] loads
    that local later in the block with no other store to it in between. *)
Record just_at (bl : list HIRBlock) (h : heap) (x v : ptr) (B : bptr) (a b c l : nat) (q : ptr)
  : Prop := {
  ja_v : at_ bl B a v;
  ja_q : at_ bl B b q;
  ja_x : at_ bl B c x;
  ja_ab : (a < b)%nat;
  ja_bc : (b < c)%nat;
  ja_store : stores h q l v;
  ja_load : loads h x l;
  ja_last : ∀ j q' v', (b < j < c)%nat → at_ bl B j q' → ¬ stores h q' l v';
}.

(** [P x v]: uses of [x] may have become uses of [v]. *)
Inductive rel_arg (P : ptr → ptr → Prop) : Arg → Arg → Prop :=
  | rel_same a : rel_arg P a a
  | rel_value x v : P x v → rel_arg P (Arg_Value (Some x)) (Arg_Value (Some v))
  | rel_lambda x v : P x v →
      rel_arg P (Arg_Lambda (Lambda_value (Some x))) (Arg_Lambda (Lambda_value (Some v))).

Record rel_inst (P : ptr → ptr → Prop) (i i' : Inst) : Prop := {
  ri_op : inst_op i' = inst_op i;
  ri_id : inst_id i' = inst_id i;
  ri_args : Forall2 (rel_arg P) (arguments i) (arguments i');
}.

Definition rel (P : ptr → ptr → Prop) (h h' : heap) : Prop :=
  ∀ p, option_Forall2 (rel_inst P) (h !! p) (h' !! p).

Lemma rel_load P i i' : rel_inst P i i' → load_of i' = load_of i.
Proof.
  intros [Ho _ Ha]. unfold load_of. rewrite Ho. destruct (inst_op i); try done.
  destruct Ha as [|a a' l l' Ha Hl]; [done|]. by destruct Ha.
Qed.

Lemma rel_store P i i' : rel_inst P i i' →
  match store_of i with
  | None => store_of i' = None
  | Some (l, q) => ∃ q', store_of i' = Some (l, q') ∧ (q' = q ∨ P q q')
  end.
Proof.
  intros [Ho _ Ha]. unfold store_of. rewrite Ho. destruct (inst_op i); try done.
  destruct Ha as [|a a' l l' Ha Hl]; [done|]. destruct Ha as [a| |]; [|done|done].
  destruct a; try done. destruct Hl as [|a2 a2' m m' Ha2 Hm]; [done|].
  destruct Ha2 as [a2| |]; [|eauto|done]. destruct a2 as [|[]| | | | | | |]; eauto.
Qed.

(** ** Replacing is sound *)
Section sound.
Context {V W : Type} (den : OpCode.t → list (sarg V) → W → V * W).
Context (bl : list HIRBlock) (h h' : heap) (P : ptr → ptr → Prop).
Context (Huniq : uniq bl) (Hssa : ssa bl h) (Hrel : rel P h h').
Context (Hjust : ∀ x v, P x v → ∃ B a b c l q, just_at bl h' x v B a b c l q).
#[local] Set Default Proof Using "All".

(** Before place [j] of block [B] is executed. *)
Record agree (B : bptr) (j : nat) (s : mstate V W) : Prop := {
  ag_env x v C a b c l q : P x v → just_at bl h' x v C a b c l q →
    C ≠ B ∨ (c < j)%nat → env s x = env s v;
  ag_mem x v a b c l q : P x v → just_at bl h' x v B a b c l q →
    (b < j ≤ c)%nat → mem s l = env s v;
}.

Lemma agree_use B j s p x v k a :
  agree B j s → at_ bl B j p → P x v → arg_at h p k = Some a → mentions a x →
  env s x = env s v.
Proof.
  intros Hag Hp Hxv Ha Hm. destruct (Hjust x v Hxv) as (C & a0 & b & c & l & q & Hj).
  eapply (ag_env _ _ _ Hag); [done|done|].
  destruct (decide (C = B)) as [->|]; [|by left]. right.
  by eapply Hssa; [..|apply Hj].
Qed.

Lemma eval_same B j s p i i' :
  agree B j s → at_ bl B j p → h !! p = Some i → rel_inst P i i' →
  eval_arg (env s) <$> arguments i' = eval_arg (env s) <$> arguments i.
Proof.
  intros Hag Hp Hi [_ _ Ha]. apply list_eq. intros k. rewrite !list_lookup_fmap.
  assert (Hk : arg_at h p k = arguments i !! k) by (unfold arg_at; by rewrite Hi).
  pose proof (Forall2_lookup_lr (rel_arg P) (arguments i) (arguments i') k) as Hlr.
  destruct (arguments i !! k) as [x|] eqn:E1, (arguments i' !! k) as [y|] eqn:E2.
  - simpl. f_equal. destruct (Hlr x y Ha eq_refl eq_refl) as [z|z v Hz|z v Hz]; simpl; [done| |];
      f_equal; symmetry; eapply (agree_use B j s p z v k); try done; unfold mentions; auto.
  - apply Forall2_length in Ha. apply lookup_lt_Some in E1. apply lookup_ge_None in E2. lia.
  - apply Forall2_length in Ha. apply lookup_lt_Some in E2. apply lookup_ge_None in E1. lia.
  - done.
Qed.

Lemma store_arg i l q : store_of i = Some (l, q) → arguments i !! 1%nat = Some (Arg_Value (Some q)).
Proof.
  unfold store_of. destruct (inst_op i); try done.
  destruct (arguments i) as [|[] [|[|[]| | | | | | |] ?]]; try done. by intros [= _ ->].
Qed.

(** One instruction does the same in both heaps. *)
Lemma exec_same B j s p : agree B j s → at_ bl B j p → exec den h p s = exec den h' p s.
Proof.
  intros Hag Hp. unfold exec. pose proof (Hrel p) as Hr.
  destruct (h !! p) as [i|] eqn:Hi; inversion Hr as [? i' Hri|]; subst; [|done].
  pose proof (eval_same B j s p i i' Hag Hp Hi Hri) as He.
  rewrite (rel_load P i i') by done. pose proof (rel_store P i i' Hri) as Hs.
  destruct (load_of i); [done|]. destruct (store_of i) as [[l q]|] eqn:Es.
  - destruct Hs as (q' & -> & [->|Hq]); [done|].
    rewrite (agree_use B j s p q q' 1 (Arg_Value (Some q))); try done; [|by left].
    unfold arg_at. rewrite Hi. simpl. by eapply store_arg.
  - rewrite Hs, He, (ri_op _ _ _ Hri). done.
Qed.

Lemma upd_eq {A B} `{EqDecision A} (f : A → B) a b : upd f a b a = b.
Proof. unfold upd. by rewrite decide_True. Qed.
Lemma upd_ne {A B} `{EqDecision A} (f : A → B) a b x : x ≠ a → upd f a b x = f x.
Proof. intros. unfold upd. by rewrite decide_False. Qed.

(** What one instruction changes. *)
Lemma exec_env p s x : x ≠ p → env (exec den h' p s) x = env s x.
Proof.
  intros Hne. unfold exec. destruct (h' !! p) as [i|]; [|done].
  destruct (load_of i); [simpl; by rewrite upd_ne|].
  destruct (store_of i) as [[]|]; [done|]. destruct (den _ _ _). simpl. by rewrite upd_ne.
Qed.
Lemma exec_mem p s l : (∀ q, ¬ stores h' p l q) → mem (exec den h' p s) l = mem s l.
Proof.
  intros Hne. unfold exec, stores in *. destruct (h' !! p) as [i|]; [|done].
  destruct (load_of i); [done|].
  destruct (store_of i) as [[l' q]|] eqn:E; [|by destruct (den _ _ _)].
  simpl. apply upd_ne. intros ->. eapply Hne. by exists i.
Qed.
Lemma exec_load p s l : loads h' p l → env (exec den h' p s) p = mem s l.
Proof. intros (i & Hi & Hl). unfold exec. rewrite Hi, Hl. simpl. apply upd_eq. Qed.
Lemma exec_store p s l q : stores h' p l q →
  mem (exec den h' p s) l = env s q ∧ env (exec den h' p s) = env s.
Proof.
  intros (i & Hi & Hs). unfold exec. rewrite Hi.
  assert (load_of i = None) as ->.
  { unfold load_of, store_of in *. by destruct (inst_op i). }
  rewrite Hs. simpl. by rewrite upd_eq.
Qed.

Lemma at_fun B j p q : at_ bl B j p → at_ bl B j q → p = q.
Proof. unfold at_. congruence. Qed.

Lemma agree_step B j s p : agree B j s → at_ bl B j p → agree B (S j) (exec den h' p s).
Proof.
  intros Hag Hp. split.
  - intros x v C a b c l q Hxv Hj Hc. destruct Hj as [Hv Hq Hx Hab Hbc Hst Hld Hlast].
    assert (Hj : just_at bl h' x v C a b c l q) by (by split).
    destruct (decide (p = x)) as [->|Hpx].
    + destruct (Huniq _ _ _ _ _ Hp Hx) as [<- <-].
      rewrite (exec_load x s l) by done. rewrite exec_env.
      { eapply (ag_mem _ _ _ Hag); [done|done|lia]. }
      intros ->. destruct (Huniq _ _ _ _ _ Hv Hx). lia.
    + rewrite !exec_env; [|intros <-|done].
      * eapply (ag_env _ _ _ Hag); [done|done|]. destruct Hc as [|Hc]; [by left|].
        destruct (decide (C = B)) as [->|]; [|by left]. right.
        assert (c ≠ j); [|lia]. intros ->. by destruct Hpx; eapply at_fun.
      * destruct (Huniq _ _ _ _ _ Hp Hv) as [-> ->]. destruct Hc as [|]; [done|]. lia.
  - intros x v a b c l q Hxv Hj Hb. destruct Hj as [Hv Hq Hx Hab Hbc Hst Hld Hlast].
    assert (Hj : just_at bl h' x v B a b c l q) by (by split).
    destruct (decide (b = j)) as [->|Hbj].
    + assert (p = q) as -> by (by eapply at_fun).
      destruct (exec_store q s l v Hst) as [-> ->]. done.
    + rewrite exec_mem, exec_env.
      * eapply (ag_mem _ _ _ Hag); [done|done|lia].
      * intros ->. destruct (Huniq _ _ _ _ _ Hp Hv). lia.
      * intros q'. apply (Hlast j p q'); [lia|done].
Qed.

(** After a whole block every replaced value agrees with its replacement. *)
Definition settled (s : mstate V W) : Prop := ∀ x v, P x v → env s x = env s v.

Lemma settled_agree B s : settled s → agree B 0 s.
Proof. intros Hs. split; intros; [by apply Hs|lia]. Qed.

Lemma agree_settled B j s : block_insts bl B !! j = None → agree B j s → settled s.
Proof.
  intros Hnone Hag x v Hxv. destruct (Hjust x v Hxv) as (C & a & b & c & l & q & Hj).
  eapply (ag_env _ _ _ Hag); [done|done|]. destruct (decide (C = B)) as [->|]; [|by left]. right.
  apply lookup_ge_None in Hnone. pose proof (ja_x _ _ _ _ _ _ _ _ _ _ Hj) as Hx.
  apply lookup_lt_Some in Hx. lia.
Qed.

Lemma exec_block_same B s :
  settled s → exec_block den bl h B s = exec_block den bl h' B s ∧ settled (exec_block den bl h' B s).
Proof.
  intros Hs. unfold exec_block.
  assert (Hgen : ∀ l j s, (∀ k, block_insts bl B !! (j + k)%nat = l !! k) → agree B j s →
    foldl (λ s p, exec den h p s) s l = foldl (λ s p, exec den h' p s) s l ∧
    settled (foldl (λ s p, exec den h' p s) s l)).
  { induction l as [|p l IH]; intros j s1 Hl Hag.
    - split; [done|]. eapply agree_settled; [|done]. specialize (Hl 0%nat).
      by rewrite Nat.add_0_r in Hl.
    - assert (at_ bl B j p) as Hp by (specialize (Hl 0%nat); by rewrite Nat.add_0_r in Hl).
      simpl. rewrite (exec_same B j s1 p) by done. apply (IH (S j)).
      + intros k. specialize (Hl (S k)). by replace (S j + k)%nat with (j + S k)%nat by lia.
      + by apply agree_step. }
  apply (Hgen _ 0%nat); [done|by apply settled_agree].
Qed.

Lemma exec_path_same path s :
  settled s → exec_path den bl h path s = exec_path den bl h' path s.
Proof.
  revert s. induction path as [|B path IH]; intros s Hs; [done|]. unfold exec_path in *. simpl.
  destruct (exec_block_same B s Hs) as [-> Hs']. by apply IH.
Qed.

End sound.

(** ** What the pass does to the heap *)

(** The parts of an instruction that the semantics and the value map see. *)
Definition core (h : heap) (p : ptr) : option (OpCode.t * Z * list Arg) :=
  (λ i, (inst_op i, inst_id i, arguments i)) <$> h !! p.
Definition core_same (h h' : heap) : Prop := ∀ p, core h' p = core h p.

#[local] Instance core_same_preorder : PreOrder core_same.
Proof. split; [done|]. intros h1 h2 h3 H1 H2 p. by rewrite H2, H1. Qed.

Lemma tracks_upd_core p f :
  (∀ i, inst_op (f i) = inst_op i ∧ inst_id (f i) = inst_id i ∧ arguments (f i) = arguments i) →
  tracks core_same (upd_inst p f).
Proof.
  intros Hf h u h' H q. unfold upd_inst in H. destruct (h !! p) as [i|] eqn:E; inv_ok.
  unfold core. destruct (decide (q = p)) as [->|].
  - rewrite lookup_insert_eq, E. simpl. destruct (Hf i) as (-> & -> & ->). done.
  - by rewrite lookup_insert_ne.
Qed.

Lemma tracks_get_inst p : tracks core_same (get_inst p).
Proof. intros h i h' H. unfold get_inst in H. by destruct (h !! p); inv_ok. Qed.

Lemma Inst_Use_core this v : tracks core_same (Inst_Use this v).
Proof.
  unfold Inst_Use, assert_def. repeat first [apply tracks_bind; [apply _| |intros ?]
    | apply tracks_upd_core; by intros | apply tracks_get_inst | apply tracks_lift; apply _
    | apply tracks_get; apply _ | apply tracks_ret; apply _ | case_match].
Qed.

Lemma Inst_UnUse_core this v : tracks core_same (Inst_UnUse this v).
Proof.
  unfold Inst_UnUse, assert_def. repeat first [apply tracks_bind; [apply _| |intros ?]
    | apply tracks_upd_core; by intros | apply tracks_get_inst | apply tracks_lift; apply _
    | apply tracks_get; apply _ | apply tracks_ret; apply _ | case_match].
Qed.

Lemma DestroyArg_core this k : tracks core_same (DestroyArg this k).
Proof.
  unfold DestroyArg, ArgAt. repeat first [apply Inst_UnUse_core
    | apply tracks_bind; [apply _| |intros ?] | apply tracks_get_inst | apply tracks_lift; apply _
    | apply tracks_ret; apply _ | case_match].
Qed.

(** The heap after one slot was overwritten, up to [core]. *)
Definition set_slot (h : heap) (p : ptr) (k : nat) (a : Arg) (h' : heap) : Prop :=
  ∃ i, h !! p = Some i ∧ core h' p = Some (inst_op i, inst_id i, <[k := a]> (arguments i)) ∧
    ∀ q, q ≠ p → core h' q = core h q.

Lemma SetArg_slot this k a h h' u v :
  a = V_Value v ∨ a = V_Lambda (Lambda_value v) →
  SetArg this k a h = Ok (u, h') → set_slot h this k (Arg_of a) h'.
Proof.
  intros Ha H. unfold SetArg in H. apply st_bind_Ok in H as (u1 & h1 & H1 & H).
  apply DestroyArg_core in H1. apply st_bind_Ok in H as (u2 & h2 & H2 & H).
  unfold write_arg in H2. inv_ok. unfold upd_inst in *.
  destruct (h1 !! this) as [i1|] eqn:E1; inv_ok.
  pose proof (H1 this) as Hc. unfold core in Hc. rewrite E1 in Hc.
  destruct (h !! this) as [i|] eqn:Ei; [|done]. simpl in Hc. injection Hc as Ho Hid Har.
  assert (Hu : core_same (<[this := set_arguments (<[k := Arg_of a]> (arguments i1)) i1]> h1) h').
  { destruct Ha as [->| ->]; by apply Inst_Use_core in H. }
  exists i. split_and!; [done| |].
  - rewrite Hu. unfold core. rewrite lookup_insert_eq. simpl. by rewrite Ho, Hid, Har.
  - intros q Hq. rewrite Hu, <- H1. unfold core. by rewrite lookup_insert_ne.
Qed.

(** The argument that replaces [a]. *)
Definition retarget (a : Arg) (v : ptr) : Arg :=
  if Arg_IsValue a then Arg_Value (Some v)
  else if Arg_IsLambda a then Arg_Lambda (Lambda_value (Some v)) else a.

Lemma arg_at_core h h' p k : core h' p = core h p → arg_at h' p k = arg_at h p k.
Proof.
  unfold core, arg_at. destruct (h !! p), (h' !! p); simpl; intros; simplify_eq; [|done].
  by match goal with H : arguments _ = arguments _ |- _ => rewrite H end.
Qed.

Lemma replace_use_slot v u h h' r a :
  arg_at h (use_inst u) (Z.to_nat (arg_idx u)) = Some a → Arg_IsValue a = true ∨ Arg_IsLambda a = true →
  replace_use (Some v) u h = Ok (r, h') →
  set_slot h (use_inst u) (Z.to_nat (arg_idx u)) (retarget a v) h'.
Proof.
  intros Ha Hk H. unfold replace_use, ArgAt in H.
  apply st_bind_Ok in H as (a' & h1 & H1 & H). apply st_bind_Ok in H1 as (i & h2 & H2 & H1).
  unfold get_inst in H2. destruct (h !! use_inst u) as [i0|] eqn:E; inv_ok.
  unfold st_lift in H1. destruct (arguments i !! _) as [a1|] eqn:Ea; simpl in H1; inv_ok.
  assert (a' = a) as ->. { unfold arg_at in Ha. rewrite E in Ha. simpl in Ha. congruence. }
  unfold retarget. destruct (Arg_IsValue a).
  - eapply (SetArg_slot _ _ (V_Value (Some v))); eauto.
  - destruct Hk as [|Hk]; [done|]. rewrite Hk in *.
    eapply (SetArg_slot _ _ (V_Lambda (Lambda_value (Some v)))); eauto.
Qed.

Lemma rel_core P (h0 h h' : heap) p :
  core h' p = core h p → option_Forall2 (rel_inst P) (h0 !! p) (h !! p) →
  option_Forall2 (rel_inst P) (h0 !! p) (h' !! p).
Proof.
  unfold core. intros Hc Hr. destruct (h !! p) as [i|], (h' !! p) as [i'|]; try done.
  simpl in Hc. injection Hc as Ho Hid Ha. inversion Hr as [i0 ? []|]; subst.
  constructor. split; congruence.
Qed.

Lemma rel_mono (P Q : ptr → ptr → Prop) h h' :
  (∀ x v, P x v → Q x v) → rel P h h' → rel Q h h'.
Proof.
  intros HPQ Hr p. destruct (Hr p) as [i i' Hi|]; [|constructor]. constructor.
  destruct Hi as [Ho Hid Ha]. split; [done..|]. eapply Forall2_impl; [done|].
  intros a a' []; constructor; auto.
Qed.

Lemma rel_arg_at P h0 h p k a :
  rel P h0 h → arg_at h0 p k = Some a → ∃ a', arg_at h p k = Some a' ∧ rel_arg P a a'.
Proof.
  intros Hr Ha. unfold arg_at in *. destruct (Hr p) as [i i' [_ _ Hi]|]; [|done].
  simpl in *. eapply Forall2_lookup_l in Hi as (a' & ? & ?); [|done]. eauto.
Qed.

(** Writing the replacement into a slot that mentioned the replaced value. *)
Lemma rel_set_slot (P : ptr → ptr → Prop) h0 h h' p k a a' x v :
  rel P h0 h → P x v → arg_at h0 p k = Some a → mentions a x → arg_at h p k = Some a' →
  set_slot h p k (retarget a' v) h' → rel P h0 h'.
Proof.
  intros Hr Hxv Ha0 Hm Ha' (i & Hi & Hc & Ho) q.
  destruct (decide (q = p)) as [->|Hq]; [|by eapply rel_core, Hr; apply Ho].
  pose proof (Hr p) as Hp. unfold arg_at in Ha0, Ha'. rewrite Hi in Hp, Ha'. simpl in Ha'.
  destruct (h0 !! p) as [i0|] eqn:E0; [|done]. simpl in Ha0.
  inversion Hp as [? ? [Hop Hid Hargs]|]; subst.
  assert (Hra : rel_arg P a (retarget a' v)).
  { pose proof (Forall2_lookup_lr _ _ _ _ _ _ Hargs Ha0 Ha') as Hra.
    destruct Hm as [->| ->]; inversion Hra; subst; simpl; by constructor. }
  unfold core in Hc. destruct (h' !! p) as [i'|]; [|done]. simpl in Hc. injection Hc as E1 E2 E3.
  constructor. split; [congruence..|]. rewrite E3, <- (list_insert_id (arguments i0) k a) by done.
  by apply Forall2_insert.
Qed.

Lemma set_slot_other h p k a h' q k' :
  set_slot h p k a h' → (q, k') ≠ (p, k) → arg_at h' q k' = arg_at h q k'.
Proof.
  intros (i & Hi & Hc & Ho) Hne. destruct (decide (q = p)) as [->|Hq].
  - unfold core, arg_at in *. destruct (h' !! p) as [i'|]; [|done]. rewrite Hi. simpl in *.
    injection Hc as _ _ ->. apply list_lookup_insert_ne. congruence.
  - by apply arg_at_core, Ho.
Qed.

(** The slot that a use names. *)
Abbreviation slot u := (use_inst u, Z.to_nat (arg_idx u)).

Lemma replace_loop P h0 x v us h h' r :
  P x v → rel P h0 h →
  (∀ u, u ∈ us → ∃ a, arg_at h0 (slot u).1 (slot u).2 = Some a ∧ mentions a x) →
  st_iter (replace_use (Some v)) us h = Ok (r, h') →
  rel P h0 h' ∧ ∀ p k, (∀ u, u ∈ us → (p, k) ≠ slot u) → arg_at h' p k = arg_at h p k.
Proof.
  intros Hxv. revert h r. induction us as [|u us IH]; intros h r Hr Hus H; simpl in H.
  - by inv_ok.
  - apply st_bind_Ok in H as (r1 & h1 & H1 & H).
    destruct (Hus u) as (a & Ha & Hm); [by left|]. simpl in Ha.
    destruct (rel_arg_at _ _ _ _ _ _ Hr Ha) as (a' & Ha' & Hra).
    apply (replace_use_slot v u h h1 r1 a' Ha') in H1.
    2:{ destruct Hm as [->| ->]; inversion Hra; subst; auto. }
    destruct (IH h1 r) as [Hr' Ho]; [|by intros; apply Hus; right|done|].
    { eapply (rel_set_slot P h0 h h1 _ _ a a' x v); done. }
    split; [done|]. intros p k Hpk. rewrite Ho by (intros; apply Hpk; by right).
    eapply set_slot_other; [done|]. apply Hpk. by left.
Qed.

(** ** Well-formed functions *)
Definition named (f : HIRFunction) (d : ptr) : Prop :=
  ∃ w x, pool_values f !! w = Some x ∧ hv_value x = Some d.

(** What the builder establishes: every instruction has one place, values are
    used after their definition inside a block, every value knows its block,
    ids of values are distinct, the recorded uses are uses, and a block only
    stores values of blocks up to itself in the order of the vector. *)
Record elim_pre (s : hir) : Prop := {
  ep_uniq : uniq (block_list (fn s));
  ep_vec : blocks (fn s) = Some <$> seq 0 (length (block_list (fn s)));
  ep_ssa : ssa (block_list (fn s)) (insts s);
  ep_loc w x : pool_values (fn s) !! w = Some x →
    ∃ d a, hv_value x = Some d ∧ at_ (block_list (fn s)) (hv_block x) a d;
  ep_ids w1 w2 x1 x2 d1 d2 i1 i2 :
    pool_values (fn s) !! w1 = Some x1 → pool_values (fn s) !! w2 = Some x2 →
    hv_value x1 = Some d1 → hv_value x2 = Some d2 →
    insts s !! d1 = Some i1 → insts s !! d2 = Some i2 → inst_id i1 = inst_id i2 → w1 = w2;
  ep_stored q l p : stores (insts s) q l p → named (fn s) p;
  ep_loaded x l : loads (insts s) x l → named (fn s) x;
  ep_uses w x d u : pool_values (fn s) !! w = Some x → hv_value x = Some d → u ∈ uses x →
    ∃ a, arg_at (insts s) (slot u).1 (slot u).2 = Some a ∧ mentions a d;
  ep_order q l p A j C c : stores (insts s) q l p → at_ (block_list (fn s)) A j q →
    at_ (block_list (fn s)) C c p → (C ≤ A)%nat;
}.

Lemma stores_rel P h0 h q l v :
  rel P h0 h → stores h q l v → ∃ v0, stores h0 q l v0 ∧ (v = v0 ∨ P v0 v).
Proof.
  intros Hr (i & Hi & Hs). pose proof (Hr q) as Hq. rewrite Hi in Hq.
  inversion Hq as [i0 ? Hri|]; subst. pose proof (rel_store _ _ _ Hri) as Hst.
  destruct (store_of i0) as [[l0 q0]|] eqn:E; [|congruence].
  destruct Hst as (q' & Hq' & Hc). simplify_eq. exists q0. split; [by exists i0|].
  naive_solver.
Qed.

Lemma loads_rel P h0 h x l : rel P h0 h → loads h x l ↔ loads h0 x l.
Proof.
  intros Hr. unfold loads. pose proof (Hr x) as Hx.
  destruct Hx as [i0 i Hri|]; [|naive_solver].
  pose proof (rel_load _ _ _ Hri). split; intros (j & Hj & Hl); simplify_eq; eexists; split; eauto; congruence.
Qed.

Lemma stores_arg h q l v : stores h q l v → arg_at h q 1 = Some (Arg_Value (Some v)).
Proof.
  intros (i & Hi & Hs). unfold arg_at. rewrite Hi. simpl. unfold store_of in Hs.
  destruct (inst_op i); try done.
  destruct (arguments i) as [|[] [|[|[]| | | | | | |] ?]]; try done. by injection Hs as _ ->.
Qed.

(** A store whose value slot was not touched still stores the same. *)
Lemma stores_keep P P' h0 h h' q l v :
  rel P h0 h → rel P' h0 h' → arg_at h' q 1 = arg_at h q 1 → stores h q l v → stores h' q l v.
Proof.
  intros Hr Hr' Ha Hs. pose proof (stores_arg _ _ _ _ Hs) as Hv.
  destruct (stores_rel _ _ _ _ _ _ Hr Hs) as (v0 & (i0 & Hi0 & Hs0) & _).
  pose proof (Hr' q) as Hq. rewrite Hi0 in Hq. inversion Hq as [? i' Hri|]; subst.
  pose proof (rel_store _ _ _ Hri) as Hst. rewrite Hs0 in Hst. destruct Hst as (v1 & Hv1 & _).
  assert (stores h' q l v1) as Hs1 by (by exists i').
  pose proof (stores_arg _ _ _ _ Hs1) as Hv1'. rewrite Ha, Hv in Hv1'. by simplify_eq.
Qed.

Lemma just_keep P P' h0 h h' bl x v B a b c l q :
  rel P h0 h → rel P' h0 h' → arg_at h' q 1 = arg_at h q 1 →
  just_at bl h x v B a b c l q → just_at bl h' x v B a b c l q.
Proof.
  intros Hr Hr' Ha [Hv Hq Hx Hab Hbc Hst Hld Hlast]. split; try done.
  - exact (stores_keep P P' h0 h h' q l v Hr Hr' Ha Hst).
  - apply (loads_rel _ _ _ _ _ Hr'). by apply (loads_rel _ _ _ _ _ Hr).
  - intros j q' v' Hj Hq' Hs. destruct (stores_rel _ _ _ _ _ _ Hr' Hs) as (v0 & (i0 & Hi0 & Hs0) & _).
    pose proof (Hr q') as Hri0. rewrite Hi0 in Hri0. inversion Hri0 as [? i Hri|]; subst.
    pose proof (rel_store _ _ _ Hri) as Hs1. rewrite Hs0 in Hs1. destruct Hs1 as (v1 & Hv1 & _).
    eapply (Hlast j q' v1); [done|done|]. by exists i.
Qed.

(** ** The invariant of the pass *)
Section pass.
Context (s0 : hir) (Hpre : elim_pre s0).
#[local] Set Default Proof Using "All".

Abbreviation bl := (block_list (fn s0)).
Abbreviation h0 := (insts s0).

(** Place [(C, c)] comes before place [(B, j)] in the order of the pass. *)
Definition done_at (B j C c : nat) : Prop := (C < B)%nat ∨ C = B ∧ (c < j)%nat.

(** The last store to local [l] before place [j] of block [B] stores [d]. *)
Definition last_store (h : heap) (B j l : nat) (d : ptr) : Prop :=
  ∃ a b q, at_ bl B a d ∧ at_ bl B b q ∧ (a < b < j)%nat ∧ stores h q l d ∧
    ∀ k q' v', (b < k < j)%nat → at_ bl B k q' → ¬ stores h0 q' l v'.

Record pass_inv (P : ptr → ptr → Prop) (B j : nat) (s : hir) (cur : locals) : Prop := {
  pi_rel : rel P h0 (insts s);
  pi_just x v : P x v → named (fn s0) v ∧ ∃ C a b c l q,
    just_at bl (insts s) x v C a b c l q ∧ done_at B j C c;
  pi_fn : ∃ vals, fn s = set_values vals (fn s0);
  pi_cur l w : cur !! l = Some (Some w) → ∃ x d, pool_values (fn s0) !! w = Some x ∧
    hv_value x = Some d ∧ (hv_block x ≤ B)%nat ∧
    (hv_block x = B → last_store (insts s) B j l d);
  pi_uses C c x w y u : at_ bl C c x → ¬ done_at B j C c →
    pool_values (fn s0) !! w = Some y → hv_value y = Some x → u ∈ uses y →
    arg_at (insts s) (slot u).1 (slot u).2 = arg_at h0 (slot u).1 (slot u).2;
}.

Lemma last_store_skip h B j l d p :
  at_ bl B j p → (∀ v, ¬ stores h0 p l v) → last_store h B j l d → last_store h B (S j) l d.
Proof.
  intros Hp Hns (a & b & q & Ha & Hb & Hab & Hst & Hno). exists a, b, q. split_and!; try done; try lia.
  intros k q' v' Hk Hq'. destruct (decide (k = j)) as [->|]; [|exact (Hno k q' v' ltac:(lia) Hq')].
  assert (q' = p) as -> by (unfold at_ in *; congruence). apply Hns.
Qed.

(** An instruction that is not a store and is left alone. *)
Lemma inv_skip P B j s cur p :
  pass_inv P B j s cur → at_ bl B j p → (∀ l v, ¬ stores h0 p l v) → pass_inv P B (S j) s cur.
Proof.
  intros [Hr Hj Hf Hc Hu] Hp Hns. split; try done.
  - intros x v Hxv. destruct (Hj x v Hxv) as (Hn & C & a & b & c & l & q & Hja & Hd).
    split; [done|]. exists C, a, b, c, l, q. split; [done|]. unfold done_at in *. lia.
  - intros l w Hl. destruct (Hc l w Hl) as (x & d & Hx & Hd & Hle & Hls).
    exists x, d. split_and!; try done. intros Heq.
    apply (last_store_skip _ _ _ _ _ p); auto.
  - intros C c x w y u Hx Hd. apply (Hu C c x w y u Hx). unfold done_at in *. lia.
Qed.

Lemma inv_next_block P B j s cur :
  block_insts bl B !! j = None → pass_inv P B j s cur → pass_inv P (S B) 0 s cur.
Proof.
  intros Hend [Hr Hj Hf Hc Hu]. split; try done.
  - intros x v Hxv. destruct (Hj x v Hxv) as (Hn & C & a & b & c & l & q & Hja & Hd).
    split; [done|]. exists C, a, b, c, l, q. split; [done|]. unfold done_at in *. lia.
  - intros l w Hl. destruct (Hc l w Hl) as (x & d & Hx & Hd & Hle & Hls).
    exists x, d. split_and!; try done; [lia|]. lia.
  - intros C c x w y u Hx Hd. apply (Hu C c x w y u Hx). unfold done_at in *. lia.
Qed.

(** *** The value map *)
Lemma map_find_Some s id l v :
  map_find s id l = Ok (Some v) → v ∈ l ∧ value_id s v = Ok id.
Proof.
  induction l as [|w l IH]; simpl; [done|]. intros H. apply res_bind_Ok in H as (k & Hk & H).
  destruct (Z.eqb_spec (HIRValue_Compare id k) 0) as [E|].
  - inv_ok. split; [by left|]. rewrite Hk. f_equal. unfold HIRValue_Compare in E.
    destruct (Z.ltb_spec id k); [done|]. destruct (Z.ltb_spec k id); [done|]. lia.
  - destruct (IH H) as [Hin Hv]. split; [by right|done].
Qed.

(** Looking up the value of a named instruction gives its own entry. *)
Lemma GetHIRValue_named P s vals p w s' :
  rel P h0 (insts s) → fn s = set_values vals (fn s0) → named (fn s0) p →
  GetHIRValue (Some p) s = Ok (Some w, s') →
  s' = s ∧ ∃ x, pool_values (fn s0) !! w = Some x ∧ hv_value x = Some p.
Proof.
  intros Hr Hf (w2 & x2 & Hw2 & Hx2) H. unfold GetHIRValue in H.
  rewrite (st_bind_run _ _ s s s) in H by done.
  destruct (values (fn s)) as [|w3 l3]; [by inv_ok|].
  rewrite (st_bind_run _ _ s s p) in H by done.
  destruct (insts s !! p) as [i|] eqn:Ei.
  2:{ by rewrite (st_bind_err _ _ s NullDeref) in H. }
  rewrite (st_bind_run _ _ s s i) in H by done. unfold st_lift in H.
  destruct (map_find s (inst_id i) (w3 :: l3)) as [r|] eqn:Em; inv_ok.
  apply map_find_Some in Em as [_ Hv]. split; [done|].
  unfold value_id in Hv. rewrite Hf in Hv. simpl in Hv.
  apply res_bind_Ok in Hv as (x & Hx & Hv). apply of_option_Ok in Hx.
  apply res_bind_Ok in Hv as (d & Hd & Hv). apply of_option_Ok in Hd.
  apply res_bind_Ok in Hv as (j & Hj & Hv). apply of_option_Ok in Hj. injection Hv as Hid.
  pose proof (Hr p) as Hrp. rewrite Ei in Hrp. inversion Hrp as [ip ? Hip|]; subst.
  pose proof (Hr d) as Hrd. rewrite Hj in Hrd. inversion Hrd as [id' ? Hid'|]; subst.
  exists x. split; [done|].
  assert (w = w2) as ->; [|congruence].
  eapply (ep_ids _ Hpre w w2 x x2 d p id' ip); try done.
  rewrite <- (ri_id _ _ _ Hid'), <- (ri_id _ _ _ Hip). done.
Qed.

Lemma get_value_inv vals s v x s' :
  fn s = set_values vals (fn s0) → get_value v s = Ok (x, s') →
  s' = s ∧ pool_values (fn s0) !! v = Some x.
Proof.
  intros Hf H. unfold get_value, get_fn in H. inv_ok. unfold st_lift in *.
  rewrite Hf in *. simpl in *. destruct (pool_values (fn s0) !! v); simpl in *; by inv_ok.
Qed.

(** *** Reading the arguments *)
Lemma on_insts_Ok {A} (m : stM heap A) (s s' : hir) (a : A) :
  on_insts m s = Ok (a, s') → ∃ h, m (insts s) = Ok (a, h) ∧ s' = mkHir h (fn s).
Proof. unfold on_insts. destruct (m (insts s)) as [[b h]|]; intros; inv_ok. eauto. Qed.

Lemma ArgAt_run p k s a s' :
  on_insts (ArgAt p k) s = Ok (a, s') → s' = s ∧ arg_at (insts s) p k = Some a.
Proof.
  intros (h & H & ->)%on_insts_Ok. unfold ArgAt, get_inst in H.
  apply st_bind_Ok in H as (i & h1 & H1 & H). unfold arg_at.
  destruct (insts s !! p) as [j|] eqn:E; inv_ok. unfold st_lift in H.
  destruct (arguments i !! k) eqn:Ek; simpl in H; inv_ok. split; [by destruct s|done].
Qed.

Lemma GetArg_Local_run p s lc s' :
  on_insts (GetArg_Local p 0) s = Ok (lc, s') → s' = s ∧ arg_at (insts s) p 0 = Some (Arg_Local lc).
Proof.
  intros (h & H & ->)%on_insts_Ok. unfold GetArg_Local in H.
  apply st_bind_Ok in H as (a & h1 & H1 & H).
  destruct (ArgAt_run p 0 s a (mkHir h1 (fn s))) as [E Ha].
  { unfold on_insts. by rewrite H1. }
  unfold st_lift in H. destruct a; simpl in H; inv_ok. by rewrite E.
Qed.

Lemma GetArg_Value_run p s v s' :
  on_insts (GetArg_Value p 1) s = Ok (v, s') → s' = s ∧ arg_at (insts s) p 1 = Some (Arg_Value v).
Proof.
  intros (h & H & ->)%on_insts_Ok. unfold GetArg_Value in H.
  apply st_bind_Ok in H as (a & h1 & H1 & H).
  destruct (ArgAt_run p 1 s a (mkHir h1 (fn s))) as [E Ha].
  { unfold on_insts. by rewrite H1. }
  unfold st_lift in H. destruct a; simpl in H; inv_ok. by rewrite E.
Qed.

Lemma store_intro h p i lc v :
  h !! p = Some i → inst_op i = OpCode.StoreLocal → arg_at h p 0 = Some (Arg_Local lc) →
  arg_at h p 1 = Some (Arg_Value (Some v)) → stores h p (Z.to_nat (local_id lc)) v.
Proof.
  intros Hi Ho H0 H1. unfold arg_at in *. rewrite Hi in *. simpl in *. exists i. split; [done|].
  unfold store_of. rewrite Ho. destruct (arguments i) as [|a [|a1 l]]; simplify_eq/=; done.
Qed.

Lemma load_intro h p i lc :
  h !! p = Some i → inst_op i = OpCode.LoadLocal → arg_at h p 0 = Some (Arg_Local lc) →
  loads h p (Z.to_nat (local_id lc)).
Proof.
  intros Hi Ho H0. unfold arg_at in *. rewrite Hi in *. simpl in *. exists i. split; [done|].
  unfold load_of. rewrite Ho. destruct (arguments i) as [|a l]; simplify_eq/=; done.
Qed.

Lemma stores_op h p l v i : stores h p l v → h !! p = Some i → inst_op i = OpCode.StoreLocal.
Proof. intros (j & Hj & Hs) Hi. assert (j = i) as -> by congruence.
  unfold store_of in Hs. by destruct (inst_op i). Qed.

(** *** [case OpCode::StoreLocal] *)

(** The value found for the stored instruction is defined before the store. *)
Lemma stored_place P B j s cur p l d :
  pass_inv P B j s cur → at_ bl B j p → stores (insts s) p l d →
  named (fn s0) d ∧ ∀ C a, at_ bl C a d → (C ≤ B)%nat ∧ (C = B → (a < j)%nat).
Proof.
  intros Hinv Hp Hst. destruct (stores_rel _ _ _ _ _ _ (pi_rel _ _ _ _ _ Hinv) Hst)
    as (d0 & Hst0 & Hd).
  pose proof (stores_arg _ _ _ _ Hst0) as Harg.
  assert (Hssa : ∀ c, at_ bl B c d0 → (c < j)%nat).
  { intros c Hc. eapply (ep_ssa _ Hpre B j p 1%nat _ d0); [done|done|by left|done]. }
  destruct Hd as [->|HP].
  - split; [by eapply (ep_stored _ Hpre)|]. intros C a Ha.
    split; [by eapply (ep_order _ Hpre)|]. intros ->. by apply Hssa.
  - destruct (pi_just _ _ _ _ _ Hinv _ _ HP) as (Hn & C & a & b & c & l' & q & Hj & Hdone).
    split; [done|]. intros C' a' Ha'.
    destruct (ep_uniq _ Hpre _ _ _ _ _ Ha' (ja_v _ _ _ _ _ _ _ _ _ _ Hj)) as [-> ->].
    split; [eapply (ep_order _ Hpre); [done|done|apply Hj]|].
    intros ->. pose proof (Hssa _ (ja_x _ _ _ _ _ _ _ _ _ _ Hj)).
    pose proof (ja_ab _ _ _ _ _ _ _ _ _ _ Hj). pose proof (ja_bc _ _ _ _ _ _ _ _ _ _ Hj). lia.
Qed.

Lemma inv_store P B j s cur p i cur' s' :
  pass_inv P B j s cur → at_ bl B j p → insts s !! p = Some i → inst_op i = OpCode.StoreLocal →
  elim_store cur p s = Ok (cur', s') → s' = s ∧ pass_inv P B (S j) s cur'.
Proof.
  intros Hinv Hp Hi Ho H. unfold elim_store in H.
  apply st_bind_Ok in H as (lc & s1 & H1 & H). apply GetArg_Local_run in H1 as [-> Ha0].
  apply st_bind_Ok in H as (v & s1 & H1 & H). apply GetArg_Value_run in H1 as [-> Ha1].
  apply st_bind_Ok in H as (hv & s1 & H1 & H).
  apply st_bind_Ok in H as (o & s2 & H2 & H). unfold st_lift, local_at in H2.
  destruct (cur !! _) as [o'|] eqn:El; simpl in H2; inv_ok.
  destruct (pi_fn _ _ _ _ _ Hinv) as [vals Hf].
  assert (Hs' : s' = s).
  { unfold GetHIRValue in H1. rewrite (st_bind_run _ _ s s s) in H1 by done.
    destruct (values (fn s)); [by inv_ok|]. inv_ok. unfold st_lift in *.
    repeat case_match; simplify_eq/=; inv_ok; done. }
  subst s'. split; [done|].
  assert (Hl : ∀ l' v', stores h0 p l' v' → l' = Z.to_nat (local_id lc)).
  { intros l' v' Hst. destruct Hst as (i0 & Hi0 & Hs0).
    pose proof (pi_rel _ _ _ _ _ Hinv p) as Hr. rewrite Hi0, Hi in Hr.
    inversion Hr as [? ? Hri|]; subst. pose proof (rel_store _ _ _ Hri) as Hs. rewrite Hs0 in Hs.
    destruct Hs as (q' & Hq' & _). unfold store_of in Hq'. rewrite Ho in Hq'.
    unfold arg_at in Ha0. rewrite Hi in Ha0. simpl in Ha0.
    destruct (arguments i) as [|a [|[|[]| | | | | | |] l]]; simplify_eq/=; done. }
  pose proof Hinv as [Hr Hj _ Hc Hu]. split; try done.
  - intros x u Hxv. destruct (Hj x u Hxv) as (Hn & C & a & b & c & l & q & Hja & Hd).
    split; [done|]. exists C, a, b, c, l, q. split; [done|]. unfold done_at in *. lia.
  - by exists vals.
  - intros l w Hlw. apply list_lookup_insert_Some in Hlw as [(<- & -> & _)|(Hne & Hlw)].
    + assert (∃ d, v = Some d) as [d ->].
      { destruct v as [d|]; [by eexists|]. unfold GetHIRValue in H1.
        rewrite (st_bind_run _ _ s s s) in H1 by done. by destruct (values (fn s)); inv_ok. }
      pose proof (store_intro _ _ _ _ _ Hi Ho Ha0 Ha1) as Hst.
      destruct (stored_place _ _ _ _ _ _ _ _ Hinv Hp Hst) as [Hn Hpl].
      destruct (GetHIRValue_named P s vals d w s Hr Hf Hn H1) as (_ & x & Hx & Hxd).
      destruct (ep_loc _ Hpre w x Hx) as (d' & a & Hd' & Ha). rewrite Hxd in Hd'. simplify_eq.
      destruct (Hpl _ _ Ha) as [Hle Hlt]. exists x, d'. split_and!; try done.
      intros Heq. exists a, j, p. rewrite Heq in Ha. split_and!; try done; [auto|lia|].
      intros k q' v' Hk. lia.
    + destruct (Hc l w Hlw) as (x & d & Hx & Hd & Hle & Hls).
      exists x, d. split_and!; try done. intros Heq.
      apply (last_store_skip _ _ _ _ _ p); [done| |auto]. intros v' Hst. by destruct Hne; apply Hl in Hst.
  - intros C c x w y u Hx Hd. apply (Hu C c x w y u Hx). unfold done_at in *. lia.
Qed.

(** *** [case OpCode::LoadLocal] *)

(** Replacing the uses of the load [x] at the current place by [d]. *)
Lemma inv_replace P B j s cur x d l w y r h' :
  pass_inv P B j s cur → at_ bl B j x → loads (insts s) x l →
  last_store (insts s) B j l d → named (fn s0) d →
  pool_values (fn s0) !! w = Some y → hv_value y = Some x →
  st_iter (replace_use (Some d)) (uses y) (insts s) = Ok (r, h') →
  ∀ vals, pass_inv (λ a b, P a b ∨ a = x ∧ b = d) B (S j) (mkHir h' (set_values vals (fn s0))) cur.
Proof.
  intros Hinv Hx Hld Hls Hn Hw Hy Hrun vals. set (P' := λ a b, P a b ∨ a = x ∧ b = d).
  pose proof Hinv as [Hr Hj _ Hc Hu].
  destruct (replace_loop P' h0 x d (uses y) (insts s) h' r) as [Hr' Hkeep]; try done.
  { by right. } { eapply rel_mono; [|done]. intros; by left. }
  { intros u Hin. by eapply (ep_uses _ Hpre). }
  (* slots that do not hold [x] are untouched *)
  assert (Hslot : ∀ p k a, arg_at (insts s) p k = Some a → ¬ mentions a x →
    arg_at h' p k = arg_at (insts s) p k).
  { intros p k a Ha Hm. apply Hkeep. intros u Hin Heq. injection Heq as -> ->.
    destruct (ep_uses _ Hpre _ _ _ _ Hw Hy Hin) as (a0 & Ha0 & Hm0).
    rewrite <- (Hu B j x w y u) in Ha0; [|done|unfold done_at; lia|done..]. simpl in Ha0.
    simplify_eq. done. }
  assert (Hst : ∀ q l' v, stores (insts s) q l' v → v ≠ x →
    arg_at h' q 1 = arg_at (insts s) q 1).
  { intros q l' v Hq Hv. eapply Hslot; [by eapply stores_arg|].
    intros [Heq|Heq]; simplify_eq. }
  destruct Hls as (a & b & q & Ha & Hb & Hab & Hq & Hno).
  assert (Hdx : d ≠ x). { intros ->. destruct (ep_uniq _ Hpre _ _ _ _ _ Ha Hx). lia. }
  assert (Hlx : loads h0 x l) by (by eapply (loads_rel _ _ _ _ _ Hr)).
  assert (Hnst : ∀ l' v, ¬ stores h0 x l' v).
  { intros l' v (i & Hi & Hs). destruct Hlx as (i' & Hi' & Hl).
    assert (i' = i) as -> by congruence. unfold load_of, store_of in *. by destruct (inst_op i). }
  split; simpl.
  - done.
  - intros x1 v1 [HP|[-> ->]].
    + destruct (Hj _ _ HP) as (Hn1 & C & a1 & b1 & c1 & l1 & q1 & Hja & Hd). split; [done|].
      exists C, a1, b1, c1, l1, q1. split; [|unfold done_at in *; lia].
      eapply just_keep; [exact Hr|exact Hr'| |done]. eapply Hst; [apply Hja|].
      intros ->. destruct (ep_uniq _ Hpre _ _ _ _ _ (ja_v _ _ _ _ _ _ _ _ _ _ Hja) Hx) as [-> ->].
      pose proof (ja_ab _ _ _ _ _ _ _ _ _ _ Hja). pose proof (ja_bc _ _ _ _ _ _ _ _ _ _ Hja).
      unfold done_at in Hd. lia.
    + split; [done|]. exists B, a, b, j, l, q. split; [|unfold done_at; lia].
      split; try done; try lia.
      * eapply (stores_keep P P' h0 (insts s) h'); try done. by eapply Hst.
      * by apply (loads_rel _ _ _ _ _ Hr').
      * intros k q' v' Hk Hq' Hs. destruct (stores_rel _ _ _ _ _ _ Hr' Hs) as (v0 & Hs0 & _).
        exact (Hno k q' v0 Hk Hq' Hs0).
  - by exists vals.
  - intros l1 w1 Hl1. destruct (Hc l1 w1 Hl1) as (x1 & d1 & Hx1 & Hd1 & Hle & Hls1).
    exists x1, d1. split_and!; try done. intros Heq.
    apply (last_store_skip _ _ _ _ _ x); [done|auto|].
    destruct (Hls1 Heq) as (a1 & b1 & q1 & Ha1 & Hb1 & Hab1 & Hq1 & Hno1).
    exists a1, b1, q1. split_and!; try done; try lia.
    eapply (stores_keep P P' h0 (insts s) h'); try done. eapply Hst; [done|].
    intros ->. destruct (ep_uniq _ Hpre _ _ _ _ _ Ha1 Hx). lia.
  - intros C c x1 w1 y1 u Hx1 Hd Hw1 Hy1 Hin.
    pose proof (Hu C c x1 w1 y1 u Hx1 ltac:(unfold done_at in *; lia) Hw1 Hy1 Hin) as Heq.
    simpl in Heq. rewrite <- Heq.
    destruct (ep_uses _ Hpre _ _ _ _ Hw1 Hy1 Hin) as (a0 & Ha0 & Hm0). simpl in Ha0.
    apply (Hslot _ _ a0).
    + by rewrite Heq.
    + intros Hm. assert (x1 = x) as ->; [destruct Hm0 as [->| ->], Hm; by simplify_eq|].
      destruct (ep_uniq _ Hpre _ _ _ _ _ Hx1 Hx) as [-> ->]. unfold done_at in Hd. lia.
Qed.

Lemma inv_load P B j s cur x i u s' :
  pass_inv P B j s cur → at_ bl B j x → insts s !! x = Some i → inst_op i = OpCode.LoadLocal →
  elim_load B cur x s = Ok (u, s') → ∃ P', pass_inv P' B (S j) s' cur.
Proof.
  intros Hinv Hx Hi Ho H. unfold elim_load in H.
  apply st_bind_Ok in H as (lc & s1 & H1 & H). apply GetArg_Local_run in H1 as [-> Ha0].
  pose proof (load_intro _ _ _ _ Hi Ho Ha0) as Hld.
  assert (Hskip : pass_inv P B (S j) s cur).
  { eapply inv_skip; [done|done|]. intros l v (i0 & Hi0 & Hs0).
    pose proof (pi_rel _ _ _ _ _ Hinv x) as Hr. rewrite Hi0, Hi in Hr.
    inversion Hr as [? ? Hri|]; subst. unfold store_of in Hs0. rewrite <- (ri_op _ _ _ Hri), Ho in Hs0. done. }
  apply st_bind_Ok in H as (lv & s1 & H1 & H). unfold st_lift, local_at in H1.
  destruct (cur !! Z.to_nat (local_id lc)) as [lv'|] eqn:El; [|done].
  injection H1 as E1 E2. subst lv s1. destruct lv' as [w0|]; [|inv_ok; by exists P].
  destruct (pi_fn _ _ _ _ _ Hinv) as [vals Hf].
  apply st_bind_Ok in H as (x0 & s2 & H2 & H). apply (get_value_inv vals) in H2 as [-> Hx0]; [|done].
  destruct (pi_cur _ _ _ _ _ Hinv _ _ El) as (x0' & d & Hx0' & Hd & _ & Hls).
  assert (x0' = x0) as -> by congruence.
  case_bool_decide as Hb; [|inv_ok; by exists P].
  apply st_bind_Ok in H as (hv & s2 & H2 & H).
  destruct hv as [w|].
  2:{ assert (s2 = s) as ->; [|inv_ok; by exists P].
      unfold GetHIRValue in H2. rewrite (st_bind_run _ _ s s s) in H2 by done.
      destruct (values (fn s)); [by inv_ok|]. inv_ok. unfold st_lift in *.
      repeat case_match; simplify_eq/=; inv_ok; done. }
  assert (Hnx : named (fn s0) x).
  { eapply (ep_loaded _ Hpre). by eapply (loads_rel _ _ _ _ _ (pi_rel _ _ _ _ _ Hinv)). }
  destruct (GetHIRValue_named P s vals x w s2 (pi_rel _ _ _ _ _ Hinv) Hf Hnx H2)
    as (-> & y & Hy & Hyx).
  apply st_bind_Ok in H as (y' & s3 & H3 & H). apply (get_value_inv vals) in H3 as [-> Hy']; [|done].
  assert (y' = y) as -> by congruence.
  apply st_bind_Ok in H as (r & s3 & H3 & H). apply on_insts_Ok in H3 as (h' & H3 & ->).
  unfold DestroyHIRValue, upd_fn in H. inv_ok. simpl. rewrite Hf. simpl.
  rewrite Hd in H3. exists (λ a b, P a b ∨ a = x ∧ b = d).
  change (set_values ?v (set_values _ ?f)) with (set_values v f).
  eapply inv_replace; try done; [auto|]. by exists w0, x0.
Qed.

(** *** The loops *)
Lemma inv_insts P B j s cur l cur' s' :
  (∀ k, block_insts bl B !! (j + k)%nat = l !! k) →
  pass_inv P B j s cur → elim_insts B cur l s = Ok (cur', s') →
  ∃ P', pass_inv P' (S B) 0 s' cur'.
Proof.
  revert P j s cur. induction l as [|p l IH]; intros P j s cur Hl Hinv H; simpl in H.
  - inv_ok. exists P. eapply inv_next_block; [|done]. specialize (Hl 0%nat).
    by rewrite Nat.add_0_r in Hl.
  - assert (at_ bl B j p) as Hp by (specialize (Hl 0%nat); by rewrite Nat.add_0_r in Hl).
    apply st_bind_Ok in H as (cur1 & s1 & H1 & H).
    assert (∃ P1, pass_inv P1 B (S j) s1 cur1) as [P1 Hinv1].
    { unfold elim_inst in H1. apply st_bind_Ok in H1 as (op & s2 & H2 & H1).
      apply on_insts_Ok in H2 as (h2 & H2 & ->). unfold Inst_GetOp in H2.
      apply st_bind_Ok in H2 as (i & h3 & H3 & H2). apply get_inst_Ok in H3 as [Hi ->].
      assert (op = inst_op i ∧ mkHir h2 (fn s) = s) as [Hop Hs].
      { inv_ok. by destruct s. }
      rewrite Hs in H1.
      destruct (decide (op = OpCode.LoadLocal)) as [E1|E1].
      { rewrite E1 in H1. apply st_bind_Ok in H1 as (u & s3 & H3 & H1). inv_ok.
        eapply inv_load; [done|done|done|congruence|done]. }
      destruct (decide (op = OpCode.StoreLocal)) as [E2|E2].
      { rewrite E2 in H1. apply (inv_store P B j s cur p i) in H1 as [-> Hst]; try done; [eauto|congruence]. }
      assert (s1 = s ∧ cur1 = cur) as [-> ->] by (destruct op; try done; by inv_ok).
      exists P. eapply inv_skip; [done|done|]. intros l' v (i0 & Hi0 & Hs0).
      pose proof (pi_rel _ _ _ _ _ Hinv p) as Hr. rewrite Hi0, Hi in Hr.
      inversion Hr as [? ? Hri|]; subst. unfold store_of in Hs0. rewrite <- (ri_op _ _ _ Hri) in Hs0.
      by destruct (inst_op i). }
    eapply (IH P1 (S j)); [|done|done].
    intros k. specialize (Hl (S k)). by replace (S j + k)%nat with (j + S k)%nat by lia.
Qed.

Lemma inv_blocks P B n s cur u s' :
  (B + n = length bl)%nat → pass_inv P B 0 s cur →
  elim_blocks cur (Some <$> seq B n) s = Ok (u, s') →
  ∃ P' cur', pass_inv P' (B + n) 0 s' cur'.
Proof.
  revert P B s cur. induction n as [|n IH]; intros P B s cur Hn Hinv H; simpl in H.
  - inv_ok. exists P, cur. by rewrite Nat.add_0_r.
  - rewrite (st_bind_run _ _ s s B) in H by done.
    apply st_bind_Ok in H as (hb & s1 & H1 & H). apply st_bind_Ok in H as (cur1 & s2 & H2 & H).
    destruct (pi_fn _ _ _ _ _ Hinv) as [vals Hf].
    assert (s1 = s ∧ block_insts bl B = inst_list (block hb)) as [-> Hb].
    { unfold get_block, get_fn in H1. inv_ok. unfold st_lift in *. rewrite Hf in *. simpl in *.
      unfold block_insts. destruct (bl !! B); simpl in *; by inv_ok. }
    apply (inv_insts P B 0) in H2 as [P1 Hinv1]; [|intros k; by rewrite Hb|done].
    eapply IH in H as (P2 & cur2 & H); [|lia|done]. exists P2, cur2.
    by replace (B + S n)%nat with (S B + n)%nat by lia.
Qed.

End pass.

(** (C1) Local elimination preserves the meaning of every well-formed
    function: for every interpretation of the operations, every path through
    the blocks and every initial content of the locals, the rewritten
    function computes the same values, locals and effects; and apart from the
    arguments the pass only drops entries of the value map (the recorded uses
    of the values are not updated). *)
Theorem local_elimination_sound {V W : Type} (den : OpCode.t → list (sarg V) → W → V * W) s s' u :
  elim_pre s → LocalElimination_Run s = Ok (u, s') →
  (∀ path m w, exec_path den (block_list (fn s)) (insts s) path (mkState (λ _, None) m w) =
     exec_path den (block_list (fn s')) (insts s') path (mkState (λ _, None) m w)) ∧
  ∃ vals, fn s' = set_values vals (fn s).
Proof.
  intros Hpre H. unfold LocalElimination_Run, get_fn in H.
  rewrite (st_bind_run _ _ s s (fn s)) in H by done. rewrite (ep_vec _ Hpre) in H.
  assert (Hinit : pass_inv s (λ _ _, False) 0 0 s
    (replicate (Z.to_nat (MaxLocalId (fn s) + 1)) None)).
  { split; try done.
    - intros p. destruct (insts s !! p); constructor. split; try done.
      apply Forall_Forall2_diag, Forall_true. constructor.
    - exists (values (fn s)). by destruct (fn s).
    - intros l w Hl. apply lookup_replicate in Hl as [? _]. done. }
  eapply inv_blocks in H as (P & cur & [Hr Hj [vals Hf] _ _]); [|done|done|done].
  split; [|by exists vals]. rewrite Hf. simpl. intros path m w.
  apply (exec_path_same den (block_list (fn s)) (insts s) (insts s') P).
  - apply Hpre.
  - apply Hpre.
  - done.
  - intros x v Hxv. destruct (Hj x v Hxv) as (_ & C & a & b & c & l & q & Hja & _). eauto 10.
  - done.
Qed.

(** ** A function with one block: [a := LoadUniform; local0 := a; b := local0;
    local1 := b]. *)
Module Sample.

Definition code : list Inst :=
  [mkInst None [Arg_Uniform (mkUniform 0 ValueType.U64); Arg_Void; Arg_Void; Arg_Void]
     OpCode.LoadUniform 1 0 ValueType.U64;
   mkInst None [Arg_Local (mkLocal 0 ValueType.U64); Arg_Value (Some 0%nat); Arg_Void; Arg_Void]
     OpCode.StoreLocal 0 0 ValueType.VOID;
   mkInst None [Arg_Local (mkLocal 0 ValueType.U64); Arg_Void; Arg_Void; Arg_Void]
     OpCode.LoadLocal 1 1 ValueType.U64;
   mkInst None [Arg_Local (mkLocal 1 ValueType.U64); Arg_Value (Some 2%nat); Arg_Void; Arg_Void]
     OpCode.StoreLocal 0 0 ValueType.VOID].

Definition insts : heap := map_seq 0 code.

Definition func : HIRFunction :=
  mkFunction 0 0 1 1 2
    [mkHIRBlock 0 (mkBlock 0 0 [0%nat; 1%nat; 2%nat; 3%nat] T_PopRSBHint) [] [] [] [] [] [] None]
    [] [mkHIRValue (Some 0%nat) 0%nat VA_NONE [mkUse 1%nat 1]; mkHIRValue (Some 2%nat) 0%nat VA_NONE [mkUse 3%nat 1]]
    [1%nat; 0%nat] [Some 0%nat]
    (match link_block 0 root_nodes with Ok nd => nd | Err _ => ∅ end) (HIRPools_chunk 1) None.

Definition state : hir := mkHir insts func.

Lemma look p i : insts !! p = Some i → code !! p = Some i.
Proof. unfold insts. by rewrite lookup_map_seq_0. Qed.

Lemma place B j p : at_ (block_list func) B j p → B = 0%nat ∧ j = p ∧ (p < 4)%nat.
Proof.
  unfold at_, block_insts. destruct B as [|[|]]; simpl; try done.
  destruct j as [|[|[|[|j]]]]; simpl; intros; simplify_eq; try lia; try done.
Qed.

Ltac cases_inst H p := apply look in H; destruct p as [|[|[|[|p]]]]; simpl in H; simplify_eq.

Lemma state_wf : elim_pre state.
Proof.
  split; simpl.
  - intros B j B' j' p H1%place H2%place. naive_solver.
  - done.
  - intros B j q k a p c Hq%place Ha Hm Hc%place. unfold arg_at in Ha.
    destruct (insts !! q) as [i|] eqn:E; [|done]. cases_inst E q;
      destruct k as [|[|[|[|k]]]]; simpl in Ha; simplify_eq; destruct Hm; simplify_eq; lia.
  - intros [|[|w]] x Hx; simpl in Hx; simplify_eq; [by exists 0%nat, 0%nat|by exists 2%nat, 2%nat].
  - intros w1 w2 x1 x2 d1 d2 i1 i2 H1 H2 H3 H4 H5 H6 H7.
    destruct w1 as [|[|w1]], w2 as [|[|w2]]; simpl in *; simplify_eq/=; try done;
      apply look in H5, H6; simpl in *; simplify_eq.
  - intros q l p (i & Hi & Hs). cases_inst Hi q; cbv in Hs; simplify_eq.
    + exists 0%nat; eexists; split; reflexivity.
    + exists 1%nat; eexists; split; reflexivity.
  - intros x l (i & Hi & Hs). cases_inst Hi x; cbv in Hs; simplify_eq. exists 1%nat; eexists; split; reflexivity.
  - intros [|[|w]] x d u Hx Hd Hu; simpl in *; simplify_eq/=;
      apply list_elem_of_singleton in Hu as ->; eexists; (split; [reflexivity|by left]).
  - intros q l p A j C c _ Hq%place Hp%place. lia.
Qed.

End Sample.

Lemma local_elimination_sound_witness :
  ∃ s', LocalElimination_Run Sample.state = Ok (tt, s') ∧
    arg_at (insts s') 3 1 = Some (Arg_Value (Some 0%nat)) ∧
    exec_path (λ _ _ w, (w, w + 1)) (block_list (fn s')) (insts s') [0%nat]
      (mkState (λ _, None) (λ _, None) 7) =
    exec_path (λ _ _ w, (w, w + 1)) (block_list Sample.func) Sample.insts [0%nat]
      (mkState (λ _, None) (λ _, None) 7).
Proof.
  eexists. split; [vm_compute; reflexivity|]. split; [vm_compute; reflexivity|].
  symmetry. eapply (local_elimination_sound (λ _ _ w, (w, w + 1)) Sample.state);
    [exact Sample.state_wf|vm_compute; reflexivity].
Defined.
