(* ===== verification/CFG.v ===== *)
(** * Control-flow analysis

    [runtime/ir/opts/cfg_analysis_pass.cpp]: dominating edges, back edges, the
    order in which blocks are pushed and immediate dominators of a finished function. *)

From S2P Require Import Prelude IntrusiveList IRTypes Inst HIR.

(** ** [CommonDominator] *)

Definition GetDominator (bl : list HIRBlock) (b : bptr) : res (option bptr) :=
  x ← of_option NullDeref (bl !! b); Ok (dominator x).

(** [ChainLength]; the chain of a block is no longer than the block list unless
    it is cyclic. *)
Fixpoint ChainLength (fuel : nat) (bl : list HIRBlock) (block : option bptr) : res nat :=
  match block with
  | None => Ok 0%nat
  | Some b =>
      match fuel with
      | O => Err OutOfFuel
      | S fuel' =>
          d ← GetDominator bl b;
          n ← ChainLength fuel' bl d;
          Ok (S n)
      end
  end.

Definition chain_fuel (bl : list HIRBlock) : nat := S (length bl).

Record CommonDominator := mkCD { cd_dominator : option bptr; chain_length_ : nat }.

Definition CommonDominator_new (bl : list HIRBlock) (block : option bptr) : res CommonDominator :=
  n ← ChainLength (chain_fuel bl) bl block; Ok (mkCD block n).

(** The loops that equalize the chain lengths: [n] steps up. *)
Fixpoint climb (n : nat) (bl : list HIRBlock) (block : bptr) : res bptr :=
  match n with
  | O => Ok block
  | S n' =>
      d ← GetDominator bl block;
      b ← of_option AssertFailed d;
      climb n' bl b
  end.

(** The loop that runs up both chains. *)
Fixpoint meet (fuel : nat) (bl : list HIRBlock) (block block2 : bptr) (chain_length : nat)
    : res (bptr * nat) :=
  if bool_decide (block = block2) then Ok (block, chain_length)
  else
    match fuel with
    | O => Err OutOfFuel
    | S fuel' =>
        d ← GetDominator bl block;
        b ← of_option AssertFailed d;
        d2 ← GetDominator bl block2;
        b2 ← of_option AssertFailed d2;
        meet fuel' bl b b2 (chain_length - 1)
    end.

Definition CommonDominator_Update (bl : list HIRBlock) (block : option bptr) (c : CommonDominator)
    : res CommonDominator :=
  b ← of_option AssertFailed block;
  match cd_dominator c with
  | None =>
      n ← ChainLength (chain_fuel bl) bl (Some b);
      Ok (mkCD (Some b) n)
  | Some block2 =>
      if bool_decide (b = block2) then Ok c
      else
        chain_length ← ChainLength (chain_fuel bl) bl (Some b);
        let chain_length2 := chain_length_ c in
        b' ← climb (chain_length - chain_length2) bl b;
        b2' ← climb (chain_length2 - chain_length) bl block2;
        '(d, n) ← meet (chain_fuel bl) bl b' b2' (Nat.min chain_length chain_length2);
        Ok (mkCD (Some d) n)
  end.

Definition ForPair (bl : list HIRBlock) (block1 block2 : option bptr) : res (option bptr) :=
  finder ← CommonDominator_new bl block1;
  finder' ← CommonDominator_Update bl block2 finder;
  Ok (cd_dominator finder').

(** ** The passes *)

Definition UpdateDominatorOfSuccessor (block successor : bptr) : stM hir bool :=
  b ← get_block block;
  _ ← st_check (bool_decide (Some successor ∈ successors b)) AssertFailed;
  x ← get_block successor;
  f ← get_fn;
  let old_dominator := dominator x in
  new_dominator ←
    match old_dominator with
    | None => mret (Some block)
    | Some _ => st_lift (ForPair (block_list f) old_dominator (Some block))
    end;
  if bool_decide (old_dominator = new_dominator) then mret false
  else _ ← upd_block successor (SetDominator new_dominator); mret true.

(** An entry of the block vector; one that was never written is null. *)
Definition vector_at (f : HIRFunction) (i : nat) : res bptr :=
  e ← of_option OutOfBounds (blocks f !! i); of_option NullDeref e.

Definition successor_at (x : HIRBlock) (i : nat) : res bptr :=
  e ← of_option OutOfBounds (successors x !! i); of_option NullDeref e.

Definition mark_dominating (b : option bptr) : stM hir unit :=
  p ← st_lift (of_option NullDeref b);
  x ← get_block p;
  match incoming_edges x with
  | [e] => upd_edge e set_dominates
  | _ => mret tt
  end.

Definition FindDominateEdges : stM hir unit :=
  f ← get_fn; st_iter mark_dominating (blocks f).

(** The local state of [FindBackEdges]: bit vectors and counters indexed by
    order id, and the worklist, its back first. *)
Record dfs := mkDfs {
  visited : list bool;
  visiting : list bool;
  successors_visited : list Z;
  worklist : list bptr;
}.

Definition write_at {A} (l : list A) (i : nat) (a : A) : res (list A) :=
  _ ← check (bool_decide (i < length l)%nat) OutOfBounds; Ok (<[i := a]> l).

(** [GetOrderId], used as an index. *)
Definition order_index (b : bptr) : stM hir nat :=
  x ← get_block b; mret (Z.to_nat (order_id x)).

(** One iteration of the loop of [FindBackEdges] on a worklist [current :: rest]. *)
Definition back_edge_step (d : dfs) (current : bptr) (rest : list bptr) : stM hir dfs :=
  x ← get_block current;
  let current_id := Z.to_nat (order_id x) in
  n ← st_lift (of_option OutOfBounds (successors_visited d !! current_id));
  if n =? Z.of_nat (length (successors x)) then
    v ← st_lift (write_at (visiting d) current_id false);
    mret (mkDfs (visited d) v (successors_visited d) rest)
  else
    successor ← st_lift (successor_at x (Z.to_nat n));
    sv ← st_lift (write_at (successors_visited d) current_id (u16 (n + 1)));
    successor_id ← order_index successor;
    is_visiting ← st_lift (of_option OutOfBounds (visiting d !! successor_id));
    if is_visiting : bool then
      _ ← st_check (bool_decide (successor ∈ worklist d)) AssertFailed;
      _ ← upd_block successor (AddBackEdge current);
      mret (mkDfs (visited d) (visiting d) sv (worklist d))
    else
      is_visited ← st_lift (of_option OutOfBounds (visited d !! successor_id));
      if is_visited : bool then mret (mkDfs (visited d) (visiting d) sv (worklist d))
      else
        vd ← st_lift (write_at (visited d) successor_id true);
        vg ← st_lift (write_at (visiting d) successor_id true);
        mret (mkDfs vd vg sv (successor :: worklist d)).

Fixpoint back_edge_loop (fuel : nat) (d : dfs) : stM hir dfs :=
  match worklist d with
  | [] => mret d
  | current :: rest =>
      match fuel with
      | O => st_throw OutOfFuel
      | S fuel' => d' ← back_edge_step d current rest; back_edge_loop fuel' d'
      end
  end.

(** Every iteration pops a block or looks at one more edge, and pushes at most
    one block for it. *)
Definition edge_count (f : HIRFunction) : nat := sum_list (length ∘ successors <$> block_list f).
Definition dfs_fuel (f : HIRFunction) : nat := S (2 * edge_count f).

Definition FindBackEdges (visited0 : list bool) : stM hir (list bool) :=
  f ← get_fn;
  let n := Z.to_nat (MaxBlockCount f) in
  entry_block ← st_lift (vector_at f 0);
  id ← order_index entry_block;
  vd ← st_lift (write_at visited0 id true);
  vg ← st_lift (write_at (replicate n false) id true);
  d ← back_edge_loop (dfs_fuel f) (mkDfs vd vg (replicate n 0) [entry_block]);
  mret (visited d).

Section dominance.

(** Whether the build checks [AMS_ASSERT]. *)
Context (assertions : bool).

(** [reverse_post_order.push_back]: [blocks_rpo] links the block through the
    [list_node] that already links it into [block_list]. *)
Definition rpo_push_back (b : bptr) : stM hir unit :=
  f ← get_fn;
  '(_, nd) ← st_lift (IntrusiveList.push_back assertions blocks_rpo_root (block_node b) (block_nodes f));
  upd_fn (set_block_nodes nd).

(** The local state of [ComputeDominanceInformation]. *)
Record dominance := mkDominance {
  visits : list Z;
  succ_visited : list Z;
  pending : list bptr;
}.

Definition dominance_step (d : dominance) (current : bptr) (rest : list bptr)
    : stM hir dominance :=
  x ← get_block current;
  let current_id := Z.to_nat (order_id x) in
  n ← st_lift (of_option OutOfBounds (succ_visited d !! current_id));
  if n =? Z.of_nat (length (outgoing_edges x)) then
    mret (mkDominance (visits d) (succ_visited d) rest)
  else
    successor ← st_lift (successor_at x (Z.to_nat n));
    sv ← st_lift (write_at (succ_visited d) current_id (u16 (n + 1)));
    _ ← UpdateDominatorOfSuccessor current successor;
    y ← get_block successor;
    let id := Z.to_nat (order_id y) in
    v ← st_lift (of_option OutOfBounds (visits d !! id));
    let v' := u16 (v + 1) in
    vs ← st_lift (write_at (visits d) id v');
    if v' =? u64 (Z.of_nat (length (predecessors y)) - Z.of_nat (length (back_edges y))) then
      _ ← rpo_push_back successor;
      mret (mkDominance vs sv (successor :: pending d))
    else mret (mkDominance vs sv (pending d)).

Fixpoint dominance_loop (fuel : nat) (d : dominance) : stM hir unit :=
  match pending d with
  | [] => mret tt
  | current :: rest =>
      match fuel with
      | O => st_throw OutOfFuel
      | S fuel' => d' ← dominance_step d current rest; dominance_loop fuel' d'
      end
  end.

Definition ComputeDominanceInformation : stM hir unit :=
  f ← get_fn;
  let n := Z.to_nat (MaxBlockCount f) in
  entry_block ← st_lift (vector_at f 0);
  dominance_loop (dfs_fuel f) (mkDominance (replicate n 0) (replicate n 0) [entry_block]).

Definition CFGAnalysis_Run : stM hir unit :=
  f ← get_fn;
  _ ← st_check (negb (bool_decide (blocks f = []))) AssertFailed;
  _ ← FindDominateEdges;
  _ ← FindBackEdges (replicate (Z.to_nat (MaxBlockCount f)) false);
  ComputeDominanceInformation.

(** The pass over all functions of a builder. *)
Fixpoint run_functions (h : heap) (fs : list HIRFunction) : res (heap * list HIRFunction) :=
  match fs with
  | [] => Ok (h, [])
  | f :: fs' =>
      '(_, s) ← CFGAnalysis_Run (mkHir h f);
      '(h', fs'') ← run_functions (insts s) fs';
      Ok (h', fn s :: fs'')
  end.

Definition CFGAnalysisPass_Run : stM HIRBuilder unit := λ s,
  match run_functions (b_insts s) (hir_functions s) with
  | Ok (h, fs) => Ok (tt, mkBuilder h fs (current_location s) (current_function s) (func_cap s))
  | Err e => Err e
  end.

End dominance.
