(* ===== verification/CFGSpec.v ===== *)
(** * What the control-flow analysis computes

    The common-dominator search as a meet in the dominator tree, the
    depth-first search for back edges, and the dominators of the pass. *)

From S2P Require Import Prelude IRTypes Inst InstSpec HIR HIRSpec CFG.

(** ** Dominator chains *)

(** [dchain bl o l]: from [o] on, the dominators are [l] (the block itself
    first), and the chain ends. *)
Fixpoint dchain (bl : list HIRBlock) (o : option bptr) (l : list bptr) : Prop :=
  match l with
  | [] => o = None
  | b :: l' => o = Some b ∧ ∃ x, bl !! b = Some x ∧ dchain bl (dominator x) l'
  end.

Lemma dchain_det bl o l l' : dchain bl o l → dchain bl o l' → l = l'.
Proof.
  revert o l'. induction l as [|b l IH]; intros o [|b' l']; simpl.
  - done.
  - by intros -> [? _].
  - by intros [-> _] ?.
  - intros [-> (x & Hx & Hl)] [[= <-] (y & Hy & Hl')]. assert (x = y) as <- by congruence.
    f_equal. eauto.
Qed.

Lemma dchain_suffix bl o l1 x l2 : dchain bl o (l1 ++ x :: l2) → dchain bl (Some x) (x :: l2).
Proof.
  revert o. induction l1 as [|b l1 IH]; intros o H.
  - destruct H as [-> ?]. by split.
  - destruct H as [_ (y & _ & Hl)]. by eapply IH.
Qed.

Lemma dchain_nodup bl o l : dchain bl o l → NoDup l.
Proof.
  revert o. induction l as [|b l IH]; intros o H; [constructor|].
  destruct (H) as [-> (x & Hx & Hl)]. constructor; [|by eapply IH].
  intros (l1 & l2 & E)%list_elem_of_split. pose proof H as H'. rewrite E in H'.
  apply (dchain_suffix _ _ (b :: l1)) in H'. apply (dchain_det _ _ _ _ H) in H'.
  apply (f_equal length) in H'. rewrite E in H'. simpl in H'. rewrite length_app in H'. simpl in H'. lia.
Qed.

Lemma dchain_length bl o l : dchain bl o l → (length l ≤ length bl)%nat.
Proof.
  intros H. pose proof (dchain_nodup _ _ _ H) as Hnd.
  assert (l ⊆ seq 0 (length bl)) as Hs.
  { clear Hnd. revert o H. induction l as [|b l IH]; intros o; [set_solver|].
    intros [_ (x & Hx & Hl)]. apply IH in Hl. apply lookup_lt_Some in Hx.
    intros y [->|Hy]%elem_of_cons; [apply elem_of_seq; lia|auto]. }
  rewrite <- (length_seq (length bl) 0). apply submseteq_length. by apply NoDup_submseteq.
Qed.

Lemma ChainLength_chain fuel bl o l :
  dchain bl o l → (length l ≤ fuel)%nat → ChainLength fuel bl o = Ok (length l).
Proof.
  revert o l. induction fuel as [|fuel IH]; intros o [|b l] H Hf; simpl in H.
  - by subst.
  - simpl in Hf. lia.
  - by subst.
  - destruct H as [-> (x & Hx & Hl)]. simpl. unfold GetDominator. rewrite Hx. simpl.
    rewrite (IH _ l Hl); [done|]. simpl in Hf. lia.
Qed.

Lemma climb_chain n bl b l :
  dchain bl (Some b) l → (n < length l)%nat →
  ∃ c, climb n bl b = Ok c ∧ dchain bl (Some c) (drop n l).
Proof.
  revert b l. induction n as [|n IH]; intros b l H Hn; [by exists b|].
  destruct l as [|b' l]; [done|]. destruct H as [[= <-] (x & Hx & Hl)]. simpl in Hn.
  destruct l as [|c l]; [simpl in Hn; lia|]. pose proof Hl as [Hd _].
  simpl. unfold GetDominator. rewrite Hx. simpl. rewrite Hd. simpl.
  apply IH; [by rewrite <- Hd|simpl in *; lia].
Qed.

(** A block common to two chains has the same chain in both. *)
Lemma dchain_common bl o o' l l' x :
  dchain bl o l → dchain bl o' l' → x ∈ l → x ∈ l' →
  ∃ p p' s, l = p ++ x :: s ∧ l' = p' ++ x :: s.
Proof.
  intros H H' (p & s & ->)%list_elem_of_split (p' & s' & ->)%list_elem_of_split.
  apply dchain_suffix in H, H'. pose proof (dchain_det _ _ _ _ H H') as [= ->]. eauto.
Qed.

(** The meet of two chains of the same length. *)
Lemma meet_chain fuel bl b1 b2 l1 l2 n :
  dchain bl (Some b1) l1 → dchain bl (Some b2) l2 → length l1 = length l2 →
  (∃ r, r ∈ l1 ∧ r ∈ l2) → (length l1 ≤ fuel)%nat → n = length l1 →
  ∃ c l, meet fuel bl b1 b2 n = Ok (c, length l) ∧ dchain bl (Some c) l ∧
    (∀ x, x ∈ l ↔ x ∈ l1 ∧ x ∈ l2).
Proof.
  revert b1 b2 l1 l2 n. induction fuel as [|fuel IH]; intros b1 b2 l1 l2 n H1 H2 Hl (r & Hr1 & Hr2) Hf ->.
  { destruct l1; [set_solver|simpl in Hf; lia]. }
  simpl. destruct (decide (b1 = b2)) as [<-|Hne].
  { rewrite bool_decide_true by done. pose proof (dchain_det _ _ _ _ H1 H2) as <-.
    exists b1, l1. split_and!; [done|done|naive_solver]. }
  rewrite bool_decide_false by done.
  destruct l1 as [|b1' t1]; [done|]. destruct l2 as [|b2' t2]; [done|].
  pose proof H1 as [[= <-] (x1 & Hx1 & Ht1)]. pose proof H2 as [[= <-] (x2 & Hx2 & Ht2)].
  assert (Hoff : ∀ x, x ∈ b1 :: t1 → x ∈ b2 :: t2 → x ≠ b1 ∧ x ≠ b2).
  { intros x Hxa Hxb. destruct (dchain_common _ _ _ _ _ _ H1 H2 Hxa Hxb) as (p & p' & s & E1 & E2).
    assert (length p = length p') as Hp.
    { rewrite E1, E2, !length_app in Hl. simpl in Hl. lia. }
    pose proof (dchain_nodup _ _ _ H1) as [Hn1 _]%NoDup_cons.
    pose proof (dchain_nodup _ _ _ H2) as [Hn2 _]%NoDup_cons.
    destruct p as [|? p], p' as [|? p']; simpl in Hp; try done.
    - congruence.
    - injection E1 as -> ->. injection E2 as -> ->. set_solver. }
  destruct (Hoff r Hr1 Hr2). simpl in Hl, Hf.
  assert (r ∈ t1 ∧ r ∈ t2) as [Hr1' Hr2'] by set_solver.
  destruct t1 as [|c1 t1]; [set_solver|]. destruct t2 as [|c2 t2]; [set_solver|].
  pose proof Ht1 as [Hd1 _]. pose proof Ht2 as [Hd2 _].
  unfold GetDominator. rewrite Hx1, Hx2. simpl. rewrite Hd1, Hd2. simpl.
  rewrite Hd1 in Ht1. rewrite Hd2 in Ht2.
  destruct (IH c1 c2 (c1 :: t1) (c2 :: t2) (length (c1 :: t1)) Ht1 Ht2) as (c & l & Hm & Hc & Hl');
    [lia|eauto|simpl in *; lia|done|].
  exists c, l. split_and!; [done|done|]. intros x. rewrite Hl'. split; [set_solver|].
  intros [Hxa Hxb]. destruct (Hoff x Hxa Hxb). set_solver.
Qed.

Lemma ChainLength_cycle fuel bl b x :
  bl !! b = Some x → dominator x = Some b → ChainLength fuel bl (Some b) = Err OutOfFuel.
Proof.
  intros Hx Hd. induction fuel as [|fuel IH]; [done|]. simpl. unfold GetDominator.
  rewrite Hx. simpl. rewrite Hd. by rewrite IH.
Qed.

#[local] Arguments ChainLength : simpl never.
#[local] Arguments meet : simpl never.

Lemma drop_common (l p : list bptr) x s n : l = p ++ x :: s → (n ≤ length p)%nat → x ∈ drop n l.
Proof.
  intros -> Hn. rewrite drop_app_le by done. apply elem_of_app. right. by left.
Qed.

Lemma elem_of_drop (l : list bptr) n x : x ∈ drop n l → x ∈ l.
Proof. intros (i & Hi)%list_elem_of_lookup. rewrite lookup_drop in Hi. by eapply list_elem_of_lookup_2. Qed.

Lemma Update_meet bl b1 b2 l1 l2 :
  dchain bl (Some b1) l1 → dchain bl (Some b2) l2 → (∃ r, r ∈ l1 ∧ r ∈ l2) →
  ∃ c l, CommonDominator_Update bl (Some b2) (mkCD (Some b1) (length l1)) = Ok (mkCD (Some c) (length l)) ∧
    dchain bl (Some c) l ∧ (∀ x, x ∈ l ↔ x ∈ l1 ∧ x ∈ l2).
Proof.
  intros H1 H2 (r & Hr1 & Hr2). unfold CommonDominator_Update. simpl.
  destruct (decide (b2 = b1)) as [<-|Hne].
  { rewrite bool_decide_true by done. pose proof (dchain_det _ _ _ _ H1 H2) as <-.
    exists b2, l1. split_and!; [done|done|naive_solver]. }
  rewrite bool_decide_false by done.
  pose proof (dchain_length _ _ _ H1). pose proof (dchain_length _ _ _ H2).
  assert (Hcl : ChainLength (chain_fuel bl) bl (Some b2) = Ok (length l2))
    by (apply ChainLength_chain; [done|unfold chain_fuel; lia]).
  rewrite Hcl. simpl.
  assert (0 < length l1 ∧ 0 < length l2)%nat as [??] by (destruct l1, l2; simpl; set_solver by lia).
  destruct (climb_chain (length l2 - length l1) bl b2 l2) as (c2 & Hc2 & D2); [done|lia|].
  destruct (climb_chain (length l1 - length l2) bl b1 l1) as (c1 & Hc1 & D1); [done|lia|].
  rewrite Hc2, Hc1. simpl.
  assert (Hcom : ∀ x, x ∈ l1 → x ∈ l2 →
    x ∈ drop (length l2 - length l1) l2 ∧ x ∈ drop (length l1 - length l2) l1).
  { intros x Hx1 Hx2. destruct (dchain_common _ _ _ _ _ _ H1 H2 Hx1 Hx2) as (p & p' & s & E1 & E2).
    split; [apply (drop_common _ p' x s)|apply (drop_common _ p x s)]; try done;
      rewrite E1, E2, !length_app; simpl; lia. }
  destruct (meet_chain (chain_fuel bl) bl c2 c1 _ _ (Nat.min (length l2) (length l1)) D2 D1)
    as (c & l & Hm & Hc & Hl).
  - rewrite !length_drop. lia.
  - destruct (Hcom r Hr1 Hr2). eauto.
  - rewrite length_drop. unfold chain_fuel. lia.
  - rewrite length_drop. lia.
  - rewrite Hm. simpl. exists c, l. split_and!; [done..|]. intros x. rewrite Hl. split.
    + intros [?%elem_of_drop ?%elem_of_drop]. done.
    + intros [Hx1 Hx2]. by apply Hcom.
Qed.

Lemma ForPair_run bl b1 b2 l1 l2 :
  dchain bl (Some b1) l1 → dchain bl (Some b2) l2 → (∃ r, r ∈ l1 ∧ r ∈ l2) →
  ∃ c l, ForPair bl (Some b1) (Some b2) = Ok (Some c) ∧ dchain bl (Some c) l ∧
    (∀ x, x ∈ l ↔ x ∈ l1 ∧ x ∈ l2).
Proof.
  intros H1 H2 Hr. destruct (Update_meet _ _ _ _ _ H1 H2 Hr) as (c & l & Hu & ? & ?).
  exists c, l. split; [|done]. unfold ForPair, CommonDominator_new, chain_fuel.
  pose proof (dchain_length _ _ _ H1).
  rewrite (ChainLength_chain _ bl (Some b1) l1) by (done || lia). simpl. by rewrite Hu.
Qed.

(** [CommonDominator::ForPair] ends and is correct whenever the dominator
    chains of two blocks end at a common root: the block it gives has as its
    chain exactly the blocks common to both chains, so it is their nearest
    common ancestor in the dominator tree. *)
Theorem ForPair_nearest_common bl b1 b2 l1 l2 r :
  dchain bl (Some b1) l1 → dchain bl (Some b2) l2 → r ∈ l1 → r ∈ l2 →
  ∃ c l, ForPair bl (Some b1) (Some b2) = Ok (Some c) ∧ dchain bl (Some c) l ∧
    (∀ x, x ∈ l ↔ x ∈ l1 ∧ x ∈ l2).
Proof. intros. apply ForPair_run; eauto. Qed.


(** ** The search for back edges *)

(** The graph that the passes read. *)
Definition targets (x : HIRBlock) : list bptr := omap id (successors x).
Definition succs (f : HIRFunction) : list (list bptr) := targets <$> block_list f.
Definition gedge (G : list (list bptr)) (a b : bptr) : Prop := ∃ g, G !! a = Some g ∧ b ∈ g.
Definition reach (G : list (list bptr)) : bptr → bptr → Prop := rtc (gedge G).

(** A function as [EndFunction] leaves it, with at least one block. *)
Record ready (f : HIRFunction) : Prop := mkReady {
  ready_count : MaxBlockCount f = Z.of_nat (length (block_list f));
  ready_entry : blocks f !! 0%nat = Some (Some 0%nat);
  ready_ids : ∀ k x, block_list f !! k = Some x → order_id x = Z.of_nat k;
  ready_succs : ∀ k g, succs f !! k = Some g →
    Z.of_nat (length g) < 2 ^ 16 ∧ Forall (λ b, b < length (block_list f))%nat g;
  ready_written : ∀ k x, block_list f !! k = Some x → successors x = Some <$> targets x;
  ready_nonempty : (0 < length (block_list f))%nat;
}.

(** What is left to do: edges not looked at. *)
Definition remaining (G : list (list bptr)) (sv : list Z) : nat :=
  sum_list (zip_with (λ g m, length g - Z.to_nat m)%nat G sv).

Lemma remaining_step G sv b g m :
  G !! b = Some g → sv !! b = Some m → 0 ≤ m < Z.of_nat (length g) →
  (remaining G (<[b := (m + 1)%Z]> sv) + 1 = remaining G sv)%nat.
Proof.
  revert sv b. induction G as [|g' G IH]; intros [|m' sv] [|b] Hg Hm Hlt; simplify_eq/=.
  - unfold remaining. simpl. lia.
  - specialize (IH sv b Hg Hm Hlt). unfold remaining in *. simpl. lia.
Qed.

Lemma remaining_init G : remaining G (replicate (length G) 0) = sum_list (length <$> G).
Proof. induction G as [|g G IH]; [done|]. unfold remaining in *. csimpl. rewrite IH. lia. Qed.

(** The worklist is a path of the graph: every block on it reaches its top. *)
Fixpoint stack_path (G : list (list bptr)) (w : list bptr) : Prop :=
  match w with
  | c :: ((p :: _) as w') => gedge G p c ∧ stack_path G w'
  | _ => True
  end.

Lemma stack_path_reach G c w b : stack_path G (c :: w) → b ∈ c :: w → reach G b c.
Proof.
  revert c. induction w as [|p w IH]; intros c Hp Hb.
  - apply list_elem_of_singleton in Hb as ->. apply rtc_refl.
  - destruct Hp as [He Hp]. apply elem_of_cons in Hb as [->|Hb]; [apply rtc_refl|].
    eapply rtc_r; [by apply IH|done].
Qed.

(** Recorded back edges are edges of a cycle. *)
Definition back_ok (G : list (list bptr)) (bl : list HIRBlock) : Prop :=
  ∀ v x u, bl !! v = Some x → u ∈ back_edges x → gedge G u v ∧ reach G v u.

Record dfs_inv (G : list (list bptr)) (d : dfs) : Prop := mkDfsInv {
  di_vd : length (visited d) = length G;
  di_vg : length (visiting d) = length G;
  di_sv : length (successors_visited d) = length G;
  di_stack : stack_path G (worklist d);
  di_nodup : NoDup (worklist d);
  di_on : ∀ b, visiting d !! b = Some true ↔ b ∈ worklist d;
  di_seen : ∀ b, b ∈ worklist d → visited d !! b = Some true;
  di_reach : ∀ b, visited d !! b = Some true → reach G 0%nat b;
  di_entry : visited d !! 0%nat = Some true;
  di_le : ∀ b g m, G !! b = Some g → successors_visited d !! b = Some m →
    0 ≤ m ≤ Z.of_nat (length g);
  di_closed : ∀ b g m i c, visited d !! b = Some true → G !! b = Some g →
    successors_visited d !! b = Some m → g !! i = Some c → Z.of_nat i < m →
    visited d !! c = Some true;
  di_done : ∀ b g m, visited d !! b = Some true → b ∉ worklist d → G !! b = Some g →
    successors_visited d !! b = Some m → m = Z.of_nat (length g);
  di_fresh : ∀ b m, visited d !! b = Some false → successors_visited d !! b = Some m → m = 0;
}.

Definition dfs_measure (G : list (list bptr)) (d : dfs) : nat :=
  (2 * remaining G (successors_visited d) + length (worklist d))%nat.

(** At the end the visited blocks are the reachable ones. *)
Lemma dfs_end G d b :
  dfs_inv G d → worklist d = [] → visited d !! b = Some true ↔ reach G 0%nat b.
Proof.
  intros Hi Hw. split; [apply (di_reach _ _ Hi)|].
  assert (∀ a, reach G a b → visited d !! a = Some true → visited d !! b = Some true) as Hc.
  { induction 1 as [a|a c e (g & Hg & Hc) _ IH]; [done|]. intros Ha. apply IH.
    apply list_elem_of_lookup in Hc as [i Hc].
    destruct (lookup_lt_is_Some_2 (successors_visited d) a) as [m Hm].
    { rewrite (di_sv _ _ Hi). by eapply lookup_lt_Some. }
    assert (m = Z.of_nat (length g)) as ->.
    { apply (di_done _ _ Hi a g m); [done| |done|done]. rewrite Hw. set_solver. }
    eapply (di_closed _ _ Hi a g _ i c); [done..|]. apply lookup_lt_Some in Hc. lia. }
  intros Hr. apply (Hc 0%nat Hr), (di_entry _ _ Hi).
Qed.

Lemma stack_path_tail G c w : stack_path G (c :: w) → stack_path G w.
Proof. destruct w; [done|]. by intros [_ ?]. Qed.

(** The three ways an iteration changes the local state. *)
Lemma inv_pop G d c rest g :
  dfs_inv G d → worklist d = c :: rest → G !! c = Some g →
  successors_visited d !! c = Some (Z.of_nat (length g)) →
  dfs_inv G (mkDfs (visited d) (<[c := false]> (visiting d)) (successors_visited d) rest).
Proof.
  intros [I1 I2 I3 I4 I5 I6 I7 I8 I9 I10 I11 I12 I13] Hw Hg Hm. rewrite Hw in *.
  apply NoDup_cons in I5 as [Hc Hnd]. split; simpl; try done.
  - by rewrite length_insert.
  - by eapply stack_path_tail.
  - intros b. destruct (decide (b = c)) as [->|Hb].
    + rewrite list_lookup_insert_eq by (rewrite I2; by eapply lookup_lt_Some). set_solver.
    + rewrite list_lookup_insert_ne by done. rewrite I6. set_solver.
  - intros b Hb. apply I7. by right.
  - intros b g' m Hv Hb Hg' Hm'. destruct (decide (b = c)) as [->|Hbc]; [congruence|].
    apply (I12 b g' m); try done. set_solver.
Qed.

Lemma inv_advance G d c g m t :
  dfs_inv G d → c ∈ worklist d → G !! c = Some g →
  successors_visited d !! c = Some m → g !! Z.to_nat m = Some t → visited d !! t = Some true →
  dfs_inv G (mkDfs (visited d) (visiting d) (<[c := m + 1]> (successors_visited d)) (worklist d)).
Proof.
  intros Hi Hw Hg Hm Ht Hvt. pose proof Hi as [I1 I2 I3 I4 I5 I6 I7 I8 I9 I10 I11 I12 I13].
  destruct (I10 c g m Hg Hm) as [Hm0 _]. pose proof (lookup_lt_Some _ _ _ Ht) as Hlt.
  assert (Hsv : ∀ b k, <[c := m + 1]> (successors_visited d) !! b = Some k →
    (b = c ∧ k = m + 1) ∨ (b ≠ c ∧ successors_visited d !! b = Some k)).
  { intros b k. destruct (decide (b = c)) as [->|Hb].
    - rewrite list_lookup_insert_eq by (by eapply lookup_lt_Some). intros [= <-]. auto.
    - rewrite list_lookup_insert_ne by done. auto. }
  split; simpl; try done.
  - by rewrite length_insert.
  - intros b g' k Hg' [[-> ->]|[? Hk]]%Hsv; [|by apply (I10 b)]. simplify_eq. lia.
  - intros b g' k i e Hvb Hg' [[-> ->]|[? Hk]]%Hsv He Hlt'; [|by eapply (I11 b)]. simplify_eq.
    destruct (decide (Z.of_nat i = m)) as [Hi'|Hi'].
    + subst m. rewrite Nat2Z.id in Ht. congruence.
    + eapply (I11 c g m i e); try done. lia.
  - intros b g' k Hvb Hb Hg' [[-> ->]|[? Hk]]%Hsv; [|by apply (I12 b g' k)].
    set_solver.
  - intros b k Hvb [[-> ->]|[? Hk]]%Hsv; [|by apply (I13 b)]. apply I7 in Hw. congruence.
Qed.

Lemma inv_push G d c rest g m t :
  dfs_inv G d → worklist d = c :: rest → G !! c = Some g →
  successors_visited d !! c = Some m → g !! Z.to_nat m = Some t →
  (t < length G)%nat → visited d !! t = Some false →
  dfs_inv G (mkDfs (<[t := true]> (visited d)) (<[t := true]> (visiting d))
               (successors_visited d) (t :: worklist d)).
Proof.
  intros [I1 I2 I3 I4 I5 I6 I7 I8 I9 I10 I11 I12 I13] Hw Hg Hm Ht Hlt Hvt.
  assert (Hnew : ∀ b, <[t := true]> (visited d) !! b = Some true ↔ b = t ∨ visited d !! b = Some true).
  { intros b. destruct (decide (b = t)) as [->|Hb].
    - rewrite list_lookup_insert_eq by lia. naive_solver.
    - rewrite list_lookup_insert_ne by done. naive_solver. }
  assert (Htw : t ∉ worklist d) by (intros Hin%I7; congruence).
  assert (Hct : gedge G c t) by (exists g; split; [done|by eapply list_elem_of_lookup_2]).
  split; simpl; rewrite ?length_insert; try done.
  - rewrite Hw in *. done.
  - by constructor.
  - intros b. destruct (decide (b = t)) as [->|Hb].
    + rewrite list_lookup_insert_eq by lia. set_solver.
    + rewrite list_lookup_insert_ne by done. rewrite I6. set_solver.
  - intros b [->|Hb]%elem_of_cons; apply Hnew; auto.
  - intros b [->|Hb]%Hnew; [|auto]. eapply rtc_r; [|done]. apply I8, I7. rewrite Hw. by left.
  - apply Hnew. auto.
  - intros b g' k i e [->|Hb]%Hnew Hg' Hk He Hi; apply Hnew; [|right; by eapply (I11 b)].
    assert (k = 0) by eauto. lia.
  - intros b g' k [->|Hb]%Hnew Hn Hg' Hk; [set_solver|]. apply (I12 b); set_solver.
  - intros b k Hb Hk. destruct (decide (b = t)) as [->|Hne].
    + by rewrite list_lookup_insert_eq in Hb by lia.
    + rewrite list_lookup_insert_ne in Hb by done. by apply (I13 b).
Qed.

(** Two states that differ in the recorded back edges only. *)
Definition strip_back (b : HIRBlock) : HIRBlock :=
  mkHIRBlock (order_id b) (block b) (outgoing_edges b) (incoming_edges b)
    (predecessors b) (successors b) [] (phis b) (dominator b).
Definition only_back (s s' : hir) : Prop :=
  insts s' = insts s ∧ fn s' = set_block_list (block_list (fn s')) (fn s) ∧
  strip_back <$> block_list (fn s') = strip_back <$> block_list (fn s).

#[export] Instance only_back_preorder : PreOrder only_back.
Proof.
  split.
  - intros s. split_and!; try done. by destruct s as [? []].
  - intros s1 s2 s3 (? & E2 & ?) (? & E3 & ?). split_and!; [congruence| |congruence].
    rewrite E3, E2. done.
Qed.

Lemma only_back_block s s' k x' :
  only_back s s' → block_list (fn s') !! k = Some x' →
  ∃ x, block_list (fn s) !! k = Some x ∧ strip_back x' = strip_back x.
Proof.
  intros (_ & _ & E) Hk.
  assert (Hv : (strip_back <$> block_list (fn s')) !! k = Some (strip_back x'))
    by (by rewrite list_lookup_fmap, Hk).
  rewrite E, list_lookup_fmap in Hv. destruct (block_list (fn s) !! k) as [x|]; [|done].
  exists x. split; [done|]. simpl in Hv. congruence.
Qed.

Lemma only_back_succs s s' : only_back s s' → succs (fn s') = succs (fn s).
Proof.
  intros (_ & _ & E). unfold succs.
  assert (∀ l, targets <$> l = targets <$> (strip_back <$> l)) as El
    by (intros l; by rewrite <- list_fmap_compose).
  by rewrite (El (block_list (fn s'))), E, <- El.
Qed.

Lemma only_back_ready s s' : only_back s s' → ready (fn s) → ready (fn s').
Proof.
  intros Ho [R1 R2 R3 R4 R6 R5]. pose proof Ho as (_ & Ef & E). pose proof (same_length _ _ _ E) as El.
  split.
  - rewrite El, <- R1. by rewrite Ef.
  - by rewrite Ef.
  - intros k x' Hk. destruct (only_back_block _ _ _ _ Ho Hk) as (x & Hx & Es).
    rewrite <- (R3 k x Hx). by injection Es.
  - intros k g. rewrite (only_back_succs _ _ Ho), El. apply R4.
  - intros k x' Hk. destruct (only_back_block _ _ _ _ Ho Hk) as (x & Hx & Es).
    assert (Et : successors x' = successors x) by (by injection Es).
    unfold targets. rewrite Et. exact (R6 k x Hx).
  - by rewrite El.
Qed.

Lemma write_at_run {A} (l : list A) i a : (i < length l)%nat → write_at l i a = Ok (<[i := a]> l).
Proof. intros Hi. unfold write_at. by rewrite bool_decide_true. Qed.

Lemma add_back_only s t c x :
  block_list (fn s) !! t = Some x →
  only_back s (mkHir (insts s) (set_block_list (<[t := AddBackEdge c x]> (block_list (fn s))) (fn s))).
Proof. intros Hx. split_and!; try done. simpl. by eapply list_insert_view. Qed.

Lemma add_back_ok G s t c x :
  block_list (fn s) !! t = Some x → back_ok G (block_list (fn s)) →
  gedge G c t → reach G t c →
  back_ok G (<[t := AddBackEdge c x]> (block_list (fn s))).
Proof.
  intros Hx Hb He Hr v y u Hy. destruct (decide (v = t)) as [->|Hv].
  - rewrite list_lookup_insert_eq in Hy by (by eapply lookup_lt_Some). injection Hy as <-. simpl.
    intros [Hu|Hu]%elem_of_app; [by apply (Hb t x)|]. by apply list_elem_of_singleton in Hu as ->.
  - rewrite list_lookup_insert_ne in Hy by done. by apply Hb.
Qed.

(** Reading a vector whose entries were all written. *)
Lemma successor_at_run x i t :
  successors x = Some <$> targets x → targets x !! i = Some t → successor_at x i = Ok t.
Proof. intros E Ht. unfold successor_at. by rewrite E, list_lookup_fmap, Ht. Qed.

Lemma edge_count_succs f : (sum_list (length <$> succs f) ≤ edge_count f)%nat.
Proof.
  unfold succs, edge_count. induction (block_list f) as [|x l IH]; [done|]. csimpl.
  assert (length (targets x) ≤ length (successors x))%nat; [|lia].
  unfold targets. clear IH. induction (successors x) as [|[b|] r IHr]; csimpl; [done|simpl; lia|simpl in *; lia].
Qed.

Lemma written_length x : successors x = Some <$> targets x → length (successors x) = length (targets x).
Proof. intros ->. apply length_fmap. Qed.

Lemma back_edge_step_run s d c rest :
  let G := succs (fn s) in
  ready (fn s) → dfs_inv G d → worklist d = c :: rest → back_ok G (block_list (fn s)) →
  ∃ d' s', back_edge_step d c rest s = Ok (d', s') ∧ dfs_inv G d' ∧
    (dfs_measure G d' < dfs_measure G d)%nat ∧ only_back s s' ∧ back_ok G (block_list (fn s')).
Proof.
  intros G Hr Hi Hw Hb.
  assert (HlG : length G = length (block_list (fn s))) by (unfold G, succs; by rewrite length_fmap).
  assert (Hcv : visiting d !! c = Some true) by (apply (di_on _ _ Hi); rewrite Hw; by left).
  assert (Hc : (c < length G)%nat) by (rewrite <- (di_vg _ _ Hi); by eapply lookup_lt_Some).
  destruct (lookup_lt_is_Some_2 (block_list (fn s)) c) as [x Hx]; [lia|].
  pose proof (ready_written _ Hr c x Hx) as Hwr. pose proof (written_length _ Hwr) as Hlw.
  assert (Hg : G !! c = Some (targets x)) by (unfold G, succs; by rewrite list_lookup_fmap, Hx).
  destruct (lookup_lt_is_Some_2 (successors_visited d) c) as [m Hm]; [by rewrite (di_sv _ _ Hi)|].
  destruct (di_le _ _ Hi c _ m Hg Hm) as [Hm0 Hm1].
  destruct (ready_succs _ Hr c _ Hg) as [Hlen Hall].
  unfold back_edge_step. erewrite st_bind_run by (by apply get_block_run).
  rewrite (ready_ids _ Hr c x Hx), Nat2Z.id. erewrite st_bind_run by (unfold st_lift; by rewrite Hm).
  rewrite Hlw. destruct (Z.eqb_spec m (Z.of_nat (length (targets x)))) as [->|Hne].
  { erewrite st_bind_run by (unfold st_lift; by rewrite write_at_run by (by rewrite (di_vg _ _ Hi))).
    eexists _, s. split; [done|]. split; [by eapply inv_pop|]. split; [|split; [reflexivity|done]].
    unfold dfs_measure. simpl. rewrite Hw. simpl. lia. }
  destruct (lookup_lt_is_Some_2 (targets x) (Z.to_nat m)) as [t Ht]; [lia|].
  erewrite st_bind_run by (unfold st_lift; by rewrite (successor_at_run _ _ _ Hwr Ht)).
  erewrite st_bind_run by (unfold st_lift; by rewrite write_at_run by (by rewrite (di_sv _ _ Hi))).
  assert (Htl : (t < length G)%nat) by (rewrite HlG; by eapply (Forall_lookup_1 _ _ _ _ Hall Ht)).
  destruct (lookup_lt_is_Some_2 (block_list (fn s)) t) as [y Hy]; [lia|].
  erewrite st_bind_run.
  2: { unfold order_index. erewrite st_bind_run by (by apply get_block_run). done. }
  rewrite (ready_ids _ Hr t y Hy), Nat2Z.id. rewrite (wrap_small 16 (m + 1)) by (split; lia).
  assert (Hrem : (remaining G (<[c := (m + 1)%Z]> (successors_visited d)) + 1 =
    remaining G (successors_visited d))%nat) by (eapply remaining_step; [done..|lia]).
  destruct (lookup_lt_is_Some_2 (visiting d) t) as [vg Hvg]; [by rewrite (di_vg _ _ Hi)|].
  erewrite st_bind_run by (unfold st_lift; by rewrite Hvg).
  assert (Hct : gedge G c t) by (exists (targets x); split; [done|by eapply list_elem_of_lookup_2]).
  assert (Hcw : c ∈ worklist d) by (rewrite Hw; by left).
  destruct vg.
  - assert (Htw : t ∈ worklist d) by (by apply (di_on _ _ Hi)).
    rewrite bool_decide_true by done. erewrite st_bind_run by done.
    erewrite st_bind_run by (by apply upd_block_run).
    eexists _, _. split; [done|]. split; [eapply inv_advance; [done..|by apply (di_seen _ _ Hi)]|].
    split; [unfold dfs_measure; simpl; lia|]. split; [by apply add_back_only|].
    apply (add_back_ok G s); [done..|]. pose proof (di_stack _ _ Hi) as Hst. rewrite Hw in Hst, Htw.
    by eapply stack_path_reach.
  - destruct (lookup_lt_is_Some_2 (visited d) t) as [vd Hvd]; [by rewrite (di_vd _ _ Hi)|].
    erewrite st_bind_run by (unfold st_lift; by rewrite Hvd). destruct vd.
    + eexists _, s. split; [done|]. split; [by eapply inv_advance|].
      split; [unfold dfs_measure; simpl; lia|]. by split.
    + erewrite st_bind_run by (unfold st_lift; by rewrite write_at_run by (by rewrite (di_vd _ _ Hi))).
      erewrite st_bind_run by (unfold st_lift; by rewrite write_at_run by (by rewrite (di_vg _ _ Hi))).
      eexists _, s. split; [done|]. split.
      * pose proof (inv_push G d c rest _ m t Hi Hw Hg Hm Ht Htl Hvd) as Hi'.
        eapply (inv_advance G _ c _ m t Hi'); [by right|done|done|done|].
        simpl. apply list_lookup_insert_eq. by rewrite (di_vd _ _ Hi).
      * split; [unfold dfs_measure; simpl; lia|]. by split.
Qed.

Lemma back_edge_loop_run fuel s d :
  let G := succs (fn s) in
  ready (fn s) → dfs_inv G d → back_ok G (block_list (fn s)) → (dfs_measure G d ≤ fuel)%nat →
  ∃ d' s', back_edge_loop fuel d s = Ok (d', s') ∧ dfs_inv G d' ∧ worklist d' = [] ∧
    only_back s s' ∧ back_ok G (block_list (fn s')).
Proof.
  revert s d. induction fuel as [|fuel IH]; intros s d G Hr Hi Hb Hf.
  - destruct (worklist d) as [|c rest] eqn:Hw; [|unfold dfs_measure in Hf; rewrite Hw in Hf; simpl in Hf; lia].
    exists d, s. split_and!; try done. simpl. by rewrite Hw.
  - destruct (worklist d) as [|c rest] eqn:Hw; simpl; rewrite Hw.
    { by exists d, s. }
    destruct (back_edge_step_run s d c rest Hr Hi Hw Hb) as (d1 & s1 & Hs & Hi1 & Hm & Ho & Hb1).
    erewrite st_bind_run by exact Hs. pose proof (only_back_succs _ _ Ho) as EG.
    destruct (IH s1 d1) as (d' & s' & Hl & ? & ? & ? & ?).
    + by eapply only_back_ready.
    + by rewrite EG.
    + by rewrite EG.
    + rewrite EG. fold G in Hm |- *. lia.
    + rewrite EG in *. exists d', s'. split_and!; try done. by etrans.
Qed.

(** The state in which the search starts. *)
Lemma dfs_init_inv G :
  (0 < length G)%nat →
  dfs_inv G (mkDfs (<[0%nat := true]> (replicate (length G) false))
               (<[0%nat := true]> (replicate (length G) false)) (replicate (length G) 0) [0%nat]).
Proof.
  intros Hn. assert (Hl : ∀ b v, <[0%nat := true]> (replicate (length G) false) !! b = Some v →
    (b = 0%nat ∧ v = true) ∨ (b ≠ 0%nat ∧ v = false)).
  { intros b v. destruct (decide (b = 0%nat)) as [->|Hb].
    - rewrite list_lookup_insert_eq by (by rewrite length_replicate). intros [= <-]. auto.
    - rewrite list_lookup_insert_ne by done. intros [-> _]%lookup_replicate. auto. }
  assert (H0 : <[0%nat := true]> (replicate (length G) false) !! 0%nat = Some true)
    by (apply list_lookup_insert_eq; by rewrite length_replicate).
  split; simpl; rewrite ?length_insert, ?length_replicate; try done.
  - apply NoDup_singleton.
  - intros b. split; [|by intros ->%list_elem_of_singleton].
    intros [[-> _]|[_ ?]]%Hl; [by left|done].
  - by intros b ->%list_elem_of_singleton.
  - intros b [[-> _]|[_ ?]]%Hl; [apply rtc_refl|done].
  - intros b g m _ [-> _]%lookup_replicate. lia.
  - intros b g m i c _ _ [-> _]%lookup_replicate. lia.
  - intros b g m [[-> _]|[_ ?]]%Hl Hb; [set_solver|done].
  - intros b m _ [-> _]%lookup_replicate. done.
Qed.

(** (C35) [FindBackEdges] on a finished function never faults and always ends:
    it marks exactly the blocks reachable from the entry, changes nothing but
    the back-edge lists, and every back edge it records for a block comes from
    a predecessor that the block reaches, so it closes a cycle. *)
Theorem FindBackEdges_correct s :
  ready (fn s) → (∀ k x, block_list (fn s) !! k = Some x → back_edges x = []) →
  ∃ vis s', FindBackEdges (replicate (Z.to_nat (MaxBlockCount (fn s))) false) s = Ok (vis, s') ∧
    (∀ b, vis !! b = Some true ↔ reach (succs (fn s)) 0%nat b) ∧ only_back s s' ∧
    (∀ v x u, block_list (fn s') !! v = Some x → u ∈ back_edges x →
       gedge (succs (fn s)) u v ∧ reach (succs (fn s)) v u).
Proof.
  intros Hr Hb0. set (G := succs (fn s)).
  assert (HlG : length G = length (block_list (fn s))) by (unfold G, succs; by rewrite length_fmap).
  destruct (lookup_lt_is_Some_2 _ _ (ready_nonempty _ Hr)) as [x Hx].
  unfold FindBackEdges. erewrite st_bind_run by done. rewrite (ready_count _ Hr), Nat2Z.id, <- HlG.
  erewrite st_bind_run by (unfold st_lift, vector_at; by rewrite (ready_entry _ Hr)).
  erewrite st_bind_run.
  2: { unfold order_index. erewrite st_bind_run by (by apply get_block_run). done. }
  rewrite (ready_ids _ Hr 0 x Hx). change (Z.to_nat (Z.of_nat 0)) with 0%nat.
  pose proof (ready_nonempty _ Hr) as Hn.
  do 2 (erewrite st_bind_run by (unfold st_lift; by rewrite write_at_run by (rewrite length_replicate; lia))).
  destruct (back_edge_loop_run (dfs_fuel (fn s)) s _ Hr (dfs_init_inv G ltac:(lia))) as (d & s' & Hl & Hi & Hw & Ho & Hb).
  - intros v y u Hy. rewrite (Hb0 _ _ Hy). set_solver.
  - unfold dfs_measure, dfs_fuel. simpl. fold G. rewrite remaining_init.
    pose proof (edge_count_succs (fn s)). unfold G. lia.
  - erewrite st_bind_run by exact Hl. exists (visited d), s'. split_and!; try done.
    intros b. by apply dfs_end.
Qed.

(** A block whose only edge leads back to itself, finished. *)
Definition self_loop : hir :=
  match (_ ← LinkBlock_body 0; EndFunction) sample_fn with
  | Ok (_, s) => s | Err _ => sample_fn
  end.

Lemma self_loop_ready : ready (fn self_loop).
Proof.
  split; try (vm_compute; done || lia).
  - intros [|k] x Hk; vm_compute in Hk; [by injection Hk as <-|done].
  - intros [|k] g Hg; vm_compute in Hg; [injection Hg as <-|done]. split; [done|].
    apply Forall_singleton. vm_compute. lia.
  - intros [|k] x Hk; vm_compute in Hk; [by injection Hk as <-|done].
Qed.

Lemma FindBackEdges_correct_witness :
  ∃ vis s', FindBackEdges [false] self_loop = Ok (vis, s') ∧
    (∀ b, vis !! b = Some true ↔ reach (succs (fn self_loop)) 0%nat b).
Proof.
  destruct (FindBackEdges_correct self_loop self_loop_ready) as (vis & s' & ? & ? & _).
  - intros [|k] x Hk; vm_compute in Hk; [by injection Hk as <-|done].
  - eauto.
Defined.

(** Three blocks, the third dominated by the second and so on. *)
Definition chain_blocks : list HIRBlock :=
  [HIRBlock_init 0 0; SetDominator (Some 0%nat) (HIRBlock_init 1 1);
   SetDominator (Some 0%nat) (HIRBlock_init 2 2)].

Lemma chain_blocks_ok :
  dchain chain_blocks (Some 1%nat) [1; 0]%nat ∧ dchain chain_blocks (Some 2%nat) [2; 0]%nat.
Proof.
  assert (dchain chain_blocks (Some 0%nat) [0%nat]) by (split; [done|by eexists]).
  split; (split; [done|]; eexists; split; [reflexivity|done]).
Qed.

Lemma ForPair_nearest_common_witness :
  ∃ c l, ForPair chain_blocks (Some 1%nat) (Some 2%nat) = Ok (Some c) ∧
    dchain chain_blocks (Some c) l ∧ (∀ x, x ∈ l ↔ x ∈ [1; 0]%nat ∧ x ∈ [2; 0]%nat).
Proof.
  apply (ForPair_nearest_common chain_blocks 1 2 [1; 0]%nat [2; 0]%nat 0);
    [apply chain_blocks_ok|apply chain_blocks_ok|right; by left|right; by left].
Defined.

(** An edge back to the entry breaks the analysis: the entry becomes its
    own dominator, and from then on the length of its dominator chain is never
    computed, whatever the fuel: the loop of [ChainLength] does not end. *)
Theorem entry_loop_diverges s x :
  block_list (fn s) !! 0%nat = Some x → Some 0%nat ∈ successors x → dominator x = None →
  ∃ s', UpdateDominatorOfSuccessor 0 0 s = Ok (true, s') ∧
    ∀ fuel, ChainLength fuel (block_list (fn s')) (Some 0%nat) = Err OutOfFuel.
Proof.
  intros Hx Hin Hd. eexists. split.
  - unfold UpdateDominatorOfSuccessor. erewrite st_bind_run by (by apply get_block_run).
    rewrite bool_decide_true by done. erewrite st_bind_run by done.
    erewrite st_bind_run by (by apply get_block_run). erewrite st_bind_run by done.
    rewrite Hd. erewrite st_bind_run by done. rewrite bool_decide_false by done.
    by erewrite st_bind_run by (by apply upd_block_run).
  - intros fuel. eapply ChainLength_cycle.
    + simpl. apply list_lookup_insert_eq. by eapply lookup_lt_Some.
    + done.
Qed.

Lemma entry_loop_diverges_witness :
  ∃ s', UpdateDominatorOfSuccessor 0 0 self_loop = Ok (true, s') ∧
    ∀ fuel, ChainLength fuel (block_list (fn s')) (Some 0%nat) = Err OutOfFuel.
Proof.
  eapply (entry_loop_diverges self_loop); [vm_compute; reflexivity|vm_compute; by left|reflexivity].
Defined.

(** ** Dominating edges *)

Definition single_edge (x : HIRBlock) : bool := bool_decide (length (incoming_edges x) = 1%nat).

(** The edges after the blocks below [k] were handled. *)
Definition marked (f : HIRFunction) (k : nat) (e : Edge) : Edge :=
  if bool_decide (dest_block e < k)%nat &&
     match block_list f !! dest_block e with Some x => single_edge x | None => false end
  then set_dominates e else e.

Lemma edges_where_elem t es i : i ∈ edges_where t es ↔ ∃ e, es !! i = Some e ∧ t e = true.
Proof.
  unfold edges_where. rewrite list_elem_of_In, List.filter_In, in_seq. split.
  - intros [_ Ht]. destruct (es !! i); eauto. done.
  - intros (e & He & Ht). rewrite He. split; [|done]. apply lookup_lt_Some in He. lia.
Qed.

Lemma set_edges_id f l : l = edges f → set_edges l f = f.
Proof. intros ->. by destruct f. Qed.

(** Loop invariant of [FindDominateEdges]: the blocks are untouched. *)
Definition marked_upto (s0 s : hir) (k : nat) : Prop :=
  insts s = insts s0 ∧ fn s = set_edges (marked (fn s0) k <$> edges (fn s0)) (fn s0).

Lemma marked_same f k e x :
  block_list f !! k = Some x → (dest_block e = k → single_edge x = false) →
  marked f (S k) e = marked f k e.
Proof.
  intros Hx Hs. unfold marked. destruct (decide (dest_block e = k)) as [E|E].
  - rewrite E, Hx, (Hs E), !andb_false_r. done.
  - do 2 case_bool_decide; try done; lia.
Qed.

(** The edge handled for a block with a single incoming edge. *)
Lemma marked_single f k x i e :
  wf_cfg f → block_list f !! k = Some x → incoming_edges x = [i] → edges f !! i = Some e →
  dest_block e = k ∧
  <[i := set_dominates (marked f k e)]> (marked f k <$> edges f) = marked f (S k) <$> edges f.
Proof.
  intros Hw Hx Hi He. destruct (wf_blocks _ Hw _ _ Hx) as (_ & _ & Hin). rewrite Hi in Hin.
  assert (Hd : ∀ j e', edges f !! j = Some e' → dest_block e' = k ↔ j = i).
  { intros j e' Hj. rewrite <- (list_elem_of_singleton j i), Hin, edges_where_elem.
    rewrite list_lookup_fmap, Hj. simpl. unfold to. split.
    - intros E. eexists. split; [done|]. by apply bool_decide_eq_true.
    - intros (? & [= <-] & E). by apply bool_decide_eq_true in E. }
  assert (Hde : dest_block e = k) by (by apply (Hd i e)). split; [done|].
  apply list_eq. intros j. destruct (decide (j = i)) as [->|Hji].
  - rewrite list_lookup_insert_eq by (rewrite length_fmap; by eapply lookup_lt_Some).
    rewrite list_lookup_fmap, He. simpl. unfold marked. rewrite Hde, Hx.
    rewrite (bool_decide_false (k < k)%nat), (bool_decide_true (k < S k)%nat) by lia. simpl.
    unfold single_edge. by rewrite Hi.
  - rewrite list_lookup_insert_ne by done. rewrite !list_lookup_fmap.
    destruct (edges f !! j) as [e'|] eqn:Hj; [|done]. simpl. f_equal. symmetry.
    eapply marked_same; [done|]. intros E. exfalso. by apply Hji, (Hd j e').
Qed.

Lemma mark_step s0 s k x :
  wf_cfg (fn s0) → marked_upto s0 s k → block_list (fn s0) !! k = Some x →
  ∃ s', mark_dominating (Some k) s = Ok (tt, s') ∧ marked_upto s0 s' (S k).
Proof.
  intros Hw [Hins Hf] Hx.
  assert (Hxs : block_list (fn s) !! k = Some x) by (by rewrite Hf).
  unfold mark_dominating. erewrite st_bind_run by done. erewrite st_bind_run by (by apply get_block_run).
  assert (Hno : single_edge x = false → marked (fn s0) (S k) <$> edges (fn s0) = marked (fn s0) k <$> edges (fn s0)).
  { intros Hs. apply list_fmap_ext. intros j e _. by eapply marked_same. }
  destruct (incoming_edges x) as [|i [|i' l]] eqn:Hi.
  - exists s. split; [done|]. split; [done|]. rewrite Hno; [done|]. unfold single_edge. by rewrite Hi.
  - destruct (lookup_lt_is_Some_2 (edges (fn s0)) i) as [e He].
    { destruct (wf_blocks _ Hw _ _ Hx) as (_ & _ & Hin). rewrite Hi in Hin.
      assert (i ∈ edges_where (to k) (eview <$> edges (fn s0))) as Hlt%edges_where_lt
        by (rewrite <- Hin; by left). by rewrite length_fmap in Hlt. }
    destruct (marked_single _ _ _ _ _ Hw Hx Hi He) as [_ Hm].
    eexists. split.
    { unfold upd_edge, get_edge, get_fn, mbind, st_bind, st_get, mret, st_ret, st_lift. simpl.
      rewrite Hf. simpl. rewrite list_lookup_fmap, He. simpl. done. }
    split; [done|]. simpl. rewrite <- Hm, Hf. done.
  - exists s. split; [done|]. split; [done|]. rewrite Hno; [done|]. unfold single_edge. by rewrite Hi.
Qed.

Lemma mark_loop s0 s k m :
  wf_cfg (fn s0) → (k + m = length (block_list (fn s0)))%nat → marked_upto s0 s k →
  ∃ s', st_iter mark_dominating (Some <$> seq k m) s = Ok (tt, s') ∧ marked_upto s0 s' (k + m).
Proof.
  intros Hw. revert k s. induction m as [|m IH]; intros k s Hk Hm.
  - exists s. by rewrite Nat.add_0_r.
  - destruct (lookup_lt_is_Some_2 (block_list (fn s0)) k) as [x Hx]; [lia|].
    destruct (mark_step s0 s k x Hw Hm Hx) as (s1 & Hr & Hm1).
    destruct (IH (S k) s1 ltac:(lia) Hm1) as (s' & Hr' & Hm'). exists s'.
    rewrite Nat.add_succ_r. csimpl. erewrite st_bind_run by exact Hr. done.
Qed.

(** [FindDominateEdges] on a finished function sets [DOMINATES] on exactly
    the edges whose target has no other incoming edge, and changes nothing
    else. *)
Theorem FindDominateEdges_marks s :
  wf_cfg (fn s) → blocks (fn s) = Some <$> seq 0 (length (block_list (fn s))) →
  ∃ s', FindDominateEdges s = Ok (tt, s') ∧ insts s' = insts s ∧
    fn s' = set_edges (edges (fn s')) (fn s) ∧ length (edges (fn s')) = length (edges (fn s)) ∧
    ∀ i e x, edges (fn s) !! i = Some e → block_list (fn s) !! dest_block e = Some x →
      edges (fn s') !! i =
        Some (if bool_decide (length (incoming_edges x) = 1%nat) then set_dominates e else e).
Proof.
  intros Hw Hb. destruct (mark_loop s s 0 (length (block_list (fn s)))) as (s' & Hr & Hi & Hf); [done|lia| |].
  { split; [done|]. symmetry. apply set_edges_id. rewrite <- (list_fmap_id (edges (fn s))) at 2.
    by apply list_fmap_ext. }
  exists s'. split_and!.
  - unfold FindDominateEdges. erewrite st_bind_run by done. by rewrite Hb.
  - done.
  - rewrite Hf. done.
  - rewrite Hf. simpl. by rewrite length_fmap.
  - intros i e x He Hx. rewrite Hf. simpl. rewrite list_lookup_fmap, He. simpl. f_equal.
    unfold marked. rewrite Hx, bool_decide_true by (by eapply lookup_lt_Some). done.
Qed.

Lemma self_loop_wf : wf_cfg (fn self_loop).
Proof.
  assert (tracks keeps_wf (_ ← LinkBlock_body 0; EndFunction)) as Ht
    by (apply tracks_bind; [apply _|apply keeps_LinkBlock|intros; apply keeps_EndFunction]).
  apply (Ht sample_fn tt self_loop); [vm_compute; reflexivity|apply sample_fn_wf].
Qed.

Lemma FindDominateEdges_marks_witness :
  ∃ s', FindDominateEdges self_loop = Ok (tt, s') ∧ length (edges (fn s')) = 1%nat.
Proof.
  destruct (FindDominateEdges_marks self_loop) as (s' & ? & _ & _ & Hl & _).
  - exact self_loop_wf.
  - vm_compute. reflexivity.
  - exists s'. split; [done|]. rewrite Hl. vm_compute. reflexivity.
Defined.
