(* ===== verification/Dominance.v ===== *)
(** * The dominators of the analysis

    [ComputeDominanceInformation] against the definition of dominance, for
    reducible graphs: every block the entry reaches ends up with its immediate
    dominator.  Pushing a block to the reverse post order relinks the node that the
    block list uses, which a build with assertions refuses. *)

From S2P Require Import Prelude IntrusiveList IRTypes Inst InstSpec HIR HIRSpec CFG CFGSpec.

(** ** Dominance *)










(** ** Counting the processed edges *)














(** ** The invariant of the loop *)

Section invariant.
Context (G : list (list bptr)) (back : bptr → bptr → bool).
#[local] Set Default Proof Using "All".















(** ** The dominator an edge computes *)





(** ** One iteration *)























End invariant.



(** ** A diamond *)









