(* ===== verification/HostMemory.v ===== *)
(** * Host memory

    [host/host_memory.cpp] as built for Linux: the arena that backs the
    emulated memory, a [memfd] mapped once for the kernel and piecewise into a
    reserved range of addresses for a user process.  The system calls are an
    interface ([Posix]) with their documented behaviour as laws
    ([PosixLaws]); [Flat] is an implementation of it. *)

From S2P Require Import Prelude Common.

(** ** The system calls *)
Record prot := mkProt { PROT_READ : bool; PROT_WRITE : bool; PROT_EXEC : bool }.
Definition PROT_NONE : prot := mkProt false false false.
Definition PROT_RW : prot := mkProt true true false.

(** What an address is backed by: anonymous memory, or a byte of a file. *)
Inductive backing : Type := Anonymous | File (fd off : Z) (shared : bool).

Record map_flags := mkFlags { MAP_SHARED : bool; MAP_ANONYMOUS : bool; MAP_FIXED : bool }.

Definition MAP_FAILED : Z := 2 ^ 64 - 1.

Class Posix := {
  os : Type;
  getpagesize : Z;
  sysconf_PAGESIZE : Z;
  (** the mapping that an address belongs to *)
  look : os → Z → option (backing * prot);
  (** the open file descriptors, and the bytes of their files *)
  fds : os → gset Z;
  bytes : os → Z → Z → Z;
  mmap : Z → Z → prot → map_flags → Z → Z → os → Z * os;
  munmap : Z → Z → os → bool * os;
  mprotect : Z → Z → prot → os → bool * os;
  madvise_REMOVE : Z → Z → os → bool * os;
  madvise_HUGEPAGE : Z → Z → os → os;
  memfd_create : os → Z * os;
  ftruncate : Z → Z → os → bool * os;
  close : Z → os → bool * os;
}.

(** [PageAlignment] is [getpagesize()]. *)
Abbreviation PageAlignment := getpagesize.
Definition HugePageSize : Z := 0x200000.

Definition within (a len b : Z) : bool := (a <=? b) && (b <? a + len).

Definition backed_by (f : map_flags) (fd off : Z) : backing :=
  if MAP_ANONYMOUS f then Anonymous else File fd off (MAP_SHARED f).

(** The behaviour that mmap(2), munmap(2), mprotect(2), madvise(2),
    memfd_create(2), ftruncate(2) and close(2) document, for lengths that are
    a multiple of the page size. *)
Class PosixLaws `{Posix} := {
  pagesize_pos : 0 < getpagesize;
  pagesize_huge : (getpagesize | HugePageSize);
  mmap_ok addr len p f fd off s a s' :
    len mod getpagesize = 0 → mmap addr len p f fd off s = (a, s') → a ≠ MAP_FAILED →
    (MAP_FIXED f = true → a = addr) ∧
    (MAP_FIXED f = false → 0 < a ∧ a mod getpagesize = 0 ∧
       ∀ b, within a len b = true → look s b = None) ∧
    a + len ≤ 2 ^ 64 ∧ fds s' = fds s ∧
    ∀ b, look s' b =
      if within a len b then Some (backed_by f fd (off + (b - a)), p) else look s b;
  mmap_failed addr len p f fd off s s' :
    MAP_FIXED f = false → mmap addr len p f fd off s = (MAP_FAILED, s') →
    fds s' = fds s ∧ ∀ b, look s' b = look s b;
  munmap_ok a len s s' :
    len mod getpagesize = 0 → munmap a len s = (true, s') →
    fds s' = fds s ∧ ∀ b, look s' b = if within a len b then None else look s b;
  mprotect_ok a len p s s' :
    len mod getpagesize = 0 → mprotect a len p s = (true, s') →
    fds s' = fds s ∧
    ∀ b, look s' b =
      if within a len b then (λ '(k, _), (k, p)) <$> look s b else look s b;
  madvise_REMOVE_maps a len s r s' :
    madvise_REMOVE a len s = (r, s') → fds s' = fds s ∧ ∀ b, look s' b = look s b;
  madvise_REMOVE_unaligned a len s :
    a mod getpagesize ≠ 0 → ∃ s', madvise_REMOVE a len s = (false, s') ∧
      ∀ f o, bytes s' f o = bytes s f o;
  madvise_REMOVE_ok a len s s' f o :
    madvise_REMOVE a len s = (true, s') →
    ((∃ b p, within a len b = true ∧ look s b = Some (File f o true, p)) → bytes s' f o = 0) ∧
    ((∀ b p, within a len b = true → look s b ≠ Some (File f o true, p)) →
       bytes s' f o = bytes s f o);
  madvise_HUGEPAGE_ok a len s :
    fds (madvise_HUGEPAGE a len s) = fds s ∧ ∀ b, look (madvise_HUGEPAGE a len s) b = look s b;
  memfd_create_ok s fd s' :
    memfd_create s = (fd, s') →
    (∀ b, look s' b = look s b) ∧
    (fd = -1 ∧ fds s' = fds s ∨ 0 ≤ fd ∧ fd ∉ fds s ∧ fds s' = {[ fd ]} ∪ fds s);
  ftruncate_ok fd n s r s' :
    ftruncate fd n s = (r, s') → fds s' = fds s ∧ ∀ b, look s' b = look s b;
  close_ok fd s s' :
    close fd s = (true, s') → fds s' = fds s ∖ {[ fd ]} ∧ ∀ b, look s' b = look s b;
}.

(** ** [HostMemory::Impl] *)
Section host_memory.
Context `{P : Posix}.

(** A system call as a computation. *)
Definition sys {A} (f : os → A * os) : stM os A := λ s, Ok (f s).
Definition sys_ (f : os → os) : stM os unit := λ s, Ok (tt, f s).

Record Impl := mkImpl {
  fd : Z;
  impl_backing_size : Z;
  impl_virtual_size : Z;
  impl_backing_base : Z;
  impl_virtual_base : Z;
}.

(** A function that must not throw: an exception terminates the process. *)
Definition noexcept {S A} (m : stM S A) : stM S A := λ s,
  match m s with Err AssertFailed => Err Aborted | r => r end.

Definition Release (i : Impl) : stM os unit :=
  _ ← (if negb (impl_virtual_base i =? MAP_FAILED) then
         ret ← sys (munmap (impl_virtual_base i) (impl_virtual_size i));
         st_check ret AssertFailed
       else mret tt);
  _ ← (if negb (impl_backing_base i =? MAP_FAILED) then
         ret ← sys (munmap (impl_backing_base i) (impl_backing_size i));
         st_check ret AssertFailed
       else mret tt);
  if negb (fd i =? -1) then
    ret ← sys (close (fd i)); st_check ret AssertFailed
  else mret tt.

(** [throw std::bad_alloc] with [good] still false: [SCOPE_EXIT] releases what
    was acquired.  [None] stands for the exception. *)
Definition bail (i : Impl) : stM os (option Impl) :=
  _ ← noexcept (Release i); mret None.

(** [Impl(size_t backing_size_)]. *)
Definition Impl_kern (backing_size : Z) : stM os (option Impl) :=
  if negb (sysconf_PAGESIZE =? PageAlignment) then
    bail (mkImpl (-1) backing_size 0 MAP_FAILED MAP_FAILED)
  else
  fd ← sys memfd_create;
  if fd =? -1 then bail (mkImpl fd backing_size 0 MAP_FAILED MAP_FAILED) else
  ret ← sys (ftruncate fd backing_size);
  if negb ret then bail (mkImpl fd backing_size 0 MAP_FAILED MAP_FAILED) else
  base ← sys (mmap 0 backing_size PROT_RW (mkFlags true false false) fd 0);
  if base =? MAP_FAILED then bail (mkImpl fd backing_size 0 base MAP_FAILED) else
  mret (Some (mkImpl fd backing_size 0 base MAP_FAILED)).

(** [Impl(int fd_, size_t backing_size_, size_t virtual_size_)]. *)
Definition Impl_user (fd backing_size virtual_size : Z) : stM os (option Impl) :=
  if negb (sysconf_PAGESIZE =? PageAlignment) then
    bail (mkImpl fd backing_size virtual_size MAP_FAILED MAP_FAILED)
  else if fd =? -1 then
    bail (mkImpl fd backing_size virtual_size MAP_FAILED MAP_FAILED)
  else
  base ← sys (mmap 0 virtual_size PROT_NONE (mkFlags false true false) (-1) 0);
  if base =? MAP_FAILED then
    bail (mkImpl fd backing_size virtual_size MAP_FAILED base)
  else
  _ ← sys_ (madvise_HUGEPAGE base virtual_size);
  mret (Some (mkImpl fd backing_size virtual_size MAP_FAILED base)).

Definition Impl_Map (i : Impl) (virtual_offset host_offset length : Z) : stM os unit :=
  ret ← sys (mmap (u64 (impl_virtual_base i + virtual_offset)) length PROT_RW
                  (mkFlags true false true) (fd i) host_offset);
  st_check (negb (ret =? MAP_FAILED)) AssertFailed.

Definition Impl_Unmap (i : Impl) (virtual_offset length : Z) : stM os unit :=
  ret ← sys (mmap (u64 (impl_virtual_base i + virtual_offset)) length PROT_NONE
                  (mkFlags false true true) (-1) 0);
  st_check (negb (ret =? MAP_FAILED)) AssertFailed.

(** The result of the call is not looked at. *)
Definition Impl_Free (i : Impl) (host_offset length : Z) : stM os unit :=
  _ ← sys (madvise_REMOVE (u64 (impl_backing_base i + host_offset)) length); mret tt.

Definition Impl_Protect (i : Impl) (virtual_offset length : Z) (read write exec : bool)
  : stM os unit :=
  ret ← sys (mprotect (u64 (impl_virtual_base i + virtual_offset)) length
                      (mkProt read write exec));
  st_check ret AssertFailed.

(** ** [HostMemory] *)
Record HostMemory := mkHostMemory {
  backing_size : Z;
  virtual_size : Z;
  impl : option Impl;
  backing_base : Z;
  virtual_base : Z;
  virtual_base_offset : Z;
  (** base and size of the fallback [VirtualVector<u8>] *)
  fallback_buffer : option (Z * Z);
}.

(** [AllocateMemoryPages] and [FreeMemoryPages] of host/virtual_vector.cpp. *)
Definition host_AllocateMemoryPages (size : Z) : stM os Z := noexcept (
  base ← sys (mmap 0 size PROT_RW (mkFlags false true false) (-1) 0);
  let base := if base =? MAP_FAILED then 0 else base in
  _ ← st_check (negb (base =? 0)) AssertFailed;
  mret base).

Definition host_FreeMemoryPages (base size : Z) : stM os unit := noexcept (
  if base =? 0 then mret tt
  else ret ← sys (munmap base size); st_check ret AssertFailed).

Definition fallback (backing_size virtual_size : Z) : stM os HostMemory :=
  b ← host_AllocateMemoryPages backing_size;
  mret (mkHostMemory backing_size virtual_size None b 0 0 (Some (b, backing_size))).

Definition CreateForKern (backing_size : Z) : stM os HostMemory :=
  r ← Impl_kern (Align.AlignUp 64 backing_size PageAlignment);
  match r with
  | Some i => mret (mkHostMemory backing_size 0 (Some i) (impl_backing_base i) 0 0 None)
  | None => fallback backing_size 0
  end.

Definition CreateForUser (fd backing_size virtual_size : Z) : stM os HostMemory :=
  r ← Impl_user fd (Align.AlignUp 64 backing_size PageAlignment)
        (u64 (Align.AlignUp 64 virtual_size PageAlignment + 3 * HugePageSize));
  match r with
  | Some i =>
      let base := impl_virtual_base i in
      if negb (base =? 0) then
        let up := u64 (base + (2 * HugePageSize - 1)) in
        let aligned := u64 (up - Z.land up (HugePageSize - 1)) in
        mret (mkHostMemory backing_size virtual_size (Some i) (impl_backing_base i)
                aligned (u64 (aligned - base)) None)
      else
        mret (mkHostMemory backing_size virtual_size (Some i) (impl_backing_base i) base 0 None)
  | None => fallback backing_size virtual_size
  end.

(** [~HostMemory]: [fallback_buffer], then [impl] ([~Impl] releases). *)
Definition HostMemory_dtor (m : HostMemory) : stM os unit :=
  _ ← match fallback_buffer m with
      | Some (b, n) => host_FreeMemoryPages b n
      | None => mret tt
      end;
  match impl m with Some i => noexcept (Release i) | None => mret tt end.

Definition aligned (z : Z) : bool := z mod PageAlignment =? 0.

Definition Map (m : HostMemory) (virtual_offset host_offset length : Z) : stM os unit :=
  _ ← st_check (aligned virtual_offset) AssertFailed;
  _ ← st_check (aligned host_offset) AssertFailed;
  _ ← st_check (aligned length) AssertFailed;
  _ ← st_check (u64 (virtual_offset + length) <=? virtual_size m) AssertFailed;
  _ ← st_check (u64 (host_offset + length) <=? backing_size m) AssertFailed;
  match impl m with
  | Some i =>
      if (length =? 0) || (virtual_base m =? 0) then mret tt
      else Impl_Map i (u64 (virtual_offset + virtual_base_offset m)) host_offset length
  | None => mret tt
  end.

Definition Unmap (m : HostMemory) (virtual_offset length : Z) : stM os unit :=
  _ ← st_check (aligned virtual_offset) AssertFailed;
  _ ← st_check (aligned length) AssertFailed;
  _ ← st_check (u64 (virtual_offset + length) <=? virtual_size m) AssertFailed;
  match impl m with
  | Some i =>
      if (length =? 0) || (virtual_base m =? 0) then mret tt
      else Impl_Unmap i (u64 (virtual_offset + virtual_base_offset m)) length
  | None => mret tt
  end.

Definition Free (m : HostMemory) (host_offset length : Z) : stM os unit :=
  _ ← st_check (aligned host_offset) AssertFailed;
  _ ← st_check (aligned length) AssertFailed;
  _ ← st_check (u64 (host_offset + length) <=? backing_size m) AssertFailed;
  match impl m with
  | Some i => if length =? 0 then mret tt else Impl_Free i host_offset length
  | None => mret tt
  end.

Definition Protect (m : HostMemory) (virtual_offset length : Z) (read write exec : bool)
  : stM os unit :=
  _ ← st_check (aligned virtual_offset) AssertFailed;
  _ ← st_check (aligned length) AssertFailed;
  _ ← st_check (u64 (virtual_offset + length) <=? virtual_size m) AssertFailed;
  match impl m with
  | Some i =>
      if (length =? 0) || (virtual_base m =? 0) then mret tt
      else Impl_Protect i (u64 (virtual_offset + virtual_base_offset m)) length read write exec
  | None => mret tt
  end.

End host_memory.
