(* ===== verification/HostMemorySpec.v ===== *)
(** * Host memory: theorems

    Where the guest window of a user arena lies, that [Map], [Unmap] and
    [Protect] implement a page map over it and touch nothing outside it, that
    [Free] zeroes the backing of a kernel arena, that failed constructions leak
    nothing, and the two defects of [host_memory.cpp]. *)

From S2P Require Import Prelude Common HostMemory.

(** ** The abstract view: what each guest address shows *)
Inductive gpage : Type :=
  | Reserved (p : prot)
  | Backed (off : Z) (p : prot)
  | Foreign.

Definition set_prot (p : prot) (g : gpage) : gpage :=
  match g with Reserved _ => Reserved p | Backed o _ => Backed o p | Foreign => Foreign end.

(** Operations of a client, and their abstract effect. *)
Inductive hop : Type :=
  | HMap (virtual_offset host_offset length : Z)
  | HUnmap (virtual_offset length : Z)
  | HProtect (virtual_offset length : Z) (read write exec : bool).

Definition spec_hop (o : hop) (g : Z → gpage) : Z → gpage := λ v,
  match o with
  | HMap vo ho len => if within vo len v then Backed (ho + (v - vo)) PROT_RW else g v
  | HUnmap vo len => if within vo len v then Reserved PROT_NONE else g v
  | HProtect vo len r w x => if within vo len v then set_prot (mkProt r w x) (g v) else g v
  end.

Definition spec_hops (l : list hop) (g : Z → gpage) : Z → gpage :=
  foldl (λ g o, spec_hop o g) g l.

#[export] Instance spec_hop_proper o :
  Proper (pointwise_relation Z eq ==> pointwise_relation Z eq) (spec_hop o).
Proof. intros g g' Hg v. destruct o; simpl; rewrite ?Hg; done. Qed.

#[export] Instance spec_hops_proper l :
  Proper (pointwise_relation Z eq ==> pointwise_relation Z eq) (spec_hops l).
Proof.
  induction l as [|o l IH]; intros g g' Hg; [done|]. apply IH. by apply spec_hop_proper.
Qed.

(** The 64-bit sums of the assertions do not wrap around. *)
Definition hop_fits (o : hop) : Prop :=
  match o with
  | HMap vo ho len => 0 ≤ vo ∧ 0 ≤ ho ∧ 0 ≤ len ∧ vo + len < 2 ^ 64 ∧ ho + len < 2 ^ 64
  | HUnmap vo len | HProtect vo len _ _ _ => 0 ≤ vo ∧ 0 ≤ len ∧ vo + len < 2 ^ 64
  end.

Section spec.
Context `{P : Posix}.

Definition view_entry (i : Impl) (e : option (backing * prot)) : gpage :=
  match e with
  | Some (Anonymous, p) => Reserved p
  | Some (File f off true, p) => if f =? fd i then Backed off p else Foreign
  | _ => Foreign
  end.

Definition view (m : HostMemory) (i : Impl) (s : os) (v : Z) : gpage :=
  view_entry i (look s (virtual_base m + v)).

Definition run_hop (m : HostMemory) (o : hop) : stM os unit :=
  match o with
  | HMap vo ho len => Map m vo ho len
  | HUnmap vo len => Unmap m vo len
  | HProtect vo len r w x => Protect m vo len r w x
  end.

(** The guest window lies in the reservation, at a huge-page boundary. *)
Record arena (m : HostMemory) (i : Impl) : Prop := {
  arena_impl : impl m = Some i;
  arena_base : virtual_base m = impl_virtual_base i + virtual_base_offset m;
  arena_pos : 0 < impl_virtual_base i;
  arena_off : 0 ≤ virtual_base_offset m;
  arena_size : 0 ≤ virtual_size m;
  arena_huge : virtual_base m mod HugePageSize = 0;
  arena_fit : virtual_base m + virtual_size m ≤ impl_virtual_base i + impl_virtual_size i;
  arena_top : impl_virtual_base i + impl_virtual_size i ≤ 2 ^ 64;
}.

(** The address a guest offset is translated to does not wrap around. *)
Lemma arena_addr m i vo len :
  arena m i → 0 ≤ vo → 0 < len → vo + len ≤ virtual_size m →
  u64 (impl_virtual_base i + u64 (vo + virtual_base_offset m)) = virtual_base m + vo.
Proof.
  intros []. intros. rewrite wrap_add_r, wrap_small; unfold in_width; lia.
Qed.

Context {L : PosixLaws}.
#[local] Set Default Proof Using "All".

Lemma sys_fixed a len p f fd' off s s' u :
  MAP_FIXED f = true → len mod getpagesize = 0 →
  (ret ← sys (mmap a len p f fd' off); st_check (negb (ret =? MAP_FAILED)) AssertFailed) s
    = Ok (u, s') →
  fds s' = fds s ∧
  ∀ b, look s' b =
    if within a len b then Some (backed_by f fd' (off + (b - a)), p) else look s b.
Proof.
  intros Hf Hl H. inv_ok. unfold sys in H. destruct (mmap _ _ _ _ _ _ s) as [r s1] eqn:E.
  inv_ok. match goal with H : negb _ = true |- _ =>
    apply negb_true_iff, Z.eqb_neq in H; rename H into Hr end.
  destruct (mmap_ok _ _ _ _ _ _ _ _ _ Hl E Hr) as (Hfix & _ & _ & Hfds & Hlook).
  rewrite (Hfix Hf) in Hlook. done.
Qed.

Lemma Impl_Map_look i vo ho len s s' u :
  len mod getpagesize = 0 → Impl_Map i vo ho len s = Ok (u, s') →
  fds s' = fds s ∧
  ∀ b, look s' b =
    if within (u64 (impl_virtual_base i + vo)) len b
    then Some (File (fd i) (ho + (b - u64 (impl_virtual_base i + vo))) true, PROT_RW)
    else look s b.
Proof. intros. by eapply sys_fixed in H0. Qed.

Lemma Impl_Unmap_look i vo len s s' u :
  len mod getpagesize = 0 → Impl_Unmap i vo len s = Ok (u, s') →
  fds s' = fds s ∧
  ∀ b, look s' b = if within (u64 (impl_virtual_base i + vo)) len b
                   then Some (Anonymous, PROT_NONE) else look s b.
Proof. intros. by eapply sys_fixed in H0. Qed.

Lemma Impl_Protect_look i vo len r w x s s' u :
  len mod getpagesize = 0 → Impl_Protect i vo len r w x s = Ok (u, s') →
  fds s' = fds s ∧
  ∀ b, look s' b = if within (u64 (impl_virtual_base i + vo)) len b
                   then (λ '(k, _), (k, mkProt r w x)) <$> look s b else look s b.
Proof.
  intros Hl H. unfold Impl_Protect in H. inv_ok. unfold sys in H.
  destruct (mprotect _ _ _ s) as [ret s1] eqn:E. inv_ok. by apply mprotect_ok in E.
Qed.

Lemma within_shift a len base v : within (base + a) len (base + v) = within a len v.
Proof.
  unfold within. f_equal;
    [apply eq_iff_eq_true; rewrite !Z.leb_le; lia|apply eq_iff_eq_true; rewrite !Z.ltb_lt; lia].
Qed.

Lemma within_window a len base v size :
  0 ≤ a → a + len ≤ size → ¬ (base ≤ v < base + size) → within (base + a) len v = false.
Proof. intros. unfold within. destruct (Z.leb_spec (base + a) v), (Z.ltb_spec v (base + a + len)); simpl; lia. Qed.

(** What one operation does to a window of addresses, in terms of its effect on
    [look]. *)
Lemma window_update m i s s' vo len (new : Z → option (backing * prot) → option (backing * prot)) :
  0 ≤ vo → vo + len ≤ virtual_size m →
  (∀ b, look s' b = if within (virtual_base m + vo) len b
                    then new (b - (virtual_base m + vo)) (look s b) else look s b) →
  (∀ v, view m i s' v =
     if within vo len v then view_entry i (new (v - vo) (look s (virtual_base m + v)))
     else view m i s v) ∧
  (∀ a, ¬ (virtual_base m ≤ a < virtual_base m + virtual_size m) → look s' a = look s a).
Proof.
  intros H0 Hfit H. split.
  - intros v. unfold view. rewrite H, within_shift. destruct (within vo len v); [|done].
    by replace (virtual_base m + v - (virtual_base m + vo)) with (v - vo) by lia.
  - intros a Ha. rewrite H, (within_window vo len _ a (virtual_size m)); done.
Qed.

Lemma aligned_mod z : aligned z = true → z mod getpagesize = 0.
Proof. apply Z.eqb_eq. Qed.

Lemma within_true a len b : a ≤ b < a + len → within a len b = true.
Proof. intros. unfold within. destruct (Z.leb_spec a b), (Z.ltb_spec b (a + len)); simpl; lia. Qed.

Lemma within_0 a v : within a 0 v = false.
Proof. unfold within. destruct (Z.leb_spec a v), (Z.ltb_spec v (a + 0)); simpl; lia. Qed.


(** One operation refines its specification and leaves every address outside
    the guest window alone. *)
Lemma run_hop_refines m i o s s' u :
  arena m i → hop_fits o → run_hop m o s = Ok (u, s') →
  pointwise_relation Z eq (view m i s') (spec_hop o (view m i s)) ∧
  fds s' = fds s ∧
  ∀ a, ¬ (virtual_base m ≤ a < virtual_base m + virtual_size m) → look s' a = look s a.
Proof.
  intros Har Hfit H. pose proof (arena_pos _ _ Har). pose proof (arena_off _ _ Har).
  pose proof (arena_base _ _ Har).
  destruct o as [vo ho len|vo len|vo len r w x];
    simpl in H; unfold Map, Unmap, Protect in H; inv_ok;
    rewrite (arena_impl _ _ Har) in *; simpl in Hfit;
    repeat match goal with
    | H : (u64 _ <=? _) = true |- _ =>
        rewrite wrap_small in H by (unfold in_width; lia); apply Z.leb_le in H
    end;
    destruct (Z.eqb_spec len 0) as [->|Hlen];
    try (assert (virtual_base m =? 0 = false) as Hz by (apply Z.eqb_neq; lia); rewrite Hz in *);
    simpl in *;
    try match goal with
    | H : Impl_Map _ _ _ _ _ = _ |- _ => apply Impl_Map_look in H as [Hf Hl]
    | H : Impl_Unmap _ _ _ _ = _ |- _ => apply Impl_Unmap_look in H as [Hf Hl]
    | H : Impl_Protect _ _ _ _ _ _ _ = _ |- _ => apply Impl_Protect_look in H as [Hf Hl]
    end; try (by apply aligned_mod);
    try (rewrite (arena_addr m i vo len) in Hl by (done || lia)).
  1,3,5: inv_ok; split_and!; try done; intros v; simpl; by rewrite ?within_0.
  - destruct (window_update m i s s' vo len (λ d _, Some (File (fd i) (ho + d) true, PROT_RW)))
      as [Hv Ho]; try lia; try done.
    split_and!; try done. intros v. rewrite Hv. simpl. by rewrite Z.eqb_refl.
  - destruct (window_update m i s s' vo len (λ _ _, Some (Anonymous, PROT_NONE)))
      as [Hv Ho]; try lia; try done.
  - destruct (window_update m i s s' vo len (λ _ e, (λ '(k, _), (k, mkProt r w x)) <$> e))
      as [Hv Ho]; try lia; try done.
    split_and!; try done. intros v. rewrite Hv. simpl. destruct (within vo len v); [|done].
    unfold view, view_entry. destruct (look s _) as [[[|f off []] p]|]; simpl; try done.
    by destruct (f =? fd i).
Qed.

(** (C7) [Map], [Unmap] and [Protect] on a user arena implement the abstract
    page map: after any sequence of these operations whose 64-bit sums of
    offset and length do not wrap around and that all succeed, every guest
    address shows what the specification says (backing offset and permissions),
    and no address of the host outside the guest window has changed. *)
Theorem host_memory_refines m i l s s' u :
  arena m i → Forall hop_fits l → st_iter (run_hop m) l s = Ok (u, s') →
  (∀ v, view m i s' v = spec_hops l (view m i s) v) ∧
  ∀ a, ¬ (virtual_base m ≤ a < virtual_base m + virtual_size m) → look s' a = look s a.
Proof.
  intros Har Hl. revert s u. induction Hl as [|o l Ho Hl IH]; intros s u H; simpl in H.
  - by inv_ok.
  - inv_ok. apply (run_hop_refines m i) in H as (Hv & _ & Hout); [|done..].
    apply IH in H0 as [Hv' Hout']. split.
    + intros v. rewrite Hv'. simpl. by apply (spec_hops_proper l _ _ Hv).
    + intros a Ha. by rewrite Hout', Hout.
Qed.

(** An operation inside its bounds either succeeds or reports the failure of
    the system call; one that is misaligned or out of range faults. *)
Lemma Map_checks m vo ho len s s' u :
  Map m vo ho len s = Ok (u, s') →
  vo mod getpagesize = 0 ∧ ho mod getpagesize = 0 ∧ len mod getpagesize = 0 ∧
  u64 (vo + len) ≤ virtual_size m ∧ u64 (ho + len) ≤ backing_size m.
Proof.
  intros H. unfold Map in H. inv_ok.
  repeat match goal with
  | H : aligned _ = true |- _ => apply aligned_mod in H
  | H : (_ <=? _) = true |- _ => apply Z.leb_le in H
  end. done.
Qed.

(** ** Construction *)
Lemma bail_None i s r s' : bail i s = Ok (r, s') → r = None.
Proof. unfold bail. intros H. by inv_ok. Qed.

Lemma Impl_user_ok fd' bs vs s i s' :
  vs mod getpagesize = 0 → Impl_user fd' bs vs s = Ok (Some i, s') →
  i = mkImpl fd' bs vs MAP_FAILED (impl_virtual_base i) ∧
  0 < impl_virtual_base i ∧ impl_virtual_base i + vs ≤ 2 ^ 64 ∧ fds s' = fds s ∧
  ∀ b, look s' b =
    if within (impl_virtual_base i) vs b then Some (Anonymous, PROT_NONE) else look s b.
Proof.
  intros Hvs H. unfold Impl_user in H.
  destruct (negb _); [by apply bail_None in H|].
  destruct (fd' =? -1); [by apply bail_None in H|]. inv_ok. unfold sys, sys_ in *.
  destruct (mmap _ _ _ _ _ _ s) as [a s1] eqn:E. inv_ok.
  destruct (Z.eqb_spec x MAP_FAILED) as [|Ha]; [by apply bail_None in H0|]. inv_ok.
  destruct (mmap_ok _ _ _ _ _ _ _ _ _ Hvs E Ha) as (_ & Hfree & Htop & Hf & Hl).
  destruct Hfree as (Hpos & _); [done|]. simpl. unfold impl_virtual_base. split_and!; try done.
  - etrans; [apply madvise_HUGEPAGE_ok|done].
  - intros b. etrans; [apply madvise_HUGEPAGE_ok|apply Hl].
Qed.

(** Rounding the base up to the next-but-one huge page boundary. *)
Lemma huge_align base size :
  0 < base → 0 ≤ size → base + (size + 3 * HugePageSize) ≤ 2 ^ 64 →
  let up := u64 (base + (2 * HugePageSize - 1)) in
  let a := u64 (up - Z.land up (HugePageSize - 1)) in
  a mod HugePageSize = 0 ∧ base ≤ a ∧ a + size ≤ base + (size + 3 * HugePageSize) ∧
  u64 (a - base) = a - base.
Proof.
  unfold HugePageSize. intros. cbv zeta.
  rewrite (wrap_small 64 (base + _)) by (unfold in_width; lia).
  change (0x200000 - 1) with (2 ^ 21 - 1). rewrite land_pow2_pred by lia.
  change (2 * 0x200000 - 1) with (2 * 2 ^ 21 - 1). change 0x200000 with (2 ^ 21) in *.
  pose proof (Z.mod_pos_bound (base + (2 * 2 ^ 21 - 1)) (2 ^ 21) ltac:(lia)).
  pose proof (Z.div_mod (base + (2 * 2 ^ 21 - 1)) (2 ^ 21) ltac:(lia)).
  set (q := (base + (2 * 2 ^ 21 - 1)) / 2 ^ 21) in *.
  set (r := (base + (2 * 2 ^ 21 - 1)) mod 2 ^ 21) in *.
  replace (base + (2 * 2 ^ 21 - 1) - r) with (q * 2 ^ 21) by lia.
  rewrite !wrap_small; unfold in_width; try lia.
  split; [by apply Z.mod_mul|lia].
Qed.

(** A user arena that does not fall back to a plain buffer gives the
    guest a window that starts at a huge-page boundary and lies, with its
    whole size, inside the address range reserved by [mmap]; the reservation is
    inaccessible anonymous memory and nothing else was changed. *)
Theorem CreateForUser_layout fd' bs vs s m s' i :
  0 ≤ vs → vs + getpagesize + 3 * HugePageSize ≤ 2 ^ 64 →
  CreateForUser fd' bs vs s = Ok (m, s') → impl m = Some i →
  arena m i ∧ virtual_size m = vs ∧ fd i = fd' ∧ fds s' = fds s ∧
  (∀ v, 0 ≤ v < vs → view m i s' v = Reserved PROT_NONE) ∧
  ∀ a, within (impl_virtual_base i) (impl_virtual_size i) a = false → look s' a = look s a.
Proof.
  intros H0 Hfit H Hi. pose proof pagesize_pos as Hp.
  destruct (Align.AlignUp_bounds 64 vs getpagesize) as [Hmod Hb]; try lia.
  { unfold HugePageSize in Hfit. lia. }
  unfold CreateForUser in H. set (vsz := Align.AlignUp 64 vs getpagesize) in *. clearbody vsz.
  rewrite (wrap_small 64 (vsz + _)) in H by (unfold in_width, HugePageSize in *; lia).
  inv_ok. destruct x as [j|].
  2:{ unfold fallback in H1. inv_ok. done. }
  apply Impl_user_ok in H as (Ej & Hpos & Htop & Hf & Hl).
  2:{ destruct pagesize_huge as [k ->]. rewrite Z.mul_assoc, Z.mod_add; lia. }
  pose proof (huge_align _ vsz Hpos ltac:(lia) Htop) as (Hh & Hge & Hle & Hw). cbv zeta in *.
  destruct (Z.eqb_spec (impl_virtual_base j) 0) as [|_]; [lia|]. simpl in H1. inv_ok.
  simpl in Hi. injection Hi as <-. rewrite Ej in *. simpl in *.
  split_and!; try done.
  - split; simpl; try done; try lia.
  - intros v Hv. unfold view. simpl. rewrite Hl.
    rewrite within_true; [done|lia].
  - intros a Ha. by rewrite Hl, Ha.
Qed.

(** [CreateForUser] stores the [backing_base] of its [Impl], which the
    constructor for user processes never maps: [BackingBasePointer()] is
    [MAP_FAILED], and [Free] asks the kernel to remove pages at an address that
    is not aligned: the call fails, nobody looks at its result, and the bytes
    of the backing file stay as they were. *)
Theorem CreateForUser_backing_base fd' bs vs s m s' i :
  CreateForUser fd' bs vs s = Ok (m, s') → impl m = Some i → 1 < getpagesize →
  backing_base m = MAP_FAILED ∧
  ∀ ho len s1, ho mod getpagesize = 0 → len mod getpagesize = 0 →
    0 < ho → 0 < len → ho + len ≤ bs → bs < 2 ^ 64 →
    ∃ s2, Free m ho len s1 = Ok (tt, s2) ∧ ∀ f o, bytes s2 f o = bytes s1 f o.
Proof.
  intros H Hi Hpg. unfold CreateForUser in H. inv_ok. destruct x as [j|].
  2:{ unfold fallback in H0. inv_ok. done. }
  assert (impl_backing_base j = MAP_FAILED ∧ m = mkHostMemory bs vs (Some j) MAP_FAILED
     (virtual_base m) (virtual_base_offset m) None) as [Hj Hm].
  { assert (impl_backing_base j = MAP_FAILED) as Hj.
    { unfold Impl_user in H. destruct (negb _); [by apply bail_None in H|].
      destruct (fd' =? -1); [by apply bail_None in H|]. inv_ok.
      destruct (_ =? MAP_FAILED); [by apply bail_None in H1|]. by inv_ok. }
    rewrite Hj in H0. split; [done|]. case_match; by inv_ok. }
  rewrite Hm in Hi |- *. simpl in *. injection Hi as <-. split; [done|].
  intros ho len s1 Ho Hl Hho Hlen Hle Hbs.
  destruct (madvise_REMOVE_unaligned (ho - 1) len s1) as (s2 & Hr & Hb).
  { rewrite <- Zminus_mod_idemp_l, Ho.
    replace (0 - 1) with (getpagesize - 1 + (-1) * getpagesize) by lia.
    rewrite Z.mod_add, Z.mod_small by lia. lia. }
  exists s2. split; [|done]. unfold Free, aligned. simpl.
  rewrite Ho, Hl, wrap_small by (unfold in_width; lia).
  destruct (Z.leb_spec (ho + len) bs); [|lia]. destruct (Z.eqb_spec len 0); [lia|].
  unfold st_check, mbind, st_bind, mret, st_ret, Impl_Free, sys. simpl.
  rewrite Hj. unfold MAP_FAILED, wrap.
  replace (2 ^ 64 - 1 + ho) with (ho - 1 + 1 * 2 ^ 64) by lia.
  rewrite Z.mod_add, Z.mod_small by lia. by erewrite st_bind_run by (by rewrite Hr).
Qed.

(** [Free] on an arena whose backing memory shows the file from its start, as
    [CreateForKern] maps it: the mappings stay, and when the call succeeds the
    freed bytes of the file are zero and all others are unchanged. *)
Theorem Free_zeroes m i ho len s :
  impl m = Some i → backing_size m ≤ impl_backing_size i →
  0 < impl_backing_base i → impl_backing_base i + impl_backing_size i ≤ 2 ^ 64 →
  (∀ b, within (impl_backing_base i) (impl_backing_size i) b = true →
     ∃ p, look s b = Some (File (fd i) (b - impl_backing_base i) true, p)) →
  ho mod getpagesize = 0 → len mod getpagesize = 0 → 0 ≤ ho → 0 < len → ho + len ≤ backing_size m →
  ∃ r s', madvise_REMOVE (impl_backing_base i + ho) len s = (r, s') ∧ Free m ho len s = Ok (tt, s') ∧
    (∀ b, look s' b = look s b) ∧
    (r = true → ∀ f o, bytes s' f o =
       if (f =? fd i) && within ho len o then 0 else bytes s f o).
Proof.
  intros Hi Hsz Hb0 Htop Hmap Ho Hl Hho Hlen Hle.
  destruct (madvise_REMOVE (impl_backing_base i + ho) len s) as [r s'] eqn:Hr.
  exists r, s'. split; [done|]. split.
  { unfold Free, aligned. rewrite Hi, Ho, Hl, (wrap_small 64 (ho + len)) by (unfold in_width; lia).
    destruct (Z.leb_spec (ho + len) (backing_size m)); [|lia]. destruct (Z.eqb_spec len 0); [lia|].
    unfold st_check, mbind, st_bind, mret, st_ret, Impl_Free, sys. simpl.
    rewrite (wrap_small 64 (impl_backing_base i + ho)) by (unfold in_width; lia).
    by erewrite st_bind_run by (by rewrite Hr). }
  split; [by destruct (madvise_REMOVE_maps _ _ _ _ _ Hr)|]. intros -> f o.
  destruct (madvise_REMOVE_ok _ _ _ _ f o Hr) as [Hz Hk].
  destruct (Z.eqb_spec f (fd i)) as [->|Hf]; simpl; [destruct (within ho len o) eqn:Hw|].
  - apply Hz. unfold within in Hw. apply andb_true_iff in Hw as [?%Z.leb_le ?%Z.ltb_lt].
    destruct (Hmap (impl_backing_base i + o)) as [p Hp]; [apply within_true; lia|].
    exists (impl_backing_base i + o), p. split; [apply within_true; lia|].
    rewrite Hp. do 3 f_equal. lia.
  - apply Hk. intros b p Hin Hlk. unfold within in Hin, Hw.
    apply andb_true_iff in Hin as [?%Z.leb_le ?%Z.ltb_lt].
    destruct (Hmap b) as [p' Hp']; [apply within_true; lia|]. rewrite Hlk in Hp'. injection Hp' as -> _.
    destruct (Z.leb_spec ho (b - impl_backing_base i)), (Z.ltb_spec (b - impl_backing_base i) (ho + len));
      simpl in Hw; (done || lia).
  - apply Hk. intros b p Hin Hlk. unfold within in Hin.
    apply andb_true_iff in Hin as [?%Z.leb_le ?%Z.ltb_lt].
    destruct (Hmap b) as [p' Hp']; [apply within_true; lia|]. rewrite Hlk in Hp'. by injection Hp'.
Qed.

(** The assertions of [Map] add the offset and the length in 64 bits: an
    offset of [2^64 - L] with length [L] passes them all, and for an [L] larger
    than the distance to the reservation's start the call maps the backing
    file over host addresses below the reservation. *)
Theorem Map_offset_overflow m i len s :
  arena m i → 0 < len → len mod getpagesize = 0 → 2 ^ 64 mod getpagesize = 0 →
  virtual_base_offset m < len → len ≤ virtual_base m → len ≤ backing_size m →
  Map m (2 ^ 64 - len) 0 len s =
    Impl_Map i (u64 (2 ^ 64 - len + virtual_base_offset m)) 0 len s ∧
  ∀ s' u, Map m (2 ^ 64 - len) 0 len s = Ok (u, s') →
    ∀ a, virtual_base m - len ≤ a < impl_virtual_base i →
      look s' a = Some (File (fd i) (a - (virtual_base m - len)) true, PROT_RW).
Proof.
  intros Har Hlen Hmod H64 Hoff Hle Hbs.
  pose proof (arena_pos _ _ Har). pose proof (arena_base _ _ Har).
  pose proof (arena_off _ _ Har). pose proof (arena_size _ _ Har).
  pose proof (arena_fit _ _ Har). pose proof (arena_top _ _ Har).
  pose proof pagesize_pos as Hp.
  assert (E : Map m (2 ^ 64 - len) 0 len s =
    Impl_Map i (u64 (2 ^ 64 - len + virtual_base_offset m)) 0 len s).
  { unfold Map, aligned. rewrite (arena_impl _ _ Har), Hmod, Zmod_0_l, Zminus_mod, Hmod, H64.
    rewrite Z.sub_diag, Zmod_0_l, Z.add_0_l. replace (2 ^ 64 - len + len) with (2 ^ 64) by lia.
    change (u64 (2 ^ 64)) with 0. unfold st_check, mbind, st_bind, mret, st_ret. simpl.
    assert (u64 len ≤ len) by (apply Z.mod_le; lia).
    destruct (Z.leb_spec 0 (virtual_size m)); [|lia].
    destruct (Z.leb_spec (u64 len) (backing_size m)); [|lia].
    destruct (Z.eqb_spec len 0); [lia|]. by destruct (Z.eqb_spec (virtual_base m) 0); [lia|]. }
  split; [done|]. intros s' u. rewrite E. intros Hr a Ha.
  apply Impl_Map_look in Hr as [_ Hl]; [|done]. rewrite Hl, wrap_add_r.
  replace (impl_virtual_base i + (2 ^ 64 - len + virtual_base_offset m))
    with (virtual_base m - len + 1 * 2 ^ 64) by lia.
  unfold wrap. rewrite Z.mod_add, Z.mod_small by lia.
  rewrite within_true by lia. by rewrite Z.add_0_l.
Qed.

(** *** Releasing *)
Lemma noexcept_Ok {S A} (m : stM S A) s r : noexcept m s = Ok r → m s = Ok r.
Proof. unfold noexcept. destruct (m s) as [|[]]; naive_solver. Qed.

Lemma sys_munmap a len s s' u :
  len mod getpagesize = 0 →
  (ret ← sys (munmap a len); st_check ret AssertFailed) s = Ok (u, s') →
  fds s' = fds s ∧ ∀ b, look s' b = if within a len b then None else look s b.
Proof.
  intros Hl H. inv_ok. unfold sys in H. destruct (munmap a len s) as [r s1] eqn:E.
  inv_ok. by apply munmap_ok in E.
Qed.

Lemma sys_close f s s' u :
  (ret ← sys (close f); st_check ret AssertFailed) s = Ok (u, s') →
  fds s' = fds s ∖ {[ f ]} ∧ ∀ b, look s' b = look s b.
Proof.
  intros H. inv_ok. unfold sys in H. destruct (close f s) as [r s1] eqn:E.
  inv_ok. by apply close_ok in E.
Qed.

(** [Release] of an arena without virtual range. *)
Lemma Release_kern f bs base s s' u :
  bs mod getpagesize = 0 →
  Release (mkImpl f bs 0 base MAP_FAILED) s = Ok (u, s') →
  fds s' = (if f =? -1 then fds s else fds s ∖ {[ f ]}) ∧
  ∀ b, look s' b =
    if base =? MAP_FAILED then look s b else if within base bs b then None else look s b.
Proof.
  intros Hbs H. unfold Release in H.
  cbn [fd impl_backing_size impl_virtual_size impl_backing_base impl_virtual_base] in H.
  rewrite Z.eqb_refl in H. cbn [negb] in H. rewrite (st_bind_run _ _ s s tt) in H by done.
  apply st_bind_Ok in H as ([] & s1 & H1 & H2).
  assert (Hl : fds s1 = fds s ∧ ∀ b, look s1 b =
    if base =? MAP_FAILED then look s b else if within base bs b then None else look s b).
  { destruct (base =? MAP_FAILED); simpl in H1; [by inv_ok|by eapply sys_munmap]. }
  destruct Hl as [<- Hl]. destruct (f =? -1); simpl in H2; [by inv_ok|].
  apply sys_close in H2 as [-> Hc]. split; [done|]. intros b. by rewrite Hc, Hl.
Qed.

Lemma bail_kern f bs s r s' :
  bs mod getpagesize = 0 →
  bail (mkImpl f bs 0 MAP_FAILED MAP_FAILED) s = Ok (r, s') →
  fds s' = (if f =? -1 then fds s else fds s ∖ {[ f ]}) ∧ ∀ b, look s' b = look s b.
Proof.
  intros Hbs H. unfold bail in H. inv_ok. apply noexcept_Ok, Release_kern in H; [|done].
  by rewrite Z.eqb_refl in H.
Qed.

(** The constructor for the kernel: either a fresh descriptor mapped at a fresh
    range, or nothing. *)
Lemma Impl_kern_spec bs s r s' :
  bs mod getpagesize = 0 → Impl_kern bs s = Ok (r, s') →
  match r with
  | None => fds s' = fds s ∧ ∀ b, look s' b = look s b
  | Some i =>
      i = mkImpl (fd i) bs 0 (impl_backing_base i) MAP_FAILED ∧
      impl_backing_base i ≠ MAP_FAILED ∧ 0 ≤ fd i ∧ fd i ∉ fds s ∧
      fds s' = {[ fd i ]} ∪ fds s ∧
      (∀ b, within (impl_backing_base i) bs b = true → look s b = None) ∧
      ∀ b, look s' b = if within (impl_backing_base i) bs b
        then Some (File (fd i) (b - impl_backing_base i) true, PROT_RW) else look s b
  end.
Proof.
  intros Hbs H. unfold Impl_kern in H.
  destruct (negb _).
  { pose proof (bail_None _ _ _ _ H) as ->. by apply bail_kern in H. }
  apply st_bind_Ok in H as (x & s1 & E & H). injection E as E.
  apply memfd_create_ok in E as [Hl1 Hfd].
  destruct (Z.eqb_spec x (-1)) as [->|Hx].
  { pose proof (bail_None _ _ _ _ H) as ->. apply bail_kern in H as [Hf Hl]; [|done].
    simpl in Hf. destruct Hfd as [[_ Hfd]|]; [|lia]. split; [congruence|].
    intros b. by rewrite Hl, Hl1. }
  destruct Hfd as [[]|(Hge & Hnew & Hfd)]; [done|].
  apply st_bind_Ok in H as (y & s2 & E & H). injection E as E.
  apply ftruncate_ok in E as [Hf2 Hl2].
  assert (Hback : fds s2 ∖ {[ x ]} = fds s) by (rewrite Hf2, Hfd; set_solver).
  destruct (negb _).
  { pose proof (bail_None _ _ _ _ H) as ->. apply bail_kern in H as [Hf Hl]; [|done].
    destruct (Z.eqb_spec x (-1)); [done|]. split; [congruence|].
    intros b. by rewrite Hl, Hl2, Hl1. }
  apply st_bind_Ok in H as (z & s3 & E & H). injection E as E.
  destruct (Z.eqb_spec z MAP_FAILED) as [->|Hb].
  { pose proof (bail_None _ _ _ _ H) as ->. apply bail_kern in H as [Hf Hl]; [|done].
    apply mmap_failed in E as [Hf3 Hl3]; [|done].
    destruct (Z.eqb_spec x (-1)); [done|]. split; [congruence|].
    intros b. by rewrite Hl, Hl3, Hl2, Hl1. }
  inv_ok. apply mmap_ok in E as (_ & Hfree & _ & Hf3 & Hl3); [|done..].
  destruct Hfree as (_ & _ & Hfree); [done|]. simpl. split_and!; try done.
  - congruence.
  - intros b Hw. by rewrite <- Hl1, <- Hl2, Hfree.
  - intros b. by rewrite Hl3, Hl2, Hl1, Z.add_0_l.
Qed.

Lemma AlignUp_fix v :
  0 ≤ v → v + getpagesize ≤ 2 ^ 64 → v mod getpagesize = 0 →
  Align.AlignUp 64 v getpagesize = v.
Proof.
  intros H0 Hfit Hv. pose proof pagesize_pos as Hp.
  rewrite Align.AlignUp_raw by (unfold in_width; lia).
  rewrite Hv, Z.eqb_refl. apply wrap_small. unfold in_width. lia.
Qed.

Lemma fallback_spec bs vs s m s' :
  bs mod getpagesize = 0 → fallback bs vs s = Ok (m, s') →
  ∃ b, m = mkHostMemory bs vs None b 0 0 (Some (b, bs)) ∧ 0 < b ∧
    (∀ a, within b bs a = true → look s a = None) ∧ fds s' = fds s ∧
    ∀ a, look s' a = if within b bs a then Some (Anonymous, PROT_RW) else look s a.
Proof.
  intros Hbs H. unfold fallback in H. apply st_bind_Ok in H as (b & s1 & H & H2). inv_ok.
  apply noexcept_Ok, st_bind_Ok in H as (x & s1 & E & H). injection E as E.
  destruct (Z.eqb_spec x MAP_FAILED) as [|Hx]; [done|]. cbv zeta in H. inv_ok.
  apply mmap_ok in E as (_ & Hfree & _ & Hf & Hl); [|done..].
  destruct Hfree as (Hpos & _ & Hfree); [done|]. by exists b.
Qed.

(** Creating a kernel arena and destroying it is neutral, on every path of
    the constructor: if the creation succeeds (mapped, or on the fallback
    buffer after a failed system call), then the backing pointer is the start of
    [bs] readable and writable bytes, and once the destructor has run the
    mappings of the process and its open descriptors are what they were. *)
Theorem CreateForKern_dtor_neutral bs s m s1 :
  0 ≤ bs → bs + getpagesize ≤ 2 ^ 64 → bs mod getpagesize = 0 →
  CreateForKern bs s = Ok (m, s1) →
  (∀ b, 0 ≤ b < bs → ∃ k, look s1 (backing_base m + b) = Some (k, PROT_RW)) ∧
  ∀ s2 u, HostMemory_dtor m s1 = Ok (u, s2) →
    fds s2 = fds s ∧ ∀ b, look s2 b = look s b.
Proof.
  intros H0 Hfit Hbs H. unfold CreateForKern in H. pose proof pagesize_pos as Hp.
  rewrite AlignUp_fix in H by lia.
  apply st_bind_Ok in H as (r & s' & Hi & H). apply Impl_kern_spec in Hi; [|done].
  destruct r as [i|].
  - inv_ok. destruct Hi as (Ei & Hb & Hfd & Hnew & Hf & Hfree & Hl). simpl. split.
    + intros b Hin. rewrite Hl, within_true by lia. eauto.
    + intros s2 u Hd. unfold HostMemory_dtor in Hd. simpl in Hd.
      rewrite (st_bind_run _ _ s1 s1 tt) in Hd by done. rewrite Ei in Hd.
      apply noexcept_Ok, Release_kern in Hd as [Hf2 Hl2]; [|done].
      destruct (Z.eqb_spec (impl_backing_base i) MAP_FAILED); [done|].
      destruct (Z.eqb_spec (fd i) (-1)); [lia|]. split; [rewrite Hf2, Hf; set_solver|].
      intros b. rewrite Hl2, Hl. destruct (within _ _ b) eqn:E; [|done]. by rewrite Hfree.
  - destruct Hi as [Hf Hl]. apply fallback_spec in H as
      (b0 & Em & Hb0 & Hfree & Hf1 & Hl1); [|done]. subst m. simpl. split.
    + intros b Hin. rewrite Hl1, within_true by lia. eauto.
    + intros s2 u Hd. unfold HostMemory_dtor in Hd. simpl in Hd.
      apply st_bind_Ok in Hd as ([] & s3 & Hd & E). inv_ok.
      apply noexcept_Ok in Hd. destruct (Z.eqb_spec b0 0); [lia|].
      apply sys_munmap in Hd as [-> Hl2]; [|done]. split; [congruence|].
      intros b. rewrite Hl2, Hl1. destruct (within _ _ b) eqn:E; [|done].
      by rewrite <- Hl, Hfree.
Qed.

End spec.

(** ** A concrete process

    Mappings are a function below [top]; [mmap] without [MAP_FIXED] takes the
    next addresses from [top] on, with [MAP_FIXED] it must stay below it. *)
Module Flat.

Record proc := mkProc {
  space : Z → option (backing * prot); top : Z; files : gset Z; next_fd : Z;
  contents : Z → Z → Z;
}.

Definition update (s : proc) (a len : Z) (f : Z → option (backing * prot)) (t : Z) : proc :=
  mkProc (λ b, if within a len b then f b else if b <? top s then space s b else None)
    t (files s) (next_fd s) (contents s).

Definition look (s : proc) (b : Z) : option (backing * prot) :=
  if b <? top s then space s b else None.

Definition flat_mmap (addr len : Z) (p : prot) (f : map_flags) (fd off : Z) (s : proc) : Z * proc :=
  let a := if MAP_FIXED f then addr else top s in
  if (len <? 0) || (2 ^ 64 - 1 <? a + len) || (if MAP_FIXED f then top s <? a + len else false)
     || negb (0 <? top s) || negb (top s mod 0x1000 =? 0)
  then (MAP_FAILED, s)
  else (a, update s a len (λ b, Some (backed_by f fd (off + (b - a)), p))
             (if MAP_FIXED f then top s else a + len)).

Definition flat_mprotect (a len : Z) (p : prot) (s : proc) : bool * proc :=
  (true, update s a len (λ b, (λ '(k, _), (k, p)) <$> look s b) (top s)).

Definition flat_munmap (a len : Z) (s : proc) : bool * proc :=
  (true, update s a len (λ _, None) (top s)).

(** Whether an address shows a byte of a shared file. *)
Definition shows (s : proc) (f o b : Z) : bool :=
  match look s b with
  | Some (File f' o' true, _) => (f' =? f) && (o' =? o)
  | _ => false
  end.

Definition flat_remove (a len : Z) (s : proc) : bool * proc :=
  if a mod 0x1000 =? 0 then
    (true, mkProc (space s) (top s) (files s) (next_fd s)
             (λ f o, if existsb (λ b, shows s f o b) (seqZ a len) then 0 else contents s f o))
  else (false, s).

Definition flat_memfd (s : proc) : Z * proc :=
  if bool_decide (next_fd s ∈ files s) || (next_fd s <? 0) then (-1, s)
  else (next_fd s, mkProc (space s) (top s) ({[ next_fd s ]} ∪ files s) (next_fd s + 1) (contents s)).

#[export] Instance posix : Posix := {|
  os := proc; getpagesize := 0x1000; sysconf_PAGESIZE := 0x1000;
  HostMemory.look := look; fds := files; bytes := contents;
  mmap := flat_mmap; munmap := flat_munmap; mprotect := flat_mprotect;
  madvise_REMOVE := flat_remove; madvise_HUGEPAGE := λ _ _ s, s;
  memfd_create := flat_memfd;
  ftruncate := λ _ _ s, (true, s);
  close := λ fd s, (true, mkProc (space s) (top s) (files s ∖ {[ fd ]}) (next_fd s) (contents s)) |}.

Lemma look_update s a len f t b :
  (∀ b, within a len b = true → t ≤ b → f b = None) → top s ≤ t →
  look (update s a len f t) b = if within a len b then f b else look s b.
Proof.
  intros Hf Ht. unfold look, update. simpl. destruct (Z.ltb_spec b t); [done|].
  destruct (within a len b) eqn:E; [by rewrite Hf|].
  by destruct (Z.ltb_spec b (top s)); [lia|].
Qed.

Lemma mmap_law addr len p f fd off s a s' :
  flat_mmap addr len p f fd off s = (a, s') → a ≠ MAP_FAILED →
  (MAP_FIXED f = true → a = addr) ∧
  (MAP_FIXED f = false → 0 < a ∧ a mod 0x1000 = 0 ∧
     ∀ b, within a len b = true → look s b = None) ∧
  a + len ≤ 2 ^ 64 ∧ files s' = files s ∧
  ∀ b, look s' b =
    if within a len b then Some (backed_by f fd (off + (b - a)), p) else look s b.
Proof.
  unfold flat_mmap. cbv zeta. intros H Ha.
  destruct (_ || _) eqn:E in H; injection H as <- <-; [done|].
  rewrite !orb_false_iff, !negb_false_iff in E.
  destruct E as [[[[E1%Z.ltb_ge E2%Z.ltb_ge] E3] E4%Z.ltb_lt] E5%Z.eqb_eq].
  split_and!; try done; try lia.
  - by intros ->.
  - intros ->. split_and!; try done. intros b Hb. unfold within in Hb.
    apply andb_true_iff in Hb as [Hb%Z.leb_le _]. unfold look.
    by destruct (Z.ltb_spec b (top s)); [lia|].
  - intros b. apply look_update.
    + intros c Hc. unfold within in Hc. apply andb_true_iff in Hc as [_ Hc%Z.ltb_lt].
      destruct (MAP_FIXED f); [apply Z.ltb_ge in E3|]; lia.
    + destruct (MAP_FIXED f); lia.
Qed.

Lemma keep_law s a len (f : Z → option (backing * prot)) b :
  (∀ b, top s ≤ b → f b = None) →
  look (update s a len f (top s)) b = if within a len b then f b else look s b.
Proof. intros Hf. apply look_update; [eauto|lia]. Qed.

#[export] Instance laws : PosixLaws.
Proof.
  split; simpl.
  - lia.
  - exists 512. reflexivity.
  - intros addr len p f fd off s a s' _ H Ha. by apply (mmap_law addr len p f fd off).
  - intros addr len p f fd off s s' Hf. unfold flat_mmap. cbv zeta. rewrite Hf.
    destruct (_ || _) eqn:E; [by intros [= <-]|]. intros H. exfalso.
    rewrite !orb_false_iff, !negb_false_iff in E.
    destruct E as [[[[E1%Z.ltb_ge E2%Z.ltb_ge] E3] E4%Z.ltb_lt] E5%Z.eqb_eq].
    injection H as Ht _. rewrite Ht in E5. discriminate E5.
  - intros a len s s' _ [= <-]. split; [done|]. intros b. by apply keep_law.
  - intros a len p s s' _ [= <-]. split; [done|]. intros b. apply keep_law.
    intros c Hc. unfold look. by destruct (Z.ltb_spec c (top s)); [lia|].
  - intros a len s r s'. unfold flat_remove. destruct (_ =? 0); by intros [= _ <-].
  - intros a len s Ha. exists s. unfold flat_remove. by destruct (Z.eqb_spec (a mod 0x1000) 0).
  - intros a len s s' f o. unfold flat_remove. destruct (_ =? 0); [|done]. intros [= <-]. simpl. split.
    + intros (b & p & Hw & Hl). destruct (existsb _ _) eqn:E; [done|]. exfalso.
      apply not_true_iff_false in E. apply E, existsb_exists. exists b. split.
      * apply list_elem_of_In, elem_of_seqZ. unfold within in Hw.
        apply andb_true_iff in Hw as [?%Z.leb_le ?%Z.ltb_lt]. lia.
      * unfold shows. rewrite Hl. by rewrite !Z.eqb_refl.
    + intros Hn. destruct (existsb _ _) eqn:E; [|done]. exfalso.
      apply existsb_exists in E as (b & Hb%list_elem_of_In%elem_of_seqZ & Hs). unfold shows in Hs.
      destruct (look s b) as [[[|f' o' []] p]|] eqn:Hl; try done.
      apply andb_true_iff in Hs as [->%Z.eqb_eq ->%Z.eqb_eq]. apply (Hn b p); [|done].
      unfold within. destruct (Z.leb_spec a b), (Z.ltb_spec b (a + len)); simpl; (done || lia).
  - done.
  - intros s fd s'. unfold flat_memfd.
    destruct (bool_decide_reflect (next_fd s ∈ files s)) as [|Hn]; simpl.
    { intros [= <- <-]. auto. }
    destruct (Z.ltb_spec (next_fd s) 0); intros [= <- <-]; simpl; [auto|].
    split; [done|]. by right.
  - by intros fd n s r s' [= _ <-].
  - by intros fd s s' [= <-].
Qed.

Definition start : proc := mkProc (λ _, None) 0x40000000 ∅ 3 (λ _ _, 7).

(** The result and the final state of a computation, apart. *)
Definition result {A} (r : res (A * proc)) : option A :=
  match r with Ok (a, _) => Some a | Err _ => None end.
Definition final {A} (r : res (A * proc)) : proc :=
  match r with Ok (_, s) => s | Err _ => start end.

Lemma result_final {A} (r : res (A * proc)) a : result r = Some a → r = Ok (a, final r).
Proof. by destruct r as [[]|]; intros [= ->]. Qed.

(** A user arena with a window of 1 MiB, backed by descriptor 3. *)
Definition user : HostMemory :=
  mkHostMemory 0x1000000 0x100000 (Some (mkImpl 3 0x1000000 0x700000 MAP_FAILED 0x40000000))
    MAP_FAILED 0x40200000 0x200000 None.
Definition user_impl : Impl := mkImpl 3 0x1000000 0x700000 MAP_FAILED 0x40000000.
Definition user_state : proc := final (CreateForUser 3 0x1000000 0x100000 start).

Lemma user_created : CreateForUser 3 0x1000000 0x100000 start = Ok (user, user_state).
Proof. apply result_final. vm_compute. reflexivity. Qed.

Lemma user_arena : arena user user_impl.
Proof. split; vm_compute; try reflexivity; discriminate. Qed.

(** Map two pages, make the first one read-only, unmap the second. *)
Definition script : list hop :=
  [HMap 0x1000 0x8000 0x2000; HProtect 0x1000 0x1000 true false false; HUnmap 0x2000 0x1000].

End Flat.

#[local] Existing Instances Flat.posix Flat.laws.

Lemma host_memory_refines_witness :
  ∃ s', st_iter (run_hop Flat.user) Flat.script Flat.user_state = Ok (tt, s') ∧
    view Flat.user Flat.user_impl s' 0x1010 = Backed 0x8010 (mkProt true false false) ∧
    view Flat.user Flat.user_impl s' 0x2000 = Reserved PROT_NONE.
Proof.
  assert (H : st_iter (run_hop Flat.user) Flat.script Flat.user_state =
    Ok (tt, Flat.final (st_iter (run_hop Flat.user) Flat.script Flat.user_state)))
    by (apply Flat.result_final; vm_compute; reflexivity).
  eexists. split; [exact H|].
  pose proof (proj1 (host_memory_refines _ _ Flat.script _ _ _ Flat.user_arena
    ltac:(unfold Flat.script; repeat constructor; simpl; lia) H)) as Hv.
  split; rewrite Hv; vm_compute; reflexivity.
Defined.

Lemma CreateForUser_layout_witness :
  arena Flat.user Flat.user_impl ∧
  view Flat.user Flat.user_impl Flat.user_state 0 = Reserved PROT_NONE.
Proof.
  destruct (CreateForUser_layout (P := Flat.posix) 3 0x1000000 0x100000 Flat.start Flat.user Flat.user_state
    Flat.user_impl) as (Ha & _ & _ & _ & Hv & _);
    [lia|vm_compute; discriminate|exact Flat.user_created|reflexivity|].
  split; [exact Ha|apply Hv; lia].
Defined.

Lemma CreateForUser_backing_base_witness :
  backing_base Flat.user = MAP_FAILED ∧
  ∃ s', Free Flat.user 0x1000 0x1000 Flat.user_state = Ok (tt, s') ∧
    ∀ f o, bytes s' f o = bytes Flat.user_state f o.
Proof.
  destruct (CreateForUser_backing_base (P := Flat.posix) 3 0x1000000 0x100000 Flat.start Flat.user Flat.user_state
    Flat.user_impl Flat.user_created eq_refl ltac:(vm_compute; reflexivity)) as [Hb Hf].
  split; [exact Hb|]. apply Hf; try reflexivity; lia.
Defined.

(** A kernel arena of two pages, the second of which is freed. *)
Definition kern_state : Flat.proc := Flat.final (Impl_kern (P := Flat.posix) 0x2000 Flat.start).
Definition kern_impl : Impl := mkImpl 3 0x2000 0 0x40000000 MAP_FAILED.
Definition kern_memory : HostMemory := mkHostMemory 0x2000 0 (Some kern_impl) 0x40000000 0 0 None.

Lemma kern_created : Impl_kern (P := Flat.posix) 0x2000 Flat.start = Ok (Some kern_impl, kern_state).
Proof. apply Flat.result_final. vm_compute. reflexivity. Qed.

Lemma kern_maps b :
  within 0x40000000 0x2000 b = true →
  look (Posix := Flat.posix) kern_state b = Some (File 3 (b - 0x40000000) true, PROT_RW).
Proof.
  intros Hw. destruct (Impl_kern_spec (P := Flat.posix) 0x2000 Flat.start (Some kern_impl) kern_state)
    as (_ & _ & _ & _ & _ & _ & Hl); [reflexivity|exact kern_created|].
  cbn [impl_backing_base kern_impl fd] in Hl. rewrite Hl. by rewrite Hw.
Qed.

Lemma Free_zeroes_witness :
  ∃ s', Free kern_memory 0x1000 0x1000 kern_state = Ok (tt, s') ∧
    bytes s' 3 0x1234 = 0 ∧ bytes s' 3 0x234 = 7.
Proof.
  destruct (Free_zeroes (P := Flat.posix) kern_memory kern_impl 0x1000 0x1000 kern_state)
    as (r & s' & Hr & Hf & _ & Hb); [reflexivity|simpl; lia|simpl; lia|simpl; lia| |reflexivity..|lia|lia|simpl; lia|].
  - intros b Hw. exists PROT_RW. exact (kern_maps b Hw).
  - assert (r = true) as ->.
    { change (Flat.flat_remove 0x40001000 0x1000 kern_state = (r, s')) in Hr. by injection Hr. }
    exists s'. split; [exact Hf|]. split; (etrans; [apply (Hb eq_refl)|]).
    + vm_compute. reflexivity.
    + vm_compute. reflexivity.
Defined.

Lemma Map_offset_overflow_witness :
  ∃ s', Map Flat.user (2 ^ 64 - 0x400000) 0 0x400000 Flat.user_state = Ok (tt, s') ∧
    look s' (0x40000000 - 0x1000) = Some (File 3 0x1ff000 true, PROT_RW).
Proof.
  destruct (Map_offset_overflow (P := Flat.posix) Flat.user Flat.user_impl 0x400000 Flat.user_state
    Flat.user_arena) as [_ Hl]; [vm_compute; congruence..|].
  assert (H : Map Flat.user (2 ^ 64 - 0x400000) 0 0x400000 Flat.user_state =
    Ok (tt, Flat.final (Map Flat.user (2 ^ 64 - 0x400000) 0 0x400000 Flat.user_state)))
    by (apply Flat.result_final; vm_compute; reflexivity).
  eexists. split; [exact H|].
  etrans; [apply (Hl _ _ H); vm_compute; split; congruence|reflexivity].
Defined.

Lemma CreateForKern_dtor_neutral_witness :
  ∃ m s1 s2, CreateForKern (P := Flat.posix) 0x2000 Flat.start = Ok (m, s1) ∧
    HostMemory_dtor m s1 = Ok (tt, s2) ∧ fds s2 = ∅.
Proof.
  destruct (Flat.result (CreateForKern (P := Flat.posix) 0x2000 Flat.start)) as [m|] eqn:E;
    [|vm_compute in E; discriminate].
  pose proof (Flat.result_final _ _ E) as H1.
  assert (E2 : Flat.result (HostMemory_dtor m (Flat.final (CreateForKern (P := Flat.posix) 0x2000 Flat.start)))
    = Some tt).
  { vm_compute in E. injection E as <-. vm_compute. reflexivity. }
  pose proof (Flat.result_final _ _ E2) as H2.
  do 3 eexists. split; [exact H1|]. split; [exact H2|].
  eapply (CreateForKern_dtor_neutral (P := Flat.posix) 0x2000 Flat.start); [lia|vm_compute; discriminate|
    reflexivity|exact H1|exact H2].
Defined.
