(* ===== verification/HostMemoryWin.v ===== *)
(** * Host memory on Windows: the placeholder tracker

    The Windows [HostMemory::Impl] of [host/host_memory.cpp].  Views of the
    backing file replace placeholders of a reserved range; the class keeps the
    mapped intervals and their backing offsets, splits and merges placeholders
    and remaps what is left of a view after a partial unmap.
    [boost::icl::separate_interval_set] is an interface with its documented
    behaviour as laws; the calls to the system, whose results the code only
    logs, are recorded in the order they are made. *)

From S2P Require Import Prelude.

Module WinMemory.

Abbreviation interval := (Z * Z)%type.
Abbreviation lower := (fst (A := Z) (B := Z)).
Abbreviation upper := (snd (A := Z) (B := Z)).

Definition overlap (x y : interval) : Prop := lower x < upper y ∧ lower y < upper x.

(** The set in iteration order; an iterator is the position of its element,
    [None] is [end()]. *)
Class IntervalSet := {
  iset : Type;
  elems : iset → list interval;
  iset_empty : iset;
  insert : interval → iset → iset;
  find : interval → iset → option nat;
  upper_bound : interval → iset → option nat;
  erase : nat → iset → iset;
}.

(** Elements are disjoint, in ascending order and never joined; intervals are
    compared by "lies entirely before", so that [find] finds an overlapping
    element. *)
Class IntervalSetLaws `{IntervalSet} := {
  empty_elems : elems iset_empty = [];
  elems_sorted s : ForallOrdPairs (λ x y, upper x ≤ lower y) (elems s);
  elems_nonempty s : Forall (λ x, lower x < upper x) (elems s);
  find_Some k s n : find k s = Some n → ∃ x, elems s !! n = Some x ∧ overlap k x;
  find_None k s : find k s = None → Forall (λ x, ¬ overlap k x) (elems s);
  insert_elems k s : lower k < upper k → Forall (λ x, ¬ overlap k x) (elems s) →
    elems (insert k s) ≡ₚ k :: elems s;
  upper_bound_Some k s n : upper_bound k s = Some n →
    (∃ x, elems s !! n = Some x ∧ upper k ≤ lower x) ∧
    ∀ m x, (m < n)%nat → elems s !! m = Some x → lower x < upper k;
  erase_elems n s : elems (erase n s) = delete n (elems s);
}.

(** The calls made to the system. *)
Inductive wincall : Type :=
  | MapViewOfFile3 (virtual_offset host_offset length : Z)
  | UnmapViewOfFile2 (virtual_offset : Z)
  | SplitPlaceholder (virtual_offset length : Z)
  | CoalescePlaceholders (virtual_offset length : Z).

Section tracker.
Context `{I : IntervalSet}.

Record Impl := mkImpl {
  virtual_size : Z;
  placeholders : iset;
  placeholder_host_pointers : gmap Z Z;
  calls : list wincall;
}.

Definition Impl_new (virtual_size : Z) : Impl := mkImpl virtual_size iset_empty ∅ [].

Definition call (c : wincall) : stM Impl unit :=
  st_mod (λ s, mkImpl (virtual_size s) (placeholders s) (placeholder_host_pointers s)
                 (calls s ++ [c])).

Definition MapView (virtual_offset host_offset length : Z) : stM Impl unit :=
  call (MapViewOfFile3 virtual_offset host_offset length).
Definition Split (virtual_offset length : Z) : stM Impl unit :=
  call (SplitPlaceholder virtual_offset length).
Definition Coalesce (virtual_offset length : Z) : stM Impl unit :=
  call (CoalescePlaceholders virtual_offset length).

(** [unordered_map::emplace] keeps an entry that is already there. *)
Definition emplace (k v : Z) (m : gmap Z Z) : gmap Z Z :=
  match m !! k with Some _ => m | None => <[k := v]> m end.

Definition TrackPlaceholder (virtual_offset host_offset length : Z) : stM Impl unit :=
  st_mod (λ s, mkImpl (virtual_size s)
    (insert (virtual_offset, u64 (virtual_offset + length)) (placeholders s))
    (emplace virtual_offset host_offset (placeholder_host_pointers s)) (calls s)).

Definition UntrackPlaceholder (it : nat) : stM Impl unit :=
  s ← st_get;
  x ← st_lift (of_option OutOfBounds (elems (placeholders s) !! it));
  st_put (mkImpl (virtual_size s) (erase it (placeholders s))
            (delete (lower x) (placeholder_host_pointers s)) (calls s)).

(** [std::prev(it)->upper()] is only used when [it] is not [begin()]. *)
Definition prev_upper (s : Impl) (it : nat) : res Z :=
  upper <$> of_option OutOfBounds (elems (placeholders s) !! Nat.pred it).

Definition IsNiechePlaceholder (virtual_offset length : Z) : stM Impl bool :=
  s ← st_get;
  match upper_bound (virtual_offset, u64 (virtual_offset + length)) (placeholders s) with
  | None => mret false
  | Some it =>
      x ← st_lift (of_option OutOfBounds (elems (placeholders s) !! it));
      if lower x =? u64 (virtual_offset + length) then
        if bool_decide (it = 0%nat) then mret (virtual_offset =? 0)
        else u ← st_lift (prev_upper s it); mret (u =? virtual_offset)
      else mret false
  end.

Definition Map (virtual_offset host_offset length : Z) : stM Impl unit :=
  nieche ← IsNiechePlaceholder virtual_offset length;
  _ ← (if negb nieche then Split virtual_offset length else mret tt);
  s ← st_get;
  _ ← st_check (bool_decide (find (virtual_offset, u64 (virtual_offset + length))
                               (placeholders s) = None)) AssertFailed;
  _ ← TrackPlaceholder virtual_offset host_offset length;
  MapView virtual_offset host_offset length.

(** The merging of the freed placeholder with its free neighbours. *)
Definition coalesce_around (s : Impl) (it : nat) (placeholder_begin placeholder_end
    unmap_begin unmap_end : Z) (split_left split_right : bool) : stM Impl unit :=
  coalesce_begin ← (if split_left then mret unmap_begin else
    cb ← st_lift (if bool_decide (it = 0%nat) then Ok 0 else prev_upper s it);
    _ ← (if negb (cb =? placeholder_begin) then Coalesce cb (u64 (unmap_end - cb)) else mret tt);
    mret cb);
  if split_right then mret tt else
  let next_begin := match elems (placeholders s) !! S it with
                    | Some y => lower y | None => virtual_size s end in
  if negb (placeholder_end =? next_begin)
  then Coalesce coalesce_begin (u64 (next_begin - coalesce_begin)) else mret tt.

(** The system calls of one round: the view is unmapped and the parts outside
    the unmapped range are mapped again ("panic region"), then the freed
    placeholder is merged with its neighbours. *)
Definition remap (s : Impl) (it : nat) (placeholder_begin placeholder_end host_offset
    unmap_begin unmap_end : Z) (split_left split_right : bool) : stM Impl unit :=
  _ ← call (UnmapViewOfFile2 placeholder_begin);
  _ ← (if split_left || split_right
       then Split unmap_begin (u64 (unmap_end - unmap_begin)) else mret tt);
  _ ← (if split_left
       then MapView placeholder_begin host_offset (u64 (unmap_begin - placeholder_begin))
       else mret tt);
  _ ← (if split_right
       then MapView unmap_end (u64 (host_offset + unmap_end - placeholder_begin))
              (u64 (placeholder_end - unmap_end))
       else mret tt);
  coalesce_around s it placeholder_begin placeholder_end unmap_begin unmap_end
    split_left split_right.

Definition UnmapOnePlaceholder (virtual_offset length : Z) : stM Impl bool :=
  s ← st_get;
  match find (virtual_offset, u64 (virtual_offset + length)) (placeholders s) with
  | None => mret false
  | Some it =>
      x ← st_lift (of_option OutOfBounds (elems (placeholders s) !! it));
      let placeholder_begin := lower x in
      let placeholder_end := upper x in
      let unmap_begin := Z.max virtual_offset placeholder_begin in
      let unmap_end := Z.min (u64 (virtual_offset + length)) placeholder_end in
      _ ← st_check ((placeholder_begin <=? unmap_begin) && (unmap_begin <? placeholder_end))
            AssertFailed;
      _ ← st_check ((unmap_end <=? placeholder_end) && (placeholder_begin <? unmap_end))
            AssertFailed;
      host_offset ← st_lift (of_option AssertFailed
                               (placeholder_host_pointers s !! placeholder_begin));
      let split_left := placeholder_begin <? unmap_begin in
      let split_right := unmap_end <? placeholder_end in
      _ ← remap s it placeholder_begin placeholder_end host_offset unmap_begin unmap_end
            split_left split_right;
      _ ← UntrackPlaceholder it;
      _ ← (if split_left
           then TrackPlaceholder placeholder_begin host_offset
                  (u64 (unmap_begin - placeholder_begin))
           else mret tt);
      _ ← (if split_right
           then TrackPlaceholder unmap_end (u64 (host_offset + unmap_end - placeholder_begin))
                  (u64 (placeholder_end - unmap_end))
           else mret tt);
      mret true
  end.

(** [while (UnmapOnePlaceholder(...)) {}]. *)
Fixpoint unmap_loop (fuel : nat) (virtual_offset length : Z) : stM Impl unit :=
  match fuel with
  | O => st_throw OutOfFuel
  | S fuel' =>
      more ← UnmapOnePlaceholder virtual_offset length;
      if (more : bool) then unmap_loop fuel' virtual_offset length else mret tt
  end.

(** Every round removes one of the tracked intervals that overlap the range. *)
Definition Unmap (virtual_offset length : Z) : stM Impl unit :=
  s ← st_get;
  unmap_loop (S (List.length (elems (placeholders s)))) virtual_offset length.

End tracker.

End WinMemory.
