(* ===== verification/HostMemoryWinSpec.v ===== *)
(** * Host memory on Windows: theorems

    The tracker describes the views that the calls made so far leave mapped,
    [Map] adds exactly the requested range, and [Unmap] terminates and removes
    exactly the requested range, remapping what is left of partially unmapped
    views at the right offsets of the backing file. *)

From S2P Require Import Prelude HostMemoryWin.
Import WinMemory.

(** A view of the backing file: first and last-plus-one offset in the range,
    and the offset in the file. *)
Abbreviation wview := (Z * Z * Z)%type.

(** What the calls leave mapped, if they succeed. *)
Definition wstep (c : wincall) (l : list wview) : list wview :=
  match c with
  | MapViewOfFile3 vo ho len => (vo, vo + len, ho) :: l
  | UnmapViewOfFile2 vo => filter (λ x : wview, x.1.1 ≠ vo) l
  | _ => l
  end.

Definition replay (cs : list wincall) : list wview := foldl (λ l c, wstep c l) [] cs.

Lemma replay_snoc cs c : replay (cs ++ [c]) = wstep c (replay cs).
Proof. unfold replay. by rewrite foldl_app. Qed.

Section spec.
Context {I : IntervalSet} {L : IntervalSetLaws}.
#[local] Set Default Proof Using "All".

(** The views that the tracker records. *)
Definition host_of (s : Impl) (x : interval) : Z :=
  default 0 (placeholder_host_pointers s !! x.1).
Definition views (s : Impl) : list wview :=
  (λ x, (x.1, x.2, host_of s x)) <$> elems (placeholders s).

(** The backing offset that an offset of the range shows. *)
Definition shows (l : list wview) (v h : Z) : Prop :=
  ∃ b e h0, (b, e, h0) ∈ l ∧ b ≤ v < e ∧ h = h0 + (v - b).

Definition view_ok (x : wview) : Prop :=
  let '(b, e, h) := x in 0 ≤ b ∧ b < e ∧ e < 2 ^ 64 ∧ 0 ≤ h ∧ h + (e - b) < 2 ^ 64.

(** Every interval has its backing offset, no offset is left behind, and the
    tracker agrees with the calls that were made. *)
Record wf (s : Impl) : Prop := {
  wf_cover : ∀ x, x ∈ elems (placeholders s) → is_Some (placeholder_host_pointers s !! x.1);
  wf_only : ∀ k, is_Some (placeholder_host_pointers s !! k) →
    ∃ x, x ∈ elems (placeholders s) ∧ x.1 = k;
  wf_bounds : Forall view_ok (views s);
  wf_calls : replay (calls s) ≡ₚ views s;
}.

(** *** The set of intervals *)
Lemma elems_disjoint (t : iset) i j x y :
  elems t !! i = Some x → elems t !! j = Some y → i ≠ j → ¬ overlap x y ∧ x.1 ≠ y.1.
Proof.
  pose proof (elems_sorted t) as Hs. pose proof (elems_nonempty t) as Hn.
  rewrite Forall_forall in Hn. intros Hi Hj Hij.
  pose proof (Hn _ (list_elem_of_lookup_2 _ _ _ Hi)). pose proof (Hn _ (list_elem_of_lookup_2 _ _ _ Hj)).
  assert (upper x ≤ lower y ∨ upper y ≤ lower x) as Hxy.
  { clear Hn. revert i j Hi Hj Hij. induction Hs as [|z l Hz Hl IH]; intros [|i] [|j]; simpl;
      intros; try done.
    - simplify_eq. left. rewrite Forall_forall in Hz. by eapply Hz, list_elem_of_lookup_2.
    - simplify_eq. right. rewrite Forall_forall in Hz. by eapply Hz, list_elem_of_lookup_2.
    - eapply IH; [done|done|lia]. }
  unfold overlap. simpl in *. lia.
Qed.

Lemma views_ext (t : iset) (m m' : gmap Z Z) (l : list interval) :
  (∀ x, x ∈ l → m' !! x.1 = m !! x.1) →
  ((λ x : interval, (x.1, x.2, default 0 (m' !! x.1))) <$> l) =
  ((λ x : interval, (x.1, x.2, default 0 (m !! x.1))) <$> l).
Proof.
  intros Hx. apply list_fmap_ext. intros i x Hi. rewrite Hx; [done|].
  by eapply list_elem_of_lookup_2.
Qed.

(** The state without the record of the calls. *)
Record wf0 (s : Impl) : Prop := {
  wf0_cover : ∀ x, x ∈ elems (placeholders s) → is_Some (placeholder_host_pointers s !! x.1);
  wf0_only : ∀ k, is_Some (placeholder_host_pointers s !! k) →
    ∃ x, x ∈ elems (placeholders s) ∧ x.1 = k;
}.

Lemma Track_spec s vo ho n :
  wf0 s → 0 ≤ vo → 0 < n → vo + n < 2 ^ 64 →
  Forall (λ x, ¬ overlap (vo, vo + n) x) (elems (placeholders s)) →
  ∃ s', TrackPlaceholder vo ho n s = Ok (tt, s') ∧ wf0 s' ∧ calls s' = calls s ∧
    virtual_size s' = virtual_size s ∧
    elems (placeholders s') ≡ₚ (vo, vo + n) :: elems (placeholders s) ∧
    views s' ≡ₚ (vo, vo + n, ho) :: views s.
Proof.
  intros [Hcov Honly] H0 Hn Hfit Hno. eexists. split; [reflexivity|].
  rewrite wrap_small by (unfold in_width; lia).
  pose proof (insert_elems (vo, vo + n) (placeholders s) ltac:(simpl; lia) Hno) as Hins.
  pose proof (elems_nonempty (placeholders s)) as Hne. rewrite Forall_forall in Hno, Hne.
  assert (Hfresh : placeholder_host_pointers s !! vo = None).
  { destruct (_ !! vo) eqn:E; [|done]. destruct (Honly vo) as (x & Hx & Hxv); [by eexists|].
    destruct (Hno _ Hx). specialize (Hne _ Hx). unfold overlap. simpl in *. lia. }
  assert (Hhp : emplace vo ho (placeholder_host_pointers s) =
    <[vo := ho]> (placeholder_host_pointers s)) by (unfold emplace; by rewrite Hfresh).
  assert (Hne' : ∀ x, x ∈ elems (placeholders s) → x.1 ≠ vo).
  { intros x Hx ->%symmetry. destruct (Hcov _ Hx) as [h Hh]. congruence. }
  split_and!; try done.
  - split; simpl; rewrite Hhp.
    + intros x Hx. rewrite Hins in Hx. apply elem_of_cons in Hx as [->|Hx].
      { simpl. rewrite lookup_insert_eq. by eexists. }
      rewrite lookup_insert_ne by (symmetry; by apply Hne'). by apply Hcov.
    + intros k [h Hk]. destruct (decide (k = vo)) as [->|Hkv].
      { exists (vo, vo + n). rewrite Hins. split; [by left|done]. }
      rewrite lookup_insert_ne in Hk by done.
      destruct (Honly k ltac:(by eexists)) as (x & Hx & Hxk). exists x.
      rewrite Hins. split; [by right|done].
  - unfold views, host_of. simpl. rewrite Hhp, Hins. simpl.
    rewrite lookup_insert_eq. simpl. apply Permutation_skip. apply Permutation_refl'.
    apply (views_ext (placeholders s)). intros x Hx.
    rewrite lookup_insert_ne by (symmetry; by apply Hne'). done.
Qed.

Lemma Untrack_spec s it x :
  wf0 s → elems (placeholders s) !! it = Some x →
  ∃ s', UntrackPlaceholder it s = Ok (tt, s') ∧ wf0 s' ∧ calls s' = calls s ∧
    virtual_size s' = virtual_size s ∧
    elems (placeholders s) ≡ₚ x :: elems (placeholders s') ∧
    views s ≡ₚ (x.1, x.2, host_of s x) :: views s' ∧
    (∀ y, y ∈ elems (placeholders s') → ¬ overlap x y ∧ y.1 ≠ x.1).
Proof.
  intros [Hcov Honly] Hit. unfold UntrackPlaceholder.
  rewrite (st_bind_run _ _ s s s) by done.
  rewrite (st_bind_run _ _ s s x) by (unfold st_lift; by rewrite Hit). eexists. split; [reflexivity|]. simpl.
  assert (Hel : elems (placeholders s) ≡ₚ x :: elems (erase it (placeholders s))).
  { rewrite erase_elems. by apply delete_Permutation. }
  assert (Hd : ∀ y, y ∈ elems (erase it (placeholders s)) → ¬ overlap x y ∧ y.1 ≠ x.1).
  { intros y Hy. rewrite erase_elems in Hy. apply list_elem_of_lookup in Hy as [j Hj].
    destruct (decide (j < it)%nat) as [Hlt|Hge].
    - rewrite list_lookup_delete_lt in Hj by done.
      destruct (elems_disjoint _ it j x y Hit Hj); [lia|]. auto.
    - rewrite list_lookup_delete_ge in Hj by lia.
      destruct (elems_disjoint _ it (S j) x y Hit Hj); [lia|]. auto. }
  split_and!; try done.
  - split; simpl.
    + intros y Hy. destruct (Hd y Hy) as [_ Hne]. rewrite lookup_delete_ne by done.
      apply Hcov. rewrite Hel. by right.
    + intros k [h Hk]. apply lookup_delete_Some in Hk as [Hne Hk].
      destruct (Honly k ltac:(by eexists)) as (y & Hy & Hyk). rewrite Hel in Hy.
      apply elem_of_cons in Hy as [->|Hy]; [done|]. by exists y.
  - unfold views, host_of. simpl. rewrite Hel. simpl. apply Permutation_skip.
    apply Permutation_refl'. symmetry. apply (views_ext (placeholders s)).
    intros y Hy. destruct (Hd y Hy) as [_ Hne]. by rewrite lookup_delete_ne.
Qed.

(** *** Calls that leave the views alone *)
Definition quiet (s s' : Impl) : Prop :=
  virtual_size s' = virtual_size s ∧ placeholders s' = placeholders s ∧
  placeholder_host_pointers s' = placeholder_host_pointers s ∧
  replay (calls s') = replay (calls s).

#[local] Instance quiet_preorder : PreOrder quiet.
Proof.
  split; [done|]. intros s1 s2 s3 (?&?&?&?) (?&?&?&?). unfold quiet. split_and!; congruence.
Qed.

Lemma call_quiet c s : (∀ l, wstep c l = l) → quiet s (mkImpl (virtual_size s) (placeholders s)
  (placeholder_host_pointers s) (calls s ++ [c])).
Proof. intros Hc. unfold quiet. simpl. by rewrite replay_snoc, Hc. Qed.

Lemma Split_quiet vo n s : ∃ s', Split vo n s = Ok (tt, s') ∧ quiet s s'.
Proof. eexists. split; [reflexivity|]. by apply call_quiet. Qed.

Lemma Coalesce_quiet vo n s : ∃ s', Coalesce vo n s = Ok (tt, s') ∧ quiet s s'.
Proof. eexists. split; [reflexivity|]. by apply call_quiet. Qed.

Lemma prev_upper_Ok s it x : elems (placeholders s) !! it = Some x → ∃ u, prev_upper s it = Ok u.
Proof.
  intros Hit. unfold prev_upper.
  destruct (lookup_lt_is_Some_2 (elems (placeholders s)) (Nat.pred it)) as [y ->].
  { apply lookup_lt_Some in Hit. lia. }
  by eexists.
Qed.

Lemma coalesce_quiet s0 it x b e ub ue sl sr s :
  elems (placeholders s0) !! it = Some x →
  ∃ s', coalesce_around s0 it b e ub ue sl sr s = Ok (tt, s') ∧ quiet s s'.
Proof.
  intros Hit. unfold coalesce_around.
  assert (∃ cb s1, (if sl then mret ub else
    cb ← st_lift (if bool_decide (it = 0%nat) then Ok 0 else prev_upper s0 it);
    _ ← (if negb (cb =? b) then Coalesce cb (u64 (ue - cb)) else mret tt);
    mret cb) s = Ok (cb, s1) ∧ quiet s s1) as (cb & s1 & E & Hq).
  { destruct sl; [by do 2 eexists|].
    assert (∃ u, (if bool_decide (it = 0%nat) then Ok 0 else prev_upper s0 it) = Ok u) as [u ->].
    { case_bool_decide; [by eexists|by eapply prev_upper_Ok]. }
    rewrite (st_bind_run _ _ s s u) by done. destruct (negb _).
    - destruct (Coalesce_quiet u (u64 (ue - u)) s) as (s1 & E & Hq).
      rewrite (st_bind_run _ _ s s1 tt) by done. by do 2 eexists.
    - by do 2 eexists. }
  rewrite (st_bind_run _ _ _ _ _ E). destruct sr; [by eexists|]. cbv zeta.
  destruct (negb _); [|by eexists].
  destruct (Coalesce_quiet cb (u64 (match elems (placeholders s0) !! S it with
    Some y => lower y | None => virtual_size s0 end - cb)) s1) as (s2 & E2 & Hq2).
  exists s2. split; [done|by etrans].
Qed.

Lemma wf_wf0 s : wf s → wf0 s.
Proof. intros []. by split. Qed.

Lemma quiet_wf0 s s' : quiet s s' → wf0 s → wf0 s'.
Proof. intros (_ & Hp & Hh & _) []. split; rewrite Hp, Hh; done. Qed.

Lemma quiet_views s s' : quiet s s' → views s' = views s.
Proof. intros (_ & Hp & Hh & _). unfold views, host_of. by rewrite Hp, Hh. Qed.

(** Two conditional steps. *)
Lemma when_run {S} (b : bool) (m : stM S unit) (s : S) (Q : S → Prop) :
  (b = true → ∃ s', m s = Ok (tt, s') ∧ Q s') → (b = false → Q s) →
  ∃ s', (if b then m else mret tt) s = Ok (tt, s') ∧ Q s'.
Proof. destruct b; [auto|]. intros _ HQ. exists s. split; [done|auto]. Qed.

(** The pieces of the view [(b, e, h)] outside [[ub, ue)]. *)
Definition pieces (b e h ub ue : Z) : list wview :=
  (if ue <? e then [(ue, e, h + (ue - b))] else []) ++ (if b <? ub then [(b, ub, h)] else []).

(** The system calls of one round: the view at [b] is replaced by its pieces. *)
Lemma remap_spec s it x h vo hi :
  elems (placeholders s) !! it = Some x → view_ok (x.1, x.2, h) →
  x.1 < Z.min hi x.2 → Z.max vo x.1 < x.2 →
  let ub := Z.max vo x.1 in let ue := Z.min hi x.2 in
  ∃ s', remap s it x.1 x.2 h ub ue (x.1 <? ub) (ue <? x.2) s = Ok (tt, s') ∧
    virtual_size s' = virtual_size s ∧ placeholders s' = placeholders s ∧
    placeholder_host_pointers s' = placeholder_host_pointers s ∧
    replay (calls s') = pieces x.1 x.2 h ub ue ++
      filter (λ y : wview, y.1.1 ≠ x.1) (replay (calls s)).
Proof.
  intros Hit Hok Hue Hub. cbv zeta. set (ub := Z.max vo x.1) in *. set (ue := Z.min hi x.2) in *.
  simpl in Hok. assert (x.1 ≤ ub) by lia. assert (ue ≤ x.2) by lia. clearbody ub ue.
  set (s1 := mkImpl (virtual_size s) (placeholders s) (placeholder_host_pointers s)
    (calls s ++ [UnmapViewOfFile2 x.1])).
  assert (Hr1 : replay (calls s1) = filter (λ y : wview, y.1.1 ≠ x.1) (replay (calls s))).
  { simpl. by rewrite replay_snoc. }
  unfold remap. rewrite (st_bind_run _ _ s s1 tt) by done.
  destruct (when_run ((x.1 <? ub) || (ue <? x.2)) (Split ub (u64 (ue - ub))) s1 (quiet s1))
    as (s2 & E2 & Hq2); [intros; apply Split_quiet|done|].
  rewrite (st_bind_run _ _ _ _ _ E2). destruct Hq2 as (Hv2 & Hp2 & Hh2 & Hr2).
  destruct (when_run (x.1 <? ub) (MapView x.1 h (u64 (ub - x.1))) s2 (λ s', virtual_size s' = virtual_size s ∧
    placeholders s' = placeholders s ∧ placeholder_host_pointers s' = placeholder_host_pointers s ∧
    replay (calls s') = (if x.1 <? ub then [(x.1, ub, h)] else []) ++
      filter (λ y : wview, y.1.1 ≠ x.1) (replay (calls s)))) as (s3 & E3 & Hv3 & Hp3 & Hh3 & Hr3).
  { intros Hb. rewrite Hb. eexists. split; [reflexivity|]. simpl. split_and!; try done.
    rewrite replay_snoc, Hr2, Hr1. simpl. apply Z.ltb_lt in Hb.
    rewrite wrap_small by (unfold in_width; lia).
    by replace (x.1 + (ub - x.1)) with ub by lia. }
  { intros ->. simpl. split_and!; try done. by rewrite Hr2, Hr1. }
  rewrite (st_bind_run _ _ _ _ _ E3).
  destruct (when_run (ue <? x.2) (MapView ue (u64 (h + ue - x.1)) (u64 (x.2 - ue))) s3
    (λ s', virtual_size s' = virtual_size s ∧
    placeholders s' = placeholders s ∧ placeholder_host_pointers s' = placeholder_host_pointers s ∧
    replay (calls s') = pieces x.1 x.2 h ub ue ++
      filter (λ y : wview, y.1.1 ≠ x.1) (replay (calls s)))) as (s4 & E4 & Hv4 & Hp4 & Hh4 & Hr4).
  { intros Hb. unfold pieces. rewrite Hb. eexists. split; [reflexivity|]. simpl. split_and!; try done.
    rewrite replay_snoc, Hr3. simpl. apply Z.ltb_lt in Hb.
    rewrite !wrap_small by (unfold in_width; lia).
    replace (ue + (x.2 - ue)) with x.2 by lia. by replace (h + ue - x.1) with (h + (ue - x.1)) by lia. }
  { unfold pieces. intros ->. done. }
  rewrite (st_bind_run _ _ _ _ _ E4).
  destruct (coalesce_quiet s it x x.1 x.2 ub ue (x.1 <? ub) (ue <? x.2) s4 Hit)
    as (s5 & E5 & Hv5 & Hp5 & Hh5 & Hr5).
  exists s5. split; [done|]. split_and!; congruence.
Qed.

Lemma filter_id {A} (Q : A → Prop) `{∀ x, Decision (Q x)} l : Forall Q l → filter Q l = l.
Proof.
  induction 1 as [|x l Hx Hl IH]; [done|]. by rewrite filter_cons_True, IH.
Qed.

Lemma views_NoDup s : NoDup ((λ y : wview, y.1.1) <$> views s).
Proof.
  apply NoDup_alt. intros i j b Hi Hj. unfold views in *.
  rewrite <- list_fmap_compose, list_lookup_fmap in Hi, Hj.
  apply fmap_Some in Hi as (x & Hx & ->). apply fmap_Some in Hj as (y & Hy & Heq).
  destruct (decide (i = j)) as [|Hne]; [done|].
  destruct (elems_disjoint _ i j x y Hx Hy Hne) as [_ Hd]. by destruct Hd.
Qed.

(** [IsNiechePlaceholder] only reads. *)
Lemma Nieche_run vo len s : ∃ b, IsNiechePlaceholder vo len s = Ok (b, s).
Proof.
  unfold IsNiechePlaceholder. rewrite (st_bind_run _ _ s s s) by done.
  destruct (upper_bound _ _) as [it|] eqn:E; [|by eexists].
  apply upper_bound_Some in E as [(x & Hx & _) _].
  rewrite (st_bind_run _ _ s s x) by (unfold st_lift; by rewrite Hx).
  destruct (_ =? _); [|by eexists]. case_bool_decide; [by eexists|].
  destruct (prev_upper_Ok s it x Hx) as [u Hu].
  rewrite (st_bind_run _ _ s s u) by (unfold st_lift; by rewrite Hu). by eexists.
Qed.

(** The bookkeeping of one round. *)
Lemma retrack_spec s it x h vo hi :
  wf0 s → elems (placeholders s) !! it = Some x → host_of s x = h → view_ok (x.1, x.2, h) →
  x.1 < Z.min hi x.2 → Z.max vo x.1 < x.2 → vo < hi →
  let ub := Z.max vo x.1 in let ue := Z.min hi x.2 in
  ∃ s', (_ ← UntrackPlaceholder it;
    _ ← (if x.1 <? ub then TrackPlaceholder x.1 h (u64 (ub - x.1)) else mret tt);
    _ ← (if ue <? x.2 then TrackPlaceholder ue (u64 (h + ue - x.1)) (u64 (x.2 - ue))
         else mret tt);
    mret true) s = Ok (true, s') ∧
    wf0 s' ∧ calls s' = calls s ∧
    ∃ rest, views s ≡ₚ (x.1, x.2, h) :: rest ∧ views s' ≡ₚ pieces x.1 x.2 h ub ue ++ rest.
Proof.
  intros Hwf Hit Hh Hok Hue Hub Hlt. cbv zeta.
  set (ub := Z.max vo x.1) in *. set (ue := Z.min hi x.2) in *. simpl in Hok.
  assert (Hlu : ub < ue) by lia. assert (x.1 ≤ ub) by lia. assert (ue ≤ x.2) by lia. clearbody ub ue.
  destruct (Untrack_spec s it x Hwf Hit) as (s1 & E1 & Hwf1 & Hc1 & _ & _ & Hv1 & Hd1).
  rewrite Hh in Hv1. rewrite (st_bind_run _ _ _ _ _ E1).
  destruct (when_run (x.1 <? ub) (TrackPlaceholder x.1 h (u64 (ub - x.1))) s1 (λ s', wf0 s' ∧
    calls s' = calls s ∧
    elems (placeholders s') ≡ₚ (if x.1 <? ub then [(x.1, ub)] else []) ++ elems (placeholders s1) ∧
    views s' ≡ₚ (if x.1 <? ub then [(x.1, ub, h)] else []) ++ views s1))
    as (s2 & E2 & Hwf2 & Hc2 & He2 & Hv2).
  { intros Hb. rewrite Hb. apply Z.ltb_lt in Hb. rewrite wrap_small by (unfold in_width; lia).
    destruct (Track_spec s1 x.1 h (ub - x.1)) as (s' & E & Hwf' & Hc' & _ & He' & Hv'); [done|lia..| |].
    { apply Forall_forall. intros y Hy. destruct (Hd1 y Hy) as [Hno _]. unfold overlap in *. simpl in *. lia. }
    replace (x.1 + (ub - x.1)) with ub in * by lia.
    exists s'. split_and!; try done. congruence. }
  { intros ->. done. }
  rewrite (st_bind_run _ _ _ _ _ E2).
  destruct (when_run (ue <? x.2) (TrackPlaceholder ue (u64 (h + ue - x.1)) (u64 (x.2 - ue))) s2
    (λ s', wf0 s' ∧ calls s' = calls s ∧ views s' ≡ₚ pieces x.1 x.2 h ub ue ++ views s1))
    as (s3 & E3 & Hwf3 & Hc3 & Hv3).
  { intros Hb. unfold pieces. rewrite Hb. apply Z.ltb_lt in Hb.
    rewrite !wrap_small by (unfold in_width; lia).
    destruct (Track_spec s2 ue (h + ue - x.1) (x.2 - ue)) as (s' & E & Hwf' & Hc' & _ & He' & Hv');
      [done|lia..| |].
    { apply Forall_forall. intros y Hy. rewrite He2 in Hy. apply elem_of_app in Hy as [Hy|Hy].
      - destruct (x.1 <? ub); [|by apply not_elem_of_nil in Hy].
        apply list_elem_of_singleton in Hy as ->. unfold overlap. simpl. lia.
      - destruct (Hd1 y Hy) as [Hno _]. unfold overlap in *. simpl in *. lia. }
    replace (ue + (x.2 - ue)) with x.2 in * by lia.
    replace (h + ue - x.1) with (h + (ue - x.1)) in * by lia.
    exists s'. split_and!; try done; [congruence|]. rewrite Hv'. simpl. by rewrite Hv2. }
  { unfold pieces. intros ->. done. }
  rewrite (st_bind_run _ _ _ _ _ E3). exists s3. split_and!; try done. by exists (views s1).
Qed.

(** One round of [Unmap]. *)
Lemma UnmapOne_spec s vo len :
  wf s → 0 ≤ vo → 0 < len → vo + len < 2 ^ 64 →
  (UnmapOnePlaceholder vo len s = Ok (false, s) ∧
   Forall (λ x : wview, x.1.2 ≤ vo ∨ vo + len ≤ x.1.1) (views s)) ∨
  ∃ s' b e h rest, UnmapOnePlaceholder vo len s = Ok (true, s') ∧ wf s' ∧
    views s ≡ₚ (b, e, h) :: rest ∧ vo < e ∧ b < vo + len ∧
    views s' ≡ₚ pieces b e h (Z.max vo b) (Z.min (vo + len) e) ++ rest.
Proof.
  intros Hwf H0 Hlen Hfit. unfold UnmapOnePlaceholder.
  rewrite (st_bind_run _ _ s s s) by done. rewrite wrap_small by (unfold in_width; lia).
  pose proof (elems_nonempty (placeholders s)) as Hne.
  destruct (find _ _) as [it|] eqn:E.
  2:{ left. split; [done|]. apply find_None in E. apply Forall_fmap.
      rewrite Forall_forall in *. intros x Hx. specialize (E _ Hx). specialize (Hne _ Hx).
      unfold overlap in E. simpl in *. lia. }
  right. apply find_Some in E as (x & Hit & Hov). unfold overlap in Hov. simpl in Hov.
  pose proof (list_elem_of_lookup_2 _ _ _ Hit) as Hx.
  rewrite Forall_forall in Hne. specialize (Hne _ Hx). simpl in Hne.
  destruct (wf_cover _ Hwf _ Hx) as [h Hh].
  assert (Hok : view_ok (x.1, x.2, h)).
  { pose proof (wf_bounds _ Hwf) as Hb. rewrite Forall_forall in Hb. apply Hb.
    apply list_elem_of_fmap. exists x. unfold host_of. by rewrite Hh. }
  rewrite (st_bind_run _ _ s s x) by (unfold st_lift; by rewrite Hit). cbv zeta.
  set (ub := Z.max vo x.1). set (ue := Z.min (vo + len) x.2).
  assert (Hb1 : (x.1 <=? ub) && (ub <? x.2) = true)
    by (rewrite andb_true_iff, Z.leb_le, Z.ltb_lt; lia).
  assert (Hb2 : (ue <=? x.2) && (x.1 <? ue) = true)
    by (rewrite andb_true_iff, Z.leb_le, Z.ltb_lt; lia).
  rewrite (st_bind_run _ _ s s tt) by (by rewrite Hb1).
  rewrite (st_bind_run _ _ s s tt) by (by rewrite Hb2).
  rewrite (st_bind_run _ _ s s h) by (unfold st_lift; by rewrite Hh).
  destruct (remap_spec s it x h vo (vo + len)) as (s1 & E1 & Hv1 & Hp1 & Hh1 & Hr1);
    [done|done|lia|lia|].
  rewrite (st_bind_run _ _ _ _ _ E1). fold ub ue in Hr1.
  assert (Hwf1 : wf0 s1). { apply wf_wf0 in Hwf as []. split; rewrite Hp1, Hh1; done. }
  assert (Hvs : views s1 = views s) by (unfold views, host_of; by rewrite Hp1, Hh1).
  destruct (retrack_spec s1 it x h vo (vo + len)) as (s2 & E2 & Hwf2 & Hc2 & rest & Hrest & Hv2);
    [done|by rewrite Hp1|unfold host_of; by rewrite Hh1, Hh|done|lia|lia|lia|].
  exists s2, x.1, x.2, h, rest. rewrite Hvs in Hrest. split; [exact E2|].
  split_and!; try done; [|lia|lia].
  pose proof (wf_bounds _ Hwf) as Hbs. rewrite Hrest in Hbs. apply Forall_cons in Hbs as [_ Hbs].
  split; try apply Hwf2.
  - rewrite Hv2. apply Forall_app. split; [|done]. unfold pieces. simpl in Hok. fold ub ue.
    apply Forall_app. split; destruct (Z.ltb_spec ue x.2), (Z.ltb_spec x.1 ub);
      repeat constructor; simpl; lia.
  - rewrite Hc2, Hr1, Hv2. apply Permutation_app_head. fold ub ue.
    rewrite (wf_calls _ Hwf), Hrest. rewrite filter_cons_False by (simpl; tauto).
    apply Permutation_refl', filter_id. apply Forall_forall. intros y Hy Heq.
    pose proof (views_NoDup s) as Hnd. rewrite Hrest in Hnd. simpl in Hnd.
    apply NoDup_cons in Hnd as [Hnd _]. apply Hnd. rewrite <- Heq.
    by apply (list_elem_of_fmap_2 (λ z : wview, z.1.1)).
Qed.

(** *** What is shown after the loop *)
Lemma shows_perm l l' v h : l ≡ₚ l' → shows l v h ↔ shows l' v h.
Proof. intros Hp. unfold shows. by setoid_rewrite Hp. Qed.

Lemma shows_app l l' v h : shows (l ++ l') v h ↔ shows l v h ∨ shows l' v h.
Proof. unfold shows. setoid_rewrite elem_of_app. naive_solver. Qed.

Lemma shows_one b e h0 v h : shows [(b, e, h0)] v h ↔ b ≤ v < e ∧ h = h0 + (v - b).
Proof.
  unfold shows. setoid_rewrite list_elem_of_singleton. split; [|naive_solver].
  intros (?&?&?&Heq&H1&H2). by simplify_eq.
Qed.

Lemma shows_pieces b e h0 lo hi v h :
  b < e → lo < e → b < hi → lo < hi →
  shows (pieces b e h0 (Z.max lo b) (Z.min hi e)) v h ↔
  shows [(b, e, h0)] v h ∧ ¬ (lo ≤ v < hi).
Proof.
  intros Hbe Hlo Hhi Hlh. unfold pieces. rewrite shows_app.
  assert (Hnil : ∀ v h, shows [] v h ↔ False).
  { intros ??. unfold shows. setoid_rewrite elem_of_nil. naive_solver. }
  destruct (Z.ltb_spec (Z.min hi e) e), (Z.ltb_spec b (Z.max lo b));
    rewrite ?shows_one, ?Hnil; lia.
Qed.

(** Number of views that overlap a range. *)
Definition touching (lo hi : Z) (l : list wview) : nat :=
  length (filter (λ x : wview, lo < x.1.2 ∧ x.1.1 < hi) l).

Lemma touching_pieces lo hi b e h l :
  b < e → lo < e → b < hi → lo < hi →
  touching lo hi (pieces b e h (Z.max lo b) (Z.min hi e) ++ l) = touching lo hi l.
Proof.
  intros. unfold touching, pieces. rewrite !filter_app, !length_app.
  destruct (Z.ltb_spec (Z.min hi e) e), (Z.ltb_spec b (Z.max lo b));
    rewrite ?filter_cons_False, ?filter_nil by (simpl; lia); simpl; lia.
Qed.

Lemma unmap_loop_spec fuel s vo len :
  wf s → 0 ≤ vo → 0 < len → vo + len < 2 ^ 64 →
  (touching vo (vo + len) (views s) < fuel)%nat →
  ∃ s', unmap_loop fuel vo len s = Ok (tt, s') ∧ wf s' ∧
    ∀ v h, shows (views s') v h ↔ shows (views s) v h ∧ ¬ (vo ≤ v < vo + len).
Proof.
  revert s. induction fuel as [|fuel IH]; intros s Hwf H0 Hlen Hfit Hf; [lia|]. simpl.
  destruct (UnmapOne_spec s vo len Hwf H0 Hlen Hfit) as
    [[E Hout]|(s1 & b & e & h & rest & E & Hwf1 & Hv & Hve & Hbv & Hv1)].
  - rewrite (st_bind_run _ _ _ _ _ E). exists s. split_and!; try done.
    intros v h. split; [|tauto]. intros Hs. split; [done|].
    destruct Hs as (b & e & h0 & Hin & Hb & _). rewrite Forall_forall in Hout.
    specialize (Hout _ Hin). simpl in Hout. lia.
  - rewrite (st_bind_run _ _ _ _ _ E).
    pose proof (wf_bounds _ Hwf) as Hb. rewrite Hv in Hb. apply Forall_cons in Hb as [Hb _].
    simpl in Hb.
    assert (Ht : touching vo (vo + len) (views s) = S (touching vo (vo + len) rest)).
    { unfold touching. rewrite Hv, filter_cons_True by (simpl; lia). done. }
    destruct (IH s1) as (s2 & E2 & Hwf2 & Hs2); try done.
    { assert (touching vo (vo + len) (views s1) = touching vo (vo + len) rest) as ->; [|lia].
      etrans; [|apply (touching_pieces vo (vo + len) b e h); lia].
      unfold touching. by rewrite Hv1. }
    exists s2. split_and!; try done. intros v hh. rewrite Hs2, (shows_perm _ _ v hh Hv1),
      (shows_perm _ _ v hh Hv). rewrite (shows_app _ rest), shows_pieces by lia.
    change ((b, e, h) :: rest) with ([(b, e, h)] ++ rest). rewrite shows_app. tauto.
Qed.

(** (C22) [Unmap] terminates without a fault and removes exactly the requested
    range: afterwards every offset of the range shows nothing, every other one
    shows the byte of the backing file it showed before (also in views that
    were unmapped in part), and the tracker still agrees with the views that
    the calls to the system leave mapped. *)
Theorem win_Unmap_exact s vo len :
  wf s → 0 ≤ vo → 0 < len → vo + len < 2 ^ 64 →
  ∃ s', Unmap vo len s = Ok (tt, s') ∧ wf s' ∧
    ∀ v h, shows (replay (calls s')) v h ↔
      shows (replay (calls s)) v h ∧ ¬ (vo ≤ v < vo + len).
Proof.
  intros Hwf H0 Hlen Hfit. unfold Unmap. rewrite (st_bind_run _ _ s s s) by done.
  destruct (unmap_loop_spec (S (length (elems (placeholders s)))) s vo len)
    as (s' & E & Hwf' & Hs); try done.
  { unfold touching. pose proof (length_filter (λ x : wview, vo < x.1.2 ∧ x.1.1 < vo + len) (views s)).
    unfold views in *. rewrite length_fmap in *. lia. }
  exists s'. split_and!; try done. intros v h.
  rewrite (shows_perm _ _ v h (wf_calls _ Hwf)), (shows_perm _ _ v h (wf_calls _ Hwf')). apply Hs.
Qed.

(** [Map] either faults on its assertion, exactly when the range overlaps
    a mapped one, or maps the range at the given offset of the backing file
    and leaves all other views alone, with the tracker in agreement. *)
Theorem win_Map_exact s vo ho len :
  wf s → 0 ≤ vo → 0 < len → vo + len < 2 ^ 64 → 0 ≤ ho → ho + len < 2 ^ 64 →
  (Map vo ho len s = Err AssertFailed ∧ ∃ v h, vo ≤ v < vo + len ∧ shows (replay (calls s)) v h) ∨
  ∃ s', Map vo ho len s = Ok (tt, s') ∧ wf s' ∧
    ∀ v h, shows (replay (calls s')) v h ↔
      shows (replay (calls s)) v h ∨ vo ≤ v < vo + len ∧ h = ho + (v - vo).
Proof.
  intros Hwf H0 Hlen Hfit Hh Hhf. unfold Map.
  destruct (Nieche_run vo len s) as [n En]. rewrite (st_bind_run _ _ _ _ _ En).
  destruct (when_run (negb n) (Split vo len) s (quiet s)) as (s1 & E1 & Hq);
    [intros; apply Split_quiet|done|].
  rewrite (st_bind_run _ _ _ _ _ E1), (st_bind_run _ _ s1 s1 s1) by done.
  rewrite wrap_small by (unfold in_width; lia).
  pose proof (quiet_views _ _ Hq) as Hv1. pose proof (quiet_wf0 _ _ Hq (wf_wf0 _ Hwf)) as Hwf1.
  destruct (find (vo, vo + len) (placeholders s1)) as [it|] eqn:E.
  - left. rewrite bool_decide_eq_false_2 by done. split; [done|].
    apply find_Some in E as (x & Hit & Hov). pose proof (elems_nonempty (placeholders s1)) as Hne.
    pose proof (list_elem_of_lookup_2 _ _ _ Hit) as Hx. rewrite Forall_forall in Hne.
    specialize (Hne _ Hx). unfold overlap in Hov. simpl in *.
    exists (Z.max vo x.1), (host_of s1 x + (Z.max vo x.1 - x.1)). split; [lia|].
    rewrite (shows_perm _ _ _ _ (wf_calls _ Hwf)), <- Hv1. exists x.1, x.2, (host_of s1 x).
    split_and!; try lia. apply list_elem_of_fmap. by exists x.
  - right. rewrite bool_decide_eq_true_2 by done. rewrite (st_bind_run _ _ s1 s1 tt) by done.
    apply find_None in E.
    destruct (Track_spec s1 vo ho len) as (s2 & E2 & Hwf2 & Hc2 & _ & _ & Hv2); try done.
    rewrite (st_bind_run _ _ _ _ _ E2). eexists. split; [reflexivity|].
    destruct Hq as (_ & _ & _ & Hr1).
    set (s3 := mkImpl _ _ _ _). assert (Hr3 : replay (calls s3) = (vo, vo + len, ho) :: replay (calls s)).
    { simpl. rewrite replay_snoc, Hc2, Hr1. done. }
    split.
    + split; try apply Hwf2.
      * change (views s3) with (views s2). rewrite Hv2, Hv1.
        constructor; [simpl; lia|apply Hwf].
      * rewrite Hr3. change (views s3) with (views s2). by rewrite Hv2, Hv1, (wf_calls _ Hwf).
    + intros v h. rewrite Hr3.
      change ((vo, vo + len, ho) :: replay (calls s)) with ([(vo, vo + len, ho)] ++ replay (calls s)).
      rewrite shows_app, shows_one. tauto.
Qed.

End spec.

(** ** A concrete interval set: sorted lists *)
Module SortedList.

Fixpoint ok (l : list interval) : bool :=
  match l with
  | [] => true
  | x :: l' => forallb (λ y : interval, x.2 <=? y.1) l' && (x.1 <? x.2) && ok l'
  end.

Definition items (l : list interval) : list interval := if ok l then l else [].

Fixpoint ins (k : interval) (l : list interval) : list interval :=
  match l with
  | [] => [k]
  | x :: l' => if k.2 <=? x.1 then k :: x :: l' else x :: ins k l'
  end.

#[export] Instance set : IntervalSet := {|
  iset := list interval;
  elems := items;
  iset_empty := [];
  insert := λ k l, ins k (items l);
  find := λ k l, fst <$> list_find (λ x : interval, k.1 < x.2 ∧ x.1 < k.2) (items l);
  upper_bound := λ k l, fst <$> list_find (λ x : interval, k.2 ≤ x.1) (items l);
  erase := λ n l, delete n (items l) |}.

Lemma ok_cons x l : ok (x :: l) = true ↔
  Forall (λ y : interval, x.2 ≤ y.1) l ∧ x.1 < x.2 ∧ ok l = true.
Proof.
  simpl. rewrite !andb_true_iff, Z.ltb_lt, forallb_forall, Forall_forall.
  setoid_rewrite <- list_elem_of_In. setoid_rewrite Z.leb_le. tauto.
Qed.

Lemma items_ok l : ok (items l) = true.
Proof. unfold items. by destruct (ok l) eqn:E. Qed.

Lemma items_id l : ok l = true → items l = l.
Proof. unfold items. by intros ->. Qed.

Lemma ins_perm k l : ins k l ≡ₚ k :: l.
Proof.
  induction l as [|x l IH]; simpl; [done|]. destruct (_ <=? _); [done|]. rewrite IH. constructor.
Qed.

Lemma ins_ok k l :
  k.1 < k.2 → Forall (λ x, ¬ overlap k x) l → ok l = true → ok (ins k l) = true.
Proof.
  intros Hk. induction l as [|x l IH]; intros Hno Hok.
  - apply ok_cons. auto.
  - apply Forall_cons in Hno as [Hx Hno]. pose proof Hok as Hok'. apply ok_cons in Hok as (Ha & Hx' & Hok).
    simpl. destruct (Z.leb_spec k.2 x.1) as [Hle|Hgt]; apply ok_cons.
    + split_and!; try done. constructor; [done|].
      eapply Forall_impl; [done|]. simpl. intros. lia.
    + split_and!; [|done|by apply IH]. rewrite ins_perm. constructor; [|done].
      unfold overlap in Hx. simpl in *. lia.
Qed.

Lemma delete_ok n l : ok l = true → ok (delete n l) = true.
Proof.
  revert n. induction l as [|x l IH]; intros [|n] Hok; try done; apply ok_cons in Hok as (Ha & Hx & Hok);
    simpl; [done|]. apply ok_cons. split_and!; try done; [|by apply IH].
  by apply Forall_delete.
Qed.

#[export] Instance laws : IntervalSetLaws.
Proof.
  split; simpl.
  - done.
  - intros s. pose proof (items_ok s) as Hok. induction (items s) as [|x l IH]; [constructor|].
    apply ok_cons in Hok as (Ha & Hx & Hok). constructor; auto.
  - intros s. pose proof (items_ok s) as Hok. induction (items s) as [|x l IH]; [constructor|].
    apply ok_cons in Hok as (Ha & Hx & Hok). constructor; auto.
  - intros k s n Hf. apply fmap_Some in Hf as ([i x] & Hf & ->).
    apply list_find_Some in Hf as (Hi & Hp & _). by exists x.
  - intros k s Hf. apply fmap_None in Hf. by apply list_find_None in Hf.
  - intros k s Hk Hno. rewrite items_id; [apply ins_perm|]. apply ins_ok; try done. apply items_ok.
  - intros k s n Hf. apply fmap_Some in Hf as ([i x] & Hf & ->).
    apply list_find_Some in Hf as (Hi & Hp & Hmin). split; [by exists x|].
    intros m y Hm Hy. specialize (Hmin m y Hy Hm). simpl in *. lia.
  - intros n s. apply items_id. apply delete_ok. apply items_ok.
Qed.

(** A range of 64 KiB with one view of three pages. *)
Definition mapped : Impl (I := set) :=
  mkImpl (I := set) 0x10000 [(0x1000, 0x4000)] {[ 0x1000 := 0x8000 ]}
    [SplitPlaceholder 0x1000 0x3000; MapViewOfFile3 0x1000 0x8000 0x3000].

Lemma mapped_wf : wf mapped.
Proof.
  split.
  - intros x Hx. change (x ∈ [(0x1000, 0x4000)]) in Hx.
    apply list_elem_of_singleton in Hx as ->. by eexists.
  - intros k [h Hk]. simpl in Hk. apply lookup_singleton_Some in Hk as [<- _].
    exists (0x1000, 0x4000). split; [by left|done].
  - constructor; [|constructor]. vm_compute. repeat split; discriminate.
  - reflexivity.
Qed.

End SortedList.

#[local] Existing Instances SortedList.set SortedList.laws.

Lemma win_Unmap_exact_witness :
  ∃ s', Unmap 0x2000 0x1000 SortedList.mapped = Ok (tt, s') ∧
    shows (replay (calls s')) 0x3010 0xa010 ∧ ∀ h, ¬ shows (replay (calls s')) 0x2000 h.
Proof.
  destruct (win_Unmap_exact SortedList.mapped 0x2000 0x1000 SortedList.mapped_wf)
    as (s' & E & _ & Hs); [lia..|].
  exists s'. split; [exact E|]. split.
  - apply Hs. split; [|lia]. exists 0x1000, 0x4000, 0x8000. split; [by left|lia].
  - intros h [_ H]%Hs. lia.
Defined.

Lemma win_Map_exact_witness :
  ∃ s', Map 0x4000 0 0x2000 SortedList.mapped = Ok (tt, s') ∧
    shows (replay (calls s')) 0x5000 0x1000 ∧ shows (replay (calls s')) 0x1000 0x8000.
Proof.
  destruct (win_Map_exact SortedList.mapped 0x4000 0 0x2000 SortedList.mapped_wf)
    as [[E _]|(s' & E & _ & Hs)]; [lia..|vm_compute in E; discriminate E|].
  exists s'. split; [exact E|]. split; apply Hs.
  - right. lia.
  - left. exists 0x1000, 0x4000, 0x8000. split; [by left|lia].
Defined.
