(* ===== verification/Backend.v ===== *)
(** * The code cache of the JIT backend

    [backend/host_isa.h], [backend/mem_map.cpp], [backend/code_cache.cpp] and
    the publication of generated code ([JitContext::Flush] of
    [backend/arm64/jit/jit_context.cpp]).  The system calls are those of
    [HostMemory]; dlmalloc's [mspace], Darwin's extra calls and byte-level
    memory are interfaces with laws. *)

From S2P Require Import Prelude Common HostMemory.

(** ** [host_isa.h] *)
Inductive ISA : Set := kNone | kArm | kArm64 | kX86 | kX86_64 | kRiscv32 | kRiscv64 | kLoongArch.

Definition kArm32InstructionAlignment : Z := 4.
Definition kArm64InstructionAlignment : Z := 4.
Definition kRiscv32InstructionAlignment : Z := 4.
Definition kRiscv64InstructionAlignment : Z := 4.
Definition kLoongArchInstructionAlignment : Z := 4.
Definition kX86InstructionAlignment : Z := 1.
Definition kX86_64InstructionAlignment : Z := 1.

Definition GetInstructionSetInstructionAlignment (isa : ISA) : res Z :=
  match isa with
  | kArm => Ok kArm32InstructionAlignment
  | kArm64 => Ok kArm64InstructionAlignment
  | kX86 => Ok kX86InstructionAlignment
  | kX86_64 => Ok kX86_64InstructionAlignment
  | kRiscv32 => Ok kRiscv32InstructionAlignment
  | kRiscv64 => Ok kRiscv64InstructionAlignment
  | kLoongArch => Ok kLoongArchInstructionAlignment
  | kNone => Err AssertFailed
  end.

(** ** Anonymous shared memory on Darwin *)

(** The calls that Darwin adds: [shm_open] gives a descriptor or [-1] and
    whether [errno] is [EEXIST], [mach_vm_remap] an address unless it fails. *)
Class Darwin `{Posix} := {
  clock_gettime : os → (Z * Z) * os;
  shm_open : list Z → os → (Z * bool) * os;
  shm_unlink : list Z → os → bool * os;
  mach_vm_remap : Z → Z → bool → os → option Z * os;
}.

Section shm.
Context `{D : Darwin}.

(** The characters of ["/shm-"] and the digit ['0' + d]. *)
Definition shm_prefix : list Z := [47; 115; 104; 109; 45].
Fixpoint shm_digits (n : nat) (r : Z) : list Z :=
  match n with O => [] | S n' => (48 + r mod 8) :: shm_digits n' (r / 8) end.
(** [char name[16]]: the prefix, ten octal digits of [r], and the NUL that
    [*limit = 0] wrote. *)
Definition shm_name (r : Z) : list Z := shm_prefix ++ shm_digits 10 r ++ [0].

Definition shm_unlink_or_close (name : list Z) (fd : Z) : stM os Z :=
  ok ← sys (shm_unlink name);
  if negb ok then _ ← sys (close fd); mret (-1) else mret fd.

Fixpoint shm_open_loop (tries : nat) : stM os Z :=
  match tries with
  | O => mret (-1)
  | S tries' =>
      tv ← sys clock_gettime;
      let name := shm_name (u64 (u64 tv.1 + u64 tv.2)) in
      r ← sys (shm_open name);
      if negb (r.1 =? -1) then shm_unlink_or_close name r.1
      else if negb r.2 then mret (-1) else shm_open_loop tries'
  end.

Definition shm_open_anon : stM os Z := shm_open_loop 4.

Definition MirrorMemory (base size : Z) (copy : bool) : stM os Z :=
  r ← sys (mach_vm_remap base size copy);
  mret (match r with Some mirror => mirror | None => 0 end).
End shm.

(** ** [MemMap] *)
Definition Mode_None : Z := 0.
Definition Mode_Read : Z := Z.shiftl 1 0.
Definition Mode_Write : Z := Z.shiftl 1 1.
Definition Mode_Executable : Z := Z.shiftl 1 2.
Definition Mode_ReadWrite : Z := Z.lor Mode_Read Mode_Write.
Definition Mode_ReadExe : Z := Z.lor Mode_Read Mode_Executable.
Definition Mode_RWX : Z := Z.lor (Z.lor Mode_Read Mode_Write) Mode_Executable.

Definition GetProtectFlags (mode : Z) : prot :=
  mkProt (negb (Z.land mode Mode_Read =? 0)) (negb (Z.land mode Mode_Write =? 0))
    (negb (Z.land mode Mode_Executable =? 0)).

(** The targets that the preprocessor tells apart (FreeBSD is left out). *)
Inductive Platform : Set := Apple | Android | Linux.

#[export] Instance Platform_eq_dec : EqDecision Platform.
Proof. solve_decision. Defined.

Section mem_map.
Context `{D : Darwin} (platform : Platform).

(** The content of freshly allocated memory: [Impl] leaves [backing_memory]
    without an initializer. *)
Context (uninitialized : Z).

Record MemMap := mkMemMap {
  executable : bool;
  map_fd : Z;
  backing_memory : Z;
  map_size : Z;
}.

Definition MemMap_Map (m : MemMap) (size offset : Z) (mode : Z) (pri : bool) : stM os Z :=
  let flags := GetProtectFlags mode in
  if bool_decide (platform = Apple) && (map_fd m =? 0) then
    res ← MirrorMemory (u64 (offset + backing_memory m)) size pri;
    _ ← st_check (negb (res =? 0)) AssertFailed;
    ok ← sys (mprotect res size flags);
    _ ← st_check ok AssertFailed;
    mret res
  else
    res ← sys (mmap 0 size flags (mkFlags (negb pri) false false) (map_fd m) offset);
    _ ← st_check (negb (res =? MAP_FAILED)) BadAlloc;
    mret res.

(** The descriptor and the backing memory that the platform's branch leaves. *)
Definition MemMap_open (size : Z) (exec : bool) : stM os (Z * Z) :=
  match platform with
  | Apple =>
      if negb exec then fd ← shm_open_anon; mret (fd, uninitialized)
      else base ← sys (mmap 0 size PROT_RW (mkFlags false true false) 0 0); mret (0, base)
  | Android => fd ← sys memfd_create; mret (fd, uninitialized)
  | Linux => mret (0, uninitialized)
  end.

Definition MemMap_new (size : Z) (exec : bool) : stM os MemMap :=
  _ ← st_check (sysconf_PAGESIZE =? PageAlignment) BadAlloc;
  r ← MemMap_open size exec;
  let '(fd, backing) := r in
  _ ← (if fd =? -1 then st_throw BadAlloc
       else if negb (fd =? 0) then ok ← sys (ftruncate fd size); st_check ok BadAlloc
       else mret tt);
  if backing =? 0 then
    b ← MemMap_Map (mkMemMap exec fd 0 size) size 0 Mode_ReadWrite false;
    mret (mkMemMap exec fd b size)
  else mret (mkMemMap exec fd backing size).

Definition MemMap_Free (m : MemMap) (offset size : Z) : stM os unit :=
  _ ← sys (madvise_REMOVE (u64 (backing_memory m + offset)) size); mret tt.

(** [Impl::Unmap] returns [munmap]'s result as a [bool]; [MemMap::Unmap] drops
    it. *)
Definition MemMap_Unmap (mem size : Z) : stM os unit :=
  _ ← sys (munmap mem size); mret tt.

Definition MemMap_GetMemory (m : MemMap) : Z := backing_memory m.
Definition MemMap_GetSize (m : MemMap) : Z := map_size m.

End mem_map.

(** ** The allocator: dlmalloc's [mspace]

    dlmalloc is a vendored library (runtime/externals); its interface and what
    its header documents of it.  A space begins with the memory it was given,
    of at least 128 words; when that is exhausted it obtains more from the
    system, so a block may lie anywhere. *)
Class MSpace := {
  mspace : Type;
  (** address and size of the live blocks *)
  live : mspace → list (Z * Z);
  create_mspace_with_base : Z → Z → mspace;
  mspace_memalign : Z → Z → mspace → Z * mspace;
  mspace_free : Z → mspace → mspace;
}.

Definition disjoint_blocks (x y : Z * Z) : Prop := x.1 + x.2 ≤ y.1 ∨ y.1 + y.2 ≤ x.1.

Class MSpaceLaws `{MSpace} := {
  create_live b n : 1024 ≤ n → live (create_mspace_with_base b n) = [];
  memalign_ok al n m a m' :
    mspace_memalign al n m = (a, m') →
    a = 0 ∧ live m' = live m ∨
    0 < a ∧ a + n ≤ 2 ^ 64 ∧ a mod al = 0 ∧
    Forall (disjoint_blocks (a, n)) (live m) ∧ live m' = (a, n) :: live m;
  free_ok a m : live (mspace_free a m) = filter (λ x, x.1 ≠ a) (live m);
}.

(** ** [CodeCache] *)
Record CodeBuffer := mkBuffer { exec_data : Z; rw_data : Z; buf_size : Z }.

Section code_cache.
Context `{D : Darwin} `{M : MSpace} (platform : Platform) (uninitialized : Z).

Record CodeCache := mkCache {
  inst_alignment : Z;
  max_size : Z;
  space_code : mspace;
  space_data : mspace;
  code_mem : MemMap;
  data_mem : MemMap;
  code_mem_mapped : Z;
}.

(** The constructor and [Init]. *)
Definition CodeCache_new (isa : ISA) (size : Z) : stM os CodeCache :=
  al ← st_lift (GetInstructionSetInstructionAlignment isa);
  code ← MemMap_new platform uninitialized size true;
  mapped ← (if bool_decide (platform = Apple)
            then MemMap_Map platform code (MemMap_GetSize code) 0 Mode_ReadExe false
            else mret 0);
  let sc := create_mspace_with_base (MemMap_GetMemory code) (MemMap_GetSize code) in
  data ← MemMap_new platform uninitialized size false;
  let sd := create_mspace_with_base (MemMap_GetMemory data) (MemMap_GetSize data) in
  mret (mkCache al size sc sd code data mapped).

Definition set_space (c : CodeCache) (sp : mspace) : CodeCache :=
  mkCache (inst_alignment c) (max_size c) sp (space_data c) (code_mem c) (data_mem c)
    (code_mem_mapped c).

Definition AllocCode (size : Z) (c : CodeCache) : option CodeBuffer * CodeCache :=
  let '(result, sp) := mspace_memalign (inst_alignment c) size (space_code c) in
  let c' := set_space c sp in
  if result =? 0 then (None, c')
  else if negb (code_mem_mapped c =? 0) then
    (Some (mkBuffer (u64 (result - MemMap_GetMemory (code_mem c) + code_mem_mapped c)) result size), c')
  else (Some (mkBuffer result result size), c').

Definition FreeCode (exec_ptr : Z) (c : CodeCache) : bool * CodeCache :=
  let ptr := if negb (code_mem_mapped c =? 0)
             then u64 (MemMap_GetMemory (code_mem c) + (exec_ptr - code_mem_mapped c))
             else exec_ptr in
  (true, set_space c (mspace_free ptr (space_code c))).

Definition Contain (exec_ptr : Z) (c : CodeCache) : bool := false.

End code_cache.

(** ** Publishing code *)

(** Bytes of the process; [same] tells whether two addresses show the same
    byte of memory. *)
Class Bytes `{Posix} := {
  load : os → Z → Z;
  store : Z → Z → os → os;
  same : os → Z → Z → bool;
}.

Class BytesLaws `{Bytes} := {
  load_store a v s b : load (store a v s) b = if same s a b then v else load s b;
  same_store a v s b c : same (store a v s) b c = same s b c;
}.

Section flush.
Context `{B : Bytes} `{M : MSpace}.

Fixpoint memcpy (dst : Z) (bytes : list Z) (s : os) : os :=
  match bytes with
  | [] => s
  | b :: l => memcpy (dst + 1) l (store dst b s)
  end.

(** [JitContext::Flush]: the buffer of the assembler goes to the writable
    alias, the result is the executable one ([nullptr] if the cache is full).
    [CodeBuffer::Flush] only flushes the processor's caches. *)
Definition Flush (buffer : list Z) (c : CodeCache) (s : os) : Z * (CodeCache * os) :=
  let cache_size := Z.of_nat (length buffer) in
  match AllocCode cache_size c with
  | (Some b, c') => (exec_data b, (c', memcpy (rw_data b) buffer s))
  | (None, c') => (0, (c', s))
  end.
End flush.
