(* ===== verification/BackendSpec.v ===== *)
(** * The code cache: theorems *)

From S2P Require Import Prelude Common HostMemory HostMemorySpec Backend.

(** ** Names of shared memory objects *)
Lemma shm_digits_octal n r :
  length (shm_digits n r) = n ∧ Forall (λ c, 48 ≤ c < 56) (shm_digits n r).
Proof.
  revert r. induction n as [|n IH]; intros r; simpl; [done|].
  destruct (IH (r / 8)) as [Hl Hf]. split; [by rewrite Hl|]. constructor; [|done].
  pose proof (Z.mod_pos_bound r 8). lia.
Qed.

(** The name fills [char name[16]] and is NUL-terminated. *)
Lemma shm_name_fits r :
  length (shm_name r) = 16%nat ∧ last (shm_name r) = Some 0 ∧
  Forall (λ c, c ≠ 0) (take 15 (shm_name r)).
Proof.
  unfold shm_name. destruct (shm_digits_octal 10 r) as [Hl Hf]. split_and!.
  - rewrite !length_app, Hl. done.
  - by rewrite app_assoc, last_snoc.
  - rewrite app_assoc, take_app_le by (rewrite length_app, Hl; simpl; lia).
    rewrite take_ge by (rewrite length_app, Hl; simpl; lia).
    apply Forall_app. split; [repeat constructor; lia|].
    eapply Forall_impl; [done|]. simpl. intros. lia.
Qed.

(** ** Code buffers *)
Lemma Forall_filter_2 {A} (Q P : A → Prop) `{∀ x, Decision (P x)} l :
  Forall Q l → Forall Q (filter P l).
Proof. rewrite !Forall_forall. intros H1 x Hx. apply H1. by apply list_elem_of_filter in Hx as []. Qed.

Lemma FOP_filter {A} (R : A → A → Prop) (P : A → Prop) `{∀ x, Decision (P x)} l :
  ForallOrdPairs R l → ForallOrdPairs R (filter P l).
Proof.
  induction 1 as [|x l Hx Hl IH]; [constructor|].
  rewrite filter_cons. destruct (decide (P x)); [|done].
  constructor; [by apply Forall_filter_2|done].
Qed.

Section cache.
Context {M : MSpace} {L : MSpaceLaws}.
#[local] Set Default Proof Using "All".

(** The executable address of an address of the writable mapping. *)
Definition exec_of (c : CodeCache) (a : Z) : Z :=
  if code_mem_mapped c =? 0 then a
  else a - MemMap_GetMemory (code_mem c) + code_mem_mapped c.

(** A block inside the memory that the cache mapped. *)
Definition in_memory (c : CodeCache) (a n : Z) : Prop :=
  MemMap_GetMemory (code_mem c) ≤ a ∧
  a + n ≤ MemMap_GetMemory (code_mem c) + MemMap_GetSize (code_mem c).

(** The cache's blocks are apart from each other, and both mappings are ranges
    of the address space. *)
Record cache_wf (c : CodeCache) : Prop := {
  wf_memory : 0 < MemMap_GetMemory (code_mem c);
  wf_memory_top : MemMap_GetMemory (code_mem c) + MemMap_GetSize (code_mem c) ≤ 2 ^ 64;
  wf_mapped : 0 ≤ code_mem_mapped c;
  wf_mapped_top : code_mem_mapped c + MemMap_GetSize (code_mem c) ≤ 2 ^ 64;
  wf_live : Forall (λ x, 0 ≤ x.2 ∧ 0 < x.1 ∧ x.1 + x.2 ≤ 2 ^ 64) (live (space_code c));
  wf_disjoint : ForallOrdPairs disjoint_blocks (live (space_code c));
}.

Lemma exec_of_u64 c a n :
  cache_wf c → in_memory c a n → 0 < n → u64 (exec_of c a) = exec_of c a.
Proof.
  intros [] [??] Hn. unfold exec_of. apply wrap_small. unfold in_width.
  destruct (Z.eqb_spec (code_mem_mapped c) 0); lia.
Qed.

Lemma AllocCode_spec n c r c' :
  cache_wf c → 0 < n → AllocCode n c = (r, c') →
  cache_wf c' ∧ code_mem c' = code_mem c ∧ code_mem_mapped c' = code_mem_mapped c ∧
  match r with
  | None => live (space_code c') = live (space_code c)
  | Some b =>
      exec_data b = u64 (exec_of c (rw_data b)) ∧ buf_size b = n ∧
      rw_data b mod inst_alignment c = 0 ∧ 0 < rw_data b ∧ rw_data b + n ≤ 2 ^ 64 ∧
      Forall (disjoint_blocks (rw_data b, n)) (live (space_code c)) ∧
      live (space_code c') = (rw_data b, n) :: live (space_code c)
  end.
Proof.
  intros Hwf Hn H. unfold AllocCode in H.
  destruct (mspace_memalign _ _ _) as [a sp] eqn:E. apply memalign_ok in E as Hcase.
  destruct (Z.eqb_spec a 0) as [Ha|Ha].
  - injection H as <- <-. destruct Hcase as [[_ Hl]|]; [|lia].
    destruct Hwf; split_and!; try done. split; simpl; rewrite ?Hl; done.
  - destruct Hcase as [[]|(Hpos & Htop & Hal & Hdis & Hl)]; [done|].
    assert (cache_wf (set_space c sp)) as Hwf'.
    { destruct Hwf. split; simpl; rewrite ?Hl; try done; constructor; simpl; try done. lia. }
    unfold exec_of.
    destruct (Z.eqb_spec (code_mem_mapped c) 0) as [Em|Em]; simpl in H; injection H as <- <-;
      simpl; split_and!; try done. rewrite wrap_small; [done|]. unfold in_width. lia.
Qed.

(** [AllocCode] hands out an aligned buffer that overlaps no live buffer; when
    it lies in the memory the cache mapped, its executable address is at the
    same offset in the executable mapping.  [FreeCode] of the executable
    address releases exactly this buffer, wherever it lies and whatever was
    allocated and freed in between. *)
Theorem AllocCode_FreeCode n c b c' c1 :
  cache_wf c → 0 < n → AllocCode n c = (Some b, c') →
  cache_wf c1 → code_mem c1 = code_mem c → code_mem_mapped c1 = code_mem_mapped c →
  (in_memory c (rw_data b) n → exec_data b = exec_of c (rw_data b)) ∧
  rw_data b mod inst_alignment c = 0 ∧
  Forall (disjoint_blocks (rw_data b, n)) (live (space_code c)) ∧
  cache_wf c' ∧ live (space_code c') = (rw_data b, n) :: live (space_code c) ∧
  let c2 := snd (FreeCode (exec_data b) c1) in
  cache_wf c2 ∧ live (space_code c2) = filter (λ x, x.1 ≠ rw_data b) (live (space_code c1)).
Proof.
  intros Hwf Hn H Hwf1 Hc Hm.
  apply AllocCode_spec in H as (Hwf' & _ & _ & He & _ & Hal & Hlo & Hhi & Hdis & Hl); [|done..].
  split_and!; try done. { intros Hin. rewrite He. by eapply exec_of_u64. }
  cbv zeta. unfold FreeCode. cbn [snd].
  assert ((if negb (code_mem_mapped c1 =? 0)
           then u64 (MemMap_GetMemory (code_mem c1) + (exec_data b - code_mem_mapped c1))
           else exec_data b) = rw_data b) as ->.
  { rewrite He, Hm, Hc. unfold exec_of.
    destruct (Z.eqb_spec (code_mem_mapped c) 0); simpl; [apply wrap_small; unfold in_width; lia|].
    set (e := rw_data b - MemMap_GetMemory (code_mem c) + code_mem_mapped c).
    replace (MemMap_GetMemory (code_mem c) + (u64 e - code_mem_mapped c))
      with (MemMap_GetMemory (code_mem c) - code_mem_mapped c + u64 e) by lia.
    rewrite wrap_add_r. unfold e.
    replace (MemMap_GetMemory (code_mem c) - code_mem_mapped c +
      (rw_data b - MemMap_GetMemory (code_mem c) + code_mem_mapped c)) with (rw_data b) by lia.
    apply wrap_small. unfold in_width. lia. }
  pose proof (free_ok (rw_data b) (space_code c1)) as Hf. split; [|done].
  destruct Hwf1. split; simpl; rewrite ?Hf; try done.
  - by apply Forall_filter_2.
  - by apply FOP_filter.
Qed.

(** A buffer that the allocator took from the system is handed out with an
    executable address that is not the address of its code: it is shifted by
    the distance of the two mappings and lies outside the executable one. *)
Theorem AllocCode_outside n c b c' :
  cache_wf c → 0 < n → AllocCode n c = (Some b, c') → code_mem_mapped c ≠ 0 →
  code_mem_mapped c ≠ MemMap_GetMemory (code_mem c) → code_mem_mapped c < 2 ^ 64 →
  MemMap_GetMemory (code_mem c) < 2 ^ 64 → 0 ≤ MemMap_GetSize (code_mem c) →
  ¬ (MemMap_GetMemory (code_mem c) ≤ rw_data b <
       MemMap_GetMemory (code_mem c) + MemMap_GetSize (code_mem c)) →
  exec_data b ≠ rw_data b ∧
  ¬ (code_mem_mapped c ≤ exec_data b < code_mem_mapped c + MemMap_GetSize (code_mem c)).
Proof.
  intros Hwf Hn H Hm Hne Hm64 Hg64 Hs Hout.
  apply AllocCode_spec in H as (_ & _ & _ & He & _ & _ & Hlo & Hhi & _); [|done..].
  destruct Hwf. rewrite He. unfold exec_of. destruct (Z.eqb_spec (code_mem_mapped c) 0); [done|].
  set (d := rw_data b - MemMap_GetMemory (code_mem c) + code_mem_mapped c).
  assert (∃ q, u64 d = d - q * 2 ^ 64 ∧ 0 ≤ u64 d < 2 ^ 64 ∧ -1 ≤ q ≤ 1) as (q & Hq & Hr & Hqb).
  { exists (d / 2 ^ 64). pose proof (Z.mod_pos_bound d (2 ^ 64) ltac:(lia)).
    pose proof (Z.div_mod d (2 ^ 64) ltac:(lia)). unfold wrap. split_and!; [lia|lia|lia| |].
    - apply Z.div_le_lower_bound; unfold d; lia.
    - apply Z.lt_succ_r, Z.div_lt_upper_bound; unfold d; lia. }
  rewrite Hq in *. unfold d in *.
  assert (q = -1 ∨ q = 0 ∨ q = 1) as [->|[->| ->]] by lia; lia.
Qed.

End cache.

(** ** Publishing code *)
Section publish.
Context {P : Posix} {B : Bytes} {LB : BytesLaws} {M : MSpace} {L : MSpaceLaws}.
#[local] Set Default Proof Using "All".

(** Two addresses of the code memory show the same byte through the writable
    and the executable mapping exactly at equal offsets. *)
Definition mirrored (c : CodeCache) (s : os) : Prop :=
  ∀ a b, MemMap_GetMemory (code_mem c) ≤ a <
           MemMap_GetMemory (code_mem c) + MemMap_GetSize (code_mem c) →
         MemMap_GetMemory (code_mem c) ≤ b <
           MemMap_GetMemory (code_mem c) + MemMap_GetSize (code_mem c) →
    same s a (exec_of c b) = (a =? b).

Lemma mirrored_store c s a v : mirrored c s → mirrored c (store a v s).
Proof. intros Hm x y Hx Hy. rewrite same_store. by apply Hm. Qed.

(** What [memcpy] to the writable mapping shows through the executable one. *)
Lemma memcpy_load c bytes dst s b :
  mirrored c s →
  MemMap_GetMemory (code_mem c) ≤ dst →
  dst + Z.of_nat (length bytes) ≤ MemMap_GetMemory (code_mem c) + MemMap_GetSize (code_mem c) →
  MemMap_GetMemory (code_mem c) ≤ b <
    MemMap_GetMemory (code_mem c) + MemMap_GetSize (code_mem c) →
  load (memcpy dst bytes s) (exec_of c b) =
    if (dst <=? b) && (b <? dst + Z.of_nat (length bytes))
    then bytes !!! Z.to_nat (b - dst) else load s (exec_of c b).
Proof.
  revert dst s. induction bytes as [|x bytes IH]; intros dst s Hm Hlo Hhi Hb.
  - cbn [memcpy length]. rewrite Z.add_0_r.
    destruct (Z.leb_spec dst b), (Z.ltb_spec b dst); simpl; first [lia|done].
  - cbn [memcpy length] in *. rewrite IH by (try apply mirrored_store; done || lia).
    rewrite load_store, Hm by lia.
    destruct (Z.leb_spec (dst + 1) b), (Z.leb_spec dst b), (Z.eqb_spec dst b),
      (Z.ltb_spec b (dst + 1 + Z.of_nat (length bytes))),
      (Z.ltb_spec b (dst + Z.of_nat (S (length bytes)))); simpl; try lia; try done.
    + by replace (Z.to_nat (b - dst)) with (S (Z.to_nat (b - (dst + 1)))) by lia.
    + by replace (Z.to_nat (b - dst)) with O by lia.
Qed.

(** [JitContext::Flush] publishes the generated code: when the allocator has
    a block in the memory of the cache, the bytes at the returned executable
    address are the assembler's buffer, and the code of every live buffer of
    this memory is still what it was; when it has none it returns null and
    changes no memory. *)
Theorem Flush_publishes buffer c s p c' s' :
  cache_wf c → mirrored c s → buffer ≠ [] → Flush buffer c s = (p, (c', s')) →
  (∀ b c1, AllocCode (Z.of_nat (length buffer)) c = (Some b, c1) →
     in_memory c (rw_data b) (Z.of_nat (length buffer))) →
  cache_wf c' ∧ mirrored c' s' ∧
  ((p = 0 ∧ s' = s) ∨
   (p ≠ 0 ∧
    (∀ k, (k < length buffer)%nat → load s' (p + Z.of_nat k) = buffer !!! k) ∧
    ∀ a n k, (a, n) ∈ live (space_code c) → in_memory c a n → 0 ≤ k < n →
      load s' (exec_of c (a + k)) = load s (exec_of c (a + k)))).
Proof.
  intros Hwf Hm Hne H Hroom. unfold Flush in H.
  assert (Hn : 0 < Z.of_nat (length buffer)) by (destruct buffer; simpl; [done|lia]).
  destruct (AllocCode _ c) as [r c1] eqn:E. assert (Hin := λ b Hr, Hroom b c1 (f_equal (λ x, (x, c1)) Hr)).
  apply AllocCode_spec in E as (Hwf' & Hc & Hmap & Hr); [|done..].
  assert (Hmir : ∀ s1, mirrored c s1 → mirrored c1 s1).
  { intros s1 H1. unfold mirrored, exec_of. rewrite Hc, Hmap. exact H1. }
  destruct r as [b|]; [|injection H as <- <- <-; auto].
  destruct Hr as (He & _ & _ & _ & _ & Hdis & Hl). injection H as <- <- <-.
  pose proof (Hin b eq_refl) as Hinb. rewrite (exec_of_u64 _ _ _ Hwf Hinb Hn) in He.
  destruct Hinb as [Hlo Hhi].
  split_and!; [done| |].
  { apply Hmir. clear -Hm LB L. revert Hm. generalize (rw_data b) as d.
    revert s. induction buffer as [|x l IH]; intros s d Hm; [done|].
    simpl. by apply IH, mirrored_store. }
  right. pose proof (wf_mapped _ Hwf). pose proof (wf_memory _ Hwf). rewrite He. split_and!.
  - unfold exec_of. destruct (Z.eqb_spec (code_mem_mapped c) 0); lia.
  - intros k Hk. replace (exec_of c (rw_data b) + Z.of_nat k)
      with (exec_of c (rw_data b + Z.of_nat k))
      by (unfold exec_of; destruct (_ =? 0); lia).
    rewrite memcpy_load by (done || lia).
    destruct (Z.leb_spec (rw_data b) (rw_data b + Z.of_nat k)); [|lia].
    destruct (Z.ltb_spec (rw_data b + Z.of_nat k) (rw_data b + Z.of_nat (length buffer))); [|lia].
    simpl. f_equal. lia.
  - intros a n k Hlive [Ha1 Ha2] Hk. rewrite Forall_forall in Hdis.
    pose proof (Hdis _ Hlive) as Hd. unfold disjoint_blocks in Hd. simpl in Hd.
    rewrite memcpy_load by (done || lia).
    destruct (Z.leb_spec (rw_data b) (a + k)),
      (Z.ltb_spec (a + k) (rw_data b + Z.of_nat (length buffer))); simpl; lia || done.
Qed.

End publish.

(** ** [MemMap] *)
Section mem_map.
Context {P : Posix} {D : Darwin} {LP : PosixLaws}.
#[local] Set Default Proof Using "All".

(** [MemMap::Impl] reads [backing_memory] before anything was stored in
    it (no initializer, and only Darwin's executable branch assigns it): when
    the memory of the object was not zero, the constructor maps nothing and
    takes the stale word for the address of the memory. *)
Theorem MemMap_stale_backing platform garbage size exec s m s' :
  platform ≠ Apple → garbage ≠ 0 →
  MemMap_new platform garbage size exec s = Ok (m, s') →
  MemMap_GetMemory m = garbage ∧ ∀ a, look s' a = look s a.
Proof.
  intros Hp Hg H. unfold MemMap_new in H.
  apply st_bind_Ok in H as ([] & s1 & H1 & H). apply st_check_Ok in H1 as [_ ->].
  apply st_bind_Ok in H as ([fd b] & s2 & H1 & H).
  assert (b = garbage ∧ ∀ a, look s2 a = look s a) as [-> Hl].
  { unfold MemMap_open in H1. destruct platform; [done| |by inv_ok].
    apply st_bind_Ok in H1 as (x & s3 & E & H1). inv_ok. injection E as E.
    apply memfd_create_ok in E as [Hl _]. done. }
  apply st_bind_Ok in H as ([] & s3 & H2 & H).
  assert (∀ a, look s3 a = look s a) as Hl3.
  { destruct (fd =? -1); [by inv_ok|]. destruct (negb _); [|by inv_ok].
    apply st_bind_Ok in H2 as (x & s4 & E & H2). inv_ok. injection E as E.
    apply ftruncate_ok in E as [_ E]. intros a. by rewrite E. }
  destruct (Z.eqb_spec garbage 0); [done|]. by inv_ok.
Qed.

(** Outside Darwin, from zeroed memory: a fresh range, shared with the
    descriptor, readable and writable. *)
Lemma MemMap_new_spec platform size exec s m s' :
  platform ≠ Apple → size mod getpagesize = 0 →
  MemMap_new platform 0 size exec s = Ok (m, s') →
  map_size m = size ∧ 0 < backing_memory m ∧ backing_memory m + size ≤ 2 ^ 64 ∧
  (∀ a, within (backing_memory m) size a = true → look s a = None) ∧
  ∀ a, look s' a = if within (backing_memory m) size a
    then Some (File (map_fd m) (a - backing_memory m) true, PROT_RW) else look s a.
Proof.
  intros Hp Hsz H. unfold MemMap_new in H.
  apply st_bind_Ok in H as ([] & s1 & H1 & H). apply st_check_Ok in H1 as [_ ->].
  apply st_bind_Ok in H as ([fd b] & s2 & H1 & H).
  assert (b = 0 ∧ ∀ a, look s2 a = look s a) as [-> Hl].
  { unfold MemMap_open in H1. destruct platform; [done| |by inv_ok].
    apply st_bind_Ok in H1 as (x & s3 & E & H1). inv_ok. injection E as E.
    apply memfd_create_ok in E as [Hl _]. done. }
  apply st_bind_Ok in H as ([] & s3 & H2 & H).
  assert (∀ a, look s3 a = look s a) as Hl3.
  { destruct (fd =? -1); [by inv_ok|]. destruct (negb _); [|by inv_ok].
    apply st_bind_Ok in H2 as (x & s4 & E & H2). inv_ok. injection E as E.
    apply ftruncate_ok in E as [_ E]. intros a. by rewrite E. }
  apply st_bind_Ok in H as (base & s4 & H3 & H). inv_ok. unfold MemMap_Map in H3.
  rewrite bool_decide_eq_false_2 in H3 by done. cbn [andb] in H3.
  apply st_bind_Ok in H3 as (r & s5 & E & H3). inv_ok. injection E as E.
  match goal with H : negb _ = true |- _ => apply negb_true_iff, Z.eqb_neq in H end.
  apply mmap_ok in E as (_ & Hfree & Htop & _ & Hlk); [|done..].
  destruct Hfree as (Hpos & _ & Hfree); [done|]. simpl. split_and!; try done.
  - intros a Ha. rewrite <- Hl3. by apply Hfree.
  - intros a. by rewrite Hlk, Hl3.
Qed.

(** Outside Darwin the code memory is mapped readable and writable only
    and there is no second, executable mapping: every buffer of [AllocCode] in
    this memory is handed out as executable code at addresses that lack
    [PROT_EXEC]. *)
Theorem code_memory_not_executable {M : MSpace} {L : MSpaceLaws} platform isa size s c s' :
  platform ≠ Apple → 1024 ≤ size → size mod getpagesize = 0 →
  CodeCache_new platform 0 isa size s = Ok (c, s') →
  cache_wf c ∧
  ∀ n b c', 0 < n → AllocCode n c = (Some b, c') → in_memory c (rw_data b) n →
    exec_data b = rw_data b ∧
    ∃ k, look s' (exec_data b) = Some (k, mkProt true true false).
Proof.
  intros Hp H0 Hsz H. unfold CodeCache_new in H.
  apply st_bind_Ok in H as (al & s1 & H1 & H).
  assert (s1 = s) as ->. { unfold st_lift in H1. by destruct (GetInstructionSetInstructionAlignment isa); inv_ok. }
  apply st_bind_Ok in H as (code & s2 & Hcode & H).
  rewrite bool_decide_eq_false_2 in H by done.
  rewrite (st_bind_run _ _ s2 s2 0) in H by done.
  apply st_bind_Ok in H as (data & s3 & Hdata & H). inv_ok.
  apply MemMap_new_spec in Hcode as (Hms & Hpos & Htop & _ & Hlk); [|done..].
  apply MemMap_new_spec in Hdata as (_ & _ & _ & Hfree & Hlk2); [|done..].
  set (c := mkCache _ _ _ _ _ _ _).
  assert (cache_wf c) as Hwf.
  { split; simpl; unfold MemMap_GetMemory, MemMap_GetSize; rewrite ?Hms; try lia.
    - by rewrite create_live.
    - rewrite create_live by done. constructor. }
  split; [done|]. intros n b c' Hn Ha Hin.
  apply AllocCode_spec in Ha as (_ & _ & _ & He & _); [|done..].
  rewrite (exec_of_u64 _ _ _ Hwf Hin Hn) in He. destruct Hin as [Hlo Hhi].
  unfold exec_of in He. simpl in *. rewrite He. split; [done|].
  unfold MemMap_GetMemory, MemMap_GetSize in *. rewrite Hms in Hhi.
  assert (Hw : look s2 (rw_data b) = Some (File (map_fd code) (rw_data b - backing_memory code) true, PROT_RW))
    by (rewrite Hlk, within_true; [done|lia]).
  rewrite Hlk2. destruct (within _ _ (rw_data b)) eqn:E; [by rewrite Hfree in Hw|].
  rewrite Hw. eauto.
Qed.

End mem_map.

(** ** Concrete instances *)

(** An allocator that hands out ascending addresses. *)
Module Bump.

Record bump := mkBump { lo : Z; len : Z; next : Z; blocks : list (Z * Z) }.

Definition memalign (al n : Z) (m : bump) : Z * bump :=
  let a := Z.max (next m) (lo m) in
  if (0 <? al) && (a mod al =? 0) && (a + n <=? lo m + len m) && (0 <? a) && (0 <? a + n) && (Z.log2 (a + n) <? 64)
     && forallb (λ x, x.1 + x.2 <=? a) (blocks m)
  then (a, mkBump (lo m) (len m) (a + n) ((a, n) :: blocks m)) else (0, m).

#[export] Instance mspace : MSpace := {|
  Backend.mspace := bump; live := blocks;
  create_mspace_with_base := λ b n, mkBump b n b [];
  mspace_memalign := memalign;
  mspace_free := λ a m, mkBump (lo m) (len m) (next m) (filter (λ x, x.1 ≠ a) (blocks m)) |}.

#[export] Instance laws : MSpaceLaws.
Proof.
  split; [done| |done].
  intros al n m a m'. simpl. unfold memalign. cbv zeta.
  destruct (_ && _) eqn:E; intros [= <- <-]; simpl; [|auto].
  rewrite !andb_true_iff in E. destruct E as [[[[[[_ E1%Z.eqb_eq] _] E3%Z.ltb_lt] E6%Z.ltb_lt] E5%Z.ltb_lt] E4].
  apply Z.log2_lt_pow2 in E5; [|done]. right. split_and!; try done; [lia|].
  apply Forall_forall. intros x Hx. right. simpl.
  rewrite forallb_forall in E4. apply Z.leb_le, E4. by apply list_elem_of_In.
Qed.

End Bump.

(** Memory of which the range from [0x800000] mirrors that from [0x400000]. *)
Module Mirror.

Definition phys (a : Z) : Z := if 0x800000 <=? a then a - 0x400000 else a.

#[export] Instance posix : Posix := {|
  os := Z → Z; getpagesize := 0x1000; sysconf_PAGESIZE := 0x1000;
  look := λ _ _, None; fds := λ _, ∅;
  mmap := λ _ _ _ _ _ _ s, (MAP_FAILED, s); munmap := λ _ _ s, (false, s);
  mprotect := λ _ _ _ s, (false, s);
  madvise_REMOVE := λ _ _ s, (false, s); madvise_HUGEPAGE := λ _ _ s, s; HostMemory.bytes := λ _ _ _, 0;
  memfd_create := λ s, (-1, s); ftruncate := λ _ _ s, (false, s); close := λ _ s, (false, s) |}.

#[export] Instance bytes : Bytes := {|
  load := λ s a, s (phys a);
  store := λ a v s, λ b, if b =? phys a then v else s b;
  same := λ _ a b, phys a =? phys b |}.

#[export] Instance laws : BytesLaws.
Proof. split; [|done]. intros a v s b. simpl. by rewrite Z.eqb_sym. Qed.

(** A code cache of 64 KiB with its executable mirror, one buffer live. *)
Definition cache : CodeCache (M := Bump.mspace) :=
  let mm := mkMemMap true 3 0x400000 0x10000 in
  mkCache (M := Bump.mspace) 4 0x10000 (Bump.mkBump 0x400000 0x10000 0x400010 [(0x400000, 0x10)])
    (Bump.mkBump 0x500000 0x10000 0x500000 []) mm mm 0x800000.

End Mirror.

#[local] Existing Instances Bump.mspace Bump.laws.

Lemma cache_example_wf : cache_wf Mirror.cache.
Proof.
  split; simpl; unfold MemMap_GetMemory, MemMap_GetSize; simpl; try done; try lia.
  - repeat constructor; simpl; lia.
  - repeat constructor.
Qed.

Lemma AllocCode_FreeCode_witness :
  ∃ b c', AllocCode 8 Mirror.cache = (Some b, c') ∧ exec_data b = 0x800010 ∧
    live (space_code (snd (FreeCode 0x800010 c'))) = [(0x400000, 0x10)].
Proof.
  do 2 eexists. split; [reflexivity|]. split; [reflexivity|].
  destruct (AllocCode_FreeCode 8 Mirror.cache _ _ _ cache_example_wf ltac:(lia) eq_refl
    cache_example_wf eq_refl eq_refl) as (_ & _ & _ & Hwf & _).
  destruct (AllocCode_FreeCode 8 Mirror.cache _ _ _ cache_example_wf ltac:(lia) eq_refl
    Hwf eq_refl eq_refl) as (_ & _ & _ & _ & _ & _ & Hl).
  etrans; [exact Hl|]. vm_compute. reflexivity.
Defined.

(** An allocator that has only blocks of the system left. *)
Definition exhausted_cache : CodeCache (M := Bump.mspace) :=
  let mm := mkMemMap true 3 0x400000 0x10000 in
  mkCache (M := Bump.mspace) 4 0x10000 (Bump.mkBump 0x600000 0x10000 0x600000 [])
    (Bump.mkBump 0x500000 0x10000 0x500000 []) mm mm 0x800000.

Lemma exhausted_cache_wf : cache_wf exhausted_cache.
Proof. split; simpl; unfold MemMap_GetMemory, MemMap_GetSize; simpl; try done; try lia. constructor. Qed.

Lemma AllocCode_outside_witness :
  ∃ b c', AllocCode 8 exhausted_cache = (Some b, c') ∧ rw_data b = 0x600000 ∧ exec_data b ≠ 0x600000.
Proof.
  do 2 eexists. split; [reflexivity|]. split; [reflexivity|].
  apply (AllocCode_outside 8 exhausted_cache _ _ exhausted_cache_wf ltac:(lia) eq_refl);
    vm_compute; intuition discriminate.
Defined.

Lemma Flush_publishes_witness :
  ∃ c' s', Flush (B := Mirror.bytes) [0xde; 0xad] Mirror.cache (λ _, 0) = (0x800010, (c', s')) ∧
    load (Bytes := Mirror.bytes) s' 0x800011 = 0xad.
Proof.
  set (r := Flush (B := Mirror.bytes) [0xde; 0xad] Mirror.cache (λ _, 0)).
  assert (Hf : r = (0x800010, (r.2.1, r.2.2))) by reflexivity.
  exists r.2.1, r.2.2. split; [exact Hf|].
  destruct (Flush_publishes (B := Mirror.bytes) (LB := Mirror.laws) [0xde; 0xad] Mirror.cache
    (λ _, 0) 0x800010 r.2.1 r.2.2 cache_example_wf) as (_ & _ & [[H _]|(_ & H & _)]);
    [|done|exact Hf| |done|].
  - intros a b Ha Hb. unfold exec_of, MemMap_GetMemory, MemMap_GetSize in *. simpl in *.
    unfold Mirror.phys. destruct (Z.leb_spec 0x800000 a); [lia|].
    destruct (Z.leb_spec 0x800000 (b - 0x400000 + 0x800000)); [|lia].
    apply eq_iff_eq_true. rewrite !Z.eqb_eq. lia.
  - intros b c1 Hb. assert (b = mkBuffer 0x800010 0x400010 2) as ->.
    { change (AllocCode 2 Mirror.cache = (Some b, c1)) in Hb. injection Hb as <- _. reflexivity. }
    split; vm_compute; discriminate.
  - exact (H 1%nat ltac:(simpl; lia)).
Defined.

#[local] Existing Instances Flat.posix Flat.laws.

(** Darwin's calls are not made outside Darwin. *)
Definition no_darwin : Darwin (H := Flat.posix) := {|
  clock_gettime := λ s, ((0, 0), s); shm_open := λ _ s, ((-1, false), s);
  shm_unlink := λ _ s, (false, s); mach_vm_remap := λ _ _ _ s, (None, s) |}.

Lemma MemMap_stale_backing_witness :
  ∃ m s', MemMap_new (D := no_darwin) Linux 0xdead 0x1000 false Flat.start = Ok (m, s') ∧
    MemMap_GetMemory m = 0xdead.
Proof.
  do 2 eexists. split; [reflexivity|].
  eapply (MemMap_stale_backing (D := no_darwin) Linux 0xdead 0x1000 false Flat.start);
    [done|done|reflexivity].
Defined.

Lemma code_memory_not_executable_witness :
  ∃ c s', CodeCache_new (D := no_darwin) Android 0 kArm64 0x2000 Flat.start = Ok (c, s') ∧
    ∃ b c', AllocCode 16 c = (Some b, c') ∧
      ∃ k, look s' (exec_data b) = Some (k, mkProt true true false).
Proof.
  destruct (Flat.result (CodeCache_new (D := no_darwin) Android 0 kArm64 0x2000 Flat.start))
    as [c|] eqn:E; [|vm_compute in E; discriminate].
  pose proof (Flat.result_final _ _ E) as H.
  do 2 eexists. split; [exact H|].
  assert (H1 : Android ≠ Apple) by discriminate. assert (H2 : 1024 ≤ 0x2000) by discriminate.
  assert (H3 : 0x2000 mod getpagesize (Posix := Flat.posix) = 0) by reflexivity.
  destruct (code_memory_not_executable (D := no_darwin) Android kArm64 0x2000 Flat.start c _
    H1 H2 H3 H) as [_ Hb].
  vm_compute in E. injection E as <-. destruct (AllocCode 16 _) as [[b|] c'] eqn:Ea.
  - exists b, c'. split; [reflexivity|]. eapply Hb; [|exact Ea|]; [lia|].
    vm_compute in Ea. injection Ea as <- _. split; vm_compute; discriminate.
  - vm_compute in Ea. discriminate Ea.
Defined.
