(* ===== verification/Thread.v ===== *)
(** * Threads of the host

    [base/thread.cpp]: the scheduling priority and the name given to the
    current thread.  [sched_get_priority_min/max] and the name limit of
    [pthread_setname_np] are parameters. *)

From S2P Require Import Prelude.

Inductive ThreadPriority : Set := Low | Normal | High | VeryHigh | Critical.

Definition priority_code (p : ThreadPriority) : Z :=
  match p with Low => 0 | Normal => 1 | High => 2 | VeryHigh => 3 | Critical => 4 end.

Definition s32 (z : Z) : Z := let m := z mod 2 ^ 32 in if m <? 2 ^ 31 then m else m - 2 ^ 32.

(** [SetCurrentThreadPriority] on POSIX: the value of [params.sched_priority].
    [level] is unsigned, so the products, the quotients and the sums are taken
    in 32 unsigned bits and only the result is read as an [int]. *)
Definition sched_priority (min_prio max_prio : Z) (new_priority : ThreadPriority) : Z :=
  let level := u32 (priority_code new_priority + 1) in
  if min_prio <? max_prio then
    s32 (u32 min_prio + u32 (u32 (max_prio - min_prio) * level) / 4)
  else
    s32 (u32 min_prio - u32 (u32 (min_prio - max_prio) * level) / 4).

(** The same on Windows. *)
Inductive WinPriority : Set := BELOW_NORMAL | NORMAL | ABOVE_NORMAL | HIGHEST.
Definition windows_priority (new_priority : ThreadPriority) : WinPriority :=
  match new_priority with
  | Low => BELOW_NORMAL
  | Normal => NORMAL
  | High => ABOVE_NORMAL
  | VeryHigh => HIGHEST
  | Critical => NORMAL
  end.

(** The name that the Linux branch of [SetCurrentThreadName] passes on. *)
Definition truncated_name (name : list Ascii.ascii) : list Ascii.ascii :=
  take (Nat.min (length name) 15) name.

Lemma truncated_name_spec name :
  (length (truncated_name name) ≤ 15)%nat ∧ truncated_name name `prefix_of` name ∧
  ((length name ≤ 15)%nat → truncated_name name = name).
Proof.
  unfold truncated_name. split_and!.
  - rewrite length_take. lia.
  - exists (drop (Nat.min (length name) 15) name). by rewrite take_drop.
  - intros. apply take_ge. lia.
Qed.

Lemma sched_priority_exact min_prio max_prio p :
  0 ≤ min_prio < max_prio → max_prio < 2 ^ 28 →
  sched_priority min_prio max_prio p =
    min_prio + (max_prio - min_prio) * (priority_code p + 1) / 4.
Proof.
  intros Hmin Hmax. unfold sched_priority. cbv zeta.
  destruct (Z.ltb_spec min_prio max_prio); [|lia].
  assert (0 ≤ priority_code p ≤ 4) by (destruct p; simpl; lia).
  rewrite (wrap_small 32 (priority_code p + 1)) by (unfold in_width; lia).
  rewrite (wrap_small 32 (max_prio - min_prio)) by (unfold in_width; lia).
  rewrite (wrap_small 32 (_ * _)) by (unfold in_width; nia).
  rewrite (wrap_small 32 min_prio) by (unfold in_width; lia).
  assert (0 ≤ (max_prio - min_prio) * (priority_code p + 1) / 4 ≤ 2 ^ 30).
  { split; [apply Z.div_pos; nia|]. apply Z.div_le_upper_bound; nia. }
  unfold s32. rewrite Z.mod_small by lia.
  destruct (Z.ltb_spec (min_prio + (max_prio - min_prio) * (priority_code p + 1) / 4) (2 ^ 31)); lia.
Qed.

(** Where the scheduler has a range of priorities, the levels from [Low]
    to [VeryHigh] are mapped into it in order, [VeryHigh] to its maximum;
    [Critical] asks for a quarter of the range more than the maximum. *)
Theorem thread_priority_range min_prio max_prio p :
  0 ≤ min_prio → min_prio + 4 ≤ max_prio → max_prio < 2 ^ 28 →
  (p ≠ Critical → min_prio < sched_priority min_prio max_prio p ≤ max_prio) ∧
  sched_priority min_prio max_prio VeryHigh = max_prio ∧
  max_prio < sched_priority min_prio max_prio Critical ∧
  ∀ q, priority_code p < priority_code q →
    sched_priority min_prio max_prio p < sched_priority min_prio max_prio q.
Proof.
  intros Hmin Hgap Hmax. rewrite !sched_priority_exact by lia.
  set (d := max_prio - min_prio) in *.
  assert (Hq : ∀ k, 0 ≤ k → d * (k + 1) / 4 ≤ d * (k + 2) / 4 - 1).
  { intros k Hk. replace (d * (k + 2)) with (d * (k + 1) + d) by lia.
    assert (d * (k + 1) / 4 + 1 ≤ (d * (k + 1) + d) / 4); [|lia].
    apply Z.div_le_lower_bound; [lia|].
    pose proof (Z.mul_div_le (d * (k + 1)) 4). lia. }
  assert (H4 : d * 4 / 4 = d) by (apply Z.div_mul; lia).
  pose proof (Hq 0 ltac:(lia)). pose proof (Hq 1 ltac:(lia)).
  pose proof (Hq 2 ltac:(lia)). pose proof (Hq 3 ltac:(lia)).
  assert (0 < d * 1 / 4) by (apply Z.div_str_pos; lia).
  change (0 + 1) with 1 in *. change (0 + 2) with 2 in *.
  change (1 + 1) with 2 in *. change (1 + 2) with 3 in *.
  change (2 + 1) with 3 in *. change (2 + 2) with 4 in *.
  change (3 + 1) with 4 in *. change (3 + 2) with 5 in *.
  assert (Hk : ∀ r, d * (priority_code r + 1) / 4 = match r with
    Low => d * 1 / 4 | Normal => d * 2 / 4 | High => d * 3 / 4
    | VeryHigh => d * 4 / 4 | Critical => d * 5 / 4 end) by (by intros []).
  split_and!; rewrite ?Hk.
  - intros Hp. destruct p; try done; lia.
  - lia.
  - lia.
  - intros q Hlt. rewrite sched_priority_exact by lia. fold d. rewrite Hk.
    destruct p, q; cbn [priority_code] in Hlt; lia.
Qed.

Lemma thread_priority_range_witness :
  sched_priority 15 47 Critical = 55 ∧ 47 < sched_priority 15 47 Critical.
Proof.
  split; [vm_compute; reflexivity|].
  apply (thread_priority_range 15 47 Low); [lia|lia|vm_compute; reflexivity].
Defined.
