(* ===== verification/HandleTable.v ===== *)
(** * Handle tables of the kernel

    [KHandleTable] (libmesosphere, [kern_k_handle_table.hpp] and [.cpp]): the
    table that gives a process its handles to kernel objects.  A handle packs
    an index and a linear id; free entries form a list through the same
    16-bit word that holds the linear id of used ones. *)

From S2P Require Import Prelude.

(** ** Packed handles: [util::BitPack32] *)
Module BitPack32.
Definition Mask (index count : Z) : Z :=
  if count =? 32 then u32 (Z.lnot 0) else u32 (Z.shiftl (u32 (Z.shiftl 1 count) - 1) index).
Definition Get (index count value : Z) : Z :=
  Z.shiftr (Z.land value (Mask index count)) index.
Definition Set_ (index count field_value value : Z) : Z :=
  Z.lor (Z.land value (u32 (Z.lnot (Mask index count))))
    (Z.land (u32 (Z.shiftl field_value index)) (Mask index count)).
End BitPack32.

Definition HandleRawValue (h : Z) : Z := BitPack32.Get 0 32 h.
Definition HandleIndex (h : Z) : Z := BitPack32.Get 0 15 h.
Definition HandleLinearId (h : Z) : Z := BitPack32.Get 15 15 h.
Definition HandleReserved (h : Z) : Z := BitPack32.Get 30 2 h.

Definition MaxTableSize : Z := 1024.
Definition MinLinearId : Z := 1.
Definition MaxLinearId : Z := HandleLinearId (2 ^ 32 - 1).

Definition EncodeHandle (index linear_id : Z) : Z :=
  BitPack32.Set_ 30 2 0 (BitPack32.Set_ 15 15 linear_id (BitPack32.Set_ 0 15 index 0)).

Definition CurrentThread : Z := 0xFFFF8000.
Definition CurrentProcess : Z := 0xFFFF8001.
Definition IsPseudoHandle (handle : Z) : bool :=
  (handle =? CurrentProcess) || (handle =? CurrentThread).

(** ** The table *)

(** Kernel objects are named by numbers.  The state of the model is a table,
    the reference counts of the objects and the stack of closed objects that
    the current thread destroys at its next [DestroyClosedObjects]. *)
Abbreviation obj := nat.

Record KHandleTable := mkTable {
  m_entry_infos : list Z;
  m_objects : list (option obj);
  m_free_head_index : Z;
  m_table_size : Z;
  m_max_count : Z;
  m_next_linear_id : Z;
  m_count : Z;
}.

Record kstate := mkState {
  table : KHandleTable;
  m_ref_count : gmap obj Z;
  m_closed_object : list obj;
}.

(** The 16-bit union read as [s16]. *)
Definition s16 (z : Z) : Z := let m := z mod 2 ^ 16 in if m <? 2 ^ 15 then m else m - 2 ^ 16.

Abbreviation tableM := (stM kstate).
Definition get_table : tableM KHandleTable := k ← st_get; mret (table k).
Definition mod_table (f : KHandleTable → KHandleTable) : tableM unit :=
  st_mod (λ k, mkState (f (table k)) (m_ref_count k) (m_closed_object k)).

Definition set_infos (l : list Z) (t : KHandleTable) : KHandleTable :=
  mkTable l (m_objects t) (m_free_head_index t) (m_table_size t) (m_max_count t)
    (m_next_linear_id t) (m_count t).
Definition set_objects (l : list (option obj)) (t : KHandleTable) : KHandleTable :=
  mkTable (m_entry_infos t) l (m_free_head_index t) (m_table_size t) (m_max_count t)
    (m_next_linear_id t) (m_count t).
Definition set_free_head (i : Z) (t : KHandleTable) : KHandleTable :=
  mkTable (m_entry_infos t) (m_objects t) i (m_table_size t) (m_max_count t)
    (m_next_linear_id t) (m_count t).
Definition set_table_size (n : Z) (t : KHandleTable) : KHandleTable :=
  mkTable (m_entry_infos t) (m_objects t) (m_free_head_index t) n (m_max_count t)
    (m_next_linear_id t) (m_count t).
Definition set_counts (max_count count : Z) (t : KHandleTable) : KHandleTable :=
  mkTable (m_entry_infos t) (m_objects t) (m_free_head_index t) (m_table_size t) max_count
    (m_next_linear_id t) count.
Definition set_next_linear_id (id : Z) (t : KHandleTable) : KHandleTable :=
  mkTable (m_entry_infos t) (m_objects t) (m_free_head_index t) (m_table_size t) (m_max_count t)
    id (m_count t).

(** Array accesses; an index outside the array is undefined. *)
Definition index_of (i : Z) : res nat := if i <? 0 then Err OutOfBounds else Ok (Z.to_nat i).
Definition get_info (i : Z) : tableM Z :=
  t ← get_table; k ← st_lift (index_of i); st_lift (of_option OutOfBounds (m_entry_infos t !! k)).
Definition get_object (i : Z) : tableM (option obj) :=
  t ← get_table; k ← st_lift (index_of i); st_lift (of_option OutOfBounds (m_objects t !! k)).
Definition put_info (i v : Z) : tableM unit :=
  _ ← get_info i; mod_table (λ t, set_infos (<[Z.to_nat i := u16 v]> (m_entry_infos t)) t).
Definition put_object (i : Z) (o : option obj) : tableM unit :=
  _ ← get_object i; mod_table (λ t, set_objects (<[Z.to_nat i := o]> (m_objects t)) t).

Section table.

(** Whether the build checks [MESOSPHERE_ASSERT] and [MESOSPHERE_AUDIT]. *)
Context (assertions auditing : bool).

Definition MESOSPHERE_ASSERT (b : bool) : tableM unit :=
  if assertions then st_check b Aborted else mret tt.

(** ** Reference counts: [KAutoObject] *)

(** The count of an object; an object that was never created has none. *)
Definition GetReferenceCount (rc : gmap obj Z) (o : obj) : Z := default 0 (rc !! o).
Definition set_ref_count (o : obj) (v : Z) : tableM unit :=
  st_mod (λ k, mkState (table k) (<[o := v]> (m_ref_count k)) (m_closed_object k)).

(** [Open]: the compare-and-exchange loop as its one successful exchange. *)
Definition Open (o : obj) : tableM bool :=
  k ← st_get;
  let cur := GetReferenceCount (m_ref_count k) o in
  if cur =? 0 then _ ← (if auditing then st_throw Aborted else mret tt); mret false else
  _ ← st_check (cur <? u32 (cur + 1)) Aborted;
  _ ← set_ref_count o (u32 (cur + 1));
  mret true.

Definition ScheduleDestruction (o : obj) : tableM unit :=
  st_mod (λ k, mkState (table k) (m_ref_count k) (o :: m_closed_object k)).

Definition Close (o : obj) : tableM unit :=
  k ← st_get;
  let cur := GetReferenceCount (m_ref_count k) o in
  _ ← st_check (0 <? cur) Aborted;
  _ ← set_ref_count o (u32 (cur - 1));
  if u32 (cur - 1) =? 0 then ScheduleDestruction o else mret tt.

(** [KScopedAutoObject]'s constructor from a pointer. *)
Definition KScopedAutoObject (o : option obj) : tableM (option obj) :=
  _ ← match o with Some x => _ ← Open x; mret tt | None => mret tt end;
  mret o.

(** ** Operations *)

(** Results of the supervisor calls. *)
Inductive Result : Set := ResultSuccess | ResultOutOfMemory | ResultOutOfHandles.

Fixpoint free_entries_loop (n : nat) (i : Z) : tableM unit :=
  match n with
  | O => mret tt
  | S n' =>
      _ ← put_object i None;
      _ ← put_info i (i - 1);
      _ ← mod_table (set_free_head i);
      free_entries_loop n' (i + 1)
  end.

Definition Initialize (size : Z) : tableM Result :=
  if MaxTableSize <? size then mret ResultOutOfMemory else
  _ ← mod_table (λ t, mkTable (m_entry_infos t) (m_objects t) (-1)
        (u16 (if size <=? 0 then MaxTableSize else size)) 0 MinLinearId 0);
  t ← get_table;
  _ ← free_entries_loop (Z.to_nat (m_table_size t)) 0;
  mret ResultSuccess.

(** The destructor's half: every remaining object is closed. *)
Fixpoint finalize_loop (n : nat) (i : Z) : tableM unit :=
  match n with
  | O => mret tt
  | S n' =>
      o ← get_object i;
      _ ← match o with Some x => Close x | None => mret tt end;
      finalize_loop n' (i + 1)
  end.
Definition Finalize : tableM Result :=
  t ← get_table;
  let saved_table_size := m_table_size t in
  _ ← mod_table (set_table_size 0);
  _ ← finalize_loop (Z.to_nat saved_table_size) 0;
  mret ResultSuccess.

Definition AllocateEntry : tableM Z :=
  t ← get_table;
  _ ← MESOSPHERE_ASSERT (m_count t <? m_table_size t);
  let index := m_free_head_index t in
  info ← get_info index;
  _ ← mod_table (set_free_head (s16 info));
  let count := u16 (m_count t + 1) in
  _ ← mod_table (set_counts (Z.max (m_max_count t) count) count);
  mret index.

Definition FreeEntry (index : Z) : tableM unit :=
  t ← get_table;
  _ ← MESOSPHERE_ASSERT (0 <? m_count t);
  _ ← put_object index None;
  _ ← put_info index (m_free_head_index t);
  _ ← mod_table (set_free_head index);
  mod_table (λ t, set_counts (m_max_count t) (u16 (m_count t - 1)) t).

Definition AllocateLinearId : tableM Z :=
  t ← get_table;
  let id := m_next_linear_id t in
  let next := u16 (id + 1) in
  _ ← mod_table (set_next_linear_id (if MaxLinearId <? next then MinLinearId else next));
  mret id.

Definition IsValidHandle (handle : Z) : tableM bool :=
  t ← get_table;
  _ ← MESOSPHERE_ASSERT (HandleReserved handle =? 0);
  if HandleRawValue handle =? 0 then mret false
  else if HandleLinearId handle =? 0 then mret false
  else if m_table_size t <=? HandleIndex handle then mret false
  else
    o ← get_object (HandleIndex handle);
    match o with
    | None => mret false
    | Some _ =>
        info ← get_info (HandleIndex handle);
        mret (u16 info =? HandleLinearId handle)
    end.

Definition GetObjectImpl (handle : Z) : tableM (option obj) :=
  if negb (HandleReserved handle =? 0) then mret None else
  valid ← IsValidHandle handle;
  if (valid : bool) then get_object (HandleIndex handle) else mret None.

Definition GetObjectByIndexImpl (index : Z) : tableM (option (Z * obj)) :=
  t ← get_table;
  if m_table_size t <=? index then mret None else
  o ← get_object index;
  match o with
  | Some x => info ← get_info index; mret (Some (EncodeHandle index (u16 info), x))
  | None => mret None
  end.

Definition Remove (handle : Z) : tableM bool :=
  if IsPseudoHandle handle then mret false
  else if negb (HandleReserved handle =? 0) then mret false
  else
    valid ← IsValidHandle handle;
    if (valid : bool) then
      o ← get_object (HandleIndex handle);
      _ ← FreeEntry (HandleIndex handle);
      _ ← match o with Some x => Close x | None => st_throw NullDeref end;
      mret true
    else mret false.

Definition Add (o : obj) : tableM (Result * Z) :=
  t ← get_table;
  if negb (m_count t <? m_table_size t) then mret (ResultOutOfHandles, 0) else
  linear_id ← AllocateLinearId;
  index ← AllocateEntry;
  _ ← put_info index linear_id;
  _ ← put_object index (Some o);
  _ ← Open o;
  mret (ResultSuccess, EncodeHandle index linear_id).

Definition Reserve : tableM (Result * Z) :=
  t ← get_table;
  if negb (m_count t <? m_table_size t) then mret (ResultOutOfHandles, 0) else
  index ← AllocateEntry;
  linear_id ← AllocateLinearId;
  mret (ResultSuccess, EncodeHandle index linear_id).

Definition Unreserve (handle : Z) : tableM unit :=
  t ← get_table;
  _ ← MESOSPHERE_ASSERT (HandleReserved handle =? 0);
  _ ← MESOSPHERE_ASSERT (negb (HandleLinearId handle =? 0));
  if HandleIndex handle <? m_table_size t then
    o ← get_object (HandleIndex handle);
    _ ← MESOSPHERE_ASSERT (bool_decide (o = None));
    FreeEntry (HandleIndex handle)
  else mret tt.

Definition Register (handle : Z) (o : obj) : tableM unit :=
  t ← get_table;
  _ ← MESOSPHERE_ASSERT (HandleReserved handle =? 0);
  _ ← MESOSPHERE_ASSERT (negb (HandleLinearId handle =? 0));
  if HandleIndex handle <? m_table_size t then
    old ← get_object (HandleIndex handle);
    _ ← MESOSPHERE_ASSERT (bool_decide (old = None));
    _ ← put_info (HandleIndex handle) (HandleLinearId handle);
    _ ← put_object (HandleIndex handle) (Some o);
    _ ← Open o;
    mret tt
  else mret tt.

(** [GetMultipleObjects] with a cast [cast] to the wanted class: all handles or
    none; the references opened on the way are closed again on failure. *)
Fixpoint open_loop (cast : obj → bool) (handles : list Z) (out : list obj) : tableM (bool * list obj) :=
  match handles with
  | [] => mret (true, out)
  | h :: hs =>
      o ← GetObjectImpl h;
      match o with
      | Some x =>
          if cast x then _ ← Open x; open_loop cast hs (out ++ [x]) else mret (false, out)
      | None => mret (false, out)
      end
  end.
Definition GetMultipleObjects (cast : obj → bool) (handles : list Z) : tableM (option (list obj)) :=
  '(all, out) ← open_loop cast handles [];
  if (all : bool) then mret (Some out) else _ ← st_iter Close out; mret None.

(** ** Lookups that return a scoped reference *)

(** The class asked for: one that [KProcess] derives from, one that [KThread]
    derives from, or another one. *)
Inductive wanted : Set := BaseOfProcess | BaseOfThread | OtherClass.

Definition GetObjectWithoutPseudoHandle (cast : obj → bool) (handle : Z) : tableM (option obj) :=
  o ← GetObjectImpl handle;
  KScopedAutoObject (match o with Some x => if cast x then Some x else None | None => None end).

Definition GetObject (w : wanted) (cur_process cur_thread : obj) (cast : obj → bool) (handle : Z)
  : tableM (option obj) :=
  match w with
  | BaseOfProcess =>
      if handle =? CurrentProcess then KScopedAutoObject (Some cur_process)
      else GetObjectWithoutPseudoHandle cast handle
  | BaseOfThread =>
      if handle =? CurrentThread then KScopedAutoObject (Some cur_thread)
      else GetObjectWithoutPseudoHandle cast handle
  | OtherClass => GetObjectWithoutPseudoHandle cast handle
  end.

Definition GetObjectForIpcWithoutPseudoHandle (is_interrupt_event : obj → bool) (handle : Z)
  : tableM (option obj) :=
  o ← GetObjectImpl handle;
  match o with
  | Some x => if is_interrupt_event x then KScopedAutoObject None else KScopedAutoObject (Some x)
  | None => KScopedAutoObject None
  end.

Definition GetObjectForIpc (is_interrupt_event : obj → bool) (owner_process cur_thread : obj) (handle : Z)
  : tableM (option obj) :=
  if handle =? CurrentProcess then KScopedAutoObject (Some owner_process)
  else if handle =? CurrentThread then KScopedAutoObject (Some cur_thread)
  else GetObjectForIpcWithoutPseudoHandle is_interrupt_event handle.

Definition GetObjectByIndex (index : Z) : tableM (option (Z * obj)) :=
  r ← GetObjectByIndexImpl index;
  _ ← KScopedAutoObject (snd <$> r);
  mret r.

End table.
