(* ===== verification/HandleTableSpec.v ===== *)
(** * What the kernel's handle table promises

    An abstract table is a list of entries, each free, reserved or used with a
    linear id and an object.  [refines] relates it to the concrete table with
    its free list threaded through the entry words, and every operation is
    shown to simulate a step of the abstract table. *)

From S2P Require Import Prelude HandleTable.

(** ** Packed handles *)
Section packing.

Lemma land_low a n c : 0 ≤ n → 0 ≤ a < 2 ^ n → Z.land a c = Z.land a (c mod 2 ^ n).
Proof.
  intros Hn Ha. rewrite <- (Z.mod_small a (2 ^ n)) at 1 by done.
  rewrite <- Z.land_ones by done. rewrite <- Z.land_assoc, (Z.land_comm (Z.ones n)).
  by rewrite Z.land_ones by done.
Qed.

Lemma HandleIndex_mod h : HandleIndex h = h mod 2 ^ 15.
Proof.
  unfold HandleIndex, BitPack32.Get. change (BitPack32.Mask 0 15) with (2 ^ 15 - 1).
  rewrite land_pow2_pred by lia. apply Z.shiftr_0_r.
Qed.

Lemma HandleLinearId_mod h : HandleLinearId h = (h / 2 ^ 15) mod 2 ^ 15.
Proof.
  unfold HandleLinearId, BitPack32.Get.
  rewrite Z.shiftr_land. change (Z.shiftr (BitPack32.Mask 15 15) 15) with (2 ^ 15 - 1).
  by rewrite land_pow2_pred, Z.shiftr_div_pow2 by lia.
Qed.

Lemma HandleReserved_mod h : HandleReserved h = (h / 2 ^ 30) mod 2 ^ 2.
Proof.
  unfold HandleReserved, BitPack32.Get.
  rewrite Z.shiftr_land. change (Z.shiftr (BitPack32.Mask 30 2) 30) with (2 ^ 2 - 1).
  by rewrite land_pow2_pred, Z.shiftr_div_pow2 by lia.
Qed.

Lemma HandleRawValue_mod h : HandleRawValue h = h mod 2 ^ 32.
Proof.
  unfold HandleRawValue, BitPack32.Get. change (BitPack32.Mask 0 32) with (2 ^ 32 - 1).
  rewrite land_pow2_pred by lia. apply Z.shiftr_0_r.
Qed.

Lemma MaxLinearId_eq : MaxLinearId = 0x7fff.
Proof. reflexivity. Qed.

Lemma EncodeHandle_eq i id :
  0 ≤ i < 2 ^ 15 → 0 ≤ id < 2 ^ 15 → EncodeHandle i id = i + id * 2 ^ 15.
Proof.
  intros Hi Hid. unfold EncodeHandle, BitPack32.Set_.
  rewrite !Z.land_0_l, !Z.lor_0_l, Z.shiftl_0_r.
  change (BitPack32.Mask 0 15) with (2 ^ 15 - 1).
  rewrite (wrap_small 32 i), land_pow2_pred, (Z.mod_small i) by (try unfold in_width; lia).
  change (u32 (Z.shiftl 0 30)) with 0. rewrite ?Z.land_0_l, Z.lor_0_r.
  rewrite (land_low i 15) by lia.
  change (u32 (Z.lnot (BitPack32.Mask 15 15)) mod 2 ^ 15) with (2 ^ 15 - 1).
  rewrite land_pow2_pred, (Z.mod_small i) by lia.
  rewrite Z.shiftl_mul_pow2, (wrap_small 32 (id * _)) by (try unfold in_width; lia).
  rewrite <- Z.shiftl_mul_pow2 by lia.
  change (BitPack32.Mask 15 15) with (Z.shiftl (2 ^ 15 - 1) 15).
  rewrite <- Z.shiftl_land, land_pow2_pred, (Z.mod_small id) by lia.
  rewrite Z.shiftl_mul_pow2 by lia.
  assert (Z.land i (id * 2 ^ 15) = 0) as Hz.
  { rewrite (land_low i 15), Z.mod_mul by lia. apply Z.land_0_r. }
  rewrite <- (Z.lxor_lor _ _ Hz), <- (Z.add_nocarry_lxor _ _ Hz).
  rewrite (land_low _ 30) by lia.
  change (u32 (Z.lnot (BitPack32.Mask 30 2)) mod 2 ^ 30) with (2 ^ 30 - 1).
  rewrite land_pow2_pred, Z.mod_small by lia. done.
Qed.

(** A handle is its index, its linear id and two reserved bits. *)
Lemma handle_parts h : 0 ≤ h < 2 ^ 32 → HandleReserved h = 0 →
  h = HandleIndex h + HandleLinearId h * 2 ^ 15.
Proof.
  rewrite HandleReserved_mod, HandleIndex_mod, HandleLinearId_mod. intros Hh Hr.
  assert (h / 2 ^ 30 < 2 ^ 2) by (apply Z.div_lt_upper_bound; lia).
  assert (0 ≤ h / 2 ^ 30) by (apply Z.div_pos; lia).
  rewrite Z.mod_small in Hr by lia. apply Z.div_small_iff in Hr; [|lia].
  assert (h / 2 ^ 15 < 2 ^ 15) by (apply Z.div_lt_upper_bound; lia).
  assert (0 ≤ h / 2 ^ 15) by (apply Z.div_pos; lia).
  rewrite (Z.mod_small (h / 2 ^ 15)) by lia.
  pose proof (Z.div_mod h (2 ^ 15)). lia.
Qed.

Lemma decode_encode i id : 0 ≤ i < 2 ^ 15 → 0 ≤ id < 2 ^ 15 →
  let h := EncodeHandle i id in
  HandleIndex h = i ∧ HandleLinearId h = id ∧ HandleReserved h = 0 ∧ 0 ≤ h < 2 ^ 30.
Proof.
  intros Hi Hid h. subst h. rewrite HandleIndex_mod, HandleLinearId_mod, HandleReserved_mod.
  rewrite EncodeHandle_eq by lia.
  rewrite Z.mod_add, Z.mod_small, Z.div_add, (Z.div_small i) by lia.
  rewrite Z.add_0_l, Z.mod_small, (Z.div_small _ (2 ^ 30)) by lia. repeat split; lia.
Qed.

Lemma linear_id_encode i id : 0 ≤ i < 2 ^ 15 → 0 ≤ id < 2 ^ 15 → HandleLinearId (EncodeHandle i id) = id.
Proof. intros Hi Hid. by destruct (decode_encode i id Hi Hid) as (_ & -> & _). Qed.

Lemma index_range h : 0 ≤ HandleIndex h < 2 ^ 15.
Proof. rewrite HandleIndex_mod. apply Z.mod_pos_bound. lia. Qed.
Lemma linear_id_range h : 0 ≤ HandleLinearId h < 2 ^ 15.
Proof. rewrite HandleLinearId_mod. apply Z.mod_pos_bound. lia. Qed.
End packing.

(** ** The abstract table *)
Inductive entry : Set := Free | Reserved | Used (id : Z) (o : obj).

(** The object that a handle denotes. *)
Definition denotes (A : list entry) (h : Z) : option obj :=
  if HandleReserved h =? 0 then
    match A !! Z.to_nat (HandleIndex h) with
    | Some (Used id o) => if id =? HandleLinearId h then Some o else None
    | _ => None
    end
  else None.

Definition uses (o : obj) (e : entry) : bool :=
  match e with Used _ x => bool_decide (x = o) | _ => false end.

(** The entries of the table, the reference counts of the objects and the
    objects whose last reference was closed. *)
Record spec := mkSpec { entries : list entry; rc : gmap obj Z; dead : list obj }.

Definition opened (o : obj) (s : spec) : spec :=
  mkSpec (entries s) (<[o := GetReferenceCount (rc s) o + 1]> (rc s)) (dead s).
Definition closed (o : obj) (s : spec) : spec :=
  let n := GetReferenceCount (rc s) o - 1 in
  mkSpec (entries s) (<[o := n]> (rc s)) (if n =? 0 then o :: dead s else dead s).
Definition with_entry (i : nat) (e : entry) (s : spec) : spec :=
  mkSpec (<[i := e]> (entries s)) (rc s) (dead s).

Inductive op : Set :=
  | OAdd (o : obj) | ORemove (h : Z) | OGet (h : Z)
  | OReserve | ORegister (h : Z) (o : obj) | OUnreserve (h : Z).
Inductive ret : Set :=
  | RHandle (r : Result) (h : Z) | RBool (b : bool) | RObj (o : option obj) | RUnit.

Definition handle_index (h : Z) : nat := Z.to_nat (HandleIndex h).

Inductive astep : spec → op → ret → spec → Prop :=
  | a_add s o (i : nat) id : entries s !! i = Some Free → 1 ≤ id < 2 ^ 15 →
      astep s (OAdd o) (RHandle ResultSuccess (EncodeHandle (Z.of_nat i) id)) (opened o (with_entry i (Used id o) s))
  | a_add_full s o : Free ∉ entries s → astep s (OAdd o) (RHandle ResultOutOfHandles 0) s
  | a_remove s h o : denotes (entries s) h = Some o →
      astep s (ORemove h) (RBool true) (closed o (with_entry (handle_index h) Free s))
  | a_remove_none s h : denotes (entries s) h = None → astep s (ORemove h) (RBool false) s
  | a_get s h : astep s (OGet h) (RObj (denotes (entries s) h)) s
  | a_reserve s (i : nat) id : entries s !! i = Some Free → 1 ≤ id < 2 ^ 15 →
      astep s OReserve (RHandle ResultSuccess (EncodeHandle (Z.of_nat i) id)) (with_entry i Reserved s)
  | a_reserve_full s : Free ∉ entries s → astep s OReserve (RHandle ResultOutOfHandles 0) s
  | a_register s h o : entries s !! handle_index h = Some Reserved →
      astep s (ORegister h o) RUnit (opened o (with_entry (handle_index h) (Used (HandleLinearId h) o) s))
  | a_register_out s h o : entries s !! handle_index h = None → astep s (ORegister h o) RUnit s
  | a_unreserve s h : entries s !! handle_index h = Some Reserved →
      astep s (OUnreserve h) RUnit (with_entry (handle_index h) Free s)
  | a_unreserve_out s h : entries s !! handle_index h = None → astep s (OUnreserve h) RUnit s.

(** What the callers must respect: a new reference is opened on a live object
    whose count is not saturated; [Register] and [Unreserve] get a handle of a
    reserved entry (or one past the table), with a linear id and no reserved
    bits. *)
Definition openable (r : gmap obj Z) (o : obj) : Prop := 0 < GetReferenceCount r o < 2 ^ 32 - 1.
Definition reserved_handle (A : list entry) (h : Z) : Prop :=
  HandleReserved h = 0 ∧ HandleLinearId h ≠ 0 ∧
  (A !! handle_index h = Some Reserved ∨ A !! handle_index h = None).
Definition enabled (s : spec) (x : op) : Prop :=
  match x with
  | OAdd o => openable (rc s) o
  | ORegister h o => openable (rc s) o ∧ reserved_handle (entries s) h
  | OUnreserve h => reserved_handle (entries s) h
  | ORemove _ | OGet _ | OReserve => True
  end.

(** ** The refinement relation *)

(** The free list that starts at [h] visits the entries [fl] in order. *)
Fixpoint chain (infos : list Z) (h : Z) (fl : list nat) : Prop :=
  match fl with
  | [] => h = -1
  | i :: r => h = Z.of_nat i ∧ ∃ v, infos !! i = Some v ∧ chain infos (s16 v) r
  end.

Definition entry_ok (t : KHandleTable) (fl : list nat) (i : nat) (e : entry) : Prop :=
  match e with
  | Free => m_objects t !! i = Some None ∧ i ∈ fl
  | Reserved => m_objects t !! i = Some None ∧ i ∉ fl
  | Used id o =>
      m_objects t !! i = Some (Some o) ∧ m_entry_infos t !! i = Some id ∧
      1 ≤ id < 2 ^ 15 ∧ i ∉ fl
  end.

Record table_ok (t : KHandleTable) (A : list entry) (fl : list nat) : Prop := {
  ok_infos : length (m_entry_infos t) = 1024%nat;
  ok_objects : length (m_objects t) = 1024%nat;
  ok_size : m_table_size t = Z.of_nat (length A);
  ok_small : (length A ≤ 1024)%nat;
  ok_chain : chain (m_entry_infos t) (m_free_head_index t) fl;
  ok_nodup : NoDup fl;
  ok_free : ∀ i, i ∈ fl → (i < length A)%nat;
  ok_count : m_count t + Z.of_nat (length fl) = Z.of_nat (length A);
  ok_max : 0 ≤ m_count t ≤ m_max_count t ∧ m_max_count t ≤ Z.of_nat (length A);
  ok_id : 1 ≤ m_next_linear_id t < 2 ^ 15;
  ok_entries : ∀ i e, A !! i = Some e → entry_ok t fl i e;
}.

Definition refs_ok (r : gmap obj Z) (A : list entry) : Prop :=
  ∀ o, Z.of_nat (countb (uses o) A) ≤ GetReferenceCount r o < 2 ^ 32.

Definition refines (k : kstate) (s : spec) : Prop :=
  (∃ fl, table_ok (table k) (entries s) fl) ∧
  m_ref_count k = rc s ∧ m_closed_object k = dead s ∧ refs_ok (rc s) (entries s).

Section free_list.

Lemma s16_word v : -1 ≤ v < 2 ^ 15 → s16 (u16 v) = v.
Proof.
  intros Hv. unfold s16, wrap. rewrite Z.mod_mod by lia.
  destruct (decide (v = -1)) as [->|]; [reflexivity|].
  rewrite Z.mod_small by lia. by rewrite (proj2 (Z.ltb_lt _ _)) by lia.
Qed.

Lemma free_chain_insert infos h fl i v :
  i ∉ fl → chain infos h fl → chain (<[i:=v]> infos) h fl.
Proof.
  revert h. induction fl as [|j fl IH]; intros h Hi; [done|]. cbn.
  intros (-> & w & Hw & Hc). apply not_elem_of_cons in Hi as [Hij Hi].
  split; [done|]. exists w. by rewrite list_lookup_insert_ne by done; eauto.
Qed.

Lemma no_free_entry t A fl : table_ok t A fl → Free ∉ A ↔ fl = [].
Proof.
  intros Ht. split.
  - intros Hn. destruct fl as [|i fl]; [done|]. destruct Hn.
    destruct (lookup_lt_is_Some_2 A i) as [e He]; [by eapply ok_free; [done|left]|].
    pose proof (ok_entries _ _ _ Ht _ _ He) as Hok. apply list_elem_of_lookup. exists i. rewrite He.
    destruct e; cbn in Hok; [done|set_solver|set_solver].
  - intros -> Hin. apply list_elem_of_lookup in Hin as [i Hi].
    pose proof (ok_entries _ _ _ Ht _ _ Hi) as [_ Hok]. by apply not_elem_of_nil in Hok.
Qed.

(** Entries away from [i] are not affected by what happens to [i]. *)
Lemma entries_update t t' (A : list entry) fl fl' i e :
  (∀ j, j ≠ i → m_objects t' !! j = m_objects t !! j ∧
     m_entry_infos t' !! j = m_entry_infos t !! j ∧ (j ∈ fl' ↔ j ∈ fl)) →
  (∀ j e, A !! j = Some e → entry_ok t fl j e) → entry_ok t' fl' i e →
  ∀ j e', <[i:=e]> A !! j = Some e' → entry_ok t' fl' j e'.
Proof.
  intros Hsame Hall Hi j e' Hj. destruct (decide (j = i)) as [->|Hne].
  - pose proof (lookup_lt_Some _ _ _ Hj) as Hlt. rewrite length_insert in Hlt.
    rewrite list_lookup_insert_eq in Hj by done. by simplify_eq.
  - rewrite list_lookup_insert_ne in Hj by done. specialize (Hall _ _ Hj).
    destruct (Hsame _ Hne) as (Ho & Hf & Hl).
    destruct e'; cbn in *; rewrite ?Ho, ?Hf; naive_solver.
Qed.
End free_list.

(** ** Running the operations *)
Section running.
Context (assertions auditing : bool).
Implicit Types (k : kstate) (s : spec) (A : list entry) (fl : list nat).

Definition table_upd (k : kstate) (t : KHandleTable) : kstate :=
  mkState t (m_ref_count k) (m_closed_object k).

Lemma index_of_nat (i : nat) : index_of (Z.of_nat i) = Ok i.
Proof. unfold index_of. rewrite (proj2 (Z.ltb_ge _ _)) by lia. by rewrite Nat2Z.id. Qed.

Lemma get_info_run k (i : nat) v :
  m_entry_infos (table k) !! i = Some v → get_info (Z.of_nat i) k = Ok (v, k).
Proof. intros H. cbv [get_info get_table mbind st_bind st_get mret st_ret]. by rewrite index_of_nat; cbn; rewrite H. Qed.

Lemma get_object_run k (i : nat) o :
  m_objects (table k) !! i = Some o → get_object (Z.of_nat i) k = Ok (o, k).
Proof. intros H. cbv [get_object get_table mbind st_bind st_get mret st_ret]. by rewrite index_of_nat; cbn; rewrite H. Qed.

Lemma get_info_at k h v :
  m_entry_infos (table k) !! handle_index h = Some v → get_info (HandleIndex h) k = Ok (v, k).
Proof. intros H. rewrite <- (get_info_run k _ _ H). f_equal. pose proof (index_range h). unfold handle_index. lia. Qed.

Lemma get_object_at k h o :
  m_objects (table k) !! handle_index h = Some o → get_object (HandleIndex h) k = Ok (o, k).
Proof. intros H. rewrite <- (get_object_run k _ _ H). f_equal. pose proof (index_range h). unfold handle_index. lia. Qed.

Lemma put_info_run k (i : nat) v :
  (i < length (m_entry_infos (table k)))%nat →
  put_info (Z.of_nat i) v k =
  Ok (tt, table_upd k (set_infos (<[i := u16 v]> (m_entry_infos (table k))) (table k))).
Proof.
  intros [x Hx]%lookup_lt_is_Some_2. unfold put_info.
  erewrite st_bind_run by (by apply get_info_run). unfold mod_table, st_mod. by rewrite Nat2Z.id.
Qed.

Lemma put_object_run k (i : nat) o :
  (i < length (m_objects (table k)))%nat →
  put_object (Z.of_nat i) o k =
  Ok (tt, table_upd k (set_objects (<[i := o]> (m_objects (table k))) (table k))).
Proof.
  intros [x Hx]%lookup_lt_is_Some_2. unfold put_object.
  erewrite st_bind_run by (by apply get_object_run). unfold mod_table, st_mod. by rewrite Nat2Z.id.
Qed.

Lemma assert_run b k : b = true → MESOSPHERE_ASSERT assertions b k = Ok (tt, k).
Proof. intros ->. by destruct assertions. Qed.

(** The reference counts, with the table left alone. *)
Definition rc_upd (k : kstate) (o : obj) (v : Z) : kstate :=
  mkState (table k) (<[o := v]> (m_ref_count k)) (m_closed_object k).

Lemma Open_run k o : openable (m_ref_count k) o →
  Open auditing o k = Ok (true, rc_upd k o (GetReferenceCount (m_ref_count k) o + 1)).
Proof.
  intros Ho. unfold openable in Ho. unfold Open, set_ref_count, st_mod.
  cbv [mbind st_bind st_get mret st_ret st_check st_throw].
  rewrite (proj2 (Z.eqb_neq _ 0)) by lia.
  rewrite wrap_small by (unfold in_width; lia). by rewrite (proj2 (Z.ltb_lt _ _)) by lia.
Qed.

Lemma Close_run k o : 0 < GetReferenceCount (m_ref_count k) o < 2 ^ 32 →
  let n := GetReferenceCount (m_ref_count k) o - 1 in
  Close o k = Ok (tt, mkState (table k) (<[o := n]> (m_ref_count k))
                        (if n =? 0 then o :: m_closed_object k else m_closed_object k)).
Proof.
  intros Ho n. unfold Close, set_ref_count, ScheduleDestruction, st_mod.
  cbv [mbind st_bind st_get mret st_ret st_check st_throw].
  rewrite (proj2 (Z.ltb_lt _ _)) by lia.
  rewrite wrap_small by (unfold in_width; lia). fold n. by destruct (n =? 0).
Qed.

(** A lookup succeeds exactly when the abstract entry has the linear id. *)
Lemma IsValidHandle_run k A fl h : table_ok (table k) A fl → HandleReserved h = 0 →
  IsValidHandle assertions h k = Ok (bool_decide (is_Some (denotes A h)), k).
Proof.
  intros Ht Hr. unfold IsValidHandle. erewrite st_bind_run by reflexivity.
  erewrite st_bind_run by (apply assert_run; by rewrite Hr).
  pose proof (index_range h) as Hidx. pose proof (linear_id_range h) as Hlin.
  assert (∀ i e, A !! i = Some e → entry_ok (table k) fl i e) as Hent by apply Ht.
  unfold denotes. rewrite Hr. cbn [Z.eqb].
  assert (Hzero : HandleLinearId h = 0 → ¬ is_Some (match A !! Z.to_nat (HandleIndex h) with
    | Some (Used id o) => if id =? HandleLinearId h then Some o else None | _ => None end)).
  { intros Hz. destruct (A !! _) as [[| |id o]|] eqn:He; try by intros [].
    apply Hent in He as (_ & _ & ? & _). rewrite (proj2 (Z.eqb_neq _ _)) by lia. by intros []. }
  destruct (Z.eqb_spec (HandleRawValue h) 0) as [H0|_].
  { rewrite bool_decide_eq_false_2; [done|]. apply Hzero.
    rewrite HandleRawValue_mod in H0. rewrite HandleLinearId_mod.
    apply Z.mod_divide in H0 as [q ->]; [|lia].
    replace (q * 2 ^ 32) with (q * 2 ^ 17 * 2 ^ 15) by lia. rewrite Z.div_mul by lia.
    replace (q * 2 ^ 17) with (q * 4 * 2 ^ 15) by lia. by apply Z.mod_mul. }
  destruct (Z.eqb_spec (HandleLinearId h) 0) as [H0|Hnz].
  { by rewrite bool_decide_eq_false_2 by auto. }
  rewrite (ok_size _ _ _ Ht).
  destruct (Z.leb_spec (Z.of_nat (length A)) (HandleIndex h)) as [Hle|Hlt].
  { rewrite (lookup_ge_None_2 A) by lia. by rewrite bool_decide_eq_false_2 by (by intros []). }
  destruct (lookup_lt_is_Some_2 A (Z.to_nat (HandleIndex h))) as [e He]; [lia|].
  rewrite He. apply Hent in He. destruct e as [| |id o]; cbn in He.
  - erewrite st_bind_run by (apply get_object_at, He). by rewrite bool_decide_eq_false_2 by (by intros []).
  - erewrite st_bind_run by (apply get_object_at, He). by rewrite bool_decide_eq_false_2 by (by intros []).
  - destruct He as (Ho & Hi & Hid & _). erewrite st_bind_run by (by apply get_object_at). cbn.
    erewrite st_bind_run by (by apply get_info_at).
    rewrite wrap_small by (unfold in_width; lia). unfold mret, st_ret.
    by destruct (id =? HandleLinearId h); case_bool_decide as Hc; [|by destruct Hc|by destruct Hc|].
Qed.

Lemma GetObjectImpl_run k A fl h : table_ok (table k) A fl →
  GetObjectImpl assertions h k = Ok (denotes A h, k).
Proof.
  intros Ht. unfold GetObjectImpl. destruct (Z.eqb_spec (HandleReserved h) 0) as [Hr|Hr]; cbn [negb].
  - erewrite st_bind_run by (by apply (IsValidHandle_run _ A fl)).
    case_bool_decide as Hd; [|by apply eq_None_not_Some in Hd as ->].
    destruct Hd as [o Ho]. rewrite Ho. unfold denotes in Ho. rewrite Hr in Ho. cbn in Ho.
    rewrite Z.eqb_refl in Ho. destruct (A !! _) as [[| |id x]|] eqn:He; simplify_eq. case_match; simplify_eq.
    apply (ok_entries _ _ _ Ht) in He as [Hobj _].
    exact (get_object_at _ _ _ Hobj).
  - unfold denotes. by rewrite (proj2 (Z.eqb_neq _ 0)).
Qed.

(** The primitives, each as a step of the abstract table. *)
Lemma table_upd_upd k t t' : table_upd (table_upd k t) t' = table_upd k t'.
Proof. done. Qed.

Lemma AllocateLinearId_run k A fl : table_ok (table k) A fl →
  let id := m_next_linear_id (table k) in
  ∃ t', AllocateLinearId k = Ok (id, table_upd k t') ∧ table_ok t' A fl ∧ 1 ≤ id < 2 ^ 15 ∧
        m_next_linear_id t' = (if id =? 0x7fff then 1 else id + 1).
Proof.
  intros Ht id. pose proof (ok_id _ _ _ Ht) as Hid. fold id in Hid.
  exists (set_next_linear_id (if MaxLinearId <? u16 (id + 1) then MinLinearId else u16 (id + 1)) (table k)).
  split; [reflexivity|]. rewrite MaxLinearId_eq.
  rewrite (wrap_small 16) by (unfold in_width; lia).
  destruct Ht. split; [|split; [done|cbn; destruct (Z.ltb_spec 0x7fff (id + 1)), (Z.eqb_spec id 0x7fff); unfold MinLinearId; lia]].
  split; try done. cbn. destruct (Z.ltb_spec 0x7fff (id + 1)); unfold MinLinearId; lia.
Qed.

Lemma AllocateEntry_run k A (i : nat) fl : table_ok (table k) A (i :: fl) →
  ∃ t', AllocateEntry assertions k = Ok (Z.of_nat i, table_upd k t') ∧
        table_ok t' (<[i := Reserved]> A) fl ∧ A !! i = Some Free ∧
        m_next_linear_id t' = m_next_linear_id (table k).
Proof.
  intros Ht. pose proof (ok_chain _ _ _ Ht) as (Hhead & v & Hv & Hc).
  pose proof (ok_count _ _ _ Ht) as Hcnt. pose proof (ok_small _ _ _ Ht). cbn in Hcnt.
  pose proof (ok_max _ _ _ Ht) as Hmax. pose proof (ok_size _ _ _ Ht) as Hsz.
  destruct (lookup_lt_is_Some_2 A i) as [e He]; [by eapply ok_free; [done|left]|].
  pose proof (ok_entries _ _ _ Ht _ _ He) as Hok.
  pose proof (ok_nodup _ _ _ Ht) as [Hi Hnd]%NoDup_cons.
  assert (e = Free) as -> by (destruct e; cbn in Hok; [done|set_solver|set_solver]).
  eexists. split.
  { unfold AllocateEntry. erewrite st_bind_run by reflexivity.
    erewrite st_bind_run by (apply assert_run, Z.ltb_lt; lia).
    rewrite Hhead. erewrite st_bind_run by (by apply get_info_run). reflexivity. }
  rewrite (wrap_small 16) by (unfold in_width; lia).
  split; [|done]. destruct Ht. split; cbn; rewrite ?length_insert; try done; try lia.
  - intros j Hj. apply ok_free0. by right.
  - eapply entries_update; [|done|]; cbn; [intros j Hj; set_solver|].
    split; [apply Hok|done].
Qed.

Lemma used_below t A fl i e : table_ok t A fl → A !! i = Some e → e ≠ Free →
  i ∉ fl ∧ (length fl < length A)%nat.
Proof.
  intros Ht He Hne. pose proof (ok_entries _ _ _ Ht _ _ He) as Hok.
  assert (Hi : i ∉ fl) by (destruct e; cbn in Hok; [done|apply Hok|apply Hok]). split; [done|].
  assert (Hsub : (i :: fl) ⊆+ seq 0 (length A)).
  { apply NoDup_submseteq; [constructor; [done|apply Ht]|].
    intros j [->|Hj]%elem_of_cons; apply elem_of_seq; [apply lookup_lt_Some in He|apply (ok_free _ _ _ Ht) in Hj]; lia. }
  apply submseteq_length in Hsub. rewrite length_seq in Hsub. cbn in Hsub. lia.
Qed.

Lemma FreeEntry_run k A (i : nat) fl e : table_ok (table k) A fl → A !! i = Some e → e ≠ Free →
  ∃ t', FreeEntry assertions (Z.of_nat i) k = Ok (tt, table_upd k t') ∧
        table_ok t' (<[i := Free]> A) (i :: fl) ∧
        m_next_linear_id t' = m_next_linear_id (table k).
Proof.
  intros Ht He Hne. destruct (used_below _ _ _ _ _ Ht He Hne) as [Hi Hlen].
  pose proof (lookup_lt_Some _ _ _ He) as Hlt.
  pose proof (ok_count _ _ _ Ht) as Hcnt. pose proof (ok_small _ _ _ Ht).
  pose proof (ok_max _ _ _ Ht) as Hmax. pose proof (ok_objects _ _ _ Ht). pose proof (ok_infos _ _ _ Ht).
  eexists. split.
  { unfold FreeEntry. erewrite st_bind_run by reflexivity.
    erewrite st_bind_run by (apply assert_run, Z.ltb_lt; lia).
    erewrite st_bind_run by (apply put_object_run; lia).
    erewrite st_bind_run by (apply put_info_run; cbn; lia). reflexivity. }
  split; [|done]. destruct Ht. split; cbn; rewrite ?length_insert; try done; try lia.
  - split; [done|]. exists (u16 (m_free_head_index (table k))).
    rewrite list_lookup_insert_eq by lia. split; [done|].
    rewrite s16_word; [by apply free_chain_insert|].
    destruct fl as [|j fl]; cbn in ok_chain0; [lia|]. destruct ok_chain0 as [-> _].
    specialize (ok_free0 j). set_unfold. assert (j < length A)%nat by auto. lia.
  - by constructor.
  - intros j [->|Hj]%elem_of_cons; [lia|auto].
  - rewrite wrap_small by (unfold in_width; lia). lia.
  - rewrite wrap_small by (unfold in_width; lia). lia.
  - eapply entries_update; [|done|]; cbn.
    + intros j Hj. rewrite !list_lookup_insert_ne by done. set_solver.
    + rewrite list_lookup_insert_eq by lia. set_solver.
Qed.

(** Filling a reserved entry, the common end of [Add] and [Register]. *)
Lemma fill_run k A (i : nat) fl id o : table_ok (table k) A fl → A !! i = Some Reserved → 1 ≤ id < 2 ^ 15 →
  ∃ t', (∀ B (f : tableM B), (_ ← put_info (Z.of_nat i) id; _ ← put_object (Z.of_nat i) (Some o); f) k =
                    f (table_upd k t')) ∧
        table_ok t' (<[i := Used id o]> A) fl ∧ m_next_linear_id t' = m_next_linear_id (table k).
Proof.
  intros Ht He Hid. destruct (used_below _ _ _ _ _ Ht He ltac:(done)) as [Hi Hlen].
  pose proof (lookup_lt_Some _ _ _ He) as Hlt. pose proof (ok_small _ _ _ Ht).
  pose proof (ok_objects _ _ _ Ht). pose proof (ok_infos _ _ _ Ht).
  eexists. split.
  { intros B f. erewrite st_bind_run by (apply put_info_run; lia).
    erewrite st_bind_run by (apply put_object_run; cbn; lia). reflexivity. }
  rewrite (wrap_small 16) by (unfold in_width; lia).
  split; [|done]. destruct Ht. split; cbn; rewrite ?length_insert; try done; try lia.
  - by apply free_chain_insert.
  - eapply entries_update; [|done|]; cbn.
    + intros j Hj. by rewrite !list_lookup_insert_ne by done.
    + rewrite !list_lookup_insert_eq by lia. done.
Qed.
End running.

(** ** Reference counts stay above the entries that hold the object *)
Section references.
Implicit Types (A : list entry) (r : gmap obj Z).

Lemma count_insert r o v x :
  GetReferenceCount (<[o := v]> r) x = if decide (x = o) then v else GetReferenceCount r x.
Proof.
  unfold GetReferenceCount. destruct (decide (x = o)) as [->|]; [by rewrite lookup_insert_eq|].
  by rewrite lookup_insert_ne by done.
Qed.

Lemma refs_opened r A i e id o : refs_ok r A → A !! i = Some e → (∀ x, uses x e = false) →
  openable r o → refs_ok (<[o := GetReferenceCount r o + 1]> r) (<[i := Used id o]> A).
Proof.
  intros Hr He Hn Ho x. specialize (Hr x). pose proof (countb_insert (uses x) A i e (Used id o) He) as Hc.
  rewrite Hn in Hc. rewrite count_insert. unfold openable in Ho. cbn in Hc.
  destruct (decide (x = o)) as [->|Hxo]; [rewrite bool_decide_eq_true_2 in Hc by done|
    rewrite bool_decide_eq_false_2 in Hc by done]; lia.
Qed.

Lemma refs_used r A i id o : refs_ok r A → A !! i = Some (Used id o) → 0 < GetReferenceCount r o < 2 ^ 32.
Proof.
  intros Hr He. specialize (Hr o). pose proof (countb_insert (uses o) A i _ Free He) as Hc. cbn in Hc.
  rewrite bool_decide_eq_true_2 in Hc by done. lia.
Qed.

Lemma refs_closed r A i id o : refs_ok r A → A !! i = Some (Used id o) →
  refs_ok (<[o := GetReferenceCount r o - 1]> r) (<[i := Free]> A).
Proof.
  intros Hr He x. pose proof (countb_insert (uses x) A i _ Free He) as Hc.
  pose proof (refs_used _ _ _ _ _ Hr He). specialize (Hr x). rewrite count_insert. cbn in Hc.
  destruct (decide (x = o)) as [->|Hxo]; [rewrite bool_decide_eq_true_2 in Hc by done|
    rewrite bool_decide_eq_false_2 in Hc by done]; lia.
Qed.

Lemma refs_unused r A i e e' : refs_ok r A → A !! i = Some e →
  (∀ x, uses x e = false) → (∀ x, uses x e' = false) → refs_ok r (<[i := e']> A).
Proof.
  intros Hr He Hn Hn' x. specialize (Hr x). pose proof (countb_insert (uses x) A i e e' He) as Hc.
  rewrite Hn, Hn' in Hc. lia.
Qed.
End references.

(** ** The simulation *)
Section simulation.
Context (assertions auditing : bool).
Implicit Types (k : kstate) (s : spec).

(** The operations behind one interface. *)
Definition run_op (x : op) : tableM ret :=
  match x with
  | OAdd o => '(r, h) ← Add assertions auditing o; mret (RHandle r h)
  | ORemove h => b ← Remove assertions h; mret (RBool b)
  | OGet h => o ← GetObjectImpl assertions h; mret (RObj o)
  | OReserve => '(r, h) ← Reserve assertions; mret (RHandle r h)
  | ORegister h o => _ ← Register assertions auditing h o; mret RUnit
  | OUnreserve h => _ ← Unreserve assertions h; mret RUnit
  end.

(** A handle that is issued carries the next linear id, which then advances
    and wraps around from [MaxLinearId] to [MinLinearId]. *)
Definition issues (t : KHandleTable) (r : ret) (t' : KHandleTable) : Prop :=
  let id := m_next_linear_id t in
  match r with
  | RHandle ResultSuccess h =>
      HandleLinearId h = id ∧ m_next_linear_id t' = if id =? MaxLinearId then MinLinearId else id + 1
  | _ => m_next_linear_id t' = id
  end.

Definition simulates (x : op) : Prop := ∀ k s,
  refines k s → enabled s x →
  ∃ r k' s', run_op x k = Ok (r, k') ∧ astep s x r s' ∧ refines k' s' ∧ issues (table k) r (table k').

Lemma full_iff k s fl : table_ok (table k) (entries s) fl →
  (m_count (table k) <? m_table_size (table k)) = match fl with [] => false | _ => true end.
Proof.
  intros Ht. pose proof (ok_count _ _ _ Ht). rewrite (ok_size _ _ _ Ht).
  destruct fl; cbn in *; [apply Z.ltb_ge|apply Z.ltb_lt]; lia.
Qed.

Lemma sim_add o : simulates (OAdd o).
Proof.
  intros k s ((fl & Ht) & Hrc & Hd & Hr) Hen. cbn in Hen. pose proof (full_iff _ _ _ Ht) as Hfull.
  unfold run_op, Add. destruct fl as [|i fl].
  - exists (RHandle ResultOutOfHandles 0), k, s. split_and!.
    + erewrite st_bind_run; [|erewrite st_bind_run by reflexivity; by rewrite Hfull]. done.
    + constructor. by eapply no_free_entry.
    + by split_and!; [exists []|..].
    + done.
  - destruct (AllocateLinearId_run k _ _ Ht) as (t1 & Hrun1 & Ht1 & Hid & Hn1).
    destruct (AllocateEntry_run assertions (table_upd k t1) _ _ _ Ht1) as (t2 & Hrun2 & Ht2 & Hfree & Hn2).
    pose proof (lookup_lt_Some _ _ _ Hfree) as Hlt.
    destruct (fill_run (table_upd k t2) _ i fl (m_next_linear_id (table k)) o Ht2) as (t3 & Hrun3 & Ht3 & Hn3);
      [by apply list_lookup_insert_eq|done|].
    rewrite list_insert_insert_eq in Ht3.
    eexists _, _, _. split; [|split; [by eapply a_add|split]].
    + erewrite (st_bind_run _ _ _ _ (ResultSuccess, _)); [reflexivity|]. erewrite st_bind_run by reflexivity. rewrite Hfull. cbn [negb].
      erewrite st_bind_run by exact Hrun1. erewrite st_bind_run by exact Hrun2. rewrite table_upd_upd.
      rewrite Hrun3. erewrite st_bind_run by (apply Open_run; cbn; by rewrite Hrc). reflexivity.
    + split_and!; cbn; [by exists fl|by rewrite Hrc|done|]. by eapply refs_opened.
    + pose proof (ok_small _ _ _ Ht). unfold issues. split; [apply linear_id_encode; lia|].
      rewrite MaxLinearId_eq. transitivity (m_next_linear_id t3); [done|]. by rewrite Hn3; cbn; rewrite Hn2; cbn; rewrite Hn1.
Qed.

Lemma sim_reserve : simulates OReserve.
Proof.
  intros k s ((fl & Ht) & Hrc & Hd & Hr) _. pose proof (full_iff _ _ _ Ht) as Hfull.
  unfold run_op, Reserve. destruct fl as [|i fl].
  - exists (RHandle ResultOutOfHandles 0), k, s. split_and!.
    + erewrite st_bind_run; [|erewrite st_bind_run by reflexivity; by rewrite Hfull]. done.
    + constructor. by eapply no_free_entry.
    + by split_and!; [exists []|..].
    + done.
  - destruct (AllocateEntry_run assertions k _ _ _ Ht) as (t1 & Hrun1 & Ht1 & Hfree & Hn2).
    destruct (AllocateLinearId_run (table_upd k t1) _ _ Ht1) as (t2 & Hrun2 & Ht2 & Hid & Hn1).
    eexists _, _, _. split; [|split; [by eapply a_reserve|split]].
    + erewrite (st_bind_run _ _ _ _ (ResultSuccess, _)); [reflexivity|]. erewrite st_bind_run by reflexivity. rewrite Hfull. cbn [negb].
      erewrite st_bind_run by exact Hrun1. erewrite st_bind_run by exact Hrun2. reflexivity.
    + split_and!; cbn; [by exists fl|done|done|]. by eapply refs_unused.
    + pose proof (ok_small _ _ _ Ht). pose proof (lookup_lt_Some _ _ _ Hfree).
      unfold issues. rewrite MaxLinearId_eq. cbn [table table_upd] in *. rewrite <- Hn2.
      split; [apply linear_id_encode; lia|]. by rewrite Hn1.
Qed.

Lemma sim_get h : simulates (OGet h).
Proof.
  intros k s Href _. destruct Href as ((fl & Ht) & Hrest).
  exists (RObj (denotes (entries s) h)), k, s. split_and!; [|constructor|by split; [exists fl|]|done].
  unfold run_op. by erewrite st_bind_run by (by apply (GetObjectImpl_run assertions k (entries s) fl)).
Qed.

Lemma denotes_Some A h o : denotes A h = Some o →
  HandleReserved h = 0 ∧ A !! handle_index h = Some (Used (HandleLinearId h) o).
Proof.
  unfold denotes, handle_index. destruct (Z.eqb_spec (HandleReserved h) 0); [|done].
  destruct (A !! _) as [[| |id x]|]; try done. destruct (Z.eqb_spec id (HandleLinearId h)); [|done].
  naive_solver.
Qed.

Lemma index_nat h : Z.of_nat (handle_index h) = HandleIndex h.
Proof. pose proof (index_range h). unfold handle_index. lia. Qed.

Lemma pseudo_reserved h : IsPseudoHandle h = true → HandleReserved h ≠ 0.
Proof. unfold IsPseudoHandle. rewrite orb_true_iff, !Z.eqb_eq. by intros [->| ->]. Qed.

Lemma sim_remove h : simulates (ORemove h).
Proof.
  intros k s Href _. pose proof Href as ((fl & Ht) & Hrc & Hd & Hr). unfold run_op, Remove.
  destruct (denotes (entries s) h) as [o|] eqn:Hden; cycle 1.
  { exists (RBool false), k, s. split_and!; [|by constructor|done|done].
    erewrite st_bind_run; [reflexivity|]. destruct (IsPseudoHandle h); [done|].
    destruct (Z.eqb_spec (HandleReserved h) 0) as [H0|]; [|done]. cbn [negb].
    erewrite st_bind_run by (by apply (IsValidHandle_run _ _ (entries s) fl)).
    by rewrite Hden, bool_decide_eq_false_2 by (by intros []). }
  destruct (denotes_Some _ _ _ Hden) as [H0 He]. pose proof (ok_entries _ _ _ Ht _ _ He) as (Hobj & _).
  destruct (FreeEntry_run assertions k _ _ _ _ Ht He ltac:(done)) as (t1 & Hrun & Ht1 & Hn1).
  rewrite index_nat in Hrun.
  eexists _, _, _. split; [|split; [by eapply a_remove|split]].
  - erewrite st_bind_run; [reflexivity|].
    destruct (IsPseudoHandle h) eqn:Hp; [by apply pseudo_reserved in Hp|]. rewrite (proj2 (Z.eqb_eq _ 0) H0). cbn [negb].
    erewrite st_bind_run by (by apply (IsValidHandle_run _ _ (entries s) fl)).
    rewrite Hden, bool_decide_eq_true_2 by done.
    erewrite st_bind_run by (by apply get_object_at). erewrite st_bind_run by exact Hrun.
    erewrite st_bind_run by (apply Close_run; cbn; rewrite Hrc; by eapply refs_used). reflexivity.
  - split_and!; cbn; [by eexists|by rewrite Hrc|by rewrite Hrc, Hd|]. by eapply refs_closed.
  - done.
Qed.

Lemma out_of_table k s fl h : table_ok (table k) (entries s) fl →
  (HandleIndex h <? m_table_size (table k)) = bool_decide (is_Some (entries s !! handle_index h)).
Proof.
  intros Ht. rewrite (ok_size _ _ _ Ht). pose proof (index_range h). unfold handle_index.
  case_bool_decide as Hs; [apply lookup_lt_is_Some in Hs; apply Z.ltb_lt; lia|].
  apply Z.ltb_ge. destruct (decide (length (entries s) ≤ Z.to_nat (HandleIndex h))%nat); [lia|].
  destruct Hs. apply lookup_lt_is_Some. lia.
Qed.

Lemma sim_register h o : simulates (ORegister h o).
Proof.
  intros k s Href (Hopen & H0 & Hnz & He). pose proof Href as ((fl & Ht) & Hrc & Hd & Hr).
  pose proof (out_of_table _ _ _ h Ht) as Hout. pose proof (linear_id_range h) as Hlin.
  unfold run_op, Register. destruct He as [He|He].
  - destruct (fill_run k _ _ fl (HandleLinearId h) o Ht He ltac:(lia)) as (t1 & Hrun & Ht1 & Hn1).
    rewrite index_nat in Hrun.
    eexists _, _, _. split; [|split; [by apply a_register|split]].
    + erewrite st_bind_run; [reflexivity|]. erewrite st_bind_run by reflexivity.
      erewrite st_bind_run by (apply assert_run; by rewrite H0).
      erewrite st_bind_run by (apply assert_run; by rewrite (proj2 (Z.eqb_neq _ _))).
      rewrite Hout, He, bool_decide_eq_true_2 by done.
      erewrite st_bind_run by (apply get_object_at; by eapply (ok_entries _ _ _ Ht _ _ He)).
      erewrite st_bind_run by (apply assert_run; by rewrite bool_decide_eq_true_2).
      rewrite Hrun. erewrite st_bind_run by (apply Open_run; cbn; by rewrite Hrc). reflexivity.
    + split_and!; cbn; [by eexists|by rewrite Hrc|done|]. by eapply refs_opened.
    + done.
  - exists RUnit, k, s. split_and!; [|by apply a_register_out|done|done].
    erewrite st_bind_run; [reflexivity|]. erewrite st_bind_run by reflexivity.
    erewrite st_bind_run by (apply assert_run; by rewrite H0).
    erewrite st_bind_run by (apply assert_run; by rewrite (proj2 (Z.eqb_neq _ _))).
    by rewrite Hout, He, bool_decide_eq_false_2 by (by intros []).
Qed.

Lemma sim_unreserve h : simulates (OUnreserve h).
Proof.
  intros k s Href (H0 & Hnz & He). pose proof Href as ((fl & Ht) & Hrc & Hd & Hr).
  pose proof (out_of_table _ _ _ h Ht) as Hout. unfold run_op, Unreserve. destruct He as [He|He].
  - destruct (FreeEntry_run assertions k _ _ _ _ Ht He ltac:(done)) as (t1 & Hrun & Ht1 & Hn1).
    rewrite index_nat in Hrun.
    eexists _, _, _. split; [|split; [by apply a_unreserve|split]].
    + erewrite st_bind_run; [reflexivity|]. erewrite st_bind_run by reflexivity.
      erewrite st_bind_run by (apply assert_run; by rewrite H0).
      erewrite st_bind_run by (apply assert_run; by rewrite (proj2 (Z.eqb_neq _ _))).
      rewrite Hout, He, bool_decide_eq_true_2 by done.
      erewrite st_bind_run by (apply get_object_at; by eapply (ok_entries _ _ _ Ht _ _ He)).
      erewrite st_bind_run by (apply assert_run; by rewrite bool_decide_eq_true_2). exact Hrun.
    + split_and!; cbn; [by eexists|done|done|]. by eapply refs_unused.
    + done.
  - exists RUnit, k, s. split_and!; [|by apply a_unreserve_out|done|done].
    erewrite st_bind_run; [reflexivity|]. erewrite st_bind_run by reflexivity.
    erewrite st_bind_run by (apply assert_run; by rewrite H0).
    erewrite st_bind_run by (apply assert_run; by rewrite (proj2 (Z.eqb_neq _ _))).
    by rewrite Hout, He, bool_decide_eq_false_2 by (by intros []).
Qed.
End simulation.

(** ** Initialisation *)
Section initialisation.
Implicit Types (k : kstate).

(** The loop has freed the entries below [i]. *)
Lemma free_entries_run n (i : nat) k :
  length (m_entry_infos (table k)) = 1024%nat → length (m_objects (table k)) = 1024%nat →
  (i + n ≤ 1024)%nat →
  chain (m_entry_infos (table k)) (m_free_head_index (table k)) (rev (seq 0 i)) →
  m_free_head_index (table k) = Z.of_nat i - 1 →
  (∀ j, (j < i)%nat → m_objects (table k) !! j = Some None) →
  ∃ infos objects,
    free_entries_loop n (Z.of_nat i) k =
    Ok (tt, table_upd k (set_infos infos (set_objects objects
              (set_free_head (Z.of_nat (i + n) - 1) (table k))))) ∧
    length infos = 1024%nat ∧ length objects = 1024%nat ∧
    chain infos (Z.of_nat (i + n) - 1) (rev (seq 0 (i + n))) ∧
    (∀ j, (j < i + n)%nat → objects !! j = Some None).
Proof.
  revert i k. induction n as [|n IH]; intros i k Hi Ho Hn Hc Hh Hobj.
  - rewrite Nat.add_0_r. exists (m_entry_infos (table k)), (m_objects (table k)).
    rewrite <- Hh. split_and!; try done. unfold free_entries_loop. by destruct k as [[]].
  - cbn [free_entries_loop].
    erewrite st_bind_run by (apply put_object_run; lia).
    erewrite st_bind_run by (apply put_info_run; cbn; lia).
    erewrite st_bind_run by reflexivity. cbn.
    replace (Z.of_nat i + 1) with (Z.of_nat (S i)) by lia.
    set (k1 := mkState _ _ _). destruct (IH (S i) k1) as (infos & objects & Hrun & Hrest).
    + cbn. by rewrite length_insert.
    + cbn. by rewrite length_insert.
    + lia.
    + rewrite seq_S, rev_app_distr. cbn. split; [done|]. exists (u16 (Z.of_nat i - 1)).
      rewrite list_lookup_insert_eq by lia. split; [done|]. rewrite s16_word by lia. rewrite <- Hh.
      apply free_chain_insert; [|done]. intros Hin%list_elem_of_In%in_rev%in_seq. lia.
    + cbn. lia.
    + intros j Hj. cbn. destruct (decide (j = i)) as [->|]; [apply list_lookup_insert_eq; lia|].
      rewrite list_lookup_insert_ne by done. apply Hobj. lia.
    + replace (i + S n)%nat with (S i + n)%nat by lia. exists infos, objects. split; [|done].
      rewrite Hrun. done.
Qed.

Definition initial_size (size : Z) : nat := if size <=? 0 then 1024 else Z.to_nat size.

Lemma initialize_refines k size :
  length (m_entry_infos (table k)) = 1024%nat → length (m_objects (table k)) = 1024%nat →
  (∀ o, 0 ≤ GetReferenceCount (m_ref_count k) o < 2 ^ 32) →
  if MaxTableSize <? size then Initialize size k = Ok (ResultOutOfMemory, k)
  else ∃ k', Initialize size k = Ok (ResultSuccess, k') ∧
         refines k' (mkSpec (replicate (initial_size size) Free) (m_ref_count k) (m_closed_object k)).
Proof.
  intros Hi Ho Hrc. unfold Initialize. destruct (Z.ltb_spec MaxTableSize size) as [|Hsz]; [done|].
  unfold MaxTableSize in *. set (n := initial_size size).
  assert ((n ≤ 1024)%nat ∧ u16 (if size <=? 0 then 1024 else size) = Z.of_nat n) as [Hn Hu].
  { unfold n, initial_size. destruct (Z.leb_spec size 0); [done|].
    rewrite wrap_small by (unfold in_width; lia). lia. }
  erewrite st_bind_run by reflexivity. erewrite st_bind_run by reflexivity. cbn [table m_table_size].
  rewrite Hu, Nat2Z.id. set (k1 := mkState _ _ _).
  destruct (free_entries_run n 0 k1) as (infos & objects & Hrun & Hli & Hlo & Hc & Hobj); try done.
  { intros j ?. lia. }
  erewrite st_bind_run by exact Hrun. eexists. split; [reflexivity|]. split_and!; try done; cbn.
  - exists (rev (seq 0 n)).
    assert (Hmem : ∀ j, j ∈ rev (seq 0 n) ↔ (j < n)%nat).
    { intros j. rewrite list_elem_of_In, <- in_rev, in_seq. lia. }
    split; cbn; rewrite ?length_replicate, ?length_rev, ?length_seq; try done; try lia.
    + apply NoDup_ListNoDup, NoDup_rev, seq_NoDup.
    + intros j. by rewrite Hmem.
    + intros j e [-> Hj]%lookup_replicate. split; [by apply Hobj|by apply Hmem].
  - intros o. specialize (Hrc o).
    assert (countb (uses o) (replicate n Free) = 0%nat) as -> by (clear; induction n; cbn; auto).
    lia.
Qed.

(** [Initialize] with at most [MaxTableSize] entries gives the empty
    table: every entry free, no object held and no reference touched, whatever
    the arrays held before; more entries are refused with [ResultOutOfMemory]
    and change nothing. *)
Theorem Initialize_empty k size :
  length (m_entry_infos (table k)) = 1024%nat → length (m_objects (table k)) = 1024%nat →
  (∀ o, 0 ≤ GetReferenceCount (m_ref_count k) o < 2 ^ 32) →
  if MaxTableSize <? size then Initialize size k = Ok (ResultOutOfMemory, k)
  else ∃ k', Initialize size k = Ok (ResultSuccess, k') ∧
         refines k' (mkSpec (replicate (initial_size size) Free) (m_ref_count k) (m_closed_object k)).
Proof. apply initialize_refines. Qed.
End initialisation.

Module SampleTable.
Definition k0 : kstate :=
  mkState (mkTable (replicate 1024 0) (replicate 1024 None) (-1) 0 0 0 0)
    (<[1%nat := 1]> (<[2%nat := 5]> ∅)) [].
Lemma k0_counts o : 0 ≤ GetReferenceCount (m_ref_count k0) o < 2 ^ 32.
Proof.
  unfold GetReferenceCount, k0; cbn. destruct (decide (o = 1%nat)) as [->|]; [done|].
  destruct (decide (o = 2%nat)) as [->|]; [done|]. by rewrite !lookup_insert_ne, lookup_empty by done.
Qed.

(** The table of three entries that [Initialize] makes of it. *)
Definition k1 : kstate := match Initialize 3 k0 with Ok (_, k) => k | Err _ => k0 end.
Definition s1 : spec := mkSpec [Free; Free; Free] (m_ref_count k0) [].
Lemma k1_refines : refines k1 s1.
Proof.
  destruct (initialize_refines k0 3 eq_refl eq_refl k0_counts) as (k' & Hrun & Href).
  unfold k1. by rewrite Hrun.
Qed.
End SampleTable.

Lemma Initialize_empty_witness :
  ∃ k', Initialize 3 SampleTable.k0 = Ok (ResultSuccess, k') ∧
    refines k' (mkSpec [Free; Free; Free] (m_ref_count SampleTable.k0) []).
Proof. exact (Initialize_empty SampleTable.k0 3 eq_refl eq_refl SampleTable.k0_counts). Defined.

(** ** The contract *)
Section contract.
Context (assertions auditing : bool).
Implicit Types (k : kstate) (s : spec).

Lemma run_op_simulates x : simulates assertions auditing x.
Proof.
  destruct x; [apply sim_add|apply sim_remove|apply sim_get|apply sim_reserve|
    apply sim_register|apply sim_unreserve].
Qed.

(** (C3) The handle table implements the abstract one, with and without
    assertions: [Add], [Remove], lookups, [Reserve], [Register] and [Unreserve]
    never fault when their callers respect the protocol, and each result is one
    the specification allows.  [Add] fails exactly when no entry is free and
    otherwise gives a free entry to the object; [Remove] frees exactly the
    entry of a valid handle and reports invalid ones; a lookup finds the object
    of the handle's entry when the linear id matches; and the reference counts
    change by exactly the references that the table holds. *)
Theorem handle_table_refines x k s :
  refines k s → enabled s x →
  ∃ r k' s', run_op assertions auditing x k = Ok (r, k') ∧ astep s x r s' ∧ refines k' s'.
Proof.
  intros Href Hen. destruct (run_op_simulates x k s Href Hen) as (r & k' & s' & Hr & Ha & Hf & _).
  by exists r, k', s'.
Qed.

(** Runs of the table, with the results of the calls. *)
Inductive exec : kstate → spec → list ret → Prop :=
  | exec_nil k s : exec k s []
  | exec_cons k s x r k' s' rs :
      enabled s x → run_op assertions auditing x k = Ok (r, k') → astep s x r s' → refines k' s' →
      exec k' s' rs → exec k s (r :: rs).

(** The handles that a run gave out. *)
Definition issued (rs : list ret) : list Z :=
  omap (λ r, match r with RHandle ResultSuccess h => Some h | _ => None end) rs.

Lemma next_id_mod id n : 1 ≤ id ≤ 0x7fff →
  (((if id =? 0x7fff then 1 else id + 1) - 1 + n) mod 0x7fff) = (id - 1 + (n + 1)) mod 0x7fff.
Proof.
  intros Hid. destruct (Z.eqb_spec id 0x7fff) as [->|].
  - replace (0x7fff - 1 + (n + 1)) with (n + 1 * 0x7fff) by lia. rewrite Z.mod_add by lia. f_equal; lia.
  - f_equal. lia.
Qed.

Lemma issued_ids k s rs : refines k s → exec k s rs →
  ∀ a h, issued rs !! a = Some h →
  HandleLinearId h = (m_next_linear_id (table k) - 1 + Z.of_nat a) mod 0x7fff + 1.
Proof.
  intros Href Hex. revert Href.
  induction Hex as [k s|k s x r k' s' rs Hen Hrun Hst Href' Hex IH]; intros Href a h Ha; [done|].
  specialize (IH Href'). pose proof Href as ((fl & Ht) & _). pose proof (ok_id _ _ _ Ht) as Hid.
  destruct (run_op_simulates x k s Href Hen) as (r1 & k1 & s1 & Hr1 & _ & _ & Hiss).
  rewrite Hrun in Hr1. simplify_eq. unfold issues in Hiss. rewrite MaxLinearId_eq in Hiss.
  destruct r1 as [[| |] h'|b|o|]; cbn in Ha; try (rewrite <- Hiss; by apply IH).
  destruct Hiss as [Hh Hn]. destruct a as [|a]; cbn in Ha.
  - simplify_eq. rewrite Z.mod_small by lia. lia.
  - rewrite (IH _ _ Ha), Hn. f_equal. unfold MinLinearId. rewrite next_id_mod by lia. f_equal. lia.
Qed.

(** (C36) Stale handles are not reissued soon: in every run of the table two
    handles given out fewer than [MaxLinearId] (32767) issues apart differ,
    whatever was removed in between. *)
Theorem handles_not_reissued k s rs a b h h' :
  refines k s → exec k s rs → (a < b)%nat → Z.of_nat b - Z.of_nat a < MaxLinearId →
  issued rs !! a = Some h → issued rs !! b = Some h' → h ≠ h'.
Proof.
  rewrite MaxLinearId_eq. intros Href Hex Hab Hdist Ha Hb ->.
  pose proof (issued_ids k s rs Href Hex _ _ Ha) as H1.
  rewrite (issued_ids k s rs Href Hex _ _ Hb) in H1.
  set (i := m_next_linear_id (table k) - 1) in *.
  assert ((i + Z.of_nat b) mod 0x7fff = (i + Z.of_nat a) mod 0x7fff) as Hm by lia.
  pose proof (Z.div_mod (i + Z.of_nat b) 0x7fff). pose proof (Z.div_mod (i + Z.of_nat a) 0x7fff).
  nia.
Qed.
End contract.

Module SampleRun.
Import SampleTable.
Definition after {A} (m : tableM A) (k : kstate) : kstate := match m k with Ok (_, k') => k' | Err _ => k end.
Definition result {A} (m : tableM A) (k : kstate) : option A := match m k with Ok (r, _) => Some r | Err _ => None end.

(** An enabled operation with a known result extends a run. *)
Lemma exec_known x r k k' s :
  k' = after (run_op true true x) k → refines k s → enabled s x →
  result (run_op true true x) k = Some r →
  ∃ s', refines k' s' ∧ ∀ rs, exec true true k' s' rs → exec true true k s (r :: rs).
Proof.
  intros -> Href Hen Hres. destruct (run_op_simulates true true x k s Href Hen) as (r' & k' & s' & Hr & Ha & Hf & _).
  unfold result in Hres. unfold after. rewrite Hr in *. simplify_eq. exists s'. split_and!; [done..|].
  intros rs. by eapply exec_cons.
Qed.

Definition k2 : kstate := after (run_op true true (OAdd 1)) k1.
Lemma k2_eq : k2 = after (run_op true true (OAdd 1)) k1.
Proof. unfold k2. reflexivity. Qed.

Lemma run_add_reserve : ∃ rs, exec true true k1 s1 rs ∧ issued rs = [0x8002; 0x10001].
Proof.
  destruct (exec_known (OAdd 1) (RHandle ResultSuccess 0x8002) k1 k2 s1 k2_eq k1_refines) as (s2 & H2 & He2);
    [by vm_compute|by vm_compute|].
  destruct (exec_known OReserve (RHandle ResultSuccess 0x10001) k2 _ s2 eq_refl H2 I) as (s3 & _ & He3); [by vm_compute|].
  exists [RHandle ResultSuccess 0x8002; RHandle ResultSuccess 0x10001].
  split; [|reflexivity]. apply He2, He3, exec_nil.
Qed.
End SampleRun.

Lemma handle_table_refines_witness :
  refines SampleTable.k1 SampleTable.s1 ∧
  ∃ r k' s', run_op true true (OAdd 1) SampleTable.k1 = Ok (r, k') ∧
    astep SampleTable.s1 (OAdd 1) r s' ∧ refines k' s'.
Proof.
  split; [apply SampleTable.k1_refines|].
  apply (handle_table_refines true true (OAdd 1)); [apply SampleTable.k1_refines|by vm_compute].
Defined.

Lemma handles_not_reissued_witness :
  ∃ rs, exec true true SampleTable.k1 SampleTable.s1 rs ∧ issued rs = [0x8002; 0x10001] ∧ 0x8002 ≠ 0x10001.
Proof.
  destruct SampleRun.run_add_reserve as (rs & Hex & Hiss). exists rs. split; [exact Hex|]. split; [exact Hiss|].
  apply (handles_not_reissued true true SampleTable.k1 SampleTable.s1 rs 0 1);
    [apply SampleTable.k1_refines|done|lia|reflexivity|by rewrite Hiss|by rewrite Hiss].
Defined.

(** ** Opening many handles, and finalising *)
Section many.
Context (assertions auditing : bool).
Implicit Types (k : kstate) (s : spec) (r : gmap obj Z).

Definition bump r (l : list obj) : gmap obj Z :=
  foldl (λ r o, <[o := GetReferenceCount r o + 1]> r) r l.

Lemma bump_count r l x :
  GetReferenceCount (bump r l) x = GetReferenceCount r x + Z.of_nat (countb (λ o, bool_decide (o = x)) l).
Proof.
  revert r. induction l as [|o l IH]; intros r; cbn; [lia|]. unfold bump in IH. rewrite IH, count_insert.
  destruct (decide (x = o)) as [->|]; [rewrite bool_decide_eq_true_2 by done|rewrite bool_decide_eq_false_2 by done]; lia.
Qed.

(** The object that a handle gives after the cast. *)
Definition wanted_object (A : list entry) (cast : obj → bool) (h : Z) : option obj :=
  o ← denotes A h; if cast o then Some o else None.

Lemma wanted_live k s cast h o : refines k s → wanted_object (entries s) cast h = Some o →
  denotes (entries s) h = Some o ∧ cast o = true ∧ 0 < GetReferenceCount (rc s) o.
Proof.
  intros (_ & _ & _ & Hr) Hw. unfold wanted_object in Hw.
  destruct (denotes (entries s) h) as [x|] eqn:Hd; [|done]. cbn in Hw.
  destruct (cast x) eqn:Hc; simplify_eq. apply denotes_Some in Hd as [_ He].
  split_and!; [done..|]. by eapply refs_used.
Qed.

Lemma open_loop_run k s fl cast hs out :
  table_ok (table k) (entries s) fl →
  (∀ h o, h ∈ hs → wanted_object (entries s) cast h = Some o → 0 < GetReferenceCount (m_ref_count k) o) →
  (∀ o, GetReferenceCount (m_ref_count k) o + Z.of_nat (length hs) < 2 ^ 32) →
  ∃ l, open_loop assertions auditing cast hs out k =
       Ok ((bool_decide (mapM (wanted_object (entries s) cast) hs = Some l), out ++ l),
           mkState (table k) (bump (m_ref_count k) l) (m_closed_object k)) ∧
       (is_Some (mapM (wanted_object (entries s) cast) hs) → mapM (wanted_object (entries s) cast) hs = Some l) ∧
       (∀ o, o ∈ l → 0 < GetReferenceCount (m_ref_count k) o) ∧ (length l ≤ length hs)%nat.
Proof.
  intros Ht. revert k out Ht. induction hs as [|h hs IH]; intros k out Ht Hlive Hmax.
  { exists []. cbn. rewrite bool_decide_eq_true_2, app_nil_r by done. split_and!; try done; [by destruct k|set_solver]. }
  cbn [open_loop]. erewrite st_bind_run by (by apply (GetObjectImpl_run _ _ (entries s) fl)).
  assert (Hstop : wanted_object (entries s) cast h = None →
    ∃ l, (mret (false, out) : tableM (bool * list obj)) k = Ok ((bool_decide (mapM (wanted_object (entries s) cast) (h :: hs) = Some l), out ++ l),
           mkState (table k) (bump (m_ref_count k) l) (m_closed_object k)) ∧
       (is_Some (mapM (wanted_object (entries s) cast) (h :: hs)) → mapM (wanted_object (entries s) cast) (h :: hs) = Some l) ∧
       (∀ o, o ∈ l → 0 < GetReferenceCount (m_ref_count k) o) ∧ (length l ≤ length (h :: hs))%nat).
  { intros Hn. exists []. cbn. rewrite Hn. cbn. rewrite bool_decide_eq_false_2, app_nil_r by done.
    split_and!; [by destruct k|by intros []|set_solver|lia]. }
  destruct (denotes (entries s) h) as [o|] eqn:Hd; [|apply Hstop; unfold wanted_object; by rewrite Hd].
  destruct (cast o) eqn:Hc; [|apply Hstop; unfold wanted_object; rewrite Hd; cbn; by rewrite Hc].
  assert (Hw : wanted_object (entries s) cast h = Some o) by (unfold wanted_object; rewrite Hd; cbn; by rewrite Hc).
  assert (0 < GetReferenceCount (m_ref_count k) o) as Ho by (eapply Hlive; [by left|done]).
  cbn [length] in Hmax.
  erewrite st_bind_run; [|apply Open_run; unfold openable; specialize (Hmax o); lia].
  set (k' := rc_upd k o _).
  destruct (IH k' (out ++ [o])) as (l & Hrun & Hall & Hpos & Hlen).
  { done. }
  { intros h' o' Hin Hw'. cbn. rewrite count_insert. case_decide; [lia|]. eapply Hlive; [by right|done]. }
  { intros x. cbn. rewrite count_insert. case_decide as Hx; [subst x; specialize (Hmax o); lia|specialize (Hmax x); lia]. }
  exists (o :: l). rewrite Hrun. cbn. rewrite Hw. cbn. rewrite <- app_assoc. cbn. split_and!.
  - repeat f_equal. apply bool_decide_ext. destruct (mapM _ hs); cbn; split; try done; by intros [= ->].
  - intros [x Hx]. destruct (mapM (wanted_object (entries s) cast) hs) eqn:Hm; [|done]. cbn.
    specialize (Hall ltac:(done)). by simplify_eq.
  - intros x [->|Hx]%elem_of_cons; [done|]. specialize (Hpos x Hx). cbn in Hpos. rewrite count_insert in Hpos.
    case_decide; [by subst|done].
  - lia.
Qed.

(** Closing what was opened on top of live references destroys nothing. *)
Lemma close_all_run t c l r base :
  (∀ o, GetReferenceCount r o = base o + Z.of_nat (countb (λ x, bool_decide (x = o)) l)) →
  (∀ o, o ∈ l → 0 < base o) → (∀ o, GetReferenceCount r o < 2 ^ 32) →
  ∃ r', st_iter Close l (mkState t r c) = Ok (tt, mkState t r' c) ∧ ∀ o, GetReferenceCount r' o = base o.
Proof.
  revert r. induction l as [|x l IH]; intros r Hr Hb Hmax.
  - exists r. split; [done|]. intros o. rewrite Hr. cbn. lia.
  - cbn [st_iter]. pose proof (Hr x) as Hx. cbn in Hx. rewrite bool_decide_eq_true_2 in Hx by done.
    specialize (Hb x ltac:(by left)) as Hbx.
    erewrite st_bind_run by (apply Close_run; cbn; specialize (Hmax x); lia). cbn [table m_ref_count m_closed_object].
    rewrite (proj2 (Z.eqb_neq _ 0)) by lia. apply IH.
    + intros o. rewrite count_insert. specialize (Hr o). cbn in Hr. destruct (decide (o = x)) as [->|Ho].
      * rewrite bool_decide_eq_true_2 in Hr by done. lia.
      * rewrite bool_decide_eq_false_2 in Hr by done. lia.
    + intros o Ho. apply Hb. by right.
    + intros o. rewrite count_insert. case_decide; [|done]. specialize (Hmax x). lia.
Qed.

(** (C37) [GetMultipleObjects] is all or nothing: when every handle denotes an
    object of the wanted class it returns these objects in order with one more
    reference each; otherwise it returns nothing, and every reference count and
    the set of objects to destroy are what they were.  The table never
    changes. *)
Theorem GetMultipleObjects_all_or_nothing k s cast hs :
  refines k s → (∀ o, GetReferenceCount (rc s) o + Z.of_nat (length hs) < 2 ^ 32) →
  ∃ k', GetMultipleObjects assertions auditing cast hs k =
          Ok (mapM (wanted_object (entries s) cast) hs, k') ∧
        table k' = table k ∧ m_closed_object k' = m_closed_object k ∧
        ∀ o, GetReferenceCount (m_ref_count k') o = GetReferenceCount (m_ref_count k) o +
          Z.of_nat (countb (λ x, bool_decide (x = o)) (default [] (mapM (wanted_object (entries s) cast) hs))).
Proof.
  intros Href Hmax. pose proof Href as ((fl & Ht) & Hrc & _).
  destruct (open_loop_run k s fl cast hs []) as (l & Hrun & Hall & Hpos & Hlen).
  { done. } { intros h o _ Hw. rewrite Hrc. by eapply wanted_live. } { by rewrite Hrc. }
  unfold GetMultipleObjects. erewrite st_bind_run by exact Hrun. cbn.
  case_bool_decide as Hm.
  - rewrite Hm. eexists. split_and!; [done..|]. intros o. cbn. apply bump_count.
  - destruct (mapM (wanted_object (entries s) cast) hs) as [l'|] eqn:Hm'.
    { exfalso. apply Hm. by apply Hall. }
    destruct (close_all_run (table k) (m_closed_object k) l (bump (m_ref_count k) l)
      (GetReferenceCount (m_ref_count k))) as (r' & Hclose & Hr').
    + apply bump_count.
    + done.
    + intros o. rewrite bump_count. specialize (Hmax o). rewrite Hrc.
      assert (countb (λ x, bool_decide (x = o)) l ≤ length l)%nat; [|lia].
      clear. induction l as [|x l IH]; cbn; [lia|]. case_bool_decide; lia.
    + erewrite st_bind_run by exact Hclose. eexists. split_and!; [done..|]. intros o. cbn. rewrite Hr'. lia.
Qed.

Definition held (e : entry) : option obj := match e with Used _ o => Some o | _ => None end.

Lemma finalize_loop_run A (i : nat) k :
  (∀ j e, A !! j = Some e → m_objects (table k) !! (i + j)%nat = Some (held e)) →
  refs_ok (m_ref_count k) A →
  ∃ k', finalize_loop (length A) (Z.of_nat i) k = Ok (tt, k') ∧ table k' = table k ∧
        ∀ o, GetReferenceCount (m_ref_count k') o =
             GetReferenceCount (m_ref_count k) o - Z.of_nat (countb (uses o) A).
Proof.
  revert i k. induction A as [|e A IH]; intros i k Hobj Hr.
  { exists k. split_and!; [done..|]. intros o. cbn. lia. }
  cbn [finalize_loop length].
  erewrite st_bind_run by (apply get_object_run; rewrite <- (Hobj 0%nat e eq_refl); f_equal; lia).
  replace (Z.of_nat i + 1) with (Z.of_nat (S i)) by lia.
  assert (Hnext : ∀ j e', A !! j = Some e' → m_objects (table k) !! (S i + j)%nat = Some (held e')).
  { intros j e' He. rewrite <- (Hobj (S j) e' He). f_equal. lia. }
  destruct e as [| |id x]; cbn [held].
  1,2: erewrite st_bind_run by reflexivity; apply (IH (S i) k Hnext); intros o; apply (Hr o).
  pose proof (refs_used _ _ 0 id x Hr eq_refl) as Hx.
  erewrite st_bind_run by (by apply Close_run). set (k1 := mkState _ _ _).
  assert (Hstep : ∀ o, GetReferenceCount (m_ref_count k1) o =
    GetReferenceCount (m_ref_count k) o - if uses o (Used id x) then 1 else 0).
  { intros o. cbn. rewrite count_insert. destruct (decide (o = x)) as [->|];
      [rewrite bool_decide_eq_true_2 by done|rewrite bool_decide_eq_false_2 by done]; lia. }
  destruct (IH (S i) k1 Hnext) as (k' & Hrun & Ht & Hcnt).
  { intros o. specialize (Hr o). rewrite Hstep. cbn [countb] in Hr. destruct (uses o (Used id x)); lia. }
  exists k'. split_and!; [done..|]. intros o. rewrite Hcnt, Hstep. cbn [countb]. destruct (uses o (Used id x)); lia.
Qed.

(** [Finalize] gives back every reference that the table holds, no more
    and no less, and leaves a table in which no handle is valid. *)
Theorem Finalize_releases k s :
  refines k s →
  ∃ k', Finalize k = Ok (ResultSuccess, k') ∧
    (∀ o, GetReferenceCount (m_ref_count k') o =
          GetReferenceCount (m_ref_count k) o - Z.of_nat (countb (uses o) (entries s))) ∧
    ∀ h, GetObjectImpl assertions h k' = Ok (None, k').
Proof.
  intros ((fl & Ht) & Hrc & _ & Hr). set (k1 := table_upd k (set_table_size 0 (table k))).
  destruct (finalize_loop_run (entries s) 0 k1) as (k' & Hrun & Htab & Hcnt).
  { intros j e He. apply (ok_entries _ _ _ Ht) in He. destruct e; cbn in *; apply He. }
  { cbn. by rewrite Hrc. }
  exists k'. split_and!; [|done|].
  - unfold Finalize. erewrite st_bind_run by reflexivity. erewrite st_bind_run by reflexivity.
    rewrite (ok_size _ _ _ Ht), Nat2Z.id. by erewrite st_bind_run by exact Hrun.
  - intros h. unfold GetObjectImpl. destruct (Z.eqb_spec (HandleReserved h) 0) as [H0|]; [|done]. cbn [negb].
    erewrite st_bind_run; [|unfold IsValidHandle; erewrite st_bind_run by reflexivity;
      erewrite st_bind_run by (apply assert_run; by rewrite H0);
      rewrite Htab; cbn; rewrite (proj2 (Z.leb_le 0 _)) by apply index_range;
      by repeat case_match]. done.
Qed.
End many.

Lemma GetMultipleObjects_all_or_nothing_witness :
  ∃ k', GetMultipleObjects true true (λ _, true) [0x8002] SampleTable.k1 = Ok (None, k') ∧
    table k' = table SampleTable.k1 ∧ m_closed_object k' = [] ∧
    ∀ o, GetReferenceCount (m_ref_count k') o = GetReferenceCount (m_ref_count SampleTable.k1) o + 0.
Proof.
  apply (GetMultipleObjects_all_or_nothing true true SampleTable.k1 SampleTable.s1 (λ _, true) [0x8002]
    SampleTable.k1_refines).
  intros o. unfold SampleTable.s1; cbn [rc length]. unfold GetReferenceCount, SampleTable.k0; cbn.
  destruct (decide (o = 1%nat)) as [->|]; [done|]. destruct (decide (o = 2%nat)) as [->|]; [done|].
  by rewrite !lookup_insert_ne, lookup_empty by done.
Defined.

Lemma Finalize_releases_witness :
  ∃ k', Finalize SampleTable.k1 = Ok (ResultSuccess, k') ∧
    (∀ o, GetReferenceCount (m_ref_count k') o = GetReferenceCount (m_ref_count SampleTable.k1) o - 0) ∧
    ∀ h, GetObjectImpl true h k' = Ok (None, k').
Proof. exact (Finalize_releases true SampleTable.k1 SampleTable.s1 SampleTable.k1_refines). Defined.
