(* ===== verification/Vapours.v ===== *)
(** * Helpers of libvapours

    [util_alignment.hpp] and [util_bitutil.hpp] at 64 bits: alignment to a power
    of two with masks, and the positions of the lowest and the highest bit. *)

From S2P Require Import Prelude.

Module Util.

Definition AlignUp (value alignment : Z) : Z :=
  let invmask := u64 (alignment - 1) in Z.land (u64 (value + invmask)) (u64 (Z.lnot invmask)).
Definition AlignDown (value alignment : Z) : Z :=
  let invmask := u64 (alignment - 1) in Z.land value (u64 (Z.lnot invmask)).
Definition IsAligned (value alignment : Z) : bool :=
  let invmask := u64 (alignment - 1) in Z.land value invmask =? 0.

(** The lowest set bit at or above [i], within [n] positions. *)
Fixpoint first_bit (n : nat) (i x : Z) : Z :=
  match n with
  | O => i
  | S n' => if Z.testbit x i then i else first_bit n' (i + 1) x
  end.
Definition CountTrailingZeros (x : Z) : Z := first_bit 64 0 x.
Definition CountLeadingZeros (x : Z) : Z := if x =? 0 then 64 else 63 - Z.log2 x.

Section lemmas.
Implicit Types v x k : Z.

Lemma lnot_mask_mod v k : 0 ≤ k ≤ 64 → in_width 64 v →
  Z.land v (u64 (Z.lnot (2 ^ k - 1))) = 2 ^ k * (v / 2 ^ k).
Proof.
  intros Hk Hv. pose proof (pow2_pos k ltac:(lia)) as Hp.
  unfold wrap. rewrite <- land_ones_mod by lia. rewrite Z.land_assoc, <- Z.ldiff_land.
  replace (2 ^ k - 1) with (Z.ones k) by (rewrite Z.ones_equiv; lia).
  rewrite Z.ldiff_ones_r, Z.shiftl_mul_pow2, Z.shiftr_div_pow2, land_ones_mod by lia.
  rewrite (Z.mul_comm (v / _)). apply Z.mod_small. destruct Hv as [H0 H1].
  pose proof (Z.div_mod v (2 ^ k)). pose proof (Z.mod_pos_bound v (2 ^ k) Hp).
  pose proof (Z.div_pos v (2 ^ k)). nia.
Qed.

Lemma AlignDown_pow2 v k : 0 ≤ k < 64 → in_width 64 v → AlignDown v (2 ^ k) = 2 ^ k * (v / 2 ^ k).
Proof.
  intros Hk Hv. unfold AlignDown. pose proof (pow2_pos k ltac:(lia)).
  assert (2 ^ k < 2 ^ 64) by (apply Z.pow_lt_mono_r; lia).
  rewrite (wrap_small 64 (2 ^ k - 1)) by (unfold in_width; lia). apply lnot_mask_mod; [lia|done].
Qed.

Lemma AlignUp_pow2 v k : 0 ≤ k < 64 → 0 ≤ v → v + 2 ^ k ≤ 2 ^ 64 →
  AlignUp v (2 ^ k) = 2 ^ k * ((v + 2 ^ k - 1) / 2 ^ k).
Proof.
  intros Hk Hv Hfit. unfold AlignUp. pose proof (pow2_pos k ltac:(lia)).
  assert (2 ^ k < 2 ^ 64) by (apply Z.pow_lt_mono_r; lia).
  rewrite (wrap_small 64 (2 ^ k - 1)) by (unfold in_width; lia).
  rewrite (wrap_small 64 (v + _)) by (unfold in_width; lia).
  rewrite lnot_mask_mod by (unfold in_width; lia). by rewrite Z.add_sub_assoc.
Qed.

Lemma IsAligned_pow2 v k : 0 ≤ k < 64 → IsAligned v (2 ^ k) = (v mod 2 ^ k =? 0).
Proof.
  intros Hk. unfold IsAligned. pose proof (pow2_pos k ltac:(lia)).
  assert (2 ^ k < 2 ^ 64) by (apply Z.pow_lt_mono_r; lia).
  rewrite (wrap_small 64 (2 ^ k - 1)) by (unfold in_width; lia). by rewrite land_pow2_pred by lia.
Qed.

Lemma first_bit_spec n i x : 0 ≤ i →
  i ≤ first_bit n i x ≤ i + Z.of_nat n ∧
  (∀ j, i ≤ j < first_bit n i x → Z.testbit x j = false) ∧
  (first_bit n i x < i + Z.of_nat n → Z.testbit x (first_bit n i x) = true).
Proof.
  revert i. induction n as [|n IH]; intros i Hi; cbn; [split_and!; lia|].
  destruct (Z.testbit x i) eqn:Hb; [split_and!; [lia..|done]|].
  destruct (IH (i + 1) ltac:(lia)) as (Hr & Hbelow & Hat). split_and!; [lia..| |].
  - intros j Hj. destruct (decide (j = i)) as [->|]; [done|]. apply Hbelow. lia.
  - intros Hlt. apply Hat. lia.
Qed.

(** A word of 64 bits that is not zero has a bit below 64. *)
Lemma nonzero_bit x : in_width 64 x → x ≠ 0 → ∃ i, 0 ≤ i < 64 ∧ Z.testbit x i = true.
Proof.
  intros [H0 H1] Hx. exists (Z.log2 x). split; [|apply Z.bit_log2; lia].
  split; [apply Z.log2_nonneg|apply Z.log2_lt_pow2; lia].
Qed.

Lemma CountTrailingZeros_spec x : in_width 64 x → x ≠ 0 →
  0 ≤ CountTrailingZeros x < 64 ∧ Z.testbit x (CountTrailingZeros x) = true ∧
  ∀ j, 0 ≤ j < CountTrailingZeros x → Z.testbit x j = false.
Proof.
  intros Hw Hx. destruct (nonzero_bit x Hw Hx) as (i & Hi & Hb).
  destruct (first_bit_spec 64 0 x ltac:(lia)) as (Hr & Hbelow & Hat). fold (CountTrailingZeros x) in *.
  assert (CountTrailingZeros x < 64) as Hlt.
  { destruct (decide (CountTrailingZeros x < 64)); [done|]. rewrite Hbelow in Hb by lia. done. }
  split_and!; [lia..|apply Hat; lia|done].
Qed.
End lemmas.
End Util.
