(* ===== verification/TinyMT.v ===== *)
(** * The random number generator of the kernel

    [util::TinyMT] (libvapours, [util_tinymt.hpp]): a Mersenne twister with a
    127-bit state in four 32-bit words.  The generator is a linear map over the
    bits of the state, so a state of zeros would stay there; the theorem of this
    file is that no initialisation reaches it and no step enters it. *)

From S2P Require Import Prelude.

Module TinyMT.

(** [State::data]; the four words in order. *)
Abbreviation State := (list Z).
Definition data (st : State) (i : nat) : Z := nth i st 0.

Definition ParamMat1 : Z := 0x8F7011EE.
Definition ParamMat2 : Z := 0xFC78FF1F.
Definition ParamTmat : Z := 0x3793FDFF.
Definition ParamMult : Z := 0x6C078965.
Definition ParamPlus : Z := 0x0019660D.
Definition ParamXor : Z := 0x5D588B65.
Definition TopBitmask : Z := 0x7FFFFFFF.
Definition MinimumInitIterations : nat := 8.
Definition NumDiscardedInitOutputs : nat := 8.

Definition XorByShifted27 (value : Z) : Z := Z.lxor value (Z.shiftr value 27).
Definition XorByShifted30 (value : Z) : Z := Z.lxor value (Z.shiftr value 30).

(** ** Generation *)
Definition advance (st : State) : State :=
  let x0 := Z.lxor (Z.lxor (Z.land (data st 0) TopBitmask) (data st 1)) (data st 2) in
  let y0 := data st 3 in
  let x1 := Z.lxor x0 (u32 (Z.shiftl x0 1)) in
  let y1 := Z.lxor (Z.lxor y0 (Z.shiftr y0 1)) x1 in
  let state0 := data st 1 in
  let state1 := data st 2 in
  let state2 := Z.lxor x1 (u32 (Z.shiftl y1 10)) in
  let state3 := y1 in
  if Z.odd y1
  then [state0; Z.lxor state1 ParamMat1; Z.lxor state2 ParamMat2; state3]
  else [state0; state1; state2; state3].

Definition temper (st : State) : Z :=
  let t1 := u32 (data st 0 + Z.shiftr (data st 2) 8) in
  let t0 := Z.lxor (data st 3) t1 in
  if Z.odd t1 then Z.lxor t0 ParamTmat else t0.

Definition GenerateRandomU32 (st : State) : Z * State :=
  let st' := advance st in (temper st', st').

Definition GenerateRandomU64 (st : State) : Z * State :=
  let '(lo, st1) := GenerateRandomU32 st in
  let '(hi, st2) := GenerateRandomU32 st1 in
  (Z.lor (u64 (Z.shiftl hi 32)) lo, st2).

Definition GenerateRandomU24 (st : State) : Z * State :=
  let '(r, st') := GenerateRandomU32 st in (Z.shiftr r 8, st').

(** [GenerateRandomBytes] on a destination at address [start]: the bytes it
    writes, little-endian words cut to the unaligned ends. *)
Definition bytes_of (w : Z) (n : nat) : list Z :=
  (λ i, Z.land (Z.shiftr w (8 * Z.of_nat i)) 0xFF) <$> seq 0 n.

Fixpoint random_words (n : nat) (st : State) : list Z * State :=
  match n with
  | O => ([], st)
  | S n' =>
      let '(r, st1) := GenerateRandomU32 st in
      let '(rest, st2) := random_words n' st1 in
      (bytes_of r 4 ++ rest, st2)
  end.

Definition GenerateRandomBytes (start size : Z) (st : State) : list Z * State :=
  let end_ := u64 (start + size) in
  let aligned_start := Z.land (u64 (start + 3)) (u64 (Z.lnot 3)) in
  let aligned_end := Z.land end_ (u64 (Z.lnot 3)) in
  let '(head, st1) :=
    if start <? aligned_start
    then let '(r, s) := GenerateRandomU32 st in (bytes_of r (Z.to_nat (aligned_start - start)), s)
    else ([], st) in
  let '(body, st2) := random_words (Z.to_nat ((aligned_end - aligned_start) / 4)) st1 in
  let '(tail, st3) :=
    if aligned_end <? end_
    then let '(r, s) := GenerateRandomU32 st2 in (bytes_of r (Z.to_nat (end_ - aligned_end)), s)
    else ([], st2) in
  (head ++ body ++ tail, st3).

(** ** Initialisation *)
Fixpoint discard (n : nat) (st : State) : State :=
  match n with O => st | S n' => discard n' (snd (GenerateRandomU32 st)) end.

Definition FinalizeInitialization (st : State) : State :=
  let state0 := Z.land (data st 0) TopBitmask in
  let st' := if (state0 =? 0) && (data st 1 =? 0) && (data st 2 =? 0) && (data st 3 =? 0)
             then [84; 73; 78; 89] else st in
  discard NumDiscardedInitOutputs st'.

(** The loop of [Initialize(seed)], from iteration [i] on. *)
Fixpoint mix_loop (n i : nat) (st : State) : State :=
  match n with
  | O => st
  | S n' =>
      let mixed := XorByShifted30 (data st ((i - 1) mod 4)) in
      let k := (i mod 4)%nat in
      mix_loop n' (S i) (<[k := Z.lxor (data st k) (u32 (mixed * ParamMult + Z.of_nat i))]> st)
  end.

Definition Initialize (seed : Z) : State :=
  FinalizeInitialization
    (mix_loop (MinimumInitIterations - 1) 1 [seed; ParamMat1; ParamMat2; ParamTmat]).

Definition GenerateInitialValuePlus (st : State) (index : nat) (value : Z) : State :=
  let i0 := ((index + 0) mod 4)%nat in let i1 := ((index + 1) mod 4)%nat in
  let i2 := ((index + 2) mod 4)%nat in let i3 := ((index + 3) mod 4)%nat in
  let x := u32 (XorByShifted27 (Z.lxor (Z.lxor (data st i0) (data st i1)) (data st i3)) * ParamPlus) in
  let y := u32 (x + Z.of_nat index + value) in
  <[i2 := u32 (data st i2 + y)]> (<[i1 := u32 (data st i1 + x)]> (<[i0 := y]> st)).

Definition GenerateInitialValueXor (st : State) (index : nat) : State :=
  let i0 := ((index + 0) mod 4)%nat in let i1 := ((index + 1) mod 4)%nat in
  let i2 := ((index + 2) mod 4)%nat in let i3 := ((index + 3) mod 4)%nat in
  let x := u32 (XorByShifted27 (u32 (data st i0 + data st i1 + data st i3)) * ParamXor) in
  let y := u32 (x - Z.of_nat index) in
  <[i2 := Z.lxor (data st i2) y]> (<[i1 := Z.lxor (data st i1) x]> (<[i0 := y]> st)).

Definition plus_all (seed : list Z) (n : nat) (st : State) : State :=
  foldl (λ st i, GenerateInitialValuePlus st ((i + 1) mod 4) (default 0 (seed !! i))) st (seq 0 n).

Definition Initialize_seeds (seed : list Z) : State :=
  let num_init_iterations := (Nat.max (length seed + 1) MinimumInitIterations - 1)%nat in
  let st0 := GenerateInitialValuePlus [0; ParamMat1; ParamMat2; ParamTmat] 0 (Z.of_nat (length seed)) in
  let st1 := plus_all seed num_init_iterations st0 in
  FinalizeInitialization
    (foldl (λ st i, GenerateInitialValueXor st ((i + 1 + num_init_iterations) mod 4)) st1 (seq 0 4)).


(** ** The state never degenerates *)
Section width.
Implicit Types a b z : Z.

Lemma in_width_land z : in_width 32 z ↔ Z.land z (Z.ones 32) = z.
Proof.
  rewrite land_ones_mod by lia. split; intros H; [by apply Z.mod_small|].
  rewrite <- H. apply Z.mod_pos_bound. lia.
Qed.

Lemma lxor_width a b : in_width 32 a → in_width 32 b → in_width 32 (Z.lxor a b).
Proof.
  rewrite !in_width_land. intros Ha Hb. rewrite <- Ha at 2. rewrite <- Hb at 2.
  apply Z.bits_inj'. intros n _. rewrite !Z.land_spec, !Z.lxor_spec, !Z.land_spec.
  by destruct (Z.testbit a n), (Z.testbit b n), (Z.testbit (Z.ones 32) n).
Qed.

Lemma shiftr_width a n : 0 ≤ n → in_width 32 a → in_width 32 (Z.shiftr a n).
Proof.
  intros Hn [H0 H1]. rewrite Z.shiftr_div_pow2 by done. split; [apply Z.div_pos; [done|by apply pow2_pos]|].
  apply Z.div_lt_upper_bound; [by apply pow2_pos|]. pose proof (pow2_pos n Hn). nia.
Qed.

Lemma u32_width z : in_width 32 (u32 z).
Proof. by apply wrap_in_width. Qed.

(** The two triangular maps of a step have no kernel. *)
Lemma lxor_shl_zero a : in_width 32 a → Z.lxor a (u32 (Z.shiftl a 1)) = 0 → a = 0.
Proof.
  intros [H0 H1] H%Z.lxor_eq. rewrite Z.shiftl_mul_pow2 in H by lia. unfold wrap in H.
  pose proof (Z.div_mod (a * 2 ^ 1) (2 ^ 32)). nia.
Qed.

Lemma lxor_shr_zero a : in_width 32 a → Z.lxor a (Z.shiftr a 1) = 0 → a = 0.
Proof.
  intros [H0 H1] H%Z.lxor_eq. rewrite Z.shiftr_div_pow2 in H by lia.
  pose proof (Z.div_mod a (2 ^ 1)). pose proof (Z.mod_pos_bound a (2 ^ 1)). lia.
Qed.
End width.
#[local] Hint Resolve lxor_width shiftr_width u32_width : tinymt.

(** Four words, and not the state of zeros (the top bit of the first word is
    not part of the state). *)
Definition wf (st : State) : Prop := ∃ a b c d, st = [a; b; c; d] ∧
  in_width 32 a ∧ in_width 32 b ∧ in_width 32 c ∧ in_width 32 d.
Definition dead (st : State) : Prop :=
  Z.land (data st 0) TopBitmask = 0 ∧ data st 1 = 0 ∧ data st 2 = 0 ∧ data st 3 = 0.

Lemma top_masked a : in_width 32 a → in_width 32 (Z.land a TopBitmask) ∧ Z.land a TopBitmask < 2 ^ 31.
Proof.
  intros Ha. change TopBitmask with (2 ^ 31 - 1). rewrite land_pow2_pred by lia.
  pose proof (Z.mod_pos_bound a (2 ^ 31)). unfold in_width. lia.
Qed.

Lemma advance_wf st : wf st → wf (advance st).
Proof.
  intros (a & b & c & d & -> & Ha & Hb & Hc & Hd). destruct (top_masked a Ha) as [Hm _].
  unfold advance, data, ParamMat1, ParamMat2. cbn [nth].
  destruct (Z.odd _); eexists _, _, _, _; (split; [reflexivity|]); split_and!;
    repeat first [assumption | apply lxor_width | apply shiftr_width | apply u32_width | by vm_compute | lia].
Qed.

(** A step that reaches zeros came from zeros. *)
Lemma advance_dead st : wf st → dead (advance st) → dead st.
Proof.
  intros (a & b & c & d & -> & Ha & Hb & Hc & Hd). destruct (top_masked a Ha) as [Hm Hlt].
  unfold advance, dead, data. cbn [nth]. set (x0 := Z.lxor (Z.lxor _ b) c).
  set (x1 := Z.lxor x0 _). set (y1 := Z.lxor (Z.lxor d _) x1).
  assert (Hx0 : in_width 32 x0) by (unfold x0; auto with tinymt).
  destruct (Z.odd y1) eqn:Hodd; cbn [nth]; intros (Hz0 & Hz1 & Hz2 & Hz3); [by rewrite Hz3 in Hodd|].
  subst c. rewrite Hz3 in Hz2. cbn in Hz2. rewrite Z.lxor_0_r in Hz2.
  apply lxor_shl_zero in Hz2 as Hx; [|done]. unfold x0 in Hx. rewrite Z.lxor_0_r in Hx. apply Z.lxor_eq in Hx.
  assert (b = 0) as ->.
  { change TopBitmask with (2 ^ 31 - 1) in Hz0. rewrite land_pow2_pred in Hz0 by lia.
    rewrite <- Hx, Z.mod_small in Hz0 by (unfold in_width in *; lia). lia. }
  unfold y1 in Hz3. rewrite Hz2, Z.lxor_0_r in Hz3. apply lxor_shr_zero in Hz3; [|done]. done.
Qed.

Definition good (st : State) : Prop := wf st ∧ ¬ dead st.

Lemma advance_good st : good st → good (advance st).
Proof. intros [Hw Hd]. split; [by apply advance_wf|]. intros H. by apply Hd, advance_dead. Qed.

Lemma discard_good n st : good st → good (discard n st).
Proof. revert st. induction n as [|n IH]; intros st H; [done|]. by apply IH, advance_good. Qed.

Lemma finalize_good st : wf st → good (FinalizeInitialization st).
Proof.
  intros Hw. unfold FinalizeInitialization. apply discard_good.
  destruct (_ && _) eqn:Hz.
  - split; [|intros (H & _); by vm_compute in H]. eexists _, _, _, _. split; [reflexivity|]. unfold in_width. lia.
  - split; [done|]. intros (H0 & H1 & H2 & H3). by rewrite H0, H1, H2, H3 in Hz.
Qed.

Lemma wf_data st i : wf st → in_width 32 (data st i).
Proof.
  intros (a & b & c & d & -> & ?). unfold data. do 4 (destruct i as [|i]; cbn; [tauto|]).
  destruct i; unfold in_width; lia.
Qed.

Lemma wf_insert st i v : wf st → in_width 32 v → wf (<[i := v]> st).
Proof.
  intros (a & b & c & d & -> & Ha & Hb & Hc & Hd) Hv.
  do 4 (destruct i as [|i]; cbn; [by eexists _, _, _, _|]). destruct i; by eexists _, _, _, _.
Qed.

Lemma mix_loop_wf n i st : wf st → wf (mix_loop n i st).
Proof.
  revert i st. induction n as [|n IH]; intros i st H; [done|]. cbn [mix_loop].
  apply IH, wf_insert; [done|]. apply lxor_width; [by apply wf_data|apply u32_width].
Qed.

Lemma plus_wf st i v : wf st → wf (GenerateInitialValuePlus st i v).
Proof. intros H. unfold GenerateInitialValuePlus. by repeat apply wf_insert; try apply u32_width. Qed.

Lemma xor_wf st i : wf st → wf (GenerateInitialValueXor st i).
Proof.
  intros H. unfold GenerateInitialValueXor.
  repeat apply wf_insert; try apply lxor_width; try apply u32_width; by try apply wf_data.
Qed.

Lemma foldl_wf {A} (f : State → A → State) l st : (∀ st x, wf st → wf (f st x)) → wf st → wf (foldl f st l).
Proof. intros Hf. revert st. induction l as [|x l IH]; intros st H; [done|]. cbn. apply IH. by apply Hf. Qed.

Lemma start_wf a : in_width 32 a → wf [a; ParamMat1; ParamMat2; ParamTmat].
Proof. intros Ha. by eexists _, _, _, _. Qed.

(** The generator never gets stuck: whatever the seed or the seeds, the
    state after initialisation and after any number of outputs is four 32-bit
    words that are not all zero, and every output is a 32-bit word. *)
Theorem generator_never_zero seed seeds n st :
  in_width 32 seed → st = Initialize seed ∨ st = Initialize_seeds seeds →
  let st' := discard n st in
  wf st' ∧ ¬ dead st' ∧ in_width 32 (fst (GenerateRandomU32 st')).
Proof.
  intros Hs Hst st'. assert (Hg : good st').
  { apply discard_good. destruct Hst as [->| ->]; apply finalize_good.
    - apply mix_loop_wf. apply start_wf; done.
    - apply foldl_wf; [intros; by apply xor_wf|]. apply foldl_wf; [intros; by apply plus_wf|].
      apply plus_wf. apply start_wf; done. }
  destruct Hg as [Hw Hd]. split_and!; [done..|]. cbn. unfold temper.
  pose proof (wf_data _ 3 (advance_wf _ Hw)).
  destruct (Z.odd _); repeat apply lxor_width; try apply u32_width; done.
Qed.

Lemma generator_never_zero_witness :
  in_width 32 1 ∧ ¬ dead (discard 3 (Initialize 1)).
Proof.
  split; [unfold in_width; lia|].
  destruct (generator_never_zero 1 [] 3 (Initialize 1)) as (_ & H & _);
    [unfold in_width; lia|by left|exact H].
Defined.

End TinyMT.
