(* ===== verification/PageBitmap.v ===== *)
(** * Hierarchical page bitmaps of the kernel

    [KPageBitmap] (libmesosphere, [kern_k_page_bitmap.hpp]): a set of block
    offsets as up to four levels of 64-bit words in one storage, in which a bit
    of a level says that the word below it is not zero. *)

From S2P Require Import Prelude Vapours TinyMT.

(** ** Random bits *)
Record RandomBitGenerator := mkRng { m_rng : TinyMT.State; m_entropy : Z; m_bits_available : Z }.

Definition RefreshEntropy (g : RandomBitGenerator) : RandomBitGenerator :=
  let '(e, st) := TinyMT.GenerateRandomU32 (m_rng g) in mkRng st e 32.

Definition GenerateRandomBit (g : RandomBitGenerator) : bool * RandomBitGenerator :=
  let g := if m_bits_available g =? 0 then RefreshEntropy g else g in
  (negb (Z.land (m_entropy g) 1 =? 0),
   mkRng (m_rng g) (Z.shiftr (m_entropy g) 1) (u32 (m_bits_available g - 1))).

(** The loop of [GenerateRandomBits]; every round takes at least one bit. *)
Fixpoint random_bits_loop (fuel : nat) (num_bits result : Z) (g : RandomBitGenerator)
  : res (Z * RandomBitGenerator) :=
  if num_bits <=? 0 then Ok (result, g) else
  match fuel with
  | O => Err OutOfFuel
  | S fuel' =>
      let g := if m_bits_available g =? 0 then RefreshEntropy g else g in
      let cur_bits := Z.min num_bits (m_bits_available g) in
      let mask := u64 (u64 (Z.shiftl 1 cur_bits) - 1) in
      let result := Z.lor (u64 (Z.shiftl result cur_bits)) (Z.land (m_entropy g) mask) in
      random_bits_loop fuel' (u32 (num_bits - cur_bits)) result
        (mkRng (m_rng g) (Z.shiftr (m_entropy g) cur_bits) (u32 (m_bits_available g - cur_bits)))
  end.
Definition GenerateRandomBits (num_bits : Z) (g : RandomBitGenerator) : res (Z * RandomBitGenerator) :=
  random_bits_loop (Z.to_nat num_bits) num_bits 0 g.

Fixpoint select_loop (n : nat) (cur_num_bits bitmap selected : Z) (g : RandomBitGenerator)
  : Z * RandomBitGenerator :=
  match n with
  | O => (selected, g)
  | S n' =>
      let high := Z.shiftr bitmap cur_num_bits in
      let low := Z.land bitmap (u64 (Z.lnot (u64 (Z.shiftl 0xFFFFFFFFFFFFFFFF cur_num_bits)))) in
      let '(take_high, g) :=
        if high =? 0 then (false, g) else if low =? 0 then (true, g) else GenerateRandomBit g in
      if (take_high : bool) then select_loop n' (cur_num_bits / 2) high (selected + cur_num_bits) g
      else select_loop n' (cur_num_bits / 2) low selected g
  end.
(** The loop variable runs through 32, 16, 8, 4, 2, 1. *)
Definition SelectRandomBit (bitmap : Z) (g : RandomBitGenerator) : Z * RandomBitGenerator :=
  select_loop 6 (64 / 2) bitmap 0 g.

Definition GenerateRandom (max : Z) (g : RandomBitGenerator) : res (Z * RandomBitGenerator) :=
  let bits_needed := 1 + (64 - Util.CountLeadingZeros max) in
  '(rnd, g) ← GenerateRandomBits bits_needed g;
  if max =? 0 then Err DivByZero else Ok (u64 (rnd - u64 (rnd / max * max)), g).

(** ** The bitmap *)

Definition MaxDepth : nat := 4.

(** The storages are positions in the words of the management memory. *)
Record KPageBitmap := mkBitmap {
  m_bit_storages : list Z;
  m_end_storages : list Z;
  m_bit_rng : RandomBitGenerator;
  m_num_bits : Z;
  m_used_depths : Z;
}.
Record bstate := mkB { bm : KPageBitmap; words : list Z }.

Abbreviation bmM := (stM bstate).
Definition get_bm : bmM KPageBitmap := s ← st_get; mret (bm s).
Definition mod_bm (f : KPageBitmap → KPageBitmap) : bmM unit := st_mod (λ s, mkB (f (bm s)) (words s)).

Definition set_storages (bits ends : list Z) (b : KPageBitmap) : KPageBitmap :=
  mkBitmap bits ends (m_bit_rng b) (m_num_bits b) (m_used_depths b).
Definition set_rng (g : RandomBitGenerator) (b : KPageBitmap) : KPageBitmap :=
  mkBitmap (m_bit_storages b) (m_end_storages b) g (m_num_bits b) (m_used_depths b).
Definition set_num_bits (n : Z) (b : KPageBitmap) : KPageBitmap :=
  mkBitmap (m_bit_storages b) (m_end_storages b) (m_bit_rng b) n (m_used_depths b).
Definition set_used_depths (n : Z) (b : KPageBitmap) : KPageBitmap :=
  mkBitmap (m_bit_storages b) (m_end_storages b) (m_bit_rng b) (m_num_bits b) n.

(** [m_bit_storages[depth][ind]]. *)
Definition word_address (depth : nat) (ind : Z) : bmM nat :=
  b ← get_bm;
  p ← st_lift (of_option OutOfBounds (m_bit_storages b !! depth));
  if p + ind <? 0 then st_throw OutOfBounds else mret (Z.to_nat (p + ind)).
Definition read_word (depth : nat) (ind : Z) : bmM Z :=
  a ← word_address depth ind; s ← st_get; st_lift (of_option OutOfBounds (words s !! a)).
Definition write_word (depth : nat) (ind v : Z) : bmM unit :=
  a ← word_address depth ind;
  s ← st_get; _ ← st_lift (of_option OutOfBounds (words s !! a));
  st_mod (λ s, mkB (bm s) (<[a := v]> (words s))).

Section bitmap.

(** Whether the build checks [MESOSPHERE_ASSERT]. *)
Context (assertions : bool).
Definition KASSERT (b : bool) : bmM unit := if assertions then st_check b Aborted else mret tt.

(** The loop of [GetRequiredDepth]; eleven rounds exhaust 64 bits. *)
Fixpoint required_depth_loop (fuel : nat) (region_size depth : Z) : res Z :=
  match fuel with
  | O => Err OutOfFuel
  | S fuel' =>
      let region_size := region_size / 64 in
      if region_size =? 0 then Ok (depth + 1) else required_depth_loop fuel' region_size (depth + 1)
  end.
Definition GetRequiredDepth (region_size : Z) : res Z := required_depth_loop 11 region_size 0.

(** The words of a level over [size] bits. *)
Definition level_words (size : Z) : Z := Util.AlignUp size 64 / 64.

Fixpoint overhead_loop (n : nat) (region_size overhead_bits : Z) : Z :=
  match n with
  | O => overhead_bits
  | S n' =>
      let region_size := level_words region_size in
      overhead_loop n' region_size (u64 (overhead_bits + region_size))
  end.
Definition CalculateManagementOverheadSize (region_size : Z) : res Z :=
  depth ← GetRequiredDepth region_size;
  mret (u64 (overhead_loop (Z.to_nat depth) region_size 0 * 8)).

Definition GetHighestDepthIndex (b : KPageBitmap) : Z := m_used_depths b - 1.

Fixpoint storages_loop (n : nat) (storage size : Z) : bmM Z :=
  match n with
  | O => mret storage
  | S depth =>
      b ← get_bm;
      _ ← st_lift (check (bool_decide (depth < MaxDepth)%nat) OutOfBounds);
      let size := level_words size in
      _ ← mod_bm (set_storages (<[depth := storage]> (m_bit_storages b))
                               (<[depth := storage + size]> (m_end_storages b)));
      storages_loop depth (storage + size) size
  end.

Definition Initialize (storage size : Z) : bmM Z :=
  _ ← mod_bm (set_num_bits 0);
  depths ← st_lift (GetRequiredDepth size);
  _ ← mod_bm (set_used_depths depths);
  _ ← KASSERT (depths <=? Z.of_nat MaxDepth);
  b ← get_bm;
  storages_loop (Z.to_nat (GetHighestDepthIndex b + 1)) storage size.

(** ** Setting and clearing bits, from a level up to the root *)
Fixpoint set_bit_loop (n : nat) (offset : Z) : bmM unit :=
  match n with
  | O => mret tt
  | S depth =>
      let ind := offset / 64 in
      let which := offset mod 64 in
      let mask := Z.shiftl 1 which in
      v ← read_word depth ind;
      _ ← KASSERT (Z.land v mask =? 0);
      _ ← write_word depth ind (Z.lor v mask);
      if negb (v =? 0) then mret tt else set_bit_loop depth ind
  end.

Fixpoint clear_bit_loop (n : nat) (offset : Z) : bmM unit :=
  match n with
  | O => mret tt
  | S depth =>
      let ind := offset / 64 in
      let which := offset mod 64 in
      let mask := Z.shiftl 1 which in
      v ← read_word depth ind;
      _ ← KASSERT (negb (Z.land v mask =? 0));
      let v := Z.land v (u64 (Z.lnot mask)) in
      _ ← write_word depth ind v;
      if negb (v =? 0) then mret tt else clear_bit_loop depth ind
  end.

Definition SetBit (offset : Z) : bmM unit :=
  b ← get_bm;
  _ ← set_bit_loop (Z.to_nat (GetHighestDepthIndex b + 1)) offset;
  mod_bm (λ b, set_num_bits (u64 (m_num_bits b + 1)) b).

Definition ClearBit (offset : Z) : bmM unit :=
  b ← get_bm;
  _ ← clear_bit_loop (Z.to_nat (GetHighestDepthIndex b + 1)) offset;
  mod_bm (λ b, set_num_bits (u64 (m_num_bits b - 1)) b).

(** ** Clearing a range that is entirely set *)
Fixpoint all_set_loop (fuel depth : nat) (bit_ind remaining : Z) : bmM bool :=
  match fuel with
  | O => st_throw OutOfFuel
  | S fuel' =>
      v ← read_word depth bit_ind;
      if negb (v =? 2 ^ 64 - 1) then mret false else
      let remaining := u64 (remaining - 64) in
      if 0 <? remaining then all_set_loop fuel' depth (bit_ind + 1) remaining else mret true
  end.

Fixpoint clear_words_loop (fuel depth : nat) (bit_ind remaining : Z) : bmM unit :=
  match fuel with
  | O => st_throw OutOfFuel
  | S fuel' =>
      _ ← write_word depth bit_ind 0;
      _ ← clear_bit_loop depth bit_ind;
      let remaining := u64 (remaining - 64) in
      if 0 <? remaining then clear_words_loop fuel' depth (bit_ind + 1) remaining else mret tt
  end.

Definition ClearRange (offset count : Z) : bmM bool :=
  b ← get_bm;
  let depth := Z.to_nat (GetHighestDepthIndex b) in
  let bit_ind := offset / 64 in
  cleared ←
    (if count <? 64 then
       let shift := offset mod 64 in
       _ ← KASSERT (shift + count <=? 64);
       let mask := u64 (Z.shiftl (Z.shiftl 1 count - 1) shift) in
       v ← read_word depth bit_ind;
       if negb (Z.land v mask =? mask) then mret false else
       let v := Z.land v (u64 (Z.lnot mask)) in
       _ ← write_word depth bit_ind v;
       _ ← (if v =? 0 then clear_bit_loop depth bit_ind else mret tt);
       mret true
     else
       _ ← KASSERT (offset mod 64 =? 0);
       _ ← KASSERT (count mod 64 =? 0);
       all ← all_set_loop (Z.to_nat count) depth bit_ind count;
       if (all : bool) then _ ← clear_words_loop (Z.to_nat count) depth bit_ind count; mret true
       else mret false);
  if (cleared : bool) then
    _ ← mod_bm (λ b, set_num_bits (u64 (m_num_bits b - count)) b); mret true
  else mret false.

(** ** Searching *)
Fixpoint find_block_loop (n depth : nat) (random : bool) (offset : Z) : bmM Z :=
  match n with
  | O => mret offset
  | S n' =>
      v ← read_word depth offset;
      if v =? 0 then _ ← KASSERT (bool_decide (depth = 0%nat)); mret (-1) else
      bit ← (if random then
               b ← get_bm;
               let '(bit, g) := SelectRandomBit v (m_bit_rng b) in
               _ ← mod_bm (set_rng g); mret bit
             else mret (Util.CountTrailingZeros v));
      find_block_loop n' (S depth) random (u64 (offset * 64 + bit))
  end.
(** A [do]-[while] loop: the first level is read whatever the depth. *)
Definition FindFreeBlock (random : bool) : bmM Z :=
  b ← get_bm;
  find_block_loop (Z.to_nat (Z.max 1 (m_used_depths b))) 0 random 0.

(** The options of one word, [storage] shifted by [count] from one to the next. *)
Fixpoint options_loop (n : nat) (free_mask count storage storage_index option : Z)
    (num_valid_options chosen_offset : Z) : bmM (Z * Z) :=
  match n with
  | O => mret (num_valid_options, chosen_offset)
  | S n' =>
      '(num, chosen) ←
        (if Z.land storage free_mask =? free_mask then
           let num := u64 (num_valid_options + 1) in
           take ← (if num =? 1 then mret true else
                     b ← get_bm;
                     '(r, g) ← st_lift (GenerateRandom num (m_bit_rng b));
                     _ ← mod_bm (set_rng g); mret (r =? 0));
           mret (num, if (take : bool) then storage_index * 64 + option * count else chosen_offset)
         else mret (num_valid_options, chosen_offset));
      options_loop n' free_mask count (Z.shiftr storage count) storage_index (option + 1) num chosen
  end.

Fixpoint range_loop (n depth : nat) (free_mask count storage_index num_valid_options chosen_offset : Z)
  : bmM Z :=
  match n with
  | O => mret chosen_offset
  | S n' =>
      storage ← read_word depth storage_index;
      '(num, chosen) ←
        options_loop (Z.to_nat (Z.max (64 / count) 1)) free_mask count storage storage_index 0
          num_valid_options chosen_offset;
      range_loop n' depth free_mask count (storage_index + 1) num chosen
  end.

Definition FindFreeRange (count : Z) : bmM Z :=
  b ← get_bm;
  let depth := Z.to_nat (m_used_depths b - 1) in
  storage_start ← st_lift (of_option OutOfBounds (m_bit_storages b !! depth));
  storage_end ← st_lift (of_option OutOfBounds (m_end_storages b !! depth));
  if negb ((storage_start <? storage_end) && (count <=? 64)) then mret (-1) else
  _ ← st_check (negb (count =? 0)) DivByZero;
  let num_entries := Z.max (storage_end - storage_start) 1 in
  _ ← st_check (count <? 64) BadShift;
  let free_mask := Z.shiftl 1 count - 1 in
  range_loop (Z.to_nat num_entries) depth free_mask count 0 0 (-1).

End bitmap.
