(* ===== verification/PageBitmapSpec.v ===== *)
(** * What the page bitmaps promise

    The levels of a bitmap, leaf first, are consecutive slices of the management
    memory.  [hier] is the invariant that ties a level to the one above it; a
    bitmap that satisfies it represents the set of the bits of its leaf level,
    and every operation is the operation on that set. *)

From S2P Require Import Prelude Vapours TinyMT PageBitmap.

#[local] Arguments Nat.div : simpl never.
#[local] Arguments Nat.modulo : simpl never.

(** ** Levels *)

(** Bit [j] of a level. *)
Definition tb (l : list Z) (j : nat) : bool :=
  match l !! (j / 64)%nat with Some w => Z.testbit w (Z.of_nat (j mod 64)) | None => false end.

Definition nonzero_at (l : list Z) (j : nat) : bool :=
  match l !! j with Some w => negb (w =? 0) | None => false end.

(** A bit of the level above says whether the word below it is not zero. *)
Fixpoint hier (ls : list (list Z)) : Prop :=
  match ls with
  | l :: r => (match r with p :: _ => ∀ j, tb p j = nonzero_at l j | [] => True end) ∧ hier r
  | [] => True
  end.

(** Every level has a bit for each word of the one below it, the last level is
    one word. *)
Fixpoint shaped (ls : list (list Z)) : Prop :=
  match ls with
  | [] => False
  | [l] => length l = 1%nat
  | l :: r => (match r with p :: _ => length p = ((length l + 63) / 64)%nat | [] => True end) ∧ shaped r
  end.

Definition words_ok (ls : list (list Z)) : Prop := Forall (Forall (in_width 64)) ls.

(** Storing word [i] of the leaf level and updating the levels above. *)
Definition flag_word (v : Z) (i : nat) (pw : Z) : Z :=
  if v =? 0 then Z.land pw (u64 (Z.lnot (Z.shiftl 1 (Z.of_nat (i mod 64)))))
  else Z.lor pw (Z.shiftl 1 (Z.of_nat (i mod 64))).
Fixpoint put_word (i : nat) (v : Z) (ls : list (list Z)) : list (list Z) :=
  match ls with
  | [] => []
  | l :: r =>
      <[i := v]> l ::
      match r with
      | [] => []
      | p :: _ =>
          if Bool.eqb (nonzero_at l i) (negb (v =? 0)) then r
          else put_word (i / 64) (flag_word v i (default 0 (p !! (i / 64)%nat))) r
      end
  end.

Section bits.
Implicit Types (l : list Z) (w v : Z) (i j : nat).

Lemma shiftl_one_testbit (k n : Z) : 0 ≤ k → 0 ≤ n → Z.testbit (Z.shiftl 1 k) n = bool_decide (n = k).
Proof.
  intros Hk Hn. rewrite Z.shiftl_1_l, Z.pow2_bits_eqb by done. case_bool_decide; [subst; apply Z.eqb_refl|].
  apply Z.eqb_neq. done.
Qed.

Lemma width_bits w n : in_width 64 w → 64 ≤ n → Z.testbit w n = false.
Proof.
  intros [H0 H1] Hn. destruct (decide (w = 0)) as [->|]; [apply Z.testbit_0_l|].
  apply Z.bits_above_log2; [done|]. enough (Z.log2 w < 64) by lia. apply Z.log2_lt_pow2; lia.
Qed.

Lemma bits_width w : (∀ n, 64 ≤ n → Z.testbit w n = false) → 0 ≤ w → in_width 64 w.
Proof.
  intros Hb H0. split; [done|]. destruct (decide (w = 0)) as [->|]; [lia|].
  apply Z.log2_lt_pow2; [lia|]. destruct (decide (Z.log2 w < 64)); [done|].
  pose proof (Z.bit_log2 w ltac:(lia)). rewrite Hb in *; [done|lia].
Qed.

(** Setting and clearing one bit of a word. *)
Lemma lor_bit_width w k : in_width 64 w → 0 ≤ k < 64 → in_width 64 (Z.lor w (Z.shiftl 1 k)).
Proof.
  intros Hw Hk. apply bits_width.
  - intros n Hn. rewrite Z.lor_spec, width_bits, shiftl_one_testbit by (done || lia).
    rewrite bool_decide_eq_false_2 by lia. done.
  - apply Z.lor_nonneg. split; [apply Hw|]. apply Z.shiftl_nonneg. lia.
Qed.

Lemma lnot_mask_testbit m n : 0 ≤ n < 64 → Z.testbit (u64 (Z.lnot m)) n = negb (Z.testbit m n).
Proof. intros Hn. unfold wrap. rewrite Z.mod_pow2_bits_low by lia. apply Z.lnot_spec. lia. Qed.

Lemma land_width w m : in_width 64 w → in_width 64 (Z.land w (u64 m)).
Proof.
  intros Hw. apply bits_width.
  - intros n Hn. by rewrite Z.land_spec, width_bits.
  - apply Z.land_nonneg. left. apply Hw.
Qed.

Lemma flag_word_testbit v i pw n : 0 ≤ n < 64 → in_width 64 pw →
  Z.testbit (flag_word v i pw) n =
  if decide (n = Z.of_nat (i mod 64)) then negb (v =? 0) else Z.testbit pw n.
Proof.
  intros Hn Hpw. unfold flag_word.
  destruct (v =? 0); rewrite ?Z.land_spec, ?Z.lor_spec, ?lnot_mask_testbit, shiftl_one_testbit by lia.
  - destruct (decide _) as [->|]; [rewrite bool_decide_eq_true_2 by done; apply andb_false_r|].
    rewrite bool_decide_eq_false_2 by done. apply andb_true_r.
  - destruct (decide _) as [->|]; [rewrite bool_decide_eq_true_2 by done; apply orb_true_r|].
    rewrite bool_decide_eq_false_2 by done. apply orb_false_r.
Qed.

Lemma flag_word_width v i pw : in_width 64 pw → in_width 64 (flag_word v i pw).
Proof.
  intros Hpw. unfold flag_word. pose proof (Nat.mod_upper_bound i 64 ltac:(lia)).
  destruct (v =? 0); [by apply land_width|apply lor_bit_width; [done|lia]].
Qed.

(** A word is zero when its 64 bits are. *)
Lemma zero_word w : in_width 64 w → (∀ n, 0 ≤ n < 64 → Z.testbit w n = false) → w = 0.
Proof.
  intros Hw Hb. destruct (decide (w = 0)) as [|Hne]; [done|].
  destruct (Util.nonzero_bit w Hw Hne) as (n & Hn & Ht). by rewrite Hb in Ht.
Qed.

Lemma tb_insert l i v j : (i < length l)%nat →
  tb (<[i := v]> l) j = if decide ((j / 64)%nat = i) then Z.testbit v (Z.of_nat (j mod 64)) else tb l j.
Proof.
  intros Hi. unfold tb. destruct (decide _) as [<-|Hne]; [by rewrite list_lookup_insert_eq|].
  by rewrite list_lookup_insert_ne.
Qed.

Lemma nonzero_insert l i v j : (i < length l)%nat →
  nonzero_at (<[i := v]> l) j = if decide (j = i) then negb (v =? 0) else nonzero_at l j.
Proof.
  intros Hi. unfold nonzero_at. destruct (decide _) as [->|Hne]; [by rewrite list_lookup_insert_eq|].
  by rewrite list_lookup_insert_ne.
Qed.
End bits.

Section levels.
Implicit Types (l : list Z) (ls : list (list Z)) (w v : Z) (i j : nat).

Lemma shaped_parent l p r i : shaped (l :: p :: r) → (i < length l)%nat → (i / 64 < length p)%nat.
Proof.
  intros [-> _] Hi. apply Nat.Div0.div_lt_upper_bound.
  pose proof (Nat.div_mod (length l + 63) 64 ltac:(lia)).
  pose proof (Nat.mod_upper_bound (length l + 63) 64 ltac:(lia)). lia.
Qed.

Lemma put_word_cons i v l p r :
  put_word i v (l :: p :: r) =
  <[i := v]> l ::
  if Bool.eqb (nonzero_at l i) (negb (v =? 0)) then p :: r
  else put_word (i / 64) (flag_word v i (default 0 (p !! (i / 64)%nat))) (p :: r).
Proof. reflexivity. Qed.

Lemma put_word_shape i v ls : map length (put_word i v ls) = map length ls.
Proof.
  revert i v. induction ls as [|l r IH]; intros i v; [done|]. cbn. rewrite length_insert. f_equal.
  destruct r as [|p r]; [done|]. destruct (Bool.eqb _ _); [done|]. apply IH.
Qed.

Lemma shaped_shape ls ls' : map length ls = map length ls' → shaped ls → shaped ls'.
Proof.
  revert ls'. induction ls as [|l r IH]; intros [|l' r'] Hm Hs; try done. cbn in Hm. injection Hm as Hl Hr.
  destruct r as [|p r], r' as [|p' r']; try done; [cbn in *; congruence|].
  destruct Hs as [Hp Hs]. split; [|by apply IH]. cbn in Hr. injection Hr as Hp' _. congruence.
Qed.

(** The one induction behind every update: storing a word keeps the invariant. *)
Lemma put_word_ok i v ls :
  hier ls → shaped ls → words_ok ls → in_width 64 v → (∀ l, head ls = Some l → (i < length l)%nat) →
  hier (put_word i v ls) ∧ words_ok (put_word i v ls) ∧
  head (put_word i v ls) = (λ l, <[i := v]> l) <$> head ls.
Proof.
  revert i v. induction ls as [|l r IH]; intros i v Hh Hs Hw Hv Hi; [done|].
  specialize (Hi l eq_refl). apply Forall_cons in Hw as [Hl Hw].
  assert (Hl' : Forall (in_width 64) (<[i := v]> l)) by (by apply Forall_insert).
  destruct r as [|p r]; [cbn; split_and!; [done..|by constructor|done]|].
  destruct Hh as [Hp Hh]. pose proof (shaped_parent _ _ _ _ Hs Hi) as Hip. destruct Hs as [_ Hs].
  destruct (lookup_lt_is_Some_2 p _ Hip) as [pw Hpw].
  assert (Hpww : in_width 64 pw) by (apply Forall_cons in Hw as [Hw _]; by eapply Forall_lookup_1 in Hw).
  rewrite put_word_cons. destruct (Bool.eqb _ _) eqn:He.
  - apply eqb_prop in He. split; [split; [|done]|split; [by constructor|done]]. intros j.
    rewrite nonzero_insert, Hp by done. by destruct (decide _) as [->|].
  - rewrite Hpw. change (default 0 (Some pw)) with pw. set (pv := flag_word v i pw).
    destruct (IH (i / 64)%nat pv Hh Hs Hw) as (Hh' & Hw' & Hhd).
    { by apply flag_word_width. } { by intros ? [= <-]. }
    destruct (put_word (i / 64) pv (p :: r)) as [|p' r'] eqn:Hput; [done|].
    cbn in Hhd. injection Hhd as ->.
    split; [split; [|exact Hh']|split; [constructor; assumption|reflexivity]]. intros j.
    rewrite nonzero_insert, tb_insert by done. rewrite <- Hp.
    destruct (decide (j / 64 = i / 64)%nat) as [Hj|Hj].
    + pose proof (Nat.mod_upper_bound j 64 ltac:(lia)). unfold pv. rewrite flag_word_testbit by (done || lia).
      destruct (decide (j = i)) as [->|Hji]; [by rewrite decide_True|]. rewrite decide_False.
      * unfold tb. by rewrite Hj, Hpw.
      * intros Hm%Nat2Z.inj. apply Hji. rewrite (Nat.div_mod_eq j 64), (Nat.div_mod_eq i 64). lia.
    + rewrite decide_False by (by intros ->). done.
Qed.
End levels.

(** ** The levels in memory *)
Definition storages_at (b : KPageBitmap) (base : nat) (ls : list (list Z)) : Prop :=
  ∀ done l rest, ls = done ++ l :: rest →
    m_bit_storages b !! length rest = Some (Z.of_nat (base + length (concat done))) ∧
    m_end_storages b !! length rest = Some (Z.of_nat (base + length (concat done) + length l)).

(** The bitmap [b] with its levels [ls] between [pre] and [post]. *)
Definition bst (b : KPageBitmap) (pre : list Z) (ls : list (list Z)) (post : list Z) : bstate :=
  mkB b (pre ++ concat ls ++ post).

Section memory.
Context (assertions : bool) (b : KPageBitmap) (pre post : list Z).
Implicit Types (l : list Z) (ls done rest : list (list Z)) (w v : Z) (i off : nat).

Lemma length_concat_shape ls ls' : map length ls = map length ls' → length (concat ls) = length (concat ls').
Proof.
  revert ls'. induction ls as [|l r IH]; intros [|l' r'] Hm; try done. cbn in *. injection Hm as Hl Hr.
  rewrite !length_app. rewrite Hl. f_equal. by apply IH.
Qed.

Lemma storages_shape base ls ls' : map length ls = map length ls' →
  storages_at b base ls → storages_at b base ls'.
Proof.
  intros Hm Hst done l rest ->. rewrite map_app in Hm. apply map_eq_app in Hm as (d & r & -> & Hd & Hr).
  destruct r as [|l0 r]; [done|]. cbn in Hr. injection Hr as Hl Hr.
  destruct (Hst d l0 r eq_refl) as [H1 H2].
  rewrite <- (length_map length rest), <- Hr, length_map, <- (length_concat_shape _ _ Hd), <- Hl. done.
Qed.

Lemma concat_zip done l rest :
  pre ++ concat (done ++ l :: rest) ++ post = (pre ++ concat done) ++ l ++ (concat rest ++ post).
Proof. rewrite concat_app. cbn. by rewrite <- !app_assoc. Qed.

Lemma word_address_run done l rest i s :
  bm s = b → storages_at b (length pre) (done ++ l :: rest) →
  word_address (length rest) (Z.of_nat i) s = Ok ((length (pre ++ concat done) + i)%nat, s).
Proof.
  intros Hb Hst. destruct (Hst done l rest eq_refl) as [H1 _].
  unfold word_address. erewrite st_bind_run by reflexivity. rewrite Hb, H1.
  erewrite st_bind_run by reflexivity. rewrite (proj2 (Z.ltb_ge _ 0)) by lia.
  unfold mret, st_ret. repeat f_equal. rewrite length_app. lia.
Qed.

Lemma read_word_run done l rest i w :
  storages_at b (length pre) (done ++ l :: rest) → l !! i = Some w →
  read_word (length rest) (Z.of_nat i) (bst b pre (done ++ l :: rest) post) =
  Ok (w, bst b pre (done ++ l :: rest) post).
Proof.
  intros Hst Hw. unfold read_word. erewrite st_bind_run by (by apply (word_address_run done l)).
  erewrite st_bind_run by reflexivity. unfold bst. cbn [words]. rewrite concat_zip, lookup_app_r by lia.
  rewrite Nat.add_sub_swap, Nat.sub_diag by lia. rewrite (lookup_app_l_Some _ _ _ _ Hw). done.
Qed.

Lemma write_word_run done l rest i v :
  storages_at b (length pre) (done ++ l :: rest) → (i < length l)%nat →
  write_word (length rest) (Z.of_nat i) v (bst b pre (done ++ l :: rest) post) =
  Ok (tt, bst b pre (done ++ <[i := v]> l :: rest) post).
Proof.
  intros Hst Hi. unfold write_word. erewrite st_bind_run by (by apply (word_address_run done l)).
  erewrite st_bind_run by reflexivity. unfold bst. cbn [words]. rewrite !concat_zip, lookup_app_r by lia.
  rewrite Nat.add_sub_swap, Nat.sub_diag by lia. cbn [Nat.add].
  destruct (lookup_lt_is_Some_2 l i Hi) as [w Hw]. rewrite (lookup_app_l_Some _ _ _ _ Hw).
  erewrite st_bind_run by reflexivity. unfold st_mod. cbn [words bm].
  rewrite insert_app_r, insert_app_l by done. done.
Qed.

Lemma nat_div_64 i : Z.of_nat i / 64 = Z.of_nat (i / 64).
Proof. by rewrite Nat2Z.inj_div. Qed.
Lemma nat_mod_64 i : Z.of_nat i mod 64 = Z.of_nat (i mod 64).
Proof. by rewrite Nat2Z.inj_mod. Qed.

Definition set_word l off : Z := Z.lor (default 0 (l !! (off / 64)%nat)) (Z.shiftl 1 (Z.of_nat (off mod 64))).
Definition clear_word l off : Z :=
  Z.land (default 0 (l !! (off / 64)%nat)) (u64 (Z.lnot (Z.shiftl 1 (Z.of_nat (off mod 64))))).

(** One level of either loop: the word at [off], and the bit tested in it. *)
Lemma level_bit l off w : l !! (off / 64)%nat = Some w →
  tb l off = Z.testbit w (Z.of_nat (off mod 64)) ∧
  (Z.land w (Z.shiftl 1 (Z.of_nat (off mod 64))) =? 0) = negb (tb l off).
Proof.
  intros Hw. unfold tb. rewrite Hw. split; [done|]. set (k := Z.of_nat (off mod 64)).
  destruct (Z.testbit w k) eqn:Ht; cbn.
  - apply Z.eqb_neq. intros H0. assert (Hb : Z.testbit (Z.land w (Z.shiftl 1 k)) k = true).
    { rewrite Z.land_spec, Ht, shiftl_one_testbit by lia. by rewrite bool_decide_eq_true_2. }
    by rewrite H0, Z.testbit_0_l in Hb.
  - apply Z.eqb_eq, Z.bits_inj'. intros n Hn. rewrite Z.land_spec, shiftl_one_testbit, Z.testbit_0_l by lia.
    case_bool_decide; [subst n; by rewrite Ht|apply andb_false_r].
Qed.

Lemma set_bit_run done ls l r off :
  ls = l :: r → storages_at b (length pre) (done ++ ls) → hier ls → shaped ls → words_ok ls →
  (off / 64 < length l)%nat → tb l off = false →
  set_bit_loop assertions (length ls) (Z.of_nat off) (bst b pre (done ++ ls) post) =
  Ok (tt, bst b pre (done ++ put_word (off / 64) (set_word l off) ls) post).
Proof.
  revert done l r off. induction ls as [|l0 r0 IH]; intros done l r off [= <- <-] Hst Hh Hs Hw Hoff Hbit.
  destruct (lookup_lt_is_Some_2 l0 _ Hoff) as [w Hlw]. destruct (level_bit _ _ _ Hlw) as [Htb Hland].
  cbn [set_bit_loop length]. rewrite nat_div_64, nat_mod_64.
  erewrite st_bind_run by (by apply read_word_run).
  assert (Hassert : ∀ s, KASSERT assertions (Z.land w (Z.shiftl 1 (Z.of_nat (off mod 64))) =? 0) s = Ok (tt, s)).
  { intros s. unfold KASSERT. rewrite Hland, Hbit. by destruct assertions. }
  erewrite st_bind_run by apply Hassert. erewrite st_bind_run by (by apply write_word_run).
  assert (Hset : set_word l0 off = Z.lor w (Z.shiftl 1 (Z.of_nat (off mod 64)))) by (unfold set_word; by rewrite Hlw).
  rewrite <- Hset.
  assert (Hnz : negb (set_word l0 off =? 0) = true).
  { apply negb_true_iff, Z.eqb_neq. rewrite Hset. intros [_ H]%Z.lor_eq_0_iff. rewrite Z.shiftl_1_l in H.
    pose proof (pow2_pos (Z.of_nat (off mod 64)) ltac:(lia)). lia. }
  destruct r0 as [|p r]; [destruct (negb (w =? 0)); reflexivity|].
  rewrite put_word_cons. unfold nonzero_at. rewrite Hlw, Hnz.
  destruct Hh as [Hp Hh]. pose proof (shaped_parent _ _ _ _ Hs Hoff) as Hip. destruct Hs as [_ Hs].
  apply Forall_cons in Hw as [Hl Hw]. specialize (Hp (off / 64)%nat). unfold nonzero_at in Hp. rewrite Hlw in Hp.
  destruct (w =? 0) eqn:Hz; cbn [negb Bool.eqb] in *; [|done].
  change (done ++ <[(off / 64)%nat := set_word l0 off]> l0 :: p :: r) with (done ++ [<[(off / 64)%nat := set_word l0 off]> l0] ++ p :: r).
  rewrite app_assoc. rewrite (IH _ p r (off / 64)%nat eq_refl) by
    (first [done | rewrite <- app_assoc; cbn; eapply storages_shape; [|exact Hst];
     rewrite !map_app; cbn; by rewrite length_insert]).
  rewrite <- app_assoc. cbn [app]. unfold flag_word. rewrite (proj1 (negb_true_iff _) Hnz). done.
Qed.

Lemma clear_bit_run done ls l r off :
  ls = l :: r → storages_at b (length pre) (done ++ ls) → hier ls → shaped ls → words_ok ls →
  (off / 64 < length l)%nat → tb l off = true →
  clear_bit_loop assertions (length ls) (Z.of_nat off) (bst b pre (done ++ ls) post) =
  Ok (tt, bst b pre (done ++ put_word (off / 64) (clear_word l off) ls) post).
Proof.
  revert done l r off. induction ls as [|l0 r0 IH]; intros done l r off [= <- <-] Hst Hh Hs Hw Hoff Hbit.
  destruct (lookup_lt_is_Some_2 l0 _ Hoff) as [w Hlw]. destruct (level_bit _ _ _ Hlw) as [Htb Hland].
  cbn [clear_bit_loop length]. rewrite nat_div_64, nat_mod_64.
  erewrite st_bind_run by (by apply read_word_run).
  assert (Hassert : ∀ s, KASSERT assertions (negb (Z.land w (Z.shiftl 1 (Z.of_nat (off mod 64))) =? 0)) s = Ok (tt, s)).
  { intros s. unfold KASSERT. rewrite Hland, Hbit. by destruct assertions. }
  erewrite st_bind_run by apply Hassert. erewrite st_bind_run by (by apply write_word_run).
  assert (Hset : clear_word l0 off = Z.land w (u64 (Z.lnot (Z.shiftl 1 (Z.of_nat (off mod 64))))))
    by (unfold clear_word; by rewrite Hlw).
  rewrite <- Hset.
  assert (Hwnz : w ≠ 0) by (intros ->; by rewrite Htb, Z.testbit_0_l in Hbit).
  destruct r0 as [|p r]; [destruct (negb (clear_word l0 off =? 0)); reflexivity|].
  rewrite put_word_cons. unfold nonzero_at. rewrite Hlw, (proj2 (Z.eqb_neq _ _) Hwnz).
  destruct Hh as [Hp Hh]. pose proof (shaped_parent _ _ _ _ Hs Hoff) as Hip. destruct Hs as [_ Hs].
  apply Forall_cons in Hw as [Hl Hw]. specialize (Hp (off / 64)%nat). unfold nonzero_at in Hp.
  rewrite Hlw, (proj2 (Z.eqb_neq _ _) Hwnz) in Hp.
  destruct (clear_word l0 off =? 0) eqn:Hz; cbn [negb Bool.eqb] in *; [|done].
  change (done ++ <[(off / 64)%nat := clear_word l0 off]> l0 :: p :: r) with (done ++ [<[(off / 64)%nat := clear_word l0 off]> l0] ++ p :: r).
  rewrite app_assoc. rewrite (IH _ p r (off / 64)%nat eq_refl) by
    (first [done | rewrite <- app_assoc; cbn; eapply storages_shape; [|exact Hst];
     rewrite !map_app; cbn; by rewrite length_insert]).
  rewrite <- app_assoc. cbn [app]. unfold flag_word. rewrite Hz. done.
Qed.
End memory.

(** ** Bitmaps as sets *)

(** The number of bits left in the entropy word of a generator. *)
Definition rng_ok (g : RandomBitGenerator) : Prop := in_width 32 (m_bits_available g).

Definition bitmap_at (b : KPageBitmap) (pre : list Z) (ls : list (list Z)) : Prop :=
  storages_at b (length pre) ls ∧ hier ls ∧ shaped ls ∧ words_ok ls ∧
  m_used_depths b = Z.of_nat (length ls) ∧ (length ls ≤ MaxDepth)%nat ∧ rng_ok (m_bit_rng b).

(** [s] holds, between [pre] and [post], a bitmap of [n] leaf words that
    represents the set [X]. *)
Definition repr (s : bstate) (pre post : list Z) (n : nat) (X : gset nat) : Prop :=
  ∃ l r, s = bst (bm s) pre (l :: r) post ∧ bitmap_at (bm s) pre (l :: r) ∧ length l = n ∧
    (∀ i, i ∈ X ↔ tb l i = true) ∧ m_num_bits (bm s) = Z.of_nat (size X).

Section sets.
Implicit Types (l : list Z) (ls : list (list Z)) (X : gset nat) (i j : nat) (s : bstate).

Lemma tb_lt l i : tb l i = true → (i < 64 * length l)%nat.
Proof.
  unfold tb. destruct (l !! _) eqn:Hl; [|done]. intros _. apply lookup_lt_Some in Hl.
  rewrite (Nat.div_mod_eq i 64). pose proof (Nat.mod_upper_bound i 64 ltac:(lia)). lia.
Qed.

Lemma shaped_bound l ls : shaped (l :: ls) → (length l ≤ 64 ^ length ls)%nat.
Proof.
  revert l. induction ls as [|p ls IH]; intros l Hs; [cbn in Hs; cbn; lia|].
  destruct Hs as [Hp Hs]. specialize (IH p Hs). cbn [length].
  rewrite Nat.pow_succ_r'. pose proof (Nat.div_mod_eq (length l + 63) 64).
  pose proof (Nat.mod_upper_bound (length l + 63) 64 ltac:(lia)). lia.
Qed.

Lemma shaped_pos l ls : shaped (l :: ls) → (0 < length l)%nat.
Proof.
  revert l. induction ls as [|p ls IH]; intros l Hs; [cbn in Hs; lia|]. destruct Hs as [Hp Hs].
  specialize (IH p Hs). destruct (length l); [by rewrite Hp in IH|lia].
Qed.

Lemma repr_small s pre post n X : repr s pre post n X →
  (size X ≤ 64 * n)%nat ∧ Z.of_nat n ≤ 262144 ∧ ∀ i, i ∈ X → (i < 64 * n)%nat.
Proof.
  intros (l & r & _ & (_ & _ & Hs & _ & _ & Hlen & _) & <- & HX & _).
  assert (Hlt : ∀ i, i ∈ X → (i < 64 * length l)%nat) by (intros i Hi; by apply tb_lt, HX).
  split_and!; [| |done].
  - transitivity (size (list_to_set (seq 0 (64 * length l)) : gset nat)).
    + apply subseteq_size. intros i Hi. apply elem_of_list_to_set, elem_of_seq. specialize (Hlt i Hi). lia.
    + rewrite size_list_to_set by apply NoDup_seq. by rewrite length_seq.
  - pose proof (shaped_bound _ _ Hs) as Hb. cbn in Hlen. unfold MaxDepth in Hlen.
    assert (64 ^ length r ≤ 64 ^ 3)%nat as Hp by (apply Nat.pow_le_mono_r; lia).
    apply Nat2Z.inj_le in Hb, Hp. rewrite !Nat2Z.inj_pow in Hp. rewrite Nat2Z.inj_pow in Hb.
    change (Z.of_nat 64 ^ Z.of_nat 3) with 262144 in Hp. lia.
Qed.

(** Storing a word of the leaf level of a bitmap. *)
Lemma bitmap_put b b' pre l r k v :
  bitmap_at b pre (l :: r) → (k < length l)%nat → in_width 64 v →
  m_bit_storages b' = m_bit_storages b → m_end_storages b' = m_end_storages b →
  m_used_depths b' = m_used_depths b → m_bit_rng b' = m_bit_rng b →
  ∃ r', put_word k v (l :: r) = <[k := v]> l :: r' ∧ bitmap_at b' pre (<[k := v]> l :: r').
Proof.
  intros (Hst & Hh & Hs & Hw & Hu & Hlen & Hg) Hk Hv Hb He Hd Hr.
  destruct (put_word_ok k v (l :: r) Hh Hs Hw Hv) as (Hh' & Hw' & Hhd); [by intros ? [= <-]|].
  pose proof (put_word_shape k v (l :: r)) as Hshape.
  destruct (put_word k v (l :: r)) as [|l' r'] eqn:Hput; [done|]. cbn in Hhd. injection Hhd as ->.
  exists r'. split; [done|].
  assert (Hlen' : length (<[k := v]> l :: r') = length (l :: r)).
  { rewrite <- (length_map length), Hshape. apply length_map. }
  split_and!; [|done|by eapply shaped_shape|done|congruence|lia|by rewrite Hr].
  assert (Hst' : storages_at b (length pre) (<[k := v]> l :: r')) by (by eapply storages_shape).
  intros done l' rest Heq. rewrite Hb, He. by apply Hst'.
Qed.

Lemma highest_depth b pre ls : bitmap_at b pre ls → Z.to_nat (GetHighestDepthIndex b + 1) = length ls.
Proof. intros (_ & _ & _ & _ & Hu & _). unfold GetHighestDepthIndex. rewrite Hu. lia. Qed.

Lemma set_word_bit l off j : (off / 64 < length l)%nat →
  tb (<[(off / 64)%nat := set_word l off]> l) j = bool_decide (j = off) || tb l j.
Proof.
  intros Hoff. rewrite tb_insert by done. destruct (lookup_lt_is_Some_2 l _ Hoff) as [w Hw].
  pose proof (Nat.mod_upper_bound j 64 ltac:(lia)). pose proof (Nat.mod_upper_bound off 64 ltac:(lia)).
  pose proof (Nat.div_mod_eq j 64). pose proof (Nat.div_mod_eq off 64).
  destruct (decide _) as [He|Hne].
  - unfold set_word, tb. rewrite Hw, He, Hw. cbn [default]. rewrite Z.lor_spec, shiftl_one_testbit by lia.
    rewrite orb_comm. f_equal. apply bool_decide_ext. lia.
  - by rewrite bool_decide_eq_false_2 by (by intros ->).
Qed.

Lemma clear_word_bit l off j : (off / 64 < length l)%nat →
  tb (<[(off / 64)%nat := clear_word l off]> l) j = negb (bool_decide (j = off)) && tb l j.
Proof.
  intros Hoff. rewrite tb_insert by done. destruct (lookup_lt_is_Some_2 l _ Hoff) as [w Hw].
  pose proof (Nat.mod_upper_bound j 64 ltac:(lia)). pose proof (Nat.mod_upper_bound off 64 ltac:(lia)).
  pose proof (Nat.div_mod_eq j 64). pose proof (Nat.div_mod_eq off 64).
  destruct (decide _) as [He|Hne].
  - unfold clear_word, tb. rewrite Hw, He, Hw. cbn [default].
    rewrite Z.land_spec, lnot_mask_testbit, shiftl_one_testbit by lia.
    rewrite andb_comm. repeat f_equal. apply bool_decide_ext. lia.
  - by rewrite bool_decide_eq_false_2 by (by intros ->).
Qed.

Lemma div_lt_words i n : (i < 64 * n)%nat → (i / 64 < n)%nat.
Proof. intros Hi. by apply Nat.Div0.div_lt_upper_bound. Qed.

Lemma leaf_word b pre l r k : bitmap_at b pre (l :: r) → (k < length l)%nat → in_width 64 (default 0 (l !! k)).
Proof.
  intros (_ & _ & _ & Hw & _) Hk. apply Forall_cons in Hw as [Hw _].
  destruct (lookup_lt_is_Some_2 l k Hk) as [w Hlw]. rewrite Hlw. by eapply Forall_lookup_1 in Hw.
Qed.
End sets.

Section operations.
Context (assertions : bool) (pre post : list Z) (n : nat).
Implicit Types (X : gset nat) (i j : nat) (s : bstate).

Lemma SetBit_run s X i : repr s pre post n X → (i < 64 * n)%nat → i ∉ X →
  ∃ s', SetBit assertions (Z.of_nat i) s = Ok (tt, s') ∧ repr s' pre post n ({[i]} ∪ X).
Proof.
  intros Hrep Hi HiX. destruct (repr_small _ _ _ _ _ Hrep) as (Hsz & Hn & _).
  destruct Hrep as (l & r & Hs & Hb & Hl & HX & Hnum). rewrite <- Hl in Hi. apply div_lt_words in Hi.
  assert (Hbit : tb l i = false) by (destruct (tb l i) eqn:Ht; [by apply HX in Ht|done]).
  pose proof Hb as (Hst & Hh & Hsh & Hw & _).
  assert (Hv : in_width 64 (set_word l i)).
  { unfold set_word. apply lor_bit_width; [by eapply leaf_word|]. pose proof (Nat.mod_upper_bound i 64). lia. }
  set (b' := set_num_bits (u64 (m_num_bits (bm s) + 1)) (bm s)).
  destruct (bitmap_put (bm s) b' pre l r (i / 64) (set_word l i) Hb Hi Hv) as (r' & Hput & Hb'); [done..|].
  exists (bst b' pre (<[(i / 64)%nat := set_word l i]> l :: r') post). split.
  - unfold SetBit. erewrite st_bind_run by reflexivity. rewrite (highest_depth _ _ _ Hb). rewrite Hs at 1.
    erewrite st_bind_run by (by apply (set_bit_run _ _ _ _ [] (l :: r) l r)). rewrite Hput. done.
  - exists (<[(i / 64)%nat := set_word l i]> l), r'. split_and!; [done|done|by rewrite length_insert| |].
    + intros j. rewrite set_word_bit by done. rewrite elem_of_union, elem_of_singleton, HX.
      rewrite orb_true_iff, bool_decide_eq_true. done.
    + cbn. rewrite size_union, size_singleton by set_solver. rewrite Hnum, wrap_small by (unfold in_width; lia). lia.
Qed.

Lemma ClearBit_run s X i : repr s pre post n X → i ∈ X →
  ∃ s', ClearBit assertions (Z.of_nat i) s = Ok (tt, s') ∧ repr s' pre post n (X ∖ {[i]}).
Proof.
  intros Hrep HiX. destruct (repr_small _ _ _ _ _ Hrep) as (Hsz & Hn & Hlt). specialize (Hlt i HiX) as Hi.
  destruct Hrep as (l & r & Hs & Hb & Hl & HX & Hnum). rewrite <- Hl in Hi. apply div_lt_words in Hi.
  pose proof (proj1 (HX i) HiX) as Hbit. pose proof Hb as (Hst & Hh & Hsh & Hw & _).
  assert (Hv : in_width 64 (clear_word l i)) by (apply land_width; by eapply leaf_word).
  set (b' := set_num_bits (u64 (m_num_bits (bm s) - 1)) (bm s)).
  destruct (bitmap_put (bm s) b' pre l r (i / 64) (clear_word l i) Hb Hi Hv) as (r' & Hput & Hb'); [done..|].
  assert (Hpos : (1 ≤ size X)%nat).
  { rewrite <- (size_singleton (C := gset nat) i). apply subseteq_size. set_solver. }
  exists (bst b' pre (<[(i / 64)%nat := clear_word l i]> l :: r') post). split.
  - unfold ClearBit. erewrite st_bind_run by reflexivity. rewrite (highest_depth _ _ _ Hb). rewrite Hs at 1.
    erewrite st_bind_run by (by apply (clear_bit_run _ _ _ _ [] (l :: r) l r)). rewrite Hput. done.
  - exists (<[(i / 64)%nat := clear_word l i]> l), r'. split_and!; [done|done|by rewrite length_insert| |].
    + intros j. rewrite clear_word_bit by done. rewrite elem_of_difference, elem_of_singleton, HX.
      rewrite andb_true_iff, negb_true_iff, bool_decide_eq_false. tauto.
    + cbn. rewrite size_difference, size_singleton by set_solver. rewrite Hnum, wrap_small by (unfold in_width; lia). lia.
Qed.
End operations.

(** ** Random choices stay among the candidates *)
Section random.
Implicit Types (g : RandomBitGenerator) (bitmap x : Z).

Lemma low_half bitmap c : in_width 64 bitmap → 0 < c < 64 →
  Z.land bitmap (u64 (Z.lnot (u64 (Z.shiftl 0xFFFFFFFFFFFFFFFF c)))) = bitmap mod 2 ^ c.
Proof.
  intros Hb Hc. rewrite <- Z.land_ones by lia. apply Z.bits_inj'. intros m Hm. rewrite !Z.land_spec.
  destruct (decide (m < 64)) as [Hm64|Hm64]; [|by rewrite width_bits by (done || lia)].
  f_equal. rewrite lnot_mask_testbit by lia. unfold wrap. rewrite Z.mod_pow2_bits_low by lia.
  rewrite Z.shiftl_spec by lia. change 0xFFFFFFFFFFFFFFFF with (Z.ones 64).
  destruct (decide (m < c)).
  - rewrite Z.testbit_neg_r, Z.ones_spec_low by lia. done.
  - rewrite (Z.ones_spec_low 64), Z.ones_spec_high by lia. done.
Qed.

Lemma select_loop_spec n c bitmap sel g :
  c = 2 ^ (Z.of_nat n - 1) → (n ≤ 6)%nat → 0 < bitmap < 2 ^ (2 ^ Z.of_nat n) →
  let '(r, _) := select_loop n c bitmap sel g in
  sel ≤ r < sel + 2 ^ Z.of_nat n ∧ Z.testbit bitmap (r - sel) = true.
Proof.
  revert c bitmap sel g. induction n as [|n IH]; intros c bitmap sel g -> Hn Hb.
  { cbn in Hb |- *. change (2 ^ 2 ^ 0) with 2 in Hb. assert (bitmap = 1) as -> by lia.
    change (2 ^ 0) with 1. split; [lia|]. by rewrite Z.sub_diag. }
  cbn [select_loop]. replace (Z.of_nat (S n) - 1) with (Z.of_nat n) by lia. set (c := 2 ^ Z.of_nat n).
  assert (Hc : 0 < c ≤ 32).
  { unfold c. split; [by apply pow2_pos; lia|]. change 32 with (2 ^ 5). apply Z.pow_le_mono_r; lia. }
  assert (Hdbl : 2 ^ Z.of_nat (S n) = c + c) by (unfold c; rewrite Nat2Z.inj_succ, Z.pow_succ_r by lia; lia).
  rewrite Hdbl, Z.pow_add_r in Hb by lia. rewrite Hdbl.
  assert (2 ^ c * 2 ^ c ≤ 2 ^ 32 * 2 ^ 32).
  { apply Z.mul_le_mono_nonneg; try (apply Z.pow_le_mono_r; lia); apply Z.pow_nonneg; lia. }
  rewrite low_half by (unfold in_width; lia). rewrite Z.shiftr_div_pow2 by lia.
  pose proof (pow2_pos c ltac:(lia)) as Hpc. pose proof (Z.mod_pos_bound bitmap (2 ^ c) Hpc) as Hmod.
  pose proof (Z.div_mod bitmap (2 ^ c) ltac:(lia)) as Hdm.
  assert (Hhi : 0 ≤ bitmap / 2 ^ c < 2 ^ c) by (split; [apply Z.div_pos; lia|apply Z.div_lt_upper_bound; lia]).
  assert (Hhalf : (2 ^ Z.of_nat n) / 2 = 2 ^ (Z.of_nat n - 1) ∨ n = 0%nat).
  { destruct n as [|n]; [by right|left]. rewrite Nat2Z.inj_succ. replace (Z.succ (Z.of_nat n) - 1) with (Z.of_nat n) by lia.
    rewrite Z.pow_succ_r, Z.mul_comm, Z.div_mul by lia. done. }
  (* both halves go down one level *)
  assert (Hgo : ∀ half sel' g', 0 < half < 2 ^ c →
    let '(r, _) := select_loop n (c / 2) half sel' g' in
    sel' ≤ r < sel' + c ∧ Z.testbit half (r - sel') = true).
  { intros half sel' g' Hh. destruct Hhalf as [Hhalf| ->].
    - apply IH; [done|lia|done].
    - cbn. unfold c in *. change (2 ^ Z.of_nat 0) with 1 in *. change (2 ^ 1) with 2 in Hh.
      assert (half = 1) as -> by lia. rewrite Z.sub_diag. split; [lia|done]. }
  assert (Hhigh : bitmap / 2 ^ c ≠ 0 → ∀ g', let '(r, _) := select_loop n (c / 2) (bitmap / 2 ^ c) (sel + c) g' in
    sel ≤ r < sel + (c + c) ∧ Z.testbit bitmap (r - sel) = true).
  { intros Hne g'. specialize (Hgo (bitmap / 2 ^ c) (sel + c) g' ltac:(lia)).
    destruct (select_loop _ _ _ _ _) as [r g'']. destruct Hgo as [Hr Ht]. split; [lia|].
    rewrite <- Z.shiftr_div_pow2, Z.shiftr_spec in Ht by lia. rewrite <- Ht. f_equal. lia. }
  assert (Hlo : bitmap mod 2 ^ c ≠ 0 → ∀ g', let '(r, _) := select_loop n (c / 2) (bitmap mod 2 ^ c) sel g' in
    sel ≤ r < sel + (c + c) ∧ Z.testbit bitmap (r - sel) = true).
  { intros Hne g'. specialize (Hgo (bitmap mod 2 ^ c) sel g' ltac:(lia)).
    destruct (select_loop _ _ _ _ _) as [r g'']. destruct Hgo as [Hr Ht]. split; [lia|].
    by rewrite Z.mod_pow2_bits_low in Ht by lia. }
  destruct (Z.eqb_spec (bitmap / 2 ^ c) 0) as [Hz|Hz]; [apply Hlo; lia|].
  destruct (Z.eqb_spec (bitmap mod 2 ^ c) 0) as [Hz'|Hz']; [by apply Hhigh|].
  destruct (GenerateRandomBit g) as [[|] g']; [by apply Hhigh|by apply Hlo].
Qed.

Lemma SelectRandomBit_spec x g : in_width 64 x → x ≠ 0 →
  let '(r, _) := SelectRandomBit x g in 0 ≤ r < 64 ∧ Z.testbit x r = true.
Proof.
  intros [H0 H1] Hx. pose proof (select_loop_spec 6 32 x 0 g eq_refl ltac:(lia)) as H.
  unfold SelectRandomBit. change (64 / 2) with 32. destruct (select_loop _ _ _ _ _) as [r g'].
  change (2 ^ 2 ^ Z.of_nat 6) with (2 ^ 64) in H. change (2 ^ Z.of_nat 6) with 64 in H.
  rewrite Z.sub_0_r in H. apply H. lia.
Qed.

Lemma lor_width a c : in_width 64 a → in_width 64 c → in_width 64 (Z.lor a c).
Proof.
  intros Ha Hc. apply bits_width; [|apply Z.lor_nonneg; split; [apply Ha|apply Hc]].
  intros m Hm. by rewrite Z.lor_spec, !width_bits.
Qed.

Lemma land_le_mask a m : Z.land a (u64 m) < 2 ^ 64.
Proof.
  assert (in_width 64 (Z.land a (u64 m))) as [_ H]; [|done]. apply bits_width.
  - intros k Hk. rewrite Z.land_spec, (width_bits (u64 m)), andb_false_r by (by try apply wrap_in_width). done.
  - rewrite Z.land_comm. apply Z.land_nonneg. left. by apply wrap_in_width.
Qed.

Lemma refreshed g : rng_ok g →
  let g' := if m_bits_available g =? 0 then RefreshEntropy g else g in 0 < m_bits_available g' < 2 ^ 32.
Proof.
  intros [H0 H1]. destruct (Z.eqb_spec (m_bits_available g) 0); [|cbn; lia].
  unfold RefreshEntropy. destruct (TinyMT.GenerateRandomU32 _). cbn. lia.
Qed.

Lemma random_bits_spec fuel num result g :
  0 ≤ num ≤ Z.of_nat fuel → num < 2 ^ 32 → in_width 64 result → rng_ok g →
  ∃ r g', random_bits_loop fuel num result g = Ok (r, g') ∧ in_width 64 r ∧ rng_ok g'.
Proof.
  revert num result g. induction fuel as [|fuel IH]; intros num result g Hn Hmax Hres Hg.
  { exists result, g. assert (num = 0) as -> by lia. by cbn. }
  cbn [random_bits_loop]. destruct (Z.leb_spec num 0); [by exists result, g|].
  pose proof (refreshed g Hg) as Havail. cbv zeta in *.
  set (g1 := if m_bits_available g =? 0 then RefreshEntropy g else g) in *.
  rewrite (wrap_small 32 (num - _)) by (unfold in_width; lia).
  apply IH; [lia..| |by apply wrap_in_width].
  apply lor_width; [by apply wrap_in_width|]. rewrite Z.land_comm.
  split; [apply Z.land_nonneg; left; by apply wrap_in_width|].
  rewrite Z.land_comm. apply land_le_mask.
Qed.

Lemma GenerateRandom_spec max g : 0 < max < 2 ^ 64 → rng_ok g →
  ∃ r g', GenerateRandom max g = Ok (r, g') ∧ 0 ≤ r < max ∧ rng_ok g'.
Proof.
  intros Hmax Hg. unfold GenerateRandom, Util.CountLeadingZeros.
  rewrite (proj2 (Z.eqb_neq max 0)) by lia.
  assert (0 ≤ Z.log2 max < 64) by (split; [apply Z.log2_nonneg|apply Z.log2_lt_pow2; lia]).
  set (bits := 1 + (64 - (63 - Z.log2 max))).
  destruct (random_bits_spec (Z.to_nat bits) bits 0 g) as (r & g' & Hrun & Hr & Hg'); try done; try lia.
  unfold GenerateRandomBits. rewrite Hrun. cbn. eexists _, _. split; [reflexivity|]. split; [|done].
  unfold in_width in Hr. pose proof (Z.div_mod r max ltac:(lia)). pose proof (Z.mod_pos_bound r max ltac:(lia)).
  pose proof (Z.div_pos r max ltac:(lia) ltac:(lia)).
  rewrite (wrap_small 64 (r / max * max)) by (unfold in_width; nia).
  rewrite wrap_small by (unfold in_width; nia). nia.
Qed.

(** Random numbers are in range: for a bound [max] that is not zero
    [GenerateRandom] ends and gives a number below [max], and
    [SelectRandomBit] gives the position of a bit that is set. *)
Theorem random_in_range x max g :
  in_width 64 x → x ≠ 0 → 0 < max < 2 ^ 64 → rng_ok g →
  (let '(r, _) := SelectRandomBit x g in 0 ≤ r < 64 ∧ Z.testbit x r = true) ∧
  ∃ r g', GenerateRandom max g = Ok (r, g') ∧ 0 ≤ r < max ∧ rng_ok g'.
Proof. intros. split; [by apply SelectRandomBit_spec|by apply GenerateRandom_spec]. Qed.
End random.

Lemma random_in_range_witness :
  let g := mkRng (TinyMT.Initialize 1) 0 0 in
  (let '(r, _) := SelectRandomBit 0x8000000000000100 g in 0 ≤ r < 64 ∧ Z.testbit 0x8000000000000100 r = true) ∧
  ∃ r g', GenerateRandom 1000 g = Ok (r, g') ∧ 0 ≤ r < 1000 ∧ rng_ok g'.
Proof.
  apply (random_in_range 0x8000000000000100 1000 (mkRng (TinyMT.Initialize 1) 0 0));
    [unfold in_width; lia|lia|lia|unfold rng_ok, in_width; cbn; lia].
Defined.

(** ** Finding a free block *)
Section find_block.
Context (assertions : bool) (pre post : list Z).
Implicit Types (l p : list Z) (ls lows rest : list (list Z)) (i j o k : nat).

(** A set bit of the leaf level shows in every level above. *)
Lemma hier_ancestor k l0 ls j : hier (l0 :: ls) → tb l0 j = true →
  ∀ lk, (l0 :: ls) !! k = Some lk → nonzero_at lk (j / 64 ^ S k) = true.
Proof.
  revert l0 ls j. induction k as [|k IH]; intros l0 ls j Hh Ht lk Hlk.
  { cbn in Hlk. simplify_eq. cbn. unfold tb in Ht. unfold nonzero_at.
    change (64 * 1)%nat with 64%nat. destruct (lk !! _) as [w|]; [|done].
    apply negb_true_iff, Z.eqb_neq. intros ->. by rewrite Z.testbit_0_l in Ht. }
  destruct ls as [|p ls]; [done|]. destruct Hh as [Hp Hh].
  rewrite Nat.pow_succ_r', <- Nat.Div0.div_div. apply (IH p ls); [done| |done].
  rewrite Hp. unfold tb in Ht. unfold nonzero_at. destruct (l0 !! _) as [w|]; [|done].
  apply negb_true_iff, Z.eqb_neq. intros ->. by rewrite Z.testbit_0_l in Ht.
Qed.

Lemma hier_adjacent lows l p rest : hier (lows ++ l :: p :: rest) → ∀ j, tb p j = nonzero_at l j.
Proof.
  induction lows as [|x lows IH]; intros Hh; [apply Hh|]. destruct Hh as [_ Hh]. by apply IH.
Qed.

Lemma words_ok_at lows p rest o w : words_ok (lows ++ p :: rest) → p !! o = Some w → in_width 64 w.
Proof.
  intros Hw Ho. apply Forall_app in Hw as [_ Hw]. apply Forall_cons in Hw as [Hw _].
  by eapply Forall_lookup_1 in Hw.
Qed.

(** The bit that is chosen in a word that is not zero. *)
Definition chosen (random : bool) (w bit : Z) : Prop :=
  0 ≤ bit < 64 ∧ Z.testbit w bit = true ∧
  (random = false → ∀ m : Z, 0 ≤ m < bit → Z.testbit w m = false).

Definition with_rng (b : KPageBitmap) (g : RandomBitGenerator) : KPageBitmap := set_rng g b.

Lemma generated_ok g : rng_ok (snd (GenerateRandomBit g)).
Proof. unfold GenerateRandomBit. cbn. by apply wrap_in_width. Qed.

Lemma select_rng_ok n c x sel g : rng_ok g → rng_ok (snd (select_loop n c x sel g)).
Proof.
  revert c x sel g. induction n as [|n IH]; intros c x sel g Hg; [done|]. cbn [select_loop].
  pose proof (generated_ok g) as Hok. destruct (GenerateRandomBit g) as [rb g']. cbn in Hok.
  destruct (_ =? 0); [by apply IH|]. destruct (_ =? 0); [by apply IH|]. destruct rb; by apply IH.
Qed.

Lemma storages_rng b g base ls : storages_at b base ls → storages_at (with_rng b g) base ls.
Proof. done. Qed.

(** The leaf level of [lows] on top of [p]. *)
Definition leaf_of (lows : list (list Z)) (p : list Z) : list Z := default p (head lows).

Lemma leaf_of_snoc lows l p : leaf_of (lows ++ [l]) p = leaf_of lows l.
Proof. by destruct lows. Qed.

Lemma choose_run random b w s : bm s = b → in_width 64 w → w ≠ 0 → rng_ok (m_bit_rng b) →
  ∃ bit g, chosen random w bit ∧ rng_ok g ∧ ∀ (f : Z → bmM Z),
    (bit ← (if random then
              b ← get_bm;
              let '(bit, g) := SelectRandomBit w (m_bit_rng b) in
              _ ← mod_bm (set_rng g); mret bit
            else mret (Util.CountTrailingZeros w)); f bit) s = f bit (mkB (with_rng b g) (words s)).
Proof.
  intros Hb Hw Hne Hg. destruct random.
  - pose proof (SelectRandomBit_spec w (m_bit_rng b) Hw Hne) as Hsel.
    pose proof (select_rng_ok 6 (64 / 2) w 0 _ Hg) as Hg'. fold (SelectRandomBit w (m_bit_rng b)) in Hg'.
    destruct (SelectRandomBit w (m_bit_rng b)) as [bit g] eqn:Hs. cbn in Hg'.
    exists bit, g. split; [|split; [done|]].
    + split_and!; [lia..|apply Hsel|done].
    + intros f. erewrite st_bind_run; [reflexivity|]. erewrite st_bind_run by reflexivity.
      rewrite Hb, Hs. subst b. done.
  - exists (Util.CountTrailingZeros w), (m_bit_rng b).
    destruct (Util.CountTrailingZeros_spec w Hw Hne) as (H1 & H2 & H3).
    split; [split; [done|split; [done|intros _; exact H3]]|split; [done|]].
    intros f. subst b. by destruct s as [[] ws].
Qed.

Lemma div_block o bit (n : nat) i : (i / 64 ^ n = o * 64 + bit)%nat → (bit < 64)%nat → (i / 64 ^ S n = o)%nat.
Proof.
  intros Hi Hb. rewrite Nat.pow_succ_r', Nat.mul_comm, <- Nat.Div0.div_div, Hi.
  rewrite Nat.div_add_l, (Nat.div_small bit) by lia. lia.
Qed.

(** One round of the search. *)
Lemma find_level_run lows b p rest o w random :
  storages_at b (length pre) (lows ++ p :: rest) → in_width 64 w → rng_ok (m_bit_rng b) →
  Z.of_nat (length p) ≤ 262144 → p !! o = Some w → w ≠ 0 →
  ∃ bit g, (bit < 64)%nat ∧ rng_ok g ∧ tb p (o * 64 + bit) = true ∧
    (random = false → ∀ j, tb p j = true → (j / 64 = o)%nat → (o * 64 + bit ≤ j)%nat) ∧
    ∀ n, find_block_loop assertions (S n) (length rest) random (Z.of_nat o) (bst b pre (lows ++ p :: rest) post) =
         find_block_loop assertions n (S (length rest)) random (Z.of_nat (o * 64 + bit))
           (bst (with_rng b g) pre (lows ++ p :: rest) post).
Proof.
  intros Hst Hww Hg Hpl Ho Hne. pose proof (lookup_lt_Some _ _ _ Ho) as Hop.
  destruct (choose_run random b w (bst b pre (lows ++ p :: rest) post) eq_refl Hww Hne Hg)
    as (bit & g & (Hbit & Ht & Hmin) & Hg' & Hchoose).
  exists (Z.to_nat bit), g. split_and!; [lia|done| | |].
  - unfold tb. rewrite Nat.div_add_l, (Nat.div_small (Z.to_nat bit)), Nat.add_0_r, Ho by lia.
    rewrite Nat.add_comm, Nat.Div0.mod_add, Nat.mod_small, Z2Nat.id by lia. done.
  - intros Hr j Hj <-. unfold tb in Hj. rewrite Ho in Hj. pose proof (Nat.div_mod_eq j 64).
    destruct (decide (Z.of_nat (j mod 64) < bit)); [by rewrite Hmin in Hj by (done || lia)|lia].
  - intros n. cbn [find_block_loop]. erewrite st_bind_run by (by apply (read_word_run b pre post lows p)).
    rewrite (proj2 (Z.eqb_neq w 0) Hne), Hchoose, wrap_small by (unfold in_width; lia).
    f_equal. lia.
Qed.

(** The search in the subtree under word [o] of level [p], over the levels
    [lows] below it. *)
Lemma find_loop_run lows b p rest o w random :
  storages_at b (length pre) (lows ++ p :: rest) → hier (lows ++ p :: rest) →
  words_ok (lows ++ p :: rest) → rng_ok (m_bit_rng b) →
  Forall (λ l, Z.of_nat (length l) ≤ 262144) (lows ++ p :: rest) → p !! o = Some w → w ≠ 0 →
  ∃ i g, find_block_loop assertions (S (length lows)) (length rest) random (Z.of_nat o)
           (bst b pre (lows ++ p :: rest) post) =
         Ok (Z.of_nat i, bst (with_rng b g) pre (lows ++ p :: rest) post) ∧ rng_ok g ∧
    tb (leaf_of lows p) i = true ∧ (i / 64 ^ S (length lows) = o)%nat ∧
    (random = false → ∀ j, tb (leaf_of lows p) j = true → (j / 64 ^ S (length lows) = o)%nat → (i ≤ j)%nat).
Proof.
  revert b p rest o w. induction lows as [|l lows IH] using rev_ind;
    intros b p rest o w Hst Hh Hw Hg Hlen Ho Hne; pose proof (words_ok_at _ _ _ _ _ Hw Ho) as Hww;
    (assert (Z.of_nat (length p) ≤ 262144) as Hpl by
      (apply Forall_app in Hlen as [_ Hlen]; by apply Forall_cons in Hlen as [? _])).
  - destruct (find_level_run [] b p rest o w random) as (bit & g & Hbit & Hg' & Htb & Hbelow & Hrun); try done.
    exists (o * 64 + bit)%nat, g. split_and!; [by rewrite Hrun|done|done| |].
    + cbn [length]. rewrite Nat.pow_1_r, Nat.div_add_l, Nat.div_small by lia. lia.
    + intros Hr j Hj Hjo. cbn [length] in Hjo. rewrite Nat.pow_1_r in Hjo. by apply Hbelow.
  - destruct (find_level_run (lows ++ [l]) b p rest o w random) as (bit & g & Hbit & Hg' & Htb & Hbelow & Hround); try done.
    rewrite length_app, Nat.add_1_r, leaf_of_snoc, Hround. rewrite <- app_assoc in *. cbn [app] in *.
    pose proof (hier_adjacent _ _ _ _ Hh) as Hadj. pose proof Htb as Hnz. rewrite Hadj in Hnz.
    unfold nonzero_at in Hnz. destruct (l !! _) as [w'|] eqn:Hl; [|done].
    apply negb_true_iff, Z.eqb_neq in Hnz.
    destruct (IH (with_rng b g) l (p :: rest) (o * 64 + bit)%nat w')
      as (i & g2 & Hrun & Hg2 & Hleaf & Hdiv & Hless); try done.
    exists i, g2. split_and!; [exact Hrun|done|done|by eapply div_block|].
    intros Hr j Hj Hjo. set (q := (j / 64 ^ S (length lows))%nat).
    assert (Hq : (q / 64 = o)%nat).
    { unfold q. rewrite Nat.Div0.div_div, (Nat.mul_comm _ 64), <- Nat.pow_succ_r'. done. }
    assert (Hpq : tb p q = true).
    { rewrite Hadj. destruct lows as [|l0 lows'].
      - apply (hier_ancestor 0 l (p :: rest) j Hh Hj l eq_refl).
      - apply (hier_ancestor (S (length lows')) l0 (lows' ++ l :: p :: rest) j Hh Hj l).
        change ((lows' ++ l :: p :: rest) !! length lows' = Some l). by apply list_lookup_middle. }
    specialize (Hbelow Hr q Hpq Hq).
    destruct (decide (q = o * 64 + bit)%nat) as [Heq|Hneq]; [by apply Hless|].
    destruct (decide (i ≤ j)%nat); [done|].
    assert (q ≤ i / 64 ^ S (length lows))%nat by (apply Nat.Div0.div_le_mono; lia). lia.
Qed.
End find_block.

Section find_and_clear.
Context (assertions : bool) (pre post : list Z) (n : nat).
Implicit Types (X : gset nat) (i j k m : nat) (s : bstate) (l : list Z).

Lemma shaped_small ls : shaped ls → (length ls ≤ 4)%nat → Forall (λ l, Z.of_nat (length l) ≤ 262144) ls.
Proof.
  induction ls as [|l r IH]; intros Hs Hlen; [done|]. constructor.
  - pose proof (shaped_bound l r Hs) as Hb. cbn in Hlen.
    assert (64 ^ length r ≤ 64 ^ 3)%nat as Hp by (apply Nat.pow_le_mono_r; lia).
    apply Nat2Z.inj_le in Hb, Hp. rewrite !Nat2Z.inj_pow in Hp. rewrite Nat2Z.inj_pow in Hb.
    change (Z.of_nat 64 ^ Z.of_nat 3) with 262144 in Hp. lia.
  - destruct r as [|p r]; [done|]. apply IH; [apply Hs|cbn in *; lia].
Qed.

Lemma shaped_root ls root : shaped (ls ++ [root]) → length root = 1%nat.
Proof.
  induction ls as [|l r IH]; intros Hs; [done|]. apply IH.
  destruct r as [|p r]; cbn in Hs |- *; apply Hs.
Qed.

Lemma repr_rng s X g : repr s pre post n X → rng_ok g → repr (mkB (with_rng (bm s) g) (words s)) pre post n X.
Proof.
  intros (l & r & Hs & (Hst & Hh & Hsh & Hw & Hu & Hlen & Hg) & Hl & HX & Hnum) Hg'.
  exists l, r. split_and!; try done. unfold bst. cbn. f_equal. rewrite Hs. done.
Qed.

Lemma FindFreeBlock_run s X random : repr s pre post n X →
  ∃ r s', FindFreeBlock assertions random s = Ok (r, s') ∧ repr s' pre post n X ∧
    ((r = -1 ∧ X = ∅) ∨
     ∃ i, r = Z.of_nat i ∧ i ∈ X ∧ (random = false → ∀ j, j ∈ X → (i ≤ j)%nat)).
Proof.
  intros Hrep. pose proof Hrep as (l & r & Hs & Hb & Hl & HX & Hnum).
  pose proof Hb as (Hst & Hh & Hsh & Hw & Hu & Hlen & Hg).
  destruct (exists_last (l := l :: r) ltac:(done)) as (lows & root & Hls).
  assert (Hleaf : leaf_of lows root = l) by (destruct lows; by injection Hls).
  assert (Hroot : length root = 1%nat) by (eapply shaped_root; by rewrite <- Hls).
  destruct root as [|w [|]]; try done.
  assert (Hsub : ∀ j, j ∈ X → w ≠ 0 ∧ (j / 64 ^ S (length lows) = 0)%nat).
  { intros j Hj%HX. pose proof (hier_ancestor (length lows) l r j Hh Hj [w]) as Hanc.
    rewrite Hls in Hanc. rewrite list_lookup_middle in Hanc by done. specialize (Hanc eq_refl).
    unfold nonzero_at in Hanc. destruct (j / 64 ^ S (length lows))%nat; [|done]. cbn in Hanc.
    apply negb_true_iff, Z.eqb_neq in Hanc. done. }
  assert (Hfuel : Z.to_nat (Z.max 1 (m_used_depths (bm s))) = S (length lows)).
  { rewrite Hu, Hls, length_app. cbn. lia. }
  unfold FindFreeBlock. erewrite st_bind_run by reflexivity. rewrite Hfuel.
  destruct (decide (w = 0)) as [->|Hne].
  - exists (-1), s. split_and!; [|done|].
    + cbn [find_block_loop]. rewrite Hs, Hls at 1.
      erewrite st_bind_run by (apply (read_word_run _ _ _ lows [0] [] 0 0); [by rewrite <- Hls|done]).
      cbn. unfold KASSERT. rewrite Hs, Hls. by destruct assertions.
    + left. split; [done|]. apply set_eq. intros j. split; [intros Hj; by destruct (Hsub j Hj)|set_solver].
  - destruct (find_loop_run assertions pre post lows (bm s) [w] [] 0 w random) as (i & g & Hrun & Hg' & Hi & _ & Hmin);
      try (rewrite <- Hls; done); try done.
    { rewrite <- Hls. by apply shaped_small. }
    rewrite Hleaf in *. exists (Z.of_nat i), (mkB (with_rng (bm s) g) (words s)). split_and!.
    + rewrite Hs, Hls at 1. cbn [length] in Hrun. change (Z.of_nat 0) with 0 in Hrun. rewrite Hrun. unfold bst. repeat f_equal.
      rewrite <- Hls. by rewrite Hs.
    + by apply repr_rng.
    + right. exists i. split_and!; [done|by apply HX|]. intros Hr j Hj. apply Hmin; [done|by apply HX|by apply Hsub].
Qed.

(** Storing a word over one that is not zero, with the bits above cleared when
    the new word is zero. *)
Lemma store_word_run b l r k w v : bitmap_at b pre (l :: r) → l !! k = Some w → w ≠ 0 →
  ∀ A (f : unit → bmM A),
  (_ ← write_word (length r) (Z.of_nat k) v;
   u ← (if v =? 0 then clear_bit_loop assertions (length r) (Z.of_nat k) else mret tt); f u)
    (bst b pre (l :: r) post) = f tt (bst b pre (put_word k v (l :: r)) post).
Proof.
  intros (Hst & Hh & Hsh & Hw & _) Hk Hne A f. pose proof (lookup_lt_Some _ _ _ Hk) as Hlt.
  erewrite st_bind_run by (by apply (write_word_run b pre post [] l r)). cbn [app].
  destruct r as [|p r].
  { erewrite st_bind_run; [reflexivity|]. by destruct (v =? 0). }
  rewrite put_word_cons. unfold nonzero_at. rewrite Hk, (proj2 (Z.eqb_neq w 0) Hne).
  destruct Hh as [Hp Hh]. pose proof (shaped_parent _ _ _ _ Hsh Hlt) as Hip. destruct Hsh as [_ Hsh].
  apply Forall_cons in Hw as [_ Hw].
  destruct (v =? 0) eqn:Hz; cbn [negb Bool.eqb]; [|done].
  erewrite st_bind_run; [reflexivity|].
  etrans; [apply (clear_bit_run assertions b pre post [<[k := v]> l] (p :: r) p r k eq_refl); try done|].
  - eapply storages_shape; [|exact Hst]. cbn. by rewrite length_insert.
  - rewrite Hp. unfold nonzero_at. by rewrite Hk, (proj2 (Z.eqb_neq w 0) Hne).
  - cbn [app]. unfold flag_word. rewrite Hz. done.
Qed.

Definition range (off count : nat) : gset nat := list_to_set (seq off count).

Lemma elem_of_range off count j : j ∈ range off count ↔ (off ≤ j < off + count)%nat.
Proof. unfold range. by rewrite elem_of_list_to_set, elem_of_seq. Qed.

Lemma size_range off count : size (range off count) = count.
Proof. unfold range. rewrite size_list_to_set by apply NoDup_seq. apply length_seq. Qed.

Definition range_mask (count shift : Z) : Z := u64 (Z.shiftl (Z.shiftl 1 count - 1) shift).

Lemma range_mask_testbit c sh x : 0 ≤ c → 0 ≤ sh → 0 ≤ x < 64 →
  Z.testbit (range_mask c sh) x = bool_decide (sh ≤ x < sh + c).
Proof.
  intros Hc Hsh Hx. unfold range_mask, wrap. rewrite Z.mod_pow2_bits_low, Z.shiftl_spec by lia.
  rewrite Z.shiftl_1_l. replace (2 ^ c - 1) with (Z.ones c) by (rewrite Z.ones_equiv; lia).
  destruct (decide (x < sh)); [rewrite Z.testbit_neg_r, bool_decide_eq_false_2 by lia; done|].
  destruct (decide (x - sh < c)); [rewrite Z.ones_spec_low, bool_decide_eq_true_2 by lia; done|].
  rewrite Z.ones_spec_high, bool_decide_eq_false_2 by lia. done.
Qed.

Lemma land_mask_full v c sh : in_width 64 v → 0 ≤ c → 0 ≤ sh →
  Z.land v (range_mask c sh) = range_mask c sh ↔
  ∀ x, 0 ≤ x < 64 → sh ≤ x < sh + c → Z.testbit v x = true.
Proof.
  intros Hv Hc Hsh. split.
  - intros Heq x Hx Hr. assert (Hm : Z.testbit (range_mask c sh) x = true)
      by (rewrite range_mask_testbit by lia; by apply bool_decide_eq_true_2).
    rewrite <- Heq, Z.land_spec in Hm. by apply andb_true_iff in Hm as [? _].
  - intros Hall. apply Z.bits_inj'. intros x Hx. rewrite Z.land_spec.
    destruct (decide (x < 64)) as [H64|H64]; cycle 1.
    { rewrite !width_bits; [done|by apply wrap_in_width|lia|done|lia]. }
    rewrite range_mask_testbit by lia. case_bool_decide as Hr; [|apply andb_false_r].
    rewrite Hall by lia. done.
Qed.

(** Storing a word of the leaf level, as a step on the set. *)
Lemma repr_store s l r X X' k w v d :
  s = bst (bm s) pre (l :: r) post → bitmap_at (bm s) pre (l :: r) → length l = n →
  l !! k = Some w → in_width 64 v → 0 ≤ d < 2 ^ 64 →
  (∀ j, j ∈ X' ↔ tb (<[k := v]> l) j = true) → Z.of_nat (size X') = m_num_bits (bm s) - d →
  repr (mkB (set_num_bits (u64 (m_num_bits (bm s) - d)) (bm s)) (pre ++ concat (put_word k v (l :: r)) ++ post))
    pre post n X'.
Proof.
  intros Hs Hb Hl Hk Hv Hd HX' Hsz. pose proof (lookup_lt_Some _ _ _ Hk) as Hlt.
  set (b' := set_num_bits (u64 (m_num_bits (bm s) - d)) (bm s)).
  destruct (bitmap_put (bm s) b' pre l r k v Hb Hlt Hv) as (r' & Hput & Hb'); [done..|].
  assert (Hrep0 : ∀ num, num = Z.of_nat (size X') → m_num_bits b' = num →
    repr (bst b' pre (<[k := v]> l :: r') post) pre post n X').
  { intros num -> Hn. exists (<[k := v]> l), r'. split_and!; try done. by rewrite length_insert. }
  rewrite Hput. eapply Hrep0; [reflexivity|]. cbn. rewrite <- Hsz.
  assert (Hsmall : (size X' ≤ 64 * n)%nat ∧ Z.of_nat n ≤ 262144).
  { pose proof Hb' as (_ & _ & Hsh & _ & _ & Hlen & _). pose proof (shaped_small _ Hsh Hlen) as Hsm.
    apply Forall_cons in Hsm as [Hsm _]. rewrite length_insert in Hsm. split; [|lia].
    rewrite <- Hl, <- (length_insert l k v), <- (size_range 0 (64 * length (<[k := v]> l))).
    apply subseteq_size. intros j Hj%HX'%tb_lt. apply elem_of_range. lia. }
  apply wrap_small. unfold in_width. lia.
Qed.

Lemma ClearRange_small_run s X off count :
  repr s pre post n X → (0 < count < 64)%nat → (off mod 64 + count ≤ 64)%nat → (off < 64 * n)%nat →
  ∃ s', ClearRange assertions (Z.of_nat off) (Z.of_nat count) s =
          Ok (bool_decide (range off count ⊆ X), s') ∧
        repr s' pre post n (if bool_decide (range off count ⊆ X) then X ∖ range off count else X).
Proof.
  intros Hrep Hc Hfit Hoff. pose proof Hrep as (l & r & Hs & Hb & Hl & HX & Hnum).
  pose proof Hb as (Hst & _ & _ & _ & Hu & _). rewrite <- Hl in Hoff. apply div_lt_words in Hoff.
  destruct (lookup_lt_is_Some_2 l _ Hoff) as [w Hw].
  assert (Hww : in_width 64 w) by (pose proof (leaf_word _ _ _ _ _ Hb Hoff) as H; by rewrite Hw in H).
  set (sh := Z.of_nat (off mod 64)). set (mask := range_mask (Z.of_nat count) sh).
  (* a bit of the range is a bit of the mask *)
  assert (Hin : ∀ j, j ∈ range off count ↔ (j / 64 = off / 64)%nat ∧ sh ≤ Z.of_nat (j mod 64) < sh + Z.of_nat count).
  { intros j. rewrite elem_of_range. pose proof (Nat.div_mod_eq j 64). pose proof (Nat.div_mod_eq off 64).
    pose proof (Nat.mod_upper_bound j 64 ltac:(lia)). pose proof (Nat.mod_upper_bound off 64 ltac:(lia)).
    unfold sh. split; [intros Hj; assert (j / 64 = off / 64)%nat by lia; lia|lia]. }
  assert (Hsub : range off count ⊆ X ↔ Z.land w mask = mask).
  { unfold mask. rewrite land_mask_full by (done || lia). split.
    - intros Hsub x Hx Hr. assert (Hj : (off / 64 * 64 + Z.to_nat x)%nat ∈ X).
      { apply Hsub, Hin. rewrite Nat.div_add_l, (Nat.div_small (Z.to_nat x)), Nat.add_0_r by lia. split; [done|].
        rewrite Nat.add_comm, Nat.Div0.mod_add, Nat.mod_small by lia. lia. }
      apply HX in Hj. unfold tb in Hj.
      rewrite Nat.div_add_l, (Nat.div_small (Z.to_nat x)), Nat.add_0_r, Hw in Hj by lia.
      by rewrite Nat.add_comm, Nat.Div0.mod_add, Nat.mod_small, Z2Nat.id in Hj by lia.
    - intros Hall j [Hd Hr]%Hin. apply HX. unfold tb. rewrite Hd, Hw. apply Hall; [|done].
      pose proof (Nat.mod_upper_bound j 64). lia. }
  unfold ClearRange. erewrite st_bind_run by reflexivity.
  replace (Z.to_nat (GetHighestDepthIndex (bm s))) with (length r) by (unfold GetHighestDepthIndex; rewrite Hu; cbn; lia).
  rewrite (proj2 (Z.ltb_lt _ 64)) by lia. rewrite nat_div_64, nat_mod_64. fold sh. fold (range_mask (Z.of_nat count) sh). fold mask.
  assert (Hassert : ∀ s, KASSERT assertions (sh + Z.of_nat count <=? 64) s = Ok (tt, s)).
  { intros s0. unfold KASSERT. rewrite (proj2 (Z.leb_le _ _)) by lia. by destruct assertions. }
  destruct (Z.eqb_spec (Z.land w mask) mask) as [Hfull|Hnot]; cycle 1.
  { exists s. rewrite bool_decide_eq_false_2 by (rewrite Hsub; done). split; [|done].
    erewrite (st_bind_run _ _ _ _ false); [reflexivity|]. erewrite st_bind_run by apply Hassert. rewrite Hs at 1.
    erewrite st_bind_run by (by apply (read_word_run (bm s) pre post [] l r)). cbn [app].
    rewrite (proj2 (Z.eqb_neq _ _) Hnot). by rewrite Hs at 2. }
  assert (Hwnz : w ≠ 0).
  { intros ->. rewrite Z.land_0_l in Hfull. assert (Hm : Z.testbit mask sh = true).
    { unfold mask. rewrite range_mask_testbit by lia. apply bool_decide_eq_true_2. lia. }
    by rewrite <- Hfull, Z.testbit_0_l in Hm. }
  set (v := Z.land w (u64 (Z.lnot mask))).
  rewrite bool_decide_eq_true_2 by (by apply Hsub).
  eexists. split.
  - erewrite st_bind_run; cycle 1.
    + erewrite st_bind_run by apply Hassert. rewrite Hs at 1.
      erewrite st_bind_run by (by apply (read_word_run (bm s) pre post [] l r)). cbn [app].
      rewrite Hfull, Z.eqb_refl. cbn [negb]. fold v. by rewrite (store_word_run _ _ _ _ _ v Hb Hw Hwnz).
    + reflexivity.
  - assert (Hsz : (size (range off count) ≤ size X)%nat) by (by apply subseteq_size, Hsub).
    rewrite size_range in Hsz.
    eapply (repr_store s l r X _ _ w v (Z.of_nat count)); try done.
    + by apply land_width.
    + lia.
    + intros j. rewrite tb_insert by done. rewrite elem_of_difference, HX, Hin.
      pose proof (Nat.mod_upper_bound j 64 ltac:(lia)).
      destruct (decide _) as [Hd|Hd]; [|tauto]. unfold v. rewrite Z.land_spec, lnot_mask_testbit by lia.
      unfold mask. rewrite range_mask_testbit by lia. unfold tb. rewrite Hd, Hw.
      rewrite andb_true_iff, negb_true_iff, bool_decide_eq_false. tauto.
    + rewrite size_difference, size_range by (by apply Hsub). lia.
Qed.

(** ** Ranges of whole words *)
Definition full_words (l : list Z) k m : bool := forallb (λ w, w =? 2 ^ 64 - 1) (take m (drop k l)).

Lemma all_set_loop_run b l r fuel k m :
  bitmap_at b pre (l :: r) → (m ≤ fuel)%nat → (0 < m)%nat → (k + m ≤ length l)%nat →
  all_set_loop fuel (length r) (Z.of_nat k) (Z.of_nat (64 * m)) (bst b pre (l :: r) post) =
  Ok (full_words l k m, bst b pre (l :: r) post).
Proof.
  intros Hb. pose proof Hb as (Hst & _ & Hsh & _ & _ & Hlen & _).
  pose proof (shaped_small _ Hsh Hlen) as Hsm. apply Forall_cons in Hsm as [Hsm _].
  revert k m. induction fuel as [|fuel IH]; intros k m Hf Hm Hk; [lia|].
  destruct m as [|m]; [lia|]. destruct (lookup_lt_is_Some_2 l k ltac:(lia)) as [w Hw].
  cbn [all_set_loop]. erewrite st_bind_run by (by apply (read_word_run b pre post [] l r)). cbn [app].
  unfold full_words. rewrite (drop_S _ _ _ Hw). cbn [take forallb].
  destruct (w =? 2 ^ 64 - 1); cbn [negb andb]; [|done].
  rewrite wrap_small by (unfold in_width; lia).
  replace (Z.of_nat (64 * S m) - 64) with (Z.of_nat (64 * m)) by lia.
  destruct m as [|m]; [done|]. rewrite (proj2 (Z.ltb_lt 0 _)) by lia.
  replace (Z.of_nat k + 1) with (Z.of_nat (S k)) by lia. apply IH; lia.
Qed.

Fixpoint zero_words k m (l : list Z) : list Z :=
  match m with O => l | S m' => zero_words (S k) m' (<[k := 0]> l) end.

Lemma length_zero_words k m l : length (zero_words k m l) = length l.
Proof. revert k l. induction m as [|m IH]; intros k l; [done|]. cbn. by rewrite IH, length_insert. Qed.

Lemma zero_words_bit k m l j : (k + m ≤ length l)%nat →
  tb (zero_words k m l) j = tb l j && negb (bool_decide (64 * k ≤ j < 64 * (k + m))%nat).
Proof.
  pose proof (Nat.div_mod_eq j 64). pose proof (Nat.mod_upper_bound j 64 ltac:(lia)).
  revert k l. induction m as [|m IH]; intros k l Hk; cbn [zero_words].
  { rewrite bool_decide_eq_false_2 by lia. by rewrite andb_true_r. }
  rewrite IH by (rewrite length_insert; lia). rewrite tb_insert by lia.
  destruct (decide _) as [Hd|Hd].
  - rewrite Z.testbit_0_l, (bool_decide_eq_true_2 (64 * k ≤ _ < _)%nat) by lia. by rewrite andb_false_r.
  - repeat f_equal. apply bool_decide_ext. lia.
Qed.

Lemma clear_words_loop_run b l r fuel k m :
  bitmap_at b pre (l :: r) → (m ≤ fuel)%nat → (0 < m)%nat → (k + m ≤ length l)%nat →
  full_words l k m = true →
  ∃ r', clear_words_loop assertions fuel (length r) (Z.of_nat k) (Z.of_nat (64 * m)) (bst b pre (l :: r) post) =
          Ok (tt, bst b pre (zero_words k m l :: r') post) ∧ bitmap_at b pre (zero_words k m l :: r').
Proof.
  revert l r k m. induction fuel as [|fuel IH]; intros l r k m Hb Hf Hm Hk Hfull; [lia|].
  pose proof Hb as (_ & _ & Hsh & _ & _ & Hlen & _).
  pose proof (shaped_small _ Hsh Hlen) as Hsm. apply Forall_cons in Hsm as [Hsm _].
  destruct m as [|m]; [lia|]. destruct (lookup_lt_is_Some_2 l k ltac:(lia)) as [w Hw].
  unfold full_words in Hfull. rewrite (drop_S _ _ _ Hw) in Hfull. cbn in Hfull.
  apply andb_true_iff in Hfull as [->%Z.eqb_eq Hfull].
  destruct (bitmap_put b b pre l r k 0 Hb) as (r' & Hput & Hb'); [lia|unfold in_width; lia|done..|].
  cbn [clear_words_loop].
  pose proof (store_word_run b l r k (2 ^ 64 - 1) 0 Hb Hw ltac:(done)) as Hstore. cbn [Z.eqb] in Hstore.
  change (0 =? 0) with true in Hstore. rewrite Hstore, Hput.
  rewrite wrap_small by (unfold in_width; lia).
  replace (Z.of_nat (64 * S m) - 64) with (Z.of_nat (64 * m)) by lia.
  destruct m as [|m]; [by exists r'|]. rewrite (proj2 (Z.ltb_lt 0 _)) by lia.
  replace (Z.of_nat k + 1) with (Z.of_nat (S k)) by lia.
  assert (Hr : length r' = length r).
  { pose proof (put_word_shape k 0 (l :: r)) as Hshape. rewrite Hput in Hshape. cbn in Hshape.
    injection Hshape as _ Hshape. by rewrite <- (length_map length r), <- Hshape, length_map. }
  rewrite <- Hr. apply (IH (<[k := 0]> l) r' (S k) (S m)); [done|lia|lia|rewrite length_insert; lia|].
  unfold full_words. rewrite drop_insert_lt by lia. done.
Qed.

Lemma full_word_bits w : in_width 64 w → w = 2 ^ 64 - 1 ↔ ∀ x, 0 ≤ x < 64 → Z.testbit w x = true.
Proof.
  intros Hw. change (2 ^ 64 - 1) with (Z.ones 64). split; [intros ->; intros x Hx; by apply Z.ones_spec_low|].
  intros Hall. apply Z.bits_inj'. intros x Hx. destruct (decide (x < 64)).
  - rewrite Z.ones_spec_low by lia. by apply Hall.
  - rewrite width_bits, Z.ones_spec_high by (done || lia). done.
Qed.

Lemma full_words_range X l k m :
  (∀ i, i ∈ X ↔ tb l i = true) → Forall (in_width 64) l → (k + m ≤ length l)%nat →
  full_words l k m = true ↔ range (64 * k) (64 * m) ⊆ X.
Proof.
  intros HX Hw Hk. unfold full_words. rewrite forallb_forall. split.
  - intros Hall j Hj%elem_of_range. apply HX. unfold tb.
    pose proof (Nat.div_mod_eq j 64). pose proof (Nat.mod_upper_bound j 64 ltac:(lia)).
    destruct (lookup_lt_is_Some_2 l (j / 64) ltac:(lia)) as [w Hlw]. rewrite Hlw.
    assert (w = 2 ^ 64 - 1) as ->.
    { apply Z.eqb_eq, Hall, list_elem_of_In, list_elem_of_lookup. exists (j / 64 - k)%nat.
      rewrite lookup_take_lt, lookup_drop by lia. rewrite <- Hlw. f_equal. lia. }
    apply (full_word_bits (2 ^ 64 - 1)); [unfold in_width; lia|done|lia].
  - intros Hsub w Hin. apply list_elem_of_In, list_elem_of_lookup in Hin as [q Hq].
    apply lookup_take_Some in Hq as [Hq Hlt]. rewrite lookup_drop in Hq.
    apply Z.eqb_eq, full_word_bits; [by eapply Forall_lookup_1 in Hw|]. intros x Hx.
    assert (Hj : ((k + q) * 64 + Z.to_nat x)%nat ∈ X) by (apply Hsub, elem_of_range; lia).
    apply HX in Hj. unfold tb in Hj.
    rewrite Nat.div_add_l, (Nat.div_small (Z.to_nat x)), Nat.add_0_r, Hq in Hj by lia.
    by rewrite Nat.add_comm, Nat.Div0.mod_add, Nat.mod_small, Z2Nat.id in Hj by lia.
Qed.

Lemma ClearRange_words_run s X k m :
  repr s pre post n X → (0 < m)%nat → (k + m ≤ n)%nat →
  ∃ s', ClearRange assertions (Z.of_nat (64 * k)) (Z.of_nat (64 * m)) s =
          Ok (bool_decide (range (64 * k) (64 * m) ⊆ X), s') ∧
        repr s' pre post n (if bool_decide (range (64 * k) (64 * m) ⊆ X) then X ∖ range (64 * k) (64 * m) else X).
Proof.
  intros Hrep Hm Hk. pose proof (repr_small _ _ _ _ _ Hrep) as (Hszn & Hnn & _).
  pose proof Hrep as (l & r & Hs & Hb & Hl & HX & Hnum).
  pose proof Hb as (Hst & _ & _ & Hw & Hu & _). apply Forall_cons in Hw as [Hw _].
  pose proof (full_words_range X l k m HX Hw ltac:(lia)) as Hfull.
  unfold ClearRange. erewrite st_bind_run by reflexivity.
  replace (Z.to_nat (GetHighestDepthIndex (bm s))) with (length r) by (unfold GetHighestDepthIndex; rewrite Hu; cbn; lia).
  rewrite (proj2 (Z.ltb_ge _ 64)) by lia. rewrite !nat_div_64, !nat_mod_64.
  replace ((64 * k) / 64)%nat with k by (rewrite Nat.mul_comm, Nat.div_mul; lia).
  replace ((64 * k) mod 64)%nat with 0%nat by (rewrite Nat.mul_comm, Nat.Div0.mod_mul; lia).
  replace ((64 * m) mod 64)%nat with 0%nat by (rewrite Nat.mul_comm, Nat.Div0.mod_mul; lia).
  assert (Hassert : ∀ s, KASSERT assertions (Z.of_nat 0 =? 0) s = Ok (tt, s)) by (intros; unfold KASSERT; by destruct assertions).
  assert (Hcheck : all_set_loop (Z.to_nat (Z.of_nat (64 * m))) (length r) (Z.of_nat k) (Z.of_nat (64 * m)) s =
    Ok (full_words l k m, s)).
  { rewrite Hs at 1. rewrite (all_set_loop_run _ _ _ _ _ _ Hb) by lia. by rewrite Hs at 2. }
  destruct (full_words l k m) eqn:Hf; cycle 1.
  { exists s. rewrite bool_decide_eq_false_2 by (rewrite <- Hfull; done). split; [|done].
    erewrite (st_bind_run _ _ _ _ false); [reflexivity|]. do 2 erewrite st_bind_run by apply Hassert.
    by erewrite st_bind_run by exact Hcheck. }
  destruct (clear_words_loop_run (bm s) l r (Z.to_nat (Z.of_nat (64 * m))) k m Hb) as (r' & Hrun & Hb'); try lia; [done|].
  rewrite <- Hs in Hrun. rewrite bool_decide_eq_true_2 by (by apply Hfull). eexists. split.
  - erewrite (st_bind_run _ _ _ _ true); [reflexivity|]. do 2 erewrite st_bind_run by apply Hassert.
    erewrite st_bind_run by exact Hcheck. cbv beta iota. by erewrite st_bind_run by exact Hrun.
  - assert (Hsz : (size (range (64 * k) (64 * m)) ≤ size X)%nat) by (by apply subseteq_size, Hfull).
    rewrite size_range in Hsz.
    exists (zero_words k m l), r'. split_and!; [done|by apply Hb'|by rewrite length_zero_words| |].
    + intros j. rewrite zero_words_bit by lia. rewrite elem_of_difference, HX, elem_of_range.
      rewrite andb_true_iff, negb_true_iff, bool_decide_eq_false.
      replace (64 * (k + m))%nat with (64 * k + 64 * m)%nat by lia. tauto.
    + rewrite size_difference, size_range by (by apply Hfull). cbn [bm m_num_bits set_num_bits].
      change (u64 (m_num_bits (bm s) - Z.of_nat (64 * m)) = Z.of_nat (size X - 64 * m)).
      rewrite Hnum, wrap_small by (unfold in_width; lia). lia.
Qed.
End find_and_clear.

(** ** Finding a free range *)
Section find_range.
Context (assertions : bool) (pre post : list Z) (n : nat).
Implicit Types (X : gset nat) (s : bstate) (l : list Z).

(** Option [o] of a word: [count] set bits at position [o * count]. *)
Definition option_free (w count o : Z) : Prop := ∀ x, 0 ≤ x < count → Z.testbit w (o * count + x) = true.

(** So many options were found, and the one that was chosen satisfies [C]. *)
Definition pick (C : Z → Prop) (num off : Z) : Prop := (num = 0 ∧ off = -1) ∨ (0 < num ∧ C off).

Lemma shiftr_width64 w k : 0 ≤ k → in_width 64 w → in_width 64 (Z.shiftr w k).
Proof.
  intros Hk [H0 H1]. rewrite Z.shiftr_div_pow2 by done. pose proof (pow2_pos k Hk).
  split; [by apply Z.div_pos|]. apply Z.div_lt_upper_bound; nia.
Qed.

Lemma option_test w count o : in_width 64 w → 0 < count < 64 → 0 ≤ o →
  let mask := Z.shiftl 1 count - 1 in
  Z.land (Z.shiftr w (o * count)) mask = mask ↔ option_free w count o.
Proof.
  intros Hw Hc Ho mask. assert (mask = range_mask count 0) as ->.
  { unfold mask, range_mask. rewrite Z.shiftl_0_r, wrap_small; [done|]. rewrite Z.shiftl_1_l. unfold in_width.
    pose proof (pow2_pos count ltac:(lia)). assert (2 ^ count < 2 ^ 64) by (apply Z.pow_lt_mono_r; lia). lia. }
  rewrite land_mask_full; [|apply shiftr_width64; [nia|done]|lia..].
  unfold option_free. split.
  - intros Hall x Hx. specialize (Hall x ltac:(lia) ltac:(lia)). rewrite Z.shiftr_spec in Hall by lia.
    rewrite <- Hall. f_equal. lia.
  - intros Hall x Hx Hr. rewrite Z.shiftr_spec by lia. rewrite <- (Hall x ltac:(lia)). f_equal. lia.
Qed.

Lemma options_loop_run C m w count si o num off s :
  in_width 64 w → 0 < count < 64 → 0 ≤ o → 0 ≤ num → num + Z.of_nat m < 2 ^ 64 → rng_ok (m_bit_rng (bm s)) →
  (∀ o', o ≤ o' < o + Z.of_nat m → option_free w count o' → C (si * 64 + o' * count)) →
  pick C num off →
  ∃ num' off' g,
    options_loop m (Z.shiftl 1 count - 1) count (Z.shiftr w (o * count)) si o num off s =
      Ok ((num', off'), mkB (with_rng (bm s) g) (words s)) ∧ rng_ok g ∧
    num ≤ num' ≤ num + Z.of_nat m ∧ pick C num' off' ∧
    (num' = 0 → ∀ o', o ≤ o' < o + Z.of_nat m → ¬ option_free w count o').
Proof.
  intros Hw Hc. revert o num off s. induction m as [|m IH]; intros o num off s Ho Hn Hmax Hg HC Hpick.
  { exists num, off, (m_bit_rng (bm s)). cbn [options_loop]. split_and!; try done; try lia.
    by destruct s as [[] ws]. }
  cbn [options_loop].
  assert (Hshift : Z.shiftr (Z.shiftr w (o * count)) count = Z.shiftr w ((o + 1) * count)).
  { rewrite Z.shiftr_shiftr by lia. f_equal. lia. }
  rewrite Hshift. pose proof (option_test w count o Hw Hc Ho) as Htest. cbv zeta in Htest.
  destruct (Z.eqb_spec (Z.land (Z.shiftr w (o * count)) (Z.shiftl 1 count - 1)) (Z.shiftl 1 count - 1)) as [He|He].
  - apply Htest in He as Hfree. rewrite (wrap_small 64 (num + 1)) by (unfold in_width; lia).
    assert (HCo : C (si * 64 + o * count)) by (apply HC; [lia|done]).
    assert (Hnext : ∃ g off1, rng_ok g ∧ pick C (num + 1) off1 ∧ ∀ A (f : Z * Z → bmM A),
      (p ← (take ← (if num + 1 =? 1 then mret true else
                      b ← get_bm; '(r, g) ← st_lift (GenerateRandom (num + 1) (m_bit_rng b));
                      _ ← mod_bm (set_rng g); mret (r =? 0));
            mret (num + 1, if (take : bool) then si * 64 + o * count else off)); f p) s =
      f (num + 1, off1) (mkB (with_rng (bm s) g) (words s))).
    { destruct (Z.eqb_spec (num + 1) 1) as [H1|H1].
      - exists (m_bit_rng (bm s)), (si * 64 + o * count). split_and!; [done|right; split; [lia|done]|].
        intros A f. by destruct s as [[] ws].
      - destruct (GenerateRandom_spec (num + 1) (m_bit_rng (bm s)) ltac:(lia) Hg) as (r & g & Hr & _ & Hg').
        exists g, (if r =? 0 then si * 64 + o * count else off). split_and!; [done| |].
        + right. split; [lia|]. destruct (r =? 0); [done|]. destruct Hpick as [[-> _]|[_ ?]]; [lia|done].
        + intros A f. erewrite st_bind_run; [reflexivity|]. erewrite st_bind_run; [reflexivity|].
          erewrite st_bind_run by reflexivity. by rewrite Hr. }
    destruct Hnext as (g & off1 & Hg1 & Hpick1 & Hrun). rewrite Hrun.
    destruct (IH (o + 1) (num + 1) off1 (mkB (with_rng (bm s) g) (words s))) as (num' & off' & g' & Hrun' & Hg' & Hle & Hp' & Hno);
      try done; try lia.
    { intros o' Hr Hf'. apply HC; [lia|done]. }
    exists num', off', g'. split_and!; try done; try lia.
  - destruct (IH (o + 1) num off s) as (num' & off' & g' & Hrun' & Hg' & Hle & Hp' & Hno); try done; try lia.
    { intros o' Hr Hf'. apply HC; [lia|done]. }
    exists num', off', g'. split_and!; try done; try lia.
    intros H0 o' Hr. destruct (decide (o' = o)) as [->|]; [intros Hf; by apply He, Htest|]. apply Hno; [done|lia].
Qed.

(** An option of the words of a level. *)
Definition candidate l (count off : Z) : Prop :=
  ∃ (q : nat) o w, off = Z.of_nat q * 64 + o * count ∧ l !! q = Some w ∧ 0 ≤ o < 64 / count ∧ option_free w count o.

Lemma range_loop_run b l r m (k : nat) count num off :
  bitmap_at b pre (l :: r) → 0 < count < 64 → (k + m = length l)%nat → 0 ≤ num → num + 64 * Z.of_nat m < 2 ^ 64 →
  pick (candidate l count) num off →
  ∃ off' g, range_loop m (length r) (Z.shiftl 1 count - 1) count (Z.of_nat k) num off (bst b pre (l :: r) post) =
      Ok (off', bst (with_rng b g) pre (l :: r) post) ∧ rng_ok g ∧
    ∃ num', num ≤ num' ∧ pick (candidate l count) num' off' ∧
      (num' = 0 → ∀ (q : nat) w o, l !! q = Some w → (k ≤ q)%nat → 0 ≤ o < 64 / count → ¬ option_free w count o).
Proof.
  intros Hb Hc. assert (Hopt : 0 < 64 / count ≤ 64).
  { split; [apply Z.div_str_pos; lia|]. transitivity (64 / 1); [apply Z.div_le_compat_l; lia|done]. }
  revert b k num off Hb. induction m as [|m IH]; intros b k num off Hb Hk Hn Hmax Hpick;
    pose proof Hb as (Hst & Hh & Hsh & Hw & Hu & Hlen & Hg).
  { exists off, (m_bit_rng b). split_and!; [by destruct b|done|]. exists num. split_and!; [lia|done|].
    intros _ q w o Hq Hqk. apply lookup_lt_Some in Hq. lia. }
  destruct (lookup_lt_is_Some_2 l k ltac:(lia)) as [w Hlw].
  assert (Hww : in_width 64 w) by (pose proof (leaf_word _ _ _ _ k Hb ltac:(lia)) as H; by rewrite Hlw in H).
  cbn [range_loop]. erewrite st_bind_run by (by apply (read_word_run b pre post [] l r)). cbn [app].
  rewrite Z.max_l by lia.
  destruct (options_loop_run (candidate l count) (Z.to_nat (64 / count)) w count (Z.of_nat k) 0 num off (bst b pre (l :: r) post))
    as (num1 & off1 & g1 & Hrun & Hg1 & Hle & Hp1 & Hno); try done; try lia.
  { intros o' Hr Hf. exists k, o', w. split_and!; try done; lia. }
  change (0 * count) with 0 in Hrun. rewrite Z.shiftr_0_r in Hrun.
  erewrite st_bind_run by exact Hrun. cbv beta iota.
  replace (Z.of_nat k + 1) with (Z.of_nat (S k)) by lia.
  change (mkB (with_rng (bm (bst b pre (l :: r) post)) g1) (words (bst b pre (l :: r) post)))
    with (bst (with_rng b g1) pre (l :: r) post).
  destruct (IH (with_rng b g1) (S k) num1 off1) as (off' & g' & Hrun' & Hg' & num' & Hle' & Hp' & Hno'); try done; try lia.
  exists off', g'. split_and!; [exact Hrun'|done|]. exists num'. split_and!; [lia|done|].
  intros H0 q w' o Hq Hkq Ho. destruct (decide (q = k)) as [->|]; [|by apply (Hno' H0 q); try lia].
  simplify_eq. apply Hno; lia.
Qed.

Lemma candidate_range X l count off : (∀ i, i ∈ X ↔ tb l i = true) → 0 < count < 64 →
  candidate l count off ↔ ∃ q o, off = Z.of_nat (64 * q + o * Z.to_nat count) ∧ (q < length l)%nat ∧
    Z.of_nat o < 64 / count ∧ range (64 * q + o * Z.to_nat count) (Z.to_nat count) ⊆ X.
Proof.
  intros HX Hc.
  assert (Hbits : ∀ q o w j, l !! q = Some w → 0 ≤ o < 64 / count → (j < Z.to_nat count)%nat →
    tb l (64 * q + Z.to_nat o * Z.to_nat count + j)%nat = Z.testbit w (o * count + Z.of_nat j)).
  { intros q o w j Hq Ho Hj. assert (o * count + count ≤ 64) by (pose proof (Z.mul_div_le 64 count ltac:(lia)); nia).
    assert (Z.of_nat (Z.to_nat o * Z.to_nat count) = o * count) as Hoc by lia.
    assert (Z.to_nat o * Z.to_nat count + j < 64)%nat as Hlt by lia.
    unfold tb. rewrite <- Nat.add_assoc, (Nat.mul_comm 64), Nat.div_add_l, (Nat.div_small _ _ Hlt), Nat.add_0_r, Hq by lia.
    rewrite Nat.add_comm, Nat.Div0.mod_add, (Nat.mod_small _ _ Hlt). f_equal. lia. }
  split.
  - intros (q & o & w & -> & Hq & Ho & Hf). exists q, (Z.to_nat o). split_and!; [lia|by eapply lookup_lt_Some|lia|].
    intros j Hj%elem_of_range. apply HX.
    replace j with (64 * q + Z.to_nat o * Z.to_nat count + (j - (64 * q + Z.to_nat o * Z.to_nat count)))%nat by lia.
    rewrite (Hbits q o w) by (done || lia). apply Hf. lia.
  - intros (q & o & -> & Hq & Ho & Hsub). destruct (lookup_lt_is_Some_2 l q Hq) as [w Hw].
    exists q, (Z.of_nat o), w. split_and!; [lia|done|lia|lia|]. intros x Hx.
    assert (Hj : (64 * q + o * Z.to_nat count + Z.to_nat x)%nat ∈ X) by (apply Hsub, elem_of_range; lia).
    apply HX in Hj. pose proof (Hbits q (Z.of_nat o) w (Z.to_nat x) Hw ltac:(lia) ltac:(lia)) as He.
    rewrite Nat2Z.id, Hj, Z2Nat.id in He by lia. done.
Qed.

(** The offset of option [o] of word [q]. *)
Definition option_offset (count q o : nat) : nat := 64 * q + o * count.

Lemma FindFreeRange_run s X (count : nat) : repr s pre post n X → (0 < count < 64)%nat →
  ∃ r s', FindFreeRange (Z.of_nat count) s = Ok (r, s') ∧ repr s' pre post n X ∧
    ((r = -1 ∧ ∀ q o, (q < n)%nat → (o < 64 / count)%nat → ¬ range (option_offset count q o) count ⊆ X) ∨
     ∃ q o, r = Z.of_nat (option_offset count q o) ∧ (q < n)%nat ∧ (o < 64 / count)%nat ∧
            range (option_offset count q o) count ⊆ X).
Proof.
  intros Hrep Hc. pose proof (repr_small _ _ _ _ _ Hrep) as (_ & Hnn & _).
  pose proof Hrep as (l & r & Hs & Hb & Hl & HX & Hnum). pose proof Hb as (Hst & Hh & Hsh & Hw & Hu & Hlen & Hg).
  destruct (Hst [] l r eq_refl) as [Hstart Hend]. cbn [concat length] in Hstart, Hend.
  assert (Hdepth : Z.to_nat (m_used_depths (bm s) - 1) = length r) by (rewrite Hu; cbn; lia).
  assert (Hdiv : 64 / Z.of_nat count = Z.of_nat (64 / count)) by (by rewrite Nat2Z.inj_div).
  pose proof (candidate_range X l (Z.of_nat count)) as Hcand. rewrite Nat2Z.id in Hcand.
  pose proof (shaped_pos _ _ Hsh) as Hposl.
  destruct (range_loop_run (bm s) l r (length l) 0 (Z.of_nat count) 0 (-1) Hb) as (off & g & Hrun & Hg' & num & _ & Hpick & Hno);
    try lia; [by left|].
  exists off, (bst (with_rng (bm s) g) pre (l :: r) post). split_and!.
  - unfold FindFreeRange. erewrite st_bind_run by reflexivity. rewrite Hdepth, Hstart, Hend.
    do 2 erewrite st_bind_run by reflexivity. rewrite (proj2 (Z.ltb_lt _ _)), (proj2 (Z.leb_le _ 64)) by lia. cbn [andb negb].
    rewrite (proj2 (Z.eqb_neq (Z.of_nat count) 0)) by lia. erewrite st_bind_run by reflexivity.
    rewrite (proj2 (Z.ltb_lt (Z.of_nat count) 64)) by lia. erewrite st_bind_run by reflexivity.
    match goal with |- context [range_loop (Z.to_nat ?e)] => replace (Z.to_nat e) with (length l) by lia end.
    rewrite Hs at 1. exact Hrun.
  - pose proof (repr_rng pre post n s X g Hrep Hg') as Hr. rewrite Hs in Hr at 2. exact Hr.
  - destruct Hpick as [[-> ->]|[_ HC]].
    + left. split; [done|]. intros q o Hq Ho Hsub.
      assert (candidate l (Z.of_nat count) (Z.of_nat (option_offset count q o))) as (q' & o' & w & _ & Hlw & Ho' & Hf).
      { apply Hcand; [done|lia|]. exists q, o. split_and!; [done|lia|lia|done]. }
      by apply (Hno eq_refl q' w o' Hlw); try lia.
    + right. apply Hcand in HC as (q & o & -> & Hq & Ho & Hsub); [|done|lia].
      exists q, o. split_and!; [done|lia|lia|done].
Qed.
End find_range.

(** ** Initialisation *)
Section initialize.
Context (assertions : bool).
Implicit Types (b : KPageBitmap) (size : nat).

(** The levels over [size] bits, all zero. *)
Fixpoint zero_levels (d size : nat) : list (list Z) :=
  match d with
  | O => []
  | S d' => let k := ((size + 63) / 64)%nat in replicate k 0 :: zero_levels d' k
  end.
Definition total_words (d size : nat) : nat := length (concat (zero_levels d size)).

Lemma level_words_nat size : Z.of_nat size < 2 ^ 60 → level_words (Z.of_nat size) = Z.of_nat ((size + 63) / 64).
Proof.
  intros Hs. unfold level_words. change 64 with (2 ^ 6) at 1. rewrite Util.AlignUp_pow2 by lia.
  change (2 ^ 6) with 64. rewrite Z.mul_comm, Z.div_mul by lia. rewrite Nat2Z.inj_div. f_equal; lia.
Qed.

Lemma levels_smaller size : Z.of_nat size < 2 ^ 60 → Z.of_nat ((size + 63) / 64) < 2 ^ 60.
Proof.
  intros Hs. pose proof (Nat.div_mod_eq (size + 63) 64). lia.
Qed.

Lemma zero_concat d size : concat (zero_levels d size) = replicate (total_words d size) 0.
Proof.
  unfold total_words. revert size. induction d as [|d IH]; intros size; [done|]. cbn [zero_levels concat].
  by rewrite IH, length_app, !length_replicate, replicate_add.
Qed.

Lemma zero_shaped d size : (0 < size)%nat → (size ≤ 64 ^ d)%nat → (0 < d)%nat → shaped (zero_levels d size).
Proof.
  revert size. induction d as [|d IH]; intros size Hs Hle Hd; [lia|].
  pose proof (Nat.div_mod_eq (size + 63) 64) as Hdm. pose proof (Nat.mod_upper_bound (size + 63) 64 ltac:(lia)).
  destruct d as [|d].
  { cbn [zero_levels shaped]. rewrite length_replicate. rewrite Nat.pow_1_r in Hle. lia. }
  rewrite Nat.pow_succ_r' in Hle.
  assert (shaped (zero_levels (S d) ((size + 63) / 64))) as Hsh by (apply IH; lia).
  cbn [zero_levels]. split; [by rewrite !length_replicate|]. exact Hsh.
Qed.

Lemma tb_zero k j : tb (replicate k 0) j = false.
Proof. unfold tb. destruct (_ !! _) eqn:H; [|done]. apply lookup_replicate in H as [-> _]. apply Z.testbit_0_l. Qed.

Lemma zero_hier d size : hier (zero_levels d size) ∧ words_ok (zero_levels d size).
Proof.
  revert size. induction d as [|d IH]; intros size; [split; [done|constructor]|]. destruct (IH ((size + 63) / 64)%nat) as [Hh Hw].
  cbn [zero_levels hier]. split; [split; [|exact Hh]|constructor; [|exact Hw]].
  - destruct d as [|d]; [done|]. cbn [zero_levels]. intros j. rewrite tb_zero. unfold nonzero_at.
    destruct (_ !! _) eqn:H; [|done]. by apply lookup_replicate in H as [-> _].
  - apply Forall_replicate. unfold in_width. lia.
Qed.

Lemma length_zero_levels d size : length (zero_levels d size) = d.
Proof. revert size. induction d as [|d IH]; intros size; [done|]. cbn [zero_levels length]. by rewrite IH. Qed.

Lemma required_depth_run fuel size d : (size < 64 ^ fuel)%nat → (0 < fuel)%nat →
  ∃ k, required_depth_loop fuel (Z.of_nat size) (Z.of_nat d) = Ok (Z.of_nat (d + k)) ∧
       (0 < k ≤ fuel)%nat ∧ (size < 64 ^ k)%nat ∧ (∀ m, (size < 64 ^ m)%nat → (0 < m)%nat → (k ≤ m)%nat).
Proof.
  revert size d. induction fuel as [|fuel IH]; intros size d Hs Hf; [lia|].
  cbn [required_depth_loop]. rewrite nat_div_64. destruct (Z.eqb_spec (Z.of_nat (size / 64)) 0) as [H0|H0].
  - exists 1%nat. split_and!; [f_equal; lia|lia|lia| |lia]. rewrite Nat.pow_1_r.
    pose proof (Nat.div_mod_eq size 64). pose proof (Nat.mod_upper_bound size 64 ltac:(lia)). lia.
  - rewrite Nat.pow_succ_r' in Hs.
    assert (size / 64 < 64 ^ fuel)%nat by (apply Nat.Div0.div_lt_upper_bound; lia).
    assert (0 < fuel)%nat by (destruct fuel; [cbn in *; lia|lia]).
    destruct (IH (size / 64)%nat (S d)) as (k & Hrun & Hk & Hlt & Hmin); [done|done|].
    exists (S k). replace (Z.of_nat d + 1) with (Z.of_nat (S d)) by lia. rewrite Hrun. split_and!; [f_equal; lia|lia|lia| |].
    + rewrite Nat.pow_succ_r'. pose proof (Nat.div_mod_eq size 64). pose proof (Nat.mod_upper_bound size 64 ltac:(lia)). nia.
    + intros [|m] Hm Hm0; [lia|]. rewrite Nat.pow_succ_r' in Hm.
      assert (size / 64 < 64 ^ m)%nat as Hm' by (apply Nat.Div0.div_lt_upper_bound; lia).
      destruct m as [|m]; [cbn in Hm'; lia|]. specialize (Hmin (S m) Hm' ltac:(lia)). lia.
Qed.

Lemma storages_loop_run d base size s :
  length (m_bit_storages (bm s)) = 4%nat → length (m_end_storages (bm s)) = 4%nat → (d ≤ 4)%nat →
  Z.of_nat size < 2 ^ 60 →
  ∃ bits ends, storages_loop d (Z.of_nat base) (Z.of_nat size) s =
      Ok (Z.of_nat (base + total_words d size), mkB (set_storages bits ends (bm s)) (words s)) ∧
    length bits = 4%nat ∧ length ends = 4%nat ∧
    (∀ k, (d ≤ k)%nat → bits !! k = m_bit_storages (bm s) !! k ∧ ends !! k = m_end_storages (bm s) !! k) ∧
    storages_at (set_storages bits ends (bm s)) base (zero_levels d size).
Proof.
  revert base size s. induction d as [|d IH]; intros base size s Hb He Hd Hs.
  { exists (m_bit_storages (bm s)), (m_end_storages (bm s)). cbn [storages_loop zero_levels]. split_and!; try done.
    - unfold total_words. cbn. rewrite Nat.add_0_r. by destruct s as [[] ws].
    - intros done l rest H. by destruct done. }
  cbn [storages_loop]. erewrite st_bind_run by reflexivity.
  rewrite bool_decide_eq_true_2 by (unfold MaxDepth; lia). erewrite st_bind_run by reflexivity.
  erewrite st_bind_run by reflexivity. rewrite level_words_nat by done.
  set (k := ((size + 63) / 64)%nat). rewrite <- Nat2Z.inj_add. set (s1 := mkB _ _).
  destruct (IH (base + k)%nat k s1) as (bits & ends & Hrun & Hlb & Hle & Hkeep & Hst).
  { cbn. by rewrite length_insert. } { cbn. by rewrite length_insert. } { lia. } { by apply levels_smaller. }
  exists bits, ends. cbn in Hkeep. split_and!; try done.
  - rewrite Hrun. unfold total_words. cbn [zero_levels concat]. fold k. rewrite length_app, length_replicate.
    apply (f_equal (λ z, Ok (z, _))). lia.
  - intros j Hj. destruct (Hkeep j ltac:(lia)) as [-> ->]. by rewrite !list_lookup_insert_ne by lia.
  - intros done l rest Heq. cbn [zero_levels] in Heq. fold k in Heq. destruct done as [|l0 done]; cbn in Heq; injection Heq as <- Hrest.
    + rewrite <- Hrest, length_zero_levels. cbn. destruct (Hkeep d ltac:(lia)) as [-> ->].
      rewrite !list_lookup_insert_eq by lia. rewrite length_replicate, !Nat.add_0_r. done.
    + destruct (Hst done l rest Hrest) as [H1 H2]. cbn in H1, H2 |- *. rewrite H1, H2.
      rewrite length_app, length_replicate. split; do 2 f_equal; lia.
Qed.

Lemma Initialize_run s pre post size d :
  length (m_bit_storages (bm s)) = 4%nat → length (m_end_storages (bm s)) = 4%nat → rng_ok (m_bit_rng (bm s)) →
  (0 < size)%nat → (size < 64 ^ d)%nat → (0 < d ≤ 4)%nat →
  (∀ m, (size < 64 ^ m)%nat → (0 < m)%nat → (d ≤ m)%nat) →
  words s = pre ++ replicate (total_words d size) 0 ++ post →
  ∃ s', Initialize assertions (Z.of_nat (length pre)) (Z.of_nat size) s =
          Ok (Z.of_nat (length pre + total_words d size), s') ∧
        words s' = words s ∧ repr s' pre post ((size + 63) / 64) ∅.
Proof.
  intros Hb He Hg Hpos Hsize Hd Hmin Hws.
  assert (Hsz : Z.of_nat size < 2 ^ 60).
  { assert (64 ^ d ≤ 64 ^ 4)%nat as Hp by (apply Nat.pow_le_mono_r; lia).
    apply Nat2Z.inj_lt in Hsize. apply Nat2Z.inj_le in Hp. rewrite !Nat2Z.inj_pow in *. 
    change (Z.of_nat 64 ^ Z.of_nat 4) with 16777216 in Hp. lia. }
  assert (Hdepth : GetRequiredDepth (Z.of_nat size) = Ok (Z.of_nat d)).
  { unfold GetRequiredDepth. destruct (required_depth_run 11 size 0) as (k & Hrun & Hk & Hlt & Hk'); [|lia|].
    - eapply Nat.lt_le_trans; [exact Hsize|]. apply Nat.pow_le_mono_r; lia.
    - change (Z.of_nat 0) with 0 in Hrun. rewrite Hrun. f_equal. cbn. f_equal.
      pose proof (Hmin k Hlt ltac:(lia)). pose proof (Hk' d Hsize ltac:(lia)). lia. }
  unfold Initialize. erewrite st_bind_run by reflexivity. rewrite Hdepth. erewrite st_bind_run by reflexivity.
  erewrite st_bind_run by reflexivity.
  erewrite st_bind_run; [|unfold KASSERT; rewrite (proj2 (Z.leb_le _ _)) by (unfold MaxDepth; lia); by destruct assertions].
  erewrite st_bind_run by reflexivity. set (s1 := mkB _ _).
  replace (Z.to_nat (GetHighestDepthIndex (bm s1) + 1)) with d by (unfold GetHighestDepthIndex; cbn; lia).
  destruct (storages_loop_run d (length pre) size s1) as (bits & ends & Hrun & _ & _ & _ & Hst); try done; [lia|].
  rewrite Hrun. eexists. split; [reflexivity|]. split; [done|].
  destruct (zero_hier d size) as [Hh Hw]. pose proof (zero_shaped d size Hpos ltac:(lia) ltac:(lia)) as Hsh.
  destruct d as [|d]; [lia|]. exists (replicate ((size + 63) / 64) 0), (zero_levels d ((size + 63) / 64)).
  change (replicate ((size + 63) / 64) 0 :: zero_levels d ((size + 63) / 64)) with (zero_levels (S d) size).
  split_and!.
  - unfold bst. rewrite zero_concat. cbn [bm]. f_equal. cbn. exact Hws.
  - split_and!; try done; rewrite length_zero_levels; [done|unfold MaxDepth; lia].
  - apply length_replicate.
  - intros i. rewrite tb_zero. set_solver.
  - done.
Qed.

Lemma total_words_small d size : Z.of_nat size < 2 ^ 24 → (d ≤ 4)%nat → Z.of_nat (total_words d size) ≤ Z.of_nat d * 2 ^ 24.
Proof.
  unfold total_words. revert size. induction d as [|d IH]; intros size Hs Hd; [cbn; lia|].
  cbn [zero_levels concat]. rewrite length_app, length_replicate.
  pose proof (Nat.div_mod_eq (size + 63) 64). specialize (IH ((size + 63) / 64)%nat ltac:(lia) ltac:(lia)). lia.
Qed.

Lemma overhead_loop_run d size (acc : nat) : Z.of_nat size < 2 ^ 24 → (d ≤ 4)%nat → Z.of_nat acc + Z.of_nat d * 2 ^ 24 < 2 ^ 60 →
  overhead_loop d (Z.of_nat size) (Z.of_nat acc) = Z.of_nat (acc + total_words d size).
Proof.
  revert size acc. induction d as [|d IH]; intros size acc Hs Hd Hacc.
  { cbn. unfold total_words. cbn. f_equal. lia. }
  cbn [overhead_loop]. rewrite level_words_nat by lia. pose proof (Nat.div_mod_eq (size + 63) 64).
  rewrite wrap_small by (unfold in_width; lia). rewrite <- Nat2Z.inj_add, IH by lia.
  unfold total_words. cbn [zero_levels concat]. rewrite length_app, length_replicate. f_equal. lia.
Qed.

Lemma overhead_run size d : Z.of_nat size < 2 ^ 24 → (size < 64 ^ d)%nat → (0 < d ≤ 4)%nat →
  (∀ m, (size < 64 ^ m)%nat → (0 < m)%nat → (d ≤ m)%nat) →
  CalculateManagementOverheadSize (Z.of_nat size) = Ok (8 * Z.of_nat (total_words d size)).
Proof.
  intros Hs Hsize Hd Hmin. unfold CalculateManagementOverheadSize, GetRequiredDepth.
  destruct (required_depth_run 11 size 0) as (k & Hrun & Hk & Hlt & Hk'); [|lia|].
  { eapply Nat.lt_le_trans; [exact Hsize|]. apply Nat.pow_le_mono_r; lia. }
  assert (k = d) as ->. { pose proof (Hmin k Hlt ltac:(lia)). pose proof (Hk' d Hsize ltac:(lia)). lia. }
  change (Z.of_nat 0) with 0 in Hrun. rewrite Hrun. cbn [mbind res_bind Nat.add]. rewrite Nat2Z.id.
  change 0 with (Z.of_nat 0). rewrite overhead_loop_run by lia. cbn [Nat.add].
  pose proof (total_words_small d size Hs ltac:(lia)). unfold mret, res_ret.
  rewrite wrap_small by (unfold in_width; lia). f_equal. lia.
Qed.
End initialize.

(** ** The contract *)

(** The number of levels that a bitmap of [size] bits has. *)
Definition depth_of (size d : nat) : Prop :=
  (0 < d ≤ MaxDepth)%nat ∧ (size < 64 ^ d)%nat ∧ ∀ m, (size < 64 ^ m)%nat → (0 < m)%nat → (d ≤ m)%nat.

(** [Initialize] over zeroed management memory makes the empty set: for
    [size] bits that fit four levels it ends, takes exactly
    [CalculateManagementOverheadSize(size)] bytes of the memory and leaves the
    words before and after it alone. *)
Theorem bitmap_Initialize_empty assertions s pre post size d :
  length (m_bit_storages (bm s)) = 4%nat → length (m_end_storages (bm s)) = 4%nat → rng_ok (m_bit_rng (bm s)) →
  (0 < size)%nat → depth_of size d →
  words s = pre ++ replicate (total_words d size) 0 ++ post →
  CalculateManagementOverheadSize (Z.of_nat size) = Ok (8 * Z.of_nat (total_words d size)) ∧
  ∃ s', Initialize assertions (Z.of_nat (length pre)) (Z.of_nat size) s =
          Ok (Z.of_nat (length pre + total_words d size), s') ∧
        repr s' pre post ((size + 63) / 64) ∅.
Proof.
  unfold depth_of, MaxDepth. intros Hb He Hg Hpos (Hd & Hsize & Hmin) Hws.
  destruct (Initialize_run assertions s pre post size d) as (s' & Hrun & _ & Hrep); try done.
  split; [|by exists s']. apply overhead_run; try done. assert (64 ^ d ≤ 64 ^ 4)%nat as Hp by (apply Nat.pow_le_mono_r; lia).
  apply Nat2Z.inj_lt in Hsize. apply Nat2Z.inj_le in Hp. rewrite !Nat2Z.inj_pow in *.
  change (Z.of_nat 64 ^ Z.of_nat 4) with 16777216 in Hp. lia.
Qed.

Inductive bop : Set :=
  | BSet (i : nat) | BClear (i : nat) | BFind (random : bool)
  | BClearRange (off count : nat) | BFindRange (count : nat).
Inductive bret : Set := BUnit | BInt (z : Z) | BBool (b : bool).

Definition run_bop (assertions : bool) (x : bop) : bmM bret :=
  match x with
  | BSet i => _ ← SetBit assertions (Z.of_nat i); mret BUnit
  | BClear i => _ ← ClearBit assertions (Z.of_nat i); mret BUnit
  | BFind random => r ← FindFreeBlock assertions random; mret (BInt r)
  | BClearRange off count => r ← ClearRange assertions (Z.of_nat off) (Z.of_nat count); mret (BBool r)
  | BFindRange count => r ← FindFreeRange (Z.of_nat count); mret (BInt r)
  end.

(** The operations on a set [X] of offsets below [64 * n]. *)
Inductive bstep (n : nat) (X : gset nat) : bop → bret → gset nat → Prop :=
  | b_set i : bstep n X (BSet i) BUnit ({[i]} ∪ X)
  | b_clear i : bstep n X (BClear i) BUnit (X ∖ {[i]})
  | b_find random i : i ∈ X → (random = false → ∀ j, j ∈ X → (i ≤ j)%nat) →
      bstep n X (BFind random) (BInt (Z.of_nat i)) X
  | b_find_none random : X = ∅ → bstep n X (BFind random) (BInt (-1)) X
  | b_clear_range off count : range off count ⊆ X →
      bstep n X (BClearRange off count) (BBool true) (X ∖ range off count)
  | b_clear_range_no off count : ¬ range off count ⊆ X → bstep n X (BClearRange off count) (BBool false) X
  | b_find_range count q o : (q < n)%nat → (o < 64 / count)%nat → range (option_offset count q o) count ⊆ X →
      bstep n X (BFindRange count) (BInt (Z.of_nat (option_offset count q o))) X
  | b_find_range_none count :
      (∀ q o, (q < n)%nat → (o < 64 / count)%nat → ¬ range (option_offset count q o) count ⊆ X) →
      bstep n X (BFindRange count) (BInt (-1)) X.

(** A range that [ClearRange] is made for: inside one word, or whole words. *)
Definition clearable (n off count : nat) : Prop :=
  ((0 < count < 64)%nat ∧ (off mod 64 + count ≤ 64)%nat ∧ (off < 64 * n)%nat) ∨
  ∃ k m, off = (64 * k)%nat ∧ count = (64 * m)%nat ∧ (0 < m)%nat ∧ (k + m ≤ n)%nat.
Definition benabled (n : nat) (X : gset nat) (x : bop) : Prop :=
  match x with
  | BSet i => (i < 64 * n)%nat ∧ i ∉ X
  | BClear i => i ∈ X
  | BFind _ => True
  | BClearRange off count => clearable n off count
  | BFindRange count => (0 < count < 64)%nat
  end.

Lemma ClearRange_run assertions pre post n s X off count :
  repr s pre post n X → clearable n off count →
  ∃ s', ClearRange assertions (Z.of_nat off) (Z.of_nat count) s =
          Ok (bool_decide (range off count ⊆ X), s') ∧
        repr s' pre post n (if bool_decide (range off count ⊆ X) then X ∖ range off count else X).
Proof.
  intros Hrep [(Hc & Hfit & Hoff)|(k & m & -> & -> & Hm & Hk)].
  - by apply ClearRange_small_run.
  - by apply ClearRange_words_run.
Qed.

(** (C5) A page bitmap implements a set of block offsets, with and without
    assertions: setting and clearing bits add and remove them, [FindFreeBlock]
    gives an element (the smallest one, unless a random one is wanted) or -1 for
    the empty set, [ClearRange] removes a range exactly when all of it is in the
    set, and [FindFreeRange] gives an aligned range inside one word that is in
    the set, or -1 when there is none.  The levels above the bits stay
    consistent, the number of bits is the size of the set, and no word outside
    the bitmap changes. *)
Theorem page_bitmap_refines assertions pre post n x s X :
  repr s pre post n X → benabled n X x →
  ∃ r s' X', run_bop assertions x s = Ok (r, s') ∧ bstep n X x r X' ∧ repr s' pre post n X'.
Proof.
  intros Hrep Hen. destruct x as [i|i|random|off count|count]; cbn in Hen; unfold run_bop.
  - destruct Hen as [Hi HiX]. destruct (SetBit_run assertions pre post n s X i Hrep Hi HiX) as (s' & Hrun & Hrep').
    eexists _, s', _. erewrite st_bind_run by exact Hrun. by split_and!; [|constructor|].
  - destruct (ClearBit_run assertions pre post n s X i Hrep Hen) as (s' & Hrun & Hrep').
    eexists _, s', _. erewrite st_bind_run by exact Hrun. by split_and!; [|constructor|].
  - destruct (FindFreeBlock_run assertions pre post n s X random Hrep) as (r & s' & Hrun & Hrep' & Hr).
    exists (BInt r), s', X. erewrite st_bind_run by exact Hrun. split_and!; [done| |done].
    destruct Hr as [[-> HX]|(i & -> & Hi & Hmin)]; by constructor.
  - destruct (ClearRange_run assertions pre post n s X off count Hrep Hen) as (s' & Hrun & Hrep').
    eexists _, s', _. erewrite st_bind_run by exact Hrun. split_and!; [done| |exact Hrep'].
    case_bool_decide; by constructor.
  - destruct (FindFreeRange_run pre post n s X count Hrep Hen) as (r & s' & Hrun & Hrep' & Hr).
    exists (BInt r), s', X. erewrite st_bind_run by exact Hrun. split_and!; [done| |done].
    destruct Hr as [[-> Hno]|(q & o & -> & Hq & Ho & Hsub)]; by constructor.
Qed.

(** A full word as the range: the guard [count <= BITSIZEOF(u64)] lets it
    through to a shift by 64. *)
Theorem FindFreeRange_64_undefined pre post n s X :
  repr s pre post n X → FindFreeRange 64 s = Err BadShift.
Proof.
  intros (l & r & Hs & Hb & Hl & HX & Hnum). pose proof Hb as (Hst & _ & Hsh & _ & Hu & _).
  destruct (Hst [] l r eq_refl) as [Hstart Hend]. cbn [concat length] in Hstart, Hend.
  pose proof (shaped_pos _ _ Hsh). unfold FindFreeRange. erewrite st_bind_run by reflexivity.
  replace (Z.to_nat (m_used_depths (bm s) - 1)) with (length r) by (rewrite Hu; cbn; lia).
  rewrite Hstart, Hend. do 2 erewrite st_bind_run by reflexivity.
  by rewrite (proj2 (Z.ltb_lt _ _)) by lia.
Qed.

Module SampleBitmap.
(** A bitmap of 100 bits between two words that do not belong to it. *)
Definition s0 : bstate :=
  mkB (mkBitmap [0; 0; 0; 0] [0; 0; 0; 0] (mkRng (TinyMT.Initialize 7) 0 0) 0 0) ([42] ++ replicate 3 0 ++ [43]).
Lemma depth_100 : depth_of 100 2.
Proof.
  split_and!; [unfold MaxDepth; lia..|vm_compute; lia|]. intros [|[|m]] Hm Hm0; [lia|vm_compute in Hm; lia|lia].
Qed.
Definition s1 : bstate := match Initialize true 1 100 s0 with Ok (_, s) => s | Err _ => s0 end.
Lemma s1_repr : repr s1 [42] [43] 2 ∅.
Proof.
  destruct depth_100 as (Hd & Hs & Hm).
  unfold MaxDepth in Hd. destruct (Initialize_run true s0 [42] [43] 100 2) as (s' & Hrun & _ & Hrep); try done; try lia; try (unfold rng_ok, in_width; cbn; lia).
  unfold s1. change (Initialize true 1 100 s0 = Ok (4, s')) in Hrun. by rewrite Hrun.
Qed.
End SampleBitmap.

Lemma bitmap_Initialize_empty_witness :
  CalculateManagementOverheadSize 100 = Ok 24 ∧
  ∃ s', Initialize true 1 100 SampleBitmap.s0 = Ok (4, s') ∧ repr s' [42] [43] 2 ∅.
Proof.
  apply (bitmap_Initialize_empty true SampleBitmap.s0 [42] [43] 100 2);
    [reflexivity|reflexivity|unfold rng_ok, in_width; cbn; lia|lia|apply SampleBitmap.depth_100|reflexivity].
Defined.

Lemma page_bitmap_refines_witness :
  ∃ r s' X', run_bop true (BSet 70) SampleBitmap.s1 = Ok (r, s') ∧ bstep 2 ∅ (BSet 70) r X' ∧ repr s' [42] [43] 2 X'.
Proof.
  apply (page_bitmap_refines true [42] [43] 2 (BSet 70) SampleBitmap.s1 ∅ SampleBitmap.s1_repr).
  split; [lia|set_solver].
Defined.
