(* ===== verification/PageHeap.v ===== *)
(** * Page heaps of the kernel

    [KPageHeap] (libmesosphere, [kern_k_page_heap.hpp] and [.cpp]): a buddy-like
    allocator of physical pages.  It keeps one page bitmap of free blocks for
    each block size, all of them in one management memory; freeing coalesces
    complete groups of blocks into the next size, allocating splits. *)

From S2P Require Import Prelude Vapours TinyMT PageBitmap.

Definition PageSize : Z := 4096.
Definition MemoryBlockPageShifts : list Z := [0xC; 0x10; 0x15; 0x16; 0x19; 0x1D; 0x1E].
Definition NumMemoryBlockPageShifts : nat := 7.
Definition NullAddress : Z := 0.

(** ** Block sizes *)
Definition GetBlockSize (index : nat) : Z := Z.shiftl 1 (nth index MemoryBlockPageShifts 0).
Definition GetBlockNumPages (index : nat) : Z := GetBlockSize index / PageSize.

Fixpoint aligned_index_loop (shifts : list Z) (target_pages i : Z) : Z :=
  match shifts with
  | [] => -1
  | sh :: rest =>
      if target_pages <=? Z.shiftl 1 sh / PageSize then i else aligned_index_loop rest target_pages (i + 1)
  end.
Definition GetAlignedBlockIndex (num_pages align_pages : Z) : Z :=
  aligned_index_loop MemoryBlockPageShifts (Z.max num_pages align_pages) 0.

Fixpoint block_index_loop (n : nat) (num_pages : Z) : Z :=
  match n with
  | O => -1
  | S i => if GetBlockNumPages i <=? num_pages then Z.of_nat i else block_index_loop i num_pages
  end.
Definition GetBlockIndex (num_pages : Z) : Z := block_index_loop NumMemoryBlockPageShifts num_pages.

(** ** Blocks of one size *)
Record Block := mkBlock {
  m_bitmap : KPageBitmap;
  m_block_heap_address : Z;
  m_end_offset : Z;
  m_block_shift : Z;
  m_next_block_shift : Z;
}.

Definition GetShift (b : Block) : Z := m_block_shift b.
Definition GetNextShift (b : Block) : Z := m_next_block_shift b.
Definition GetSize (b : Block) : Z := Z.shiftl 1 (GetShift b).
Definition GetNumPages (b : Block) : Z := GetSize b / PageSize.
Definition GetNumFreeBlocks (b : Block) : Z := m_num_bits (m_bitmap b).
Definition Block_GetNumFreePages (b : Block) : Z := u64 (GetNumFreeBlocks b * GetNumPages b).

(** ** The heap *)
Record KPageHeap := mkHeap {
  m_heap_address : Z;
  m_heap_size : Z;
  m_initial_used_size : Z;
  m_num_blocks : nat;
  m_blocks : list Block;
  m_heap_rng : RandomBitGenerator;
}.
Definition GetEndAddress (h : KPageHeap) : Z := u64 (m_heap_address h + m_heap_size h).
Definition GetPageOffset (h : KPageHeap) (block : Z) : Z := u64 (block - m_heap_address h) / PageSize.
Definition GetPageOffsetToEnd (h : KPageHeap) (block : Z) : Z := u64 (GetEndAddress h - block) / PageSize.

(** The heap and the words of its management memory. *)
Record hstate := mkH { heap : KPageHeap; mgmt : list Z }.

Abbreviation heapM := (stM hstate).
Definition get_heap : heapM KPageHeap := s ← st_get; mret (heap s).
Definition set_blocks (l : list Block) (h : KPageHeap) : KPageHeap :=
  mkHeap (m_heap_address h) (m_heap_size h) (m_initial_used_size h) (m_num_blocks h) l (m_heap_rng h).
Definition set_heap_rng (g : RandomBitGenerator) (h : KPageHeap) : KPageHeap :=
  mkHeap (m_heap_address h) (m_heap_size h) (m_initial_used_size h) (m_num_blocks h) (m_blocks h) g.
Definition set_bitmap (bmp : KPageBitmap) (b : Block) : Block :=
  mkBlock bmp (m_block_heap_address b) (m_end_offset b) (m_block_shift b) (m_next_block_shift b).
Definition mod_heap (f : KPageHeap → KPageHeap) : heapM unit := st_mod (λ s, mkH (f (heap s)) (mgmt s)).

(** [m_blocks[i]], and an operation on its bitmap. *)
Definition get_blk (i : nat) : heapM Block :=
  h ← get_heap; st_lift (of_option OutOfBounds (m_blocks h !! i)).
Definition put_blk (i : nat) (b : Block) : heapM unit :=
  mod_heap (λ h, set_blocks (<[i := b]> (m_blocks h)) h).
Definition on_bitmap {A} (i : nat) (m : bmM A) : heapM A :=
  b ← get_blk i;
  s ← st_get;
  '(r, bs) ← st_lift (m (mkB (m_bitmap b) (mgmt s)));
  _ ← st_mod (λ s, mkH (heap s) (words bs));
  _ ← put_blk i (set_bitmap (bm bs) b);
  mret r.

Section heap.
Context (assertions : bool).
Definition HASSERT (b : bool) : heapM unit := if assertions then st_check b Aborted else mret tt.

Definition Block_Initialize (i : nat) (addr size bs nbs bit_storage : Z) : heapM Z :=
  b ← get_blk i;
  let end_ := u64 (addr + size) in
  let align := if negb (nbs =? 0) then u64 (Z.shiftl 1 nbs) else u64 (Z.shiftl 1 bs) in
  let addr := Util.AlignDown addr align in
  let end_ := Util.AlignUp end_ align in
  let end_offset := u64 (end_ - addr) / Z.shiftl 1 bs in
  _ ← put_blk i (mkBlock (m_bitmap b) addr end_offset bs nbs);
  on_bitmap i (Initialize assertions bit_storage end_offset).

Definition PushBlock (i : nat) (address : Z) : heapM Z :=
  b ← get_blk i;
  let offset := Z.shiftr (u64 (address - m_block_heap_address b)) (GetShift b) in
  _ ← on_bitmap i (SetBit assertions offset);
  if negb (GetNextShift b =? 0) then
    let diff := Z.shiftl 1 (GetNextShift b - GetShift b) in
    let offset := Util.AlignDown offset diff in
    cleared ← on_bitmap i (ClearRange assertions offset diff);
    if (cleared : bool) then mret (u64 (m_block_heap_address b + u64 (Z.shiftl offset (GetShift b))))
    else mret NullAddress
  else mret NullAddress.

Definition PopBlock (i : nat) (random : bool) : heapM Z :=
  soffset ← on_bitmap i (FindFreeBlock assertions random);
  if soffset <? 0 then mret NullAddress else
  _ ← on_bitmap i (ClearBit assertions soffset);
  b ← get_blk i;
  mret (u64 (m_block_heap_address b + u64 (Z.shiftl soffset (GetShift b)))).

Definition Block_CalculateManagementOverheadSize (region_size cur_block_shift next_block_shift : Z) : res Z :=
  let cur_block_size := Z.shiftl 1 cur_block_shift in
  let next_block_size := Z.shiftl 1 next_block_shift in
  let align := if negb (next_block_shift =? 0) then next_block_size else cur_block_size in
  CalculateManagementOverheadSize (u64 (u64 (align * 2) + Util.AlignUp region_size align) / cur_block_size).

(** ** Initialisation *)
Definition next_shift (block_shifts : list Z) (i : nat) : Z :=
  if bool_decide (i ≠ (length block_shifts - 1)%nat) then nth (S i) block_shifts 0 else 0.

Fixpoint initialize_loop (n i : nat) (block_shifts : list Z) (cur_bitmap_storage : Z) : heapM Z :=
  match n with
  | O => mret cur_bitmap_storage
  | S n' =>
      h ← get_heap;
      cur ← Block_Initialize i (m_heap_address h) (m_heap_size h) (nth i block_shifts 0)
              (next_shift block_shifts i) cur_bitmap_storage;
      initialize_loop n' (S i) block_shifts cur
  end.

(** The management memory starts at the word [management] and has
    [management_words] words. *)
Definition Heap_Initialize (address size management management_words : Z) (block_shifts : list Z) : heapM unit :=
  _ ← HASSERT (Util.IsAligned address PageSize);
  _ ← HASSERT (Util.IsAligned size PageSize);
  _ ← HASSERT (bool_decide (0 < length block_shifts ≤ NumMemoryBlockPageShifts)%nat);
  _ ← mod_heap (λ h, mkHeap address size (m_initial_used_size h) (length block_shifts) (m_blocks h) (m_heap_rng h));
  cur ← initialize_loop (length block_shifts) 0 block_shifts management;
  st_check (cur <=? management + management_words) Aborted.

Fixpoint overhead_sum (n i : nat) (region_size : Z) (block_shifts : list Z) (acc : Z) : res Z :=
  match n with
  | O => Ok acc
  | S n' =>
      o ← Block_CalculateManagementOverheadSize region_size (nth i block_shifts 0) (next_shift block_shifts i);
      overhead_sum n' (S i) region_size block_shifts (u64 (acc + o))
  end.
Definition Heap_CalculateManagementOverheadSize (region_size : Z) (block_shifts : list Z) : res Z :=
  o ← overhead_sum (length block_shifts) 0 region_size block_shifts 0;
  Ok (Util.AlignUp o PageSize).

(** ** Free pages *)
Definition GetNumFreePages (h : KPageHeap) : Z :=
  foldl (λ acc b, u64 (acc + Block_GetNumFreePages b)) 0 (take (m_num_blocks h) (m_blocks h)).
Definition GetFreeSize (h : KPageHeap) : Z := u64 (GetNumFreePages h * PageSize).

Definition SetInitialUsedSize (reserved_size : Z) : heapM unit :=
  h ← get_heap;
  let free_size := u64 (GetNumFreePages h * PageSize) in
  _ ← st_check (u64 (free_size + reserved_size) <=? m_heap_size h) Aborted;
  mod_heap (λ h, mkHeap (m_heap_address h) (m_heap_size h) (u64 (m_heap_size h - free_size - reserved_size))
                   (m_num_blocks h) (m_blocks h) (m_heap_rng h)).

(** ** Freeing *)

(** A [do]-[while] over the block sizes from [index] up; [n] bounds the sizes. *)
Fixpoint free_block_loop (n index : nat) (block : Z) : heapM unit :=
  match n with
  | O => st_throw OutOfBounds
  | S n' =>
      block' ← PushBlock index block;
      if negb (block' =? NullAddress) then free_block_loop n' (S index) block' else mret tt
  end.
Definition FreeBlock (block : Z) (index : nat) : heapM unit :=
  h ← get_heap; free_block_loop (length (m_blocks h) - index) index block.

(** The big blocks from [block] to [big_end]. *)
Fixpoint free_big_loop (fuel : nat) (block big_end block_size : Z) (big_index : nat) : heapM unit :=
  if block <? big_end then
    match fuel with
    | O => st_throw OutOfFuel
    | S fuel' =>
        _ ← FreeBlock block big_index;
        free_big_loop fuel' (u64 (block + block_size)) big_end block_size big_index
    end
  else mret tt.

Fixpoint free_before_loop (fuel : nat) (before_start before_end block_size : Z) (i : nat) : heapM Z :=
  if u64 (before_start + block_size) <=? before_end then
    match fuel with
    | O => st_throw OutOfFuel
    | S fuel' =>
        let before_end := u64 (before_end - block_size) in
        _ ← FreeBlock before_end i;
        free_before_loop fuel' before_start before_end block_size i
    end
  else mret before_end.

Fixpoint free_after_loop (fuel : nat) (after_start after_end block_size : Z) (i : nat) : heapM Z :=
  if u64 (after_start + block_size) <=? after_end then
    match fuel with
    | O => st_throw OutOfFuel
    | S fuel' =>
        _ ← FreeBlock after_start i;
        free_after_loop fuel' (u64 (after_start + block_size)) after_end block_size i
    end
  else mret after_start.

(** [for (i = big_index - 1; i >= 0; i--)] *)
Fixpoint before_sizes (fuel n : nat) (before_start before_end : Z) : heapM unit :=
  match n with
  | O => mret tt
  | S i =>
      b ← get_blk i;
      before_end ← free_before_loop fuel before_start before_end (GetSize b) i;
      before_sizes fuel i before_start before_end
  end.
Fixpoint after_sizes (fuel n : nat) (after_start after_end : Z) : heapM unit :=
  match n with
  | O => mret tt
  | S i =>
      b ← get_blk i;
      after_start ← free_after_loop fuel after_start after_end (GetSize b) i;
      after_sizes fuel i after_start after_end
  end.

(** The largest size with a whole block in the range: frees these blocks and
    gives its index, the start and the end of what was freed. *)
Fixpoint big_blocks (fuel n : nat) (start end_ : Z) : heapM (option (nat * Z * Z)) :=
  match n with
  | O => mret None
  | S big_index =>
      b ← get_blk big_index;
      let block_size := GetSize b in
      let big_start := Util.AlignUp start block_size in
      let big_end := Util.AlignDown end_ block_size in
      if big_start <? big_end then
        _ ← free_big_loop fuel big_start big_end block_size big_index;
        mret (Some (big_index, big_start, big_end))
      else big_blocks fuel big_index start end_
  end.

(** [num_pages] rounds are enough for every loop. *)
Definition Heap_Free (addr num_pages : Z) : heapM unit :=
  if num_pages =? 0 then mret tt else
  h ← get_heap;
  let start := addr in
  let end_ := u64 (addr + u64 (num_pages * PageSize)) in
  let fuel := Z.to_nat num_pages in
  r ← big_blocks fuel (m_num_blocks h) start end_;
  match r with
  | Some (big_index, before_end, after_start) =>
      _ ← before_sizes fuel big_index start before_end;
      after_sizes fuel big_index after_start end_
  | None => HASSERT false
  end.

(** ** Allocating *)
Fixpoint linear_loop (n i : nat) (needed_size : Z) : heapM Z :=
  match n with
  | O => mret NullAddress
  | S n' =>
      addr ← PopBlock i false;
      if negb (addr =? NullAddress) then
        b ← get_blk i;
        let allocated_size := GetSize b in
        _ ← (if needed_size <? allocated_size
             then Heap_Free (u64 (addr + needed_size)) ((allocated_size - needed_size) / PageSize) else mret tt);
        mret addr
      else linear_loop n' (S i) needed_size
  end.
Definition AllocateByLinearSearch (index : nat) : heapM Z :=
  b ← get_blk index;
  h ← get_heap;
  linear_loop (m_num_blocks h - index) index (GetSize b).

Definition alignments_of (b : Block) (needed_size align_shift : Z) : Z :=
  u64 (u64 (1 + Z.shiftr (u64 (GetSize b - needed_size)) align_shift) * GetNumFreeBlocks b).

(** The sum of the possible alignments, and where to stop. *)
Fixpoint sum_loop (n i : nat) (needed_size align_shift possible_alignments : Z) : heapM (Z * nat) :=
  match n with
  | O => mret (possible_alignments, i)
  | S n' =>
      b ← get_blk i;
      let possible_alignments := u64 (possible_alignments + alignments_of b needed_size align_shift) in
      if 4 <=? possible_alignments then mret (possible_alignments, S i)
      else sum_loop n' (S i) needed_size align_shift possible_alignments
  end.

Fixpoint choose_loop (n i : nat) (index : nat) (needed_size align_shift rnd possible_alignments : Z) : heapM nat :=
  match n with
  | O => mret index
  | S n' =>
      b ← get_blk i;
      let possible_alignments := u64 (possible_alignments + alignments_of b needed_size align_shift) in
      if rnd <? possible_alignments then mret i
      else choose_loop n' (S i) index needed_size align_shift rnd possible_alignments
  end.

Definition heap_random (max : Z) : heapM Z :=
  h ← get_heap;
  '(r, g) ← st_lift (GenerateRandom max (m_heap_rng h));
  _ ← mod_heap (set_heap_rng g);
  mret r.

(** Decide on a block size to allocate from. *)
Definition choose_index (index : nat) (needed_size align_shift : Z) : heapM nat :=
  h ← get_heap;
  '(possible_alignments, max_blocks) ← sum_loop (m_num_blocks h - index) index needed_size align_shift 0;
  if (0 <? possible_alignments) && bool_decide (index + 1 < max_blocks)%nat then
    rnd ← heap_random possible_alignments;
    choose_loop (max_blocks - index) index index needed_size align_shift rnd 0
  else mret index.

(** Place the allocation in the block at [addr] and free the rest of the block. *)
Definition place_in_block (index : nat) (addr needed_size align_shift : Z) : heapM Z :=
  b ← get_blk index;
  let leftover_size := u64 (GetSize b - needed_size) in
  if 0 <? leftover_size then
    let possible_alignments := u64 (1 + Z.shiftr leftover_size align_shift) in
    rnd ← heap_random possible_alignments;
    let random_offset := u64 (Z.shiftl rnd align_shift) in
    _ ← (if negb (random_offset =? 0) then Heap_Free addr (random_offset / PageSize) else mret tt);
    let addr := u64 (addr + random_offset) in
    _ ← (if negb (random_offset =? leftover_size)
         then Heap_Free (u64 (addr + needed_size)) (u64 (leftover_size - random_offset) / PageSize) else mret tt);
    mret addr
  else mret addr.

Definition AllocateByRandom (index : nat) (num_pages align_pages : Z) : heapM Z :=
  let needed_size := u64 (num_pages * PageSize) in
  let align_size := u64 (align_pages * PageSize) in
  let align_shift := Util.CountTrailingZeros align_size in
  _ ← st_check (align_shift <? 64) BadShift;
  index ← choose_index index needed_size align_shift;
  addr ← PopBlock index true;
  if negb (addr =? NullAddress) then place_in_block index addr needed_size align_shift else mret NullAddress.

Definition AllocateBlock (index : nat) (random : bool) : heapM Z :=
  if random then
    b ← get_blk index;
    let block_pages := GetNumPages b in
    AllocateByRandom index block_pages block_pages
  else AllocateByLinearSearch index.

Definition AllocateAligned (index : nat) (num_pages align_pages : Z) : heapM Z :=
  AllocateByRandom index num_pages align_pages.

End heap.
