(* ===== verification/PageHeapSpec.v ===== *)
(** * What the page heap promises

    The heap is a partition of its free pages into blocks: a page is free when,
    at exactly one block size, the block that contains it is in the bitmap of
    that size.  Freeing adds exactly the pages it is given, allocating removes
    exactly the pages it returns. *)

From S2P Require Import Prelude Vapours TinyMT PageBitmap PageBitmapSpec PageHeap.

(** ** Bitmaps that share one memory *)

(** The bitmap [b] occupies the words from [base] to [base + len]. *)
Definition repr_in (b : KPageBitmap) (ws : list Z) (base len n : nat) (X : gset nat) : Prop :=
  ∃ pre post, length pre = base ∧ length ws = (base + len + length post)%nat ∧
    repr (mkB b ws) pre post n X.

(** [ws'] differs from [ws] at most between [base] and [base + len]. *)
Definition agree_off (ws ws' : list Z) (base len : nat) : Prop :=
  length ws' = length ws ∧ ∀ a, (a < base ∨ base + len ≤ a)%nat → ws' !! a = ws !! a.

Section sharing.
Implicit Types (b : KPageBitmap) (ws : list Z) (X : gset nat).

Lemma repr_words s pre post n X : repr s pre post n X →
  ∃ seg, words s = pre ++ seg ++ post.
Proof. intros (l & r & Hs & _). exists (concat (l :: r)). by rewrite Hs. Qed.

(** A run of a bitmap operation, from [repr] to the shared memory. *)
Lemma repr_in_step b ws base len n X :
  repr_in b ws base len n X →
  ∃ pre post, repr (mkB b ws) pre post n X ∧ ∀ bs X', repr bs pre post n X' → length (words bs) = length ws →
    repr_in (bm bs) (words bs) base len n X' ∧ agree_off ws (words bs) base len.
Proof.
  intros (pre & post & Hpre & Hlen & Hrep). exists pre, post. split; [done|]. intros bs X' Hrep' Hl.
  destruct (repr_words _ _ _ _ _ Hrep) as [seg Hseg]. destruct (repr_words _ _ _ _ _ Hrep') as [seg' Hseg'].
  cbn in Hseg. split.
  - exists pre, post. split_and!; [done|lia|]. by destruct bs.
  - split; [done|]. intros a Ha. rewrite Hseg', Hseg. rewrite Hseg, Hseg', !length_app in *.
    destruct Ha as [Ha|Ha]; [by rewrite !lookup_app_l by lia|].
    rewrite !lookup_app_r by lia. f_equal. lia.
Qed.

(** Other bitmaps do not notice. *)
Lemma repr_in_frame b ws ws' base len n X :
  repr_in b ws base len n X → length ws' = length ws →
  (∀ a, (base ≤ a < base + len)%nat → ws' !! a = ws !! a) → repr_in b ws' base len n X.
Proof.
  intros (pre & post & Hpre & Hlen & l & r & Hs & Hb & Hl & HX & Hnum) Hlen' Hagree.
  unfold bst in Hs. cbn [bm] in Hs. injection Hs as Hs. cbn [bm] in Hb, Hnum.
  change (l ++ concat r) with (concat (l :: r)) in Hs.
  assert (Hseg : length (concat (l :: r)) = len).
  { set (seg := concat (l :: r)) in *. clearbody seg. rewrite Hs, !length_app in Hlen. lia. }
  exists (take base ws'), (drop (base + len) ws').
  split_and!; [rewrite length_take; lia|rewrite length_drop; lia|].
  exists l, r. split_and!; try done.
  - unfold bst. cbn [bm]. f_equal. apply list_eq. intros a.
    rewrite lookup_app, length_take. destruct (decide (a < base)%nat) as [Ha|Ha].
    { rewrite lookup_take_lt by done. by destruct (ws' !! a) eqn:E; [|apply lookup_ge_None in E; lia]. }
    rewrite lookup_take_ge by lia. rewrite lookup_app.
    destruct (decide (a < base + len)%nat) as [Ha2|Ha2].
    + rewrite Hagree, Hs by lia. rewrite lookup_app_r by lia. rewrite lookup_app_l by lia.
      replace (a - base `min` length ws')%nat with (a - length pre)%nat by lia.
      by destruct (concat (l :: r) !! (a - length pre)%nat) eqn:E; [|apply lookup_ge_None in E; lia].
    + rewrite (lookup_ge_None_2 (concat (l :: r))) by lia. rewrite lookup_drop. f_equal. lia.
  - destruct Hb as (Hst & Hrest). split; [|done]. replace (length (take base ws')) with (length pre) by (rewrite length_take; lia).
    done.
Qed.
End sharing.

(** ** Bitmap operations keep the number of words *)
Definition same_words (s s' : bstate) : Prop := length (words s') = length (words s).
#[local] Instance same_words_pre : PreOrder same_words.
Proof. split; [done|]. intros x y z Hxy Hyz. unfold same_words in *. congruence. Qed.

Section lengths.
Context (assertions : bool).

(** Split a computation at its binds and branches. *)
Ltac track :=
  repeat match goal with
  | |- tracks _ (mbind _ _) => apply tracks_bind; [apply _| |intros ?]
  | |- tracks _ (match ?x with _ => _ end) => destruct x
  | |- tracks _ (let _ := _ in _) => cbv zeta
  end; try solve [eauto with tracks typeclass_instances].

Lemma tracks_mod_bm f : tracks same_words (mod_bm f).
Proof. by intros s u s' [= _ <-]. Qed.
Lemma tracks_get_bm : tracks same_words get_bm.
Proof. unfold get_bm. track. Qed.
Lemma tracks_KASSERT b : tracks same_words (KASSERT assertions b).
Proof. unfold KASSERT. track. Qed.
Hint Resolve tracks_mod_bm tracks_get_bm tracks_KASSERT : tracks.

Lemma tracks_word_address d i : tracks same_words (word_address d i).
Proof. unfold word_address. track. Qed.
Hint Resolve tracks_word_address : tracks.

Lemma tracks_store a v : tracks same_words (st_mod (λ s, mkB (bm s) (<[a := v]> (words s)))).
Proof. intros s u s' [= _ <-]. unfold same_words. cbn. by rewrite length_insert. Qed.
Hint Resolve tracks_store : tracks.

Lemma tracks_write d i v : tracks same_words (write_word d i v).
Proof. unfold write_word. track. Qed.
Lemma tracks_read d i : tracks same_words (read_word d i).
Proof. unfold read_word. track. Qed.
Hint Resolve tracks_write tracks_read : tracks.

Lemma tracks_set_bit n o : tracks same_words (set_bit_loop assertions n o).
Proof. revert o. induction n as [|n IH]; intros o; cbn [set_bit_loop]; track. Qed.
Lemma tracks_clear_bit n o : tracks same_words (clear_bit_loop assertions n o).
Proof. revert o. induction n as [|n IH]; intros o; cbn [clear_bit_loop]; track. Qed.
Hint Resolve tracks_set_bit tracks_clear_bit : tracks.

Lemma tracks_SetBit o : tracks same_words (SetBit assertions o).
Proof. unfold SetBit. track. Qed.
Lemma tracks_ClearBit o : tracks same_words (ClearBit assertions o).
Proof. unfold ClearBit. track. Qed.

Lemma tracks_all_set fuel d i r : tracks same_words (all_set_loop fuel d i r).
Proof. revert i r. induction fuel as [|fuel IH]; intros i r; cbn [all_set_loop]; track. Qed.
Lemma tracks_clear_words fuel d i r : tracks same_words (clear_words_loop assertions fuel d i r).
Proof. revert i r. induction fuel as [|fuel IH]; intros i r; cbn [clear_words_loop]; track. Qed.
Hint Resolve tracks_all_set tracks_clear_words : tracks.

Lemma tracks_ClearRange o c : tracks same_words (ClearRange assertions o c).
Proof. unfold ClearRange. track. Qed.

Lemma tracks_find n d random o : tracks same_words (find_block_loop assertions n d random o).
Proof. revert d o. induction n as [|n IH]; intros d o; cbn [find_block_loop]; track. Qed.
Lemma tracks_FindFreeBlock random : tracks same_words (FindFreeBlock assertions random).
Proof. unfold FindFreeBlock. track. apply tracks_find. Qed.
End lengths.

(** ** Geometry of a heap

    A block size: its shift over the page size, the number of the block at the
    start of its bitmap (the address divided by the block size), the leaf words
    of the bitmap and its words in the management memory. *)
Record level := mkLevel { lk : nat; lorg : nat; ln : nat; lbase : nat; llen : nat }.

Definition addr_of (page : nat) : Z := 4096 * Z.of_nat page.

(** Page [p] is in a block of the set [X] at this size. *)
Definition in_level (L : level) (X : gset nat) (p : nat) : Prop :=
  ∃ o, o ∈ X ∧ (p / 2 ^ lk L = lorg L + o)%nat.

Record geometry (H : list level) (p0 np : nat) : Prop := {
  g_first : ∃ L, H !! 0%nat = Some L ∧ lk L = 0%nat;
  g_step i L L' : H !! i = Some L → H !! S i = Some L' →
    (lk L < lk L' ≤ lk L + 5)%nat ∧ (2 ^ (lk L' - lk L) | lorg L)%nat;
  g_cover i L : H !! i = Some L →
    (lorg L * 2 ^ lk L ≤ p0)%nat ∧ (p0 + np ≤ (lorg L + 64 * ln L) * 2 ^ lk L)%nat;
  g_regions i j L L' : i ≠ j → H !! i = Some L → H !! j = Some L' →
    (lbase L + llen L ≤ lbase L' ∨ lbase L' + llen L' ≤ lbase L)%nat;
  g_width i L : H !! i = Some L →
    (lk L ≤ 18)%nat ∧ addr_of ((lorg L + 64 * ln L) * 2 ^ lk L) < 2 ^ 62;
  g_start : (0 < p0)%nat;
}.

Section rep.
Context (H : list level) (p0 np : nat) (Hgeo : geometry H p0 np) (assertions : bool).
Implicit Types (s : hstate) (Xs : list (gset nat)) (X : gset nat) (L : level) (i : nat).

Definition next_of i : Z := match H !! S i with Some L' => 12 + Z.of_nat (lk L') | None => 0 end.

Definition block_ok i L (b : Block) : Prop :=
  m_block_shift b = 12 + Z.of_nat (lk L) ∧ m_next_block_shift b = next_of i ∧
  m_block_heap_address b = addr_of (lorg L * 2 ^ lk L).

(** The bitmaps of the heap hold the sets [Xs]. *)
Record rep s Xs : Prop := {
  rep_len : length Xs = length H;
  rep_num : m_num_blocks (heap s) = length H;
  rep_blocks i L X : H !! i = Some L → Xs !! i = Some X →
    ∃ b, m_blocks (heap s) !! i = Some b ∧ block_ok i L b ∧
         repr_in (m_bitmap b) (mgmt s) (lbase L) (llen L) (ln L) X;
  rep_rng : rng_ok (m_heap_rng (heap s));
  rep_address : m_heap_address (heap s) = addr_of p0;
  rep_hsize : m_heap_size (heap s) = addr_of np;
}.

Lemma rep_set s Xs i L : rep s Xs → H !! i = Some L → ∃ X, Xs !! i = Some X.
Proof. intros Hr HL. apply lookup_lt_is_Some. rewrite (rep_len _ _ Hr). by eapply lookup_lt_Some. Qed.

Lemma get_blk_run s i b : m_blocks (heap s) !! i = Some b → get_blk i s = Ok (b, s).
Proof. intros Hb. unfold get_blk. erewrite st_bind_run by reflexivity. by rewrite Hb. Qed.

(** An operation on the bitmap of one size. *)
Lemma on_bitmap_run {A} (m : bmM A) (Q : A → gset nat → Prop) s Xs i L X :
  rep s Xs → H !! i = Some L → Xs !! i = Some X → tracks same_words m →
  (∀ (bs : bstate) pre post, repr bs pre post (ln L) X →
     ∃ r (bs' : bstate) X', m bs = Ok (r, bs') ∧ Q r X' ∧ repr bs' pre post (ln L) X') →
  ∃ r s' X', on_bitmap i m s = Ok (r, s') ∧ Q r X' ∧ rep s' (<[i := X']> Xs).
Proof using Hgeo.
  intros Hrep HL HX Htr Hm.
  destruct (rep_blocks _ _ Hrep i L X HL HX) as (b & Hb & Hok & Hin).
  destruct (repr_in_step _ _ _ _ _ _ Hin) as (pre & post & Hr & Hstep).
  destruct (Hm _ _ _ Hr) as (r & s1 & X' & Hrun & HQ & Hr1).
  destruct (Hstep s1 X' Hr1) as [Hin' Hagree]; [by apply (Htr _ _ _ Hrun)|].
  exists r, (mkH (set_blocks (<[i := set_bitmap (bm s1) b]> (m_blocks (heap s))) (heap s)) (words s1)), X'.
  split_and!; [|done|].
  - unfold on_bitmap. erewrite st_bind_run by (by apply get_blk_run). erewrite st_bind_run by reflexivity.
    rewrite Hrun. erewrite st_bind_run by reflexivity. reflexivity.
  - split; cbn.
    + rewrite length_insert. apply Hrep.
    + apply Hrep.
    + intros j L' Y HL' HY. destruct (decide (j = i)) as [->|Hji].
      * assert (L' = L) as -> by congruence. pose proof (lookup_lt_Some _ _ _ HX). pose proof (lookup_lt_Some _ _ _ Hb).
        rewrite list_lookup_insert_eq in HY by done. simplify_eq.
        rewrite list_lookup_insert_eq by done. eexists. by split_and!.
      * rewrite list_lookup_insert_ne in HY by done. rewrite list_lookup_insert_ne by done.
        destruct (rep_blocks _ _ Hrep j L' Y HL' HY) as (b' & Hb' & Hok' & Hin2). exists b'. split_and!; [done..|].
        destruct Hagree as [Hlen Hsame]. eapply repr_in_frame; [exact Hin2|exact Hlen|].
        intros a Ha. apply Hsame. destruct (g_regions _ _ _ Hgeo j i L' L Hji HL' HL); lia.
    + apply Hrep.
    + apply Hrep.
    + apply Hrep.
Qed.

(** ** Addresses of blocks *)
Lemma pow2_nat (k : nat) : Z.of_nat (2 ^ k) = 2 ^ Z.of_nat k.
Proof. by rewrite Nat2Z.inj_pow. Qed.

Lemma shift_size (k : nat) : 2 ^ (12 + Z.of_nat k) = 4096 * Z.of_nat (2 ^ k).
Proof. rewrite Z.pow_add_r, pow2_nat by lia. done. Qed.

Lemma pow2_pos_nat (k : nat) : (0 < 2 ^ k)%nat.
Proof. pose proof (Nat.pow_nonzero 2 k). lia. Qed.

Lemma level_bound i L g : H !! i = Some L → (g ≤ lorg L + 64 * ln L)%nat → 0 ≤ addr_of (g * 2 ^ lk L) < 2 ^ 62.
Proof using Hgeo.
  intros HL Hg. destruct (g_width _ _ _ Hgeo i L HL) as [_ Hw]. unfold addr_of in *.
  pose proof (pow2_pos_nat (lk L)). assert (g * 2 ^ lk L ≤ (lorg L + 64 * ln L) * 2 ^ lk L)%nat by (apply Nat.mul_le_mono_r; done).
  lia.
Qed.

Lemma offset_of i L b off : H !! i = Some L → block_ok i L b → (off < 64 * ln L)%nat →
  Z.shiftr (u64 (addr_of ((lorg L + off) * 2 ^ lk L) - m_block_heap_address b)) (GetShift b) = Z.of_nat off.
Proof using Hgeo.
  intros HL (Hs & _ & Ha) Hoff. unfold GetShift. rewrite Hs, Ha.
  pose proof (level_bound i L (lorg L + off) HL ltac:(lia)) as H1. pose proof (level_bound i L (lorg L) HL ltac:(lia)) as H2.
  assert (He : addr_of ((lorg L + off) * 2 ^ lk L) - addr_of (lorg L * 2 ^ lk L) = Z.of_nat off * 2 ^ (12 + Z.of_nat (lk L))).
  { unfold addr_of. rewrite shift_size. nia. }
  pose proof (pow2_pos (12 + Z.of_nat (lk L)) ltac:(lia)) as Hp.
  assert (0 ≤ Z.of_nat off * 2 ^ (12 + Z.of_nat (lk L))) by (apply Z.mul_nonneg_nonneg; lia).
  rewrite He, wrap_small by (unfold in_width; lia). by rewrite Z.shiftr_div_pow2, Z.div_mul by lia.
Qed.

Lemma address_of i L b off : H !! i = Some L → block_ok i L b → (off < 64 * ln L)%nat →
  u64 (m_block_heap_address b + u64 (Z.shiftl (Z.of_nat off) (GetShift b))) = addr_of ((lorg L + off) * 2 ^ lk L).
Proof using Hgeo.
  intros HL (Hs & _ & Ha) Hoff. unfold GetShift. rewrite Hs, Ha, Z.shiftl_mul_pow2 by lia.
  pose proof (level_bound i L (lorg L + off) HL ltac:(lia)) as H1.
  assert (He : addr_of ((lorg L + off) * 2 ^ lk L) = addr_of (lorg L * 2 ^ lk L) + Z.of_nat off * 2 ^ (12 + Z.of_nat (lk L))).
  { unfold addr_of. rewrite shift_size. nia. }
  pose proof (level_bound i L (lorg L) HL ltac:(lia)) as H2.
  pose proof (pow2_pos (12 + Z.of_nat (lk L)) ltac:(lia)) as Hp.
  assert (0 ≤ Z.of_nat off * 2 ^ (12 + Z.of_nat (lk L))) by (apply Z.mul_nonneg_nonneg; lia).
  rewrite !wrap_small by (unfold in_width; rewrite ?wrap_small by (unfold in_width; lia); lia). lia.
Qed.

(** ** Pushing a block *)

(** The first offset of the group of [2 ^ e] blocks around [off]. *)
Definition group (e off : nat) : nat := (off / 2 ^ e * 2 ^ e)%nat.

Lemma group_le e off : (group e off ≤ off < group e off + 2 ^ e)%nat.
Proof.
  unfold group. pose proof (pow2_pos_nat e). pose proof (Nat.div_mod_eq off (2 ^ e)).
  pose proof (Nat.mod_upper_bound off (2 ^ e) ltac:(lia)). lia.
Qed.

Lemma group_clearable n e off : (e ≤ 5)%nat → (off < 64 * n)%nat → clearable n (group e off) (2 ^ e).
Proof.
  intros He Hoff. left. pose proof (group_le e off). pose proof (pow2_pos_nat e).
  assert (2 ^ e ≤ 2 ^ 5)%nat as Hle by (apply Nat.pow_le_mono_r; lia). change (2 ^ 5)%nat with 32%nat in Hle.
  assert (He64 : (64 = 2 ^ e * 2 ^ (6 - e))%nat) by (rewrite <- Nat.pow_add_r; by replace (e + (6 - e))%nat with 6%nat by lia).
  split_and!; [lia..| |lia].
  unfold group. rewrite He64 at 1. rewrite (Nat.mul_comm (off / _)), Nat.Div0.mul_mod_distr_l.
  pose proof (Nat.mod_upper_bound (off / 2 ^ e) (2 ^ (6 - e)) ltac:(pose proof (pow2_pos_nat (6 - e)); lia)). nia.
Qed.

Definition pushed i L X off : gset nat * option nat :=
  let Y := {[off]} ∪ X in
  match H !! S i with
  | Some L' =>
      let e := (lk L' - lk L)%nat in
      if decide (range (group e off) (2 ^ e) ⊆ Y) then (Y ∖ range (group e off) (2 ^ e), Some (group e off))
      else (Y, None)
  | None => (Y, None)
  end.

Lemma PushBlock_run s Xs i L X off :
  rep s Xs → H !! i = Some L → Xs !! i = Some X → (off < 64 * ln L)%nat → off ∉ X →
  ∃ s', PushBlock assertions i (addr_of ((lorg L + off) * 2 ^ lk L)) s =
          Ok (match snd (pushed i L X off) with Some o => addr_of ((lorg L + o) * 2 ^ lk L) | None => 0 end, s') ∧
        rep s' (<[i := fst (pushed i L X off)]> Xs).
Proof using Hgeo.
  intros Hrep HL HX Hoff HoX. destruct (rep_blocks _ _ Hrep i L X HL HX) as (b & Hb & Hok & _).
  pose proof (lookup_lt_Some _ _ _ HX) as Hi.
  unfold PushBlock. erewrite st_bind_run by (by apply get_blk_run). rewrite (offset_of i L b off HL Hok Hoff).
  destruct (on_bitmap_run (SetBit assertions (Z.of_nat off)) (λ _ X', X' = {[off]} ∪ X) s Xs i L X)
    as (u & s1 & X1 & Hrun1 & -> & Hrep1); try done.
  { apply tracks_SetBit. }
  { intros bs pre post Hr. destruct (SetBit_run assertions pre post (ln L) bs X off Hr Hoff HoX) as (bs' & Hr1 & Hr2).
    by exists tt, bs', ({[off]} ∪ X). }
  erewrite st_bind_run by exact Hrun1. unfold pushed, GetNextShift, GetShift. pose proof Hok as (Hs & Hn & Ha).
  rewrite Hn. unfold next_of. destruct (H !! S i) as [L'|] eqn:HL'; [|by eexists].
  rewrite (proj2 (Z.eqb_neq _ 0)) by lia. cbn [negb]. destruct (g_step _ _ _ Hgeo i L L' HL HL') as [He _].
  set (e := (lk L' - lk L)%nat).
  replace (12 + Z.of_nat (lk L') - m_block_shift b) with (Z.of_nat e) by (rewrite Hs; lia).
  assert (He' : (e ≤ 5)%nat) by lia.
  assert (Hwidth : in_width 64 (Z.of_nat off)).
  { pose proof (level_bound i L (lorg L + off) HL ltac:(lia)) as Hb1. unfold addr_of in Hb1.
    pose proof (pow2_pos_nat (lk L)). unfold in_width. nia. }
  assert (Hgroup : Util.AlignDown (Z.of_nat off) (Z.shiftl 1 (Z.of_nat e)) = Z.of_nat (group e off)).
  { rewrite Z.shiftl_1_l, Util.AlignDown_pow2 by (done || lia). unfold group.
    rewrite <- pow2_nat, <- Nat2Z.inj_div, <- Nat2Z.inj_mul. f_equal. lia. }
  rewrite Hgroup, Z.shiftl_1_l, <- pow2_nat.
  destruct (on_bitmap_run (ClearRange assertions (Z.of_nat (group e off)) (Z.of_nat (2 ^ e)))
    (λ r X', r = bool_decide (range (group e off) (2 ^ e) ⊆ {[off]} ∪ X) ∧
             X' = if r then ({[off]} ∪ X) ∖ range (group e off) (2 ^ e) else {[off]} ∪ X)
    s1 (<[i := {[off]} ∪ X]> Xs) i L ({[off]} ∪ X)) as (r & s2 & X2 & Hrun2 & [-> ->] & Hrep2); try done.
  { by apply list_lookup_insert_eq. }
  { apply tracks_ClearRange. }
  { intros bs pre post Hr.
    destruct (ClearRange_run assertions pre post (ln L) bs _ (group e off) (2 ^ e) Hr) as (bs' & Hr1 & Hr2);
      [by apply group_clearable|]. eexists _, bs', _. split_and!; [exact Hr1|done|done|exact Hr2]. }
  rewrite list_insert_insert_eq in Hrep2. erewrite st_bind_run by exact Hrun2. exists s2.
  destruct (decide (range (group e off) (2 ^ e) ⊆ {[off]} ∪ X)) as [Hsub|Hsub].
  - rewrite bool_decide_eq_true_2 in * by done. split; [|exact Hrep2]. cbn [snd]. unfold mret, st_ret.
    pose proof (group_le e off). fold (GetShift b). rewrite (address_of i L b (group e off) HL) by (done || lia). done.
  - rewrite bool_decide_eq_false_2 in * by done. done.
Qed.

(** ** Free pages *)
Definition page_at Xs i (p : nat) : Prop := ∃ L X, H !! i = Some L ∧ Xs !! i = Some X ∧ in_level L X p.
Definition free Xs (p : nat) : Prop := ∃ i, page_at Xs i p.
Definition in_heap (p : nat) : Prop := (p0 ≤ p < p0 + np)%nat.

(** Every free page is in one block, inside the heap. *)
Definition partitioned Xs : Prop :=
  (∀ p i j, page_at Xs i p → page_at Xs j p → i = j) ∧ (∀ i p, page_at Xs i p → in_heap p).

(** No complete group of blocks is left at a smaller size. *)
Definition coalesced Xs : Prop :=
  ∀ i L L' X o, H !! i = Some L → H !! S i = Some L' → Xs !! i = Some X →
    ¬ range (group (lk L' - lk L) o) (2 ^ (lk L' - lk L)) ⊆ X.

Definition good Xs : Prop := partitioned Xs ∧ coalesced Xs.

(** The pages of the block at an offset. *)
Definition pages_of L (off p : nat) : Prop := (p / 2 ^ lk L = lorg L + off)%nat.

Lemma page_at_insert Xs i L X1 j p : H !! i = Some L → (i < length Xs)%nat →
  page_at (<[i := X1]> Xs) j p ↔ (j = i ∧ in_level L X1 p) ∨ (j ≠ i ∧ page_at Xs j p).
Proof using Hgeo.
  intros HL Hi. unfold page_at. destruct (decide (j = i)) as [->|Hj].
  - rewrite list_lookup_insert_eq by done. naive_solver.
  - rewrite list_lookup_insert_ne by done. naive_solver.
Qed.

Lemma in_level_union L X off p : in_level L ({[off]} ∪ X) p ↔ pages_of L off p ∨ in_level L X p.
Proof using Hgeo. unfold in_level, pages_of. set_solver. Qed.

Lemma in_level_minus L X Y p : in_level L (X ∖ Y) p ↔ in_level L X p ∧ ¬ in_level L Y p.
Proof using Hgeo.
  unfold in_level. split.
  - intros (o & [Ho Hn]%elem_of_difference & Hp). split; [by exists o|]. intros (o' & Ho' & Hp').
    by assert (o' = o) as -> by lia.
  - intros [(o & Ho & Hp) Hn]. exists o. split; [|done]. apply elem_of_difference. split; [done|]. intros HY. apply Hn. by exists o.
Qed.

(** The first page of a block. *)
Lemma first_page L off : pages_of L off ((lorg L + off) * 2 ^ lk L).
Proof using Hgeo. unfold pages_of. pose proof (pow2_pos_nat (lk L)). by rewrite Nat.div_mul by lia. Qed.

Lemma pages_of_span L off p :
  pages_of L off p ↔ ((lorg L + off) * 2 ^ lk L ≤ p < (lorg L + off) * 2 ^ lk L + 2 ^ lk L)%nat.
Proof using Type.
  unfold pages_of. pose proof (pow2_pos_nat (lk L)). pose proof (Nat.div_mod_eq p (2 ^ lk L)).
  pose proof (Nat.mod_upper_bound p (2 ^ lk L) ltac:(lia)). split; [intros <-; lia|]. intros Hp. symmetry.
  apply (Nat.div_unique _ _ _ (p - (lorg L + off) * 2 ^ lk L)%nat); lia.
Qed.

(** A page of the heap is in reach of every bitmap. *)
Lemma block_of_page i L p : H !! i = Some L → in_heap p →
  (lorg L ≤ p / 2 ^ lk L)%nat ∧ (p / 2 ^ lk L - lorg L < 64 * ln L)%nat ∧ pages_of L (p / 2 ^ lk L - lorg L) p.
Proof using Hgeo.
  intros HL [Hp1 Hp2]. destruct (g_cover _ _ _ Hgeo i L HL) as [H1 H2]. pose proof (pow2_pos_nat (lk L)).
  assert (lorg L ≤ p / 2 ^ lk L)%nat by (apply Nat.div_le_lower_bound; lia).
  assert (p / 2 ^ lk L < lorg L + 64 * ln L)%nat by (apply Nat.Div0.div_lt_upper_bound; lia).
  unfold pages_of. lia.
Qed.

(** The group of [2 ^ e] blocks at offset [group e off] is one block of the next
    size. *)
Lemma group_next i L L' off : H !! i = Some L → H !! S i = Some L' →
  let e := (lk L' - lk L)%nat in
  in_heap ((lorg L + group e off) * 2 ^ lk L) →
  ∃ off', (off' < 64 * ln L')%nat ∧ addr_of ((lorg L + group e off) * 2 ^ lk L) = addr_of ((lorg L' + off') * 2 ^ lk L') ∧
    ∀ p, pages_of L' off' p ↔ in_level L (range (group e off) (2 ^ e)) p.
Proof using Hgeo.
  intros HL HL' e Hin. destruct (g_step _ _ _ Hgeo i L L' HL HL') as [He [q Hq]]. fold e in Hq.
  pose proof (pow2_pos_nat e) as Hpe. pose proof (pow2_pos_nat (lk L)) as Hpk.
  assert (Hk' : (2 ^ lk L' = 2 ^ lk L * 2 ^ e)%nat) by (rewrite <- Nat.pow_add_r; f_equal; lia).
  set (p := ((lorg L + group e off) * 2 ^ lk L)%nat) in *.
  destruct (block_of_page (S i) L' p HL' Hin) as (H1 & H2 & _).
  assert (Hdiv : (p / 2 ^ lk L' = q + off / 2 ^ e)%nat).
  { unfold p, group. rewrite Hk', <- Nat.Div0.div_div, Nat.div_mul by lia. rewrite Hq, <- Nat.mul_add_distr_r.
    by apply Nat.div_mul; lia. }
  exists (p / 2 ^ lk L' - lorg L')%nat. split_and!; [done| |].
  - f_equal. replace (lorg L' + _)%nat with (q + off / 2 ^ e)%nat by lia. unfold p, group. rewrite Hq, Hk'. lia.
  - intros x. unfold pages_of, in_level. setoid_rewrite elem_of_range.
    replace (lorg L' + (p / 2 ^ lk L' - lorg L'))%nat with (q + off / 2 ^ e)%nat by lia.
    rewrite Hk', <- Nat.Div0.div_div. clear - Hpe Hq. generalize (x / 2 ^ lk L)%nat as y. intros y.
    pose proof (Nat.div_mod_eq y (2 ^ e)) as Hdm.
    pose proof (Nat.mod_upper_bound y (2 ^ e) ltac:(lia)) as Hmod. unfold group. rewrite Hq. split.
    + intros Hx. exists (off / 2 ^ e * 2 ^ e + y mod 2 ^ e)%nat. rewrite Hx in Hdm. lia.
    + intros (o & Ho & Hx). rewrite Hx. symmetry. apply (Nat.div_unique _ _ _ (o - off / 2 ^ e * 2 ^ e)%nat); lia.
Qed.

Lemma partitioned_push Xs i L X off : partitioned Xs → H !! i = Some L → Xs !! i = Some X →
  (∀ p, pages_of L off p → ¬ free Xs p ∧ in_heap p) →
  partitioned (<[i := {[off]} ∪ X]> Xs) ∧
  (∀ p, free (<[i := {[off]} ∪ X]> Xs) p ↔ free Xs p ∨ pages_of L off p).
Proof using Hgeo.
  intros [Hex Hin] HL HX Hnew. pose proof (lookup_lt_Some _ _ _ HX) as Hi.
  assert (Hat : ∀ j p, page_at (<[i := {[off]} ∪ X]> Xs) j p ↔ page_at Xs j p ∨ (j = i ∧ pages_of L off p)).
  { intros j p. rewrite (page_at_insert Xs i L) by done. rewrite in_level_union.
    assert (page_at Xs i p ↔ in_level L X p) as Hp by (unfold page_at; naive_solver).
    clear - Hp. destruct (decide (j = i)) as [->|]; tauto. }
  split; [split|].
  - intros p a b [Ha|[-> Ha]]%Hat [Hb|[-> Hb]]%Hat; [by eapply Hex| | |done].
    + destruct (Hnew p Hb) as [Hf _]. destruct Hf. by exists a.
    + destruct (Hnew p Ha) as [Hf _]. destruct Hf. by exists b.
  - intros j p [Ha|[-> Ha]]%Hat; [by eapply Hin|by apply Hnew].
  - intros p. unfold free. setoid_rewrite Hat. clear. naive_solver.
Qed.

Lemma in_level_iff L X p : in_level L X p ↔ (lorg L ≤ p / 2 ^ lk L)%nat ∧ (p / 2 ^ lk L - lorg L)%nat ∈ X.
Proof using Type.
  split.
  - intros (o & Ho & Hp). split; [lia|]. by replace (p / 2 ^ lk L - lorg L)%nat with o by lia.
  - intros [Ha Hb]. exists (p / 2 ^ lk L - lorg L)%nat. split; [done|lia].
Qed.

#[local] Instance in_level_dec L X p : Decision (in_level L X p).
Proof using Type.
  destruct (decide ((lorg L ≤ p / 2 ^ lk L)%nat ∧ (p / 2 ^ lk L - lorg L)%nat ∈ X)) as [Hd|Hd];
    [left|right]; by rewrite in_level_iff.
Defined.

Lemma in_level_mono L X Y p : X ⊆ Y → in_level L X p → in_level L Y p.
Proof using Type. intros Hsub (o & Ho & Hp). exists o. auto. Qed.

(** Taking blocks of one size out of the heap. *)
Lemma partitioned_remove Xs i L X Z : partitioned Xs → H !! i = Some L → Xs !! i = Some X → Z ⊆ X →
  partitioned (<[i := X ∖ Z]> Xs) ∧ (∀ p, free (<[i := X ∖ Z]> Xs) p ↔ free Xs p ∧ ¬ in_level L Z p).
Proof using Hgeo.
  intros [Hex Hin] HL HX Hsub. pose proof (lookup_lt_Some _ _ _ HX) as Hi.
  assert (HatX : ∀ p, in_level L X p → page_at Xs i p) by (intros p Hp; by exists L, X).
  assert (Hat : ∀ j p, page_at (<[i := X ∖ Z]> Xs) j p ↔ page_at Xs j p ∧ ¬ in_level L Z p).
  { intros j p. rewrite (page_at_insert Xs i L), in_level_minus by done. split.
    - intros [[-> [Ha Hb]]|[Hj Ha]]; split; auto. intros Hz. apply Hj.
      eapply Hex; [done|]. apply HatX. by eapply in_level_mono.
    - intros [Ha Hb]. destruct (decide (j = i)) as [->|]; [left|by right]. split; [done|].
      split; [|done]. destruct Ha as (L1 & X1 & HL1 & HX1 & Ha). by simplify_eq. }
  split; [split|].
  - intros p a b [Ha _]%Hat [Hb _]%Hat. by eapply Hex.
  - intros j p [Ha _]%Hat. by eapply Hin.
  - intros p. unfold free. setoid_rewrite Hat. clear. naive_solver.
Qed.

(** Shrinking the set of a size leaves no complete group behind. *)
Lemma coalesced_insert Xs i L X Y : coalesced Xs → H !! i = Some L → Xs !! i = Some X →
  (∀ L' o, H !! S i = Some L' → ¬ range (group (lk L' - lk L) o) (2 ^ (lk L' - lk L)) ⊆ Y) → coalesced (<[i := Y]> Xs).
Proof using Type.
  intros Hc HL HX HY j L1 L' X' o HL1 HL' HX'. destruct (decide (j = i)) as [->|Hji].
  - rewrite list_lookup_insert_eq in HX' by (by eapply lookup_lt_Some). simplify_eq. by apply HY.
  - rewrite list_lookup_insert_ne in HX' by done. by eapply Hc.
Qed.

Lemma good_remove Xs i L X Z : good Xs → H !! i = Some L → Xs !! i = Some X → Z ⊆ X →
  good (<[i := X ∖ Z]> Xs) ∧ (∀ p, free (<[i := X ∖ Z]> Xs) p ↔ free Xs p ∧ ¬ in_level L Z p).
Proof using Hgeo.
  intros [Hp Hc] HL HX Hsub. destruct (partitioned_remove Xs i L X Z Hp HL HX Hsub) as [Hp' Hf].
  split; [split; [done|]|done]. apply (coalesced_insert Xs i L X); try done.
  intros L' o HL' Hall. apply (Hc i L L' X o HL HL' HX). set_solver.
Qed.

(** A complete group that does not hold [off] was complete before. *)
Lemma coalesced_push Xs i L X off : coalesced Xs → H !! i = Some L → Xs !! i = Some X →
  coalesced (<[i := fst (pushed i L X off)]> Xs).
Proof using Hgeo.
  intros Hc HL HX. apply (coalesced_insert Xs i L X); try done. intros L' o HL' Hall.
  unfold pushed in Hall. rewrite HL' in Hall. set (e := (lk L' - lk L)%nat) in *.
  pose proof (group_le e off) as Hoff. pose proof (Hc i L L' X o HL HL' HX) as Hno. fold e in Hno.
  assert (Hgrp : group e o = group e off ∨ off ∉ range (group e o) (2 ^ e)).
  { destruct (decide (off ∈ range (group e o) (2 ^ e))) as [Hin|]; [left|by right].
    apply elem_of_range in Hin. unfold group in *. pose proof (pow2_pos_nat e).
    enough (o / 2 ^ e = off / 2 ^ e)%nat as -> by done.
    apply (Nat.div_unique _ _ _ (off - o / 2 ^ e * 2 ^ e)%nat); lia. }
  destruct (decide (range (group e off) (2 ^ e) ⊆ {[off]} ∪ X)) as [Hsub|Hsub]; cbn [fst] in Hall.
  - assert (off ∈ range (group e off) (2 ^ e)) by (apply elem_of_range; lia). apply Hno. set_solver.
  - destruct Hgrp as [Hg|Hg]; [by rewrite Hg in Hall|]. apply Hno. set_solver.
Qed.

(** ** Freeing one block *)
Lemma free_block_loop_run n i L off s Xs :
  (length H - i ≤ n)%nat → rep s Xs → good Xs → H !! i = Some L → (off < 64 * ln L)%nat →
  (∀ p, pages_of L off p → ¬ free Xs p ∧ in_heap p) →
  ∃ s' Xs', free_block_loop assertions n i (addr_of ((lorg L + off) * 2 ^ lk L)) s = Ok (tt, s') ∧
    rep s' Xs' ∧ good Xs' ∧ ∀ p, free Xs' p ↔ free Xs p ∨ pages_of L off p.
Proof using Hgeo.
  revert i L off s Xs. induction n as [|n IH]; intros i L off s Xs Hn Hrep Hgood HL Hoff Hnew.
  { pose proof (lookup_lt_Some _ _ _ HL). lia. }
  destruct (rep_set s Xs i L Hrep HL) as [X HX]. pose proof (lookup_lt_Some _ _ _ HX) as Hi.
  assert (HoX : off ∉ X).
  { intros Ho. destruct (Hnew _ (first_page L off)) as [Hf _]. apply Hf. exists i, L, X. split_and!; [done..|].
    exists off. split; [done|]. apply first_page. }
  destruct (PushBlock_run s Xs i L X off Hrep HL HX Hoff HoX) as (s1 & Hrun & Hrep1).
  destruct Hgood as [Hpart Hcoal]. pose proof (coalesced_push Xs i L X off Hcoal HL HX) as Hcoal1.
  destruct (partitioned_push Xs i L X off Hpart HL HX Hnew) as [HgoodY HfreeY].
  cbn [free_block_loop]. erewrite st_bind_run by exact Hrun. unfold pushed in *.
  destruct (H !! S i) as [L'|] eqn:HL'; [|by exists s1, (<[i := {[off]} ∪ X]> Xs)].
  set (e := (lk L' - lk L)%nat) in *.
  destruct (decide (range (group e off) (2 ^ e) ⊆ {[off]} ∪ X)) as [Hsub|];
    [|by exists s1, (<[i := {[off]} ∪ X]> Xs)]. cbn [fst snd] in *.
  destruct (partitioned_remove _ i L _ (range (group e off) (2 ^ e)) HgoodY HL (list_lookup_insert_eq _ _ _ Hi) Hsub)
    as [Hpart1 Hfree1]. rewrite list_insert_insert_eq in Hpart1, Hfree1.
  assert (Hgrp : ∀ p, in_level L (range (group e off) (2 ^ e)) p → page_at (<[i := {[off]} ∪ X]> Xs) i p).
  { intros p Hp. exists L, ({[off]} ∪ X). split_and!; [done|by apply list_lookup_insert_eq|].
    by eapply in_level_mono. }
  assert (Hgin : in_heap ((lorg L + group e off) * 2 ^ lk L)).
  { eapply (proj2 HgoodY), Hgrp. exists (group e off). split; [|apply first_page]. apply elem_of_range.
    pose proof (pow2_pos_nat e). lia. }
  rewrite (proj2 (Z.eqb_neq _ NullAddress)) by (destruct Hgin; pose proof (g_start _ _ _ Hgeo); unfold addr_of, NullAddress; lia).
  cbn [negb]. destruct (group_next i L L' off HL HL' Hgin) as (off' & Hoff' & Haddr & Hpages). fold e in Haddr, Hpages. rewrite Haddr.
  destruct (IH (S i) L' off' s1 _ ltac:(lia) Hrep1 (conj Hpart1 Hcoal1) HL' Hoff') as (s2 & Xs2 & Hrun2 & Hrep2 & Hgood2 & Hfree2).
  { intros p Hp%Hpages. split; [by rewrite Hfree1; intros [_ ?]|]. by eapply (proj2 HgoodY), Hgrp. }
  exists s2, Xs2. split_and!; [done..|]. intros p. rewrite Hfree2, Hfree1, Hpages, HfreeY.
  assert (in_level L (range (group e off) (2 ^ e)) p → free Xs p ∨ pages_of L off p) as Hr.
  { intros Hp. apply HfreeY. exists i. by apply Hgrp. }
  destruct (decide (in_level L (range (group e off) (2 ^ e)) p)) as [Hd|Hd]; clear -Hr Hd; tauto.
Qed.

(** ** Addresses and sizes in pages *)
Lemma heap_bound q : (q ≤ p0 + np)%nat → 0 ≤ addr_of q < 2 ^ 62.
Proof using Hgeo.
  intros Hq. destruct (g_first _ _ _ Hgeo) as (L & HL & _). destruct (g_cover _ _ _ Hgeo _ _ HL) as [_ Hc].
  pose proof (g_width _ _ _ Hgeo _ _ HL) as [_ Hw]. unfold addr_of in *. lia.
Qed.

Lemma size_bound i L : H !! i = Some L → 0 < addr_of (2 ^ lk L) ≤ 2 ^ 30.
Proof using Hgeo.
  intros HL. destruct (g_width _ _ _ Hgeo _ _ HL) as [Hk _]. unfold addr_of. rewrite <- shift_size.
  split; [by apply pow2_pos; lia|]. apply Z.pow_le_mono_r; lia.
Qed.

Lemma size_of i L b : block_ok i L b → GetSize b = addr_of (2 ^ lk L).
Proof using Type. intros (Hs & _). unfold GetSize, GetShift, addr_of. by rewrite Hs, Z.shiftl_1_l, shift_size. Qed.

Lemma addr_add p q : addr_of p + addr_of q = addr_of (p + q).
Proof using Type. unfold addr_of. lia. Qed.

Lemma addr_le p q : addr_of p ≤ addr_of q ↔ (p ≤ q)%nat.
Proof using Type. unfold addr_of. lia. Qed.

Lemma addr_lt p q : addr_of p < addr_of q ↔ (p < q)%nat.
Proof using Type. unfold addr_of. lia. Qed.

Lemma next_block i L q : H !! i = Some L → (q ≤ p0 + np)%nat →
  u64 (addr_of q + addr_of (2 ^ lk L)) = addr_of (q + 2 ^ lk L).
Proof using Hgeo.
  intros HL Hq. pose proof (heap_bound q Hq). pose proof (size_bound i L HL). rewrite <- addr_add.
  apply wrap_small. unfold in_width. lia.
Qed.

Lemma previous_block i L q : H !! i = Some L → (q ≤ p0 + np)%nat → (2 ^ lk L ≤ q)%nat →
  u64 (addr_of q - addr_of (2 ^ lk L)) = addr_of (q - 2 ^ lk L).
Proof using Hgeo.
  intros HL Hq Hle. pose proof (heap_bound q Hq). pose proof (size_bound i L HL).
  rewrite wrap_small; [unfold addr_of; lia|]. apply addr_le in Hle. unfold in_width. lia.
Qed.

(** The first multiple of the block size from [q] on, and the last one up to [q]. *)
Definition up (k q : nat) : nat := ((q + 2 ^ k - 1) / 2 ^ k * 2 ^ k)%nat.
Definition down (k q : nat) : nat := (q / 2 ^ k * 2 ^ k)%nat.

Lemma up_spec k q : (q ≤ up k q < q + 2 ^ k)%nat ∧ (2 ^ k | up k q)%nat.
Proof using Type.
  pose proof (pow2_pos_nat k). unfold up. pose proof (Nat.div_mod_eq (q + 2 ^ k - 1) (2 ^ k)).
  pose proof (Nat.mod_upper_bound (q + 2 ^ k - 1) (2 ^ k) ltac:(lia)). split; [lia|]. by eexists.
Qed.

Lemma down_spec k q : (down k q ≤ q < down k q + 2 ^ k)%nat ∧ (2 ^ k | down k q)%nat.
Proof using Type.
  pose proof (pow2_pos_nat k). unfold down. pose proof (Nat.div_mod_eq q (2 ^ k)).
  pose proof (Nat.mod_upper_bound q (2 ^ k) ltac:(lia)). split; [lia|]. by eexists.
Qed.

Lemma AlignDown_page i L q : H !! i = Some L → (q ≤ p0 + np)%nat →
  Util.AlignDown (addr_of q) (addr_of (2 ^ lk L)) = addr_of (down (lk L) q).
Proof using Hgeo.
  intros HL Hq. destruct (g_width _ _ _ Hgeo _ _ HL) as [Hk _]. pose proof (heap_bound q Hq).
  pose proof (pow2_pos_nat (lk L)).
  unfold addr_of at 2. rewrite <- shift_size, Util.AlignDown_pow2 by (unfold in_width; lia).
  rewrite shift_size. unfold addr_of, down. rewrite Z.div_mul_cancel_l, <- Nat2Z.inj_div by lia. lia.
Qed.

Lemma AlignUp_page i L q : H !! i = Some L → (q ≤ p0 + np)%nat →
  Util.AlignUp (addr_of q) (addr_of (2 ^ lk L)) = addr_of (up (lk L) q).
Proof using Hgeo.
  intros HL Hq. destruct (g_width _ _ _ Hgeo _ _ HL) as [Hk _]. pose proof (heap_bound q Hq).
  pose proof (pow2_pos_nat (lk L)). pose proof (size_bound i L HL) as Hs. unfold addr_of in Hs. rewrite <- shift_size in Hs.
  unfold addr_of at 2. rewrite <- shift_size, Util.AlignUp_pow2 by lia. unfold addr_of at 2, up.
  rewrite Nat2Z.inj_mul, Nat2Z.inj_div, Nat2Z.inj_sub, Nat2Z.inj_add by lia.
  rewrite shift_size in *. set (m := Z.of_nat (2 ^ lk L)) in *. unfold addr_of.
  replace ((4096 * Z.of_nat q + 4096 * m - 1) / (4096 * m)) with ((Z.of_nat q + m - 1) / m); [lia|].
  rewrite <- Z.div_div by lia. f_equal.
  apply (Z.div_unique _ _ _ 4095); lia.
Qed.

(** ** Freeing ranges of pages *)

(** The pages from [a] to [b] are in the heap and not free; they became free. *)
Definition held Xs (a b : nat) : Prop := ∀ p, (a ≤ p < b)%nat → ¬ free Xs p ∧ in_heap p.
Definition freed Xs Xs' (a b : nat) : Prop :=
  good Xs' ∧ ∀ p, free Xs' p ↔ free Xs p ∨ (a ≤ p < b)%nat.

Lemma freed_none Xs a : good Xs → freed Xs Xs a a.
Proof using Type. intros Hg. split; [done|]. intros p. split; [by left|]. intros [?|?]; [done|lia]. Qed.

Lemma freed_join Xs Xs1 Xs2 a b c : (a ≤ b ≤ c)%nat → freed Xs Xs1 a b → freed Xs1 Xs2 b c → freed Xs Xs2 a c.
Proof using Type.
  intros Hord [_ H1] [Hg H2]. split; [done|]. intros p. rewrite H2, H1. clear - Hord.
  assert ((a ≤ p < c) ↔ (a ≤ p < b) ∨ (b ≤ p < c))%nat by lia. tauto.
Qed.

Lemma freed_join_down Xs Xs1 Xs2 a b c : (a ≤ b ≤ c)%nat → freed Xs Xs1 b c → freed Xs1 Xs2 a b → freed Xs Xs2 a c.
Proof using Type.
  intros Hord [_ H1] [Hg H2]. split; [done|]. intros p. rewrite H2, H1. clear - Hord.
  assert ((a ≤ p < c) ↔ (a ≤ p < b) ∨ (b ≤ p < c))%nat by lia. tauto.
Qed.

Lemma held_sub Xs a b a' b' : held Xs a b → (a ≤ a')%nat → (b' ≤ b)%nat → held Xs a' b'.
Proof using Type. intros Hh Ha Hb p Hp. apply Hh. lia. Qed.

Lemma held_after Xs Xs' a b a' b' : held Xs a b → freed Xs Xs' a' b' → (b ≤ a' ∨ b' ≤ a)%nat → held Xs' a b.
Proof using Type.
  intros Hh [_ Hf] Hd p Hp. destruct (Hh p Hp) as [Hn Hi]. split; [|done]. rewrite Hf. intros [?|?]; [done|lia].
Qed.

Lemma rep_some s Xs i L : rep s Xs → H !! i = Some L → ∃ b, m_blocks (heap s) !! i = Some b ∧ block_ok i L b.
Proof using Type.
  intros Hrep HL. destruct (rep_set s Xs i L Hrep HL) as [X HX].
  destruct (rep_blocks _ _ Hrep i L X HL HX) as (b & Hb & Hok & _). by exists b.
Qed.

Lemma rep_size s Xs : rep s Xs → (length H ≤ length (m_blocks (heap s)))%nat.
Proof using Type.
  intros Hrep. destruct (decide (length H = 0)%nat) as [->|Hn]; [lia|].
  destruct (lookup_lt_is_Some_2 H (length H - 1)) as [L HL]; [lia|].
  destruct (rep_some s Xs _ L Hrep HL) as (b & Hb & _). apply lookup_lt_Some in Hb. lia.
Qed.

(** One block, by its pages. *)
Lemma FreeBlock_run i L a s Xs :
  rep s Xs → good Xs → H !! i = Some L → (2 ^ lk L | a)%nat → held Xs a (a + 2 ^ lk L) →
  ∃ s' Xs', FreeBlock assertions (addr_of a) i s = Ok (tt, s') ∧ rep s' Xs' ∧ freed Xs Xs' a (a + 2 ^ lk L).
Proof using Hgeo.
  intros Hrep Hgood HL [g ->] Hheld. pose proof (pow2_pos_nat (lk L)) as Hpos.
  destruct (block_of_page i L (g * 2 ^ lk L) HL) as (Ho1 & Ho2 & _); [apply Hheld; lia|].
  rewrite Nat.div_mul in Ho1, Ho2 by lia. set (off := (g - lorg L)%nat) in *.
  assert (Hg : g = (lorg L + off)%nat) by lia.
  assert (Hpages : ∀ p, pages_of L off p ↔ (g * 2 ^ lk L ≤ p < g * 2 ^ lk L + 2 ^ lk L)%nat).
  { intros p. rewrite Hg. apply pages_of_span. }
  unfold FreeBlock. erewrite st_bind_run by reflexivity.
  replace (addr_of (g * 2 ^ lk L)) with (addr_of ((lorg L + off) * 2 ^ lk L)) by (by rewrite <- Hg).
  destruct (free_block_loop_run (length (m_blocks (heap s)) - i) i L off s Xs) as (s' & Xs' & Hrun & Hrep' & Hg' & Hf); try done.
  { pose proof (rep_size s Xs Hrep). lia. }
  { intros p Hp%Hpages. by apply Hheld. }
  exists s', Xs'. split_and!; [done..|]. split; [done|]. intros p. by rewrite Hf, Hpages.
Qed.

Lemma free_big_run fuel i L a n s Xs :
  (n ≤ fuel)%nat → rep s Xs → good Xs → H !! i = Some L → (2 ^ lk L | a)%nat →
  (a + n * 2 ^ lk L ≤ p0 + np)%nat → held Xs a (a + n * 2 ^ lk L) →
  ∃ s' Xs', free_big_loop assertions fuel (addr_of a) (addr_of (a + n * 2 ^ lk L)) (addr_of (2 ^ lk L)) i s = Ok (tt, s') ∧
    rep s' Xs' ∧ freed Xs Xs' a (a + n * 2 ^ lk L).
Proof using Hgeo.
  revert a n s Xs. pose proof (pow2_pos_nat (lk L)) as Hpos.
  induction fuel as [|fuel IH]; intros a n s Xs Hn Hrep Hgood HL Ha Hb Hheld.
  - assert (n = 0)%nat as -> by lia. rewrite Nat.mul_0_l, Nat.add_0_r. cbn [free_big_loop]. rewrite Z.ltb_irrefl.
    exists s, Xs. split_and!; [done..|]. by apply freed_none.
  - destruct n as [|n].
    { rewrite Nat.mul_0_l, Nat.add_0_r. cbn [free_big_loop]. rewrite Z.ltb_irrefl.
      exists s, Xs. split_and!; [done..|]. by apply freed_none. }
    cbn [free_big_loop]. rewrite (proj2 (Z.ltb_lt _ _)) by (apply addr_lt; lia).
    destruct (FreeBlock_run i L a s Xs Hrep Hgood HL Ha) as (s1 & Xs1 & Hrun1 & Hrep1 & Hf1).
    { eapply held_sub; [done|lia..]. }
    erewrite st_bind_run by exact Hrun1. rewrite (next_block i L a HL) by lia.
    replace (a + S n * 2 ^ lk L)%nat with (a + 2 ^ lk L + n * 2 ^ lk L)%nat in * by lia.
    destruct (IH (a + 2 ^ lk L)%nat n s1 Xs1) as (s2 & Xs2 & Hrun2 & Hrep2 & Hf2); try done; try lia.
    { apply Hf1. }
    { apply Nat.divide_add_r; [done|reflexivity]. }
    { eapply held_after; [eapply held_sub; [done|lia..]|done|lia]. }
    exists s2, Xs2. split_and!; [done..|]. eapply freed_join; [|done..]. lia.
Qed.

Lemma divide_sub_pow (k q : nat) : (2 ^ k | q)%nat → (2 ^ k | q - 2 ^ k)%nat.
Proof using Type. intros [c ->]. exists (c - 1)%nat. nia. Qed.

Lemma free_before_run fuel i L a e s Xs :
  (e - a ≤ fuel)%nat → rep s Xs → good Xs → H !! i = Some L → (2 ^ lk L | e)%nat →
  (a ≤ e ≤ p0 + np)%nat → held Xs a e →
  ∃ e' s' Xs', free_before_loop assertions fuel (addr_of a) (addr_of e) (addr_of (2 ^ lk L)) i s = Ok (addr_of e', s') ∧
    rep s' Xs' ∧ freed Xs Xs' e' e ∧ (a ≤ e' ≤ e)%nat ∧ (e' < a + 2 ^ lk L)%nat ∧ (2 ^ lk L | e')%nat.
Proof using Hgeo.
  pose proof (pow2_pos_nat (lk L)) as Hpos. revert e s Xs.
  induction fuel as [|fuel IH]; intros e s Xs Hfuel Hrep Hgood HL He Hord Hheld; cbn [free_before_loop];
    rewrite (next_block i L a HL) by lia;
    destruct (Z.leb_spec (addr_of (a + 2 ^ lk L)) (addr_of e)) as [Hle|Hlt].
  - apply addr_le in Hle. lia.
  - apply addr_lt in Hlt. exists e, s, Xs. split_and!; try done; try lia. by apply freed_none.
  - apply addr_le in Hle. rewrite (previous_block i L e HL) by lia. pose proof (divide_sub_pow _ _ He) as He1.
    destruct (FreeBlock_run i L (e - 2 ^ lk L) s Xs Hrep Hgood HL He1) as (s1 & Xs1 & Hrun1 & Hrep1 & Hf1).
    { eapply held_sub; [done|lia..]. }
    replace (e - 2 ^ lk L + 2 ^ lk L)%nat with e in Hf1 by lia.
    erewrite st_bind_run by exact Hrun1.
    destruct (IH (e - 2 ^ lk L)%nat s1 Xs1) as (e' & s2 & Xs2 & Hrun2 & Hrep2 & Hf2 & Hord2 & Hlt2 & Hd2); try done; try lia.
    { apply Hf1. }
    { eapply held_after; [eapply held_sub; [done|lia..]|done|lia]. }
    exists e', s2, Xs2. split_and!; try done; try lia. eapply freed_join_down; [|done..]. lia.
  - apply addr_lt in Hlt. exists e, s, Xs. split_and!; try done; try lia. by apply freed_none.
Qed.

Lemma free_after_run fuel i L a e s Xs :
  (e - a ≤ fuel)%nat → rep s Xs → good Xs → H !! i = Some L → (2 ^ lk L | a)%nat →
  (a ≤ e ≤ p0 + np)%nat → held Xs a e →
  ∃ a' s' Xs', free_after_loop assertions fuel (addr_of a) (addr_of e) (addr_of (2 ^ lk L)) i s = Ok (addr_of a', s') ∧
    rep s' Xs' ∧ freed Xs Xs' a a' ∧ (a ≤ a' ≤ e)%nat ∧ (e < a' + 2 ^ lk L)%nat ∧ (2 ^ lk L | a')%nat.
Proof using Hgeo.
  pose proof (pow2_pos_nat (lk L)) as Hpos. revert a s Xs.
  induction fuel as [|fuel IH]; intros a s Xs Hfuel Hrep Hgood HL Ha Hord Hheld; cbn [free_after_loop];
    rewrite (next_block i L a HL) by lia;
    destruct (Z.leb_spec (addr_of (a + 2 ^ lk L)) (addr_of e)) as [Hle|Hlt].
  - apply addr_le in Hle. lia.
  - apply addr_lt in Hlt. exists a, s, Xs. split_and!; try done; try lia. by apply freed_none.
  - apply addr_le in Hle.
    destruct (FreeBlock_run i L a s Xs Hrep Hgood HL Ha) as (s1 & Xs1 & Hrun1 & Hrep1 & Hf1).
    { eapply held_sub; [done|lia..]. }
    erewrite st_bind_run by exact Hrun1.
    destruct (IH (a + 2 ^ lk L)%nat s1 Xs1) as (a' & s2 & Xs2 & Hrun2 & Hrep2 & Hf2 & Hord2 & Hlt2 & Hd2); try done; try lia.
    { apply Hf1. }
    { apply Nat.divide_add_r; [done|reflexivity]. }
    { eapply held_after; [eapply held_sub; [done|lia..]|done|lia]. }
    exists a', s2, Xs2. split_and!; try done; try lia. eapply freed_join; [|done..]. lia.
  - apply addr_lt in Hlt. exists a, s, Xs. split_and!; try done; try lia. by apply freed_none.
Qed.

(** A boundary that the sizes below index [n] can still reach. *)
Definition reachable (n x target : nat) : Prop :=
  match n with
  | O => x = target
  | S i => ∃ L, H !! i = Some L ∧ (2 ^ lk L | x)%nat
  end.

(** Once no block of size [i] fits, the boundary suits the next smaller size. *)
Lemma reachable_below i L x target : H !! i = Some L → (2 ^ lk L | x)%nat →
  (x < target + 2 ^ lk L)%nat → (target < x + 2 ^ lk L)%nat → reachable i x target.
Proof using Hgeo.
  intros HL Hd H1 H2. destruct i as [|j]; cbn.
  - destruct (g_first _ _ _ Hgeo) as (L0 & HL0 & Hk). simplify_eq. rewrite Hk in *. cbn in *. lia.
  - destruct (lookup_lt_is_Some_2 H j) as [L0 HL0]; [apply lookup_lt_Some in HL; lia|].
    exists L0. split; [done|]. destruct (g_step _ _ _ Hgeo j L0 L HL0 HL) as [Hlt _].
    etransitivity; [|exact Hd]. exists (2 ^ (lk L - lk L0))%nat. rewrite <- Nat.pow_add_r. f_equal. lia.
Qed.

Lemma before_sizes_run fuel n a e s Xs :
  (e - a ≤ fuel)%nat → rep s Xs → good Xs → reachable n e a → (a ≤ e ≤ p0 + np)%nat → held Xs a e →
  ∃ s' Xs', before_sizes assertions fuel n (addr_of a) (addr_of e) s = Ok (tt, s') ∧ rep s' Xs' ∧ freed Xs Xs' a e.
Proof using Hgeo.
  revert e s Xs. induction n as [|i IH]; intros e s Xs Hfuel Hrep Hgood Hreach Hord Hheld; cbn [before_sizes].
  - cbn in Hreach. subst e. exists s, Xs. split_and!; [done..|]. by apply freed_none.
  - destruct Hreach as (L & HL & Hd). destruct (rep_some s Xs i L Hrep HL) as (b & Hb & Hok).
    erewrite st_bind_run by (by apply get_blk_run). rewrite (size_of i L b Hok).
    destruct (free_before_run fuel i L a e s Xs Hfuel Hrep Hgood HL Hd Hord Hheld)
      as (e' & s1 & Xs1 & Hrun1 & Hrep1 & Hf1 & Hord1 & Hlt1 & Hd1).
    erewrite st_bind_run by exact Hrun1.
    destruct (IH e' s1 Xs1) as (s2 & Xs2 & Hrun2 & Hrep2 & Hf2); try done; try lia.
    { apply Hf1. }
    { pose proof (pow2_pos_nat (lk L)). eapply reachable_below; [done..| |]; lia. }
    { eapply held_after; [eapply held_sub; [done|lia..]|done|lia]. }
    exists s2, Xs2. split_and!; [done..|]. eapply freed_join_down; [|done..]. lia.
Qed.

Lemma after_sizes_run fuel n a e s Xs :
  (e - a ≤ fuel)%nat → rep s Xs → good Xs → reachable n a e → (a ≤ e ≤ p0 + np)%nat → held Xs a e →
  ∃ s' Xs', after_sizes assertions fuel n (addr_of a) (addr_of e) s = Ok (tt, s') ∧ rep s' Xs' ∧ freed Xs Xs' a e.
Proof using Hgeo.
  revert a s Xs. induction n as [|i IH]; intros a s Xs Hfuel Hrep Hgood Hreach Hord Hheld; cbn [after_sizes].
  - cbn in Hreach. subst e. exists s, Xs. split_and!; [done..|]. by apply freed_none.
  - destruct Hreach as (L & HL & Hd). destruct (rep_some s Xs i L Hrep HL) as (b & Hb & Hok).
    erewrite st_bind_run by (by apply get_blk_run). rewrite (size_of i L b Hok).
    destruct (free_after_run fuel i L a e s Xs Hfuel Hrep Hgood HL Hd Hord Hheld)
      as (a' & s1 & Xs1 & Hrun1 & Hrep1 & Hf1 & Hord1 & Hlt1 & Hd1).
    erewrite st_bind_run by exact Hrun1.
    destruct (IH a' s1 Xs1) as (s2 & Xs2 & Hrun2 & Hrep2 & Hf2); try done; try lia.
    { apply Hf1. }
    { pose proof (pow2_pos_nat (lk L)). eapply reachable_below; [done..| |]; lia. }
    { eapply held_after; [eapply held_sub; [done|lia..]|done|lia]. }
    exists s2, Xs2. split_and!; [done..|]. eapply freed_join; [|done..]. lia.
Qed.

(** The block sizes are tried from the largest; pages fit in the end. *)
Lemma big_blocks_run fuel n a e s Xs :
  (e - a ≤ fuel)%nat → (0 < n ≤ length H)%nat → rep s Xs → good Xs → (a < e ≤ p0 + np)%nat → held Xs a e →
  ∃ i A E s' Xs', big_blocks assertions fuel n (addr_of a) (addr_of e) s = Ok (Some (i, addr_of A, addr_of E), s') ∧
    rep s' Xs' ∧ freed Xs Xs' A E ∧ (a ≤ A < E)%nat ∧ (E ≤ e)%nat ∧ reachable i A a ∧ reachable i E e.
Proof using Hgeo.
  revert s Xs. induction n as [|i IH]; intros s Xs Hfuel Hn Hrep Hgood Hord Hheld; [lia|].
  destruct (lookup_lt_is_Some_2 H i) as [L HL]; [lia|]. pose proof (pow2_pos_nat (lk L)) as Hpos.
  destruct (rep_some s Xs i L Hrep HL) as (b & Hb & Hok). cbn [big_blocks].
  erewrite st_bind_run by (by apply get_blk_run). rewrite (size_of i L b Hok).
  rewrite (AlignUp_page i L a HL), (AlignDown_page i L e HL) by lia.
  destruct (up_spec (lk L) a) as [Hup Hdu]. destruct (down_spec (lk L) e) as [Hdn Hdd].
  destruct (Z.ltb_spec (addr_of (up (lk L) a)) (addr_of (down (lk L) e))) as [Hlt|Hge].
  - apply addr_lt in Hlt. pose proof Hdu as [c Hc]. pose proof Hdd as [d Hd].
    assert (Hcd : (c < d)%nat) by (apply (Nat.mul_lt_mono_pos_r (2 ^ lk L)); lia).
    assert (Hsum : down (lk L) e = (up (lk L) a + (d - c) * 2 ^ lk L)%nat) by (rewrite Nat.mul_sub_distr_r; nia).
    destruct (free_big_run fuel i L (up (lk L) a) (d - c) s Xs) as (s1 & Xs1 & Hrun & Hrep1 & Hf); try done; try lia.
    { transitivity ((d - c) * 2 ^ lk L)%nat; [nia|lia]. }
    { eapply held_sub; [done|lia..]. }
    rewrite <- Hsum in Hrun, Hf. erewrite st_bind_run by exact Hrun.
    exists i, (up (lk L) a), (down (lk L) e), s1, Xs1. split_and!; try done; try lia;
      eapply reachable_below; try done; lia.
  - destruct i as [|j].
    + destruct (g_first _ _ _ Hgeo) as (L0 & HL0 & Hk). simplify_eq. rewrite Hk in *.
      apply addr_le in Hge. cbn in *. lia.
    + apply IH; try done. lia.
Qed.

(** Freeing a range makes exactly its pages free. *)
Lemma Heap_Free_run a n s Xs :
  rep s Xs → good Xs → (a + n ≤ p0 + np)%nat → held Xs a (a + n) →
  ∃ s' Xs', Heap_Free assertions (addr_of a) (Z.of_nat n) s = Ok (tt, s') ∧ rep s' Xs' ∧ freed Xs Xs' a (a + n).
Proof using Hgeo.
  intros Hrep Hgood Hb Hheld. unfold Heap_Free. destruct n as [|n].
  { exists s, Xs. rewrite Nat.add_0_r. split_and!; [done..|]. by apply freed_none. }
  rewrite (proj2 (Z.eqb_neq _ 0)) by lia. erewrite st_bind_run by reflexivity. set (m := S n) in *.
  pose proof (heap_bound (a + m) Hb) as Hbound. unfold addr_of in Hbound.
  assert (Hend : u64 (addr_of a + u64 (Z.of_nat m * PageSize)) = addr_of (a + m)).
  { rewrite (wrap_small 64 (Z.of_nat m * PageSize)) by (unfold in_width, PageSize; lia).
    rewrite wrap_small; unfold in_width, PageSize, addr_of; lia. }
  rewrite Hend, Nat2Z.id, (rep_num _ _ Hrep).
  assert (Hlen : (0 < length H)%nat) by (destruct (g_first _ _ _ Hgeo) as (L & HL & _); by apply lookup_lt_Some in HL).
  destruct (big_blocks_run m (length H) a (a + m) s Xs) as (i & A & E & s1 & Xs1 & Hrun1 & Hrep1 & Hf1 & HA & HE & Hr1 & Hr2);
    try done; try lia.
  erewrite st_bind_run by exact Hrun1.
  destruct (before_sizes_run m i a A s1 Xs1) as (s2 & Xs2 & Hrun2 & Hrep2 & Hf2); try done; try lia.
  { apply Hf1. }
  { eapply held_after; [eapply held_sub; [done|lia..]|done|lia]. }
  erewrite st_bind_run by exact Hrun2.
  assert (Hf12 : freed Xs Xs2 a E) by (eapply freed_join_down; [|done..]; lia).
  destruct (after_sizes_run m i E (a + m) s2 Xs2) as (s3 & Xs3 & Hrun3 & Hrep3 & Hf3); try done; try lia.
  { apply Hf12. }
  { eapply held_after; [eapply held_sub; [done|lia..]|done|lia]. }
  exists s3, Xs3. split_and!; [done..|]. eapply freed_join; [|done..]. lia.
Qed.

(** ** Taking pages out of the heap *)

(** The pages from [a] to [b] were free and are not any more. *)
Definition taken Xs Xs' (a b : nat) : Prop :=
  good Xs' ∧ (∀ p, (a ≤ p < b)%nat → free Xs p) ∧ ∀ p, free Xs' p ↔ free Xs p ∧ ¬ (a ≤ p < b)%nat.

(** Giving back what comes before [a'] and after [b']. *)
Lemma taken_sub Xs Xs1 Xs2 a b a' : taken Xs Xs1 a b → (a ≤ a' ≤ b)%nat →
  (freed Xs1 Xs2 a a' → taken Xs Xs2 a' b) ∧ (freed Xs1 Xs2 a' b → taken Xs Xs2 a a').
Proof using Type.
  intros (_ & Hall & Hf) Hord. split; intros [Hg2 Hf2]; (split_and!; [done|intros p Hp; apply Hall; lia|]);
    intros p; rewrite Hf2, Hf; split.
  - intros [[? ?]|Hp]; (split; [|lia]); [done|apply Hall; lia].
  - intros [Hp Hn]. destruct (decide (a ≤ p < a')%nat); [by right|left]. split; [done|lia].
  - intros [[? ?]|Hp]; (split; [|lia]); [done|apply Hall; lia].
  - intros [Hp Hn]. destruct (decide (a' ≤ p < b)%nat); [by right|left]. split; [done|lia].
Qed.

Lemma taken_held Xs Xs' a b a' b' : good Xs → taken Xs Xs' a b → (a ≤ a')%nat → (b' ≤ b)%nat → held Xs' a' b'.
Proof using Type.
  intros [[_ Hin] _] (_ & Hall & Hf) Ha Hb p Hp. split; [rewrite Hf; intros [_ ?]; lia|].
  destruct (Hall p ltac:(lia)) as [i Hi]. by eapply Hin.
Qed.

Lemma taken_bound Xs Xs' a b : good Xs → taken Xs Xs' a b → (a < b)%nat → (p0 ≤ a)%nat ∧ (b ≤ p0 + np)%nat.
Proof using Type.
  intros [[_ Hin] _] (_ & Hall & _) Hab.
  destruct (Hall a ltac:(lia)) as [i Hi]. destruct (Hall (b - 1)%nat ltac:(lia)) as [j Hj].
  apply Hin in Hi, Hj. unfold in_heap in *. lia.
Qed.

(** [PopBlock] takes a block of the size, and fails only when there is none. *)
Lemma PopBlock_run random s Xs i L X :
  rep s Xs → good Xs → H !! i = Some L → Xs !! i = Some X →
  (X = ∅ ∧ ∃ s', PopBlock assertions i random s = Ok (NullAddress, s') ∧ rep s' Xs) ∨
  (∃ a s' Xs', PopBlock assertions i random s = Ok (addr_of a, s') ∧ rep s' Xs' ∧
     X ≠ ∅ ∧ (2 ^ lk L | a)%nat ∧ taken Xs Xs' a (a + 2 ^ lk L)).
Proof using Hgeo.
  intros Hrep Hgood HL HX. pose proof (lookup_lt_Some _ _ _ HX) as Hi.
  destruct (on_bitmap_run (FindFreeBlock assertions random)
    (λ r X', X' = X ∧ ((r = -1 ∧ X = ∅) ∨ ∃ o, r = Z.of_nat o ∧ o ∈ X ∧ (o < 64 * ln L)%nat)) s Xs i L X)
    as (r & s1 & X1 & Hrun1 & [-> Hr] & Hrep1); try done.
  { apply tracks_FindFreeBlock. }
  { intros bs pre post Hr. destruct (FindFreeBlock_run assertions pre post (ln L) bs X random Hr) as (r & bs' & H1 & H2 & H3).
    destruct (repr_small _ _ _ _ _ Hr) as (_ & _ & Hlt). exists r, bs', X. split_and!; [done..| |done].
    destruct H3 as [?|(o & ? & ? & _)]; [by left|right; exists o; auto]. }
  rewrite list_insert_id in Hrep1 by done. unfold PopBlock. erewrite st_bind_run by exact Hrun1.
  destruct Hr as [[-> HX0]|(o & -> & Ho & Hlt)]; [left; split; [done|]; by exists s1|right].
  rewrite (proj2 (Z.ltb_ge _ 0)) by lia.
  destruct (on_bitmap_run (ClearBit assertions (Z.of_nat o)) (λ _ X', X' = X ∖ {[o]}) s1 Xs i L X)
    as (u & s2 & X2 & Hrun2 & -> & Hrep2); try done.
  { apply tracks_ClearBit. }
  { intros bs pre post Hr. destruct (ClearBit_run assertions pre post (ln L) bs X o Hr Ho) as (bs' & H1 & H2).
    by exists tt, bs', (X ∖ {[o]}). }
  erewrite st_bind_run by exact Hrun2. destruct (rep_some _ _ i L Hrep2 HL) as (b & Hb & Hok).
  erewrite st_bind_run by (by apply get_blk_run). rewrite (address_of i L b o HL Hok Hlt).
  exists ((lorg L + o) * 2 ^ lk L)%nat, s2, (<[i := X ∖ {[o]}]> Xs). split_and!; [done..|set_solver|by eexists|].
  destruct (good_remove Xs i L X {[o]} Hgood HL HX) as [Hg2 Hf2]; [set_solver|].
  pose proof (pow2_pos_nat (lk L)) as Hpos.
  assert (Hp : ∀ p, in_level L {[o]} p ↔ ((lorg L + o) * 2 ^ lk L ≤ p < (lorg L + o) * 2 ^ lk L + 2 ^ lk L)%nat).
  { intros p. rewrite <- pages_of_span. unfold in_level, pages_of. set_solver. }
  split_and!; [done| |intros p; by rewrite Hf2, Hp].
  intros p Hin%Hp. exists i, L, X. split_and!; [done..|]. eapply in_level_mono; [|done]. set_solver.
Qed.

Lemma lk_mono i j L L' : (i ≤ j)%nat → H !! i = Some L → H !! j = Some L' → (lk L ≤ lk L')%nat.
Proof using Hgeo.
  intros Hij HL. revert L'. induction Hij as [|j Hij IH]; intros L' HL'; [by simplify_eq|].
  destruct (lookup_lt_is_Some_2 H j) as [L1 HL1]; [apply lookup_lt_Some in HL'; lia|].
  specialize (IH L1 HL1). destruct (g_step _ _ _ Hgeo j L1 L' HL1 HL'). lia.
Qed.

Lemma divide_pow (j k : nat) : (j ≤ k)%nat → (2 ^ j | 2 ^ k)%nat.
Proof using Type. intros Hjk. exists (2 ^ (k - j))%nat. rewrite <- Nat.pow_add_r. f_equal. lia. Qed.

(** No block of size [i] or larger is free. *)
Definition exhausted Xs i : Prop := ∀ j X, (i ≤ j)%nat → Xs !! j = Some X → X = ∅.

(** What an allocation of [n] pages aligned to [2 ^ j] pages, from the sizes
    from [i] on, does. *)
Definition allocated Xs i n j (r : Z) s' : Prop :=
  (r = NullAddress ∧ exhausted Xs i ∧ rep s' Xs) ∨
  ∃ a Xs', r = addr_of a ∧ r ≠ NullAddress ∧ (2 ^ j | a)%nat ∧ rep s' Xs' ∧ taken Xs Xs' a (a + n).

Lemma addr_not_null a : (p0 ≤ a)%nat → addr_of a ≠ NullAddress.
Proof using Hgeo. intros Ha. pose proof (g_start _ _ _ Hgeo). unfold addr_of, NullAddress. lia. Qed.

Lemma linear_loop_run n i i0 L0 s Xs :
  (i0 ≤ i)%nat → (i + n = length H)%nat → H !! i0 = Some L0 → rep s Xs → good Xs →
  (∀ j X, (i0 ≤ j < i)%nat → Xs !! j = Some X → X = ∅) →
  ∃ r s', linear_loop assertions n i (addr_of (2 ^ lk L0)) s = Ok (r, s') ∧ allocated Xs i0 (2 ^ lk L0) (lk L0) r s'.
Proof using Hgeo.
  revert i s. induction n as [|n IH]; intros i s Hi0 Hn HL0 Hrep Hgood Hempty; cbn [linear_loop].
  { exists NullAddress, s. split; [done|]. left. split_and!; [done| |done].
    intros j X Hj HX. apply (Hempty j X); [|done]. apply lookup_lt_Some in HX. rewrite (rep_len _ _ Hrep) in HX. lia. }
  destruct (lookup_lt_is_Some_2 H i) as [L HL]; [lia|]. destruct (rep_set s Xs i L Hrep HL) as [X HX].
  destruct (PopBlock_run false s Xs i L X Hrep Hgood HL HX) as [(HX0 & s1 & Hrun & Hrep1)|(a & s1 & Xs1 & Hrun & Hrep1 & _ & Hd & Ht)];
    erewrite st_bind_run by exact Hrun.
  { cbn [negb Z.eqb NullAddress]. apply IH; try done; try lia. intros j Y Hj HY.
    destruct (decide (j = i)) as [->|]; [by simplify_eq|]. apply (Hempty j Y); [lia|done]. }
  pose proof (pow2_pos_nat (lk L)) as Hpos. pose proof (pow2_pos_nat (lk L0)) as Hpos0.
  destruct (taken_bound Xs Xs1 a (a + 2 ^ lk L) Hgood Ht) as [Ha0 Ha1]; [lia|].
  pose proof (addr_not_null a Ha0) as Hnull. rewrite (proj2 (Z.eqb_neq _ _) Hnull). cbn [negb].
  destruct (rep_some s1 Xs1 i L Hrep1 HL) as (b & Hb & Hok). erewrite st_bind_run by (by apply get_blk_run).
  rewrite (size_of i L b Hok). pose proof (lk_mono i0 i L0 L Hi0 HL0 HL) as Hmono.
  assert (Hle : (2 ^ lk L0 ≤ 2 ^ lk L)%nat) by (apply Nat.pow_le_mono_r; lia).
  assert (Hd0 : (2 ^ lk L0 | a)%nat) by (etransitivity; [by apply divide_pow|done]).
  destruct (Z.ltb_spec (addr_of (2 ^ lk L0)) (addr_of (2 ^ lk L))) as [Hlt|Hge].
  - apply addr_lt in Hlt. rewrite (next_block i0 L0 a HL0) by lia.
    replace ((addr_of (2 ^ lk L) - addr_of (2 ^ lk L0)) / PageSize) with (Z.of_nat (2 ^ lk L - 2 ^ lk L0)).
    2:{ unfold addr_of, PageSize. symmetry. rewrite <- Z.mul_sub_distr_l, Z.mul_comm, Z.div_mul by lia. lia. }
    destruct (Heap_Free_run (a + 2 ^ lk L0) (2 ^ lk L - 2 ^ lk L0) s1 Xs1 Hrep1) as (s2 & Xs2 & Hrun2 & Hrep2 & Hf2).
    { apply Ht. } { lia. } { eapply taken_held; [done..|lia|lia]. }
    erewrite st_bind_run by exact Hrun2. exists (addr_of a), s2. split; [done|]. right.
    exists a, Xs2. split_and!; try done. eapply (taken_sub Xs Xs1 Xs2 a _ (a + 2 ^ lk L0)); [exact Ht|lia|].
    by replace (a + 2 ^ lk L)%nat with (a + 2 ^ lk L0 + (2 ^ lk L - 2 ^ lk L0))%nat by lia.
  - apply addr_le in Hge. assert (2 ^ lk L = 2 ^ lk L0)%nat as He by lia. rewrite He in *.
    exists (addr_of a), s1. split; [done|]. right. by exists a, Xs1.
Qed.

(** ** Random placement *)

(** The places for [n] pages at multiples of [2 ^ j] pages in the free blocks of
    size [i], and their sum over the sizes from [i] on. *)
Definition places Xs n j i : nat :=
  match H !! i, Xs !! i with
  | Some L, Some X => ((1 + (2 ^ lk L - n) / 2 ^ j) * size X)%nat
  | _, _ => 0%nat
  end.
Fixpoint total_places Xs n j i m : nat :=
  match m with
  | O => 0%nat
  | S m' => (places Xs n j i + total_places Xs n j (S i) m')%nat
  end.

Lemma shiftr_pages q j : Z.shiftr (addr_of q) (12 + Z.of_nat j) = Z.of_nat (q / 2 ^ j).
Proof using Type.
  rewrite Z.shiftr_div_pow2, shift_size by lia. unfold addr_of. pose proof (pow2_pos_nat j).
  by rewrite Z.div_mul_cancel_l, <- Nat2Z.inj_div by lia.
Qed.

Lemma alignments_run s Xs i L b n j : rep s Xs → H !! i = Some L → m_blocks (heap s) !! i = Some b →
  (n ≤ 2 ^ lk L)%nat → alignments_of b (addr_of n) (12 + Z.of_nat j) = Z.of_nat (places Xs n j i) ∧
  Z.of_nat (places Xs n j i) < 2 ^ 52.
Proof using Hgeo.
  intros Hrep HL Hb Hn. destruct (rep_set s Xs i L Hrep HL) as [X HX].
  destruct (rep_blocks _ _ Hrep i L X HL HX) as (b' & Hb' & Hok & pre & post & _ & _ & Hr). simplify_eq.
  pose proof (repr_small _ _ _ _ _ Hr) as (Hsz & _). destruct Hr as (l & r & _ & _ & _ & _ & Hnum). cbn in Hnum.
  unfold places. rewrite HL, HX. unfold alignments_of, GetNumFreeBlocks. rewrite (size_of i L b Hok), Hnum.
  pose proof (size_bound i L HL) as Hsb. destruct (g_width _ _ _ Hgeo _ _ HL) as [_ Hw]. unfold addr_of in Hw.
  pose proof (pow2_pos_nat (lk L)) as Hpos. pose proof (pow2_pos_nat j) as Hposj.
  assert (Hq : ((2 ^ lk L - n) / 2 ^ j ≤ 2 ^ lk L)%nat) by (apply Nat.Div0.div_le_upper_bound; nia).
  replace (addr_of (2 ^ lk L) - addr_of n) with (addr_of (2 ^ lk L - n)) by (unfold addr_of; lia).
  rewrite (wrap_small 64 (addr_of _)) by (unfold in_width, addr_of in *; lia). rewrite shiftr_pages.
  set (q := ((2 ^ lk L - n) / 2 ^ j)%nat) in *.
  assert (Hprod : ((1 + q) * size X ≤ 64 * ln L + 64 * ln L * 2 ^ lk L)%nat) by nia.
  assert (Hbig : (64 * ln L * 1 ≤ 64 * ln L * 2 ^ lk L)%nat) by (apply Nat.mul_le_mono_l; lia).
  assert (Hfit : Z.of_nat (64 * ln L * 2 ^ lk L) < 2 ^ 50) by lia.
  assert (Hlt : Z.of_nat ((1 + q) * size X) < 2 ^ 52) by lia.
  split; [|done]. rewrite (wrap_small 64 (1 + _)) by (unfold in_width, addr_of in *; lia).
  rewrite wrap_small; [lia|]. unfold in_width. lia.
Qed.

Lemma places_empty Xs n j i L X : H !! i = Some L → Xs !! i = Some X → places Xs n j i = 0%nat ↔ X = ∅.
Proof using Type.
  intros HL HX. unfold places. rewrite HL, HX. rewrite <- leibniz_equiv_iff, <- size_empty_iff. nia.
Qed.

Lemma total_zero Xs n j i m k : total_places Xs n j i m = 0%nat → (i ≤ k < i + m)%nat → places Xs n j k = 0%nat.
Proof using Type.
  revert i. induction m as [|m IH]; intros i Ht Hk; [lia|]. cbn in Ht.
  destruct (decide (k = i)) as [->|]; [lia|]. apply (IH (S i)); lia.
Qed.

Section choose.
Context (s : hstate) (Xs : list (gset nat)) (n j i0 : nat) (L0 : level).
Context (Hrep : rep s Xs) (HL0 : H !! i0 = Some L0) (Hn : (n ≤ 2 ^ lk L0)%nat).

Lemma block_places i : (i0 ≤ i < length H)%nat → ∃ b, m_blocks (heap s) !! i = Some b ∧
  alignments_of b (addr_of n) (12 + Z.of_nat j) = Z.of_nat (places Xs n j i) ∧ Z.of_nat (places Xs n j i) < 2 ^ 52.
Proof using Hgeo Hrep HL0 Hn.
  intros [Hi0 Hi]. destruct (lookup_lt_is_Some_2 H i Hi) as [L HL].
  destruct (rep_some s Xs i L Hrep HL) as (b & Hb & Hok). exists b. split; [done|].
  apply (alignments_run s Xs i L b); try done. pose proof (lk_mono i0 i L0 L Hi0 HL0 HL).
  assert (2 ^ lk L0 ≤ 2 ^ lk L)%nat by (apply Nat.pow_le_mono_r; lia). lia.
Qed.

Lemma sum_loop_run m i acc : (i0 ≤ i)%nat → (i + m = length H)%nat → (acc < 4)%nat →
  ∃ t k, (k ≤ m)%nat ∧ t = (acc + total_places Xs n j i k)%nat ∧ Z.of_nat t < 2 ^ 53 ∧
    sum_loop m i (addr_of n) (12 + Z.of_nat j) (Z.of_nat acc) s = Ok (Z.of_nat t, (i + k)%nat, s) ∧
    ((t < 4)%nat → k = m) ∧ (0 < m → 0 < k)%nat.
Proof using Hgeo Hrep HL0 Hn.
  revert i acc. induction m as [|m IH]; intros i acc Hi0 Hi Hacc; cbn [sum_loop].
  { exists acc, 0%nat. rewrite !Nat.add_0_r. cbn. split_and!; try done; lia. }
  destruct (block_places i) as (b & Hb & Ha & Hlt); [lia|]. erewrite st_bind_run by (by apply get_blk_run).
  rewrite Ha, wrap_small by (unfold in_width; lia). rewrite <- Nat2Z.inj_add.
  destruct (Z.leb_spec 4 (Z.of_nat (acc + places Xs n j i))).
  - exists (acc + places Xs n j i)%nat, 1%nat. cbn [total_places]. rewrite Nat.add_0_r.
    split_and!; try done; try lia. by rewrite Nat.add_1_r.
  - destruct (IH (S i) (acc + places Xs n j i)%nat) as (t & k & Hk & -> & Hb2 & Hrun & Hall & _); try lia.
    exists (acc + places Xs n j i + total_places Xs n j (S i) k)%nat, (S k). cbn [total_places].
    split_and!; try done; try lia. rewrite Hrun. by replace (S i + k)%nat with (i + S k)%nat by lia.
Qed.

Lemma choose_loop_run m i acc rnd d : (i0 ≤ i)%nat → (i + m ≤ length H)%nat → (acc ≤ rnd)%nat →
  (rnd < acc + total_places Xs n j i m)%nat → Z.of_nat acc + Z.of_nat (total_places Xs n j i m) < 2 ^ 53 →
  ∃ k, (i ≤ k < i + m)%nat ∧ (0 < places Xs n j k)%nat ∧
    choose_loop m i d (addr_of n) (12 + Z.of_nat j) (Z.of_nat rnd) (Z.of_nat acc) s = Ok (k, s).
Proof using Hgeo Hrep HL0 Hn.
  revert i acc. induction m as [|m IH]; intros i acc Hi0 Hi Hacc Hrnd Hfit; cbn [choose_loop total_places] in *; [lia|].
  destruct (block_places i) as (b & Hb & Ha & Hlt); [lia|]. erewrite st_bind_run by (by apply get_blk_run).
  rewrite Ha, wrap_small by (unfold in_width; lia). rewrite <- Nat2Z.inj_add.
  destruct (Z.ltb_spec (Z.of_nat rnd) (Z.of_nat (acc + places Xs n j i))).
  - exists i. split_and!; try done; lia.
  - destruct (IH (S i) (acc + places Xs n j i)%nat) as (k & Hk & Hpos & Hrun); try lia.
    exists k. split_and!; try done; lia.
Qed.
End choose.

Lemma heap_random_run max s Xs : 0 < max < 2 ^ 64 → rep s Xs →
  ∃ r s', heap_random max s = Ok (r, s') ∧ 0 ≤ r < max ∧ rep s' Xs.
Proof using Type.
  intros Hmax Hrep. destruct (GenerateRandom_spec max (m_heap_rng (heap s)) Hmax (rep_rng _ _ Hrep)) as (r & g & Hrun & Hr & Hg).
  exists r, (mkH (set_heap_rng g (heap s)) (mgmt s)). split_and!; [|lia|lia|].
  - unfold heap_random. erewrite st_bind_run by reflexivity. by rewrite Hrun.
  - split; cbn; try done; apply Hrep.
Qed.

Lemma align_shift_of j : (j ≤ 18)%nat → Util.CountTrailingZeros (u64 (Z.of_nat (2 ^ j) * PageSize)) = 12 + Z.of_nat j.
Proof using Type.
  intros Hj. assert (Hx : Z.of_nat (2 ^ j) * PageSize = 2 ^ (12 + Z.of_nat j)) by (rewrite shift_size; unfold PageSize; lia).
  pose proof (pow2_pos (12 + Z.of_nat j) ltac:(lia)) as Hpos.
  assert (2 ^ (12 + Z.of_nat j) < 2 ^ 64) by (apply Z.pow_lt_mono_r; lia).
  rewrite Hx, wrap_small by (unfold in_width; lia).
  destruct (Util.CountTrailingZeros_spec (2 ^ (12 + Z.of_nat j))) as (Hr & Hb & _); [unfold in_width; lia|lia|].
  rewrite Z.pow2_bits_eqb, Z.eqb_eq in Hb by lia. lia.
Qed.

(** A part of a held block is given back, or there is nothing to give back. *)
Lemma give_back a w s Xs (test : bool) pages :
  rep s Xs → good Xs → (a + w ≤ p0 + np)%nat → held Xs a (a + w) → pages = Z.of_nat w → (test = false → w = 0%nat) →
  ∃ s' Xs', (if test then Heap_Free assertions (addr_of a) pages else mret tt) s = Ok (tt, s') ∧
    rep s' Xs' ∧ freed Xs Xs' a (a + w).
Proof using Hgeo.
  intros Hrep Hgood Hb Hheld -> Ht. destruct test; [by apply Heap_Free_run|]. rewrite Ht by done.
  exists s, Xs. rewrite Nat.add_0_r. split_and!; [done..|]. by apply freed_none.
Qed.

(** The size that is chosen has a free block, unless no size has. *)
Lemma choose_index_run i L n j s Xs :
  H !! i = Some L → (n ≤ 2 ^ lk L)%nat → rep s Xs →
  ∃ c s' Lc Xc, choose_index i (addr_of n) (12 + Z.of_nat j) s = Ok (c, s') ∧ rep s' Xs ∧ (i ≤ c)%nat ∧
    H !! c = Some Lc ∧ Xs !! c = Some Xc ∧ (Xc = ∅ → exhausted Xs i).
Proof using Hgeo.
  intros HL Hn Hrep. pose proof (lookup_lt_Some _ _ _ HL) as Hi. unfold choose_index.
  erewrite st_bind_run by reflexivity. rewrite (rep_num _ _ Hrep).
  destruct (sum_loop_run s Xs n j i L Hrep HL Hn (length H - i) i 0) as (t & m & Hm & Ht & Hfit & Hrun & Hall & Hpos); try lia.
  erewrite st_bind_run by exact Hrun. cbn [Nat.add] in Ht. destruct (rep_set s Xs i L Hrep HL) as [X HX].
  destruct (decide (t = 0)%nat) as [Ht0|Ht0].
  { rewrite Ht0. exists i, s, L, X. split_and!; try done. intros _ k Y Hik HY.
    destruct (lookup_lt_is_Some_2 H k) as [Lk HLk]; [rewrite <- (rep_len _ _ Hrep); by eapply lookup_lt_Some|].
    apply (places_empty Xs n j k Lk Y HLk HY). apply (total_zero Xs n j i m); [lia|].
    rewrite (Hall ltac:(lia)). apply lookup_lt_Some in HLk. lia. }
  rewrite (proj2 (Z.ltb_lt 0 _)) by lia. cbn [andb]. case_bool_decide as Hmax.
  - destruct (heap_random_run (Z.of_nat t) s Xs) as (rnd & s1 & Hrnd & Hrange & Hrep1); [lia|done|].
    erewrite st_bind_run by exact Hrnd.
    destruct (choose_loop_run s1 Xs n j i L Hrep1 HL Hn m i 0 (Z.to_nat rnd) i) as (k & Hik & Hp & Hch); try lia.
    replace (i + m - i)%nat with m by lia. rewrite Z2Nat.id in Hch by lia.
    destruct (lookup_lt_is_Some_2 H k) as [Lk HLk]; [lia|]. destruct (rep_set s1 Xs k Lk Hrep1 HLk) as [Xk HXk].
    exists k, s1, Lk, Xk. split_and!; try done; try lia. intros HX0%(places_empty Xs n j k Lk Xk HLk HXk). lia.
  - exists i, s, L, X. split_and!; try done. intros HX0%(places_empty Xs n j i L X HL HX).
    assert (m = 1)%nat as -> by lia. cbn in Ht. lia.
Qed.

(** The block is cut down to [n] pages at a multiple of [2 ^ j] pages. *)
Lemma place_in_block_run i L n j a s Xs0 Xs :
  H !! i = Some L → (0 < n ≤ 2 ^ lk L)%nat → (j ≤ lk L)%nat → good Xs0 → rep s Xs → (2 ^ lk L | a)%nat →
  taken Xs0 Xs a (a + 2 ^ lk L) →
  ∃ a' s' Xs', place_in_block assertions i (addr_of a) (addr_of n) (12 + Z.of_nat j) s = Ok (addr_of a', s') ∧
    rep s' Xs' ∧ (2 ^ j | a')%nat ∧ (a ≤ a')%nat ∧ taken Xs0 Xs' a' (a' + n).
Proof using Hgeo.
  intros HL Hn Hj Hgood0 Hrep Hd Ht. pose proof (pow2_pos_nat j) as Hpj. pose proof (size_bound i L HL) as Hsz.
  destruct (taken_bound _ _ _ _ Hgood0 Ht) as [Hb0 Hb1]; [lia|].
  assert (Hdj : (2 ^ j | a)%nat) by (etransitivity; [by apply divide_pow|done]).
  unfold place_in_block. destruct (rep_some s Xs i L Hrep HL) as (b & Hb & Hok).
  erewrite st_bind_run by (by apply get_blk_run). rewrite (size_of i L b Hok).
  set (left := (2 ^ lk L - n)%nat).
  assert (Hleft : u64 (addr_of (2 ^ lk L) - addr_of n) = addr_of left).
  { rewrite wrap_small; unfold in_width, left, addr_of in *; lia. }
  rewrite Hleft. destruct (Z.ltb_spec 0 (addr_of left)) as [Hpos|Hz].
  2:{ assert (n = 2 ^ lk L)%nat as -> by (unfold addr_of, left in *; lia). by exists a, s, Xs. }
  assert (Hq : (left / 2 ^ j ≤ left)%nat) by (apply Nat.Div0.div_le_upper_bound; nia).
  rewrite shiftr_pages, wrap_small by (unfold in_width, addr_of in *; lia).
  destruct (heap_random_run (1 + Z.of_nat (left / 2 ^ j)) s Xs) as (rnd & s1 & Hrnd & Hr & Hrep1); [unfold addr_of in *; lia|done|].
  erewrite st_bind_run by exact Hrnd. set (w := (Z.to_nat rnd * 2 ^ j)%nat).
  assert (Hw : (w ≤ left)%nat).
  { unfold w. transitivity (left / 2 ^ j * 2 ^ j)%nat; [apply Nat.mul_le_mono_r; lia|].
    pose proof (Nat.div_mod_eq left (2 ^ j)). lia. }
  assert (Hoff : u64 (Z.shiftl rnd (12 + Z.of_nat j)) = addr_of w).
  { rewrite Z.shiftl_mul_pow2, shift_size by lia. replace (rnd * _) with (addr_of w) by (unfold addr_of, w; lia).
    apply wrap_small. unfold in_width, addr_of in *. lia. }
  rewrite Hoff.
  destruct (give_back a w s1 Xs (negb (addr_of w =? 0)) (addr_of w / PageSize) Hrep1) as (s2 & Xs2 & Hrun2 & Hrep2 & Hf2).
  { apply Ht. } { lia. } { eapply taken_held; [done..|lia|lia]. }
  { unfold addr_of, PageSize. by rewrite Z.mul_comm, Z.div_mul. }
  { intros Hf%negb_false_iff%Z.eqb_eq. unfold addr_of in Hf. lia. }
  erewrite st_bind_run by exact Hrun2.
  pose proof (heap_bound (a + w + n) ltac:(lia)) as Hab. unfold addr_of in Hab.
  assert (Ht2 : taken Xs0 Xs2 (a + w) (a + 2 ^ lk L)) by (eapply (taken_sub Xs0 Xs Xs2 a _ (a + w)); [exact Ht|lia|done]).
  rewrite (wrap_small 64 (addr_of a + addr_of w)) by (unfold in_width, addr_of in *; lia). rewrite !addr_add.
  rewrite (wrap_small 64 (addr_of (a + w + n))) by (unfold in_width, addr_of in *; lia).
  destruct (give_back (a + w + n) (left - w) s2 Xs2 (negb (addr_of w =? addr_of left)) (u64 (addr_of left - addr_of w) / PageSize) Hrep2)
    as (s3 & Xs3 & Hrun3 & Hrep3 & Hf3).
  { apply Ht2. } { lia. } { eapply taken_held; [done..|lia|lia]. }
  { rewrite wrap_small by (unfold in_width, addr_of in *; lia). unfold addr_of, PageSize.
    rewrite <- Z.mul_sub_distr_l, Z.mul_comm, Z.div_mul by lia. lia. }
  { intros Hf%negb_false_iff%Z.eqb_eq. unfold addr_of in Hf. lia. }
  erewrite st_bind_run by exact Hrun3. exists (a + w)%nat, s3, Xs3. split_and!; try done; try lia.
  - apply Nat.divide_add_r; [done|]. by exists (Z.to_nat rnd).
  - eapply (taken_sub Xs0 Xs2 Xs3 (a + w) (a + 2 ^ lk L) (a + w + n)); [exact Ht2|lia|].
    by replace (a + 2 ^ lk L)%nat with (a + w + n + (left - w))%nat by lia.
Qed.

Lemma AllocateByRandom_run i L n j s Xs :
  H !! i = Some L → (0 < n ≤ 2 ^ lk L)%nat → (j ≤ lk L)%nat → rep s Xs → good Xs →
  ∃ r s', AllocateByRandom assertions i (Z.of_nat n) (Z.of_nat (2 ^ j)) s = Ok (r, s') ∧ allocated Xs i n j r s'.
Proof using Hgeo.
  intros HL Hn Hj Hrep Hgood. destruct (g_width _ _ _ Hgeo _ _ HL) as [Hk _]. pose proof (size_bound i L HL) as Hsz.
  unfold AllocateByRandom. rewrite align_shift_of by lia.
  assert (Hneed : u64 (Z.of_nat n * PageSize) = addr_of n).
  { rewrite wrap_small; unfold in_width, PageSize, addr_of in *; lia. }
  rewrite Hneed. rewrite (proj2 (Z.ltb_lt _ 64)) by lia. erewrite st_bind_run by reflexivity.
  destruct (choose_index_run i L n j s Xs HL ltac:(lia) Hrep) as (c & s1 & Lc & Xc & Hsel & Hrep1 & Hic & HLc & HXc & Hfail).
  erewrite st_bind_run by exact Hsel. pose proof (lk_mono i c L Lc Hic HL HLc) as Hmono.
  assert (Hle : (2 ^ lk L ≤ 2 ^ lk Lc)%nat) by (apply Nat.pow_le_mono_r; lia).
  destruct (PopBlock_run true s1 Xs c Lc Xc Hrep1 Hgood HLc HXc)
    as [(HX0 & s2 & Hrun & Hrep2)|(a & s2 & Xs2 & Hrun & Hrep2 & _ & Hd & Htk)]; erewrite st_bind_run by exact Hrun.
  { exists NullAddress, s2. split; [done|]. left. auto. }
  destruct (taken_bound _ _ _ _ Hgood Htk) as [Hb0 Hb1]; [lia|].
  rewrite (proj2 (Z.eqb_neq _ _) (addr_not_null a Hb0)). cbn [negb].
  destruct (place_in_block_run c Lc n j a s2 Xs Xs2) as (a' & s3 & Xs3 & Hrun3 & Hrep3 & Hd3 & Ha3 & Ht3); try done; try lia.
  exists (addr_of a'), s3. split; [done|]. right. exists a', Xs3. split_and!; try done. apply addr_not_null. lia.
Qed.
End rep.
