(* ===== verification/PageHeapInit.v ===== *)
(** * Setting up a page heap

    [KPageHeap::Initialize] over zeroed management memory gives a heap without
    free pages whose bitmaps lie one after the other in the memory. *)

From S2P Require Import Prelude Vapours TinyMT PageBitmap PageBitmapSpec PageHeap PageHeapSpec.

(** The number of levels of a bitmap. *)
Definition depth (size : nat) : nat :=
  if bool_decide (size < 64)%nat then 1%nat else if bool_decide (size < 64 ^ 2)%nat then 2%nat
  else if bool_decide (size < 64 ^ 3)%nat then 3%nat else 4%nat.

Lemma depth_ok size : (size < 64 ^ 4)%nat → depth_of size (depth size).
Proof.
  intros Hs. unfold depth, depth_of, MaxDepth.
  repeat case_bool_decide; (split_and!; [lia..| |]; [try done; by rewrite Nat.pow_1_r|]);
    intros [|[|[|[|m]]]] Hm Hm0; rewrite ?Nat.pow_1_r in Hm; try lia.
Qed.

(** ** Layout *)
Section layout.
Context (p0 np : nat).
Implicit Types (ks : list nat) (k base : nat).

(** The block sizes, as shifts over the page size. *)
Definition shifts_ok ks : Prop :=
  ks !! 0%nat = Some 0%nat ∧
  (∀ i a b, ks !! i = Some a → ks !! S i = Some b → (a < b ≤ a + 5)%nat) ∧
  (∀ i a, ks !! i = Some a → (a ≤ 18)%nat).

(** The shift of the next size, which the bounds of a bitmap are aligned to. *)
Definition outer k (rest : list nat) : nat := match rest with k1 :: _ => k1 | [] => k end.
Definition first_of k' : nat := down k' p0.
Definition bits_of k k' : nat := ((up k' (p0 + np) - first_of k') / 2 ^ k)%nat.
Definition level_at k k' base : level :=
  mkLevel k (first_of k' / 2 ^ k) ((bits_of k k' + 63) / 64) base (total_words (depth (bits_of k k')) (bits_of k k')).

Fixpoint levels_from ks base : list level :=
  match ks with
  | [] => []
  | k :: rest => let L := level_at k (outer k rest) base in L :: levels_from rest (base + llen L)
  end.

Lemma levels_length ks base : length (levels_from ks base) = length ks.
Proof. revert base. induction ks as [|k ks IH]; intros base; [done|]. cbn. by rewrite IH. Qed.

Lemma levels_lookup ks base i L : levels_from ks base !! i = Some L →
  ∃ k, ks !! i = Some k ∧ L = level_at k (default k (ks !! S i)) (lbase L) ∧ (base ≤ lbase L)%nat.
Proof.
  revert base i. induction ks as [|k ks IH]; intros base i Hi; [done|]. destruct i as [|i]; cbn in Hi.
  - simplify_eq. exists k. split_and!; [done| |done]. cbn [level_at lbase]. by destruct ks.
  - destruct (IH _ i Hi) as (k' & Hk & HL & Hb). exists k'. split_and!; [done|exact HL|lia].
Qed.

Lemma levels_disjoint ks base i j L L' : (i < j)%nat →
  levels_from ks base !! i = Some L → levels_from ks base !! j = Some L' → (lbase L + llen L ≤ lbase L')%nat.
Proof.
  revert base i j. induction ks as [|k ks IH]; intros base i j Hij Hi Hj; [done|]. destruct j as [|j]; [lia|].
  destruct i as [|i]; cbn in Hi, Hj; [|by eapply (IH _ i j); [lia|..]]. simplify_eq.
  destruct (levels_lookup _ _ _ _ Hj) as (_ & _ & _ & Hb). exact Hb.
Qed.

(** The words of the bitmaps, and where the bitmap of a size starts. *)
Definition memory_words ks base : nat := sum_list (map llen (levels_from ks base)).
Definition cursor ks base (i : nat) : nat :=
  match levels_from ks base !! i with Some L => lbase L | None => (base + memory_words ks base)%nat end.

Lemma cursor_next ks base i L : levels_from ks base !! i = Some L →
  cursor ks base (S i) = (lbase L + llen L)%nat ∧ (lbase L + llen L ≤ base + memory_words ks base)%nat.
Proof.
  unfold cursor, memory_words. revert base i. induction ks as [|k ks IH]; intros base i Hi; [done|]. cbn [levels_from] in *.
  set (L0 := level_at k (outer k ks) base) in *. assert (H0 : lbase L0 = base) by done. clearbody L0.
  destruct i as [|i].
  - injection Hi as <-. rewrite H0. split; [|cbn; lia]. destruct ks as [|k1 ks]; cbn; lia.
  - change (levels_from ks (base + llen L0) !! i = Some L) in Hi. destruct (IH _ i Hi) as [H1 H2].
    change ((L0 :: levels_from ks (base + llen L0)) !! S (S i)) with (levels_from ks (base + llen L0) !! S i).
    cbn [map sum_list]. split; [|cbn in *; lia]. rewrite <- H1. destruct (_ !! S i); [done|]. cbn. lia.
Qed.

Lemma cursor_first ks base : cursor ks base 0 = base.
Proof. unfold cursor, memory_words. destruct ks as [|k ks]; cbn; lia. Qed.

(** A heap of at most 2^24 pages, not at the null page. *)
Definition heap_fits : Prop := (0 < p0)%nat ∧ (0 < np)%nat ∧ Z.of_nat np + 128 ≤ 2 ^ 24 ∧ Z.of_nat p0 ≤ 2 ^ 48.

(** The bits of a level cover the heap. *)
Lemma level_cover k k' base : heap_fits → (k ≤ k' ≤ k + 5)%nat → (k' ≤ 18)%nat →
  let L := level_at k k' base in
  (2 ^ (k' - k) | lorg L)%nat ∧ (lorg L * 2 ^ k = first_of k')%nat ∧
  (first_of k' + bits_of k k' * 2 ^ k = up k' (p0 + np))%nat ∧
  (bits_of k k' ≤ 64 * ln L < bits_of k k' + 64)%nat ∧ (0 < bits_of k k' < 64 ^ 4)%nat.
Proof.
  intros (Hp0 & Hnp & Hfit & _) Hk Hk18. cbn [level_at lorg ln]. pose proof (pow2_pos_nat k) as Hpk.
  pose proof (pow2_pos_nat (k' - k)) as Hpd.
  assert (Hpow : (2 ^ k' = 2 ^ (k' - k) * 2 ^ k)%nat) by (rewrite <- Nat.pow_add_r; f_equal; lia).
  assert (Hpd5 : (2 ^ (k' - k) ≤ 32)%nat) by (change 32%nat with (2 ^ 5)%nat; apply Nat.pow_le_mono_r; lia).
  destruct (down_spec k' p0) as [Hd [c Hc]]. destruct (up_spec k' (p0 + np)) as [Hu [e He]]. fold (first_of k') in *.
  rewrite Hpow, Nat.mul_assoc in Hc, He.
  assert (Hce : (c * 2 ^ (k' - k) < e * 2 ^ (k' - k))%nat) by (apply (Nat.mul_lt_mono_pos_r (2 ^ k)); lia).
  assert (Hbits : bits_of k k' = (e * 2 ^ (k' - k) - c * 2 ^ (k' - k))%nat).
  { unfold bits_of. rewrite He, Hc, <- Nat.mul_sub_distr_r. apply Nat.div_mul. lia. }
  rewrite Hc, Nat.div_mul by lia.
  assert (Hsize : (bits_of k k' * 2 ^ k ≤ np + 2 * 2 ^ k')%nat) by (rewrite Hbits, Nat.mul_sub_distr_r; lia).
  assert (Hsmall : (bits_of k k' ≤ np + 64)%nat).
  { apply (Nat.mul_le_mono_pos_r _ _ (2 ^ k)); [lia|]. etransitivity; [exact Hsize|]. rewrite Hpow. nia. }
  pose proof (Nat.div_mod_eq (bits_of k k' + 63) 64). pose proof (Nat.mod_upper_bound (bits_of k k' + 63) 64 ltac:(lia)).
  split_and!; [by exists c|done| |lia|lia|lia|].
  - rewrite He, Hbits, Nat.mul_sub_distr_r. nia.
  - apply Nat2Z.inj_lt. rewrite Nat2Z.inj_pow. change (Z.of_nat 64 ^ Z.of_nat 4) with (2 ^ 24). lia.
Qed.

Lemma outer_bounds ks i k : shifts_ok ks → ks !! i = Some k →
  let k' := default k (ks !! S i) in (k ≤ k' ≤ k + 5)%nat ∧ (k' ≤ 18)%nat.
Proof.
  intros (_ & Hstep & H18) Hk. cbv zeta. pose proof (H18 _ _ Hk). destruct (ks !! S i) as [k1|] eqn:Hk1; cbn; [|lia].
  pose proof (Hstep _ _ _ Hk Hk1). pose proof (H18 _ _ Hk1). lia.
Qed.

Lemma levels_geometry ks base : heap_fits → shifts_ok ks → geometry (levels_from ks base) p0 np.
Proof.
  intros Hfit Hks. pose proof Hks as (Hfirst & Hstep & H18). split.
  - destruct ks as [|k ks]; [done|]. cbn in Hfirst. simplify_eq. eexists. split; [done|]. done.
  - intros i L L' HL HL'. destruct (levels_lookup _ _ _ _ HL) as (k & Hk & -> & _).
    destruct (levels_lookup _ _ _ _ HL') as (k' & Hk' & -> & _). pose proof (Hstep i k k' Hk Hk').
    destruct (outer_bounds ks i k Hks Hk) as [Ho1 Ho2]. rewrite Hk' in *. cbn [default] in *.
    destruct (level_cover k k' (lbase L) Hfit Ho1 Ho2) as [Hdiv _]. split; [cbn; lia|exact Hdiv].
  - intros i L HL. destruct (levels_lookup _ _ _ _ HL) as (k & Hk & HLk & _). destruct (outer_bounds ks i k Hks Hk) as [Ho1 Ho2].
    destruct (level_cover k _ (lbase L) Hfit Ho1 Ho2) as (_ & Horg & Hend & Hn & _). rewrite <- HLk in *.
    assert (Hlk : lk L = k) by (by rewrite HLk). rewrite Hlk in *.
    destruct (down_spec (default k (ks !! S i)) p0) as [Hd _]. destruct (up_spec (default k (ks !! S i)) (p0 + np)) as [Hu _].
    fold (first_of (default k (ks !! S i))) in Hd. rewrite Horg. split; [lia|].
    rewrite Nat.mul_add_distr_r, Horg. pose proof (Nat.mul_le_mono_r _ _ (2 ^ k) (proj1 Hn)). lia.
  - intros i j L L' Hij HL HL'. destruct (decide (i < j)%nat); [left|right]; eapply levels_disjoint; try done; lia.
  - intros i L HL. destruct (levels_lookup _ _ _ _ HL) as (k & Hk & HLk & _). destruct (outer_bounds ks i k Hks Hk) as [Ho1 Ho2].
    destruct (level_cover k _ (lbase L) Hfit Ho1 Ho2) as (_ & Horg & Hend & Hn & _). rewrite <- HLk in *.
    assert (Hlk : lk L = k) by (by rewrite HLk). rewrite Hlk in *. split; [lia|].
    destruct (up_spec (default k (ks !! S i)) (p0 + np)) as [Hu _]. destruct Hfit as (_ & _ & Hnp & Hp0).
    assert (2 ^ k ≤ 2 ^ 18)%nat as Hk18 by (apply Nat.pow_le_mono_r; lia).
    assert (2 ^ default k (ks !! S i) ≤ 2 ^ 18)%nat as Hk18' by (apply Nat.pow_le_mono_r; lia).
    apply Nat2Z.inj_le in Hk18, Hk18'. rewrite (pow2_nat 18) in Hk18, Hk18'. change (2 ^ Z.of_nat 18) with 262144 in *.
    assert (((lorg L + 64 * ln L) * 2 ^ k ≤ first_of (default k (ks !! S i)) + bits_of k (default k (ks !! S i)) * 2 ^ k + 64 * 2 ^ k)%nat) by nia.
    unfold addr_of. lia.
  - by destruct Hfit.
Qed.
End layout.

(** ** Running [Initialize] *)
Section run.
Context (p0 np : nat) (ks : list nat) (start : nat) (assertions : bool).
Context (Hfit : heap_fits p0 np) (Hks : shifts_ok ks).
Implicit Types (s : hstate) (b : Block) (i : nat).

Definition H : list level := levels_from p0 np ks start.
Definition block_shifts : list Z := map (λ k, 12 + Z.of_nat k) ks.

(** A bitmap as its constructor leaves it. *)
Definition unused (b : KPageBitmap) : Prop :=
  length (m_bit_storages b) = 4%nat ∧ length (m_end_storages b) = 4%nat ∧ rng_ok (m_bit_rng b).

Lemma H_geometry : geometry H p0 np.
Proof using Hfit Hks. by apply levels_geometry. Qed.

Lemma H_level i k : ks !! i = Some k → ∃ L, H !! i = Some L ∧ lk L = k ∧ L = level_at p0 np k (default k (ks !! S i)) (lbase L).
Proof using Type.
  intros Hk. destruct (lookup_lt_is_Some_2 H i) as [L HL]; [unfold H; rewrite levels_length; by eapply lookup_lt_Some|].
  exists L. split; [done|]. destruct (levels_lookup _ _ _ _ _ _ HL) as (k' & Hk' & HLk & _). simplify_eq.
  split; [by rewrite HLk|exact HLk].
Qed.

(** The shifts of the source, as the loop computes them. *)
Lemma shift_at i k : ks !! i = Some k → nth i block_shifts 0 = 12 + Z.of_nat k.
Proof using Type.
  intros Hk. unfold block_shifts. apply nth_lookup_Some. by rewrite list_lookup_fmap, Hk.
Qed.

Lemma next_shift_at i k : ks !! i = Some k →
  next_shift block_shifts i = match ks !! S i with Some k1 => 12 + Z.of_nat k1 | None => 0 end.
Proof using Type.
  intros Hk. pose proof (lookup_lt_Some _ _ _ Hk). unfold next_shift, block_shifts. rewrite length_map.
  destruct (ks !! S i) as [k1|] eqn:Hk1.
  - pose proof (lookup_lt_Some _ _ _ Hk1). rewrite bool_decide_eq_true_2 by lia. by apply (shift_at (S i) k1).
  - apply lookup_ge_None in Hk1. rewrite bool_decide_eq_false_2; [done|]. lia.
Qed.

Lemma next_of_at i k : ks !! i = Some k → next_shift block_shifts i = next_of H i.
Proof using Type.
  intros Hk. rewrite (next_shift_at i k Hk). unfold next_of. destruct (ks !! S i) as [k1|] eqn:Hk1.
  - destruct (H_level (S i) k1 Hk1) as (L & -> & Hlk & _). by rewrite Hlk.
  - rewrite lookup_ge_None_2; [done|]. unfold H. rewrite levels_length. by apply lookup_ge_None.
Qed.

Lemma block_size_at (k : nat) : (k ≤ 18)%nat → u64 (Z.shiftl 1 (12 + Z.of_nat k)) = addr_of (2 ^ k).
Proof using Type.
  intros Hk. rewrite Z.shiftl_1_l. unfold addr_of. rewrite <- shift_size. apply wrap_small. unfold in_width.
  pose proof (pow2_pos (12 + Z.of_nat k) ltac:(lia)). split; [lia|]. apply Z.pow_lt_mono_r; lia.
Qed.

(** One size. *)
Lemma Block_Initialize_run i L b0 s pre post :
  H !! i = Some L → m_blocks (heap s) !! i = Some b0 → unused (m_bitmap b0) →
  mgmt s = pre ++ replicate (llen L) 0 ++ post → length pre = lbase L →
  ∃ b s', Block_Initialize assertions i (addr_of p0) (addr_of np) (nth i block_shifts 0) (next_shift block_shifts i)
            (Z.of_nat (lbase L)) s = Ok (Z.of_nat (lbase L + llen L), s') ∧
    heap s' = set_blocks (<[i := b]> (m_blocks (heap s))) (heap s) ∧ mgmt s' = mgmt s ∧
    block_ok H i L b ∧ repr_in (m_bitmap b) (mgmt s) (lbase L) (llen L) (ln L) ∅.
Proof using Hfit Hks.
  intros HL Hb0 (Hu1 & Hu2 & Hu3) Hmem Hpre. destruct (levels_lookup _ _ _ _ _ _ HL) as (k & Hk & HLk & _).
  assert (Hlk : lk L = k) by (by rewrite HLk).
  pose proof (lookup_lt_Some _ _ _ Hb0) as Hlt.
  destruct (outer_bounds ks i k Hks Hk) as [Ho1 Ho2]. set (k' := default k (ks !! S i)) in *.
  destruct (level_cover p0 np k k' (lbase L) Hfit Ho1 Ho2) as (_ & Horg & Hend & Hn & Hbits). rewrite <- HLk in *.
  assert (∃ m L', H !! m = Some L' ∧ lk L' = k') as (m & L' & HL' & Hlk').
  { unfold k'. destruct (ks !! S i) as [k1|] eqn:Hk1; cbn.
    - destruct (H_level (S i) k1 Hk1) as (L' & HL' & Hlk' & _). by exists (S i), L'.
    - by exists i, L. }
  assert (Halign : (if negb (next_shift block_shifts i =? 0) then u64 (Z.shiftl 1 (next_shift block_shifts i))
                    else u64 (Z.shiftl 1 (nth i block_shifts 0))) = addr_of (2 ^ lk L')).
  { rewrite (next_shift_at i k Hk), (shift_at i k Hk), Hlk'. unfold k' in *. destruct (ks !! S i) as [k1|]; cbn [default] in *.
    - rewrite (proj2 (Z.eqb_neq _ 0)) by lia. cbn [negb]. apply block_size_at. lia.
    - rewrite Z.eqb_refl. cbn [negb]. apply block_size_at. lia. }
  pose proof (heap_bound H p0 np H_geometry (p0 + np) ltac:(lia)) as Hbnd.
  unfold Block_Initialize. erewrite st_bind_run by (by apply get_blk_run). rewrite Halign, addr_add, (wrap_small 64 (addr_of (p0 + np))) by (unfold in_width; lia).
  rewrite (AlignDown_page H p0 np H_geometry m L') by (done || lia). rewrite (AlignUp_page H p0 np H_geometry m L') by (done || lia).
  rewrite Hlk'. fold (first_of p0 k').
  assert (Hoff : u64 (addr_of (up k' (p0 + np)) - addr_of (first_of p0 k')) / Z.shiftl 1 (nth i block_shifts 0) = Z.of_nat (bits_of p0 np k k')).
  { rewrite (shift_at i k Hk), Z.shiftl_1_l, shift_size. pose proof (pow2_pos_nat k).
    destruct (up_spec k' (p0 + np)) as [Hup _].
    assert (Z.of_nat (2 ^ k') ≤ 2 ^ 18) by (rewrite pow2_nat; apply Z.pow_le_mono_r; lia).
    assert (addr_of (up k' (p0 + np)) < 2 ^ 63) by (unfold addr_of in *; lia).
    replace (addr_of (up k' (p0 + np)) - addr_of (first_of p0 k')) with (Z.of_nat (bits_of p0 np k k') * (4096 * Z.of_nat (2 ^ k)))
      by (unfold addr_of; rewrite <- Hend; lia).
    rewrite wrap_small by (unfold in_width, addr_of in *; lia). apply Z.div_mul. lia. }
  rewrite Hoff. erewrite st_bind_run by reflexivity. set (s1 := mkH _ _).
  destruct (depth_ok _ (proj2 Hbits)) as (Hd1 & Hd2 & Hd3). unfold MaxDepth in Hd1.
  assert (Hllen : llen L = total_words (depth (bits_of p0 np k k')) (bits_of p0 np k k')) by (by rewrite HLk).
  assert (Hln : ln L = ((bits_of p0 np k k' + 63) / 64)%nat) by (by rewrite HLk).
  destruct (Initialize_run assertions (mkB (m_bitmap b0) (mgmt s)) pre post (bits_of p0 np k k') (depth (bits_of p0 np k k')))
    as (bs & Hrun & Hwords & Hrepr); try done; try lia; [by rewrite <- Hllen|].
  rewrite <- Hllen, Hpre in Hrun. rewrite <- Hln in Hrepr.
  unfold on_bitmap. erewrite st_bind_run by (apply get_blk_run; cbn; by apply list_lookup_insert_eq).
  erewrite st_bind_run by reflexivity. cbn [m_bitmap mgmt s1]. rewrite Hrun. erewrite st_bind_run by reflexivity.
  eexists _, _. split; [reflexivity|]. cbn. rewrite list_insert_insert_eq. split_and!; [reflexivity|done| |].
  - split_and!; cbn; [by rewrite Hlk, (shift_at i k Hk)|by apply (next_of_at i k)|].
    rewrite Hlk, Horg. done.
  - exists pre, post. split_and!; [done|rewrite Hmem, !length_app, length_replicate; lia|].
    cbn in Hwords. rewrite <- Hwords. by destruct bs.
Qed.

Section loop.
Context (pre post : list Z) (Hpre : length pre = start).

(** The management memory is zero and large enough. *)
Definition zeroed s : Prop := mgmt s = pre ++ replicate (memory_words p0 np ks start) 0 ++ post.

Lemma zeroed_region s i L : zeroed s → H !! i = Some L →
  ∃ pre' post', mgmt s = pre' ++ replicate (llen L) 0 ++ post' ∧ length pre' = lbase L.
Proof using Hpre.
  intros Hz HL. destruct (cursor_next p0 np ks start i L HL) as [_ Hle].
  destruct (levels_lookup _ _ _ _ _ _ HL) as (_ & _ & _ & Hge).
  exists (pre ++ replicate (lbase L - start) 0), (replicate (start + memory_words p0 np ks start - lbase L - llen L) 0 ++ post).
  split; [|rewrite length_app, length_replicate; lia]. unfold zeroed in Hz. rewrite Hz.
  replace (memory_words p0 np ks start)
    with ((lbase L - start) + (llen L + (start + memory_words p0 np ks start - lbase L - llen L)))%nat at 1 by lia.
  by rewrite !replicate_add, <- !app_assoc.
Qed.

(** The sizes below [i] are set up, the others still unused. *)
Definition progress i s : Prop :=
  (∀ j L, (j < i)%nat → H !! j = Some L →
     ∃ b, m_blocks (heap s) !! j = Some b ∧ block_ok H j L b ∧
          repr_in (m_bitmap b) (mgmt s) (lbase L) (llen L) (ln L) ∅) ∧
  (∀ j, (i ≤ j < length ks)%nat → ∃ b, m_blocks (heap s) !! j = Some b ∧ unused (m_bitmap b)).

Lemma initialize_loop_run n i s :
  (i + n = length ks)%nat → m_heap_address (heap s) = addr_of p0 → m_heap_size (heap s) = addr_of np →
  zeroed s → progress i s →
  ∃ s', initialize_loop assertions n i block_shifts (Z.of_nat (cursor p0 np ks start i)) s =
          Ok (Z.of_nat (start + memory_words p0 np ks start), s') ∧
    heap s' = set_blocks (m_blocks (heap s')) (heap s) ∧ mgmt s' = mgmt s ∧ progress (length ks) s'.
Proof using Hfit Hks Hpre.
  revert i s. induction n as [|n IH]; intros i s Hn Ha Hs Hz [Hdone Htodo]; cbn [initialize_loop].
  { assert (i = length ks) as -> by lia. exists s. split_and!; try done; [|by destruct (heap s)].
    unfold cursor. by rewrite lookup_ge_None_2 by (rewrite levels_length; lia). }
  erewrite st_bind_run by reflexivity. rewrite Ha, Hs.
  destruct (lookup_lt_is_Some_2 H i) as [L HL]; [unfold H; rewrite levels_length; lia|].
  destruct (Htodo i) as (b0 & Hb0 & Hu); [lia|]. destruct (zeroed_region s i L Hz HL) as (pre' & post' & Hmem & Hl).
  destruct (Block_Initialize_run i L b0 s pre' post' HL Hb0 Hu Hmem Hl) as (b & s1 & Hrun & Hh & Hm & Hok & Hr).
  destruct (cursor_next p0 np ks start i L HL) as [Hnext _]. pose proof (lookup_lt_Some _ _ _ Hb0) as Hlt.
  replace (cursor p0 np ks start i) with (lbase L) by (unfold cursor; fold H; by rewrite HL).
  erewrite st_bind_run by exact Hrun. rewrite <- Hnext.
  destruct (IH (S i) s1) as (s2 & Hrun2 & Hh2 & Hm2 & Hp2); try lia; try (rewrite Hh; done).
  { unfold zeroed. by rewrite Hm. }
  { split; rewrite Hh, ?Hm; cbn; intros j.
    - intros L' Hj HL'. destruct (decide (j = i)) as [->|]; [|rewrite list_lookup_insert_ne by done; apply Hdone; [lia|done]].
      simplify_eq. rewrite list_lookup_insert_eq by done. by exists b.
    - intros Hj. rewrite list_lookup_insert_ne by lia. apply Htodo. lia. }
  exists s2. split_and!; [done| |by rewrite Hm2|done]. rewrite Hh2, Hh. done.
Qed.

(** The whole of [Initialize]. *)
Lemma Heap_Initialize_run s management_words :
  (length ks ≤ NumMemoryBlockPageShifts)%nat → zeroed s → rng_ok (m_heap_rng (heap s)) →
  (∀ j, (j < length ks)%nat → ∃ b, m_blocks (heap s) !! j = Some b ∧ unused (m_bitmap b)) →
  (memory_words p0 np ks start ≤ management_words)%nat →
  ∃ s', Heap_Initialize assertions (addr_of p0) (addr_of np) (Z.of_nat start) (Z.of_nat management_words) block_shifts s =
          Ok (tt, s') ∧ rep H p0 np s' (replicate (length H) ∅) ∧ mgmt s' = mgmt s ∧
    m_heap_address (heap s') = addr_of p0 ∧ m_heap_size (heap s') = addr_of np ∧
    m_initial_used_size (heap s') = m_initial_used_size (heap s).
Proof using Hfit Hks Hpre.
  intros Hlen Hz Hg Hun Hmem. unfold Heap_Initialize.
  assert (Hassert : ∀ (b : bool) s, b = true → HASSERT assertions b s = Ok (tt, s)) by (intros ? ? ->; by destruct assertions).
  assert (Haligned : ∀ q, Util.IsAligned (addr_of q) PageSize = true).
  { intros q. change PageSize with (2 ^ 12). rewrite Util.IsAligned_pow2 by lia. unfold addr_of. change (2 ^ 12) with 4096.
    by rewrite Z.mul_comm, Z.mod_mul. }
  assert (Hpos : (0 < length ks)%nat) by (destruct Hks as [H0 _]; by apply lookup_lt_Some in H0).
  do 2 (erewrite st_bind_run; [|by apply Hassert]).
  assert (Hbl : length block_shifts = length ks) by apply length_map.
  erewrite st_bind_run; [|apply Hassert, bool_decide_eq_true_2; lia].
  erewrite st_bind_run by reflexivity. set (s1 := mkH _ _). rewrite Hbl.
  destruct (initialize_loop_run (length ks) 0 s1) as (s2 & Hrun & Hh & Hm & Hp & _); try done.
  { split; [lia|]. intros j Hj. apply Hun. lia. }
  rewrite cursor_first in Hrun. erewrite st_bind_run by exact Hrun. unfold st_check. rewrite (proj2 (Z.leb_le _ _)) by lia.
  exists s2. split_and!; try done; try (by rewrite Hh).
  split.
  - apply length_replicate.
  - rewrite Hh. cbn. rewrite Hbl. unfold H. by rewrite levels_length.
  - intros i L X HL [-> _]%lookup_replicate. apply Hp; [|done]. apply lookup_lt_Some in HL. unfold H in HL. by rewrite levels_length in HL.
  - by rewrite Hh.
  - by rewrite Hh.
  - by rewrite Hh.
Qed.
End loop.

(** ** The size of the management memory *)

Lemma total_words_mono d d' size size' : (d ≤ d')%nat → (size ≤ size')%nat → (total_words d size ≤ total_words d' size')%nat.
Proof using Type.
  unfold total_words. revert d' size size'. induction d as [|d IH]; intros d' size size' Hd Hs; [cbn; lia|].
  destruct d' as [|d']; [lia|]. cbn [zero_levels concat]. rewrite !length_app, !length_replicate.
  assert ((size + 63) / 64 ≤ (size' + 63) / 64)%nat as Hk by (apply Nat.Div0.div_le_mono; lia).
  specialize (IH d' _ _ ltac:(lia) Hk). lia.
Qed.

Lemma depth_mono size size' : (size ≤ size')%nat → (depth size ≤ depth size')%nat.
Proof using Type. intros Hs. unfold depth. repeat case_bool_decide; lia. Qed.

(** The bits that [CalculateManagementOverheadSize] counts for a size. *)
Definition counted_bits k k' : nat := ((2 * 2 ^ k' + up k' np) / 2 ^ k)%nat.

Lemma counted_enough k k' : (k ≤ k' ≤ k + 5)%nat → (bits_of p0 np k k' ≤ counted_bits k k')%nat ∧ (counted_bits k k' < 2 ^ 24)%nat.
Proof using Hfit.
  intros Hk. pose proof (pow2_pos_nat k). pose proof (pow2_pos_nat k'). unfold bits_of, counted_bits, first_of. split.
  - apply Nat.Div0.div_le_mono. destruct (down_spec k' p0) as [Hd _]. destruct (up_spec k' (p0 + np)) as [Hu _].
    destruct (up_spec k' np) as [Hn _]. lia.
  - destruct Hfit as (_ & _ & Hnp & _). destruct (up_spec k' np) as [Hn _].
    assert (Hpow : (2 ^ k' = 2 ^ (k' - k) * 2 ^ k)%nat) by (rewrite <- Nat.pow_add_r; f_equal; lia).
    assert (Hpd5 : (2 ^ (k' - k) ≤ 32)%nat) by (change 32%nat with (2 ^ 5)%nat; apply Nat.pow_le_mono_r; lia).
    apply (Nat.le_lt_trans _ (np + 96)).
    + apply Nat.Div0.div_le_upper_bound. rewrite Hpow in *. nia.
    + apply Nat2Z.inj_lt. rewrite pow2_nat. change (Z.of_nat 24) with 24. lia.
Qed.

Lemma block_overhead i L : H !! i = Some L →
  ∃ o, Block_CalculateManagementOverheadSize (addr_of np) (nth i block_shifts 0) (next_shift block_shifts i) = Ok (8 * Z.of_nat o) ∧
    (llen L ≤ o)%nat ∧ Z.of_nat o ≤ 2 ^ 26.
Proof using Hfit Hks.
  intros HL. destruct (levels_lookup _ _ _ _ _ _ HL) as (k & Hk & HLk & _).
  destruct (outer_bounds ks i k Hks Hk) as [Ho1 Ho2]. set (k' := default k (ks !! S i)) in *.
  destruct (counted_enough k k' Ho1) as [Hle Hlt]. apply Nat2Z.inj_lt in Hlt. rewrite pow2_nat in Hlt. change (2 ^ Z.of_nat 24) with (2 ^ 24) in Hlt.
  assert (Hltn : (counted_bits k k' < 64 ^ 4)%nat).
  { apply Nat2Z.inj_lt. rewrite Nat2Z.inj_pow. change (Z.of_nat 64 ^ Z.of_nat 4) with (2 ^ 24). lia. }
  destruct (depth_ok _ Hltn) as (Hd1 & Hd2 & Hd3). unfold MaxDepth in Hd1.
  exists (total_words (depth (counted_bits k k')) (counted_bits k k')). split_and!.
  - unfold Block_CalculateManagementOverheadSize. rewrite <- overhead_run by (done || lia). f_equal.
    assert (Halign : (if negb (next_shift block_shifts i =? 0) then Z.shiftl 1 (next_shift block_shifts i)
                      else Z.shiftl 1 (nth i block_shifts 0)) = 2 ^ (12 + Z.of_nat k')).
    { rewrite (next_shift_at i k Hk), (shift_at i k Hk). unfold k'. destruct (ks !! S i) as [k1|]; cbn [default].
      - rewrite (proj2 (Z.eqb_neq _ 0)) by lia. cbn [negb]. by rewrite Z.shiftl_1_l.
      - rewrite Z.eqb_refl. cbn [negb]. by rewrite Z.shiftl_1_l. }
    rewrite Halign, (shift_at i k Hk), Z.shiftl_1_l. destruct Hfit as (Hp0 & Hnp0 & Hnp & _).
    assert (Hp18 : 2 ^ (12 + Z.of_nat k') ≤ 2 ^ 30) by (apply Z.pow_le_mono_r; lia).
    pose proof (pow2_pos (12 + Z.of_nat k') ltac:(lia)).
    destruct (up_spec k' np) as [Hup _]. rewrite shift_size in *.
    assert (Hal : Util.AlignUp (addr_of np) (4096 * Z.of_nat (2 ^ k')) = addr_of (up k' np)).
    { destruct (H_level i k Hk) as (L1 & HL1 & Hlk1 & _).
      assert (∃ m L', H !! m = Some L' ∧ lk L' = k') as (m & L' & HL' & Hlk').
      { unfold k'. destruct (ks !! S i) as [k1|] eqn:Hk1; cbn; [|by exists i, L1].
        destruct (H_level (S i) k1 Hk1) as (L' & HL' & Hlk' & _). by exists (S i), L'. }
      rewrite <- Hlk'. apply (AlignUp_page H p0 np H_geometry m L' np HL'). lia. }
    rewrite Hal, (wrap_small 64 (_ * 2)) by (unfold in_width, addr_of in *; lia).
    rewrite wrap_small by (unfold in_width, addr_of in *; lia). unfold addr_of, counted_bits. rewrite shift_size.
    replace (4096 * Z.of_nat (2 ^ k') * 2 + 4096 * Z.of_nat (up k' np)) with (4096 * Z.of_nat (2 * 2 ^ k' + up k' np)) by lia.
    pose proof (pow2_pos_nat k). rewrite Z.div_mul_cancel_l by lia. by rewrite Nat2Z.inj_div.
  - rewrite HLk. cbn [level_at llen]. apply total_words_mono; [by apply depth_mono|done].
  - pose proof (total_words_small (depth (counted_bits k k')) (counted_bits k k') ltac:(lia) ltac:(lia)). lia.
Qed.

Lemma overhead_sum_run n i acc : (i + n = length ks)%nat → Z.of_nat acc + Z.of_nat n * 2 ^ 29 < 2 ^ 60 →
  ∃ o, overhead_sum n i (addr_of np) block_shifts (Z.of_nat acc) = Ok (Z.of_nat (acc + 8 * o)) ∧
    Z.of_nat o ≤ Z.of_nat n * 2 ^ 26 ∧ (start + memory_words p0 np ks start ≤ cursor p0 np ks start i + o)%nat.
Proof using Hfit Hks.
  revert i acc. induction n as [|n IH]; intros i acc Hn Hacc; cbn [overhead_sum].
  { exists 0%nat. split_and!; [f_equal; lia|lia|]. unfold cursor.
    rewrite lookup_ge_None_2 by (rewrite levels_length; lia). lia. }
  destruct (lookup_lt_is_Some_2 H i) as [L HL]; [unfold H; rewrite levels_length; lia|].
  destruct (block_overhead i L HL) as (o & Hrun & Hlen & Ho). rewrite Hrun. cbn [mbind res_bind].
  rewrite wrap_small by (unfold in_width; lia).
  replace (Z.of_nat acc + 8 * Z.of_nat o) with (Z.of_nat (acc + 8 * o)) by lia.
  destruct (IH (S i) (acc + 8 * o)%nat) as (o' & Hrun' & Ho' & Hend); [lia..|].
  exists (o + o')%nat. rewrite Hrun'. split_and!; [do 2 f_equal; lia|lia|].
  destruct (cursor_next p0 np ks start i L HL) as [Hc _].
  replace (cursor p0 np ks start i) with (lbase L) by (unfold cursor; fold H; by rewrite HL). lia.
Qed.

Lemma overhead_suffices_run : (length ks ≤ NumMemoryBlockPageShifts)%nat →
  ∃ o, Heap_CalculateManagementOverheadSize (addr_of np) block_shifts = Ok o ∧
    8 * Z.of_nat (memory_words p0 np ks start) ≤ o ∧ o mod PageSize = 0 ∧ o ≤ 2 ^ 33.
Proof using Hfit Hks.
  unfold NumMemoryBlockPageShifts. intros Hlen. unfold Heap_CalculateManagementOverheadSize.
  replace (length block_shifts) with (length ks) by (symmetry; apply length_map).
  destruct (overhead_sum_run (length ks) 0 0) as (o & Hrun & Ho & Hend); [lia..|].
  change (Z.of_nat 0) with 0 in Hrun. rewrite Hrun. cbn [mbind res_bind]. rewrite cursor_first in Hend.
  eexists. split; [reflexivity|]. change PageSize with (2 ^ 12). rewrite Util.AlignUp_pow2 by lia.
  change (2 ^ 12) with 4096. pose proof (Z.div_mod (Z.of_nat (0 + 8 * o) + 4096 - 1) 4096 ltac:(lia)).
  pose proof (Z.mod_pos_bound (Z.of_nat (0 + 8 * o) + 4096 - 1) 4096 ltac:(lia)).
  split_and!; [lia|by rewrite Z.mul_comm, Z.mod_mul|]. lia.
Qed.
End run.
