(* ===== verification/PageHeapRefine.v ===== *)
(** * The page heap as a set of free pages

    The contract of [KPageHeap]: a set of free pages, to which freeing adds
    ranges and from which allocating removes aligned ranges.  Blocks are
    coalesced as far as possible, so an allocation of one block fails only when
    no aligned range of its size is free at all. *)

From S2P Require Import Prelude Vapours TinyMT PageBitmap PageBitmapSpec PageHeap PageHeapSpec PageHeapInit.

Section complete.
Context (H : list level) (p0 np : nat) (Hgeo : geometry H p0 np).
Implicit Types (Xs : list (gset nat)) (X : gset nat) (L : level) (i j a : nat).

(** Two pages of one block are in one block at every larger size. *)
Lemma same_block (k k' a p : nat) : (k ≤ k')%nat → (2 ^ k | a)%nat → (a ≤ p < a + 2 ^ k)%nat → (p / 2 ^ k' = a / 2 ^ k')%nat.
Proof.
  intros Hk [c ->] Hp. pose proof (pow2_pos_nat k). pose proof (pow2_pos_nat (k' - k)).
  assert (Hpow : (2 ^ k' = 2 ^ k * 2 ^ (k' - k))%nat) by (rewrite <- Nat.pow_add_r; f_equal; lia).
  rewrite Hpow, <- !Nat.Div0.div_div, Nat.div_mul by lia. f_equal. symmetry.
  apply (Nat.div_unique _ _ _ (p - c * 2 ^ k)%nat); lia.
Qed.

(** A block all of whose pages are free is inside a free block. *)
Lemma whole_block Xs i L a : good H p0 np Xs → length Xs = length H → H !! i = Some L → (2 ^ lk L | a)%nat →
  (∀ p, (a ≤ p < a + 2 ^ lk L)%nat → free H Xs p) → ∃ j, (i ≤ j)%nat ∧ page_at H Xs j a.
Proof using Hgeo.
  intros [[Hex Hin] Hcoal] Hlen. revert L a. induction i as [|i IH]; intros L' a HL' Ha Hall.
  { pose proof (pow2_pos_nat (lk L')). destruct (Hall a ltac:(lia)) as [j Hj]. exists j. split; [lia|done]. }
  destruct (lookup_lt_is_Some_2 H i) as [L HL]; [apply lookup_lt_Some in HL'; lia|].
  destruct (lookup_lt_is_Some_2 Xs i) as [X HX]; [rewrite Hlen; by eapply lookup_lt_Some|].
  destruct (g_step _ _ _ Hgeo i L L' HL HL') as [Hlt [q Hq]]. set (e := (lk L' - lk L)%nat) in *.
  pose proof (pow2_pos_nat (lk L)) as Hpk. pose proof (pow2_pos_nat e) as Hpe.
  assert (Hpow : (2 ^ lk L' = 2 ^ e * 2 ^ lk L)%nat) by (rewrite <- Nat.pow_add_r; f_equal; lia).
  assert (Hpa : in_heap p0 np a) by (destruct (Hall a ltac:(pose proof (pow2_pos_nat (lk L')); lia)) as [j Hj]; by eapply Hin).
  destruct (block_of_page H p0 np Hgeo i L a HL Hpa) as (Ho1 & _). destruct Ha as [c Hc].
  assert (Hdiv : (a / 2 ^ lk L = c * 2 ^ e)%nat) by (rewrite Hc, Hpow, Nat.mul_assoc; apply Nat.div_mul; lia).
  rewrite Hdiv, Hq in Ho1. assert (Hqc : (q ≤ c)%nat) by (apply (Nat.mul_le_mono_pos_r _ _ (2 ^ e)); lia).
  pose proof (Hcoal i L L' X ((c - q) * 2 ^ e)%nat HL HL' HX) as Hno. fold e in Hno.
  assert (Hgrp : group e ((c - q) * 2 ^ e) = ((c - q) * 2 ^ e)%nat) by (unfold group; by rewrite Nat.div_mul by lia).
  rewrite Hgrp in Hno.
  assert (∃ off, ((c - q) * 2 ^ e ≤ off < (c - q) * 2 ^ e + 2 ^ e)%nat ∧ off ∉ X) as (off & Hoff & HoX).
  { destruct (decide (set_Exists (λ o, o ∉ X) (range ((c - q) * 2 ^ e) (2 ^ e)))) as [(o & Ho & HoX)|Hn].
    - exists o. by rewrite elem_of_range in Ho.
    - destruct Hno. intros o Ho. destruct (decide (o ∈ X)); [done|]. destruct Hn. by exists o. }
  set (b := ((lorg L + off) * 2 ^ lk L)%nat).
  assert (Hb : (a ≤ b)%nat ∧ (b + 2 ^ lk L ≤ a + 2 ^ lk L')%nat).
  { unfold b. rewrite Hc, Hpow, Hq, Nat.mul_sub_distr_r in *.
    assert (c * 2 ^ e ≤ q * 2 ^ e + off)%nat by nia. assert (q * 2 ^ e + off + 1 ≤ (c + 1) * 2 ^ e)%nat by nia.
    split; [rewrite Nat.mul_assoc; by apply Nat.mul_le_mono_r|].
    replace (c * (2 ^ e * 2 ^ lk L) + 2 ^ e * 2 ^ lk L)%nat with ((c + 1) * 2 ^ e * 2 ^ lk L)%nat by lia.
    etransitivity; [|by apply Nat.mul_le_mono_r]. lia. }
  destruct (IH L b HL) as (j & Hij & Lj & Xj & HLj & HXj & Hj).
  { by eexists. } { intros p Hp. apply Hall. lia. }
  assert (j ≠ i) as Hji.
  { intros ->. simplify_eq. destruct Hj as (o & Ho & Hd). apply HoX. unfold b in Hd. rewrite Nat.div_mul in Hd by lia.
    by replace off with o by lia. }
  exists j. split; [lia|]. exists Lj, Xj. split_and!; [done..|]. destruct Hj as (o & Ho & Hd). exists o. split; [done|].
  rewrite <- Hd. symmetry. apply (same_block (lk L')); [|by exists c|lia]. eapply (lk_mono H p0 np Hgeo (S i) j); [lia|done..].
Qed.

Lemma exhausted_no_block Xs i L a : good H p0 np Xs → length Xs = length H → H !! i = Some L → exhausted Xs i →
  (2 ^ lk L | a)%nat → ¬ ∀ p, (a ≤ p < a + 2 ^ lk L)%nat → free H Xs p.
Proof using Hgeo.
  intros Hg Hlen HL Hexh Ha Hall. destruct (whole_block Xs i L a Hg Hlen HL Ha Hall) as (j & Hij & L' & X & _ & HX & o & Ho & _).
  rewrite (Hexh j X Hij HX) in Ho. set_solver.
Qed.
End complete.

(** ** The set of free pages *)

(** The pages of the blocks of one size. *)
Definition level_set (L : level) (X : gset nat) : gset nat := set_bind (λ o, range ((lorg L + o) * 2 ^ lk L) (2 ^ lk L)) X.

Lemma elem_of_level_set (L : level) (X : gset nat) p : p ∈ level_set L X ↔ in_level L X p.
Proof.
  unfold level_set, in_level. rewrite elem_of_set_bind. apply exist_proper. intros o.
  rewrite elem_of_range, <- pages_of_span. unfold pages_of. tauto.
Qed.

Lemma size_level_set (L : level) (X : gset nat) : size (level_set L X) = (size X * 2 ^ lk L)%nat.
Proof.
  induction X as [|o X Ho IH] using set_ind_L; [done|].
  assert (He : level_set L ({[o]} ∪ X) = range ((lorg L + o) * 2 ^ lk L) (2 ^ lk L) ∪ level_set L X).
  { apply set_eq. intros p. unfold level_set. rewrite elem_of_union, !elem_of_set_bind. set_solver. }
  assert (Hd : range ((lorg L + o) * 2 ^ lk L) (2 ^ lk L) ## level_set L X).
  { intros p Hp1 Hp2. rewrite elem_of_range, <- pages_of_span in Hp1. apply elem_of_level_set in Hp2 as (o' & Ho' & Hd).
    unfold pages_of in Hp1. by assert (o = o') as -> by lia. }
  rewrite He, size_union, size_range, IH, (size_union {[o]}), size_singleton by (done || set_solver). lia.
Qed.

(** The size of a disjoint union. *)
Lemma size_union_list (l : list (gset nat)) :
  (∀ i j A B, i ≠ j → l !! i = Some A → l !! j = Some B → A ## B) → size (⋃ l) = sum_list (map size l).
Proof.
  induction l as [|A l IH]; intros Hd; [done|]. cbn [union_list foldr map sum_list]. change (foldr (∪) ∅ l) with (⋃ l).
  rewrite size_union; [rewrite IH; [done|]|].
  - intros i j B C Hij HB HC. apply (Hd (S i) (S j)); [lia|done..].
  - intros p HpA Hpl. apply elem_of_union_list in Hpl as (B & HB & Hp). apply list_elem_of_lookup_1 in HB as [j Hj].
    by apply (Hd 0%nat (S j) A B ltac:(lia) eq_refl Hj p).
Qed.

Section sets.
Context (H : list level) (p0 np : nat) (Hgeo : geometry H p0 np).
Implicit Types (Xs : list (gset nat)) (X : gset nat) (L : level) (i j a : nat).

Definition free_set Xs : gset nat := ⋃ zip_with level_set H Xs.

Lemma elem_of_free_set Xs p : p ∈ free_set Xs ↔ free H Xs p.
Proof.
  unfold free_set. rewrite elem_of_union_list. split.
  - intros (A & HA & Hp). apply list_elem_of_lookup_1 in HA as [i Hi]. apply lookup_zip_with_Some in Hi as (L & X & -> & HL & HX).
    apply elem_of_level_set in Hp. by exists i, L, X.
  - intros (i & L & X & HL & HX & Hp). exists (level_set L X). split; [|by apply elem_of_level_set].
    apply list_elem_of_lookup. exists i. apply lookup_zip_with_Some. by exists L, X.
Qed.

Lemma size_free_set Xs : good H p0 np Xs →
  size (free_set Xs) = sum_list (zip_with (λ L X, (size X * 2 ^ lk L)%nat) H Xs).
Proof.
  intros [[Hex _] _]. unfold free_set. rewrite size_union_list.
  - f_equal. apply list_eq. intros i. rewrite list_lookup_fmap, !lookup_zip_with.
    destruct (H !! i), (Xs !! i); cbn; try done. by rewrite size_level_set.
  - intros i j A B Hij (L & X & -> & HL & HX)%lookup_zip_with_Some (L' & X' & -> & HL' & HX')%lookup_zip_with_Some p Hp Hp'.
    rewrite elem_of_level_set in Hp, Hp'. apply Hij. apply (Hex p); [by exists L, X|by exists L', X'].
Qed.

Lemma free_set_bound Xs : good H p0 np Xs → (size (free_set Xs) ≤ np)%nat.
Proof.
  intros [[_ Hin] _]. rewrite <- (size_range p0 np). apply subseteq_size. intros p Hp%elem_of_free_set.
  destruct Hp as [i Hi]. apply elem_of_range. by eapply Hin.
Qed.
End sets.

(** ** The contract *)

(** A heap over the sizes [H] whose free pages are [F]. *)
Definition heap_repr (H : list level) (p0 np : nat) (s : hstate) (F : gset nat) : Prop :=
  ∃ Xs, rep H p0 np s Xs ∧ good H p0 np Xs ∧ F = free_set H Xs.

Inductive hop : Set :=
  | HFree (a n : nat) | HAllocateBlock (i : nat) (random : bool) | HAllocateAligned (i n j : nat) | HCountFree.

Definition run_hop (assertions : bool) (x : hop) : heapM Z :=
  match x with
  | HFree a n => _ ← Heap_Free assertions (addr_of a) (Z.of_nat n); mret 0
  | HAllocateBlock i random => AllocateBlock assertions i random
  | HAllocateAligned i n j => AllocateAligned assertions i (Z.of_nat n) (Z.of_nat (2 ^ j))
  | HCountFree => h ← get_heap; mret (GetNumFreePages h)
  end.

(** The operations on a set of free pages. *)
Inductive hstep (H : list level) (F : gset nat) : hop → Z → gset nat → Prop :=
  | h_free a n : hstep H F (HFree a n) 0 (F ∪ range a n)
  | h_block i L random a : H !! i = Some L → (0 < a)%nat → (2 ^ lk L | a)%nat → range a (2 ^ lk L) ⊆ F →
      hstep H F (HAllocateBlock i random) (addr_of a) (F ∖ range a (2 ^ lk L))
  | h_block_none i L random : H !! i = Some L → (∀ a, (2 ^ lk L | a)%nat → ¬ range a (2 ^ lk L) ⊆ F) →
      hstep H F (HAllocateBlock i random) 0 F
  | h_aligned i n j a : (0 < a)%nat → (2 ^ j | a)%nat → range a n ⊆ F →
      hstep H F (HAllocateAligned i n j) (addr_of a) (F ∖ range a n)
  | h_aligned_none i L n j : H !! i = Some L → (∀ a, (2 ^ lk L | a)%nat → ¬ range a (2 ^ lk L) ⊆ F) →
      hstep H F (HAllocateAligned i n j) 0 F
  | h_count : hstep H F HCountFree (Z.of_nat (size F)) F.

(** What callers keep to: pages given back are pages of the heap that are in
    use, sizes exist and are large enough for the pages and their alignment. *)
Definition henabled (H : list level) (p0 np : nat) (F : gset nat) (x : hop) : Prop :=
  match x with
  | HFree a n => range a n ⊆ range p0 np ∧ range a n ## F
  | HAllocateBlock i _ => (i < length H)%nat
  | HAllocateAligned i n j => ∃ L, H !! i = Some L ∧ (0 < n ≤ 2 ^ lk L)%nat ∧ (j ≤ lk L)%nat
  | HCountFree => True
  end.

Section contract.
Context (H : list level) (p0 np : nat) (Hgeo : geometry H p0 np) (assertions : bool).
Implicit Types (Xs : list (gset nat)) (X : gset nat) (L : level) (i j a n : nat) (s : hstate) (F : gset nat).

Lemma freed_set Xs Xs' a n : freed H p0 np Xs Xs' a (a + n) → free_set H Xs' = free_set H Xs ∪ range a n.
Proof using Hgeo.
  intros [_ Hf]. apply set_eq. intros p. by rewrite elem_of_union, !elem_of_free_set, elem_of_range, Hf.
Qed.

Lemma taken_set Xs Xs' a n : taken H p0 np Xs Xs' a (a + n) →
  range a n ⊆ free_set H Xs ∧ free_set H Xs' = free_set H Xs ∖ range a n.
Proof using Hgeo.
  intros (_ & Hall & Hf). split.
  - intros p Hp%elem_of_range. apply elem_of_free_set, Hall, Hp.
  - apply set_eq. intros p. by rewrite elem_of_difference, !elem_of_free_set, elem_of_range, Hf.
Qed.

(** The result of an allocation, on the set. *)
Lemma allocated_set Xs i L n j r s : good H p0 np Xs → H !! i = Some L → (0 < n)%nat →
  allocated H p0 np Xs i n j r s →
  (r = 0 ∧ heap_repr H p0 np s (free_set H Xs) ∧ ∀ a, (2 ^ lk L | a)%nat → ¬ range a (2 ^ lk L) ⊆ free_set H Xs) ∨
  ∃ a, r = addr_of a ∧ (0 < a)%nat ∧ (2 ^ j | a)%nat ∧ range a n ⊆ free_set H Xs ∧
    heap_repr H p0 np s (free_set H Xs ∖ range a n).
Proof using Hgeo.
  intros Hgood HL Hn [(-> & Hex & Hrep)|(a & Xs' & -> & Hnn & Hd & Hrep & Ht)].
  - left. split_and!; [done|by exists Xs|]. intros a Ha Hsub.
    apply (exhausted_no_block H p0 np Hgeo Xs i L a Hgood (rep_len _ _ _ _ _ Hrep) HL Hex Ha).
    intros p Hp. apply elem_of_free_set, Hsub. by apply elem_of_range.
  - right. destruct (taken_set _ _ _ _ Ht) as [Hsub He]. exists a. split_and!; try done.
    + unfold addr_of, NullAddress in Hnn. lia.
    + exists Xs'. split_and!; [done|apply Ht|done].
Qed.

Lemma AllocateBlock_run i L random s Xs : H !! i = Some L → rep H p0 np s Xs → good H p0 np Xs →
  ∃ r s', AllocateBlock assertions i random s = Ok (r, s') ∧ allocated H p0 np Xs i (2 ^ lk L) (lk L) r s'.
Proof using Hgeo.
  intros HL Hrep Hgood. destruct (rep_some H p0 np s Xs i L Hrep HL) as (b & Hb & Hok). pose proof (pow2_pos_nat (lk L)).
  unfold AllocateBlock. destruct random.
  - erewrite st_bind_run by (by apply get_blk_run). unfold GetNumPages. rewrite (size_of H i L b Hok).
    unfold addr_of, PageSize. rewrite Z.mul_comm, Z.div_mul by lia.
    apply (AllocateByRandom_run H p0 np Hgeo assertions i L); done || lia.
  - unfold AllocateByLinearSearch. erewrite st_bind_run by (by apply get_blk_run). erewrite st_bind_run by reflexivity.
    rewrite (size_of H i L b Hok), (rep_num _ _ _ _ _ Hrep). pose proof (lookup_lt_Some _ _ _ HL).
    apply (linear_loop_run H p0 np Hgeo assertions _ i i L); try done; [lia|]. intros k X Hk. lia.
Qed.

(** The counters add up without wrapping. *)
Lemma count_loop (bs : list Block) (ns : list nat) (acc : nat) :
  Forall2 (λ b n, Block_GetNumFreePages b = u64 (Z.of_nat n)) bs ns → Z.of_nat (acc + sum_list ns) < 2 ^ 64 →
  foldl (λ acc b, u64 (acc + Block_GetNumFreePages b)) (Z.of_nat acc) bs = Z.of_nat (acc + sum_list ns).
Proof using Hgeo.
  intros Hall. revert acc. induction Hall as [|b n bs ns Hb _ IH]; intros acc Hfit; cbn in *; [by rewrite Nat.add_0_r|].
  rewrite Hb, (wrap_small 64 (Z.of_nat n)), <- Nat2Z.inj_add, wrap_small by (unfold in_width; lia).
  rewrite IH by lia. f_equal. lia.
Qed.

Lemma GetNumFreePages_run s Xs : rep H p0 np s Xs → good H p0 np Xs → GetNumFreePages (heap s) = Z.of_nat (size (free_set H Xs)).
Proof using Hgeo.
  intros Hrep Hgood. pose proof (free_set_bound H p0 np Xs Hgood) as Hb. rewrite (size_free_set H p0 np Xs Hgood) in *.
  set (ns := zip_with _ _ _) in *. unfold GetNumFreePages. rewrite (rep_num _ _ _ _ _ Hrep).
  change 0 with (Z.of_nat 0). rewrite (count_loop _ ns); [done| |].
  - apply Forall2_same_length_lookup. pose proof (rep_size H p0 np s Xs Hrep). pose proof (rep_len _ _ _ _ _ Hrep) as Hlen.
    split; [unfold ns; rewrite length_take, length_zip_with; lia|].
    intros i b m Hbi (L & X & -> & HL & HX)%lookup_zip_with_Some.
    rewrite lookup_take_lt in Hbi by (by eapply lookup_lt_Some).
    destruct (rep_blocks _ _ _ _ _ Hrep i L X HL HX) as (b' & Hb' & Hok & pre & post & _ & _ & Hr). simplify_eq.
    destruct Hr as (l & r & _ & _ & _ & _ & Hnum). cbn in Hnum.
    unfold Block_GetNumFreePages, GetNumFreeBlocks, GetNumPages. rewrite (size_of H i L b Hok), Hnum.
    unfold addr_of, PageSize. rewrite (Z.mul_comm 4096), Z.div_mul by lia. f_equal. lia.
  - pose proof (heap_bound H p0 np Hgeo (p0 + np) ltac:(lia)) as Hbnd. unfold addr_of in Hbnd. cbn [Nat.add]. lia.
Qed.
End contract.

(** Freeing, on the set. *)
Lemma heap_free_step H p0 np assertions a n s F :
  geometry H p0 np → heap_repr H p0 np s F → range a n ⊆ range p0 np → range a n ## F →
  ∃ s', Heap_Free assertions (addr_of a) (Z.of_nat n) s = Ok (tt, s') ∧ heap_repr H p0 np s' (F ∪ range a n).
Proof.
  intros Hgeo (Xs & Hrep & Hgood & ->) Hsub Hdis. destruct (decide (n = 0)%nat) as [->|Hn].
  { exists s. split; [done|]. exists Xs. split_and!; [done..|]. change (range a 0) with (∅ : gset nat). set_solver. }
  assert (a + n ≤ p0 + np)%nat.
  { assert ((a + n - 1)%nat ∈ range p0 np) as Hl by (apply Hsub, elem_of_range; lia). apply elem_of_range in Hl. lia. }
  destruct (Heap_Free_run H p0 np Hgeo assertions a n s Xs) as (s' & Xs' & Hrun & Hrep' & Hf); try done.
  { intros p Hp. rewrite <- elem_of_range in Hp. split; [rewrite <- elem_of_free_set by done; set_solver|].
    unfold in_heap. apply elem_of_range. by apply Hsub. }
  exists s'. split; [done|]. exists Xs'. split_and!; [done|apply Hf|]. symmetry. by eapply freed_set.
Qed.

(** Every operation simulates a step on the set. *)
Lemma heap_step H p0 np assertions x s F :
  geometry H p0 np → heap_repr H p0 np s F → henabled H p0 np F x →
  ∃ r s' F', run_hop assertions x s = Ok (r, s') ∧ hstep H F x r F' ∧ heap_repr H p0 np s' F'.
Proof.
  intros Hgeo (Xs & Hrep & Hgood & ->) Hen. destruct x as [a n|i random|i n j|]; cbn in Hen; unfold run_hop.
  - destruct Hen as [Hsub Hdis].
    destruct (heap_free_step H p0 np assertions a n s (free_set H Xs) Hgeo) as (s' & Hrun & Hr); try done; [by exists Xs|].
    exists 0, s', (free_set H Xs ∪ range a n). erewrite st_bind_run by exact Hrun. split_and!; [done|constructor|done].
  - destruct (lookup_lt_is_Some_2 H i Hen) as [L HL].
    destruct (AllocateBlock_run H p0 np Hgeo assertions i L random s Xs HL Hrep Hgood) as (r & s' & Hrun & Hall).
    pose proof (pow2_pos_nat (lk L)) as Hpos.
    destruct (allocated_set H p0 np Hgeo Xs i L _ _ r s' Hgood HL Hpos Hall) as [(-> & Hr & Hno)|(a & -> & Ha & Hd & Hsub & Hr)].
    + exists 0, s', (free_set H Xs). split_and!; [done|by econstructor|done].
    + exists (addr_of a), s', (free_set H Xs ∖ range a (2 ^ lk L)). split_and!; [done|by econstructor|done].
  - destruct Hen as (L & HL & Hn & Hj). unfold AllocateAligned.
    destruct (AllocateByRandom_run H p0 np Hgeo assertions i L n j s Xs HL Hn Hj Hrep Hgood) as (r & s' & Hrun & Hall).
    destruct (allocated_set H p0 np Hgeo Xs i L _ _ r s' Hgood HL (proj1 Hn) Hall) as [(-> & Hr & Hno)|(a & -> & Ha & Hd & Hsub & Hr)].
    + exists 0, s', (free_set H Xs). split_and!; [done|by econstructor|done].
    + exists (addr_of a), s', (free_set H Xs ∖ range a n). split_and!; [done|by constructor|done].
  - exists (Z.of_nat (size (free_set H Xs))), s, (free_set H Xs). split_and!; [|constructor|by exists Xs].
    erewrite st_bind_run by reflexivity. by rewrite (GetNumFreePages_run H p0 np Hgeo s Xs).
Qed.

(** (C4) A page heap implements a set of free pages, with and without assertions and
    whatever the random numbers are: every operation that its callers may
    perform ends without a fault.  [Free] adds exactly the given pages;
    [AllocateBlock] and [AllocateAligned] remove exactly an aligned range of free
    pages and return its address, or change nothing and return the null address;
    the latter happens only when no aligned block of the size is free;
    [GetNumFreePages] is the size of the set. *)
Theorem page_heap_refines H p0 np assertions x s F :
  geometry H p0 np → heap_repr H p0 np s F → henabled H p0 np F x →
  ∃ r s' F', run_hop assertions x s = Ok (r, s') ∧ hstep H F x r F' ∧ heap_repr H p0 np s' F'.
Proof. apply heap_step. Qed.

(** No page of an empty heap is free. *)
Lemma empty_repr H p0 np s : geometry H p0 np → rep H p0 np s (replicate (length H) ∅) → heap_repr H p0 np s ∅.
Proof.
  intros Hgeo Hrep. exists (replicate (length H) ∅).
  assert (Hno : ∀ i p, ¬ page_at H (replicate (length H) ∅) i p).
  { intros i p (L & X & _ & [-> _]%lookup_replicate & o & Ho & _). set_solver. }
  split_and!; [done| |].
  - split; [split|].
    + intros p i j Hi. by apply Hno in Hi.
    + intros i p Hi. by apply Hno in Hi.
    + intros i L L' X o _ _ [-> _]%lookup_replicate Hsub. pose proof (pow2_pos_nat (lk L' - lk L)).
      assert (group (lk L' - lk L) o ∈ (∅ : gset nat)); [|set_solver]. apply Hsub, elem_of_range. lia.
  - symmetry. apply set_eq. intros p. rewrite elem_of_free_set by done. split; [|set_solver]. intros [i Hi]. by apply Hno in Hi.
Qed.

(** [KPageHeap::Initialize] over zeroed management memory of sufficient size
    sets up an empty heap of the given pages (at most 64 GiB of them) whose bitmaps
    fit the layout that the operations rely on; no word of the memory changes. *)
Theorem page_heap_Initialize_empty assertions p0 np ks pre post s words :
  heap_fits p0 np → shifts_ok ks → (length ks ≤ NumMemoryBlockPageShifts)%nat →
  zeroed p0 np ks (length pre) pre post s → rng_ok (m_heap_rng (heap s)) →
  (∀ j, (j < length ks)%nat → ∃ b, m_blocks (heap s) !! j = Some b ∧ unused (m_bitmap b)) →
  (memory_words p0 np ks (length pre) ≤ words)%nat →
  ∃ s', Heap_Initialize assertions (addr_of p0) (addr_of np) (Z.of_nat (length pre)) (Z.of_nat words)
          (block_shifts ks) s = Ok (tt, s') ∧
    geometry (levels_from p0 np ks (length pre)) p0 np ∧
    heap_repr (levels_from p0 np ks (length pre)) p0 np s' ∅ ∧ mgmt s' = mgmt s.
Proof.
  intros Hfit Hks Hlen Hz Hg Hun Hmem. pose proof (levels_geometry p0 np ks (length pre) Hfit Hks) as Hgeo.
  destruct (Heap_Initialize_run p0 np ks (length pre) assertions Hfit Hks pre post eq_refl s words) as (s' & Hrun & Hrep & Hm & _); try done.
  exists s'. split_and!; try done. by apply empty_repr.
Qed.

(** The size that [CalculateManagementOverheadSize] computes is enough for the
    bitmaps wherever the region starts, and is a whole number of pages. *)
Theorem management_overhead_suffices p0 np ks start :
  heap_fits p0 np → shifts_ok ks → (length ks ≤ NumMemoryBlockPageShifts)%nat →
  ∃ o, Heap_CalculateManagementOverheadSize (addr_of np) (block_shifts ks) = Ok o ∧
    8 * Z.of_nat (memory_words p0 np ks start) ≤ o ∧ o mod PageSize = 0.
Proof.
  intros Hf Hk Hl. destruct (overhead_suffices_run p0 np ks start Hf Hk Hl) as (o & Ho & Hw & Hm & _). by exists o.
Qed.

(** ** The block sizes of the kernel *)
Definition kernel_shifts : list nat := [0; 4; 9; 10; 13; 17; 18]%nat.

Lemma kernel_shifts_ok : shifts_ok kernel_shifts ∧ block_shifts kernel_shifts = MemoryBlockPageShifts.
Proof.
  split; [|done]. split_and!; [done| |].
  - intros i a b Ha Hb. do 7 (destruct i as [|i]; [cbn in Ha, Hb; simplify_eq; lia|]). done.
  - intros i a Ha. do 7 (destruct i as [|i]; [cbn in Ha; simplify_eq; lia|]). done.
Qed.

Lemma aligned_index_run ks target i : (∀ k, k ∈ ks → (k ≤ 18)%nat) →
  let r := aligned_index_loop (block_shifts ks) target (Z.of_nat i) in
  (r = -1 ∧ ∀ k, k ∈ ks → Z.of_nat (2 ^ k) < target) ∨
  ∃ m k, r = Z.of_nat (i + m) ∧ ks !! m = Some k ∧ target ≤ Z.of_nat (2 ^ k) ∧
    ∀ m' k', (m' < m)%nat → ks !! m' = Some k' → Z.of_nat (2 ^ k') < target.
Proof.
  revert i. induction ks as [|k ks IH]; intros i Hks; cbv zeta in *.
  { left. split; [done|]. intros k Hk. by apply elem_of_nil in Hk. }
  unfold block_shifts in *. cbn [map aligned_index_loop].
  rewrite Z.shiftl_1_l, shift_size. unfold PageSize. rewrite (Z.mul_comm 4096), Z.div_mul by lia.
  destruct (Z.leb_spec target (Z.of_nat (2 ^ k))) as [Hle|Hgt].
  - right. exists 0%nat, k. rewrite Nat.add_0_r. split_and!; [done..|]. intros m' k' Hm'. lia.
  - replace (Z.of_nat i + 1) with (Z.of_nat (S i)) by lia.
    destruct (IH (S i)) as [[-> Hall]|(m & k1 & -> & Hm & Hle & Hmin)].
    { intros k' Hk'. apply Hks. by right. }
    + left. split; [done|]. intros k' [->|Hk']%elem_of_cons; [lia|by apply Hall].
    + right. exists (S m), k1. split_and!; [f_equal; lia|done..|]. intros [|m'] k' Hm' Hk'; cbn in Hk'; [by simplify_eq|].
      apply (Hmin m'); [lia|done].
Qed.

(** [GetAlignedBlockIndex] gives the smallest block size that holds the pages and
    their alignment, which is an index that [AllocateAligned] accepts; it gives -1
    only for more pages than the largest block has. *)
Theorem aligned_block_index n j p0 np start F :
  (0 < n)%nat →
  (GetAlignedBlockIndex (Z.of_nat n) (Z.of_nat (2 ^ j)) = -1 ∧ (2 ^ 18 < n ∨ 18 < j)%nat) ∨
  ∃ i k, GetAlignedBlockIndex (Z.of_nat n) (Z.of_nat (2 ^ j)) = Z.of_nat i ∧ kernel_shifts !! i = Some k ∧
    henabled (levels_from p0 np kernel_shifts start) p0 np F (HAllocateAligned i n j) ∧
    ∀ i' k', (i' < i)%nat → kernel_shifts !! i' = Some k' → (2 ^ k' < n ∨ k' < j)%nat.
Proof.
  intros Hn. unfold GetAlignedBlockIndex. change MemoryBlockPageShifts with (block_shifts kernel_shifts). change 0 with (Z.of_nat 0).
  assert (Hpow : ∀ k, Z.of_nat (2 ^ k) < Z.max (Z.of_nat n) (Z.of_nat (2 ^ j)) ↔ (2 ^ k < n ∨ k < j)%nat).
  { intros k. rewrite (Nat.pow_lt_mono_r_iff 2 k j) by lia. lia. }
  destruct (aligned_index_run kernel_shifts (Z.max (Z.of_nat n) (Z.of_nat (2 ^ j))) 0) as [[-> Hall]|(m & k & -> & Hm & Hle & Hmin)].
  { intros k Hk. apply list_elem_of_lookup_1 in Hk as [i Hi]. by apply (proj1 kernel_shifts_ok) in Hi. }
  - left. split; [done|]. apply Hpow, Hall. unfold kernel_shifts. set_solver.
  - right. exists m, k. split_and!; try done.
    + destruct (H_level p0 np kernel_shifts start m k Hm) as (L & HL & Hlk & _). exists L. rewrite Hlk. split; [done|].
      assert (¬ Z.of_nat (2 ^ k) < Z.max (Z.of_nat n) (Z.of_nat (2 ^ j))) as Hnot by lia. rewrite Hpow in Hnot. lia.
    + intros i' k' Hi Hk. apply Hpow. by apply (Hmin i').
Qed.

Lemma aligned_block_index_witness :
  (GetAlignedBlockIndex 5 2 = -1 ∧ (2 ^ 18 < 5 ∨ 18 < 1)%nat) ∨
  ∃ i k, GetAlignedBlockIndex 5 2 = Z.of_nat i ∧ kernel_shifts !! i = Some k ∧
    henabled (levels_from 16 40 kernel_shifts 0) 16 40 ∅ (HAllocateAligned i 5 1) ∧
    ∀ i' k', (i' < i)%nat → kernel_shifts !! i' = Some k' → (2 ^ k' < 5 ∨ k' < 1)%nat.
Proof. apply (aligned_block_index 5 1 16 40 0 ∅). lia. Defined.

Module SampleHeap.
(** Forty pages from page 16 on, in single pages and blocks of sixteen, with the
    management memory between two words that do not belong to it. *)
Definition new_block : Block :=
  mkBlock (mkBitmap [0; 0; 0; 0] [0; 0; 0; 0] (mkRng (TinyMT.Initialize 7) 0 0) 0 0) 0 0 0 0.
Definition s0 : hstate :=
  mkH (mkHeap 0 0 0 0 (replicate 7 new_block) (mkRng (TinyMT.Initialize 9) 0 0)) ([42] ++ replicate 2 0 ++ [43]).
Definition ks : list nat := [0; 4]%nat.
Definition levels : list level := levels_from 16 40 ks 1.

Lemma fits : heap_fits 16 40.
Proof. unfold heap_fits. lia. Qed.
Lemma ks_ok : shifts_ok ks.
Proof.
  split_and!; [done| |].
  - intros [|[|i]] a b Ha Hb; cbn in Ha, Hb; simplify_eq; lia.
  - intros [|[|i]] a Ha; cbn in Ha; simplify_eq; lia.
Qed.
Lemma unused_blocks : ∀ j, (j < length ks)%nat → ∃ b, m_blocks (heap s0) !! j = Some b ∧ unused (m_bitmap b).
Proof.
  intros j Hj. exists new_block. split; [|split_and!; [done..|unfold rng_ok, in_width; cbn; lia]].
  destruct j as [|[|j]]; [done..|cbn in Hj; lia].
Qed.
Lemma rng0 : rng_ok (m_heap_rng (heap s0)).
Proof. unfold rng_ok, in_width. cbn. lia. Qed.

Definition s1 : hstate :=
  match Heap_Initialize true (addr_of 16) (addr_of 40) 1 2 (block_shifts ks) s0 with Ok (_, s) => s | Err _ => s0 end.
Lemma heap_s1_repr : heap_repr levels 16 40 s1 ∅.
Proof.
  destruct (Heap_Initialize_run 16 40 ks 1 true fits ks_ok [42] [43] eq_refl s0 2) as (s' & Hrun & Hrep & _);
    [cbn; unfold NumMemoryBlockPageShifts; lia|reflexivity|apply rng0|apply unused_blocks|reflexivity|].
  unfold s1. change (Z.of_nat 1) with 1 in Hrun. change (Z.of_nat 2) with 2 in Hrun. rewrite Hrun.
  apply empty_repr; [by apply levels_geometry; [apply fits|apply ks_ok]|done].
Qed.
End SampleHeap.

Lemma page_heap_Initialize_empty_witness :
  ∃ s', Heap_Initialize true (addr_of 16) (addr_of 40) 1 2 (block_shifts SampleHeap.ks) SampleHeap.s0 = Ok (tt, s') ∧
    geometry SampleHeap.levels 16 40 ∧ heap_repr SampleHeap.levels 16 40 s' ∅ ∧ mgmt s' = mgmt SampleHeap.s0.
Proof.
  apply (page_heap_Initialize_empty true 16 40 SampleHeap.ks [42] [43] SampleHeap.s0 2);
    [apply SampleHeap.fits|apply SampleHeap.ks_ok|cbn; unfold NumMemoryBlockPageShifts; lia|reflexivity
    |apply SampleHeap.rng0|apply SampleHeap.unused_blocks|reflexivity].
Defined.

Lemma management_overhead_suffices_witness :
  ∃ o, Heap_CalculateManagementOverheadSize (addr_of 40) (block_shifts SampleHeap.ks) = Ok o ∧
    8 * Z.of_nat (memory_words 16 40 SampleHeap.ks 1) ≤ o ∧ o mod PageSize = 0.
Proof.
  apply (management_overhead_suffices 16 40 SampleHeap.ks 1);
    [apply SampleHeap.fits|apply SampleHeap.ks_ok|cbn; unfold NumMemoryBlockPageShifts; lia].
Defined.

Lemma page_heap_refines_witness :
  ∃ r s' F', run_hop true (HFree 20 30) SampleHeap.s1 = Ok (r, s') ∧ hstep SampleHeap.levels ∅ (HFree 20 30) r F' ∧
    heap_repr SampleHeap.levels 16 40 s' F'.
Proof.
  apply (page_heap_refines SampleHeap.levels 16 40 true (HFree 20 30) SampleHeap.s1 ∅);
    [apply levels_geometry; [apply SampleHeap.fits|apply SampleHeap.ks_ok]|apply SampleHeap.heap_s1_repr|].
  split; [|set_solver]. intros p Hp%elem_of_range. apply elem_of_range. lia.
Defined.

(** A run of the code: thirty pages are freed, a block of sixteen and a single
    page are allocated, thirteen pages are left. *)
Lemma sample_run :
  match (_ ← run_hop true (HFree 20 30); r1 ← run_hop true (HAllocateBlock 1 false);
         r2 ← run_hop true (HAllocateAligned 0 1 0); r3 ← run_hop true (HAllocateBlock 1 true);
         n ← run_hop true HCountFree; mret (r1, 0 <? r2, r3, n)) SampleHeap.s1 with
  | Ok (v, _) => Some v | Err _ => None
  end = Some (addr_of 32, true, 0, 13).
Proof. vm_compute. reflexivity. Qed.
