(* ===== verification/MemoryRegion.v ===== *)
(** * Memory regions of the kernel

    [KMemoryRegion] and [KMemoryRegionTree] (libmesosphere,
    [kern_k_memory_region.hpp], [kern_k_memory_layout.cpp]): the map of the
    physical and virtual address spaces that start-up refines region by region.
    The tree is its sequence of regions in order; a region is referred to by its
    position.  Regions come from a fixed array and are never given back. *)

From S2P Require Import Prelude.

Module Region.

Record KMemoryRegion := mkRegion {
  m_address : Z;
  m_pair_address : Z;
  m_last_address : Z;
  m_attributes : Z;
  m_type_id : Z;
}.
#[export] Instance KMemoryRegion_eq_dec : EqDecision KMemoryRegion.
Proof. solve_decision. Defined.

(** [std::numeric_limits<uintptr_t>::max()]: no paired address. *)
Definition NoPair : Z := 2 ^ 64 - 1.

Definition Compare (lhs rhs : KMemoryRegion) : Z :=
  if m_address lhs <? m_address rhs then -1 else if m_address lhs <=? m_last_address rhs then 0 else 1.

Definition GetEndAddress (r : KMemoryRegion) : Z := u64 (m_last_address r + 1).
Definition GetSize (r : KMemoryRegion) : Z := u64 (GetEndAddress r - m_address r).
Definition Contains (r : KMemoryRegion) (address : Z) : res bool :=
  _ ← check (negb (GetEndAddress r =? 0)) Aborted;
  Ok ((m_address r <=? address) && (address <=? m_last_address r)).
Definition IsDerivedFrom (r : KMemoryRegion) (type : Z) : bool := Z.lor (m_type_id r) type =? m_type_id r.
Definition HasTypeAttribute (r : KMemoryRegion) (attr : Z) : bool := Z.lor (m_type_id r) attr =? m_type_id r.
Definition CanDerive (r : KMemoryRegion) (type : Z) : bool := Z.lor (m_type_id r) type =? type.
Definition SetType (type : Z) (r : KMemoryRegion) : res KMemoryRegion :=
  _ ← check (CanDerive r type) Aborted;
  Ok (mkRegion (m_address r) (m_pair_address r) (m_last_address r) (m_attributes r) type).
Definition SetPairAddress (a : Z) (r : KMemoryRegion) : KMemoryRegion :=
  mkRegion (m_address r) a (m_last_address r) (m_attributes r) (m_type_id r).
Definition SetTypeAttribute (attr : Z) (r : KMemoryRegion) : KMemoryRegion :=
  mkRegion (m_address r) (m_pair_address r) (m_last_address r) (m_attributes r) (Z.lor (m_type_id r) attr).
Definition Reset (a la p attr t : Z) : KMemoryRegion := mkRegion a p la attr t.

(** ** The tree *)

(** The tree in order, and the regions taken from the array so far. *)
Record rtree := mkTree { regions : list KMemoryRegion; m_num_regions : nat }.
Abbreviation treeM := (stM rtree).
Definition MaxMemoryRegions : nat := 200.
Definition mod_regions (f : list KMemoryRegion → list KMemoryRegion) : treeM unit :=
  st_mod (λ s, mkTree (f (regions s)) (m_num_regions s)).

(** Insertion in order; an element that compares equal is not inserted. *)
Fixpoint tree_insert (r : KMemoryRegion) (l : list KMemoryRegion) : list KMemoryRegion :=
  match l with
  | [] => [r]
  | x :: l' =>
      if Compare r x <? 0 then r :: x :: l'
      else if 0 <? Compare r x then x :: tree_insert r l'
      else l
  end.
Fixpoint tree_find (r : KMemoryRegion) (l : list KMemoryRegion) : option nat :=
  match l with
  | [] => None
  | x :: l' => if Compare r x =? 0 then Some 0%nat else S <$> tree_find r l'
  end.

Definition probe (address : Z) : KMemoryRegion := mkRegion address NoPair address 0 0.
Definition FindModifiable (l : list KMemoryRegion) (address : Z) : option nat := tree_find (probe address) l.
Definition Find (l : list KMemoryRegion) (address : Z) : option KMemoryRegion :=
  i ← tree_find (probe address) l; l !! i.

Definition FindByType (l : list KMemoryRegion) (type_id : Z) : option KMemoryRegion :=
  List.find (λ r, m_type_id r =? type_id) l.
Definition FindByTypeAndAttribute (l : list KMemoryRegion) (type_id attr : Z) : option KMemoryRegion :=
  List.find (λ r, (m_type_id r =? type_id) && (m_attributes r =? attr)) l.
Definition FindFirstDerived (l : list KMemoryRegion) (type_id : Z) : option KMemoryRegion :=
  List.find (λ r, IsDerivedFrom r type_id) l.
Definition FindLastDerived (l : list KMemoryRegion) (type_id : Z) : option KMemoryRegion :=
  foldl (λ region r, if IsDerivedFrom r type_id then Some r else region) None l.

(** [GetDerivedRegionExtents]: the first and the last region of a type. *)
Definition extents_step (type_id : Z) (e : option KMemoryRegion * option KMemoryRegion) (r : KMemoryRegion)
    : option KMemoryRegion * option KMemoryRegion :=
  if IsDerivedFrom r type_id then (match fst e with None => Some r | Some f => Some f end, Some r) else e.
Definition GetDerivedRegionExtents (l : list KMemoryRegion) (type_id : Z) : res (KMemoryRegion * KMemoryRegion) :=
  let e := foldl (extents_step type_id) (None, None) l in
  f ← of_option Aborted (fst e); g ← of_option Aborted (snd e); Ok (f, g).
Definition extents_size (e : KMemoryRegion * KMemoryRegion) : Z := u64 (GetEndAddress (snd e) - m_address (fst e)).

Definition AllocateRegion (r : KMemoryRegion) : treeM KMemoryRegion :=
  s ← st_get;
  _ ← st_check (bool_decide (m_num_regions s < MaxMemoryRegions)%nat) Aborted;
  _ ← st_mod (λ s, mkTree (regions s) (S (m_num_regions s)));
  mret r.

Definition InsertDirectly (address last_address attr type_id : Z) : treeM unit :=
  r ← AllocateRegion (mkRegion address NoPair last_address attr type_id);
  mod_regions (tree_insert r).

Definition shift_pair (old_pair offset : Z) : Z := if negb (old_pair =? NoPair) then u64 (old_pair + offset) else old_pair.

Definition Insert (address size type_id new_attr old_attr : Z) : treeM bool :=
  s ← st_get;
  i ← st_lift (of_option NullDeref (FindModifiable (regions s) address));
  found ← st_lift (of_option NullDeref (regions s !! i));
  if negb (m_attributes found =? old_attr) then mret false else
  let inserted_region_end := u64 (address + size) in
  let inserted_region_last := u64 (inserted_region_end - 1) in
  if m_last_address found <? inserted_region_last then mret false else
  if negb (CanDerive found type_id) then mret false else
  let old_address := m_address found in
  let old_last := m_last_address found in
  let old_pair := m_pair_address found in
  let old_type := m_type_id found in
  _ ← mod_regions (delete i);
  _ ← (if old_address =? address then
         mod_regions (tree_insert (Reset address inserted_region_last old_pair new_attr type_id))
       else
         _ ← mod_regions (tree_insert (Reset old_address (u64 (address - 1)) old_pair old_attr old_type));
         let new_pair := shift_pair old_pair (u64 (address - old_address)) in
         r ← AllocateRegion (mkRegion address new_pair inserted_region_last new_attr type_id);
         mod_regions (tree_insert r));
  _ ← (if negb (old_last =? inserted_region_last) then
         let after_pair := shift_pair old_pair (u64 (inserted_region_end - old_address)) in
         r ← AllocateRegion (mkRegion inserted_region_end after_pair old_last old_attr old_type);
         mod_regions (tree_insert r)
       else mret tt);
  mret true.

(** ** Memory layout *)

(** [InitializeLinearMemoryRegionTrees], one tree: the regions of [l] that
    qualify are inserted into the linear tree. *)
Fixpoint insert_linear (select : KMemoryRegion → bool) (l : list KMemoryRegion) : treeM unit :=
  match l with
  | [] => mret tt
  | r :: l' =>
      _ ← (if select r then InsertDirectly (m_address r) (m_last_address r) (m_attributes r) (m_type_id r) else mret tt);
      insert_linear select l'
  end.

Definition Dereference (r : option KMemoryRegion) : res KMemoryRegion := of_option Aborted r.
Definition GetPhysicalLinearRegion (l : list KMemoryRegion) (address : Z) : res KMemoryRegion :=
  Dereference (Find l address).

(** [IsTypedAddress] for one address and for a range.  The caller may pass a region
    as a hint: a single address in it passes without a look at the type, and the
    walk over a range starts from it. *)
Definition IsTypedAddress (l : list KMemoryRegion) (hint : option nat) (address type : Z) : res (option KMemoryRegion) :=
  cached ← match hint with
           | Some h => r ← of_option OutOfBounds (l !! h); c ← Contains r address; Ok (if (c : bool) then Some r else None)
           | None => Ok None
           end;
  match cached with
  | Some r => Ok (Some r)
  | None => Ok (match Find l address with
                | Some r => if IsDerivedFrom r type then Some r else None
                | None => None
                end)
  end.
Fixpoint typed_walk (l : list KMemoryRegion) (last_address type : Z) : option KMemoryRegion :=
  match l with
  | [] => None
  | cur :: l' =>
      if IsDerivedFrom cur type then
        if last_address <=? m_last_address cur then Some cur else typed_walk l' last_address type
      else None
  end.
Definition start_position (l : list KMemoryRegion) (hint : option nat) (address : Z) : res (option nat) :=
  match hint with
  | Some h => r ← of_option OutOfBounds (l !! h); c ← Contains r address; Ok (if (c : bool) then Some h else FindModifiable l address)
  | None => Ok (FindModifiable l address)
  end.
Definition IsTypedRange (l : list KMemoryRegion) (hint : option nat) (address size type : Z) : res (option KMemoryRegion) :=
  start ← start_position l hint address;
  Ok (match start with
      | Some i => typed_walk (drop i l) (u64 (u64 (address + size) - 1)) type
      | None => None
      end).

End Region.
