(* ===== verification/MemoryRegionSpec.v ===== *)
(** * What the region trees promise

    The regions of a tree are disjoint and in order.  [Insert] gives a range of
    addresses a new type and attribute and changes nothing for any other
    address; the paired address of every address stays the same. *)

From S2P Require Import Prelude MemoryRegion.
Import Region.

Implicit Types (r x : KMemoryRegion) (l : list KMemoryRegion) (a : Z).

Definition inside r a : Prop := m_address r ≤ a ≤ m_last_address r.

(** The paired addresses of a region do not reach the value that stands for none. *)
Definition region_ok r : Prop :=
  0 ≤ m_address r ≤ m_last_address r ∧ m_last_address r < 2 ^ 64 ∧
  (m_pair_address r = NoPair ∨ 0 ≤ m_pair_address r ∧ m_pair_address r + (m_last_address r - m_address r) < NoPair).

Fixpoint tiled l : Prop :=
  match l with
  | [] => True
  | r :: l' => region_ok r ∧ (∀ x, x ∈ l' → m_last_address r < m_address x) ∧ tiled l'
  end.

Lemma tiled_app l1 l2 : tiled (l1 ++ l2) ↔
  tiled l1 ∧ tiled l2 ∧ ∀ r x, r ∈ l1 → x ∈ l2 → m_last_address r < m_address x.
Proof. induction l1 as [|r l1 IH]; cbn; [set_solver|]. rewrite IH. set_solver. Qed.

Lemma tiled_in l r : tiled l → r ∈ l → region_ok r.
Proof. induction l as [|x l IH]; cbn; [set_solver|]. intros (Hx & _ & Hl) [->|Hr]%elem_of_cons; [done|auto]. Qed.

Lemma compare_probe a r : region_ok r → Compare (probe a) r = 0 ↔ inside r a.
Proof.
  intros [Hr _]. unfold Compare, inside. cbn. destruct (Z.ltb_spec a (m_address r)); [lia|].
  destruct (Z.leb_spec a (m_last_address r)); lia.
Qed.

(** The search finds the region that contains the address. *)
Lemma tree_find_spec l a : tiled l →
  match tree_find (probe a) l with
  | Some i => ∃ r, l !! i = Some r ∧ inside r a
  | None => ∀ r, r ∈ l → ¬ inside r a
  end.
Proof.
  induction l as [|x l IH]; intros Hl; [set_solver|]. cbn [tree_find]. destruct Hl as (Hx & _ & Hl). specialize (IH Hl).
  destruct (Z.eqb_spec (Compare (probe a) x) 0) as [He|He]; [exists x; split; [done|]; by apply compare_probe|].
  rewrite compare_probe in He by done. destruct (tree_find (probe a) l) as [i|]; cbn.
  - done.
  - intros r [->|Hr]%elem_of_cons; [done|by apply IH].
Qed.

Lemma inside_unique l r x a : tiled l → r ∈ l → x ∈ l → inside r a → inside x a → r = x.
Proof.
  unfold inside. induction l as [|y l IH]; intros Hl Hr Hx Hra Hxa; [set_solver|]. destruct Hl as (_ & Hy & Hl).
  apply elem_of_cons in Hr as [->|Hr], Hx as [->|Hx]; try done.
  - specialize (Hy x Hx). lia.
  - specialize (Hy r Hr). lia.
  - by apply IH.
Qed.

Lemma Find_spec l a r : tiled l → Find l a = Some r ↔ r ∈ l ∧ inside r a.
Proof.
  intros Hl. unfold Find. pose proof (tree_find_spec l a Hl) as Hf. destruct (tree_find (probe a) l) as [i|]; cbn.
  - destruct Hf as (x & Hi & Hx). rewrite Hi. apply list_elem_of_lookup_2 in Hi. split.
    + intros [= ->]. done.
    + intros [Hr Hra]. f_equal. by eapply inside_unique.
  - split; [done|]. intros [Hr Hra]. by destruct (Hf r Hr).
Qed.

Lemma Find_None l a : tiled l → Find l a = None ↔ ∀ r, r ∈ l → ¬ inside r a.
Proof.
  intros Hl. destruct (Find l a) as [r|] eqn:Hf.
  - apply Find_spec in Hf as [Hr Hra]; [|done]. split; [done|]. intros Hn. by destruct (Hn r Hr).
  - split; [|done]. intros _ r Hr Hra. assert (Find l a = Some r) by (by apply Find_spec). congruence.
Qed.

(** Insertion puts a region between those before and those after it. *)
Lemma tree_insert_between r l1 l2 :
  (∀ x, x ∈ l1 → m_address x ≤ m_last_address x ∧ m_last_address x < m_address r) →
  (∀ x, x ∈ l2 → m_address r < m_address x) → tree_insert r (l1 ++ l2) = l1 ++ r :: l2.
Proof.
  induction l1 as [|y l1 IH]; intros H1 H2; cbn.
  - destruct l2 as [|x l2]; [done|]. cbn. unfold Compare.
    by rewrite (proj2 (Z.ltb_lt (m_address r) (m_address x))) by (apply H2; set_solver).
  - destruct (H1 y ltac:(set_solver)) as [Hy1 Hy2].
    unfold Compare. rewrite (proj2 (Z.ltb_ge (m_address r) _)) by lia. rewrite (proj2 (Z.leb_gt (m_address r) _)) by lia. cbn.
    f_equal. apply IH; [|done]. intros x Hx. apply H1. set_solver.
Qed.

(** ** The view of an address: attribute, type and paired address *)
Definition pair_of r a : option Z := if m_pair_address r =? NoPair then None else Some (m_pair_address r + (a - m_address r)).
Definition view l a : option (Z * Z * option Z) :=
  r ← Find l a; Some (m_attributes r, m_type_id r, pair_of r a).

(** Replacing a region by regions inside it only matters inside it. *)
Lemma view_outside l1 l2 r pieces a : tiled (l1 ++ r :: l2) → tiled (l1 ++ pieces ++ l2) →
  (∀ x, x ∈ pieces → m_address r ≤ m_address x ∧ m_last_address x ≤ m_last_address r) → ¬ inside r a →
  view (l1 ++ pieces ++ l2) a = view (l1 ++ r :: l2) a.
Proof.
  intros Ht Ht' Hp Hn. unfold view. f_equal. destruct (Find (l1 ++ r :: l2) a) as [x|] eqn:Hf.
  - apply Find_spec in Hf as [Hx Hxa]; [|done]. apply Find_spec; [done|]. split; [|done].
    rewrite !elem_of_app. apply elem_of_app in Hx as [Hx|[->|Hx]%elem_of_cons]; auto. done.
  - apply Find_None; [done|]. rewrite Find_None in Hf by done. intros x Hx Hxa.
    rewrite !elem_of_app in Hx. destruct Hx as [Hx|[Hx|Hx]].
    + apply (Hf x); [set_solver|done].
    + apply Hn. destruct (Hp x Hx). unfold inside in *. lia.
    + apply (Hf x); [set_solver|done].
Qed.

Lemma view_found l a r : tiled l → r ∈ l → inside r a → view l a = Some (m_attributes r, m_type_id r, pair_of r a).
Proof. intros Ht Hr Ha. unfold view. by rewrite (proj2 (Find_spec l a r Ht)). Qed.

(** The paired addresses of a part of a region. *)
Lemma pair_of_part r b : region_ok r → inside r b →
  let p := shift_pair (m_pair_address r) (u64 (b - m_address r)) in
  (∀ attr t la a, pair_of (mkRegion b p la attr t) a = pair_of r a) ∧
  (p = NoPair ∨ 0 ≤ p ∧ p + (m_last_address r - b) < NoPair).
Proof.
  intros (H1 & H2 & H3) Hb. unfold inside, NoPair in *. cbv zeta. unfold shift_pair, NoPair.
  rewrite (wrap_small 64 (b - m_address r)) by (unfold in_width; lia).
  destruct (Z.eqb_spec (m_pair_address r) (2 ^ 64 - 1)) as [He|He]; cbn [negb].
  - split; [|by left]. intros. unfold pair_of, NoPair. cbn [m_pair_address]. by rewrite !He.
  - destruct H3 as [?|[H3 H4]]; [done|]. rewrite wrap_small by (unfold in_width; lia). split; [|right; lia].
    intros. unfold pair_of, NoPair. cbn [m_pair_address m_address].
    rewrite (proj2 (Z.eqb_neq _ _)) by lia. rewrite (proj2 (Z.eqb_neq (m_pair_address r) _)) by done. f_equal. lia.
Qed.

(** ** Splitting a region *)
Section split.
Context (found : KMemoryRegion) (address size type_id new_attr : Z).
Context (Hok : region_ok found) (Hin : inside found address) (Hsize : 0 < size)
        (Hlast : address + size - 1 ≤ m_last_address found).

Definition before_piece : list KMemoryRegion :=
  if m_address found =? address then []
  else [mkRegion (m_address found) (m_pair_address found) (address - 1) (m_attributes found) (m_type_id found)].
Definition new_piece : KMemoryRegion :=
  mkRegion address (shift_pair (m_pair_address found) (u64 (address - m_address found))) (address + size - 1) new_attr type_id.
Definition after_piece : list KMemoryRegion :=
  if m_last_address found =? address + size - 1 then []
  else [mkRegion (address + size) (shift_pair (m_pair_address found) (u64 (address + size - m_address found)))
          (m_last_address found) (m_attributes found) (m_type_id found)].
Definition pieces : list KMemoryRegion := before_piece ++ new_piece :: after_piece.

Lemma before_in x : x ∈ before_piece →
  m_address x = m_address found ∧ m_last_address x = address - 1 ∧ m_address found < address ∧
  m_attributes x = m_attributes found ∧ m_type_id x = m_type_id found ∧ region_ok x ∧ ∀ a, pair_of x a = pair_of found a.
Proof using Hok Hin Hsize Hlast.
  unfold before_piece. destruct (Z.eqb_spec (m_address found) address); [set_solver|]. intros ->%list_elem_of_singleton.
  destruct Hok as (H1 & H2 & H3). unfold inside, region_ok in *. cbn. split_and!; try done; try lia.
Qed.

Lemma after_in x : x ∈ after_piece →
  m_address x = address + size ∧ m_last_address x = m_last_address found ∧ address + size ≤ m_last_address found ∧
  m_attributes x = m_attributes found ∧ m_type_id x = m_type_id found ∧ region_ok x ∧ ∀ a, pair_of x a = pair_of found a.
Proof using Hok Hin Hsize Hlast.
  unfold after_piece. destruct (Z.eqb_spec (m_last_address found) (address + size - 1)); [set_solver|].
  intros ->%list_elem_of_singleton.
  destruct (pair_of_part found (address + size) Hok) as [Hp Hr]; [unfold inside in *; lia|].
  pose proof Hok as (H1 & H2 & _). unfold inside, region_ok in *. cbn. split_and!; try done; try lia.
Qed.

Lemma new_ok : region_ok new_piece ∧ ∀ a, pair_of new_piece a = pair_of found a.
Proof using Hok Hin Hsize Hlast.
  destruct (pair_of_part found address Hok Hin) as [Hp Hr]. pose proof Hok as (H1 & H2 & _).
  split; [|intros a; apply Hp]. unfold inside, region_ok in *. cbn. split_and!; lia.
Qed.

Lemma pieces_tiled : tiled pieces.
Proof using Hok Hin Hsize Hlast.
  destruct new_ok as [Hn _]. unfold pieces. apply tiled_app. split_and!.
  - unfold before_piece. pose proof before_in as Hb. unfold before_piece in Hb.
    destruct (m_address found =? address); cbn in *; [done|]. split_and!; [|set_solver|done].
    apply Hb. set_solver.
  - split_and!; [done| |].
    + intros x Hx%after_in. cbn. lia.
    + unfold after_piece. pose proof after_in as Ha. unfold after_piece in Ha.
      destruct (m_last_address found =? _); cbn in *; [done|]. split_and!; [|set_solver|done]. apply Ha. set_solver.
  - intros r x Hr%before_in [->|Hx%after_in]%elem_of_cons; cbn; lia.
Qed.

Lemma pieces_inside x : x ∈ pieces → m_address found ≤ m_address x ∧ m_last_address x ≤ m_last_address found.
Proof using Hok Hin Hsize Hlast.
  unfold pieces, inside in *. intros [Hx%before_in|[->|Hx%after_in]%elem_of_cons]%elem_of_app; cbn; lia.
Qed.

Lemma split_tiled l1 l2 : tiled (l1 ++ found :: l2) → tiled (l1 ++ pieces ++ l2).
Proof using Hok Hin Hsize Hlast.
  rewrite !tiled_app. intros (H1 & (_ & Hf & H2) & H12). pose proof pieces_inside as Hp. split_and!.
  - done.
  - apply pieces_tiled.
  - done.
  - intros r x Hr Hx. specialize (Hp r Hr). specialize (Hf x Hx). lia.
  - intros r x Hr [Hx|Hx]%elem_of_app.
    + specialize (Hp x Hx). specialize (H12 r found Hr ltac:(set_solver)). lia.
    + apply H12; set_solver.
Qed.

(** What every address sees after the split. *)
Lemma split_view l1 l2 a : tiled (l1 ++ found :: l2) →
  view (l1 ++ pieces ++ l2) a =
  if decide (address ≤ a < address + size) then Some (new_attr, type_id, pair_of found a) else view (l1 ++ found :: l2) a.
Proof using Hok Hin Hsize Hlast.
  intros Ht. pose proof (split_tiled l1 l2 Ht) as Ht'. destruct (decide (inside found a)) as [Ha|Ha].
  2:{ rewrite (view_outside l1 l2 found pieces a Ht Ht' pieces_inside Ha). destruct (decide _); [|done].
      unfold inside in *. lia. }
  rewrite (view_found (l1 ++ found :: l2) a found Ht) by (set_solver || done).
  destruct new_ok as [_ Hpn]. destruct (decide (address ≤ a < address + size)) as [Hr|Hr].
  - rewrite (view_found _ a new_piece Ht'); [by rewrite Hpn|unfold pieces; rewrite !elem_of_app, elem_of_cons; auto|unfold inside; cbn; lia].
  - destruct (decide (a < address)) as [Hlt|Hge].
    + assert (∃ x, x ∈ before_piece) as [x Hx].
      { unfold before_piece. destruct (Z.eqb_spec (m_address found) address); [unfold inside in *; lia|]. eexists. by left. }
      destruct (before_in x Hx) as (E1 & E2 & E3 & E4 & E5 & _ & E6).
      rewrite (view_found _ a x Ht'); [by rewrite E4, E5, E6|unfold pieces; rewrite !elem_of_app; auto|unfold inside in *; lia].
    + assert (∃ x, x ∈ after_piece) as [x Hx].
      { unfold after_piece. destruct (Z.eqb_spec (m_last_address found) (address + size - 1)); [unfold inside in *; lia|].
        eexists. by left. }
      destruct (after_in x Hx) as (E1 & E2 & E3 & E4 & E5 & _ & E6).
      rewrite (view_found _ a x Ht'); [by rewrite E4, E5, E6|unfold pieces; rewrite !elem_of_app, elem_of_cons; auto|unfold inside in *; lia].
Qed.
End split.

Lemma AllocateRegion_run r s : (m_num_regions s < MaxMemoryRegions)%nat →
  AllocateRegion r s = Ok (r, mkTree (regions s) (S (m_num_regions s))).
Proof. intros Hn. unfold AllocateRegion. erewrite st_bind_run by reflexivity. by rewrite bool_decide_eq_true_2. Qed.

(** The last address of the inserted range, in 64 bits. *)
Lemma inserted_last address size : 0 ≤ address → 0 < size → address + size ≤ 2 ^ 64 →
  u64 (u64 (address + size) - 1) = address + size - 1.
Proof.
  intros Ha Hs Hfit. destruct (decide (address + size = 2 ^ 64)) as [->|]; [done|].
  rewrite (wrap_small 64 (address + size)) by (unfold in_width; lia). apply wrap_small. unfold in_width. lia.
Qed.

Lemma find_position l1 l2 r a : tiled (l1 ++ r :: l2) → inside r a → FindModifiable (l1 ++ r :: l2) a = Some (length l1).
Proof.
  intros Ht Ha. unfold FindModifiable. induction l1 as [|y l1 IH]; cbn [app tree_find length].
  - destruct Ht as (Hr & _). by rewrite (proj2 (Z.eqb_eq _ _) (proj2 (compare_probe a r Hr) Ha)).
  - destruct Ht as (Hy & Hlt & Ht). specialize (Hlt r ltac:(set_solver)). rewrite IH by done.
    destruct (Z.eqb_spec (Compare (probe a) y) 0) as [He|He]; [|done].
    apply compare_probe in He; [|done]. unfold inside in *. lia.
Qed.

Lemma found_ok l1 l2 r : tiled (l1 ++ r :: l2) → region_ok r.
Proof. intros Ht. eapply tiled_in; [exact Ht|]. set_solver. Qed.

Section insert.
Context (l1 l2 : list KMemoryRegion) (found : KMemoryRegion) (address size type_id new_attr : Z).
Context (Ht : tiled (l1 ++ found :: l2)) (Hin : inside found address) (Hsize : 0 < size)
        (Hlast : address + size - 1 ≤ m_last_address found).

(** Insertion behind a part of the pieces. *)
Lemma insert_piece ps r :
  (∀ x, x ∈ ps → m_address found ≤ m_address x ≤ m_last_address x ∧ m_last_address x < m_address r) →
  m_address found ≤ m_address r ≤ m_last_address found →
  tree_insert r (l1 ++ ps ++ l2) = l1 ++ ps ++ r :: l2.
Proof using Ht Hin Hsize Hlast.
  intros Hps Hr. apply tiled_app in Ht as (H1 & (_ & Hf2 & H2) & H12). rewrite !app_assoc. apply tree_insert_between.
  - intros x [Hx|Hx]%elem_of_app.
    + destruct (tiled_in _ _ H1 Hx) as ([_ ?] & _). specialize (H12 x found Hx ltac:(set_solver)). lia.
    + specialize (Hps x Hx). lia.
  - intros x Hx. specialize (Hf2 x Hx). lia.
Qed.

Lemma reuse_piece : m_address found = address →
  Reset address (address + size - 1) (m_pair_address found) new_attr type_id = new_piece found address size type_id new_attr.
Proof using Ht.
  intros He. destruct (found_ok _ _ _ Ht) as (H1 & H2 & H3). unfold new_piece, Reset. f_equal. rewrite He, Z.sub_diag. change (u64 0) with 0.
  unfold shift_pair. destruct (Z.eqb_spec (m_pair_address found) NoPair) as [|Hp]; [done|]. cbn [negb].
  destruct H3 as [?|H3]; [done|]. rewrite Z.add_0_r, wrap_small; [done|]. unfold in_width, NoPair in *. lia.
Qed.

Lemma insert_new n : (n < MaxMemoryRegions)%nat →
  ∃ m, (if m_address found =? address then
         mod_regions (tree_insert (Reset address (address + size - 1) (m_pair_address found) new_attr type_id))
       else
         _ ← mod_regions (tree_insert (Reset (m_address found) (u64 (address - 1)) (m_pair_address found) (m_attributes found) (m_type_id found)));
         r ← AllocateRegion (mkRegion address (shift_pair (m_pair_address found) (u64 (address - m_address found))) (address + size - 1) new_attr type_id);
         mod_regions (tree_insert r)) (mkTree (l1 ++ l2) n) =
    Ok (tt, mkTree (l1 ++ (before_piece found address ++ [new_piece found address size type_id new_attr]) ++ l2) m) ∧
    (n ≤ m ≤ S n)%nat.
Proof using Ht Hin Hsize Hlast.
  intros Hn. pose proof (found_ok _ _ _ Ht) as (Hr1 & Hr2 & _). pose proof Hin as [Hin1 Hin2]. unfold before_piece.
  destruct (Z.eqb_spec (m_address found) address) as [He|He].
  - exists n. split; [|lia]. rewrite reuse_piece by done. unfold mod_regions, st_mod. cbn [regions m_num_regions app].
    rewrite (insert_piece []); [done|set_solver|cbn; lia].
  - exists (S n). split; [|lia]. rewrite (wrap_small 64 (address - 1)) by (unfold in_width; lia).
    erewrite st_bind_run by reflexivity. cbn [regions m_num_regions]. rewrite (insert_piece []); [|set_solver|cbn; lia].
    erewrite st_bind_run by (by apply AllocateRegion_run). unfold mod_regions, st_mod. cbn [regions m_num_regions app].
    match goal with |- context [tree_insert _ (l1 ++ ?x :: l2)] => change (l1 ++ x :: l2) with (l1 ++ [x] ++ l2) end.
    rewrite (insert_piece [_]); [done| |cbn; lia]. intros x ->%list_elem_of_singleton. cbn. lia.
Qed.

Lemma insert_after n : (n < MaxMemoryRegions)%nat →
  ∃ m, (if negb (m_last_address found =? address + size - 1) then
         r ← AllocateRegion (mkRegion (u64 (address + size)) (shift_pair (m_pair_address found) (u64 (u64 (address + size) - m_address found)))
              (m_last_address found) (m_attributes found) (m_type_id found));
         mod_regions (tree_insert r)
       else mret tt)
      (mkTree (l1 ++ (before_piece found address ++ [new_piece found address size type_id new_attr]) ++ l2) n) =
    Ok (tt, mkTree (l1 ++ pieces found address size type_id new_attr ++ l2) m) ∧ (n ≤ m ≤ S n)%nat.
Proof using Ht Hin Hsize Hlast.
  intros Hn. pose proof (found_ok _ _ _ Ht) as Hok. pose proof Hok as (Hr1 & Hr2 & _). pose proof Hin as [Hin1 Hin2].
  unfold pieces, after_piece. destruct (Z.eqb_spec (m_last_address found) (address + size - 1)) as [He|He]; cbn [negb].
  - exists n. split; [done|lia].
  - exists (S n). split; [|lia]. rewrite (wrap_small 64 (address + size)) by (unfold in_width; lia).
    erewrite st_bind_run by (by apply AllocateRegion_run). unfold mod_regions, st_mod. cbn [regions m_num_regions].
    rewrite insert_piece; [by rewrite <- !app_assoc| |cbn; lia].
    intros x [Hx| ->%list_elem_of_singleton]%elem_of_app; [|cbn; lia].
    apply (before_in found address size Hok Hin Hsize Hlast) in Hx as (E1 & E2 & E3 & _). cbn. lia.
Qed.
End insert.

(** A split that the checks let through. *)
Lemma Insert_run s l1 l2 found address size type_id new_attr :
  regions s = l1 ++ found :: l2 → tiled (regions s) → inside found address → 0 < size →
  address + size - 1 ≤ m_last_address found → CanDerive found type_id = true →
  (m_num_regions s + 2 ≤ MaxMemoryRegions)%nat →
  ∃ n, Insert address size type_id new_attr (m_attributes found) s =
    Ok (true, mkTree (l1 ++ pieces found address size type_id new_attr ++ l2) n) ∧
    (m_num_regions s ≤ n ≤ m_num_regions s + 2)%nat.
Proof.
  intros Hs Ht Hin Hsize Hlast Hder Hnum. rewrite Hs in Ht.
  pose proof (found_ok l1 l2 found Ht) as (Hr1 & Hr2 & _). pose proof Hin as [Hin1 Hin2].
  unfold Insert. erewrite st_bind_run by reflexivity. rewrite Hs, find_position by done.
  erewrite st_bind_run by reflexivity. rewrite list_lookup_middle by done. erewrite st_bind_run by reflexivity.
  rewrite Z.eqb_refl. cbn [negb]. rewrite inserted_last by lia. rewrite (proj2 (Z.ltb_ge _ _)) by lia. rewrite Hder. cbn [negb].
  erewrite st_bind_run by reflexivity. rewrite Hs, delete_middle.
  destruct (insert_new l1 l2 found address size type_id new_attr Ht Hin Hsize Hlast (m_num_regions s)) as (n & Hrun & Hn); [lia|].
  erewrite st_bind_run by exact Hrun.
  destruct (insert_after l1 l2 found address size type_id new_attr Ht Hin Hsize Hlast n) as (m & Hrun2 & Hm); [lia|].
  erewrite st_bind_run by exact Hrun2. exists m. split; [done|lia].
Qed.

(** (C28) [Insert] of a range that starts in the tree never faults while regions are
    left.  It refuses, and changes nothing, exactly when the region of the first
    address has another attribute, ends before the range does or cannot take the
    type; otherwise every address of the range has the new attribute and type, all
    other addresses look as before, no paired address changes, and the regions
    are still disjoint and in order. *)
Theorem region_Insert_exact s address size type_id new_attr old_attr found :
  tiled (regions s) → Find (regions s) address = Some found → 0 < size → address + size ≤ 2 ^ 64 →
  (m_num_regions s + 2 ≤ MaxMemoryRegions)%nat →
  ∃ b s', Insert address size type_id new_attr old_attr s = Ok (b, s') ∧ tiled (regions s') ∧
    (m_num_regions s ≤ m_num_regions s' ≤ m_num_regions s + 2)%nat ∧
    (b = true ↔ m_attributes found = old_attr ∧ address + size - 1 ≤ m_last_address found ∧ CanDerive found type_id = true) ∧
    (b = false → s' = s) ∧
    (b = true → ∀ a, view (regions s') a =
       if decide (address ≤ a < address + size) then Some (new_attr, type_id, pair_of found a) else view (regions s) a).
Proof.
  intros Ht Hfind Hsize Hfit Hnum. pose proof (proj1 (Find_spec _ _ _ Ht) Hfind) as [Hmem Hin].
  apply list_elem_of_split in Hmem as (l1 & l2 & Hs). pose proof Ht as Ht'. rewrite Hs in Ht'.
  pose proof (found_ok l1 l2 found Ht') as Hok. pose proof Hok as (Hr1 & Hr2 & _).
  destruct (decide (m_attributes found = old_attr ∧ address + size - 1 ≤ m_last_address found ∧ CanDerive found type_id = true))
    as [(<- & Hlast & Hder)|Hno].
  - destruct (Insert_run s l1 l2 found address size type_id new_attr) as (n & Hrun & Hn); try done.
    exists true, (mkTree (l1 ++ pieces found address size type_id new_attr ++ l2) n). split_and!; try done; try (cbn; lia).
    + by apply split_tiled.
    + intros _ a. rewrite Hs. by apply split_view.
  - exists false, s. split_and!; try done; try lia. unfold Insert. erewrite st_bind_run by reflexivity.
    rewrite Hs, find_position by done. erewrite st_bind_run by reflexivity. rewrite list_lookup_middle by done.
    erewrite st_bind_run by reflexivity. rewrite inserted_last by (unfold inside in *; lia).
    destruct (Z.eqb_spec (m_attributes found) old_attr) as [He|He]; [|done]. cbn [negb].
    destruct (Z.ltb_spec (m_last_address found) (address + size - 1)); [done|].
    destruct (CanDerive found type_id); [|done]. by destruct Hno.
Qed.

(** ** Checking the type of a range *)
Lemma typed_walk_sound l last type r : tiled l → typed_walk l last type = Some r →
  last ≤ m_last_address r ∧ r ∈ l ∧ ∀ x, x ∈ l → m_address x ≤ last → IsDerivedFrom x type = true.
Proof.
  induction l as [|cur l IH]; cbn; [done|]. intros (Hc & Hlt & Hl). destruct (IsDerivedFrom cur type) eqn:Hd; [|done].
  destruct (Z.leb_spec last (m_last_address cur)) as [Hle|Hgt].
  - intros [= <-]. split_and!; [done|set_solver|]. intros x [->|Hx]%elem_of_cons Ha; [done|]. specialize (Hlt x Hx). lia.
  - intros Hw. destruct (IH Hl Hw) as (H1 & H2 & H3). split_and!; [done|set_solver|].
    intros x [->|Hx]%elem_of_cons Ha; [done|]. by apply H3.
Qed.

Lemma position_unique l a i r : tiled l → l !! i = Some r → inside r a → FindModifiable l a = Some i.
Proof.
  intros Ht Hi Ha. pose proof (lookup_lt_Some _ _ _ Hi). apply take_drop_middle in Hi. rewrite <- Hi in Ht |- *.
  rewrite (find_position _ _ r a Ht Ha). f_equal. rewrite length_take. lia.
Qed.

(** A range that passes [IsTypedAddress] has the type at each of its addresses
    that is in the tree, and the hint of the caller makes no difference. *)
Theorem typed_range_sound l hint address size type :
  tiled l → 0 ≤ address → 0 < size → address + size ≤ 2 ^ 64 →
  (∀ h, hint = Some h → ∃ r, l !! h = Some r ∧ m_last_address r + 1 < 2 ^ 64) →
  ∃ o, IsTypedRange l hint address size type = Ok o ∧ IsTypedRange l None address size type = Ok o ∧
    ∀ r, o = Some r → Find l address ≠ None ∧
      ∀ a x, address ≤ a < address + size → Find l a = Some x → IsDerivedFrom x type = true.
Proof.
  intros Ht Ha Hs Hfit Hhint. unfold IsTypedRange. rewrite inserted_last by done.
  assert (Hstart : start_position l hint address = Ok (FindModifiable l address)).
  { destruct hint as [h|]; [|done]. destruct (Hhint h eq_refl) as (r & Hr & Hend). cbn. rewrite Hr. cbn.
    destruct (tiled_in l r Ht) as (Hr1 & Hr2 & _); [by eapply list_elem_of_lookup_2|].
    unfold Contains, GetEndAddress. rewrite wrap_small by (unfold in_width; lia).
    rewrite (proj2 (Z.eqb_neq _ 0)) by lia. cbn. destruct (Z.leb_spec (m_address r) address); [|done].
    destruct (Z.leb_spec address (m_last_address r)); [|done]. cbn. f_equal. symmetry.
    by eapply position_unique; [done|done|]. }
  rewrite Hstart. cbn. eexists. split_and!; [done|done|]. pose proof (tree_find_spec l address Ht) as Hf.
  unfold FindModifiable in *. destruct (tree_find (probe address) l) as [i|]; [|done].
  destruct Hf as (y & Hi & Hy). intros r Hw. pose proof Ht as Hcut. rewrite <- (take_drop i l) in Hcut.
  apply tiled_app in Hcut as (_ & Hdrop & Hsep). apply typed_walk_sound in Hw as (_ & _ & Hall); [|done]. split.
  - intros Hn. rewrite Find_None in Hn by done. apply (Hn y); [|done]. by eapply list_elem_of_lookup_2.
  - intros b x Hb [Hx Hin]%Find_spec; [|done]. rewrite <- (take_drop i l) in Hx. apply elem_of_app in Hx as [Hx|Hx].
    + assert (Hyd : y ∈ drop i l) by (rewrite (drop_S l y i Hi); set_solver).
      specialize (Hsep x y Hx Hyd). unfold inside in *. lia.
    + apply Hall; [done|]. unfold inside in *. lia.
Qed.

Module SampleTree.
(** One region of a megabyte with paired addresses, and a gap before it. *)
Definition r0 : KMemoryRegion := mkRegion 0x100000 0x80000000 0x1FFFFF 0 1.
Definition t0 : rtree := mkTree [r0] 1.
Lemma t0_tiled : tiled (regions t0).
Proof. cbn. unfold region_ok, NoPair. cbn. split_and!; [lia..|right; lia|set_solver|done]. Qed.
End SampleTree.

Lemma region_Insert_exact_witness :
  ∃ b s', Insert 0x120000 0x1000 3 7 0 SampleTree.t0 = Ok (b, s') ∧ tiled (regions s') ∧
    (1 ≤ m_num_regions s' ≤ 3)%nat ∧
    (b = true ↔ m_attributes SampleTree.r0 = 0 ∧ 0x120FFF ≤ m_last_address SampleTree.r0 ∧ CanDerive SampleTree.r0 3 = true) ∧
    (b = false → s' = SampleTree.t0) ∧
    (b = true → ∀ a, view (regions s') a =
       if decide (0x120000 ≤ a < 0x121000) then Some (7, 3, pair_of SampleTree.r0 a) else view (regions SampleTree.t0) a).
Proof.
  apply (region_Insert_exact SampleTree.t0 0x120000 0x1000 3 7 0 SampleTree.r0);
    [apply SampleTree.t0_tiled|reflexivity|lia|lia|cbn; unfold MaxMemoryRegions; lia].
Defined.

Lemma typed_range_sound_witness :
  ∃ o, IsTypedRange (regions SampleTree.t0) (Some 0%nat) 0x120000 0x1000 1 = Ok o ∧
    IsTypedRange (regions SampleTree.t0) None 0x120000 0x1000 1 = Ok o ∧
    ∀ r, o = Some r → Find (regions SampleTree.t0) 0x120000 ≠ None ∧
      ∀ a x, 0x120000 ≤ a < 0x121000 → Find (regions SampleTree.t0) a = Some x → IsDerivedFrom x 1 = true.
Proof.
  apply (typed_range_sound (regions SampleTree.t0) (Some 0%nat) 0x120000 0x1000 1);
    [apply SampleTree.t0_tiled|lia|lia|lia|]. intros h [= <-]. exists SampleTree.r0. split; [reflexivity|cbn; lia].
Defined.
