(* ===== verification/PageGroup.v ===== *)
(** * Page groups of the kernel

    [KBlockInfo] and [KPageGroup] (libmesosphere, [kern_k_page_group.hpp] and
    [.cpp]): a list of runs of physical pages, to which runs are appended and
    joined with the last one where they touch.  The list nodes come from a
    [KDynamicSlabHeap], of which the objects in reserve and the pages it can still
    take are kept; which object a node gets is immaterial. *)

From S2P Require Import Prelude Vapours PageHeap.

(** ** The slab of block infos *)
Module DynamicSlab.
Record t := mk {
  free_objects : nat;
  pages_left : nat;
  objects_per_page : nat;
  m_used : Z;
  m_peak : Z;
  m_count : Z;
}.
Definition take_object (s : t) : option t :=
  match free_objects s with
  | S n => Some (mk n (pages_left s) (objects_per_page s) (m_used s) (m_peak s) (m_count s))
  | O =>
      match pages_left s with
      | S p => Some (mk (objects_per_page s - 1) p (objects_per_page s) (m_used s) (m_peak s)
                      (u64 (m_count s + Z.of_nat (objects_per_page s))))
      | O => None
      end
  end.
Definition Allocate (s : t) : option t :=
  s1 ← take_object s;
  let used := u64 (m_used s1 + 1) in
  Some (mk (free_objects s1) (pages_left s1) (objects_per_page s1) used (Z.max (m_peak s1) used) (m_count s1)).
Definition Free (s : t) : t :=
  mk (S (free_objects s)) (pages_left s) (objects_per_page s) (u64 (m_used s - 1)) (m_peak s) (m_count s).
End DynamicSlab.

(** Results of system calls; [ResultSuccess] is the first. *)
Inductive Result : Set := ResultSuccess | ResultOutOfMemory | ResultOutOfResource | ResultBusy.
#[export] Instance Result_eq_dec : EqDecision Result.
Proof. solve_decision. Defined.

Module PageGroup.
Record KBlockInfo := mkInfo { m_page_index : Z; m_num_pages : Z }.
#[export] Instance KBlockInfo_eq_dec : EqDecision KBlockInfo.
Proof. solve_decision. Defined.

Definition GetAddress (b : KBlockInfo) : Z := u64 (m_page_index b * PageSize).
Definition GetNumPages (b : KBlockInfo) : Z := m_num_pages b.
Definition GetSize (b : KBlockInfo) : Z := u64 (GetNumPages b * PageSize).
Definition GetEndAddress (b : KBlockInfo) : Z := u64 (u32 (m_page_index b + m_num_pages b) * PageSize).
Definition IsStrictlyBefore (b : KBlockInfo) (addr : Z) : bool :=
  let end_ := GetEndAddress b in
  if negb (m_page_index b =? 0) && (end_ =? NullAddress) then false else end_ <? addr.
Definition IsEquivalentTo (b rhs : KBlockInfo) : bool :=
  (m_page_index b =? m_page_index rhs) && (m_num_pages b =? m_num_pages rhs).
Definition TryConcatenate (addr np : Z) (b : KBlockInfo) : option KBlockInfo :=
  if negb (addr =? NullAddress) && (addr =? GetEndAddress b)
  then Some (mkInfo (m_page_index b) (u32 (m_num_pages b + np))) else None.

(** A group: its blocks in list order, and the slab of the nodes. *)
Record group := mkGroup { blocks : list KBlockInfo; slab : DynamicSlab.t }.
Abbreviation groupM := (stM group).

Section group.
Context (assertions : bool).
Definition GASSERT (b : bool) : groupM unit := if assertions then st_check b Aborted else mret tt.

Definition Info_Initialize (addr np : Z) : groupM KBlockInfo :=
  _ ← GASSERT (Util.IsAligned addr PageSize);
  _ ← GASSERT (u32 np =? np);
  mret (mkInfo (u32 (addr / PageSize)) (u32 np)).

Definition AddBlock (addr num_pages : Z) : groupM Result :=
  if num_pages =? 0 then mret ResultSuccess else
  _ ← GASSERT (addr <? u64 (addr + u64 (num_pages * PageSize)));
  g ← st_get;
  match m_last ← last (blocks g); TryConcatenate addr num_pages m_last with
  | Some b => _ ← st_mod (λ g, mkGroup (removelast (blocks g) ++ [b]) (slab g)); mret ResultSuccess
  | None =>
      match DynamicSlab.Allocate (slab g) with
      | None => mret ResultOutOfResource
      | Some sl =>
          _ ← st_mod (λ g, mkGroup (blocks g) sl);
          b ← Info_Initialize addr num_pages;
          _ ← st_mod (λ g, mkGroup (blocks g ++ [b]) (slab g));
          mret ResultSuccess
      end
  end.

(** [Finalize] gives the nodes back and leaves the pages alone. *)
Definition Finalize : groupM unit :=
  st_mod (λ g, mkGroup [] (foldl (λ s _, DynamicSlab.Free s) (slab g) (blocks g))).
End group.

Definition Group_GetNumPages (g : group) : Z := foldl (λ n b, u64 (n + GetNumPages b)) 0 (blocks g).

Fixpoint equivalent_blocks (l r : list KBlockInfo) : bool :=
  match l, r with
  | [], [] => true
  | b :: l', c :: r' => if IsEquivalentTo b c then equivalent_blocks l' r' else false
  | _, _ => false
  end.
Definition Group_IsEquivalentTo (g rhs : group) : bool := equivalent_blocks (blocks g) (blocks rhs).
End PageGroup.
