(* ===== verification/PageGroupSpec.v ===== *)
(** * Page groups as lists of pages

    A group denotes the list of its pages.  [AddBlock] appends pages to it,
    whether it joins the last block or starts a new one. *)

From S2P Require Import Prelude Vapours PageHeap PageHeapSpec PageGroup.
Import PageGroup.
Implicit Types (b : KBlockInfo) (bl : list KBlockInfo) (g : group) (a n : nat).

Definition block_pages b : list nat := seq (Z.to_nat (m_page_index b)) (Z.to_nat (m_num_pages b)).
Definition group_pages bl : list nat := concat (map block_pages bl).

(** Page numbers are positive and fit 32 bits. *)
Definition info_ok b : Prop := 0 < m_page_index b ∧ 0 < m_num_pages b ∧ m_page_index b + m_num_pages b < 2 ^ 32.

Lemma group_pages_app bl bl' : group_pages (bl ++ bl') = group_pages bl ++ group_pages bl'.
Proof. unfold group_pages. by rewrite map_app, concat_app. Qed.
Lemma group_pages_one b : group_pages [b] = block_pages b.
Proof. unfold group_pages. cbn. apply app_nil_r. Qed.

(** The addresses of a block. *)
Lemma info_addresses b : info_ok b →
  GetAddress b = addr_of (Z.to_nat (m_page_index b)) ∧ GetNumPages b = Z.of_nat (Z.to_nat (m_num_pages b)) ∧
  GetEndAddress b = addr_of (Z.to_nat (m_page_index b) + Z.to_nat (m_num_pages b)).
Proof.
  intros (H1 & H2 & H3). unfold GetAddress, GetNumPages, GetEndAddress, addr_of, PageSize.
  rewrite (wrap_small 32) by (unfold in_width; lia). rewrite !wrap_small by (unfold in_width; lia). split_and!; lia.
Qed.

(** What [AddBlock] makes of the blocks. *)
Inductive added bl a n : list KBlockInfo → Prop :=
  | added_new : added bl a n (bl ++ [mkInfo (Z.of_nat a) (Z.of_nat n)])
  | added_joined bl0 b : bl = bl0 ++ [b] → a = (Z.to_nat (m_page_index b) + Z.to_nat (m_num_pages b))%nat →
      added bl a n (bl0 ++ [mkInfo (m_page_index b) (m_num_pages b + Z.of_nat n)]).

Lemma added_pages bl a n bl' : Forall info_ok bl → (0 < a)%nat → (0 < n)%nat → Z.of_nat (a + n) < 2 ^ 32 → added bl a n bl' →
  group_pages bl' = group_pages bl ++ seq a n ∧ Forall info_ok bl'.
Proof.
  intros Hok Ha Hn Hfit [|bl0 b -> ->].
  - rewrite group_pages_app, group_pages_one. unfold block_pages. cbn. rewrite !Nat2Z.id. split; [done|].
    apply Forall_app. split; [done|]. constructor; [|done]. unfold info_ok. cbn. lia.
  - apply Forall_app in Hok as [Hok0 Hb]. apply Forall_cons in Hb as [(H1 & H2 & H3) _].
    rewrite !group_pages_app, !group_pages_one, <- app_assoc. unfold block_pages. cbn [m_page_index m_num_pages].
    replace (Z.to_nat (m_num_pages b + Z.of_nat n)) with (Z.to_nat (m_num_pages b) + n)%nat by lia. rewrite seq_app. split; [done|].
    apply Forall_app. split; [done|]. constructor; [|done]. unfold info_ok. cbn. lia.
Qed.

Lemma AddBlock_run assertions g a n : Forall info_ok (blocks g) → (0 < a)%nat → (0 < n)%nat → Z.of_nat (a + n) < 2 ^ 32 →
  ∃ r g', AddBlock assertions (addr_of a) (Z.of_nat n) g = Ok (r, g') ∧
    ((r = ResultOutOfResource ∧ g' = g) ∨ (r = ResultSuccess ∧ added (blocks g) a n (blocks g'))).
Proof.
  intros Hok Ha Hn Hfit. unfold AddBlock. rewrite (proj2 (Z.eqb_neq _ 0)) by lia.
  assert (Hassert : ∀ (c : bool) g, c = true → GASSERT assertions c g = Ok (tt, g)) by (intros ? ? ->; by destruct assertions).
  erewrite st_bind_run.
  2:{ apply Hassert, Z.ltb_lt. unfold addr_of, PageSize. rewrite (wrap_small 64 (Z.of_nat n * 4096)) by (unfold in_width; lia).
      rewrite wrap_small by (unfold in_width; lia). lia. }
  erewrite st_bind_run by reflexivity.
  destruct (last (blocks g) ≫= λ b, TryConcatenate (addr_of a) (Z.of_nat n) b) as [b'|] eqn:Hlast.
  - destruct (last (blocks g)) as [b|] eqn:Hl; [|done]. apply last_Some in Hl as [bl0 Hbl]. cbn in Hlast.
    rewrite Hbl in Hok. apply Forall_app in Hok as [_ Hb]. apply Forall_cons in Hb as [Hb _]. pose proof Hb as (H1 & H2 & H3).
    destruct (info_addresses b Hb) as (_ & _ & He). unfold TryConcatenate in Hlast. rewrite He in Hlast.
    destruct (Z.eqb_spec (addr_of a) (addr_of (Z.to_nat (m_page_index b) + Z.to_nat (m_num_pages b)))) as [Hj|]; [|by rewrite andb_false_r in Hlast].
    rewrite (proj2 (Z.eqb_neq _ _)) in Hlast by (unfold addr_of, NullAddress; lia). cbn in Hlast. injection Hlast as <-.
    eexists _, _. split; [erewrite st_bind_run by reflexivity; reflexivity|]. right. split; [done|]. cbn.
    rewrite Hbl, removelast_last. rewrite wrap_small by (unfold in_width; unfold addr_of in Hj; lia).
    apply (added_joined _ _ _ bl0 b); [done|]. unfold addr_of in Hj. lia.
  - destruct (DynamicSlab.Allocate (slab g)) as [sl|]; [|eexists _, _; split; [reflexivity|by left]].
    erewrite st_bind_run by reflexivity. unfold Info_Initialize.
    assert (Hidx : u32 (addr_of a / PageSize) = Z.of_nat a).
    { unfold addr_of, PageSize. rewrite Z.mul_comm, Z.div_mul by lia. apply wrap_small. unfold in_width. lia. }
    assert (Hnum : u32 (Z.of_nat n) = Z.of_nat n) by (apply wrap_small; unfold in_width; lia).
    erewrite st_bind_run.
    2:{ erewrite st_bind_run; [erewrite st_bind_run; [reflexivity|]|].
        - apply Hassert. by rewrite Hnum, Z.eqb_refl.
        - apply Hassert. change PageSize with (2 ^ 12). rewrite Util.IsAligned_pow2 by lia. unfold addr_of.
          change (2 ^ 12) with 4096. by rewrite Z.mul_comm, Z.mod_mul. }
    rewrite Hidx, Hnum. eexists _, _. split; [erewrite st_bind_run by reflexivity; reflexivity|]. right. split; [done|]. cbn. constructor.
Qed.
