(* ===== verification/MemoryManager.v ===== *)
(** * The memory manager of the kernel

    [KMemoryManager] (libmesosphere, [kern_k_memory_manager.hpp] and [.cpp]): one
    page heap with a reference count per page and a map of optimised pages for
    each region of user memory, the managers of a pool linked in both
    directions.  The management memory of a manager is kept as the three slices
    that [Impl::Initialize] cuts it into: the optimise map, the reference counts
    and the words of the page heap.  Filling of pages is recorded in the order it
    happens.  The pool locks are not part of the model: each operation is the
    sequence of steps of one caller. *)

From S2P Require Import Prelude Vapours TinyMT PageBitmap PageHeap MemoryRegion PageGroup.

Definition Pool_Count : nat := 4.
Definition MaxManagerCount : nat := 10.
Definition BITS : Z := 64.

(** ** One manager *)
Record Impl := mkImpl {
  m_heap : hstate;
  m_page_reference_counts : list Z;
  m_optimize_map : list Z;
  m_management_region : Z;
  m_pool : nat;
  m_next : option nat;
  m_prev : option nat;
}.
Abbreviation implM := (stM Impl).
Definition set_impl_heap (h : hstate) (m : Impl) : Impl :=
  mkImpl h (m_page_reference_counts m) (m_optimize_map m) (m_management_region m) (m_pool m) (m_next m) (m_prev m).
Definition set_counts (c : list Z) (m : Impl) : Impl :=
  mkImpl (m_heap m) c (m_optimize_map m) (m_management_region m) (m_pool m) (m_next m) (m_prev m).
Definition set_map (o : list Z) (m : Impl) : Impl :=
  mkImpl (m_heap m) (m_page_reference_counts m) o (m_management_region m) (m_pool m) (m_next m) (m_prev m).
Definition SetNext (n : option nat) (m : Impl) : Impl :=
  mkImpl (m_heap m) (m_page_reference_counts m) (m_optimize_map m) (m_management_region m) (m_pool m) n (m_prev m).
Definition SetPrev (n : option nat) (m : Impl) : Impl :=
  mkImpl (m_heap m) (m_page_reference_counts m) (m_optimize_map m) (m_management_region m) (m_pool m) (m_next m) n.
Definition on_heap {A} (f : heapM A) : implM A :=
  m ← st_get; '(r, h) ← st_lift (f (m_heap m)); _ ← st_mod (set_impl_heap h); mret r.
Definition impl_heap (m : Impl) : KPageHeap := heap (m_heap m).

Definition CalculateOptimizedProcessOverheadSize (region_size : Z) : Z :=
  u64 (Util.AlignUp (region_size / PageSize) BITS / BITS * 8).

Section impl.
Context (assertions : bool).

Definition Impl_AllocateBlock (index : Z) (random : bool) : implM Z :=
  _ ← st_check (0 <=? index) OutOfBounds; on_heap (AllocateBlock assertions (Z.to_nat index) random).
Definition Impl_AllocateAligned (index num_pages align_pages : Z) : implM Z :=
  _ ← st_check (0 <=? index) OutOfBounds; on_heap (AllocateAligned assertions (Z.to_nat index) num_pages align_pages).
Definition Impl_Free (addr num_pages : Z) : implM unit := on_heap (Heap_Free assertions addr num_pages).
Definition SetInitialUsedHeapSize (reserved_size : Z) : implM unit := on_heap (SetInitialUsedSize reserved_size).
Definition Impl_InitializeOptimizedMemory : implM unit := st_mod (λ m, set_map (replicate (length (m_optimize_map m)) 0) m).
Definition Impl_GetPageOffset (m : Impl) (address : Z) : Z := GetPageOffset (impl_heap m) address.
Definition Impl_GetPageOffsetToEnd (m : Impl) (address : Z) : Z := GetPageOffsetToEnd (impl_heap m) address.

(** *** Reference counts *)
Definition read_count (index : Z) : implM Z :=
  m ← st_get; st_lift (of_option OutOfBounds (m_page_reference_counts m !! Z.to_nat index)).
Definition write_count (index v : Z) : implM unit :=
  st_mod (λ m, set_counts (<[Z.to_nat index := v]> (m_page_reference_counts m)) m).

(** [while (index < end)]: the rounds from [index] to [end = index + num_pages]. *)
Definition rounds (index num_pages : Z) : nat := Z.to_nat (u64 (index + num_pages) - index).
Fixpoint open_first_loop (n : nat) (index : Z) : implM unit :=
  match n with
  | O => mret tt
  | S n' =>
      c ← read_count index;
      let ref_count := wrap 16 (c + 1) in
      _ ← write_count index ref_count;
      _ ← st_check (ref_count =? 1) Aborted;
      open_first_loop n' (index + 1)
  end.
Definition Impl_OpenFirst (address num_pages : Z) : implM unit :=
  m ← st_get;
  let index := Impl_GetPageOffset m address in open_first_loop (rounds index num_pages) index.

Fixpoint open_loop (n : nat) (index : Z) : implM unit :=
  match n with
  | O => mret tt
  | S n' =>
      c ← read_count index;
      let ref_count := wrap 16 (c + 1) in
      _ ← write_count index ref_count;
      _ ← st_check (1 <? ref_count) Aborted;
      open_loop n' (index + 1)
  end.
Definition Impl_Open (address num_pages : Z) : implM unit :=
  m ← st_get;
  let index := Impl_GetPageOffset m address in open_loop (rounds index num_pages) index.

(** Runs of pages whose count drops to zero are freed together. *)
Definition free_run (free_start free_count : Z) : implM unit :=
  m ← st_get;
  if 0 <? free_count
  then Impl_Free (u64 (m_heap_address (impl_heap m) + u64 (free_start * PageSize))) free_count
  else mret tt.
Fixpoint close_loop (n : nat) (index free_start free_count : Z) : implM unit :=
  match n with
  | O => free_run free_start free_count
  | S n' =>
      c ← read_count index;
      _ ← st_check (0 <? c) Aborted;
      let ref_count := wrap 16 (c - 1) in
      _ ← write_count index ref_count;
      if ref_count =? 0 then
        (if 0 <? free_count then close_loop n' (index + 1) free_start (free_count + 1)
         else close_loop n' (index + 1) index 1)
      else
        (if 0 <? free_count then _ ← free_run free_start free_count; close_loop n' (index + 1) free_start 0
         else close_loop n' (index + 1) free_start free_count)
  end.
Definition Impl_Close (address num_pages : Z) : implM unit :=
  m ← st_get;
  let index := Impl_GetPageOffset m address in close_loop (rounds index num_pages) index 0 0.

(** *** The optimise map *)
Definition read_map (i : Z) : implM Z :=
  m ← st_get; st_lift (of_option OutOfBounds (m_optimize_map m !! Z.to_nat i)).
Definition write_map (i v : Z) : implM unit :=
  st_mod (λ m, set_map (<[Z.to_nat i := v]> (m_optimize_map m)) m).

(** [while (offset <= last)]: one round per page. *)
Fixpoint track_loop (optimized : bool) (fuel : nat) (offset last : Z) : implM unit :=
  if offset <=? last then
    match fuel with
    | O => st_throw OutOfFuel
    | S fuel' =>
        v ← read_map (offset / BITS);
        let bit := Z.shiftl 1 (offset mod BITS) in
        _ ← write_map (offset / BITS) (if optimized then Z.lor v bit else Z.land v (u64 (Z.lnot bit)));
        track_loop optimized fuel' (u64 (offset + 1)) last
    end
  else mret tt.
Definition track (optimized : bool) (block num_pages : Z) : implM unit :=
  m ← st_get;
  let offset := Impl_GetPageOffset m block in
  track_loop optimized (Z.to_nat num_pages) offset (u64 (u64 (offset + num_pages) - 1)).
Definition TrackUnoptimizedAllocation (block num_pages : Z) : implM unit := track false block num_pages.
Definition TrackOptimizedAllocation (block num_pages : Z) : implM unit := track true block num_pages.

(** A fill: address, pattern and size. *)
Definition fill : Set := Z * Z * Z.
Fixpoint process_loop (fuel : nat) (offset last fill_pattern : Z) (any_new : bool) (fills : list fill)
    : implM (bool * list fill) :=
  if offset <=? last then
    match fuel with
    | O => st_throw OutOfFuel
    | S fuel' =>
        v ← read_map (offset / BITS);
        m ← st_get;
        if Z.land v (Z.shiftl 1 (offset mod BITS)) =? 0
        then process_loop fuel' (u64 (offset + 1)) last fill_pattern true
               (fills ++ [(u64 (m_heap_address (impl_heap m) + u64 (offset * PageSize)), fill_pattern, PageSize)])
        else process_loop fuel' (u64 (offset + 1)) last fill_pattern any_new fills
    end
  else mret (any_new, fills).
Definition ProcessOptimizedAllocation (block num_pages fill_pattern : Z) : implM (bool * list fill) :=
  m ← st_get;
  let offset := Impl_GetPageOffset m block in
  process_loop (Z.to_nat num_pages) offset (u64 (u64 (offset + num_pages) - 1)) fill_pattern false [].

(** *** Initialisation *)
Definition Impl_CalculateManagementOverheadSize (region_size : Z) : res Z :=
  let ref_count_size := u64 (region_size / PageSize * 2) in
  let optimize_map_size := u64 (Util.AlignUp (region_size / PageSize) BITS / BITS * 8) in
  let manager_meta_size := Util.AlignUp (u64 (optimize_map_size + ref_count_size)) PageSize in
  page_heap_size ← Heap_CalculateManagementOverheadSize region_size MemoryBlockPageShifts;
  Ok (u64 (manager_meta_size + page_heap_size)).

(** The slices are zero, as the region is cleared before. *)
Definition Impl_Initialize (address size management management_end : Z) (p : nat) : implM Z :=
  let ref_count_size := u64 (size / PageSize * 2) in
  let optimize_map_size := CalculateOptimizedProcessOverheadSize size in
  let manager_size := Util.AlignUp (u64 (optimize_map_size + ref_count_size)) PageSize in
  page_heap_size ← st_lift (Heap_CalculateManagementOverheadSize size MemoryBlockPageShifts);
  let total_management_size := u64 (manager_size + page_heap_size) in
  _ ← st_check (manager_size <=? total_management_size) Aborted;
  _ ← st_check (u64 (management + total_management_size) <=? management_end) Aborted;
  _ ← st_check (Util.IsAligned total_management_size PageSize) Aborted;
  _ ← st_mod (λ m, mkImpl (mkH (heap (m_heap m)) (replicate (Z.to_nat (page_heap_size / 8)) 0))
                     (replicate (Z.to_nat (ref_count_size / 2)) 0)
                     (replicate (Z.to_nat (optimize_map_size / 8)) 0)
                     management p (m_next m) (m_prev m));
  _ ← st_check (Util.IsAligned management PageSize) Aborted;
  _ ← on_heap (Heap_Initialize assertions address size 0 (page_heap_size / 8) MemoryBlockPageShifts);
  mret total_management_size.
End impl.

(** ** All managers *)
Record KMemoryManager := mkManager {
  m_pool_managers_head : list (option nat);
  m_pool_managers_tail : list (option nat);
  m_managers : list Impl;
  m_num_managers : nat;
  m_optimized_process_ids : list Z;
  m_has_optimized_process : list bool;
}.
(** The manager, the page group that an operation works on, and the fills. *)
Record mmstate := mkMM { mm : KMemoryManager; out : PageGroup.group; filled : list fill }.
Abbreviation mmM := (stM mmstate).

Definition mod_mm (f : KMemoryManager → KMemoryManager) : mmM unit := st_mod (λ s, mkMM (f (mm s)) (out s) (filled s)).
Definition set_managers (l : list Impl) (k : KMemoryManager) : KMemoryManager :=
  mkManager (m_pool_managers_head k) (m_pool_managers_tail k) l (m_num_managers k)
    (m_optimized_process_ids k) (m_has_optimized_process k).
Definition get_manager (i : nat) : mmM Impl :=
  s ← st_get; st_lift (of_option OutOfBounds (m_managers (mm s) !! i)).
Definition on_manager {A} (i : nat) (f : implM A) : mmM A :=
  m ← get_manager i;
  '(r, m') ← st_lift (f m);
  _ ← mod_mm (λ k, set_managers (<[i := m']> (m_managers k)) k);
  mret r.
Definition on_group {A} (f : stM PageGroup.group A) : mmM A :=
  s ← st_get;
  '(r, g) ← st_lift (f (out s));
  _ ← st_mod (λ s, mkMM (mm s) g (filled s));
  mret r.

(** *** Options *)
Definition EncodeOption (pool dir : Z) : Z := Z.lor (Z.shiftl pool 4) (Z.shiftl dir 0).
Definition GetPool_option (option : Z) : Z := Z.shiftr (Z.land option 0xF0) 4.
Definition GetDirection (option : Z) : Z := Z.shiftr (Z.land option 0xF) 0.
Definition Direction_FromFront : Z := 0.
Definition Direction_FromBack : Z := 1.

Definition GetFirstManager (pool : nat) (dir : Z) : mmM (option nat) :=
  s ← st_get;
  st_lift (of_option OutOfBounds
    (if dir =? Direction_FromBack then m_pool_managers_tail (mm s) !! pool else m_pool_managers_head (mm s) !! pool)).
Definition GetNextManager (cur : nat) (dir : Z) : mmM (option nat) :=
  m ← get_manager cur;
  mret (if dir =? Direction_FromBack then m_prev m else m_next m).

Definition has_optimized (pool : nat) : mmM bool :=
  s ← st_get; st_lift (of_option OutOfBounds (m_has_optimized_process (mm s) !! pool)).

Section manager.
(** [linear]: the physical linear region tree, complete after start-up. *)
Context (assertions : bool) (linear : list Region.KMemoryRegion).
Definition MASSERT (b : bool) : mmM unit := if assertions then st_check b Aborted else mret tt.

Definition GetManager (address : Z) : mmM nat :=
  r ← st_lift (Region.GetPhysicalLinearRegion linear address);
  let i := Z.to_nat (Region.m_attributes r) in
  _ ← get_manager i;
  mret i.

(** *** References over several managers

    Each round handles what lies in one manager; [fuel] bounds the rounds. *)
Fixpoint split_loop (fuel : nat) (f : Z → Z → implM unit) (address num_pages : Z) : mmM unit :=
  if num_pages =? 0 then mret tt else
  match fuel with
  | O => st_throw OutOfFuel
  | S fuel' =>
      i ← GetManager address;
      m ← get_manager i;
      let cur_pages := Z.min num_pages (Impl_GetPageOffsetToEnd m address) in
      _ ← on_manager i (f address cur_pages);
      split_loop fuel' f (u64 (address + u64 (cur_pages * PageSize))) (u64 (num_pages - cur_pages))
  end.
Definition Open (address num_pages : Z) : mmM unit := split_loop (Z.to_nat num_pages) Impl_Open address num_pages.
Definition OpenFirst (address num_pages : Z) : mmM unit := split_loop (Z.to_nat num_pages) Impl_OpenFirst address num_pages.
Definition Close (address num_pages : Z) : mmM unit := split_loop (Z.to_nat num_pages) (Impl_Close assertions) address num_pages.

(** *** Continuous allocation *)
Fixpoint continuous_loop (fuel : nat) (cur : option nat) (dir heap_index num_pages align_pages : Z) : mmM (option (nat * Z)) :=
  match cur with
  | None => mret None
  | Some i =>
      match fuel with
      | O => st_throw OutOfFuel
      | S fuel' =>
          allocated_block ← on_manager i (Impl_AllocateAligned assertions heap_index num_pages align_pages);
          if negb (allocated_block =? NullAddress) then mret (Some (i, allocated_block)) else
          next ← GetNextManager i dir;
          continuous_loop fuel' next dir heap_index num_pages align_pages
      end
  end.

Definition AllocateAndOpenContinuous (num_pages align_pages option : Z) : mmM Z :=
  if num_pages =? 0 then mret NullAddress else
  let pool := Z.to_nat (GetPool_option option) in
  let dir := GetDirection option in
  let heap_index := GetAlignedBlockIndex num_pages align_pages in
  first ← GetFirstManager pool dir;
  r ← continuous_loop MaxManagerCount first dir heap_index num_pages align_pages;
  match r with
  | None => mret NullAddress
  | Some (chosen_manager, allocated_block) =>
      b ← has_optimized pool;
      _ ← (if (b : bool) then on_manager chosen_manager (TrackUnoptimizedAllocation allocated_block num_pages) else mret tt);
      _ ← on_manager chosen_manager (Impl_OpenFirst allocated_block num_pages);
      mret allocated_block
  end.

(** *** Page groups *)

(** Blocks of one size from one manager: an error, or the pages still missing. *)
Fixpoint block_loop (fuel : nat) (i : nat) (index pages_per_alloc num_pages : Z) (unoptimized random : bool)
    : mmM (Result + Z) :=
  if pages_per_alloc <=? num_pages then
    match fuel with
    | O => st_throw OutOfFuel
    | S fuel' =>
        allocated_block ← on_manager i (Impl_AllocateBlock assertions index random);
        if allocated_block =? NullAddress then mret (inr num_pages) else
        r ← on_group (PageGroup.AddBlock assertions allocated_block pages_per_alloc);
        if bool_decide (r = ResultSuccess) then
          _ ← (if unoptimized then on_manager i (TrackUnoptimizedAllocation allocated_block pages_per_alloc) else mret tt);
          block_loop fuel' i index pages_per_alloc (u64 (num_pages - pages_per_alloc)) unoptimized random
        else
          _ ← on_manager i (Impl_Free assertions allocated_block pages_per_alloc);
          mret (inl r)
    end
  else mret (inr num_pages).

Fixpoint managers_loop (fuel : nat) (cur : option nat) (dir index pages_per_alloc num_pages : Z) (unoptimized random : bool)
    : mmM (Result + Z) :=
  match cur with
  | None => mret (inr num_pages)
  | Some i =>
      match fuel with
      | O => st_throw OutOfFuel
      | S fuel' =>
          r ← block_loop (Z.to_nat num_pages) i index pages_per_alloc num_pages unoptimized random;
          match r with
          | inl e => mret (inl e)
          | inr num_pages =>
              next ← GetNextManager i dir;
              managers_loop fuel' next dir index pages_per_alloc num_pages unoptimized random
          end
      end
  end.

(** [for (index = heap_index; index >= 0 && num_pages > 0; index--)] *)
Fixpoint sizes_loop (n : nat) (pool : nat) (dir num_pages : Z) (unoptimized random : bool) : mmM (Result + Z) :=
  match n with
  | O => mret (inr num_pages)
  | S index =>
      if 0 <? num_pages then
        first ← GetFirstManager pool dir;
        r ← managers_loop MaxManagerCount first dir (Z.of_nat index) (GetBlockNumPages index) num_pages unoptimized random;
        match r with
        | inl e => mret (inl e)
        | inr num_pages => sizes_loop index pool dir num_pages unoptimized random
        end
      else mret (inr num_pages)
  end.

(** What is done when the allocation fails. *)
Fixpoint free_blocks (l : list PageGroup.KBlockInfo) : mmM unit :=
  match l with
  | [] => mret tt
  | it :: l' =>
      i ← GetManager (PageGroup.GetAddress it);
      m ← get_manager i;
      let num_pages := Z.min (PageGroup.GetNumPages it)
                         (u64 (GetEndAddress (impl_heap m) - PageGroup.GetAddress it) / PageSize) in
      _ ← on_manager i (Impl_Free assertions (PageGroup.GetAddress it) num_pages);
      free_blocks l'
  end.
Definition undo_group : mmM unit :=
  s ← st_get; _ ← free_blocks (PageGroup.blocks (out s)); on_group PageGroup.Finalize.

Definition AllocatePageGroupImpl (num_pages : Z) (pool : nat) (dir : Z) (unoptimized random : bool) : mmM Result :=
  let heap_index := GetBlockIndex num_pages in
  if heap_index <? 0 then mret ResultOutOfMemory else
  r ← sizes_loop (Z.to_nat (heap_index + 1)) pool dir num_pages unoptimized random;
  match r with
  | inl e => _ ← undo_group; mret e
  | inr num_pages =>
      if num_pages =? 0 then mret ResultSuccess else _ ← undo_group; mret ResultOutOfMemory
  end.

(** The first references to the pages of a group. *)
Fixpoint open_blocks (l : list PageGroup.KBlockInfo) : mmM unit :=
  match l with
  | [] => mret tt
  | b :: l' =>
      _ ← split_loop (Z.to_nat (PageGroup.GetNumPages b)) Impl_OpenFirst (PageGroup.GetAddress b) (PageGroup.GetNumPages b);
      open_blocks l'
  end.

Definition AllocateAndOpen (num_pages option : Z) : mmM Result :=
  s ← st_get;
  _ ← MASSERT (PageGroup.Group_GetNumPages (out s) =? 0);
  if num_pages =? 0 then mret ResultSuccess else
  let pool := Z.to_nat (GetPool_option option) in
  let dir := GetDirection option in
  unoptimized ← has_optimized pool;
  r ← AllocatePageGroupImpl num_pages pool dir unoptimized true;
  if bool_decide (r = ResultSuccess) then
    s ← st_get; _ ← open_blocks (PageGroup.blocks (out s)); mret ResultSuccess
  else mret r.

(** *** Allocation for a process *)

(** The parts of a block in each manager; the result is that of the last part. *)
Fixpoint process_parts (fuel : nat) (address num_pages fill_pattern : Z) (any_new : bool) : mmM bool :=
  if num_pages =? 0 then mret any_new else
  match fuel with
  | O => st_throw OutOfFuel
  | S fuel' =>
      i ← GetManager address;
      m ← get_manager i;
      let cur_pages := Z.min num_pages (Impl_GetPageOffsetToEnd m address) in
      '(any_new, fills) ← on_manager i (ProcessOptimizedAllocation address cur_pages fill_pattern);
      _ ← st_mod (λ s, mkMM (mm s) (out s) (filled s ++ fills));
      process_parts fuel' (u64 (address + u64 (cur_pages * PageSize))) (u64 (num_pages - cur_pages)) fill_pattern any_new
  end.
Fixpoint process_blocks (l : list PageGroup.KBlockInfo) (fill_pattern : Z) : mmM unit :=
  match l with
  | [] => mret tt
  | b :: l' =>
      let address := PageGroup.GetAddress b in
      let pages := PageGroup.GetNumPages b in
      _ ← (if pages =? 0 then mret tt else
           any_new ← process_parts (Z.to_nat pages) address pages fill_pattern false;
           if (any_new : bool) then split_loop (Z.to_nat pages) TrackOptimizedAllocation address pages else mret tt);
      process_blocks l' fill_pattern
  end.

Definition AllocateForProcess (num_pages option process_id fill_pattern : Z) : mmM Result :=
  s ← st_get;
  _ ← MASSERT (PageGroup.Group_GetNumPages (out s) =? 0);
  let pool := Z.to_nat (GetPool_option option) in
  let dir := GetDirection option in
  has_opt ← has_optimized pool;
  s ← st_get;
  id ← st_lift (of_option OutOfBounds (m_optimized_process_ids (mm s) !! pool));
  let is_optimized := id =? process_id in
  r ← AllocatePageGroupImpl num_pages pool dir (has_opt && negb is_optimized) false;
  if bool_decide (r = ResultSuccess) then
    s ← st_get;
    _ ← (if has_opt && is_optimized then process_blocks (PageGroup.blocks (out s)) fill_pattern
         else st_mod (λ s, mkMM (mm s) (out s)
                (filled s ++ map (λ b, (PageGroup.GetAddress b, fill_pattern, PageGroup.GetSize b)) (PageGroup.blocks (out s)))));
    mret ResultSuccess
  else mret r.

(** *** Page groups that hold references *)
Fixpoint on_blocks (f : Z → Z → mmM unit) (l : list PageGroup.KBlockInfo) : mmM unit :=
  match l with
  | [] => mret tt
  | b :: l' => _ ← f (PageGroup.GetAddress b) (PageGroup.GetNumPages b); on_blocks f l'
  end.
Definition Group_Open : mmM unit := s ← st_get; on_blocks Open (PageGroup.blocks (out s)).
Definition Group_OpenFirst : mmM unit := s ← st_get; on_blocks OpenFirst (PageGroup.blocks (out s)).
Definition Group_Close : mmM unit := s ← st_get; on_blocks Close (PageGroup.blocks (out s)).
(** The nodes are given back one by one after their pages are closed. *)
Definition Group_CloseAndReset : mmM unit :=
  s ← st_get; _ ← on_blocks Close (PageGroup.blocks (out s)); on_group PageGroup.Finalize.

(** *** Sizes *)
Definition GetSize_all : mmM Z :=
  s ← st_get;
  mret (foldl (λ n m, u64 (n + m_heap_size (impl_heap m))) 0 (take (m_num_managers (mm s)) (m_managers (mm s)))).
Definition GetFreeSize_all : mmM Z :=
  s ← st_get;
  mret (foldl (λ n m, u64 (n + GetFreeSize (impl_heap m))) 0 (take (m_num_managers (mm s)) (m_managers (mm s)))).
Fixpoint pool_sum (fuel : nat) (f : KPageHeap → Z) (cur : option nat) (total : Z) : mmM Z :=
  match cur with
  | None => mret total
  | Some i =>
      match fuel with
      | O => st_throw OutOfFuel
      | S fuel' =>
          m ← get_manager i;
          next ← GetNextManager i Direction_FromFront;
          pool_sum fuel' f next (u64 (total + f (impl_heap m)))
      end
  end.
Definition GetSize_pool (pool : nat) : mmM Z :=
  first ← GetFirstManager pool Direction_FromFront; pool_sum MaxManagerCount m_heap_size first 0.
Definition GetFreeSize_pool (pool : nat) : mmM Z :=
  first ← GetFirstManager pool Direction_FromFront; pool_sum MaxManagerCount GetFreeSize first 0.

(** *** Optimised processes *)
Fixpoint init_optimized_loop (fuel : nat) (cur : option nat) : mmM unit :=
  match cur with
  | None => mret tt
  | Some i =>
      match fuel with
      | O => st_throw OutOfFuel
      | S fuel' =>
          _ ← on_manager i Impl_InitializeOptimizedMemory;
          next ← GetNextManager i Direction_FromFront;
          init_optimized_loop fuel' next
      end
  end.
Definition set_optimized (pool : nat) (process_id : option Z) (b : bool) (k : KMemoryManager) : KMemoryManager :=
  mkManager (m_pool_managers_head k) (m_pool_managers_tail k) (m_managers k) (m_num_managers k)
    (match process_id with Some id => <[pool := id]> (m_optimized_process_ids k) | None => m_optimized_process_ids k end)
    (<[pool := b]> (m_has_optimized_process k)).
Definition InitializeOptimizedMemory (process_id : Z) (pool : nat) : mmM Result :=
  b ← has_optimized pool;
  if (b : bool) then mret ResultBusy else
  _ ← mod_mm (set_optimized pool (Some process_id) true);
  first ← GetFirstManager pool Direction_FromFront;
  _ ← init_optimized_loop MaxManagerCount first;
  mret ResultSuccess.
Definition FinalizeOptimizedMemory (process_id : Z) (pool : nat) : mmM unit :=
  b ← has_optimized pool;
  s ← st_get;
  id ← st_lift (of_option OutOfBounds (m_optimized_process_ids (mm s) !! pool));
  if (b : bool) && (id =? process_id) then mod_mm (set_optimized pool None false) else mret tt.
End manager.

(** ** Start-up *)
Definition Attr_CarveoutProtected : Z := 0x02000000.
Definition Attr_NoUserMap : Z := 0x40000000.
Definition Attr_LinearMapped : Z := 0x80000000.
Definition Type_DramUserPool : Z := Z.lor 0x1A6 (Z.lor Attr_LinearMapped Attr_NoUserMap).
Definition Type_DramApplicationPool : Z := Z.lor 0x7A6 (Z.lor Attr_LinearMapped Attr_NoUserMap).
Definition Type_DramAppletPool : Z := Z.lor 0xBA6 (Z.lor Attr_LinearMapped Attr_NoUserMap).
Definition Type_DramSystemNonSecurePool : Z := Z.lor 0xDA6 (Z.lor Attr_LinearMapped Attr_NoUserMap).
Definition Type_DramSystemPool : Z :=
  Z.lor 0x13A6 (Z.lor Attr_LinearMapped (Z.lor Attr_NoUserMap Attr_CarveoutProtected)).

Definition GetPoolFromMemoryRegionType (type : Z) : res nat :=
  if Z.lor type Type_DramApplicationPool =? type then Ok 0%nat
  else if Z.lor type Type_DramAppletPool =? type then Ok 1%nat
  else if Z.lor type Type_DramSystemPool =? type then Ok 2%nat
  else if Z.lor type Type_DramSystemNonSecurePool =? type then Ok 3%nat
  else Err Aborted.

Section startup.
Context (assertions : bool) (physical : list Region.KMemoryRegion).
(** The initial process binary and its size limit. *)
Context (ini_start : Z).
Definition InitialProcessBinarySizeMax : Z := 12 * 1024 * 1024.

Definition rassert (b : bool) : res unit := if assertions then check b Aborted else Ok tt.

(** The extent and the pool of the regions of one manager. *)
Fixpoint extent_loop (l : list Region.KMemoryRegion) (attr region_address region_size : Z) (region_pool : nat)
    : res (Z * Z * nat) :=
  match l with
  | [] => Ok (region_address, region_size, region_pool)
  | it :: l' =>
      if negb (Region.IsDerivedFrom it Type_DramUserPool) then extent_loop l' attr region_address region_size region_pool else
      if negb (Region.m_attributes it =? attr) then extent_loop l' attr region_address region_size region_pool else
      let cur_start := Region.m_address it in
      let cur_end := Region.GetEndAddress it in
      _ ← check (negb (cur_end =? NullAddress)) Aborted;
      _ ← rassert (negb (cur_start =? NullAddress));
      _ ← rassert (0 <? Region.GetSize it);
      if region_address =? NullAddress then
        p ← GetPoolFromMemoryRegionType (Region.m_type_id it);
        extent_loop l' attr cur_start (Region.GetSize it) p
      else
        _ ← rassert (cur_start =? u64 (region_address + region_size));
        p ← GetPoolFromMemoryRegionType (Region.m_type_id it);
        _ ← check (bool_decide (p = region_pool)) Aborted;
        extent_loop l' attr region_address (u64 (cur_end - region_address)) region_pool
  end.

(** Appending a manager to the list of its pool. *)
Definition link_manager (i pool : nat) : mmM unit :=
  s ← st_get;
  tail ← st_lift (of_option OutOfBounds (m_pool_managers_tail (mm s) !! pool));
  _ ← match tail with
      | None => mod_mm (λ k, mkManager (<[pool := Some i]> (m_pool_managers_head k)) (m_pool_managers_tail k) (m_managers k)
                               (m_num_managers k) (m_optimized_process_ids k) (m_has_optimized_process k))
      | Some t => _ ← on_manager t (st_mod (SetNext (Some i))); on_manager i (st_mod (SetPrev (Some t)))
      end;
  mod_mm (λ k, mkManager (m_pool_managers_head k) (<[pool := Some i]> (m_pool_managers_tail k)) (m_managers k)
                 (m_num_managers k) (m_optimized_process_ids k) (m_has_optimized_process k)).
Definition set_num_managers (n : nat) (k : KMemoryManager) : KMemoryManager :=
  mkManager (m_pool_managers_head k) (m_pool_managers_tail k) (m_managers k) n
    (m_optimized_process_ids k) (m_has_optimized_process k).

(** [while (m_num_managers != MaxManagerCount)]: [n] managers are left. *)
Fixpoint create_loop (n : nat) (management_region management_region_end : Z) : mmM unit :=
  match n with
  | O => mret tt
  | S n' =>
      s ← st_get;
      let i := m_num_managers (mm s) in
      '(region_address, region_size, region_pool) ← st_lift (extent_loop physical (Z.of_nat i) NullAddress 0 Pool_Count);
      if region_size =? 0 then mret tt else
      _ ← mod_mm (set_num_managers (S i));
      _ ← st_check (bool_decide (S i ≤ MaxManagerCount)%nat) Aborted;
      cur_size ← on_manager i (Impl_Initialize assertions region_address region_size management_region management_region_end region_pool);
      let management_region := u64 (management_region + cur_size) in
      _ ← st_check (management_region <=? management_region_end) Aborted;
      _ ← link_manager i region_pool;
      create_loop n' management_region management_region_end
  end.

(** The regions are freed to their heaps, except for the initial process binary,
    whose pages are opened and counted in [reserved_sizes]. *)
Fixpoint free_regions (l : list Region.KMemoryRegion) (reserved_sizes : list Z) : mmM (list Z) :=
  match l with
  | [] => mret reserved_sizes
  | it :: l' =>
      if negb (Region.IsDerivedFrom it Type_DramUserPool) then free_regions l' reserved_sizes else
      let attr := Z.to_nat (Region.m_attributes it) in
      let ini_end := u64 (ini_start + InitialProcessBinarySizeMax) in
      let ini_last := u64 (ini_end - 1) in
      let cur_start := Region.m_address it in
      let cur_last := Region.m_last_address it in
      let cur_end := Region.GetEndAddress it in
      reserved_sizes ←
        (if (cur_start <=? ini_start) && (ini_last <=? cur_last) then
           _ ← (if negb (cur_start =? ini_start)
                then on_manager attr (Impl_Free assertions cur_start (u64 (ini_start - cur_start) / PageSize)) else mret tt);
           _ ← on_manager attr (Impl_OpenFirst ini_start (InitialProcessBinarySizeMax / PageSize));
           r ← st_lift (of_option OutOfBounds (reserved_sizes !! attr));
           let reserved_sizes := <[attr := u64 (r + InitialProcessBinarySizeMax)]> reserved_sizes in
           _ ← (if negb (ini_last =? cur_last) then
                  _ ← st_check (negb (cur_end =? NullAddress)) Aborted;
                  on_manager attr (Impl_Free assertions ini_end (u64 (cur_end - ini_end)))
                else mret tt);
           mret reserved_sizes
         else
           _ ← (if cur_start <=? ini_last then st_check (cur_last <? ini_start) Aborted
                else st_check (negb (cur_end =? NullAddress)) Aborted);
           _ ← on_manager attr (Impl_Free assertions cur_start (Region.GetSize it / PageSize));
           mret reserved_sizes);
      free_regions l' reserved_sizes
  end.

Fixpoint used_sizes (n i : nat) (reserved_sizes : list Z) : mmM unit :=
  match n with
  | O => mret tt
  | S n' =>
      r ← st_lift (of_option OutOfBounds (reserved_sizes !! i));
      _ ← on_manager i (SetInitialUsedHeapSize r);
      used_sizes n' (S i) reserved_sizes
  end.

(** The management region is zero when the managers cut it up. *)
Definition Manager_Initialize (management_region management_region_size : Z) : mmM unit :=
  let management_region_end := u64 (management_region + management_region_size) in
  _ ← mod_mm (set_num_managers 0);
  _ ← create_loop MaxManagerCount management_region management_region_end;
  reserved ← free_regions physical (replicate MaxManagerCount 0);
  s ← st_get;
  used_sizes (m_num_managers (mm s)) 0 reserved.
End startup.
