(* ===== verification/MemoryManagerSpec.v ===== *)
(** * What the memory manager promises

    A page of user memory is free, or in use with a number of references.  The
    abstract state gives for every page whether its heap holds it as free, and
    its reference count; every operation is shown to change exactly the pages it
    is about, across all managers. *)

From S2P Require Import Prelude Vapours TinyMT PageBitmap PageBitmapSpec PageHeap PageHeapSpec PageHeapInit PageHeapRefine MemoryRegion PageGroup MemoryManager.

(** ** The abstract state *)
Definition page : Set := bool * Z.
Definition pages : Type := nat → option page.
Implicit Types (σ : pages) (a n p : nat).

(** The pages from [a] to [a + n] change by [h]. *)
Definition upd σ a n (h : page → page) : pages := λ p, if decide (a ≤ p < a + n)%nat then h <$> σ p else σ p.

Lemma upd_in σ a n h p : (a ≤ p < a + n)%nat → upd σ a n h p = h <$> σ p.
Proof. intros Hp. unfold upd. by rewrite decide_True. Qed.
Lemma upd_out σ a n h p : ¬ (a ≤ p < a + n)%nat → upd σ a n h p = σ p.
Proof. intros Hp. unfold upd. by rewrite decide_False. Qed.
Lemma upd_join σ a n k h p : upd (upd σ a n h) (a + n) k h p = upd σ a (n + k) h p.
Proof. unfold upd. destruct (decide (a + n ≤ p < a + n + k)%nat), (decide (a ≤ p < a + n)%nat), (decide (a ≤ p < a + (n + k))%nat); try done; lia. Qed.
Lemma upd_0 σ a h p : upd σ a 0 h p = σ p.
Proof. apply upd_out. lia. Qed.
Lemma upd_is_Some σ a n h p : is_Some (upd σ a n h p) ↔ is_Some (σ p).
Proof. unfold upd. destruct (decide _); [apply fmap_is_Some|done]. Qed.

(** ** One manager *)

(** A region: its first page, its pages and where its bitmaps start. *)
Record mgr := mkMgr { g_p0 : nat; g_np : nat; g_base : nat }.
Definition g_levels (g : mgr) : list level := levels_from (g_p0 g) (g_np g) kernel_shifts (g_base g).
Definition in_mgr (g : mgr) p : Prop := (g_p0 g ≤ p < g_p0 g + g_np g)%nat.
(** Page numbers fit the 32 bits of a block info. *)
Definition mgr_ok (g : mgr) : Prop := heap_fits (g_p0 g) (g_np g) ∧ Z.of_nat (g_p0 g + g_np g) < 2 ^ 32.

Lemma mgr_geometry g : mgr_ok g → geometry (g_levels g) (g_p0 g) (g_np g).
Proof. intros [Hf _]. apply levels_geometry; [done|apply kernel_shifts_ok]. Qed.

Definition impl_repr (g : mgr) (m : Impl) σ : Prop :=
  ∃ F, heap_repr (g_levels g) (g_p0 g) (g_np g) (m_heap m) F ∧
    length (m_page_reference_counts m) = g_np g ∧ (g_np g ≤ 64 * length (m_optimize_map m))%nat ∧
    (∀ k x, m_page_reference_counts m !! k = Some x → in_width 16 x ∧ σ (g_p0 g + k)%nat = Some (bool_decide ((g_p0 g + k)%nat ∈ F), x)) ∧
    F ⊆ range (g_p0 g) (g_np g).

Lemma heap_repr_address H p0 np s F : heap_repr H p0 np s F →
  m_heap_address (heap s) = addr_of p0 ∧ m_heap_size (heap s) = addr_of np.
Proof. intros (Xs & Hrep & _). split; apply Hrep. Qed.

Section impl.
Context (assertions : bool) (g : mgr) (Hg : mgr_ok g).
Implicit Types (m : Impl).

Lemma g_bound q : (q ≤ g_p0 g + g_np g)%nat → 0 ≤ addr_of q < 2 ^ 44.
Proof using Hg. intros Hq. destruct Hg as [_ Hb]. unfold addr_of. lia. Qed.

Lemma impl_same m σ σ' : (∀ p, in_mgr g p → σ p = σ' p) → impl_repr g m σ → impl_repr g m σ'.
Proof using Type.
  intros He (F & H1 & H2 & H3 & H4 & H5). exists F. split_and!; try done. intros k x Hk. destruct (H4 k x Hk) as [Hw Hs]. split; [done|].
  rewrite <- He; [done|]. unfold in_mgr. apply lookup_lt_Some in Hk. lia.
Qed.

(** Pages of the region by their index. *)
Lemma page_offset m σ a : impl_repr g m σ → (g_p0 g ≤ a ≤ g_p0 g + g_np g)%nat →
  Impl_GetPageOffset m (addr_of a) = Z.of_nat (a - g_p0 g) ∧
  Impl_GetPageOffsetToEnd m (addr_of a) = Z.of_nat (g_p0 g + g_np g - a).
Proof using Hg.
  intros (F & Hh & _) Ha. destruct (heap_repr_address _ _ _ _ _ Hh) as [Had Hsz].
  pose proof (g_bound (g_p0 g + g_np g) ltac:(lia)) as Hb. unfold addr_of in *.
  unfold Impl_GetPageOffset, Impl_GetPageOffsetToEnd, GetPageOffset, GetPageOffsetToEnd, GetEndAddress, impl_heap.
  rewrite Had, Hsz. unfold PageSize. rewrite (wrap_small 64 (_ - _)) by (unfold in_width; lia).
  rewrite (wrap_small 64 (_ + _)) by (unfold in_width; lia). rewrite wrap_small by (unfold in_width; lia).
  split.
  - rewrite <- Z.mul_sub_distr_l, (Z.mul_comm 4096), Z.div_mul by lia. lia.
  - rewrite <- Z.mul_add_distr_l, <- Z.mul_sub_distr_l, (Z.mul_comm 4096), Z.div_mul by lia. lia.
Qed.

Lemma rounds_run a n : (a + n ≤ g_p0 g + g_np g)%nat → (g_p0 g ≤ a)%nat →
  rounds (Z.of_nat (a - g_p0 g)) (Z.of_nat n) = n.
Proof using Hg.
  intros Ha Hp. pose proof (g_bound _ Ha) as Hb. unfold addr_of in Hb. unfold rounds.
  rewrite wrap_small by (unfold in_width; lia). lia.
Qed.

(** A page of the region and its count. *)
Lemma page_count m σ p x : impl_repr g m σ → in_mgr g p → σ p = Some x →
  m_page_reference_counts m !! (p - g_p0 g)%nat = Some (snd x) ∧ in_width 16 (snd x).
Proof using Type.
  intros (F & _ & Hl & _ & Hc & _) Hp Hx. unfold in_mgr in Hp.
  destruct (lookup_lt_is_Some_2 (m_page_reference_counts m) (p - g_p0 g)) as [y Hy]; [lia|].
  destruct (Hc _ _ Hy) as [Hw Hs]. replace (g_p0 g + (p - g_p0 g))%nat with p in Hs by lia. by simplify_eq.
Qed.

(** Writing one count. *)
Lemma count_write m σ p x y h : impl_repr g m σ → in_mgr g p → σ p = Some x → in_width 16 y → h x = (fst x, y) →
  impl_repr g (set_counts (<[(p - g_p0 g)%nat := y]> (m_page_reference_counts m)) m) (upd σ p 1 h).
Proof using Type.
  intros (F & Hh & Hl & Ho & Hc & HF) Hp Hx Hy Hhx. unfold in_mgr in Hp. exists F. split_and!; try done; cbn; [by rewrite length_insert|].
  intros k z Hk. destruct (decide (k = p - g_p0 g)%nat) as [->|Hne].
  - rewrite list_lookup_insert_eq in Hk by lia. simplify_eq. split; [done|].
    rewrite upd_in by lia. replace (g_p0 g + (p - g_p0 g))%nat with p by lia. rewrite Hx. cbn. rewrite Hhx.
    destruct (lookup_lt_is_Some_2 (m_page_reference_counts m) (p - g_p0 g)) as [w Hw]; [lia|].
    destruct (Hc _ _ Hw) as [_ Hs]. replace (g_p0 g + (p - g_p0 g))%nat with p in Hs by lia. by simplify_eq.
  - rewrite list_lookup_insert_ne in Hk by done. destruct (Hc _ _ Hk) as [Hw Hs]. split; [done|]. rewrite upd_out by lia. done.
Qed.

Definition same_links m m' : Prop := m_next m' = m_next m ∧ m_prev m' = m_prev m ∧ m_pool m' = m_pool m.

(** An operation on a range of pages of one manager, by its effect on a page. *)
Definition impl_spec (f : Z → Z → implM unit) (pre : page → Prop) (h : page → page) : Prop :=
  ∀ m σ a n, impl_repr g m σ → (g_p0 g ≤ a)%nat → (a + n ≤ g_p0 g + g_np g)%nat →
    (∀ p, (a ≤ p < a + n)%nat → ∃ x, σ p = Some x ∧ pre x) →
    ∃ m', f (addr_of a) (Z.of_nat n) m = Ok (tt, m') ∧ impl_repr g m' (upd σ a n h) ∧ same_links m m'.

Lemma read_count_run m σ p x : impl_repr g m σ → in_mgr g p → σ p = Some x →
  read_count (Z.of_nat (p - g_p0 g)) m = Ok (snd x, m) ∧ in_width 16 (snd x).
Proof using Type.
  intros Hr Hp Hx. destruct (page_count m σ p x Hr Hp Hx) as [Hc Hw]. split; [|done].
  unfold read_count. erewrite st_bind_run by reflexivity. by rewrite Nat2Z.id, Hc.
Qed.

Lemma write_count_run m k v : write_count (Z.of_nat k) v m = Ok (tt, set_counts (<[k := v]> (m_page_reference_counts m)) m).
Proof using Type. unfold write_count, st_mod. by rewrite Nat2Z.id. Qed.

(** One page and then the rest of the range. *)
Lemma upd_step σ a n h : (∀ p, upd (upd σ a 1 h) (S a) n h p = upd σ a (S n) h p).
Proof using Type. intros p. replace (S a) with (a + 1)%nat by lia. apply upd_join. Qed.

Definition pre_first (x : page) : Prop := x = (false, 0).
Definition do_first (_ : page) : page := (false, 1).
Definition pre_open (x : page) : Prop := 1 ≤ snd x < 65535.
Definition do_open (x : page) : page := (fst x, snd x + 1).

Lemma open_first_loop_run n a m σ : impl_repr g m σ → (g_p0 g ≤ a)%nat → (a + n ≤ g_p0 g + g_np g)%nat →
  (∀ p, (a ≤ p < a + n)%nat → ∃ x, σ p = Some x ∧ pre_first x) →
  ∃ m', open_first_loop n (Z.of_nat (a - g_p0 g)) m = Ok (tt, m') ∧ impl_repr g m' (upd σ a n do_first) ∧ same_links m m'.
Proof using Type.
  revert a m σ. induction n as [|n IH]; intros a m σ Hr Ha Hn Hpre; cbn [open_first_loop].
  { exists m. split_and!; try done. eapply impl_same; [|exact Hr]. intros p _. by rewrite upd_0. }
  destruct (Hpre a ltac:(lia)) as (x & Hx & ->). assert (Hin : in_mgr g a) by (unfold in_mgr; lia).
  destruct (read_count_run m σ a _ Hr Hin Hx) as [Hrd _]. erewrite st_bind_run by exact Hrd.
  erewrite st_bind_run by apply write_count_run. change (wrap 16 (snd (false, 0) + 1)) with 1. erewrite st_bind_run by reflexivity.
  pose proof (count_write m σ a _ 1 do_first Hr Hin Hx ltac:(unfold in_width; lia) eq_refl) as Hr1.
  replace (Z.of_nat (a - g_p0 g) + 1) with (Z.of_nat (S a - g_p0 g)) by lia.
  destruct (IH (S a) _ _ Hr1) as (m' & Hrun & Hr' & Hl); try lia.
  { intros p Hp. rewrite upd_out by lia. apply Hpre. lia. }
  exists m'. rewrite Hrun. split_and!; try done. eapply impl_same; [|exact Hr']. intros p _. apply upd_step.
Qed.

Lemma impl_open_loop_run n a m σ : impl_repr g m σ → (g_p0 g ≤ a)%nat → (a + n ≤ g_p0 g + g_np g)%nat →
  (∀ p, (a ≤ p < a + n)%nat → ∃ x, σ p = Some x ∧ pre_open x) →
  ∃ m', open_loop n (Z.of_nat (a - g_p0 g)) m = Ok (tt, m') ∧ impl_repr g m' (upd σ a n do_open) ∧ same_links m m'.
Proof using Type.
  revert a m σ. induction n as [|n IH]; intros a m σ Hr Ha Hn Hpre; cbn [open_loop].
  { exists m. split_and!; try done. eapply impl_same; [|exact Hr]. intros p _. by rewrite upd_0. }
  destruct (Hpre a ltac:(lia)) as (x & Hx & Hpx). unfold pre_open in Hpx. assert (Hin : in_mgr g a) by (unfold in_mgr; lia).
  destruct (read_count_run m σ a _ Hr Hin Hx) as [Hrd _]. erewrite st_bind_run by exact Hrd.
  erewrite st_bind_run by apply write_count_run. rewrite (wrap_small 16) by (unfold in_width; lia).
  unfold st_check. rewrite (proj2 (Z.ltb_lt 1 _)) by lia. erewrite st_bind_run by reflexivity.
  pose proof (count_write m σ a _ (snd x + 1) do_open Hr Hin Hx ltac:(unfold in_width; lia) eq_refl) as Hr1.
  replace (Z.of_nat (a - g_p0 g) + 1) with (Z.of_nat (S a - g_p0 g)) by lia.
  destruct (IH (S a) _ _ Hr1) as (m' & Hrun & Hr' & Hl); try lia.
  { intros p Hp. rewrite upd_out by lia. apply Hpre. lia. }
  exists m'. rewrite Hrun. split_and!; try done. eapply impl_same; [|exact Hr']. intros p _. apply upd_step.
Qed.

Lemma OpenFirst_spec : impl_spec Impl_OpenFirst pre_first do_first.
Proof using Hg.
  intros m σ a n Hr Ha Hn Hpre. unfold Impl_OpenFirst. erewrite st_bind_run by reflexivity.
  destruct (page_offset m σ a Hr ltac:(lia)) as [-> _]. rewrite rounds_run by done. by apply open_first_loop_run.
Qed.

Lemma Open_spec : impl_spec Impl_Open pre_open do_open.
Proof using Hg.
  intros m σ a n Hr Ha Hn Hpre. unfold Impl_Open. erewrite st_bind_run by reflexivity.
  destruct (page_offset m σ a Hr ltac:(lia)) as [-> _]. rewrite rounds_run by done. by apply impl_open_loop_run.
Qed.

(** *** Freeing and closing *)
Definition pre_free (x : page) : Prop := fst x = false.
Definition do_free (x : page) : page := (true, snd x).
Definition pre_close (x : page) : Prop := fst x = false ∧ 1 ≤ snd x.
Definition do_close (x : page) : page := (bool_decide (snd x = 1), snd x - 1).

Lemma heap_free_run s F a n : heap_repr (g_levels g) (g_p0 g) (g_np g) s F →
  range a n ⊆ range (g_p0 g) (g_np g) → range a n ## F →
  ∃ s', Heap_Free assertions (addr_of a) (Z.of_nat n) s = Ok (tt, s') ∧
    heap_repr (g_levels g) (g_p0 g) (g_np g) s' (F ∪ range a n).
Proof using Hg. intros. by apply heap_free_step; [apply mgr_geometry|..]. Qed.

Lemma on_heap_run {A} (f : heapM A) m r h : f (m_heap m) = Ok (r, h) → on_heap f m = Ok (r, set_impl_heap h m).
Proof using Type. intros Hf. unfold on_heap. erewrite st_bind_run by reflexivity. by rewrite Hf. Qed.

Lemma same_heap_links h m : same_links m (set_impl_heap h m).
Proof using Type. done. Qed.

(** A new heap whose free pages differ from the old ones as [h] says. *)
Lemma heap_change m σ a n h (F F' : gset nat) s' :
  heap_repr (g_levels g) (g_p0 g) (g_np g) s' F' → F' ⊆ range (g_p0 g) (g_np g) →
  length (m_page_reference_counts m) = g_np g → (g_np g ≤ 64 * length (m_optimize_map m))%nat →
  (∀ k x, m_page_reference_counts m !! k = Some x → in_width 16 x ∧ σ (g_p0 g + k)%nat = Some (bool_decide ((g_p0 g + k)%nat ∈ F), x)) →
  (∀ p x, in_mgr g p → (a ≤ p < a + n)%nat → h (bool_decide (p ∈ F), x) = (bool_decide (p ∈ F'), x)) →
  (∀ p, ¬ (a ≤ p < a + n)%nat → p ∈ F' ↔ p ∈ F) →
  impl_repr g (set_impl_heap s' m) (upd σ a n h).
Proof using Type.
  intros Hr HF' Hl Ho Hc Hin Hout. exists F'. split_and!; try done. intros k x Hk. destruct (Hc k x Hk) as [Hw Hs]. split; [done|].
  assert (Hk' : (k < g_np g)%nat) by (rewrite <- Hl; by eapply lookup_lt_Some).
  assert (in_mgr g (g_p0 g + k)) by (unfold in_mgr; lia).
  unfold upd. destruct (decide _) as [Hd|Hd]; rewrite Hs; cbn.
  - f_equal. by apply Hin.
  - do 2 f_equal. apply bool_decide_ext. symmetry. by apply Hout.
Qed.

Lemma Free_spec : impl_spec (Impl_Free assertions) pre_free do_free.
Proof using Hg.
  intros m σ a n (F & Hh & Hl & Ho & Hc & HF) Ha Hn Hpre.
  assert (Hsub : range a n ⊆ range (g_p0 g) (g_np g)) by (intros p; rewrite !elem_of_range; lia).
  destruct (heap_free_run (m_heap m) F a n Hh Hsub) as (s' & Hrun & Hr').
  { intros p Hp HpF. apply elem_of_range in Hp. destruct (Hpre p Hp) as (x & Hx & Hfree).
    destruct (lookup_lt_is_Some_2 (m_page_reference_counts m) (p - g_p0 g)) as [y Hy]; [lia|].
    destruct (Hc _ _ Hy) as [_ Hs]. replace (g_p0 g + (p - g_p0 g))%nat with p in Hs by lia. rewrite Hx in Hs. injection Hs as ->.
    unfold pre_free in Hfree. cbn in Hfree. apply bool_decide_eq_false in Hfree. done. }
  exists (set_impl_heap s' m). split_and!; [by apply on_heap_run| |done].
  eapply heap_change; try done.
  - intros p [Hp|Hp]%elem_of_union; auto.
  - intros p x Hp Hap. unfold do_free. cbn. f_equal. symmetry. apply bool_decide_eq_true_2, elem_of_union. right. by apply elem_of_range.
  - intros p Hp. rewrite elem_of_union, elem_of_range. tauto.
Qed.

Lemma free_run_run m σ fs fc : impl_repr g m σ → (fs + fc ≤ g_np g)%nat →
  (∀ p, (g_p0 g + fs ≤ p < g_p0 g + fs + fc)%nat → ∃ x, σ p = Some x ∧ pre_free x) →
  ∃ m', free_run assertions (Z.of_nat fs) (Z.of_nat fc) m = Ok (tt, m') ∧
    impl_repr g m' (upd σ (g_p0 g + fs) fc do_free) ∧ same_links m m'.
Proof using Hg.
  intros Hr Hb Hpre. unfold free_run. erewrite st_bind_run by reflexivity.
  destruct (Z.ltb_spec 0 (Z.of_nat fc)).
  - assert (Haddr : u64 (m_heap_address (impl_heap m) + u64 (Z.of_nat fs * PageSize)) = addr_of (g_p0 g + fs)).
    { destruct Hr as (F & Hh & _). destruct (heap_repr_address _ _ _ _ _ Hh) as [Had _]. unfold impl_heap. rewrite Had.
      pose proof (g_bound (g_p0 g + fs) ltac:(lia)) as Hbd. unfold addr_of, PageSize in *.
      rewrite (wrap_small 64 (Z.of_nat fs * 4096)) by (unfold in_width; lia). rewrite wrap_small; [lia|]. unfold in_width. lia. }
    rewrite Haddr. apply Free_spec; try done; lia.
  - exists m. split_and!; try done. eapply impl_same; [|exact Hr]. intros p _. replace fc with 0%nat by lia. by rewrite upd_0.
Qed.

(** The loop with the run of pages that is still to be freed. *)
Lemma close_loop_run n a m σ fs fc : impl_repr g m σ → (g_p0 g ≤ a)%nat → (a + n ≤ g_p0 g + g_np g)%nat →
  (∀ p, (a ≤ p < a + n)%nat → ∃ x, σ p = Some x ∧ pre_close x) →
  (fs + fc ≤ g_np g)%nat → (0 < fc → g_p0 g + fs + fc = a)%nat →
  (∀ p, (g_p0 g + fs ≤ p < g_p0 g + fs + fc)%nat → ∃ x, σ p = Some x ∧ pre_free x) →
  ∃ m', close_loop assertions n (Z.of_nat (a - g_p0 g)) (Z.of_nat fs) (Z.of_nat fc) m = Ok (tt, m') ∧
    impl_repr g m' (upd (upd σ (g_p0 g + fs) fc do_free) a n do_close) ∧ same_links m m'.
Proof using Hg.
  revert a m σ fs fc. induction n as [|n IH]; intros a m σ fs fc Hr Ha Hn Hpre Hfit Hadj Hrun; cbn [close_loop].
  { destruct (free_run_run m σ fs fc Hr Hfit Hrun) as (m' & Hm & Hr' & Hl). exists m'. split_and!; try done.
    eapply impl_same; [|exact Hr']. intros p _. by rewrite upd_0. }
  destruct (Hpre a ltac:(lia)) as (x & Hx & Hfx & Hcx). assert (Hin : in_mgr g a) by (unfold in_mgr; lia).
  destruct (read_count_run m σ a _ Hr Hin Hx) as [Hrd Hw]. erewrite st_bind_run by exact Hrd.
  unfold st_check. rewrite (proj2 (Z.ltb_lt 0 (snd x))) by lia. erewrite st_bind_run by reflexivity.
  erewrite st_bind_run by apply write_count_run. rewrite (wrap_small 16) by (unfold in_width in *; lia).
  set (dec := λ y : page, (fst y, snd y - 1) : page).
  pose proof (count_write m σ a _ (snd x - 1) dec Hr Hin Hx ltac:(unfold in_width in *; lia) eq_refl) as Hr1.
  replace (Z.of_nat (a - g_p0 g) + 1) with (Z.of_nat (S a - g_p0 g)) by lia.
  set (m1 := set_counts _ _) in *.
  assert (Hpre1 : ∀ p, (S a ≤ p < S a + n)%nat → ∃ y, upd σ a 1 dec p = Some y ∧ pre_close y).
  { intros p Hp. rewrite upd_out by lia. apply Hpre. lia. }
  assert (Hrun1 : ∀ p, (g_p0 g + fs ≤ p < g_p0 g + fs + fc)%nat → ∃ y, upd σ a 1 dec p = Some y ∧ pre_free y).
  { intros p Hp. specialize (Hadj ltac:(lia)). rewrite upd_out by lia. by apply Hrun. }
  assert (Hdec : upd σ a 1 dec a = Some (false, snd x - 1)).
  { rewrite upd_in, Hx by lia. cbn. unfold dec. by rewrite Hfx. }
  destruct (Z.eqb_spec (snd x - 1) 0) as [Hz|Hnz].
  - assert (Hclose : do_close x = (true, 0)) by (unfold do_close; rewrite bool_decide_eq_true_2 by lia; f_equal; lia).
    destruct (Z.ltb_spec 0 (Z.of_nat fc)) as [Hfc|Hfc].
    + replace (Z.of_nat fc + 1) with (Z.of_nat (fc + 1)) by lia.
      destruct (IH (S a) m1 _ fs (fc + 1)%nat Hr1) as (m' & Hm & Hr' & Hl); try lia; try done.
      { intros p Hp. destruct (decide (p = a)) as [->|]; [by eexists|apply Hrun1; specialize (Hadj ltac:(lia)); lia]. }
      exists m'. split_and!; try done. eapply impl_same; [|exact Hr']. intros p _. specialize (Hadj ltac:(lia)).
      unfold upd. repeat destruct (decide _); try done; try lia. replace p with a by lia. rewrite Hx. cbn. rewrite Hclose.
      unfold do_free, dec. cbn. by rewrite Hz.
    + destruct (IH (S a) m1 _ (a - g_p0 g)%nat 1%nat Hr1) as (m' & Hm & Hr' & Hl); try lia; try done.
      { intros p Hp. replace p with a by lia. by eexists. }
      exists m'. split_and!; try done. eapply impl_same; [|exact Hr']. intros p _.
      unfold upd. repeat destruct (decide _); try done; try lia. replace p with a by lia. rewrite Hx. cbn. rewrite Hclose.
      unfold do_free, dec. cbn. by rewrite Hz.
  - assert (Hclose : do_close x = dec x) by (unfold do_close, dec; rewrite bool_decide_eq_false_2 by lia; by rewrite Hfx).
    destruct (Z.ltb_spec 0 (Z.of_nat fc)) as [Hfc|Hfc].
    + destruct (free_run_run m1 _ fs fc Hr1 Hfit Hrun1) as (m2 & Hm2 & Hr2 & Hl2). erewrite st_bind_run by exact Hm2.
      destruct (IH (S a) m2 _ fs 0%nat Hr2) as (m' & Hm & Hr' & Hl); try lia; try done.
      { intros p Hp. rewrite upd_out by lia. by apply Hpre1. }
      exists m'. split; [done|].
      split; [|destruct Hl as (E1 & E2 & E3), Hl2 as (E4 & E5 & E6); unfold same_links; by rewrite E1, E2, E3].
      eapply impl_same; [|exact Hr']. intros p _. specialize (Hadj ltac:(lia)).
      unfold upd. repeat destruct (decide _); try done; try lia. replace p with a by lia. rewrite Hx. cbn. by rewrite Hclose.
    + destruct (IH (S a) m1 _ fs fc Hr1) as (m' & Hm & Hr' & Hl); try lia; try done.
      exists m'. split_and!; try done. eapply impl_same; [|exact Hr']. intros p _.
      unfold upd. repeat destruct (decide _); try done; try lia. replace p with a by lia. rewrite Hx. cbn. by rewrite Hclose.
Qed.

Lemma Close_spec : impl_spec (Impl_Close assertions) pre_close do_close.
Proof using Hg.
  intros m σ a n Hr Ha Hn Hpre. unfold Impl_Close. erewrite st_bind_run by reflexivity.
  destruct (page_offset m σ a Hr ltac:(lia)) as [-> _]. rewrite rounds_run by done. change 0 with (Z.of_nat 0).
  destruct (close_loop_run n a m σ 0 0) as (m' & Hm & Hr' & Hl); try done; try lia.
  exists m'. split_and!; try done. eapply impl_same; [|exact Hr']. intros p _. unfold upd.
  repeat destruct (decide _); try done; lia.
Qed.

(** *** Allocating *)
Definition is_free σ p : Prop := ∃ x, σ p = Some (true, x).
Definition do_take (x : page) : page := (false, snd x).

(** No aligned block of [2 ^ k] pages of this manager is free. *)
Definition no_block σ (k : nat) : Prop :=
  ∀ a, (2 ^ k | a)%nat → ¬ ∀ p, (a ≤ p < a + 2 ^ k)%nat → in_mgr g p ∧ is_free σ p.

(** The outcome of an allocation of [n] pages in blocks of [2 ^ k]. *)
Definition impl_allocated σ n k j r m' : Prop :=
  (r = NullAddress ∧ impl_repr g m' σ ∧ no_block σ k) ∨
  ∃ a, r = addr_of a ∧ (0 < a)%nat ∧ (2 ^ j | a)%nat ∧ (g_p0 g ≤ a)%nat ∧ (a + n ≤ g_p0 g + g_np g)%nat ∧
    (∀ p, (a ≤ p < a + n)%nat → is_free σ p) ∧ impl_repr g m' (upd σ a n do_take).

Lemma free_page_in m σ F p : impl_repr g m σ → 
  heap_repr (g_levels g) (g_p0 g) (g_np g) (m_heap m) F → F ⊆ range (g_p0 g) (g_np g) →
  (∀ k x, m_page_reference_counts m !! k = Some x → in_width 16 x ∧ σ (g_p0 g + k)%nat = Some (bool_decide ((g_p0 g + k)%nat ∈ F), x)) →
  p ∈ F ↔ in_mgr g p ∧ is_free σ p.
Proof using Type.
  intros (F0 & _ & Hl & _) _ HF Hc.
  assert (Hat : in_mgr g p → ∃ x, σ p = Some (bool_decide (p ∈ F), x)).
  { intros Hp. unfold in_mgr in Hp. destruct (lookup_lt_is_Some_2 (m_page_reference_counts m) (p - g_p0 g)) as [y Hy]; [lia|].
    destruct (Hc _ _ Hy) as [_ Hs]. replace (g_p0 g + (p - g_p0 g))%nat with p in Hs by lia. by eexists. }
  split.
  - intros Hp. pose proof (HF p Hp) as Hr. rewrite elem_of_range in Hr. split; [done|]. destruct (Hat Hr) as [x Hx].
    rewrite bool_decide_eq_true_2 in Hx by done. by exists x.
  - intros [Hp [x Hx]]. destruct (Hat Hp) as [y Hy]. rewrite Hx in Hy. injection Hy as Hb _. symmetry in Hb. by apply bool_decide_eq_true in Hb.
Qed.

Lemma allocated_impl m σ n k j r s' (F : gset nat) :
  impl_repr g m σ → (0 < n)%nat →
  heap_repr (g_levels g) (g_p0 g) (g_np g) (m_heap m) F → F ⊆ range (g_p0 g) (g_np g) →
  (∀ k x, m_page_reference_counts m !! k = Some x → in_width 16 x ∧ σ (g_p0 g + k)%nat = Some (bool_decide ((g_p0 g + k)%nat ∈ F), x)) →
  (r = 0 ∧ heap_repr (g_levels g) (g_p0 g) (g_np g) s' F ∧ (∀ a, (2 ^ k | a)%nat → ¬ range a (2 ^ k) ⊆ F)) ∨
  (∃ a, r = addr_of a ∧ (0 < a)%nat ∧ (2 ^ j | a)%nat ∧ range a n ⊆ F ∧
     heap_repr (g_levels g) (g_p0 g) (g_np g) s' (F ∖ range a n)) →
  impl_allocated σ n k j r (set_impl_heap s' m).
Proof using Hg.
  intros Hr Hn Hh HF Hc Hcase. pose proof (λ p, free_page_in m σ F p Hr Hh HF Hc) as Hfree.
  destruct Hr as (F0 & _ & Hl & Ho & _). destruct Hcase as [(-> & Hh' & Hno)|(a & -> & Ha & Hd & Hsub & Hh')].
  - left. split_and!; [done|by exists F|]. intros a Ha Hall. apply (Hno a Ha). intros p Hp%elem_of_range. apply Hfree. by apply Hall.
  - right. assert (Hmem : ∀ p, (a ≤ p < a + n)%nat → p ∈ F) by (intros p Hp; apply Hsub; by apply elem_of_range).
    pose proof (HF _ (Hmem a ltac:(lia))) as H1. pose proof (HF _ (Hmem (a + n - 1)%nat ltac:(lia))) as H2.
    rewrite elem_of_range in H1, H2. exists a. split_and!; try done; try lia.
    + intros p Hp. by apply Hfree, Hmem.
    + eapply heap_change; try done.
      * set_solver.
      * intros p x Hp Hap. unfold do_take. cbn. f_equal. symmetry. apply bool_decide_eq_false_2. rewrite elem_of_difference, elem_of_range. tauto.
      * intros p Hp. rewrite elem_of_difference, elem_of_range. tauto.
Qed.

Lemma level_shift i k : kernel_shifts !! i = Some k → ∃ L, g_levels g !! i = Some L ∧ lk L = k.
Proof using Type.
  intros Hk. destruct (H_level (g_p0 g) (g_np g) kernel_shifts (g_base g) i k Hk) as (L & HL & Hlk & _). by exists L.
Qed.

Lemma AllocateAligned_spec m σ i k n j : impl_repr g m σ → kernel_shifts !! i = Some k → (0 < n ≤ 2 ^ k)%nat → (j ≤ k)%nat →
  ∃ r m', Impl_AllocateAligned assertions (Z.of_nat i) (Z.of_nat n) (Z.of_nat (2 ^ j)) m = Ok (r, m') ∧
    impl_allocated σ n k j r m' ∧ same_links m m'.
Proof using Hg.
  intros Hr Hk Hn Hj. pose proof Hr as (F & Hh & Hl & Ho & Hc & HF). destruct (level_shift i k Hk) as (L & HL & <-).
  destruct Hh as (Xs & Hrep & Hgood & HFX).
  destruct (AllocateByRandom_run (g_levels g) _ _ (mgr_geometry g Hg) assertions i L n j (m_heap m) Xs HL Hn Hj Hrep Hgood) as (r & s' & Hrun & Hall).
  pose proof (allocated_set (g_levels g) _ _ (mgr_geometry g Hg) Xs i L n j r s' Hgood HL (proj1 Hn) Hall) as Hcase.
  exists r, (set_impl_heap s' m). split_and!; try done.
  - unfold Impl_AllocateAligned, st_check. rewrite (proj2 (Z.leb_le 0 _)) by lia. erewrite st_bind_run by reflexivity.
    rewrite Nat2Z.id. by apply on_heap_run.
  - apply (allocated_impl m σ n (lk L) j r s' F); try done; [lia|by exists Xs|]. by rewrite HFX.
Qed.

Lemma AllocateBlock_spec m σ i k random : impl_repr g m σ → kernel_shifts !! i = Some k →
  ∃ r m', Impl_AllocateBlock assertions (Z.of_nat i) random m = Ok (r, m') ∧
    impl_allocated σ (2 ^ k) k k r m' ∧ same_links m m'.
Proof using Hg.
  intros Hr Hk. pose proof Hr as (F & Hh & Hl & Ho & Hc & HF). destruct (level_shift i k Hk) as (L & HL & <-).
  destruct Hh as (Xs & Hrep & Hgood & HFX). pose proof (pow2_pos_nat (lk L)) as Hpos.
  destruct (AllocateBlock_run (g_levels g) _ _ (mgr_geometry g Hg) assertions i L random (m_heap m) Xs HL Hrep Hgood) as (r & s' & Hrun & Hall).
  pose proof (allocated_set (g_levels g) _ _ (mgr_geometry g Hg) Xs i L _ _ r s' Hgood HL Hpos Hall) as Hcase.
  exists r, (set_impl_heap s' m). split_and!; try done.
  - unfold Impl_AllocateBlock, st_check. rewrite (proj2 (Z.leb_le 0 _)) by lia. erewrite st_bind_run by reflexivity.
    rewrite Nat2Z.id. by apply on_heap_run.
  - apply (allocated_impl m σ (2 ^ lk L) (lk L) (lk L) r s' F); try done; [by exists Xs|]. by rewrite HFX.
Qed.

(** *** The optimise map keeps its length and nothing else depends on it *)
Lemma track_loop_run b n k m σ : impl_repr g m σ → (0 < n → k + n ≤ g_np g)%nat →
  ∃ m', track_loop b n (Z.of_nat k) (Z.of_nat (k + n) - 1) m = Ok (tt, m') ∧ impl_repr g m' σ ∧ same_links m m'.
Proof using Hg.
  revert k m. induction n as [|n IH]; intros k m Hr Hk; cbn [track_loop].
  { rewrite (proj2 (Z.leb_gt _ _)) by lia. by exists m. }
  specialize (Hk ltac:(lia)). rewrite (proj2 (Z.leb_le _ _)) by lia.
  pose proof Hr as (F & Hh & Hl & Ho & Hc & HF). pose proof (g_bound (g_p0 g + g_np g) ltac:(lia)) as Hb. unfold addr_of in Hb.
  assert (Hdiv : Z.to_nat (Z.of_nat k / BITS) = (k / 64)%nat)
    by (unfold BITS; change 64 with (Z.of_nat 64); by rewrite <- Nat2Z.inj_div, Nat2Z.id).
  assert (Hlt : (k / 64 < length (m_optimize_map m))%nat) by (apply Nat.Div0.div_lt_upper_bound; lia).
  destruct (lookup_lt_is_Some_2 _ _ Hlt) as [v Hv].
  assert (Hread : read_map (Z.of_nat k / BITS) m = Ok (v, m)).
  { unfold read_map. erewrite st_bind_run by reflexivity. by rewrite Hdiv, Hv. }
  erewrite st_bind_run by exact Hread. erewrite st_bind_run by reflexivity. rewrite Hdiv.
  rewrite (wrap_small 64 (Z.of_nat k + 1)) by (unfold in_width; lia).
  replace (Z.of_nat k + 1) with (Z.of_nat (S k)) by lia. replace (Z.of_nat (k + S n) - 1) with (Z.of_nat (S k + n) - 1) by lia.
  match goal with |- context [track_loop _ _ _ _ ?m1] => destruct (IH (S k) m1) as (m' & Hrun & Hr' & Hlk) end.
  - exists F. split_and!; try done. cbn [m_optimize_map set_map]. by rewrite length_insert.
  - lia.
  - by exists m'.
Qed.

Lemma track_spec b m σ a n : impl_repr g m σ → (0 < n)%nat → (g_p0 g ≤ a)%nat → (a + n ≤ g_p0 g + g_np g)%nat →
  ∃ m', track b (addr_of a) (Z.of_nat n) m = Ok (tt, m') ∧ impl_repr g m' σ ∧ same_links m m'.
Proof using Hg.
  intros Hr Hn Ha Hb. unfold track. erewrite st_bind_run by reflexivity.
  destruct (page_offset m σ a Hr ltac:(lia)) as [-> _]. pose proof (g_bound (g_p0 g + g_np g) ltac:(lia)) as Hbd. unfold addr_of in Hbd.
  rewrite (wrap_small 64 (_ + _)) by (unfold in_width; lia). rewrite wrap_small by (unfold in_width; lia). rewrite Nat2Z.id.
  replace (Z.of_nat (a - g_p0 g) + Z.of_nat n - 1) with (Z.of_nat (a - g_p0 g + n) - 1) by lia. apply track_loop_run; [done|lia].
Qed.
End impl.

(** ** All managers *)
Section managers.
Context (assertions : bool) (linear : list Region.KMemoryRegion) (G : list mgr).
Implicit Types (s : mmstate) (i j : nat) (g : mgr).

(** The regions are disjoint, and the linear region tree leads to their managers. *)
Record layout : Prop := {
  lay_ok i g : G !! i = Some g → mgr_ok g;
  lay_disjoint i j g g' p : G !! i = Some g → G !! j = Some g' → in_mgr g p → in_mgr g' p → i = j;
  lay_linear i g p : G !! i = Some g → in_mgr g p →
    ∃ r, Region.GetPhysicalLinearRegion linear (addr_of p) = Ok r ∧ Region.m_attributes r = Z.of_nat i;
}.

Record mm_repr s σ : Prop := {
  mm_impl i g : G !! i = Some g → ∃ m, m_managers (mm s) !! i = Some m ∧ impl_repr g m σ;
  mm_domain p : is_Some (σ p) → ∃ i g, G !! i = Some g ∧ in_mgr g p;
}.

#[local] Instance mm_repr_proper s : Proper (pointwise_relation nat eq ==> iff) (mm_repr s).
Proof.
  intros σ σ' He. assert (Hd : ∀ τ τ', pointwise_relation nat eq τ τ' → mm_repr s τ → mm_repr s τ').
  { intros τ τ' Hτ [H1 H2]. split.
    - intros i g Hg. destruct (H1 i g Hg) as (m & Hm & Hr). exists m. split; [done|]. eapply impl_same; [|exact Hr]. intros p _. apply Hτ.
    - intros p Hp. apply H2. by rewrite (Hτ p). }
  split; apply Hd; [done|]. intros p. symmetry. apply He.
Qed.

(** Nothing changed but the heaps, the counts and the optimise maps. *)
Definition links (m : Impl) : option nat * option nat := (m_next m, m_prev m).
Record same_pools s s' : Prop := {
  sp_head : m_pool_managers_head (mm s') = m_pool_managers_head (mm s);
  sp_tail : m_pool_managers_tail (mm s') = m_pool_managers_tail (mm s);
  sp_num : m_num_managers (mm s') = m_num_managers (mm s);
  sp_ids : m_optimized_process_ids (mm s') = m_optimized_process_ids (mm s);
  sp_has : m_has_optimized_process (mm s') = m_has_optimized_process (mm s);
  sp_links i : links <$> m_managers (mm s') !! i = links <$> m_managers (mm s) !! i;
}.
#[local] Instance same_pools_pre : PreOrder same_pools.
Proof.
  split; [done|]. intros x y z [A1 A2 A3 A4 A5 A6] [B1 B2 B3 B4 B5 B6].
  split; try congruence; intros i; by rewrite B6, A6.
Qed.
Definition same_rest s s' : Prop := same_pools s s' ∧ out s' = out s ∧ filled s' = filled s.
#[local] Instance same_rest_pre : PreOrder same_rest.
Proof.
  split; [done|]. intros x y z (A1 & A2 & A3) (B1 & B2 & B3). split_and!; [by etransitivity|congruence..].
Qed.

Lemma get_manager_run s i m : m_managers (mm s) !! i = Some m → get_manager i s = Ok (m, s).
Proof. intros Hm. unfold get_manager. erewrite st_bind_run by reflexivity. by rewrite Hm. Qed.

Context (Hlay : layout).

(** A step of one manager. *)
Lemma on_manager_run {A} (f : implM A) s σ σ' i g m r m' :
  mm_repr s σ → G !! i = Some g → m_managers (mm s) !! i = Some m →
  f m = Ok (r, m') → impl_repr g m' σ' → same_links m m' →
  (∀ p, ¬ in_mgr g p → σ' p = σ p) →
  ∃ s', on_manager i f s = Ok (r, s') ∧ mm_repr s' σ' ∧ same_rest s s' ∧ m_managers (mm s') !! i = Some m'.
Proof using Hlay.
  intros Hr Hg Hm Hf Hr' (L1 & L2 & L3) Hout. pose proof (lookup_lt_Some _ _ _ Hm) as Hi.
  eexists. split; [unfold on_manager; erewrite st_bind_run by (by apply get_manager_run); rewrite Hf; reflexivity|].
  refine (conj _ (conj (conj _ (conj eq_refl eq_refl)) _)).
  - split; cbn.
    + intros j g' Hj. destruct (decide (j = i)) as [->|Hne].
      * simplify_eq. rewrite list_lookup_insert_eq by done. by exists m'.
      * rewrite list_lookup_insert_ne by done. destruct (mm_impl _ _ Hr j g' Hj) as (mj & Hmj & Hrj). exists mj. split; [done|].
        eapply impl_same; [|exact Hrj]. intros p Hp. symmetry. apply Hout. intros Hp'. apply Hne. by eapply lay_disjoint.
    + intros p Hp. destruct (decide (in_mgr g p)) as [Hin|Hn]; [by exists i, g|]. rewrite Hout in Hp by done. by apply (mm_domain _ _ Hr).
  - split; try done. cbn. intros j. destruct (decide (j = i)) as [->|Hne]; [|by rewrite list_lookup_insert_ne].
    rewrite list_lookup_insert_eq by done. rewrite Hm. cbn. unfold links. by rewrite L1, L2.
  - cbn. by apply list_lookup_insert_eq.
Qed.

Lemma GetManager_run s σ i g p : mm_repr s σ → G !! i = Some g → in_mgr g p → GetManager linear (addr_of p) s = Ok (i, s).
Proof using Hlay.
  intros Hr Hg Hp. destruct (lay_linear Hlay i g p Hg Hp) as (r & Hlin & Ha). unfold GetManager. rewrite Hlin.
  erewrite st_bind_run by reflexivity. rewrite Ha, Nat2Z.id. destruct (mm_impl _ _ Hr i g Hg) as (m & Hm & _).
  by erewrite st_bind_run by (by apply get_manager_run).
Qed.

(** An operation on a range of pages, over all the managers it touches. *)
Lemma split_loop_run (f : Z → Z → implM unit) (pre : page → Prop) (h : page → page) fuel s σ a n :
  (∀ g, mgr_ok g → impl_spec g f pre h) → mm_repr s σ → (n ≤ fuel)%nat →
  (∀ p, (a ≤ p < a + n)%nat → ∃ x, σ p = Some x ∧ pre x) →
  ∃ s', split_loop linear fuel f (addr_of a) (Z.of_nat n) s = Ok (tt, s') ∧ mm_repr s' (upd σ a n h) ∧ same_rest s s'.
Proof using Hlay.
  intros Hspec. revert s σ a n. induction fuel as [|fuel IH]; intros s σ a n Hr Hn Hpre; cbn [split_loop].
  { assert (n = 0)%nat as -> by lia. exists s. split_and!; try done. eapply mm_repr_proper; [|exact Hr]. intros p. apply upd_0. }
  destruct (decide (n = 0)%nat) as [->|Hn0].
  { exists s. split_and!; try done. eapply mm_repr_proper; [|exact Hr]. intros p. apply upd_0. }
  rewrite (proj2 (Z.eqb_neq _ 0)) by lia.
  destruct (Hpre a ltac:(lia)) as (x & Hx & _). destruct (mm_domain _ _ Hr a ltac:(by eexists)) as (i & g & Hg & Hin).
  erewrite st_bind_run by (by eapply GetManager_run). destruct (mm_impl _ _ Hr i g Hg) as (m & Hm & Him).
  erewrite st_bind_run by (by apply get_manager_run). pose proof (lay_ok Hlay i g Hg) as Hok. unfold in_mgr in Hin.
  destruct (page_offset g Hok m σ a Him ltac:(lia)) as [_ Hend]. rewrite Hend. rewrite <- Nat2Z.inj_min.
  set (k := Nat.min n (g_p0 g + g_np g - a)).
  destruct (Hspec g Hok m σ a k Him) as (m' & Hrun & Hr' & Hl); [lia|lia|intros p Hp; apply Hpre; lia|].
  destruct (on_manager_run (f (addr_of a) (Z.of_nat k)) s σ (upd σ a k h) i g m tt m') as (s1 & Hrun1 & Hr1 & Hs1 & _); try done.
  { intros p Hp. apply upd_out. unfold in_mgr in Hp. lia. }
  erewrite st_bind_run by exact Hrun1. pose proof (g_bound g Hok (a + k) ltac:(lia)) as Hb. unfold addr_of in Hb.
  assert (Haddr : u64 (addr_of a + u64 (Z.of_nat k * PageSize)) = addr_of (a + k)).
  { unfold addr_of, PageSize. rewrite (wrap_small 64 (Z.of_nat k * 4096)) by (unfold in_width; lia).
    rewrite wrap_small by (unfold in_width; lia). lia. }
  assert (Hnb : (a + n ≤ 2 ^ 32)%nat).
  { destruct (Hpre (a + n - 1)%nat ltac:(lia)) as (y & Hy & _). destruct (mm_domain _ _ Hr _ ltac:(by eexists)) as (i' & g' & Hg' & Hin').
    destruct (lay_ok Hlay i' g' Hg') as [_ Hb']. unfold in_mgr in Hin'. apply Nat2Z.inj_le. rewrite pow2_nat.
    change (2 ^ Z.of_nat 32) with (2 ^ 32). lia. }
  apply Nat2Z.inj_le in Hnb. rewrite pow2_nat in Hnb. change (2 ^ Z.of_nat 32) with (2 ^ 32) in Hnb.
  rewrite Haddr. rewrite (wrap_small 64 (Z.of_nat n - Z.of_nat k)) by (unfold in_width; lia).
  replace (Z.of_nat n - Z.of_nat k) with (Z.of_nat (n - k)) by lia.
  destruct (IH s1 (upd σ a k h) (a + k)%nat (n - k)%nat Hr1) as (s2 & Hrun2 & Hr2 & Hs2); [lia| |].
  { intros p Hp. rewrite upd_out by lia. apply Hpre. lia. }
  exists s2. split_and!; [done| |by etransitivity]. eapply mm_repr_proper; [|exact Hr2]. intros p. rewrite upd_join. by replace (k + (n - k))%nat with n by lia.
Qed.

(** Free pages are those without references. *)
Definition synced σ : Prop := ∀ p fr x, σ p = Some (fr, x) → fr = bool_decide (x = 0).

Lemma synced_upd σ a n (pre : page → Prop) h : synced σ →
  (∀ p, (a ≤ p < a + n)%nat → ∃ x, σ p = Some x ∧ pre x) →
  (∀ x, pre x → fst (h x) = bool_decide (snd (h x) = 0)) → synced (upd σ a n h).
Proof using Type.
  intros Hs Hpre Hh p fr x. unfold upd. destruct (decide _) as [Hp|]; [|apply Hs].
  destruct (Hpre p Hp) as (y & Hy & Hpy). rewrite Hy. intros [= Hx]. specialize (Hh y Hpy). by rewrite Hx in Hh.
Qed.

(** ** Lists of managers *)
Fixpoint linked s (dir : Z) (cur : option nat) (l : list nat) : Prop :=
  match l with
  | [] => cur = None
  | i :: l' => cur = Some i ∧ ∃ m, m_managers (mm s) !! i = Some m ∧
      linked s dir (if dir =? Direction_FromBack then m_prev m else m_next m) l'
  end.

Definition pool_managers s (pool : nat) (dir : Z) (l : list nat) : Prop :=
  (length l ≤ MaxManagerCount)%nat ∧ (∀ i, i ∈ l → is_Some (G !! i)) ∧
  ∃ first, (if dir =? Direction_FromBack then m_pool_managers_tail (mm s) !! pool else m_pool_managers_head (mm s) !! pool) = Some first ∧
    linked s dir first l.

Lemma linked_same s s' dir cur l : same_pools s s' → linked s dir cur l → linked s' dir cur l.
Proof using Type.
  intros Hs. revert cur. induction l as [|i l IH]; intros cur; cbn; [done|]. intros (-> & m & Hm & Hl). split; [done|].
  pose proof (sp_links _ _ Hs i) as Hk. rewrite Hm in Hk. destruct (m_managers (mm s') !! i) as [m'|]; [|done].
  injection Hk as E1 E2. exists m'. split; [done|]. rewrite E1, E2. by apply IH.
Qed.

Lemma pool_managers_same s s' pool dir l : same_pools s s' → pool_managers s pool dir l → pool_managers s' pool dir l.
Proof using Type.
  intros Hs (H1 & H2 & first & H3 & H4). split_and!; try done. exists first. rewrite (sp_head _ _ Hs), (sp_tail _ _ Hs).
  split; [done|]. by eapply linked_same.
Qed.

Lemma GetFirstManager_run s pool dir l : pool_managers s pool dir l →
  ∃ first, GetFirstManager pool dir s = Ok (first, s) ∧ linked s dir first l.
Proof using Type.
  intros (_ & _ & first & Hf & Hl). exists first. split; [|done]. unfold GetFirstManager. erewrite st_bind_run by reflexivity.
  destruct (dir =? Direction_FromBack); by rewrite Hf.
Qed.

Lemma GetNextManager_run s dir i m : m_managers (mm s) !! i = Some m →
  GetNextManager i dir s = Ok (if dir =? Direction_FromBack then m_prev m else m_next m, s).
Proof using Type. intros Hm. unfold GetNextManager. by erewrite st_bind_run by (by apply get_manager_run). Qed.

(** ** Continuous allocation *)
Definition no_block_in σ (l : list nat) (k : nat) : Prop := ∀ i g, i ∈ l → G !! i = Some g → no_block g σ k.

Lemma continuous_loop_run fuel cur dir l s σ i0 k n j :
  mm_repr s σ → linked s dir cur l → (length l ≤ fuel)%nat → (∀ i, i ∈ l → is_Some (G !! i)) →
  kernel_shifts !! i0 = Some k → (0 < n ≤ 2 ^ k)%nat → (j ≤ k)%nat →
  ∃ r s', continuous_loop assertions fuel cur dir (Z.of_nat i0) (Z.of_nat n) (Z.of_nat (2 ^ j)) s = Ok (r, s') ∧ same_rest s s' ∧
    ((r = None ∧ mm_repr s' σ ∧ no_block_in σ l k) ∨
     ∃ i g a, r = Some (i, addr_of a) ∧ i ∈ l ∧ G !! i = Some g ∧ (0 < a)%nat ∧ (2 ^ j | a)%nat ∧
       (g_p0 g ≤ a)%nat ∧ (a + n ≤ g_p0 g + g_np g)%nat ∧ (∀ p, (a ≤ p < a + n)%nat → is_free σ p) ∧
       mm_repr s' (upd σ a n do_take)).
Proof using Hlay.
  intros Hr Hl Hf Hin Hk Hn Hj. revert cur l s Hr Hl Hf Hin.
  induction fuel as [|fuel IH]; intros cur [|i l] s Hr Hl Hf Hin; cbn [length] in Hf; try lia.
  1,2: cbn in Hl; subst cur; cbn [continuous_loop]; exists None, s; split_and!; try done; left; split_and!; try done; intros i g Hi; set_solver.
  destruct Hl as (-> & m & Hm & Hl). cbn [continuous_loop]. destruct (Hin i ltac:(set_solver)) as [g Hg].
  destruct (mm_impl _ _ Hr i g Hg) as (m0 & Hm0 & Him). simplify_eq. pose proof (lay_ok Hlay i g Hg) as Hok.
  destruct (AllocateAligned_spec assertions g Hok m σ i0 k n j Him Hk Hn Hj) as (r & m' & Hrun & Hall & Hlk).
  destruct Hall as [(-> & Him' & Hno)|(a & -> & Ha & Hd & Hb1 & Hb2 & Hfree & Him')].
  - destruct (on_manager_run (Impl_AllocateAligned assertions (Z.of_nat i0) (Z.of_nat n) (Z.of_nat (2 ^ j))) s σ σ i g m NullAddress m')
      as (s1 & Hrun1 & Hr1 & Hs1 & Hm1); try done.
    erewrite st_bind_run by exact Hrun1. rewrite Z.eqb_refl. cbn [negb].
    erewrite st_bind_run by (by apply GetNextManager_run). destruct Hlk as (E1 & E2 & _). rewrite E1, E2.
    destruct (IH _ l s1 Hr1 (linked_same _ _ _ _ _ (proj1 Hs1) Hl)) as (r & s2 & Hrun2 & Hs2 & Hcase); [lia|set_solver|].
    exists r, s2. split_and!; [done|by etransitivity|]. destruct Hcase as [(-> & Hr2 & Hno2)|(i' & g' & a & -> & Hi' & Hrest)].
    + left. split_and!; try done. intros j' g' [->|Hj']%elem_of_cons Hg'; [by simplify_eq|by eapply Hno2].
    + right. exists i', g', a. split_and!; try done; [set_solver|apply Hrest..].
  - destruct (on_manager_run (Impl_AllocateAligned assertions (Z.of_nat i0) (Z.of_nat n) (Z.of_nat (2 ^ j))) s σ (upd σ a n do_take) i g m (addr_of a) m')
      as (s1 & Hrun1 & Hr1 & Hs1 & Hm1); try done.
    { intros p Hp. apply upd_out. unfold in_mgr in Hp. lia. }
    erewrite st_bind_run by exact Hrun1. rewrite (proj2 (Z.eqb_neq _ _)) by (unfold addr_of, NullAddress; lia). cbn [negb].
    exists (Some (i, addr_of a)), s1. split_and!; try done. right. exists i, g, a. split_and!; try done. set_solver.
Qed.

(** The size that [GetAlignedBlockIndex] chooses. *)
Lemma aligned_index_fits n j : (0 < n)%nat → Z.of_nat n ≤ 2 ^ 18 → (j ≤ 18)%nat →
  ∃ i k, GetAlignedBlockIndex (Z.of_nat n) (Z.of_nat (2 ^ j)) = Z.of_nat i ∧ kernel_shifts !! i = Some k ∧
    (n ≤ 2 ^ k)%nat ∧ (j ≤ k)%nat.
Proof using Hlay.
  intros Hn Hn18 Hj. unfold GetAlignedBlockIndex. change MemoryBlockPageShifts with (block_shifts kernel_shifts). change 0 with (Z.of_nat 0).
  destruct (aligned_index_run kernel_shifts (Z.max (Z.of_nat n) (Z.of_nat (2 ^ j))) 0) as [[_ Hall]|(m & k & -> & Hm & Hle & _)].
  { intros k Hk. apply list_elem_of_lookup_1 in Hk as [i Hi]. by apply (proj1 kernel_shifts_ok) in Hi. }
  - exfalso. specialize (Hall 18%nat ltac:(unfold kernel_shifts; set_solver)). rewrite !pow2_nat in Hall.
    assert (2 ^ Z.of_nat j ≤ 2 ^ Z.of_nat 18) by (apply Z.pow_le_mono_r; lia). change (2 ^ Z.of_nat 18) with (2 ^ 18) in *. lia.
  - exists m, k. split_and!; try done; [lia|]. destruct (decide (j ≤ k)%nat) as [|Hjk]; [done|].
    assert (2 ^ k < 2 ^ j)%nat by (apply Nat.pow_lt_mono_r; lia). lia.
Qed.

Lemma has_optimized_run s pool b : m_has_optimized_process (mm s) !! pool = Some b → has_optimized pool s = Ok (b, s).
Proof using Type. intros Hb. unfold has_optimized. erewrite st_bind_run by reflexivity. by rewrite Hb. Qed.

(** Tracking changes nothing that matters here. *)
Lemma track_manager b s σ i g a n : mm_repr s σ → G !! i = Some g → (0 < n)%nat → (g_p0 g ≤ a)%nat → (a + n ≤ g_p0 g + g_np g)%nat →
  ∃ s', on_manager i (track b (addr_of a) (Z.of_nat n)) s = Ok (tt, s') ∧ mm_repr s' σ ∧ same_rest s s'.
Proof using Hlay.
  intros Hr Hg Hn Ha Hb. destruct (mm_impl _ _ Hr i g Hg) as (m & Hm & Him).
  destruct (track_spec g (lay_ok Hlay i g Hg) b m σ a n Him Hn Ha Hb) as (m' & Hrun & Him' & Hlk).
  destruct (on_manager_run (track b (addr_of a) (Z.of_nat n)) s σ σ i g m tt m') as (s1 & Hrun1 & Hr1 & Hs1 & _); try done.
  by exists s1.
Qed.

(** An operation on pages of one manager. *)
Lemma spec_manager (f : Z → Z → implM unit) pre h s σ i g a n :
  (∀ g, mgr_ok g → impl_spec g f pre h) → mm_repr s σ → G !! i = Some g → (g_p0 g ≤ a)%nat → (a + n ≤ g_p0 g + g_np g)%nat →
  (∀ p, (a ≤ p < a + n)%nat → ∃ x, σ p = Some x ∧ pre x) →
  ∃ s', on_manager i (f (addr_of a) (Z.of_nat n)) s = Ok (tt, s') ∧ mm_repr s' (upd σ a n h) ∧ same_rest s s'.
Proof using Hlay.
  intros Hspec Hr Hg Ha Hb Hpre. destruct (mm_impl _ _ Hr i g Hg) as (m & Hm & Him).
  destruct (Hspec g (lay_ok Hlay i g Hg) m σ a n Him Ha Hb Hpre) as (m' & Hrun & Him' & Hlk).
  destruct (on_manager_run (f (addr_of a) (Z.of_nat n)) s σ (upd σ a n h) i g m tt m') as (s1 & Hrun1 & Hr1 & Hs1 & _); try done.
  { intros p Hp. apply upd_out. unfold in_mgr in Hp. lia. }
  by exists s1.
Qed.

Lemma AllocateAndOpenContinuous_run s σ option l n j :
  mm_repr s σ → synced σ → pool_managers s (Z.to_nat (GetPool_option option)) (GetDirection option) l →
  is_Some (m_has_optimized_process (mm s) !! Z.to_nat (GetPool_option option)) →
  (0 < n)%nat → Z.of_nat n ≤ 2 ^ 18 → (j ≤ 18)%nat →
  ∃ r s', AllocateAndOpenContinuous assertions (Z.of_nat n) (Z.of_nat (2 ^ j)) option s = Ok (r, s') ∧ same_rest s s' ∧
    ((r = NullAddress ∧ mm_repr s' σ ∧ ∃ k, no_block_in σ l k ∧ (n ≤ 2 ^ k)%nat ∧ (j ≤ k)%nat ∧
        kernel_shifts !! Z.to_nat (GetAlignedBlockIndex (Z.of_nat n) (Z.of_nat (2 ^ j))) = Some k) ∨
     ∃ a, r = addr_of a ∧ (0 < a)%nat ∧ (2 ^ j | a)%nat ∧
       (∃ i g, i ∈ l ∧ G !! i = Some g ∧ (g_p0 g ≤ a)%nat ∧ (a + n ≤ g_p0 g + g_np g)%nat) ∧
       (∀ p, (a ≤ p < a + n)%nat → σ p = Some (true, 0)) ∧
       mm_repr s' (upd σ a n do_first) ∧ synced (upd σ a n do_first)).
Proof using Hlay.
  intros Hr Hsync Hpool [b Hb] Hn Hn18 Hj. unfold AllocateAndOpenContinuous. rewrite (proj2 (Z.eqb_neq _ 0)) by lia.
  destruct (aligned_index_fits n j Hn Hn18 Hj) as (i0 & k & -> & Hk & Hnk & Hjk).
  destruct (GetFirstManager_run _ _ _ _ Hpool) as (first & Hfirst & Hl). erewrite st_bind_run by exact Hfirst.
  destruct Hpool as (Hlen & Hin & _).
  destruct (continuous_loop_run MaxManagerCount first (GetDirection option) l s σ i0 k n j Hr Hl Hlen Hin Hk ltac:(lia) Hjk)
    as (r & s1 & Hrun & Hs1 & Hcase). erewrite st_bind_run by exact Hrun.
  destruct Hcase as [(-> & Hr1 & Hno)|(i & g & a & -> & Hi & Hg & Ha & Hd & Hb1 & Hb2 & Hfree & Hr1)].
  { exists NullAddress, s1. split_and!; try done. left. split_and!; try done. exists k. by rewrite Nat2Z.id. }
  assert (Hzero : ∀ p, (a ≤ p < a + n)%nat → σ p = Some (true, 0)).
  { intros p Hp. destruct (Hfree p Hp) as [x Hx]. rewrite Hx. pose proof (Hsync _ _ _ Hx) as Hz. symmetry in Hz.
    apply bool_decide_eq_true in Hz. by rewrite Hz. }
  erewrite st_bind_run by (apply has_optimized_run; by rewrite (sp_has _ _ (proj1 Hs1))).
  assert (∃ s2, (if b then on_manager i (TrackUnoptimizedAllocation (addr_of a) (Z.of_nat n)) else mret tt) s1 = Ok (tt, s2) ∧
    mm_repr s2 (upd σ a n do_take) ∧ same_rest s1 s2) as (s2 & Hrun2 & Hr2 & Hs2).
  { destruct b; [by eapply track_manager|by exists s1]. }
  erewrite st_bind_run by exact Hrun2.
  destruct (spec_manager Impl_OpenFirst pre_first do_first s2 (upd σ a n do_take) i g a n) as (s3 & Hrun3 & Hr3 & Hs3); try done.
  { intros g' Hg'. by apply OpenFirst_spec. }
  { intros p Hp. rewrite upd_in, Hzero by done. by eexists. }
  erewrite st_bind_run by exact Hrun3. exists (addr_of a), s3. split_and!; try done; [by etransitivity; [|etransitivity]|].
  right. exists a. split_and!; try done.
  - by exists i, g.
  - eapply mm_repr_proper; [|exact Hr3]. intros p. unfold upd. destruct (decide _); [|done]. by destruct (σ p).
  - apply (synced_upd σ a n (λ _, True)); try done. intros p Hp. rewrite Hzero by done. by eexists.
Qed.
End managers.
