(* ===== verification/MemoryManagerGroup.v ===== *)
(** * Page groups and the memory manager

    The pages of a group are references to the memory manager's pages.  Opening
    and closing a group opens and closes each of its pages once; allocating a
    group takes as many free pages as asked for, or reports what is missing. *)

From S2P Require Import Prelude Vapours TinyMT PageBitmap PageBitmapSpec PageHeap PageHeapSpec PageHeapInit PageHeapRefine MemoryRegion PageGroup PageGroupSpec MemoryManager MemoryManagerSpec.
Implicit Types (σ : pages) (a n p : nat) (L : list nat).

(** The pages of a list change by [h]. *)
Definition mark (h : page → page) σ L : pages := λ p, if decide (p ∈ L) then h <$> σ p else σ p.

Lemma mark_in h σ L p : p ∈ L → mark h σ L p = h <$> σ p.
Proof. intros Hp. unfold mark. by rewrite decide_True. Qed.
Lemma mark_out h σ L p : p ∉ L → mark h σ L p = σ p.
Proof. intros Hp. unfold mark. by rewrite decide_False. Qed.
Lemma mark_nil h σ p : mark h σ [] p = σ p.
Proof. apply mark_out. set_solver. Qed.
Lemma elem_of_pages a n p : p ∈ seq a n ↔ (a ≤ p < a + n)%nat.
Proof. apply elem_of_seq. Qed.
Lemma mark_upd h σ a n p : upd σ a n h p = mark h σ (seq a n) p.
Proof.
  destruct (decide (a ≤ p < a + n)%nat) as [Hp|Hp].
  - rewrite upd_in by done. symmetry. apply mark_in. by apply elem_of_pages.
  - rewrite upd_out by done. symmetry. apply mark_out. by rewrite elem_of_pages.
Qed.

(** Pages that are marked one after the other. *)
Lemma mark_more h σ L a n p : (∀ q, q ∈ L → q ∉ seq a n) → upd (mark h σ L) a n h p = mark h σ (L ++ seq a n) p.
Proof.
  intros Hd. rewrite mark_upd. unfold mark. destruct (decide (p ∈ seq a n)), (decide (p ∈ L)), (decide (p ∈ L ++ seq a n)); set_solver.
Qed.
Lemma mark_first h σ L a n p : (∀ q, q ∈ L → q ∉ seq a n) → mark h (upd σ a n h) L p = mark h σ (seq a n ++ L) p.
Proof.
  intros Hd. unfold mark. rewrite mark_upd. unfold mark. destruct (decide (p ∈ seq a n)), (decide (p ∈ L)), (decide (p ∈ seq a n ++ L)); set_solver.
Qed.

Lemma synced_mark σ L (pre : page → Prop) h : synced σ → (∀ p, p ∈ L → ∃ x, σ p = Some x ∧ pre x) →
  (∀ x, pre x → fst (h x) = bool_decide (snd (h x) = 0)) → synced (mark h σ L).
Proof.
  intros Hs Hpre Hh p fr x. unfold mark. destruct (decide _) as [Hp|]; [|apply Hs].
  destruct (Hpre p Hp) as (y & Hy & Hpy). rewrite Hy. intros [= Hx]. specialize (Hh y Hpy). by rewrite Hx in Hh.
Qed.

Section groups.
Context (assertions : bool) (linear : list Region.KMemoryRegion) (G : list mgr) (Hlay : layout linear G).
Implicit Types (s : mmstate) (i j : nat) (g : mgr) (bl : list PageGroup.KBlockInfo).
#[local] Existing Instance mm_repr_proper.
#[local] Existing Instance same_pools_pre.
#[local] Existing Instance same_rest_pre.
Abbreviation mm_repr := (mm_repr G).

(** ** Every block of a group *)
Definition split_all (f : Z → Z → implM unit) (a n : Z) : mmM unit := split_loop linear (Z.to_nat n) f a n.

Lemma on_blocks_run (f : Z → Z → implM unit) pre h bl s σ :
  (∀ g, mgr_ok g → impl_spec g f pre h) → mm_repr s σ → Forall info_ok bl → NoDup (group_pages bl) →
  (∀ p, p ∈ group_pages bl → ∃ x, σ p = Some x ∧ pre x) →
  ∃ s', on_blocks (split_all f) bl s = Ok (tt, s') ∧ mm_repr s' (mark h σ (group_pages bl)) ∧ same_rest s s'.
Proof using Hlay.
  intros Hspec. revert s σ. induction bl as [|b bl IH]; intros s σ Hr Hok Hnd Hpre; cbn [on_blocks].
  { exists s. split_and!; try done. }
  apply Forall_cons in Hok as [Hb Hok]. destruct (info_addresses b Hb) as (Ha & Hn & _).
  change (group_pages (b :: bl)) with (block_pages b ++ group_pages bl) in *. apply NoDup_app in Hnd as (_ & Hdis & Hnd).
  destruct (split_loop_run linear G Hlay f pre h (Z.to_nat (PageGroup.GetNumPages b)) s σ (Z.to_nat (PageGroup.m_page_index b))
    (Z.to_nat (PageGroup.m_num_pages b)) Hspec Hr) as (s1 & Hrun & Hr1 & Hs1); [rewrite Hn; lia| |].
  { intros p Hp. apply Hpre. apply elem_of_app. left. by apply elem_of_pages. }
  unfold split_all at 1. rewrite Ha. rewrite Hn in Hrun |- *. erewrite st_bind_run by exact Hrun.
  destruct (IH s1 _ Hr1 Hok Hnd) as (s2 & Hrun2 & Hr2 & Hs2).
  { intros p Hp. rewrite upd_out; [apply Hpre; set_solver|]. rewrite <- elem_of_pages. intros Hq. by apply (Hdis p). }
  exists s2. split_and!; [done| |by etransitivity]. eapply mm_repr_proper; [|exact Hr2]. intros p. symmetry. apply mark_first.
  intros q Hq Hq'. by apply (Hdis q).
Qed.

Lemma open_blocks_on_blocks bl s : open_blocks linear bl s = on_blocks (split_all Impl_OpenFirst) bl s.
Proof using Type.
  revert s. induction bl as [|b bl IH]; intros s; cbn [open_blocks on_blocks]; [done|].
  unfold mbind, st_bind. 
  change (split_all Impl_OpenFirst (PageGroup.GetAddress b) (PageGroup.GetNumPages b) s)
    with (split_loop linear (Z.to_nat (PageGroup.GetNumPages b)) Impl_OpenFirst (PageGroup.GetAddress b) (PageGroup.GetNumPages b) s).
  destruct (split_loop _ _ _ _ _ _) as [[[] s1]|e]; [apply IH|done].
Qed.

(** ** Allocating a group *)

(** A block that lies in one manager of the pool [l]. *)
Definition one_mgr (l : list nat) (b : PageGroup.KBlockInfo) : Prop :=
  ∃ i g, i ∈ l ∧ G !! i = Some g ∧ (g_p0 g ≤ Z.to_nat (PageGroup.m_page_index b))%nat ∧
    (Z.to_nat (PageGroup.m_page_index b) + Z.to_nat (PageGroup.m_num_pages b) ≤ g_p0 g + g_np g)%nat.
(** No manager of the pool begins where another one ends. *)
Definition apart (l : list nat) : Prop :=
  ∀ i j g g', i ∈ l → j ∈ l → G !! i = Some g → G !! j = Some g' → g_p0 g' ≠ (g_p0 g + g_np g)%nat.
Definition pool_page (l : list nat) p : Prop := ∃ i g, i ∈ l ∧ G !! i = Some g ∧ in_mgr g p.

(** The group holds pages of the pool that were free in [σ]. *)
Record holding (l : list nat) σ s : Prop := {
  ho_repr : mm_repr s (mark do_take σ (group_pages (PageGroup.blocks (out s))));
  ho_nodup : NoDup (group_pages (PageGroup.blocks (out s)));
  ho_ok : Forall info_ok (PageGroup.blocks (out s));
  ho_free p : p ∈ group_pages (PageGroup.blocks (out s)) → pool_page l p ∧ is_free σ p;
  ho_one : apart l → Forall (one_mgr l) (PageGroup.blocks (out s));
}.
Definition held s : nat := length (group_pages (PageGroup.blocks (out s))).

Lemma on_group_run {A} (f : stM PageGroup.group A) s r gr : f (out s) = Ok (r, gr) →
  on_group f s = Ok (r, mkMM (mm s) gr (filled s)).
Proof using Type. intros Hf. unfold on_group. erewrite st_bind_run by reflexivity. by rewrite Hf. Qed.

(** Joining with the last block stays in one manager when the managers are apart. *)
Lemma one_mgr_added l bl a n bl' i g : apart l → Forall (one_mgr l) bl → Forall info_ok bl → i ∈ l → G !! i = Some g →
  (0 < n)%nat → (g_p0 g ≤ a)%nat → (a + n ≤ g_p0 g + g_np g)%nat → added bl a n bl' → Forall (one_mgr l) bl'.
Proof using Hlay.
  intros Hap Hone Hok Hi Hg Hn Ha Hb Hadd. destruct Hadd as [|bl0 b -> ->].
  - apply Forall_app. split; [done|]. constructor; [|done]. exists i, g. cbn. rewrite !Nat2Z.id. done.
  - apply Forall_app in Hone as [Hone Hb1], Hok as [_ Hb2]. apply Forall_app. split; [done|].
    apply Forall_cons in Hb1 as [(j & g' & Hj & Hg' & H1 & H2) _], Hb2 as [(H3 & H4 & H5) _]. constructor; [|done].
    exists i, g. cbn. split_and!; try done; [|lia]. specialize (Hap j i g' g Hj Hi Hg' Hg).
    destruct (decide (i = j)) as [->|Hne]; [by simplify_eq|]. exfalso. apply Hne.
    set (e := (Z.to_nat (PageGroup.m_page_index b) + Z.to_nat (PageGroup.m_num_pages b))%nat) in *.
    destruct (decide (e = g_p0 g' + g_np g')%nat).
    + apply (lay_disjoint _ _ Hlay i j g g' (e - 1)%nat); try done; unfold in_mgr; lia.
    + apply (lay_disjoint _ _ Hlay i j g g' e); try done; unfold in_mgr; lia.
Qed.

Lemma is_free_taken σ L p : is_free (mark do_take σ L) p → is_free σ p ∧ p ∉ L.
Proof using Type.
  intros [x Hx]. unfold mark in Hx. destruct (decide _) as [Hp|Hp]; [|by split; [exists x|]].
  destruct (σ p) as [[]|]; cbn in Hx; done.
Qed.

(** A block of free pages joins the group. *)
Lemma holding_added l σ s s' i g a n : holding l σ s → i ∈ l → G !! i = Some g → (0 < n)%nat → (0 < a)%nat →
  (g_p0 g ≤ a)%nat → (a + n ≤ g_p0 g + g_np g)%nat →
  (∀ p, (a ≤ p < a + n)%nat → is_free (mark do_take σ (group_pages (PageGroup.blocks (out s)))) p) →
  mm_repr s' (upd (mark do_take σ (group_pages (PageGroup.blocks (out s)))) a n do_take) →
  added (PageGroup.blocks (out s)) a n (PageGroup.blocks (out s')) → holding l σ s' ∧ held s' = (held s + n)%nat.
Proof using Hlay.
  intros [Hr Hnd Hok Hfree Hone] Hi Hg Hn Ha Hp0 Hend Hfr Hr' Hadd.
  destruct (lay_ok _ _ Hlay i g Hg) as [_ Hfit].
  destruct (added_pages _ _ _ _ Hok Ha Hn ltac:(lia) Hadd) as [Hpages Hok'].
  assert (Hdis : ∀ q, q ∈ group_pages (PageGroup.blocks (out s)) → q ∉ seq a n).
  { intros q Hq Hq'. apply elem_of_pages, Hfr, is_free_taken in Hq'. by destruct Hq'. }
  split; [|unfold held; by rewrite Hpages, length_app, length_seq]. split; rewrite ?Hpages.
  - eapply mm_repr_proper; [|exact Hr']. intros p. symmetry. by apply mark_more.
  - apply NoDup_app. split_and!; [done|done|apply NoDup_seq].
  - done.
  - intros p [Hp|Hp]%elem_of_app; [by apply Hfree|]. apply elem_of_pages in Hp. split; [|by eapply is_free_taken, Hfr].
    exists i, g. split_and!; try done. unfold in_mgr. lia.
  - intros Hap. by apply (one_mgr_added l _ a n _ i g Hap (Hone Hap) Hok).
Qed.

(** No block of [2 ^ k] free pages is left in the managers [l] beside the group. *)
Definition exhausted σ s (l : list nat) (k : nat) : Prop :=
  no_block_in G (mark do_take σ (group_pages (PageGroup.blocks (out s)))) l k.

(** Where an allocation got to: [n] pages are missing, and then [r]. *)
Definition allocated l σ s n (r : Result + Z) s' : Prop :=
  holding l σ s' ∧ same_pools s s' ∧
  (r = inl ResultOutOfResource ∨ ∃ n', r = inr (Z.of_nat n') ∧ (n' ≤ n)%nat ∧ (held s' + n')%nat = (held s + n)%nat).

Lemma allocated_holding l σ s n r s' : allocated l σ s n r s' → holding l σ s' ∧ same_pools s s'.
Proof using Type. by intros (H1 & H2 & _). Qed.

(** More pages held, fewer blocks free. *)
Definition grows s s' : Prop := group_pages (PageGroup.blocks (out s)) ⊆ group_pages (PageGroup.blocks (out s')).
#[local] Instance grows_pre : PreOrder grows.
Proof. unfold grows. split; [by intros x p|]. intros x y z H1 H2 p Hp. by apply H2, H1. Qed.

Lemma is_free_grows σ L L' p : L ⊆ L' → is_free (mark do_take σ L') p → is_free (mark do_take σ L) p.
Proof using Type.
  intros Hsub [[x Hx] Hp]%is_free_taken. exists x. rewrite mark_out; [done|]. intros Hq. by apply Hp, Hsub.
Qed.

Lemma exhausted_grows σ s s' l k : grows s s' → exhausted σ s l k → exhausted σ s' l k.
Proof using Type.
  intros Hsub Hex i g Hi Hg a Ha Hall. apply (Hex i g Hi Hg a Ha). intros p Hp. destruct (Hall p Hp) as [Hin Hfree].
  split; [done|]. by eapply is_free_grows.
Qed.

(** Taking one block: the state of the manager and the group. *)
Lemma AllocateBlock_manager s σ i g index k random : mm_repr s σ → G !! i = Some g → kernel_shifts !! index = Some k →
  ∃ r s1, on_manager i (Impl_AllocateBlock assertions (Z.of_nat index) random) s = Ok (r, s1) ∧ same_rest s s1 ∧
    ((r = NullAddress ∧ mm_repr s1 σ ∧ no_block g σ k) ∨
     ∃ a, r = addr_of a ∧ (0 < a)%nat ∧ (g_p0 g ≤ a)%nat ∧ (a + 2 ^ k ≤ g_p0 g + g_np g)%nat ∧
       (∀ p, (a ≤ p < a + 2 ^ k)%nat → is_free σ p) ∧ mm_repr s1 (upd σ a (2 ^ k) do_take)).
Proof using Hlay.
  intros Hr Hg Hk. destruct (mm_impl _ _ _ Hr i g Hg) as (m & Hm & Him). pose proof (lay_ok _ _ Hlay i g Hg) as Hok.
  destruct (AllocateBlock_spec assertions g Hok m σ index k random Him Hk) as (r & m' & Hrun & Hcase & Hlk).
  destruct Hcase as [(-> & Him' & Hno)|(a & -> & Ha & _ & Hb1 & Hb2 & Hfree & Him')].
  - destruct (on_manager_run linear G Hlay _ s σ σ i g m _ m' Hr Hg Hm Hrun Him' Hlk) as (s1 & Hrun1 & Hr1 & Hs1 & _); [done|].
    exists NullAddress, s1. split_and!; try done. by left.
  - destruct (on_manager_run linear G Hlay _ s σ (upd σ a (2 ^ k) do_take) i g m _ m' Hr Hg Hm Hrun Him' Hlk) as (s1 & Hrun1 & Hr1 & Hs1 & _).
    { intros p Hp. apply upd_out. unfold in_mgr in Hp. lia. }
    exists (addr_of a), s1. split_and!; try done. right. by exists a.
Qed.

Lemma holding_same l σ s s' : out s' = out s → mm_repr s' (mark do_take σ (group_pages (PageGroup.blocks (out s)))) →
  holding l σ s → holding l σ s'.
Proof using Type. intros Ho Hr [H1 H2 H3 H4 H5]. split; by rewrite Ho. Qed.

Lemma mm_repr_group s gr fl σ : mm_repr s σ → mm_repr (mkMM (mm s) gr fl) σ.
Proof using Type. by intros [H1 H2]. Qed.

(** Giving a block back that was just taken. *)
Lemma free_taken σ a n p : (∀ q, (a ≤ q < a + n)%nat → is_free σ q) → upd (upd σ a n do_take) a n do_free p = σ p.
Proof using Type.
  intros Hfree. unfold upd. destruct (decide _) as [Hp|]; [|done]. destruct (Hfree p Hp) as [x ->]. done.
Qed.

(** The block goes to the group, or back to its manager when the group cannot grow. *)
Lemma place_block l σ s i g a n unoptimized s1 : holding l σ s → i ∈ l → G !! i = Some g → (0 < n)%nat → (0 < a)%nat →
  (g_p0 g ≤ a)%nat → (a + n ≤ g_p0 g + g_np g)%nat →
  (∀ p, (a ≤ p < a + n)%nat → is_free (mark do_take σ (group_pages (PageGroup.blocks (out s)))) p) →
  mm_repr s1 (upd (mark do_take σ (group_pages (PageGroup.blocks (out s)))) a n do_take) → same_rest s s1 →
  ∃ r s2, on_group (PageGroup.AddBlock assertions (addr_of a) (Z.of_nat n)) s1 = Ok (r, s2) ∧ same_pools s s2 ∧
    ((r = ResultSuccess ∧ ∃ s3, (if unoptimized : bool then on_manager i (TrackUnoptimizedAllocation (addr_of a) (Z.of_nat n)) else mret tt) s2
         = Ok (tt, s3) ∧ holding l σ s3 ∧ held s3 = (held s + n)%nat ∧ same_pools s s3 ∧ grows s s3) ∨
     (r = ResultOutOfResource ∧ ∃ s3, on_manager i (Impl_Free assertions (addr_of a) (Z.of_nat n)) s2 = Ok (tt, s3) ∧
         holding l σ s3 ∧ held s3 = held s ∧ same_pools s s3 ∧ grows s s3)).
Proof using Hlay.
  intros Hho Hi Hg Hn Ha Hp0 Hend Hfree Hr1 (Hs1 & Ho1 & Hf1). destruct (lay_ok _ _ Hlay i g Hg) as [_ Hfit].
  destruct (AddBlock_run assertions (out s1) a n) as (r & gr & Hadd & Hcase); [rewrite Ho1; apply Hho|done|done|lia|].
  exists r, (mkMM (mm s1) gr (filled s1)). split_and!; [by apply on_group_run|by destruct Hs1|].
  pose proof (mm_repr_group s1 gr (filled s1) _ Hr1) as Hr2. assert (Hs2 : same_pools s (mkMM (mm s1) gr (filled s1))) by (by destruct Hs1).
  destruct Hcase as [[-> ->]|[-> Hbl]]; [right|left]; (split; [done|]).
  - destruct (spec_manager linear G Hlay (Impl_Free assertions) pre_free do_free _ _ i g a n (Free_spec assertions) Hr2 Hg Hp0 Hend)
      as (s3 & Hrun3 & Hr3 & Hs3 & Ho3 & Hf3).
    { intros p Hp. rewrite upd_in by done. destruct (Hfree p Hp) as [x ->]. by eexists. }
    cbn in Ho3. exists s3. rewrite Ho1 in Ho3. split_and!; [done| | | |].
    + eapply holding_same; [done| |exact Hho]. eapply mm_repr_proper; [|exact Hr3]. intros p. symmetry. by apply free_taken.
    + unfold held. by rewrite Ho3.
    + by etransitivity.
    + unfold grows. by rewrite Ho3.
  - rewrite Ho1 in Hbl. set (s2 := mkMM (mm s1) gr (filled s1)) in *.
    assert (∃ s3, (if unoptimized then on_manager i (TrackUnoptimizedAllocation (addr_of a) (Z.of_nat n)) else mret tt) s2 = Ok (tt, s3) ∧
      mm_repr s3 (upd (mark do_take σ (group_pages (PageGroup.blocks (out s)))) a n do_take) ∧ same_rest s2 s3) as (s3 & Hrun3 & Hr3 & Hs3 & Ho3 & _).
    { destruct unoptimized; [by eapply track_manager|by exists s2]. }
    exists s3. split; [done|]. assert (Hbl3 : added (PageGroup.blocks (out s)) a n (PageGroup.blocks (out s3))) by (by rewrite Ho3).
    destruct (holding_added l σ s s3 i g a n Hho Hi Hg Hn Ha Hp0 Hend Hfree Hr3 Hbl3) as [Hh3 Hheld]. split_and!; try done; [by etransitivity|].
    destruct (added_pages _ _ _ _ (ho_ok _ _ _ Hho) Ha Hn ltac:(lia) Hbl3) as [Hpages _]. unfold grows. rewrite Hpages. set_solver.
Qed.

Lemma block_loop_run fuel l σ s i g index k n unoptimized random :
  holding l σ s → i ∈ l → G !! i = Some g → kernel_shifts !! index = Some k → (n ≤ fuel)%nat → Z.of_nat n < 2 ^ 64 →
  ∃ r s', block_loop assertions fuel i (Z.of_nat index) (Z.of_nat (2 ^ k)) (Z.of_nat n) unoptimized random s = Ok (r, s') ∧
    allocated l σ s n r s' ∧ grows s s' ∧
    (∀ n', r = inr (Z.of_nat n') → (2 ^ k ≤ n')%nat → exhausted σ s' [i] k).
Proof using Hlay.
  intros Hho Hi Hg Hk. revert s n Hho. pose proof (pow2_pos_nat k) as Hpos.
  induction fuel as [|fuel IH]; intros s n Hho Hfuel Hn; cbn [block_loop].
  { rewrite (proj2 (Z.leb_gt _ _)) by lia. exists (inr (Z.of_nat n)), s. split_and!; [done|..|done|].
    - split_and!; try done. right. by exists n.
    - intros n' [= E] Hle. lia. }
  destruct (Z.leb_spec (Z.of_nat (2 ^ k)) (Z.of_nat n)) as [Hle|Hlt].
  2:{ exists (inr (Z.of_nat n)), s. split_and!; [done|..|done|].
      - split_and!; try done. right. by exists n.
      - intros n' [= E] Hle. lia. }
  destruct (AllocateBlock_manager s _ i g index k random (ho_repr _ _ _ Hho) Hg Hk) as (r & s1 & Hrun1 & Hs1 & Hcase).
  erewrite st_bind_run by exact Hrun1. destruct Hcase as [(-> & Hr1 & Hno)|(a & -> & Ha & Hp0 & Hend & Hfree & Hr1)].
  { rewrite Z.eqb_refl. destruct Hs1 as (Hs1 & Ho1 & _). exists (inr (Z.of_nat n)), s1. split_and!; [done|..].
    - split_and!; [by eapply holding_same|done|]. right. exists n. unfold held. by rewrite Ho1.
    - unfold grows. by rewrite Ho1.
    - intros n' _ _ j g' Hj Hg'. apply list_elem_of_singleton in Hj as ->. simplify_eq. by rewrite Ho1. }
  rewrite (proj2 (Z.eqb_neq _ _)) by (unfold addr_of, NullAddress; lia).
  destruct (place_block l σ s i g a (2 ^ k) unoptimized s1 Hho Hi Hg Hpos Ha Hp0 Hend Hfree Hr1 Hs1) as (r & s2 & Hrun2 & Hs2 & Hcase).
  erewrite st_bind_run by exact Hrun2. destruct Hcase as [(-> & s3 & Hrun3 & Hh3 & Hheld3 & Hs3 & Hg3)|(-> & s3 & Hrun3 & Hh3 & Hheld3 & Hs3 & Hg3)].
  - rewrite bool_decide_eq_true_2 by done. erewrite st_bind_run by exact Hrun3.
    rewrite wrap_small by (unfold in_width; lia). replace (Z.of_nat n - Z.of_nat (2 ^ k)) with (Z.of_nat (n - 2 ^ k)) by lia.
    destruct (IH s3 (n - 2 ^ k)%nat Hh3) as (r & s4 & Hrun4 & (Hh4 & Hs4 & Hcase4) & Hg4 & Hex4); [lia|lia|].
    exists r, s4. split_and!; [done| |by etransitivity|done]. split_and!; [done|by etransitivity|].
    destruct Hcase4 as [->|(n' & -> & Hle' & Hn')]; [by left|right]. exists n'. split; [done|]. lia.
  - rewrite bool_decide_eq_false_2 by done. erewrite st_bind_run by exact Hrun3.
    exists (inl ResultOutOfResource), s3. split_and!; [done|..|done]; [|done]. split_and!; try done. by left.
Qed.

Lemma managers_loop_run fuel l σ s cur dir l' index k n unoptimized random :
  holding l σ s → linked s dir cur l' → l' ⊆ l → (length l' ≤ fuel)%nat → (∀ i, i ∈ l → is_Some (G !! i)) →
  kernel_shifts !! index = Some k → Z.of_nat n < 2 ^ 64 →
  ∃ r s', managers_loop assertions fuel cur dir (Z.of_nat index) (Z.of_nat (2 ^ k)) (Z.of_nat n) unoptimized random s = Ok (r, s') ∧
    allocated l σ s n r s' ∧ grows s s' ∧
    (∀ n', r = inr (Z.of_nat n') → (2 ^ k ≤ n')%nat → exhausted σ s' l' k).
Proof using Hlay.
  intros Hho Hl Hsub Hf HG Hk. revert s n cur l' Hho Hl Hsub Hf.
  induction fuel as [|fuel IH]; intros s n cur [|i l'] Hho Hl Hsub Hf Hn; cbn [length] in Hf; try lia.
  1,2: cbn in Hl; subst cur; cbn [managers_loop]; exists (inr (Z.of_nat n)), s; split_and!; try done;
    [split_and!; try done; right; by exists n|intros n' _ _ j g Hj; set_solver].
  destruct Hl as (-> & m & Hm & Hl). cbn [managers_loop]. assert (Hi : i ∈ l) by (apply Hsub; set_solver).
  destruct (HG i Hi) as [g Hg]. rewrite Nat2Z.id.
  destruct (block_loop_run n l σ s i g index k n unoptimized random Hho Hi Hg Hk ltac:(lia) Hn)
    as (r & s1 & Hrun1 & (Hh1 & Hs1 & Hcase1) & Hg1 & Hex1). erewrite st_bind_run by exact Hrun1.
  destruct Hcase1 as [->|(n1 & -> & Hle1 & Hheld1)].
  { exists (inl ResultOutOfResource), s1. split_and!; try done. split_and!; try done. by left. }
  pose proof (sp_links _ _ Hs1 i) as Hlk. rewrite Hm in Hlk. destruct (m_managers (mm s1) !! i) as [m1|] eqn:Hm1; [|done].
  injection Hlk as E1 E2. erewrite st_bind_run by (by apply GetNextManager_run). rewrite E1, E2.
  destruct (IH s1 n1 _ l' Hh1 (linked_same _ _ _ _ _ Hs1 Hl)) as (r & s2 & Hrun2 & (Hh2 & Hs2 & Hcase2) & Hg2 & Hex2); [set_solver|lia|lia|].
  exists r, s2. split_and!; [done| |by etransitivity|].
  - split_and!; [done|by etransitivity|]. destruct Hcase2 as [->|(n2 & -> & Hle2 & Hheld2)]; [by left|right]. exists n2. split_and!; [done|lia|lia].
  - intros n' -> Hn'. destruct Hcase2 as [?|(n2 & E & Hle2 & _)]; [done|]. injection E as E. assert (n' = n2) as -> by lia.
    intros j g' [->|Hj]%elem_of_cons Hg'; [|by eapply Hex2].
    apply (exhausted_grows σ s1 s2 [i] k Hg2 (Hex1 n1 eq_refl ltac:(lia)) i g'); [set_solver|done].
Qed.

Lemma block_num_pages index k : kernel_shifts !! index = Some k → GetBlockNumPages index = Z.of_nat (2 ^ k).
Proof using Type. intros Hk. unfold kernel_shifts in Hk. do 7 (destruct index as [|index]; [injection Hk as <-; reflexivity|]). done. Qed.

(** Each size from [n] down: what is missing at the end is in no manager of the pool. *)
Lemma sizes_loop_run top l σ s pool dir n unoptimized random : (top ≤ 7)%nat →
  holding l σ s → pool_managers G s pool dir l → Z.of_nat n < 2 ^ 64 →
  ∃ r s', sizes_loop assertions top pool dir (Z.of_nat n) unoptimized random s = Ok (r, s') ∧
    allocated l σ s n r s' ∧ grows s s' ∧
    (∀ n', r = inr (Z.of_nat n') → (0 < n')%nat → (0 < top)%nat → exhausted σ s' l 0).
Proof using Hlay.
  revert s n. induction top as [|index IH]; intros s n Htop Hho Hpool Hn; cbn [sizes_loop].
  { exists (inr (Z.of_nat n)), s. split_and!; try done; [|lia]. split_and!; try done. right. by exists n. }
  destruct (Z.ltb_spec 0 (Z.of_nat n)).
  2:{ exists (inr (Z.of_nat n)), s. split_and!; try done; [|intros n' [= E]; lia]. split_and!; try done. right. by exists n. }
  destruct (GetFirstManager_run _ _ _ _ _ Hpool) as (first & Hfirst & Hl). erewrite st_bind_run by exact Hfirst.
  destruct (lookup_lt_is_Some_2 kernel_shifts index) as [k Hk]; [unfold kernel_shifts; cbn; lia|].
  rewrite (block_num_pages index k Hk). pose proof Hpool as (Hlen & HG & _).
  destruct (managers_loop_run MaxManagerCount l σ s first dir l index k n unoptimized random Hho Hl ltac:(set_solver) Hlen HG Hk Hn)
    as (r & s1 & Hrun1 & (Hh1 & Hs1 & Hcase1) & Hg1 & Hex1). erewrite st_bind_run by exact Hrun1.
  destruct Hcase1 as [->|(n1 & -> & Hle1 & Hheld1)].
  { exists (inl ResultOutOfResource), s1. split_and!; try done. split_and!; try done. by left. }
  destruct (IH s1 n1) as (r & s2 & Hrun2 & (Hh2 & Hs2 & Hcase2) & Hg2 & Hex2); [lia|done|by eapply pool_managers_same|lia|].
  exists r, s2. split_and!; [done| |by etransitivity|].
  - split_and!; [done|by etransitivity|]. destruct Hcase2 as [->|(n2 & -> & Hle2 & Hheld2)]; [by left|right]. exists n2. split_and!; [done|lia|lia].
  - intros n' -> Hn' _. destruct index as [|index]; [|apply (Hex2 n'); [done|done|lia]].
    cbn in Hk. injection Hk as <-. cbn in Hrun2. injection Hrun2 as E <-. assert (n' = n1) as -> by lia.
    apply (Hex1 n1); [done|]. cbn. lia.
Qed.

(** *** Undoing *)
Lemma mark_free σ L L' a k p : (∀ q, q ∈ seq a k → is_free σ q) → (∀ q, q ∈ L ↔ q ∈ seq a k ∨ q ∈ L') → (∀ q, q ∈ seq a k → q ∉ L') →
  upd (mark do_take σ L) a k do_free p = mark do_take σ L' p.
Proof using Type.
  intros Hfree HL Hd. rewrite mark_upd. unfold mark. specialize (Hfree p). specialize (HL p). specialize (Hd p).
  destruct (decide (p ∈ seq a k)) as [Hp|Hp], (decide (p ∈ L)), (decide (p ∈ L')); try tauto.
  destruct (Hfree Hp) as [x ->]. done.
Qed.

(** How many pages of a block the clean-up gives back: those in its first manager. *)
Lemma free_count m σ g a n : mgr_ok g → impl_repr g m σ → in_mgr g a →
  Z.min (Z.of_nat n) (u64 (GetEndAddress (impl_heap m) - addr_of a) / PageSize) = Z.of_nat (Nat.min n (g_p0 g + g_np g - a)).
Proof using Type.
  intros Hok Him Hin. unfold in_mgr in Hin. destruct (page_offset g Hok m σ a Him ltac:(lia)) as [_ He].
  unfold Impl_GetPageOffsetToEnd, GetPageOffsetToEnd in He. rewrite He. lia.
Qed.

Lemma free_blocks_run l bl s σ L0 : mm_repr s (mark do_take σ (L0 ++ group_pages bl)) → NoDup (L0 ++ group_pages bl) → Forall info_ok bl →
  (∀ p, p ∈ group_pages bl → pool_page l p ∧ is_free σ p) →
  ∃ s' L', free_blocks assertions linear bl s = Ok (tt, s') ∧ same_rest s s' ∧ mm_repr s' (mark do_take σ (L0 ++ L')) ∧
    L' ⊆ group_pages bl ∧ (Forall (one_mgr l) bl → L' = []).
Proof using Hlay.
  revert s L0. induction bl as [|b bl IH]; intros s L0 Hr Hnd Hok Hfree; cbn [free_blocks].
  { exists s, []. by split_and!. }
  apply Forall_cons in Hok as [Hb Hok]. destruct (info_addresses b Hb) as (Ha & Hn & _). rewrite Ha, Hn.
  change (group_pages (b :: bl)) with (block_pages b ++ group_pages bl) in *. unfold block_pages in *.
  assert (Hpos : (0 < Z.to_nat (PageGroup.m_num_pages b))%nat) by (destruct Hb; lia).
  set (a := Z.to_nat (PageGroup.m_page_index b)) in *. set (n := Z.to_nat (PageGroup.m_num_pages b)) in *.
  assert (Hmem : ∀ p, (a ≤ p < a + n)%nat → p ∈ seq a n ++ group_pages bl)
    by (intros p Hp; apply elem_of_app; left; by apply elem_of_pages).
  destruct (Hfree a (Hmem a ltac:(lia))) as [(i & g & Hi & Hg & Hin) _]. pose proof (lay_ok _ _ Hlay i g Hg) as Hgok.
  erewrite st_bind_run by (by eapply GetManager_run). destruct (mm_impl _ _ _ Hr i g Hg) as (m & Hm & Him).
  erewrite st_bind_run by (by apply get_manager_run). rewrite (free_count m _ g a n Hgok Him Hin).
  set (k := Nat.min n (g_p0 g + g_np g - a)). unfold in_mgr in Hin.
  assert (Hsplit : seq a n = seq a k ++ seq (a + k) (n - k)) by (rewrite <- seq_app; f_equal; lia).
  destruct (spec_manager linear G Hlay (Impl_Free assertions) pre_free do_free s _ i g a k (Free_spec assertions) Hr Hg ltac:(lia) ltac:(lia))
    as (s1 & Hrun1 & Hr1 & Hs1).
  { intros p Hp. rewrite mark_in by (apply elem_of_app; right; apply Hmem; lia).
    destruct (Hfree p (Hmem p ltac:(lia))) as [_ [x ->]]. by eexists. }
  erewrite st_bind_run by exact Hrun1. rewrite Hsplit, <- app_assoc in Hnd.
  pose proof Hnd as (Hnd0 & Hd0 & (Hnd1 & Hd1 & Hnd2)%NoDup_app)%NoDup_app.
  destruct (IH s1 (L0 ++ seq (a + k) (n - k))) as (s2 & L' & Hrun2 & Hs2 & Hr2 & Hsub & Hone); try done.
  - eapply mm_repr_proper; [|exact Hr1]. intros p. symmetry. apply mark_free.
    + intros q Hq%elem_of_pages. apply Hfree, Hmem. lia.
    + intros q. rewrite Hsplit. rewrite !elem_of_app. tauto.
    + intros q Hq. rewrite !elem_of_app. intros [[Hq'|Hq']|Hq'].
      * apply (Hd0 q Hq'). rewrite !elem_of_app. tauto.
      * apply (Hd1 q Hq). rewrite !elem_of_app. tauto.
      * apply (Hd1 q Hq). rewrite !elem_of_app. tauto.
  - rewrite <- app_assoc. apply NoDup_app. split_and!; try done. intros q Hq Hq'. apply (Hd0 q Hq). apply elem_of_app. by right.
  - intros p Hp. apply Hfree. apply elem_of_app. by right.
  - exists s2, (seq (a + k) (n - k) ++ L'). split_and!; [done|by etransitivity|by rewrite app_assoc| |].
    + intros q. rewrite Hsplit, !elem_of_app. specialize (Hsub q). tauto.
    + intros [(j & g' & Hj & Hg' & H1 & H2) Hall]%Forall_cons. fold a n in H1, H2.
      assert (i = j) as -> by (apply (lay_disjoint _ _ Hlay i j g g' a); try done; unfold in_mgr; lia). simplify_eq.
      rewrite (Hone Hall). replace (n - k)%nat with 0%nat by lia. done.
Qed.

(** The pages that a failed allocation leaves behind, none when the managers are apart. *)
Lemma undo_group_run l σ s : holding l σ s →
  ∃ s' L', undo_group assertions linear s = Ok (tt, s') ∧ same_pools s s' ∧ PageGroup.blocks (out s') = [] ∧
    mm_repr s' (mark do_take σ L') ∧ (apart l → L' = []).
Proof using Hlay.
  intros [Hr Hnd Hok Hfree Hone]. unfold undo_group. erewrite st_bind_run by reflexivity.
  destruct (free_blocks_run l _ s σ [] Hr Hnd Hok Hfree) as (s1 & L' & Hrun & (Hs1 & _ & _) & Hr1 & _ & Hone').
  erewrite st_bind_run by exact Hrun. eexists _, L'. split_and!.
  - by apply on_group_run.
  - by destruct Hs1.
  - done.
  - by apply mm_repr_group.
  - auto.
Qed.

(** *** The whole allocation *)
Lemma block_index_loop_bounds i n : (0 < n)%nat → (0 < i ≤ 7)%nat →
  ∃ k, block_index_loop i (Z.of_nat n) = Z.of_nat k ∧ (k < i)%nat.
Proof using Type.
  intros Hn. induction i as [|i IH]; intros Hi; [lia|]. cbn [block_index_loop].
  destruct (Z.leb_spec (GetBlockNumPages i) (Z.of_nat n)) as [Hle|Hgt]; [by exists i; split; [|lia]|].
  destruct i as [|i]; [change (GetBlockNumPages 0) with 1 in Hgt; lia|].
  destruct IH as (k & Hk & Hlt); [lia|]. exists k. split; [done|lia].
Qed.

(** The pool has fewer than [n] free pages. *)
Definition too_few l σ n : Prop := ∀ L, NoDup L → (∀ p, p ∈ L → pool_page l p ∧ is_free σ p) → (length L < n)%nat.
(** A failed allocation: the group is empty, and the pool is as before unless two of its managers touch. *)
Definition failed l σ s : Prop := PageGroup.blocks (out s) = [] ∧
  ∃ L, mm_repr s (mark do_take σ L) ∧ (apart l → L = []).

Lemma exhausted_too_few l σ s n n' : exhausted σ s l 0 → (held s + n')%nat = n → (0 < n')%nat → too_few l σ n.
Proof using Type.
  intros Hex Hheld Hn' L Hnd Hall. assert (Hsub : L ⊆+ group_pages (PageGroup.blocks (out s))).
  { apply NoDup_submseteq; [done|]. intros p Hp. destruct (Hall p Hp) as [(i & g & Hi & Hg & Hin) [x Hx]].
    destruct (decide (p ∈ group_pages (PageGroup.blocks (out s)))) as [|Hno]; [done|]. exfalso.
    apply (Hex i g Hi Hg p (Nat.divide_1_l p)). intros q Hq. cbn in Hq. replace q with p by lia. split; [done|]. exists x. by rewrite mark_out. }
  apply submseteq_length in Hsub. unfold held in Hheld. lia.
Qed.

Lemma AllocatePageGroupImpl_run l σ s pool dir n unoptimized random :
  mm_repr s σ → PageGroup.blocks (out s) = [] → pool_managers G s pool dir l → (0 < n)%nat → Z.of_nat n < 2 ^ 64 →
  ∃ r s', AllocatePageGroupImpl assertions linear (Z.of_nat n) pool dir unoptimized random s = Ok (r, s') ∧ same_pools s s' ∧
    ((r = ResultSuccess ∧ holding l σ s' ∧ held s' = n) ∨
     (r = ResultOutOfMemory ∧ failed l σ s' ∧ too_few l σ n) ∨ (r = ResultOutOfResource ∧ failed l σ s')).
Proof using Hlay.
  intros Hr Hempty Hpool Hn Hn64. unfold AllocatePageGroupImpl, GetBlockIndex.
  destruct (block_index_loop_bounds 7 n Hn ltac:(lia)) as (k & Hk & Hk7). change NumMemoryBlockPageShifts with 7%nat. rewrite Hk.
  rewrite (proj2 (Z.ltb_ge _ _)) by lia. replace (Z.to_nat (Z.of_nat k + 1)) with (S k) by lia.
  assert (Hho : holding l σ s).
  { split; rewrite Hempty; cbn [group_pages map concat].
    - exact Hr.
    - constructor.
    - constructor.
    - intros p Hp. by apply not_elem_of_nil in Hp.
    - intros _. constructor. }
  destruct (sizes_loop_run (S k) l σ s pool dir n unoptimized random ltac:(lia) Hho Hpool Hn64)
    as (r & s1 & Hrun & (Hh1 & Hs1 & Hcase) & Hg1 & Hex). erewrite st_bind_run by exact Hrun.
  assert (Hheld0 : held s = 0%nat) by (unfold held; by rewrite Hempty). rewrite Hheld0 in Hcase.
  destruct (undo_group_run l σ s1 Hh1) as (s2 & L & Hrun2 & Hs2 & Hbl2 & Hr2 & Hap).
  assert (Hfailed : failed l σ s2) by (split; [done|by exists L]).
  destruct Hcase as [->|(n' & -> & Hle & Hheld)].
  - erewrite st_bind_run by exact Hrun2. exists ResultOutOfResource, s2. split_and!; [done|by etransitivity|]. right. by right.
  - destruct (Z.eqb_spec (Z.of_nat n') 0) as [Hz|Hz].
    + exists ResultSuccess, s1. split_and!; try done. left. split_and!; try done. lia.
    + erewrite st_bind_run by exact Hrun2. exists ResultOutOfMemory, s2. split_and!; [done|by etransitivity|]. right. left.
      split_and!; try done. apply (exhausted_too_few l σ s1 n n'); [|lia|lia]. apply (Hex n'); [done|lia|lia].
Qed.

(** The pages of a new group: [n] pages of the pool that were free. *)
Definition fresh_pages l σ n L : Prop := NoDup L ∧ length L = n ∧ (∀ p, p ∈ L → pool_page l p ∧ σ p = Some (true, 0)).

Lemma group_num_pages_nil s : PageGroup.blocks (out s) = [] → (PageGroup.Group_GetNumPages (out s) =? 0) = true.
Proof using Type. intros He. unfold PageGroup.Group_GetNumPages. by rewrite He. Qed.
Lemma MASSERT_run b s : b = true → MASSERT assertions b s = Ok (tt, s).
Proof using Type. intros ->. by destruct assertions. Qed.

Lemma synced_free σ p : synced σ → is_free σ p → σ p = Some (true, 0).
Proof using Type. intros Hs [x Hx]. pose proof (Hs _ _ _ Hx) as Hz. symmetry in Hz. apply bool_decide_eq_true in Hz. by rewrite Hx, Hz. Qed.

Lemma AllocateAndOpen_run l σ s option n :
  mm_repr s σ → synced σ → PageGroup.blocks (out s) = [] →
  pool_managers G s (Z.to_nat (GetPool_option option)) (GetDirection option) l →
  is_Some (m_has_optimized_process (mm s) !! Z.to_nat (GetPool_option option)) → (0 < n)%nat → Z.of_nat n < 2 ^ 64 →
  ∃ r s', AllocateAndOpen assertions linear (Z.of_nat n) option s = Ok (r, s') ∧ same_pools s s' ∧
    ((r = ResultSuccess ∧ fresh_pages l σ n (group_pages (PageGroup.blocks (out s'))) ∧ Forall info_ok (PageGroup.blocks (out s')) ∧
        mm_repr s' (mark do_first σ (group_pages (PageGroup.blocks (out s')))) ∧
        synced (mark do_first σ (group_pages (PageGroup.blocks (out s'))))) ∨
     (r = ResultOutOfMemory ∧ failed l σ s' ∧ too_few l σ n) ∨ (r = ResultOutOfResource ∧ failed l σ s')).
Proof using Hlay.
  intros Hr Hsync Hempty Hpool [b Hb] Hn Hn64. unfold AllocateAndOpen. erewrite st_bind_run by reflexivity.
  erewrite st_bind_run by (by apply MASSERT_run, group_num_pages_nil). rewrite (proj2 (Z.eqb_neq _ 0)) by lia.
  erewrite st_bind_run by (by apply has_optimized_run).
  destruct (AllocatePageGroupImpl_run l σ s _ _ n b true Hr Hempty Hpool Hn Hn64) as (r & s1 & Hrun & Hs1 & Hcase).
  erewrite st_bind_run by exact Hrun. destruct Hcase as [(-> & [Hr1 Hnd Hok Hfree _] & Hheld)|[(-> & Hf & Htoo)|(-> & Hf)]].
  - rewrite bool_decide_eq_true_2 by done. erewrite st_bind_run by reflexivity. set (L := group_pages (PageGroup.blocks (out s1))) in *.
    assert (Hzero : ∀ p, p ∈ L → σ p = Some (true, 0)) by (intros p Hp; apply synced_free; [done|by apply Hfree]).
    destruct (on_blocks_run Impl_OpenFirst pre_first do_first (PageGroup.blocks (out s1)) s1 _ OpenFirst_spec Hr1 Hok Hnd)
      as (s2 & Hrun2 & Hr2 & Hs2 & Ho2 & _).
    { intros p Hp. rewrite mark_in, Hzero by done. by eexists. }
    rewrite <- open_blocks_on_blocks in Hrun2. erewrite st_bind_run by exact Hrun2.
    exists ResultSuccess, s2. split_and!; [done|by etransitivity|]. left. rewrite Ho2. fold L. split_and!; try done.
    + split_and!; try done. intros p Hp. split; [by apply Hfree|by apply Hzero].
    + eapply mm_repr_proper; [|exact Hr2]. intros p. unfold mark. fold L. destruct (decide (p ∈ L)); [|done]. by destruct (σ p).
    + apply (synced_mark σ L (λ _, True)); try done. intros p Hp. rewrite Hzero by done. by eexists.
  - rewrite bool_decide_eq_false_2 by done. exists ResultOutOfMemory, s1. split_and!; try done. right. by left.
  - rewrite bool_decide_eq_false_2 by done. exists ResultOutOfResource, s1. split_and!; try done. right. by right.
Qed.
End groups.
