(* ===== verification/MemoryManagerInit.v ===== *)
(** * Starting the memory manager

    [Impl::Initialize] makes an empty manager of a region, and
    [KMemoryManager::Initialize] frees the regions to their managers. *)

From S2P Require Import Prelude Vapours TinyMT PageBitmap PageBitmapSpec PageHeap PageHeapSpec PageHeapInit PageHeapRefine MemoryRegion PageGroup PageGroupSpec MemoryManager MemoryManagerSpec MemoryManagerGroup.
Implicit Types (σ : pages) (a n p : nat).

(** A manager as its constructor leaves it. *)
Definition unused_impl (m : Impl) : Prop :=
  rng_ok (m_heap_rng (impl_heap m)) ∧
  ∀ j, (j < 7)%nat → ∃ b, m_blocks (impl_heap m) !! j = Some b ∧ unused (m_bitmap b).

(** The pages of a manager before any is free. *)
Definition initial (g : mgr) : pages := λ p, if decide (g_p0 g ≤ p < g_p0 g + g_np g)%nat then Some (false, 0) else None.

Section initialize.
Context (assertions : bool) (p0 np : nat).
Abbreviation g := (mkMgr p0 np 0).
Context (Hg : mgr_ok g).

Definition meta_size : Z := 4096 * ((8 * ((Z.of_nat np + 63) / 64) + 2 * Z.of_nat np + 4095) / 4096).

Lemma np_bounds : 0 < Z.of_nat np < 2 ^ 24.
Proof using Hg. destruct Hg as [(_ & H1 & H2 & _) _]. cbn in *. lia. Qed.

Lemma optimize_size : CalculateOptimizedProcessOverheadSize (addr_of np) = 8 * ((Z.of_nat np + 63) / 64).
Proof using Hg.
  pose proof np_bounds. unfold CalculateOptimizedProcessOverheadSize, addr_of, PageSize, BITS.
  rewrite (Z.mul_comm 4096), Z.div_mul by lia. change (Util.AlignUp (Z.of_nat np) 64) with (Util.AlignUp (Z.of_nat np) (2 ^ 6)). rewrite Util.AlignUp_pow2 by lia. change (2 ^ 6) with 64.
  rewrite (Z.mul_comm 64), Z.div_mul by lia. replace (Z.of_nat np + 64 - 1) with (Z.of_nat np + 63) by lia.
  rewrite wrap_small; [lia|]. unfold in_width. pose proof (Z.div_le_upper_bound (Z.of_nat np + 63) 64 (2 ^ 24)).
  pose proof (Z.div_pos (Z.of_nat np + 63) 64). lia.
Qed.

Lemma ref_size : u64 (addr_of np / PageSize * 2) = 2 * Z.of_nat np.
Proof using Hg.
  pose proof np_bounds. unfold addr_of, PageSize. rewrite (Z.mul_comm 4096), Z.div_mul by lia. rewrite wrap_small; [lia|]. unfold in_width. lia.
Qed.

Lemma meta_run : Util.AlignUp (u64 (CalculateOptimizedProcessOverheadSize (addr_of np) + u64 (addr_of np / PageSize * 2))) PageSize = meta_size ∧
  0 ≤ meta_size < 2 ^ 28 ∧ (4096 | meta_size).
Proof using Hg.
  pose proof np_bounds. rewrite optimize_size, ref_size.
  pose proof (Z.div_le_upper_bound (Z.of_nat np + 63) 64 (2 ^ 24)). pose proof (Z.div_pos (Z.of_nat np + 63) 64).
  rewrite wrap_small by (unfold in_width; lia). change PageSize with (2 ^ 12). rewrite Util.AlignUp_pow2 by lia. change (2 ^ 12) with 4096.
  unfold meta_size. set (v := 8 * _ + 2 * _) in *. replace (v + 4096 - 1) with (v + 4095) by lia.
  pose proof (Z.div_mod (v + 4095) 4096 ltac:(lia)). pose proof (Z.mod_pos_bound (v + 4095) 4096 ltac:(lia)).
  split_and!; [done|lia|lia|by apply Z.divide_factor_l].
Qed.

(** The heap, over management memory that is zero. *)
Lemma heap_initialize h words : rng_ok (m_heap_rng (heap h)) →
  (∀ j, (j < 7)%nat → ∃ b, m_blocks (heap h) !! j = Some b ∧ unused (m_bitmap b)) →
  mgmt h = replicate words 0 → (memory_words p0 np kernel_shifts 0 ≤ words)%nat →
  ∃ h', Heap_Initialize assertions (addr_of p0) (addr_of np) 0 (Z.of_nat words) MemoryBlockPageShifts h = Ok (tt, h') ∧
    heap_repr (g_levels g) p0 np h' ∅.
Proof using Hg.
  intros Hrng Hun Hz Hw. destruct kernel_shifts_ok as [Hks Hbs]. pose proof Hg as [Hfit _]. cbn in Hfit.
  destruct (Heap_Initialize_run p0 np kernel_shifts 0 assertions Hfit Hks [] (replicate (words - memory_words p0 np kernel_shifts 0) 0)
    eq_refl h words) as (h' & Hrun & Hrep & _ & _).
  { unfold NumMemoryBlockPageShifts. cbn. lia. }
  { unfold zeroed. rewrite <- replicate_add, Hz. cbn [app]. f_equal. lia. }
  { exact Hrng. }
  { exact Hun. }
  { exact Hw. }
  rewrite Hbs in Hrun. change (Z.of_nat 0) with 0 in Hrun. exists h'. split; [exact Hrun|].
  exact (empty_repr _ _ _ _ (mgr_geometry g Hg) Hrep).
Qed.

Lemma fresh_repr h c o b pool next prev : heap_repr (g_levels g) p0 np h ∅ → c = np → (np ≤ 64 * o)%nat →
  impl_repr g (mkImpl h (replicate c 0) (replicate o 0) b pool next prev) (initial g).
Proof using Hg.
  intros Hh -> Ho. exists ∅. split_and!; cbn [m_page_reference_counts m_optimize_map g_np]; rewrite ?length_replicate; [exact Hh|done|done| |set_solver].
  intros k x Hk. apply lookup_replicate in Hk as [-> Hk].
  split; [unfold in_width; lia|]. unfold initial. rewrite decide_True by (cbn; lia). by rewrite bool_decide_eq_false_2 by set_solver.
Qed.

Lemma heap_overhead : ∃ o, Heap_CalculateManagementOverheadSize (addr_of np) MemoryBlockPageShifts = Ok o ∧
  (memory_words p0 np kernel_shifts 0 ≤ Z.to_nat (o / 8))%nat ∧ 0 ≤ o ≤ 2 ^ 33 ∧ (4096 | o).
Proof using Hg.
  pose proof Hg as [Hfit _]. cbn in Hfit. destruct kernel_shifts_ok as [Hks Hbs].
  destruct (overhead_suffices_run p0 np kernel_shifts 0 Hfit Hks) as (o & Ho & Hw & Hmod & Hob); [unfold NumMemoryBlockPageShifts; cbn; lia|].
  rewrite Hbs in Ho. exists o. split_and!; [exact Ho| |lia|lia|by apply Z.mod_divide].
  set (w := memory_words p0 np kernel_shifts 0) in *. clearbody w.
  apply Nat2Z.inj_le. rewrite Z2Nat.id by (apply Z.div_pos; lia). apply Z.div_le_lower_bound; lia.
Qed.

Lemma page_aligned v : (4096 | v) → Util.IsAligned v PageSize = true.
Proof using Type.
  intros Hv. change PageSize with (2 ^ 12). rewrite Util.IsAligned_pow2 by lia. apply Z.eqb_eq. change (2 ^ 12) with 4096. by apply Z.mod_divide.
Qed.

(** The management memory of a region. *)
Lemma impl_overhead : ∃ o, Heap_CalculateManagementOverheadSize (addr_of np) MemoryBlockPageShifts = Ok o ∧
  (memory_words p0 np kernel_shifts 0 ≤ Z.to_nat (o / 8))%nat ∧ 0 ≤ o ≤ 2 ^ 33 ∧
  Impl_CalculateManagementOverheadSize (addr_of np) = Ok (meta_size + o) ∧ 0 < meta_size + o < 2 ^ 34 ∧ (4096 | meta_size + o).
Proof using Hg.
  pose proof np_bounds as Hnp. destruct meta_run as (Hmeta & Hmb & Hmd). destruct heap_overhead as (o & Ho & Hw & Hob & Hod).
  assert (Hpos : 0 < meta_size).
  { unfold meta_size. apply Z.mul_pos_pos; [lia|]. apply Z.div_str_pos. pose proof (Z.div_pos (Z.of_nat np + 63) 64). lia. }
  exists o. split_and!; [exact Ho|exact Hw|lia|lia| |lia|lia|by apply Z.divide_add_r].
  unfold Impl_CalculateManagementOverheadSize. fold (CalculateOptimizedProcessOverheadSize (addr_of np)). rewrite Hmeta, Ho.
  cbn [mbind res_bind]. by rewrite wrap_small by (unfold in_width; lia).
Qed.

Lemma overhead_bounds total : Impl_CalculateManagementOverheadSize (addr_of np) = Ok total → 0 < total < 2 ^ 34 ∧ (4096 | total).
Proof using Hg. destruct impl_overhead as (o & _ & _ & _ & -> & Hb & Hd). by intros [= <-]. Qed.

(** The manager that [Initialize] makes of it. *)
Lemma Impl_Initialize_run m management management_end pool total : Impl_CalculateManagementOverheadSize (addr_of np) = Ok total →
  unused_impl m → (4096 | management) → 0 ≤ management → management + total ≤ management_end → management_end < 2 ^ 64 →
  ∃ m', Impl_Initialize assertions (addr_of p0) (addr_of np) management management_end pool m = Ok (total, m') ∧
    impl_repr g m' (initial g) ∧ m_next m' = m_next m ∧ m_prev m' = m_prev m ∧ m_pool m' = pool.
Proof using Hg.
  intros Ht [Hrng Hun] Hmal Hm0. pose proof np_bounds as Hnp. destruct meta_run as (Hmeta & Hmb & _).
  destruct impl_overhead as (o & Ho & Hw & Hob & Hto & Hpos & Hd). rewrite Hto in Ht. injection Ht as <-.
  intros Hend Hend64. unfold Impl_Initialize. rewrite Hmeta, Ho, ref_size, optimize_size. erewrite st_bind_run by reflexivity.
  rewrite (wrap_small 64 (meta_size + o)) by (unfold in_width; lia). unfold st_check.
  rewrite (proj2 (Z.leb_le meta_size (meta_size + o))) by lia. erewrite st_bind_run by reflexivity.
  rewrite (wrap_small 64 (management + _)) by (unfold in_width; lia).
  rewrite (proj2 (Z.leb_le (management + (meta_size + o)) management_end)) by lia. erewrite st_bind_run by reflexivity.
  rewrite (page_aligned (meta_size + o) Hd). erewrite st_bind_run by reflexivity. erewrite st_bind_run by reflexivity.
  rewrite (page_aligned management Hmal). erewrite st_bind_run by reflexivity.
  destruct (heap_initialize (mkH (impl_heap m) (replicate (Z.to_nat (o / 8)) 0)) (Z.to_nat (o / 8)) Hrng Hun eq_refl Hw) as (h & Hrun & Hrep).
  rewrite Z2Nat.id in Hrun by (apply Z.div_pos; lia). erewrite st_bind_run by (apply on_heap_run; exact Hrun).
  eexists. split; [reflexivity|]. split; [|split_and!; reflexivity]. apply fresh_repr; [exact Hrep| |].
  - rewrite Z.mul_comm, Z.div_mul by lia. lia.
  - pose proof (Z.div_mod (Z.of_nat np + 63) 64 ltac:(lia)). pose proof (Z.mod_pos_bound (Z.of_nat np + 63) 64 ltac:(lia)).
    rewrite (Z.mul_comm 8), Z.div_mul by lia. lia.
Qed.
End initialize.

(** ** The managers *)

(** A list of managers by its links. *)
Definition chained (s : mmstate) (head tail : option nat) (l : list nat) : Prop :=
  head = l !! 0%nat ∧ tail = last l ∧ NoDup l ∧
  ∀ k j, l !! k = Some j → ∃ m, m_managers (mm s) !! j = Some m ∧ m_next m = l !! S k ∧
    m_prev m = match k with O => None | S k' => l !! k' end.

Lemma chained_forward s head tail l k dir : chained s head tail l → dir ≠ Direction_FromBack → linked s dir (l !! k) (drop k l).
Proof.
  intros (_ & _ & _ & Hl) Hdir. remember (length l - k)%nat as d eqn:Hd. revert k Hd. induction d as [|d IH]; intros k Hd.
  - rewrite drop_ge by lia. by apply lookup_ge_None_2; lia.
  - destruct (lookup_lt_is_Some_2 l k) as [j Hj]; [lia|]. rewrite (drop_S _ _ _ Hj). split; [done|].
    destruct (Hl k j Hj) as (m & Hm & Hn & _). exists m. split; [done|]. rewrite (proj2 (Z.eqb_neq _ _)) by done. rewrite Hn. apply IH. lia.
Qed.

Lemma chained_backward s head tail l k : chained s head tail l → (k ≤ length l)%nat →
  linked s Direction_FromBack (match k with O => None | S k' => l !! k' end) (reverse (take k l)).
Proof.
  intros (_ & _ & _ & Hl). induction k as [|k IH]; intros Hk; [done|].
  destruct (lookup_lt_is_Some_2 l k) as [j Hj]; [lia|]. rewrite (take_S_r _ _ _ Hj), reverse_snoc, Hj. split; [done|].
  destruct (Hl k j Hj) as (m & Hm & _ & Hp). exists m. split; [done|]. rewrite Z.eqb_refl, Hp. apply IH. lia.
Qed.

(** What a pool's list gives the allocations, from either end. *)
Lemma chained_pool G s pool dir head tail l : m_pool_managers_head (mm s) !! pool = Some head → m_pool_managers_tail (mm s) !! pool = Some tail →
  chained s head tail l → (length l ≤ MaxManagerCount)%nat → (∀ i, i ∈ l → is_Some (G !! i)) →
  pool_managers G s pool dir (if dir =? Direction_FromBack then reverse l else l).
Proof.
  intros Hhead Htail Hc Hlen HG. pose proof Hc as (-> & -> & _ & _). destruct (Z.eqb_spec dir Direction_FromBack) as [->|Hdir].
  - split_and!; [by rewrite length_reverse|intros i; rewrite elem_of_reverse; apply HG|]. exists (last l). split; [by rewrite Z.eqb_refl|].
    pose proof (chained_backward s _ _ l (length l) Hc ltac:(lia)) as Hb. rewrite firstn_all in Hb.
    destruct l as [|x l] using rev_ind; [done|]. rewrite length_app, Nat.add_1_r in Hb. rewrite last_snoc.
    by rewrite list_lookup_middle in Hb by done.
  - split_and!; [done|done|]. exists (l !! 0%nat). rewrite (proj2 (Z.eqb_neq _ _)) by done. split; [done|].
    apply (chained_forward s _ _ l 0 dir Hc Hdir).
Qed.

(** The part of a manager that linking leaves alone. *)
Definition data_of (m : Impl) : hstate * list Z * list Z := (m_heap m, m_page_reference_counts m, m_optimize_map m).

Lemma impl_repr_data g m m' σ : data_of m' = data_of m → impl_repr g m σ → impl_repr g m' σ.
Proof. intros [= E1 E2 E3] (F & H). exists F. unfold impl_repr in *. by rewrite E1, E2, E3. Qed.

Lemma on_manager_step {A} (f : implM A) (s : mmstate) i m r m' : m_managers (mm s) !! i = Some m → f m = Ok (r, m') →
  on_manager i f s = Ok (r, mkMM (set_managers (<[i := m']> (m_managers (mm s))) (mm s)) (out s) (filled s)).
Proof. intros Hm Hf. unfold on_manager. erewrite st_bind_run by (by apply get_manager_run). by rewrite Hf. Qed.

(** Appending a manager to the list of a pool. *)
Record linked_to (s s' : mmstate) (i pool : nat) (l : list nat) : Prop := {
  lt_head : m_pool_managers_head (mm s') = <[pool := (l ++ [i]) !! 0%nat]> (m_pool_managers_head (mm s));
  lt_tail : m_pool_managers_tail (mm s') = <[pool := Some i]> (m_pool_managers_tail (mm s));
  lt_num : m_num_managers (mm s') = m_num_managers (mm s);
  lt_opt : m_has_optimized_process (mm s') = m_has_optimized_process (mm s);
  lt_out : out s' = out s;
  lt_data j : data_of <$> m_managers (mm s') !! j = data_of <$> m_managers (mm s) !! j;
  lt_other j : j ≠ i → j ∉ l → m_managers (mm s') !! j = m_managers (mm s) !! j;
  lt_chain : chained s' ((l ++ [i]) !! 0%nat) (Some i) (l ++ [i]);
}.

Lemma link_first s i pool m tail : m_pool_managers_head (mm s) !! pool = Some tail → m_pool_managers_tail (mm s) !! pool = Some None →
  m_managers (mm s) !! i = Some m → m_next m = None → m_prev m = None →
  ∃ s', link_manager i pool s = Ok (tt, s') ∧ linked_to s s' i pool [].
Proof.
  intros Hh Ht Hm Hn Hp. unfold link_manager. erewrite st_bind_run by reflexivity. rewrite Ht. erewrite st_bind_run by reflexivity.
  erewrite st_bind_run by reflexivity. eexists. split; [reflexivity|]. split; try done.
  split_and!; [done|done|apply NoDup_singleton|]. intros [|k] j Hj; [|done]. injection Hj as <-. exists m. done.
Qed.

Lemma chain_appended (ms : list Impl) l t i m mt : NoDup (l ++ [t]) → i ∉ l ++ [t] → ms !! i = Some m → ms !! t = Some mt → m_next m = None →
  (∀ k j, (l ++ [t]) !! k = Some j → ∃ m, ms !! j = Some m ∧ m_next m = (l ++ [t]) !! S k ∧
    m_prev m = match k with O => None | S k' => (l ++ [t]) !! k' end) →
  ∀ k j, ((l ++ [t]) ++ [i]) !! k = Some j → ∃ m', <[i := SetPrev (Some t) m]> (<[t := SetNext (Some i) mt]> ms) !! j = Some m' ∧
    m_next m' = ((l ++ [t]) ++ [i]) !! S k ∧ m_prev m' = match k with O => None | S k' => ((l ++ [t]) ++ [i]) !! k' end.
Proof.
  intros Hnd Hi Hm Hmt Hn Hl k j Hj. pose proof (lookup_lt_Some _ _ _ Hm) as Hli. pose proof (lookup_lt_Some _ _ _ Hmt) as Hlt.
  assert (Htl : (l ++ [t]) !! length l = Some t) by (by rewrite list_lookup_middle).
  destruct (decide (k = length (l ++ [t]))) as [->|Hk].
  - rewrite list_lookup_middle in Hj by done. injection Hj as <-. rewrite list_lookup_insert_eq by (rewrite length_insert; done).
    eexists. split; [done|]. cbn. rewrite Hn. split; [symmetry; apply lookup_ge_None_2; rewrite !length_app; cbn; lia|].
    rewrite length_app, Nat.add_1_r. by rewrite lookup_app_l, Htl by (rewrite length_app; cbn; lia).
  - assert (Hlt' : (k < length (l ++ [t]))%nat).
    { apply lookup_lt_Some in Hj. rewrite length_app in Hj. cbn in Hj. lia. }
    rewrite lookup_app_l in Hj by done. assert (j ≠ i) by (intros ->; apply Hi; by eapply list_elem_of_lookup_2).
    rewrite list_lookup_insert_ne by done. destruct (Hl k j Hj) as (mj & Hmj & Hnj & Hpj).
    assert (Hprev : match k with O => None | S k' => ((l ++ [t]) ++ [i]) !! k' end = match k with O => None | S k' => (l ++ [t]) !! k' end).
    { destruct k as [|k]; [done|]. apply lookup_app_l. lia. }
    destruct (decide (j = t)) as [->|Hne].
    + assert (k = length l) as -> by (eapply NoDup_lookup; [exact Hnd|done|done]).
      rewrite list_lookup_insert_eq by done. simplify_eq. eexists. split; [done|]. cbn. rewrite Hprev. split; [|done].
      replace (S (length l)) with (length (l ++ [t])) by (rewrite length_app; cbn; lia). by rewrite list_lookup_middle.
    + rewrite list_lookup_insert_ne by done. exists mj. split_and!; [done| |by rewrite Hprev]. rewrite Hnj. symmetry. apply lookup_app_l.
      destruct (decide (k = length l)) as [->|]; [by rewrite Htl in Hj; simplify_eq|]. rewrite length_app in *. cbn in *. lia.
Qed.

Lemma link_next s i pool m head l t : m_pool_managers_head (mm s) !! pool = Some head → m_pool_managers_tail (mm s) !! pool = Some (Some t) →
  m_managers (mm s) !! i = Some m → m_next m = None → chained s head (Some t) (l ++ [t]) → i ∉ l ++ [t] →
  ∃ s', link_manager i pool s = Ok (tt, s') ∧ linked_to s s' i pool (l ++ [t]).
Proof.
  intros Hh Ht Hm Hn (Hhead & _ & Hnd & Hl) Hi. unfold link_manager. erewrite st_bind_run by reflexivity. rewrite Ht.
  erewrite st_bind_run by reflexivity. destruct (Hl (length l) t) as (mt & Hmt & _); [by rewrite list_lookup_middle|].
  assert (Hne : t ≠ i) by (intros ->; set_solver).
  erewrite st_bind_run.
  2:{ erewrite st_bind_run by (by eapply on_manager_step). eapply on_manager_step; [cbn; rewrite list_lookup_insert_ne by done; exact Hm|reflexivity]. }
  pose proof (lookup_lt_Some _ _ _ Hm). pose proof (lookup_lt_Some _ _ _ Hmt).
  eexists. split; [reflexivity|]. split; cbn; try done.
  - rewrite lookup_app_l by (rewrite length_app; cbn; lia). rewrite <- Hhead. by rewrite list_insert_id.
  - intros j. destruct (decide (j = i)) as [->|]; [rewrite list_lookup_insert_eq by (by rewrite length_insert); by rewrite Hm|].
    rewrite list_lookup_insert_ne by done. destruct (decide (j = t)) as [->|]; [|by rewrite list_lookup_insert_ne].
    rewrite list_lookup_insert_eq by done. by rewrite Hmt.
  - intros j Hj1 Hj2. rewrite !list_lookup_insert_ne by (done || set_solver). done.
  - split_and!; [done|by rewrite last_snoc|apply NoDup_app; split_and!; [done|set_solver|apply NoDup_singleton]|].
    by apply chain_appended.
Qed.

Lemma link_manager_run s i pool m head tail l : m_pool_managers_head (mm s) !! pool = Some head → m_pool_managers_tail (mm s) !! pool = Some tail →
  chained s head tail l → i ∉ l → m_managers (mm s) !! i = Some m → m_next m = None → m_prev m = None →
  ∃ s', link_manager i pool s = Ok (tt, s') ∧ linked_to s s' i pool l.
Proof.
  intros Hh Ht Hc Hi Hm Hn Hp. pose proof Hc as (_ & -> & _). destruct l as [|t l _] using rev_ind; [by eapply link_first|].
  rewrite last_snoc in *. by eapply link_next.
Qed.

Section create.
Context (assertions : bool) (physical : list Region.KMemoryRegion) (G : list mgr) (pools : list nat) (overheads : list Z).

(** The regions of manager [i] span [G !! i] and belong to [pools !! i]; there is no further manager. *)
Record extents : Prop := {
  ex_count : (length G ≤ MaxManagerCount)%nat;
  ex_ok i g : G !! i = Some g → mgr_ok g ∧ g_base g = 0%nat;
  ex_extent i g : G !! i = Some g → ∃ pool, pools !! i = Some pool ∧ (pool < Pool_Count)%nat ∧
    extent_loop assertions physical (Z.of_nat i) NullAddress 0 Pool_Count = Ok (addr_of (g_p0 g), addr_of (g_np g), pool);
  ex_end : (length G < MaxManagerCount)%nat → ∃ (a : Z) (p : nat), extent_loop assertions physical (Z.of_nat (length G)) NullAddress 0 Pool_Count = Ok (a, 0, p);
  ex_overheads : Forall2 (λ g t, Impl_CalculateManagementOverheadSize (addr_of (g_np g)) = Ok t) G overheads;
}.
Context (Hex : extents).

Definition pool_list (pool i : nat) : list nat := filter (λ j, pools !! j = Some pool) (seq 0 i).
Record created (i : nat) (s : mmstate) : Prop := {
  cr_num : m_num_managers (mm s) = i;
  cr_done j g : (j < i)%nat → G !! j = Some g → ∃ m, m_managers (mm s) !! j = Some m ∧ impl_repr g m (initial g);
  cr_todo j : (i ≤ j < MaxManagerCount)%nat → ∃ m, m_managers (mm s) !! j = Some m ∧ unused_impl m ∧ m_next m = None ∧ m_prev m = None;
  cr_pools pool : (pool < Pool_Count)%nat → ∃ head tail, m_pool_managers_head (mm s) !! pool = Some head ∧
    m_pool_managers_tail (mm s) !! pool = Some tail ∧ chained s head tail (pool_list pool i);
}.
Definition sum_overheads (l : list Z) : Z := foldr Z.add 0 l.

Lemma overheads_nonneg l l' : Forall2 (λ g t, Impl_CalculateManagementOverheadSize (addr_of (g_np g)) = Ok t) l l' →
  (∀ g, g ∈ l → mgr_ok g) → 0 ≤ sum_overheads l'.
Proof using Type.
  induction 1 as [|g t l l' Ht Hl IH]; intros Hok; [done|]. change (sum_overheads (t :: l')) with (t + sum_overheads l').
  destruct (Hok g ltac:(apply elem_of_cons; by left)) as [H1 H2]. destruct (overhead_bounds (g_p0 g) (g_np g) (conj H1 H2) t Ht) as [Hb _].
  specialize (IH ltac:(intros x Hx; apply Hok, elem_of_cons; by right)). lia.
Qed.

Lemma pool_list_S pool i : pool_list pool (S i) = pool_list pool i ++ (if decide (pools !! i = Some pool) then [i] else []).
Proof using Type. unfold pool_list. rewrite seq_S, filter_app. cbn. unfold filter, list_filter. by destruct (decide _). Qed.
Lemma pool_list_lt pool i j : j ∈ pool_list pool i → (j < i)%nat ∧ pools !! j = Some pool.
Proof using Type. unfold pool_list. rewrite list_elem_of_filter, elem_of_seq. intros [? ?]. split; [lia|done]. Qed.

Lemma chained_same s s' head tail l : (∀ j, j ∈ l → m_managers (mm s') !! j = m_managers (mm s) !! j) →
  chained s head tail l → chained s' head tail l.
Proof using Type.
  intros Hs (H1 & H2 & H3 & H4). split_and!; try done. intros k j Hj. destruct (H4 k j Hj) as (m & Hm & Hl).
  exists m. rewrite Hs by (by eapply list_elem_of_lookup_2). done.
Qed.

(** One round of the loop: a manager is initialised and linked. *)
Lemma create_step i s g pool m m' s1 : created i s → G !! i = Some g → pools !! i = Some pool → (pool < Pool_Count)%nat →
  m_managers (mm s) !! i = Some m → m_next m = None → m_prev m = None →
  impl_repr g m' (initial g) → m_next m' = m_next m → m_prev m' = m_prev m →
  s1 = mkMM (set_managers (<[i := m']> (m_managers (mm s))) (set_num_managers (S i) (mm s))) (out s) (filled s) →
  ∃ s2, link_manager i pool s1 = Ok (tt, s2) ∧ created (S i) s2 ∧ out s2 = out s ∧
    m_has_optimized_process (mm s2) = m_has_optimized_process (mm s).
Proof using Type.
  intros Hcr Hg Hpool Hlt Hm Hn Hp Him En Ep ->. pose proof (lookup_lt_Some _ _ _ Hm) as Hi.
  destruct (cr_pools _ _ Hcr pool Hlt) as (head & tail & Hhead & Htail & Hch). set (s1 := mkMM _ _ _).
  assert (Hni : i ∉ pool_list pool i) by (intros Hx%pool_list_lt; lia).
  assert (Hch1 : chained s1 head tail (pool_list pool i)).
  { eapply chained_same; [|exact Hch]. intros j Hj. cbn. rewrite list_lookup_insert_ne; [done|]. intros ->. done. }
  destruct (link_manager_run s1 i pool m' head tail (pool_list pool i)) as (s2 & Hrun & [L1 L2 L3 L4 L5 L6 L7 L8]); try done; cbn.
  { by rewrite list_lookup_insert_eq. }
  { by rewrite En. }
  { by rewrite Ep. }
  exists s2. split_and!; try done. split.
  - by rewrite L3.
  - intros j gj Hj Hgj. destruct (decide (j = i)) as [->|Hne].
    + specialize (L6 i). cbn in L6. rewrite list_lookup_insert_eq in L6 by done. simplify_eq.
      destruct (m_managers (mm s2) !! i) as [m2|]; [|done]. injection L6 as E1 E2 E3. exists m2. split; [done|].
      eapply impl_repr_data; [|exact Him]. unfold data_of. by rewrite E1, E2, E3.
    + destruct (cr_done _ _ Hcr j gj ltac:(lia) Hgj) as (mj & Hmj & Hrj). specialize (L6 j). cbn in L6.
      rewrite list_lookup_insert_ne, Hmj in L6 by done. destruct (m_managers (mm s2) !! j) as [m2|]; [|done]. injection L6 as E1 E2 E3.
      exists m2. split; [done|]. eapply impl_repr_data; [|exact Hrj]. unfold data_of. by rewrite E1, E2, E3.
  - intros j Hj. destruct (cr_todo _ _ Hcr j ltac:(lia)) as (mj & Hmj & Hrest). exists mj. split; [|done].
    rewrite L7; [cbn; by rewrite list_lookup_insert_ne by lia|lia|]. intros Hx%pool_list_lt. lia.
  - intros pool' Hlt'. rewrite pool_list_S. rewrite L1, L2. destruct (decide (pool' = pool)) as [->|Hne].
    + rewrite decide_True by done. exists ((pool_list pool i ++ [i]) !! 0%nat), (Some i). cbn.
      rewrite !list_lookup_insert_eq by (by eapply lookup_lt_Some). done.
    + rewrite decide_False by (intros ?; simplify_eq). rewrite app_nil_r, !list_lookup_insert_ne by done.
      destruct (cr_pools _ _ Hcr pool' Hlt') as (h' & t' & Hh' & Ht' & Hc'). exists h', t'. split_and!; [done|done|].
      eapply chained_same; [|exact Hc']. intros j Hj%pool_list_lt. destruct Hj as [Hj1 Hj2].
      rewrite L7; [cbn; by rewrite list_lookup_insert_ne by lia|lia|]. intros Hx%pool_list_lt. destruct Hx as [_ Hx]. simplify_eq.
Qed.
Lemma create_loop_run n i s management management_end : (n + i = MaxManagerCount)%nat → (i ≤ length G)%nat → created i s →
  (4096 | management) → 0 ≤ management → management + sum_overheads (drop i overheads) ≤ management_end → management_end < 2 ^ 64 →
  ∃ s', create_loop assertions physical n management management_end s = Ok (tt, s') ∧ created (length G) s' ∧ out s' = out s ∧
    m_has_optimized_process (mm s') = m_has_optimized_process (mm s).
Proof using Hex.
  revert i s management. induction n as [|n IH]; intros i s management Hn Hi Hcr Hd H0 Hsum Hend; cbn [create_loop].
  { pose proof (ex_count Hex). exists s. assert (length G = i) as -> by lia. done. }
  erewrite st_bind_run by reflexivity. rewrite (cr_num _ _ Hcr). destruct (decide (i = length G)) as [->|Hne].
  { destruct (ex_end Hex ltac:(lia)) as (a & p & ->). erewrite st_bind_run by reflexivity. by exists s. }
  destruct (lookup_lt_is_Some_2 G i) as [g Hg]; [lia|]. destruct (ex_ok Hex i g Hg) as [Hok Hbase].
  destruct (ex_extent Hex i g Hg) as (pool & Hpool & Hlt & ->). erewrite st_bind_run by reflexivity.
  destruct (Forall2_lookup_l _ _ _ _ _ (ex_overheads Hex) Hg) as (total & Htotal & Hcalc).
  assert (Eg : g = mkMgr (g_p0 g) (g_np g) 0) by (destruct g; cbn in Hbase; by subst). rewrite Eg in Hok.
  destruct (overhead_bounds _ _ Hok total Hcalc) as [Htb Htd]. rewrite (drop_S _ _ _ Htotal) in Hsum.
  change (sum_overheads (total :: drop (S i) overheads)) with (total + sum_overheads (drop (S i) overheads)) in Hsum.
  assert (Hnn : 0 ≤ sum_overheads (drop (S i) overheads)).
  { apply (overheads_nonneg (drop (S i) G)); [by apply Forall2_drop, (ex_overheads Hex)|]. intros g' Hg'.
    apply list_elem_of_lookup_1 in Hg' as [k Hk]. rewrite lookup_drop in Hk. by apply (ex_ok Hex) in Hk as [? _]. }
  rewrite (proj2 (Z.eqb_neq _ 0)) by (destruct Hok as [(_ & Hnp & _) _]; cbn in Hnp; unfold addr_of; lia).
  erewrite st_bind_run by reflexivity. pose proof (ex_count Hex). unfold st_check. rewrite bool_decide_eq_true_2 by lia.
  erewrite st_bind_run by reflexivity. destruct (cr_todo _ _ Hcr i ltac:(lia)) as (m & Hm & Hun & Hmn & Hmp).
  destruct (Impl_Initialize_run assertions _ _ Hok m management management_end pool total Hcalc Hun Hd H0 ltac:(lia) Hend)
    as (m' & Hrun & Him & En & Ep & _). rewrite <- Eg in Him.
  erewrite st_bind_run by (eapply on_manager_step; [exact Hm|exact Hrun]). rewrite wrap_small by (unfold in_width; lia).
  rewrite (proj2 (Z.leb_le (management + total) management_end)) by lia. erewrite st_bind_run by reflexivity.
  destruct (create_step i s g pool m m' _ Hcr Hg Hpool Hlt Hm Hmn Hmp Him En Ep eq_refl) as (s2 & Hrun2 & Hcr2 & Ho2 & Hh2).
  erewrite st_bind_run by exact Hrun2.
  destruct (IH (S i) s2 (management + total)) as (s3 & Hrun3 & Hcr3 & Ho3 & Hh3); try lia; try done; [by apply Z.divide_add_r|].
  exists s3. split_and!; [done|done|by rewrite Ho3|by rewrite Hh3].
Qed.
End create.
