(* ===== verification/MemoryManagerStart.v ===== *)
(** * The memory manager after start-up

    [KMemoryManager::Initialize] creates the managers, frees every region of user
    memory to its heap except for the pages of the initial process binary, which
    get their first reference, and records what is in use. *)

From Stdlib Require Import Sorting.Sorted.
From S2P Require Import Prelude Vapours TinyMT PageBitmap PageBitmapSpec PageHeap PageHeapSpec PageHeapInit PageHeapRefine MemoryRegion PageGroup PageGroupSpec MemoryManager MemoryManagerSpec MemoryManagerGroup MemoryManagerInit.
Implicit Types (σ : pages) (a n p : nat) (s : mmstate) (g : mgr) (r : Region.KMemoryRegion).

#[export] Instance in_mgr_dec g p : Decision (in_mgr g p).
Proof. unfold in_mgr. apply _. Defined.

(** All pages of all managers, none of them free. *)
Definition initial_all (G : list mgr) : pages := λ p, if decide (Exists (λ g, in_mgr g p) G) then Some (false, 0) else None.

Lemma initial_all_in G i g p : G !! i = Some g → in_mgr g p → initial_all G p = Some (false, 0).
Proof. intros Hg Hp. unfold initial_all. rewrite decide_True; [done|]. apply Exists_exists. exists g. split; [by eapply list_elem_of_lookup_2|done]. Qed.

Lemma created_repr assertions physical G pools overheads s : extents assertions physical G pools overheads →
  created G pools (length G) s → mm_repr G s (initial_all G).
Proof.
  intros Hex Hcr. split.
  - intros i g Hg. destruct (cr_done _ _ _ _ Hcr i g (lookup_lt_Some _ _ _ Hg) Hg) as (m & Hm & Hr). exists m. split; [done|].
    eapply impl_same; [|exact Hr]. intros p Hp. rewrite (initial_all_in G i g p Hg Hp). unfold initial. by rewrite decide_True.
  - intros p [x Hx]. unfold initial_all in Hx. destruct (decide _) as [He|]; [|done]. apply Exists_exists in He as (g & Hg & Hp).
    apply list_elem_of_lookup_1 in Hg as [i Hi]. by exists i, g.
Qed.

Section start.
Context (assertions : bool) (linear : list Region.KMemoryRegion) (G : list mgr) (Hlay : layout linear G) (ini : nat).
#[local] Existing Instance mm_repr_proper.
#[local] Existing Instance same_rest_pre.
Abbreviation mm_repr := (mm_repr G).

(** ** One region *)
Definition ini_pages : nat := Z.to_nat (InitialProcessBinarySizeMax / PageSize).
Definition first_page r : nat := Z.to_nat (Region.m_address r / PageSize).
Definition num_pages_of r : nat := Z.to_nat (Region.GetSize r / PageSize).
Definition opens r : bool :=
  (Region.m_address r <=? addr_of ini) && (addr_of (ini + ini_pages) - 1 <=? Region.m_last_address r).
Definition opened r : nat := if opens r then ini_pages else 0.
Definition freed r : nat := num_pages_of r - opened r.
Definition is_user r : Prop := Region.IsDerivedFrom r Type_DramUserPool = true.
Definition users (l : list Region.KMemoryRegion) : list Region.KMemoryRegion := filter is_user l.

(** A region of user memory: whole pages of its manager, and either it ends with
    the initial process binary or it has no page of it. *)
Record region_ok r : Prop := {
  ro_mgr : ∃ i g, Region.m_attributes r = Z.of_nat i ∧ G !! i = Some g ∧ (i < MaxManagerCount)%nat ∧
    (g_p0 g ≤ first_page r)%nat ∧ (first_page r + num_pages_of r ≤ g_p0 g + g_np g)%nat;
  ro_first : Region.m_address r = addr_of (first_page r);
  ro_last : Region.m_last_address r = addr_of (first_page r + num_pages_of r) - 1;
  ro_pos : (0 < num_pages_of r)%nat;
  ro_ini : (first_page r + num_pages_of r ≤ ini ∨ ini + ini_pages ≤ first_page r ∨
            (first_page r ≤ ini ∧ first_page r + num_pages_of r = ini + ini_pages))%nat;
}.
(** What start-up makes of its pages. *)
Definition region_step σ r : pages :=
  upd (upd σ (first_page r) (freed r) do_free) (first_page r + freed r) (opened r) do_first.

Lemma ini_pages_Z : Z.of_nat ini_pages = 3072.
Proof using Type. unfold ini_pages. rewrite Z2Nat.id; [reflexivity|]. by vm_compute. Qed.

Lemma opens_spec r : region_ok r → opens r = bool_decide (first_page r ≤ ini ∧ first_page r + num_pages_of r = ini + ini_pages)%nat.
Proof using Type.
  intros Hok. pose proof ini_pages_Z. unfold opens. rewrite (ro_first _ Hok), (ro_last _ Hok).
  pose proof (ro_pos _ Hok). destruct (ro_ini _ Hok) as [Hi|[Hi|Hi]].
  - rewrite bool_decide_eq_false_2 by lia. rewrite (proj2 (Z.leb_gt _ (addr_of (first_page r + num_pages_of r) - 1))) by (unfold addr_of; lia).
    apply andb_false_r.
  - rewrite bool_decide_eq_false_2 by lia. rewrite (proj2 (Z.leb_gt _ (addr_of ini))) by (unfold addr_of; lia). done.
  - rewrite bool_decide_eq_true_2 by done. rewrite !(proj2 (Z.leb_le _ _)) by (unfold addr_of; lia). done.
Qed.

Lemma region_step_in σ r p : region_ok r → (first_page r ≤ p < first_page r + num_pages_of r)%nat → σ p = Some (false, 0) →
  region_step σ r p = Some (if opens r && bool_decide (ini ≤ p)%nat then (false, 1) else (true, 0)).
Proof using Type.
  intros Hok Hp Hs. pose proof ini_pages_Z. unfold region_step, freed, opened. rewrite (opens_spec r Hok).
  case_bool_decide as Hb; cbn [andb].
  - case_bool_decide; [rewrite upd_in by lia|rewrite upd_out by lia]; rewrite ?upd_in, ?upd_out by lia; by rewrite Hs.
  - rewrite upd_out by lia. rewrite upd_in by lia. by rewrite Hs.
Qed.
Lemma region_step_out σ r p : region_ok r → ¬ (first_page r ≤ p < first_page r + num_pages_of r)%nat → region_step σ r p = σ p.
Proof using Type.
  intros Hok Hp. pose proof ini_pages_Z. unfold region_step, freed, opened. rewrite (opens_spec r Hok).
  case_bool_decide as Hb; by rewrite !upd_out by lia.
Qed.
Lemma region_addresses r : region_ok r → Region.GetEndAddress r = addr_of (first_page r + num_pages_of r) ∧
  Region.GetSize r = addr_of (num_pages_of r) ∧ 0 < Region.GetEndAddress r < 2 ^ 44.
Proof using Hlay.
  intros Hok. destruct (ro_mgr _ Hok) as (i & g & _ & Hg & _ & _ & Hb). destruct (lay_ok _ _ Hlay i g Hg) as [_ Hfit].
  pose proof (ro_pos _ Hok). unfold Region.GetSize, Region.GetEndAddress. rewrite (ro_last _ Hok), (ro_first _ Hok).
  assert (E : u64 (addr_of (first_page r + num_pages_of r) - 1 + 1) = addr_of (first_page r + num_pages_of r)).
  { rewrite wrap_small; [lia|]. unfold in_width, addr_of. lia. }
  rewrite E. split_and!; [done| |unfold addr_of; lia|unfold addr_of; lia].
  rewrite wrap_small by (unfold in_width, addr_of; lia). unfold addr_of. lia.
Qed.

Lemma pages_of_size n : addr_of n / PageSize = Z.of_nat n.
Proof using Type. unfold addr_of, PageSize. by rewrite Z.mul_comm, Z.div_mul by lia. Qed.

Context (Hini : Z.of_nat (ini + ini_pages) < 2 ^ 40).

(** The region of the initial process binary. *)
Lemma free_regions_opens r l reserved s σ i g v : is_user r → region_ok r → opens r = true →
  Region.m_attributes r = Z.of_nat i → G !! i = Some g → (g_p0 g ≤ first_page r)%nat → (first_page r + num_pages_of r ≤ g_p0 g + g_np g)%nat →
  mm_repr s σ → (∀ p, (first_page r ≤ p < first_page r + num_pages_of r)%nat → σ p = Some (false, 0)) →
  reserved !! i = Some v → 0 ≤ v < 2 ^ 44 →
  ∃ s', free_regions assertions (addr_of ini) (r :: l) reserved s =
          free_regions assertions (addr_of ini) l (<[i := v + addr_of (opened r)]> reserved) s' ∧
    mm_repr s' (region_step σ r) ∧ same_rest s s'.
Proof using Hlay Hini.
  intros Hu Hok Ho Ha Hg Hp0 Hend Hr Hz Hv Hvb. pose proof ini_pages_Z as Hip. pose proof Ho as Ho'. rewrite (opens_spec r Hok) in Ho'.
  apply bool_decide_eq_true in Ho' as [Hle Heq]. cbn [free_regions]. rewrite Hu. cbn [negb]. rewrite Ha, Nat2Z.id.
  assert (Ei : u64 (addr_of ini + InitialProcessBinarySizeMax) = addr_of (ini + ini_pages)).
  { unfold addr_of, InitialProcessBinarySizeMax. rewrite wrap_small; [lia|]. unfold in_width. lia. }
  assert (El : u64 (addr_of (ini + ini_pages) - 1) = addr_of (ini + ini_pages) - 1).
  { rewrite wrap_small; [done|]. unfold in_width, addr_of. lia. }
  rewrite Ei, El. fold (opens r). rewrite Ho.
  assert (Hfree : ∃ s1, (if negb (Region.m_address r =? addr_of ini)
      then on_manager i (Impl_Free assertions (Region.m_address r) (u64 (addr_of ini - Region.m_address r) / PageSize)) else mret tt) s = Ok (tt, s1) ∧
    mm_repr s1 (upd σ (first_page r) (freed r) do_free) ∧ same_rest s s1).
  { unfold freed, opened. rewrite Ho, (ro_first _ Hok). destruct (Z.eqb_spec (addr_of (first_page r)) (addr_of ini)) as [E|E]; cbn [negb].
    - exists s. split_and!; try done. eapply mm_repr_proper; [|exact Hr]. intros p. apply upd_out. unfold addr_of in E. lia.
    - rewrite wrap_small by (unfold in_width, addr_of; lia).
      replace (addr_of ini - addr_of (first_page r)) with (addr_of (num_pages_of r - ini_pages)) by (unfold addr_of; lia). rewrite pages_of_size.
      apply (spec_manager linear G Hlay (Impl_Free assertions) pre_free do_free s σ i g); [apply Free_spec|done|done|lia|lia|].
      intros p Hp. rewrite Hz by lia. by eexists. }
  destruct Hfree as (s1 & Hrun1 & Hr1 & Hs1).
  destruct (spec_manager linear G Hlay Impl_OpenFirst pre_first do_first s1 _ i g ini ini_pages OpenFirst_spec Hr1 Hg) as (s2 & Hrun2 & Hr2 & Hs2); [lia|lia| |].
  { intros p Hp. unfold freed, opened. rewrite Ho, upd_out, Hz by lia. by eexists. }
  exists s2. split.
  - erewrite st_bind_run; [reflexivity|]. erewrite st_bind_run by exact Hrun1.
    replace (InitialProcessBinarySizeMax / PageSize) with (Z.of_nat ini_pages) by (rewrite Hip; reflexivity).
    erewrite st_bind_run by exact Hrun2. rewrite Hv. erewrite st_bind_run by reflexivity. rewrite (ro_last _ Hok), Heq, Z.eqb_refl. cbn [negb].
    erewrite st_bind_run by reflexivity.
    assert (Er : u64 (v + InitialProcessBinarySizeMax) = v + addr_of (opened r)).
    { unfold opened, InitialProcessBinarySizeMax, addr_of. rewrite Ho, wrap_small; [lia|]. unfold in_width. lia. }
    rewrite Er. reflexivity.
  - split; [|by etransitivity]. unfold region_step. unfold freed at 2. unfold opened. rewrite Ho.
    by replace (first_page r + (num_pages_of r - ini_pages))%nat with ini by lia.
Qed.

(** Any other region of user memory. *)
Lemma free_regions_whole r l reserved s σ i g v : is_user r → region_ok r → opens r = false →
  Region.m_attributes r = Z.of_nat i → G !! i = Some g → (g_p0 g ≤ first_page r)%nat → (first_page r + num_pages_of r ≤ g_p0 g + g_np g)%nat →
  mm_repr s σ → (∀ p, (first_page r ≤ p < first_page r + num_pages_of r)%nat → σ p = Some (false, 0)) → reserved !! i = Some v →
  ∃ s', free_regions assertions (addr_of ini) (r :: l) reserved s =
          free_regions assertions (addr_of ini) l (<[i := v + addr_of (opened r)]> reserved) s' ∧
    mm_repr s' (region_step σ r) ∧ same_rest s s'.
Proof using Hlay Hini.
  intros Hu Hok Ho Ha Hg Hp0 Hend Hr Hz Hv. pose proof ini_pages_Z as Hip. pose proof Ho as Ho'. rewrite (opens_spec r Hok) in Ho'.
  apply bool_decide_eq_false in Ho'. pose proof (ro_pos _ Hok) as Hpos. destruct (region_addresses r Hok) as (He & Hsz & Heb).
  cbn [free_regions]. rewrite Hu. cbn [negb]. rewrite Ha, Nat2Z.id.
  assert (Ei : u64 (addr_of ini + InitialProcessBinarySizeMax) = addr_of (ini + ini_pages)).
  { unfold addr_of, InitialProcessBinarySizeMax. rewrite wrap_small; [lia|]. unfold in_width. lia. }
  assert (El : u64 (addr_of (ini + ini_pages) - 1) = addr_of (ini + ini_pages) - 1).
  { rewrite wrap_small; [done|]. unfold in_width, addr_of. lia. }
  rewrite Ei, El. fold (opens r). rewrite Ho.
  destruct (spec_manager linear G Hlay (Impl_Free assertions) pre_free do_free s σ i g (first_page r) (num_pages_of r) (Free_spec assertions) Hr Hg Hp0 Hend)
    as (s1 & Hrun1 & Hr1 & Hs1).
  { intros p Hp. rewrite Hz by lia. by eexists. }
  exists s1. split.
  - erewrite st_bind_run.
    2:{ erewrite st_bind_run.
        2:{ instantiate (1 := s). instantiate (1 := tt). rewrite (ro_first _ Hok), (ro_last _ Hok). unfold st_check.
            destruct (Z.leb_spec (addr_of (first_page r)) (addr_of (ini + ini_pages) - 1)) as [Hc|Hc].
            - rewrite (proj2 (Z.ltb_lt _ _)); [done|]. destruct (ro_ini _ Hok) as [Hi|[Hi|Hi]]; unfold addr_of in *; try lia; tauto.
            - rewrite (proj2 (Z.eqb_neq _ _)); [done|]. unfold NullAddress. lia. }
        rewrite Hsz, pages_of_size, (ro_first _ Hok). erewrite st_bind_run by exact Hrun1. reflexivity. }
    unfold opened. rewrite Ho. replace (v + addr_of 0) with v by (unfold addr_of; lia). by rewrite list_insert_id.
  - split; [|done]. unfold region_step, freed, opened. rewrite Ho, Nat.sub_0_r. eapply mm_repr_proper; [|exact Hr1]. intros p. apply upd_0.
Qed.
(** ** All regions *)

(** What is reserved in each manager: pages in use with one reference. *)
Definition reserves (reserved : list Z) σ : Prop :=
  ∀ i g, G !! i = Some g → ∃ O : gset nat, reserved !! i = Some (addr_of (size O)) ∧ ∀ p, p ∈ O → in_mgr g p ∧ σ p = Some (false, 1).

Lemma in_mgr_size g (O : gset nat) : (∀ p, p ∈ O → in_mgr g p) → (size O ≤ g_np g)%nat.
Proof using Type.
  intros HO. rewrite <- (size_range (g_p0 g) (g_np g)). apply subseteq_size. intros p Hp%HO. by apply elem_of_range.
Qed.

Lemma reserves_step r reserved σ i g (O : gset nat) : region_ok r → Region.m_attributes r = Z.of_nat i → G !! i = Some g →
  (g_p0 g ≤ first_page r)%nat → (first_page r + num_pages_of r ≤ g_p0 g + g_np g)%nat →
  (∀ p, (first_page r ≤ p < first_page r + num_pages_of r)%nat → σ p = Some (false, 0)) →
  reserves reserved σ → reserved !! i = Some (addr_of (size O)) → (∀ p, p ∈ O → in_mgr g p ∧ σ p = Some (false, 1)) →
  reserves (<[i := addr_of (size O) + addr_of (opened r)]> reserved) (region_step σ r).
Proof using Hini.
  intros Hok Ha Hg Hp0 Hend Hz Hres HO HOp j g' Hg'. pose proof ini_pages_Z as Hip.
  assert (Hkeep : ∀ p, σ p = Some (false, 1) → region_step σ r p = Some (false, 1)).
  { intros p Hp. rewrite region_step_out; [done..|]. intros Hin. rewrite Hz in Hp by done. done. }
  destruct (decide (j = i)) as [->|Hne].
  - simplify_eq. rewrite list_lookup_insert_eq by (by eapply lookup_lt_Some). set (N := range ini (opened r)).
    assert (HN : ∀ p, p ∈ N → (first_page r ≤ p < first_page r + num_pages_of r)%nat ∧ region_step σ r p = Some (false, 1)).
    { intros p Hp%elem_of_range. unfold opened in Hp. destruct (opens r) eqn:Ho; [|lia]. pose proof Ho as Ho'.
      rewrite (opens_spec r Hok) in Ho'. apply bool_decide_eq_true in Ho'. assert (Hin : (first_page r ≤ p < first_page r + num_pages_of r)%nat) by lia.
      split; [done|]. rewrite (region_step_in σ r p Hok Hin (Hz p Hin)), Ho, bool_decide_eq_true_2 by lia. done. }
    exists (O ∪ N). split.
    + rewrite size_union; [|intros p HpO HpN; destruct (HOp p HpO) as [_ E]; destruct (HN p HpN) as [Hin _]; rewrite Hz in E by done; done].
      unfold N. rewrite size_range. unfold addr_of. f_equal. lia.
    + intros p [Hp|Hp]%elem_of_union; [destruct (HOp p Hp); by split; [|apply Hkeep]|]. destruct (HN p Hp) as [Hin E].
      split; [unfold in_mgr; lia|done].
  - rewrite list_lookup_insert_ne by done. destruct (Hres j g' Hg') as (O' & H1 & H2). exists O'. split; [done|].
    intros p Hp. destruct (H2 p Hp). split; [done|by apply Hkeep].
Qed.

Definition before r r' : Prop := (first_page r + num_pages_of r ≤ first_page r')%nat.
Definition started σ (l : list Region.KMemoryRegion) : pages := foldl region_step σ (users l).

Lemma free_regions_run l s σ reserved : mm_repr s σ → reserves reserved σ → Forall region_ok (users l) → StronglySorted before (users l) →
  (∀ r p, r ∈ users l → (first_page r ≤ p < first_page r + num_pages_of r)%nat → σ p = Some (false, 0)) →
  ∃ reserved' s', free_regions assertions (addr_of ini) l reserved s = Ok (reserved', s') ∧ mm_repr s' (started σ l) ∧
    reserves reserved' (started σ l) ∧ same_rest s s'.
Proof using Hlay Hini.
  unfold started. revert s σ reserved. induction l as [|r l IH]; intros s σ reserved Hr Hres Hok Hsort Hz.
  { by exists reserved, s. }
  destruct (decide (is_user r)) as [Hu|Hu].
  - assert (E : users (r :: l) = r :: users l) by (unfold users; by rewrite filter_cons_True). rewrite E in *. cbn [foldl].
    apply Forall_cons in Hok as [Hr0 Hok]. apply StronglySorted_inv in Hsort as [Hsort Hbef].
    assert (Hz0 : ∀ p, (first_page r ≤ p < first_page r + num_pages_of r)%nat → σ p = Some (false, 0)) by (intros p; apply Hz; set_solver).
    destruct (ro_mgr _ Hr0) as (i & g & Ha & Hg & Hi & Hp0 & Hend). destruct (Hres i g Hg) as (O & HO & HOp).
    pose proof (in_mgr_size g O ltac:(intros p Hp; by apply HOp)) as Hsize. destruct (lay_ok _ _ Hlay i g Hg) as [_ Hfit].
    assert (∃ s1, free_regions assertions (addr_of ini) (r :: l) reserved s =
        free_regions assertions (addr_of ini) l (<[i := addr_of (size O) + addr_of (opened r)]> reserved) s1 ∧
        mm_repr s1 (region_step σ r) ∧ same_rest s s1) as (s1 & -> & Hr1 & Hs1).
    { destruct (opens r) eqn:Ho; [eapply free_regions_opens|eapply free_regions_whole]; try done. unfold addr_of; lia. }
    destruct (IH s1 (region_step σ r) _ Hr1 (reserves_step r reserved σ i g O Hr0 Ha Hg Hp0 Hend Hz0 Hres HO HOp) Hok Hsort)
      as (reserved' & s2 & Hrun2 & Hr2 & Hres2 & Hs2).
    { intros r' p Hr' Hp. rewrite region_step_out; [by apply (Hz r'); [set_solver|]|done|]. rewrite List.Forall_forall in Hbef.
      specialize (Hbef r' ltac:(by apply list_elem_of_In)). unfold before in Hbef. lia. }
    exists reserved', s2. split_and!; try done. by etransitivity.
  - assert (E : users (r :: l) = users l) by (unfold users; by rewrite filter_cons_False). rewrite E in *. cbn [free_regions].
    destruct (Region.IsDerivedFrom r Type_DramUserPool) eqn:Ed; [done|]. cbn [negb]. by apply IH.
Qed.
(** Every page after start-up. *)
Lemma started_out σ l p : Forall region_ok (users l) → (∀ r, r ∈ users l → ¬ (first_page r ≤ p < first_page r + num_pages_of r)%nat) →
  started σ l p = σ p.
Proof using Type.
  unfold started. revert σ. induction (users l) as [|r u IH]; intros σ Hok Hout; [done|]. apply Forall_cons in Hok as [Hr Hok]. cbn [foldl].
  rewrite IH; [|done|intros r' Hr'; apply Hout, elem_of_cons; by right]. apply region_step_out; [done|]. apply Hout, elem_of_cons. by left.
Qed.

Lemma started_in σ l r p : Forall region_ok (users l) → StronglySorted before (users l) → r ∈ users l →
  (first_page r ≤ p < first_page r + num_pages_of r)%nat → σ p = Some (false, 0) →
  started σ l p = Some (if opens r && bool_decide (ini ≤ p)%nat then (false, 1) else (true, 0)).
Proof using Type.
  clear Hini. unfold started. revert σ. induction (users l) as [|r0 u IH]; intros σ Hok Hsort Hr Hp Hz; [by apply not_elem_of_nil in Hr|].
  apply Forall_cons in Hok as [Hr0 Hok]. apply StronglySorted_inv in Hsort as [Hsort Hbef]. rewrite List.Forall_forall in Hbef. cbn [foldl].
  apply elem_of_cons in Hr as [->|Hr].
  - assert (Hrest : ∀ τ : pages, foldl region_step τ u p = τ p).
    { clear IH Hsort. induction u as [|r' u IH']; intros τ; [done|]. apply Forall_cons in Hok as [Hr' Hok]. cbn [foldl].
      rewrite IH' by (try done; intros x Hx; apply Hbef; by right). apply region_step_out; [done|].
      specialize (Hbef r' (or_introl eq_refl)). unfold before in Hbef. lia. }
    rewrite Hrest. by apply region_step_in.
  - apply IH; try done. rewrite region_step_out; [done|done|]. specialize (Hbef r ltac:(by apply list_elem_of_In)). unfold before in Hbef. lia.
Qed.

(** ** The sizes in use *)
Lemma set_used_run g m σ (O : gset nat) : mgr_ok g → impl_repr g m σ → (∀ p, p ∈ O → in_mgr g p ∧ σ p = Some (false, 1)) →
  ∃ m', SetInitialUsedHeapSize (addr_of (size O)) m = Ok (tt, m') ∧ impl_repr g m' σ ∧ same_links m m'.
Proof using Type.
  clear Hini Hlay. intros Hg (F & (Xs & Hrep & Hgood & HF) & Hl & Ho & Hc & Hsub) HO. pose proof Hg as [_ Hfit].
  assert (Hdis : F ## O).
  { intros p HpF HpO. destruct (HO p HpO) as [Hin E]. unfold in_mgr in Hin.
    destruct (lookup_lt_is_Some_2 (m_page_reference_counts m) (p - g_p0 g)) as [y Hy]; [lia|]. destruct (Hc _ _ Hy) as [_ Hs].
    replace (g_p0 g + (p - g_p0 g))%nat with p in Hs by lia. rewrite bool_decide_eq_true_2 in Hs by done. by rewrite E in Hs. }
  assert (Hsz : (size F + size O ≤ g_np g)%nat).
  { rewrite <- size_union by done. apply in_mgr_size. intros p [Hp|Hp]%elem_of_union; [|by apply HO]. apply Hsub, elem_of_range in Hp. done. }
  unfold SetInitialUsedHeapSize. eexists. split; [apply on_heap_run; unfold SetInitialUsedSize|].
  - erewrite st_bind_run by reflexivity. rewrite (GetNumFreePages_run _ _ _ (mgr_geometry g Hg) _ _ Hrep Hgood), <- HF.
    rewrite (rep_hsize _ _ _ _ _ Hrep). unfold addr_of, PageSize, st_check.
    rewrite (wrap_small 64 (Z.of_nat (size F) * 4096)) by (unfold in_width; lia).
    rewrite (wrap_small 64 (_ + _)) by (unfold in_width; lia). rewrite (proj2 (Z.leb_le _ _)) by lia. reflexivity.
  - split; [|done]. exists F. split_and!; try done. exists Xs. split_and!; try done. destruct Hrep. by split.
Qed.

Lemma used_sizes_run n i s σ reserved : (n + i = length G)%nat → mm_repr s σ → reserves reserved σ →
  ∃ s', used_sizes n i reserved s = Ok (tt, s') ∧ mm_repr s' σ ∧ same_rest s s'.
Proof using Hlay.
  clear Hini. revert i s. induction n as [|n IH]; intros i s Hn Hr Hres; cbn [used_sizes]; [by exists s|].
  destruct (lookup_lt_is_Some_2 G i) as [g Hg]; [lia|]. destruct (Hres i g Hg) as (O & HO & HOp). rewrite HO. erewrite st_bind_run by reflexivity.
  destruct (mm_impl _ _ _ Hr i g Hg) as (m & Hm & Him).
  destruct (set_used_run g m σ O (lay_ok _ _ Hlay i g Hg) Him HOp) as (m' & Hrun & Him' & Hlk).
  destruct (on_manager_run linear G Hlay _ s σ σ i g m _ m' Hr Hg Hm Hrun Him' Hlk) as (s1 & Hrun1 & Hr1 & Hs1 & _); [done|].
  erewrite st_bind_run by exact Hrun1. destruct (IH (S i) s1) as (s2 & Hrun2 & Hr2 & Hs2); [lia|done|done|].
  exists s2. split_and!; [done|done|by etransitivity].
Qed.
End start.

(** ** The whole of start-up *)

(** The managers as the constructor of [KMemoryManager] leaves them. *)
Record fresh_manager s : Prop := {
  fm_head : m_pool_managers_head (mm s) = replicate Pool_Count None;
  fm_tail : m_pool_managers_tail (mm s) = replicate Pool_Count None;
  fm_managers j : (j < MaxManagerCount)%nat → ∃ m, m_managers (mm s) !! j = Some m ∧ unused_impl m ∧ m_next m = None ∧ m_prev m = None;
}.

Lemma fresh_created G pools s : fresh_manager s →
  created G pools 0 (mkMM (set_num_managers 0 (mm s)) (out s) (filled s)).
Proof.
  intros [H1 H2 H3]. split; cbn; [done|lia|intros j Hj; apply H3; lia|]. intros pool Hpool. exists None, None. rewrite H1, H2.
  split_and!; [by apply lookup_replicate|by apply lookup_replicate|]. split_and!; [done|done|constructor|]. intros k j Hj. done.
Qed.

(** Every page of a manager is in some region of user memory. *)
Definition covers (physical : list Region.KMemoryRegion) (G : list mgr) : Prop :=
  ∀ i g p, G !! i = Some g → in_mgr g p → ∃ r, r ∈ users physical ∧ (first_page r ≤ p < first_page r + num_pages_of r)%nat.

Section startup.
Context (assertions : bool) (linear physical : list Region.KMemoryRegion) (G : list mgr) (pools : list nat) (overheads : list Z) (ini : nat).
Context (Hlay : layout linear G) (Hex : extents assertions physical G pools overheads).
Context (Hok : Forall (region_ok G ini) (users physical)) (Hsort : StronglySorted before (users physical)).

Definition start_state : pages := started ini (initial_all G) physical.

Lemma user_page r p : r ∈ users physical → (first_page r ≤ p < first_page r + num_pages_of r)%nat → initial_all G p = Some (false, 0).
Proof using Hok.
  intros Hr Hp. rewrite Forall_forall in Hok. destruct (ro_mgr _ _ _ (Hok r Hr)) as (i & g & _ & Hg & _ & H1 & H2).
  apply (initial_all_in G i g p Hg). unfold in_mgr. lia.
Qed.

Lemma start_page r p : r ∈ users physical → (first_page r ≤ p < first_page r + num_pages_of r)%nat →
  start_state p = Some (if opens ini r && bool_decide (ini ≤ p)%nat then (false, 1) else (true, 0)).
Proof using Hok Hsort.
  intros Hr Hp. apply (started_in G ini _ physical r p Hok Hsort Hr Hp). by eapply user_page.
Qed.

Lemma start_synced : covers physical G → synced start_state.
Proof using Hok Hsort.
  intros Hcov p fr x Hx. destruct (decide (Exists (λ g, in_mgr g p) G)) as [He|He].
  - apply Exists_exists in He as (g & Hg & Hp). apply list_elem_of_lookup_1 in Hg as [i Hi]. destruct (Hcov i g p Hi Hp) as (r & Hr & Hpr).
    rewrite (start_page r p Hr Hpr) in Hx. destruct (opens ini r && bool_decide (ini ≤ p)%nat); by simplify_eq.
  - unfold start_state in Hx. rewrite (started_out G) in Hx; [|done|].
    + unfold initial_all in Hx. by rewrite decide_False in Hx.
    + intros r Hr Hp. pose proof (user_page r p Hr Hp) as E. unfold initial_all in E. by rewrite decide_False in E.
Qed.

Context (Hini : Z.of_nat (ini + ini_pages) < 2 ^ 40).
Lemma Manager_Initialize_run s management size : fresh_manager s → (4096 | management) → 0 ≤ management →
  sum_overheads overheads ≤ size → management + size < 2 ^ 64 →
  ∃ s', Manager_Initialize assertions physical (addr_of ini) management size s = Ok (tt, s') ∧ mm_repr G s' start_state ∧
    (∀ pool dir, (pool < Pool_Count)%nat →
       pool_managers G s' pool dir (let l := pool_list pools pool (length G) in if dir =? Direction_FromBack then reverse l else l)) ∧
    out s' = out s ∧ m_has_optimized_process (mm s') = m_has_optimized_process (mm s).
Proof using Hlay Hex Hok Hsort Hini.
  intros Hf Hd H0 Hsum Hend. unfold Manager_Initialize. erewrite st_bind_run by reflexivity.
  assert (Hnn : 0 ≤ sum_overheads overheads).
  { apply (overheads_nonneg G); [apply Hex|]. intros g Hg. apply list_elem_of_lookup_1 in Hg as [i Hi]. by apply (ex_ok _ _ _ _ _ Hex i). }
  rewrite (wrap_small 64 (management + size)) by (unfold in_width; lia).
  destruct (create_loop_run assertions physical G pools overheads Hex MaxManagerCount 0 _ management (management + size) eq_refl ltac:(lia)
    (fresh_created G pools s Hf) Hd H0 ltac:(rewrite drop_0; lia) Hend) as (s1 & Hrun1 & Hcr & Ho1 & Hh1). erewrite st_bind_run by exact Hrun1.
  pose proof (created_repr assertions physical G pools overheads s1 Hex Hcr) as Hr1.
  destruct (free_regions_run assertions linear G Hlay ini Hini physical s1 (initial_all G) (replicate MaxManagerCount 0) Hr1)
    as (reserved & s2 & Hrun2 & Hr2 & Hres & Hs2); [|exact Hok|exact Hsort|exact user_page|].
  { intros i g Hg. exists ∅. rewrite size_empty. split; [|intros p Hp; by apply not_elem_of_empty in Hp]. apply lookup_replicate. split; [done|].
    apply lookup_lt_Some in Hg. pose proof (ex_count _ _ _ _ _ Hex). lia. }
  erewrite st_bind_run by exact Hrun2. erewrite st_bind_run by reflexivity.
  assert (Hnum : m_num_managers (mm s2) = length G).
  { rewrite <- (cr_num _ _ _ _ Hcr). apply (sp_num _ _ (proj1 Hs2)). }
  rewrite Hnum. destruct (used_sizes_run linear G Hlay (length G) 0 s2 _ reserved ltac:(lia) Hr2 Hres) as (s3 & Hrun3 & Hr3 & Hs3).
  exists s3. split_and!; [exact Hrun3|exact Hr3| | |].
  - intros pool dir Hpool. eapply pool_managers_same; [apply Hs3|]. eapply pool_managers_same; [apply Hs2|].
    destruct (cr_pools _ _ _ _ Hcr pool Hpool) as (head & tail & Hhead & Htail & Hch). eapply chained_pool; try done.
    + unfold pool_list. etransitivity; [apply length_filter|]. rewrite length_seq. apply Hex.
    + intros i Hi%pool_list_lt. apply lookup_lt_is_Some_2. lia.
  - destruct Hs3 as (_ & -> & _). destruct Hs2 as (_ & -> & _). by rewrite Ho1.
  - destruct Hs3 as (Hs3 & _), Hs2 as (Hs2 & _). by rewrite (sp_has _ _ Hs3), (sp_has _ _ Hs2), Hh1.
Qed.
End startup.
