(* ===== verification/MemoryManagerRefine.v ===== *)
(** * The memory manager's contract

    Two managers of one pool after start-up serve as the example of the
    theorems below: forty pages from page 16 on and twenty pages from page 100 on. *)

From Stdlib Require Import Sorting.Sorted.
From S2P Require Import Prelude Vapours TinyMT PageBitmap PageBitmapSpec PageHeap PageHeapSpec PageHeapInit PageHeapRefine MemoryRegion PageGroup PageGroupSpec MemoryManager MemoryManagerSpec MemoryManagerGroup MemoryManagerInit MemoryManagerStart.
Implicit Types (σ : pages) (a n p : nat) (s : mmstate) (g : mgr).

Module SampleManager.
Definition new_block : Block :=
  mkBlock (mkBitmap [0; 0; 0; 0] [0; 0; 0; 0] (mkRng (TinyMT.Initialize 7) 0 0) 0 0) 0 0 0 0.
Definition new_impl : Impl := mkImpl (mkH (mkHeap 0 0 0 0 (replicate 7 new_block) (mkRng (TinyMT.Initialize 9) 0 0)) []) [] [] 0 4 None None.
Definition new_manager : KMemoryManager :=
  mkManager (replicate 4 None) (replicate 4 None) (replicate 10 new_impl) 0 (replicate 4 0) (replicate 4 false).
Definition new_state : mmstate := mkMM new_manager (PageGroup.mkGroup [] (DynamicSlab.mk 64 0 256 0 0 64)) [].
Definition region (a n attr : Z) : Region.KMemoryRegion :=
  Region.mkRegion (a * 4096) Region.NoPair ((a + n) * 4096 - 1) attr Type_DramApplicationPool.

Definition regions : list Region.KMemoryRegion := [region 16 40 0; region 100 20 1].
Definition G : list mgr := [mkMgr 16 40 0; mkMgr 100 20 0].
Definition ini : nat := 4096.
Definition overhead (np : Z) : Z := match Impl_CalculateManagementOverheadSize (4096 * np) with Ok t => t | Err _ => 0 end.

Lemma mgr_cases i g : G !! i = Some g → (i = 0%nat ∧ g = mkMgr 16 40 0) ∨ (i = 1%nat ∧ g = mkMgr 100 20 0).
Proof. destruct i as [|[|i]]; cbn; intros E; simplify_eq; auto. Qed.

Lemma G_ok i g : G !! i = Some g → mgr_ok g ∧ g_base g = 0%nat.
Proof. intros [[-> ->]|[-> ->]]%mgr_cases; (split; [|done]); split; unfold heap_fits; cbn; lia. Qed.

Definition leads_to (i p : nat) : bool :=
  match Region.GetPhysicalLinearRegion regions (addr_of p) with Ok r => Region.m_attributes r =? Z.of_nat i | Err _ => false end.
Lemma linear_ok i g : G !! i = Some g → ∀ p, in_mgr g p → leads_to i p = true.
Proof.
  intros Hg p Hp. assert (Hall : forallb (leads_to i) (seq (g_p0 g) (g_np g)) = true).
  { apply mgr_cases in Hg as [[-> ->]|[-> ->]]; vm_compute; reflexivity. }
  rewrite forallb_forall in Hall. apply Hall, in_seq. unfold in_mgr in Hp. lia.
Qed.

Lemma G_layout : layout regions G.
Proof.
  split.
  - intros i g Hg. by apply (G_ok i).
  - intros i j g g' p Hg Hg' Hp Hp'. apply mgr_cases in Hg as [[-> ->]|[-> ->]], Hg' as [[-> ->]|[-> ->]]; unfold in_mgr in *; cbn in *; try done; lia.
  - intros i g p Hg Hp. pose proof (linear_ok i g Hg p Hp) as Hl. unfold leads_to in Hl.
    destruct (Region.GetPhysicalLinearRegion _ _) as [r|]; [|done]. exists r. split; [done|]. by apply Z.eqb_eq.
Qed.

Lemma G_extents assertions : extents assertions regions G [0; 0]%nat [overhead 40; overhead 20].
Proof.
  split.
  - cbn. unfold MaxManagerCount. lia.
  - apply G_ok.
  - intros i g Hg. exists 0%nat. apply mgr_cases in Hg as [[-> ->]|[-> ->]]; destruct assertions; vm_compute; split_and!; (done || lia).
  - intros _. eexists _, _. destruct assertions; vm_compute; reflexivity.
  - repeat constructor; vm_compute; reflexivity.
Qed.

Lemma users_regions : users regions = regions.
Proof. vm_compute. reflexivity. Qed.

Lemma regions_ok : Forall (region_ok G ini) (users regions).
Proof.
  rewrite users_regions. assert (Hip := ini_pages_Z). constructor; [|constructor; [|constructor]]; split.
  - exists 0%nat, (mkMgr 16 40 0). vm_compute. split_and!; (done || lia).
  - vm_compute. reflexivity.
  - vm_compute. reflexivity.
  - vm_compute. lia.
  - left. change (first_page _) with 16%nat. change (num_pages_of _) with 40%nat. unfold ini. lia.
  - exists 1%nat, (mkMgr 100 20 0). vm_compute. split_and!; (done || lia).
  - vm_compute. reflexivity.
  - vm_compute. reflexivity.
  - vm_compute. lia.
  - left. change (first_page _) with 100%nat. change (num_pages_of _) with 20%nat. unfold ini. lia.
Qed.

Lemma regions_sorted : StronglySorted before (users regions).
Proof. rewrite users_regions. repeat constructor. Qed.
Lemma ini_small : Z.of_nat (ini + ini_pages) < 2 ^ 40.
Proof. assert (Hip := ini_pages_Z). unfold ini. lia. Qed.
Lemma regions_cover : covers regions G.
Proof.
  intros i g p Hg Hp. rewrite users_regions. unfold in_mgr in Hp. apply mgr_cases in Hg as [[-> ->]|[-> ->]]; cbn in Hp.
  - exists (region 16 40 0). split; [apply elem_of_cons; by left|]. change (first_page _) with 16%nat. change (num_pages_of _) with 40%nat. lia.
  - exists (region 100 20 1). split; [apply elem_of_cons; right; apply elem_of_cons; by left|].
    change (first_page _) with 100%nat. change (num_pages_of _) with 20%nat. lia.
Qed.
Lemma new_state_fresh : fresh_manager new_state.
Proof.
  split; [done|done|]. intros j Hj. exists new_impl. split; [by apply lookup_replicate|]. split_and!; [|done|done].
  split; [unfold rng_ok, in_width; cbn; lia|]. intros k Hk. exists new_block. split; [by apply lookup_replicate|].
  split_and!; [done..|unfold rng_ok, in_width; cbn; lia].
Qed.
End SampleManager.

(** ** Start-up *)

(** (C24) [KMemoryManager::Initialize], for regions of user memory that span the
    managers [G], each either without a page of the initial process binary or
    ending with it, returns with every page outside the initial process binary free
    and without references, every page of the binary in use with one reference,
    and the managers of each pool linked in order in both directions; when the
    regions cover the managers, free pages are exactly those without references. *)
Theorem manager_startup assertions linear physical G pools overheads ini s management size :
  layout linear G → extents assertions physical G pools overheads →
  Forall (region_ok G ini) (users physical) → StronglySorted before (users physical) → Z.of_nat (ini + ini_pages) < 2 ^ 40 →
  fresh_manager s → (4096 | management) → 0 ≤ management → sum_overheads overheads ≤ size → management + size < 2 ^ 64 →
  ∃ s' σ, Manager_Initialize assertions physical (addr_of ini) management size s = Ok (tt, s') ∧ mm_repr G s' σ ∧
    (∀ r p, r ∈ users physical → (first_page r ≤ p < first_page r + num_pages_of r)%nat →
       σ p = Some (if opens ini r && bool_decide (ini ≤ p)%nat then (false, 1) else (true, 0))) ∧
    (∀ pool dir, (pool < Pool_Count)%nat →
       pool_managers G s' pool dir (let l := pool_list pools pool (length G) in if dir =? Direction_FromBack then reverse l else l)) ∧
    (covers physical G → synced σ).
Proof.
  intros Hlay Hex Hok Hsort Hini Hf Hd H0 Hsum Hend.
  destruct (Manager_Initialize_run assertions linear physical G pools overheads ini Hlay Hex Hok Hsort Hini s management size Hf Hd H0 Hsum Hend)
    as (s' & Hrun & Hr & Hp & _). exists s', (start_state physical G ini). split_and!; [done|done| |done|].
  - intros r p. by apply start_page.
  - by apply start_synced.
Qed.

(** Forty pages and the initial process binary behind them in one region. *)
Module SampleBinary.
Definition regions : list Region.KMemoryRegion := [SampleManager.region 16 3112 0].
Definition G : list mgr := [mkMgr 16 3112 0].
Definition ini : nat := 56.

Lemma bin_mgr_cases i g : G !! i = Some g → i = 0%nat ∧ g = mkMgr 16 3112 0.
Proof. destruct i as [|i]; cbn; intros E; by simplify_eq. Qed.
Lemma bin_G_ok i g : G !! i = Some g → mgr_ok g ∧ g_base g = 0%nat.
Proof. intros [-> ->]%bin_mgr_cases. split; [|done]. split; unfold heap_fits; cbn; lia. Qed.
Definition leads_to (p : nat) : bool :=
  match Region.GetPhysicalLinearRegion regions (addr_of p) with Ok r => Region.m_attributes r =? 0 | Err _ => false end.
Lemma bin_linear_ok : forallb leads_to (seq 16 3112) = true.
Proof. vm_compute. reflexivity. Qed.
Lemma bin_G_layout : layout regions G.
Proof.
  split.
  - intros i g Hg. by apply (bin_G_ok i).
  - intros i j g g' p [-> ->]%bin_mgr_cases [-> ->]%bin_mgr_cases _ _. done.
  - intros i g p [-> ->]%bin_mgr_cases Hp. pose proof bin_linear_ok as Hl. rewrite forallb_forall in Hl.
    specialize (Hl p ltac:(apply in_seq; unfold in_mgr in Hp; cbn in Hp; lia)). unfold leads_to in Hl.
    destruct (Region.GetPhysicalLinearRegion _ _) as [r|]; [|done]. exists r. split; [done|]. by apply Z.eqb_eq.
Qed.
Lemma bin_G_extents : extents true regions G [0]%nat [SampleManager.overhead 3112].
Proof.
  split.
  - cbn. unfold MaxManagerCount. lia.
  - apply bin_G_ok.
  - intros i g [-> ->]%bin_mgr_cases. exists 0%nat. vm_compute. split_and!; (done || lia).
  - intros _. eexists _, _. vm_compute. reflexivity.
  - repeat constructor; vm_compute; reflexivity.
Qed.
Lemma bin_users_regions : users regions = regions.
Proof. vm_compute. reflexivity. Qed.
Lemma region_pages : first_page (SampleManager.region 16 3112 0) = 16%nat ∧ num_pages_of (SampleManager.region 16 3112 0) = 3112%nat.
Proof. vm_compute. done. Qed.
Lemma bin_regions_ok : Forall (region_ok G ini) (users regions).
Proof.
  rewrite bin_users_regions. assert (Hip := ini_pages_Z). destruct region_pages as [Ef En]. constructor; [|constructor]. split.
  - exists 0%nat, (mkMgr 16 3112 0). rewrite Ef, En. cbn. unfold MaxManagerCount. split_and!; (done || lia).
  - vm_compute. reflexivity.
  - vm_compute. reflexivity.
  - rewrite En. lia.
  - right. right. rewrite Ef, En. unfold ini. lia.
Qed.
Lemma opens_region : opens ini (SampleManager.region 16 3112 0) = true.
Proof. vm_compute. reflexivity. Qed.
End SampleBinary.

Lemma manager_startup_witness :
  ∃ s' σ, Manager_Initialize true SampleBinary.regions (addr_of SampleBinary.ini) 0x100000 0x10000 SampleManager.new_state = Ok (tt, s') ∧
    mm_repr SampleBinary.G s' σ ∧ σ 55%nat = Some (true, 0) ∧ σ 56%nat = Some (false, 1) ∧ σ 3127%nat = Some (false, 1).
Proof.
  destruct (manager_startup true SampleBinary.regions SampleBinary.regions SampleBinary.G [0]%nat
    [SampleManager.overhead 3112] SampleBinary.ini SampleManager.new_state 0x100000 0x10000) as (s' & σ & Hrun & Hr & Hp & _);
    [apply SampleBinary.bin_G_layout|apply SampleBinary.bin_G_extents|apply SampleBinary.bin_regions_ok| | |apply SampleManager.new_state_fresh
    |by exists 0x100|lia|vm_compute; done|lia|].
  - rewrite SampleBinary.bin_users_regions. repeat constructor.
  - assert (Hip := ini_pages_Z). unfold SampleBinary.ini. lia.
  - assert (Hall : ∀ p, (16 ≤ p < 3128)%nat → σ p = Some (if bool_decide (56 ≤ p)%nat then (false, 1) else (true, 0))).
    { intros p Hpp. rewrite (Hp (SampleManager.region 16 3112 0) p).
      - by rewrite SampleBinary.opens_region.
      - rewrite SampleBinary.bin_users_regions. apply elem_of_cons. by left.
      - destruct SampleBinary.region_pages as [-> ->]. lia. }
    exists s', σ. split; [exact Hrun|]. split; [exact Hr|]. split_and!; rewrite Hall by lia; reflexivity.
Defined.

Module SampleStart.
Import SampleManager.
Definition started_state : mmstate :=
  match Manager_Initialize true regions (addr_of ini) 0x100000 0x10000 new_state with Ok (_, s) => s | Err _ => new_state end.
Definition free_pages : pages := start_state regions G ini.

Lemma start_run : Manager_Initialize true regions (addr_of ini) 0x100000 0x10000 new_state = Ok (tt, started_state) ∧
  mm_repr G started_state free_pages ∧
  (∀ pool dir, (pool < Pool_Count)%nat → pool_managers G started_state pool dir
     (let l := pool_list [0; 0]%nat pool (length G) in if dir =? Direction_FromBack then reverse l else l)) ∧
  out started_state = out new_state ∧ m_has_optimized_process (mm started_state) = replicate 4 false.
Proof.
  destruct (Manager_Initialize_run true regions regions G [0; 0]%nat [overhead 40; overhead 20] ini G_layout (G_extents true)
    regions_ok regions_sorted ini_small new_state 0x100000 0x10000 new_state_fresh) as (s' & Hrun & Hrest);
    [by exists 0x100|lia|vm_compute; done|lia|].
  unfold started_state. rewrite Hrun. split; [done|exact Hrest].
Qed.
Lemma free_synced : synced free_pages.
Proof. apply (start_synced regions G ini regions_ok regions_sorted regions_cover). Qed.
Lemma free_page p : (16 ≤ p < 56)%nat ∨ (100 ≤ p < 120)%nat → free_pages p = Some (true, 0).
Proof.
  assert (Hip := ini_pages_Z). intros Hp. destruct Hp as [Hp|Hp].
  - unfold free_pages. rewrite (start_page regions G ini regions_ok regions_sorted (region 16 40 0) p).
    + rewrite bool_decide_eq_false_2 by (unfold ini; lia). by rewrite andb_false_r.
    + rewrite users_regions. apply elem_of_cons. by left.
    + change (first_page _) with 16%nat. change (num_pages_of _) with 40%nat. lia.
  - unfold free_pages. rewrite (start_page regions G ini regions_ok regions_sorted (region 100 20 1) p).
    + rewrite bool_decide_eq_false_2 by (unfold ini; lia). by rewrite andb_false_r.
    + rewrite users_regions. apply elem_of_cons. right. apply elem_of_cons. by left.
    + change (first_page _) with 100%nat. change (num_pages_of _) with 20%nat. lia.
Qed.
End SampleStart.

(** ** References *)

(** The operations on the references of a range of pages. *)
Inductive rop : Set := ROpenFirst | ROpen | RClose.
Definition run_rop (assertions : bool) (linear : list Region.KMemoryRegion) (x : rop) : Z → Z → mmM unit :=
  match x with ROpenFirst => OpenFirst linear | ROpen => Open linear | RClose => Close assertions linear end.
(** When they are allowed, and what they do to each page: the first reference goes
    to a page in use without references, and closing the last one frees the page. *)
Definition rop_pre (x : rop) : page → Prop := match x with ROpenFirst => pre_first | ROpen => pre_open | RClose => pre_close end.
Definition rop_do (x : rop) : page → page := match x with ROpenFirst => do_first | ROpen => do_open | RClose => do_close end.

Definition impl_rop (assertions : bool) (x : rop) : Z → Z → implM unit :=
  match x with ROpenFirst => Impl_OpenFirst | ROpen => Impl_Open | RClose => Impl_Close assertions end.
Lemma impl_rop_spec assertions x g : mgr_ok g → impl_spec g (impl_rop assertions x) (rop_pre x) (rop_do x).
Proof. intros Hg. destruct x; [by apply OpenFirst_spec|by apply Open_spec|by apply Close_spec]. Qed.
Lemma run_rop_split assertions linear x (a n : Z) : run_rop assertions linear x a n = split_all linear (impl_rop assertions x) a n.
Proof. by destruct x. Qed.
Lemma rop_sync x y : rop_pre x y → fst y = bool_decide (snd y = 0) → fst (rop_do x y) = bool_decide (snd (rop_do x y) = 0).
Proof.
  destruct y as [fr c]. destruct x; cbn; unfold pre_first, pre_open, pre_close; cbn; intros Hp Hs.
  - done.
  - rewrite Hs, !bool_decide_eq_false_2 by lia. done.
  - apply bool_decide_ext. lia.
Qed.

(** (C25) [Open], [OpenFirst] and [Close] of a range of pages, which may extend over
    several managers, change the count of each page of the range by one and
    nothing else; [Close] frees exactly the pages whose count becomes zero.  Free
    pages stay exactly those without references. *)
Theorem references_exact assertions linear G s σ x a n :
  layout linear G → mm_repr G s σ → (∀ p, (a ≤ p < a + n)%nat → ∃ y, σ p = Some y ∧ rop_pre x y) →
  ∃ s', run_rop assertions linear x (addr_of a) (Z.of_nat n) s = Ok (tt, s') ∧ mm_repr G s' (upd σ a n (rop_do x)) ∧
    (synced σ → synced (upd σ a n (rop_do x))) ∧ out s' = out s.
Proof.
  intros Hlay Hr Hpre. rewrite run_rop_split. unfold split_all. rewrite Nat2Z.id.
  destruct (split_loop_run linear G Hlay (impl_rop assertions x) (rop_pre x) (rop_do x) n s σ a n (impl_rop_spec assertions x) Hr ltac:(lia) Hpre)
    as (s' & Hrun & Hr' & _ & Ho & _). exists s'. split_and!; try done. intros Hs.
  apply (synced_upd σ a n (λ y, rop_pre x y ∧ fst y = bool_decide (snd y = 0)) _ Hs).
  - intros p Hp. destruct (Hpre p Hp) as ([fr c] & Hy & Hpy). exists (fr, c). split_and!; try done. by eapply Hs.
  - intros y [Hy1 Hy2]. by apply rop_sync.
Qed.

(** ** Continuous allocation *)

(** (C27) [AllocateAndOpenContinuous] of [n] pages aligned to [2 ^ j], both at most
    [2 ^ 18], the largest block size: it gives [n] free pages at an aligned address,
    all of one manager of the pool, which then have one reference, or leaves
    everything as it was when no manager of the pool has a free block of the
    smallest size that fits. *)
Theorem continuous_allocation_exact assertions linear G s σ option l n j :
  layout linear G → mm_repr G s σ → synced σ → pool_managers G s (Z.to_nat (GetPool_option option)) (GetDirection option) l →
  is_Some (m_has_optimized_process (mm s) !! Z.to_nat (GetPool_option option)) →
  (0 < n)%nat → Z.of_nat n ≤ 2 ^ 18 → (j ≤ 18)%nat →
  ∃ r s', AllocateAndOpenContinuous assertions (Z.of_nat n) (Z.of_nat (2 ^ j)) option s = Ok (r, s') ∧
    ((r = NullAddress ∧ mm_repr G s' σ ∧ ∃ k, no_block_in G σ l k ∧ (n ≤ 2 ^ k)%nat ∧ (j ≤ k)%nat ∧
        kernel_shifts !! Z.to_nat (GetAlignedBlockIndex (Z.of_nat n) (Z.of_nat (2 ^ j))) = Some k) ∨
     ∃ a, r = addr_of a ∧ (0 < a)%nat ∧ (2 ^ j | a)%nat ∧
       (∃ i g, i ∈ l ∧ G !! i = Some g ∧ (g_p0 g ≤ a)%nat ∧ (a + n ≤ g_p0 g + g_np g)%nat) ∧
       (∀ p, (a ≤ p < a + n)%nat → σ p = Some (true, 0)) ∧
       mm_repr G s' (upd σ a n do_first) ∧ synced (upd σ a n do_first)).
Proof.
  intros Hlay Hr Hs Hp Hb Hn Hn18 Hj.
  destruct (AllocateAndOpenContinuous_run assertions linear G Hlay s σ option l n j Hr Hs Hp Hb Hn Hn18 Hj) as (r & s' & Hrun & _ & Hcase).
  by exists r, s'.
Qed.

(** ** Page groups *)
Definition group_rop (assertions : bool) (linear : list Region.KMemoryRegion) (x : rop) : mmM unit :=
  match x with ROpenFirst => Group_OpenFirst linear | ROpen => Group_Open linear | RClose => Group_Close assertions linear end.

Lemma on_blocks_ext (f f' : Z → Z → mmM unit) bl s : (∀ (x y : Z) s, f x y s = f' x y s) → on_blocks f bl s = on_blocks f' bl s.
Proof.
  intros Hf. revert s. induction bl as [|b bl IH]; intros s; cbn [on_blocks]; [done|]. unfold mbind, st_bind. rewrite Hf.
  destruct (f' _ _ s) as [[[] s1]|e]; [apply IH|done].
Qed.

Lemma blocks_rop assertions linear G x bl s σ : layout linear G → mm_repr G s σ → Forall info_ok bl → NoDup (group_pages bl) →
  (∀ p, p ∈ group_pages bl → ∃ y, σ p = Some y ∧ rop_pre x y) →
  ∃ s', on_blocks (run_rop assertions linear x) bl s = Ok (tt, s') ∧ mm_repr G s' (mark (rop_do x) σ (group_pages bl)) ∧
    (synced σ → synced (mark (rop_do x) σ (group_pages bl))) ∧ same_rest s s'.
Proof.
  intros Hlay Hr Hok Hnd Hpre.
  destruct (on_blocks_run linear G Hlay (impl_rop assertions x) (rop_pre x) (rop_do x) bl s σ (impl_rop_spec assertions x) Hr Hok Hnd Hpre)
    as (s' & Hrun & Hr' & Hs'). exists s'. split_and!; try done.
  - rewrite <- Hrun. apply on_blocks_ext. intros a n t. by rewrite run_rop_split.
  - intros Hs. apply (synced_mark σ _ (λ y, rop_pre x y ∧ fst y = bool_decide (snd y = 0)) _ Hs).
    + intros p Hp. destruct (Hpre p Hp) as ([fr c] & Hy & Hpy). exists (fr, c). split_and!; try done. by eapply Hs.
    + intros y [Hy1 Hy2]. by apply rop_sync.
Qed.

(** [KPageGroup::Open], [OpenFirst] and [Close] change the count of every page of
    the group once, in whichever managers the blocks of the group lie, and keep the
    group itself. *)
Theorem group_references_exact assertions linear G s σ x :
  layout linear G → mm_repr G s σ → Forall info_ok (PageGroup.blocks (out s)) → NoDup (group_pages (PageGroup.blocks (out s))) →
  (∀ p, p ∈ group_pages (PageGroup.blocks (out s)) → ∃ y, σ p = Some y ∧ rop_pre x y) →
  ∃ s', group_rop assertions linear x s = Ok (tt, s') ∧ out s' = out s ∧
    mm_repr G s' (mark (rop_do x) σ (group_pages (PageGroup.blocks (out s)))) ∧
    (synced σ → synced (mark (rop_do x) σ (group_pages (PageGroup.blocks (out s))))).
Proof.
  intros Hlay Hr Hok Hnd Hpre. destruct (blocks_rop assertions linear G x _ s σ Hlay Hr Hok Hnd Hpre) as (s' & Hrun & Hr' & Hs & _ & Ho & _).
  exists s'. split_and!; try done. rewrite <- Hrun. by destruct x.
Qed.

(** (C26) [AllocateAndOpen] of [n] pages into an empty group gives [n] distinct pages of
    the pool that were free and now have one reference each; it reports
    out-of-memory only when the pool has fewer than [n] free pages; when it fails
    the group is empty and, if no two managers of the pool touch, every page is as
    it was. *)
Theorem group_allocation_exact assertions linear G l σ s option n :
  layout linear G → mm_repr G s σ → synced σ → PageGroup.blocks (out s) = [] →
  pool_managers G s (Z.to_nat (GetPool_option option)) (GetDirection option) l →
  is_Some (m_has_optimized_process (mm s) !! Z.to_nat (GetPool_option option)) → (0 < n)%nat → Z.of_nat n < 2 ^ 64 →
  ∃ r s', AllocateAndOpen assertions linear (Z.of_nat n) option s = Ok (r, s') ∧
    ((r = ResultSuccess ∧ fresh_pages G l σ n (group_pages (PageGroup.blocks (out s'))) ∧ Forall info_ok (PageGroup.blocks (out s')) ∧
        mm_repr G s' (mark do_first σ (group_pages (PageGroup.blocks (out s')))) ∧
        synced (mark do_first σ (group_pages (PageGroup.blocks (out s'))))) ∨
     (r = ResultOutOfMemory ∧ failed G l σ s' ∧ too_few G l σ n) ∨ (r = ResultOutOfResource ∧ failed G l σ s')).
Proof.
  intros Hlay Hr Hs He Hp Hb Hn Hn64.
  destruct (AllocateAndOpen_run assertions linear G Hlay l σ s option n Hr Hs He Hp Hb Hn Hn64) as (r & s' & Hrun & _ & Hcase).
  by exists r, s'.
Qed.

(** (C29) Closing a group that [AllocateAndOpen] filled gives every page back: the
    memory is as before the allocation, and the group is empty. *)
Theorem group_allocation_roundtrip assertions linear G l σ s option n s1 :
  layout linear G → mm_repr G s σ → synced σ → PageGroup.blocks (out s) = [] →
  pool_managers G s (Z.to_nat (GetPool_option option)) (GetDirection option) l →
  is_Some (m_has_optimized_process (mm s) !! Z.to_nat (GetPool_option option)) → (0 < n)%nat → Z.of_nat n < 2 ^ 64 →
  AllocateAndOpen assertions linear (Z.of_nat n) option s = Ok (ResultSuccess, s1) →
  ∃ s2, Group_CloseAndReset assertions linear s1 = Ok (tt, s2) ∧ mm_repr G s2 σ ∧ PageGroup.blocks (out s2) = [].
Proof.
  intros Hlay Hr Hs He Hp Hb Hn Hn64 Hrun.
  destruct (AllocateAndOpen_run assertions linear G Hlay l σ s option n Hr Hs He Hp Hb Hn Hn64) as (r & s' & Hrun' & _ & Hcase).
  rewrite Hrun in Hrun'. injection Hrun' as <- <-. destruct Hcase as [(_ & (Hnd & _ & Hfree) & Hok & Hr1 & _)|[[? _]|[? _]]]; [|done..].
  set (L := group_pages (PageGroup.blocks (out s1))) in *.
  destruct (blocks_rop assertions linear G RClose (PageGroup.blocks (out s1)) s1 _ Hlay Hr1 Hok Hnd) as (s2 & Hrun2 & Hr2 & _ & _).
  { intros p Hp1. rewrite mark_in by done. destruct (Hfree p Hp1) as [_ ->]. by eexists. }
  unfold Group_CloseAndReset. erewrite st_bind_run by reflexivity. erewrite st_bind_run by exact Hrun2.
  eexists. split; [by apply on_group_run|]. split; [|done]. apply mm_repr_group. eapply mm_repr_proper; [|exact Hr2].
  intros p. fold L. unfold mark. destruct (decide (p ∈ L)) as [Hin|]; [|done]. destruct (Hfree p Hin) as [_ ->]. done.
Qed.

(** ** The theorems at the example *)
Module SampleRuns.
Import SampleManager SampleStart.

Lemma pool_0 : pool_managers G started_state (Z.to_nat (GetPool_option 0)) (GetDirection 0) [0; 1]%nat.
Proof. destruct start_run as (_ & _ & Hp & _). apply (Hp 0%nat 0). unfold Pool_Count. lia. Qed.
Lemma optimized_0 : is_Some (m_has_optimized_process (mm started_state) !! Z.to_nat (GetPool_option 0)).
Proof. destruct start_run as (_ & _ & _ & _ & ->). by eexists. Qed.
Lemma start_repr : mm_repr G started_state free_pages.
Proof. apply start_run. Qed.
Lemma start_empty : PageGroup.blocks (out started_state) = [].
Proof. destruct start_run as (_ & _ & _ & -> & _). done. Qed.

Lemma ok_pair {A B} (a a' : A) (b b' : B) : Ok (a, b) = Ok (a', b') → a = a' ∧ b = b'.
Proof. by intros [= -> ->]. Qed.

(** Five pages from page 16 on are allocated. *)
Definition five_state : mmstate :=
  match AllocateAndOpenContinuous true 5 1 0 started_state with Ok (_, s) => s | Err _ => started_state end.
Lemma five_run : AllocateAndOpenContinuous true 5 1 0 started_state = Ok (65536, five_state).
Proof.
  assert (E : match AllocateAndOpenContinuous true 5 1 0 started_state with Ok (r, _) => Some r | Err _ => None end = Some 65536)
    by (vm_compute; reflexivity).
  unfold five_state. destruct (AllocateAndOpenContinuous true 5 1 0 started_state) as [[r s]|]; [|done]. by injection E as ->.
Qed.
Lemma five_repr : mm_repr G five_state (upd free_pages 16 5 do_first) ∧ synced (upd free_pages 16 5 do_first).
Proof.
  destruct (AllocateAndOpenContinuous_run true regions G G_layout started_state free_pages 0 [0; 1]%nat 5 0 start_repr free_synced pool_0 optimized_0)
    as (r & s' & Hrun & _ & Hcase); [lia|lia|lia|]. change (Z.of_nat 5) with 5 in Hrun. change (Z.of_nat (2 ^ 0)) with 1 in Hrun.
  rewrite five_run in Hrun. apply ok_pair in Hrun as [<- <-]. destruct Hcase as [[? _]|(a & Ha & _ & _ & _ & _ & Hr & Hs)]; [done|].
  assert (a = 16)%nat as -> by (unfold addr_of in Ha; lia). done.
Qed.

(** Fifty pages of both managers are allocated as a group. *)
Definition fifty_state : mmstate :=
  match AllocateAndOpen true regions 50 0 started_state with Ok (_, s) => s | Err _ => started_state end.
Lemma fifty_run : AllocateAndOpen true regions 50 0 started_state = Ok (ResultSuccess, fifty_state).
Proof.
  assert (E : match AllocateAndOpen true regions 50 0 started_state with Ok (r, _) => Some r | Err _ => None end = Some ResultSuccess)
    by (vm_compute; reflexivity).
  unfold fifty_state. destruct (AllocateAndOpen true regions 50 0 started_state) as [[r s]|]; [|done]. by injection E as ->.
Qed.
Lemma fifty_repr : ∃ L, L = group_pages (PageGroup.blocks (out fifty_state)) ∧ fresh_pages G [0; 1]%nat free_pages 50 L ∧
  Forall info_ok (PageGroup.blocks (out fifty_state)) ∧ mm_repr G fifty_state (mark do_first free_pages L) ∧ synced (mark do_first free_pages L).
Proof.
  destruct (AllocateAndOpen_run true regions G G_layout [0; 1]%nat free_pages started_state 0 50 start_repr free_synced start_empty pool_0 optimized_0)
    as (r & s' & Hrun & _ & Hcase); [lia|lia|]. change (Z.of_nat 50) with 50 in Hrun. rewrite fifty_run in Hrun. apply ok_pair in Hrun as [<- <-].
  eexists. split; [reflexivity|]. destruct Hcase as [(_ & H)|[[? _]|[? _]]]; [exact H|done|done].
Qed.
End SampleRuns.

Lemma references_exact_witness :
  ∃ s', run_rop true SampleManager.regions RClose (addr_of 17) (Z.of_nat 2) SampleRuns.five_state = Ok (tt, s') ∧
    mm_repr SampleManager.G s' (upd (upd SampleStart.free_pages 16 5 do_first) 17 2 (rop_do RClose)) ∧
    (synced (upd SampleStart.free_pages 16 5 do_first) → synced (upd (upd SampleStart.free_pages 16 5 do_first) 17 2 (rop_do RClose))) ∧
    out s' = out SampleRuns.five_state.
Proof.
  apply (references_exact true SampleManager.regions SampleManager.G); [apply SampleManager.G_layout|apply SampleRuns.five_repr|].
  intros p Hp. rewrite upd_in by lia. rewrite SampleStart.free_page by lia. by eexists.
Defined.

Lemma continuous_allocation_exact_witness :
  ∃ r s', AllocateAndOpenContinuous true (Z.of_nat 5) (Z.of_nat (2 ^ 0)) 0 SampleStart.started_state = Ok (r, s') ∧
    ((r = NullAddress ∧ mm_repr SampleManager.G s' SampleStart.free_pages ∧
        ∃ k, no_block_in SampleManager.G SampleStart.free_pages [0; 1]%nat k ∧ (5 ≤ 2 ^ k)%nat ∧ (0 ≤ k)%nat ∧
          kernel_shifts !! Z.to_nat (GetAlignedBlockIndex (Z.of_nat 5) (Z.of_nat (2 ^ 0))) = Some k) ∨
     ∃ a, r = addr_of a ∧ (0 < a)%nat ∧ (2 ^ 0 | a)%nat ∧
       (∃ i g, i ∈ [0; 1]%nat ∧ SampleManager.G !! i = Some g ∧ (g_p0 g ≤ a)%nat ∧ (a + 5 ≤ g_p0 g + g_np g)%nat) ∧
       (∀ p, (a ≤ p < a + 5)%nat → SampleStart.free_pages p = Some (true, 0)) ∧
       mm_repr SampleManager.G s' (upd SampleStart.free_pages a 5 do_first) ∧ synced (upd SampleStart.free_pages a 5 do_first)).
Proof.
  apply (continuous_allocation_exact true SampleManager.regions SampleManager.G);
    [apply SampleManager.G_layout|apply SampleRuns.start_repr|apply SampleStart.free_synced|apply SampleRuns.pool_0
    |apply SampleRuns.optimized_0|lia|lia|lia].
Defined.

Lemma group_references_exact_witness :
  ∃ s', group_rop true SampleManager.regions ROpen SampleRuns.fifty_state = Ok (tt, s') ∧ out s' = out SampleRuns.fifty_state ∧
    let L := group_pages (PageGroup.blocks (out SampleRuns.fifty_state)) in
    mm_repr SampleManager.G s' (mark (rop_do ROpen) (mark do_first SampleStart.free_pages L) L) ∧
    (synced (mark do_first SampleStart.free_pages L) → synced (mark (rop_do ROpen) (mark do_first SampleStart.free_pages L) L)).
Proof.
  destruct SampleRuns.fifty_repr as (L & -> & (Hnd & _ & Hfree) & Hok & Hr & _).
  apply (group_references_exact true SampleManager.regions SampleManager.G _ _ ROpen SampleManager.G_layout Hr Hok Hnd).
  intros p Hp. rewrite mark_in by done. destruct (Hfree p Hp) as [_ ->]. by eexists.
Defined.

Lemma group_allocation_exact_witness :
  ∃ r s', AllocateAndOpen true SampleManager.regions (Z.of_nat 50) 0 SampleStart.started_state = Ok (r, s') ∧
    ((r = ResultSuccess ∧ fresh_pages SampleManager.G [0; 1]%nat SampleStart.free_pages 50 (group_pages (PageGroup.blocks (out s'))) ∧
        Forall info_ok (PageGroup.blocks (out s')) ∧
        mm_repr SampleManager.G s' (mark do_first SampleStart.free_pages (group_pages (PageGroup.blocks (out s')))) ∧
        synced (mark do_first SampleStart.free_pages (group_pages (PageGroup.blocks (out s'))))) ∨
     (r = ResultOutOfMemory ∧ failed SampleManager.G [0; 1]%nat SampleStart.free_pages s' ∧ too_few SampleManager.G [0; 1]%nat SampleStart.free_pages 50) ∨
     (r = ResultOutOfResource ∧ failed SampleManager.G [0; 1]%nat SampleStart.free_pages s')).
Proof.
  apply (group_allocation_exact true SampleManager.regions SampleManager.G);
    [apply SampleManager.G_layout|apply SampleRuns.start_repr|apply SampleStart.free_synced|apply SampleRuns.start_empty|apply SampleRuns.pool_0
    |apply SampleRuns.optimized_0|lia|lia].
Defined.

Lemma group_allocation_roundtrip_witness :
  ∃ s2, Group_CloseAndReset true SampleManager.regions SampleRuns.fifty_state = Ok (tt, s2) ∧
    mm_repr SampleManager.G s2 SampleStart.free_pages ∧ PageGroup.blocks (out s2) = [].
Proof.
  apply (group_allocation_roundtrip true SampleManager.regions SampleManager.G [0; 1]%nat SampleStart.free_pages SampleStart.started_state 0 50);
    [apply SampleManager.G_layout|apply SampleRuns.start_repr|apply SampleStart.free_synced|apply SampleRuns.start_empty|apply SampleRuns.pool_0
    |apply SampleRuns.optimized_0|lia|lia|apply SampleRuns.fifty_run].
Defined.

(** ** Where the code falls short *)
Definition free_sizes s : list Z := map (λ m, GetFreeSize (impl_heap m)) (take (m_num_managers (mm s)) (m_managers (mm s))).

(** Two managers of one pool that touch, sixteen pages each. *)
Definition touching : list Region.KMemoryRegion := [SampleManager.region 16 16 0; SampleManager.region 32 16 1].
Definition touching_state : mmstate :=
  match Manager_Initialize true touching (addr_of SampleManager.ini) 0x100000 0x10000 SampleManager.new_state with
  | Ok (_, s) => s | Err _ => SampleManager.new_state end.

(** When two managers of a pool touch, a failed [AllocateAndOpen] loses pages: the
    blocks of both are joined in the group, and the clean-up gives back only the
    part in the first manager.  Here the sixteen pages of the second manager are
    neither free nor referenced afterwards. *)
Theorem failed_allocation_leaks :
  free_sizes touching_state = [65536; 65536] ∧
  match AllocateAndOpen true touching 33 0 touching_state with
  | Ok (r, s) => r = ResultOutOfMemory ∧ PageGroup.blocks (out s) = [] ∧ free_sizes s = [65536; 0] ∧
      ∀ m k, m_managers (mm s) !! 1%nat = Some m → (k < 16)%nat → m_page_reference_counts m !! k = Some 0
  | Err _ => False
  end.
Proof.
  split; [vm_compute; reflexivity|].
  assert (E : match AllocateAndOpen true touching 33 0 touching_state with
    | Ok (r, s) => Some (r, PageGroup.blocks (out s), free_sizes s, m_page_reference_counts <$> m_managers (mm s) !! 1%nat) | Err _ => None end =
    Some (ResultOutOfMemory, [], [65536; 0], Some (replicate 16 0))) by (vm_compute; reflexivity).
  destruct (AllocateAndOpen true touching 33 0 touching_state) as [[r s]|]; [|done]. injection E as -> -> -> Hc.
  split_and!; try done. intros m k Hm Hk. rewrite Hm in Hc. injection Hc as ->. exact (lookup_replicate_2 16 0 k Hk).
Qed.

(** The pages behind the initial process binary are freed with their size in
    bytes as the number of pages: start-up aborts when its region goes on behind
    it, and works when the region ends with it. *)
Lemma startup_binary_tail_aborts assertions :
  Manager_Initialize assertions [SampleManager.region 16 3073 0] (addr_of 16) 0x100000 0x100000 SampleManager.new_state = Err Aborted ∧
  ∃ s, Manager_Initialize assertions [SampleManager.region 16 3072 0] (addr_of 16) 0x100000 0x100000 SampleManager.new_state = Ok (tt, s).
Proof. destruct assertions; split; (vm_compute; reflexivity) || (eexists; vm_compute; reflexivity). Qed.

(** A continuous allocation beyond the largest block size indexes the blocks of
    the heap at -1 whenever the pool has a manager. *)
Lemma continuous_allocation_too_large assertions G s option i l (n align : Z) :
  pool_managers G s (Z.to_nat (GetPool_option option)) (GetDirection option) (i :: l) → 2 ^ 18 < n →
  AllocateAndOpenContinuous assertions n align option s = Err OutOfBounds.
Proof.
  intros Hp Hn. unfold AllocateAndOpenContinuous. rewrite (proj2 (Z.eqb_neq _ 0)) by lia.
  assert (E : GetAlignedBlockIndex n align = -1).
  { unfold GetAlignedBlockIndex. change MemoryBlockPageShifts with (block_shifts kernel_shifts). unfold block_shifts, kernel_shifts. cbn [map].
    cbn [aligned_index_loop]. unfold PageSize. repeat (rewrite (proj2 (Z.leb_gt _ _)); [|match goal with |- ?x < _ => let y := eval vm_compute in x in change x with y end; lia]).
    done. }
  rewrite E. destruct (GetFirstManager_run _ _ _ _ _ Hp) as (first & Hf & -> & m & Hm & _). erewrite st_bind_run by exact Hf.
  apply st_bind_err. cbn [continuous_loop MaxManagerCount]. apply st_bind_err. unfold on_manager. erewrite st_bind_run by (by apply get_manager_run).
  by apply st_bind_err.
Qed.
