(* ===== verification/Libc.v ===== *)
(** * The C library routines of the kernel

    [memmove], [memcpy], [memset], [memcmp], [strncpy] and [strncmp] of
    [kernel/ams/libc/kern_libc_generic.c], in the variants that work on words.
    Memory maps addresses to bytes; an access to an address that is not mapped is
    out of bounds.  A [long] has eight bytes, least significant first. *)

From S2P Require Import Prelude.

Module Libc.

Abbreviation mem := (gmap Z Z).
Abbreviation memM := (stM mem).

Definition load8 (a : Z) : memM Z := m ← st_get; st_lift (of_option OutOfBounds (m !! a)).
Definition store8 (a v : Z) : memM unit :=
  m ← st_get; _ ← st_check (bool_decide (is_Some (m !! a))) OutOfBounds; st_put (<[a := v]> m).

(** *** Words *)
Definition sizeof_long : Z := 8.
Fixpoint le_combine (l : list Z) : Z := match l with [] => 0 | b :: l' => b + 256 * le_combine l' end.
Fixpoint le_split (n : nat) (v : Z) : list Z := match n with O => [] | S n' => v mod 256 :: le_split n' (v / 256) end.
Fixpoint load_bytes (n : nat) (a : Z) : memM (list Z) :=
  match n with
  | O => mret []
  | S n' => b ← load8 a; l ← load_bytes n' (a + 1); mret (b :: l)
  end.
Fixpoint store_bytes (a : Z) (l : list Z) : memM unit :=
  match l with
  | [] => mret tt
  | b :: l' => _ ← store8 a b; store_bytes (a + 1) l'
  end.
Definition load64 (a : Z) : memM Z := l ← load_bytes 8 a; mret (le_combine l).
Definition store64 (a v : Z) : memM unit := store_bytes a (le_split 8 v).

(** *** The macros *)
Definition UNALIGNED1 (x : Z) : bool := negb (Z.land x (sizeof_long - 1) =? 0).
Definition UNALIGNED (x y : Z) : bool := negb (Z.lor (Z.land x (sizeof_long - 1)) (Z.land y (sizeof_long - 1)) =? 0).
Definition BIGBLOCKSIZE : Z := Z.shiftl sizeof_long 2.
Definition LITTLEBLOCKSIZE : Z := sizeof_long.
(** [(X - 0x0101010101010101) & ~X & 0x8080808080808080] in 64 bits. *)
Definition DETECTNULL (x : Z) : Z :=
  Z.land (Z.land (u64 (x - 0x0101010101010101)) (u64 (Z.lnot x))) 0x8080808080808080.

(** ** memmove and memcpy *)

(** [while (length--) *dst++ = *src++] *)
Fixpoint copy_forward (n : nat) (dst src : Z) : memM unit :=
  match n with
  | O => mret tt
  | S n' => v ← load8 src; _ ← store8 dst v; copy_forward n' (dst + 1) (src + 1)
  end.
(** [while (length--) *--dst = *--src] *)
Fixpoint copy_backward (n : nat) (dst src : Z) : memM unit :=
  match n with
  | O => mret tt
  | S n' => v ← load8 (src - 1); _ ← store8 (dst - 1) v; copy_backward n' (dst - 1) (src - 1)
  end.
Definition copy_word (dst src : Z) : memM unit := v ← load64 src; store64 dst v.

(** Four words a round, then one; the pointers and the length that is left. *)
Fixpoint copy4_loop (fuel : nat) (length dst src : Z) : memM (Z * Z * Z) :=
  if BIGBLOCKSIZE <=? length then
    match fuel with
    | O => st_throw OutOfFuel
    | S fuel' =>
        _ ← copy_word dst src;
        _ ← copy_word (dst + 8) (src + 8);
        _ ← copy_word (dst + 16) (src + 16);
        _ ← copy_word (dst + 24) (src + 24);
        copy4_loop fuel' (length - BIGBLOCKSIZE) (dst + 32) (src + 32)
    end
  else mret (length, dst, src).
Fixpoint copy1_loop (fuel : nat) (length dst src : Z) : memM (Z * Z * Z) :=
  if LITTLEBLOCKSIZE <=? length then
    match fuel with
    | O => st_throw OutOfFuel
    | S fuel' => _ ← copy_word dst src; copy1_loop fuel' (length - LITTLEBLOCKSIZE) (dst + 8) (src + 8)
    end
  else mret (length, dst, src).

(** The forward copy, which both functions share. *)
Definition copy_words (dst src length : Z) : memM unit :=
  '(length, dst, src) ←
    (if negb (length <? BIGBLOCKSIZE) && negb (UNALIGNED src dst) then
       '(length, dst, src) ← copy4_loop (Z.to_nat length) length dst src;
       copy1_loop (Z.to_nat length) length dst src
     else mret (length, dst, src));
  copy_forward (Z.to_nat length) dst src.

Definition memmove (dst_void src_void length : Z) : memM Z :=
  if (src_void <? dst_void) && (dst_void <? src_void + length) then
    _ ← copy_backward (Z.to_nat length) (dst_void + length) (src_void + length); mret dst_void
  else _ ← copy_words dst_void src_void length; mret dst_void.
Definition memcpy (dst0 src0 len0 : Z) : memM Z := _ ← copy_words dst0 src0 len0; mret dst0.

(** ** memset *)

(** [while (UNALIGNED (s))]: [None] when [n] runs out on the way. *)
Fixpoint set_unaligned (fuel : nat) (s n c : Z) : memM (option (Z * Z)) :=
  if UNALIGNED1 s then
    if n =? 0 then mret None else
    match fuel with
    | O => st_throw OutOfFuel
    | S fuel' => _ ← store8 s (wrap 8 c); set_unaligned fuel' (s + 1) (n - 1) c
    end
  else mret (Some (s, n)).
Fixpoint set4_loop (fuel : nat) (s n buffer : Z) : memM (Z * Z) :=
  if sizeof_long * 4 <=? n then
    match fuel with
    | O => st_throw OutOfFuel
    | S fuel' =>
        _ ← store64 s buffer; _ ← store64 (s + 8) buffer; _ ← store64 (s + 16) buffer; _ ← store64 (s + 24) buffer;
        set4_loop fuel' (s + 32) (n - 4 * sizeof_long) buffer
    end
  else mret (s, n).
Fixpoint set1_loop (fuel : nat) (s n buffer : Z) : memM (Z * Z) :=
  if sizeof_long <=? n then
    match fuel with
    | O => st_throw OutOfFuel
    | S fuel' => _ ← store64 s buffer; set1_loop fuel' (s + 8) (n - sizeof_long) buffer
    end
  else mret (s, n).
Fixpoint set_bytes (n : nat) (s c : Z) : memM unit :=
  match n with
  | O => mret tt
  | S n' => _ ← store8 s (wrap 8 c); set_bytes n' (s + 1) c
  end.
(** The byte in every position of a word: the loop over [i] from 32 runs once. *)
Definition set_buffer (c : Z) : Z :=
  let d := Z.land (u32 c) 0xff in
  let buffer := Z.lor (Z.shiftl d 8) d in
  let buffer := Z.lor buffer (Z.shiftl buffer 16) in
  Z.lor (Z.shiftl buffer 32) buffer.
Definition memset (m c n : Z) : memM Z :=
  r ← set_unaligned (Z.to_nat sizeof_long) m n c;
  match r with
  | None => mret m
  | Some (s, n) =>
      '(s, n) ← (if n <? sizeof_long then mret (s, n) else
                   '(s, n) ← set4_loop (Z.to_nat n) s n (set_buffer c);
                   set1_loop (Z.to_nat n) s n (set_buffer c));
      _ ← set_bytes (Z.to_nat n) s c;
      mret m
  end.

(** ** memcmp *)
Fixpoint cmp_words (fuel : nat) (a1 a2 n : Z) : memM (Z * Z * Z) :=
  if sizeof_long <=? n then
    match fuel with
    | O => st_throw OutOfFuel
    | S fuel' =>
        x ← load64 a1; y ← load64 a2;
        if negb (x =? y) then mret (a1, a2, n) else cmp_words fuel' (a1 + 8) (a2 + 8) (n - sizeof_long)
    end
  else mret (a1, a2, n).
Fixpoint cmp_bytes (n : nat) (s1 s2 : Z) : memM Z :=
  match n with
  | O => mret 0
  | S n' => x ← load8 s1; y ← load8 s2; if negb (x =? y) then mret (x - y) else cmp_bytes n' (s1 + 1) (s2 + 1)
  end.
Definition memcmp (m1 m2 n : Z) : memM Z :=
  '(s1, s2, n) ← (if negb (n <? sizeof_long) && negb (UNALIGNED m1 m2) then cmp_words (Z.to_nat n) m1 m2 n else mret (m1, m2, n));
  cmp_bytes (Z.to_nat n) s1 s2.

(** ** strncpy *)
Fixpoint strncpy_words (fuel : nat) (dst src count : Z) : memM (Z * Z * Z) :=
  if sizeof_long <=? count then
    x ← load64 src;
    if DETECTNULL x =? 0 then
      match fuel with
      | O => st_throw OutOfFuel
      | S fuel' => _ ← store64 dst x; strncpy_words fuel' (dst + 8) (src + 8) (count - sizeof_long)
      end
    else mret (dst, src, count)
  else mret (dst, src, count).
(** [while (count > 0)]: where the destination is, and what is left to pad. *)
Fixpoint strncpy_bytes (count : nat) (dst src : Z) : memM (Z * nat) :=
  match count with
  | O => mret (dst, O)
  | S count' =>
      x ← load8 src; _ ← store8 dst x;
      if x =? 0 then mret (dst + 1, count') else strncpy_bytes count' (dst + 1) (src + 1)
  end.
Fixpoint pad_zeros (count : nat) (dst : Z) : memM unit :=
  match count with
  | O => mret tt
  | S count' => _ ← store8 dst 0; pad_zeros count' (dst + 1)
  end.
Definition strncpy (dst0 src0 count : Z) : memM Z :=
  '(dst, src, count) ← (if negb (UNALIGNED src0 dst0) && negb (count <? sizeof_long)
                        then strncpy_words (Z.to_nat count) dst0 src0 count else mret (dst0, src0, count));
  '(dst, rest) ← strncpy_bytes (Z.to_nat count) dst src;
  _ ← pad_zeros rest dst;
  mret dst0.

(** ** strncmp *)

(** [None]: equal up to a null byte or the length. *)
Fixpoint strncmp_words (fuel : nat) (a1 a2 n : Z) : memM (option (Z * Z * Z)) :=
  if sizeof_long <=? n then
    x ← load64 a1; y ← load64 a2;
    if x =? y then
      match fuel with
      | O => st_throw OutOfFuel
      | S fuel' =>
          let n := n - sizeof_long in
          if (n =? 0) || negb (DETECTNULL x =? 0) then mret None else strncmp_words fuel' (a1 + 8) (a2 + 8) n
      end
    else mret (Some (a1, a2, n))
  else mret (Some (a1, a2, n)).
(** [while (n-- > 0 && *s1 == *s2)], and the difference after it. *)
Fixpoint strncmp_bytes (n : nat) (s1 s2 : Z) : memM Z :=
  match n with
  | O => x ← load8 s1; y ← load8 s2; mret (x - y)
  | S n' =>
      x ← load8 s1; y ← load8 s2;
      if x =? y then if (n' =? 0)%nat || (x =? 0) then mret 0 else strncmp_bytes n' (s1 + 1) (s2 + 1) else mret (x - y)
  end.
Definition strncmp (s1 s2 n : Z) : memM Z :=
  if n =? 0 then mret 0 else
  r ← (if negb (UNALIGNED s1 s2) then strncmp_words (Z.to_nat n) s1 s2 n else mret (Some (s1, s2, n)));
  match r with
  | None => mret 0
  | Some (s1, s2, n) => strncmp_bytes (Z.to_nat n) s1 s2
  end.

End Libc.
