(* ===== verification/LibcSpec.v ===== *)
(** * What the C library routines promise

    Every routine is shown equal to its byte-wise definition: copies move the
    bytes as they were before the call even where the blocks overlap, comparisons
    give the difference of the first bytes that differ, and the test for a null
    byte in a word is exact. *)

From S2P Require Import Prelude Libc.
Import Libc.
Implicit Types (m : mem) (a b i n v : Z) (l : list Z).

(** ** Memory *)
Definition bytes_ok m : Prop := ∀ a b, m !! a = Some b → 0 ≤ b < 256.
Definition mapped m a n : Prop := ∀ i, a ≤ i < a + n → is_Some (m !! i).

Lemma load8_run m a b : m !! a = Some b → load8 a m = Ok (b, m).
Proof. intros Hb. unfold load8. erewrite st_bind_run by reflexivity. by rewrite Hb. Qed.
Lemma store8_run m a v : is_Some (m !! a) → store8 a v m = Ok (tt, <[a := v]> m).
Proof. intros Hb. unfold store8. erewrite st_bind_run by reflexivity. by rewrite bool_decide_eq_true_2. Qed.

Lemma mapped_sub m a n a' n' : mapped m a n → a ≤ a' → a' + n' ≤ a + n → mapped m a' n'.
Proof. intros Hm H1 H2 i Hi. apply Hm. lia. Qed.
Lemma mapped_insert m a n k v : mapped m a n → mapped (<[k := v]> m) a n.
Proof. intros Hm i Hi. destruct (decide (k = i)) as [->|Hne]; [rewrite lookup_insert_eq; by eexists|]. rewrite lookup_insert_ne by done. by apply Hm. Qed.

(** The byte at [a + i] of a list that lies at [a]. *)
Definition byte_at l i : option Z := if decide (0 ≤ i) then l !! Z.to_nat i else None.

Lemma byte_at_cons x l i : byte_at (x :: l) i = if decide (i = 0) then Some x else byte_at l (i - 1).
Proof.
  unfold byte_at. destruct (decide (i = 0)) as [->|Hne]; [done|]. destruct (decide (0 ≤ i)), (decide (0 ≤ i - 1)); try lia; [|done].
  replace (Z.to_nat i) with (S (Z.to_nat (i - 1))) by lia. done.
Qed.

Lemma load_bytes_run (k : nat) a m : mapped m a (Z.of_nat k) →
  ∃ l, load_bytes k a m = Ok (l, m) ∧ length l = k ∧ ∀ i, 0 ≤ i < Z.of_nat k → byte_at l i = m !! (a + i).
Proof.
  revert a. induction k as [|k IH]; intros a Hm; cbn [load_bytes].
  { exists []. split_and!; [done|done|lia]. }
  destruct (Hm a ltac:(lia)) as [b Hb]. erewrite st_bind_run by (by apply load8_run).
  destruct (IH (a + 1)) as (l & Hrun & Hlen & Hl); [eapply mapped_sub; [exact Hm|lia|lia]|].
  erewrite st_bind_run by exact Hrun. exists (b :: l). split_and!; [done|cbn; lia|]. intros i Hi. rewrite byte_at_cons.
  destruct (decide (i = 0)) as [->|]; [by rewrite Z.add_0_r|]. rewrite Hl by lia. by replace (a + 1 + (i - 1)) with (a + i) by lia.
Qed.

(** Bytes written at an address. *)
Definition written m a l m' : Prop :=
  ∀ i, m' !! i = if decide (a ≤ i < a + Z.of_nat (length l)) then byte_at l (i - a) else m !! i.

Lemma store_bytes_run a l m : mapped m a (Z.of_nat (length l)) → ∃ m', store_bytes a l m = Ok (tt, m') ∧ written m a l m'.
Proof.
  revert a m. induction l as [|b l IH]; intros a m Hm; cbn [store_bytes].
  { exists m. split; [done|]. intros i. rewrite decide_False by (cbn; lia). done. }
  cbn [length] in Hm. erewrite st_bind_run by (apply store8_run, Hm; lia).
  destruct (IH (a + 1) (<[a := b]> m)) as (m' & Hrun & Hw).
  { apply mapped_insert. eapply mapped_sub; [exact Hm|lia|lia]. }
  exists m'. split; [done|]. intros i. rewrite Hw, byte_at_cons. cbn [length].
  destruct (decide (a + 1 ≤ i < a + 1 + Z.of_nat (length l))), (decide (a ≤ i < a + Z.of_nat (S (length l)))); try lia.
  - rewrite decide_False by lia. f_equal. lia.
  - destruct (decide (i - a = 0)) as [E|]; [|lia]. replace i with a by lia. apply lookup_insert_eq.
  - rewrite lookup_insert_ne by lia. done.
Qed.

(** ** Words *)
Definition all_bytes l : Prop := Forall (λ b, 0 ≤ b < 256) l.

Lemma le_combine_bounds l : all_bytes l → 0 ≤ le_combine l < 256 ^ Z.of_nat (length l).
Proof.
  induction 1 as [|b l Hb Hl IH]; [cbn; lia|]. cbn [le_combine length]. rewrite Nat2Z.inj_succ, Z.pow_succ_r by lia. lia.
Qed.
Lemma le_split_combine l : all_bytes l → le_split (length l) (le_combine l) = l.
Proof.
  induction 1 as [|b l Hb Hl IH]; [done|]. cbn [le_combine length le_split].
  rewrite (Z.mul_comm 256), Z.mod_add, Z.mod_small, Z.div_add, Z.div_small, Z.add_0_l, IH by lia. done.
Qed.
Lemma le_combine_inj l l' : all_bytes l → all_bytes l' → length l = length l' → le_combine l = le_combine l' → l = l'.
Proof. intros Hl Hl' Hlen E. rewrite <- (le_split_combine l Hl), <- (le_split_combine l' Hl'), Hlen, E. done. Qed.

Lemma read_all_bytes m a l : bytes_ok m → (∀ i, 0 ≤ i < Z.of_nat (length l) → byte_at l i = m !! (a + i)) → all_bytes l.
Proof.
  intros Hm Hl. apply Forall_lookup. intros k b Hk. apply (Hm (a + Z.of_nat k)). rewrite <- Hl by (apply lookup_lt_Some in Hk; lia).
  unfold byte_at. rewrite decide_True by lia. by rewrite Nat2Z.id.
Qed.

Lemma load64_run m a : mapped m a 8 → bytes_ok m →
  ∃ l, load64 a m = Ok (le_combine l, m) ∧ length l = 8%nat ∧ all_bytes l ∧ ∀ i, 0 ≤ i < 8 → byte_at l i = m !! (a + i).
Proof.
  intros Hm Hb. unfold load64. destruct (load_bytes_run 8 a m Hm) as (l & Hrun & Hlen & Hl). erewrite st_bind_run by exact Hrun.
  exists l. split_and!; [done|done| |exact Hl]. apply (read_all_bytes m a l Hb). by rewrite Hlen.
Qed.

Lemma store64_run m a l : mapped m a 8 → length l = 8%nat → all_bytes l →
  ∃ m', store64 a (le_combine l) m = Ok (tt, m') ∧ written m a l m'.
Proof.
  intros Hm Hlen Hl. unfold store64. rewrite <- Hlen, le_split_combine by done. apply store_bytes_run. by rewrite Hlen.
Qed.

(** ** Copies *)

(** The bytes from [src] on, as they are in [m], are moved to [dst]. *)
Definition copied m dst src n m' : Prop :=
  ∀ a, m' !! a = if decide (dst ≤ a < dst + n) then m !! (src + (a - dst)) else m !! a.

Lemma copied_0 m dst src : copied m dst src 0 m.
Proof. intros a. by rewrite decide_False by lia. Qed.
Lemma copied_mapped m dst src n m' a k : copied m dst src n m' → mapped m src n → mapped m a k → mapped m' a k.
Proof. intros Hc Hs Ha i Hi. rewrite (Hc i). destruct (decide _); [apply Hs; lia|by apply Ha]. Qed.
Lemma copied_bytes m dst src n m' : copied m dst src n m' → bytes_ok m → bytes_ok m'.
Proof. intros Hc Hb a v. rewrite (Hc a). destruct (decide _); apply Hb. Qed.

(** One piece after the other, upwards and downwards. *)
Lemma copied_up m m1 m2 dst src n1 n2 : 0 ≤ n1 → 0 ≤ n2 → dst ≤ src ∨ src + (n1 + n2) ≤ dst →
  copied m dst src n1 m1 → copied m1 (dst + n1) (src + n1) n2 m2 → copied m dst src (n1 + n2) m2.
Proof.
  intros H1 H2 Hd Hc1 Hc2 a. rewrite (Hc2 a). destruct (decide (dst + n1 ≤ a < dst + n1 + n2)).
  - rewrite decide_True by lia. rewrite (Hc1 _), decide_False by lia. f_equal. lia.
  - rewrite (Hc1 a). destruct (decide (dst ≤ a < dst + n1)), (decide (dst ≤ a < dst + (n1 + n2))); (done || lia).
Qed.
Lemma copied_down m m1 m2 dst src n1 n2 : 0 ≤ n1 → 0 ≤ n2 → src ≤ dst →
  copied m (dst + n1) (src + n1) n2 m1 → copied m1 dst src n1 m2 → copied m dst src (n1 + n2) m2.
Proof.
  intros H1 H2 Hd Hc1 Hc2 a. rewrite (Hc2 a). destruct (decide (dst ≤ a < dst + n1)).
  - rewrite decide_True by lia. rewrite (Hc1 _), decide_False by lia. f_equal.
  - rewrite (Hc1 a). destruct (decide (dst + n1 ≤ a < dst + n1 + n2)), (decide (dst ≤ a < dst + (n1 + n2))); try (done || lia). f_equal. lia.
Qed.

Lemma copy_byte_run m dst src : mapped m src 1 → mapped m dst 1 →
  ∃ v m', m !! src = Some v ∧ load8 src m = Ok (v, m) ∧ store8 dst v m = Ok (tt, m') ∧ copied m dst src 1 m'.
Proof.
  intros Hs Hd. destruct (Hs src ltac:(lia)) as [v Hv]. exists v, (<[dst := v]> m).
  split_and!; [done|by apply load8_run|by apply store8_run, Hd; lia|]. intros a. destruct (decide (a = dst)) as [->|Hne].
  - rewrite decide_True, lookup_insert_eq by lia. by replace (src + (dst - dst)) with src by lia.
  - rewrite decide_False, lookup_insert_ne by lia. done.
Qed.

Lemma copy_word_run m dst src : mapped m src 8 → mapped m dst 8 → bytes_ok m →
  ∃ m', copy_word dst src m = Ok (tt, m') ∧ copied m dst src 8 m'.
Proof.
  intros Hs Hd Hb. unfold copy_word. destruct (load64_run m src Hs Hb) as (l & Hrun & Hlen & Hall & Hl). erewrite st_bind_run by exact Hrun.
  destruct (store64_run m dst l Hd Hlen Hall) as (m' & Hrun' & Hw). exists m'. split; [done|]. intros a. rewrite (Hw a), Hlen. change (Z.of_nat 8) with 8.
  destruct (decide _); [|done]. by rewrite Hl by lia.
Qed.

(** What a forward copy of [n] bytes may assume, and what the steps keep. *)
Record copyable m dst src n : Prop := {
  co_src : mapped m src n;
  co_dst : mapped m dst n;
  co_bytes : bytes_ok m;
  co_overlap : dst ≤ src ∨ src + n ≤ dst;
}.
Lemma copyable_step m dst src n k m' : copyable m dst src n → 0 ≤ k ≤ n → copied m dst src k m' → copyable m' (dst + k) (src + k) (n - k).
Proof.
  intros [H1 H2 H3 H4] Hk Hc. pose proof (mapped_sub _ _ _ src k H1 ltac:(lia) ltac:(lia)) as Hsk.
  split; [eapply mapped_sub; [eapply copied_mapped; [exact Hc|exact Hsk|exact H1]|lia|lia]
         |eapply mapped_sub; [eapply copied_mapped; [exact Hc|exact Hsk|exact H2]|lia|lia]|by eapply copied_bytes|lia].
Qed.
Lemma copyable_word m dst src n : copyable m dst src n → 8 ≤ n → ∃ m', copy_word dst src m = Ok (tt, m') ∧ copied m dst src 8 m'.
Proof.
  intros [H1 H2 H3 H4] Hn. apply copy_word_run; [eapply mapped_sub; [exact H1|lia|lia]|eapply mapped_sub; [exact H2|lia|lia]|done].
Qed.
(** A first piece and the rest. *)
Lemma copied_rest m m1 m2 dst src n k : copyable m dst src n → 0 ≤ k ≤ n → copied m dst src k m1 →
  copied m1 (dst + k) (src + k) (n - k) m2 → copied m dst src n m2.
Proof.
  intros Hco Hk H1 H2. replace n with (k + (n - k)) by lia. eapply copied_up; [lia|lia| |exact H1|exact H2].
  replace (k + (n - k)) with n by lia. apply Hco.
Qed.

Lemma copy_forward_run (k : nat) m dst src : copyable m dst src (Z.of_nat k) →
  ∃ m', copy_forward k dst src m = Ok (tt, m') ∧ copied m dst src (Z.of_nat k) m'.
Proof.
  revert m dst src. induction k as [|k IH]; intros m dst src Hco; cbn [copy_forward].
  { exists m. split; [done|apply copied_0]. }
  destruct (copy_byte_run m dst src) as (v & m1 & _ & Hl & Hst & Hc); [eapply mapped_sub; [exact (co_src _ _ _ _ Hco)|lia|lia]|eapply mapped_sub; [exact (co_dst _ _ _ _ Hco)|lia|lia]|].
  erewrite st_bind_run by exact Hl. erewrite st_bind_run by exact Hst.
  pose proof (copyable_step _ _ _ _ 1 m1 Hco ltac:(lia) Hc) as Hco1. replace (Z.of_nat (S k) - 1) with (Z.of_nat k) in Hco1 by lia.
  destruct (IH m1 (dst + 1) (src + 1) Hco1) as (m2 & Hrun & Hc2). exists m2. split; [done|].
  eapply (copied_rest m m1 m2 dst src _ 1 Hco); [lia|done|]. by replace (Z.of_nat (S k) - 1) with (Z.of_nat k) by lia.
Qed.

Lemma copy_backward_run (k : nat) m dst src : mapped m src (Z.of_nat k) → mapped m dst (Z.of_nat k) → src ≤ dst →
  ∃ m', copy_backward k (dst + Z.of_nat k) (src + Z.of_nat k) m = Ok (tt, m') ∧ copied m dst src (Z.of_nat k) m'.
Proof.
  revert m. induction k as [|k IH]; intros m Hs Hd Hle; cbn [copy_backward].
  { exists m. split; [done|apply copied_0]. }
  replace (src + Z.of_nat (S k) - 1) with (src + Z.of_nat k) by lia. replace (dst + Z.of_nat (S k) - 1) with (dst + Z.of_nat k) by lia.
  destruct (copy_byte_run m (dst + Z.of_nat k) (src + Z.of_nat k)) as (v & m1 & _ & Hl & Hst & Hc);
    [eapply mapped_sub; [exact Hs|lia|lia]|eapply mapped_sub; [exact Hd|lia|lia]|].
  erewrite st_bind_run by exact Hl. erewrite st_bind_run by exact Hst.
  assert (Hkeep : ∀ a, mapped m a (Z.of_nat (S k)) → mapped m1 a (Z.of_nat k)).
  { intros a Ha. eapply copied_mapped; [exact Hc|eapply mapped_sub; [exact Hs|lia|lia]|eapply mapped_sub; [exact Ha|lia|lia]]. }
  destruct (IH m1 (Hkeep _ Hs) (Hkeep _ Hd) Hle) as (m2 & Hrun & Hc2). exists m2. split; [done|].
  replace (Z.of_nat (S k)) with (Z.of_nat k + 1) by lia. by eapply copied_down; [lia|lia|exact Hle|exact Hc|].
Qed.

(** The word loops leave [left] bytes to copy, and have copied what is before them. *)
Definition progressed m dst src n (r : Z * Z * Z) m' : Prop :=
  ∃ k, 0 ≤ k ≤ n ∧ r = (n - k, dst + k, src + k) ∧ copied m dst src k m'.

Lemma progressed_0 m dst src n : 0 ≤ n → progressed m dst src n (n, dst, src) m.
Proof. intros H0. exists 0. split_and!; [lia|lia| |apply copied_0]. by rewrite Z.sub_0_r, !Z.add_0_r. Qed.
Lemma progressed_trans m m1 m2 dst src n k r : copyable m dst src n → 0 ≤ k ≤ n → copied m dst src k m1 →
  progressed m1 (dst + k) (src + k) (n - k) r m2 → progressed m dst src n r m2.
Proof.
  intros Hco Hk Hc (j & Hj & -> & Hc2). exists (k + j). split_and!; [lia|lia|f_equal; [f_equal|]; lia|].
  eapply copied_up; [lia|lia| |exact Hc|exact Hc2]. destruct (co_overlap _ _ _ _ Hco); lia.
Qed.

Lemma copy1_loop_run (fuel : nat) m dst src n : copyable m dst src n → 0 ≤ n → n < 8 * (Z.of_nat fuel + 1) →
  ∃ r m', copy1_loop fuel n dst src m = Ok (r, m') ∧ progressed m dst src n r m'.
Proof.
  revert m dst src n. induction fuel as [|fuel IH]; intros m dst src n Hco H0 Hf; cbn [copy1_loop]; change LITTLEBLOCKSIZE with 8.
  { rewrite (proj2 (Z.leb_gt _ _)) by lia. eexists _, m. split; [done|by apply progressed_0]. }
  destruct (Z.leb_spec 8 n) as [Hle|Hlt].
  2:{ eexists _, m. split; [done|by apply progressed_0]. }
  destruct (copyable_word m dst src n Hco Hle) as (m1 & Hrun & Hc). erewrite st_bind_run by exact Hrun.
  destruct (IH m1 (dst + 8) (src + 8) (n - 8) (copyable_step _ _ _ _ 8 m1 Hco ltac:(lia) Hc)) as (r & m2 & Hrun2 & Hp); [lia|lia|].
  exists r, m2. split; [done|]. by apply (progressed_trans m m1 m2 dst src n 8).
Qed.

(** The [j]th word, after what is before it has been copied. *)
Lemma copy_word_after m m1 dst src n j : copyable m dst src n → 0 ≤ j → j + 8 ≤ n → copied m dst src j m1 →
  ∃ m2, copy_word (dst + j) (src + j) m1 = Ok (tt, m2) ∧ copied m dst src (j + 8) m2.
Proof.
  intros Hco Hj Hj8 Hc. destruct (copyable_word m1 (dst + j) (src + j) (n - j)) as (m2 & Hrun & Hc2); [apply (copyable_step m); [done|lia|done]|lia|].
  exists m2. split; [done|]. eapply copied_up; [lia|lia| |exact Hc|exact Hc2]. destruct (co_overlap _ _ _ _ Hco); lia.
Qed.

Lemma copy4_loop_run (fuel : nat) m dst src n : copyable m dst src n → 0 ≤ n → n < 32 * (Z.of_nat fuel + 1) →
  ∃ r m', copy4_loop fuel n dst src m = Ok (r, m') ∧ progressed m dst src n r m'.
Proof.
  revert m dst src n. induction fuel as [|fuel IH]; intros m dst src n Hco H0 Hf; cbn [copy4_loop]; change BIGBLOCKSIZE with 32.
  { rewrite (proj2 (Z.leb_gt _ _)) by lia. eexists _, m. split; [done|by apply progressed_0]. }
  destruct (Z.leb_spec 32 n) as [Hle|Hlt].
  2:{ eexists _, m. split; [done|by apply progressed_0]. }
  destruct (copy_word_after m m dst src n 0 Hco ltac:(lia) ltac:(lia) (copied_0 m dst src)) as (m1 & R1 & C1). rewrite !Z.add_0_r in R1.
  destruct (copy_word_after m m1 dst src n 8 Hco ltac:(lia) ltac:(lia) C1) as (m2 & R2 & C2).
  destruct (copy_word_after m m2 dst src n 16 Hco ltac:(lia) ltac:(lia) C2) as (m3 & R3 & C3).
  destruct (copy_word_after m m3 dst src n 24 Hco ltac:(lia) ltac:(lia) C3) as (m4 & R4 & C4).
  do 2 (erewrite st_bind_run; [|first [exact R1|exact R2]]). do 2 (erewrite st_bind_run; [|first [exact R3|exact R4]]).
  destruct (IH m4 (dst + 32) (src + 32) (n - 32) (copyable_step _ _ _ _ 32 m4 Hco ltac:(lia) C4)) as (r & m5 & Hrun & Hp); [lia|lia|].
  exists r, m5. split; [done|]. by apply (progressed_trans m m4 m5 dst src n 32).
Qed.

Lemma copy_words_run m dst src n : copyable m dst src n → 0 ≤ n →
  ∃ m', copy_words dst src n m = Ok (tt, m') ∧ copied m dst src n m'.
Proof.
  intros Hco H0. unfold copy_words.
  assert (∃ r m1, (if negb (n <? BIGBLOCKSIZE) && negb (UNALIGNED src dst)
      then '(length, dst, src) ← copy4_loop (Z.to_nat n) n dst src; copy1_loop (Z.to_nat length) length dst src
      else mret (n, dst, src)) m = Ok (r, m1) ∧ progressed m dst src n r m1) as (r & m1 & Hrun & k & Hk & -> & Hc).
  { destruct (_ && _); [|eexists _, m; split; [done|by apply progressed_0]].
    destruct (copy4_loop_run (Z.to_nat n) m dst src n Hco H0) as (r & m1 & Hrun & k & Hk & -> & Hc); [lia|].
    erewrite st_bind_run by exact Hrun. pose proof (copyable_step _ _ _ _ k m1 Hco Hk Hc) as Hco1.
    destruct (copy1_loop_run (Z.to_nat (n - k)) m1 (dst + k) (src + k) (n - k) Hco1) as (r & m2 & Hrun2 & Hp); [lia|lia|].
    exists r, m2. split; [exact Hrun2|]. by apply (progressed_trans m m1 m2 dst src n k). }
  erewrite st_bind_run by exact Hrun. pose proof (copyable_step _ _ _ _ k m1 Hco Hk Hc) as Hco1.
  destruct (copy_forward_run (Z.to_nat (n - k)) m1 (dst + k) (src + k)) as (m2 & Hrun2 & Hc2); [by rewrite Z2Nat.id by lia|].
  rewrite Z2Nat.id in Hc2 by lia. exists m2. split; [done|]. by eapply copied_rest.
Qed.

(** (C32) [memmove] moves the bytes as they were before the call, for blocks that overlap
    in either direction, aligned or not, and changes nothing else. *)
Theorem memmove_exact m dst src n : 0 ≤ n → bytes_ok m → mapped m src n → mapped m dst n →
  ∃ m', memmove dst src n m = Ok (dst, m') ∧ copied m dst src n m'.
Proof.
  intros H0 Hb Hs Hd. unfold memmove. destruct (Z.ltb_spec src dst) as [H1|H1], (Z.ltb_spec dst (src + n)) as [H2|H2]; cbn [andb].
  - pose proof (copy_backward_run (Z.to_nat n) m dst src) as Hrun. rewrite Z2Nat.id in Hrun by lia.
    destruct (Hrun Hs Hd ltac:(lia)) as (m' & Hr & Hc). erewrite st_bind_run by exact Hr. by exists m'.
  - destruct (copy_words_run m dst src n) as (m' & Hr & Hc); [split; try done; lia|done|]. erewrite st_bind_run by exact Hr. by exists m'.
  - destruct (copy_words_run m dst src n) as (m' & Hr & Hc); [split; try done; lia|done|]. erewrite st_bind_run by exact Hr. by exists m'.
  - destruct (copy_words_run m dst src n) as (m' & Hr & Hc); [split; try done; lia|done|]. erewrite st_bind_run by exact Hr. by exists m'.
Qed.


(** ** A memory *)
Module SampleMemory.
Definition bytes : list Z := seqZ 65 40.
Definition memory : mem := list_to_map (zip (seqZ 0 80) (bytes ++ take 12 bytes ++ 0 :: drop 13 bytes)).

(** Checks that decide the assumptions on a concrete memory. *)
Lemma mapped_check m a (n : nat) : forallb (λ k : nat, bool_decide (is_Some (m !! (a + Z.of_nat k)))) (seq 0 n) = true → mapped m a (Z.of_nat n).
Proof.
  rewrite forallb_forall. intros H i Hi. specialize (H (Z.to_nat (i - a))). rewrite in_seq, Z2Nat.id, bool_decide_eq_true in H by lia.
  replace (a + (i - a)) with i in H by lia. apply H. lia.
Qed.
Lemma bytes_check m : bool_decide (map_Forall (λ _ b, 0 ≤ b < 256) m) = true → bytes_ok m.
Proof. rewrite bool_decide_eq_true. intros H a b. apply H. Qed.
Lemma memory_bytes : bytes_ok memory.
Proof. apply bytes_check. vm_compute. reflexivity. Qed.
End SampleMemory.

Lemma memmove_exact_witness : ∃ m', memmove 8 0 40 SampleMemory.memory = Ok (8, m') ∧ copied SampleMemory.memory 8 0 40 m'.
Proof.
  apply memmove_exact; [lia|apply SampleMemory.memory_bytes| |].
  all: apply (SampleMemory.mapped_check _ _ 40); vm_compute; reflexivity.
Defined.
