(* ===== verification/LibcStrings.v ===== *)
(** * What the comparing, filling and string routines promise

    The bytes at an address are a list; each routine is compared with a function on
    such lists: the difference of the first bytes that differ, the copy padded with
    null bytes after the first one, the fill.  The routines that work on words need
    that [DETECTNULL] finds a null byte in a word exactly when there is one. *)

From S2P Require Import Prelude Libc LibcSpec.
From Stdlib Require Import Btauto.
Import Libc.
Implicit Types (m : mem) (a b c i n v : Z) (l w p : list Z).

(** ** The bytes at an address *)
Definition reads m a l : Prop := ∀ i, 0 ≤ i < Z.of_nat (length l) → byte_at l i = m !! (a + i).

Lemma reads_cons m a b l : reads m a (b :: l) ↔ m !! a = Some b ∧ reads m (a + 1) l.
Proof.
  split.
  - intros H. split; [specialize (H 0); rewrite Z.add_0_r in H; rewrite <- H by (cbn; lia); done|].
    intros i Hi. specialize (H (i + 1) ltac:(cbn; lia)). rewrite byte_at_cons, decide_False in H by lia.
    by replace (i + 1 - 1) with i in H by lia; replace (a + (i + 1)) with (a + 1 + i) in H by lia.
  - intros [H0 H] i Hi. rewrite byte_at_cons. destruct (decide (i = 0)) as [->|]; [by rewrite Z.add_0_r|].
    rewrite H by (cbn in Hi; lia). f_equal. lia.
Qed.
Lemma reads_app m a l l' : reads m a (l ++ l') ↔ reads m a l ∧ reads m (a + Z.of_nat (length l)) l'.
Proof.
  revert a. induction l as [|b l IH]; intros a; cbn [app length].
  - rewrite Z.add_0_r. split; [intros H; split; [|exact H]; intros i Hi; cbn in Hi; lia|by intros [_ H]].
  - rewrite !reads_cons, IH. replace (a + Z.of_nat (S (length l))) with (a + 1 + Z.of_nat (length l)) by lia. tauto.
Qed.
Lemma reads_mapped m a l : reads m a l → mapped m a (Z.of_nat (length l)).
Proof.
  intros H i Hi. replace i with (a + (i - a)) by lia. rewrite <- H by lia. unfold byte_at. rewrite decide_True by lia.
  apply lookup_lt_is_Some. lia.
Qed.
Lemma reads_all_bytes m a l : bytes_ok m → reads m a l → all_bytes l.
Proof. apply read_all_bytes. Qed.

Lemma load_bytes_reads m a l : reads m a l → load_bytes (length l) a m = Ok (l, m).
Proof.
  revert a. induction l as [|b l IH]; intros a H; cbn [load_bytes length]; [done|]. apply reads_cons in H as [H0 H].
  erewrite st_bind_run by (by apply load8_run). erewrite st_bind_run by (by apply IH). done.
Qed.
Lemma load64_reads m a w : reads m a w → length w = 8%nat → load64 a m = Ok (le_combine w, m).
Proof. intros H Hw. unfold load64. rewrite <- Hw. erewrite st_bind_run by (by apply load_bytes_reads). done. Qed.

(** A list that is long enough starts with a word. *)
Lemma word_split l : 8 ≤ Z.of_nat (length l) → ∃ w l', l = w ++ l' ∧ length w = 8%nat.
Proof. intros H. exists (take 8 l), (drop 8 l). rewrite take_drop. split; [done|]. rewrite length_take. lia. Qed.

(** ** The test for a null byte *)
Lemma land_byte x y : 0 ≤ x < 256 → 0 ≤ Z.land x y < 256.
Proof.
  intros Hx. replace (Z.land x y) with (Z.land x y mod 2 ^ 8); [by apply Z.mod_pos_bound|]. rewrite <- Z.land_ones by done.
  rewrite <- Z.land_assoc, (Z.land_comm y), Z.land_assoc, Z.land_ones by done. by rewrite Z.mod_small.
Qed.
Lemma land_bytes x q y s : 0 ≤ x < 256 → 0 ≤ y < 256 → Z.land (x + 256 * q) (y + 256 * s) = Z.land x y + 256 * Z.land q s.
Proof.
  intros Hp Hr. rewrite (Z.div_mod (Z.land (x + 256 * q) (y + 256 * s)) (2 ^ 8)) by done.
  rewrite <- Z.shiftr_div_pow2, Z.shiftr_land, !Z.shiftr_div_pow2 by done.
  replace (Z.land (x + 256 * q) (y + 256 * s) mod 2 ^ 8) with (Z.land x y).
  - change (2 ^ 8) with 256. rewrite !(Z.mul_comm 256), !Z.div_add, !Z.div_small by lia. rewrite !Z.add_0_l. lia.
  - rewrite <- Z.land_ones by done.
    transitivity (Z.land (Z.land (x + 256 * q) (Z.ones 8)) (Z.land (y + 256 * s) (Z.ones 8))).
    + rewrite !Z.land_ones by done. change (2 ^ 8) with 256. by rewrite !(Z.mul_comm 256), !Z.mod_add, !Z.mod_small by lia.
    + apply Z.bits_inj'. intros k _. rewrite !Z.land_spec. btauto.
Qed.

Fixpoint repeat_byte (n : nat) b : Z := match n with O => 0 | S n' => b + 256 * repeat_byte n' b end.

Lemma high_bit_clear b : 1 ≤ b < 256 → Z.land (Z.land (b - 1) (255 - b)) 128 = 0.
Proof.
  intros Hb. assert (H : forallb (λ k, Z.land (Z.land (Z.of_nat k + 1 - 1) (255 - (Z.of_nat k + 1))) 128 =? 0) (seq 0 255) = true) by reflexivity.
  rewrite forallb_forall in H. specialize (H (Z.to_nat (b - 1))). rewrite Z2Nat.id in H by lia. replace (b - 1 + 1) with b in H by lia.
  apply Z.eqb_eq, H, in_seq. lia.
Qed.

Lemma detect_bytes l : all_bytes l →
  Z.land (Z.land (le_combine l - repeat_byte (length l) 1) (Z.lnot (le_combine l))) (repeat_byte (length l) 128) = 0 ↔ 0 ∉ l.
Proof.
  induction 1 as [|b l Hb Hl IH]; [cbn; split; [intros _; apply not_elem_of_nil|done]|]. cbn [le_combine length repeat_byte].
  replace (Z.lnot (b + 256 * le_combine l)) with ((255 - b) + 256 * Z.lnot (le_combine l)) by (unfold Z.lnot; lia).
  rewrite not_elem_of_cons. destruct (decide (b = 0)) as [->|Hne].
  - replace (0 + 256 * le_combine l - (1 + 256 * repeat_byte (length l) 1)) with (255 + 256 * (le_combine l - repeat_byte (length l) 1 - 1)) by lia.
    rewrite land_bytes by lia. rewrite land_bytes by first [lia|apply land_byte; lia]. change (Z.land (Z.land 255 (255 - 0)) 128) with 128. split; [intros E; exfalso; lia|tauto].
  - replace (b + 256 * le_combine l - (1 + 256 * repeat_byte (length l) 1)) with ((b - 1) + 256 * (le_combine l - repeat_byte (length l) 1)) by lia.
    rewrite land_bytes by lia. rewrite land_bytes by first [lia|apply land_byte; lia]. rewrite high_bit_clear by lia. rewrite <- IH.
    split; [intros E; split; [done|lia]|intros [_ E]; lia].
Qed.

(** [DETECTNULL] is not zero exactly when the word has a null byte. *)
Lemma DETECTNULL_exact w : all_bytes w → length w = 8%nat → DETECTNULL (le_combine w) = 0 ↔ 0 ∉ w.
Proof.
  intros Hw Hlen. rewrite <- (detect_bytes w Hw), Hlen. unfold DETECTNULL, wrap. rewrite <- !Z.land_ones by done.
  change 0x0101010101010101 with (repeat_byte 8 1). change 0x8080808080808080 with (Z.land (Z.ones 64) (repeat_byte 8 128)).
  rewrite <- (Z.land_diag (Z.ones 64)) at 3.
  replace (Z.land (Z.land _ _) _) with (Z.land (Z.land (le_combine w - repeat_byte 8 1) (Z.lnot (le_combine w))) (Z.land (Z.ones 64) (repeat_byte 8 128))); [done|].
  apply Z.bits_inj'. intros k _. rewrite !Z.land_spec. btauto.
Qed.

(** ** memcmp *)

(** The difference of the first bytes that differ. *)
Fixpoint mem_diff (l1 l2 : list Z) : Z :=
  match l1, l2 with
  | x :: l1', y :: l2' => if x =? y then mem_diff l1' l2' else x - y
  | _, _ => 0
  end.
Lemma mem_diff_prefix p l1 l2 : mem_diff (p ++ l1) (p ++ l2) = mem_diff l1 l2.
Proof. induction p as [|x p IH]; cbn; [done|by rewrite Z.eqb_refl]. Qed.

Lemma cmp_bytes_run m s1 s2 l1 l2 : reads m s1 l1 → reads m s2 l2 → length l1 = length l2 →
  cmp_bytes (length l1) s1 s2 m = Ok (mem_diff l1 l2, m).
Proof.
  revert s1 s2 l2. induction l1 as [|x l1 IH]; intros s1 s2 [|y l2] H1 H2 Hlen; try discriminate; cbn [cmp_bytes length mem_diff]; [done|].
  apply reads_cons in H1 as [Hx H1]. apply reads_cons in H2 as [Hy H2]. do 2 (erewrite st_bind_run by (by apply load8_run)).
  destruct (x =? y); cbn [negb]; [|done]. apply IH; [done|done|by injection Hlen].
Qed.

(** The word loops stop after a common prefix. *)
Definition common_prefix s1 s2 l1 l2 (r : Z * Z * Z) : Prop :=
  ∃ p l1' l2', l1 = p ++ l1' ∧ l2 = p ++ l2' ∧
    r = (s1 + Z.of_nat (length p), s2 + Z.of_nat (length p), Z.of_nat (length l1')).
Lemma common_prefix_nil s1 s2 l1 l2 : common_prefix s1 s2 l1 l2 (s1, s2, Z.of_nat (length l1)).
Proof. exists [], l1, l2. cbn. by rewrite !Z.add_0_r. Qed.
Lemma common_prefix_word s1 s2 w l1 l2 r : length w = 8%nat →
  common_prefix (s1 + 8) (s2 + 8) l1 l2 r → common_prefix s1 s2 (w ++ l1) (w ++ l2) r.
Proof.
  intros Hw (p & l1' & l2' & -> & -> & ->). exists (w ++ p), l1', l2'. rewrite !app_assoc, length_app, Hw. split_and!; [done|done|].
  by rewrite Nat2Z.inj_add, !Z.add_assoc.
Qed.

Lemma cmp_words_run (fuel : nat) m a1 a2 l1 l2 : bytes_ok m → reads m a1 l1 → reads m a2 l2 → length l1 = length l2 →
  Z.of_nat (length l1) < 8 * (Z.of_nat fuel + 1) →
  ∃ r, cmp_words fuel a1 a2 (Z.of_nat (length l1)) m = Ok (r, m) ∧ common_prefix a1 a2 l1 l2 r.
Proof.
  intros Hb. revert a1 a2 l1 l2. induction fuel as [|fuel IH]; intros a1 a2 l1 l2 H1 H2 Hlen Hf; cbn [cmp_words]; change sizeof_long with 8.
  { rewrite (proj2 (Z.leb_gt _ _)) by lia. eexists. split; [done|apply common_prefix_nil]. }
  destruct (Z.leb_spec 8 (Z.of_nat (length l1))) as [Hle|Hlt]; [|eexists; split; [done|apply common_prefix_nil]].
  destruct (word_split l1 Hle) as (w1 & l1' & -> & Hw1). destruct (word_split l2) as (w2 & l2' & -> & Hw2); [lia|].
  pose proof (reads_all_bytes _ _ _ Hb H1) as A1. pose proof (reads_all_bytes _ _ _ Hb H2) as A2.
  apply Forall_app in A1 as [A1 _], A2 as [A2 _]. apply reads_app in H1 as [R1 H1], H2 as [R2 H2]. rewrite Hw1 in H1. rewrite Hw2 in H2.
  do 2 (erewrite st_bind_run by (by apply load64_reads)). destruct (Z.eqb_spec (le_combine w1) (le_combine w2)) as [E|E]; cbn [negb].
  - apply le_combine_inj in E as ->; [|done|done|congruence]. rewrite !length_app in Hlen. rewrite length_app in Hf |- *.
    destruct (IH (a1 + 8) (a2 + 8) l1' l2' H1 H2) as (r & Hrun & Hp); [lia|lia|].
    exists r. split; [|by apply common_prefix_word]. rewrite <- Hrun. do 2 f_equal. lia.
  - eexists. split; [done|]. apply common_prefix_nil.
Qed.

(** [memcmp] gives the difference of the first bytes that differ. *)
Theorem memcmp_exact m s1 s2 l1 l2 : bytes_ok m → reads m s1 l1 → reads m s2 l2 → length l1 = length l2 →
  memcmp s1 s2 (Z.of_nat (length l1)) m = Ok (mem_diff l1 l2, m).
Proof.
  intros Hb H1 H2 Hlen. unfold memcmp.
  assert (∃ r, (if negb (Z.of_nat (length l1) <? sizeof_long) && negb (UNALIGNED s1 s2)
      then cmp_words (Z.to_nat (Z.of_nat (length l1))) s1 s2 (Z.of_nat (length l1)) else mret (s1, s2, Z.of_nat (length l1))) m = Ok (r, m) ∧
      common_prefix s1 s2 l1 l2 r) as (r & Hrun & p & l1' & l2' & -> & -> & ->).
  { destruct (_ && _); [|eexists; split; [done|apply common_prefix_nil]]. apply cmp_words_run; try done. lia. }
  erewrite st_bind_run by exact Hrun. cbv beta iota. rewrite Nat2Z.id, mem_diff_prefix. rewrite !length_app in Hlen.
  apply cmp_bytes_run; [by apply reads_app in H1 as [_ H1]|by apply reads_app in H2 as [_ H2]|lia].
Qed.

(** ** strncmp *)

(** The same up to the first null byte. *)
Fixpoint str_diff (l1 l2 : list Z) : Z :=
  match l1, l2 with
  | x :: l1', y :: l2' => if x =? y then if x =? 0 then 0 else str_diff l1' l2' else x - y
  | _, _ => 0
  end.
Lemma str_diff_prefix p l1 l2 : 0 ∉ p → str_diff (p ++ l1) (p ++ l2) = str_diff l1 l2.
Proof.
  induction p as [|x p IH]; cbn; [done|]. intros [Hx Hp]%not_elem_of_cons. rewrite Z.eqb_refl, (proj2 (Z.eqb_neq x 0)) by done. auto.
Qed.
Lemma str_diff_null p l1 l2 : 0 ∈ p → str_diff (p ++ l1) (p ++ l2) = 0.
Proof.
  induction p as [|x p IH]; cbn; [by intros ?%not_elem_of_nil|]. intros H. rewrite Z.eqb_refl. destruct (Z.eqb_spec x 0) as [|Hx]; [done|].
  apply IH. apply elem_of_cons in H as [E|]; [congruence|done].
Qed.
Lemma str_diff_same l : str_diff l l = 0.
Proof. induction l as [|x l IH]; cbn; [done|]. rewrite Z.eqb_refl. by destruct (x =? 0). Qed.

Lemma strncmp_bytes_run m s1 s2 l1 l2 : reads m s1 l1 → reads m s2 l2 → length l1 = length l2 → l1 ≠ [] →
  strncmp_bytes (length l1) s1 s2 m = Ok (str_diff l1 l2, m).
Proof.
  revert s1 s2 l2. induction l1 as [|x l1 IH]; intros s1 s2 [|y l2] H1 H2 Hlen Hne; try done; cbn [strncmp_bytes length str_diff].
  apply reads_cons in H1 as [Hx H1]. apply reads_cons in H2 as [Hy H2]. do 2 (erewrite st_bind_run by (by apply load8_run)).
  destruct (x =? y); [|done]. destruct l1 as [|x' l1]; [destruct l2; [|done]; cbn; by destruct (x =? 0)|].
  cbn [length Nat.eqb orb]. destruct (x =? 0); [done|]. apply IH; [done|done|by injection Hlen|done].
Qed.

(** [None]: the rest is equal, or equal up to a null byte; otherwise a prefix without
    a null byte is common, and something is left. *)
Definition strncmp_stop s1 s2 l1 l2 (r : option (Z * Z * Z)) : Prop :=
  match r with
  | None => str_diff l1 l2 = 0
  | Some q => ∃ p l1' l2', 0 ∉ p ∧ l1' ≠ [] ∧ l1 = p ++ l1' ∧ l2 = p ++ l2' ∧
      q = (s1 + Z.of_nat (length p), s2 + Z.of_nat (length p), Z.of_nat (length l1'))
  end.
Lemma strncmp_stop_nil s1 s2 l1 l2 : l1 ≠ [] → strncmp_stop s1 s2 l1 l2 (Some (s1, s2, Z.of_nat (length l1))).
Proof. intros Hne. exists [], l1, l2. cbn. rewrite !Z.add_0_r. split_and!; [apply not_elem_of_nil|done..]. Qed.
Lemma strncmp_stop_word s1 s2 w l1 l2 r : length w = 8%nat → 0 ∉ w →
  strncmp_stop (s1 + 8) (s2 + 8) l1 l2 r → strncmp_stop s1 s2 (w ++ l1) (w ++ l2) r.
Proof.
  intros Hw H0. destruct r as [q|]; cbn [strncmp_stop]; [|by rewrite str_diff_prefix].
  intros (p & l1' & l2' & Hp & Hne & -> & -> & ->). exists (w ++ p), l1', l2'. rewrite !app_assoc, length_app, Hw.
  split_and!; [by rewrite elem_of_app; intros [|]|done|done|done|]. by rewrite Nat2Z.inj_add, !Z.add_assoc.
Qed.

Lemma strncmp_words_run (fuel : nat) m a1 a2 l1 l2 : bytes_ok m → reads m a1 l1 → reads m a2 l2 → length l1 = length l2 → l1 ≠ [] →
  Z.of_nat (length l1) < 8 * (Z.of_nat fuel + 1) →
  ∃ r, strncmp_words fuel a1 a2 (Z.of_nat (length l1)) m = Ok (r, m) ∧ strncmp_stop a1 a2 l1 l2 r.
Proof.
  intros Hb. revert a1 a2 l1 l2. induction fuel as [|fuel IH]; intros a1 a2 l1 l2 H1 H2 Hlen Hne Hf; cbn [strncmp_words]; change sizeof_long with 8.
  { rewrite (proj2 (Z.leb_gt _ _)) by lia. eexists. split; [done|by apply strncmp_stop_nil]. }
  destruct (Z.leb_spec 8 (Z.of_nat (length l1))) as [Hle|Hlt]; [|eexists; split; [done|by apply strncmp_stop_nil]].
  destruct (word_split l1 Hle) as (w1 & l1' & -> & Hw1). destruct (word_split l2) as (w2 & l2' & -> & Hw2); [lia|].
  pose proof (reads_all_bytes _ _ _ Hb H1) as A1. pose proof (reads_all_bytes _ _ _ Hb H2) as A2.
  apply Forall_app in A1 as [A1 _], A2 as [A2 _]. apply reads_app in H1 as [R1 H1], H2 as [R2 H2]. rewrite Hw1 in H1. rewrite Hw2 in H2.
  do 2 (erewrite st_bind_run by (by apply load64_reads)). destruct (Z.eqb_spec (le_combine w1) (le_combine w2)) as [E|E].
  2:{ eexists. split; [done|by apply strncmp_stop_nil]. }
  apply le_combine_inj in E as <-; [|done|done|congruence]. rewrite !length_app in Hlen. rewrite length_app in Hf |- *.
  replace (Z.of_nat (length w1 + length l1') - 8) with (Z.of_nat (length l1')) by lia. pose proof (DETECTNULL_exact w1 A1 Hw1) as Hnull.
  destruct (Z.eqb_spec (Z.of_nat (length l1')) 0) as [Hz|Hz]; cbn [orb].
  { exists None. split; [done|]. destruct l1'; [|cbn in Hz; lia]. destruct l2'; [|cbn in Hlen; lia]. apply str_diff_same. }
  destruct (Z.eqb_spec (DETECTNULL (le_combine w1)) 0) as [Hd|Hd]; cbn [negb].
  - destruct (IH (a1 + 8) (a2 + 8) l1' l2' H1 H2) as (r & Hrun & Hp); [lia|by intros ->|lia|].
    exists r. split; [done|]. apply strncmp_stop_word; [done|by apply Hnull|done].
  - exists None. split; [done|]. apply str_diff_null. destruct (decide (0 ∈ w1)) as [|Hno]; [done|]. destruct Hd. by apply Hnull.
Qed.

(** (C31) [strncmp] gives the difference of the first bytes that differ before a null byte
    and within the length, and reads nothing past the length. *)
Theorem strncmp_exact m s1 s2 l1 l2 : bytes_ok m → reads m s1 l1 → reads m s2 l2 → length l1 = length l2 →
  strncmp s1 s2 (Z.of_nat (length l1)) m = Ok (str_diff l1 l2, m).
Proof.
  intros Hb H1 H2 Hlen. unfold strncmp. destruct (Z.eqb_spec (Z.of_nat (length l1)) 0) as [Hz|Hz].
  { destruct l1; [|cbn in Hz; lia]. done. }
  assert (Hne : l1 ≠ []) by (by intros ->).
  assert (∃ r, (if negb (UNALIGNED s1 s2) then strncmp_words (Z.to_nat (Z.of_nat (length l1))) s1 s2 (Z.of_nat (length l1))
      else mret (Some (s1, s2, Z.of_nat (length l1)))) m = Ok (r, m) ∧ strncmp_stop s1 s2 l1 l2 r) as (r & Hrun & Hr).
  { destruct (UNALIGNED s1 s2); cbn [negb]; [eexists; split; [done|by apply strncmp_stop_nil]|]. apply strncmp_words_run; try done. lia. }
  erewrite st_bind_run by exact Hrun. destruct r as [q|]; [|by rewrite Hr]. destruct Hr as (p & l1' & l2' & Hp & Hne' & -> & -> & ->).
  cbv beta iota. rewrite Nat2Z.id, str_diff_prefix by done. rewrite !length_app in Hlen.
  apply strncmp_bytes_run; [by apply reads_app in H1 as [_ H1]|by apply reads_app in H2 as [_ H2]|lia|done].
Qed.

(** ** Writing lists *)
Lemma written_nil m a : written m a [] m.
Proof. intros i. by rewrite decide_False by (cbn; lia). Qed.
Lemma byte_at_app l l' i :
  byte_at (l ++ l') i = if decide (i < Z.of_nat (length l)) then byte_at l i else byte_at l' (i - Z.of_nat (length l)).
Proof.
  revert i. induction l as [|x l IH]; intros i; cbn [app length].
  - rewrite Z.sub_0_r. destruct (decide (i < Z.of_nat 0)) as [Hi|]; [|done]. unfold byte_at. by rewrite !decide_False by lia.
  - rewrite !byte_at_cons, IH. destruct (decide (i = 0)) as [->|]; [by rewrite decide_True by lia|].
    destruct (decide (i - 1 < Z.of_nat (length l))), (decide (i < Z.of_nat (S (length l)))); try lia; [done|]. f_equal. lia.
Qed.
Lemma written_app m m1 m2 a l l' : written m a l m1 → written m1 (a + Z.of_nat (length l)) l' m2 → written m a (l ++ l') m2.
Proof.
  intros H1 H2 i. rewrite (H2 i), (H1 i), length_app, byte_at_app.
  destruct (decide (a + Z.of_nat (length l) ≤ i < _)), (decide (a ≤ i < a + Z.of_nat (length l))), (decide (a ≤ i < a + Z.of_nat _)),
    (decide (i - a < Z.of_nat (length l))); try lia; try done. f_equal. lia.
Qed.
Lemma byte_at_is_Some l i : 0 ≤ i < Z.of_nat (length l) → is_Some (byte_at l i).
Proof. intros Hi. unfold byte_at. rewrite decide_True by lia. apply lookup_lt_is_Some. lia. Qed.
Lemma written_mapped m a l m' b n : written m a l m' → mapped m b n → mapped m' b n.
Proof. intros Hw Hm i Hi. rewrite (Hw i). destruct (decide _); [apply byte_at_is_Some; lia|by apply Hm]. Qed.
Lemma written_reads m a l m' b l' : written m a l m' → reads m b l' →
  b + Z.of_nat (length l') ≤ a ∨ a + Z.of_nat (length l) ≤ b → reads m' b l'.
Proof. intros Hw Hr Hd i Hi. rewrite (Hw _), decide_False by lia. by apply Hr. Qed.
Lemma store8_written m a v : is_Some (m !! a) → ∃ m', store8 a v m = Ok (tt, m') ∧ written m a [v] m'.
Proof.
  intros Hm. exists (<[a := v]> m). split; [by apply store8_run|]. intros i. cbn [length]. destruct (decide (a ≤ i < a + Z.of_nat 1)) as [Hi|Hi].
  - replace i with a by lia. rewrite Z.sub_diag, lookup_insert_eq. done.
  - by rewrite lookup_insert_ne by lia.
Qed.
Lemma store64_written m a w : mapped m a 8 → length w = 8%nat → all_bytes w → ∃ m', store64 a (le_combine w) m = Ok (tt, m') ∧ written m a w m'.
Proof. apply store64_run. Qed.

(** ** strncpy *)

(** The string and null bytes after it. *)
Fixpoint str_pad l : list Z :=
  match l with [] => [] | x :: l' => if x =? 0 then replicate (length l) 0 else x :: str_pad l' end.
Lemma str_pad_length l : length (str_pad l) = length l.
Proof. induction l as [|x l IH]; cbn; [done|]. destruct (x =? 0); cbn; [by rewrite length_replicate|by rewrite IH]. Qed.
Lemma str_pad_prefix p l : 0 ∉ p → str_pad (p ++ l) = p ++ str_pad l.
Proof. induction p as [|x p IH]; cbn; [done|]. intros [Hx Hp]%not_elem_of_cons. rewrite (proj2 (Z.eqb_neq x 0)) by done. by rewrite IH. Qed.

Lemma pad_zeros_run (n : nat) m a : mapped m a (Z.of_nat n) → ∃ m', pad_zeros n a m = Ok (tt, m') ∧ written m a (replicate n 0) m'.
Proof.
  revert m a. induction n as [|n IH]; intros m a Hm; cbn [pad_zeros replicate]; [exists m; split; [done|apply written_nil]|].
  destruct (store8_written m a 0 (Hm a ltac:(lia))) as (m1 & Hrun & Hw). erewrite st_bind_run by exact Hrun.
  destruct (IH m1 (a + 1)) as (m2 & Hrun2 & Hw2); [eapply mapped_sub; [by eapply written_mapped|lia|lia]|].
  exists m2. split; [done|]. by apply (written_app m m1 m2 a [0]).
Qed.

(** Source and destination do not overlap, and both are mapped. *)
Record str_args m dst src l : Prop := {
  sa_src : reads m src l;
  sa_dst : mapped m dst (Z.of_nat (length l));
  sa_bytes : bytes_ok m;
  sa_disjoint : src + Z.of_nat (length l) ≤ dst ∨ dst + Z.of_nat (length l) ≤ src;
}.
Lemma str_args_step m m1 dst src p l : str_args m dst src (p ++ l) → written m dst p m1 →
  str_args m1 (dst + Z.of_nat (length p)) (src + Z.of_nat (length p)) l.
Proof.
  intros [Hs Hd Hb Hdis] Hw. pose proof (reads_all_bytes _ _ _ Hb Hs) as [Hp _]%Forall_app. apply reads_app in Hs as [_ Hs].
  rewrite length_app in Hd, Hdis. split; [|eapply mapped_sub; [by eapply written_mapped|lia|lia]| |lia].
  - eapply written_reads; [exact Hw|exact Hs|lia].
  - intros a b. rewrite (Hw a). destruct (decide _); [|apply Hb]. unfold byte_at. destruct (decide _); [|done].
    intros Hk. by eapply Forall_lookup in Hp.
Qed.

Lemma strncpy_words_run (fuel : nat) m dst src l : str_args m dst src l → Z.of_nat (length l) < 8 * (Z.of_nat fuel + 1) →
  ∃ p l' m', l = p ++ l' ∧ 0 ∉ p ∧ written m dst p m' ∧
    strncpy_words fuel dst src (Z.of_nat (length l)) m =
      Ok ((dst + Z.of_nat (length p), src + Z.of_nat (length p), Z.of_nat (length l')), m').
Proof.
  revert m dst src l. induction fuel as [|fuel IH]; intros m dst src l Hsa Hf; cbn [strncpy_words]; change sizeof_long with 8.
  { rewrite (proj2 (Z.leb_gt _ _)) by lia. exists [], l, m. cbn. rewrite !Z.add_0_r. split_and!; [done|apply not_elem_of_nil|apply written_nil|done]. }
  destruct (Z.leb_spec 8 (Z.of_nat (length l))) as [Hle|Hlt].
  2:{ exists [], l, m. cbn. rewrite !Z.add_0_r. split_and!; [done|apply not_elem_of_nil|apply written_nil|done]. }
  destruct (word_split l Hle) as (w & l' & -> & Hw). pose proof Hsa as [Hs Hd Hb _]. pose proof (reads_all_bytes _ _ _ Hb Hs) as [Hall _]%Forall_app.
  apply reads_app in Hs as [Hs _]. erewrite st_bind_run by (by apply load64_reads).
  pose proof (DETECTNULL_exact w Hall Hw) as Hnull. destruct (Z.eqb_spec (DETECTNULL (le_combine w)) 0) as [Hz|Hz].
  2:{ exists [], (w ++ l'), m. cbn [length]. rewrite !Z.add_0_r. split_and!; [done|apply not_elem_of_nil|apply written_nil|done]. }
  destruct (store64_written m dst w) as (m1 & Hrun & Hw1); [eapply mapped_sub; [exact Hd|lia|lia]|done|done|]. erewrite st_bind_run by exact Hrun.
  pose proof (str_args_step m m1 dst src w l' Hsa Hw1) as Hsa1. rewrite Hw in Hsa1. rewrite length_app in Hf |- *.
  destruct (IH m1 (dst + 8) (src + 8) l' Hsa1) as (p & l'' & m2 & -> & Hp & Hw2 & Hrun2); [lia|].
  exists (w ++ p), l'', m2. split_and!; [by rewrite app_assoc|rewrite elem_of_app; intros [|]; [by apply Hnull|done]| |].
  - eapply written_app; [exact Hw1|]. by rewrite Hw.
  - replace (Z.of_nat (length w + length (p ++ l'')) - 8) with (Z.of_nat (length (p ++ l''))) by lia.
    rewrite Hrun2, length_app, Hw, Nat2Z.inj_add, !Z.add_assoc. done.
Qed.

Lemma strncpy_bytes_run m dst src l : str_args m dst src l →
  ∃ q (rest : nat) m', str_pad l = q ++ replicate rest 0 ∧ written m dst q m' ∧
    strncpy_bytes (length l) dst src m = Ok ((dst + Z.of_nat (length q), rest), m').
Proof.
  revert m dst src. induction l as [|x l IH]; intros m dst src Hsa; cbn [strncpy_bytes length str_pad].
  { exists [], O, m. cbn. rewrite Z.add_0_r. split_and!; [done|apply written_nil|done]. }
  pose proof Hsa as [Hs Hd Hb _]. apply reads_cons in Hs as [Hx Hs]. erewrite st_bind_run by (by apply load8_run).
  destruct (store8_written m dst x (Hd dst ltac:(cbn; lia))) as (m1 & Hrun & Hw). erewrite st_bind_run by exact Hrun.
  destruct (Z.eqb_spec x 0) as [->|Hne]; [by exists [0], (length l), m1|].
  pose proof (str_args_step m m1 dst src [x] l Hsa Hw) as Hsa1. cbn [length] in Hsa1.
  destruct (IH m1 _ _ Hsa1) as (q & rest & m2 & Hq & Hw2 & Hrun2). exists (x :: q), rest, m2. split_and!; [by rewrite Hq| |].
  - by apply (written_app m m1 m2 dst [x]).
  - etransitivity; [exact Hrun2|]. cbn [length]. replace (dst + Z.of_nat (S (length q))) with (dst + Z.of_nat 1 + Z.of_nat (length q)) by lia. done.
Qed.

(** [strncpy] writes exactly [count] bytes: the source up to and with its first null
    byte, then null bytes. *)
Theorem strncpy_exact m dst src l : str_args m dst src l →
  ∃ m', strncpy dst src (Z.of_nat (length l)) m = Ok (dst, m') ∧ written m dst (str_pad l) m'.
Proof.
  intros Hsa. unfold strncpy.
  assert (∃ p l' m1, l = p ++ l' ∧ 0 ∉ p ∧ written m dst p m1 ∧
    (if negb (UNALIGNED src dst) && negb (Z.of_nat (length l) <? sizeof_long)
     then strncpy_words (Z.to_nat (Z.of_nat (length l))) dst src (Z.of_nat (length l)) else mret (dst, src, Z.of_nat (length l))) m =
      Ok ((dst + Z.of_nat (length p), src + Z.of_nat (length p), Z.of_nat (length l')), m1)) as (p & l' & m1 & -> & Hp & Hw & Hrun).
  { destruct (_ && _); [apply strncpy_words_run; [done|lia]|]. exists [], l, m. cbn. rewrite !Z.add_0_r.
    split_and!; [done|apply not_elem_of_nil|apply written_nil|done]. }
  erewrite st_bind_run by exact Hrun. cbv beta iota. rewrite Nat2Z.id. pose proof (str_args_step _ _ _ _ _ _ Hsa Hw) as Hsa1.
  destruct (strncpy_bytes_run _ _ _ _ Hsa1) as (q & rest & m2 & Hq & Hw2 & Hrun2). erewrite st_bind_run by exact Hrun2. cbv beta iota.
  assert (Hlen : (length l' = length q + rest)%nat) by (rewrite <- (str_pad_length l'), Hq, length_app, length_replicate; done).
  destruct (pad_zeros_run rest m2 (dst + Z.of_nat (length p) + Z.of_nat (length q))) as (m3 & Hrun3 & Hw3).
  { eapply mapped_sub; [eapply written_mapped; [exact Hw2|apply Hsa1]|lia|lia]. }
  erewrite st_bind_run by exact Hrun3. exists m3. split; [done|]. rewrite str_pad_prefix, Hq by done.
  eapply written_app; [exact Hw|]. by eapply written_app.
Qed.

(** ** memset *)
Lemma replicate_bytes (n : nat) c : all_bytes (replicate n (wrap 8 c)).
Proof. apply Forall_replicate. unfold wrap. change (2 ^ 8) with 256. by apply Z.mod_pos_bound. Qed.

Lemma low_byte c : Z.land (u32 c) 0xff = wrap 8 c.
Proof.
  change 0xff with (Z.ones 8). rewrite Z.land_ones by done. unfold wrap. apply Z.mod_mod_divide. by exists (2 ^ 24).
Qed.
(** The word the loop stores has the byte in every position. *)
Lemma set_buffer_bytes c : set_buffer c = le_combine (replicate 8 (wrap 8 c)).
Proof.
  assert (H : forallb (λ k, set_buffer (Z.of_nat k) =? le_combine (replicate 8 (Z.of_nat k))) (seq 0 256) = true) by (vm_compute; reflexivity).
  assert (Hc : 0 ≤ wrap 8 c < 256) by (unfold wrap; by apply Z.mod_pos_bound).
  rewrite forallb_forall in H. specialize (H (Z.to_nat (wrap 8 c))). rewrite Z2Nat.id in H by lia.
  transitivity (set_buffer (wrap 8 c)); [|apply Z.eqb_eq, H, in_seq; lia]. unfold set_buffer. by rewrite !low_byte, wrap_wrap.
Qed.

(** [k] bytes are filled, of [n]. *)
Definition filled m s n c (r : Z * Z) m' : Prop :=
  ∃ k : nat, Z.of_nat k ≤ n ∧ r = (s + Z.of_nat k, n - Z.of_nat k) ∧ written m s (replicate k (wrap 8 c)) m'.
Lemma filled_nil m s n c : 0 ≤ n → filled m s n c (s, n) m.
Proof. intros H0. exists O. cbn. rewrite Z.add_0_r, Z.sub_0_r. split_and!; [done|done|apply written_nil]. Qed.
Lemma filled_trans m m1 m2 s n c (k : nat) r : Z.of_nat k ≤ n → written m s (replicate k (wrap 8 c)) m1 →
  filled m1 (s + Z.of_nat k) (n - Z.of_nat k) c r m2 → filled m s n c r m2.
Proof.
  intros Hk Hw (j & Hj & -> & Hw2). exists (k + j)%nat. rewrite replicate_add, Nat2Z.inj_add, Z.add_assoc, Z.sub_add_distr.
  split_and!; [lia|done|]. eapply written_app; [exact Hw|]. by rewrite length_replicate.
Qed.

Lemma set_word_run m s n c : mapped m s n → 8 ≤ n → ∃ m', store64 s (set_buffer c) m = Ok (tt, m') ∧ written m s (replicate 8 (wrap 8 c)) m'.
Proof.
  intros Hm Hn. rewrite set_buffer_bytes. apply store64_written; [eapply mapped_sub; [exact Hm|lia|lia]|done|apply replicate_bytes].
Qed.
(** One word more. *)
Lemma set_word_after m m1 s n c (k : nat) : mapped m s n → Z.of_nat k + 8 ≤ n → written m s (replicate k (wrap 8 c)) m1 →
  ∃ m2, store64 (s + Z.of_nat k) (set_buffer c) m1 = Ok (tt, m2) ∧ written m s (replicate (k + 8) (wrap 8 c)) m2.
Proof.
  intros Hm Hn Hw. destruct (set_word_run m1 (s + Z.of_nat k) (n - Z.of_nat k) c) as (m2 & Hrun & Hw2);
    [eapply mapped_sub; [by eapply written_mapped|lia|lia]|lia|].
  exists m2. split; [done|]. rewrite replicate_add. eapply written_app; [exact Hw|]. by rewrite length_replicate.
Qed.

Lemma set_unaligned_run (fuel : nat) m s n c : mapped m s n → 0 ≤ n → - s mod 8 ≤ Z.of_nat fuel →
  ∃ r m', set_unaligned fuel s n c m = Ok (r, m') ∧ filled m s n c (default (s + n, 0) r) m'.
Proof.
  revert m s n. induction fuel as [|fuel IH]; intros m s n Hm H0 Hf; cbn [set_unaligned]; unfold UNALIGNED1; change (sizeof_long - 1) with (Z.ones 3);
    rewrite Z.land_ones by done; change (2 ^ 3) with 8; destruct (Z.eqb_spec (s mod 8) 0) as [Hz|Hz]; cbn [negb].
  1, 3: eexists _, m; split; [done|by apply filled_nil].
  { exfalso. rewrite Z.mod_opp_l_nz in Hf by done. pose proof (Z.mod_pos_bound s 8). lia. }
  destruct (Z.eqb_spec n 0) as [->|Hn]; [eexists None, m; split; [done|]; cbn; rewrite Z.add_0_r; by apply filled_nil|].
  destruct (store8_written m s (wrap 8 c) (Hm s ltac:(lia))) as (m1 & Hrun & Hw). erewrite st_bind_run by exact Hrun.
  destruct (IH m1 (s + 1) (n - 1)) as (r & m2 & Hrun2 & Hfi); [eapply mapped_sub; [by eapply written_mapped|lia|lia]|lia| |].
  { rewrite Z.mod_opp_l_nz in Hf by done. pose proof (Z.div_mod s 8 ltac:(done)). pose proof (Z.mod_pos_bound s 8 ltac:(done)).
    replace (- (s + 1)) with (7 - s mod 8 + (- (s / 8) - 1) * 8 + 0) by lia. rewrite Z.add_0_r, Z.mod_add, Z.mod_small by lia. lia. }
  exists r, m2. split; [done|]. apply (filled_trans m m1 m2 s n c 1); [lia|done|]. by replace (s + 1 + (n - 1)) with (s + n) in Hfi by lia.
Qed.

Lemma set1_loop_run (fuel : nat) m s n c : mapped m s n → 0 ≤ n → n < 8 * (Z.of_nat fuel + 1) →
  ∃ r m', set1_loop fuel s n (set_buffer c) m = Ok (r, m') ∧ filled m s n c r m'.
Proof.
  revert m s n. induction fuel as [|fuel IH]; intros m s n Hm H0 Hf; cbn [set1_loop]; change sizeof_long with 8.
  { rewrite (proj2 (Z.leb_gt _ _)) by lia. eexists _, m. split; [done|by apply filled_nil]. }
  destruct (Z.leb_spec 8 n) as [Hle|Hlt]; [|eexists _, m; split; [done|by apply filled_nil]].
  destruct (set_word_run m s n c Hm Hle) as (m1 & Hrun & Hw). erewrite st_bind_run by exact Hrun.
  destruct (IH m1 (s + 8) (n - 8)) as (r & m2 & Hrun2 & Hfi); [eapply mapped_sub; [by eapply written_mapped|lia|lia]|lia|lia|].
  exists r, m2. split; [done|]. by apply (filled_trans m m1 m2 s n c 8).
Qed.

Lemma set4_loop_run (fuel : nat) m s n c : mapped m s n → 0 ≤ n → n < 32 * (Z.of_nat fuel + 1) →
  ∃ r m', set4_loop fuel s n (set_buffer c) m = Ok (r, m') ∧ filled m s n c r m'.
Proof.
  revert m s n. induction fuel as [|fuel IH]; intros m s n Hm H0 Hf; cbn [set4_loop]; change (sizeof_long * 4) with 32; change (4 * sizeof_long) with 32.
  { rewrite (proj2 (Z.leb_gt _ _)) by lia. eexists _, m. split; [done|by apply filled_nil]. }
  destruct (Z.leb_spec 32 n) as [Hle|Hlt]; [|eexists _, m; split; [done|by apply filled_nil]].
  destruct (set_word_after m m s n c 0 Hm ltac:(lia) (written_nil m s)) as (m1 & R1 & W1). rewrite Z.add_0_r in R1.
  destruct (set_word_after m m1 s n c 8 Hm ltac:(lia) W1) as (m2 & R2 & W2).
  destruct (set_word_after m m2 s n c 16 Hm ltac:(lia) W2) as (m3 & R3 & W3).
  destruct (set_word_after m m3 s n c 24 Hm ltac:(lia) W3) as (m4 & R4 & W4).
  do 2 (erewrite st_bind_run; [|first [exact R1|exact R2]]). do 2 (erewrite st_bind_run; [|first [exact R3|exact R4]]).
  destruct (IH m4 (s + 32) (n - 32)) as (r & m5 & Hrun2 & Hfi); [eapply mapped_sub; [by eapply written_mapped|lia|lia]|lia|lia|].
  exists r, m5. split; [done|]. by apply (filled_trans m m4 m5 s n c 32).
Qed.

Lemma set_bytes_run (n : nat) m s c : mapped m s (Z.of_nat n) → ∃ m', set_bytes n s c m = Ok (tt, m') ∧ written m s (replicate n (wrap 8 c)) m'.
Proof.
  revert m s. induction n as [|n IH]; intros m s Hm; cbn [set_bytes replicate]; [exists m; split; [done|apply written_nil]|].
  destruct (store8_written m s (wrap 8 c) (Hm s ltac:(lia))) as (m1 & Hrun & Hw). erewrite st_bind_run by exact Hrun.
  destruct (IH m1 (s + 1)) as (m2 & Hrun2 & Hw2); [eapply mapped_sub; [by eapply written_mapped|lia|lia]|].
  exists m2. split; [done|]. by apply (written_app m m1 m2 s [wrap 8 c]).
Qed.

(** [memset] writes the low byte of [c] to each of the [n] bytes, and nothing else. *)
Theorem memset_exact m s c (n : nat) : mapped m s (Z.of_nat n) →
  ∃ m', memset s c (Z.of_nat n) m = Ok (s, m') ∧ written m s (replicate n (wrap 8 c)) m'.
Proof.
  intros Hm. unfold memset. destruct (set_unaligned_run (Z.to_nat sizeof_long) m s (Z.of_nat n) c) as (r & m1 & Hrun & Hfi); [done|lia| |].
  { pose proof (Z.mod_pos_bound (- s) 8). change (Z.to_nat sizeof_long) with 8%nat. lia. }
  erewrite st_bind_run by exact Hrun. destruct r as [[s1 n1]|]; cbn [default from_option id] in Hfi.
  2:{ destruct Hfi as (k & Hk & [= E1 E2] & Hw). exists m1. split; [done|]. by replace n with k by lia. }
  assert (∃ r m2, (if n1 <? sizeof_long then mret (s1, n1) else
      '(s, n) ← set4_loop (Z.to_nat n1) s1 n1 (set_buffer c); set1_loop (Z.to_nat n) s n (set_buffer c)) m1 = Ok (r, m2) ∧
      filled m s (Z.of_nat n) c r m2) as ([s2 n2] & m2 & Hrun2 & k & Hk & [= -> ->] & Hw).
  { destruct Hfi as (k & Hk & [= -> ->] & Hw). assert (Hm1 : mapped m1 (s + Z.of_nat k) (Z.of_nat n - Z.of_nat k))
      by (eapply mapped_sub; [by eapply written_mapped|lia|lia]).
    destruct (_ <? _); [eexists _, m1; split; [done|]; apply (filled_trans m m1 m1 s _ c k); [done|done|apply filled_nil; lia]|].
    destruct (set4_loop_run (Z.to_nat (Z.of_nat n - Z.of_nat k)) m1 _ _ c Hm1) as (r & m2 & Hrun2 & k2 & Hk2 & -> & Hw2); [lia|lia|].
    erewrite st_bind_run by exact Hrun2. cbv beta iota.
    destruct (set1_loop_run (Z.to_nat (Z.of_nat n - Z.of_nat k - Z.of_nat k2)) m2 (s + Z.of_nat k + Z.of_nat k2) (Z.of_nat n - Z.of_nat k - Z.of_nat k2) c)
      as (r & m3 & Hrun3 & Hfi3); [eapply mapped_sub; [by eapply written_mapped|lia|lia]|lia|lia|].
    exists r, m3. split; [done|]. apply (filled_trans m m1 m3 s _ c k); [done|done|]. by apply (filled_trans m1 m2 m3 _ _ c k2). }
  erewrite st_bind_run by exact Hrun2. cbv beta iota. replace (Z.to_nat (Z.of_nat n - Z.of_nat k)) with (n - k)%nat by lia.
  destruct (set_bytes_run (n - k) m2 (s + Z.of_nat k) c) as (m3 & Hrun3 & Hw3); [eapply mapped_sub; [by eapply written_mapped|lia|lia]|].
  erewrite st_bind_run by exact Hrun3. exists m3. split; [done|]. replace n with (k + (n - k))%nat by lia.
  rewrite replicate_add. eapply written_app; [exact Hw|]. by rewrite length_replicate.
Qed.

(** ** memcpy *)

(** [memcpy] is [memmove] where the blocks do not overlap destructively. *)
Lemma memcpy_memmove dst src n m : dst ≤ src ∨ src + n ≤ dst → memcpy dst src n m = memmove dst src n m.
Proof.
  intros Hd. unfold memcpy, memmove. destruct (Z.ltb_spec src dst), (Z.ltb_spec dst (src + n)); cbn [andb]; (done || lia).
Qed.

(** ** On a concrete memory *)
Lemma reads_check m a l : forallb (λ k : nat, bool_decide (l !! k = m !! (a + Z.of_nat k))) (seq 0 (length l)) = true → reads m a l.
Proof.
  rewrite forallb_forall. intros H i Hi. specialize (H (Z.to_nat i)). rewrite in_seq, Z2Nat.id, bool_decide_eq_true in H by lia.
  unfold byte_at. rewrite decide_True by lia. apply H. lia.
Qed.

Lemma strncmp_exact_witness :
  strncmp 0 40 20 SampleMemory.memory = Ok (str_diff (take 20 SampleMemory.bytes) (take 12 SampleMemory.bytes ++ 0 :: take 7 (drop 13 SampleMemory.bytes)), SampleMemory.memory).
Proof.
  apply (strncmp_exact SampleMemory.memory 0 40 (take 20 SampleMemory.bytes)); [apply SampleMemory.memory_bytes| | |reflexivity].
  all: apply reads_check; vm_compute; reflexivity.
Defined.

Lemma strncpy_exact_witness : ∃ m', strncpy 0 40 20 SampleMemory.memory = Ok (0, m') ∧
  written SampleMemory.memory 0 (take 12 SampleMemory.bytes ++ replicate 8 0) m'.
Proof.
  apply (strncpy_exact SampleMemory.memory 0 40 (take 12 SampleMemory.bytes ++ 0 :: take 7 (drop 13 SampleMemory.bytes))).
  split; [apply reads_check; vm_compute; reflexivity|apply (SampleMemory.mapped_check _ _ 20); vm_compute; reflexivity
         |apply SampleMemory.memory_bytes|vm_compute; right; discriminate].
Defined.
