(* ===== verification/RBTree.v ===== *)
(** * Red-black trees

    The intrusive red-black tree of libvapours ([freebsd/tree.hpp] and
    [util/util_intrusive_red_black_tree.hpp]).  The state holds the entry of every
    node, whether it is linked or not, the root and the size; a pointer to a node
    is its number, or [None] for null.  A comparator is given as a function of the
    node that it compares with. *)

From S2P Require Import Prelude.

Module RBTree.

Inductive RBColor : Set := RB_BLACK | RB_RED.
#[export] Instance RBColor_eq_dec : EqDecision RBColor.
Proof. solve_decision. Defined.

Abbreviation ptr := (option nat).
Record RBEntry : Set := mkRBEntry {
  m_rbe_left : ptr;
  m_rbe_right : ptr;
  m_rbe_parent : ptr;
  m_rbe_color : RBColor;
}.
#[export] Instance RBEntry_eq_dec : EqDecision RBEntry.
Proof. solve_decision. Defined.
Definition SetLeft (e : ptr) (r : RBEntry) : RBEntry := mkRBEntry e (m_rbe_right r) (m_rbe_parent r) (m_rbe_color r).
Definition SetRight (e : ptr) (r : RBEntry) : RBEntry := mkRBEntry (m_rbe_left r) e (m_rbe_parent r) (m_rbe_color r).
Definition SetParent (e : ptr) (r : RBEntry) : RBEntry := mkRBEntry (m_rbe_left r) (m_rbe_right r) e (m_rbe_color r).
Definition SetColor (c : RBColor) (r : RBEntry) : RBEntry := mkRBEntry (m_rbe_left r) (m_rbe_right r) (m_rbe_parent r) c.

Record IntrusiveRedBlackTree : Set := mkTree {
  m_entries : gmap nat RBEntry;
  m_root : ptr;
  m_size : Z;
}.
Abbreviation M := (stM IntrusiveRedBlackTree).

(** ** The accessors *)
Definition RB_ENTRY (t : ptr) : M RBEntry :=
  n ← st_lift (of_option NullDeref t); s ← st_get; st_lift (of_option UseAfterFree (m_entries s !! n)).
Definition SetRBEntry (t : ptr) (e : RBEntry) : M unit :=
  n ← st_lift (of_option NullDeref t); st_mod (λ s, mkTree (<[n := e]> (m_entries s)) (m_root s) (m_size s)).
Definition Root : M ptr := s ← st_get; mret (m_root s).
Definition SetRoot (r : ptr) : M unit := st_mod (λ s, mkTree (m_entries s) r (m_size s)).
Definition IsEmpty : M bool := r ← Root; mret (bool_decide (r = None)).

Definition RB_LEFT (t : ptr) : M ptr := e ← RB_ENTRY t; mret (m_rbe_left e).
Definition RB_RIGHT (t : ptr) : M ptr := e ← RB_ENTRY t; mret (m_rbe_right e).
Definition RB_PARENT (t : ptr) : M ptr := e ← RB_ENTRY t; mret (m_rbe_parent e).
Definition RB_COLOR (t : ptr) : M RBColor := e ← RB_ENTRY t; mret (m_rbe_color e).
Definition RB_IS_BLACK (t : ptr) : M bool := c ← RB_COLOR t; mret (bool_decide (c = RB_BLACK)).
Definition RB_IS_RED (t : ptr) : M bool := c ← RB_COLOR t; mret (bool_decide (c = RB_RED)).
Definition RB_SET_LEFT (t e : ptr) : M unit := r ← RB_ENTRY t; SetRBEntry t (SetLeft e r).
Definition RB_SET_RIGHT (t e : ptr) : M unit := r ← RB_ENTRY t; SetRBEntry t (SetRight e r).
Definition RB_SET_PARENT (t e : ptr) : M unit := r ← RB_ENTRY t; SetRBEntry t (SetParent e r).
Definition RB_SET_COLOR (t : ptr) (c : RBColor) : M unit := r ← RB_ENTRY t; SetRBEntry t (SetColor c r).
Definition RB_SET (elm parent : ptr) : M unit :=
  _ ← RB_SET_PARENT elm parent;
  _ ← RB_SET_LEFT elm None;
  _ ← RB_SET_RIGHT elm None;
  RB_SET_COLOR elm RB_RED.
Definition RB_SET_BLACKRED (black red : ptr) : M unit :=
  _ ← RB_SET_COLOR black RB_BLACK; RB_SET_COLOR red RB_RED.

(** [p == nullptr || RB_IS_BLACK(p)], and [p && RB_IS_RED(p)] *)
Definition null_or_black (p : ptr) : M bool := match p with None => mret true | Some _ => RB_IS_BLACK p end.
Definition red_node (p : ptr) : M bool := match p with None => mret false | Some _ => RB_IS_RED p end.
(** [if (p) f(p)] *)
Definition if_node (p : ptr) (f : M unit) : M unit := match p with None => mret tt | Some _ => f end.

(** The link to [elm], in its parent or the head, becomes one to [e]. *)
Definition replace_child (parent elm e : ptr) : M unit :=
  match parent with
  | Some _ =>
      l ← RB_LEFT parent;
      if bool_decide (elm = l) then RB_SET_LEFT parent e else RB_SET_RIGHT parent e
  | None => SetRoot e
  end.

(** ** Rotations; the result is the reference argument [tmp] *)
Definition RB_ROTATE_LEFT (elm : ptr) : M ptr :=
  tmp ← RB_RIGHT elm;
  l ← RB_LEFT tmp;
  _ ← RB_SET_RIGHT elm l;
  _ ← if_node l (RB_SET_PARENT l elm);
  p ← RB_PARENT elm;
  _ ← RB_SET_PARENT tmp p;
  _ ← replace_child p elm tmp;
  _ ← RB_SET_LEFT tmp elm;
  _ ← RB_SET_PARENT elm tmp;
  mret tmp.
Definition RB_ROTATE_RIGHT (elm : ptr) : M ptr :=
  tmp ← RB_LEFT elm;
  r ← RB_RIGHT tmp;
  _ ← RB_SET_LEFT elm r;
  _ ← if_node r (RB_SET_PARENT r elm);
  p ← RB_PARENT elm;
  _ ← RB_SET_PARENT tmp p;
  _ ← replace_child p elm tmp;
  _ ← RB_SET_RIGHT tmp elm;
  _ ← RB_SET_PARENT elm tmp;
  mret tmp.

(** ** Restoring the colours after a removal *)

(** Whether the left and the right child are null or black. *)
Definition children_black (tmp : ptr) : M (bool * bool) :=
  l ← RB_LEFT tmp; bl ← null_or_black l;
  r ← RB_RIGHT tmp; br ← null_or_black r;
  mret (bl, br).

(**

    One round: [inl] is [break] with the new [elm], [inr] the new [parent] and
    [elm] of the next round. *)
Definition remove_color_left (parent : ptr) : M (ptr + ptr * ptr) :=
  tmp ← RB_RIGHT parent;
  red ← RB_IS_RED tmp;
  tmp ← (if red : bool then
           _ ← RB_SET_BLACKRED tmp parent;
           _ ← RB_ROTATE_LEFT parent;
           RB_RIGHT parent
         else mret tmp);
  '(bl, br) ← children_black tmp;
  if (bl && br)%bool then
    _ ← RB_SET_COLOR tmp RB_RED;
    p ← RB_PARENT parent;
    mret (inr (p, parent))
  else
    tmp ← (if br : bool then
             oleft ← RB_LEFT tmp;
             _ ← if_node oleft (RB_SET_COLOR oleft RB_BLACK);
             _ ← RB_SET_COLOR tmp RB_RED;
             _ ← RB_ROTATE_RIGHT tmp;
             RB_RIGHT parent
           else mret tmp);
    c ← RB_COLOR parent;
    _ ← RB_SET_COLOR tmp c;
    _ ← RB_SET_COLOR parent RB_BLACK;
    r ← RB_RIGHT tmp;
    _ ← if_node r (RB_SET_COLOR r RB_BLACK);
    _ ← RB_ROTATE_LEFT parent;
    e ← Root;
    mret (inl e).
Definition remove_color_right (parent : ptr) : M (ptr + ptr * ptr) :=
  tmp ← RB_LEFT parent;
  red ← RB_IS_RED tmp;
  tmp ← (if red : bool then
           _ ← RB_SET_BLACKRED tmp parent;
           _ ← RB_ROTATE_RIGHT parent;
           RB_LEFT parent
         else mret tmp);
  '(bl, br) ← children_black tmp;
  if (bl && br)%bool then
    _ ← RB_SET_COLOR tmp RB_RED;
    p ← RB_PARENT parent;
    mret (inr (p, parent))
  else
    tmp ← (if bl : bool then
             oright ← RB_RIGHT tmp;
             _ ← if_node oright (RB_SET_COLOR oright RB_BLACK);
             _ ← RB_SET_COLOR tmp RB_RED;
             _ ← RB_ROTATE_LEFT tmp;
             RB_LEFT parent
           else mret tmp);
    c ← RB_COLOR parent;
    _ ← RB_SET_COLOR tmp c;
    _ ← RB_SET_COLOR parent RB_BLACK;
    l ← RB_LEFT tmp;
    _ ← if_node l (RB_SET_COLOR l RB_BLACK);
    _ ← RB_ROTATE_RIGHT parent;
    e ← Root;
    mret (inl e).

Fixpoint remove_color_loop (fuel : nat) (parent elm : ptr) : M ptr :=
  b ← null_or_black elm;
  r ← Root;
  if (b && negb (bool_decide (elm = r)))%bool then
    match fuel with
    | O => st_throw OutOfFuel
    | S fuel' =>
        l ← RB_LEFT parent;
        next ← (if bool_decide (l = elm) then remove_color_left parent else remove_color_right parent);
        match next with
        | inl elm => mret elm
        | inr (parent, elm) => remove_color_loop fuel' parent elm
        end
    end
  else mret elm.
Definition RB_REMOVE_COLOR (parent elm : ptr) : M unit :=
  s ← st_get;
  elm ← remove_color_loop (size (m_entries s)) parent elm;
  if_node elm (RB_SET_COLOR elm RB_BLACK).

(** ** Removal *)
Fixpoint leftmost (fuel : nat) (elm : ptr) : M ptr :=
  left ← RB_LEFT elm;
  match left with
  | None => mret elm
  | Some _ => match fuel with O => st_throw OutOfFuel | S fuel' => leftmost fuel' left end
  end.
(** Unlinks a node that has one child at most. *)
Definition unlink_node (elm child : ptr) : M (ptr * RBColor) :=
  parent ← RB_PARENT elm;
  color ← RB_COLOR elm;
  _ ← if_node child (RB_SET_PARENT child parent);
  _ ← replace_child parent elm child;
  mret (parent, color).
(** [elm] takes the place of [old]. *)
Definition replace_node (old elm : ptr) : M unit :=
  e ← RB_ENTRY old;
  _ ← SetRBEntry elm e;
  p ← RB_PARENT old;
  _ ← replace_child p old elm;
  l ← RB_LEFT old;
  _ ← RB_SET_PARENT l elm;
  r ← RB_RIGHT old;
  if_node r (RB_SET_PARENT r elm).
Definition RB_REMOVE (elm : ptr) : M ptr :=
  let old := elm in
  l ← RB_LEFT elm;
  r ← RB_RIGHT elm;
  match l, r with
  | Some _, Some _ =>
      s ← st_get;
      elm ← leftmost (size (m_entries s)) r;
      child ← RB_RIGHT elm;
      '(parent, color) ← unlink_node elm child;
      p ← RB_PARENT elm;
      let parent := if bool_decide (p = old) then elm else parent in
      _ ← replace_node old elm;
      _ ← (if bool_decide (color = RB_BLACK) then RB_REMOVE_COLOR parent child else mret tt);
      mret old
  | _, _ =>
      let child := match l with None => r | Some _ => l end in
      '(parent, color) ← unlink_node elm child;
      _ ← (if bool_decide (color = RB_BLACK) then RB_REMOVE_COLOR parent child else mret tt);
      mret old
  end.

(** ** Insertion *)

(** One round: the new [elm]. *)
Definition insert_color_left (elm parent gparent : ptr) : M ptr :=
  tmp ← RB_RIGHT gparent;
  red ← red_node tmp;
  if red : bool then
    _ ← RB_SET_COLOR tmp RB_BLACK;
    _ ← RB_SET_BLACKRED parent gparent;
    mret gparent
  else
    r ← RB_RIGHT parent;
    '(parent, elm) ← (if bool_decide (r = elm) then _ ← RB_ROTATE_LEFT parent; mret (elm, parent) else mret (parent, elm));
    _ ← RB_SET_BLACKRED parent gparent;
    _ ← RB_ROTATE_RIGHT gparent;
    mret elm.
Definition insert_color_right (elm parent gparent : ptr) : M ptr :=
  tmp ← RB_LEFT gparent;
  red ← red_node tmp;
  if red : bool then
    _ ← RB_SET_COLOR tmp RB_BLACK;
    _ ← RB_SET_BLACKRED parent gparent;
    mret gparent
  else
    l ← RB_LEFT parent;
    '(parent, elm) ← (if bool_decide (l = elm) then _ ← RB_ROTATE_RIGHT parent; mret (elm, parent) else mret (parent, elm));
    _ ← RB_SET_BLACKRED parent gparent;
    _ ← RB_ROTATE_LEFT gparent;
    mret elm.
Fixpoint insert_color_loop (fuel : nat) (elm : ptr) : M unit :=
  parent ← RB_PARENT elm;
  red ← red_node parent;
  if red : bool then
    match fuel with
    | O => st_throw OutOfFuel
    | S fuel' =>
        gparent ← RB_PARENT parent;
        l ← RB_LEFT gparent;
        elm ← (if bool_decide (parent = l) then insert_color_left elm parent gparent else insert_color_right elm parent gparent);
        insert_color_loop fuel' elm
    end
  else mret tt.
Definition RB_INSERT_COLOR (elm : ptr) : M unit :=
  s ← st_get;
  _ ← insert_color_loop (size (m_entries s)) elm;
  r ← Root;
  RB_SET_COLOR r RB_BLACK.

(** The place of a new node: its parent and the last comparison, or the node that
    compares equal. *)
Fixpoint insert_search (fuel : nat) (cmp : nat → Z) (parent tmp : ptr) (comp : Z) : M (nat + ptr * Z) :=
  match tmp with
  | None => mret (inr (parent, comp))
  | Some n =>
      match fuel with
      | O => st_throw OutOfFuel
      | S fuel' =>
          let comp := cmp n in
          if comp <? 0 then l ← RB_LEFT tmp; insert_search fuel' cmp tmp l comp
          else if 0 <? comp then r ← RB_RIGHT tmp; insert_search fuel' cmp tmp r comp
          else mret (inl n)
      end
  end.
Definition RB_INSERT (elm : nat) (cmp : nat → Z) : M ptr :=
  s ← st_get;
  r ← insert_search (size (m_entries s)) cmp None (m_root s) 0;
  match r with
  | inl n => mret (Some n)
  | inr (parent, comp) =>
      _ ← RB_SET (Some elm) parent;
      _ ← (match parent with
           | Some _ => if comp <? 0 then RB_SET_LEFT parent (Some elm) else RB_SET_RIGHT parent (Some elm)
           | None => SetRoot (Some elm)
           end);
      _ ← RB_INSERT_COLOR (Some elm);
      mret None
  end.

(** ** Searching; the variants for keys differ in the type of the comparator *)
Fixpoint find_loop (fuel : nat) (cmp : nat → Z) (tmp : ptr) : M ptr :=
  match tmp with
  | None => mret None
  | Some n =>
      match fuel with
      | O => st_throw OutOfFuel
      | S fuel' =>
          let comp := cmp n in
          if comp <? 0 then l ← RB_LEFT tmp; find_loop fuel' cmp l
          else if 0 <? comp then r ← RB_RIGHT tmp; find_loop fuel' cmp r
          else mret tmp
      end
  end.
Definition RB_FIND (cmp : nat → Z) : M ptr := s ← st_get; find_loop (size (m_entries s)) cmp (m_root s).
Fixpoint nfind_loop (fuel : nat) (cmp : nat → Z) (tmp res : ptr) : M ptr :=
  match tmp with
  | None => mret res
  | Some n =>
      match fuel with
      | O => st_throw OutOfFuel
      | S fuel' =>
          let comp := cmp n in
          if comp <? 0 then l ← RB_LEFT tmp; nfind_loop fuel' cmp l tmp
          else if 0 <? comp then r ← RB_RIGHT tmp; nfind_loop fuel' cmp r res
          else mret tmp
      end
  end.
Definition RB_NFIND (cmp : nat → Z) : M ptr := s ← st_get; nfind_loop (size (m_entries s)) cmp (m_root s) None.
Fixpoint find_existing_loop (fuel : nat) (cmp : nat → Z) (tmp : ptr) : M ptr :=
  match tmp with
  | None => st_throw NullDeref
  | Some n =>
      match fuel with
      | O => st_throw OutOfFuel
      | S fuel' =>
          let comp := cmp n in
          if comp <? 0 then l ← RB_LEFT tmp; find_existing_loop fuel' cmp l
          else if 0 <? comp then r ← RB_RIGHT tmp; find_existing_loop fuel' cmp r
          else mret tmp
      end
  end.
Definition RB_FIND_EXISTING (cmp : nat → Z) : M ptr := s ← st_get; find_existing_loop (size (m_entries s)) cmp (m_root s).

Definition RB_FIND_KEY {U : Type} (key : U) (cmp : U → nat → Z) : M ptr := s ← st_get; find_loop (size (m_entries s)) (cmp key) (m_root s).
Definition RB_NFIND_KEY {U : Type} (key : U) (cmp : U → nat → Z) : M ptr := s ← st_get; nfind_loop (size (m_entries s)) (cmp key) (m_root s) None.
Definition RB_FIND_EXISTING_KEY {U : Type} (key : U) (cmp : U → nat → Z) : M ptr :=
  s ← st_get; find_existing_loop (size (m_entries s)) (cmp key) (m_root s).

(** ** Walking *)
Fixpoint rightmost (fuel : nat) (elm : ptr) : M ptr :=
  right ← RB_RIGHT elm;
  match right with
  | None => mret elm
  | Some _ => match fuel with O => st_throw OutOfFuel | S fuel' => rightmost fuel' right end
  end.
(** [while (RB_PARENT(elm) && elm == RB_RIGHT(RB_PARENT(elm)))], and the parent after it. *)
Fixpoint climb_right (fuel : nat) (elm : ptr) : M ptr :=
  p ← RB_PARENT elm;
  match p with
  | None => mret None
  | Some _ =>
      r ← RB_RIGHT p;
      if bool_decide (elm = r) then match fuel with O => st_throw OutOfFuel | S fuel' => climb_right fuel' p end
      else mret p
  end.
Fixpoint climb_left (fuel : nat) (elm : ptr) : M ptr :=
  p ← RB_PARENT elm;
  match p with
  | None => mret None
  | Some _ =>
      l ← RB_LEFT p;
      if bool_decide (elm = l) then match fuel with O => st_throw OutOfFuel | S fuel' => climb_left fuel' p end
      else mret p
  end.
(** [RB_PARENT(elm) && elm == RB_LEFT(RB_PARENT(elm))] *)
Definition is_left_child (elm : ptr) : M bool :=
  p ← RB_PARENT elm;
  match p with None => mret false | Some _ => l ← RB_LEFT p; mret (bool_decide (elm = l)) end.
Definition is_right_child (elm : ptr) : M bool :=
  p ← RB_PARENT elm;
  match p with None => mret false | Some _ => r ← RB_RIGHT p; mret (bool_decide (elm = r)) end.
Definition RB_NEXT (elm : ptr) : M ptr :=
  s ← st_get;
  right ← RB_RIGHT elm;
  match right with
  | Some _ => leftmost (size (m_entries s)) right
  | None =>
      b ← is_left_child elm;
      if b : bool then RB_PARENT elm else climb_right (size (m_entries s)) elm
  end.
Definition RB_PREV (elm : ptr) : M ptr :=
  s ← st_get;
  left ← RB_LEFT elm;
  match left with
  | Some _ => rightmost (size (m_entries s)) left
  | None =>
      b ← is_right_child elm;
      if b : bool then RB_PARENT elm else climb_left (size (m_entries s)) elm
  end.
Fixpoint min_loop (fuel : nat) (tmp parent : ptr) : M ptr :=
  match tmp with
  | None => mret parent
  | Some _ => match fuel with O => st_throw OutOfFuel | S fuel' => l ← RB_LEFT tmp; min_loop fuel' l tmp end
  end.
Fixpoint max_loop (fuel : nat) (tmp parent : ptr) : M ptr :=
  match tmp with
  | None => mret parent
  | Some _ => match fuel with O => st_throw OutOfFuel | S fuel' => r ← RB_RIGHT tmp; max_loop fuel' r tmp end
  end.
Definition RB_MIN : M ptr := s ← st_get; min_loop (size (m_entries s)) (m_root s) None.
Definition RB_MAX : M ptr := s ← st_get; max_loop (size (m_entries s)) (m_root s) None.

(** ** The container; an iterator is the pointer to its node *)
Definition begin : M ptr := RB_MIN.
Definition end_ : ptr := None.
Definition empty : M bool := IsEmpty.
Definition front : M nat := p ← RB_MIN; st_lift (of_option NullDeref p).
Definition back : M nat := p ← RB_MAX; st_lift (of_option NullDeref p).
Definition tree_size : M Z := s ← st_get; mret (m_size s).
Definition erase (it : ptr) : M ptr :=
  next ← RB_NEXT it;
  _ ← RB_REMOVE it;
  _ ← st_mod (λ s, mkTree (m_entries s) (m_root s) (u64 (m_size s - 1)));
  mret next.
Definition InsertImpl (node : nat) (cmp : nat → Z) : M ptr :=
  _ ← st_mod (λ s, mkTree (m_entries s) (m_root s) (u64 (m_size s + 1)));
  RB_INSERT node cmp.
Definition insert (node : nat) (cmp : nat → Z) : M ptr := _ ← InsertImpl node cmp; mret (Some node).
Definition find (cmp : nat → Z) : M ptr := RB_FIND cmp.
Definition nfind (cmp : nat → Z) : M ptr := RB_NFIND cmp.
Definition find_existing (cmp : nat → Z) : M ptr := RB_FIND_EXISTING cmp.
Definition find_key {U : Type} (key : U) (cmp : U → nat → Z) : M ptr := RB_FIND_KEY key cmp.
Definition nfind_key {U : Type} (key : U) (cmp : U → nat → Z) : M ptr := RB_NFIND_KEY key cmp.
Definition find_existing_key {U : Type} (key : U) (cmp : U → nat → Z) : M ptr := RB_FIND_EXISTING_KEY key cmp.
(** [for (auto &x : tree)] *)
Fixpoint walk (fuel : nat) (it : ptr) : M (list nat) :=
  match it with
  | None => mret []
  | Some n => match fuel with O => st_throw OutOfFuel | S fuel' => next ← RB_NEXT it; l ← walk fuel' next; mret (n :: l) end
  end.

End RBTree.
