(* ===== verification/RBTreeSpec.v ===== *)
(** * Trees in the heap

    The entries of a red-black tree represent a binary tree.  A position in it is a
    zipper: a context, from the position up to the root, and the subtree there.
    Every primitive of [RBTree.v] is a step from one position to another, or changes
    the represented tree at a position. *)

From S2P Require Import Prelude RBTree.
Import RBTree.
Implicit Types (s : IntrusiveRedBlackTree) (h : gmap nat RBEntry) (p q par : ptr) (x y z : nat) (c d : RBColor).

(** ** Trees and contexts *)
Inductive tree : Set := E | T (c : RBColor) (l : tree) (x : nat) (r : tree).
Implicit Types (t l r : tree).
Definition rootp t : ptr := match t with E => None | T _ _ x _ => Some x end.
Fixpoint elems t : list nat := match t with E => [] | T _ l x r => elems l ++ x :: elems r end.

(** The hole is the left or the right child of a node. *)
Inductive frame : Set := FL (c : RBColor) (x : nat) (r : tree) | FR (c : RBColor) (l : tree) (x : nat).
Implicit Types (C : list frame).
Fixpoint plug C t : tree :=
  match C with
  | [] => t
  | FL c x r :: C' => plug C' (T c t x r)
  | FR c l x :: C' => plug C' (T c l x t)
  end.
Definition frame_node (f : frame) : nat := match f with FL _ x _ => x | FR _ _ x => x end.
Definition frame_color (f : frame) : RBColor := match f with FL c _ _ => c | FR c _ _ => c end.
Definition frame_sibling (f : frame) : tree := match f with FL _ _ r => r | FR _ l _ => l end.
Definition cparent C : ptr := match C with [] => None | f :: _ => Some (frame_node f) end.
Fixpoint before C : list nat :=
  match C with [] => [] | FL _ _ _ :: C' => before C' | FR _ l x :: C' => before C' ++ elems l ++ [x] end.
Fixpoint after C : list nat :=
  match C with [] => [] | FL _ x r :: C' => x :: elems r ++ after C' | FR _ _ _ :: C' => after C' end.

Lemma elems_plug C t : elems (plug C t) = before C ++ elems t ++ after C.
Proof.
  revert t. induction C as [|[c x r|c l x] C IH]; intros t; cbn [plug before after]; [by rewrite app_nil_r| |]; rewrite IH; cbn [elems].
  all: by rewrite <- !app_assoc.
Qed.
Lemma plug_app C D t : plug (C ++ D) t = plug D (plug C t).
Proof. revert t. induction C as [|[] C IH]; intros t; cbn; auto. Qed.

(** ** Representation *)
Fixpoint rep h par t : Prop :=
  match t with
  | E => True
  | T c l x r => h !! x = Some (mkRBEntry (rootp l) (rootp r) par c) ∧ rep h (Some x) l ∧ rep h (Some x) r
  end.
Fixpoint rep_ctx h C (child : ptr) : Prop :=
  match C with
  | [] => True
  | FL c x r :: C' => h !! x = Some (mkRBEntry child (rootp r) (cparent C') c) ∧ rep h (Some x) r ∧ rep_ctx h C' (Some x)
  | FR c l x :: C' => h !! x = Some (mkRBEntry (rootp l) child (cparent C') c) ∧ rep h (Some x) l ∧ rep_ctx h C' (Some x)
  end.
Lemma rep_plug h C t : rep h None (plug C t) ↔ rep_ctx h C (rootp t) ∧ rep h (cparent C) t.
Proof.
  revert t. induction C as [|[c x r|c l x] C IH]; intros t; cbn [plug rep_ctx]; [tauto| |]; rewrite IH; cbn [rep rootp cparent frame_node]; tauto.
Qed.

Lemma rep_frame h h' par t : (∀ z, z ∈ elems t → h' !! z = h !! z) → rep h par t → rep h' par t.
Proof.
  revert par. induction t as [|c l IHl x r IHr]; intros par Hf; cbn [rep]; [done|]. cbn [elems] in Hf.
  intros (H & Hl & Hr). split_and!; [rewrite Hf by set_solver; done|apply IHl|apply IHr]; try done; intros z Hz; apply Hf; set_solver.
Qed.
Lemma rep_ctx_frame h h' C p : (∀ z, z ∈ before C ++ after C → h' !! z = h !! z) → rep_ctx h C p → rep_ctx h' C p.
Proof.
  revert p. induction C as [|[c x r|c l x] C IH]; intros p Hf; cbn [rep_ctx]; [done| |]; cbn [before after] in Hf; intros (H & Ht & HC).
  all: split_and!; [rewrite Hf by set_solver; done| |].
  all: try (apply IH; [intros z Hz; apply Hf; set_solver|done]).
  all: eapply rep_frame; [|exact Ht]; intros z Hz; apply Hf; set_solver.
Qed.

Record represents s t : Prop := {
  rs_root : m_root s = rootp t;
  rs_rep : rep (m_entries s) None t;
  rs_nodup : NoDup (elems t);
}.
(** What no operation on the links changes: which entries there are, and the size. *)
Definition evolves s s' : Prop := dom (m_entries s') = dom (m_entries s) ∧ m_size s' = m_size s.
Lemma evolves_refl s : evolves s s.
Proof. done. Qed.
Lemma evolves_trans s1 s2 s3 : evolves s1 s2 → evolves s2 s3 → evolves s1 s3.
Proof. intros [H1 H2] [H3 H4]. split; congruence. Qed.
#[export] Hint Resolve evolves_refl : swift.

(** ** Reading and writing entries *)
Definition upd x (e : RBEntry) s : IntrusiveRedBlackTree := mkTree (<[x := e]> (m_entries s)) (m_root s) (m_size s).

Section entries.
Context {s : IntrusiveRedBlackTree} {x : nat} {e : RBEntry} (Hx : m_entries s !! x = Some e).
Lemma RB_ENTRY_run : RB_ENTRY (Some x) s = Ok (e, s).
Proof using Hx. unfold RB_ENTRY. do 2 erewrite st_bind_run by reflexivity. unfold st_lift. by rewrite Hx. Qed.
Lemma RB_LEFT_run : RB_LEFT (Some x) s = Ok (m_rbe_left e, s).
Proof using Hx. unfold RB_LEFT. by erewrite st_bind_run by apply RB_ENTRY_run. Qed.
Lemma RB_RIGHT_run : RB_RIGHT (Some x) s = Ok (m_rbe_right e, s).
Proof using Hx. unfold RB_RIGHT. by erewrite st_bind_run by apply RB_ENTRY_run. Qed.
Lemma RB_PARENT_run : RB_PARENT (Some x) s = Ok (m_rbe_parent e, s).
Proof using Hx. unfold RB_PARENT. by erewrite st_bind_run by apply RB_ENTRY_run. Qed.
Lemma RB_COLOR_run : RB_COLOR (Some x) s = Ok (m_rbe_color e, s).
Proof using Hx. unfold RB_COLOR. by erewrite st_bind_run by apply RB_ENTRY_run. Qed.
Lemma RB_SET_LEFT_run p : RB_SET_LEFT (Some x) p s = Ok (tt, upd x (SetLeft p e) s).
Proof using Hx. unfold RB_SET_LEFT. by erewrite st_bind_run by apply RB_ENTRY_run. Qed.
Lemma RB_SET_RIGHT_run p : RB_SET_RIGHT (Some x) p s = Ok (tt, upd x (SetRight p e) s).
Proof using Hx. unfold RB_SET_RIGHT. by erewrite st_bind_run by apply RB_ENTRY_run. Qed.
Lemma RB_SET_PARENT_run p : RB_SET_PARENT (Some x) p s = Ok (tt, upd x (SetParent p e) s).
Proof using Hx. unfold RB_SET_PARENT. by erewrite st_bind_run by apply RB_ENTRY_run. Qed.
Lemma RB_SET_COLOR_run c : RB_SET_COLOR (Some x) c s = Ok (tt, upd x (SetColor c e) s).
Proof using Hx. unfold RB_SET_COLOR. by erewrite st_bind_run by apply RB_ENTRY_run. Qed.
Lemma upd_evolves e' : evolves s (upd x e' s).
Proof using Hx. split; [|done]. cbn. apply dom_insert_lookup_L. by eexists. Qed.
End entries.

(** ** Directions

    The code for the left and for the right side are mirror images; with a direction
    [d], [true] for the left, one statement covers both. *)
Implicit Types (dir : bool).
Definition near dir : ptr → M ptr := if dir then RB_LEFT else RB_RIGHT.
Definition far dir : ptr → M ptr := if dir then RB_RIGHT else RB_LEFT.
Definition set_near dir : ptr → ptr → M unit := if dir then RB_SET_LEFT else RB_SET_RIGHT.
Definition set_far dir : ptr → ptr → M unit := if dir then RB_SET_RIGHT else RB_SET_LEFT.
Definition rotate dir : ptr → M ptr := if dir then RB_ROTATE_LEFT else RB_ROTATE_RIGHT.
Definition entry dir (n f par : ptr) c : RBEntry := if dir then mkRBEntry n f par c else mkRBEntry f n par c.
Definition node dir c t x (u : tree) : tree := if dir then T c t x u else T c u x t.
Definition side dir c x (u : tree) : frame := if dir then FL c x u else FR c u x.

Lemma rotate_unfold dir elm : rotate dir elm =
  (tmp ← far dir elm; l ← near dir tmp; _ ← set_far dir elm l; _ ← if_node l (RB_SET_PARENT l elm); p ← RB_PARENT elm;
   _ ← RB_SET_PARENT tmp p; _ ← replace_child p elm tmp; _ ← set_near dir tmp elm; _ ← RB_SET_PARENT elm tmp; mret tmp).
Proof. by destruct dir. Qed.
Lemma plug_side dir c x u C t : plug (side dir c x u :: C) t = plug C (node dir c t x u).
Proof. by destruct dir. Qed.
Lemma rootp_node dir c t x u : rootp (node dir c t x u) = Some x.
Proof. by destruct dir. Qed.
Lemma rep_node h par dir c t x u : rep h par (node dir c t x u) ↔
  h !! x = Some (entry dir (rootp t) (rootp u) par c) ∧ rep h (Some x) t ∧ rep h (Some x) u.
Proof. destruct dir; cbn [node rep entry]; tauto. Qed.
Lemma elems_node dir c t x u : elems (node dir c t x u) ≡ₚ elems t ++ x :: elems u.
Proof. destruct dir; cbn [node elems]; [done|]. rewrite <- !Permutation_middle. by rewrite (Permutation_app_comm (elems u)). Qed.
(** A rotation keeps the order of the nodes. *)
Lemma elems_rotate dir c a x d b y e : elems (node dir d (node dir c a x b) y e) = elems (node dir c a x (node dir d b y e)).
Proof. destruct dir; cbn [node elems]; by rewrite <- app_assoc. Qed.

Section directed_entries.
Context {s : IntrusiveRedBlackTree} {dir : bool} {x : nat} {n f par : ptr} {c : RBColor} (Hx : m_entries s !! x = Some (entry dir n f par c)).
Lemma near_run : near dir (Some x) s = Ok (n, s).
Proof using Hx. destruct dir; [exact (RB_LEFT_run Hx)|exact (RB_RIGHT_run Hx)]. Qed.
Lemma far_run : far dir (Some x) s = Ok (f, s).
Proof using Hx. destruct dir; [exact (RB_RIGHT_run Hx)|exact (RB_LEFT_run Hx)]. Qed.
Lemma set_near_run q : set_near dir (Some x) q s = Ok (tt, upd x (entry dir q f par c) s).
Proof using Hx. destruct dir; [exact (RB_SET_LEFT_run Hx q)|exact (RB_SET_RIGHT_run Hx q)]. Qed.
Lemma set_far_run q : set_far dir (Some x) q s = Ok (tt, upd x (entry dir n q par c) s).
Proof using Hx. destruct dir; [exact (RB_SET_RIGHT_run Hx q)|exact (RB_SET_LEFT_run Hx q)]. Qed.
Lemma entry_parent_run : RB_PARENT (Some x) s = Ok (par, s).
Proof using Hx. destruct dir; exact (RB_PARENT_run Hx). Qed.
Lemma entry_color_run : RB_COLOR (Some x) s = Ok (c, s).
Proof using Hx. destruct dir; exact (RB_COLOR_run Hx). Qed.
Lemma set_parent_run q : RB_SET_PARENT (Some x) q s = Ok (tt, upd x (entry dir n f q c) s).
Proof using Hx. destruct dir; exact (RB_SET_PARENT_run Hx q). Qed.
End directed_entries.

(** ** The two links of a subtree *)

(** A subtree gets another parent. *)
Lemma reparent_run s par t q : rep (m_entries s) par t → NoDup (elems t) →
  ∃ s', if_node (rootp t) (RB_SET_PARENT (rootp t) q) s = Ok (tt, s') ∧ rep (m_entries s') q t ∧ evolves s s' ∧ m_root s' = m_root s ∧
    ∀ z, z ∉ elems t → m_entries s' !! z = m_entries s !! z.
Proof.
  destruct t as [|c l x r]; cbn [rep rootp if_node elems]; [intros _ _; exists s; split_and!; eauto with swift|].
  intros (Hx & Hl & Hr) Hnd. rewrite (RB_SET_PARENT_run Hx). eexists. split; [done|]. apply NoDup_app in Hnd as (_ & Hdl & [Hdr _]%NoDup_cons).
  split_and!; [cbn; by rewrite lookup_insert_eq| | |by eapply upd_evolves|done|].
  - eapply rep_frame; [|exact Hl]. intros z Hz. cbn. apply lookup_insert_ne. set_solver.
  - eapply rep_frame; [|exact Hr]. intros z Hz. cbn. apply lookup_insert_ne. set_solver.
  - intros z Hz. cbn. apply lookup_insert_ne. set_solver.
Qed.

(** The link to a subtree is replaced, *)
Lemma link_run s C dir c y sib q q' : rep_ctx (m_entries s) (side dir c y sib :: C) q →
  NoDup (before (side dir c y sib :: C) ++ after (side dir c y sib :: C)) →
  ∃ s', set_near dir (Some y) q' s = Ok (tt, s') ∧ rep_ctx (m_entries s') (side dir c y sib :: C) q' ∧ evolves s s' ∧ m_root s' = m_root s ∧
    ∀ z, z ∉ before (side dir c y sib :: C) ++ after (side dir c y sib :: C) → m_entries s' !! z = m_entries s !! z.
Proof.
  intros HC Hnd. assert (Hp : before (side dir c y sib :: C) ++ after (side dir c y sib :: C) ≡ₚ y :: elems sib ++ before C ++ after C).
  { destruct dir; cbn [side before after].
    - rewrite <- Permutation_middle, (Permutation_app_comm (elems sib)), app_assoc. constructor. apply Permutation_app_comm.
    - rewrite <- !app_assoc. cbn [app]. rewrite <- !Permutation_middle. constructor. by rewrite !app_assoc, (Permutation_app_comm (before C)). }
  assert (HC' : m_entries s !! y = Some (entry dir q (rootp sib) (cparent C) c) ∧ rep (m_entries s) (Some y) sib ∧ rep_ctx (m_entries s) C (Some y))
    by (by destruct dir). destruct HC' as (Hy & Hsib & HC'). rewrite (set_near_run Hy). eexists. split; [done|].
  rewrite Hp in Hnd. apply NoDup_cons in Hnd as [Hy' Hnd]. rewrite elem_of_app in Hy'.
  assert (Hrep : m_entries (upd y (entry dir q' (rootp sib) (cparent C) c) s) !! y = Some (entry dir q' (rootp sib) (cparent C) c) ∧
    rep (m_entries (upd y (entry dir q' (rootp sib) (cparent C) c) s)) (Some y) sib ∧
    rep_ctx (m_entries (upd y (entry dir q' (rootp sib) (cparent C) c) s)) C (Some y)).
  { split_and!; [exact (lookup_insert_eq _ _ _)| |].
    - eapply rep_frame; [|exact Hsib]. intros z Hz. cbn. apply lookup_insert_ne. set_solver.
    - eapply rep_ctx_frame; [|exact HC']. intros z Hz. cbn. apply lookup_insert_ne. set_solver. }
  split_and!; [by destruct dir|by eapply upd_evolves|done|]. intros z Hz. rewrite Hp in Hz. cbn. apply lookup_insert_ne. set_solver.
Qed.
(** which is in the parent, or the root. *)
Lemma relink_run s C x q : rep_ctx (m_entries s) C (Some x) → NoDup (before C ++ after C) → x ∉ before C ++ after C →
  ∃ s', replace_child (cparent C) (Some x) q s = Ok (tt, s') ∧ rep_ctx (m_entries s') C q ∧ evolves s s' ∧
    m_root s' = (if cparent C then m_root s else q) ∧
    ∀ z, z ∉ before C ++ after C → m_entries s' !! z = m_entries s !! z.
Proof.
  destruct C as [|[c y r|c l y] C].
  { intros _ _ _. eexists. split; [done|]. by split_and!. }
  - intros HC Hnd Hx. destruct (link_run s C true c y r _ q HC Hnd) as (s' & R & HC' & E1 & R1 & F1).
    exists s'. split_and!; [|done..]. cbn [cparent replace_child frame_node]. destruct HC as (Hy & _).
    erewrite st_bind_run by apply (RB_LEFT_run Hy). cbn [m_rbe_left]. by rewrite bool_decide_eq_true_2.
  - intros HC Hnd Hx. destruct (link_run s C false c y l _ q HC Hnd) as (s' & R & HC' & E1 & R1 & F1).
    exists s'. split_and!; [|done..]. cbn [cparent replace_child frame_node]. destruct HC as (Hy & _).
    erewrite st_bind_run by apply (RB_LEFT_run Hy). cbn [m_rbe_left]. rewrite bool_decide_eq_false_2; [done|].
    cbn [before after] in Hx. destruct l; [done|]. intros [= ->]. set_solver.
Qed.

(** ** Positions *)
Lemma represents_nodup s C t : represents s (plug C t) →
  NoDup (before C ++ after C) ∧ NoDup (elems t) ∧ ∀ z, z ∈ elems t → z ∉ before C ++ after C.
Proof.
  intros [_ _ H]. rewrite elems_plug in H. apply NoDup_app in H as (Hb & Hd1 & [Ht [Hd2 Ha]]%NoDup_app).
  split_and!; [apply NoDup_app; split_and!; [done|set_solver|done]|done|set_solver].
Qed.
Lemma node_entry {s C c l x r} : represents s (plug C (T c l x r)) →
  m_entries s !! x = Some (mkRBEntry (rootp l) (rootp r) (cparent C) c).
Proof. intros [_ H _]. apply rep_plug in H as [_ H]. apply H. Qed.
Lemma root_plug C t t' : (C = [] → rootp t = rootp t') → rootp (plug C t) = rootp (plug C t').
Proof. revert t t'. induction C as [|[c x r|c l x] C IH]; intros t t' H; cbn [plug]; [by apply H|apply IH; done..]. Qed.

(** A representation from its parts. *)
Lemma represents_intro s C t : m_root s = rootp (plug C t) → rep_ctx (m_entries s) C (rootp t) → rep (m_entries s) (cparent C) t →
  NoDup (elems (plug C t)) → represents s (plug C t).
Proof. intros H1 H2 H3 H4. split; [done|by apply rep_plug|done]. Qed.

Lemma set_color_run s C c l x r d : represents s (plug C (T c l x r)) →
  ∃ s', RB_SET_COLOR (Some x) d s = Ok (tt, s') ∧ represents s' (plug C (T d l x r)) ∧ evolves s s'.
Proof.
  intros Hs. pose proof (node_entry Hs) as Hx. rewrite (RB_SET_COLOR_run Hx). eexists. split; [done|]. split; [|by eapply upd_evolves].
  destruct (represents_nodup _ _ _ Hs) as (_ & Ht & Hd). destruct Hs as [Hr Hrep Hnd]. apply rep_plug in Hrep as (HC & _ & Hl & Hr').
  cbn [elems] in Ht, Hd. apply NoDup_app in Ht as (_ & Hdl & [Hdr _]%NoDup_cons).
  apply represents_intro; [|eapply rep_ctx_frame; [|exact HC]; intros z Hz; cbn; apply lookup_insert_ne; set_solver| |].
  - cbn [m_root upd]. rewrite Hr. by apply root_plug.
  - split_and!; [cbn; by rewrite lookup_insert_eq| |].
    + eapply rep_frame; [|exact Hl]. intros z Hz. cbn. apply lookup_insert_ne. set_solver.
    + eapply rep_frame; [|exact Hr']. intros z Hz. cbn. apply lookup_insert_ne. set_solver.
  - rewrite elems_plug in *. exact Hnd.
Qed.

Lemma same_elems_nodup C t t' : elems t' = elems t → NoDup (elems (plug C t)) → NoDup (elems (plug C t')).
Proof. intros E. by rewrite !elems_plug, E. Qed.

(** ** Rotations *)

(** The parts of a rotation are apart. *)
Lemma rotation_parts dir C c a x d b y e : NoDup (elems (plug C (node dir c a x (node dir d b y e)))) →
  (x ≠ y ∧ x ∉ elems b ∧ y ∉ elems b ∧ x ∉ before C ++ after C ∧ y ∉ before C ++ after C) ∧
  (∀ z, z ∈ elems a ∨ z ∈ elems e → x ≠ z ∧ y ≠ z ∧ z ∉ elems b ∧ z ∉ before C ++ after C) ∧
  (∀ z, z ∈ elems b → x ≠ z ∧ y ≠ z ∧ z ∉ before C ++ after C) ∧
  (∀ z, z ∈ before C ++ after C → x ≠ z ∧ y ≠ z ∧ z ∉ elems b) ∧ NoDup (elems b).
Proof.
  rewrite elems_plug, !elems_node. set (F := before C ++ after C). intros H.
  assert (H' : NoDup (F ++ elems a ++ x :: elems b ++ y :: elems e)).
  { unfold F. rewrite <- app_assoc. rewrite (Permutation_app_comm (after C)). exact H. }
  clear H. apply NoDup_app in H' as (_ & HF & [_ [Hda [Hdx [HB [Hdb [Hde _]%NoDup_cons]]%NoDup_app]%NoDup_cons]]%NoDup_app).
  clearbody F. split_and!; [set_solver..| | | |done].
  - intros z [Hz|Hz]; (split_and!; [set_solver..|]); intros Hz'; destruct (HF z Hz'); set_solver.
  - intros z Hz; (split_and!; [set_solver..|]); intros Hz'; destruct (HF z Hz'); set_solver.
  - intros z Hz. specialize (HF z Hz). set_solver.
Qed.

Ltac frame_step :=
  repeat match goal with
  | H : m_entries ?s !! ?z = _ |- m_entries ?s !! ?z = _ => exact H
  | |- context [m_entries (upd _ _ _) !! _] => unfold upd; cbn [m_entries]
  | |- <[?k := _]> _ !! ?z = _ => rewrite (lookup_insert_ne _ k z) by congruence
  | F : ∀ z, z ∉ _ → m_entries ?s' !! z = m_entries _ !! z |- m_entries ?s' !! _ = _ => rewrite F by tauto
  end; try done.

Lemma rotate_run s dir C c a x d b y e : represents s (plug C (node dir c a x (node dir d b y e))) →
  ∃ s', rotate dir (Some x) s = Ok (Some y, s') ∧ represents s' (plug C (node dir d (node dir c a x b) y e)) ∧ evolves s s'.
Proof.
  intros Hs. destruct (represents_nodup _ _ _ Hs) as (HndC & _ & _). destruct Hs as [Hroot Hrep Hnd].
  destruct (rotation_parts _ _ _ _ _ _ _ _ _ Hnd) as ((Hxy & Hxb & Hyb & HxC & HyC) & Pae & Pb & PC & HndB).
  apply rep_plug in Hrep as (HC & (Hx & Ha & (Hy & Hb & He)%rep_node)%rep_node). rewrite rootp_node in HC, Hx. rewrite rotate_unfold.
  erewrite st_bind_run by apply (far_run Hx). erewrite st_bind_run by apply (near_run Hy). erewrite st_bind_run by apply (set_far_run Hx).
  set (s1 := upd x _ s). assert (E1 : evolves s s1) by by eapply upd_evolves.
  destruct (reparent_run s1 (Some y) b (Some x)) as (s2 & Hrun2 & Hb2 & E2 & R2 & F2); [|done|].
  { eapply rep_frame; [|exact Hb]. intros z Hz. destruct (Pb z Hz) as (? & ? & ?). subst s1. frame_step. }
  erewrite st_bind_run by exact Hrun2.
  assert (Hx2 : m_entries s2 !! x = Some (entry dir (rootp a) (rootp b) (cparent C) c)) by (rewrite F2 by done; apply lookup_insert_eq).
  assert (Hy2 : m_entries s2 !! y = Some (entry dir (rootp b) (rootp e) (Some x) d)) by (rewrite F2 by done; subst s1; frame_step).
  erewrite st_bind_run by apply (entry_parent_run Hx2). erewrite st_bind_run by apply (set_parent_run Hy2).
  set (s3 := upd y _ s2). assert (E3 : evolves s2 s3) by by eapply upd_evolves.
  destruct (relink_run s3 C x (Some y)) as (s4 & Hrun4 & HC4 & E4 & R4 & F4); [|done|done|].
  { eapply rep_ctx_frame; [|exact HC]. intros z Hz. destruct (PC z Hz) as (? & ? & ?). subst s3 s1. frame_step. }
  erewrite st_bind_run by exact Hrun4.
  assert (Hy4 : m_entries s4 !! y = Some (entry dir (rootp b) (rootp e) (cparent C) d)) by (rewrite F4 by done; apply lookup_insert_eq).
  erewrite st_bind_run by apply (set_near_run Hy4). set (s5 := upd y _ s4). assert (E5 : evolves s4 s5) by by eapply upd_evolves.
  assert (Hx5 : m_entries s5 !! x = Some (entry dir (rootp a) (rootp b) (cparent C) c)) by (subst s5 s3; frame_step).
  erewrite st_bind_run by apply (set_parent_run Hx5). set (s6 := upd x _ s5). assert (E6 : evolves s5 s6) by by eapply upd_evolves.
  exists s6. split; [done|]. split; [|by do 5 (eapply evolves_trans; [eassumption|])].
  apply represents_intro; [| | |].
  - cbn [m_root upd s6 s5]. rewrite R4. cbn [m_root upd s3]. rewrite R2. cbn [m_root upd s1]. rewrite Hroot.
    destruct C; [cbn [plug cparent]; by rewrite rootp_node|]. by apply root_plug.
  - rewrite rootp_node. eapply rep_ctx_frame; [|exact HC4]. intros z Hz. destruct (PC z Hz) as (? & ? & ?). subst s6 s5. frame_step.
  - apply rep_node. rewrite rep_node, rootp_node.
    split_and!; [subst s6; unfold upd; cbn [m_entries]; rewrite lookup_insert_ne by done; apply lookup_insert_eq|exact (lookup_insert_eq _ _ _)| | |].
    + eapply rep_frame; [|exact Ha]. intros z Hz. destruct (Pae z (or_introl Hz)) as (? & ? & ? & ?). subst s6 s5 s3 s1. frame_step.
    + eapply rep_frame; [|exact Hb2]. intros z Hz. destruct (Pb z Hz) as (? & ? & ?). subst s6 s5 s3. clear F2. frame_step.
    + eapply rep_frame; [|exact He]. intros z Hz. destruct (Pae z (or_intror Hz)) as (? & ? & ? & ?). subst s6 s5 s3 s1. frame_step.
  - eapply same_elems_nodup; [|exact Hnd]. apply elems_rotate.
Qed.
