(* ===== verification/RBTreeBalance.v ===== *)
(** * The colours of red-black trees

    A red-black tree has the same number of black nodes on every path, and no red
    node has a red child.  The loops after an insertion and a removal are shown to
    restore this from the violation that they start with, and to keep the order of
    the nodes; neither runs into a null pointer. *)

From S2P Require Import Prelude RBTree RBTreeSpec.
Import RBTree.
Implicit Types (s : IntrusiveRedBlackTree) (par elm : ptr) (x y z p g q n m fuel : nat) (c d k : RBColor) (t l r u a b w sib : tree) (C : list frame) (dir e : bool).

(** ** The invariant *)
Definition color t : RBColor := match t with E => RB_BLACK | T c _ _ _ => c end.
(** [n] black nodes on every path. *)
Fixpoint rbt t n : Prop :=
  match t with
  | E => n = O
  | T RB_RED l _ r => (color l = RB_BLACK ∧ color r = RB_BLACK) ∧ rbt l n ∧ rbt r n
  | T RB_BLACK l _ r => match n with O => False | S m => rbt l m ∧ rbt r m end
  end.
Definition grow c n : nat := match c with RB_BLACK => S n | RB_RED => n end.
(** A context that takes a tree of height [n] whose root has the colour [c]. *)
Fixpoint rbc C n c : Prop :=
  match C with
  | [] => c = RB_BLACK
  | f :: C' => rbt (frame_sibling f) n ∧ (frame_color f = RB_RED → c = RB_BLACK ∧ color (frame_sibling f) = RB_BLACK) ∧
      rbc C' (grow (frame_color f) n) (frame_color f)
  end.
Definition rb t : Prop := (∃ n, rbt t n) ∧ color t = RB_BLACK.

Lemma rbt_T c l x r n : rbt (T c l x r) (grow c n) ↔ (c = RB_RED → color l = RB_BLACK ∧ color r = RB_BLACK) ∧ rbt l n ∧ rbt r n.
Proof. destruct c; cbn; naive_solver. Qed.
Lemma rbt_inv c l x r n : rbt (T c l x r) n → ∃ m, n = grow c m.
Proof. destruct c, n; cbn; try done; eauto. Qed.
Lemma rb_plug C t : rb (plug C t) ↔ ∃ n, rbt t n ∧ rbc C n (color t).
Proof.
  revert t. induction C as [|f C IH]; intros t; [unfold rb; cbn; naive_solver|].
  trans (∃ n, (frame_color f = RB_RED → color t = RB_BLACK ∧ color (frame_sibling f) = RB_BLACK) ∧ rbt t n ∧ rbt (frame_sibling f) n ∧
    rbc C (grow (frame_color f) n) (frame_color f)); [|cbn [rbc]; naive_solver].
  destruct f as [c x r|c l x]; cbn [plug frame_color frame_sibling]; rewrite IH; cbn [color]; split.
  all: try (intros (n & Hn & HC); destruct (rbt_inv _ _ _ _ _ Hn) as [m ->]; apply rbt_T in Hn; exists m; naive_solver).
  all: intros (n & Hc & H1 & H2 & HC); exists (grow c n); split; [apply rbt_T; naive_solver|done].
Qed.
Lemma rbc_black C n c : rbc C n c → rbc C n RB_BLACK.
Proof. destruct C; cbn; naive_solver. Qed.

(** With directions. *)
Lemma color_node dir c t x u : color (node dir c t x u) = c.
Proof. by destruct dir. Qed.
Lemma rbt_node dir c t x u n : rbt (node dir c t x u) (grow c n) ↔ (c = RB_RED → color t = RB_BLACK ∧ color u = RB_BLACK) ∧ rbt t n ∧ rbt u n.
Proof. destruct dir; cbn [node]; rewrite rbt_T; tauto. Qed.
Lemma rbc_side dir c x u C n d : rbc (side dir c x u :: C) n d ↔
  rbt u n ∧ (c = RB_RED → d = RB_BLACK ∧ color u = RB_BLACK) ∧ rbc C (grow c n) c.
Proof. by destruct dir. Qed.
Lemma node_of dir t x : rootp t = Some x → ∃ a b, t = node dir (color t) a x b.
Proof. destruct t as [|c l y r]; [done|]. intros [= ->]. destruct dir; [by exists l, r|by exists r, l]. Qed.
Lemma frame_of f : ∃ dir, f = side dir (frame_color f) (frame_node f) (frame_sibling f).
Proof. destruct f; [by exists true|by exists false]. Qed.
Lemma node_flip dir c t x u : node (negb dir) c t x u = node dir c u x t.
Proof. by destruct dir. Qed.
Lemma rbt_red_root dir t n : color t = RB_RED → rbt t n → ∃ a x b, t = node dir RB_RED a x b ∧ color a = RB_BLACK ∧ color b = RB_BLACK ∧ rbt a n ∧ rbt b n.
Proof.
  destruct t as [|c l x r]; [done|]. cbn [color]. intros -> [[? ?] [? ?]]. destruct dir; [by exists l, x, r|by exists r, x, l].
Qed.
Lemma rbt_black_root dir t n : color t = RB_BLACK → rbt t (S n) → ∃ a x b, t = node dir RB_BLACK a x b ∧ rbt a n ∧ rbt b n.
Proof. destruct t as [|c l x r]; [done|]. cbn [color]. intros -> [? ?]. destruct dir; [by exists l, x, r|by exists r, x, l]. Qed.

(** ** Steps at a position *)
Lemma node_at {s C dir c t x u} : represents s (plug C (node dir c t x u)) → m_entries s !! x = Some (entry dir (rootp t) (rootp u) (cparent C) c).
Proof. destruct dir; apply node_entry. Qed.
Lemma child_at {s C t x} : represents s (plug C t) → rootp t = Some x → RB_PARENT (Some x) s = Ok (cparent C, s).
Proof. intros Hs Hx. destruct t; [done|]. injection Hx as ->. apply (RB_PARENT_run (node_entry Hs)). Qed.
Lemma null_or_black_run s C t : represents s (plug C t) → null_or_black (rootp t) s = Ok (bool_decide (color t = RB_BLACK), s).
Proof.
  intros Hs. destruct t as [|c l x r]; cbn [rootp null_or_black color]; [by rewrite bool_decide_eq_true_2|].
  unfold RB_IS_BLACK. by erewrite st_bind_run by apply (RB_COLOR_run (node_entry Hs)).
Qed.
Lemma red_node_run s C t : represents s (plug C t) → red_node (rootp t) s = Ok (bool_decide (color t = RB_RED), s).
Proof.
  intros Hs. destruct t as [|c l x r]; cbn [rootp red_node color]; [by rewrite bool_decide_eq_false_2|].
  unfold RB_IS_RED. by erewrite st_bind_run by apply (RB_COLOR_run (node_entry Hs)).
Qed.

Lemma rootp_elem t x : rootp t = Some x → x ∈ elems t.
Proof. destruct t; [done|]. intros [= ->]. cbn. set_solver. Qed.
Lemma children_distinct s C dir c t x u : represents s (plug C (node dir c t x u)) → rootp t ≠ None → rootp t ≠ rootp u.
Proof.
  intros Hs Hne Heq. destruct (represents_nodup _ _ _ Hs) as (_ & Hnd & _). rewrite elems_node in Hnd.
  destruct (rootp t) as [y|] eqn:Ey; [|done]. apply rootp_elem in Ey. symmetry in Heq. apply rootp_elem in Heq.
  apply NoDup_app in Hnd as (_ & Hd & _). apply (Hd y Ey). by right.
Qed.

Lemma set_color_node s C dir c t x u d : represents s (plug C (node dir c t x u)) →
  ∃ s', RB_SET_COLOR (Some x) d s = Ok (tt, s') ∧ represents s' (plug C (node dir d t x u)) ∧ evolves s s'.
Proof. destruct dir; apply set_color_run. Qed.
Lemma set_color_near s C dir c e k a y b x u d : represents s (plug C (node dir c (node e k a y b) x u)) →
  ∃ s', RB_SET_COLOR (Some y) d s = Ok (tt, s') ∧ represents s' (plug C (node dir c (node e d a y b) x u)) ∧ evolves s s'.
Proof.
  intros Hs. rewrite <- plug_side in Hs. destruct (set_color_node _ _ _ _ _ _ _ d Hs) as (s' & H1 & H2 & H3). rewrite plug_side in H2. by exists s'.
Qed.
Lemma set_color_far s C dir c e k a y b x u d : represents s (plug C (node dir c u x (node e k a y b))) →
  ∃ s', RB_SET_COLOR (Some y) d s = Ok (tt, s') ∧ represents s' (plug C (node dir c u x (node e d a y b))) ∧ evolves s s'.
Proof. rewrite <- !(node_flip dir _ _ x). apply set_color_near. Qed.
Lemma rotate_near s C dir c e k a y d b z u x w : represents s (plug C (node dir c (node e k a y (node e d b z u)) x w)) →
  ∃ s', rotate e (Some y) s = Ok (Some z, s') ∧ represents s' (plug C (node dir c (node e d (node e k a y b) z u) x w)) ∧ evolves s s'.
Proof.
  intros Hs. rewrite <- plug_side in Hs. destruct (rotate_run _ _ _ _ _ _ _ _ _ _ Hs) as (s' & H1 & H2 & H3). rewrite plug_side in H2. by exists s'.
Qed.
Lemma rotate_far s C dir c e k a y d b z u x w : represents s (plug C (node dir c w x (node e k a y (node e d b z u)))) →
  ∃ s', rotate e (Some y) s = Ok (Some z, s') ∧ represents s' (plug C (node dir c w x (node e d (node e k a y b) z u))) ∧ evolves s s'.
Proof. rewrite <- !(node_flip dir _ _ x). apply rotate_near. Qed.

(** ** After an insertion *)
Definition insert_step dir (elm parent gparent : ptr) : M ptr :=
  tmp ← far dir gparent;
  red ← red_node tmp;
  if red : bool then
    _ ← RB_SET_COLOR tmp RB_BLACK; _ ← RB_SET_BLACKRED parent gparent; mret gparent
  else
    r ← far dir parent;
    '(parent, elm) ← (if bool_decide (r = elm) then _ ← rotate dir parent; mret (elm, parent) else mret (parent, elm));
    _ ← RB_SET_BLACKRED parent gparent; _ ← rotate (negb dir) gparent; mret elm.

(** Recolouring both children of the grandparent. *)
Lemma insert_step_uncle s C dir e p sib g a v b t elm : represents s (plug C (node dir RB_BLACK (node e RB_RED t p sib) g (node dir RB_RED a v b))) →
  ∃ s', insert_step dir elm (Some p) (Some g) s = Ok (Some g, s') ∧ evolves s s' ∧
    represents s' (plug C (node dir RB_RED (node e RB_BLACK t p sib) g (node dir RB_BLACK a v b))).
Proof.
  intros Hs. unfold insert_step. erewrite st_bind_run by apply (far_run (node_at Hs)).
  assert (Hs' := Hs). rewrite <- (node_flip dir _ _ g), <- plug_side in Hs'. erewrite st_bind_run by apply (red_node_run _ _ _ Hs').
  rewrite color_node, bool_decide_eq_true_2, rootp_node by done. clear Hs'.
  destruct (set_color_far _ _ _ _ _ _ _ _ _ _ _ RB_BLACK Hs) as (s1 & R1 & Hs1 & E1). erewrite st_bind_run by exact R1.
  destruct (set_color_near _ _ _ _ _ _ _ _ _ _ _ RB_BLACK Hs1) as (s2 & R2 & Hs2 & E2).
  destruct (set_color_node _ _ _ _ _ _ _ RB_RED Hs2) as (s3 & R3 & Hs3 & E3).
  erewrite st_bind_run by (unfold RB_SET_BLACKRED; erewrite st_bind_run by exact R2; exact R3).
  exists s3. split; [done|]. split; [|done]. by do 2 (eapply evolves_trans; [eassumption|]).
Qed.

(** The end of the other case: the grandparent is rotated away. *)
Lemma insert_step_rotate s C dir e p t sib g u : represents s (plug C (node dir RB_BLACK (node e RB_RED t p sib) g u)) → e = dir →
  ∃ s', (_ ← RB_SET_BLACKRED (Some p) (Some g); rotate (negb dir) (Some g)) s = Ok (Some p, s') ∧ evolves s s' ∧
    represents s' (plug C (node dir RB_BLACK t p (node dir RB_RED sib g u))).
Proof.
  intros Hs ->. destruct (set_color_near _ _ _ _ _ _ _ _ _ _ _ RB_BLACK Hs) as (s2 & R2 & Hs2 & E2).
  destruct (set_color_node _ _ _ _ _ _ _ RB_RED Hs2) as (s3 & R3 & Hs3 & E3).
  erewrite st_bind_run by (unfold RB_SET_BLACKRED; erewrite st_bind_run by exact R2; exact R3).
  rewrite <- !(node_flip dir) in Hs3. destruct (rotate_run _ _ _ _ _ _ _ _ _ _ Hs3) as (s4 & R4 & Hs4 & E4). rewrite !node_flip in Hs4.
  exists s4. split; [done|]. split; [|done]. by do 2 (eapply evolves_trans; [eassumption|]).
Qed.

(** A black uncle: the result is black at the top, and the next round has a black parent. *)
Lemma insert_step_black s C dir e p sib g u a x b : represents s (plug C (node dir RB_BLACK (node e RB_RED (node dir RB_RED a x b) p sib) g u)) →
  color u = RB_BLACK →
  ∃ s' y t1 t2 q, insert_step dir (Some x) (Some p) (Some g) s = Ok (Some y, s') ∧ evolves s s' ∧
    represents s' (plug C (node dir RB_BLACK t1 q t2)) ∧ rootp t1 = Some y ∧
    elems (node dir RB_BLACK t1 q t2) = elems (node dir RB_BLACK (node e RB_RED (node dir RB_RED a x b) p sib) g u) ∧
    (∀ n, color a = RB_BLACK → color b = RB_BLACK → color sib = RB_BLACK → rbt a n → rbt b n → rbt sib n → rbt u n → rbt t1 n ∧ rbt t2 n).
Proof.
  intros Hs Hu. unfold insert_step. erewrite st_bind_run by apply (far_run (node_at Hs)).
  assert (Hs' := Hs). rewrite <- (node_flip dir _ _ g), <- plug_side in Hs'. erewrite st_bind_run by apply (red_node_run _ _ _ Hs').
  rewrite Hu, bool_decide_eq_false_2 by done. clear Hs'. assert (Hp := Hs). rewrite <- plug_side in Hp.
  destruct (decide (e = dir)) as [->|Hne].
  - erewrite st_bind_run by apply (far_run (node_at Hp)). rewrite bool_decide_eq_false_2.
    2:{ rewrite <- (rootp_node dir RB_RED a x b). apply not_eq_sym. eapply children_distinct; [exact Hp|]. by rewrite rootp_node. }
    erewrite st_bind_run by reflexivity. cbv beta iota.
    destruct (insert_step_rotate _ _ _ _ _ _ _ _ _ Hs eq_refl) as (s1 & R1 & E1 & Hs1).
    exists s1, x, (node dir RB_RED a x b), (node dir RB_RED sib g u), p. split_and!; [|done|done|apply rootp_node| |].
    + apply st_bind_Ok in R1 as (? & s2 & R2 & R3). erewrite st_bind_run by exact R2. by erewrite st_bind_run by exact R3.
    + destruct dir; cbn [node elems]; by rewrite <- !app_assoc.
    + intros n Ha Hb Hc Ra Rb Rc Ru. change n with (grow RB_RED n). by rewrite !rbt_node.
  - assert (He : e = negb dir) by (destruct e, dir; done). subst e. rewrite node_flip in Hs, Hp. 
    erewrite st_bind_run by apply (far_run (node_at Hp)). rewrite rootp_node, bool_decide_eq_true_2 by done.
    destruct (rotate_near _ _ _ _ _ _ _ _ _ _ _ _ _ _ Hs) as (s1 & R1 & Hs1 & E1).
    erewrite st_bind_run by (erewrite st_bind_run by exact R1; done). cbv beta iota.
    destruct (insert_step_rotate _ _ _ _ _ _ _ _ _ Hs1 eq_refl) as (s2 & R2 & E2 & Hs2).
    exists s2, p, (node dir RB_RED sib p a), (node dir RB_RED b g u), x. split_and!; [|by eapply evolves_trans|done|apply rootp_node| |].
    + apply st_bind_Ok in R2 as (? & s3 & R2 & R3). erewrite st_bind_run by exact R2. by erewrite st_bind_run by exact R3.
    + destruct dir; cbn [node elems negb]; by repeat (rewrite <- app_assoc; cbn [app]).
    + intros n Ha Hb Hc Ra Rb Rc Ru. change n with (grow RB_RED n). by rewrite !rbt_node.
Qed.

(** The loop ends where the parent is black, or at the root. *)
Lemma insert_loop_stop s C t x fuel : represents s (plug C t) → rootp t = Some x →
  (∀ f C', C = f :: C' → frame_color f = RB_BLACK) → insert_color_loop fuel (Some x) s = Ok (tt, s).
Proof.
  intros Hs Hx Hf. destruct fuel; cbn [insert_color_loop]; erewrite st_bind_run by apply (child_at Hs Hx).
  all: destruct C as [|f C]; cbn [cparent]; [done|]; destruct (frame_of f) as [dir Ef]; specialize (Hf f C eq_refl).
  all: rewrite Ef, plug_side in Hs; rewrite <- (rootp_node dir (frame_color f) t (frame_node f) (frame_sibling f)).
  all: erewrite st_bind_run by apply (red_node_run _ _ _ Hs); rewrite color_node, Hf, bool_decide_eq_false_2 by done; done.
Qed.

(** The side on which the parent is. *)
Lemma insert_side s C dir e c d p t sib g u elm : represents s (plug C (node dir c (node e d t p sib) g u)) →
  (l ← RB_LEFT (Some g); if bool_decide (Some p = l) then insert_color_left elm (Some p) (Some g) else insert_color_right elm (Some p) (Some g)) s =
    insert_step dir elm (Some p) (Some g) s.
Proof.
  intros Hs. pose proof (children_distinct _ _ _ _ _ _ _ Hs) as Hne. rewrite rootp_node in Hne. specialize (Hne ltac:(done)).
  pose proof (node_at Hs) as Hg. rewrite rootp_node in Hg. destruct dir; erewrite st_bind_run by apply (RB_LEFT_run Hg); cbn [entry m_rbe_left].
  - by rewrite bool_decide_eq_true_2.
  - by rewrite bool_decide_eq_false_2.
Qed.

Lemma insert_loop_run fuel s C t x n : represents s (plug C t) → rootp t = Some x → color t = RB_RED → rbt t n → rbc C n RB_BLACK → (length C ≤ fuel)%nat →
  ∃ s' t' n', insert_color_loop fuel (Some x) s = Ok (tt, s') ∧ evolves s s' ∧ represents s' t' ∧ elems t' = elems (plug C t) ∧ rbt t' n'.
Proof.
  revert s C t x n. induction fuel as [|fuel IH]; intros s C t x n Hs Hx Hred Hn HC Hlen.
  { destruct C; [|cbn in Hlen; lia]. exists s, t, n. split_and!; eauto with swift. by eapply insert_loop_stop. }
  destruct C as [|f C]; [exists s, t, n; split_and!; eauto with swift; by eapply insert_loop_stop|].
  destruct (frame_color f) eqn:Ef.
  { assert (rb (plug (f :: C) t)) as [[m Hm] _].
    { apply rb_plug. exists n. split; [done|]. rewrite Hred. destruct HC as (? & _ & ?). split_and!; [done|by rewrite Ef|done]. }
    exists s, (plug (f :: C) t), m. split_and!; eauto with swift. eapply insert_loop_stop; [exact Hs|done|]. by intros ? ? [= <- <-]. }
  destruct (frame_of f) as [e Hf]. rewrite Ef in Hf. revert Hf. generalize (frame_node f) (frame_sibling f). intros p sib ->.
  apply rbc_side in HC as (Hsib & [_ Csib]%(λ H, H eq_refl) & HC). cbn [grow] in HC.
  destruct C as [|f C]; [discriminate HC|]. destruct (frame_of f) as [dir Hf]. revert Hf.
  generalize (frame_color f) (frame_node f) (frame_sibling f). intros k g u ->.
  apply rbc_side in HC as (Hu & Cu & HC). destruct k; [|destruct (Cu eq_refl); done]. clear Cu. cbn [grow] in HC.
  assert (Hs' := Hs). rewrite !plug_side in Hs'. cbn [insert_color_loop]. erewrite st_bind_run by apply (child_at Hs Hx).
  rewrite plug_side in Hs. replace (cparent (side e RB_RED p sib :: _)) with (Some p) by by destruct e.
  assert (Hrn := red_node_run _ _ _ Hs). rewrite rootp_node, color_node, bool_decide_eq_true_2 in Hrn by done. erewrite st_bind_run by exact Hrn. cbv beta iota.
  erewrite st_bind_run by (apply (child_at Hs); apply rootp_node). replace (cparent (side dir RB_BLACK g u :: _)) with (Some g) by by destruct dir.
  rewrite !plug_side. clear Hrn Hs.
  destruct (rbt_red_root dir t n Hred Hn) as (a & x' & b & -> & Ca & Cb & Ha & Hb). rewrite rootp_node in Hx. injection Hx as ->.
  pose proof (insert_side _ _ _ _ _ _ _ _ _ _ _ (Some x) Hs') as Hside.
  assert (Hbind : ∀ y s1, insert_step dir (Some x) (Some p) (Some g) s = Ok (Some y, s1) →
    (l ← RB_LEFT (Some g); elm ← (if bool_decide (Some p = l) then insert_color_left (Some x) (Some p) (Some g) else insert_color_right (Some x) (Some p) (Some g));
     insert_color_loop fuel elm) s = insert_color_loop fuel (Some y) s1).
  { intros y s1 R. rewrite R in Hside. apply st_bind_Ok in Hside as (l & s2 & R1 & R2). erewrite st_bind_run by exact R1. by erewrite st_bind_run by exact R2. }
  destruct (color u) eqn:Ecu.
  - destruct (insert_step_black _ _ _ _ _ _ _ _ _ _ _ Hs' Ecu) as (s1 & y & t1 & t2 & q & R & E1 & Hs1 & Hy & Hel & Hrb).
    rewrite (Hbind y s1 R). destruct (Hrb n Ca Cb Csib Ha Hb Hsib Hu) as [Hr1 Hr2].
    assert (rb (plug C (node dir RB_BLACK t1 q t2))) as [[m Hm] _].
    { apply rb_plug. exists (grow RB_BLACK n). rewrite rbt_node, color_node. done. }
    exists s1, (plug C (node dir RB_BLACK t1 q t2)), m. split_and!; [|done|done|by rewrite !elems_plug, Hel|done].
    eapply (insert_loop_stop _ (side dir RB_BLACK q t2 :: C) t1); [by rewrite plug_side|done|]. intros ? ? [= <- <-]. by destruct dir.
  - destruct (rbt_red_root dir u n Ecu Hu) as (ua & v & ub & -> & Cua & Cub & Hua & Hub).
    destruct (insert_step_uncle _ _ _ _ _ _ _ _ _ _ _ (Some x) Hs') as (s1 & R & E1 & Hs1). rewrite (Hbind g s1 R).
    destruct (IH s1 C _ g (grow RB_BLACK n) Hs1) as (s2 & t' & n' & R2 & E2 & Hs2 & Hel & Hn'); [apply rootp_node|apply color_node| |done|cbn in Hlen; lia|].
    { change (grow RB_BLACK n) with (grow RB_RED (grow RB_BLACK n)). rewrite !rbt_node, !color_node. done. }
    exists s2, t', n'. split_and!; [done|by eapply evolves_trans|done| |done]. rewrite Hel, !elems_plug. destruct dir, e; done.
Qed.

Lemma RB_INSERT_COLOR_run s C x : represents s (plug C (T RB_RED E x E)) → rbc C O RB_BLACK → (length C ≤ size (m_entries s))%nat →
  ∃ s' t', RB_INSERT_COLOR (Some x) s = Ok (tt, s') ∧ evolves s s' ∧ represents s' t' ∧ elems t' = elems (plug C (T RB_RED E x E)) ∧ rb t'.
Proof.
  intros Hs HC Hlen. unfold RB_INSERT_COLOR. erewrite st_bind_run by reflexivity.
  destruct (insert_loop_run (size (m_entries s)) s C (T RB_RED E x E) x O) as (s1 & t' & n & R & E1 & Hs1 & Hel & Hn); [done..|].
  erewrite st_bind_run by exact R. erewrite st_bind_run by reflexivity. rewrite (rs_root _ _ Hs1).
  destruct t' as [|c l y r]; [rewrite elems_plug in Hel; symmetry in Hel; apply app_nil in Hel as [_ ?]; done|]. cbn [rootp].
  destruct (set_color_run s1 [] c l y r RB_BLACK Hs1) as (s2 & R2 & Hs2 & E2).
  exists s2, (T RB_BLACK l y r). split_and!; [done|by eapply evolves_trans|done|done|]. split; [|done].
  destruct (rbt_inv _ _ _ _ _ Hn) as [m ->]. exists (grow RB_BLACK m). apply rbt_T in Hn as (_ & ? & ?). by apply rbt_T.
Qed.

(** ** After a removal *)
Definition remove_final dir (parent tmp : ptr) : M (ptr + ptr * ptr) :=
  c ← RB_COLOR parent;
  _ ← RB_SET_COLOR tmp c;
  _ ← RB_SET_COLOR parent RB_BLACK;
  r ← far dir tmp;
  _ ← if_node r (RB_SET_COLOR r RB_BLACK);
  _ ← rotate dir parent;
  e ← Root;
  mret (inl e).
Definition remove_tail dir (parent tmp : ptr) : M (ptr + ptr * ptr) :=
  '(bl, br) ← children_black tmp;
  if (bl && br)%bool then
    _ ← RB_SET_COLOR tmp RB_RED;
    p ← RB_PARENT parent;
    mret (inr (p, parent))
  else
    tmp ← (if (if dir then br else bl) : bool then
             onear ← near dir tmp;
             _ ← if_node onear (RB_SET_COLOR onear RB_BLACK);
             _ ← RB_SET_COLOR tmp RB_RED;
             _ ← rotate (negb dir) tmp;
             far dir parent
           else mret tmp);
    remove_final dir parent tmp.
Definition remove_step dir (parent : ptr) : M (ptr + ptr * ptr) :=
  tmp ← far dir parent;
  red ← RB_IS_RED tmp;
  tmp ← (if red : bool then
           _ ← RB_SET_BLACKRED tmp parent;
           _ ← rotate dir parent;
           far dir parent
         else mret tmp);
  remove_tail dir parent tmp.
Lemma remove_color_step dir parent : (if dir then remove_color_left parent else remove_color_right parent) = remove_step dir parent.
Proof. by destruct dir. Qed.

Lemma children_black_run s C dir c a x b : represents s (plug C (node dir c a x b)) →
  ∃ bl br, children_black (Some x) s = Ok ((bl, br), s) ∧
    (bl && br)%bool = bool_decide (color a = RB_BLACK ∧ color b = RB_BLACK) ∧ (if dir then br else bl) = bool_decide (color b = RB_BLACK).
Proof.
  intros Hs. assert (Hl : ∃ l r, node dir c a x b = T c l x r ∧ (l = if dir then a else b) ∧ (r = if dir then b else a)) by (destruct dir; eauto).
  destruct Hl as (l & r & El & -> & ->). rewrite El in Hs. unfold children_black.
  erewrite st_bind_run by apply (RB_LEFT_run (node_entry Hs)). cbn [m_rbe_left].
  erewrite st_bind_run by (eapply (null_or_black_run s (FL c x _ :: C)); exact Hs).
  erewrite st_bind_run by apply (RB_RIGHT_run (node_entry Hs)). cbn [m_rbe_right].
  erewrite st_bind_run by (eapply (null_or_black_run s (FR c _ x :: C)); exact Hs).
  do 2 eexists. split; [done|]. destruct dir, (decide (color a = RB_BLACK)), (decide (color b = RB_BLACK)); by repeat case_bool_decide; naive_solver.
Qed.

Lemma remove_final_run s C dir c t x k a z v b y w : represents s (plug C (node dir c t x (node dir k a z (node v RB_RED b y w)))) →
  ∃ s', remove_final dir (Some x) (Some z) s = Ok (inl (m_root s'), s') ∧ evolves s s' ∧
    represents s' (plug C (node dir c (node dir RB_BLACK t x a) z (node v RB_BLACK b y w))).
Proof.
  intros Hs. unfold remove_final. erewrite st_bind_run by apply (entry_color_run (node_at Hs)).
  destruct (set_color_far _ _ _ _ _ _ _ _ _ _ _ c Hs) as (s1 & R1 & Hs1 & E1). erewrite st_bind_run by exact R1.
  destruct (set_color_node _ _ _ _ _ _ _ RB_BLACK Hs1) as (s2 & R2 & Hs2 & E2). erewrite st_bind_run by exact R2.
  assert (Hz := Hs2). rewrite <- (node_flip dir _ _ x), <- plug_side in Hz. erewrite st_bind_run by apply (far_run (node_at Hz)). rewrite rootp_node.
  destruct (set_color_far _ _ _ _ _ _ _ _ _ _ _ RB_BLACK Hz) as (s3 & R3 & Hs3 & E3). erewrite st_bind_run by exact R3.
  rewrite plug_side, node_flip in Hs3. destruct (rotate_run _ _ _ _ _ _ _ _ _ _ Hs3) as (s4 & R4 & Hs4 & E4). erewrite st_bind_run by exact R4.
  exists s4. split; [done|]. split; [|done]. by do 3 (eapply evolves_trans; [eassumption|]).
Qed.

(** A subtree that is one black node short: [n] on every path once its root is black,
    where the context takes one more. *)
Definition short t n : Prop := match t with T RB_RED l _ r => rbt l n ∧ rbt r n | _ => rbt t n end.
Definition removal_state s C t n : Prop := represents s (plug C t) ∧ short t n ∧ rbc C (S n) RB_BLACK.

(** What a round leads to: the tree is repaired, or the short subtree is higher up
    or has a red root. *)
Definition removal_next s0 (higher : list frame → Prop) s (L : list nat) (res : ptr + ptr * ptr) : Prop :=
  evolves s0 s ∧
  match res with
  | inl elm => elm = m_root s ∧ ∃ t, represents s t ∧ elems t = L ∧ rb t
  | inr (parent, elm) => ∃ C t n, removal_state s C t n ∧ parent = cparent C ∧ elm = rootp t ∧ elems (plug C t) = L ∧
      (color t = RB_RED ∨ higher C)
  end.

(** The red child of the sibling is turned to the far side. *)
Lemma remove_turn_run s C dir c t x a1 y a2 z b : represents s (plug C (node dir c t x (node dir RB_BLACK (node dir RB_RED a1 y a2) z b))) →
  ∃ s', (onear ← near dir (Some z); _ ← if_node onear (RB_SET_COLOR onear RB_BLACK); _ ← RB_SET_COLOR (Some z) RB_RED;
         _ ← rotate (negb dir) (Some z); far dir (Some x)) s = Ok (Some y, s') ∧ evolves s s' ∧
    represents s' (plug C (node dir c t x (node dir RB_BLACK a1 y (node dir RB_RED a2 z b)))).
Proof.
  intros Hs. rewrite <- (node_flip dir _ _ x), <- plug_side in Hs. erewrite st_bind_run by apply (near_run (node_at Hs)). rewrite rootp_node.
  destruct (set_color_near _ _ _ _ _ _ _ _ _ _ _ RB_BLACK Hs) as (s1 & R1 & Hs1 & E1). erewrite st_bind_run by exact R1.
  destruct (set_color_node _ _ _ _ _ _ _ RB_RED Hs1) as (s2 & R2 & Hs2 & E2). erewrite st_bind_run by exact R2.
  rewrite <- !(node_flip dir) in Hs2. destruct (rotate_run _ _ _ _ _ _ _ _ _ _ Hs2) as (s3 & R3 & Hs3 & E3). erewrite st_bind_run by exact R3.
  rewrite !(node_flip dir), plug_side, node_flip in Hs3. exists s3. split; [|split; [by do 2 (eapply evolves_trans; [eassumption|])|done]].
  rewrite (far_run (node_at Hs3)). by rewrite rootp_node.
Qed.

(** The last rotation repairs the tree. *)
Lemma remove_final_next s0 s C dir c t x k a z v b y w n L H : represents s (plug C (node dir c t x (node dir k a z (node v RB_RED b y w)))) →
  evolves s0 s → rbt t n → rbt a n → rbt b n → rbt w n → rbc C (grow c (S n)) c →
  elems (plug C (node dir c t x (node dir k a z (node v RB_RED b y w)))) = L →
  ∃ res s', remove_final dir (Some x) (Some z) s = Ok (res, s') ∧ removal_next s0 H s' L res.
Proof.
  intros Hs E0 Ht Ha Hb Hw HC <-. destruct (remove_final_run _ _ _ _ _ _ _ _ _ _ _ _ _ Hs) as (s' & R & E1 & Hs'). eexists _, s'. split; [exact R|].
  split; [by eapply evolves_trans|]. split; [done|]. eexists. split; [exact Hs'|]. split.
  - rewrite !elems_plug. destruct dir, v; cbn [node elems]; by repeat (rewrite <- app_assoc; cbn [app]).
  - apply rb_plug. exists (grow c (S n)). change (S n) with (grow RB_BLACK n). rewrite !rbt_node, !color_node. done.
Qed.

Lemma remove_tail_run s C dir c t x sib n : represents s (plug C (node dir c t x sib)) → rbt t n → color t = RB_BLACK →
  rbt sib (S n) → color sib = RB_BLACK → rbc C (grow c (S n)) c →
  ∃ res s', remove_tail dir (Some x) (rootp sib) s = Ok (res, s') ∧ removal_next s (λ C', c = RB_BLACK ∧ C' = C) s' (elems (plug C (node dir c t x sib))) res.
Proof.
  intros Hs Ht Ct Hsib Csib HC. destruct (rbt_black_root dir sib n Csib Hsib) as (a & z & b & -> & Ha & Hb). rewrite rootp_node. unfold remove_tail.
  assert (Hz := Hs). rewrite <- (node_flip dir _ _ x), <- plug_side in Hz.
  destruct (children_black_run _ _ _ _ _ _ _ Hz) as (bl & br & Rb & Eb & Ebr). erewrite st_bind_run by exact Rb. cbv beta iota. rewrite Eb, Ebr.
  destruct (decide (color a = RB_BLACK ∧ color b = RB_BLACK)) as [Hbb|Hbb];
    [rewrite (bool_decide_eq_true_2 (_ ∧ _)) by done|rewrite (bool_decide_eq_false_2 (_ ∧ _)) by done]; cbv iota.
  { destruct (set_color_far _ _ _ _ _ _ _ _ _ _ _ RB_RED Hs) as (s1 & R1 & Hs1 & E1). erewrite st_bind_run by exact R1.
    erewrite st_bind_run by apply (entry_parent_run (node_at Hs1)). eexists _, s1. split; [done|]. split; [done|].
    exists C, (node dir c t x (node dir RB_RED a z b)), (grow c n). destruct Hbb as [Cb Ca].
    assert (Hred : rbt (node dir RB_RED a z b) (grow RB_RED n)) by (by rewrite rbt_node).
    split_and!; [|done|by rewrite rootp_node|by rewrite !elems_plug; destruct dir|rewrite color_node; destruct c; auto]. split_and!; [done| |].
    - destruct c; [|by destruct dir]. assert (rbt (node dir RB_BLACK t x (node dir RB_RED a z b)) (grow RB_BLACK n)) by (by rewrite rbt_node).
      by destruct dir.
    - apply rbc_black in HC. by destruct c. }
  case_bool_decide as Hfar; cbv iota.
  - assert (Ca : color a = RB_RED) by (destruct (color a); naive_solver). destruct (rbt_red_root dir a n Ca Ha) as (a1 & y & a2 & -> & C1 & C2 & H1 & H2).
    destruct (remove_turn_run _ _ _ _ _ _ _ _ _ _ _ Hs) as (s1 & R1 & E1 & Hs1). erewrite st_bind_run by exact R1.
    eapply remove_final_next; try done. rewrite !elems_plug. destruct dir; cbn [node elems]; by repeat (rewrite <- app_assoc; cbn [app]).
  - assert (Cb : color b = RB_RED) by (destruct (color b); naive_solver). destruct (rbt_red_root dir b n Cb Hb) as (b1 & y & b2 & -> & C1 & C2 & H1 & H2).
    erewrite st_bind_run by reflexivity. by eapply remove_final_next.
Qed.

Lemma remove_step_run s C dir c t x sib n : represents s (plug C (node dir c t x sib)) → rbt t n → color t = RB_BLACK →
  rbt sib (S n) → (c = RB_RED → color sib = RB_BLACK) → rbc C (grow c (S n)) c →
  ∃ res s', remove_step dir (Some x) s = Ok (res, s') ∧ removal_next s (λ C', C' = C) s' (elems (plug C (node dir c t x sib))) res.
Proof.
  intros Hs Ht Ct Hsib Hc HC. unfold remove_step. erewrite st_bind_run by apply (far_run (node_at Hs)).
  assert (Hz := Hs). rewrite <- (node_flip dir _ _ x), <- plug_side in Hz. apply red_node_run in Hz.
  destruct sib as [|k l z r] eqn:Esib; [done|]. rewrite <- Esib in *. replace (rootp sib) with (Some z) in * by by rewrite Esib. cbn [red_node] in Hz.
  erewrite st_bind_run by exact Hz. destruct (color sib) eqn:Csib; [rewrite bool_decide_eq_false_2 by done|rewrite bool_decide_eq_true_2 by done]; cbv beta iota.
  { erewrite st_bind_run by reflexivity. replace (Some z) with (rootp sib) by by rewrite Esib.
    destruct (remove_tail_run s C dir c t x sib n) as (res & s' & R & E1 & Hn); [done..|]. exists res, s'. split; [done|]. split; [done|].
    destruct res as [elm|[parent elm]]; [done|]. naive_solver. }
  destruct c; [|by specialize (Hc eq_refl)]. destruct (rbt_red_root dir sib (S n) Csib Hsib) as (a & z' & b & Es & Ca & Cb & Ha & Hb).
  assert (z' = z) as -> by (rewrite Es in Esib; destruct dir; by injection Esib). clear Esib. subst sib. clear Csib Hc Hz.
  destruct (set_color_far _ _ _ _ _ _ _ _ _ _ _ RB_BLACK Hs) as (s1 & R1 & Hs1 & E1).
  destruct (set_color_node _ _ _ _ _ _ _ RB_RED Hs1) as (s2 & R2 & Hs2 & E2).
  destruct (rotate_run _ _ _ _ _ _ _ _ _ _ Hs2) as (s3 & R3 & Hs3 & E3). rewrite <- plug_side in Hs3.
  erewrite st_bind_run by (erewrite st_bind_run by (unfold RB_SET_BLACKRED; erewrite st_bind_run by exact R1; exact R2);
    erewrite st_bind_run by exact R3; apply (far_run (node_at Hs3))).
  destruct (remove_tail_run _ _ _ _ _ _ _ n Hs3 Ht Ct Ha Ca) as (res & s4 & R4 & E4 & Hnext); [by apply rbc_side|].
  exists res, s4. split; [done|]. split; [by do 3 (eapply evolves_trans; [eassumption|])|].
  assert (El : elems (plug (side dir RB_BLACK z b :: C) (node dir RB_RED t x a)) = elems (plug C (node dir RB_BLACK t x (node dir RB_RED a z b)))).
  { rewrite plug_side, !elems_plug, elems_rotate. by destruct dir. }
  rewrite El in Hnext. destruct res as [elm|[parent elm]]; [done|]. destruct Hnext as (C' & t' & m & Hst & Hp & He & Hel & Hor).
  exists C', t', m. split_and!; [done..|]. naive_solver.
Qed.

Definition blacken t : tree := match t with E => E | T _ l x r => T RB_BLACK l x r end.
Lemma blacken_short t n : short t n → color t = RB_RED → rbt (blacken t) (S n).
Proof. by destruct t as [|[] l x r]. Qed.
Lemma short_black t n : short t n → color t = RB_BLACK → rbt t n.
Proof. by destruct t as [|[] l x r]. Qed.

Lemma root_in_context f C t : ∃ z, rootp (plug (f :: C) t) = Some z ∧ z ∈ before (f :: C) ++ after (f :: C).
Proof.
  revert f t. induction C as [|g C IH]; intros f t; [destruct f; cbn; eexists; (split; [done|set_solver])|].
  destruct f as [c x r|c l x]; cbn [plug]; destruct (IH g (T c t x r)) as (z & Hz & Hin) || destruct (IH g (T c l x t)) as (z & Hz & Hin).
  all: exists z; split; [exact Hz|]; cbn [before after]; set_solver.
Qed.
Lemma root_is_not_inside s f C t : represents s (plug (f :: C) t) → rootp t ≠ m_root s.
Proof.
  intros Hs Heq. destruct (represents_nodup _ _ _ Hs) as (_ & _ & Hd). rewrite (rs_root _ _ Hs) in Heq.
  destruct (root_in_context f C t) as (z & Hz & Hin). rewrite Hz in Heq. by apply rootp_elem, Hd in Heq.
Qed.

(** The side on which the short subtree is. *)
Lemma remove_side s C dir c t x sib : represents s (plug C (node dir c t x sib)) → rootp sib ≠ None →
  ∀ (k : ptr + ptr * ptr → M ptr),
  (l ← RB_LEFT (Some x); next ← (if bool_decide (l = rootp t) then remove_color_left (Some x) else remove_color_right (Some x)); k next) s =
    (next ← remove_step dir (Some x); k next) s.
Proof.
  intros Hs Hne k. rewrite <- remove_color_step. rewrite <- node_flip in Hs. pose proof (children_distinct _ _ _ _ _ _ _ Hs Hne) as Hd.
  rewrite node_flip in Hs. pose proof (node_at Hs) as Hx. destruct dir; erewrite st_bind_run by apply (RB_LEFT_run Hx); cbn [entry m_rbe_left].
  - by rewrite bool_decide_eq_true_2.
  - by rewrite bool_decide_eq_false_2.
Qed.

Lemma remove_loop_run fuel s C t n : removal_state s C t n → (length C ≤ fuel)%nat →
  ∃ s' C' t', remove_color_loop fuel (cparent C) (rootp t) s = Ok (rootp t', s') ∧ evolves s s' ∧
    represents s' (plug C' t') ∧ elems (plug C' t') = elems (plug C t) ∧ rb (plug C' (blacken t')).
Proof.
  revert s C t n. induction fuel as [|fuel IH]; intros s C t n (Hs & Hsh & HC) Hlen; cbn [remove_color_loop].
  all: erewrite st_bind_run by apply (null_or_black_run _ _ _ Hs); erewrite st_bind_run by reflexivity.
  all: destruct (color t) eqn:Ct;
    [|exists s, C, t; split_and!; eauto with swift; apply rb_plug; exists (S n); split; [by apply blacken_short|destruct t; done]].
  all: pose proof (short_black _ _ Hsh Ct) as Ht; rewrite bool_decide_eq_true_2 by done; cbn [andb].
  all: destruct C as [|f C]; [rewrite bool_decide_eq_true_2 by (symmetry; apply (rs_root _ _ Hs));
    exists s, [], t; split_and!; eauto with swift; replace (blacken t) with t by (by destruct t as [|[] ? ? ?]); split; [by exists n|done]|].
  { cbn in Hlen. lia. }
  rewrite bool_decide_eq_false_2 by (by eapply root_is_not_inside). cbn [negb].
  destruct (frame_of f) as [dir Hf]. revert Hf. generalize (frame_color f) (frame_node f) (frame_sibling f). intros c x sib ->.
  apply rbc_side in HC as (Hsib & Hc & HC). rewrite plug_side in Hs. replace (cparent (side dir c x sib :: C)) with (Some x) by by destruct dir.
  erewrite (remove_side _ _ _ _ _ _ _ Hs) by by destruct sib.
  destruct (remove_step_run _ _ _ _ _ _ _ n Hs Ht Ct Hsib) as (res & s1 & R1 & E1 & Hnext); [naive_solver|done|].
  erewrite st_bind_run by exact R1. rewrite plug_side. destruct res as [elm|[parent elm]].
  { destruct Hnext as (-> & t' & Hs1 & Hel & Hrb). exists s1, [], t'. cbn [plug]. split_and!; [by rewrite (rs_root _ _ Hs1)|done|done|done|].
    by replace (blacken t') with t' by (destruct Hrb as [_ Hb]; destruct t' as [|[] ? ? ?]; done). }
  destruct Hnext as (C1 & t1 & m & Hst & -> & -> & Hel & Hor).
  destruct (decide (color t1 = RB_RED)) as [Cred|Cred].
  - destruct Hst as (Hs1 & Hsh1 & HC1). exists s1, C1, t1. split_and!; [|done|done|done|].
    + destruct fuel; cbn [remove_color_loop]; erewrite st_bind_run by apply (null_or_black_run _ _ _ Hs1); by rewrite Cred.
    + apply rb_plug. exists (S m). split; [by apply blacken_short|destruct t1; done].
  - destruct Hor as [?|Hle]; [done|]. subst C1. destruct (IH s1 C t1 m Hst) as (s2 & C2 & t2 & R2 & E2 & Hs2 & Hel2 & Hrb); [cbn in Hlen; lia|].
    exists s2, C2, t2. split_and!; [done|by eapply evolves_trans|done|by rewrite Hel2|done].
Qed.

Lemma RB_REMOVE_COLOR_run s C t n : removal_state s C t n → (length C ≤ size (m_entries s))%nat →
  ∃ s' t', RB_REMOVE_COLOR (cparent C) (rootp t) s = Ok (tt, s') ∧ evolves s s' ∧ represents s' t' ∧ elems t' = elems (plug C t) ∧ rb t'.
Proof.
  intros Hst Hlen. unfold RB_REMOVE_COLOR. erewrite st_bind_run by reflexivity.
  destruct (remove_loop_run _ _ _ _ _ Hst Hlen) as (s1 & C' & t' & R & E1 & Hs1 & Hel & Hrb). erewrite st_bind_run by exact R.
  destruct t' as [|c l x r]; cbn [rootp if_node]; [by exists s1, (plug C' E)|].
  destruct (set_color_run s1 C' c l x r RB_BLACK Hs1) as (s2 & R2 & Hs2 & E2).
  exists s2, (plug C' (T RB_BLACK l x r)). split_and!; [done|by eapply evolves_trans|done| |done]. rewrite <- Hel, !elems_plug. done.
Qed.
