(* ===== verification/RBTreeOps.v ===== *)
(** * Insertion, removal, search and walks in red-black trees

    The tree is the sequence of its nodes in order.  A search splits it at the node
    that it looks for; insertion and removal change it there; the walks follow it.
    The height is at most twice the logarithm of the size, so searches are short. *)

From stdpp Require Import sorting.
From S2P Require Import Prelude RBTree RBTreeSpec RBTreeBalance.
Import RBTree.
Implicit Types (s : IntrusiveRedBlackTree) (par elm : ptr) (x y z p g q n m fuel : nat) (c d k : RBColor) (t l r u a b w sib : tree) (C D : list frame) (dir e : bool).
Implicit Types (cmp : nat → Z) (L : list nat).

(** ** The number of nodes *)
Lemma rep_dom h par t z : rep h par t → z ∈ elems t → z ∈ dom h.
Proof.
  revert par. induction t as [|c l IHl x r IHr]; intros par; cbn [rep elems]; [by intros _ ?%not_elem_of_nil|].
  intros (H & Hl & Hr) [Hz|[->|Hz]%elem_of_cons]%elem_of_app; [by eapply IHl|by eapply elem_of_dom_2|by eapply IHr].
Qed.
Lemma length_elems_size s t : represents s t → (length (elems t) ≤ size (m_entries s))%nat.
Proof.
  intros [_ Hrep Hnd]. rewrite <- size_dom. rewrite <- (size_list_to_set (C := gset nat) (elems t)) by done.
  apply subseteq_size. intros z Hz%elem_of_list_to_set. by eapply rep_dom.
Qed.
Lemma length_ctx_size s C t : represents s (plug C t) → (length C + length (elems t) ≤ size (m_entries s))%nat.
Proof.
  intros Hs. etransitivity; [|by apply length_elems_size]. clear Hs. rewrite elems_plug, !length_app.
  assert (length C ≤ length (before C) + length (after C))%nat; [|lia].
  induction C as [|[c x r|c l x] C IH]; cbn [before after length]; rewrite ?length_app; cbn; lia.
Qed.

(** ** Height *)
Fixpoint height t : nat := match t with E => O | T _ l _ r => S (height l `max` height r) end.
Lemma height_elems t : (height t ≤ length (elems t))%nat.
Proof. induction t as [|c l IHl x r IHr]; cbn; [done|]. rewrite length_app. cbn. lia. Qed.
Lemma rbt_size t n : rbt t n → 2 ^ Z.of_nat n ≤ Z.of_nat (length (elems t)) + 1.
Proof.
  revert n. induction t as [|[] l IHl x r IHr]; intros n; cbn [rbt elems]; [intros ->; done| |].
  - destruct n as [|n]; [done|]. intros [Hl Hr]. specialize (IHl _ Hl). specialize (IHr _ Hr). rewrite length_app. cbn [length].
    rewrite Nat2Z.inj_succ, Z.pow_succ_r by lia. lia.
  - intros (_ & Hl & Hr). specialize (IHl _ Hl). rewrite length_app. cbn [length]. lia.
Qed.
Lemma rbt_height t n : rbt t n → (height t ≤ 2 * n + match color t with RB_RED => 1 | RB_BLACK => 0 end)%nat.
Proof.
  revert n. induction t as [|[] l IHl x r IHr]; intros n; cbn [rbt height color]; [lia| |].
  - destruct n as [|n]; [done|]. intros [Hl Hr]. specialize (IHl _ Hl). specialize (IHr _ Hr). destruct (color l), (color r); lia.
  - intros ([Cl Cr] & Hl & Hr). specialize (IHl _ Hl). specialize (IHr _ Hr). rewrite Cl in IHl. rewrite Cr in IHr. lia.
Qed.
(** The height of a tree of [n] nodes is at most twice the logarithm of [n + 1]. *)
Lemma rb_height t : rb t → (height t ≤ 2 * Nat.log2 (length (elems t) + 1))%nat.
Proof.
  intros [[n Hn] Hc]. pose proof (rbt_height t n Hn) as Hh. rewrite Hc in Hh. pose proof (rbt_size t n Hn) as Hsz.
  assert (n ≤ Nat.log2 (length (elems t) + 1))%nat; [|lia]. apply Nat.log2_le_pow2; [lia|].
  apply Nat2Z.inj_le. rewrite Nat2Z.inj_pow. lia.
Qed.

(** ** The order of a search *)

(** [cmp] is positive up to some place, zero at most once, and negative then. *)
Definition comp_ordered cmp L : Prop := StronglySorted (λ y z, cmp y ≤ 0 → cmp z < 0) L.
(** The context lies on the search path. *)
Definition on_path cmp C : Prop := Forall (λ f, match f with FL _ x _ => cmp x < 0 | FR _ _ x => 0 < cmp x end) C.

Lemma comp_ordered_app cmp L1 L2 : comp_ordered cmp (L1 ++ L2) ↔ (∀ y z, y ∈ L1 → z ∈ L2 → cmp y ≤ 0 → cmp z < 0) ∧ comp_ordered cmp L1 ∧ comp_ordered cmp L2.
Proof. apply StronglySorted_app. Qed.

Lemma path_split cmp C L : comp_ordered cmp (before C ++ L ++ after C) → on_path cmp C →
  Forall (λ z, 0 < cmp z) (before C) ∧ Forall (λ z, cmp z < 0) (after C).
Proof.
  intros Ho Hp. revert L Ho. induction Hp as [|[c x r|c l x] C Hx Hp IH]; intros L Ho; cbn [before after] in *; [split; constructor| |].
  - destruct (IH (L ++ x :: elems r)) as [Hb Ha]; [by rewrite <- app_assoc|]. split; [done|]. constructor; [done|]. apply Forall_app. split; [|done].
    apply Forall_forall. intros z Hz. apply comp_ordered_app in Ho as (_ & _ & (_ & _ & (Ho & _ & _)%(comp_ordered_app _ [x]))%comp_ordered_app).
    apply (Ho x z); [set_solver|set_solver|lia].
  - destruct (IH (elems l ++ x :: L)) as [Hb Ha]; [by rewrite <- !app_assoc in *|]. split; [|done]. apply Forall_app. split; [done|].
    apply Forall_app. split; [|by repeat constructor]. apply Forall_forall. intros z Hz. rewrite <- !app_assoc in Ho.
    apply comp_ordered_app in Ho as (_ & _ & (Ho & _ & _)%comp_ordered_app). destruct (Z.le_gt_cases (cmp z) 0) as [Hle|]; [|done].
    assert (cmp x < 0); [apply (Ho z x); [done|set_solver|done]|lia].
Qed.

(** ** Searching *)

(** Where a search from a position ends: at a node that compares equal, or below a
    leaf, always on its path. *)
Lemma insert_search_run fuel cmp s C t (comp : Z) : represents s (plug C t) → on_path cmp C → (height t ≤ fuel)%nat →
  (∀ f C', C = f :: C' → comp = cmp (frame_node f)) →
  ∃ C' t', plug C t = plug C' t' ∧ on_path cmp C' ∧
    match t' with
    | T _ _ x _ => cmp x = 0 ∧ insert_search fuel cmp (cparent C) (rootp t) comp s = Ok (inl x, s)
    | E => ∃ comp' : Z, insert_search fuel cmp (cparent C) (rootp t) comp s = Ok (inr (cparent C', comp'), s) ∧
             ∀ f C'', C' = f :: C'' → comp' = cmp (frame_node f)
    end.
Proof.
  revert C t comp. induction fuel as [|fuel IH]; intros C t comp Hs Hp Hh Hcomp; destruct t as [|c l x r]; cbn [rootp insert_search height] in *.
  - exists C, E. split_and!; [done|done|]. by exists comp.
  - lia.
  - exists C, E. split_and!; [done|done|]. by exists comp.
  - destruct (Z.ltb_spec (cmp x) 0) as [Hlt|Hge].
    { erewrite st_bind_run by apply (RB_LEFT_run (node_entry Hs)). cbn [m_rbe_left].
      apply (IH (FL c x r :: C) l (cmp x)); [exact Hs|by constructor|lia|by intros ? ? [= <- <-]]. }
    destruct (Z.ltb_spec 0 (cmp x)) as [Hgt|Hle].
    { erewrite st_bind_run by apply (RB_RIGHT_run (node_entry Hs)). cbn [m_rbe_right].
      apply (IH (FR c l x :: C) r (cmp x)); [exact Hs|by constructor|lia|by intros ? ? [= <- <-]]. }
    exists C, (T c l x r). split_and!; [done|done|lia|done].
Qed.

(** [RB_INSERT] and [RB_FIND] take the same path. *)
Lemma find_loop_search fuel cmp s C t : represents s (plug C t) → on_path cmp C → (height t ≤ fuel)%nat →
  ∃ C' t', plug C t = plug C' t' ∧ on_path cmp C' ∧ find_loop fuel cmp (rootp t) s = Ok (rootp t', s) ∧
    match t' with E => True | T _ _ x _ => cmp x = 0 end.
Proof.
  revert C t. induction fuel as [|fuel IH]; intros C t Hs Hp Hh; destruct t as [|c l x r]; cbn [rootp find_loop height] in *.
  - by exists C, E.
  - lia.
  - by exists C, E.
  - destruct (Z.ltb_spec (cmp x) 0) as [Hlt|Hge].
    { erewrite st_bind_run by apply (RB_LEFT_run (node_entry Hs)). apply (IH (FL c x r :: C) l); [exact Hs|by constructor|lia]. }
    destruct (Z.ltb_spec 0 (cmp x)) as [Hgt|Hle].
    { erewrite st_bind_run by apply (RB_RIGHT_run (node_entry Hs)). apply (IH (FR c l x :: C) r); [exact Hs|by constructor|lia]. }
    exists C, (T c l x r). split_and!; [done|done|done|lia].
Qed.

(** The node that a search looks for, and the first node that is not below. *)
Definition match_of cmp L : ptr := head (filter (λ z, cmp z = 0) L).
Definition first_not_below cmp L : ptr := head (filter (λ z, cmp z ≤ 0) L).

Lemma filter_none (P : nat → Prop) `{∀ z, Decision (P z)} L : Forall (λ z, ¬ P z) L → filter P L = [].
Proof. induction 1 as [|z L Hz HL IH]; [done|]. by rewrite filter_cons_False. Qed.

Lemma path_match cmp C t : comp_ordered cmp (elems (plug C t)) → on_path cmp C →
  match t with E => match_of cmp (elems (plug C t)) = None ∧ first_not_below cmp (elems (plug C t)) = head (after C)
  | T _ _ x _ => cmp x = 0 → match_of cmp (elems (plug C t)) = Some x ∧ first_not_below cmp (elems (plug C t)) = Some x end.
Proof.
  intros Ho Hp. rewrite elems_plug in *. destruct (path_split _ _ _ Ho Hp) as [Hb Ha].
  unfold match_of, first_not_below. rewrite !filter_app, !(filter_none _ (before C)) by (eapply Forall_impl; [exact Hb|]; cbn; lia).
  destruct t as [|c l x r]; cbn [elems app].
  - rewrite !filter_nil. cbn [app]. rewrite !(filter_none (λ z, cmp z = 0) (after C)) by (eapply Forall_impl; [exact Ha|]; cbn; lia).
    split; [done|]. destruct Ha as [|z L' Hz]; [done|]. rewrite filter_cons_True by lia. done.
  - intros Hx. assert (Hl : Forall (λ z, 0 < cmp z) (elems l)).
    { apply Forall_forall. intros z Hz. apply comp_ordered_app in Ho as (_ & _ & (_ & (Ho & _ & _)%comp_ordered_app & _)%comp_ordered_app).
      destruct (Z.le_gt_cases (cmp z) 0) as [Hle|]; [|done]. assert (cmp x < 0) by (apply (Ho z x); [done|set_solver|done]). lia. }
    rewrite !filter_app, !(filter_none _ (elems l)) by (eapply Forall_impl; [exact Hl|]; cbn; lia).
    cbn [app]. rewrite !filter_cons_True by lia. done.
Qed.

Lemma RB_FIND_run s t cmp : represents s t → comp_ordered cmp (elems t) → RB_FIND cmp s = Ok (match_of cmp (elems t), s).
Proof.
  intros Hs Ho. unfold RB_FIND. erewrite st_bind_run by reflexivity. rewrite (rs_root _ _ Hs).
  destruct (find_loop_search (size (m_entries s)) cmp s [] t Hs) as (C' & t' & Et & Hp & R & Hm); [constructor| |].
  { pose proof (height_elems t). pose proof (length_elems_size s t Hs). lia. }
  rewrite R. cbn [plug] in Et. subst t. pose proof (path_match cmp C' t' Ho Hp) as Hpm. destruct t'; [by destruct Hpm as [-> _]|].
  by destruct (Hpm Hm) as [-> _].
Qed.

Lemma nfind_loop_search fuel cmp s C t : represents s (plug C t) → on_path cmp C → (height t ≤ fuel)%nat →
  ∃ C' t', plug C t = plug C' t' ∧ on_path cmp C' ∧ 
    nfind_loop fuel cmp (rootp t) (head (after C)) s = Ok (match t' with E => head (after C') | T _ _ x _ => Some x end, s) ∧
    match t' with E => True | T _ _ x _ => cmp x = 0 end.
Proof.
  revert C t. induction fuel as [|fuel IH]; intros C t Hs Hp Hh; destruct t as [|c l x r]; cbn [rootp nfind_loop height] in *.
  - by exists C, E.
  - lia.
  - by exists C, E.
  - destruct (Z.ltb_spec (cmp x) 0) as [Hlt|Hge].
    { erewrite st_bind_run by apply (RB_LEFT_run (node_entry Hs)). apply (IH (FL c x r :: C) l); [exact Hs|by constructor|lia]. }
    destruct (Z.ltb_spec 0 (cmp x)) as [Hgt|Hle].
    { erewrite st_bind_run by apply (RB_RIGHT_run (node_entry Hs)). apply (IH (FR c l x :: C) r); [exact Hs|by constructor|lia]. }
    exists C, (T c l x r). split_and!; [done|done|done|lia].
Qed.
Lemma RB_NFIND_run s t cmp : represents s t → comp_ordered cmp (elems t) → RB_NFIND cmp s = Ok (first_not_below cmp (elems t), s).
Proof.
  intros Hs Ho. unfold RB_NFIND. erewrite st_bind_run by reflexivity. rewrite (rs_root _ _ Hs).
  destruct (nfind_loop_search (size (m_entries s)) cmp s [] t Hs) as (C' & t' & Et & Hp & R & Hm); [constructor| |].
  { pose proof (height_elems t). pose proof (length_elems_size s t Hs). lia. }
  cbn [after head] in R. rewrite R. cbn [plug] in Et. subst t. pose proof (path_match cmp C' t' Ho Hp) as Hpm. destruct t'; [by destruct Hpm as [_ ->]|].
  by destruct (Hpm Hm) as [_ ->].
Qed.

(** [RB_FIND_EXISTING] dereferences null where there is no match. *)
Lemma find_existing_loop_find fuel cmp s tmp q : find_loop fuel cmp tmp s = Ok (Some q, s) → find_existing_loop fuel cmp tmp s = Ok (Some q, s).
Proof.
  revert tmp. induction fuel as [|fuel IH]; intros [x|]; cbn [find_loop find_existing_loop]; try done.
  destruct (cmp x <? 0); [|destruct (0 <? cmp x)]; [| |done].
  all: intros (v & s1 & R1 & R2)%st_bind_Ok; assert (s1 = s) as -> by (destruct (m_entries s !! x) eqn:Hx;
    [first [rewrite (RB_LEFT_run Hx) in R1|rewrite (RB_RIGHT_run Hx) in R1]; congruence
    |unfold RB_LEFT, RB_RIGHT, RB_ENTRY, mbind, st_bind, st_get, st_lift, of_option in R1; rewrite Hx in R1; discriminate]).
  all: erewrite st_bind_run by exact R1; by apply IH.
Qed.
Lemma RB_FIND_EXISTING_run s t cmp q : represents s t → comp_ordered cmp (elems t) → match_of cmp (elems t) = Some q →
  RB_FIND_EXISTING cmp s = Ok (Some q, s).
Proof.
  intros Hs Ho Hm. pose proof (RB_FIND_run s t cmp Hs Ho) as R. rewrite Hm in R. unfold RB_FIND in R. apply st_bind_Ok in R as (? & ? & [= <- <-] & R).
  unfold RB_FIND_EXISTING. erewrite st_bind_run by reflexivity. by apply find_existing_loop_find.
Qed.

(** ** Insertion *)

(** A new node is hung below a leaf. *)
Lemma attach_run s C x (comp : Z) cmp : represents s (plug C E) → is_Some (m_entries s !! x) → x ∉ elems (plug C E) → on_path cmp C →
  (∀ f C', C = f :: C' → comp = cmp (frame_node f)) →
  ∃ s', (_ ← RB_SET (Some x) (cparent C);
         match cparent C with
         | Some _ => if comp <? 0 then RB_SET_LEFT (cparent C) (Some x) else RB_SET_RIGHT (cparent C) (Some x)
         | None => SetRoot (Some x)
         end) s = Ok (tt, s') ∧ evolves s s' ∧ represents s' (plug C (T RB_RED E x E)).
Proof.
  intros Hs [e0 Hx] Hnew Hp Hcomp. destruct (represents_nodup _ _ _ Hs) as (HndC & _ & _). destruct Hs as [Hroot Hrep Hnd].
  rewrite elems_plug in Hnew, Hnd. cbn [elems app] in Hnew, Hnd. apply rep_plug in Hrep as [HC _]. cbn [rootp] in HC.
  set (s1 := upd x (mkRBEntry None None (cparent C) RB_RED) s).
  assert (R1 : RB_SET (Some x) (cparent C) s = Ok (tt, s1)).
  { unfold RB_SET. erewrite st_bind_run by apply (RB_SET_PARENT_run Hx). set (s2 := upd x _ s).
    erewrite st_bind_run by (eapply (@RB_SET_LEFT_run s2 x); apply lookup_insert_eq). set (s3 := upd x _ s2).
    erewrite st_bind_run by (eapply (@RB_SET_RIGHT_run s3 x); apply lookup_insert_eq). set (s4 := upd x _ s3).
    erewrite (@RB_SET_COLOR_run s4 x) by apply lookup_insert_eq. unfold s4, s3, s2, s1, upd. cbn [m_entries m_root m_size]. by rewrite !insert_insert_eq. }
  assert (E1 : evolves s s1) by by eapply upd_evolves. erewrite st_bind_run by exact R1.
  assert (HC1 : rep_ctx (m_entries s1) C None).
  { eapply rep_ctx_frame; [|exact HC]. intros z Hz. cbn. apply lookup_insert_ne. by intros ->. }
  assert (Hr1 : m_root s1 = m_root s) by done.
  assert (Hx1 : m_entries s1 !! x = Some (mkRBEntry None None (cparent C) RB_RED)) by apply lookup_insert_eq. clearbody s1.
  assert (Hndx : NoDup (elems (plug C (T RB_RED E x E)))).
  { rewrite elems_plug. cbn [elems app]. rewrite <- Permutation_middle. by constructor. }
  destruct C as [|f C].
  { eexists. split; [done|]. split; [done|]. apply (represents_intro _ [] (T RB_RED E x E)); done. }
  destruct (frame_of f) as [dir Hf]. revert Hf. generalize (frame_color f) (frame_node f) (frame_sibling f). intros c y sib ->.
  specialize (Hcomp _ _ eq_refl). replace (frame_node (side dir c y sib)) with y in Hcomp by by destruct dir.
  assert (Hcmp : (comp <? 0) = dir). { apply Forall_cons in Hp as [Hp _]. destruct dir; cbn in Hp; [apply Z.ltb_lt|apply Z.ltb_ge]; lia. }
  destruct (link_run s1 C dir c y sib None (Some x) HC1 HndC) as (s2 & R2 & HC2 & E2 & Hr2 & F2).
  exists s2. split; [|split; [by eapply evolves_trans|]].
  { rewrite Hcmp. replace (cparent (side dir c y sib :: C)) with (Some y) by by destruct dir. rewrite <- R2. by destruct dir. }
  apply represents_intro; [|exact HC2|cbn [rep]|exact Hndx].
  - rewrite Hr2, Hr1, Hroot. by apply root_plug.
  - by rewrite F2.
Qed.

(** A node that compares equal is found, and nothing changes; otherwise the new node is
    put between the smaller and the greater ones. *)
Lemma RB_INSERT_run s t x cmp : represents s t → rb t → comp_ordered cmp (elems t) → is_Some (m_entries s !! x) → x ∉ elems t →
  (∃ q, match_of cmp (elems t) = Some q ∧ RB_INSERT x cmp s = Ok (Some q, s)) ∨
  (match_of cmp (elems t) = None ∧ ∃ s' t' L1 L2, RB_INSERT x cmp s = Ok (None, s') ∧ evolves s s' ∧ represents s' t' ∧ rb t' ∧
     elems t = L1 ++ L2 ∧ elems t' = L1 ++ x :: L2 ∧ Forall (λ z, 0 < cmp z) L1 ∧ Forall (λ z, cmp z < 0) L2).
Proof.
  intros Hs Hrb Ho Hx Hnew. unfold RB_INSERT. erewrite st_bind_run by reflexivity. rewrite (rs_root _ _ Hs).
  destruct (insert_search_run (size (m_entries s)) cmp s [] t 0 Hs) as (C & u & Et & Hp & Hu); [constructor| |done|].
  { pose proof (height_elems t). pose proof (length_elems_size s t Hs). lia. }
  cbn [plug] in Et. subst t. pose proof (path_match cmp C u Ho Hp) as Hpm. destruct u as [|c l q r].
  - right. split; [apply Hpm|]. destruct Hu as (comp' & R & Hcomp). erewrite st_bind_run by exact R. cbv beta iota.
    destruct (attach_run s C x comp' cmp Hs Hx Hnew Hp Hcomp) as (s1 & R1 & E1 & Hs1).
    apply st_bind_Ok in R1 as ([] & s2 & R1 & R2). erewrite st_bind_run by exact R1. erewrite st_bind_run by exact R2.
    apply rb_plug in Hrb as (n & [= ->] & HC). cbn [color] in HC.
    destruct (RB_INSERT_COLOR_run s1 C x Hs1 HC) as (s3 & t' & R3 & E3 & Hs3 & Hel & Hrb'); [pose proof (length_ctx_size _ _ _ Hs1); lia|].
    erewrite st_bind_run by exact R3. rewrite elems_plug in Ho. destruct (path_split _ _ _ Ho Hp) as [Hb Ha]. cbn [elems app] in *.
    exists s3, t', (before C), (after C). split_and!; [done|by eapply evolves_trans|done|done|by rewrite elems_plug|by rewrite Hel, elems_plug|done|done].
  - left. destruct Hu as [Hq R]. erewrite st_bind_run by exact R. exists q. split; [by apply Hpm|done].
Qed.

(** ** Removal *)
Lemma elems_app_parts C t x : x ∈ elems t → x ∈ elems (plug C t).
Proof. rewrite elems_plug. set_solver. Qed.

(** A node with one child is replaced by the child; its own entry stays as it is. *)
Lemma unlink_run s C c l x r u : represents s (plug C (T c l x r)) → (l = E ∧ u = r) ∨ (r = E ∧ u = l) →
  ∃ s', unlink_node (Some x) (rootp u) s = Ok ((cparent C, c), s') ∧ evolves s s' ∧ represents s' (plug C u) ∧ m_entries s' !! x = m_entries s !! x.
Proof.
  intros Hs Hu. assert (Hel : elems (T c l x r) ≡ₚ x :: elems u).
  { cbn [elems]. rewrite <- Permutation_middle. destruct Hu as [[-> ->]|[-> ->]]; cbn; [done|by rewrite app_nil_r]. }
  destruct (represents_nodup _ _ _ Hs) as (HndC & Ht & HdC). pose proof (node_entry Hs) as Hx. rewrite Hel in Ht. apply NoDup_cons in Ht as [Hxu Hndu].
  assert (HdC' : ∀ z, z ∈ x :: elems u → z ∉ before C ++ after C) by (intros z Hz; apply HdC; by rewrite Hel). clear HdC.
  destruct Hs as [Hroot Hrep Hnd]. apply rep_plug in Hrep as (HC & _ & Hl & Hr). unfold unlink_node.
  erewrite st_bind_run by apply (RB_PARENT_run Hx). erewrite st_bind_run by apply (RB_COLOR_run Hx). cbn [m_rbe_parent m_rbe_color].
  destruct (reparent_run s (Some x) u (cparent C)) as (s1 & R1 & Hu1 & E1 & Hr1 & F1); [by destruct Hu as [[_ ->]|[_ ->]]|done|].
  erewrite st_bind_run by exact R1. destruct (relink_run s1 C x (rootp u)) as (s2 & R2 & HC2 & E2 & Hr2 & F2); [|done|apply HdC'; by left|].
  { eapply rep_ctx_frame; [|exact HC]. intros z Hz. apply F1. intros Hz'. apply (HdC' z); [by right|done]. }
  erewrite st_bind_run by exact R2. exists s2. split; [done|]. split; [by eapply evolves_trans|]. split.
  - apply represents_intro; [|done| |].
    + rewrite Hr2, Hr1, Hroot. destruct C; [done|]. by apply root_plug.
    + eapply rep_frame; [|exact Hu1]. intros z Hz. apply F2. apply HdC'. by right.
    + rewrite elems_plug in *. rewrite Hel in Hnd. cbn [app] in Hnd. rewrite <- Permutation_middle in Hnd. by apply NoDup_cons in Hnd as [_ ?].
  - rewrite F2 by (apply HdC'; by left). by apply F1.
Qed.

Lemma replace_node_run s C c l x r y : represents s (plug C (T c l x r)) → rootp l ≠ None → is_Some (m_entries s !! y) → y ∉ elems (plug C (T c l x r)) →
  ∃ s', replace_node (Some x) (Some y) s = Ok (tt, s') ∧ evolves s s' ∧ represents s' (plug C (T c l y r)).
Proof.
  intros Hs Hl0 [e0 Hy] Hnew. destruct (represents_nodup _ _ _ Hs) as (HndC & Ht & HdC). pose proof (node_entry Hs) as Hx.
  destruct Hs as [Hroot Hrep Hnd]. apply rep_plug in Hrep as (HC & _ & Hl & Hr). rewrite elems_plug in Hnew, Hnd. cbn [elems] in *.
  apply NoDup_app in Ht as (Hndl & Hdl & [Hdx Hndr]%NoDup_cons).
  assert (Ny : y ≠ x ∧ y ∉ elems l ∧ y ∉ elems r ∧ y ∉ before C ++ after C) by set_solver. destruct Ny as (Nyx & Nyl & Nyr & NyC).
  assert (PC : ∀ z, z ∈ before C ++ after C → y ≠ z ∧ z ∉ elems l ∧ z ∉ elems r) by (intros z Hz; split_and!; [by intros ->|intros ?; apply (HdC z); set_solver..]).
  assert (Pl : ∀ z, z ∈ elems l → y ≠ z ∧ z ∉ elems r ∧ z ∉ before C ++ after C) by (intros z Hz; split_and!; [by intros ->|set_solver|apply HdC; set_solver]).
  assert (Pr : ∀ z, z ∈ elems r → y ≠ z ∧ z ∉ elems l ∧ z ∉ before C ++ after C) by (intros z Hz; split_and!; [by intros ->|set_solver|apply HdC; set_solver]).
  assert (Px : x ∉ elems l ∧ x ∉ elems r ∧ x ∉ before C ++ after C) by (split_and!; [set_solver|done|apply HdC; set_solver]). destruct Px as (Nxl & Nxr & NxC).
  unfold replace_node. erewrite st_bind_run by apply (RB_ENTRY_run Hx). erewrite st_bind_run by reflexivity.
  change (mkTree _ _ _) with (upd y (mkRBEntry (rootp l) (rootp r) (cparent C) c) s). set (s1 := upd y _ s).
  assert (E1 : evolves s s1) by by eapply upd_evolves.
  assert (Hx1 : m_entries s1 !! x = Some (mkRBEntry (rootp l) (rootp r) (cparent C) c)) by (subst s1; frame_step).
  erewrite st_bind_run by apply (RB_PARENT_run Hx1). cbn [m_rbe_parent].
  destruct (relink_run s1 C x (Some y)) as (s2 & R2 & HC2 & E2 & Hr2 & F2); [|done|done|].
  { eapply rep_ctx_frame; [|exact HC]. intros z Hz. destruct (PC z Hz) as (? & ? & ?). subst s1. frame_step. }
  erewrite st_bind_run by exact R2. assert (Hx2 := Hx1). rewrite <- F2 in Hx2 by done.
  erewrite st_bind_run by apply (RB_LEFT_run Hx2). cbn [m_rbe_left].
  destruct (reparent_run s2 (Some x) l (Some y)) as (s3 & R3 & Hl3 & E3 & Hr3 & F3); [|done|].
  { eapply rep_frame; [|exact Hl]. intros z Hz. destruct (Pl z Hz) as (? & ? & ?). subst s1. frame_step. }
  assert (R3' : RB_SET_PARENT (rootp l) (Some y) s2 = Ok (tt, s3)) by (by destruct l).
  erewrite st_bind_run by exact R3'. assert (Hx3 := Hx2). rewrite <- F3 in Hx3 by done.
  erewrite st_bind_run by apply (RB_RIGHT_run Hx3). cbn [m_rbe_right].
  destruct (reparent_run s3 (Some x) r (Some y)) as (s4 & R4 & Hr4 & E4 & Hrt4 & F4); [|done|].
  { eapply rep_frame; [|exact Hr]. intros z Hz. destruct (Pr z Hz) as (? & ? & ?). subst s1. frame_step. }
  exists s4. split; [exact R4|]. split; [by do 3 (eapply evolves_trans; [eassumption|])|]. apply represents_intro.
  - rewrite Hrt4, Hr3, Hr2. cbn [m_root upd s1]. rewrite Hroot. destruct C; [done|]. by apply root_plug.
  - eapply rep_ctx_frame; [|exact HC2]. intros z Hz. destruct (PC z Hz) as (? & ? & ?). clear F2. frame_step.
  - cbn [rep]. split_and!; [|eapply rep_frame; [|exact Hl3]; intros z Hz; apply F4; by apply Pl|exact Hr4].
    rewrite F4, F3, F2 by done. apply lookup_insert_eq.
  - rewrite elems_plug. cbn [elems]. assert (Hperm : ∀ z, before C ++ (elems l ++ z :: elems r) ++ after C ≡ₚ z :: (before C ++ elems l ++ elems r ++ after C)).
    { intros z. rewrite <- app_assoc. cbn [app]. rewrite <- !Permutation_middle. done. }
    rewrite Hperm in Hnd |- *. apply NoDup_cons in Hnd as [_ Hnd]. constructor; [|done]. set_solver.
Qed.

(** ** The ends of a subtree, and climbing *)
Definition descend dir : nat → ptr → M ptr := if dir then leftmost else rightmost.
Definition ascend dir : nat → ptr → M ptr := if dir then climb_right else climb_left.
(** The nodes of a tree in a direction, and those of a context behind the hole. *)
Definition elems_to dir t : list nat := if dir then elems t else reverse (elems t).
Definition beyond dir C : list nat := if dir then after C else reverse (before C).

Lemma elems_to_node dir c t x u : elems_to dir (node dir c t x u) = elems_to dir t ++ x :: elems_to dir u.
Proof. destruct dir; cbn [elems_to node elems]; [done|]. by rewrite reverse_app, reverse_cons, <- app_assoc. Qed.
Lemma beyond_side dir c x u C : beyond dir (side dir c x u :: C) = x :: elems_to dir u ++ beyond dir C.
Proof. destruct dir; cbn [beyond side after before elems_to]; [done|]. by rewrite !reverse_app, reverse_singleton. Qed.
Lemma beyond_other dir c x u C : beyond dir (side (negb dir) c x u :: C) = beyond dir C.
Proof. by destruct dir. Qed.
Lemma descend_unfold dir fuel elm : descend dir fuel elm =
  (left ← near dir elm; match left with None => mret elm | Some _ => match fuel with O => st_throw OutOfFuel | S fuel' => descend dir fuel' left end end).
Proof. by destruct dir, fuel. Qed.
Lemma ascend_unfold dir fuel elm : ascend dir fuel elm =
  (p ← RB_PARENT elm; match p with None => mret None | Some _ => r ← far dir p;
     if bool_decide (elm = r) then match fuel with O => st_throw OutOfFuel | S fuel' => ascend dir fuel' p end else mret p end).
Proof. by destruct dir, fuel. Qed.

(** [leftmost] and [rightmost]: the position of the first node. *)
Lemma descend_run dir fuel s C t x : represents s (plug C t) → rootp t = Some x → (height t ≤ S fuel)%nat →
  ∃ D d y u, t = plug D (node dir d E y u) ∧ Forall (λ f, ∃ c x u, f = side dir c x u) D ∧ descend dir fuel (Some x) s = Ok (Some y, s).
Proof.
  revert C t x. induction fuel as [|fuel IH]; intros C t x Hs Hx Hh; destruct (node_of dir t x Hx) as (a & b & Et); rewrite Et in Hs; rewrite descend_unfold.
  all: erewrite st_bind_run by apply (near_run (node_at Hs)); destruct (rootp a) as [z|] eqn:Ea.
  - exfalso. rewrite Et in Hh. destruct a; [done|]. destruct dir; cbn in Hh; lia.
  - destruct a; [|done]. exists [], (color t), x, b. split_and!; [done|constructor|done].
  - destruct (IH (side dir (color t) x b :: C) a z) as (D & d & y & u & Ea' & HD & R); [by rewrite plug_side|done|rewrite Et in Hh; destruct dir; cbn in Hh; lia|].
    exists (D ++ [side dir (color t) x b]), d, y, u. split_and!; [rewrite plug_app, <- Ea', plug_side; done| |done].
    apply Forall_app. split; [done|]. constructor; [eauto|constructor].
  - destruct a; [|done]. exists [], (color t), x, b. split_and!; [done|constructor|done].
Qed.

Lemma rbc_rename D c l x y C n k : rbc (D ++ FR c l x :: C) n k → rbc (D ++ FR c l y :: C) n k.
Proof. revert n k. induction D as [|f D IH]; intros n k; cbn [app rbc]; [done|]. naive_solver. Qed.

(** What the removal of a node of the colour [c] leaves behind. *)
Lemma removed_short C c l x r u : rb (plug C (T c l x r)) → (l = E ∧ u = r) ∨ (r = E ∧ u = l) →
  match c with
  | RB_RED => rb (plug C u)
  | RB_BLACK => ∃ n, short u n ∧ rbc C (S n) RB_BLACK
  end.
Proof.
  intros (n & Hn & HC)%rb_plug Hu. destruct (rbt_inv _ _ _ _ _ Hn) as [m ->]. apply rbt_T in Hn as (Hc & Hl & Hr). cbn [color] in HC.
  assert (Hum : rbt u m) by (by destruct Hu as [[_ ->]|[_ ->]]). destruct c; cbn [grow] in *.
  - exists m. split; [|done]. destruct u as [|[] ? ? ?]; [done|done|by destruct Hum].
  - apply rb_plug. exists m. split; [done|]. destruct (Hc eq_refl) as [Cl Cr]. replace (color u) with RB_BLACK by (by destruct Hu as [[_ ->]|[_ ->]]).
    by eapply rbc_black.
Qed.

(** The colours are restored after a node was unlinked. *)
Lemma recolor_run s C u c : represents s (plug C u) →
  match c with RB_RED => rb (plug C u) | RB_BLACK => ∃ n, short u n ∧ rbc C (S n) RB_BLACK end →
  ∃ s' t', (if bool_decide (c = RB_BLACK) then RB_REMOVE_COLOR (cparent C) (rootp u) else mret tt) s = Ok (tt, s') ∧ evolves s s' ∧
    represents s' t' ∧ elems t' = elems (plug C u) ∧ rb t'.
Proof.
  intros Hs Hc. destruct c; [rewrite bool_decide_eq_true_2 by done|rewrite bool_decide_eq_false_2 by done; by exists s, (plug C u)].
  destruct Hc as (n & Hsh & HC). apply (RB_REMOVE_COLOR_run s C u n); [done|]. pose proof (length_ctx_size _ _ _ Hs). lia.
Qed.

Lemma remove_single_run s C c l x r u : represents s (plug C (T c l x r)) → rb (plug C (T c l x r)) → (l = E ∧ u = r) ∨ (r = E ∧ u = l) →
  ∃ s' t', ('(parent, color) ← unlink_node (Some x) (rootp u);
            _ ← (if bool_decide (color = RB_BLACK) then RB_REMOVE_COLOR parent (rootp u) else mret tt); mret (Some x)) s = Ok (Some x, s') ∧
    evolves s s' ∧ represents s' t' ∧ elems t' = before C ++ elems u ++ after C ∧ rb t'.
Proof.
  intros Hs Hrb Hu. destruct (unlink_run s C c l x r u Hs Hu) as (s1 & R1 & E1 & Hs1 & _). erewrite st_bind_run by exact R1. cbv beta iota.
  destruct (recolor_run s1 C u c Hs1) as (s2 & t' & R2 & E2 & Hs2 & Hel & Hrb'); [by eapply removed_short|].
  erewrite st_bind_run by exact R2. exists s2, t'. split_and!; [done|by eapply evolves_trans|done|by rewrite Hel, elems_plug|done].
Qed.

(** The successor takes the place of a node with two children. *)
Lemma remove_double_run s C c l x D d y u : represents s (plug C (T c l x (plug D (T d E y u)))) → rb (plug C (T c l x (plug D (T d E y u)))) → rootp l ≠ None →
  ∃ s' t', ('(parent, color) ← unlink_node (Some y) (rootp u);
            p ← RB_PARENT (Some y);
            let parent := if bool_decide (p = Some x) then Some y else parent in
            _ ← replace_node (Some x) (Some y);
            _ ← (if bool_decide (color = RB_BLACK) then RB_REMOVE_COLOR parent (rootp u) else mret tt); mret (Some x)) s = Ok (Some x, s') ∧
    evolves s s' ∧ represents s' t' ∧ elems t' = elems (plug C (T c l y (plug D u))) ∧ rb t'.
Proof.
  intros Hs Hrb Hl0. set (F := FR c l x). assert (Hs' : represents s (plug (D ++ F :: C) (T d E y u))) by (by rewrite plug_app).
  assert (Hrb' : rb (plug (D ++ F :: C) (T d E y u))) by (by rewrite plug_app).
  destruct (unlink_run s (D ++ F :: C) d E y u u Hs' (or_introl (conj eq_refl eq_refl))) as (s1 & R1 & E1 & Hs1 & Hy1).
  erewrite st_bind_run by exact R1. cbv beta iota. pose proof (node_entry Hs') as Hy. rewrite Hy in Hy1.
  erewrite st_bind_run by apply (RB_PARENT_run Hy1). cbn [m_rbe_parent]. cbv zeta.
  rewrite plug_app in Hs1. cbn [plug F] in Hs1.
  assert (Hynew : y ∉ elems (plug C (T c l x (plug D u)))).
  { pose proof (rs_nodup _ _ Hs') as Hnd. rewrite elems_plug in Hnd. cbn [elems app] in Hnd. rewrite <- Permutation_middle in Hnd.
    apply NoDup_cons in Hnd as [Hnd _]. rewrite <- elems_plug in Hnd. by rewrite plug_app in Hnd. }
  destruct (replace_node_run s1 C c l x (plug D u) y Hs1 Hl0 ltac:(by eexists) Hynew) as (s2 & R2 & E2 & Hs2). erewrite st_bind_run by exact R2.
  assert (Hpar : (if bool_decide (cparent (D ++ F :: C) = Some x) then Some y else cparent (D ++ F :: C)) = cparent (D ++ FR c l y :: C)).
  { destruct D as [|f D]; [by rewrite bool_decide_eq_true_2|]. rewrite bool_decide_eq_false_2; [done|]. cbn [app cparent]. intros [= Hfx].
    pose proof (rs_nodup _ _ Hs1) as Hnd. rewrite elems_plug in Hnd. apply NoDup_app in Hnd as (_ & _ & [Hnd _]%NoDup_app). cbn [elems] in Hnd.
    apply NoDup_app in Hnd as (_ & _ & [Hnd _]%NoDup_cons). destruct Hnd. rewrite <- Hfx, elems_plug. destruct f; cbn; set_solver. }
  rewrite Hpar. assert (Hs2' : represents s2 (plug (D ++ FR c l y :: C) u)) by (by rewrite plug_app).
  destruct (recolor_run s2 _ u d Hs2') as (s3 & t' & R3 & E3 & Hs3 & Hel & Hrb3).
  { pose proof (removed_short _ _ _ _ _ u Hrb' (or_introl (conj eq_refl eq_refl))) as Hsh. destruct d.
    - destruct Hsh as (n & Hn & HC). exists n. split; [done|]. by eapply rbc_rename.
    - apply rb_plug in Hsh as (n & Hn & HC). apply rb_plug. exists n. split; [done|]. by eapply rbc_rename. }
  erewrite st_bind_run by exact R3. exists s3, t'. split_and!; [done|by do 2 (eapply evolves_trans; [eassumption|])|done| |done].
  rewrite Hel, plug_app. done.
Qed.

Lemma RB_REMOVE_run s C c l x r : represents s (plug C (T c l x r)) → rb (plug C (T c l x r)) →
  ∃ s' t', RB_REMOVE (Some x) s = Ok (Some x, s') ∧ evolves s s' ∧ represents s' t' ∧ elems t' = before C ++ elems l ++ elems r ++ after C ∧ rb t'.
Proof.
  intros Hs Hrb. unfold RB_REMOVE. pose proof (node_entry Hs) as Hx.
  erewrite st_bind_run by apply (RB_LEFT_run Hx). erewrite st_bind_run by apply (RB_RIGHT_run Hx). cbn [m_rbe_left m_rbe_right].
  destruct (rootp l) as [xl|] eqn:El; [destruct (rootp r) as [xr|] eqn:Er|].
  - erewrite st_bind_run by reflexivity.
    destruct (descend_run true (size (m_entries s)) s (FR c l x :: C) r xr Hs Er) as (D & d & y & u & Eu & HD & R).
    { pose proof (height_elems r). pose proof (length_ctx_size _ _ _ Hs) as Hsz. cbn [elems] in Hsz. rewrite length_app in Hsz. cbn in Hsz. lia. }
    erewrite st_bind_run by exact R. cbn [node] in Eu. subst r.
    assert (Hy : represents s (plug (D ++ FR c l x :: C) (T d E y u))) by (by rewrite plug_app).
    erewrite st_bind_run by apply (RB_RIGHT_run (node_entry Hy)). cbn [m_rbe_right].
    destruct (remove_double_run s C c l x D d y u Hs Hrb) as (s1 & t' & R1 & E1 & Hs1 & Hel & Hrb1); [by rewrite El|].
    exists s1, t'. split_and!; [exact R1|done|done| |done]. rewrite Hel, elems_plug. cbn [elems]. rewrite !elems_plug.
    assert (before D = []) as ->. { clear -HD. induction HD as [|f D (c & x & u & ->) HD IH]; [done|exact IH]. }
    cbn [elems app]. by repeat (rewrite <- app_assoc; cbn [app]).
  - destruct r; [|done]. rewrite <- El. destruct (remove_single_run s C c l x E l Hs Hrb) as (s1 & t' & R1 & E1 & Hs1 & Hel & Hrb1); [by right|].
    exists s1, t'. split_and!; [|done|done|by rewrite Hel|done]. rewrite El in R1 |- *. exact R1.
  - destruct l; [|done]. destruct (remove_single_run s C c E x r r Hs Hrb) as (s1 & t' & R1 & E1 & Hs1 & Hel & Hrb1); [by left|].
    exists s1, t'. by split_and!.
Qed.
