(* ===== verification/RBTreeRefine.v ===== *)
(** * Red-black trees as ordered sequences

    The walks through a red-black tree, and the contract of the container: under a
    comparator that orders the nodes, the tree implements a sorted sequence, its
    height is logarithmic, and no operation runs into a null pointer or fails to end. *)

From stdpp Require Import sorting.
From S2P Require Import Prelude RBTree RBTreeSpec RBTreeBalance RBTreeOps.
Import RBTree.
Implicit Types (s : IntrusiveRedBlackTree) (par elm : ptr) (x y z p g q n m fuel : nat) (c d k : RBColor) (t l r u a b w sib : tree) (C D : list frame) (dir e : bool).
Implicit Types (cmp : nat → Z) (L : list nat).

(** ** Walks *)
Definition extreme dir : nat → ptr → ptr → M ptr := if dir then min_loop else max_loop.
Lemma extreme_run dir fuel s C t par : represents s (plug C t) → (height t ≤ fuel)%nat →
  extreme dir fuel (rootp t) par s = Ok (match head (elems_to dir t) with Some y => Some y | None => par end, s).
Proof.
  revert fuel C par. induction t as [|c l IHl x r IHr]; intros fuel C par Hs Hh.
  { destruct dir, fuel; done. }
  destruct fuel as [|fuel]; cbn [height] in Hh; [lia|].
  assert (Hstep : ∃ a b, T c l x r = node dir c a x b ∧ (height a ≤ fuel)%nat ∧ (∀ fuel' C' par', represents s (plug C' a) → (height a ≤ fuel')%nat →
    extreme dir fuel' (rootp a) par' s = Ok (match head (elems_to dir a) with Some y => Some y | None => par' end, s))).
  { destruct dir; [exists l, r|exists r, l]; (split_and!; [done|lia|done]). }
  destruct Hstep as (a & b & Et & Ha & IH). rewrite Et in *. clear IHl IHr Et.
  assert (Hun : extreme dir (S fuel) (Some x) par = (v ← near dir (Some x); extreme dir fuel v (Some x))) by (by destruct dir).
  rewrite rootp_node, Hun. erewrite st_bind_run by apply (near_run (node_at Hs)). rewrite (IH fuel (side dir c x b :: C)); [|by rewrite plug_side|done].
  rewrite elems_to_node. by destruct (elems_to dir a).
Qed.

Lemma descend_first dir D d y u : Forall (λ f, ∃ c x u, f = side dir c x u) D → head (elems_to dir (plug D (node dir d E y u))) = Some y.
Proof.
  intros HD. assert (Hgen : ∀ t, head (elems_to dir t) = Some y → head (elems_to dir (plug D t)) = Some y).
  { induction HD as [|f D (c & x & v & ->) HD IH]; intros t Ht; [done|]. rewrite plug_side. apply IH. rewrite elems_to_node. by destruct (elems_to dir t). }
  apply Hgen. rewrite elems_to_node. by destruct dir.
Qed.

Lemma ascend_run dir fuel s C t x : represents s (plug C t) → rootp t = Some x → (length C ≤ fuel)%nat →
  ascend dir fuel (Some x) s = Ok (head (beyond dir C), s).
Proof.
  revert C t x. induction fuel as [|fuel IH]; intros C t x Hs Hx Hlen; rewrite ascend_unfold; erewrite st_bind_run by apply (child_at Hs Hx).
  { destruct C; [by destruct dir|cbn in Hlen; lia]. }
  destruct C as [|f C]; [by destruct dir|]. destruct (frame_of f) as [e Hf]. revert Hf.
  generalize (frame_color f) (frame_node f) (frame_sibling f). intros c y sib ->. replace (cparent (side e c y sib :: C)) with (Some y) by by destruct e.
  rewrite plug_side in Hs. destruct (decide (e = dir)) as [->|Hne].
  - erewrite st_bind_run by apply (far_run (node_at Hs)). rewrite beyond_side, bool_decide_eq_false_2; [done|].
    rewrite <- Hx. eapply children_distinct; [exact Hs|by rewrite Hx].
  - assert (e = negb dir) as -> by (destruct e, dir; done). rewrite node_flip in Hs. erewrite st_bind_run by apply (far_run (node_at Hs)).
    rewrite Hx, bool_decide_eq_true_2, beyond_other by done. apply (IH C _ y Hs); [apply rootp_node|cbn in Hlen; lia].
Qed.

Definition next dir : ptr → M ptr := if dir then RB_NEXT else RB_PREV.
Definition is_near_child dir : ptr → M bool := if dir then is_left_child else is_right_child.
Lemma next_unfold dir elm : next dir elm =
  (s ← st_get; right ← far dir elm;
   match right with
   | Some _ => descend dir (size (m_entries s)) right
   | None => b ← is_near_child dir elm; if b : bool then RB_PARENT elm else ascend dir (size (m_entries s)) elm
   end).
Proof. by destruct dir. Qed.
Lemma next_run dir s C c t x u : represents s (plug C (node dir c t x u)) → next dir (Some x) s = Ok (head (elems_to dir u ++ beyond dir C), s).
Proof.
  intros Hs. rewrite next_unfold. erewrite st_bind_run by reflexivity. erewrite st_bind_run by apply (far_run (node_at Hs)).
  pose proof (length_ctx_size _ _ _ Hs) as Hsz. rewrite elems_node, length_app in Hsz. cbn [length] in Hsz.
  destruct (rootp u) as [xu|] eqn:Eu.
  - assert (Hu := Hs). rewrite <- node_flip, <- plug_side in Hu. pose proof (height_elems u).
    destruct (descend_run dir (size (m_entries s)) s _ u xu Hu Eu) as (D & d & y & v & -> & HD & R); [lia|].
    rewrite R. pose proof (descend_first dir D d y v HD) as Hh. destruct (elems_to dir _); [done|]. cbn in Hh |- *. congruence.
  - destruct u; [|done]. replace (elems_to dir E) with (@nil nat) by by destruct dir. cbn [app].
    rewrite <- (ascend_run dir (size (m_entries s)) s C (node dir c t x E) x Hs) by (apply rootp_node || lia).
    assert (Hb : ∃ v : bool, is_near_child dir (Some x) s = Ok (v, s) ∧ (v = true → RB_PARENT (Some x) s = Ok (head (beyond dir C), s))).
    { assert (Hun : is_near_child dir (Some x) = (p ← RB_PARENT (Some x); match p with None => mret false | Some _ => l ← near dir p; mret (bool_decide (Some x = l)) end))
        by (by destruct dir). rewrite Hun. pose proof (child_at Hs (rootp_node _ _ _ _ _)) as Hp. erewrite st_bind_run by exact Hp.
      destruct C as [|f C]; [by exists false|]. destruct (frame_of f) as [e Hf]. revert Hf.
      generalize (frame_color f) (frame_node f) (frame_sibling f). intros k y sib ->. rewrite plug_side in Hs.
      replace (cparent (side e k y sib :: C)) with (Some y) in * by by destruct e. destruct (decide (e = dir)) as [->|Hne].
      - erewrite st_bind_run by apply (near_run (node_at Hs)). eexists. split; [done|]. intros _. by rewrite beyond_side.
      - assert (e = negb dir) as -> by (destruct e, dir; done). assert (Hd := Hs). rewrite node_flip in Hs. erewrite st_bind_run by apply (near_run (node_at Hs)).
        eexists. split; [done|]. rewrite bool_decide_eq_true. intros Heq.
        pose proof (children_distinct _ _ _ _ _ _ _ Hd) as Hne'. rewrite rootp_node in Hne'. destruct Hne'; [done|done]. }
    destruct Hb as ([] & Rb & Hpar); erewrite st_bind_run by exact Rb; cbv beta iota; [|done]. rewrite Hpar by done.
    by rewrite (ascend_run dir (size (m_entries s)) s C (node dir c t x E) x Hs) by (apply rootp_node || lia).
Qed.

(** ** Positions in the sequence *)
Lemma before_app C D : before (C ++ D) = before D ++ before C.
Proof. induction C as [|[] C IH]; cbn [app before]; rewrite ?app_nil_r, ?IH, <- ?app_assoc; done. Qed.
Lemma after_app C D : after (C ++ D) = after C ++ after D.
Proof. induction C as [|[] C IH]; cbn [app after]; rewrite ?IH, <- ?app_assoc; done. Qed.
Lemma position t L1 x L2 : elems t = L1 ++ x :: L2 →
  ∃ C c l r, t = plug C (T c l x r) ∧ L1 = before C ++ elems l ∧ L2 = elems r ++ after C.
Proof.
  revert L1 L2. induction t as [|c l IHl y r IHr]; intros L1 L2; cbn [elems]; [by destruct L1|].
  intros [(K & Hl & Hy)|(K & -> & Hy)]%app_eq_inv; (destruct K as [|z K]; cbn in Hy; injection Hy as <- Hr).
  - exists [], c, l, r. cbn. by rewrite Hl, !app_nil_r.
  - destruct (IHl L1 K Hl) as (C & d & l' & r' & -> & -> & ->). exists (C ++ [FL c y r]), d, l', r'.
    rewrite plug_app, before_app, after_app, Hr. cbn. by rewrite app_nil_r, <- app_assoc.
  - exists [], c, l, r. cbn. by rewrite !app_nil_r, Hr.
  - destruct (IHr K L2 Hr) as (C & d & l' & r' & -> & -> & ->). exists (C ++ [FR c l y]), d, l', r'.
    rewrite plug_app, before_app, after_app. cbn. by rewrite !app_nil_r, <- !app_assoc.
Qed.

(** ** The sequence that a tree implements *)
Definition implements s L : Prop := ∃ t, represents s t ∧ rb t ∧ elems t = L.

Lemma next_of s L1 x L2 : implements s (L1 ++ x :: L2) → RB_NEXT (Some x) s = Ok (head L2, s) ∧ RB_PREV (Some x) s = Ok (last L1, s).
Proof.
  intros (t & Hs & _ & Hel). destruct (position t L1 x L2 Hel) as (C & c & l & r & -> & -> & ->). split.
  - exact (next_run true s C c l x r Hs).
  - rewrite <- head_reverse, reverse_app. exact (next_run false s C c r x l Hs).
Qed.
Lemma ends_of s L : implements s L → RB_MIN s = Ok (head L, s) ∧ RB_MAX s = Ok (last L, s) ∧ IsEmpty s = Ok (bool_decide (L = []), s).
Proof.
  intros (t & Hs & _ & <-). assert (Hh : (height t ≤ size (m_entries s))%nat) by (pose proof (height_elems t); pose proof (length_elems_size s t Hs); lia).
  unfold RB_MIN, RB_MAX. rewrite !(st_bind_run st_get _ s s s) by reflexivity. rewrite (rs_root _ _ Hs).
  rewrite (extreme_run true _ s [] t None Hs Hh : min_loop _ _ _ s = _), (extreme_run false _ s [] t None Hs Hh : max_loop _ _ _ s = _).
  rewrite <- head_reverse. cbn [elems_to]. split_and!; [by destruct (head _)|by destruct (head _)|].
  unfold IsEmpty. erewrite (st_bind_run Root) by reflexivity. rewrite (rs_root _ _ Hs). unfold mret, st_ret. do 2 f_equal. apply bool_decide_ext. destruct t; cbn; [done|]. split; [done|]. by intros [_ ?]%app_nil.
Qed.
Lemma walk_of s fuel L1 L2 : implements s (L1 ++ L2) → (length L2 ≤ fuel)%nat → walk fuel (head L2) s = Ok (L2, s).
Proof.
  revert L1 L2. induction fuel as [|fuel IH]; intros L1 [|x L2] Hs Hlen; cbn [head walk length] in *; try done; [lia|].
  destruct (next_of s L1 x L2 Hs) as [Hn _]. erewrite st_bind_run by exact Hn.
  erewrite st_bind_run by (apply (IH (L1 ++ [x]) L2); [by rewrite <- app_assoc|lia]). done.
Qed.

(** The tree holds the sequence [L], and its size counts it. *)
Record tree_holds s L : Prop := {
  th_implements : implements s L;
  th_size : m_size s = u64 (Z.of_nat (length L));
}.

(** Insertion puts a node with a new key in its place.  A node whose key is in the
    tree is not linked: only the size counts it. *)
Lemma tree_insert_exact s L x cmp : tree_holds s L → comp_ordered cmp L → is_Some (m_entries s !! x) → x ∉ L →
  ∃ s', insert x cmp s = Ok (Some x, s') ∧ dom (m_entries s') = dom (m_entries s) ∧
    if decide (Exists (λ z, cmp z = 0) L)
    then implements s' L ∧ m_size s' = u64 (Z.of_nat (length L) + 1)
    else ∃ L1 L2, L = L1 ++ L2 ∧ tree_holds s' (L1 ++ x :: L2) ∧ Forall (λ z, 0 < cmp z) L1 ∧ Forall (λ z, cmp z < 0) L2.
Proof.
  intros [(t & Hs & Hrb & <-) Hsize] Ho Hx Hnew. unfold insert, InsertImpl.
  set (s1 := mkTree (m_entries s) (m_root s) (u64 (m_size s + 1))).
  assert (Hs1 : represents s1 t) by (by destruct Hs). assert (Hx1 : is_Some (m_entries s1 !! x)) by done.
  assert (Hz1 : m_size s1 = u64 (Z.of_nat (length (elems t)) + 1)) by (cbn; by rewrite Hsize, wrap_add_l).
  destruct (RB_INSERT_run s1 t x cmp Hs1 Hrb Ho Hx1 Hnew) as [(q & Hm & R)|(Hm & s2 & t' & L1 & L2 & R & [Hd Hz] & Hs2 & Hrb2 & E1 & E2 & F1 & F2)].
  - exists s1. split; [erewrite st_bind_run by (erewrite st_bind_run by reflexivity; exact R); done|]. split; [done|].
    rewrite decide_True; [by split; [exists t|]|]. unfold match_of in Hm. apply head_Some_elem_of, list_elem_of_filter in Hm as [Hq Hin].
    apply Exists_exists. eauto.
  - exists s2. split; [erewrite st_bind_run by (erewrite st_bind_run by reflexivity; exact R); done|]. split; [exact Hd|]. rewrite decide_False.
    2:{ rewrite E1, Exists_app. rewrite Forall_forall in F1, F2.
        intros [[z [Hz' ?]]%Exists_exists|[z [Hz' ?]]%Exists_exists]; [specialize (F1 z Hz')|specialize (F2 z Hz')]; lia. }
    exists L1, L2. split_and!; [done| |done|done]. split; [by exists t'|]. rewrite Hz, Hz1, E1, !length_app. cbn [length]. f_equal. lia.
Qed.

(** Erasing a node takes exactly it out of the sequence and gives the next one. *)
Lemma tree_erase_exact s L1 x L2 : tree_holds s (L1 ++ x :: L2) →
  ∃ s', erase (Some x) s = Ok (head L2, s') ∧ tree_holds s' (L1 ++ L2) ∧ dom (m_entries s') = dom (m_entries s).
Proof.
  intros [Himp Hsize]. unfold erase. destruct (next_of _ _ _ _ Himp) as [Rn _]. erewrite st_bind_run by exact Rn.
  destruct Himp as (t & Hs & Hrb & Hel). destruct (position t L1 x L2 Hel) as (C & c & l & r & -> & -> & ->).
  destruct (RB_REMOVE_run s C c l x r Hs Hrb) as (s1 & t' & R & [Hd Hz] & Hs1 & Hel1 & Hrb1). erewrite st_bind_run by exact R. erewrite st_bind_run by reflexivity.
  eexists. split; [done|]. split; [|exact Hd]. split; [exists t'; split_and!; [by destruct Hs1|done|by rewrite Hel1, <- !app_assoc]|].
  cbn [m_size]. rewrite Hz, Hsize, wrap_sub_l. f_equal. repeat (rewrite length_app; cbn [length]). lia.
Qed.

(** The queries of the container are those of the sequence. *)
Theorem tree_queries_exact s L (U : Type) (key : U) (cmpk : U → nat → Z) cmp : implements s L → comp_ordered cmp L → comp_ordered (cmpk key) L →
  empty s = Ok (bool_decide (L = []), s) ∧ begin s = Ok (head L, s) ∧ RB_MAX s = Ok (last L, s) ∧
  walk (length L) (head L) s = Ok (L, s) ∧
  (∀ L1 x L2, L = L1 ++ x :: L2 → RB_NEXT (Some x) s = Ok (head L2, s) ∧ RB_PREV (Some x) s = Ok (last L1, s)) ∧
  find cmp s = Ok (match_of cmp L, s) ∧ nfind cmp s = Ok (first_not_below cmp L, s) ∧
  (∀ q, match_of cmp L = Some q → find_existing cmp s = Ok (Some q, s)) ∧
  find_key key cmpk s = Ok (match_of (cmpk key) L, s) ∧ nfind_key key cmpk s = Ok (first_not_below (cmpk key) L, s) ∧
  (∀ q, match_of (cmpk key) L = Some q → find_existing_key key cmpk s = Ok (Some q, s)).
Proof.
  intros Himp Ho Hok. destruct (ends_of s L Himp) as (H1 & H2 & H3). split_and!; [done|done|done|by apply (walk_of s _ [] L)| | | | | | |].
  { intros L1 x L2 ->. by apply next_of. }
  all: destruct Himp as (t & Hs & _ & <-).
  - by apply RB_FIND_run.
  - by apply RB_NFIND_run.
  - intros q Hq. by eapply RB_FIND_EXISTING_run.
  - by apply (RB_FIND_run s t (cmpk key)).
  - by apply (RB_NFIND_run s t (cmpk key)).
  - intros q Hq. by apply (RB_FIND_EXISTING_run s t (cmpk key)).
Qed.

(** ** Comparators

    With a comparator that orders all nodes, a sorted sequence is ordered for every
    search and stays sorted. *)
Class Comparator (cmp2 : nat → nat → Z) : Prop := {
  cmp_flip : ∀ x y, Z.sgn (cmp2 x y) = - Z.sgn (cmp2 y x);
  cmp_trans : ∀ x y z, cmp2 x y ≤ 0 → cmp2 y z < 0 → cmp2 x z < 0;
}.

Section comparator.
Context (cmp2 : nat → nat → Z) {Hcmp : Comparator cmp2}.
Definition sorted L : Prop := StronglySorted (λ x y, cmp2 x y < 0) L.

Lemma sorted_ordered L x : sorted L → comp_ordered (cmp2 x) L.
Proof using Hcmp.
  induction 1 as [|y L HL IH Hy]; constructor; [done|]. eapply Forall_impl; [exact Hy|]. cbn. intros z Hz Hx. by eapply cmp_trans.
Qed.
Lemma sorted_insert L1 x L2 : sorted (L1 ++ L2) → Forall (λ z, 0 < cmp2 x z) L1 → Forall (λ z, cmp2 x z < 0) L2 → sorted (L1 ++ x :: L2).
Proof using Hcmp.
  unfold sorted. rewrite !StronglySorted_app, StronglySorted_cons, !Forall_forall. intros (H12 & H1 & H2) Hx1 Hx2. split_and!; [|done|done|done].
  intros y z Hy [->|Hz]%elem_of_cons; [|by apply H12]. specialize (Hx1 _ Hy). pose proof (cmp_flip x y). lia.
Qed.
Lemma sorted_remove L1 x L2 : sorted (L1 ++ x :: L2) → sorted (L1 ++ L2).
Proof.
  unfold sorted. rewrite !StronglySorted_app, StronglySorted_cons. intros (H12 & H1 & _ & H2). split_and!; [|done|done].
  intros y z Hy Hz. apply H12; [done|by right].
Qed.

(** *** Sequences of operations *)
Inductive op : Set := OpInsert (x : nat) | OpErase (x : nat).
Definition exec_op (o : op) : M unit :=
  match o with OpInsert x => _ ← insert x (cmp2 x); mret tt | OpErase x => _ ← erase (Some x); mret tt end.
(** The same on sequences, *)
Definition abs_op L (o : op) : list nat :=
  match o with
  | OpInsert x => filter (λ z, 0 < cmp2 x z) L ++ x :: filter (λ z, cmp2 x z < 0) L
  | OpErase x => filter (λ z, z ≠ x) L
  end.
(** for nodes that exist and are not linked and keys that are new, or nodes of the tree. *)
Definition allowed (nodes : gset nat) L (o : op) : Prop :=
  match o with
  | OpInsert x => x ∈ nodes ∧ x ∉ L ∧ Forall (λ z, cmp2 x z ≠ 0) L
  | OpErase x => x ∈ L
  end.
Fixpoint all_allowed (nodes : gset nat) L (ops : list op) : Prop :=
  match ops with [] => True | o :: ops' => allowed nodes L o ∧ all_allowed nodes (abs_op L o) ops' end.

Lemma filter_all (P : nat → Prop) `{∀ z, Decision (P z)} L : Forall P L → filter P L = L.
Proof. induction 1 as [|z L Hz HL IH]; [done|]. by rewrite filter_cons_True, IH. Qed.

Lemma exec_op_run s L o : tree_holds s L → sorted L → allowed (dom (m_entries s)) L o →
  ∃ s', exec_op o s = Ok (tt, s') ∧ tree_holds s' (abs_op L o) ∧ sorted (abs_op L o) ∧ dom (m_entries s') = dom (m_entries s).
Proof using Hcmp.
  intros Hs Hsort. destruct o as [x|x]; cbn [allowed exec_op abs_op].
  - intros (Hx%elem_of_dom & Hnew & Hkey). destruct (tree_insert_exact s L x (cmp2 x) Hs (sorted_ordered L x Hsort) Hx Hnew) as (s' & R & Hd & Hres).
    rewrite decide_False in Hres by (rewrite Exists_exists; rewrite Forall_forall in Hkey; intros (z & Hz & Hz0); by apply (Hkey z Hz)).
    destruct Hres as (L1 & L2 & -> & Hh & F1 & F2). exists s'. split; [by erewrite st_bind_run by exact R|].
    rewrite !filter_app, (filter_all _ L1), (filter_none _ L2), (filter_none _ L1), (filter_all _ L2), app_nil_r; try done.
    + split_and!; [done|by apply sorted_insert|done].
    + eapply Forall_impl; [exact F1|]. cbn. lia.
    + eapply Forall_impl; [exact F2|]. cbn. lia.
  - intros (L1 & L2 & ->)%list_elem_of_split. pose proof Hs as [(t & Ht & _ & Hel) _]. pose proof (rs_nodup _ _ Ht) as Hnd. rewrite Hel in Hnd.
    apply NoDup_app in Hnd as (_ & Hd1 & [Hd2 _]%NoDup_cons).
    destruct (tree_erase_exact s L1 x L2 Hs) as (s' & R & Hh & Hd). exists s'. split; [by erewrite st_bind_run by exact R|].
    rewrite filter_app, (filter_all _ L1), filter_cons_False, (filter_all _ L2); [by split_and!; [|eapply sorted_remove|]| |tauto|].
    + apply Forall_forall. intros z Hz ->. done.
    + apply Forall_forall. intros z Hz ->. apply (Hd1 x Hz). by left.
Qed.

(** (C6) The tree implements a sorted sequence: any insertions and removals of nodes succeed
    and leave a red-black tree whose nodes, in order, are the sequence that results. *)
Theorem rb_tree_refines s L (ops : list op) : tree_holds s L → sorted L → all_allowed (dom (m_entries s)) L ops →
  ∃ s', st_iter exec_op ops s = Ok (tt, s') ∧ tree_holds s' (foldl abs_op L ops) ∧ sorted (foldl abs_op L ops).
Proof using Hcmp.
  revert s L. induction ops as [|o ops IH]; intros s L Hs Hsort; cbn [st_iter all_allowed foldl]; [by exists s|]. intros [Ho Hops].
  destruct (exec_op_run s L o Hs Hsort Ho) as (s1 & R & Hs1 & Hsort1 & Hd). rewrite <- Hd in Hops.
  destruct (IH s1 _ Hs1 Hsort1 Hops) as (s2 & R2 & Hs2 & Hsort2). exists s2. split; [by erewrite st_bind_run by exact R|done].
Qed.
End comparator.

(** A search ends within twice the logarithm of the size. *)
Theorem tree_search_bound s L cmp fuel : implements s L → comp_ordered cmp L → (2 * Nat.log2 (length L + 1) ≤ fuel)%nat →
  find_loop fuel cmp (m_root s) s = Ok (match_of cmp L, s) ∧ nfind_loop fuel cmp (m_root s) None s = Ok (first_not_below cmp L, s).
Proof.
  intros (t & Hs & Hrb & <-) Ho Hf. pose proof (rb_height t Hrb) as Hh. rewrite (rs_root _ _ Hs). split.
  - destruct (find_loop_search fuel cmp s [] t Hs) as (C' & t' & Et & Hp & R & Hm); [constructor|lia|]. rewrite R. cbn [plug] in Et. subst t.
    pose proof (path_match cmp C' t' Ho Hp) as Hpm. destruct t'; [by destruct Hpm as [-> _]|by destruct (Hpm Hm) as [-> _]].
  - destruct (nfind_loop_search fuel cmp s [] t Hs) as (C' & t' & Et & Hp & R & Hm); [constructor|lia|]. cbn [after head] in R. rewrite R. cbn [plug] in Et. subst t.
    pose proof (path_match cmp C' t' Ho Hp) as Hpm. destruct t'; [by destruct Hpm as [_ ->]|by destruct (Hpm Hm) as [_ ->]].
Qed.

(** ** A tree of ten nodes *)
Module SampleTree.
Definition key (x : nat) : Z := Z.of_nat x * 5 mod 13.
Definition cmp2 (x y : nat) : Z := key x - key y.
#[global] Instance cmp2_comparator : Comparator cmp2.
Proof. split; unfold cmp2; intros; lia. Qed.
Definition blank : RBEntry := mkRBEntry None None None RB_BLACK.
Definition start : IntrusiveRedBlackTree := mkTree (list_to_map ((λ x, (x, blank)) <$> seq 0 12)) None 0.
Definition ops : list op := (OpInsert <$> seq 0 12) ++ [OpErase 3%nat; OpErase 8%nat].
Definition state : IntrusiveRedBlackTree := match st_iter (exec_op cmp2) ops start with Ok (_, s) => s | Err _ => start end.
Definition sequence : list nat := foldl (abs_op cmp2) [] ops.

Lemma start_holds : tree_holds start [].
Proof. split; [|done]. exists E. split; [split; [done|done|constructor]|]. split; [split; [by exists O|done]|done]. Qed.
#[global] Instance allowed_dec nodes L o : Decision (allowed cmp2 nodes L o).
Proof. destruct o; cbn; apply _. Defined.
#[global] Instance all_allowed_dec nodes L os : Decision (all_allowed cmp2 nodes L os).
Proof. revert L. induction os as [|o os IH]; intros L; cbn; apply _. Defined.

(** The tree in the heap. *)
Fixpoint decode (fuel : nat) (h : gmap nat RBEntry) (q : ptr) : tree :=
  match fuel, q with
  | S fuel', Some x => match h !! x with Some v => T (m_rbe_color v) (decode fuel' h (m_rbe_left v)) x (decode fuel' h (m_rbe_right v)) | None => E end
  | _, _ => E
  end.
Definition sample : tree := decode 12 (m_entries state) (m_root state).
Lemma state_implements : implements state sequence.
Proof.
  exists sample. split_and!; [split; [vm_compute; reflexivity|vm_compute; tauto|]|split; [exists 2%nat; vm_compute; tauto|vm_compute; reflexivity]|vm_compute; reflexivity].
  apply (bool_decide_unpack _). vm_compute. exact I.
Qed.
Lemma sequence_ordered : comp_ordered (cmp2 7%nat) sequence.
Proof. apply (sorted_ordered cmp2). unfold sorted. vm_compute. repeat constructor. Qed.
End SampleTree.

Lemma rb_tree_refines_witness : ∃ s', st_iter (exec_op SampleTree.cmp2) SampleTree.ops SampleTree.start = Ok (tt, s') ∧
  tree_holds s' SampleTree.sequence ∧ sorted SampleTree.cmp2 SampleTree.sequence.
Proof.
  apply (rb_tree_refines SampleTree.cmp2 SampleTree.start []); [apply SampleTree.start_holds|constructor|].
  apply (bool_decide_unpack _). vm_compute. exact I.
Defined.
Lemma tree_queries_exact_witness : find_key 7%nat SampleTree.cmp2 SampleTree.state = Ok (Some 7%nat, SampleTree.state).
Proof.
  destruct (tree_queries_exact SampleTree.state SampleTree.sequence nat 7%nat SampleTree.cmp2 (SampleTree.cmp2 7%nat)) as (_ & _ & _ & _ & _ & _ & _ & _ & Hf & _);
    [apply SampleTree.state_implements|apply SampleTree.sequence_ordered|apply SampleTree.sequence_ordered|]. rewrite Hf. reflexivity.
Defined.
Lemma tree_search_bound_witness : find_loop 6 (SampleTree.cmp2 7%nat) (m_root SampleTree.state) SampleTree.state = Ok (Some 7%nat, SampleTree.state).
Proof.
  destruct (tree_search_bound SampleTree.state SampleTree.sequence (SampleTree.cmp2 7%nat) 6) as [Hf _];
    [apply SampleTree.state_implements|apply SampleTree.sequence_ordered|vm_compute; lia|]. rewrite Hf. reflexivity.
Defined.
