(* ===== verification/RBTreeRegion.v ===== *)
(** * Region trees in red-black trees

    [MemoryRegion.v] works with the sequence of regions of a [KMemoryRegionTree];
    the tree itself is a red-black tree with the comparator of the regions.  This
    comparator does not order regions that overlap, but the regions of a tree never
    do, which is enough: the operations of the red-black tree are those on the
    sequence. *)

From stdpp Require Import sorting.
From S2P Require Import Prelude MemoryRegion MemoryRegionSpec RBTree RBTreeSpec RBTreeBalance RBTreeOps RBTreeRefine.
Implicit Types (s : RBTree.IntrusiveRedBlackTree) (L : list nat) (x y z q : nat).

Section regions.
(** The region that a node belongs to. *)
Context (reg : nat → Region.KMemoryRegion).
Definition compare_with (r : Region.KMemoryRegion) (z : nat) : Z := Region.Compare r (reg z).

Lemma compare_values (r r' : Region.KMemoryRegion) :
  (Region.Compare r r' < 0 ↔ Region.m_address r < Region.m_address r') ∧
  (0 < Region.Compare r r' ↔ Region.m_address r' ≤ Region.m_address r ∧ Region.m_last_address r' < Region.m_address r).
Proof. unfold Region.Compare. destruct (Z.ltb_spec (Region.m_address r) (Region.m_address r')), (Z.leb_spec (Region.m_address r) (Region.m_last_address r')); lia. Qed.

Lemma tiled_ordered L r : tiled (reg <$> L) → comp_ordered (compare_with r) L.
Proof.
  induction L as [|y L IH]; [constructor|]. cbn [fmap list_fmap tiled]. intros (Hy & Hsep & Ht). constructor; [by apply IH|].
  apply Forall_forall. intros z Hz Hle. unfold compare_with in *. specialize (Hsep (reg z) ltac:(by apply list_elem_of_fmap_2)). destruct Hy as [Hy _].
  pose proof (compare_values r (reg y)). pose proof (compare_values r (reg z)). lia.
Qed.

Lemma tree_find_match L r : reg <$> match_of (compare_with r) L = (i ← Region.tree_find r (reg <$> L); (reg <$> L) !! i).
Proof.
  unfold match_of. induction L as [|y L IH]; [done|]. cbn [fmap list_fmap Region.tree_find]. rewrite filter_cons. unfold compare_with at 1.
  destruct (Z.eqb_spec (Region.Compare r (reg y)) 0) as [E|E]; [by rewrite decide_True|]. rewrite decide_False, IH by done.
  by destruct (Region.tree_find r _).
Qed.

Lemma tree_insert_split r L1 L2 : Forall (λ z, 0 < compare_with r z) L1 → Forall (λ z, compare_with r z < 0) L2 →
  Region.tree_insert r (reg <$> (L1 ++ L2)) = (reg <$> L1) ++ r :: (reg <$> L2).
Proof.
  unfold compare_with. induction 1 as [|y L1 Hy HL IH]; intros H2; cbn [app fmap list_fmap Region.tree_insert].
  - destruct H2 as [|z L2 Hz]; [done|]. cbn. by rewrite (proj2 (Z.ltb_lt _ 0)).
  - rewrite (proj2 (Z.ltb_ge _ 0)), (proj2 (Z.ltb_lt 0 _)) by lia. f_equal. by apply IH.
Qed.
Lemma tree_insert_present r L : comp_ordered (compare_with r) L → Exists (λ z, compare_with r z = 0) L → Region.tree_insert r (reg <$> L) = reg <$> L.
Proof.
  unfold compare_with. induction L as [|y L IH]; intros Ho He; [by apply Exists_nil in He|]. cbn [fmap list_fmap Region.tree_insert].
  apply StronglySorted_cons in Ho as [Hy Ho]. rewrite Forall_forall in Hy. destruct (Z.ltb_spec (Region.Compare r (reg y)) 0) as [Hlt|Hge].
  { apply Exists_cons in He as [?|(z & Hz & Hz0)%Exists_exists]; [lia|]. specialize (Hy z Hz). lia. }
  destruct (Z.ltb_spec 0 (Region.Compare r (reg y))) as [Hgt|]; [|done]. f_equal. apply IH; [done|]. apply Exists_cons in He as [?|He]; [lia|done].
Qed.

(** (C30) The red-black tree of a region tree does what [KMemoryRegionTree] expects of it:
    it finds the region of an address, and inserts a region in its place. *)
Theorem region_tree_implemented s L x a : tree_holds s L → tiled (reg <$> L) → is_Some (RBTree.m_entries s !! x) → x ∉ L →
  (∃ q : option nat, RBTree.find (compare_with (Region.probe a)) s = Ok (q, s) ∧ reg <$> q = Region.Find (reg <$> L) a) ∧
  (∃ s' L', RBTree.insert x (compare_with (reg x)) s = Ok (Some x, s') ∧ implements s' L' ∧ reg <$> L' = Region.tree_insert (reg x) (reg <$> L)).
Proof.
  intros Hs Ht Hx Hnew. split.
  - exists (match_of (compare_with (Region.probe a)) L). destruct Hs as [(t & Hr & _ & <-) _].
    split; [by apply RB_FIND_run, tiled_ordered|]. apply tree_find_match.
  - destruct (tree_insert_exact s L x (compare_with (reg x)) Hs (tiled_ordered _ _ Ht) Hx Hnew) as (s' & R & _ & Hres).
    destruct (decide _) as [He|He].
    + exists s', L. split_and!; [done|apply Hres|]. rewrite tree_insert_present; [done|by apply tiled_ordered|done].
    + destruct Hres as (L1 & L2 & -> & [Hh _] & F1 & F2). exists s', (L1 ++ x :: L2). split_and!; [done|done|]. by rewrite tree_insert_split, fmap_app.
Qed.
End regions.

(** Four regions, one of them not in the tree yet. *)
Module SampleRegions.
Definition reg (x : nat) : Region.KMemoryRegion := Region.mkRegion (Z.of_nat x * 4096) Region.NoPair (Z.of_nat x * 4096 + 4095) 0 0.
Definition state : RBTree.IntrusiveRedBlackTree :=
  match st_iter (λ x, RBTree.insert x (compare_with reg (reg x)) ≫= λ _, mret tt) [5; 1; 3]%nat SampleTree.start with Ok (_, s) => s | Err _ => SampleTree.start end.
Definition tree : tree := SampleTree.decode 4 (RBTree.m_entries state) (RBTree.m_root state).
Lemma reg_ok x : (x < 1000)%nat → region_ok (reg x).
Proof. intros Hx. unfold region_ok, reg, Region.NoPair. cbn [Region.m_address Region.m_last_address Region.m_pair_address]. lia. Qed.
Lemma regions_tiled : tiled (reg <$> [1; 3; 5]%nat).
Proof.
  cbn [fmap list_fmap tiled]. split_and!; try (apply reg_ok; lia); try done; intros r; rewrite ?elem_of_cons, elem_of_nil.
  all: intros Hr; repeat destruct Hr as [->|Hr]; try done; vm_compute; reflexivity.
Qed.
Lemma state_holds : tree_holds state [1; 3; 5]%nat.
Proof.
  split; [|vm_compute; reflexivity]. exists tree. split_and!; [|split; [exists 1%nat; vm_compute; tauto|vm_compute; reflexivity]|vm_compute; reflexivity].
  split; [vm_compute; reflexivity|vm_compute; tauto|]. apply (bool_decide_unpack _). vm_compute. exact I.
Qed.
End SampleRegions.

Lemma region_tree_implemented_witness :
  ∃ s' L', RBTree.insert 2%nat (compare_with SampleRegions.reg (SampleRegions.reg 2%nat)) SampleRegions.state = Ok (Some 2%nat, s') ∧ implements s' L' ∧
    SampleRegions.reg <$> L' = Region.tree_insert (SampleRegions.reg 2%nat) (SampleRegions.reg <$> [1; 3; 5]%nat).
Proof.
  apply (region_tree_implemented SampleRegions.reg SampleRegions.state [1; 3; 5]%nat 2%nat 0).
  - apply SampleRegions.state_holds.
  - apply SampleRegions.regions_tiled.
  - vm_compute. by eexists.
  - apply (bool_decide_unpack _). vm_compute. exact I.
Defined.
