(* ===== verification/PageTableEntry.v ===== *)
(** * Page table entries

    [PageTableEntry] and its three levels (libmesosphere,
    [arch/host/kern_k_page_table_entry.hpp]): a 64-bit word that holds a physical
    address in bits 12 to 47 and attributes around it.  Bit 58 is the software
    "valid" bit; with bit 1 it tells a block, a table and an empty entry apart. *)

From S2P Require Import Prelude Vapours.

Module PTE.

Definition PageSize : Z := 0x1000.
Definition L1BlockSize : Z := 0x40000000.
Definition L1ContiguousBlockSize : Z := 0x10 * L1BlockSize.
Definition L2BlockSize : Z := 0x200000.
Definition L2ContiguousBlockSize : Z := 0x10 * L2BlockSize.
Definition L3BlockSize : Z := PageSize.
Definition L3ContiguousBlockSize : Z := 0x10 * L3BlockSize.
Definition MaxPageTableEntries : Z := PageSize / 8.

(** ** Enumerations *)
Inductive Permission : Set := KernelRWX | KernelRX | KernelR | KernelRW | UserRX | UserR | UserRW.
Definition perm_fields (pxn_uxn : Z * Z) (ap : Z) : Z :=
  Z.lor (Z.lor (Z.shiftl (fst pxn_uxn) 53) (Z.shiftl (snd pxn_uxn) 54)) (Z.shiftl ap 6).
Definition Permission_value (p : Permission) : Z :=
  match p with
  | KernelRWX => perm_fields (0, 1) 0
  | KernelRX => perm_fields (0, 1) 2
  | KernelR => perm_fields (1, 1) 2
  | KernelRW => perm_fields (1, 1) 0
  | UserRX => perm_fields (1, 0) 3
  | UserR => perm_fields (1, 1) 3
  | UserRW => perm_fields (1, 1) 1
  end.
Inductive Shareable : Set := NonShareable | OuterShareable | InnerShareable.
Definition Shareable_value (s : Shareable) : Z :=
  match s with NonShareable => Z.shiftl 0 8 | OuterShareable => Z.shiftl 2 8 | InnerShareable => Z.shiftl 3 8 end.
Inductive PageAttribute : Set := Device_nGnRnE | Device_nGnRE | NormalMemory | NormalMemoryNotCacheable.
Definition PageAttribute_value (a : PageAttribute) : Z :=
  match a with
  | Device_nGnRnE => Z.shiftl 0 2 | Device_nGnRE => Z.shiftl 1 2
  | NormalMemory => Z.shiftl 2 2 | NormalMemoryNotCacheable => Z.shiftl 3 2
  end.
Inductive MappingFlag : Set := NotMapped | Mapped.
Definition MappingFlag_value (f : MappingFlag) : Z := match f with NotMapped => 0 | Mapped => 1 end.
Definition AccessFlag_Accessed : Z := Z.shiftl 1 10.

Definition SoftwareReservedBit_None : Z := 0.
Definition SoftwareReservedBit_DisableMergeHead : Z := Z.shiftl 1 0.
Definition SoftwareReservedBit_DisableMergeHeadAndBody : Z := Z.shiftl 1 1.
Definition SoftwareReservedBit_DisableMergeHeadTail : Z := Z.shiftl 1 2.
Definition SoftwareReservedBit_Valid : Z := Z.shiftl 1 3.
Definition EncodeSoftwareReservedBits (head head_body tail : bool) : Z :=
  Z.lor (Z.lor (if head then SoftwareReservedBit_DisableMergeHead else SoftwareReservedBit_None)
               (if head_body then SoftwareReservedBit_DisableMergeHeadAndBody else SoftwareReservedBit_None))
        (if tail then SoftwareReservedBit_DisableMergeHeadTail else SoftwareReservedBit_None).

Definition ExtensionFlag_DisableMergeHead : Z := Z.shiftl SoftwareReservedBit_DisableMergeHead 55.
Definition ExtensionFlag_DisableMergeHeadAndBody : Z := Z.shiftl SoftwareReservedBit_DisableMergeHeadAndBody 55.
Definition ExtensionFlag_DisableMergeTail : Z := Z.shiftl SoftwareReservedBit_DisableMergeHeadTail 55.
Definition ExtensionFlag_Valid : Z := Z.shiftl SoftwareReservedBit_Valid 55.
Definition ExtensionFlag_TestTableMask : Z := Z.lor ExtensionFlag_Valid (Z.shiftl 1 1).

(** ** Entries: the raw word [m_attributes] *)
Definition InvalidPageTableEntry : Z := 0.
Definition extend (rhs new_attr : Z) : Z := Z.lor rhs new_attr.
Definition PageTableEntry (perm : Permission) (p_a : PageAttribute) (share : Shareable) (m : MappingFlag) : Z :=
  Z.lor (Z.lor (Z.lor (Z.lor (Z.lor (Permission_value perm) AccessFlag_Accessed) (PageAttribute_value p_a))
    (Shareable_value share)) ExtensionFlag_Valid) (MappingFlag_value m).

Definition GetBits (e offset count : Z) : Z := Z.land (Z.shiftr e offset) (Z.shiftl 1 count - 1).
Definition SelectBits (e offset count : Z) : Z := Z.land e (Z.shiftl (Z.shiftl 1 count - 1) offset).
Definition SetBits (e offset count value : Z) : Z :=
  let mask := Z.shiftl (Z.shiftl 1 count - 1) offset in
  Z.lor (Z.land e (u64 (Z.lnot mask))) (Z.shiftl (Z.land value (Z.shiftr mask offset)) offset).
Definition SetBitsDirect (e offset count value : Z) : Z :=
  let mask := Z.shiftl (Z.shiftl 1 count - 1) offset in
  Z.lor (Z.land e (u64 (Z.lnot mask))) (Z.land value mask).
Definition SetBit (e offset : Z) (enabled : bool) : Z :=
  let mask := Z.shiftl 1 offset in
  if enabled then Z.lor e mask else Z.land e (u64 (Z.lnot mask)).

Definition GetSoftwareReservedBits (e : Z) : Z := GetBits e 55 3.
Definition IsHeadMergeDisabled (e : Z) : bool :=
  negb (Z.land (GetSoftwareReservedBits e) SoftwareReservedBit_DisableMergeHead =? 0).
Definition IsHeadAndBodyMergeDisabled (e : Z) : bool :=
  negb (Z.land (GetSoftwareReservedBits e) SoftwareReservedBit_DisableMergeHeadAndBody =? 0).
Definition IsTailMergeDisabled (e : Z) : bool :=
  negb (Z.land (GetSoftwareReservedBits e) SoftwareReservedBit_DisableMergeHeadTail =? 0).
Definition IsHeadOrHeadAndBodyMergeDisabled (e : Z) : bool :=
  negb (Z.land (GetSoftwareReservedBits e)
    (Z.lor SoftwareReservedBit_DisableMergeHead SoftwareReservedBit_DisableMergeHeadAndBody) =? 0).
Definition IsUserExecuteNever (e : Z) : bool := negb (GetBits e 54 1 =? 0).
Definition IsPrivilegedExecuteNever (e : Z) : bool := negb (GetBits e 53 1 =? 0).
Definition IsContiguous (e : Z) : bool := negb (GetBits e 52 1 =? 0).
Definition IsGlobal (e : Z) : bool := GetBits e 11 1 =? 0.
Definition GetAccessFlag (e : Z) : Z := SelectBits e 10 1.
Definition GetShareable (e : Z) : Z := SelectBits e 8 2.
Definition GetPageAttribute (e : Z) : Z := SelectBits e 2 3.
Definition IsReadOnly (e : Z) : bool := negb (GetBits e 7 1 =? 0).
Definition IsUserAccessible (e : Z) : bool := negb (GetBits e 6 1 =? 0).
Definition IsNonSecure (e : Z) : bool := negb (GetBits e 5 1 =? 0).
Definition IsBlock (e : Z) : bool := Z.land e ExtensionFlag_TestTableMask =? ExtensionFlag_Valid.
Definition IsTable (e : Z) : bool := Z.land e ExtensionFlag_TestTableMask =? 2.
Definition IsEmpty (e : Z) : bool := Z.land e ExtensionFlag_TestTableMask =? 0.
Definition IsMapped (e : Z) : bool := negb (GetBits e 0 1 =? 0).
(** [L3PageTableEntry::IsBlock] hides the base's: a page has both bits. *)
Definition L3_IsBlock (e : Z) : bool := Z.land e ExtensionFlag_TestTableMask =? ExtensionFlag_TestTableMask.

Definition SetUserExecuteNever (en : bool) (e : Z) : Z := SetBit e 54 en.
Definition SetPrivilegedExecuteNever (en : bool) (e : Z) : Z := SetBit e 53 en.
Definition SetContiguous (en : bool) (e : Z) : Z := SetBit e 52 en.
Definition SetGlobal (en : bool) (e : Z) : Z := SetBit e 11 (negb en).
Definition SetAccessFlag (f e : Z) : Z := SetBitsDirect e 10 1 f.
Definition SetShareable (s : Shareable) (e : Z) : Z := SetBitsDirect e 8 2 (Shareable_value s).
Definition SetReadOnly (en : bool) (e : Z) : Z := SetBit e 7 en.
Definition SetUserAccessible (en : bool) (e : Z) : Z := SetBit e 6 en.
Definition SetPageAttribute (a : PageAttribute) (e : Z) : Z := SetBitsDirect e 2 3 (PageAttribute_value a).
Definition SetMapped (m : bool) (e : Z) : Z := SetBit e 0 m.

(** ** The three levels *)

(** The table constructor of levels 1 and 2, and their block constructor. *)
Definition TableEntry (phys_addr : Z) (pxn : bool) : Z :=
  Z.lor (Z.lor (Z.lor (Z.shiftl 3 60) (Z.shiftl (Z.b2z pxn) 59)) phys_addr) 3.
Definition BlockEntry (phys_addr attr sw_reserved_bits : Z) (contig : bool) : Z :=
  extend attr (Z.lor (Z.lor (Z.lor (Z.shiftl sw_reserved_bits 55) (Z.shiftl (Z.b2z contig) 52)) phys_addr) ExtensionFlag_Valid).
Definition L3BlockEntry (phys_addr attr sw_reserved_bits : Z) (contig : bool) : Z :=
  extend attr (Z.lor (Z.lor (Z.lor (Z.shiftl sw_reserved_bits 55) (Z.shiftl (Z.b2z contig) 52)) phys_addr) ExtensionFlag_TestTableMask).

Definition L1_GetBlock (e : Z) : Z := SelectBits e 30 18.
Definition L2_GetBlock (e : Z) : Z := SelectBits e 21 27.
Definition L3_GetBlock (e : Z) : Z := SelectBits e 12 36.
Definition GetTable (e : Z) : Z := SelectBits e 12 36.

Definition L1_IsCompatibleWithAttribute (e rhs sw_reserved_bits : Z) (contig : bool) : bool :=
  BlockEntry (L1_GetBlock e) rhs sw_reserved_bits contig =? e.
Definition L2_IsCompatibleWithAttribute (e rhs sw_reserved_bits : Z) (contig : bool) : bool :=
  BlockEntry (L2_GetBlock e) rhs sw_reserved_bits contig =? e.
Definition L3_IsCompatibleWithAttribute (e rhs sw_reserved_bits : Z) (contig : bool) : bool :=
  L3BlockEntry (L3_GetBlock e) rhs sw_reserved_bits contig =? e.

(** ** Attributes and addresses that fit an entry *)
Section fields.
Implicit Types a e p k : Z.

(** The bits of an address aligned to [2 ^ k]. *)
Definition address_mask k : Z := 2 ^ 48 - 2 ^ k.
Definition phys_ok k p : Prop := 0 ≤ p < 2 ^ 48 ∧ p mod 2 ^ k = 0.

(** What [Map] and [Reprotect] need of their attributes: a valid entry that is not
    contiguous and leaves the address bits clear. *)
Definition attr_ok a : Prop :=
  Z.land a (address_mask 12) = 0 ∧ Z.land a ExtensionFlag_TestTableMask = ExtensionFlag_Valid ∧
  Z.land a (Z.shiftl 1 52) = 0.

Lemma template_ok perm p_a share m : attr_ok (PageTableEntry perm p_a share m).
Proof. by destruct perm, p_a, share, m. Qed.

Lemma phys_masked k p : 0 ≤ k ≤ 48 → phys_ok k p → Z.land p (address_mask k) = p.
Proof.
  intros Hk [Hp Hm]. apply Z.bits_inj'. intros i Hi. rewrite Z.land_spec.
  assert (address_mask k = Z.shiftl (Z.ones (48 - k)) k) as ->.
  { unfold address_mask. rewrite Z.shiftl_mul_pow2, Z.ones_equiv, <- Z.sub_1_r by lia.
    rewrite Z.mul_sub_distr_r, <- Z.pow_add_r by lia. by rewrite Z.sub_add, Z.mul_1_l. }
  rewrite Z.shiftl_spec by lia.
  destruct (decide (i < k)) as [Hik|Hik].
  - rewrite (Z.testbit_neg_r _ (i - k)) by lia. rewrite andb_false_r. symmetry.
    rewrite <- (Z.mod_pow2_bits_low p k i) by lia. by rewrite Hm, Z.bits_0.
  - destruct (decide (i < 48)).
    + by rewrite Z.ones_spec_low, andb_true_r by lia.
    + rewrite Z.ones_spec_high, andb_false_r by lia. symmetry.
      rewrite <- (Z.mod_small p (2 ^ 48)) by done. by apply Z.mod_pow2_bits_high; lia.
Qed.

Lemma phys_land k p m : 0 ≤ k ≤ 48 → phys_ok k p → Z.land p m = Z.land p (Z.land (address_mask k) m).
Proof. intros Hk Hp. rewrite Z.land_assoc. by rewrite phys_masked. Qed.

Lemma phys_weaken k k' p : 0 ≤ k ≤ k' → phys_ok k' p → phys_ok k p.
Proof.
  intros Hk [Hp Hm]. split; [done|].
  apply Z.mod_divide; [pose proof (pow2_pos k); lia|].
  apply Z.mod_divide in Hm; [|pose proof (pow2_pos k'); lia].
  etrans; [|done]. exists (2 ^ (k' - k)). rewrite <- Z.pow_add_r by lia. f_equal. lia.
Qed.

Lemma attr_address a m : attr_ok a → Z.land (address_mask 12) m = m → Z.land a m = 0.
Proof. intros (Ha & _) <-. by rewrite Z.land_assoc, Ha. Qed.

Lemma GetBits_1 e n : 0 ≤ n → GetBits e n 1 = Z.b2z (Z.testbit e n).
Proof.
  intros Hn. unfold GetBits. change (Z.shiftl 1 1 - 1) with (Z.ones 1).
  rewrite Z.land_ones, Z.shiftr_div_pow2, Z.testbit_spec' by lia. done.
Qed.

Lemma IsContiguous_bit e : IsContiguous e = Z.testbit e 52.
Proof. unfold IsContiguous. rewrite GetBits_1 by lia. by destruct (Z.testbit e 52). Qed.

Lemma mask_bit e n : 0 ≤ n → Z.land e (Z.shiftl 1 n) = 0 → Z.testbit e n = false.
Proof.
  intros Hn H. apply (f_equal (λ z, Z.testbit z n)) in H.
  by rewrite Z.land_spec, Z.shiftl_spec, Z.sub_diag, Z.bits_0, andb_true_r in H by lia.
Qed.

(** A mask meets the address of an entry only in the address bits. *)
Ltac entry_mask k p Hp :=
  unfold extend; rewrite ?Z.land_lor_distr_l, (phys_land k p) by first [lia|exact Hp];
  repeat match goal with
  | |- context [Z.land (address_mask ?j) ?m] =>
      let v := eval vm_compute in (Z.land (address_mask j) m) in change (Z.land (address_mask j) m) with v
  end; rewrite ?Z.land_0_r.

Lemma attr_bit52 a : attr_ok a → Z.testbit a 52 = false.
Proof. intros (_ & _ & H). apply mask_bit; [lia|done]. Qed.

Lemma phys_bit52 p : phys_ok 12 p → Z.testbit p 52 = false.
Proof. intros Hp. apply mask_bit; [lia|]. by entry_mask 12 p Hp. Qed.

Lemma BlockEntry_bits p a c : attr_ok a → phys_ok 12 p →
  IsBlock (BlockEntry p a 0 c) = true ∧ IsTable (BlockEntry p a 0 c) = false ∧
  IsContiguous (BlockEntry p a 0 c) = c.
Proof.
  intros Ha Hp. assert (Z.land (BlockEntry p a 0 c) ExtensionFlag_TestTableMask = ExtensionFlag_Valid) as Hm.
  { unfold BlockEntry. entry_mask 12 p Hp. destruct Ha as (_ & -> & _). by destruct c. }
  unfold IsBlock, IsTable. rewrite Hm. split_and!; [done..|].
  rewrite IsContiguous_bit. unfold BlockEntry, extend. rewrite !Z.lor_spec.
  rewrite (attr_bit52 a), (phys_bit52 p) by done. by destruct c.
Qed.

Lemma L3BlockEntry_bits p a c : attr_ok a → phys_ok 12 p →
  L3_IsBlock (L3BlockEntry p a 0 c) = true ∧ IsContiguous (L3BlockEntry p a 0 c) = c.
Proof.
  intros Ha Hp. split.
  - unfold L3_IsBlock, L3BlockEntry. entry_mask 12 p Hp. destruct Ha as (_ & -> & _). by destruct c.
  - rewrite IsContiguous_bit. unfold L3BlockEntry, extend. rewrite !Z.lor_spec.
    rewrite (attr_bit52 a), (phys_bit52 p) by done. by destruct c.
Qed.

Lemma TableEntry_bits p x : phys_ok 12 p →
  IsTable (TableEntry p x) = true ∧ IsBlock (TableEntry p x) = false ∧ GetTable (TableEntry p x) = p.
Proof.
  intros Hp. assert (Z.land (TableEntry p x) ExtensionFlag_TestTableMask = 2) as Hm.
  { unfold TableEntry. entry_mask 12 p Hp. by destruct x. }
  unfold IsTable, IsBlock. rewrite Hm. split_and!; [done..|].
  unfold GetTable, SelectBits, TableEntry. rewrite !Z.land_lor_distr_l.
  change (Z.shiftl (Z.shiftl 1 36 - 1) 12) with (address_mask 12). rewrite (phys_masked 12 p) by (lia || done).
  destruct x; apply Z.lor_0_r.
Qed.

Lemma block_address k p a c m : attr_ok a → 12 ≤ k ≤ 30 → phys_ok k p → m = address_mask k →
  Z.land (BlockEntry p a 0 c) m = p ∧ Z.land (L3BlockEntry p a 0 c) m = p.
Proof.
  intros Ha Hk Hp ->. unfold BlockEntry, L3BlockEntry, extend. rewrite !Z.land_lor_distr_l.
  rewrite (phys_masked k p) by (lia || done).
  assert (Z.land (address_mask 12) (address_mask k) = address_mask k) as Hsub.
  { rewrite Z.land_comm. apply phys_masked; [lia|]. unfold phys_ok, address_mask.
    pose proof (Z.pow_le_mono_r 2 k 48 ltac:(lia) ltac:(lia)). pose proof (pow2_pos k).
    split; [lia|]. apply Z.mod_divide; [lia|]. apply Z.divide_sub_r.
    - exists (2 ^ (48 - 12)). by rewrite <- Z.pow_add_r by lia.
    - exists (2 ^ (k - 12)). rewrite <- Z.pow_add_r by lia. f_equal. lia. }
  rewrite (attr_address a) by done.
  assert (∀ x, Z.land x (address_mask 12) = 0 → Z.land x (address_mask k) = 0) as H0.
  { intros x Hx. by rewrite <- Hsub, Z.land_assoc, Hx. }
  rewrite (H0 (Z.shiftl (Z.b2z c) 52)), (H0 ExtensionFlag_Valid), (H0 ExtensionFlag_TestTableMask)
    by (by destruct c). by rewrite Z.shiftl_0_l, Z.land_0_l, !Z.lor_0_l, Z.lor_0_r.
Qed.

Lemma L1_GetBlock_entry p a c : attr_ok a → phys_ok 30 p → L1_GetBlock (BlockEntry p a 0 c) = p.
Proof. intros Ha Hp. by apply (block_address 30). Qed.
Lemma L2_GetBlock_entry p a c : attr_ok a → phys_ok 21 p → L2_GetBlock (BlockEntry p a 0 c) = p.
Proof. intros Ha Hp. by apply (block_address 21). Qed.
Lemma L3_GetBlock_entry p a c : attr_ok a → phys_ok 12 p → L3_GetBlock (L3BlockEntry p a 0 c) = p.
Proof. intros Ha Hp. by apply (block_address 12). Qed.
End fields.

End PTE.
