(* ===== verification/InitPageTable.v ===== *)
(** * The page table of start-up

    [KInitialPageTable] (libmesosphere, [arch/host/init/kern_k_init_page_table.hpp]):
    the three-level table that start-up builds before the kernel's own page tables
    exist.  Tables live in memory, which is a finite map of 64-bit words by address
    (a word that was never written reads as 0); the code reaches a physical address
    [a] at [a + phys_to_virt_offset].  New tables come from a page allocator, known
    through the operations of the concept [IsInitialPageAllocator]. *)

From S2P Require Import Prelude Vapours PageTableEntry.

(** The concept, for an allocator of state [A] that may use the memory. *)
Abbreviation mem := (gmap Z Z).
Class IsInitialPageAllocator (A : Type) := {
  alloc_Allocate : Z → stM (mem * A) Z;
  alloc_Free : Z → Z → stM (mem * A) unit;
}.

Module InitPT.
Import PTE Util.

Definition ld (m : mem) (a : Z) : Z := default 0 (m !! a).

Record KInitialPageTable := mkPT {
  m_l1_tables : Z * Z;
  m_num_entries : Z * Z;
}.
Definition pick {X} (index : bool) (x : X * X) : X := if index then snd x else fst x.

(** [KInitialPageTable()]: the tables the two translation registers name. *)
Definition from_registers (ttbr0 ttbr1 t0_size t1_size : Z) : res KInitialPageTable :=
  let n0 := u32 (t0_size / L1BlockSize) in
  let n1 := u32 (t1_size / L1BlockSize) in
  _ ← check ((0 <? n0) && (n0 <=? MaxPageTableEntries)) Aborted;
  _ ← check ((0 <? n1) && (n1 <=? MaxPageTableEntries)) Aborted;
  Ok (mkPT (AlignDown ttbr0 PageSize, AlignDown ttbr1 PageSize) (n0, n1)).

(** ** Entry addresses *)
Definition slot (off table k : Z) : Z := u64 (table + off + 8 * k).
Definition l1_index (pt : KInitialPageTable) (address : Z) : Z :=
  Z.land (address / L1BlockSize) (pick (Z.testbit address 63) (m_num_entries pt) - 1).
Definition l2_index (address : Z) : Z := Z.land (address / L2BlockSize) (MaxPageTableEntries - 1).
Definition l3_index (address : Z) : Z := Z.land (address / L3BlockSize) (MaxPageTableEntries - 1).
Definition GetL1Entry (pt : KInitialPageTable) (off address : Z) : Z :=
  slot off (pick (Z.testbit address 63) (m_l1_tables pt)) (l1_index pt address).
Definition GetL2Entry (l1_entry off address : Z) : Z := slot off (GetTable l1_entry) (l2_index address).
Definition GetL3Entry (l2_entry off address : Z) : Z := slot off (GetTable l2_entry) (l3_index address).

(** Every traversal goes down while it meets tables: the entry it stops at. *)
Inductive cursor := At1 (entry : Z) | At2 (entry : Z) | At3 (entry : Z).
Definition descend (pt : KInitialPageTable) (off : Z) (m : mem) (address : Z) : cursor :=
  let p1 := GetL1Entry pt off address in
  if negb (IsTable (ld m p1)) then At1 p1 else
  let p2 := GetL2Entry (ld m p1) off address in
  if negb (IsTable (ld m p2)) then At2 p2 else
  At3 (GetL3Entry (ld m p2) off address).
Definition entry_of (c : cursor) : Z := match c with At1 p | At2 p | At3 p => p end.
Definition is_block (c : cursor) (e : Z) : bool := match c with At3 _ => L3_IsBlock e | _ => IsBlock e end.
Definition GetBlock (c : cursor) (e : Z) : Z :=
  match c with At1 _ => L1_GetBlock e | At2 _ => L2_GetBlock e | At3 _ => L3_GetBlock e end.
Definition unit_size (c : cursor) : Z :=
  match c with At1 _ => L1BlockSize | At2 _ => L2BlockSize | At3 _ => L3BlockSize end.
(** The extent of the mapping an entry belongs to: contiguous runs count whole. *)
Definition advance_size (c : cursor) (e : Z) : Z :=
  match c with
  | At1 _ => L1BlockSize
  | At2 _ => if is_block c e && IsContiguous e then L2ContiguousBlockSize else L2BlockSize
  | At3 _ => if is_block c e && IsContiguous e then L3ContiguousBlockSize else L3BlockSize
  end.

Definition GetMaximumOverheadSize (size : Z) : Z :=
  u64 (u64 (u64 (size + (L1BlockSize - 1)) / L1BlockSize + u64 (size + (L2BlockSize - 1)) / L2BlockSize) * PageSize).

(** ** Queries *)
Definition GetPhysicalAddress (pt : KInitialPageTable) (m : mem) (virt_addr : Z) : res Z :=
  let c := descend pt 0 m virt_addr in
  let e := ld m (entry_of c) in
  _ ← check (is_block c e) Aborted;
  Ok (u64 (GetBlock c e + Z.land virt_addr (unit_size c - 1))).

(** One loop step of [GetBlockCount] and [GetBlockByIndex]: the entry must be a
    block or empty, and its extent aligned and inside the range. *)
Definition block_step (pt : KInitialPageTable) (m : mem) (virt_addr end_virt_addr : Z) : res (bool * Z) :=
  let c := descend pt 0 m virt_addr in
  let e := ld m (entry_of c) in
  _ ← check (is_block c e || IsEmpty e) Aborted;
  let advance := advance_size c e in
  _ ← check (IsAligned virt_addr advance) Aborted;
  _ ← check (advance <=? u64 (end_virt_addr - virt_addr)) Aborted;
  Ok (is_block c e, advance).

Fixpoint count_loop (fuel : nat) (pt : KInitialPageTable) (m : mem) (virt_addr end_virt_addr block_size count : Z) : res Z :=
  if negb (virt_addr <? end_virt_addr) then Ok count else
  match fuel with
  | O => Err OutOfFuel
  | S fuel' =>
      '(block, advance) ← block_step pt m virt_addr end_virt_addr;
      count_loop fuel' pt m (u64 (virt_addr + advance)) end_virt_addr block_size
        (if (block : bool) && (block_size =? advance) then u64 (count + 1) else count)
  end.
Definition GetBlockCount (pt : KInitialPageTable) (m : mem) (virt_addr size block_size : Z) : res Z :=
  count_loop (Z.to_nat (size / PageSize)) pt m virt_addr (u64 (virt_addr + size)) block_size 0.

(** [Null<KVirtualAddress>] is 0. *)
Fixpoint by_index_loop (fuel : nat) (pt : KInitialPageTable) (m : mem) (virt_addr end_virt_addr block_size index count : Z) : res Z :=
  if negb (virt_addr <? end_virt_addr) then Ok 0 else
  match fuel with
  | O => Err OutOfFuel
  | S fuel' =>
      '(block, advance) ← block_step pt m virt_addr end_virt_addr;
      if (block : bool) && (block_size =? advance) then
        if count =? index then Ok virt_addr
        else by_index_loop fuel' pt m (u64 (virt_addr + advance)) end_virt_addr block_size index (u64 (count + 1))
      else by_index_loop fuel' pt m (u64 (virt_addr + advance)) end_virt_addr block_size index count
  end.
Definition GetBlockByIndex (pt : KInitialPageTable) (m : mem) (virt_addr size block_size index : Z) : res Z :=
  by_index_loop (Z.to_nat (size / PageSize)) pt m virt_addr (u64 (virt_addr + size)) block_size index 0.

Definition GetMappingEntry (pt : KInitialPageTable) (m : mem) (virt_addr block_size : Z) : res Z :=
  let c := descend pt 0 m virt_addr in
  let e := ld m (entry_of c) in
  _ ← check (is_block c e) Aborted;
  _ ← check (advance_size c e =? block_size) Aborted;
  Ok (entry_of c).

Fixpoint free_loop (fuel : nat) (pt : KInitialPageTable) (m : mem) (virt_addr end_virt_addr : Z) : res bool :=
  if negb (virt_addr <? end_virt_addr) then Ok true else
  match fuel with
  | O => Err OutOfFuel
  | S fuel' =>
      let c := descend pt 0 m virt_addr in
      if is_block c (ld m (entry_of c)) then Ok false
      else free_loop fuel' pt m (AlignDown (u64 (virt_addr + unit_size c)) (unit_size c)) end_virt_addr
  end.
Definition IsFree (pt : KInitialPageTable) (m : mem) (virt_addr size : Z) : res bool :=
  _ ← check (IsAligned virt_addr PageSize) Aborted;
  _ ← check (IsAligned size PageSize) Aborted;
  free_loop (Z.to_nat (size / PageSize)) pt m virt_addr (u64 (virt_addr + size)).

(** [UpdateExtents] and the walk around it; the addresses start at null. *)
Definition UpdateExtents (virt_addr end_virt_addr size block block_size : Z) (minmax : Z * Z) : res (Z * Z) :=
  _ ← check (IsAligned virt_addr block_size) Aborted;
  _ ← check (block_size <=? u64 (end_virt_addr - virt_addr)) Aborted;
  _ ← check (IsAligned block block_size) Aborted;
  _ ← check (block_size <=? size) Aborted;
  let block_end := u64 (block + block_size) in
  let '(min_phys_addr, max_phys_addr) := minmax in
  Ok (if block <=? u64 (min_phys_addr - 1) then block else min_phys_addr,
      if (max_phys_addr <? block_end) || (max_phys_addr =? 0) then block_end else max_phys_addr).
Fixpoint extents_loop (fuel : nat) (pt : KInitialPageTable) (m : mem) (virt_addr end_virt_addr size : Z) (minmax : Z * Z) : res (Z * Z) :=
  if negb (virt_addr <? end_virt_addr) then Ok minmax else
  match fuel with
  | O => Err OutOfFuel
  | S fuel' =>
      let c := descend pt 0 m virt_addr in
      let e := ld m (entry_of c) in
      _ ← check (is_block c e) Aborted;
      minmax' ← UpdateExtents virt_addr end_virt_addr size (GetBlock c e) (advance_size c e) minmax;
      extents_loop fuel' pt m (u64 (virt_addr + advance_size c e)) end_virt_addr size minmax'
  end.
Definition GetPhysicalAddressOfRandomizedRange (pt : KInitialPageTable) (m : mem) (virt_addr size : Z) : res Z :=
  let end_virt_addr := u64 (virt_addr + size) in
  if end_virt_addr <? virt_addr then _ ← check (size =? 0) Aborted; Ok 0 else
  '(min_phys_addr, max_phys_addr) ← extents_loop (Z.to_nat (size / PageSize)) pt m virt_addr end_virt_addr size (0, 0);
  _ ← check (u64 (max_phys_addr - min_phys_addr) =? size) Aborted;
  Ok min_phys_addr.

(** ** Building *)
Section building.
Context {A : Type} `{IsInitialPageAllocator A}.

Definition rd (a : Z) : stM (mem * A) Z := λ s, Ok (ld (fst s) a, s).
Definition wr (a v : Z) : stM (mem * A) unit := st_mod (λ s, (<[a := v]> (fst s), snd s)).

(** [n] consecutive words from a table's base. *)
Fixpoint fill (n : nat) (ptr v : Z) (m : mem) : mem :=
  match n with O => m | S n' => <[u64 (ptr + 8 * Z.of_nat n') := v]> (fill n' ptr v m) end.
Definition ClearNewPageTable (address off : Z) : stM (mem * A) unit :=
  st_mod (λ s, (fill (Z.to_nat (PageSize / 8)) (u64 (address + off)) 0 (fst s), snd s)).
Definition AllocateNewPageTable (off : Z) : stM (mem * A) Z :=
  address ← alloc_Allocate PageSize;
  _ ← ClearNewPageTable address off;
  mret address.

(** [KInitialPageTable(start_address, end_address, allocator)]. *)
Definition from_range (start_address end_address : Z) : stM (mem * A) KInitialPageTable :=
  t0 ← AllocateNewPageTable 0;
  t1 ← AllocateNewPageTable 0;
  mret (mkPT (t0, t1)
    (MaxPageTableEntries,
     u32 (Z.land (end_address / L1BlockSize) (MaxPageTableEntries - 1) - Z.land (start_address / L1BlockSize) (MaxPageTableEntries - 1) + 1))).

(** The run of [n] block entries of a contiguous mapping. *)
Fixpoint write_run (mk : Z → Z) (n : nat) (entry phys_addr block_size : Z) : stM (mem * A) unit :=
  match n with
  | O => mret tt
  | S n' =>
      _ ← wr entry (mk phys_addr);
      write_run mk n' (u64 (entry + 8)) (u64 (phys_addr + block_size)) block_size
  end.

(** [IsAligned(virt) && IsAligned(phys) && size >= block]. *)
Definition fits (virt_addr phys_addr size block_size : Z) : bool :=
  IsAligned virt_addr block_size && IsAligned phys_addr block_size && (block_size <=? size).

(** The entry at [p] becomes a table if it is not one yet. *)
Definition ensure_table (off p attr : Z) : stM (mem * A) unit :=
  e ← rd p;
  if negb (IsTable e) then
    new_table ← AllocateNewPageTable off;
    wr p (TableEntry new_table (IsPrivilegedExecuteNever attr))
  else mret tt.

(** One turn of the loop of [Map], from the third level up: the size mapped. *)
Definition map_l3 (off virt_addr size phys_addr attr e2 : Z) : stM (mem * A) Z :=
  let l3_entry := GetL3Entry e2 off virt_addr in
  if fits virt_addr phys_addr size L3ContiguousBlockSize then
    _ ← write_run (λ p, L3BlockEntry p attr SoftwareReservedBit_None true)
          (Z.to_nat (L3ContiguousBlockSize / L3BlockSize)) l3_entry phys_addr L3BlockSize;
    mret L3ContiguousBlockSize
  else
    _ ← wr l3_entry (L3BlockEntry phys_addr attr SoftwareReservedBit_None false);
    mret L3BlockSize.
Definition map_l2 (off virt_addr size phys_addr attr e1 : Z) : stM (mem * A) Z :=
  let l2_entry := GetL2Entry e1 off virt_addr in
  if fits virt_addr phys_addr size L2ContiguousBlockSize then
    _ ← write_run (λ p, BlockEntry p attr SoftwareReservedBit_None true)
          (Z.to_nat (L2ContiguousBlockSize / L2BlockSize)) l2_entry phys_addr L2BlockSize;
    mret L2ContiguousBlockSize
  else if fits virt_addr phys_addr size L2BlockSize then
    _ ← wr l2_entry (BlockEntry phys_addr attr SoftwareReservedBit_None false);
    mret L2BlockSize
  else
    _ ← ensure_table off l2_entry attr;
    e2 ← rd l2_entry;
    map_l3 off virt_addr size phys_addr attr e2.
Definition map_step (pt : KInitialPageTable) (off virt_addr size phys_addr attr : Z) : stM (mem * A) Z :=
  let l1_entry := GetL1Entry pt off virt_addr in
  if fits virt_addr phys_addr size L1BlockSize then
    _ ← wr l1_entry (BlockEntry phys_addr attr SoftwareReservedBit_None false);
    mret L1BlockSize
  else
    _ ← ensure_table off l1_entry attr;
    e1 ← rd l1_entry;
    map_l2 off virt_addr size phys_addr attr e1.

Fixpoint map_loop (fuel : nat) (pt : KInitialPageTable) (off virt_addr size phys_addr attr : Z) : stM (mem * A) unit :=
  if negb (0 <? size) then mret tt else
  match fuel with
  | O => st_throw OutOfFuel
  | S fuel' =>
      done ← map_step pt off virt_addr size phys_addr attr;
      map_loop fuel' pt off (u64 (virt_addr + done)) (u64 (size - done)) (u64 (phys_addr + done)) attr
  end.

Definition Map (pt : KInitialPageTable) (virt_addr size phys_addr attr off : Z) : stM (mem * A) unit :=
  _ ← st_check (IsAligned virt_addr PageSize) Aborted;
  _ ← st_check (IsAligned phys_addr PageSize) Aborted;
  _ ← st_check (IsAligned size PageSize) Aborted;
  map_loop (Z.to_nat (size / PageSize)) pt off virt_addr size phys_addr attr.

End building.

End InitPT.
