(* ===== verification/InitPageTableSpec.v ===== *)
(** * What a page table translates

    The tables of [KInitialPageTable] as a tree: [table] follows a path of indices,
    [wf_tables] says that no two paths share a page, and [translate] is the meaning
    of the whole structure, a partial function on addresses.  A write to one slot
    changes the translation of exactly the addresses that go through it. *)

From S2P Require Import Prelude Vapours PageTableEntry InitPageTable.

Module InitPTSpec.
Import PTE Util InitPT.

(** ** Geometry *)
Inductive level := L1 | L2 | L3.
#[export] Instance level_eq_dec : EqDecision level.
Proof. solve_decision. Defined.
Definition shift (l : level) : Z := match l with L1 => 30 | L2 => 21 | L3 => 12 end.
Definition quot (l : level) (va : Z) : Z := va / 2 ^ shift l.

Section geometry.
Implicit Types (pt : KInitialPageTable) (va v : Z) (l : level).

(** [n] first-level entries of each half, a power of two. *)
Definition pt_ok pt : Prop :=
  ∀ i, ∃ a, 0 ≤ a ≤ 9 ∧ pick i (m_num_entries pt) = 2 ^ a.

(** The addresses a half translates without aliasing. *)
Definition canon pt va : Prop :=
  if Z.testbit va 63 then 2 ^ 64 - pick true (m_num_entries pt) * L1BlockSize ≤ va < 2 ^ 64
  else 0 ≤ va < pick false (m_num_entries pt) * L1BlockSize.

(** The indices of an address, last one first. *)
Definition index pt l va : Z := match l with L1 => l1_index pt va | L2 => l2_index va | L3 => l3_index va end.
Definition path pt l va : list Z :=
  match l with L1 => [] | L2 => [l1_index pt va] | L3 => [l2_index va; l1_index pt va] end.
Definition full pt l va : list Z := index pt l va :: path pt l va.
Definition half va : bool := Z.testbit va 63.

Lemma canon_range pt va : pt_ok pt → canon pt va → 0 ≤ va < 2 ^ 64.
Proof.
  intros Hpt. unfold canon. destruct (Z.testbit va 63).
  - destruct (Hpt true) as (a & Ha & ->). pose proof (Z.pow_le_mono_r 2 a 9 ltac:(lia) ltac:(lia)).
    unfold L1BlockSize. lia.
  - destruct (Hpt false) as (a & Ha & ->). pose proof (Z.pow_le_mono_r 2 a 9 ltac:(lia) ltac:(lia)).
    unfold L1BlockSize. lia.
Qed.

Lemma half_quot va v : quot L1 va = quot L1 v → half va = half v.
Proof.
  unfold half, quot, shift. intros Hq.
  assert (∀ x, Z.testbit x 63 = Z.testbit (x / 2 ^ 30) 33) as H.
  { intros x. rewrite <- Z.shiftr_div_pow2, Z.shiftr_spec by lia. done. }
  by rewrite !H, Hq.
Qed.

Lemma l1_index_mod pt va : pt_ok pt → l1_index pt va = quot L1 va mod pick (half va) (m_num_entries pt).
Proof.
  intros Hpt. destruct (Hpt (half va)) as (a & Ha & Hn). unfold l1_index. fold (half va). rewrite Hn.
  rewrite land_pow2_pred by lia. done.
Qed.
Lemma l2_index_mod va : l2_index va = quot L2 va mod 512.
Proof. unfold l2_index. apply (land_pow2_pred _ 9). lia. Qed.
Lemma l3_index_mod va : l3_index va = quot L3 va mod 512.
Proof. unfold l3_index. apply (land_pow2_pred _ 9). lia. Qed.

Lemma quot_up va : quot L1 va = quot L2 va / 512 ∧ quot L2 va = quot L3 va / 512.
Proof. unfold quot, shift. rewrite !Z.div_div by lia. done. Qed.

Lemma l1_index_inj pt va v : pt_ok pt → canon pt va → canon pt v → half va = half v →
  l1_index pt va = l1_index pt v → quot L1 va = quot L1 v.
Proof.
  intros Hpt Hva Hv Hh. rewrite !l1_index_mod, <- Hh by done.
  pose proof (canon_range _ _ Hpt Hva). pose proof (canon_range _ _ Hpt Hv).
  unfold canon in *. fold (half va) in Hva. fold (half v) in Hv. rewrite <- Hh in Hv.
  destruct (Hpt (half va)) as (a & Ha & Hn).
  unfold quot, shift in *. pose proof (pow2_pos a ltac:(lia)) as Hp.
  destruct (half va); rewrite Hn in *.
  - assert (2 ^ 34 = 2 ^ a * 2 ^ (34 - a)) as E by (rewrite <- Z.pow_add_r by lia; f_equal; lia).
    assert (∀ x, 2 ^ 64 - 2 ^ a * L1BlockSize ≤ x < 2 ^ 64 →
      (x / 2 ^ 30) mod 2 ^ a = x / 2 ^ 30 - (2 ^ 34 - 2 ^ a)) as Hx.
    { intros x Hx. unfold L1BlockSize in Hx.
      assert (2 ^ 34 - 2 ^ a ≤ x / 2 ^ 30 < 2 ^ 34).
      { split; [apply Z.div_le_lower_bound; lia|apply Z.div_lt_upper_bound; lia]. }
      symmetry. apply (Z.mod_unique _ _ (2 ^ (34 - a) - 1)); [lia|]. nia. }
    rewrite !Hx by done. lia.
  - assert (∀ x, 0 ≤ x < 2 ^ a * L1BlockSize → (x / 2 ^ 30) mod 2 ^ a = x / 2 ^ 30) as Hx.
    { intros x Hx. unfold L1BlockSize in Hx. apply Z.mod_small.
      split; [apply Z.div_pos; lia|apply Z.div_lt_upper_bound; lia]. }
    by rewrite !Hx.
Qed.

(** Paths and quotients tell the same addresses apart. *)
Lemma full_quot pt l va v : pt_ok pt → canon pt va → canon pt v →
  (half va = half v ∧ full pt l va = full pt l v) ↔ quot l va = quot l v.
Proof.
  intros Hpt Hva Hv. destruct (quot_up va) as [U1 U2]. destruct (quot_up v) as [V1 V2].
  assert (quot L2 va = quot L2 v → quot L1 va = quot L1 v) as H21 by (intros; congruence).
  assert (quot L3 va = quot L3 v → quot L2 va = quot L2 v) as H32 by (intros; congruence).
  assert (∀ x y : Z, x / 512 = y / 512 → x mod 512 = y mod 512 → x = y) as Hdm.
  { intros x y H1 H2. rewrite (Z.div_mod x 512), (Z.div_mod y 512) by lia. congruence. }
  assert (half va = half v → l1_index pt va = l1_index pt v → quot L1 va = quot L1 v) as Hi
    by (intros; by eapply l1_index_inj).
  assert (quot L1 va = quot L1 v → half va = half v ∧ l1_index pt va = l1_index pt v) as Hi'.
  { intros Hq. pose proof (half_quot _ _ Hq) as Hh. split; [done|]. by rewrite !l1_index_mod, Hh, Hq. }
  unfold full; destruct l; simpl; rewrite ?l2_index_mod, ?l3_index_mod.
  - split; [intros [? [= ?]]; auto|]. intros Hq. destruct (Hi' Hq) as [? ->]. done.
  - split.
    + intros [Hh [= E2 E1]]. apply Hdm; [|done]. rewrite <- U1, <- V1. auto.
    + intros Hq. destruct (Hi' (H21 Hq)) as [? ->]. by rewrite Hq.
  - split.
    + intros [Hh [= E3 E2 E1]]. apply Hdm; [|done]. rewrite <- U2, <- V2. apply Hdm; [|done].
      rewrite <- U1, <- V1. auto.
    + intros Hq. destruct (Hi' (H21 (H32 Hq))) as [? ->]. by rewrite Hq, (H32 Hq).
Qed.
End geometry.

(** ** The tree of tables *)
Section tables.
Context (pt : KInitialPageTable) (off : Z).
Implicit Types (m : mem) (i : bool) (P Q : list Z) (va v : Z) (l : level).

(** The table at the end of a path, and the entry at the end of one. *)
Fixpoint table m i P : option Z :=
  match P with
  | [] => Some (pick i (m_l1_tables pt))
  | k :: P' => t ← table m i P'; let e := ld m (slot off t k) in if IsTable e then Some (GetTable e) else None
  end.
Definition ent m i Q : option Z :=
  match Q with [] => None | k :: P => (λ t, ld m (slot off t k)) <$> table m i P end.

Fixpoint vpath i P : Prop :=
  match P with
  | [] => True
  | k :: P' => 0 ≤ k < match P' with [] => pick i (m_num_entries pt) | _ => 512 end ∧ vpath i P'
  end.
Definition vtable i P : Prop := vpath i P ∧ (length P ≤ 2)%nat.

Record wf_tables m : Prop := {
  wf_phys i P a : vtable i P → table m i P = Some a → phys_ok 12 a;
  wf_inj i P j Q a : vtable i P → vtable j Q → table m i P = Some a → table m j Q = Some a → i = j ∧ P = Q;
}.

Lemma slot_inj a b k j : phys_ok 12 a → phys_ok 12 b → 0 ≤ k < 512 → 0 ≤ j < 512 →
  slot off a k = slot off b j → a = b ∧ k = j.
Proof.
  intros [Ha Ea] [Hb Eb] Hk Hj E. unfold slot, wrap in E.
  assert (∀ x y, 0 ≤ x < 2 ^ 49 → 0 ≤ y < 2 ^ 49 → (x + off) mod 2 ^ 64 = (y + off) mod 2 ^ 64 → x = y) as Hmod.
  { intros x y Hx Hy Hxy. assert ((x + off - (y + off)) mod 2 ^ 64 = 0) as H0 by (rewrite Zminus_mod, Hxy, Z.sub_diag; done).
    apply Z.mod_divide in H0; [|lia]. destruct H0 as [q Hq]. nia. }
  assert (a + 8 * k = b + 8 * j).
  { apply Hmod; [lia..|]. rewrite <- !Z.add_assoc, (Z.add_comm (8 * k)), (Z.add_comm (8 * j)), !Z.add_assoc. done. }
  apply Z.mod_divide in Ea as [x ->]; [|lia]. apply Z.mod_divide in Eb as [y ->]; [|lia].
  change (2 ^ 12) with 4096 in *. assert (x = y) by lia. split; lia.
Qed.

Lemma vpath_index i k P : pt_ok pt → vpath i (k :: P) → 0 ≤ k < 512.
Proof.
  intros Hpt [Hk _]. destruct P; [|done]. destruct (Hpt i) as (a & Ha & E). rewrite E in Hk.
  pose proof (Z.pow_le_mono_r 2 a 9 ltac:(lia) ltac:(lia)). lia.
Qed.

Lemma vpath_tail i k P : vpath i (k :: P) → vpath i P.
Proof. by intros [_ H]. Qed.

(** [m'] agrees with [m] on every entry of the tree but the one at path [Q0]. *)
Definition same_but m m' i0 Q0 : Prop := ∀ i k P a,
  vpath i (k :: P) → (length P ≤ 2)%nat → table m i P = Some a → ¬ (i = i0 ∧ k :: P = Q0) →
  ld m' (slot off a k) = ld m (slot off a k).

Lemma table_same_but m m' i0 Q0 i P : same_but m m' i0 Q0 → vtable i P →
  ¬ (i = i0 ∧ Q0 `suffix_of` P) → table m' i P = table m i P.
Proof.
  intros Hs [Hv Hl]. induction P as [|k P IH]; [done|]. intros Hno. simpl.
  rewrite IH; [|by eapply vpath_tail|simpl in Hl; lia|].
  2:{ intros [-> Hsuf]. apply Hno. split; [done|]. by apply suffix_cons_r. }
  destruct (table m i P) as [a|] eqn:Ht; [|done]. simpl. rewrite (Hs i k P a); try done.
  - simpl in Hl. lia.
  - intros [-> <-]. by apply Hno; split.
Qed.

Lemma ent_same_but m m' i0 Q0 i Q : same_but m m' i0 Q0 → vpath i Q → (length Q ≤ 3)%nat →
  ¬ (i = i0 ∧ Q0 `suffix_of` Q) → ent m' i Q = ent m i Q.
Proof.
  intros Hs Hv Hl Hno. destruct Q as [|k P]; [done|]. simpl in *.
  rewrite (table_same_but _ _ _ _ _ _ Hs); [|split; [apply Hv|lia]|].
  2:{ intros [-> Hsuf]. apply Hno. split; [done|]. by apply suffix_cons_r. }
  destruct (table m i P) as [a|] eqn:Ht; [|done]. simpl. f_equal. apply (Hs i k P a); [done|lia|done|].
  intros [-> <-]. by apply Hno; split.
Qed.

Lemma ld_insert m a b v : ld (<[a := v]> m) b = if decide (a = b) then v else ld m b.
Proof. unfold ld. case_decide; [subst; by rewrite lookup_insert_eq|by rewrite lookup_insert_ne]. Qed.

Lemma write_same_but m i0 k0 P0 a0 v : pt_ok pt → wf_tables m → vpath i0 (k0 :: P0) → (length P0 ≤ 2)%nat →
  table m i0 P0 = Some a0 → same_but m (<[slot off a0 k0 := v]> m) i0 (k0 :: P0).
Proof.
  intros Hpt Hwf Hv0 Hl0 Ht0 i k P a Hv Hl Ht Hne. rewrite ld_insert. case_decide as E; [|done]. exfalso.
  assert (vtable i P) as HP by (split; [by eapply vpath_tail|done]).
  assert (vtable i0 P0) as HP0 by (split; [by eapply vpath_tail|done]).
  pose proof (wf_phys _ Hwf _ _ _ HP Ht). pose proof (wf_phys _ Hwf _ _ _ HP0 Ht0).
  apply slot_inj in E as [-> ->]; [|done..|by eapply vpath_index|by eapply vpath_index].
  destruct (wf_inj _ Hwf _ _ _ _ _ HP HP0 Ht Ht0) as [-> ->]. by apply Hne; split.
Qed.

Lemma wf_sub m m' : wf_tables m → (∀ i P a, vtable i P → table m' i P = Some a → table m i P = Some a) → wf_tables m'.
Proof. intros Hwf Hsub. split; intros; [eapply wf_phys|eapply wf_inj]; eauto. Qed.

(** ** Translation *)

(** The attributes of an entry: what is not address, contiguous bit or bit 1. *)
Definition not_attr : Z := Z.lor (address_mask 12) (Z.lor (Z.shiftl 1 52) 2).
Definition entry_attr e : Z := Z.ldiff e not_attr.
Definition block_at l e : bool := match l with L3 => L3_IsBlock e | _ => IsBlock e end.
Definition block_base l e : Z := match l with L1 => L1_GetBlock e | L2 => L2_GetBlock e | L3 => L3_GetBlock e end.
Definition leaf l va e : option (Z * Z) :=
  if block_at l e then Some (block_base l e + va mod 2 ^ shift l, entry_attr e) else None.

Definition translate m va : option (Z * Z) :=
  let c := descend pt off m va in
  let e := ld m (entry_of c) in
  if is_block c e then Some (GetBlock c e + va mod unit_size c, entry_attr e) else None.

Definition walk3 m va : option (Z * Z) := ent m (half va) (full pt L3 va) ≫= leaf L3 va.
Definition walk2 m va : option (Z * Z) :=
  e ← ent m (half va) (full pt L2 va); if IsTable e then walk3 m va else leaf L2 va e.
Definition walk1 m va : option (Z * Z) :=
  e ← ent m (half va) (full pt L1 va); if IsTable e then walk2 m va else leaf L1 va e.

Lemma ent_L1 m va : ent m (half va) (full pt L1 va) = Some (ld m (GetL1Entry pt off va)).
Proof. done. Qed.
Lemma table_step m i k P e : ent m i (k :: P) = Some e → IsTable e = true → table m i (k :: P) = Some (GetTable e).
Proof.
  simpl. destruct (table m i P) as [t|]; simpl; [|done]. by intros [= <-] ->.
Qed.
Lemma ent_L2 m va e : ent m (half va) (full pt L1 va) = Some e → IsTable e = true →
  ent m (half va) (full pt L2 va) = Some (ld m (GetL2Entry e off va)).
Proof.
  intros He Ht. change (ent m (half va) (full pt L2 va)) with
    ((λ t, ld m (slot off t (index pt L2 va))) <$> table m (half va) (path pt L2 va)).
  by rewrite (table_step _ _ _ _ _ He Ht : table m (half va) (path pt L2 va) = _).
Qed.
Lemma ent_L3 m va e : ent m (half va) (full pt L2 va) = Some e → IsTable e = true →
  ent m (half va) (full pt L3 va) = Some (ld m (GetL3Entry e off va)).
Proof.
  intros He Ht. change (ent m (half va) (full pt L3 va)) with
    ((λ t, ld m (slot off t (index pt L3 va))) <$> table m (half va) (path pt L3 va)).
  by rewrite (table_step _ _ _ _ _ He Ht : table m (half va) (path pt L3 va) = _).
Qed.

Lemma translate_walk m va : translate m va = walk1 m va.
Proof.
  unfold translate, descend, walk1. pose proof (ent_L1 m va) as H1. rewrite H1. cbv zeta.
  change (Some ?x ≫= ?f) with (f x). cbv beta.
  destruct (IsTable (ld m (GetL1Entry pt off va))) eqn:E1; [|done].
  unfold walk2. pose proof (ent_L2 m va _ H1 E1) as H2. rewrite H2.
  change (Some ?x ≫= ?f) with (f x). cbv beta. cbn [negb].
  destruct (IsTable (ld m (GetL2Entry (ld m (GetL1Entry pt off va)) off va))) eqn:E2; [|done].
  unfold walk3. by rewrite (ent_L3 m va _ H2 E2).
Qed.

Lemma full_valid l va : pt_ok pt → vpath (half va) (full pt l va) ∧ (length (full pt l va) ≤ 3)%nat.
Proof.
  intros Hpt. assert (0 ≤ l1_index pt va < pick (half va) (m_num_entries pt)).
  { rewrite l1_index_mod by done. destruct (Hpt (half va)) as (a & Ha & ->). apply Z.mod_pos_bound, pow2_pos. lia. }
  assert (0 ≤ l2_index va < 512) by (rewrite l2_index_mod; apply Z.mod_pos_bound; lia).
  assert (0 ≤ l3_index va < 512) by (rewrite l3_index_mod; apply Z.mod_pos_bound; lia).
  destruct l; simpl; split_and!; (done || lia).
Qed.

Lemma suffix_full l l' va v : full pt l v `suffix_of` full pt l' va → full pt l va = full pt l v.
Proof.
  unfold full. destruct l, l'; cbn [index path]; intros H;
    repeat (apply suffix_cons_inv in H as [H|H]; [injection H; intros; congruence|]);
    by apply suffix_nil_inv in H.
Qed.

Section write.
Context (m m' : mem) (l : level) (v e : Z).
Context (Hpt : pt_ok pt) (Hv : canon pt v).
Context (Hsame : same_but m m' (half v) (full pt l v)).

Lemma ent_elsewhere l' va : canon pt va → quot l va ≠ quot l v →
  ent m' (half va) (full pt l' va) = ent m (half va) (full pt l' va).
Proof using Hpt Hv Hsame.
  intros Hva Hq. destruct (full_valid l' va Hpt). eapply ent_same_but; [done..|].
  intros [Hh Hs]. apply Hq, (full_quot pt l); [done..|]. split; [done|]. by eapply suffix_full.
Qed.

Lemma translate_elsewhere va : canon pt va → quot l va ≠ quot l v → translate m' va = translate m va.
Proof using Hpt Hv Hsame.
  intros Hva Hq. rewrite !translate_walk. unfold walk1, walk2, walk3. by rewrite !ent_elsewhere.
Qed.
End write.

Lemma table_inv m i k P a : table m i (k :: P) = Some a →
  ∃ e, ent m i (k :: P) = Some e ∧ IsTable e = true ∧ a = GetTable e.
Proof.
  simpl. destruct (table m i P) as [t|]; simpl; [|done].
  destruct (IsTable _) eqn:E; [|done]. intros [= <-]. by eexists.
Qed.

Lemma table_parent m i k P a : table m i (k :: P) = Some a → is_Some (table m i P).
Proof. simpl. destruct (table m i P); [eauto|done]. Qed.

(** The walk of an address stops at the entry that is no table. *)
Lemma walk_at m l va a : table m (half va) (path pt l va) = Some a →
  let e := ld m (slot off a (index pt l va)) in
  (l = L3 ∨ IsTable e = false) → translate m va = leaf l va e.
Proof.
  intros Ht e He. assert (ent m (half va) (full pt l va) = Some e) as Hent by (unfold full, ent; by rewrite Ht).
  rewrite translate_walk. unfold walk1. destruct l.
  - rewrite Hent. simpl. destruct He as [| ->]; [done|done].
  - apply table_inv in Ht as (e1 & H1 & T1 & _). change (ent m (half va) (full pt L1 va) = Some e1) in H1.
    rewrite H1. simpl. rewrite T1. unfold walk2. rewrite Hent. simpl. by destruct He as [| ->].
  - pose proof Ht as (a2 & H2)%table_parent. apply table_inv in Ht as (e2 & He2 & T2 & _).
    apply table_inv in H2 as (e1 & H1 & T1 & _). change (ent m (half va) (full pt L1 va) = Some e1) in H1.
    change (ent m (half va) (full pt L2 va) = Some e2) in He2.
    rewrite H1. simpl. rewrite T1. unfold walk2. rewrite He2. simpl. rewrite T2. unfold walk3. by rewrite Hent.
Qed.

Lemma path_quot l va v : pt_ok pt → canon pt va → canon pt v → quot l va = quot l v →
  half va = half v ∧ path pt l va = path pt l v ∧ index pt l va = index pt l v.
Proof. intros Hpt Hva Hv Hq. apply (full_quot pt) in Hq as [? [= ? ?]]; done. Qed.

(** ** The two writes of [Map] *)
Definition block_entry l p attr (c : bool) : Z :=
  match l with L3 => L3BlockEntry p attr 0 c | _ => BlockEntry p attr 0 c end.

Lemma attr_kept attr : attr_ok attr → Z.land attr (Z.lnot not_attr) = attr.
Proof.
  intros (E1 & E2 & E3). assert (Z.land attr not_attr = 0) as E0.
  { unfold not_attr. rewrite !Z.land_lor_distr_r, E1, E3.
    change 2 with (Z.land ExtensionFlag_TestTableMask 2). by rewrite Z.land_assoc, E2. }
  rewrite <- Z.ldiff_land. pose proof (Z.lor_ldiff_and attr not_attr) as H. by rewrite E0, Z.lor_0_r in H.
Qed.

Lemma attr_valid attr : attr_ok attr → Z.lor attr ExtensionFlag_Valid = attr.
Proof.
  intros (_ & E & _). apply Z.bits_inj'. intros n Hn. rewrite Z.lor_spec.
  destruct (Z.testbit ExtensionFlag_Valid n) eqn:Hb; [|by rewrite orb_false_r].
  apply (f_equal (λ z, Z.testbit z n)) in E. rewrite Z.land_spec, Hb in E.
  apply andb_true_iff in E as [-> _]. done.
Qed.

Lemma entry_attr_block l p attr c : attr_ok attr → phys_ok (shift l) p → entry_attr (block_entry l p attr c) = attr.
Proof.
  intros Ha Hp. apply (phys_weaken 12) in Hp; [|destruct l; simpl; lia].
  assert (Z.land p (Z.lnot not_attr) = 0) as Ep.
  { rewrite <- (phys_masked 12 p), <- Z.land_assoc by (lia || done).
    change (Z.land (address_mask 12) (Z.lnot not_attr)) with 0. apply Z.land_0_r. }
  unfold entry_attr. rewrite Z.ldiff_land.
  destruct l; unfold block_entry, BlockEntry, L3BlockEntry, extend; rewrite !Z.land_lor_distr_l, Ep, attr_kept by done;
    rewrite <- (attr_valid attr) at 2 by done; f_equal; by destruct c.
Qed.

Lemma leaf_block l va p attr c : attr_ok attr → phys_ok (shift l) p →
  leaf l va (block_entry l p attr c) = Some (p + va mod 2 ^ shift l, attr).
Proof.
  intros Ha Hp. unfold leaf. rewrite entry_attr_block by done.
  pose proof (phys_weaken 12 (shift l) p ltac:(destruct l; simpl; lia) Hp) as Hp'.
  destruct l; simpl in *.
  - destruct (BlockEntry_bits p attr c Ha Hp') as [-> _]. by rewrite L1_GetBlock_entry.
  - destruct (BlockEntry_bits p attr c Ha Hp') as [-> _]. by rewrite L2_GetBlock_entry.
  - destruct (L3BlockEntry_bits p attr c Ha Hp') as [-> _]. by rewrite L3_GetBlock_entry.
Qed.
End tables.

End InitPTSpec.
