(* ===== verification/InitPageTableMap.v ===== *)
(** * Mapping

    [Map] on a range that is free extends the translation by exactly that range,
    and needs no more tables than the range touches at the first two levels.  The
    allocator is known through [LawfulAllocator]: it hands out pages it owns and
    touches no other memory. *)

From S2P Require Import Prelude Vapours PageTableEntry InitPageTable InitPageTableSpec.

(** What [Map] needs of an allocator whose pages are reached at offset [off]. *)
Class LawfulAllocator (A : Type) `{IsInitialPageAllocator A} (off : Z) := {
  (** the invariant, the pages owned, and how many allocations are sure to succeed *)
  ainv : mem * A → Prop;
  owns : mem * A → Z → Prop;
  ready : nat → mem * A → Prop;
  owns_phys s p : ainv s → owns s p → PTE.phys_ok 12 p;
  Allocate_ok n s : ainv s → ready (S n) s → ∃ p s', alloc_Allocate PTE.PageSize s = Ok (p, s') ∧
    owns s p ∧ ainv s' ∧ ¬ owns s' p ∧ (∀ q, owns s' q → owns s q) ∧
    (∀ w, (∀ q k, owns s q → 0 ≤ k < 512 → w ≠ InitPT.slot off q k) → fst s' !! w = fst s !! w) ∧ ready n s';
  ready_le n k s : (n ≤ k)%nat → ready k s → ready n s;
  memory_frame m m' a :
    (∀ q k, owns (m, a) q → 0 ≤ k < 512 → m' !! InitPT.slot off q k = m !! InitPT.slot off q k) →
    ainv (m, a) → ainv (m', a) ∧ (∀ q, owns (m', a) q ↔ owns (m, a) q) ∧ (∀ n, ready n (m, a) → ready n (m', a));
}.

Module InitPTMap.
Import PTE Util InitPT InitPTSpec.

Section writes.
Context (pt : KInitialPageTable) (off : Z) (Hpt : pt_ok pt).
Implicit Types (m : mem) (i : bool) (P Q : list Z) (va v : Z) (l : level).

Abbreviation table := (table pt off).
Abbreviation translate := (translate pt off).
Abbreviation wf_tables := (wf_tables pt off).

Lemma path_valid l va : vtable pt (half va) (path pt l va).
Proof using Hpt.
  destruct (full_valid pt l va Hpt) as [Hv Hl]. split; [by eapply vpath_tail|]. unfold full in Hl. simpl in Hl. lia.
Qed.

(** The table a write goes into stays where it is. *)
Lemma path_kept m m' l v : same_but pt off m m' (half v) (full pt l v) →
  table m' (half v) (path pt l v) = table m (half v) (path pt l v).
Proof using Hpt.
  intros Hs. eapply table_same_but; [done|apply path_valid|]. intros [_ Hsuf]. apply suffix_length in Hsuf.
  unfold full in Hsuf. simpl in Hsuf. lia.
Qed.

(** After a write of an entry that is no table, the tree has lost tables at most. *)
Lemma leaf_write_sub m m' l v a : same_but pt off m m' (half v) (full pt l v) →
  table m (half v) (path pt l v) = Some a → IsTable (ld m' (slot off a (index pt l v))) = false →
  ∀ i P b, vtable pt i P → table m' i P = Some b → table m i P = Some b.
Proof using Hpt.
  intros Hs Ha He i P b HP Hb.
  destruct (decide (i = half v ∧ full pt l v `suffix_of` P)) as [[-> [R ->]]|Hno].
  - exfalso. assert (is_Some (table m' (half v) (full pt l v))) as [c Hc].
    { clear HP. revert b Hb. induction R as [|k R IH]; intros b Hb; [by eexists|].
      apply table_parent in Hb as [? ?]. by eapply IH. }
    apply table_inv in Hc as (e & Hent & HT & _). simpl in Hent. rewrite (path_kept m m' l v Hs), Ha in Hent.
    simplify_eq/=. congruence.
  - by rewrite <- (table_same_but _ _ _ _ _ _ _ _ Hs HP Hno).
Qed.

Lemma write_block m l v a p attr c : wf_tables m → canon pt v → attr_ok attr → phys_ok (shift l) p →
  table m (half v) (path pt l v) = Some a →
  let m' := <[slot off a (index pt l v) := block_entry l p attr c]> m in
  wf_tables m' ∧ (∀ i P b, vtable pt i P → table m' i P = Some b → table m i P = Some b) ∧
  table m' (half v) (path pt l v) = Some a ∧
  ∀ va, canon pt va → translate m' va =
    if decide (quot l va = quot l v) then Some (p + va mod 2 ^ shift l, attr) else translate m va.
Proof using Hpt.
  intros Hwf Hv Hattr Hp Ha m'. destruct (full_valid pt l v Hpt) as [Hfv Hfl].
  assert (same_but pt off m m' (half v) (full pt l v)) as Hs.
  { apply write_same_but; try done. unfold full in Hfl. simpl in Hfl. lia. }
  assert (ld m' (slot off a (index pt l v)) = block_entry l p attr c) as He by (unfold m'; rewrite ld_insert; by case_decide).
  assert (l = L3 ∨ IsTable (block_entry l p attr c) = false) as HT.
  { pose proof (phys_weaken 12 (shift l) p ltac:(destruct l; simpl; lia) Hp) as Hp'.
    destruct l; [right|right|by left]; by apply BlockEntry_bits. }
  assert (∀ i P b, vtable pt i P → table m' i P = Some b → table m i P = Some b) as Hsub.
  { destruct (decide (l = L3)) as [->|Hl3].
    - intros i P b HP. rewrite (table_same_but _ _ _ _ _ _ _ _ Hs HP); [done|].
      intros [_ Hsuf]. apply suffix_length in Hsuf. destruct HP as [_ HP]. simpl in Hsuf. lia.
    - eapply leaf_write_sub; [done..|]. rewrite He. by destruct HT. }
  split_and!; [by eapply wf_sub|done|by rewrite (path_kept m m' l v Hs)|].
  intros va Hva. case_decide as Hq.
  - destruct (path_quot pt l va v Hpt Hva Hv Hq) as (Hh & EP & EI).
    rewrite (walk_at pt off m' l va a); rewrite ?EI, ?EP, ?Hh, ?He; [by apply leaf_block|by rewrite (path_kept m m' l v Hs)|done].
  - by apply (translate_elsewhere pt off m m' l v).
Qed.

(** A new, cleared table in the place of an entry that maps nothing. *)
Lemma write_table m m' l v a new pxn : wf_tables m → canon pt v → l ≠ L3 →
  same_but pt off m m' (half v) (full pt l v) →
  table m (half v) (path pt l v) = Some a →
  IsTable (ld m (slot off a (index pt l v))) = false → IsBlock (ld m (slot off a (index pt l v))) = false →
  ld m' (slot off a (index pt l v)) = TableEntry new pxn → phys_ok 12 new →
  (∀ i P, vtable pt i P → table m i P ≠ Some new) →
  (∀ k, 0 ≤ k < 512 → ld m' (slot off new k) = 0) →
  wf_tables m' ∧
  (∀ i P b, vtable pt i P → table m' i P = Some b → table m i P = Some b ∨ b = new) ∧
  table m' (half v) (path pt l v) = Some a ∧ table m' (half v) (full pt l v) = Some new ∧
  ∀ va, canon pt va → translate m' va = translate m va.
Proof using Hpt.
  intros Hwf Hv Hl Hs Ha HT HB He Hnew Hfresh Hzero.
  destruct (TableEntry_bits new pxn Hnew) as (NT & NB & NG).
  destruct (full_valid pt l v Hpt) as [Hfv Hfl].
  assert (table m' (half v) (path pt l v) = Some a) as Ha' by (by rewrite (path_kept m m' l v Hs)).
  assert (table m' (half v) (full pt l v) = Some new) as Hn'.
  { unfold full. erewrite table_step; [by rewrite NG| |done]. simpl. by rewrite Ha', <- He. }
  assert (∀ i P b, vtable pt i P → table m' i P = Some b →
    table m i P = Some b ∨ (i = half v ∧ P = full pt l v ∧ b = new)) as Hcases.
  { intros i P b HP Hb. destruct (decide (i = half v ∧ full pt l v `suffix_of` P)) as [[-> [R ->]]|Hno].
    - destruct R as [|k R]; cbn [app] in *; [right; split_and!; [done..|]; congruence|]. exfalso.
      assert (R = [] ∧ l = L1) as [-> ->].
      { destruct HP as [_ HP]. simpl in HP. rewrite length_app in HP. destruct l, R; simpl in HP; done || lia. }
      cbn [app] in *.
      destruct HP as [HP _]. apply (vpath_index pt) in HP; [|done].
      apply table_inv in Hb as (e & Hent & Hte & _). simpl in Hent. unfold full in Hn'. simpl in Hn'.
      rewrite Hn' in Hent. simpl in Hent. rewrite Hzero in Hent by done. by simplify_eq.
    - left. by rewrite <- (table_same_but _ _ _ _ _ _ _ _ Hs HP Hno). }
  split_and!; [split| |done|done|].
  - intros i P b HP Hb. destruct (Hcases i P b HP Hb) as [|(-> & -> & ->)]; [by eapply wf_phys|done].
  - intros i P j Q b HP HQ HbP HbQ.
    destruct (Hcases i P b HP HbP) as [H1|(-> & -> & ->)], (Hcases j Q _ HQ HbQ) as [H2|(-> & -> & E)]; subst.
    + by eapply wf_inj.
    + by destruct (Hfresh i P HP).
    + by destruct (Hfresh j Q HQ).
    + done.
  - intros i P b HP Hb. destruct (Hcases i P b HP Hb) as [|(_ & _ & ->)]; auto.
  - intros va Hva. destruct (decide (quot l va = quot l v)) as [Hq|Hq]; [|by apply (translate_elsewhere pt off m m' l v)].
    destruct (path_quot pt l va v Hpt Hva Hv Hq) as (Hh & EP & EI).
    rewrite (walk_at pt off m l va a); rewrite ?EI, ?EP, ?Hh; [|done|by right].
    assert (∃ l', path pt l' va = full pt l va ∧ l ≠ L3 ∧ 0 ≤ index pt l' va < 512) as (l' & Hp' & _ & Hi').
    { destruct l; [exists L2|exists L3|done]; (split; [done|]); (split; [done|]); simpl;
        rewrite ?l2_index_mod, ?l3_index_mod; apply Z.mod_pos_bound; lia. }
    rewrite (walk_at pt off m' l' va new); rewrite ?Hp', ?Hh.
    + rewrite Hzero by done. unfold leaf. destruct l; [..|done]; cbn [block_at]; rewrite HB; by destruct l'.
    + unfold full in *. by rewrite EI, EP.
    + right. by rewrite Hzero.
Qed.
End writes.

(** ** Cleared pages *)
Lemma fill_page_slot n off a v m w : fill n (u64 (a + off)) v m !! w =
  if bool_decide (Exists (λ j, slot off a (Z.of_nat j) = w) (seq 0 n)) then Some v else m !! w.
Proof.
  induction n as [|n IH]; [done|]. rewrite seq_S, Nat.add_0_l. simpl.
  assert (u64 (u64 (a + off) + 8 * Z.of_nat n) = slot off a (Z.of_nat n)) as -> by (unfold slot; by rewrite wrap_add_l).
  destruct (decide (slot off a (Z.of_nat n) = w)) as [<-|Hne].
  - rewrite lookup_insert_eq. rewrite bool_decide_true; [done|]. apply Exists_app. right. by left.
  - rewrite lookup_insert_ne, IH by done. erewrite bool_decide_ext; [done|]. rewrite Exists_app, Exists_cons, Exists_nil. naive_solver.
Qed.

Lemma fill_in off a v m k : 0 ≤ k < 512 → ld (fill 512 (u64 (a + off)) v m) (slot off a k) = v.
Proof.
  intros Hk. unfold ld. rewrite fill_page_slot, bool_decide_true; [done|]. apply Exists_exists. exists (Z.to_nat k).
  rewrite Z2Nat.id by lia. split; [|done]. apply elem_of_seq. lia.
Qed.

Lemma fill_out off a v m w : (∀ k, 0 ≤ k < 512 → w ≠ slot off a k) → fill 512 (u64 (a + off)) v m !! w = m !! w.
Proof.
  intros Hw. rewrite fill_page_slot, bool_decide_false; [done|]. intros (j & Hj & E)%Exists_exists.
  apply elem_of_seq in Hj. by eapply (Hw (Z.of_nat j)); [lia|].
Qed.

(** ** The loop *)
Section map.
Context (pt : KInitialPageTable) (off : Z) (Hpt : pt_ok pt).
Context {A : Type} `{LawfulAllocator A off}.
Implicit Types (m : mem) (s : mem * A) (i : bool) (P Q : list Z) (va v p attr : Z) (l : level).

Abbreviation table := (table pt off).
Abbreviation translate := (translate pt off).
Abbreviation wf_tables := (wf_tables pt off).

Record minv s : Prop := {
  minv_wf : wf_tables (fst s);
  minv_alloc : ainv s;
  minv_apart i P a : vtable pt i P → table (fst s) i P = Some a → ¬ owns s a;
}.

Lemma apart_slot s a k q j : ainv s → phys_ok 12 a → ¬ owns s a → owns s q →
  0 ≤ k < 512 → 0 ≤ j < 512 → slot off a k ≠ slot off q j.
Proof.
  intros Hai Ha Hno Hq Hk Hj E. pose proof (owns_phys s q Hai Hq).
  apply slot_inj in E as [-> _]; done.
Qed.

(** Words that belong to no table and to no page of the allocator stay outside and
    keep their value; pages are only taken from the allocator. *)
Definition outside s w : Prop :=
  (∀ i P a k, vtable pt i P → table (fst s) i P = Some a → 0 ≤ k < 512 → w ≠ slot off a k) ∧
  (∀ q k, owns s q → 0 ≤ k < 512 → w ≠ slot off q k).
Record tame s s' : Prop := {
  tame_owns q : owns s' q → owns s q;
  tame_outside w : outside s w → outside s' w;
  tame_mem w : outside s w → fst s' !! w = fst s !! w;
}.
#[export] Instance tame_preorder : PreOrder tame.
Proof.
  split; [by intros s; split|]. intros s1 s2 s3 [O1 W1 M1] [O2 W2 M2]. split; [auto|auto|].
  intros w Hw. rewrite M2 by auto. auto.
Qed.

(** A change of memory in the tables, off the allocator's pages, that adds no table. *)
Lemma minv_write m m' al : minv (m, al) → wf_tables m' →
  (∀ i P b, vtable pt i P → table m' i P = Some b → table m i P = Some b) →
  (∀ q k, owns (m, al) q → 0 ≤ k < 512 → m' !! slot off q k = m !! slot off q k) →
  (∀ w, outside (m, al) w → m' !! w = m !! w) →
  minv (m', al) ∧ (∀ n, ready n (m, al) → ready n (m', al)) ∧ tame (m, al) (m', al).
Proof.
  intros [Hwf Hai Hap] Hwf' Hsub Hfr Hmem. destruct (memory_frame m m' al Hfr Hai) as (Hai' & Ho & Hr).
  split; [split; simpl; [done..|]|split; [done|split]].
  - intros i P a HP Ha. rewrite Ho. eapply Hap; [done|]. by apply Hsub.
  - intros q Hq. by apply Ho.
  - intros w [W1 W2]. split; [|intros q k Hq; apply W2; by apply Ho]. intros i P a k HP Ha. eapply W1; [done|]. by apply Hsub.
  - exact Hmem.
Qed.

(** What one or several block writes at level [l] from [v] on do to the state. *)
Definition mapped_to s s' l v size p attr : Prop :=
  minv s' ∧ (∀ n, ready n s → ready n s') ∧ tame s s' ∧
  (∀ a, table (fst s) (half v) (path pt l v) = Some a → table (fst s') (half v) (path pt l v) = Some a) ∧
  ∀ va, canon pt va → translate (fst s') va =
    if decide (v ≤ va < v + size) then Some (p + (va - v), attr) else translate (fst s) va.

Lemma quot_range l v va : v mod 2 ^ shift l = 0 →
  quot l va = quot l v ↔ v ≤ va < v + 2 ^ shift l.
Proof.
  intros Hv. assert (0 < 2 ^ shift l) as Hp by (by apply pow2_pos; destruct l; simpl; lia).
  unfold quot. pose proof (Z.div_mod v (2 ^ shift l)). pose proof (Z.div_mod va (2 ^ shift l)).
  pose proof (Z.mod_pos_bound va (2 ^ shift l) Hp). split; [intros E; rewrite E in *; lia|].
  intros Hr. assert (v = 2 ^ shift l * (v / 2 ^ shift l)) as Ev by lia.
  symmetry. apply (Z.div_unique va _ _ (va - v)); lia.
Qed.

Lemma block_written s l v a p attr c : minv s → canon pt v → v mod 2 ^ shift l = 0 → attr_ok attr →
  phys_ok (shift l) p → table (fst s) (half v) (path pt l v) = Some a →
  mapped_to s (<[slot off a (index pt l v) := block_entry l p attr c]> (fst s), snd s) l v (2 ^ shift l) p attr.
Proof using Hpt.
  intros Hm Hv Hal Hattr Hp Ha. destruct s as [m al]. simpl in *.
  destruct (write_block pt off Hpt m l v a p attr c (minv_wf _ Hm) Hv Hattr Hp Ha) as (Hwf & Hsub & Ha' & Htr).
  pose proof (path_valid pt Hpt l v) as HP. destruct (full_valid pt l v Hpt) as [Hfv _].
  destruct (minv_write m (<[slot off a (index pt l v) := block_entry l p attr c]> m) al Hm Hwf Hsub) as (Hm' & Hr & Htame).
  { intros q k Hq Hk. apply lookup_insert_ne. eapply (apart_slot (m, al)); [apply Hm| | |done| |done].
    - eapply wf_phys; [apply Hm|done..].
    - by eapply minv_apart.
    - by eapply vpath_index. }
  { intros w [Hw _]. apply lookup_insert_ne. apply not_eq_sym. eapply Hw; [exact HP|exact Ha|by eapply vpath_index]. }
  split_and!; [done..|cbn [fst snd] in *; intros b Hb; congruence|]. cbn [fst snd] in *. intros va Hva. rewrite Htr by done.
  rewrite (decide_ext _ _ _ _ (quot_range l v va Hal)). case_decide as Hd; [|done].
  do 3 f_equal. pose proof (quot_range l v va Hal) as E. apply E in Hd as Hq. unfold quot in Hq.
  pose proof (pow2_pos (shift l) ltac:(destruct l; simpl; lia)) as Hpos.
  pose proof (Z.div_mod v (2 ^ shift l)). pose proof (Z.div_mod va (2 ^ shift l)). rewrite Hq in *. lia.
Qed.

Lemma mapped_to_trans s s1 s2 l v size1 size2 p attr : 0 ≤ size1 → 0 ≤ size2 →
  half (v + size1) = half v → path pt l (v + size1) = path pt l v →
  mapped_to s s1 l v size1 p attr → mapped_to s1 s2 l (v + size1) size2 (p + size1) attr →
  mapped_to s s2 l v (size1 + size2) p attr.
Proof.
  intros H1 H2 Eh Ep (_ & Hr1 & Hta1 & Ht1 & Htr1) (Hm2 & Hr2 & Hta2 & Ht2 & Htr2). rewrite Eh, Ep in Ht2.
  split_and!; [done|auto|by etrans|auto|]. intros va Hva. rewrite Htr2, Htr1 by done.
  repeat case_decide; try lia; try done. do 2 f_equal. lia.
Qed.

Lemma slot_next a k : u64 (slot off a k + 8) = slot off a (k + 1).
Proof. unfold slot. rewrite wrap_add_l. f_equal. lia. Qed.

(** The entries of a contiguous run lie side by side in one table. *)
Definition run_ok l v (n : nat) : Prop := ∀ j, 0 ≤ j < Z.of_nat n →
  canon pt (v + j * 2 ^ shift l) ∧ half (v + j * 2 ^ shift l) = half v ∧
  path pt l (v + j * 2 ^ shift l) = path pt l v ∧ index pt l (v + j * 2 ^ shift l) = index pt l v + j.

Lemma run_written l attr c n : attr_ok attr → ∀ s v a p,
  minv s → v mod 2 ^ shift l = 0 → run_ok l v n → phys_ok (shift l) p → p + Z.of_nat n * 2 ^ shift l ≤ 2 ^ 48 →
  table (fst s) (half v) (path pt l v) = Some a →
  ∃ s', write_run (λ p, block_entry l p attr c) n (slot off a (index pt l v)) p (2 ^ shift l) s = Ok (tt, s') ∧
    mapped_to s s' l v (Z.of_nat n * 2 ^ shift l) p attr.
Proof using Hpt.
  intros Hattr. pose proof (pow2_pos (shift l) ltac:(destruct l; simpl; lia)) as Hpos.
  induction n as [|n IH]; intros s v a p Hm Hv Hrun Hp Hend Ha.
  { exists s. split; [done|]. split_and!; [done|auto|done|auto|]. intros va Hva. case_decide; [lia|done]. }
  destruct (Hrun 0 ltac:(lia)) as (Hc & _). rewrite Z.mul_0_l, Z.add_0_r in Hc.
  pose proof (block_written s l v a p attr c Hm Hc Hv Hattr Hp Ha) as Hb.
  set (s1 := (_, _)) in Hb. simpl. rewrite slot_next.
  destruct n as [|n'].
  { exists s1. split; [done|]. by rewrite Z.mul_1_l. }
  destruct (Hrun 1 ltac:(lia)) as (Hc1 & Hh1 & Hp1 & Hi1). rewrite Z.mul_1_l in *.
  destruct Hp as [Hp Hpm]. rewrite (wrap_small 64 (p + _)) by (unfold in_width; lia).
  destruct (IH s1 (v + 2 ^ shift l) a (p + 2 ^ shift l)) as (s' & Hw & Hmap).
  - apply Hb.
  - rewrite Z.add_mod, Hv, Z.mod_same by lia. done.
  - intros j Hj. destruct (Hrun (j + 1) ltac:(lia)) as (? & ? & ? & ?).
    replace (v + 2 ^ shift l + j * 2 ^ shift l) with (v + (j + 1) * 2 ^ shift l) by lia.
    split_and!; [done|congruence|congruence|lia].
  - split; [lia|]. rewrite Z.add_mod, Hpm, Z.mod_same by lia. done.
  - lia.
  - rewrite Hh1, Hp1. by apply Hb.
  - rewrite Hi1 in Hw. exists s'. split; [exact Hw|].
    replace (Z.of_nat (S (S n')) * 2 ^ shift l) with (2 ^ shift l + Z.of_nat (S n') * 2 ^ shift l) by lia.
    apply (mapped_to_trans s s1 s'); (done || lia || nia).
Qed.

Lemma contiguous_run l v : l ≠ L1 → v mod (16 * 2 ^ shift l) = 0 →
  (∀ va, v ≤ va < v + 16 * 2 ^ shift l → canon pt va) → run_ok l v 16.
Proof using Hpt.
  intros Hl Hv Hc j Hj. change (Z.of_nat 16) with 16 in Hj.
  pose proof (pow2_pos (shift l) ltac:(destruct l; simpl; lia)) as Hpos.
  assert (quot l (v + j * 2 ^ shift l) = quot l v + j) as Hq by (unfold quot; apply Z.div_add; lia).
  assert (quot l v mod 16 = 0) as H16.
  { unfold quot. apply Z.mod_divide in Hv as [q ->]; [|lia]. rewrite Z.mul_assoc, Z.div_mul by lia. apply Z.mod_mul. lia. }
  assert (∀ x, x mod 16 = 0 → (x + j) / 512 = x / 512 ∧ (x + j) mod 512 = x mod 512 + j) as Hx.
  { intros x Hx. split; [symmetry; apply (Z.div_unique _ _ _ (x mod 512 + j))|
      symmetry; apply (Z.mod_unique _ _ (x / 512))]; Z.to_euclidean_division_equations; lia. }
  destruct (Hx _ H16) as [Hd Hm']. destruct (quot_up (v + j * 2 ^ shift l)) as [U1 U2]. destruct (quot_up v) as [V1 V2].
  assert (canon pt (v + j * 2 ^ shift l)) as Hc1 by (apply Hc; nia). assert (canon pt v) as Hc0 by (apply Hc; nia).
  destruct l; [done|..].
  - assert (quot L1 (v + j * 2 ^ shift L2) = quot L1 v) as Hq1 by (rewrite U1, V1, Hq; done).
    destruct (path_quot pt L1 _ v Hpt Hc1 Hc0 Hq1) as (Hh & _ & Hi).
    split_and!; [done|done|simpl; by f_equal|]. cbn [index]. by rewrite !l2_index_mod, Hq.
  - assert (quot L2 (v + j * 2 ^ shift L3) = quot L2 v) as Hq1 by (rewrite U2, V2, Hq; done).
    destruct (path_quot pt L2 _ v Hpt Hc1 Hc0 Hq1) as (Hh & Hp & Hi).
    split_and!; [done|done| |cbn [index]; by rewrite !l3_index_mod, Hq]. simpl in *. congruence.
Qed.

(** One new table is needed below an entry that is none. *)
Definition flag m l v : nat := match table m (half v) (full pt l v) with Some _ => 0 | None => 1 end.

Lemma flag_table m l v a : table m (half v) (path pt l v) = Some a →
  flag m l v = if IsTable (ld m (slot off a (index pt l v))) then 0%nat else 1%nat.
Proof. intros Ha. unfold flag, full. simpl. rewrite Ha. simpl. by destruct (IsTable _). Qed.

(** [AllocateNewPageTable]: a cleared page that the tree does not use. *)
Lemma AllocateNewPageTable_ok n s : ainv s → ready (S n) s →
  ∃ new s', AllocateNewPageTable off s = Ok (new, s') ∧
    phys_ok 12 new ∧ owns s new ∧ ainv s' ∧ ¬ owns s' new ∧ (∀ q, owns s' q → owns s q) ∧
    (∀ k, 0 ≤ k < 512 → ld (fst s') (slot off new k) = 0) ∧
    (∀ w, (∀ q k, owns s q → 0 ≤ k < 512 → w ≠ slot off q k) → fst s' !! w = fst s !! w) ∧ ready n s'.
Proof.
  intros Hai Hrd. unfold AllocateNewPageTable.
  destruct (Allocate_ok n s Hai Hrd) as (new & [m1 al] & Hal & Hown & Hai1 & Hno & Hsub & Hfr & Hrn).
  rewrite (st_bind_run _ _ _ _ _ Hal). pose proof (owns_phys _ _ Hai Hown) as Hphys.
  set (m2 := fill 512 (u64 (new + off)) 0 m1).
  assert ((ClearNewPageTable new off ≫= λ _, mret new) (m1, al) = Ok (new, (m2, al))) as -> by done.
  destruct (memory_frame m1 m2 al) as (Hai2 & Ho2 & Hr2); [|done|].
  { intros q k Hq Hk. apply fill_out. intros k' Hk' E. eapply (apart_slot (m1, al) new k' q k); try done. }
  exists new, (m2, al). cbn [fst snd].
  split_and!; [done..|by rewrite Ho2|intros q Hq; apply Hsub; by apply Ho2|intros k Hk; by apply fill_in| |by apply Hr2].
  intros w Hw. transitivity (m1 !! w); [|by apply Hfr]. apply fill_out. intros k Hk. by apply Hw.
Qed.

Lemma table_ensured n s l v a attr : minv s → canon pt v → l ≠ L3 →
  table (fst s) (half v) (path pt l v) = Some a → IsBlock (ld (fst s) (slot off a (index pt l v))) = false →
  ready (flag (fst s) l v + n) s →
  ∃ s', ensure_table off (slot off a (index pt l v)) attr s = Ok (tt, s') ∧
    minv s' ∧ ready n s' ∧ tame s s' ∧ (flag (fst s) l v = 0%nat → s' = s) ∧
    table (fst s') (half v) (path pt l v) = Some a ∧
    table (fst s') (half v) (full pt l v) = Some (GetTable (ld (fst s') (slot off a (index pt l v)))) ∧
    ∀ va, canon pt va → translate (fst s') va = translate (fst s) va.
Proof using Hpt.
  intros Hm Hv Hl Ha HB. rewrite (flag_table _ _ _ a Ha). unfold ensure_table.
  rewrite (st_bind_run _ _ s s (ld (fst s) (slot off a (index pt l v)))) by done.
  destruct (full_valid pt l v Hpt) as [Hfv Hfl]. pose proof (path_valid pt Hpt l v) as HP.
  destruct (IsTable (ld (fst s) (slot off a (index pt l v)))) eqn:HT; cbn [negb].
  { intros Hrd. exists s. split_and!; [done..| |done]. by apply table_step; [simpl; rewrite Ha|]. }
  intros Hrd. destruct (AllocateNewPageTable_ok n s (minv_alloc _ Hm) Hrd) as (new & [m2 al] & Hal & Hphys & Hown & Hai2 & Hno & Hsub & Hzero & Hfr & Hr).
  rewrite (st_bind_run _ _ _ _ _ Hal). cbn [fst snd] in *.
  set (m3 := <[slot off a (index pt l v) := TableEntry new (IsPrivilegedExecuteNever attr)]> m2).
  exists (m3, al).
  assert (∀ i P b, vtable pt i P → table (fst s) i P = Some b → phys_ok 12 b ∧ b ≠ new ∧ ¬ owns s b) as Htab.
  { intros i P b HiP Hb. pose proof (minv_apart _ Hm i P b HiP Hb) as Hnb. split_and!; [|by intros ->|done].
    eapply wf_phys; [apply Hm|done..]. }
  assert (∀ i P b k, vtable pt i P → table (fst s) i P = Some b → 0 ≤ k < 512 → m2 !! slot off b k = fst s !! slot off b k) as Hsame2.
  { intros i P b k HiP Hb Hk. destruct (Htab i P b HiP Hb) as (? & ? & ?). apply Hfr. intros q j Hq Hj.
    eapply (apart_slot s); try done. apply Hm. }
  destruct (Htab _ _ _ HP Ha) as (Hpa & Hne & Hnoa). pose proof (vpath_index pt _ _ _ Hpt Hfv) as Hi.
  assert (same_but pt off (fst s) m3 (half v) (full pt l v)) as Hs.
  { intros i k P b Hvp Hlp Hb Hdiff. assert (vtable pt i P) as HiP by (split; [by eapply vpath_tail|done]).
    unfold m3. rewrite ld_insert. case_decide as E.
    - exfalso. apply slot_inj in E as [E1 E2]; [|done|by apply (Htab i P)|done|by eapply vpath_index]. subst b k.
      destruct (wf_inj _ _ _ (minv_wf _ Hm) _ _ _ _ _ HiP HP Hb Ha) as [-> ->]. by apply Hdiff.
    - unfold ld. erewrite Hsame2; [done..|by eapply vpath_index]. }
  destruct (write_table pt off Hpt (fst s) m3 l v a new (IsPrivilegedExecuteNever attr)) as (Hwf & Hcase & Ha' & Hn' & Htr);
    try done; [apply Hm|unfold m3; rewrite ld_insert; by case_decide|by intros i P HiP Hb; destruct (Htab i P _ HiP Hb) as (_ & ? & _)| |].
  { intros k Hk. unfold m3. rewrite ld_insert. case_decide as E; [|by apply Hzero].
    apply slot_inj in E as [-> _]; done. }
  destruct (memory_frame m2 m3 al) as (Hai3 & Ho3 & Hr3); [|done|].
  { intros q k Hq Hk. apply lookup_insert_ne. eapply (apart_slot s); try done; [apply Hm|by apply Hsub]. }
  cbn [fst snd]. split_and!; [done|split; [done..|]|by apply Hr3|split; cbn [fst snd]|done|done| |done].
  - intros i P b HiP Hb. rewrite Ho3. destruct (Hcase i P b HiP Hb) as [Hold| ->]; [|done].
    intros Hq. by destruct (Htab i P b HiP Hold) as (_ & _ & []); apply Hsub.
  - intros q Hq. by apply Hsub, Ho3.
  - intros w [W1 W2]. split; [|intros q k Hq; by apply W2, Hsub, Ho3]. intros i P b k HiP Hb Hk.
    destruct (Hcase i P b HiP Hb) as [Hold| ->]; [by eapply W1|by apply W2].
  - intros w [W1 W2]. unfold m3. rewrite lookup_insert_ne by (apply not_eq_sym; by eapply W1). by apply Hfr.
  - rewrite Hn'. f_equal. unfold m3. rewrite ld_insert, decide_True by done. symmetry. by apply TableEntry_bits.
Qed.

(** ** One turn *)

(** The tables that mapping up to [last] may still need. *)
Definition pot m v last : nat :=
  flag m L1 v + Z.to_nat (quot L1 last - quot L1 v) + (flag m L2 v + Z.to_nat (quot L2 last - quot L2 v)).

(** The turn maps [d] bytes and leaves the allocator ready for what is left. *)
Record turn s s' v size p attr last d : Prop := {
  turn_inv : minv s';
  turn_tame : tame s s';
  turn_size : 0 < d ≤ size ∧ d mod PageSize = 0;
  turn_translate va : canon pt va → translate (fst s') va =
    if decide (v ≤ va < v + d) then Some (p + (va - v), attr) else translate (fst s) va;
  turn_ready : v + d ≤ last → ready (pot (fst s') (v + d) last) s';
}.
Definition turned s v size p attr last (r : res (Z * (mem * A))) : Prop :=
  ∃ d s', r = Ok (d, s') ∧ turn s s' v size p attr last d.

Lemma fits_pow2 v p size k : 0 ≤ k < 64 →
  fits v p size (2 ^ k) = true ↔ v mod 2 ^ k = 0 ∧ p mod 2 ^ k = 0 ∧ 2 ^ k ≤ size.
Proof.
  intros Hk. unfold fits. rewrite !IsAligned_pow2, !andb_true_iff, !Z.eqb_eq, Z.leb_le by done. tauto.
Qed.

Lemma quot_mono l v v' : v ≤ v' → quot l v ≤ quot l v'.
Proof. intros. apply Z.div_le_mono; [apply pow2_pos; destruct l; simpl; lia|done]. Qed.

(** A level's share of the potential drops by its flag when the mapping moves on. *)
Lemma share_le m l v v' last : canon pt v → canon pt v' → v < v' ≤ last →
  (quot l v' = quot l v → is_Some (table m (half v) (full pt l v))) →
  (flag m l v' + Z.to_nat (quot l last - quot l v') ≤ Z.to_nat (quot l last - quot l v))%nat.
Proof using Hpt.
  intros Hv Hv' Hlt Hsome. pose proof (quot_mono l v v' ltac:(lia)). pose proof (quot_mono l v' last ltac:(lia)).
  destruct (decide (quot l v' = quot l v)) as [E|E].
  - destruct (path_quot pt l v' v Hpt Hv' Hv E) as (Hh & Hp & Hi). destruct (Hsome E) as [t Ht].
    unfold flag, full in *. rewrite Hh, Hp, Hi, Ht. lia.
  - unfold flag. destruct (table m (half v') (full pt l v')); lia.
Qed.

Lemma free_not_block m l v a : l ≠ L3 → table m (half v) (path pt l v) = Some a → translate m v = None →
  IsBlock (ld m (slot off a (index pt l v))) = false.
Proof.
  intros Hl Ha Hf. destruct (IsTable (ld m (slot off a (index pt l v)))) eqn:HT.
  - unfold IsTable, IsBlock in *. apply Z.eqb_eq in HT. by rewrite HT.
  - rewrite (walk_at pt off m l v a) in Hf by auto. unfold leaf in Hf.
    destruct l; [..|done]; cbn [block_at] in Hf; by destruct (IsBlock _).
Qed.

Section turns.
Context (v size p attr last : Z).
Context (Hv : v mod PageSize = 0) (Hp : p mod PageSize = 0) (Hs : size mod PageSize = 0) (Hpos : 0 < size).
Context (Hcan : ∀ va, v ≤ va < v + size → canon pt va) (Hphys : 0 ≤ p ∧ p + size ≤ 2 ^ 48) (Hattr : attr_ok attr).
Context (Hlast : v ≤ last < v + size).

Definition steps l : nat := Z.to_nat (quot l last - quot l v).

Lemma canon_v : canon pt v.
Proof using Hcan Hpos. apply Hcan. lia. Qed.

Lemma pot_below s' l n : n = 1 ∨ n = 16 → is_Some (table (fst s') (half v) (path pt l v)) →
  v + n * 2 ^ shift l ≤ last → (pot (fst s') (v + n * 2 ^ shift l) last ≤ steps L1 + steps L2)%nat.
Proof using Hcan Hpos Hpt Hlast.
  intros Hn Hsome Hle. pose proof (pow2_pos (shift l) ltac:(destruct l; simpl; lia)) as Hsh.
  set (v' := v + n * 2 ^ shift l) in *. assert (v < v' ≤ last) as Hlt by (subst v'; lia).
  assert (canon pt v') as Hc' by (apply Hcan; lia).
  assert (∀ k, k = L1 ∨ k = L2 → quot k v' = quot k v → is_Some (table (fst s') (half v) (full pt k v))) as Hk.
  { intros k Hk Hq. destruct Hsome as [t Ht]. destruct l.
    - exfalso. assert (quot L1 v' = quot L1 v + n) as E by (unfold quot, v'; apply Z.div_add; lia).
      destruct Hk as [-> | ->]; [lia|]. destruct (quot_up v') as [U _]. destruct (quot_up v) as [V _]. rewrite Hq in U. lia.
    - destruct Hk as [-> | ->]; [by eexists|]. exfalso.
      assert (quot L2 v' = quot L2 v + n) as E by (unfold quot, v'; apply Z.div_add; lia). lia.
    - destruct Hk as [-> | ->]; [|by eexists]. by apply table_parent in Ht. }
  pose proof (share_le (fst s') L1 v v' last canon_v Hc' Hlt (Hk L1 ltac:(auto))).
  pose proof (share_le (fst s') L2 v v' last canon_v Hc' Hlt (Hk L2 ltac:(auto))).
  unfold pot, steps. lia.
Qed.

(** Blocks written at level [l]: a turn that needs the tables of the steps left. *)
Lemma turn_blocks s s' l n a : n = 1 ∨ n = 16 → table (fst s) (half v) (path pt l v) = Some a →
  mapped_to s s' l v (n * 2 ^ shift l) p attr → n * 2 ^ shift l ≤ size → ready (steps L1 + steps L2) s →
  turn s s' v size p attr last (n * 2 ^ shift l).
Proof using Hcan Hpos Hpt Hlast.
  intros Hn Ha (Hm & Hr & Hta & Ht & Htr) Hle Hrd.
  pose proof (pow2_pos (shift l) ltac:(destruct l; simpl; lia)).
  assert (∃ q, n * 2 ^ shift l = q * PageSize) as [q Hq].
  { exists (n * 2 ^ (shift l - 12)). change PageSize with (2 ^ 12). rewrite <- Z.mul_assoc, <- Z.pow_add_r by (destruct l; simpl; lia).
    do 2 f_equal. lia. }
  split; [done|done|split; [lia|by rewrite Hq, Z.mod_mul]|done|].
  intros Hl. eapply ready_le; [|by apply Hr]. apply pot_below; [done|by eexists; apply Ht|done].
Qed.

(** A single block. *)
Lemma turn_block s l a : minv s → table (fst s) (half v) (path pt l v) = Some a →
  v mod 2 ^ shift l = 0 → p mod 2 ^ shift l = 0 → 2 ^ shift l ≤ size → ready (steps L1 + steps L2) s →
  turn s (<[slot off a (index pt l v) := block_entry l p attr false]> (fst s), snd s) v size p attr last (2 ^ shift l).
Proof using All.
  intros Hm Ht Hvl Hpl Hle Hrd. pose proof (pow2_pos (shift l) ltac:(destruct l; simpl; lia)).
  rewrite <- (Z.mul_1_l (2 ^ shift l)). eapply turn_blocks; [by left|done| |by rewrite Z.mul_1_l|done].
  rewrite Z.mul_1_l. apply block_written; [done|apply canon_v|done|done|split; [lia|done]|done].
Qed.

(** A contiguous run. *)
Lemma turn_run s l a k : l ≠ L1 → k = shift l + 4 → minv s → table (fst s) (half v) (path pt l v) = Some a →
  fits v p size (2 ^ k) = true → ready (steps L1 + steps L2) s →
  turned s v size p attr last
    ((write_run (λ p, block_entry l p attr true) 16 (slot off a (index pt l v)) p (2 ^ shift l) ≫= λ _, mret (2 ^ k)) s).
Proof using All.
  intros Hl -> Hm Ht Hf Hrd. assert (2 ^ (shift l + 4) = 16 * 2 ^ shift l) as E
    by (rewrite Z.pow_add_r by (destruct l; simpl; lia); lia).
  apply fits_pow2 in Hf as (Hfv & Hfp & Hfs); [|destruct l; simpl; lia]. rewrite E in *.
  pose proof (pow2_pos (shift l) ltac:(destruct l; simpl; lia)).
  assert (∀ x, x mod (16 * 2 ^ shift l) = 0 → x mod 2 ^ shift l = 0) as Hweak.
  { intros x Hx. apply Z.mod_divide in Hx as [q ->]; [|lia]. rewrite Z.mul_assoc. apply Z.mod_mul. lia. }
  destruct (run_written l attr true 16 Hattr s v a p) as (s' & Hw & Hmap);
    [done|by apply Hweak| |split; [lia|by apply Hweak]|lia|done|].
  { apply contiguous_run; [done|done|]. intros va Hva. apply Hcan. lia. }
  rewrite (st_bind_run _ _ _ _ _ Hw). exists (16 * 2 ^ shift l), s'. split; [done|].
  apply (turn_blocks s s' l 16 a); auto.
Qed.

(** The third level. *)
Lemma turn_l3 s e2 : minv s → table (fst s) (half v) (path pt L3 v) = Some (GetTable e2) →
  ready (steps L1 + steps L2) s → turned s v size p attr last (map_l3 off v size p attr e2 s).
Proof using All.
  intros Hm Ht Hrd. unfold map_l3. change L3ContiguousBlockSize with (2 ^ 16).
  destruct (fits v p size (2 ^ 16)) eqn:Hf.
  - by apply (turn_run s L3 (GetTable e2) 16).
  - eexists _, _. split; [reflexivity|]. apply (turn_block s L3); try done.
    apply Z.mod_divide in Hs as [q ->]; [|done]. unfold PageSize in *. simpl. lia.
Qed.

(** A turn after a step that kept the translation. *)
Lemma turned_after s s1 r : tame s s1 → (∀ va, canon pt va → translate (fst s1) va = translate (fst s) va) →
  turned s1 v size p attr last r → turned s v size p attr last r.
Proof.
  intros Hta Htr (d & s' & -> & [Hi Hta' Hd Ht Hrd]). exists d, s'. split; [done|]. split; [done|by etrans|done| |done].
  intros va Hva. rewrite Ht by done. case_decide; [done|]. by apply Htr.
Qed.

Lemma turn_l2 s e1 : minv s → table (fst s) (half v) (path pt L2 v) = Some (GetTable e1) → translate (fst s) v = None →
  ready (flag (fst s) L2 v + (steps L1 + steps L2)) s → turned s v size p attr last (map_l2 off v size p attr e1 s).
Proof using All.
  intros Hm Ht Hfree Hrd. unfold map_l2. change L2ContiguousBlockSize with (2 ^ 25). change L2BlockSize with (2 ^ shift L2).
  assert (ready (steps L1 + steps L2) s) as Hrd' by (eapply ready_le; [|done]; lia).
  destruct (fits v p size (2 ^ 25)) eqn:Hf; [|destruct (fits v p size (2 ^ shift L2)) eqn:Hf2].
  - by apply (turn_run s L2 (GetTable e1) 25).
  - apply fits_pow2 in Hf2 as (Hfv & Hfp & Hfs); [|simpl; lia].
    eexists _, _. split; [reflexivity|]. by apply (turn_block s L2).
  - destruct (table_ensured (steps L1 + steps L2) s L2 v _ attr Hm canon_v ltac:(done) Ht) as (s1 & Hens & Hm1 & Hr & Hta & _ & _ & Hc & Htr);
      [by eapply free_not_block|done|].
    change (slot off (GetTable e1) (index pt L2 v)) with (GetL2Entry e1 off v) in *.
    rewrite (st_bind_run _ _ _ _ _ Hens), (st_bind_run _ _ s1 s1 (ld (fst s1) (GetL2Entry e1 off v))) by done.
    apply (turned_after s s1); [done|done|]. by apply turn_l3.
Qed.

Lemma turn_step s : minv s → translate (fst s) v = None → ready (pot (fst s) v last) s →
  turned s v size p attr last (map_step pt off v size p attr s).
Proof using All.
  intros Hm Hfree Hrd. unfold map_step. change L1BlockSize with (2 ^ shift L1).
  assert (table (fst s) (half v) (path pt L1 v) = Some (pick (half v) (m_l1_tables pt))) as Ht by done.
  assert (pot (fst s) v last = flag (fst s) L1 v + (flag (fst s) L2 v + (steps L1 + steps L2)))%nat as Hpot
    by (unfold pot, steps; lia). rewrite Hpot in Hrd.
  destruct (fits v p size (2 ^ shift L1)) eqn:Hf.
  - apply fits_pow2 in Hf as (Hfv & Hfp & Hfs); [|simpl; lia].
    eexists _, _. split; [reflexivity|]. apply (turn_block s L1); try done. eapply ready_le; [|done]. lia.
  - destruct (table_ensured (flag (fst s) L2 v + (steps L1 + steps L2)) s L1 v _ attr Hm canon_v ltac:(done) Ht)
      as (s1 & Hens & Hm1 & Hr & Hta & Hsame & _ & Hc & Htr); [by eapply free_not_block|done|].
    change (slot off (pick (half v) (m_l1_tables pt)) (index pt L1 v)) with (GetL1Entry pt off v) in *.
    rewrite (st_bind_run _ _ _ _ _ Hens), (st_bind_run _ _ s1 s1 (ld (fst s1) (GetL1Entry pt off v))) by done.
    assert (flag (fst s1) L2 v ≤ flag (fst s) L2 v)%nat as Hfl.
    { destruct (flag (fst s) L1 v) eqn:E1; [by rewrite Hsame|].
      unfold flag at 2. destruct (table (fst s) (half v) (full pt L2 v)) as [t|] eqn:E2;
        [|unfold flag; destruct (table (fst s1) (half v) (full pt L2 v)); lia].
      apply table_parent in E2 as [t1 E2]. unfold flag in E1. change (path pt L2 v) with (full pt L1 v) in E2. by rewrite E2 in E1. }
    apply (turned_after s s1); [done|done|]. apply turn_l2; [done|done|by rewrite Htr; [|apply canon_v]|].
    eapply ready_le; [|done]. lia.
Qed.
End turns.

(** ** The whole loop *)

Definition free_range m v size : Prop := ∀ va, v ≤ va < v + size → translate m va = None.
Definition canon_range v size : Prop := ∀ va, v ≤ va < v + size → canon pt va.

(** The translation of [m], with [size] bytes at [v] sent to [p]. *)
Definition extended m v size p attr va : option (Z * Z) :=
  if decide (v ≤ va < v + size) then Some (p + (va - v), attr) else translate m va.

(** First-level and second-level entries that a range goes through. *)
Definition tables_touched v size : nat :=
  Z.to_nat (quot L1 (v + size - 1) - quot L1 v + 1) + Z.to_nat (quot L2 (v + size - 1) - quot L2 v + 1).

Lemma pot_touched m v size : 0 < size → (pot m v (v + size - 1) ≤ tables_touched v size)%nat.
Proof.
  intros Hs. unfold pot, tables_touched, flag.
  pose proof (quot_mono L1 v (v + size - 1) ltac:(lia)). pose proof (quot_mono L2 v (v + size - 1) ltac:(lia)).
  destruct (table m _ (full pt L1 v)), (table m _ (full pt L2 v)); lia.
Qed.

Lemma map_loop_exact attr fuel : attr_ok attr → ∀ s v size p,
  minv s → v mod PageSize = 0 → p mod PageSize = 0 → size mod PageSize = 0 → 0 ≤ size →
  size / PageSize ≤ Z.of_nat fuel → canon_range v size → 0 ≤ p → p + size ≤ 2 ^ 48 → free_range (fst s) v size →
  (0 < size → ready (pot (fst s) v (v + size - 1)) s) →
  ∃ s', map_loop fuel pt off v size p attr s = Ok (tt, s') ∧ minv s' ∧ tame s s' ∧
    ∀ va, canon pt va → translate (fst s') va = extended (fst s) v size p attr va.
Proof using Hpt.
  intros Hattr. induction fuel as [|fuel IH]; intros s v size p Hm Hv Hp Hs Hsz Hf Hc Hp0 Hp1 Hfree Hrd.
  all: assert (∀ va, size = 0 → extended (fst s) v size p attr va = translate (fst s) va) as Hnone
    by (intros va ->; unfold extended; case_decide; [lia|done]).
  { assert (size = 0) as -> by (apply Z.mod_divide in Hs as [q ->]; [|done]; rewrite Z.div_mul in Hf by done; unfold PageSize in *; lia).
    exists s. split_and!; [done..|]. intros va Hva. by rewrite Hnone. }
  cbn [map_loop]. destruct (0 <? size) eqn:Hpos; cbn [negb].
  2:{ apply Z.ltb_ge in Hpos. exists s. split_and!; [done..|]. intros va Hva. by rewrite Hnone by lia. }
  apply Z.ltb_lt in Hpos.
  destruct (turn_step v size p attr (v + size - 1) Hv Hp Hs Hpos Hc (conj Hp0 Hp1) Hattr ltac:(lia) s Hm)
    as (d & s1 & Hstep & [Hm1 Hta1 [Hd Hdm] Htr Hrd1]); [apply Hfree; lia|by apply Hrd|].
  rewrite (st_bind_run _ _ _ _ _ Hstep).
  assert (0 ≤ v < 2 ^ 64 ∧ v + size ≤ 2 ^ 64) as [Hv64 Hend].
  { split; [|pose proof (InitPTSpec.canon_range pt (v + size - 1) Hpt ltac:(apply Hc; lia)); lia].
    apply (InitPTSpec.canon_range pt); [done|apply Hc; lia]. }
  rewrite (wrap_small 64 (size - d)), (wrap_small 64 (p + d)) by (unfold in_width; lia).
  destruct (decide (size = d)) as [<-|Hne].
  { rewrite Z.sub_diag. exists s1. split_and!; [by destruct fuel|done|done|exact Htr]. }
  rewrite (wrap_small 64 (v + d)) by (unfold in_width; lia).
  assert (∃ q q', size = q * PageSize ∧ d = q' * PageSize ∧ 0 < q') as (q & q' & -> & -> & Hq').
  { apply Z.mod_divide in Hs as [q ->]; [|done]. apply Z.mod_divide in Hdm as [q' ->]; [|done].
    exists q, q'. unfold PageSize in *. split_and!; [done|done|lia]. }
  rewrite Z.div_mul in Hf by done.
  destruct (IH s1 (v + q' * PageSize) (q * PageSize - q' * PageSize) (p + q' * PageSize) Hm1) as (s' & Hl & Hm' & Hta' & Htr');
    [by rewrite Z.mod_add|by rewrite Z.mod_add|by rewrite <- Z.mul_sub_distr_r, Z.mod_mul|lia| | |lia|lia| | |].
  - rewrite <- Z.mul_sub_distr_r, Z.div_mul by done. lia.
  - intros va Hva. apply Hc. lia.
  - intros va Hva. rewrite Htr by (apply Hc; lia). case_decide; [lia|]. apply Hfree. lia.
  - intros Hlt. replace (v + q' * PageSize + (q * PageSize - q' * PageSize) - 1) with (v + q * PageSize - 1) by lia.
    apply Hrd1. lia.
  - exists s'. split_and!; [done|done|by etrans|]. intros va Hva. rewrite Htr' by done. unfold extended. rewrite Htr by done.
    repeat case_decide; try lia; try done. do 2 f_equal. lia.
Qed.
End map.

End InitPTMap.
