(* ===== verification/InitAllocator.v ===== *)
(** * The page allocators of start-up

    [KInitialPageAllocator] (libmesosphere, [arch/host/init/kern_k_init_page_table.hpp])
    keeps the free memory it manages as a list threaded through that memory: each
    chunk starts with a pointer to the next one and its size.  It places
    allocations at random, with the generator of [KSystemControl].
    [KInitialPageAllocatorForFinalizeIdentityMapping] (kernel/host/kern_init_core.cpp)
    is a stack of single pages reached at an offset. *)

From S2P Require Import Prelude Vapours TinyMT PageTableEntry InitPageTable.

Module InitAlloc.
Import PTE Util InitPT.

(** ** Random ranges *)
Definition u64_max : Z := 2 ^ 64 - 1.

(** [GenerateUniformRange]: draws until one falls below the largest multiple of the
    range's size. *)
Fixpoint uniform_loop (fuel : nat) (min range_size effective_max : Z) (rng : TinyMT.State) : res (Z * TinyMT.State) :=
  match fuel with
  | O => Err OutOfFuel
  | S fuel' =>
      let '(rnd, rng') := TinyMT.GenerateRandomU64 rng in
      if rnd <? effective_max then Ok (u64 (min + rnd mod range_size), rng')
      else uniform_loop fuel' min range_size effective_max rng'
  end.
Definition GenerateUniformRange (fuel : nat) (min max : Z) (rng : TinyMT.State) : res (Z * TinyMT.State) :=
  if (max =? u64_max) && (min =? 0) then Ok (TinyMT.GenerateRandomU64 rng) else
  let range_size := u64 (u64 (max + 1) - min) in
  _ ← check (negb (range_size =? 0)) DivByZero;
  let effective_max := u64 (u64_max / range_size * range_size) in
  uniform_loop fuel min range_size effective_max rng.

(** [KSystemControlBase::Init::GenerateRandomRange]: the generator is seeded from the
    tick counter at its first use. *)
Definition seeds_of (tick : Z) : list Z := [u32 tick; u32 (Z.shiftr tick 32)].
Definition GenerateRandomRange (fuel : nat) (tick min max : Z) (rng : option TinyMT.State)
    : res (Z * option TinyMT.State) :=
  let st := match rng with Some st => st | None => TinyMT.Initialize_seeds (seeds_of tick) end in
  '(v, st') ← GenerateUniformRange fuel min max st;
  Ok (v, Some st').

(** ** [KInitialPageAllocator] *)
Definition FreeUnitSize : Z := 64 * PageSize.

Record State := mkState { start_address : Z; end_address : Z; free_head : Z }.
Definition set_head (h : Z) (s : State) : State := mkState (start_address s) (end_address s) h.
Definition InitialState : State := mkState 0 0 0.
Definition Initialize (address : Z) (s : State) : State := mkState address address (free_head s).
Definition InitializeFromState (state s : State) : State := state.
Definition GetFinalState (s : State) : State * State := (s, InitialState).

(** [FreeListEntry] at [p]: [next] and [size]. *)
Definition next_of (m : mem) (p : Z) : Z := ld m p.
Definition size_of (m : mem) (p : Z) : Z := ld m (u64 (p + 8)).
Definition put_entry (p next size : Z) (m : mem) : mem := <[u64 (p + 8) := size]> (<[p := next]> m).

(** A [FreeListEntry **]: the head of the list, or the [next] of the entry at [p]. *)
Definition put_link (link : option Z) (target : Z) (x : mem * State) : mem * State :=
  match link with
  | None => (fst x, set_head target (snd x))
  | Some p => (<[p := target]> (fst x), snd x)
  end.

Fixpoint can_loop (fuel : nat) (m : mem) (cur align size : Z) : res bool :=
  if cur =? 0 then Ok false else
  match fuel with
  | O => Err OutOfFuel
  | S fuel' =>
      let cur_last := u64 (cur + size_of m cur - 1) in
      let alloc_last := u64 (AlignUp cur align + size - 1) in
      if alloc_last <=? cur_last then Ok true else can_loop fuel' m (next_of m cur) align size
  end.
Definition CanAllocate (fuel : nat) (align size : Z) (x : mem * State) : res bool :=
  can_loop fuel (fst x) (free_head (snd x)) align size.

(** The chunk at [cur] gives up [size] bytes at [address]. *)
Definition carve (link : option Z) (cur address size : Z) (x : mem * State) : mem * State :=
  let m := fst x in
  let '(link1, m1) :=
    if negb (cur =? address) then
      (Some cur, put_entry cur address (u64 (address - cur))
        (put_entry address (next_of m cur) (u64 (cur + size_of m cur - address)) m))
    else (link, m) in
  let m2 :=
    if negb (size_of m1 address =? size) then
      let next := u64 (address + size) in
      let m' := put_entry next (next_of m1 address) (u64 (size_of m1 address - size)) m1 in
      put_entry address next size m'
    else m1 in
  put_link link1 (next_of m2 address) (m2, snd x).

Fixpoint try_loop (fuel : nat) (link : option Z) (cur address size : Z) (x : mem * State) : res (bool * (mem * State)) :=
  if cur =? 0 then Ok (false, x) else
  match fuel with
  | O => Err OutOfFuel
  | S fuel' =>
      let cur_last := u64 (cur + size_of (fst x) cur - 1) in
      if (cur <=? address) && (u64 (address + size - 1) <=? cur_last) then Ok (true, carve link cur address size x)
      else try_loop fuel' (Some cur) (next_of (fst x) cur) address size x
  end.
Definition TryAllocate (fuel : nat) (address size : Z) (x : mem * State) : res (bool * (mem * State)) :=
  try_loop fuel None (free_head (snd x)) address size x.

(** The loop of [Free] over a list that is not empty. *)
Fixpoint free_loop (fuel : nat) (link : option Z) (cur phys_addr size : Z) (x : mem * State) : res (mem * State) :=
  match fuel with
  | O => Err OutOfFuel
  | S fuel' =>
      let m := fst x in
      let new_end := u64 (phys_addr + size) in
      let cur_end := u64 (cur + size_of m cur) in
      let go_on :=
        if negb (next_of m cur =? 0) then free_loop fuel' (Some cur) (next_of m cur) phys_addr size x
        else Ok (<[cur := phys_addr]> (put_entry phys_addr 0 size m), snd x) in
      if phys_addr <? new_end then
        if new_end <? cur then Ok (put_link link phys_addr (put_entry phys_addr cur size m, snd x))
        else if new_end =? cur then
          Ok (put_link link phys_addr (put_entry phys_addr (next_of m cur) (u64 (size_of m cur + size)) m, snd x))
        else go_on
      else if cur_end =? phys_addr then Ok (<[u64 (cur + 8) := u64 (size_of m cur + size)]> m, snd x)
      else go_on
  end.
Definition Free (fuel : nat) (phys_addr size : Z) (x : mem * State) : res (mem * State) :=
  if negb (free_head (snd x) =? 0) then free_loop fuel None (free_head (snd x)) phys_addr size x
  else Ok (put_link None phys_addr (put_entry phys_addr 0 size (fst x), snd x)).

(** [Allocate(align, size)], with the generator's state. *)
Fixpoint grow_loop (n fuel : nat) (align size : Z) (x : mem * State) : res (mem * State) :=
  can ← CanAllocate fuel align size x;
  if (can : bool) then Ok x else
  match n with
  | O => Err OutOfFuel
  | S n' =>
      x' ← Free fuel (end_address (snd x)) FreeUnitSize x;
      let s := snd x' in
      grow_loop n' fuel align size (fst x', mkState (start_address s) (u64 (end_address s + FreeUnitSize)) (free_head s))
  end.
Fixpoint place_loop (n fuel : nat) (tick aligned_start ind_max align size : Z) (rng : option TinyMT.State) (x : mem * State)
    : res (Z * option TinyMT.State * (mem * State)) :=
  match n with
  | O => Err OutOfFuel
  | S n' =>
      '(v, rng') ← GenerateRandomRange fuel tick 0 ind_max rng;
      let random_address := u64 (aligned_start + v * align) in
      '(found, x') ← TryAllocate fuel random_address size x;
      if (found : bool) then Ok (random_address, rng', x')
      else place_loop n' fuel tick aligned_start ind_max align size rng' x'
  end.

Record KInitialPageAllocator := mkAllocator { m_state : State; s_random_generator : option TinyMT.State }.

Section with_fuel.
Context (fuel : nat) (tick : Z).

Definition Allocate_aligned (align size : Z) : stM (mem * KInitialPageAllocator) Z := λ s,
  let '(m, a) := s in
  x ← grow_loop fuel fuel align size (m, m_state a);
  let aligned_start := AlignUp (start_address (snd x)) align in
  let aligned_end := AlignDown (end_address (snd x)) align in
  let ind_max := u64 (u64 (aligned_end - aligned_start) / align - 1) in
  '(p, rng, x') ← place_loop fuel fuel tick aligned_start ind_max align size (s_random_generator a) x;
  Ok (p, (fst x', mkAllocator (snd x') rng)).
Definition Allocate (size : Z) : stM (mem * KInitialPageAllocator) Z := Allocate_aligned size size.
Definition Free_page (phys_addr size : Z) : stM (mem * KInitialPageAllocator) unit := λ s,
  let '(m, a) := s in
  x ← Free fuel phys_addr size (m, m_state a);
  Ok (tt, (fst x, mkAllocator (snd x) (s_random_generator a))).

#[export] Instance KInitialPageAllocator_ops : IsInitialPageAllocator KInitialPageAllocator :=
  {| alloc_Allocate := Allocate; alloc_Free := Free_page |}.
End with_fuel.

(** ** [KInitialPageAllocatorForFinalizeIdentityMapping] *)
Record FinalizeAllocator := mkFinalize { m_free_list_head : Z; m_phys_to_virt_offset : Z }.

Definition Finalize_Allocate (size : Z) : stM (mem * FinalizeAllocator) Z := λ s,
  let '(m, a) := s in
  _ ← check (size =? PageSize) Aborted;
  let head := m_free_list_head a in
  _ ← check (negb (head =? 0)) Aborted;
  Ok (u64 (head - m_phys_to_virt_offset a), (m, mkFinalize (ld m head) (m_phys_to_virt_offset a))).
Definition Finalize_Free (phys_addr size : Z) : stM (mem * FinalizeAllocator) unit := λ s,
  let '(m, a) := s in
  _ ← check (size =? PageSize) Aborted;
  let fl := u64 (phys_addr + m_phys_to_virt_offset a) in
  Ok (tt, (<[fl := m_free_list_head a]> m, mkFinalize fl (m_phys_to_virt_offset a))).

#[export] Instance FinalizeAllocator_ops : IsInitialPageAllocator FinalizeAllocator :=
  {| alloc_Allocate := Finalize_Allocate; alloc_Free := Finalize_Free |}.

(** The constructor: two pages of another allocator. *)
Fixpoint finalize_take (n : nat) {A} `{IsInitialPageAllocator A} (f : FinalizeAllocator) : stM (mem * A) FinalizeAllocator :=
  match n with
  | O => mret f
  | S n' =>
      page ← alloc_Allocate PageSize;
      _ ← st_check (negb (page =? 0)) Aborted;
      s ← st_get;
      '(_, (m', f')) ← st_lift (Finalize_Free page PageSize (fst s, f));
      _ ← st_put (m', snd s);
      finalize_take n' f'
  end.
Definition FinalizeAllocator_new {A} `{IsInitialPageAllocator A} (phys_to_virt : Z) : stM (mem * A) FinalizeAllocator :=
  finalize_take 2 (mkFinalize 0 phys_to_virt).

End InitAlloc.
