(* ===== verification/InitAllocatorSpec.v ===== *)
(** * The free list of start-up as a list of chunks

    [chunks] reads the list that [KInitialPageAllocator] threads through memory.
    [TryAllocate] and [Free] on memory are [try_list] and [free_list] on the list of
    chunks, and those take and give exactly the bytes they are asked for. *)

From S2P Require Import Prelude Vapours TinyMT PageTableEntry InitPageTable InitPageTableSpec InitAllocator.

Module InitAllocSpec.
Import PTE Util InitPT InitAlloc.

Definition chunk : Type := Z * Z.
Implicit Types (m : mem) (l : list chunk) (a b p h t size addr : Z) (x y : mem * State).

(** ** The list in memory *)

(** A segment of the list from [h] up to [t]; [t] is null at the end. *)
Fixpoint seg m h l t : Prop :=
  match l with
  | [] => h = t
  | (a, sz) :: l' => h = a ∧ size_of m a = sz ∧ seg m (next_of m a) l' t
  end.
Definition rep x l : Prop := seg (fst x) (free_head (snd x)) l 0.

Definition aligned a : Prop := a mod PageSize = 0.
Definition chunk_ok (c : chunk) : Prop := 0 < c.1 ∧ aligned c.1 ∧ 0 < c.2 ∧ aligned c.2 ∧ c.1 + c.2 ≤ 2 ^ 48.

(** Chunks in order, each above the end of the one before. *)
Fixpoint ordered (lo : Z) l : Prop :=
  match l with [] => True | c :: l' => lo ≤ c.1 ∧ chunk_ok c ∧ ordered (c.1 + c.2) l' end.

Definition last_link l : option Z := fst <$> last l.

Lemma seg_app m h l1 l2 t : seg m h (l1 ++ l2) t ↔ ∃ u, seg m h l1 u ∧ seg m u l2 t.
Proof.
  revert h. induction l1 as [|[a sz] l1 IH]; intros h; simpl; [naive_solver|]. rewrite IH. naive_solver.
Qed.

Lemma ordered_app lo l1 l2 : ordered lo (l1 ++ l2) ↔
  ordered lo l1 ∧ ordered (default lo ((λ c, c.1 + c.2) <$> last l1)) l2.
Proof.
  revert lo. induction l1 as [|c l1 IH]; intros lo; simpl; [tauto|]. rewrite IH. destruct l1; simpl; [tauto|].
  rewrite last_cons. destruct (last l1); simpl; tauto.
Qed.

Lemma ordered_le lo lo' l : lo' ≤ lo → ordered lo l → ordered lo' l.
Proof. destruct l; simpl; [done|]. intros ? (? & ? & ?). split_and!; [lia|done|done]. Qed.

Lemma ordered_in lo l c : ordered lo l → c ∈ l → lo ≤ c.1 ∧ chunk_ok c.
Proof.
  revert lo. induction l as [|d l IH]; intros lo Ho Hc; [by apply not_elem_of_nil in Hc|].
  destruct Ho as (H1 & H2 & H3). apply elem_of_cons in Hc as [->|Hc]; [done|].
  destruct (IH _ H3 Hc). split; [|done]. destruct H2 as (? & _ & ? & _). lia.
Qed.

Lemma ordered_before lo l1 c l2 d : ordered lo (l1 ++ c :: l2) → d ∈ l1 → d.1 + d.2 ≤ c.1.
Proof.
  revert lo. induction l1 as [|e l1 IH]; intros lo Ho Hd; [by apply not_elem_of_nil in Hd|].
  destruct Ho as (_ & _ & Ho). apply elem_of_cons in Hd as [->|Hd]; [|by eapply IH].
  eapply ordered_in; [done|]. apply elem_of_app. right. by left.
Qed.

(** ** Writes *)
Lemma aligned_apart a b : aligned a → aligned b → a ≠ b → 0 ≤ a → 0 ≤ b → a + 16 ≤ b ∨ b + 16 ≤ a.
Proof.
  unfold aligned, PageSize. intros Ha Hb Hne H0 H1. Z.to_euclidean_division_equations. lia.
Qed.

Section entries.
Context (a p n s : Z).
Context (Ha : aligned a) (Hp : aligned p) (Ha48 : 0 ≤ a < 2 ^ 48) (Hp48 : 0 ≤ p < 2 ^ 48).

Lemma header_8 : u64 (a + 8) = a + 8.
Proof using Ha48. apply wrap_small. unfold in_width. lia. Qed.

Lemma next_of_put_eq m : next_of (put_entry a n s m) a = n.
Proof using Ha48.
  unfold next_of, put_entry. rewrite header_8, !InitPTSpec.ld_insert. repeat case_decide; done || lia.
Qed.
Lemma size_of_put_eq m : size_of (put_entry a n s m) a = s.
Proof using Ha48. unfold size_of, put_entry. rewrite header_8, !InitPTSpec.ld_insert. by case_decide. Qed.
Lemma put_ne m : a ≠ p → next_of (put_entry p n s m) a = next_of m a ∧ size_of (put_entry p n s m) a = size_of m a.
Proof using Type*.
  intros Hne. destruct (aligned_apart a p Ha Hp Hne ltac:(lia) ltac:(lia)) as [Hd|Hd];
    unfold next_of, size_of, put_entry; rewrite header_8, (wrap_small 64 (p + 8)) by (unfold in_width; lia);
    rewrite !InitPTSpec.ld_insert; repeat case_decide; split; done || lia.
Qed.
Lemma link_ne m : a ≠ p → next_of (<[p := n]> m) a = next_of m a ∧ size_of (<[p := n]> m) a = size_of m a.
Proof using Type*.
  intros Hne. destruct (aligned_apart a p Ha Hp Hne ltac:(lia) ltac:(lia)) as [Hd|Hd];
    unfold next_of, size_of; rewrite header_8, !InitPTSpec.ld_insert; repeat case_decide; split; done || lia.
Qed.
Lemma link_eq m : next_of (<[a := n]> m) a = n ∧ size_of (<[a := n]> m) a = size_of m a.
Proof using Ha48.
  unfold next_of, size_of; rewrite header_8, !InitPTSpec.ld_insert; repeat case_decide; split; done || lia.
Qed.
End entries.

(** A change that leaves the headers of a segment alone leaves the segment. *)
Lemma seg_frame m m' h l t :
  (∀ c, c ∈ l → next_of m' c.1 = next_of m c.1 ∧ size_of m' c.1 = size_of m c.1) → seg m h l t → seg m' h l t.
Proof.
  revert h. induction l as [|[a sz] l IH]; intros h Hf; [done|]. simpl. intros (-> & Hs & Hl).
  destruct (Hf (a, sz) ltac:(by left)) as [En Es]. simpl in *. rewrite Es, En. split_and!; [done..|].
  apply IH; [|done]. intros c Hc. apply Hf. by right.
Qed.

Lemma chunk_range c : chunk_ok c → aligned c.1 ∧ 0 ≤ c.1 < 2 ^ 48.
Proof. intros (? & ? & ? & ? & ?). split; [done|lia]. Qed.

Lemma seg_put m h l t lo p n s : ordered lo l → aligned p → 0 ≤ p < 2 ^ 48 → (∀ c, c ∈ l → c.1 ≠ p) →
  seg m h l t → seg (put_entry p n s m) h l t.
Proof.
  intros Ho Hp Hp48 Hne. apply seg_frame. intros c Hc. destruct (ordered_in _ _ _ Ho Hc) as [_ Hok].
  apply chunk_range in Hok as [? ?]. apply put_ne; auto.
Qed.
Lemma seg_link m h l t lo p n : ordered lo l → aligned p → 0 ≤ p < 2 ^ 48 → (∀ c, c ∈ l → c.1 ≠ p) →
  seg m h l t → seg (<[p := n]> m) h l t.
Proof.
  intros Ho Hp Hp48 Hne. apply seg_frame. intros c Hc. destruct (ordered_in _ _ _ Ho Hc) as [_ Hok].
  apply chunk_range in Hok as [? ?]. apply link_ne; auto.
Qed.

(** Writing through the link at the end of [l1] puts a new tail behind it. *)
Lemma relink m s l1 l2 u t lo : ordered lo l1 → seg m (free_head s) l1 u → (∀ c, c ∈ l1 → ∀ d, d ∈ l2 → c.1 ≠ d.1) →
  (∃ lo2, ordered lo2 l2) → seg m t l2 0 → rep (put_link (last_link l1) t (m, s)) (l1 ++ l2).
Proof.
  intros Ho1 Hs1 Hne [lo2 Ho2] Hs2. unfold rep. destruct l1 as [|[a sz] l0 _] using rev_ind; [done|].
  unfold last_link. rewrite last_snoc. cbn [fmap option_fmap option_map fst snd put_link].
  apply ordered_app in Ho1 as [Ho0 Hoa]. simpl in Hoa. destruct Hoa as (Hlo & Hok & _).
  pose proof (chunk_range _ Hok) as [Hal Hr]. simpl in *.
  apply seg_app in Hs1 as (w & Hs0 & [-> [Hsz _]]). rewrite <- app_assoc. apply seg_app. exists a.
  assert (∀ c, c ∈ l0 → c.1 ≠ a) as Hbef.
  { intros c Hc E. assert (ordered lo (l0 ++ [(a, sz)])) as Hor by (apply ordered_app; simpl; auto).
    pose proof (ordered_before _ _ _ _ _ Hor Hc). destruct (ordered_in _ _ _ Ho0 Hc) as [_ (? & _ & ? & _)]. simpl in *. lia. }
  split; [by eapply seg_link|]. simpl. destruct (link_eq a t Hr m) as [-> ->]. split_and!; [done..|].
  eapply seg_link; [done..| |done]. intros d Hd E. eapply (Hne (a, sz)); [apply elem_of_app; right; by left|done|done].
Qed.

(** ** What is free, and what a change may touch *)
Definition covers l b : Prop := ∃ c, c ∈ l ∧ c.1 ≤ b < c.1 + c.2.

(** Memory changes only in the headers at page boundaries of free bytes. *)
Definition same_outside l m m' : Prop :=
  ∀ w, (∀ b, covers l b → aligned b → w ≠ b ∧ w ≠ u64 (b + 8)) → m' !! w = m !! w.

#[export] Instance same_outside_preorder l : PreOrder (same_outside l).
Proof. split; [by intros m w _|]. intros m1 m2 m3 H12 H23 w Hw. by rewrite H23, H12. Qed.

Lemma covers_cons c l b : covers (c :: l) b ↔ c.1 ≤ b < c.1 + c.2 ∨ covers l b.
Proof.
  unfold covers. split.
  - intros (d & [->|Hd]%elem_of_cons & Hb); [by left|right; by exists d].
  - intros [Hb|(d & Hd & Hb)]; [exists c|exists d]; (split; [by constructor|done]).
Qed.
Lemma covers_app l1 l2 b : covers (l1 ++ l2) b ↔ covers l1 b ∨ covers l2 b.
Proof.
  unfold covers. split.
  - intros (d & [Hd|Hd]%elem_of_app & Hb); eauto.
  - intros [(d & Hd & Hb)|(d & Hd & Hb)]; exists d; (split; [apply elem_of_app; auto|done]).
Qed.
Lemma covers_nil b : ¬ covers [] b.
Proof. intros (c & Hc & _). by apply not_elem_of_nil in Hc. Qed.

Lemma same_put l m p n s : covers l p → aligned p → same_outside l m (put_entry p n s m).
Proof.
  intros Hc Hp w Hw. destruct (Hw p Hc Hp). unfold put_entry. by rewrite !lookup_insert_ne.
Qed.
Lemma same_link l x (link : option Z) t : (∀ c, link = Some c → covers l c ∧ aligned c) →
  same_outside l (fst x) (fst (put_link link t x)).
Proof.
  intros Hh w Hw. destruct link as [c|]; [|done]. destruct (Hh c eq_refl) as [Hc Hal]. destruct (Hw c Hc Hal). simpl.
  by rewrite lookup_insert_ne.
Qed.

Lemma covers_start lo l c : ordered lo l → c ∈ l → covers l c.1 ∧ aligned c.1.
Proof.
  intros Ho Hc. destruct (ordered_in _ _ _ Ho Hc) as [_ (H1 & H2 & H3 & _)].
  split; [|done]. exists c. split; [done|]. lia.
Qed.

Lemma last_link_covers lo l1 l2 p : ordered lo (l1 ++ l2) → last_link l1 = Some p → covers (l1 ++ l2) p ∧ aligned p.
Proof.
  intros Ho Hl. unfold last_link in Hl. destruct (last l1) as [c|] eqn:E; [|done]. simpl in Hl. injection Hl as <-.
  eapply covers_start; [done|]. apply elem_of_app. left. by apply last_Some_elem_of.
Qed.

(** ** Taking memory out of a chunk *)
Definition rest_after address size sz : list chunk := if sz =? size then [] else [(address + size, sz - size)].
Definition carve_list a sz address size : list chunk :=
  (if a =? address then [] else [(a, address - a)]) ++ rest_after address size (a + sz - address).

Lemma aligned_add a b : aligned a → aligned b → aligned (a + b).
Proof. unfold aligned. intros Ha Hb. by rewrite Z.add_mod, Ha, Hb. Qed.
Lemma aligned_sub a b : aligned a → aligned b → aligned (a - b).
Proof. unfold aligned. intros Ha Hb. by rewrite Zminus_mod, Ha, Hb. Qed.

Lemma ordered_rest lo address size sz l2 : 0 < size ≤ sz → aligned size → ordered lo ((address, sz) :: l2) →
  ordered (address + size) (rest_after address size sz ++ l2).
Proof.
  intros Hs Hal (_ & (H1 & H2 & H3 & H4 & H5) & Ho). simpl in *. unfold rest_after. case (Z.eqb_spec sz size) as [->|Hne].
  - exact Ho.
  - simpl. split_and!; [lia| |by replace (address + size + (sz - size)) with (address + sz) by lia].
    split_and!; simpl; [lia|by apply aligned_add|lia|by apply aligned_sub|lia].
Qed.

(** [carve] once the chunk starts at [address]. *)
Definition carve_tail (link : option Z) address size x : mem * State :=
  let m1 := fst x in
  let m2 :=
    if negb (size_of m1 address =? size) then
      put_entry address (u64 (address + size)) size
        (put_entry (u64 (address + size)) (next_of m1 address) (u64 (size_of m1 address - size)) m1)
    else m1 in
  put_link link (next_of m2 address) (m2, snd x).

Lemma carve_tail_rep m s l1 l2 lo address sz size : ordered lo (l1 ++ (address, sz) :: l2) →
  seg m (free_head s) l1 address → size_of m address = sz → seg m (next_of m address) l2 0 →
  0 < size ≤ sz → aligned size →
  rep (carve_tail (last_link l1) address size (m, s)) (l1 ++ rest_after address size sz ++ l2).
Proof.
  intros Ho Hs1 Hsz Hs2 Hsize Hal. pose proof (λ c, ordered_before _ _ _ _ c Ho) as Hbef. simpl in Hbef.
  apply ordered_app in Ho as [Ho1 Ho2]. destruct Ho2 as (Hlo2 & Hok & Ho2). pose proof Hok as (H1 & H2 & H3 & H4 & H5). simpl in *.
  assert (∀ c, c ∈ l1 → c.1 < address) as Hlt1.
  { intros c Hc. pose proof (Hbef c Hc). destruct (ordered_in _ _ _ Ho1 Hc) as [_ (? & _ & ? & _)]. lia. }
  assert (∀ c, c ∈ l2 → address + sz ≤ c.1) as Hlt2 by (intros c Hc; by destruct (ordered_in _ _ _ Ho2 Hc)).
  unfold carve_tail, rest_after. cbn [fst snd]. rewrite Hsz. case (Z.eqb_spec sz size) as [->|Hne]; cbn [negb].
  - eapply relink; [done..| |by eexists|done]. intros c Hc d Hd. pose proof (Hlt1 c Hc). pose proof (Hlt2 d Hd). lia.
  - rewrite (wrap_small 64 (address + size)), (wrap_small 64 (sz - size)) by (unfold in_width; lia).
    set (nx := address + size) in *. assert (aligned nx) as Hnx by (by apply aligned_add).
    set (m' := put_entry nx _ _ m). rewrite next_of_put_eq by lia.
    assert (∀ c, c ∈ l1 → c.1 ≠ nx ∧ c.1 ≠ address) as Hd1 by (intros c Hc; pose proof (Hlt1 c Hc); lia).
    assert (∀ c, c ∈ l2 → c.1 ≠ nx ∧ c.1 ≠ address) as Hd2 by (intros c Hc; pose proof (Hlt2 c Hc); lia).
    eapply (relink _ _ l1 ((nx, sz - size) :: l2)); [done| | | |].
    + eapply seg_put; [done|done|lia|apply Hd1|]. eapply seg_put; [done|done|lia|apply Hd1|done].
    + intros c Hc d Hd. apply elem_of_cons in Hd as [->|Hd]; [by apply Hd1|].
      pose proof (Hlt1 c Hc). pose proof (Hlt2 d Hd). lia.
    + exists nx. pose proof (ordered_rest address address size sz l2 Hsize Hal (conj (Z.le_refl _) (conj Hok Ho2))) as Hrest.
      unfold rest_after in Hrest. rewrite (proj2 (Z.eqb_neq _ _) Hne) in Hrest. exact Hrest.
    + simpl. destruct (put_ne nx address nx size Hnx H2 ltac:(lia) ltac:(lia) m' ltac:(lia)) as [-> ->].
      unfold m'. rewrite next_of_put_eq, size_of_put_eq by lia. split_and!; [done..|].
      eapply seg_put; [done|done|lia|apply Hd2|]. eapply seg_put; [done|done|lia|apply Hd2|done].
Qed.

(** The chunk at [a] has room for [size] bytes at [address]. *)
Definition hit a sz address size : bool := (a <=? address) && (address + size <=? a + sz).

Lemma carve_rep m s l1 l2 lo a sz address size : ordered lo (l1 ++ (a, sz) :: l2) →
  seg m (free_head s) (l1 ++ (a, sz) :: l2) 0 → hit a sz address size = true →
  0 < size → aligned size → aligned address →
  rep (carve (last_link l1) a address size (m, s)) (l1 ++ carve_list a sz address size ++ l2).
Proof.
  intros Ho Hseg Hhit Hsize Hal Hala. unfold hit in Hhit. apply andb_true_iff in Hhit as [Hle Hend].
  apply Z.leb_le in Hle. apply Z.leb_le in Hend. apply seg_app in Hseg as (u & Hs1 & [-> [Hsz Hs2]]).
  pose proof Ho as [Ho1 (Hlo2 & Hok & Ho2)]%ordered_app. pose proof Hok as (H1 & H2 & H3 & H4 & H5). simpl in *.
  unfold carve, carve_list. cbn [fst snd]. case (Z.eqb_spec a address) as [<-|Hne]; cbn [negb].
  - rewrite Z.add_simpl_l. exact (carve_tail_rep m s l1 l2 lo a sz size Ho Hs1 Hsz Hs2 ltac:(lia) Hal).
  - rewrite Hsz, (wrap_small 64 (address - a)), (wrap_small 64 (a + sz - address)) by (unfold in_width; lia).
    set (m0 := put_entry address _ _ m). set (m1 := put_entry a _ _ m0).
    change (rep (carve_tail (Some a) address size (m1, s))
      (l1 ++ (a, address - a) :: (rest_after address size (a + sz - address) ++ l2))).
    assert (Some a = last_link (l1 ++ [(a, address - a)])) as -> by (unfold last_link; by rewrite last_snoc).
    replace (l1 ++ (a, address - a) :: (rest_after address size (a + sz - address) ++ l2)) with
      ((l1 ++ [(a, address - a)]) ++ rest_after address size (a + sz - address) ++ l2) by (by rewrite <- app_assoc).
    pose proof (λ c, ordered_before _ _ _ _ c Ho) as Hbef. simpl in Hbef.
    assert (∀ c, c ∈ l1 → c.1 ≠ a ∧ c.1 ≠ address) as Hd1.
    { intros c Hc. pose proof (Hbef c Hc). destruct (ordered_in _ _ _ Ho1 Hc) as [_ (? & _ & ? & _)]. lia. }
    assert (∀ c, c ∈ l2 → c.1 ≠ a ∧ c.1 ≠ address) as Hd2 by (intros c Hc; destruct (ordered_in _ _ _ Ho2 Hc); lia).
    destruct (put_ne address a address (address - a) Hala H2 ltac:(lia) ltac:(lia) m0 ltac:(lia)) as [En Es].
    fold m1 in En, Es. unfold m0 in En, Es. rewrite next_of_put_eq in En by lia. rewrite size_of_put_eq in Es by lia.
    apply (carve_tail_rep m1 s (l1 ++ [(a, address - a)]) l2 lo); [| |done| |lia|done].
    + rewrite <- app_assoc. apply ordered_app. split; [done|]. simpl. split_and!; [done| |lia| |].
      * split_and!; simpl; [lia|done|lia|by apply aligned_sub|lia].
      * split_and!; simpl; [lia|done|lia|by apply aligned_sub; [apply aligned_add|]|lia].
      * by replace (address + (a + sz - address)) with (a + sz) by lia.
    + apply seg_app. exists a. split.
      * eapply seg_put; [done|done|lia|apply Hd1|]. eapply seg_put; [done|done|lia|apply Hd1|done].
      * simpl. unfold m1. by rewrite size_of_put_eq, next_of_put_eq by lia.
    + rewrite En. eapply seg_put; [done|done|lia|apply Hd2|]. eapply seg_put; [done|done|lia|apply Hd2|done].
Qed.

Lemma carve_same m s l1 l2 lo a sz address size : ordered lo (l1 ++ (a, sz) :: l2) → size_of m a = sz →
  hit a sz address size = true → 0 < size → aligned size → aligned address →
  same_outside (l1 ++ (a, sz) :: l2) m (fst (carve (last_link l1) a address size (m, s))).
Proof.
  intros Ho Hsz Hhit Hsize Hal Hala. unfold hit in Hhit. apply andb_true_iff in Hhit as [Hle Hend].
  apply Z.leb_le in Hle. apply Z.leb_le in Hend.
  destruct (ordered_in _ _ (a, sz) Ho ltac:(apply elem_of_app; right; by left)) as [_ (H1 & H2 & H3 & H4 & H5)]. simpl in *.
  assert (∀ b, a ≤ b < a + sz → covers (l1 ++ (a, sz) :: l2) b) as Hcov
    by (intros b Hb; exists (a, sz); split; [apply elem_of_app; right; by left|done]).
  unfold carve. cbn [fst snd]. set (st1 := if negb (a =? address) then _ else _).
  assert (same_outside (l1 ++ (a, sz) :: l2) m (snd st1) ∧ size_of (snd st1) address = a + sz - address ∧
    ∀ c, fst st1 = Some c → covers (l1 ++ (a, sz) :: l2) c ∧ aligned c) as (Hm1 & Hs1 & Hl1).
  { unfold st1. case (Z.eqb_spec a address) as [<-|Hne]; cbn [negb fst snd].
    - split_and!; [done|lia|]. intros c Hc. by eapply last_link_covers.
    - split_and!.
      + etrans; apply same_put; try done; apply Hcov; lia.
      + destruct (put_ne address a address (u64 (address - a)) Hala H2 ltac:(lia) ltac:(lia)
          (put_entry address (next_of m a) (u64 (a + size_of m a - address)) m) ltac:(lia)) as [_ ->].
        rewrite size_of_put_eq, Hsz by lia. apply wrap_small. unfold in_width. lia.
      + intros c [= <-]. split; [apply Hcov; lia|done]. }
  destruct st1 as [link1 m1]. cbn [fst snd] in *. set (m2 := if negb _ then _ else _).
  etrans; [exact Hm1|]. transitivity m2; [|by apply (same_link _ (m2, s))].
  unfold m2. rewrite Hs1. case (Z.eqb_spec (a + sz - address) size) as [E|E]; cbn [negb]; [done|].
  rewrite (wrap_small 64 (address + size)) by (unfold in_width; lia).
  etrans; apply same_put; try done; try (by apply aligned_add); apply Hcov; lia.
Qed.

(** ** [TryAllocate] *)
Fixpoint try_list address size l : option (list chunk) :=
  match l with
  | [] => None
  | (a, sz) :: l' =>
      if hit a sz address size then Some (carve_list a sz address size ++ l') else cons (a, sz) <$> try_list address size l'
  end.

Lemma try_loop_rep address size l2 : 0 < size → aligned size → aligned address → 0 ≤ address → address + size ≤ 2 ^ 64 →
  ∀ fuel m s lo l1 cur, ordered lo (l1 ++ l2) → rep (m, s) (l1 ++ l2) → seg m cur l2 0 → (length l2 ≤ fuel)%nat →
  match try_list address size l2 with
  | None => try_loop fuel (last_link l1) cur address size (m, s) = Ok (false, (m, s))
  | Some l2' => ∃ y, try_loop fuel (last_link l1) cur address size (m, s) = Ok (true, y) ∧ rep y (l1 ++ l2') ∧
      same_outside (l1 ++ l2) m (fst y)
  end.
Proof.
  intros Hsize Hal Hala Ha0 Hend. induction l2 as [|[a sz] l2 IH]; intros fuel m s lo l1 cur Ho Hrep Hcur Hf.
  { simpl in Hcur. subst cur. by destruct fuel. }
  destruct Hcur as (-> & Hsz & Hcur). destruct fuel as [|fuel]; [simpl in Hf; lia|].
  pose proof (ordered_in _ _ (a, sz) Ho ltac:(apply elem_of_app; right; by left)) as [_ (H1 & H2 & H3 & H4 & H5)]. simpl in *.
  rewrite (proj2 (Z.eqb_neq a 0)) by lia. rewrite Hsz.
  rewrite (wrap_small 64 (a + sz - 1)), (wrap_small 64 (address + size - 1)) by (unfold in_width; lia).
  assert ((a <=? address) && (address + size - 1 <=? a + sz - 1) = hit a sz address size) as ->.
  { unfold hit. f_equal. apply eq_true_iff_eq. rewrite !Z.leb_le. lia. }
  destruct (hit a sz address size) eqn:Hhit.
  - eexists. split; [done|]. split; [by eapply carve_rep|by eapply carve_same].
  - specialize (IH fuel m s lo (l1 ++ [(a, sz)]) (next_of m a)). rewrite <- app_assoc in IH. simpl in IH.
    assert (last_link (l1 ++ [(a, sz)]) = Some a) as E by (unfold last_link; by rewrite last_snoc). rewrite E in IH.
    specialize (IH Ho Hrep Hcur ltac:(lia)). destruct (try_list address size l2) as [l2'|]; [|done]. simpl.
    destruct IH as (y & Hy & Hr & Hs). exists y. split; [done|]. by rewrite <- app_assoc in Hr.
Qed.

(** ** [Free] *)
Fixpoint free_list addr size l : list chunk :=
  match l with
  | [] => [(addr, size)]
  | (a, sz) :: l' =>
      if addr + size <? a then (addr, size) :: (a, sz) :: l'
      else if addr + size =? a then (addr, sz + size) :: l'
      else (a, sz) :: free_list addr size l'
  end.

(** The chunk [size] at [addr] and the list have no byte in common. *)
Definition apart addr size l : Prop := ∀ c, c ∈ l → c.1 + c.2 ≤ addr ∨ addr + size ≤ c.1.

Lemma free_loop_same addr size l2 : chunk_ok (addr, size) → ∀ fuel m s lo l1 cur y,
  ordered lo (l1 ++ l2) → seg m cur l2 0 → free_loop fuel (last_link l1) cur addr size (m, s) = Ok y → l2 ≠ [] →
  same_outside ((addr, size) :: l1 ++ l2) m (fst y).
Proof.
  intros (A1 & A2 & A3 & A4 & A5). cbn [fst snd] in *.
  induction l2 as [|[a sz] l2 IH]; intros fuel m s lo l1 cur y Ho Hcur Hy Hne; [done|].
  destruct Hcur as (-> & Hsz & Hcur). destruct fuel as [|fuel]; [done|].
  set (L := (addr, size) :: l1 ++ (a, sz) :: l2).
  assert (covers L addr) as Hcad by (apply covers_cons; left; simpl; lia).
  assert (covers L a ∧ aligned a) as [Hca Hala].
  { destruct (covers_start lo (l1 ++ (a, sz) :: l2) (a, sz) Ho) as [Hc ?]; [apply elem_of_app; right; by left|].
    split; [|done]. apply covers_cons. by right. }
  assert (∀ c, last_link l1 = Some c → covers L c ∧ aligned c) as Hlink.
  { intros c Hc. destruct (last_link_covers _ _ _ _ Ho Hc). split; [|done]. apply covers_cons. by right. }
  assert (∀ n k t, same_outside L m (fst (put_link (last_link l1) t (put_entry addr n k m, s)))) as Hput.
  { intros n k t. etrans; [by apply (same_put L m addr n k)|]. by apply (same_link L (put_entry addr n k m, s)). }
  cbn [free_loop fst snd] in Hy. rewrite (wrap_small 64 (addr + size)) in Hy by (unfold in_width; lia).
  rewrite (proj2 (Z.ltb_lt addr (addr + size))) in Hy by lia.
  destruct (addr + size <? a); [injection Hy as <-; apply Hput|].
  destruct (addr + size =? a); [injection Hy as <-; apply Hput|].
  destruct (next_of m a =? 0) eqn:Hn; cbn [negb] in Hy.
  - injection Hy as <-. etrans; [by apply (same_put L m addr 0 size)|].
    apply (same_link L (put_entry addr 0 size m, s) (Some a)). intros c [= <-]. done.
  - destruct l2 as [|d l2]; [simpl in Hcur; by rewrite Hcur in Hn|].
    assert (Some a = last_link (l1 ++ [(a, sz)])) as E by (unfold last_link; by rewrite last_snoc). rewrite E in Hy.
    eapply IH in Hy; [|by rewrite <- app_assoc|done|done]. by rewrite <- app_assoc in Hy.
Qed.

Lemma free_loop_rep addr size l2 : chunk_ok (addr, size) → ∀ fuel m s lo l1 cur,
  ordered lo (l1 ++ l2) → rep (m, s) (l1 ++ l2) → seg m cur l2 0 → l2 ≠ [] → (length l2 ≤ fuel)%nat →
  (∀ c, c ∈ l1 → c.1 + c.2 ≤ addr) → apart addr size l2 →
  ∃ y, free_loop fuel (last_link l1) cur addr size (m, s) = Ok y ∧ rep y (l1 ++ free_list addr size l2).
Proof.
  intros (A1 & A2 & A3 & A4 & A5). cbn [fst snd] in *.
  induction l2 as [|[a sz] l2 IH]; intros fuel m s lo l1 cur Ho Hrep Hcur Hne Hf Hl1 Hap; [done|].
  destruct Hcur as (-> & Hsz & Hcur). destruct fuel as [|fuel]; [simpl in Hf; lia|].
  pose proof (λ c, ordered_before _ _ _ _ c Ho) as Hbef. cbn [fst snd] in Hbef.
  pose proof Ho as [Ho1 (Hlo2 & Hok & Ho2)]%ordered_app. pose proof Hok as (H1 & H2 & H3 & H4 & H5). cbn [fst snd] in *.
  pose proof Hrep as Hs1. unfold rep in Hs1. cbn [fst snd] in Hs1. apply seg_app in Hs1 as (u & Hs1 & [-> _]).
  assert (∀ c, c ∈ l1 → c.1 < addr) as Hlt1.
  { intros c Hc. pose proof (Hl1 c Hc). destruct (ordered_in _ _ _ Ho1 Hc) as [_ (? & _ & ? & _)]. lia. }
  assert (∀ c, c ∈ l2 → a + sz ≤ c.1) as Hlt2 by (intros c Hc; by destruct (ordered_in _ _ _ Ho2 Hc)).
  cbn [free_loop fst snd]. rewrite Hsz, (wrap_small 64 (addr + size)) by (unfold in_width; lia).
  rewrite (proj2 (Z.ltb_lt addr (addr + size))) by lia. cbn [free_list].
  destruct (Hap (a, sz) ltac:(by left)) as [Hbelow|Habove]; cbn [fst snd] in *.
  - rewrite (proj2 (Z.ltb_ge _ _)), (proj2 (Z.eqb_neq _ _)) by lia.
    assert (last_link (l1 ++ [(a, sz)]) = Some a) as E by (unfold last_link; by rewrite last_snoc).
    destruct l2 as [|[b sb] l2].
    + simpl in Hcur. rewrite Hcur. cbn [negb Z.eqb free_list]. eexists. split; [done|].
      replace (l1 ++ [(a, sz); (addr, size)]) with ((l1 ++ [(a, sz)]) ++ [(addr, size)]) by (by rewrite <- app_assoc).
      change (<[a := addr]> (put_entry addr 0 size m), s) with (put_link (Some a) addr (put_entry addr 0 size m, s)).
      rewrite <- E. eapply (relink _ _ (l1 ++ [(a, sz)]) [(addr, size)]); [done| | | |].
      * eapply seg_put; [done|done|lia| |exact Hrep].
        intros c [Hc| ->%list_elem_of_singleton]%elem_of_app; [pose proof (Hlt1 c Hc); lia|simpl; lia].
      * intros c Hc d ->%list_elem_of_singleton. apply elem_of_app in Hc as [Hc| ->%list_elem_of_singleton]; [pose proof (Hlt1 c Hc); simpl; lia|simpl; lia].
      * exists addr. simpl. split_and!; [lia| |done]. by split_and!.
      * simpl. by rewrite next_of_put_eq, size_of_put_eq by lia.
    + pose proof Hcur as (Hb & _). pose proof (Hlt2 (b, sb) ltac:(by left)). cbn [fst snd] in *.
      rewrite (proj2 (Z.eqb_neq (next_of m a) 0)) by lia. cbn [negb].
      specialize (IH fuel m s lo (l1 ++ [(a, sz)]) (next_of m a)). rewrite E, <- app_assoc in IH.
      destruct IH as (y & Hy & Hr); [done|done|done|done|simpl in *; lia| |intros c Hc; apply Hap; by right|].
      { intros c [Hc| ->%list_elem_of_singleton]%elem_of_app; [by apply Hl1|done]. }
      exists y. split; [done|]. by rewrite <- app_assoc in Hr.
  - assert (∀ c, c ∈ l1 → c.1 ≠ addr) as Hd1 by (intros c Hc; pose proof (Hlt1 c Hc); lia).
    assert (∀ c, c ∈ l2 → c.1 ≠ addr) as Hd2 by (intros c Hc; pose proof (Hlt2 c Hc); lia).
    case (Z.ltb_spec (addr + size) a) as [Hlt|Hge]; [|rewrite (proj2 (Z.eqb_eq (addr + size) a)) by lia].
    + eexists. split; [done|]. eapply (relink _ _ l1 ((addr, size) :: (a, sz) :: l2)); [done| | | |].
      * by eapply seg_put; [done|done|lia|..].
      * intros c Hc d Hd. pose proof (Hlt1 c Hc). pose proof (Hbef c Hc). destruct (ordered_in _ _ _ Ho1 Hc) as [_ (? & _ & ? & _)].
        repeat (apply elem_of_cons in Hd as [->|Hd]; [simpl; lia|]). pose proof (Hlt2 d Hd). lia.
      * exists addr. simpl. split_and!; [lia|by split_and!|lia|done|done].
      * simpl. rewrite next_of_put_eq, size_of_put_eq by lia. split_and!; [done..| |].
        -- by destruct (put_ne a addr a size H2 A2 ltac:(lia) ltac:(lia) m ltac:(lia)) as [_ ->].
        -- destruct (put_ne a addr a size H2 A2 ltac:(lia) ltac:(lia) m ltac:(lia)) as [-> _]. by eapply seg_put; [done|done|lia|..].
    + rewrite (wrap_small 64 (sz + size)) by (unfold in_width; lia).
      eexists. split; [done|]. eapply (relink _ _ l1 ((addr, sz + size) :: l2)); [done| | | |].
      * by eapply seg_put; [done|done|lia|..].
      * intros c Hc d Hd. pose proof (Hlt1 c Hc). apply elem_of_cons in Hd as [->|Hd]; [simpl; lia|]. pose proof (Hlt2 d Hd). lia.
      * exists addr. simpl. split_and!; [lia| |by replace (addr + (sz + size)) with (a + sz) by lia].
        split_and!; simpl; [lia|done|lia|by apply aligned_add|lia].
      * simpl. rewrite next_of_put_eq, size_of_put_eq by lia. split_and!; [done..|]. by eapply seg_put; [done|done|lia|..].
Qed.

(** ** The lists' contents *)
Lemma covers_carve a sz address size b : hit a sz address size = true → 0 < size →
  covers (carve_list a sz address size) b ↔ a ≤ b < a + sz ∧ ¬ (address ≤ b < address + size).
Proof.
  intros Hhit Hs. unfold hit in Hhit. apply andb_true_iff in Hhit as [Hle%Z.leb_le Hend%Z.leb_le].
  unfold carve_list, rest_after. rewrite covers_app. assert (covers [] b ↔ False) as Hn by (split; [apply covers_nil|done]).
  case (Z.eqb_spec (a + sz - address) size) as [|]; case (Z.eqb_spec a address) as [->|];
    rewrite ?covers_cons, ?Hn; cbn [fst snd]; lia.
Qed.

Lemma ordered_carve lo l a sz address size : ordered lo ((a, sz) :: l) → hit a sz address size = true → 0 < size →
  aligned size → aligned address → ordered lo (carve_list a sz address size ++ l).
Proof.
  intros (Hlo & Hok & Ho) Hhit Hs Hal Hala. unfold hit in Hhit. apply andb_true_iff in Hhit as [Hle%Z.leb_le Hend%Z.leb_le].
  pose proof Hok as (H1 & H2 & H3 & H4 & H5). cbn [fst snd] in *. unfold carve_list. rewrite <- app_assoc.
  assert (ordered (address + size) (rest_after address size (a + sz - address) ++ l)) as Hrest.
  { apply (ordered_rest address); [lia|done|]. simpl. split_and!; [lia| |by replace (address + (a + sz - address)) with (a + sz) by lia].
    split_and!; simpl; [lia|done|lia|by apply aligned_sub; [apply aligned_add|]|lia]. }
  case (Z.eqb_spec a address) as [->|Hne]; simpl; [eapply ordered_le; [|done]; lia|].
  split_and!; [done| |eapply ordered_le; [|done]; lia]. split_and!; simpl; [lia|done|lia|by apply aligned_sub|lia].
Qed.

Lemma try_list_ok address size l : 0 < size → aligned size → aligned address → ∀ lo, ordered lo l →
  match try_list address size l with
  | None => ∀ c, c ∈ l → hit c.1 c.2 address size = false
  | Some l' => ordered lo l' ∧ (∃ c, c ∈ l ∧ hit c.1 c.2 address size = true) ∧
      ∀ b, covers l' b ↔ covers l b ∧ ¬ (address ≤ b < address + size)
  end.
Proof.
  intros Hs Hal Hala. induction l as [|[a sz] l IH]; intros lo Ho; [by intros c Hc%not_elem_of_nil|].
  cbn [try_list]. destruct (hit a sz address size) eqn:Hhit.
  - split_and!; [by apply ordered_carve|exists (a, sz); by split; [left|]|]. intros b. rewrite covers_app, covers_carve, covers_cons by done.
    cbn [fst snd]. destruct Ho as (_ & Hok & Ho). split; [|tauto]. intros [?|Hb]; [tauto|]. split; [by right|].
    destruct Hb as (c & Hc & Hb). destruct (ordered_in _ _ _ Ho Hc). unfold hit in Hhit.
    apply andb_true_iff in Hhit as [Hle%Z.leb_le Hend%Z.leb_le]. simpl in *. lia.
  - destruct Ho as (Hlo & Hok & Ho). specialize (IH _ Ho). destruct (try_list address size l) as [l'|]; simpl.
    + destruct IH as (Ho' & (c & Hc & Hh) & Hcov). split_and!; [done|done|done|exists c; by split; [right|]|].
      intros b. rewrite !covers_cons, Hcov. cbn [fst snd]. split; [|tauto]. intros [Hb|Hb]; [|tauto]. split; [by left|]. intros Hb'.
      unfold hit in Hhit, Hh. apply andb_true_iff in Hh as [Hle%Z.leb_le Hend%Z.leb_le].
      destruct (ordered_in _ _ _ Ho Hc). simpl in *. lia.
    + intros c [->|Hc]%elem_of_cons; [done|by apply IH].
Qed.

Lemma free_list_ok addr size l : chunk_ok (addr, size) → ∀ lo, lo ≤ addr → ordered lo l → apart addr size l →
  ordered lo (free_list addr size l) ∧ ∀ b, covers (free_list addr size l) b ↔ covers l b ∨ addr ≤ b < addr + size.
Proof.
  intros Hok. pose proof Hok as (A1 & A2 & A3 & A4 & A5). cbn [fst snd] in *.
  induction l as [|[a sz] l IH]; intros lo Hlo Ho Hap.
  { simpl. split; [done|]. intros b. rewrite covers_cons. simpl. tauto. }
  pose proof Ho as (Hloa & (H1 & H2 & H3 & H4 & H5) & Hol). cbn [fst snd free_list] in *.
  destruct (Hap (a, sz) ltac:(by left)) as [Hb|Ha]; cbn [fst snd] in *.
  - rewrite (proj2 (Z.ltb_ge _ _)), (proj2 (Z.eqb_neq _ _)) by lia.
    destruct (IH (a + sz) Hb Hol) as [Ho' Hc']; [intros c Hc; apply Hap; by right|].
    split; [done|]. intros b. rewrite !covers_cons, Hc'. tauto.
  - case (Z.ltb_spec (addr + size) a) as [Hlt|Hge]; [|rewrite (proj2 (Z.eqb_eq (addr + size) a)) by lia].
    + split; [simpl; split_and!; try done; lia|]. intros b. rewrite (covers_cons (addr, size)). simpl. tauto.
    + split.
      * simpl. split_and!; [done| |by replace (addr + (sz + size)) with (a + sz) by lia].
        split_and!; simpl; [lia|done|lia|by apply aligned_add|lia].
      * intros b. rewrite !covers_cons. cbn [fst snd]. split; [intros [?|?]; [|tauto]|tauto || (intros [[?|?]|?]; [left|right|left]; (done || lia))].
        destruct (decide (b < a)); [right; lia|left; left; lia].
Qed.

(** The bounds of the memory managed. *)
Definition bounds (s : State) : Z * Z := (start_address s, end_address s).

Lemma put_link_bounds link t x : bounds (snd (put_link link t x)) = bounds (snd x).
Proof. by destruct link. Qed.
Lemma carve_bounds link cur address size x : bounds (snd (carve link cur address size x)) = bounds (snd x).
Proof.
  unfold carve. destruct (if negb (cur =? address) then _ else _) as [link1 m1]. by rewrite put_link_bounds.
Qed.
Lemma try_loop_bounds fuel link cur address size x found y :
  try_loop fuel link cur address size x = Ok (found, y) → bounds (snd y) = bounds (snd x).
Proof.
  revert link cur. induction fuel as [|fuel IH]; intros link cur; simpl; destruct (cur =? 0); try done; [by intros [= _ <-]..|].
  destruct (_ && _); [intros [= _ <-]; apply carve_bounds|apply IH].
Qed.
Lemma free_loop_bounds fuel link cur addr size x y :
  free_loop fuel link cur addr size x = Ok y → bounds (snd y) = bounds (snd x).
Proof.
  revert link cur y. induction fuel as [|fuel IH]; intros link cur y; [done|]. cbn [free_loop].
  assert (∀ z, (if negb (next_of (fst x) cur =? 0) then free_loop fuel (Some cur) (next_of (fst x) cur) addr size x
    else Ok (<[cur := addr]> (put_entry addr 0 size (fst x)), snd x)) = Ok z → bounds (snd z) = bounds (snd x)) as Hgo.
  { intros z. destruct (negb _); [apply IH|by intros [= <-]]. }
  destruct (addr <? _).
  - destruct (_ <? cur); [intros [= <-]; by rewrite put_link_bounds|].
    destruct (_ =? cur); [intros [= <-]; by rewrite put_link_bounds|apply Hgo].
  - destruct (_ =? addr); [by intros [= <-]|apply Hgo].
Qed.

(** [TryAllocate] finds room exactly when one chunk has it, takes exactly the bytes
    asked for, keeps the list in order and writes only headers inside free memory. *)
Theorem TryAllocate_exact fuel x l lo address size :
  ordered lo l → rep x l → (length l ≤ fuel)%nat → 0 < size → aligned size → aligned address → 0 ≤ address →
  address + size ≤ 2 ^ 64 →
  ∃ (found : bool) y l', TryAllocate fuel address size x = Ok (found, y) ∧ rep y l' ∧ ordered lo l' ∧
    (found = true ↔ ∃ c, c ∈ l ∧ c.1 ≤ address ∧ address + size ≤ c.1 + c.2) ∧
    (∀ b, covers l' b ↔ covers l b ∧ ¬ (found = true ∧ address ≤ b < address + size)) ∧
    same_outside l (fst x) (fst y) ∧ bounds (snd y) = bounds (snd x).
Proof.
  intros Ho Hrep Hf Hs Hal Hala Ha Hend. destruct x as [m s]. unfold TryAllocate. cbn [fst snd].
  pose proof (try_loop_rep address size l Hs Hal Hala Ha Hend fuel m s lo [] (free_head s) Ho Hrep Hrep Hf) as Hloop.
  pose proof (try_list_ok address size l Hs Hal Hala lo Ho) as Hlist. change (last_link []) with (@None Z) in Hloop.
  destruct (try_list address size l) as [l'|].
  - destruct Hloop as (y & Hy & Hry & Hsame). destruct Hlist as (Ho' & (c & Hc & Hh) & Hcov).
    exists true, y, l'. split_and!; [done..| | |done|by eapply try_loop_bounds in Hy].
    + split; [intros _|done]. exists c. unfold hit in Hh. rewrite andb_true_iff, !Z.leb_le in Hh. done.
    + intros b. rewrite Hcov. naive_solver.
  - exists false, (m, s), l. split_and!; [done..| |naive_solver|done|done].
    split; [done|]. intros (c & Hc & H1 & H2). specialize (Hlist c Hc). unfold hit in Hlist.
    apply andb_false_iff in Hlist. rewrite !Z.leb_gt in Hlist. lia.
Qed.

Lemma Free_ok fuel x l lo addr size :
  ordered lo l → rep x l → (length l ≤ fuel)%nat → chunk_ok (addr, size) → lo ≤ addr → apart addr size l →
  ∃ y, Free fuel addr size x = Ok y ∧ rep y (free_list addr size l) ∧ ordered lo (free_list addr size l) ∧
    (∀ b, covers (free_list addr size l) b ↔ covers l b ∨ addr ≤ b < addr + size) ∧
    same_outside ((addr, size) :: l) (fst x) (fst y) ∧ bounds (snd y) = bounds (snd x).
Proof.
  intros Ho Hrep Hf Hok Hlo Hap. destruct (free_list_ok addr size l Hok lo Hlo Ho Hap) as [Ho' Hcov].
  destruct x as [m s]. unfold Free. cbn [fst snd]. pose proof Hok as (A1 & A2 & A3 & A4 & A5). cbn [fst snd] in *.
  destruct l as [|[a sz] l].
  - unfold rep in Hrep. simpl in Hrep. rewrite Hrep. cbn [Z.eqb negb]. eexists. split; [done|]. split_and!; [|done|done| |done].
    + unfold rep. simpl. by rewrite size_of_put_eq, next_of_put_eq by lia.
    + apply (same_put [(addr, size)] m); [apply covers_cons; left; simpl; lia|done].
  - pose proof Hrep as (Hh & _). cbn [fst snd] in Hh.
    destruct (ordered_in _ _ (a, sz) Ho ltac:(by left)) as [_ (H1 & _)]. cbn [fst snd] in *.
    rewrite (proj2 (Z.eqb_neq (free_head s) 0)) by lia. cbn [negb].
    destruct (free_loop_rep addr size ((a, sz) :: l) Hok fuel m s lo [] (free_head s) Ho Hrep Hrep) as (y & Hy & Hry);
      [done|done|by intros c Hc%not_elem_of_nil|done|].
    exists y. split_and!; [done..| |by eapply free_loop_bounds in Hy].
    by eapply (free_loop_same addr size _ Hok fuel m s lo []).
Qed.

(** (C18) What [TryAllocate] took, [Free] gives back: it returns, the list is in order
    again and covers exactly the bytes it covered before. *)
Theorem Free_restores fuel x y l lo address size :
  ordered lo l → rep x l → (S (length l) ≤ fuel)%nat → 0 < size → aligned size → aligned address → 0 < address →
  address + size ≤ 2 ^ 48 → lo ≤ address →
  TryAllocate fuel address size x = Ok (true, y) →
  ∃ z l', Free fuel address size y = Ok z ∧ rep z l' ∧ ordered lo l' ∧ ∀ b, covers l' b ↔ covers l b.
Proof.
  intros Ho Hr Hf Hs Hal Hala Ha Hend Hlo Hy.
  pose proof (try_loop_rep address size l Hs Hal Hala ltac:(lia) ltac:(lia) fuel (fst x) (snd x) lo [] (free_head (snd x)) Ho) as Hloop.
  pose proof (try_list_ok address size l Hs Hal Hala lo Ho) as Hlist. destruct x as [m s]. cbn [fst snd] in *.
  specialize (Hloop Hr Hr ltac:(lia)). change (last_link []) with (@None Z) in Hloop. unfold TryAllocate in Hy. cbn [fst snd] in *.
  destruct (try_list address size l) as [l1|] eqn:El; [|congruence].
  destruct Hloop as (y' & Hy' & Hry & _). assert (y' = y) as -> by congruence. destruct Hlist as (Ho1 & (c & Hc & Hh) & Hcov).
  unfold hit in Hh. rewrite andb_true_iff, !Z.leb_le in Hh.
  assert (length l1 ≤ S (length l))%nat as Hlen.
  { clear -El. revert l1 El. induction l as [|[a sz] l IH]; intros l1; [done|]. cbn [try_list]. destruct (hit a sz address size).
    - intros [= <-]. unfold carve_list, rest_after. rewrite !length_app. destruct (_ =? _), (_ =? _); simpl; lia.
    - destruct (try_list address size l) as [l2|]; [|done]. simpl. intros [= <-]. specialize (IH l2 eq_refl). simpl. lia. }
  destruct (Free_ok fuel y l1 lo address size Ho1 Hry) as (z & Hz & Hrz & Hoz & Hcz & _); [lia|by split_and!|lia| |].
  - intros d Hd. destruct (ordered_in _ _ _ Ho1 Hd) as [_ (? & _ & ? & _)].
    destruct (decide (d.1 + d.2 ≤ address)) as [|Hgt]; [by left|]. destruct (decide (address + size ≤ d.1)) as [|Hgt2]; [by right|].
    exfalso. assert (covers l1 (Z.max d.1 address)) as Hb by (exists d; split; [done|lia]). apply Hcov in Hb as [_ []]. lia.
  - exists z, (free_list address size l1). split_and!; [done..|]. intros b. rewrite Hcz, Hcov. split; [|lia || (intros Hb; destruct (decide (address ≤ b < address + size)); [by right|left; by split])].
    intros [[Hb _]|Hb]; [done|]. exists c. split; [done|lia].
Qed.

(** ** A chunk of 64 pages *)
Definition chunk0 : chunk := (0x100000, 0x40000).
Definition x0 : mem * State := (put_entry 0x100000 0 0x40000 ∅, mkState 0x100000 0x140000 0x100000).
Lemma x0_rep : rep x0 [chunk0] ∧ ordered 1 [chunk0].
Proof. split; [done|]. simpl. split_and!; [lia| |done]. split_and!; simpl; try lia; done. Qed.

Lemma TryAllocate_exact_witness : ∃ (found : bool) y l', TryAllocate 4 0x101000 0x2000 x0 = Ok (found, y) ∧ rep y l' ∧ ordered 1 l' ∧
  (found = true ↔ ∃ c, c ∈ [chunk0] ∧ c.1 ≤ 0x101000 ∧ 0x101000 + 0x2000 ≤ c.1 + c.2) ∧
  (∀ b, covers l' b ↔ covers [chunk0] b ∧ ¬ (found = true ∧ 0x101000 ≤ b < 0x101000 + 0x2000)) ∧
  same_outside [chunk0] (fst x0) (fst y) ∧ bounds (snd y) = bounds (snd x0).
Proof.
  destruct x0_rep as [Hr Ho]. apply (TryAllocate_exact 4 x0 [chunk0] 1 0x101000 0x2000); [done|done|simpl; lia|lia|done|done|lia|lia].
Defined.

Lemma Free_restores_witness : ∃ y, TryAllocate 4 0x101000 0x2000 x0 = Ok (true, y) ∧
  ∃ z l', Free 4 0x101000 0x2000 y = Ok z ∧ rep z l' ∧ ordered 1 l' ∧ ∀ b, covers l' b ↔ covers [chunk0] b.
Proof.
  destruct x0_rep as [Hr Ho]. eexists. split; [reflexivity|].
  apply (Free_restores 4 x0 _ [chunk0] 1 0x101000 0x2000); [done|done|simpl; lia|lia|done|done|lia|lia|lia|reflexivity].
Defined.
End InitAllocSpec.
