(* ===== verification/InitAllocatorLaws.v ===== *)
(** * The allocators keep the contract of [Map]

    Instances of [LawfulAllocator] for [KInitialPageAllocator] (its pages are reached
    at their physical addresses) and for the stack of pages that finalizes the
    identity mapping (reached at an offset).  The first is related to an allocator
    on lists of chunks, [alloc_list], that shares its random choices. *)

From S2P Require Import Prelude Vapours TinyMT PageTableEntry InitPageTable InitPageTableSpec InitPageTableMap InitAllocator InitAllocatorSpec.

Module InitAllocLaws.
Import PTE Util InitPT InitAlloc InitAllocSpec.

(** ** The stack of pages *)
Section finalize.
Context (off : Z).
Implicit Types (m : mem) (p h : Z) (l : list Z).

Definition slot0 p : Z := slot off p 0.

Fixpoint stack m h l : Prop :=
  match l with
  | [] => h = 0
  | p :: l' => h = slot0 p ∧ h ≠ 0 ∧ phys_ok 12 p ∧ p ∉ l' ∧ stack m (ld m h) l'
  end.

Lemma slot0_inj p q : phys_ok 12 p → phys_ok 12 q → slot0 p = slot0 q → p = q.
Proof. intros Hp Hq E. by apply (InitPTSpec.slot_inj off p q 0 0) in E as [-> _]; [|done..]. Qed.

Lemma stack_unique m h l l' : stack m h l → stack m h l' → l = l'.
Proof.
  revert h l'. induction l as [|p l IH]; intros h [|q l'] Hl Hl'; simpl in *; [done|naive_solver..|].
  destruct Hl as (-> & H0 & Hp & _ & Hl), Hl' as (E & _ & Hq & _ & Hl'). apply slot0_inj in E; [|done..]. subst q.
  f_equal. by eapply IH.
Qed.

Lemma stack_frame m m' h l : (∀ p, p ∈ l → ld m' (slot0 p) = ld m (slot0 p)) → stack m h l → stack m' h l.
Proof.
  revert h. induction l as [|p l IH]; intros h Hf; [done|]. intros (-> & H0 & Hp & Hn & Hl). simpl.
  rewrite (Hf p) by (by left). split_and!; [done..|]. apply IH; [|done]. intros q Hq. apply Hf. by right.
Qed.

Lemma stack_phys m h l p : stack m h l → p ∈ l → phys_ok 12 p.
Proof.
  revert h. induction l as [|q l IH]; intros h; [by intros _ Hp%not_elem_of_nil|].
  intros (_ & _ & Hq & _ & Hl) [->|Hp]%elem_of_cons; [done|by eapply IH].
Qed.

Definition stack_of (s : mem * FinalizeAllocator) l : Prop :=
  m_phys_to_virt_offset (snd s) = off ∧ stack (fst s) (m_free_list_head (snd s)) l.

#[export] Program Instance FinalizeAllocator_lawful : LawfulAllocator FinalizeAllocator off := {|
  ainv s := ∃ l, stack_of s l;
  owns s p := ∃ l, stack_of s l ∧ p ∈ l;
  ready n s := ∃ l, stack_of s l ∧ (n ≤ length l)%nat;
|}.
Next Obligation. intros s p _ (l & [_ Hl] & Hp). by eapply stack_phys. Qed.
Next Obligation.
  intros n [m [h o]] [l0 H0] (l & [E Hl] & Hn). cbn [fst snd m_phys_to_virt_offset m_free_list_head] in *. subst o.
  destruct l as [|p l]; [simpl in Hn; lia|]. destruct Hl as (-> & Hnz & Hp & Hni & Hl).
  assert (stack_of (m, mkFinalize (slot0 p) off) (p :: l)) as Hst by (split; [done|]; simpl; split_and!; done).
  assert (stack_of (m, mkFinalize (ld m (slot0 p)) off) l) as Hst' by done.
  exists p, (m, mkFinalize (ld m (slot0 p)) off). split_and!.
  - simpl. unfold Finalize_Allocate. cbn [m_free_list_head m_phys_to_virt_offset]. rewrite (proj2 (Z.eqb_neq _ _) Hnz). simpl.
    do 3 f_equal. unfold slot0, slot. destruct Hp as [Hp _]. rewrite wrap_sub_l.
    replace (p + off + 8 * 0 - off) with p by lia. apply wrap_small. unfold in_width. lia.
  - exists (p :: l). split; [done|by left].
  - by exists l.
  - intros (l1 & [_ Hl1] & Hin). cbn [fst snd m_free_list_head] in Hl1. by rewrite (stack_unique _ _ _ _ Hl1 Hl) in Hin.
  - intros q (l1 & [_ Hl1] & Hin). cbn [fst snd m_free_list_head] in Hl1. rewrite (stack_unique _ _ _ _ Hl1 Hl) in Hin.
    exists (p :: l). split; [done|by right].
  - done.
  - exists l. split; [done|]. simpl in Hn. lia.
Qed.
Next Obligation. intros n k s Hle (l & Hl & Hk). exists l. split; [done|lia]. Qed.
Next Obligation.
  intros m m' a Hf [l Hl]. assert (∀ l, stack_of (m, a) l → stack_of (m', a) l) as Hstep.
  { intros k [E Hk]. split; [done|]. eapply stack_frame; [|exact Hk]. intros p Hp. unfold ld, slot0.
    rewrite Hf; [done| |lia]. exists k. by split. }
  assert (∀ k, stack_of (m', a) k → k = l) as Huniq.
  { intros k [_ Hk]. destruct (Hstep l Hl) as [_ Hl']. by eapply stack_unique. }
  split_and!; [exists l; by apply Hstep| |].
  - intros q. split; intros (k & Hk & Hin); [|exists k; split; [by apply Hstep|done]].
    rewrite (Huniq k Hk) in Hin. by exists l.
  - intros n (k & Hk & Hn). exists k. split; [by apply Hstep|done].
Qed.
End finalize.

(** ** Random ranges *)
Lemma uniform_loop_range fuel min range_size effective_max rng v rng' : 0 < range_size → 0 ≤ min → min + range_size ≤ 2 ^ 64 →
  uniform_loop fuel min range_size effective_max rng = Ok (v, rng') → min ≤ v < min + range_size.
Proof.
  intros Hr Hm Hend. revert rng. induction fuel as [|fuel IH]; intros rng; cbn [uniform_loop]; [done|].
  destruct (TinyMT.GenerateRandomU64 rng) as [rnd rng1]. destruct (rnd <? effective_max); [|apply IH].
  intros [= <- _]. pose proof (Z.mod_pos_bound rnd range_size Hr). rewrite wrap_small by (unfold in_width; lia). lia.
Qed.

(** The values drawn are in the range, and each value of the range stands for the
    same number of words of the generator. *)
Lemma GenerateRandomRange_range fuel tick min max rng v rng' : 0 ≤ min ≤ max → max < 2 ^ 64 - 1 →
  GenerateRandomRange fuel tick min max rng = Ok (v, rng') → min ≤ v ≤ max.
Proof.
  intros Hm Hmax. unfold GenerateRandomRange, GenerateUniformRange. unfold u64_max.
  rewrite (proj2 (Z.eqb_neq max (2 ^ 64 - 1))) by lia. cbn [andb].
  rewrite (wrap_small 64 (max + 1)), (wrap_small 64 (max + 1 - min)) by (unfold in_width; lia).
  intros H. inv_ok. destruct x as [w st]. inv_ok.
  apply uniform_loop_range in H1; lia.
Qed.

(** ** [CanAllocate] *)
Lemma can_loop_spec m align size l k : align = 2 ^ k → 0 ≤ k ≤ 48 → 0 < size ≤ 2 ^ 48 → ∀ fuel lo cur,
  ordered lo l → seg m cur l 0 → (length l ≤ fuel)%nat →
  can_loop fuel m cur align size = Ok (existsb (λ c, AlignUp c.1 align + size <=? c.1 + c.2) l).
Proof.
  intros -> Hk Hs. induction l as [|[a sz] l IH]; intros fuel lo cur Ho Hseg Hf.
  { simpl in Hseg. subst cur. by destruct fuel. }
  destruct Hseg as (-> & Hsz & Hseg). destruct Ho as (Hlo & (H1 & H2 & H3 & H4 & H5) & Ho). cbn [fst snd] in *.
  destruct fuel as [|fuel]; [simpl in Hf; lia|]. cbn [can_loop existsb fst snd]. rewrite (proj2 (Z.eqb_neq a 0)) by lia. rewrite Hsz.
  pose proof (Z.pow_le_mono_r 2 k 48 ltac:(lia) ltac:(lia)) as Hpk. pose proof (pow2_pos k ltac:(lia)).
  assert (a ≤ AlignUp a (2 ^ k) < a + 2 ^ k) as Hup.
  { rewrite AlignUp_pow2 by lia. pose proof (Z.div_mod (a + 2 ^ k - 1) (2 ^ k) ltac:(lia)).
    pose proof (Z.mod_pos_bound (a + 2 ^ k - 1) (2 ^ k) ltac:(lia)). lia. }
  rewrite (wrap_small 64 (a + sz - 1)), (wrap_small 64 (AlignUp a (2 ^ k) + size - 1)) by (unfold in_width; lia).
  assert ((AlignUp a (2 ^ k) + size - 1 <=? a + sz - 1) = (AlignUp a (2 ^ k) + size <=? a + sz)) as ->
    by (apply eq_true_iff_eq; rewrite !Z.leb_le; lia).
  destruct (_ <=? _); [done|]. simpl. eapply IH; [done|done|simpl in Hf; lia].
Qed.

Lemma AlignUp_aligned a : aligned a → 0 ≤ a < 2 ^ 63 → AlignUp a PageSize = a.
Proof.
  intros Ha Hr. change PageSize with (2 ^ 12). rewrite AlignUp_pow2 by lia.
  unfold aligned, PageSize in Ha. change (2 ^ 12) with 4096. Z.to_euclidean_division_equations. lia.
Qed.

Lemma page_fits l lo : ordered lo l →
  existsb (λ c, AlignUp c.1 PageSize + PageSize <=? c.1 + c.2) l = match l with [] => false | _ => true end.
Proof.
  destruct l as [|c l]; [done|]. intros (_ & (H1 & H2 & H3 & H4 & H5) & _). simpl. rewrite AlignUp_aligned by (done || lia).
  rewrite (proj2 (Z.leb_le _ _)); [done|]. unfold aligned, PageSize in *. Z.to_euclidean_division_equations. lia.
Qed.

(** ** The allocator on lists *)
Section pages.
Context (fuel : nat) (tick : Z).
Implicit Types (l : list chunk) (s : mem * KInitialPageAllocator).

Definition rng_state : Type := option TinyMT.State.
Definition alist : Type := list chunk * Z * rng_state.

(** One page: a fresh unit at the end if nothing is free, then a random place. *)
Fixpoint place_list (n : nat) (start ind_max : Z) (rng : rng_state) l : res (Z * rng_state * list chunk) :=
  match n with
  | O => Err OutOfFuel
  | S n' =>
      '(v, rng') ← GenerateRandomRange fuel tick 0 ind_max rng;
      match try_list (start + v * PageSize) PageSize l with
      | Some l' => Ok (start + v * PageSize, rng', l')
      | None => place_list n' start ind_max rng' l
      end
  end.
Definition alloc_list (start : Z) (x : alist) : res (Z * alist) :=
  let '(l, end_, rng) := x in
  let '(l1, end1) := match l with [] => ([(end_, FreeUnitSize)], end_ + FreeUnitSize) | _ => (l, end_) end in
  '(p, rng', l') ← place_list fuel start ((end1 - start) / PageSize - 1) rng l1;
  Ok (p, (l', end1, rng')).

(** The next [n] pages are found within the fuel and below [2 ^ 48]. *)
Fixpoint ready_list (n : nat) (start : Z) (x : alist) : Prop :=
  match n with
  | O => True
  | S n' => x.1.2 + FreeUnitSize ≤ 2 ^ 48 ∧ (length x.1.1 < fuel)%nat ∧
      ∃ p x', alloc_list start x = Ok (p, x') ∧ ready_list n' start x'
  end.

Record good (start : Z) l (end_ : Z) : Prop := {
  good_ordered : ordered start l;
  good_start : 0 < start ∧ aligned start;
  good_end : aligned end_ ∧ start ≤ end_ ≤ 2 ^ 48;
  good_below c : c ∈ l → c.1 + c.2 ≤ end_;
}.

Lemma place_loop_list n start end_ rng l m st :
  good start l end_ → rep (m, st) l → start_address st = start → end_address st = end_ → (length l ≤ fuel)%nat →
  start < end_ →
  match place_list n start ((end_ - start) / PageSize - 1) rng l with
  | Err e => place_loop n fuel tick start ((end_ - start) / PageSize - 1) PageSize PageSize rng (m, st) = Err e
  | Ok (p, rng', l') => ∃ y,
      place_loop n fuel tick start ((end_ - start) / PageSize - 1) PageSize PageSize rng (m, st) = Ok (p, rng', y) ∧
      rep y l' ∧ bounds (snd y) = (start, end_) ∧ ordered start l' ∧ aligned p ∧ covers l p ∧
      (∀ b, covers l' b ↔ covers l b ∧ ¬ (p ≤ b < p + PageSize)) ∧ same_outside l m (fst y)
  end.
Proof.
  intros [Ho [Hs0 Hsa] [Hea Hse] Hbel] Hrep E1 E2 Hf Hlt. revert rng. induction n as [|n IH]; intros rng; [done|].
  cbn [place_list place_loop]. destruct (GenerateRandomRange fuel tick 0 _ rng) as [[v rng']|e] eqn:Hv; [|done].
  assert (∃ j, end_ - start = j * PageSize ∧ 0 < j) as (j & Hj & Hj0).
  { assert (aligned (end_ - start)) as Hd by (by apply aligned_sub). apply Z.mod_divide in Hd as [j Hd]; [|done].
    exists j. unfold PageSize in *. lia. }
  apply GenerateRandomRange_range in Hv; rewrite Hj, Z.div_mul in * by done; [|unfold PageSize in *; lia..].
  assert (0 ≤ start + v * PageSize ∧ start + v * PageSize + PageSize ≤ end_) as [Hp0 Hp1] by (unfold PageSize in *; lia).
  assert (aligned (start + v * PageSize)) as Hpa by (apply aligned_add; [done|apply Z.mod_mul; done]).
  assert (u64 (start + v * PageSize) = start + v * PageSize) as Eu
    by (apply wrap_small; unfold in_width; unfold PageSize in *; lia).
  change (Ok (v, rng') ≫= ?f) with (f (v, rng')). cbv beta iota. rewrite Eu.
  set (p := start + v * PageSize) in *.
  pose proof (try_loop_rep p PageSize l ltac:(done) ltac:(done) Hpa Hp0 ltac:(lia) fuel m st start [] (free_head st) Ho Hrep Hrep Hf) as Hloop.
  pose proof (try_list_ok p PageSize l ltac:(done) ltac:(done) Hpa start Ho) as Hlist.
  change (last_link []) with (@None Z) in Hloop. unfold TryAllocate. cbn [fst snd].
  destruct (try_list p PageSize l) as [l'|].
  - destruct Hloop as (y & Hy & Hry & Hsame). destruct Hlist as (Ho' & (c & Hc & Hh) & Hcov). exists y. rewrite Hy.
    split_and!; [done..| |done|done| |done|done].
    + rewrite (try_loop_bounds _ _ _ _ _ _ _ _ Hy). unfold bounds. cbn [snd]. congruence.
    + exists c. split; [done|]. unfold hit in Hh. rewrite andb_true_iff, !Z.leb_le in Hh. unfold PageSize in *. lia.
  - rewrite Hloop. apply IH.
Qed.

Lemma grow_loop_list n m st l : good (start_address st) l (end_address st) → rep (m, st) l → (length l < fuel)%nat →
  end_address st + FreeUnitSize ≤ 2 ^ 48 →
  let l1 := match l with [] => [(end_address st, FreeUnitSize)] | _ => l end in
  let end1 := match l with [] => end_address st + FreeUnitSize | _ => end_address st end in
  ∃ y, grow_loop (S n) fuel PageSize PageSize (m, st) = Ok y ∧ rep y l1 ∧ bounds (snd y) = (start_address st, end1) ∧
    same_outside ((end_address st, FreeUnitSize) :: l) m (fst y) ∧ good (start_address st) l1 end1 ∧ (length l1 ≤ fuel)%nat ∧
    start_address st < end1.
Proof.
  intros [Ho [Hs0 Hsa] [Hea Hse] Hbel] Hrep Hf Hend l1 end1.
  assert (∀ n y l lo, ordered lo l → rep y l → (length l ≤ fuel)%nat → l ≠ [] → grow_loop n fuel PageSize PageSize y = Ok y) as Hstay.
  { intros k y l' lo Ho' Hr Hf' Hne. destruct k; cbn [grow_loop]; unfold CanAllocate;
      rewrite (can_loop_spec _ PageSize PageSize l' 12 eq_refl ltac:(lia) ltac:(done) fuel lo _ Ho' Hr), (page_fits _ _ Ho') by lia; by destruct l'. }
  destruct l as [|c l].
  - cbn [grow_loop]. unfold CanAllocate. rewrite (can_loop_spec _ PageSize PageSize [] 12 eq_refl ltac:(lia) ltac:(done) fuel _ _ Ho Hrep) by (simpl; lia).
    cbn [existsb]. change (Ok false ≫= ?f) with (f false). cbv beta iota. cbn [fst snd].
    assert (chunk_ok (end_address st, FreeUnitSize)) as Hok
      by (split_and!; simpl; [lia|done|done|done|lia]).
    destruct (Free_ok fuel (m, st) [] (start_address st) (end_address st) FreeUnitSize Ho Hrep) as (y & Hy & Hry & Hoy & _ & Hsame & Hb);
      [simpl; lia|done|lia|by intros c Hc%not_elem_of_nil|]. rewrite Hy.
    change (Ok y ≫= ?f) with (f y). cbv beta. unfold bounds in Hb. cbn [snd] in Hb. injection Hb as Hb1 Hb2. rewrite Hb2.
    assert (u64 (end_address st + FreeUnitSize) = end_address st + FreeUnitSize) as Eu
      by (apply wrap_small; unfold in_width; unfold FreeUnitSize, PageSize in *; lia).
    rewrite Eu. eexists. split; [eapply Hstay; [exact Hoy|exact Hry|simpl; lia|done]|].
    split_and!; [exact Hry|unfold bounds; cbn [snd start_address end_address]; by rewrite Hb1|done| |simpl; lia|unfold end1, FreeUnitSize, PageSize; lia].
    split; [done|done|split; [by apply aligned_add|unfold end1, FreeUnitSize, PageSize in *; lia]|].
    intros c ->%list_elem_of_singleton. done.
  - exists (m, st). split; [apply (Hstay (S n) (m, st) (c :: l) (start_address st)); [done|done|lia|done]|]. split_and!; [done..|by split|exact (Nat.lt_le_incl _ _ Hf)|].
    destruct Ho as (? & (? & _ & ? & _) & _). pose proof (Hbel c ltac:(by left)). unfold end1. lia.
Qed.

(** [Allocate] of a page is [alloc_list]. *)
Lemma Allocate_list m a l : let st := m_state a in
  good (start_address st) l (end_address st) → rep (m, st) l → (length l < fuel)%nat → end_address st + FreeUnitSize ≤ 2 ^ 48 →
  match alloc_list (start_address st) (l, end_address st, s_random_generator a) with
  | Err e => Allocate fuel tick PageSize (m, a) = Err e
  | Ok (p, (l', end', rng')) => ∃ m' st',
      Allocate fuel tick PageSize (m, a) = Ok (p, (m', mkAllocator st' rng')) ∧
      rep (m', st') l' ∧ bounds st' = (start_address st, end') ∧ good (start_address st) l' end' ∧
      end_address st ≤ end' ∧ p < end' ∧ aligned p ∧ (covers l p ∨ end_address st ≤ p) ∧
      (∀ b, covers l' b → (covers l b ∨ end_address st ≤ b < end_address st + FreeUnitSize) ∧ ¬ (p ≤ b < p + PageSize)) ∧
      same_outside ((end_address st, FreeUnitSize) :: l) m m'
  end.
Proof.
  intros st Hg Hrep Hf Hend. destruct fuel as [|n] eqn:Efuel; [lia|]. rewrite <- Efuel in *.
  destruct (grow_loop_list n m st l Hg Hrep Hf Hend) as ([m1 st1] & Hgrow & Hrep1 & Hb1 & Hsame1 & Hg1 & Hf1 & Hlt1).
  rewrite <- Efuel in Hgrow. cbn [fst snd] in *. unfold Allocate, Allocate_aligned. fold st. rewrite Hgrow.
  change (Ok (m1, st1) ≫= ?f) with (f (m1, st1)). cbv beta zeta. cbn [fst snd].
  unfold alloc_list. set (l1 := match l with [] => [(end_address st, FreeUnitSize)] | _ :: _ => l end) in *.
  set (end1 := match l with [] => end_address st + FreeUnitSize | _ :: _ => end_address st end) in *.
  assert (match l with [] => ([(end_address st, FreeUnitSize)], end_address st + FreeUnitSize) | _ => (l, end_address st) end = (l1, end1)) as ->
    by (unfold l1, end1; by destruct l). cbv iota.
  unfold bounds in Hb1. injection Hb1 as E1 E2. rewrite E1, E2.
  pose proof (good_start _ _ _ Hg1) as [Hs0 Hsa]. pose proof (good_end _ _ _ Hg1) as [Hea Hse].
  rewrite (AlignUp_aligned (start_address st)) by (done || lia).
  assert (AlignDown end1 PageSize = end1) as ->.
  { change PageSize with (2 ^ 12). rewrite AlignDown_pow2 by (unfold in_width; lia).
    unfold aligned, PageSize in Hea. change (2 ^ 12) with 4096. Z.to_euclidean_division_equations. lia. }
  assert (u64 (u64 (end1 - start_address st) / PageSize - 1) = (end1 - start_address st) / PageSize - 1) as ->.
  { assert (aligned (end1 - start_address st)) as Hd by (by apply aligned_sub).
    rewrite (wrap_small 64 (end1 - _)) by (unfold in_width; lia). apply wrap_small. unfold in_width, aligned, PageSize in *.
    Z.to_euclidean_division_equations. lia. }
  pose proof (place_loop_list fuel (start_address st) end1 (s_random_generator a) l1 m1 st1 Hg1 Hrep1 E1 E2 Hf1 Hlt1) as Hplace.
  destruct (place_list fuel (start_address st) _ _ l1) as [[[p rng'] l']|e]; [|by rewrite Hplace].
  destruct Hplace as ([m' st'] & Hy & Hry & Hby & Hoy & Hpa & Hcp & Hcov & Hsame). change (Ok (p, rng', l') ≫= ?f) with (f (p, rng', l')). cbv beta iota.
  rewrite Hy. exists m', st'. cbn [fst snd] in *.
  assert (∀ b, covers l1 b → covers l b ∨ end_address st ≤ b < end_address st + FreeUnitSize) as Hcl1.
  { intros b. unfold l1. destruct l; [|by left]. rewrite covers_cons. cbn [fst snd]. intros [?|Hb]; [by right|by apply covers_nil in Hb]. }
  assert (∀ b, covers l1 b → b < end1) as Hbel1.
  { intros b (c & Hc & Hb). pose proof (good_below _ _ _ Hg1 c Hc). lia. }
  split_and!; [done|done|done| |unfold end1; destruct l; unfold FreeUnitSize, PageSize; lia|by apply Hbel1|done| | |].
  - split; [done|done|done|]. intros c Hc. destruct (ordered_in _ _ _ Hoy Hc) as [_ (? & _ & ? & _)].
    assert (covers l1 (c.1 + c.2 - 1)) as Hlast by (apply Hcov; exists c; split; [done|lia]). apply Hbel1 in Hlast. lia.
  - destruct (Hcl1 p Hcp) as [|]; [by left|right; lia].
  - intros b Hb. apply Hcov in Hb as [Hb Hnb]. split; [by apply Hcl1|done].
  - etrans; [exact Hsame1|]. intros w Hw. apply Hsame. intros b Hb. apply Hw. apply covers_cons. cbn [fst snd].
    destruct (Hcl1 b Hb); [by right|by left].
Qed.

(** ** The contract *)
Definition held s l : Prop :=
  let st := m_state (snd s) in rep (fst s, st) l ∧ good (start_address st) l (end_address st).
Definition held_list s l : alist := (l, end_address (m_state (snd s)), s_random_generator (snd s)).

Lemma seg_unique m h l l' lo lo' : ordered lo l → ordered lo' l' → seg m h l 0 → seg m h l' 0 → l = l'.
Proof.
  revert h l' lo lo'. induction l as [|[a sz] l IH]; intros h [|[b sb] l'] lo lo' Ho Ho' Hs Hs'; [done|..].
  - destruct Ho' as (_ & (? & _) & _), Hs' as [? _]. simpl in *. lia.
  - destruct Ho as (_ & (? & _) & _), Hs as [? _]. simpl in *. lia.
  - destruct Hs as (-> & <- & Hs), Hs' as (<- & <- & Hs'). f_equal.
    destruct Ho as (_ & _ & Ho), Ho' as (_ & _ & Ho'). by eapply IH.
Qed.

Lemma held_unique s l l' : held s l → held s l' → l = l'.
Proof. intros [Hr Hg] [Hr' Hg']. eapply seg_unique; [apply Hg|apply Hg'|exact Hr|exact Hr']. Qed.

Lemma ready_list_le n k start x : (n ≤ k)%nat → ready_list k start x → ready_list n start x.
Proof.
  revert k x. induction n as [|n IH]; intros [|k] x Hle; try done || lia. simpl.
  intros (H1 & H2 & p & x' & H3 & H4). split_and!; [done..|]. exists p, x'. split; [done|]. eapply IH; [|done]. lia.
Qed.

Lemma header_slots b w : aligned b → 0 ≤ b < 2 ^ 48 → (∀ k, 0 ≤ k < 512 → w ≠ slot 0 b k) → w ≠ b ∧ w ≠ u64 (b + 8).
Proof.
  intros Ha Hb Hw. split; [|by rewrite <- (Z.add_0_r b); apply (Hw 1)].
  pose proof (Hw 0 ltac:(lia)) as H0. unfold slot in H0. rewrite !Z.add_0_r, wrap_small in H0 by (unfold in_width; lia). done.
Qed.

#[export] Program Instance KInitialPageAllocator_lawful :
    @LawfulAllocator KInitialPageAllocator (KInitialPageAllocator_ops fuel tick) 0 := {|
  ainv s := ∃ l, held s l;
  owns s p := phys_ok 12 p ∧ ((∃ l, held s l ∧ covers l p) ∨ end_address (m_state (snd s)) ≤ p);
  ready n s := ∃ l, held s l ∧ ready_list n (start_address (m_state (snd s))) (held_list s l);
|}.
Next Obligation. by intros s p _ [Hp _]. Qed.
Next Obligation.
  intros n [m a] _ (l & [Hrep Hg] & Hend & Hlen & p & [[l' end'] rng'] & Hal & Hrd). unfold held_list in *; cbn [fst snd] in *.
  pose proof (Allocate_list m a l Hg Hrep Hlen Hend) as HA. rewrite Hal in HA.
  destruct HA as (m' & st' & HA & Hrep' & Hb & Hg' & Hle & Hlt & Hpa & Hcp & Hcov & Hsame).
  unfold bounds in Hb. injection Hb as Eb1 Eb2.
  assert (held (m', mkAllocator st' rng') l') as Hheld by (split; [exact Hrep'|cbn [snd m_state]; by rewrite Eb1, Eb2]).
  assert (held (m, a) l) as Hheld0 by done. pose proof (good_end _ _ _ Hg') as [_ Hend'].
  assert (∀ b, covers l b → 0 ≤ b < 2 ^ 48) as Hrange.
  { intros b (c & Hc & Hb). destruct (ordered_in _ _ _ (good_ordered _ _ _ Hg) Hc) as [_ (? & _ & _ & _ & ?)]. lia. }
  pose proof (good_start _ _ _ Hg) as [Hs0 _]. pose proof (good_end _ _ _ Hg) as [_ He0].
  assert (0 ≤ p < 2 ^ 48) as Hpr by (destruct Hcp as [Hc|Hc]; [by apply Hrange|lia]).
  exists p, (m', mkAllocator st' rng'). split; [exact HA|].
  split; [|split; [by exists l'|split; [|split; [|split]]]].
  - split; [split; [lia|exact Hpa]|]. destruct Hcp; [left; by exists l|by right].
  - intros [_ [(k & Hk & Hc)|Hge]]; [|cbn [snd m_state] in Hge; lia]. rewrite (held_unique _ _ _ Hk Hheld) in Hc.
    destruct (Hcov p Hc) as [_ []]. unfold PageSize. lia.
  - intros q [Hq Hown]. split; [done|]. cbn [snd m_state] in Hown. destruct Hown as [(k & Hk & Hc)|Hge]; [|right; cbn [snd]; lia].
    rewrite (held_unique _ _ _ Hk Hheld) in Hc. destruct (Hcov q Hc) as [[Hc'|Hu] _]; [left; by exists l|right; cbn [snd]; lia].
  - intros w Hw. apply Hsame. intros b Hb Hba. apply covers_cons in Hb.
    assert (0 ≤ b < 2 ^ 48) as Hbr by (destruct Hb as [Hb|Hb]; [cbn [fst snd] in Hb; lia|by apply Hrange]).
    apply header_slots; [done..|]. intros k Hk. apply Hw; [|done]. split; [split; [lia|exact Hba]|].
    destruct Hb as [Hb|Hb]; [right; cbn [fst snd] in *; lia|left; by exists l].
  - exists l'. split; [done|]. unfold held_list. cbn [snd m_state s_random_generator]. by rewrite Eb1, Eb2.
Qed.
Next Obligation. intros n k s Hle (l & Hl & Hk). exists l. split; [done|]. by eapply ready_list_le. Qed.
Next Obligation.
  intros m m' a Hf [l0 Hl0].
  assert (∀ l, held (m, a) l → held (m', a) l) as Hstep.
  { intros l [Hr Hg]. split; [|done]. eapply seg_frame; [|exact Hr]. intros c Hc.
    destruct (ordered_in _ _ _ (good_ordered _ _ _ Hg) Hc) as [_ Hok]. pose proof (chunk_range _ Hok) as [Hca Hcr].
    assert (∀ k, 0 ≤ k < 512 → m' !! slot 0 c.1 k = m !! slot 0 c.1 k) as Hsl.
    { intros k Hk. apply Hf; [|done]. split; [by split|]. left. exists l. split; [done|].
      by eapply covers_start; [apply Hg|]. }
    pose proof (Hsl 0 ltac:(lia)) as Hs0. pose proof (Hsl 1 ltac:(lia)) as Hs1. unfold slot in Hs0, Hs1.
    rewrite !Z.add_0_r, (wrap_small 64 c.1) in Hs0 by (unfold in_width; lia). rewrite Z.add_0_r in Hs1. change (8 * 1) with 8 in Hs1.
    unfold next_of, size_of, ld. cbn [fst]. by rewrite Hs0, Hs1. }
  assert (∀ k, held (m', a) k → k = l0) as Huniq by (intros k Hk; eapply held_unique; [done|by apply Hstep]).
  split_and!; [exists l0; by apply Hstep| |].
  - intros q. cbn [snd]. split; intros [Hq [(k & Hk & Hc)|Hge]]; (split; [done|]); try (by right); left.
    + rewrite (Huniq k Hk) in Hc. by exists l0.
    + exists k. split; [by apply Hstep|done].
  - intros n (k & Hk & Hn). exists k. split; [by apply Hstep|done].
Qed.
End pages.

(** ** Requests above the unit *)

(** [Free] at the end of the list appends: it never joins the chunk below. *)
Lemma free_list_append addr size l : 0 < size → (∀ c, c ∈ l → 0 < c.2 ∧ c.1 + c.2 ≤ addr) → free_list addr size l = l ++ [(addr, size)].
Proof.
  intros Hs. induction l as [|[a sz] l IH]; intros Hl; [done|]. destruct (Hl (a, sz) ltac:(by left)) as [H1 H2]. cbn [fst snd] in *.
  cbn [free_list]. rewrite (proj2 (Z.ltb_ge _ _)), (proj2 (Z.eqb_neq _ _)) by lia. simpl. f_equal. apply IH. intros c Hc. apply Hl. by right.
Qed.

Lemma grow_never fuel align size k n : align = 2 ^ k → 0 ≤ k ≤ 48 → FreeUnitSize < size ≤ 2 ^ 48 → ∀ m st l,
  rep (m, st) l → good (start_address st) l (end_address st) → (∀ c, c ∈ l → c.2 < size) →
  (length l + n ≤ fuel)%nat → end_address st + Z.of_nat n * FreeUnitSize ≤ 2 ^ 48 →
  grow_loop n fuel align size (m, st) = Err OutOfFuel.
Proof.
  intros -> Hk Hs. induction n as [|n IH]; intros m st l Hrep Hg Hsmall Hf Hend.
  all: pose proof Hg as [Ho [Hs0 Hsa] [Hea Hse] Hbel].
  all: cbn [grow_loop]; unfold CanAllocate; cbn [fst snd];
    rewrite (can_loop_spec m (2 ^ k) size l k eq_refl ltac:(lia) ltac:(unfold FreeUnitSize, PageSize in *; lia) fuel _ (free_head st) Ho Hrep) by lia.
  all: assert (existsb (λ c, AlignUp c.1 (2 ^ k) + size <=? c.1 + c.2) l = false) as ->.
  1,3: apply not_true_iff_false; rewrite existsb_exists; intros (c & Hc%list_elem_of_In & Hle%Z.leb_le);
    pose proof (Hsmall c Hc); destruct (ordered_in _ _ _ Ho Hc) as [_ (? & _ & ? & _ & ?)];
    rewrite AlignUp_pow2 in Hle by (pose proof (Z.pow_le_mono_r 2 k 48); lia);
    pose proof (pow2_pos k ltac:(lia)); pose proof (Z.div_mod (c.1 + 2 ^ k - 1) (2 ^ k) ltac:(lia));
    pose proof (Z.mod_pos_bound (c.1 + 2 ^ k - 1) (2 ^ k) ltac:(lia)); lia.
  - done.
  - change (Ok false ≫= ?f) with (f false). cbv beta iota. cbn [fst snd]. rewrite Nat2Z.inj_succ, Z.mul_succ_l in Hend.
    assert (∀ c, c ∈ l → 0 < c.2 ∧ c.1 + c.2 ≤ end_address st) as Hl.
    { intros c Hc. destruct (ordered_in _ _ _ Ho Hc) as [_ (_ & _ & ? & _)]. split; [lia|by apply Hbel]. }
    assert (0 ≤ Z.of_nat n * FreeUnitSize) by (unfold FreeUnitSize, PageSize; lia).
    assert (chunk_ok (end_address st, FreeUnitSize)) as Hok by (split_and!; simpl; [lia|done|done|done|lia]).
    destruct (Free_ok fuel (m, st) l (start_address st) (end_address st) FreeUnitSize Ho Hrep) as ([m' st'] & Hy & Hry & Hoy & _ & _ & Hb);
      [lia|done|lia|intros c Hc; left; by apply Hl|].
    rewrite Hy. change (Ok (m', st') ≫= ?f) with (f (m', st')). cbv beta. cbn [fst snd]. unfold bounds in Hb. cbn [snd] in Hb. injection Hb as Hb1 Hb2.
    rewrite (free_list_append (end_address st) FreeUnitSize l ltac:(done) Hl) in Hry, Hoy.
    rewrite Hb1, Hb2, wrap_small by (unfold in_width, FreeUnitSize, PageSize in *; lia).
    eapply (IH _ _ (l ++ [(end_address st, FreeUnitSize)])); [exact Hry| | | |cbn [end_address]; lia].
    + split; cbn [start_address end_address]; [done|done|split; [by apply aligned_add|unfold FreeUnitSize, PageSize in *; lia]|].
      intros c [Hc| ->%list_elem_of_singleton]%elem_of_app; [|done]. pose proof (Hl c Hc). unfold FreeUnitSize, PageSize in *. lia.
    + intros c [Hc| ->%list_elem_of_singleton]%elem_of_app; [by apply Hsmall|simpl; lia].
    + rewrite length_app. simpl. lia.
Qed.

(** (C21) A fresh allocator never serves a request above [FreeUnitSize]: it keeps adding
    units that [Free] does not join, however long it runs. *)
Theorem large_allocation_never_returns fuel tick align size k m start rng :
  align = 2 ^ k → 0 ≤ k ≤ 48 → FreeUnitSize < size ≤ 2 ^ 48 → 0 < start → aligned start →
  start + Z.of_nat fuel * FreeUnitSize ≤ 2 ^ 48 →
  Allocate_aligned fuel tick align size (m, mkAllocator (Initialize start InitialState) rng) = Err OutOfFuel.
Proof.
  intros Ha Hk Hs Hs0 Hal Hend. unfold Allocate_aligned. cbn [m_state].
  assert (0 ≤ Z.of_nat fuel * FreeUnitSize) by (unfold FreeUnitSize, PageSize; lia).
  rewrite (grow_never fuel align size k fuel Ha Hk Hs m _ []); [done|done| |by intros c Hc%not_elem_of_nil|simpl; lia|simpl; lia].
  split; simpl; [done|done|split; [done|lia]|by intros c Hc%not_elem_of_nil].
Qed.

Lemma large_allocation_never_returns_witness :
  Allocate_aligned 100 7 0x1000 0x41000 (∅, mkAllocator (Initialize 0x100000 InitialState) None) = Err OutOfFuel.
Proof. apply (large_allocation_never_returns 100 7 0x1000 0x41000 12); unfold FreeUnitSize, PageSize; lia || done. Defined.

(** (C17) [Allocate] of one page is [alloc_list] on the chunks it holds, with the same
    random choices: it fails when that does, and otherwise returns its page and
    holds its chunks. *)
Theorem page_allocation_refines fuel tick s l : held s l → (length l < fuel)%nat →
  end_address (m_state (snd s)) + FreeUnitSize ≤ 2 ^ 48 →
  match alloc_list fuel tick (start_address (m_state (snd s))) (held_list s l) with
  | Err e => Allocate fuel tick PageSize s = Err e
  | Ok (p, x') => ∃ s', Allocate fuel tick PageSize s = Ok (p, s') ∧ held s' x'.1.1 ∧ held_list s' x'.1.1 = x' ∧
      (∀ b, covers x'.1.1 b → ¬ (p ≤ b < p + PageSize))
  end.
Proof.
  destruct s as [m a]. intros [Hr Hg] Hf Hend. cbn [fst snd] in *. pose proof (Allocate_list fuel tick m a l Hg Hr Hf Hend) as HA.
  unfold held_list at 1. cbn [snd]. destruct (alloc_list _ _ _ _) as [[p [[l' end'] rng']]|e]; [|done].
  destruct HA as (m' & st' & HA & Hrep' & Hb & Hg' & _ & _ & _ & _ & Hcov & _). unfold bounds in Hb. injection Hb as Eb1 Eb2.
  exists (m', mkAllocator st' rng'). cbn [fst snd]. split; [done|]. split; [|split].
  - split; [exact Hrep'|]. cbn [snd m_state]. by rewrite Eb1, Eb2.
  - unfold held_list. cbn [snd m_state s_random_generator]. by rewrite Eb2.
  - intros b Hb. by apply Hcov.
Qed.

Lemma page_allocation_refines_witness :
  let s := (∅, mkAllocator (Initialize 0x100000 InitialState) None) : mem * KInitialPageAllocator in
  match alloc_list 20 7 0x100000 (held_list s []) with
  | Err e => Allocate 20 7 PageSize s = Err e
  | Ok (p, x') => ∃ s', Allocate 20 7 PageSize s = Ok (p, s') ∧ held s' x'.1.1 ∧ held_list s' x'.1.1 = x' ∧
      (∀ b, covers x'.1.1 b → ¬ (p ≤ b < p + PageSize))
  end.
Proof.
  apply (page_allocation_refines 20 7 (∅, mkAllocator (Initialize 0x100000 InitialState) None) []).
  - split; [done|]. split; simpl; [done|split; [lia|done]|split; [done|lia]|by intros c Hc%not_elem_of_nil].
  - simpl. lia.
  - unfold FreeUnitSize, PageSize. simpl. lia.
Defined.

(** On that machine the first draw is taken. *)
Lemma page_allocation_run :
  match alloc_list 20 7 0x100000 ([], 0x100000, None) with Ok (p, x') => bool_decide (0x100000 ≤ p < 0x140000) | Err _ => false end = true.
Proof. by vm_compute. Qed.

End InitAllocLaws.
