(* ===== verification/InitPageTableExact.v ===== *)
(** * The start-up page table, as its callers see it

    [Map] against the translation, for any allocator that keeps its contract; what
    [GetPhysicalAddress] and [IsFree] answer; the state a new table starts in; and
    the number of tables [Map] may need, compared with [GetMaximumOverheadSize].
    A small machine runs the definitions. *)

From S2P Require Import Prelude Vapours PageTableEntry InitPageTable InitPageTableSpec InitPageTableMap InitAllocator InitAllocatorLaws.

Module InitPTExact.
Import PTE Util InitPT InitPTSpec InitPTMap.

Section queries.
Context (pt : KInitialPageTable).
Implicit Types (m : mem) (va v : Z).

Lemma block_below c e : 0 ≤ GetBlock c e < 2 ^ 48.
Proof.
  assert (∀ e k, 0 ≤ k ≤ 48 → 0 ≤ Z.land e (address_mask k) < 2 ^ 48) as H.
  { intros x k Hk. pose proof (Z.pow_le_mono_r 2 k 48 ltac:(lia) ltac:(lia)).
    assert (Z.land (address_mask k) (Z.ones 48) = address_mask k) as E.
    { rewrite land_ones_mod by lia. apply Z.mod_small. unfold address_mask. pose proof (pow2_pos k). lia. }
    rewrite <- E, Z.land_assoc, land_ones_mod by lia. apply Z.mod_pos_bound. lia. }
  destruct c; [apply (H e 30)|apply (H e 21)|apply (H e 12)]; lia.
Qed.

(** [GetPhysicalAddress] returns the translation, and aborts where there is none. *)
Lemma GetPhysicalAddress_translate m va : GetPhysicalAddress pt m va =
  match translate pt 0 m va with Some (pa, _) => Ok pa | None => Err Aborted end.
Proof.
  unfold GetPhysicalAddress, translate. cbv zeta. set (c := descend pt 0 m va). set (e := ld m (entry_of c)).
  destruct (is_block c e); [|done]. cbn [check]. change (Ok tt ≫= ?f) with (f tt). cbv beta.
  assert (Z.land va (unit_size c - 1) = va mod unit_size c) as ->
    by (destruct c; [apply (land_pow2_pred va 30)|apply (land_pow2_pred va 21)|apply (land_pow2_pred va 12)]; lia).
  f_equal. apply wrap_small. pose proof (block_below c e). unfold in_width.
  assert (0 ≤ va mod unit_size c < unit_size c) by (apply Z.mod_pos_bound; by destruct c).
  assert (unit_size c ≤ 2 ^ 30) by (by destruct c). lia.
Qed.

(** Addresses with a common quotient go through the same entries. *)
Lemma quot_full l va v : quot l va = quot l v → half va = half v ∧ full pt l va = full pt l v.
Proof.
  intros Hq. destruct (quot_up va) as [U1 U2]. destruct (quot_up v) as [V1 V2].
  assert (quot L1 va = quot L1 v) as Hq1 by (destruct l; congruence).
  pose proof (half_quot _ _ Hq1) as Hh.
  assert (l1_index pt va = l1_index pt v) as E1.
  { unfold l1_index. change (Z.testbit va 63) with (half va). rewrite Hh. f_equal. exact Hq1. }
  split; [done|]. unfold full. destruct l; cbn [index path]; rewrite ?l2_index_mod, ?l3_index_mod, E1; [done|by rewrite Hq|].
  by rewrite U2, V2, Hq.
Qed.

(** The level a walk stops at, and that it maps nothing there. *)
Definition level_of (c : cursor) : level := match c with At1 _ => L1 | At2 _ => L2 | At3 _ => L3 end.

Lemma unit_level c : unit_size c = 2 ^ shift (level_of c).
Proof. by destruct c. Qed.

Lemma stop_region off m v va : let c := descend pt off m v in
  quot (level_of c) va = quot (level_of c) v → descend pt off m va = c.
Proof.
  cbv zeta. unfold descend at 1 3 4.
  pose proof (λ l, quot_full l va v) as Hfull.
  assert (∀ l, quot l va = quot l v → quot L1 va = quot L1 v) as Hup.
  { intros l Hq. destruct (quot_up va), (quot_up v). destruct l; congruence. }
  assert (∀ l, l ≠ L1 → quot l va = quot l v → quot L2 va = quot L2 v) as Hup2.
  { intros l Hl Hq. destruct (quot_up va), (quot_up v). destruct l; [done|congruence..]. }
  assert (quot L1 va = quot L1 v → GetL1Entry pt off va = GetL1Entry pt off v) as G1.
  { intros Hq. destruct (Hfull L1 Hq) as [Hh [= Hi]]. unfold GetL1Entry. rewrite Hi.
    change (Z.testbit va 63) with (half va). by rewrite Hh. }
  assert (∀ e, quot L2 va = quot L2 v → GetL2Entry e off va = GetL2Entry e off v) as G2.
  { intros e Hq. destruct (Hfull L2 Hq) as [_ [= Hi _]]. unfold GetL2Entry. by rewrite Hi. }
  assert (∀ e, quot L3 va = quot L3 v → GetL3Entry e off va = GetL3Entry e off v) as G3.
  { intros e Hq. destruct (Hfull L3 Hq) as [_ [= Hi _ _]]. unfold GetL3Entry. by rewrite Hi. }
  cbv zeta. unfold descend. destruct (IsTable (ld m (GetL1Entry pt off v))) eqn:T1; cbn [negb].
  2:{ intros Hq. simpl in Hq. rewrite G1 by done. by rewrite T1. }
  destruct (IsTable (ld m (GetL2Entry (ld m (GetL1Entry pt off v)) off v))) eqn:T2; cbn [negb level_of]; intros Hq.
  - rewrite G1 by (by eapply Hup). rewrite T1. cbn [negb]. rewrite G2 by (by eapply (Hup2 L3)). rewrite T2. cbn [negb]. by rewrite G3.
  - rewrite G1 by (by eapply Hup). rewrite T1. cbn [negb]. rewrite G2 by done. by rewrite T2.
Qed.

Lemma stop_free m v va : let c := descend pt 0 m v in
  is_block c (ld m (entry_of c)) = false → quot (level_of c) va = quot (level_of c) v → translate pt 0 m va = None.
Proof.
  cbv zeta. intros Hb Hq. unfold translate. rewrite (stop_region 0 m v va Hq). by rewrite Hb.
Qed.

Lemma free_loop_exact m end_ : end_ mod PageSize = 0 → end_ ≤ 2 ^ 64 - L1BlockSize → ∀ fuel v,
  0 ≤ v → v mod PageSize = 0 → end_ - v ≤ Z.of_nat fuel * PageSize →
  ∃ b, free_loop fuel pt m v end_ = Ok b ∧ (b = true ↔ ∀ va, v ≤ va < end_ → translate pt 0 m va = None).
Proof.
  intros He Hend. induction fuel as [|fuel IH]; intros v Hv Hal Hf.
  { exists true. split; [|split; [|done]; intros _ va; lia]. cbn [free_loop]. by rewrite (proj2 (Z.ltb_ge _ _)) by lia. }
  cbn [free_loop]. destruct (Z.ltb_spec v end_) as [Hlt|Hge]; cbn [negb]; [|exists true; split; [done|]; split; [intros _ va; lia|done]].
  pose proof (stop_free m v) as Hstop. cbv zeta in Hstop. set (c := descend pt 0 m v) in *.
  destruct (is_block c (ld m (entry_of c))) eqn:Hb.
  { exists false. split; [done|]. split; [done|]. intros Hall. specialize (Hall v ltac:(lia)). unfold translate in Hall.
    fold c in Hall. by rewrite Hb in Hall. }
  assert (0 < unit_size c ≤ L1BlockSize) as HU by (destruct c; simpl; unfold L1BlockSize, L2BlockSize, L3BlockSize, PageSize; lia).
  rewrite (wrap_small 64 (v + unit_size c)) by (unfold in_width; lia).
  assert (AlignDown (v + unit_size c) (unit_size c) = unit_size c * (v / unit_size c + 1)) as ->.
  { rewrite !unit_level. rewrite AlignDown_pow2 by (destruct c; simpl; unfold in_width, L1BlockSize in *; simpl in *; lia).
    f_equal. rewrite <- (Z.mul_1_l (2 ^ shift _)) at 1. apply Z.div_add. destruct c; simpl; lia. }
  set (nx := unit_size c * (v / unit_size c + 1)).
  assert (v < nx) as Hnx by (unfold nx; pose proof (Z.div_mod v (unit_size c) ltac:(lia)); pose proof (Z.mod_pos_bound v (unit_size c) ltac:(lia)); lia).
  assert (nx mod PageSize = 0) as Hna.
  { unfold nx. destruct c; simpl; [change L1BlockSize with (262144 * PageSize)|change L2BlockSize with (512 * PageSize)|change L3BlockSize with (1 * PageSize)];
      rewrite <- Z.mul_assoc, (Z.mul_comm PageSize), Z.mul_assoc; apply Z.mod_mul; done. }
  assert (v + PageSize ≤ nx) as Hpg by (unfold PageSize in *; Z.to_euclidean_division_equations; lia).
  assert (∀ va, v ≤ va < nx → translate pt 0 m va = None) as Hfree.
  { intros va Hva. apply Hstop; [done|]. unfold quot. rewrite <- unit_level. symmetry. unfold nx in Hva.
    apply (Z.div_unique va _ _ (va - unit_size c * (v / unit_size c))); [|lia].
    pose proof (Z.div_mod v (unit_size c) ltac:(lia)). pose proof (Z.mod_pos_bound v (unit_size c) ltac:(lia)). left. lia. }
  destruct (IH nx) as (b & Hb' & Hiff); [lia|done|unfold PageSize in *; lia|]. exists b. split; [done|]. rewrite Hiff. split.
  - intros Hall va Hva. destruct (decide (va < nx)); [apply Hfree; lia|apply Hall; lia].
  - intros Hall va Hva. apply Hall. lia.
Qed.
End queries.

Lemma IsFree_spec pt m virt_addr size :
  virt_addr mod PageSize = 0 → size mod PageSize = 0 → 0 ≤ virt_addr → 0 ≤ size →
  virt_addr + size ≤ 2 ^ 64 - L1BlockSize →
  ∃ b, IsFree pt m virt_addr size = Ok b ∧ (b = true ↔ free_range pt 0 m virt_addr size).
Proof.
  intros Hv Hs Hv0 Hs0 Hend. unfold IsFree.
  assert (∀ x, x mod PageSize = 0 → IsAligned x PageSize = true) as Hal.
  { intros x Hx. change PageSize with (2 ^ 12) in *. rewrite IsAligned_pow2 by lia. by apply Z.eqb_eq. }
  rewrite !Hal by done. cbn [check]. change (Ok tt ≫= ?f) with (f tt). cbv beta. change (Ok tt ≫= ?f) with (f tt). cbv beta.
  rewrite wrap_small by (unfold in_width, L1BlockSize in *; lia).
  apply free_loop_exact; [by rewrite Z.add_mod, Hv, Hs|done|done|done|].
  rewrite Z2Nat.id by (by apply Z.div_pos). pose proof (Z.div_mod size PageSize ltac:(done)). lia.
Qed.

(** [IsFree] returns, and says whether no address of the range is mapped, for page
    aligned ranges that end below the last gigabyte of the address space. *)
Theorem IsFree_exact pt m virt_addr size :
  virt_addr mod PageSize = 0 → size mod PageSize = 0 → 0 ≤ virt_addr → 0 ≤ size →
  virt_addr + size ≤ 2 ^ 64 - L1BlockSize →
  ∃ b, IsFree pt m virt_addr size = Ok b ∧ (b = true ↔ free_range pt 0 m virt_addr size).
Proof. apply IsFree_spec. Qed.

(** In the last gigabyte [IsFree] does not end when nothing is mapped: the step past
    the end of the address space starts over at address 0. *)
Lemma IsFree_top_never_returns pt fuel v end_ :
  2 ^ 64 - L1BlockSize < end_ < 2 ^ 64 → v mod L1BlockSize = 0 → 0 ≤ v < 2 ^ 64 →
  free_loop fuel pt ∅ v end_ = Err OutOfFuel.
Proof.
  intros He. revert v. induction fuel as [|fuel IH]; intros v Hm Hv; cbn [free_loop];
    (rewrite (proj2 (Z.ltb_lt v end_)) by (unfold L1BlockSize in *; Z.to_euclidean_division_equations; lia)); cbn [negb]; [done|].
  assert (descend pt 0 ∅ v = At1 (GetL1Entry pt 0 v)) as -> by done. cbn [is_block entry_of unit_size].
  change (ld ∅ (GetL1Entry pt 0 v)) with 0. cbn [IsBlock]. change (IsBlock 0) with false. cbv iota.
  pose proof (wrap_in_width 64 (v + L1BlockSize) ltac:(lia)) as Hw.
  assert (AlignDown (u64 (v + L1BlockSize)) L1BlockSize = u64 (v + L1BlockSize)) as ->.
  { change L1BlockSize with (2 ^ 30) in *. rewrite AlignDown_pow2 by (lia || done).
    assert (u64 (v + 2 ^ 30) mod 2 ^ 30 = 0) as E; [|pose proof (Z.div_mod (u64 (v + 2 ^ 30)) (2 ^ 30) ltac:(lia)); lia].
    unfold wrap. change (2 ^ 64) with (2 ^ 30 * 2 ^ 34). change (2 ^ 30) with 1073741824 in *.
    Z.to_euclidean_division_equations. lia. }
  apply IH; [|done]. unfold wrap. change (2 ^ 64) with (L1BlockSize * 2 ^ 34). unfold L1BlockSize in *.
  Z.to_euclidean_division_equations. lia.
Qed.

(** ** Mapping *)

Lemma Map_spec pt off A `{LawfulAllocator A off} (s : mem * A) virt_addr size phys_addr attr :
  pt_ok pt → minv pt off s → attr_ok attr →
  virt_addr mod PageSize = 0 → phys_addr mod PageSize = 0 → size mod PageSize = 0 →
  0 ≤ size → 0 ≤ phys_addr → phys_addr + size ≤ 2 ^ 48 →
  canon_range pt virt_addr size → free_range pt off (fst s) virt_addr size →
  ready (tables_touched virt_addr size) s →
  ∃ s', Map pt virt_addr size phys_addr attr off s = Ok (tt, s') ∧ minv pt off s' ∧ tame pt off s s' ∧
    ∀ va, canon pt va → translate pt off (fst s') va = extended pt off (fst s) virt_addr size phys_addr attr va.
Proof.
  intros Hpt Hm Hattr Hv Hp Hs Hsz Hp0 Hp1 Hc Hf Hrd. unfold Map.
  assert (∀ x, x mod PageSize = 0 → IsAligned x PageSize = true) as Hal.
  { intros x Hx. change PageSize with (2 ^ 12) in *. rewrite IsAligned_pow2 by lia. by apply Z.eqb_eq. }
  rewrite !Hal by done. do 3 (rewrite (st_bind_run _ _ s s tt) by done).
  apply map_loop_exact; try done; [rewrite Z2Nat.id; [lia|by apply Z.div_pos]|].
  intros Hpos. eapply ready_le; [|done]. by apply pot_touched.
Qed.

(** (C11) [Map] on a free range of canonical addresses returns, when the allocator is
    ready to give one table for each first- and second-level entry that the range
    goes through.  It extends the translation by exactly the range, each page to its
    physical page with the attributes given, keeps the tables a tree apart from the
    allocator's pages, and writes nothing but tables and pages of the allocator. *)
Theorem Map_exact pt off A `{LawfulAllocator A off} (s : mem * A) virt_addr size phys_addr attr :
  pt_ok pt → minv pt off s → attr_ok attr →
  virt_addr mod PageSize = 0 → phys_addr mod PageSize = 0 → size mod PageSize = 0 →
  0 ≤ size → 0 ≤ phys_addr → phys_addr + size ≤ 2 ^ 48 →
  canon_range pt virt_addr size → free_range pt off (fst s) virt_addr size →
  ready (tables_touched virt_addr size) s →
  ∃ s', Map pt virt_addr size phys_addr attr off s = Ok (tt, s') ∧ minv pt off s' ∧ tame pt off s s' ∧
    ∀ va, canon pt va → translate pt off (fst s') va = extended pt off (fst s) virt_addr size phys_addr attr va.
Proof. apply Map_spec. Qed.

(** ** A new table *)

(** A tree of the two first-level tables alone. *)
Lemma roots_wf pt off m : phys_ok 12 (fst (m_l1_tables pt)) → phys_ok 12 (snd (m_l1_tables pt)) →
  fst (m_l1_tables pt) ≠ snd (m_l1_tables pt) →
  (∀ i k, 0 ≤ k < pick i (m_num_entries pt) → ld m (slot off (pick i (m_l1_tables pt)) k) = 0) →
  (∀ i P a, vtable pt i P → table pt off m i P = Some a → P = [] ∧ a = pick i (m_l1_tables pt)) ∧
  wf_tables pt off m ∧ (pt_ok pt → ∀ va, translate pt off m va = None).
Proof.
  intros H0 H1 Hne Hz.
  assert (∀ i P a, vtable pt i P → table pt off m i P = Some a → P = [] ∧ a = pick i (m_l1_tables pt)) as Hroot.
  { intros i P. assert (∀ k P, vpath pt i (k :: P) → table pt off m i (k :: P) = None) as Hnone.
    { intros k Q. revert k. induction Q as [|j Q IH]; intros k [Hk HQ].
      - simpl. by rewrite Hz.
      - change (table pt off m i (k :: j :: Q)) with
          (t ← table pt off m i (j :: Q); let e := ld m (slot off t k) in if IsTable e then Some (GetTable e) else None).
        by rewrite IH. }
    destruct P as [|k P]; intros a [Hv _] Ha; [by injection Ha as <-|]. by rewrite Hnone in Ha. }
  split_and!; [done| |].
  - split.
    + intros i P a HP Ha. destruct (Hroot i P a HP Ha) as [_ ->]. by destruct i.
    + intros i P j Q a HP HQ Ha Hb. destruct (Hroot i P a HP Ha) as [-> ->]. destruct (Hroot j Q _ HQ Hb) as [-> E].
      split; [|done]. destruct i, j; simpl in *; congruence.
  - intros Hpt va. rewrite (walk_at pt off m L1 va (pick (half va) (m_l1_tables pt))); [|done|].
    all: cbn [index]; rewrite Hz; [done || by right|];
      rewrite l1_index_mod by done; destruct (Hpt (half va)) as (a & Ha & ->); apply Z.mod_pos_bound, pow2_pos; lia.
Qed.

(** The constructor from an address range: two cleared tables that translate nothing. *)
Theorem new_table_empty A `{LawfulAllocator A 0} n (s : mem * A) start_address end_address :
  ainv s → ready (S (S n)) s →
  ∃ pt s', from_range start_address end_address s = Ok (pt, s') ∧ ready n s' ∧
    (pt_ok pt → minv pt 0 s' ∧ ∀ va, translate pt 0 (fst s') va = None).
Proof.
  intros Hai Hrd. unfold from_range.
  destruct (AllocateNewPageTable_ok 0 (S n) s Hai Hrd) as (t0 & s1 & E1 & P0 & O0 & Hai1 & N0 & Sub1 & Z0 & Fr1 & R1).
  rewrite (st_bind_run _ _ _ _ _ E1).
  destruct (AllocateNewPageTable_ok 0 n s1 Hai1 R1) as (t1 & s2 & E2 & P1 & O1 & Hai2 & N1 & Sub2 & Z1 & Fr2 & R2).
  rewrite (st_bind_run _ _ _ _ _ E2). eexists _, s2. split; [done|]. split; [done|]. set (pt := mkPT _ _). intros Hpt.
  assert (t0 ≠ t1) as Hne by congruence.
  assert (∀ k, 0 ≤ k < 512 → ld (fst s2) (slot 0 t0 k) = 0) as Z0'.
  { intros k Hk. transitivity (ld (fst s1) (slot 0 t0 k)); [|by apply Z0]. unfold ld. rewrite Fr2; [done|]. intros q j Hq Hj.
    eapply (apart_slot 0 s1); done. }
  destruct (roots_wf pt 0 (fst s2) P0 P1 Hne) as (Hroot & Hwf & Hnone).
  { intros i k Hk. assert (0 ≤ k < 512) by (by eapply (vpath_index pt i k []); [|split]). destruct i; simpl; auto. }
  split; [|by apply Hnone]. split; [done|done|]. intros i P a HP Ha. destruct (Hroot i P a HP Ha) as [_ ->].
  destruct i; simpl; [done|]. intros Hq. by apply N0, Sub2.
Qed.

(** ** The room that [GetMaximumOverheadSize] allows for tables *)

(** It is enough for every range that starts at a first-level boundary. *)
Theorem overhead_enough virt_addr size : virt_addr mod L1BlockSize = 0 → 0 < size ≤ 2 ^ 48 →
  Z.of_nat (tables_touched virt_addr size) * PageSize = GetMaximumOverheadSize size.
Proof.
  intros Hv Hs. unfold GetMaximumOverheadSize, tables_touched, quot, shift.
  rewrite !(wrap_small 64 (size + _)) by (unfold in_width, L1BlockSize, L2BlockSize; lia).
  change (2 ^ 30) with L1BlockSize. change (2 ^ 21) with L2BlockSize.
  assert (∀ U, 0 < U → virt_addr mod U = 0 → (virt_addr + size - 1) / U - virt_addr / U + 1 = (size + (U - 1)) / U) as HU.
  { intros U HU Hm. apply Z.mod_divide in Hm as [q ->]; [|lia]. rewrite Z.div_mul by lia.
    replace (q * U + size - 1) with (size - 1 + q * U) by lia. rewrite Z.div_add by lia.
    replace (size + (U - 1)) with (size - 1 + 1 * U) by lia. rewrite Z.div_add by lia. lia. }
  rewrite !HU; [|done| |done|done].
  2:{ unfold L1BlockSize, L2BlockSize in *. Z.to_euclidean_division_equations. lia. }
  assert (0 ≤ (size + (L1BlockSize - 1)) / L1BlockSize ≤ 2 ^ 19) by (unfold L1BlockSize; Z.to_euclidean_division_equations; lia).
  assert (0 ≤ (size + (L2BlockSize - 1)) / L2BlockSize ≤ 2 ^ 28) by (unfold L2BlockSize; Z.to_euclidean_division_equations; lia).
  rewrite Nat2Z.inj_add, !Z2Nat.id by lia. rewrite (wrap_small 64 (_ + _)) by (unfold in_width; lia).
  symmetry. apply wrap_small. unfold in_width, PageSize. lia.
Qed.

(** ** A small machine *)
Module Machine.
Import InitAlloc InitAllocLaws.

(** Two empty first-level tables, and a stack of [n] pages for new tables. *)
Definition pt0 : KInitialPageTable := mkPT (0x10000, 0x11000) (512, 512).
Definition page (n : nat) : Z := 0x20000 + Z.of_nat n * PageSize.
Fixpoint machine (n : nat) : mem * FinalizeAllocator :=
  match n with
  | O => (∅, mkFinalize 0 0)
  | S n' => match Finalize_Free (page n') PageSize (machine n') with Ok (_, s) => s | Err _ => (∅, mkFinalize 0 0) end
  end.
Definition rw : Z := PageTableEntry KernelRW NormalMemory InnerShareable Mapped.

Lemma pt0_ok : pt_ok pt0.
Proof. intros i. exists 9. by destruct i. Qed.

Lemma canon_low va : 0 ≤ va < 512 * L1BlockSize → canon pt0 va.
Proof.
  intros Hva. unfold canon. unfold L1BlockSize in Hva. assert (Z.testbit va 63 = false) as ->; [|by unfold L1BlockSize; simpl].
  rewrite <- (Z.mod_small va (2 ^ 63)) by lia. apply Z.mod_pow2_bits_high. lia.
Qed.

Lemma machine_stack n : (n ≤ 8)%nat → stack_of 0 (machine n) (page <$> rev (seq 0 n)).
Proof.
  intros Hn. do 9 (destruct n as [|n]; [by vm_compute; repeat split; try set_solver|]). lia.
Qed.

Lemma machine_word n w : 0 ≤ w < 0x20000 → (n ≤ 8)%nat → ld (fst (machine n)) w = 0.
Proof.
  intros Hw. induction n as [|n IH]; intros Hn; [done|]. rewrite <- IH by lia.
  assert (∀ s : mem * FinalizeAllocator, fst s !! w = fst (machine n) !! w → ld (fst s) w = ld (fst (machine n)) w) as Hld
    by (intros s E; unfold ld; by rewrite E).
  apply Hld. cbn [machine]. pose proof (machine_stack n ltac:(lia)) as [Hoff _]. destruct (machine n) as [m a]. cbn [snd] in Hoff.
  unfold Finalize_Free. rewrite Hoff. cbn [check fst]. change (Ok tt ≫= ?f) with (f tt). cbv beta iota. cbn [fst].
  apply lookup_insert_ne. unfold page, PageSize. rewrite wrap_small by (unfold in_width; lia). lia.
Qed.

Lemma machine_ok n : (n ≤ 8)%nat → minv pt0 0 (machine n) ∧ ready (off := 0) n (machine n) ∧ ∀ va, translate pt0 0 (fst (machine n)) va = None.
Proof.
  intros Hn. pose proof (machine_stack n Hn) as Hst.
  destruct (roots_wf pt0 0 (fst (machine n))) as (Hroot & Hwf & Hnone); [split; [simpl; lia|done]|split; [simpl; lia|done]|done| |].
  { intros i k Hk. apply machine_word; [|done]. unfold slot. destruct i; simpl in *; rewrite wrap_small by (unfold in_width; lia); lia. }
  split_and!; [split; [done|by eexists|]| |by apply Hnone, pt0_ok].
  - intros i P a HP Ha. destruct (Hroot i P a HP Ha) as [_ ->]. intros (l & [_ Hl] & Hin). destruct Hst as [_ Hst].
    rewrite (stack_unique _ _ _ _ _ Hl Hst) in Hin. apply list_elem_of_fmap in Hin as (j & E & _). unfold page, PageSize in E.
    destruct i; simpl in E; lia.
  - eexists. split; [done|]. by rewrite length_fmap, length_rev, length_seq.
Qed.

(** Two pages across a gigabyte boundary: four new tables. *)
Lemma Map_exact_witness : ∃ s', Map pt0 0x3FFFF000 0x2000 0x80000000 rw 0 (machine 4) = Ok (tt, s') ∧
  translate pt0 0 (fst s') 0x40000008 = Some (0x80001008, rw) ∧ translate pt0 0 (fst s') 0x40001000 = None.
Proof.
  destruct (machine_ok 4 ltac:(lia)) as (Hm & Hr & Hn).
  destruct (Map_exact pt0 0 FinalizeAllocator (machine 4) 0x3FFFF000 0x2000 0x80000000 rw) as (s' & HM & _ & _ & Htr);
    [apply pt0_ok|done|apply template_ok|done|done|done|lia|lia|lia| | |exact Hr|].
  - intros va Hva. apply canon_low. unfold L1BlockSize. lia.
  - intros va _. apply Hn.
  - exists s'. split; [exact HM|]. split.
    + rewrite Htr by (apply canon_low; unfold L1BlockSize; lia). unfold extended. rewrite decide_True by lia. reflexivity.
    + rewrite Htr by (apply canon_low; unfold L1BlockSize; lia). unfold extended. rewrite decide_False by lia. apply Hn.
Defined.

(** The same range with the pages that [GetMaximumOverheadSize] allows for: not
    enough.  The range goes through two entries of each level. *)
Theorem overhead_short : GetMaximumOverheadSize 0x2000 = 2 * PageSize ∧ tables_touched 0x3FFFF000 0x2000 = 4%nat ∧
  Map pt0 0x3FFFF000 0x2000 0x80000000 rw 0 (machine 2) = Err Aborted.
Proof. split_and!; by vm_compute. Qed.

Lemma overhead_enough_witness : Z.of_nat (tables_touched 0x40000000 0x2000) * PageSize = GetMaximumOverheadSize 0x2000.
Proof. apply (overhead_enough 0x40000000 0x2000); [done|lia]. Defined.

Lemma IsFree_exact_witness : ∃ b, IsFree pt0 (fst (machine 4)) 0x3FFFF000 0x2000 = Ok b ∧
  (b = true ↔ free_range pt0 0 (fst (machine 4)) 0x3FFFF000 0x2000).
Proof. apply (IsFree_exact pt0 (fst (machine 4)) 0x3FFFF000 0x2000); unfold L1BlockSize; lia || done. Defined.

Lemma new_table_empty_witness : ∃ pt s', from_range (2 ^ 64 - 512 * L1BlockSize) (2 ^ 64 - 1) (machine 2) = Ok (pt, s') ∧ ready (off := 0) 0 s' ∧
  (pt_ok pt → minv pt 0 s' ∧ ∀ va, translate pt 0 (fst s') va = None).
Proof.
  destruct (machine_ok 2 ltac:(lia)) as (Hm & Hr & _).
  apply (new_table_empty FinalizeAllocator 0 (machine 2) (2 ^ 64 - 512 * L1BlockSize) (2 ^ 64 - 1)); [apply Hm|exact Hr].
Defined.

End Machine.

End InitPTExact.
