(* ===== verification/RegionType.v ===== *)
(** * Types of memory regions

    [KMemoryRegionTypeValue] (libmesosphere, [kern_k_memory_region_type.hpp]): the
    compile-time algebra that derives the type of each kind of region from that of
    its parent by setting bits.  A type is derived from another when it has all its
    bits; the derivations make sure that siblings are not derived from each other. *)

From S2P Require Import Prelude.

Module RegionType.

Definition KMemoryRegionAttr_CarveoutProtected : Z := 0x02000000.
Definition KMemoryRegionAttr_Uncached : Z := 0x04000000.
Definition KMemoryRegionAttr_DidKernelMap : Z := 0x08000000.
Definition KMemoryRegionAttr_ShouldKernelMap : Z := 0x10000000.
Definition KMemoryRegionAttr_UserReadOnly : Z := 0x20000000.
Definition KMemoryRegionAttr_NoUserMap : Z := 0x40000000.
Definition KMemoryRegionAttr_LinearMapped : Z := 0x80000000.

Record KMemoryRegionTypeValue := mkValue {
  m_value : Z; m_next_bit : Z; m_finalized : bool; m_sparse_only : bool; m_dense_only : bool;
}.
Definition BITSIZEOF_ValueType : Z := 32.
Definition KMemoryRegionType_None : KMemoryRegionTypeValue := mkValue 0 0 false false false.

(** An [AMS_ASSUME] that does not hold stops the compile-time evaluation. *)
Definition with_bits (v : KMemoryRegionTypeValue) (bits adv : Z) : KMemoryRegionTypeValue :=
  mkValue (Z.lor (m_value v) bits) (m_next_bit v + adv) (m_finalized v) (m_sparse_only v) (m_dense_only v).

Definition BitsForDeriveSparse (n : Z) : Z := n + 1.

(** The [i]-th pair of a low and a high bit, in the order of the two loops. *)
Fixpoint dense_pair (i : nat) : Z * Z :=
  match i with
  | O => (0, 1)
  | S i' => let '(low, high) := dense_pair i' in if low + 1 =? high then (0, high + 1) else (low + 1, high)
  end.
Definition BitsForDeriveDense (n : nat) : Z := snd (dense_pair (n - 1)) + 1.

Definition Finalize (v : KMemoryRegionTypeValue) : res KMemoryRegionTypeValue :=
  _ ← check (negb (m_finalized v)) Aborted;
  Ok (mkValue (m_value v) (m_next_bit v) true (m_sparse_only v) (m_dense_only v)).
Definition may_restrict (v : KMemoryRegionTypeValue) : bool := negb (m_finalized v) && negb (m_sparse_only v) && negb (m_dense_only v).
Definition SetSparseOnly (v : KMemoryRegionTypeValue) : res KMemoryRegionTypeValue :=
  _ ← check (may_restrict v) Aborted;
  Ok (mkValue (m_value v) (m_next_bit v) (m_finalized v) true (m_dense_only v)).
Definition SetDenseOnly (v : KMemoryRegionTypeValue) : res KMemoryRegionTypeValue :=
  _ ← check (may_restrict v) Aborted;
  Ok (mkValue (m_value v) (m_next_bit v) (m_finalized v) (m_sparse_only v) true).
Definition SetAttribute (attr : Z) (v : KMemoryRegionTypeValue) : res KMemoryRegionTypeValue :=
  _ ← check (negb (m_finalized v)) Aborted; Ok (with_bits v attr 0).
Definition DeriveAttribute (attr : Z) (v : KMemoryRegionTypeValue) : res KMemoryRegionTypeValue :=
  _ ← check (negb (m_finalized v)) Aborted; Ok (with_bits v attr 0).
Definition DeriveInitial (i next : Z) (v : KMemoryRegionTypeValue) : res KMemoryRegionTypeValue :=
  _ ← check (negb (m_finalized v) && (m_value v =? 0) && (m_next_bit v =? 0) && (i <? next)) Aborted;
  Ok (mkValue (Z.shiftl 1 i) next (m_finalized v) (m_sparse_only v) (m_dense_only v)).
Definition DeriveTransition (ofs adv : Z) (v : KMemoryRegionTypeValue) : res KMemoryRegionTypeValue :=
  _ ← check (negb (m_finalized v) && (ofs <? adv) && (m_next_bit v + adv <=? BITSIZEOF_ValueType)) Aborted;
  Ok (with_bits v (Z.shiftl 1 (m_next_bit v + ofs)) adv).
Definition DeriveSparse (ofs n i : Z) (v : KMemoryRegionTypeValue) : res KMemoryRegionTypeValue :=
  _ ← check (negb (m_finalized v) && negb (m_dense_only v) && (m_next_bit v + ofs + n + 1 <=? BITSIZEOF_ValueType) && (i <? n)) Aborted;
  Ok (with_bits v (Z.lor (Z.shiftl 1 (m_next_bit v + ofs)) (Z.shiftl 1 (m_next_bit v + ofs + 1 + i))) (ofs + n + 1)).
Definition Derive (n i : nat) (v : KMemoryRegionTypeValue) : res KMemoryRegionTypeValue :=
  _ ← check (negb (m_finalized v) && negb (m_sparse_only v) && (m_next_bit v + BitsForDeriveDense n <=? BITSIZEOF_ValueType)
             && bool_decide (i < n)%nat) Aborted;
  let '(low, high) := dense_pair i in
  _ ← check (high <? BitsForDeriveDense n) Aborted;
  Ok (with_bits v (Z.lor (Z.shiftl 1 (m_next_bit v + low)) (Z.shiftl 1 (m_next_bit v + high))) (BitsForDeriveDense n)).
Definition Advance (n : Z) (v : KMemoryRegionTypeValue) : res KMemoryRegionTypeValue :=
  _ ← check (negb (m_finalized v) && (m_next_bit v + n <=? BITSIZEOF_ValueType)) Aborted; Ok (with_bits v 0 n).
Definition IsAncestorOf (v : KMemoryRegionTypeValue) (t : Z) : bool := Z.lor (m_value v) t =? t.

(** ** The types *)
Definition typ (r : res KMemoryRegionTypeValue) : KMemoryRegionTypeValue :=
  match r with Ok v => v | Err _ => KMemoryRegionType_None end.

Definition chain (r : res KMemoryRegionTypeValue) (f : KMemoryRegionTypeValue → res KMemoryRegionTypeValue) : res KMemoryRegionTypeValue := r ≫= f.
#[local] Infix "▷" := chain (at level 61, left associativity).
Definition Kernel := typ (DeriveInitial 0 2 KMemoryRegionType_None).
Definition Dram := typ (DeriveInitial 1 2 KMemoryRegionType_None).
Definition DramKernelBase :=
  typ (DeriveSparse 0 3 0 Dram ▷ SetAttribute KMemoryRegionAttr_NoUserMap ▷ SetAttribute KMemoryRegionAttr_CarveoutProtected).
Definition DramReservedBase := typ (DeriveSparse 0 3 1 Dram).
Definition DramHeapBase := typ (DeriveSparse 0 3 2 Dram ▷ SetAttribute KMemoryRegionAttr_LinearMapped).
Definition DramKernelCode := typ (DeriveSparse 0 4 0 DramKernelBase).
Definition DramKernelSlab := typ (DeriveSparse 0 4 1 DramKernelBase).
Definition DramKernelPtHeap := typ (DeriveSparse 0 4 2 DramKernelBase ▷ SetAttribute KMemoryRegionAttr_LinearMapped).
Definition DramKernelInitPt := typ (DeriveSparse 0 4 3 DramKernelBase ▷ SetAttribute KMemoryRegionAttr_LinearMapped).
Definition DramKernelSecureAppletMemory := typ (DeriveSparse 1 3 0 DramKernelBase ▷ SetAttribute KMemoryRegionAttr_LinearMapped).
Definition DramReservedEarly := typ (DeriveAttribute KMemoryRegionAttr_NoUserMap DramReservedBase).
Definition KernelTraceBuffer :=
  typ (DeriveSparse 0 3 0 DramReservedBase ▷ SetAttribute KMemoryRegionAttr_LinearMapped ▷ SetAttribute KMemoryRegionAttr_UserReadOnly).
Definition OnMemoryBootImage := typ (DeriveSparse 0 3 1 DramReservedBase).
Definition DTB := typ (DeriveSparse 0 3 2 DramReservedBase).
Definition DramPoolPartition := typ (DeriveAttribute KMemoryRegionAttr_NoUserMap DramHeapBase).
Definition DramPoolManagement :=
  typ (DeriveTransition 0 2 DramPoolPartition ▷ DeriveTransition 0 1 ▷ SetAttribute KMemoryRegionAttr_CarveoutProtected).
Definition DramUserPool := typ (DeriveTransition 1 2 DramPoolPartition ▷ DeriveTransition 0 1).
Definition DramApplicationPool := typ (Derive 4 0 DramUserPool).
Definition DramAppletPool := typ (Derive 4 1 DramUserPool).
Definition DramSystemNonSecurePool := typ (Derive 4 2 DramUserPool).
Definition DramSystemPool := typ (Derive 4 3 DramUserPool ▷ SetAttribute KMemoryRegionAttr_CarveoutProtected).
Definition VirtualDramHeapBase := typ (DeriveSparse 1 3 0 Dram).
Definition VirtualDramKernelPtHeap := typ (DeriveSparse 1 3 1 Dram).
Definition VirtualDramKernelTraceBuffer := typ (DeriveSparse 1 3 2 Dram).
Definition VirtualDramUnknownDebug := typ (DeriveSparse 2 2 1 Dram).
Definition VirtualDramKernelSecureAppletMemory := typ (DeriveSparse 3 1 0 Dram).
Definition VirtualDramKernelInitPt := typ (Derive 3 0 VirtualDramHeapBase).
Definition VirtualDramPoolManagement := typ (Derive 3 1 VirtualDramHeapBase).
Definition VirtualDramUserPool := typ (Derive 3 2 VirtualDramHeapBase).
Definition VirtualDramAppletPool := typ (Derive 6 2 VirtualDramUserPool).
Definition VirtualDramApplicationPool := typ (Derive 6 3 VirtualDramUserPool).
Definition VirtualDramSystemNonSecurePool := typ (Derive 6 4 VirtualDramUserPool).
Definition VirtualDramSystemPool := typ (Derive 6 5 VirtualDramUserPool).
Definition ArchDeviceBase := typ (DeriveTransition 0 1 Kernel ▷ SetSparseOnly).
Definition BoardDeviceBase := typ (DeriveTransition 0 2 Kernel ▷ SetDenseOnly).
Definition KernelCode := typ (DeriveSparse 1 4 0 Kernel).
Definition KernelStack := typ (DeriveSparse 1 4 1 Kernel).
Definition KernelMisc := typ (DeriveSparse 1 4 2 Kernel).
Definition KernelSlab := typ (DeriveSparse 1 4 3 Kernel).
Definition KernelMiscDerivedBase := typ (DeriveTransition 0 1 KernelMisc).
Definition KernelMiscMainStack := typ (Derive 7 1 KernelMiscDerivedBase).
Definition KernelMiscMappedDevice := typ (Derive 7 2 KernelMiscDerivedBase).
Definition KernelMiscExceptionStack := typ (Derive 7 3 KernelMiscDerivedBase).
Definition KernelMiscUnknownDebug := typ (Derive 7 4 KernelMiscDerivedBase).
Definition KernelMiscIdleStack := typ (Derive 7 6 KernelMiscDerivedBase).
Definition KernelTemp := typ (Advance 2 Kernel ▷ Derive 2 0).

Definition GetTypeForVirtualLinearMapping (type_id : Z) : KMemoryRegionTypeValue :=
  if IsAncestorOf KernelTraceBuffer type_id then VirtualDramKernelTraceBuffer
  else if IsAncestorOf DramKernelPtHeap type_id then VirtualDramKernelPtHeap
  else if IsAncestorOf DramKernelSecureAppletMemory type_id then VirtualDramKernelSecureAppletMemory
  else if Z.lor type_id KMemoryRegionAttr_ShouldKernelMap =? type_id then VirtualDramUnknownDebug
  else Dram.

(** The values that the header asserts, in its order; every derivation succeeds. *)
Lemma asserted_values :
  m_value <$> [Kernel; Dram; DramKernelBase; DramReservedBase; DramHeapBase; DramKernelCode; DramKernelSlab; DramKernelPtHeap;
    DramKernelInitPt; DramKernelSecureAppletMemory; DramReservedEarly; KernelTraceBuffer; OnMemoryBootImage; DTB; DramPoolPartition;
    DramPoolManagement; DramUserPool; DramApplicationPool; DramAppletPool; DramSystemNonSecurePool; DramSystemPool;
    VirtualDramHeapBase; VirtualDramKernelPtHeap; VirtualDramKernelTraceBuffer; VirtualDramUnknownDebug;
    VirtualDramKernelSecureAppletMemory; VirtualDramKernelInitPt; VirtualDramPoolManagement; VirtualDramUserPool;
    VirtualDramAppletPool; VirtualDramApplicationPool; VirtualDramSystemNonSecurePool; VirtualDramSystemPool; ArchDeviceBase;
    BoardDeviceBase; KernelCode; KernelStack; KernelMisc; KernelSlab; KernelMiscDerivedBase; KernelMiscMainStack;
    KernelMiscMappedDevice; KernelMiscExceptionStack; KernelMiscUnknownDebug; KernelMiscIdleStack; KernelTemp] =
  [0x1; 0x2; 0x4200000E; 0x16; 0x80000026; 0x420000CE; 0x4200014E; 0xC200024E; 0xC200044E; 0xC200018E; 0x40000016; 0xA00000D6;
   0x156; 0x256; 0xC0000026; 0xC2000166; 0xC00001A6; 0xC00007A6; 0xC0000BA6; 0xC0000DA6; 0xC20013A6; 0x1A; 0x2A; 0x4A; 0x52; 0x62;
   0x19A; 0x29A; 0x31A; 0x1B1A; 0x271A; 0x2B1A; 0x331A; 0x5; 0x5; 0x19; 0x29; 0x49; 0x89; 0x149; 0xB49; 0xD49; 0x1349; 0x1549;
   0x2349; 0x31].
Proof. by vm_compute. Qed.

(** ** Siblings *)
Section siblings.
Implicit Types (v a b : KMemoryRegionTypeValue) (i j n : nat).

(** The bits from the next one up to the attributes are clear. *)
Definition fresh v : Prop := 0 ≤ m_next_bit v ∧ ∀ k, m_next_bit v ≤ k < 25 → Z.testbit (m_value v) k = false.

Lemma dense_pair_order i : 0 ≤ fst (dense_pair i) < snd (dense_pair i) ∧
  snd (dense_pair i) * (snd (dense_pair i) - 1) + 2 * fst (dense_pair i) = 2 * Z.of_nat i.
Proof.
  induction i as [|i IH]; [done|]. cbn [dense_pair]. destruct (dense_pair i) as [low high]. cbn [fst snd] in IH.
  case (Z.eqb_spec (low + 1) high) as [<-|Hne]; cbn [fst snd]; split; nia.
Qed.

Lemma dense_pair_inj i j : dense_pair i = dense_pair j → i = j.
Proof. intros E. destruct (dense_pair_order i) as [_ Hi], (dense_pair_order j) as [_ Hj]. rewrite E in Hi. lia. Qed.

Lemma dense_pair_mono i j : (i ≤ j)%nat → snd (dense_pair i) ≤ snd (dense_pair j).
Proof.
  induction 1 as [|j _ IH]; [done|]. etrans; [exact IH|]. cbn [dense_pair]. destruct (dense_pair j) as [low high].
  destruct (_ =? _); simpl; lia.
Qed.

(** Two bits [x < y] of the free part, set on top of [v]. *)
Definition two_bits x y : Z := Z.lor (Z.shiftl 1 x) (Z.shiftl 1 y).

Lemma two_bits_spec x y k : 0 ≤ x → 0 ≤ y → 0 ≤ k → Z.testbit (two_bits x y) k = (k =? x) || (k =? y).
Proof.
  intros Hx Hy Hk. unfold two_bits. rewrite Z.lor_spec, !Z.shiftl_spec by lia.
  assert (∀ z, Z.testbit 1 z = (z =? 0)) as H1.
  { intros z. destruct (decide (z < 0)) as [Hn|Hn]; [rewrite Z.testbit_neg_r by lia; symmetry; apply Z.eqb_neq; lia|].
    case (Z.eqb_spec z 0) as [->|]; [done|]. apply Z.bits_above_log2; [lia|]. simpl. lia. }
  rewrite !H1. f_equal; apply eq_true_iff_eq; rewrite !Z.eqb_eq; lia.
Qed.

Lemma ancestor_bits a t : IsAncestorOf a t = true ↔ ∀ k, 0 ≤ k → Z.testbit (m_value a) k = true → Z.testbit t k = true.
Proof.
  unfold IsAncestorOf. rewrite Z.eqb_eq. split.
  - intros <- k Hk Ha. by rewrite Z.lor_spec, Ha.
  - intros H. apply Z.bits_inj'. intros k Hk. rewrite Z.lor_spec. destruct (Z.testbit (m_value a) k) eqn:E; [by rewrite H|done].
Qed.

Lemma derived_bits v x y adv : fresh v → m_next_bit v ≤ x < 25 → m_next_bit v ≤ y < 25 → 0 ≤ adv →
  m_next_bit v + adv > x → m_next_bit v + adv > y →
  let a := with_bits v (two_bits x y) adv in IsAncestorOf v (m_value a) = true ∧ fresh a.
Proof.
  intros [H0 Hf] Hx Hy Hadv Hax Hay a. split.
  - apply ancestor_bits. intros k Hk Hv. simpl. by rewrite Z.lor_spec, Hv.
  - split; [simpl; lia|]. simpl. intros k Hk. rewrite Z.lor_spec, two_bits_spec by lia. rewrite Hf by lia.
    apply orb_false_iff. split; [done|]. apply orb_false_iff. rewrite !Z.eqb_neq. lia.
Qed.

Lemma apart_bits v x y x' y' adv adv' : fresh v → m_next_bit v ≤ x < y → y < 25 → m_next_bit v ≤ x' < y' → y' < 25 →
  (x, y) ≠ (x', y') → IsAncestorOf (with_bits v (two_bits x y) adv) (m_value (with_bits v (two_bits x' y') adv')) = false.
Proof.
  intros [H0 Hf] Hx Hy Hx' Hy' Hne. apply not_true_iff_false. rewrite ancestor_bits. intros H.
  assert (∀ k, k = x ∨ k = y → k = x' ∨ k = y') as Hk.
  { intros k Hk. specialize (H k ltac:(lia)). simpl in H. rewrite !Z.lor_spec, !two_bits_spec, (Hf k) in H by lia.
    rewrite !orb_false_l, !orb_true_iff, !Z.eqb_eq in H. auto. }
  destruct (Hk x ltac:(auto)), (Hk y ltac:(auto)); subst; lia || done.
Qed.

(** A child [a] next to its sibling [b]: it has the bits of the parent and can be
    derived from in turn, and neither is derived from the other. *)
Definition sibling_of v a b : Prop :=
  IsAncestorOf v (m_value a) = true ∧ fresh a ∧ IsAncestorOf a (m_value b) = false ∧ IsAncestorOf b (m_value a) = false.

Lemma sibling_bits v x y x' y' adv : fresh v → m_next_bit v ≤ x < y → m_next_bit v ≤ x' < y' →
  y < m_next_bit v + adv → y' < m_next_bit v + adv → m_next_bit v + adv ≤ 25 → (x, y) ≠ (x', y') →
  sibling_of v (with_bits v (two_bits x y) adv) (with_bits v (two_bits x' y') adv).
Proof.
  intros Hf Hx Hx' Hy Hy' Hadv Hne. pose proof Hf as [H0 _].
  destruct (derived_bits v x y adv) as [Hanc Hfresh]; try lia; [done|].
  split_and!; [done|done| |]; apply apart_bits; try lia; done.
Qed.

Lemma dense_siblings v n i j a b : fresh v → m_next_bit v + BitsForDeriveDense n ≤ 25 → i ≠ j →
  Derive n i v = Ok a → Derive n j v = Ok b → sibling_of v a b.
Proof.
  intros Hf Hb Hij Ha Hb'. pose proof Hf as [H0 _].
  assert (∀ k c, Derive n k v = Ok c → (k < n)%nat ∧ c = with_bits v (two_bits (m_next_bit v + fst (dense_pair k)) (m_next_bit v + snd (dense_pair k))) (BitsForDeriveDense n)) as HD.
  { intros k c Hc. unfold Derive in Hc. apply res_bind_Ok in Hc as (u & Hu & Hc). apply check_Ok in Hu.
    rewrite !andb_true_iff, bool_decide_eq_true in Hu. destruct Hu as [_ Hk]. destruct (dense_pair k) as [low high].
    apply res_bind_Ok in Hc as (u' & _ & Hc). injection Hc as <-. done. }
  destruct (HD _ _ Ha) as [Hi ->], (HD _ _ Hb') as [Hj ->]. clear HD Ha Hb'.
  pose proof (dense_pair_order i) as [Oi _]. pose proof (dense_pair_order j) as [Oj _].
  pose proof (dense_pair_mono i (n - 1) ltac:(lia)). pose proof (dense_pair_mono j (n - 1) ltac:(lia)).
  unfold BitsForDeriveDense in *. apply sibling_bits; try lia; [done|].
  intros [= E1 E2]. apply Hij, dense_pair_inj. destruct (dense_pair i), (dense_pair j); simpl in *; f_equal; lia.
Qed.

Lemma sparse_siblings v ofs m x y a b : fresh v → 0 ≤ ofs → 0 ≤ x → 0 ≤ y → x ≠ y →
  m_next_bit v + (ofs + BitsForDeriveSparse m) ≤ 25 →
  DeriveSparse ofs m x v = Ok a → DeriveSparse ofs m y v = Ok b → sibling_of v a b.
Proof.
  intros Hf Ho Hx Hy Hxy Hb Ha Hb'. unfold BitsForDeriveSparse in Hb.
  assert (∀ z c, DeriveSparse ofs m z v = Ok c → z < m ∧
    c = with_bits v (two_bits (m_next_bit v + ofs) (m_next_bit v + ofs + 1 + z)) (ofs + m + 1)) as HD.
  { intros z c Hc. unfold DeriveSparse in Hc. apply res_bind_Ok in Hc as (u & Hu & Hc). apply check_Ok in Hu.
    rewrite !andb_true_iff, Z.ltb_lt in Hu. injection Hc as <-. by destruct Hu. }
  destruct (HD _ _ Ha) as [Hi ->], (HD _ _ Hb') as [Hj ->]. clear HD Ha Hb'.
  apply sibling_bits; try lia; [done|]. intros [= E]. lia.
Qed.

(** (C19) The children that one derivation scheme gives a region type, when they stay
    below the attribute bits: of two children of a dense derivation with the same
    count, or of a sparse derivation with the same offset and count, with different
    indices, each has the bits of its parent and can be derived from in turn, and
    neither is derived from the other. *)
Theorem siblings_incomparable v : fresh v →
  (∀ n i j a b, m_next_bit v + BitsForDeriveDense n ≤ 25 → i ≠ j →
     Derive n i v = Ok a → Derive n j v = Ok b → sibling_of v a b) ∧
  (∀ ofs m x y a b, 0 ≤ ofs → 0 ≤ x → 0 ≤ y → x ≠ y → m_next_bit v + (ofs + BitsForDeriveSparse m) ≤ 25 →
     DeriveSparse ofs m x v = Ok a → DeriveSparse ofs m y v = Ok b → sibling_of v a b).
Proof.
  intros Hf. split.
  - intros n i j a b. by apply dense_siblings.
  - intros ofs m x y a b. by apply sparse_siblings.
Qed.

(** Freshness of a type as a computation. *)
Definition freshb v : bool :=
  (0 <=? m_next_bit v) && forallb (λ k, negb (Z.testbit (m_value v) k)) (seqZ (m_next_bit v) (25 - m_next_bit v)).
Lemma freshb_fresh v : freshb v = true → fresh v.
Proof.
  unfold freshb. rewrite andb_true_iff, Z.leb_le, forallb_forall. intros [H0 Hb]. split; [done|]. intros k Hk.
  apply negb_true_iff, Hb, list_elem_of_In, elem_of_seqZ. lia.
Qed.

Lemma siblings_incomparable_witness : sibling_of DramUserPool DramApplicationPool DramAppletPool ∧
  sibling_of Kernel KernelCode KernelStack.
Proof.
  split.
  - apply (proj1 (siblings_incomparable DramUserPool (freshb_fresh DramUserPool eq_refl)) 4%nat 0%nat 1%nat); done.
  - apply (proj2 (siblings_incomparable Kernel (freshb_fresh Kernel eq_refl)) 1 4 0 1); done.
Defined.
End siblings.
End RegionType.
