(* ===== verification/InitPageTableEdit.v ===== *)
(** * Editing the start-up page table

    The operations of [KInitialPageTable] (libmesosphere,
    [arch/host/init/kern_k_init_page_table.hpp]) that change entries in place:
    [UnmapTtbr0Entries], [Reprotect] and the exchange of physical blocks behind
    [PhysicallyRandomize].  Barriers and cache maintenance have no effect on the
    state. *)

From S2P Require Import Prelude Vapours TinyMT PageTableEntry InitPageTable InitAllocator.

Module InitPTEdit.
Import PTE Util InitPT InitAlloc.

(** [n] entries from [entry] on become [InvalidPageTableEntry]. *)
Fixpoint clear_run (n : nat) (entry : Z) (m : mem) : mem :=
  match n with O => m | S n' => clear_run n' (u64 (entry + 8)) (<[entry := InvalidPageTableEntry]> m) end.

(** ** [UnmapTtbr0Entries] *)
Definition ShouldUnmap (e : Z) : bool := negb (GetPageAttribute e =? PageAttribute_value Device_nGnRE).
Definition num_to_clear (e block_size contiguous_size : Z) : Z :=
  (if IsContiguous e then contiguous_size else block_size) / block_size.

(** The entries of a third-level table from [l3_index] on: how many remain. *)
Fixpoint unmap_l3 (fuel : nat) (off l3_table l3_index remaining_l3_entries : Z) (m : mem) : res (Z * mem) :=
  if negb (l3_index <? MaxPageTableEntries) then Ok (remaining_l3_entries, m) else
  match fuel with
  | O => Err OutOfFuel
  | S fuel' =>
      let l3_entry := slot off l3_table l3_index in
      let e := ld m l3_entry in
      if L3_IsBlock e then
        let n := num_to_clear e L3BlockSize L3ContiguousBlockSize in
        if ShouldUnmap e then unmap_l3 fuel' off l3_table (l3_index + n) remaining_l3_entries (clear_run (Z.to_nat n) l3_entry m)
        else unmap_l3 fuel' off l3_table (l3_index + n) (remaining_l3_entries + n) m
      else unmap_l3 fuel' off l3_table (l3_index + 1) remaining_l3_entries m
  end.

(** The second level: a table that became empty is taken out. *)
Fixpoint unmap_l2 (fuel : nat) (off l2_table l2_index remaining_l2_entries : Z) (m : mem) : res (Z * mem) :=
  if negb (l2_index <? MaxPageTableEntries) then Ok (remaining_l2_entries, m) else
  match fuel with
  | O => Err OutOfFuel
  | S fuel' =>
      let l2_entry := slot off l2_table l2_index in
      let e := ld m l2_entry in
      if IsBlock e then
        let n := num_to_clear e L2BlockSize L2ContiguousBlockSize in
        if ShouldUnmap e then unmap_l2 fuel' off l2_table (l2_index + n) remaining_l2_entries (clear_run (Z.to_nat n) l2_entry m)
        else unmap_l2 fuel' off l2_table (l2_index + n) (remaining_l2_entries + n) m
      else if IsTable e then
        '(remaining_l3_entries, m3) ← unmap_l3 (Z.to_nat MaxPageTableEntries) off (GetTable e) 0 0 m;
        if remaining_l3_entries =? 0 then
          unmap_l2 fuel' off l2_table (l2_index + 1) remaining_l2_entries (<[l2_entry := InvalidPageTableEntry]> m3)
        else unmap_l2 fuel' off l2_table (l2_index + 1) (remaining_l2_entries + 1) m3
      else unmap_l2 fuel' off l2_table (l2_index + 1) remaining_l2_entries m
  end.

(** One entry of the first level, and the loop over [l1_index]. *)
Definition unmap_l1_entry (off l1_entry : Z) (m : mem) : res mem :=
  let e := ld m l1_entry in
  if IsBlock e then Ok (if ShouldUnmap e then <[l1_entry := InvalidPageTableEntry]> m else m)
  else if IsTable e then
    '(remaining_l2_entries, m2) ← unmap_l2 (Z.to_nat MaxPageTableEntries) off (GetTable e) 0 0 m;
    Ok (if remaining_l2_entries =? 0 then <[l1_entry := InvalidPageTableEntry]> m2 else m2)
  else Ok m.
Fixpoint unmap_l1 (n : nat) (off l1_table l1_index : Z) (m : mem) : res mem :=
  match n with
  | O => Ok m
  | S n' => m1 ← unmap_l1_entry off (slot off l1_table l1_index) m; unmap_l1 n' off l1_table (l1_index + 1) m1
  end.
Definition UnmapTtbr0Entries (pt : KInitialPageTable) (off : Z) (m : mem) : res mem :=
  unmap_l1 (Z.to_nat (fst (m_num_entries pt))) off (fst (m_l1_tables pt)) 0 m.

(** ** [Reprotect] *)
Definition IsCompatibleWithAttribute (c : cursor) (e attr_before : Z) (contig : bool) : bool :=
  match c with
  | At1 _ => L1_IsCompatibleWithAttribute e attr_before SoftwareReservedBit_None contig
  | At2 _ => L2_IsCompatibleWithAttribute e attr_before SoftwareReservedBit_None contig
  | At3 _ => L3_IsCompatibleWithAttribute e attr_before SoftwareReservedBit_None contig
  end.
Definition NewBlock (c : cursor) (phys_addr attr : Z) (contig : bool) : Z :=
  match c with
  | At3 _ => L3BlockEntry phys_addr attr SoftwareReservedBit_None contig
  | _ => BlockEntry phys_addr attr SoftwareReservedBit_None contig
  end.

(** The first loop of a block: each entry is checked and invalidated. *)
Fixpoint invalidate_run (n : nat) (c : cursor) (entry attr_before : Z) (contig : bool) (m : mem) : res mem :=
  match n with
  | O => Ok m
  | S n' =>
      _ ← check (IsCompatibleWithAttribute c (ld m entry) attr_before contig) Aborted;
      invalidate_run n' c (u64 (entry + 8)) attr_before contig (<[entry := InvalidPageTableEntry]> m)
  end.
(** The second: the entries of the new block. *)
Fixpoint create_run (n : nat) (c : cursor) (entry block attr_after : Z) (contig : bool) (m : mem) : mem :=
  match n with
  | O => m
  | S n' => create_run n' c (u64 (entry + 8)) (u64 (block + unit_size c)) attr_after contig (<[entry := NewBlock c block attr_after contig]> m)
  end.

(** One turn: the block at [virt_addr], of whatever level, and its size.  A first-level
    entry is never taken as contiguous. *)
Definition reprotect_step (pt : KInitialPageTable) (virt_addr size attr_before attr_after : Z) (m : mem) : res (Z * mem) :=
  let c := descend pt 0 m virt_addr in
  let e := ld m (entry_of c) in
  _ ← check (is_block c e) Aborted;
  let block := GetBlock c e in
  let contig := match c with At1 _ => false | _ => IsContiguous e end in
  let n := if contig then 16%nat else 1%nat in
  let block_size := Z.of_nat n * unit_size c in
  _ ← check (IsAligned virt_addr block_size) Aborted;
  _ ← check (match c with At1 _ => true | _ => IsAligned block block_size end) Aborted;
  _ ← check (block_size <=? size) Aborted;
  m1 ← invalidate_run n c (entry_of c) attr_before contig m;
  Ok (block_size, create_run n c (entry_of c) block attr_after contig m1).
Fixpoint reprotect_loop (fuel : nat) (pt : KInitialPageTable) (virt_addr size attr_before attr_after : Z) (m : mem) : res mem :=
  if negb (0 <? size) then Ok m else
  match fuel with
  | O => Err OutOfFuel
  | S fuel' =>
      '(done, m') ← reprotect_step pt virt_addr size attr_before attr_after m;
      reprotect_loop fuel' pt (u64 (virt_addr + done)) (u64 (size - done)) attr_before attr_after m'
  end.
Definition Reprotect (pt : KInitialPageTable) (virt_addr size attr_before attr_after : Z) (m : mem) : res mem :=
  _ ← check (IsAligned virt_addr PageSize) Aborted;
  _ ← check (IsAligned size PageSize) Aborted;
  reprotect_loop (Z.to_nat (size / PageSize)) pt virt_addr size attr_before attr_after m.

(** ** [SwapBlocks] and [PhysicallyRandomize] *)

(** The words of two blocks change places, 0x100 bytes at a time through [tmp]. *)
Fixpoint swap_words (n : nat) (a b : Z) (m : mem) : mem :=
  match n with
  | O => m
  | S n' =>
      let x := ld m a in
      let m1 := <[a := ld m b]> m in
      swap_words n' (u64 (a + 8)) (u64 (b + 8)) (<[b := x]> m1)
  end.
Fixpoint swap_entries (n : nat) (src_entry dst_entry copy_src_addr copy_dst_addr src_attr_val dst_attr_val step : Z) (m : mem) : mem :=
  match n with
  | O => m
  | S n' =>
      let m1 := <[src_entry := Z.lor copy_dst_addr src_attr_val]> m in
      let m2 := <[dst_entry := Z.lor copy_src_addr dst_attr_val]> m1 in
      swap_entries n' (u64 (src_entry + 8)) (u64 (dst_entry + 8)) (u64 (copy_src_addr + step)) (u64 (copy_dst_addr + step))
        src_attr_val dst_attr_val step m2
  end.
Definition SwapBlocks (pt : KInitialPageTable) (src_virt_addr dst_virt_addr block_size : Z) (do_copy : bool) (m : mem) : res mem :=
  let contig := (block_size =? L2ContiguousBlockSize) || (block_size =? L3ContiguousBlockSize) in
  let num_mappings := if contig then Z.to_nat (L2ContiguousBlockSize / L2BlockSize) else 1%nat in
  src_entry ← GetMappingEntry pt m src_virt_addr block_size;
  let src_saved := ld m src_entry in
  let m1 := clear_run num_mappings src_entry m in
  dst_entry ← GetMappingEntry pt m1 dst_virt_addr block_size;
  let dst_saved := ld m1 dst_entry in
  let m2 := clear_run num_mappings dst_entry m1 in
  let offset_mask := Z.land (u64 (- block_size)) (2 ^ 48 - 1) in
  let copy_src_addr := Z.land src_saved offset_mask in
  let copy_dst_addr := Z.land dst_saved offset_mask in
  let m3 := if do_copy then swap_words (Z.to_nat (block_size / 8)) copy_src_addr copy_dst_addr m2 else m2 in
  let attr_preserve_mask := Z.lor (block_size - 1) 0xFFFF000000000000 in
  let step := if contig then Z.shiftr block_size 4 else block_size in
  Ok (swap_entries num_mappings src_entry dst_entry copy_src_addr copy_dst_addr
        (Z.land src_saved attr_preserve_mask) (Z.land dst_saved attr_preserve_mask) step m3).

Section randomize.
Context (fuel : nat) (tick : Z).

(** [PhysicallyRandomize] for one block size: an exchange with a later block for
    each block, chosen by the generator of [KSystemControl]. *)
Fixpoint randomize_loop (n : nat) (pt : KInitialPageTable) (virt_addr size block_size cur_block block_count : Z) (do_copy : bool)
    (x : mem * option TinyMT.State) : res (mem * option TinyMT.State) :=
  match n with
  | O => Ok x
  | S n' =>
      let '(m, rng) := x in
      '(target_block, rng') ← GenerateRandomRange fuel tick cur_block (block_count - 1) rng;
      m' ← (if negb (cur_block =? target_block) then
              cur_virt_addr ← GetBlockByIndex pt m virt_addr size block_size cur_block;
              target_virt_addr ← GetBlockByIndex pt m virt_addr size block_size target_block;
              _ ← check (negb (cur_virt_addr =? 0)) Aborted;
              _ ← check (negb (target_virt_addr =? 0)) Aborted;
              SwapBlocks pt cur_virt_addr target_virt_addr block_size do_copy m
            else Ok m);
      randomize_loop n' pt virt_addr size block_size (cur_block + 1) block_count do_copy (m', rng')
  end.
Definition PhysicallyRandomize_size (pt : KInitialPageTable) (virt_addr size block_size : Z) (do_copy : bool)
    (x : mem * option TinyMT.State) : res (mem * option TinyMT.State) :=
  block_count ← GetBlockCount pt (fst x) virt_addr size block_size;
  if 1 <? block_count then randomize_loop (Z.to_nat block_count) pt virt_addr size block_size 0 block_count do_copy x
  else Ok x.
Definition PhysicallyRandomize (pt : KInitialPageTable) (virt_addr size : Z) (do_copy : bool)
    (x : mem * option TinyMT.State) : res (mem * option TinyMT.State) :=
  x1 ← PhysicallyRandomize_size pt virt_addr size L1BlockSize do_copy x;
  x2 ← PhysicallyRandomize_size pt virt_addr size L2ContiguousBlockSize do_copy x1;
  x3 ← PhysicallyRandomize_size pt virt_addr size L2BlockSize do_copy x2;
  x4 ← PhysicallyRandomize_size pt virt_addr size L3ContiguousBlockSize do_copy x3;
  PhysicallyRandomize_size pt virt_addr size L3BlockSize do_copy x4.
End randomize.

End InitPTEdit.
