(* ===== verification/InitPageTableUnmap.v ===== *)
(** * Removing the identity mapping

    [UnmapTtbr0Entries] walks the tables of the lower half: it clears every block that
    is not device memory, whole contiguous runs at a time, and takes out the tables
    that became empty.  The walk ends, and translates afterwards exactly the device
    memory of the lower half and all of the upper half. *)

From S2P Require Import Prelude Vapours TinyMT PageTableEntry InitPageTable InitPageTableSpec InitPageTableMap InitAllocator InitPageTableEdit.

Module InitPTUnmap.
Import PTE Util InitPT InitPTSpec InitPTMap InitPTEdit.

Lemma block_not_table e : IsBlock e = true → IsTable e = false.
Proof. unfold IsBlock, IsTable. intros ->%Z.eqb_eq. done. Qed.

Section unmap.
Context (off : Z).
Implicit Types (m : mem) (t k j e r w : Z) (B : Z → bool).

(** A block that [UnmapTtbr0Entries] leaves. *)
Definition keep (x : level * Z) : option (level * Z) := if ShouldUnmap (snd x) then None else Some x.

(** ** Runs *)
Abbreviation entry m t k := (ld m (slot off t k)).
Definition contig B e : bool := B e && IsContiguous e.

(** From [k] on, contiguous runs are whole, and of one kind of memory. *)
Record tidy B m t k : Prop := {
  tidy_start : k < 512 → contig B (entry m t k) = true → k mod 16 = 0;
  tidy_run i j : k ≤ i < 512 → k ≤ j < 512 → i / 16 = j / 16 → contig B (entry m t i) = true →
    contig B (entry m t j) = true ∧ ShouldUnmap (entry m t j) = ShouldUnmap (entry m t i);
}.

Definition run_length B e : Z := if contig B e then 16 else 1.

Lemma tidy_step B m m1 t k : 0 ≤ k < 512 → tidy B m t k → let n := run_length B (entry m t k) in
  (∀ j, k + n ≤ j < 512 → entry m1 t j = entry m t j) →
  k + n ≤ 512 ∧ tidy B m1 t (k + n) ∧
  ∀ j, k ≤ j < k + n → B (entry m t j) = B (entry m t k) ∧ ShouldUnmap (entry m t j) = ShouldUnmap (entry m t k).
Proof.
  intros Hk [Hst Hrun] n Hsame. unfold n, run_length in *. destruct (contig B (entry m t k)) eqn:Hc.
  - specialize (Hst ltac:(lia) eq_refl). assert (k + 16 ≤ 512) by (Z.to_euclidean_division_equations; lia).
    split; [done|]. split; [split|].
    + intros Hlt _. rewrite Z.add_mod, Hst by lia. done.
    + intros i j Hi Hj Hg. rewrite !Hsame by lia. apply Hrun; lia || done.
    + intros j Hj. destruct (Hrun k j) as [Hcj Hu]; [lia|lia|Z.to_euclidean_division_equations; lia|done|].
      unfold contig in Hc, Hcj. apply andb_true_iff in Hc as [-> _], Hcj as [-> _]. done.
  - split; [lia|]. split; [split|].
    + intros Hlt. rewrite Hsame by lia. intros Hc'. destruct (decide ((k + 1) mod 16 = 0)) as [|Hne]; [done|]. exfalso.
      destruct (Hrun (k + 1) k) as [E _]; [lia|lia|Z.to_euclidean_division_equations; lia|done|]. congruence.
    + intros i j Hi Hj Hg. rewrite !Hsame by lia. apply Hrun; lia || done.
    + intros j Hj. assert (j = k) as -> by lia. done.
Qed.

Lemma num_to_clear_run B e bs : B e = true → 0 < bs → num_to_clear e bs (16 * bs) = run_length B e.
Proof.
  intros HB Hbs. unfold num_to_clear, run_length, contig. rewrite HB. destruct (IsContiguous e); cbn [andb]; [apply Z.div_mul; lia|apply Z.div_same; lia].
Qed.

Lemma clear_run_lookup n t k m w : clear_run n (slot off t k) m !! w =
  if bool_decide (Exists (λ j : nat, slot off t (k + Z.of_nat j) = w) (seq 0 n)) then Some InvalidPageTableEntry else m !! w.
Proof.
  revert k m. induction n as [|n IH]; intros k m; [done|]. cbn [clear_run].
  assert (u64 (slot off t k + 8) = slot off t (k + 1)) as -> by (unfold slot; rewrite wrap_add_l; f_equal; lia). rewrite IH.
  assert (Exists (λ j : nat, slot off t (k + Z.of_nat j) = w) (seq 0 (S n)) ↔
    slot off t k = w ∨ Exists (λ j : nat, slot off t (k + 1 + Z.of_nat j) = w) (seq 0 n)) as E.
  { cbn [seq]. rewrite Exists_cons, Z.add_0_r. f_equiv. rewrite !Exists_exists. split.
    - intros (j & Hj & E). apply elem_of_seq in Hj. exists (j - 1)%nat. split; [apply elem_of_seq; lia|].
      by replace (k + 1 + Z.of_nat (j - 1)) with (k + Z.of_nat j) by lia.
    - intros (j & Hj & E). apply elem_of_seq in Hj. exists (S j). split; [apply elem_of_seq; lia|].
      by replace (k + Z.of_nat (S j)) with (k + 1 + Z.of_nat j) by lia. }
  rewrite (bool_decide_ext _ _ E). case_bool_decide as H1.
  - rewrite bool_decide_true by (by right). done.
  - destruct (decide (slot off t k = w)) as [<-|Hne].
    + rewrite lookup_insert_eq. by rewrite bool_decide_true by (by left).
    + rewrite lookup_insert_ne by done. by rewrite bool_decide_false by (by intros [|]).
Qed.

(** A run of [n] entries cleared: its entries, and all other words. *)
Lemma clear_run_in n t k m j : 0 ≤ n → k ≤ j < k + n → entry (clear_run (Z.to_nat n) (slot off t k) m) t j = InvalidPageTableEntry.
Proof.
  intros Hn Hj. unfold ld. rewrite clear_run_lookup, bool_decide_true; [done|]. apply Exists_exists. exists (Z.to_nat (j - k)).
  split; [apply elem_of_seq; lia|]. f_equal. lia.
Qed.
Lemma clear_run_out n t k m w : 0 ≤ n → (∀ j, k ≤ j < k + n → w ≠ slot off t j) → clear_run (Z.to_nat n) (slot off t k) m !! w = m !! w.
Proof.
  intros Hn Hw. rewrite clear_run_lookup, bool_decide_false; [done|]. intros (j & Hj & E)%Exists_exists. apply elem_of_seq in Hj.
  by apply (Hw (k + Z.of_nat j)); [lia|].
Qed.

Lemma ld_eq m m' w : m' !! w = m !! w → ld m' w = ld m w.
Proof. unfold ld. by intros ->. Qed.

Lemma slot_ne t k j : phys_ok 12 t → 0 ≤ k < 512 → 0 ≤ j < 512 → k ≠ j → slot off t k ≠ slot off t j.
Proof. intros Ht Hk Hj Hne E. apply slot_inj in E as [_ ->]; done. Qed.

(** ** Sweeping a table

    What lies below the entries of one level: the words of the tables there, and the
    block found along the remaining indices. *)
Section sweep.
Context {K : Type} (valid : K → Prop) (l : level) (B : Z → bool).
Context (below : mem → Z → Z → Prop) (down : mem → Z → K → option (level * Z)).
Implicit Types (x : K).

Record level_ok : Prop := {
  lo_local m m' e : (∀ w, below m e w → m' !! w = m !! w) →
    (∀ x, valid x → down m' e x = down m e x) ∧ ∀ w, below m' e w ↔ below m e w;
  lo_block m e x : B e = true → down m e x = Some (l, e);
  lo_leaf m e w : B e = true ∨ e = InvalidPageTableEntry → ¬ below m e w;
  lo_invalid m x : down m InvalidPageTableEntry x = None;
}.
Context (Hlevel : level_ok).

Definition look m t j x : option (level * Z) := down m (entry m t j) x.

(** Words below different entries are different, and none is in the table itself. *)
Record apart m t lo hi : Prop := {
  ap_phys : phys_ok 12 t;
  ap_range : 0 ≤ lo ∧ hi ≤ 512;
  ap_slot j i : lo ≤ j < hi → 0 ≤ i < 512 → ¬ below m (entry m t j) (slot off t i);
  ap_inj i j w : lo ≤ i < hi → lo ≤ j < hi → below m (entry m t i) w → below m (entry m t j) w → i = j;
}.

(** From [lo] to [hi] exactly the device blocks are left, and none at all if [Z]. *)
Record swept m m' t lo hi (Z : Prop) : Prop := {
  sw_look j x : lo ≤ j < hi → valid x → look m' t j x = look m t j x ≫= keep;
  sw_none : Z → ∀ j x, lo ≤ j < hi → valid x → look m' t j x = None;
  sw_below j w : lo ≤ j < hi → below m' (entry m' t j) w → below m (entry m t j) w;
  sw_out w : (∀ j, lo ≤ j < hi → w ≠ slot off t j ∧ ¬ below m (entry m t j) w) → m' !! w = m !! w;
}.

(** What a sweep of [a, b) leaves as it was. *)
Lemma swept_same m m' t lo hi a b Z j : apart m t lo hi → swept m m' t a b Z → lo ≤ a → b ≤ hi → lo ≤ j < hi → ¬ (a ≤ j < b) →
  entry m' t j = entry m t j ∧ (∀ x, valid x → look m' t j x = look m t j x) ∧
  (∀ w, below m' (entry m' t j) w ↔ below m (entry m t j) w) ∧ ∀ w, below m (entry m t j) w → m' !! w = m !! w.
Proof using Hlevel.
  intros [Hp Hr Hs Hi] [_ _ _ Hout] Ha Hb Hj Hn.
  assert (entry m' t j = entry m t j) as E.
  { apply ld_eq, Hout. intros i Hi'. split; [apply slot_ne; [done|lia..]|]. apply Hs; lia. }
  assert (∀ w, below m (entry m t j) w → m' !! w = m !! w) as Hsame.
  { intros w Hw. apply Hout. intros i Hi'. split.
    - intros ->. by apply (Hs j i); [lia..|].
    - intros Hw'. assert (i = j) by (apply (Hi i j w); [lia..|done|done]). lia. }
  destruct (lo_local Hlevel m m' (entry m t j) Hsame) as [H1 H2]. unfold look. rewrite E. done.
Qed.

Lemma apart_after m m' t lo mid hi Z : apart m t lo hi → swept m m' t lo mid Z → lo ≤ mid ≤ hi → apart m' t lo hi.
Proof using Hlevel.
  intros Hap Hsw Hm. pose proof Hap as [Hp Hr Hs Hi].
  assert (∀ j w, lo ≤ j < hi → below m' (entry m' t j) w → below m (entry m t j) w) as Hb.
  { intros j w Hj Hw. destruct (decide (j < mid)); [apply (sw_below _ _ _ _ _ _ Hsw); [lia|done]|].
    destruct (swept_same m m' t lo hi lo mid Z j) as (_ & _ & E & _); try done; try lia. by apply E. }
  split; [done|done| |].
  - intros j i Hj Hi' Hw. apply (Hs j i); [done|done|]. by apply Hb.
  - intros i j w Hi1 Hj1 H1 H2. apply (Hi i j w); auto.
Qed.

Lemma swept_trans m m1 m' t lo mid hi Z1 Z2 : apart m t lo hi → lo ≤ mid ≤ hi →
  swept m m1 t lo mid Z1 → swept m1 m' t mid hi Z2 → swept m m' t lo hi (Z1 ∧ Z2).
Proof using Hlevel.
  intros Hap Hm H1 H2. pose proof (apart_after _ _ _ _ _ _ _ Hap H1 Hm) as Hap1.
  assert (∀ j, mid ≤ j < hi → entry m1 t j = entry m t j ∧ (∀ x, valid x → look m1 t j x = look m t j x) ∧
    ∀ w, below m1 (entry m1 t j) w ↔ below m (entry m t j) w) as Hlate.
  { intros j Hj. destruct (swept_same m m1 t lo hi lo mid Z1 j) as (? & ? & ? & _); try done; lia. }
  assert (∀ j, lo ≤ j < mid → entry m' t j = entry m1 t j ∧ (∀ x, valid x → look m' t j x = look m1 t j x) ∧
    ∀ w, below m' (entry m' t j) w ↔ below m1 (entry m1 t j) w) as Hearly.
  { intros j Hj. destruct (swept_same m1 m' t lo hi mid hi Z2 j) as (? & ? & ? & _); try done; lia. }
  split.
  - intros j x Hj Hx. destruct (decide (j < mid)).
    + destruct (Hearly j ltac:(lia)) as (_ & E & _). rewrite E by done. apply H1; [lia|done].
    + rewrite (sw_look _ _ _ _ _ _ H2) by (done || lia). destruct (Hlate j ltac:(lia)) as (_ & E & _). by rewrite E.
  - intros [Hz1 Hz2] j x Hj Hx. destruct (decide (j < mid)).
    + destruct (Hearly j ltac:(lia)) as (_ & E & _). rewrite E by done. apply H1; [done|lia|done].
    + apply H2; [done|lia|done].
  - intros j w Hj Hw. destruct (decide (j < mid)).
    + apply H1; [lia|]. by apply (Hearly j ltac:(lia)).
    + apply (Hlate j ltac:(lia)), H2; [lia|done].
  - intros w Hw. rewrite (sw_out _ _ _ _ _ _ H2).
    + apply H1. intros j Hj. apply Hw. lia.
    + intros j Hj. destruct (Hw j ltac:(lia)) as [? Hb]. split; [done|]. intros Hb'. by apply Hb, (Hlate j ltac:(lia)).
Qed.

Lemma swept_weaken m m' t lo hi (Z1 Z2 : Prop) : (Z2 → Z1) → swept m m' t lo hi Z1 → swept m m' t lo hi Z2.
Proof. intros Hz [H1 H2 H3 H4]. split; auto. Qed.

Lemma swept_nothing m t lo hi Z : hi ≤ lo → swept m m t lo hi Z.
Proof. intros Hl. split; try (intros; lia). done. Qed.

(** The three kinds of steps: a run that is cleared, one that stays, an entry that
    maps nothing. *)
Lemma run_cleared m t k : apart m t k 512 → k < 512 → tidy B m t k → B (entry m t k) = true → ShouldUnmap (entry m t k) = true →
  let n := run_length B (entry m t k) in
  swept m (clear_run (Z.to_nat n) (slot off t k) m) t k (k + n) True.
Proof using Hlevel.
  intros [Hp Hr _ _] Hk Hti HB HU n. assert (1 ≤ n) as Hn by (unfold n, run_length; destruct (contig _ _); lia).
  destruct (tidy_step B m m t k ltac:(lia) Hti ltac:(done)) as (Hn2 & _ & Hall). fold n in Hn2, Hall.
  assert (∀ j, k ≤ j < k + n → entry (clear_run (Z.to_nat n) (slot off t k) m) t j = InvalidPageTableEntry) as Hz
    by (intros; apply clear_run_in; lia).
  split.
  - intros j x Hj Hx. unfold look. rewrite Hz, (lo_invalid Hlevel) by done. destruct (Hall j Hj) as [E1 E2].
    rewrite (lo_block Hlevel) by congruence. simpl. unfold keep. cbn [snd]. by rewrite E2, HU.
  - intros _ j x Hj Hx. unfold look. by rewrite Hz, (lo_invalid Hlevel).
  - intros j w Hj. rewrite Hz by done. intros Hw. exfalso. eapply (lo_leaf Hlevel); [by right|exact Hw].
  - intros w Hw. apply clear_run_out; [lia|]. intros j Hj. by apply Hw.
Qed.

Lemma run_kept m t k : 0 ≤ k < 512 → tidy B m t k → B (entry m t k) = true → ShouldUnmap (entry m t k) = false →
  swept m m t k (k + run_length B (entry m t k)) False.
Proof using Hlevel.
  intros Hk Hti HB HU. destruct (tidy_step B m m t k Hk Hti ltac:(done)) as (_ & _ & Hall).
  split; [|done|done|done]. intros j x Hj Hx. destruct (Hall j Hj) as [E1 E2]. unfold look.
  rewrite (lo_block Hlevel) by congruence. simpl. unfold keep. cbn [snd]. by rewrite E2, HU.
Qed.

Lemma entry_cleared m t k : phys_ok 12 t → B (entry m t k) = true → ShouldUnmap (entry m t k) = true →
  swept m (<[slot off t k := InvalidPageTableEntry]> m) t k (k + 1) True.
Proof using Hlevel.
  intros Hp HB HU. split; [|intros _|..]; try (intros j x Hj; assert (j = k) as -> by lia; unfold look; rewrite ld_insert, decide_True by done).
  - intros _. rewrite (lo_invalid Hlevel), (lo_block Hlevel) by done. simpl. unfold keep. cbn [snd]. by rewrite HU.
  - intros _. apply (lo_invalid Hlevel).
  - intros Hw. exfalso. eapply (lo_leaf Hlevel); [by right|exact Hw].
  - intros w Hw. apply lookup_insert_ne, not_eq_sym, Hw. lia.
Qed.

Lemma entry_kept m t k : B (entry m t k) = true → ShouldUnmap (entry m t k) = false → swept m m t k (k + 1) False.
Proof using Hlevel.
  intros HB HU. split; [|done|done|done]. intros j x Hj _. assert (j = k) as -> by lia. unfold look.
  rewrite (lo_block Hlevel) by done. simpl. unfold keep. cbn [snd]. by rewrite HU.
Qed.

Lemma entry_skipped m t k : (∀ x, down m (entry m t k) x = None) → swept m m t k (k + 1) True.
Proof.
  intros Hd. split; [|intros _|done|done]; intros j x Hj Hx; assert (j = k) as -> by lia; unfold look; by rewrite Hd.
Qed.
End sweep.

(** ** A level above another *)
Section parent.
Context {K : Type} (valid : K → Prop) (l : level) (B : Z → bool).
Context (below : mem → Z → Z → Prop) (down : mem → Z → K → option (level * Z)) (Hchild : level_ok valid l B below down).
Context (lp : level).

Definition pvalid (x : Z * K) : Prop := 0 ≤ fst x < 512 ∧ valid (snd x).
Definition pbelow m e w : Prop :=
  IsTable e = true ∧ ∃ i, 0 ≤ i < 512 ∧ (w = slot off (GetTable e) i ∨ below m (entry m (GetTable e) i) w).
Definition pdown m e (x : Z * K) : option (level * Z) :=
  if IsTable e then look down m (GetTable e) (fst x) (snd x) else if IsBlock e then Some (lp, e) else None.

(** When the words below an entry stay, so do the entries of its table and what is below them. *)
Lemma below_same m m' e : IsTable e = true → (∀ w, pbelow m e w → m' !! w = m !! w) → ∀ i, 0 ≤ i < 512 →
  entry m' (GetTable e) i = entry m (GetTable e) i ∧ ∀ w, below m (entry m (GetTable e) i) w → m' !! w = m !! w.
Proof.
  intros He Hs i Hi. split; [apply ld_eq, Hs; split; [done|]; exists i; auto|]. intros w Hw. apply Hs. split; [done|]. exists i. auto.
Qed.

Lemma parent_ok : level_ok pvalid lp IsBlock pbelow pdown.
Proof using Hchild.
  split.
  - intros m m' e Hs. unfold pdown, pbelow. destruct (IsTable e) eqn:He; [|split; [done|naive_solver]].
    assert (∀ i, 0 ≤ i < 512 → entry m' (GetTable e) i = entry m (GetTable e) i ∧
      (∀ x, valid x → down m' (entry m (GetTable e) i) x = down m (entry m (GetTable e) i) x) ∧
      ∀ w, below m' (entry m (GetTable e) i) w ↔ below m (entry m (GetTable e) i) w) as Hi.
    { intros i Hi. destruct (below_same m m' e He Hs i Hi) as [E Hb]. split; [done|]. by apply (lo_local _ _ _ _ _ Hchild). }
    split.
    + intros [k x] [Hk Hx]. unfold look. cbn [fst snd] in *. destruct (Hi k Hk) as (-> & E & _). by apply E.
    + intros w. split; intros [_ (i & Hi' & Hw)]; (split; [done|]); exists i; (split; [done|]);
        destruct (Hi i Hi') as (E & _ & Hb); rewrite E in *; by rewrite Hb in *.
  - intros m e x HB. unfold pdown. by rewrite (block_not_table e HB), HB.
  - intros m e w [HB| ->] [He _]; [|done]. apply block_not_table in HB. congruence.
  - done.
Qed.

(** The table of an entry is swept; it may be taken out when it is empty. *)
Lemma table_swept m m1 t k Z : apart pbelow m t k (k + 1) → IsTable (entry m t k) = true →
  swept valid below down m m1 (GetTable (entry m t k)) 0 512 Z →
  swept pvalid pbelow pdown m m1 t k (k + 1) Z ∧
  (Z → swept pvalid pbelow pdown m (<[slot off t k := InvalidPageTableEntry]> m1) t k (k + 1) True).
Proof using Hchild.
  intros [Hp Hr Hsl _] He [Hlook Hnone Hbel Hout]. set (e := entry m t k) in *.
  assert (entry m1 t k = e) as Ek.
  { apply ld_eq, Hout. intros j Hj. split; intros Hw; apply (Hsl k k); [lia|lia| |lia|lia|]; (split; [done|]); exists j; (split; [done|]); auto. }
  assert (∀ w, pbelow m1 e w → pbelow m e w) as Hb.
  { intros w [_ (i & Hi & [->|Hw])]; (split; [done|]); exists i; (split; [done|]); [by left|right]. by apply Hbel. }
  assert (∀ x, pvalid x → look pdown m1 t k x = look pdown m t k x ≫= keep) as Hl.
  { intros [k2 x] [Hk2 Hx]. unfold look at 1 2. rewrite Ek. fold e. unfold pdown. rewrite He. by apply Hlook. }
  assert (∀ w, (∀ j, k ≤ j < k + 1 → w ≠ slot off t j ∧ ¬ pbelow m (entry m t j) w) → m1 !! w = m !! w) as Ho.
  { intros w Hw. apply Hout. intros j Hj. destruct (Hw k ltac:(lia)) as [_ Hn]. fold e in Hn.
    split; [intros ->; apply Hn; split; [done|]; exists j; auto|]. intros Hj'. apply Hn. split; [done|]. exists j. auto. }
  assert (Z → ∀ x, pvalid x → look pdown m1 t k x = None) as Hz.
  { intros Hz [k2 x] [Hk2 Hx]. unfold look. rewrite Ek. unfold pdown. rewrite He. by apply Hnone. }
  split; [split|intros HZ; split].
  - intros j x Hj. assert (j = k) as -> by lia. apply Hl.
  - intros HZ j x Hj. assert (j = k) as -> by lia. by apply Hz.
  - intros j w Hj. assert (j = k) as -> by lia. rewrite Ek. apply Hb.
  - exact Ho.
  - intros j x Hj Hx. assert (j = k) as -> by lia. rewrite <- (Hl x Hx), (Hz HZ x Hx). unfold look. rewrite ld_insert, decide_True by done. done.
  - intros _ j x Hj _. assert (j = k) as -> by lia. unfold look. rewrite ld_insert, decide_True by done. done.
  - intros j w Hj. assert (j = k) as -> by lia. rewrite ld_insert, decide_True by done. by intros [? _].
  - intros w Hw. rewrite lookup_insert_ne; [by apply Ho|]. apply not_eq_sym. apply Hw. lia.
Qed.
End parent.

(** ** The three levels *)
Definition valid3 (_ : unit) : Prop := True.
Definition below3 m e w : Prop := False.
Definition down3 m e (_ : unit) : option (level * Z) := if L3_IsBlock e then Some (L3, e) else None.
Definition valid2 : Z * unit → Prop := pvalid valid3.
Definition below2 : mem → Z → Z → Prop := pbelow below3.
Definition down2 : mem → Z → Z * unit → option (level * Z) := pdown down3 L2.
Definition valid1 : Z * (Z * unit) → Prop := pvalid valid2.
Definition below1 : mem → Z → Z → Prop := pbelow below2.
Definition down1 : mem → Z → Z * (Z * unit) → option (level * Z) := pdown down2 L1.

Lemma level3_ok : level_ok valid3 L3 L3_IsBlock below3 down3.
Proof. split; [by intros m m' e _|intros m e x HB; unfold down3; by rewrite HB|by intros m e w _ []|done]. Qed.
Lemma level2_ok : level_ok valid2 L2 IsBlock below2 down2.
Proof. apply (parent_ok valid3 L3 L3_IsBlock), level3_ok. Qed.
Lemma level1_ok : level_ok valid1 L1 IsBlock below1 down1.
Proof. apply (parent_ok valid2 L2 IsBlock), level2_ok. Qed.

(** What the walk needs of the tables that are left: they are apart, and tidy. *)
Record rest3 m t k : Prop := { r3_apart : apart below3 m t k 512; r3_tidy : tidy L3_IsBlock m t k }.
Record rest2 m t k : Prop := {
  r2_apart : apart below2 m t k 512;
  r2_tidy : tidy IsBlock m t k;
  r2_below j : k ≤ j < 512 → IsTable (entry m t j) = true → rest3 m (GetTable (entry m t j)) 0;
}.
Record rest1 m t k hi : Prop := {
  r1_apart : apart below1 m t k hi;
  r1_below j : k ≤ j < hi → IsTable (entry m t j) = true → rest2 m (GetTable (entry m t j)) 0;
}.

Lemma tidy_ext B m m1 t : (∀ i, 0 ≤ i < 512 → entry m1 t i = entry m t i) → tidy B m t 0 → tidy B m1 t 0.
Proof. intros E [H1 H2]. split; [rewrite E by lia; auto|]. intros i j Hi Hj. rewrite !E by lia. auto. Qed.

Lemma rest3_ext m m1 t : (∀ i, 0 ≤ i < 512 → entry m1 t i = entry m t i) → rest3 m t 0 → rest3 m1 t 0.
Proof. intros E [[Hp Hr _ _] Ht]. split; [split; [done|done|by intros ???? []|by intros ????? []]|by eapply tidy_ext]. Qed.

Lemma rest2_ext m m1 e : IsTable e = true → (∀ w, below1 m e w → m1 !! w = m !! w) → rest2 m (GetTable e) 0 → rest2 m1 (GetTable e) 0.
Proof.
  intros He Hs [[Hp Hr Hsl Hin] Ht Hbel].
  assert (∀ i, 0 ≤ i < 512 → entry m1 (GetTable e) i = entry m (GetTable e) i ∧
    ∀ w, below2 m (entry m (GetTable e) i) w → m1 !! w = m !! w) as Hi by (by apply (below_same below2)).
  assert (∀ i w, 0 ≤ i < 512 → below2 m1 (entry m1 (GetTable e) i) w → below2 m (entry m (GetTable e) i) w) as Hb.
  { intros i w Hi' Hw. destruct (Hi i Hi') as [E Hs']. rewrite E in Hw. by apply (lo_local _ _ _ _ _ level2_ok m m1 _ Hs'). }
  split; [split; [done|done| |]|by eapply tidy_ext; [intros i Hi'; by apply Hi|]|].
  - intros j i Hj Hi' Hw. apply (Hsl j i); [done|done|]. by apply Hb.
  - intros i j w Hi1 Hj H1 H2. apply (Hin i j w); auto.
  - intros j Hj HT. destruct (Hi j Hj) as [E Hs']. rewrite E in *. specialize (Hbel j Hj HT).
    eapply rest3_ext; [|exact Hbel]. intros i Hi'. by apply (below_same below3 m m1).
Qed.

(** After a step the rest is as it was. *)
Lemma apart_drop below m t lo mid hi : lo ≤ mid → apart below m t lo hi → apart below m t mid hi.
Proof. intros Hm [Hp Hr Hs Hi]. split; [done|lia| |]; [intros; apply Hs; lia|intros ??? ??; apply Hi; lia]. Qed.

Lemma rest3_after m m1 t k Z : rest3 m t k → k < 512 → let n := run_length L3_IsBlock (entry m t k) in
  swept valid3 below3 down3 m m1 t k (k + n) Z → k + n ≤ 512 ∧ rest3 m1 t (k + n).
Proof.
  intros [Hap Hti] Hk n Hsw. pose proof Hap as [Hp Hr _ _]. assert (1 ≤ n) by (unfold n, run_length; destruct (contig _ _); lia).
  destruct (tidy_step L3_IsBlock m m1 t k) as (Hn & Hti' & _); [lia|done| |].
  - intros j Hj. fold n in Hj. assert (k + n ≤ 512 ∨ 512 < k + n) as [Hl|Hl] by lia; [|lia].
    apply (swept_same valid3 L3 L3_IsBlock below3 down3 level3_ok m m1 t k 512 k (k + n) Z j); done || lia.
  - split; [done|]. split; [split; [done|lia|by intros ???? []|by intros ????? []]|done].
Qed.

Lemma rest2_after m m1 t k Z : rest2 m t k → k < 512 → let n := run_length IsBlock (entry m t k) in
  swept valid2 below2 down2 m m1 t k (k + n) Z → k + n ≤ 512 ∧ rest2 m1 t (k + n).
Proof.
  intros [Hap Hti Hbel] Hk n Hsw. pose proof Hap as [Hp Hr _ _]. assert (1 ≤ n) by (unfold n, run_length; destruct (contig _ _); lia).
  destruct (tidy_step IsBlock m m t k) as (Hn & _ & _); [lia|done|done|]. fold n in Hn.
  assert (∀ j, k + n ≤ j < 512 → entry m1 t j = entry m t j ∧ ∀ w, below2 m (entry m t j) w → m1 !! w = m !! w) as Hsame.
  { intros j Hj. destruct (swept_same valid2 L2 IsBlock below2 down2 level2_ok m m1 t k 512 k (k + n) Z j) as (? & _ & _ & ?); done || lia. }
  split; [done|]. split.
  - apply (apart_drop _ _ _ k); [lia|]. apply (apart_after valid2 L2 IsBlock below2 down2 level2_ok m m1 t k (k + n) 512 Z); done || lia.
  - apply (tidy_step IsBlock m m1 t k); [lia|done|]. intros j Hj. by apply Hsame.
  - intros j Hj. destruct (Hsame j Hj) as [-> Hs]. intros HT. eapply rest3_ext; [|apply Hbel; [lia|done]].
    intros i Hi. by apply (below_same below3 m m1).
Qed.

(** ** The loops *)
Lemma unmap_l3_spec t : ∀ fuel k r m, k ≤ 512 → 512 - k ≤ Z.of_nat fuel → rest3 m t k →
  ∃ r' m', unmap_l3 fuel off t k r m = Ok (r', m') ∧ r ≤ r' ∧ swept valid3 below3 down3 m m' t k 512 (r' = r).
Proof.
  induction fuel as [|fuel IH]; intros k r m Hk Hf Hre; cbn [unmap_l3]; change MaxPageTableEntries with 512;
    (destruct (Z.ltb_spec k 512) as [Hlt|Hge]; cbn [negb]; [|exists r, m; split; [done|]; split; [done|]; apply swept_nothing; lia]); [lia|].
  pose proof Hre as [Hap Hti]. pose proof Hap as [_ Hr _ _]. set (n := run_length L3_IsBlock (entry m t k)).
  assert (1 ≤ n) as Hn by (unfold n, run_length; destruct (contig _ _); lia).
  assert (∀ r1 m1 (Z : Prop), r ≤ r1 → (r1 = r → Z) → swept valid3 below3 down3 m m1 t k (k + n) Z →
    ∃ r' m', unmap_l3 fuel off t (k + n) r1 m1 = Ok (r', m') ∧ r ≤ r' ∧ swept valid3 below3 down3 m m' t k 512 (r' = r)) as Hgo.
  { intros r1 m1 Z Hle Hz Hsw. destruct (rest3_after m m1 t k Z Hre Hlt Hsw) as [Hn2 Hre1]. fold n in Hn2, Hre1.
    destruct (IH (k + n) r1 m1) as (r' & m' & Hrun & Hle' & Hsw'); [lia|lia|done|]. exists r', m'. split; [done|]. split; [lia|].
    eapply swept_weaken; [|by eapply (swept_trans valid3 L3 L3_IsBlock below3 down3 level3_ok m m1 m' t k (k + n) 512); [|lia|exact Hsw|exact Hsw']].
    intros ->. assert (r1 = r) by lia. auto. }
  destruct (L3_IsBlock (entry m t k)) eqn:HB.
  - change L3ContiguousBlockSize with (16 * L3BlockSize). rewrite (num_to_clear_run L3_IsBlock _ L3BlockSize HB) by done. fold n.
    destruct (ShouldUnmap (entry m t k)) eqn:HU.
    + apply (Hgo r _ True); [lia|done|]. by apply (run_cleared valid3 L3 L3_IsBlock below3 down3 level3_ok).
    + apply (Hgo (r + n) m False); [lia|lia|]. by apply (run_kept valid3 L3 L3_IsBlock below3 down3 level3_ok); [lia|..].
  - assert (n = 1) as En by (unfold n, run_length, contig; by rewrite HB). rewrite En in Hgo.
    apply (Hgo r m True); [lia|done|]. apply entry_skipped. intros x. unfold down3. by rewrite HB.
Qed.

Lemma unmap_l2_spec t : ∀ fuel k r m, k ≤ 512 → 512 - k ≤ Z.of_nat fuel → rest2 m t k →
  ∃ r' m', unmap_l2 fuel off t k r m = Ok (r', m') ∧ r ≤ r' ∧ swept valid2 below2 down2 m m' t k 512 (r' = r).
Proof.
  induction fuel as [|fuel IH]; intros k r m Hk Hf Hre; cbn [unmap_l2]; change MaxPageTableEntries with 512;
    (destruct (Z.ltb_spec k 512) as [Hlt|Hge]; cbn [negb]; [|exists r, m; split; [done|]; split; [done|]; apply swept_nothing; lia]); [lia|].
  pose proof Hre as [Hap Hti Hbel]. pose proof Hap as [_ Hr _ _]. set (n := run_length IsBlock (entry m t k)).
  assert (1 ≤ n) as Hn by (unfold n, run_length; destruct (contig _ _); lia).
  assert (∀ r1 m1 (Z : Prop), r ≤ r1 → (r1 = r → Z) → swept valid2 below2 down2 m m1 t k (k + n) Z →
    ∃ r' m', unmap_l2 fuel off t (k + n) r1 m1 = Ok (r', m') ∧ r ≤ r' ∧ swept valid2 below2 down2 m m' t k 512 (r' = r)) as Hgo.
  { intros r1 m1 Z Hle Hz Hsw. destruct (rest2_after m m1 t k Z Hre Hlt Hsw) as [Hn2 Hre1]. fold n in Hn2, Hre1.
    destruct (IH (k + n) r1 m1) as (r' & m' & Hrun & Hle' & Hsw'); [lia|lia|done|]. exists r', m'. split; [done|]. split; [lia|].
    eapply swept_weaken; [|by eapply (swept_trans valid2 L2 IsBlock below2 down2 level2_ok m m1 m' t k (k + n) 512); [|lia|exact Hsw|exact Hsw']].
    intros ->. assert (r1 = r) by lia. auto. }
  destruct (IsBlock (entry m t k)) eqn:HB.
  - change L2ContiguousBlockSize with (16 * L2BlockSize). rewrite (num_to_clear_run IsBlock _ L2BlockSize HB) by done. fold n.
    destruct (ShouldUnmap (entry m t k)) eqn:HU.
    + apply (Hgo r _ True); [lia|done|]. by apply (run_cleared valid2 L2 IsBlock below2 down2 level2_ok).
    + apply (Hgo (r + n) m False); [lia|lia|]. by apply (run_kept valid2 L2 IsBlock below2 down2 level2_ok); [lia|..].
  - assert (n = 1) as En by (unfold n, run_length, contig; by rewrite HB). rewrite En in Hgo.
    destruct (IsTable (entry m t k)) eqn:HT.
    + destruct (unmap_l3_spec (GetTable (entry m t k)) (Z.to_nat 512) 0 0 m) as (r3 & m3 & -> & Hle3 & Hsw3); [lia|lia|by apply Hbel|].
      cbn [mbind res_bind]. destruct (table_swept valid3 L3 L3_IsBlock below3 down3 level3_ok L2 m m3 t k (r3 = 0)) as [Hs1 Hs2]; [|done|done|].
      { destruct Hap as [Hp _ Hsl Hin]. split; [done|lia|intros; apply Hsl; lia|intros ?????; apply Hin; lia]. }
      destruct (Z.eqb_spec r3 0).
      * apply (Hgo r _ True); [lia|done|]. by apply Hs2.
      * apply (Hgo (r + 1) m3 (r3 = 0)); [lia|lia|done].
    + apply (Hgo r m True); [lia|done|]. apply entry_skipped. intros x. unfold down2, pdown. by rewrite HT, HB.
Qed.

Lemma rest1_after m m1 t k hi Z : rest1 m t k hi → k < hi → swept valid1 below1 down1 m m1 t k (k + 1) Z → rest1 m1 t (k + 1) hi.
Proof.
  intros [Hap Hbel] Hk Hsw. split.
  - apply (apart_drop _ _ _ k); [lia|]. apply (apart_after valid1 L1 IsBlock below1 down1 level1_ok m m1 t k (k + 1) hi Z); done || lia.
  - intros j Hj. destruct (swept_same valid1 L1 IsBlock below1 down1 level1_ok m m1 t k hi k (k + 1) Z j) as (-> & _ & _ & Hs); [done|done|lia..|].
    intros HT. apply (rest2_ext m m1); [done|done|]. apply Hbel; [lia|done].
Qed.

Lemma unmap_l1_step m t k hi : rest1 m t k hi → k < hi →
  ∃ m1, unmap_l1_entry off (slot off t k) m = Ok m1 ∧ swept valid1 below1 down1 m m1 t k (k + 1) False.
Proof.
  intros [Hap Hbel] Hk. pose proof Hap as [Hp Hr Hsl Hin]. unfold unmap_l1_entry. destruct (IsBlock (entry m t k)) eqn:HB.
  - eexists. split; [reflexivity|]. destruct (ShouldUnmap (entry m t k)) eqn:HU.
    + eapply swept_weaken; [|by apply (entry_cleared valid1 L1 IsBlock below1 down1 level1_ok)]. done.
    + by apply (entry_kept valid1 L1 IsBlock below1 down1 level1_ok).
  - destruct (IsTable (entry m t k)) eqn:HT.
    2:{ exists m. split; [done|]. eapply swept_weaken; [|apply entry_skipped; intros x; unfold down1, pdown; by rewrite HT, HB]. done. }
    change MaxPageTableEntries with 512.
    destruct (unmap_l2_spec (GetTable (entry m t k)) (Z.to_nat 512) 0 0 m) as (r & m2 & -> & _ & Hsw); [lia|lia|apply Hbel; [lia|done]|].
    cbn [mbind res_bind]. eexists. split; [reflexivity|].
    destruct (table_swept valid2 L2 IsBlock below2 down2 level2_ok L1 m m2 t k (r = 0)) as [Hs1 Hs2]; [|done|done|].
    { split; [done|lia|intros; apply Hsl; lia|intros ?????; apply Hin; lia]. }
    destruct (Z.eqb_spec r 0); eapply swept_weaken; [|by apply Hs2|..|exact Hs1]; done.
Qed.

Lemma unmap_l1_spec t : ∀ n k m, rest1 m t k (k + Z.of_nat n) →
  ∃ m', unmap_l1 n off t k m = Ok m' ∧ swept valid1 below1 down1 m m' t k (k + Z.of_nat n) False.
Proof.
  induction n as [|n IH]; intros k m Hre; cbn [unmap_l1].
  { exists m. split; [done|]. apply swept_nothing. lia. }
  destruct (unmap_l1_step m t k _ Hre) as (m1 & -> & Hsw); [lia|]. cbn [mbind res_bind].
  pose proof (rest1_after _ _ _ _ _ _ Hre ltac:(lia) Hsw) as Hre1.
  replace (k + Z.of_nat (S n)) with (k + 1 + Z.of_nat n) in * by lia.
  destruct (IH (k + 1) m1 Hre1) as (m' & Hrun & Hsw'). exists m'. split; [done|].
  eapply swept_weaken; [|apply (swept_trans valid1 L1 IsBlock below1 down1 level1_ok m m1 m' t k (k + 1) _ False False)]; [done|apply Hre|lia|done|done].
Qed.
End unmap.

(** ** The whole page table *)
Section page_table.
Context (pt : KInitialPageTable) (off : Z) (Hpt : pt_ok pt).
Implicit Types (m : mem) (i : bool) (k w : Z).

Abbreviation root i := (pick i (m_l1_tables pt)).
Abbreviation entries i := (pick i (m_num_entries pt)).

Lemma below2_path m i k1 t2 k2 w : vtable pt i [k1] → table pt off m i [k1] = Some t2 → 0 ≤ k2 < 512 →
  below2 off m (ld m (slot off t2 k2)) w →
  ∃ a j, vtable pt i [k2; k1] ∧ table pt off m i [k2; k1] = Some a ∧ 0 ≤ j < 512 ∧ w = slot off a j.
Proof.
  intros [Hv _] Ht Hk [HT (j & Hj & [->|[]])]. eexists _, j. split; [split; [by split|simpl; lia]|]. split; [|done].
  eapply (table_step pt off m i k2 [k1]); [|done]. unfold ent. by rewrite Ht.
Qed.

Lemma below1_path m i k w : 0 ≤ k < entries i → below1 off m (ld m (slot off (root i) k)) w →
  ∃ P a j, vtable pt i P ∧ (P = [k] ∨ ∃ k2, P = [k2; k]) ∧ table pt off m i P = Some a ∧ 0 ≤ j < 512 ∧ w = slot off a j.
Proof.
  intros Hk [HT (j & Hj & Hw)]. assert (vtable pt i [k]) as Hv by (split; [by split|simpl; lia]).
  assert (table pt off m i [k] = Some (GetTable (ld m (slot off (root i) k)))) as Ht by (by apply (table_step pt off m i k [])).
  destruct Hw as [->|Hw].
  - exists [k], (GetTable (ld m (slot off (root i) k))), j. auto.
  - destruct (below2_path m i k _ j w Hv Ht Hj Hw) as (a & j' & Hv' & Ha & Hj' & ->). exists [j; k], a, j'. split; [done|]. split; [right; by eexists|done].
Qed.

(** The same word is of the same table. *)
Lemma slot_path m i P j Q a b k k' : wf_tables pt off m → vtable pt i P → vtable pt j Q → table pt off m i P = Some a → table pt off m j Q = Some b →
  0 ≤ k < 512 → 0 ≤ k' < 512 → slot off a k = slot off b k' → i = j ∧ P = Q.
Proof.
  intros Hwf HP HQ Ha Hb Hk Hk' E. apply slot_inj in E as [-> _]; [by eapply wf_inj|exact (wf_phys _ _ _ Hwf _ _ _ HP Ha)|exact (wf_phys _ _ _ Hwf _ _ _ HQ Hb)|done|done].
Qed.

Lemma entries_512 i : 0 ≤ entries i ≤ 512.
Proof using Hpt. destruct (Hpt i) as (a & Ha & ->). pose proof (pow2_pos a ltac:(lia)). pose proof (Z.pow_le_mono_r 2 a 9). lia. Qed.

(** Contiguous runs of the lower half are whole. *)
Definition runs_whole m : Prop :=
  (∀ k1 a, vtable pt false [k1] → table pt off m false [k1] = Some a → tidy off IsBlock m a 0) ∧
  (∀ k2 k1 a, vtable pt false [k2; k1] → table pt off m false [k2; k1] = Some a → tidy off L3_IsBlock m a 0).

Lemma root_rest m : wf_tables pt off m → runs_whole m → rest1 off m (root false) 0 (entries false).
Proof using Hpt.
  intros Hwf [Hr2 Hr3]. pose proof (entries_512 false) as He. assert (vtable pt false []) as H0 by (split; simpl; [done|lia]).
  assert (∀ k, 0 ≤ k < entries false → vtable pt false [k]) as Hv1 by (intros k Hk; split; [by split|simpl; lia]).
  split; [split|].
  - by eapply (wf_phys _ _ _ Hwf false []).
  - lia.
  - intros k j Hk Hj Hw. destruct (below1_path m false k _ Hk Hw) as (P & a & j' & HP & HPk & Ha & Hj' & E).
    destruct (slot_path m false [] false P _ a j j' Hwf H0 HP eq_refl Ha Hj Hj' E) as [_ <-]. by destruct HPk as [|[]].
  - intros k k' w Hk Hk' H1 H2. destruct (below1_path m false k _ Hk H1) as (P & a & j & HP & HPk & Ha & Hj & ->).
    destruct (below1_path m false k' _ Hk' H2) as (Q & b & j' & HQ & HQk & Hb & Hj' & E).
    destruct (slot_path m false P false Q a b j j' Hwf HP HQ Ha Hb Hj Hj' E) as [_ <-].
    by destruct HPk as [->|[? ->]], HQk as [E'|[? E']]; simplify_eq.
  - intros k Hk HT. set (t2 := GetTable _). assert (table pt off m false [k] = Some t2) as Ht by (by apply (table_step pt off m false k [])).
    specialize (Hv1 k Hk). split; [split| |].
    + by eapply (wf_phys _ _ _ Hwf false [k]).
    + lia.
    + intros j i Hj Hi Hw. destruct (below2_path m false k t2 j _ Hv1 Ht Hj Hw) as (a & j' & HP & Ha & Hj' & E).
      by destruct (slot_path m false [k] false [j; k] t2 a i j' Hwf Hv1 HP Ht Ha Hi Hj' E).
    + intros i j w Hi Hj H1 H2. destruct (below2_path m false k t2 i _ Hv1 Ht Hi H1) as (a & j1 & HP & Ha & Hj1 & ->).
      destruct (below2_path m false k t2 j _ Hv1 Ht Hj H2) as (b & j2 & HQ & Hb & Hj2 & E).
      destruct (slot_path m false [i; k] false [j; k] a b j1 j2 Hwf HP HQ Ha Hb Hj1 Hj2 E) as [_ [= ->]]. done.
    + by apply (Hr2 k).
    + intros j Hj HT2. assert (vtable pt false [j; k]) as Hv2 by (split; [split; [done|apply Hv1]|simpl; lia]).
      assert (table pt off m false [j; k] = Some (GetTable (ld m (slot off t2 j)))) as Ht3.
      { apply (table_step pt off m false j [k]); [|done]. unfold ent. by rewrite Ht. }
      split; [split; [by eapply (wf_phys _ _ _ Hwf false [j; k])|lia|by intros ???? []|by intros ????? []]|by eapply Hr3].
Qed.

(** ** Translation *)
Definition where_ va : Z * (Z * unit) := (l2_index va, (l3_index va, tt)).
Definition finish va (x : level * Z) : option (Z * Z) :=
  Some (block_base (fst x) (snd x) + va mod 2 ^ shift (fst x), entry_attr (snd x)).

Lemma translate_look m va : translate pt off m va = look off (down1 off) m (root (half va)) (l1_index pt va) (where_ va) ≫= finish va.
Proof.
  unfold translate, descend, look, down1, pdown, GetL1Entry. fold (half va). cbn [where_ fst snd].
  set (p1 := slot off _ _). destruct (IsTable (ld m p1)) eqn:E1; cbn [negb].
  2:{ cbn [entry_of is_block]. by destruct (IsBlock (ld m p1)). }
  unfold look, down2, pdown, GetL2Entry. cbn [fst snd]. set (p2 := slot off _ _). destruct (IsTable (ld m p2)) eqn:E2; cbn [negb].
  2:{ cbn [entry_of is_block]. by destruct (IsBlock (ld m p2)). }
  unfold look, down3, GetL3Entry. cbn [entry_of is_block]. by destruct (L3_IsBlock _).
Qed.

Lemma where_valid va : valid1 (where_ va).
Proof.
  unfold valid1, valid2, valid3, pvalid, where_. cbn [fst snd]. rewrite l2_index_mod, l3_index_mod.
  split; [apply Z.mod_pos_bound; lia|]. split; [apply Z.mod_pos_bound; lia|done].
Qed.

Lemma l1_index_range va : 0 ≤ l1_index pt va < entries (half va).
Proof using Hpt. destruct (full_valid pt L1 va Hpt) as [[H _] _]. exact H. Qed.

Lemma ShouldUnmap_attr e : ShouldUnmap (entry_attr e) = ShouldUnmap e.
Proof.
  unfold ShouldUnmap, GetPageAttribute, SelectBits, entry_attr. rewrite Z.ldiff_land, <- Z.land_assoc. f_equal.
Qed.

(** What is left of a translation: device memory. *)
Definition device_only (x : Z * Z) : option (Z * Z) := if ShouldUnmap (snd x) then None else Some x.

Lemma finish_keep va o : (o ≫= keep) ≫= finish va = (o ≫= finish va) ≫= device_only.
Proof.
  destruct o as [[l e]|]; [|done]. change (Some ?x ≫= ?f) with (f x). change (finish va (l, e) ≫= ?f) with (f (block_base l e + va mod 2 ^ shift l, entry_attr e)).
  unfold keep, device_only. cbn [snd]. rewrite ShouldUnmap_attr. by destruct (ShouldUnmap e).
Qed.

(** The tables of the upper half are not touched. *)
Lemma upper_same m m' k w : wf_tables pt off m → 0 ≤ k < entries true → swept off valid1 (below1 off) (down1 off) m m' (root false) 0 (entries false) False →
  (w = slot off (root true) k ∨ below1 off m (ld m (slot off (root true) k)) w) → m' !! w = m !! w.
Proof using Hpt.
  intros Hwf Hk [_ _ _ Hout] Hw. pose proof (entries_512 true). pose proof (entries_512 false).
  assert (∃ P a j, vtable pt true P ∧ table pt off m true P = Some a ∧ 0 ≤ j < 512 ∧ w = slot off a j) as (P & a & j & HP & Ha & Hj & ->).
  { destruct Hw as [->|Hw]; [exists [], (root true), k; split_and!; [by split; simpl; [|lia]|done|lia|lia|done]|].
    destruct (below1_path m true k _ Hk Hw) as (P & a & j & ? & _ & ? & ? & ->). by exists P, a, j. }
  apply Hout. intros k' Hk'. split.
  - intros E. destruct (slot_path m true P false [] a (root false) j k' Hwf HP) as [? _]; try done; [by split; simpl; [|lia]|lia].
  - intros Hb. destruct (below1_path m false k' _ Hk' Hb) as (Q & b & j' & HQ & _ & Hb' & Hj' & E).
    by destruct (slot_path m true P false Q a b j j' Hwf HP HQ Ha Hb' Hj Hj' E).
Qed.
End page_table.

(** (C12) [UnmapTtbr0Entries] ends, and leaves of the lower half exactly the device memory: an
    address that translated to it still does, and no other address translates.  The
    upper half translates as before.  Tables must not share pages, and contiguous
    runs be whole. *)
Theorem unmap_leaves_devices pt off m : pt_ok pt → wf_tables pt off m → runs_whole pt off m →
  ∃ m', UnmapTtbr0Entries pt off m = Ok m' ∧
    ∀ va, translate pt off m' va = if half va then translate pt off m va else translate pt off m va ≫= device_only.
Proof.
  intros Hpt Hwf Hruns. pose proof (root_rest pt off Hpt m Hwf Hruns) as Hre. pose proof (entries_512 pt Hpt false) as He.
  unfold UnmapTtbr0Entries. destruct (unmap_l1_spec off (fst (m_l1_tables pt)) (Z.to_nat (fst (m_num_entries pt))) 0 m) as (m' & Hrun & Hsw).
  { rewrite Z2Nat.id by apply He. exact Hre. }
  rewrite Z.add_0_l, Z2Nat.id in Hsw by apply He. exists m'. split; [done|]. intros va. rewrite !translate_look.
  pose proof (l1_index_range pt Hpt va) as Hi. destruct (half va) eqn:Hh; cbn [pick] in Hi.
  - assert (∀ w, w = slot off (pick true (m_l1_tables pt)) (l1_index pt va) ∨ below1 off m (ld m (slot off (pick true (m_l1_tables pt)) (l1_index pt va))) w →
      m' !! w = m !! w) as Hsame by (intros w; by apply (upper_same pt off Hpt)).
    unfold look. rewrite (ld_eq m m') by (apply Hsame; by left). f_equal.
    apply (lo_local _ _ _ _ _ (level1_ok off)); [|apply where_valid]. intros w Hw. apply Hsame. by right.
  - rewrite <- finish_keep. f_equal. apply (sw_look _ _ _ _ _ _ _ _ _ _ Hsw); [lia|apply where_valid].
Qed.

(** ** A concrete table: a contiguous run of normal memory, and a device *)
Module Example.
Definition pt : KInitialPageTable := mkPT (0x10000, 0x11000) (512, 512).
Definition normal : Z := PageTableEntry KernelRW NormalMemory InnerShareable Mapped.
Definition device : Z := PageTableEntry KernelRW Device_nGnRE OuterShareable Mapped.
Definition m : mem := list_to_map ([(0x10000, TableEntry 0x30000 false); (0x10008, BlockEntry 0x80000000 device 0 false)] ++
  ((λ i, (0x30000 + 8 * i, BlockEntry (0x40000000 + i * L2BlockSize) normal 0 true)) <$> seqZ 16 16)).

Lemma only_table w : IsTable (ld m w) = true → w = 0x10000.
Proof.
  unfold ld. destruct (m !! w) as [e|] eqn:Hw; [|done].
  assert (map_Forall (λ w e, IsTable e = false ∨ w = 0x10000) m) as Hall by (refine (bool_decide_unpack _ _); by vm_compute).
  destruct (Hall w e Hw) as [H|H]; [|done]. simpl. congruence.
Qed.

Lemma the_tables i P a : vtable pt i P → table pt 0 m i P = Some a →
  P = [] ∧ a = pick i (m_l1_tables pt) ∨ i = false ∧ P = [0] ∧ a = 0x30000.
Proof.
  intros [Hv Hl]. revert a. induction P as [|k P IH]; intros a; [intros [= <-]; by left|].
  pose proof (vpath_index pt i k P ltac:(intros j; exists 9; by destruct j) Hv) as Hk.
  assert (GetTable (ld m 0x10000) = 0x30000) as Eg by (by vm_compute).
  cbn [table]. destruct (table pt 0 m i P) as [t|] eqn:Ht; [|done]. change (Some ?x ≫= ?f) with (f x). cbv beta zeta.
  destruct (IsTable (ld m (slot 0 t k))) eqn:HT; [|done]. apply only_table in HT as Hs. rewrite Hs, Eg. intros [= <-].
  destruct (IH ltac:(apply Hv) ltac:(simpl in Hl; lia) t eq_refl) as [[-> ->]|(-> & -> & ->)]; unfold slot in Hs.
  - right. destruct i; simpl in Hs; rewrite wrap_small in Hs by (unfold in_width; lia); [lia|].
    assert (k = 0) as -> by lia. done.
  - rewrite wrap_small in Hs by (unfold in_width; lia). lia.
Qed.

Lemma the_runs j : 0 ≤ j < 512 → contig IsBlock (ld m (slot 0 0x30000 j)) = bool_decide (16 ≤ j < 32) ∧
  (16 ≤ j < 32 → ShouldUnmap (ld m (slot 0 0x30000 j)) = true).
Proof.
  intros Hj. assert (Forall (λ j, contig IsBlock (ld m (slot 0 0x30000 j)) = bool_decide (16 ≤ j < 32) ∧
    (bool_decide (16 ≤ j < 32) = false ∨ ShouldUnmap (ld m (slot 0 0x30000 j)) = true)) (seqZ 0 512)) as Hall
    by (refine (bool_decide_unpack _ _); by vm_compute).
  destruct (proj1 (Forall_forall _ _) Hall j) as [H1 H2]; [apply elem_of_seqZ; lia|]. split; [done|].
  intros Hr. destruct H2 as [H2|]; [|done]. by rewrite bool_decide_true in H2.
Qed.

Lemma m_wf : wf_tables pt 0 m.
Proof.
  split.
  - intros i P a HP Ha. destruct (the_tables i P a HP Ha) as [[-> ->]|(_ & _ & ->)]; [|done]. by destruct i.
  - intros i P j Q a HP HQ Ha Hb.
    destruct (the_tables i P a HP Ha) as [[-> ->]|(-> & -> & ->)], (the_tables j Q _ HQ Hb) as [[-> E]|(-> & -> & E)]; [|by destruct i|by destruct j|done].
    by destruct i, j.
Qed.

Lemma m_runs : runs_whole pt 0 m.
Proof.
  split; [|intros k2 k1 a HP Ha; by destruct (the_tables _ _ _ HP Ha) as [[]|(_ & ? & _)]].
  intros k1 a HP Ha. destruct (the_tables _ _ _ HP Ha) as [[]|(_ & _ & ->)]; [done|]. split.
  - intros _. destruct (the_runs 0 ltac:(lia)) as [-> _]. done.
  - intros i j Hi Hj Hg. destruct (the_runs i Hi) as [-> Hu]. destruct (the_runs j Hj) as [-> Hu']. intros Hr%bool_decide_eq_true.
    assert (16 ≤ j < 32) by (Z.to_euclidean_division_equations; lia). rewrite bool_decide_true, Hu, Hu' by done. done.
Qed.
End Example.

Lemma unmap_leaves_devices_witness : ∃ m', UnmapTtbr0Entries Example.pt 0 Example.m = Ok m' ∧
  translate Example.pt 0 Example.m 0x2000010 = Some (0x42000010, Example.normal) ∧ translate Example.pt 0 m' 0x2000010 = None ∧
  translate Example.pt 0 m' 0x40000008 = Some (0x80000008, Example.device).
Proof.
  destruct (unmap_leaves_devices Example.pt 0 Example.m) as (m' & Hrun & Htr);
    [intros i; exists 9; by destruct i|apply Example.m_wf|apply Example.m_runs|].
  exists m'. split; [exact Hrun|]. rewrite !Htr. split_and!; by vm_compute.
Defined.

End InitPTUnmap.
