(* ===== verification/StartUp.v ===== *)
(** * Kernel start-up

    kernel/host/kern_init_core.cpp: how the kernel lays out its address space
    before it runs.  The state is the memory, the start-up page allocator with the
    random generator, and the two region trees of [KMemoryLayout], which take their
    regions from one array.  Linker symbols, the variables of the board and the
    values of system registers are inputs. *)

From S2P Require Import Prelude Vapours TinyMT MemoryRegion RegionType PageTableEntry InitPageTable InitAllocator InitPageTableEdit.

Module StartUp.
Import PTE Util InitPT InitAlloc InitPTEdit Region.

(** ** State *)
Record kstate := mkK {
  k_mem : mem;
  k_alloc : KInitialPageAllocator;
  k_virt : list KMemoryRegion;
  k_phys : list KMemoryRegion;
  k_num : nat;
}.
Abbreviation kM := (stM kstate).
Abbreviation value := RegionType.m_value.

(** An operation of the page table and its allocator, and one of a region tree. *)
Definition with_pages {X} (f : stM (mem * KInitialPageAllocator) X) : kM X := λ k,
  '(x, (m, a)) ← f (k_mem k, k_alloc k); Ok (x, mkK m a (k_virt k) (k_phys k) (k_num k)).
Definition on_virt {X} (f : treeM X) : kM X := λ k,
  '(x, t) ← f (mkTree (k_virt k) (k_num k)); Ok (x, mkK (k_mem k) (k_alloc k) (regions t) (k_phys k) (m_num_regions t)).
Definition on_phys {X} (f : treeM X) : kM X := λ k,
  '(x, t) ← f (mkTree (k_phys k) (k_num k)); Ok (x, mkK (k_mem k) (k_alloc k) (k_virt k) (regions t) (m_num_regions t)).
(** [MESOSPHERE_INIT_ABORT_UNLESS] of an [Insert]. *)
Definition insert_virt (address size type_id attr : Z) : kM unit :=
  ok ← on_virt (Insert address size type_id attr 0); st_check ok Aborted.
Definition insert_phys (address size type_id attr : Z) : kM unit :=
  ok ← on_phys (Insert address size type_id attr 0); st_check ok Aborted.
Definition set_phys (i : nat) (f : KMemoryRegion → KMemoryRegion) : kM unit :=
  on_phys (mod_regions (alter f i)).
Definition set_virt (i : nat) (f : KMemoryRegion → KMemoryRegion) : kM unit :=
  on_virt (mod_regions (alter f i)).

(** ** Page table attributes *)
Definition KernelTextAttribute : Z := PageTableEntry KernelRX NormalMemory InnerShareable Mapped.
Definition KernelRoDataAttribute : Z := PageTableEntry KernelR NormalMemory InnerShareable Mapped.
Definition KernelRwDataAttribute : Z := PageTableEntry KernelRW NormalMemory InnerShareable Mapped.
Definition KernelMmioAttribute : Z := PageTableEntry KernelRW Device_nGnRE OuterShareable Mapped.
Definition KernelRwDataUncachedAttribute : Z := PageTableEntry KernelRW NormalMemoryNotCacheable InnerShareable Mapped.

Definition KernelAslrAlignment : Z := 0x200000.
Definition NumCores : nat := 4.

Section with_fuel.
Context (fuel : nat) (tick : Z).
Let Allocator : IsInitialPageAllocator KInitialPageAllocator := KInitialPageAllocator_ops fuel tick.
#[local] Existing Instance Allocator.

(** ** Random placement *)
Definition random_range (min max : Z) : kM Z := λ k,
  '(v, rng) ← GenerateRandomRange fuel tick min max (s_random_generator (k_alloc k));
  Ok (v, mkK (k_mem k) (mkAllocator (m_state (k_alloc k)) rng) (k_virt k) (k_phys k) (k_num k)).

(** One candidate of [GetRandomAlignedRegionWithGuard]: whether it is taken. *)
Definition candidate_ok (pt : KInitialPageTable) (m : mem) (tree : list KMemoryRegion)
    (size type_id guard_size last_address candidate_start : Z) : res bool :=
  let candidate_end := u64 (candidate_start + size + guard_size) in
  if negb (candidate_start <? candidate_end) || negb (guard_size <=? candidate_start) then Ok false else
  let candidate_last := u64 (candidate_end - 1) in
  if last_address <? candidate_last then Ok false else
  free ← IsFree pt m candidate_start size;
  if negb free then Ok false else
  candidate_region ← of_option NullDeref (Find tree (u64 (candidate_start - guard_size)));
  Ok ((candidate_last <=? m_last_address candidate_region) && (m_type_id candidate_region =? type_id)).
Fixpoint place_region (n : nat) (pt : KInitialPageTable)
    (size alignment type_id guard_size first_index last_index last_address : Z) : kM Z :=
  match n with
  | O => st_throw OutOfFuel
  | S n' =>
      index ← random_range first_index last_index;
      let candidate_start := u64 (index * alignment) in
      k ← st_get;
      ok ← st_lift (candidate_ok pt (k_mem k) (k_virt k) size type_id guard_size last_address candidate_start);
      if (ok : bool) then mret candidate_start
      else place_region n' pt size alignment type_id guard_size first_index last_index last_address
  end.
(** Every caller passes the virtual tree. *)
Definition GetRandomAlignedRegionWithGuard (size alignment : Z) (pt : KInitialPageTable) (type_id guard_size : Z) : kM Z :=
  _ ← st_check (0 <? size) Aborted;
  k ← st_get;
  extents ← st_lift (GetDerivedRegionExtents (k_virt k) type_id);
  let first_address := m_address (fst extents) in
  let last_address := m_last_address (snd extents) in
  _ ← st_check (IsAligned first_address alignment) Aborted;
  place_region fuel pt size alignment type_id guard_size (first_address / alignment) (last_address / alignment) last_address.
Definition GetRandomAlignedRegion (size alignment : Z) (pt : KInitialPageTable) (type_id : Z) : kM Z :=
  GetRandomAlignedRegionWithGuard size alignment pt type_id 0.

Definition map_pages (pt : KInitialPageTable) (virt_addr size phys_addr attr : Z) : kM unit :=
  with_pages (Map pt virt_addr size phys_addr attr 0).

Definition MapStackForCore (pt : KInitialPageTable) (type core_id : Z) : kM unit :=
  stack_start_virt ← GetRandomAlignedRegionWithGuard PageSize PageSize pt (value RegionType.KernelMisc) PageSize;
  stack_start_phys ← with_pages (Allocate fuel tick PageSize);
  _ ← insert_virt stack_start_virt PageSize type core_id;
  map_pages pt stack_start_virt PageSize stack_start_phys KernelRwDataAttribute.

(** The stacks of every core, in the order of [InitializeCorePhase1]. *)
Definition map_core_stacks (pt : KInitialPageTable) (i : nat) : kM unit :=
  _ ← MapStackForCore pt (value RegionType.KernelMiscMainStack) (Z.of_nat i);
  _ ← MapStackForCore pt (value RegionType.KernelMiscIdleStack) (Z.of_nat i);
  MapStackForCore pt (value RegionType.KernelMiscExceptionStack) (Z.of_nat i).
Definition map_stacks (pt : KInitialPageTable) : kM unit := st_iter (map_core_stacks pt) (seq 0 NumCores).

(** ** Automatic mapping, from the largest region to the smallest *)
Definition should_map (base : Z) (r : KMemoryRegion) : bool :=
  IsDerivedFrom r base && HasTypeAttribute r RegionType.KMemoryRegionAttr_ShouldKernelMap &&
  negb (HasTypeAttribute r RegionType.KMemoryRegionAttr_DidKernelMap).
Fixpoint find_largest (base : Z) (i : nat) (l : list KMemoryRegion) (largest : option (nat * KMemoryRegion))
    : res (option (nat * KMemoryRegion)) :=
  match l with
  | [] => Ok largest
  | r :: l' =>
      if negb (should_map base r) then find_largest base (S i) l' largest else
      _ ← check (negb (GetEndAddress r =? 0)) Aborted;
      find_largest base (S i) l'
        (match largest with
         | None => Some (i, r)
         | Some (_, x) => if GetSize x <? GetSize r then Some (i, r) else largest
         end)
  end.
Definition GetAlignment (x : Z) : Z := Z.land x (u64 (- x)).
Definition map_largest (pt : KInitialPageTable) (virt_type : Z) (attribute : KMemoryRegion → Z) (i : nat) (r : KMemoryRegion) : kM unit :=
  _ ← set_phys i (SetTypeAttribute RegionType.KMemoryRegionAttr_DidKernelMap);
  let map_phys_addr := AlignDown (m_address r) PageSize in
  let map_size := u64 (AlignUp (GetEndAddress r) PageSize - map_phys_addr) in
  let min_align := Z.min (GetAlignment map_size) (GetAlignment map_phys_addr) in
  let map_align := if KernelAslrAlignment <=? min_align then KernelAslrAlignment else PageSize in
  map_virt_addr ← GetRandomAlignedRegionWithGuard map_size map_align pt (value RegionType.KernelMisc) PageSize;
  _ ← insert_virt map_virt_addr map_size virt_type 0;
  _ ← set_phys i (SetPairAddress (u64 (map_virt_addr + m_address r - map_phys_addr)));
  map_pages pt map_virt_addr map_size map_phys_addr (attribute r).
Fixpoint automap_loop (n : nat) (pt : KInitialPageTable) (base virt_type : Z) (attribute : KMemoryRegion → Z) : kM unit :=
  k ← st_get;
  largest ← st_lift (find_largest base 0 (k_phys k) None);
  match largest with
  | None => mret tt
  | Some (i, r) =>
      match n with
      | O => st_throw OutOfFuel
      | S n' =>
          _ ← map_largest pt virt_type attribute i r;
          automap_loop n' pt base virt_type attribute
      end
  end.
Definition automap_devices (pt : KInitialPageTable) : kM unit :=
  k ← st_get;
  automap_loop (length (k_phys k)) pt (value RegionType.Kernel) (value RegionType.KernelMiscMappedDevice) (λ _, KernelMmioAttribute).
Definition automap_reserved (pt : KInitialPageTable) : kM unit :=
  k ← st_get;
  automap_loop (length (k_phys k)) pt (value RegionType.DramReservedBase) (value RegionType.KernelMiscUnknownDebug)
    (λ r, if HasTypeAttribute r RegionType.KMemoryRegionAttr_Uncached then KernelRwDataUncachedAttribute else KernelRwDataAttribute).

(** ** The linear mapping *)

(** All DRAM that is not tagged yet gets the attribute. *)
Fixpoint tag_linear (i : nat) (l : list KMemoryRegion) : kM unit :=
  match l with
  | [] => mret tt
  | r :: l' =>
      _ ← (if m_type_id r =? value RegionType.Dram then
             _ ← st_check (negb (GetEndAddress r =? 0)) Aborted;
             set_phys i (SetTypeAttribute RegionType.KMemoryRegionAttr_LinearMapped)
           else mret tt);
      tag_linear (S i) l'
  end.

(** The loop over the physical regions: adjacent linear regions are mapped as one
    run, which [cur] holds. *)
Definition flush_run (pt : KInitialPageTable) (diff : Z) (cur : Z * Z) : kM unit :=
  map_pages pt (u64 (fst cur + diff)) (snd cur) (fst cur) KernelRwDataAttribute.
Definition linear_region (pt : KInitialPageTable) (diff : Z) (i : nat) (r : KMemoryRegion) (cur : Z * Z) : kM (Z * Z) :=
  _ ← st_check (negb (GetEndAddress r =? 0)) Aborted;
  cur' ← (if snd cur =? 0 then mret (m_address r, GetSize r)
          else if u64 (fst cur + snd cur) =? m_address r then mret (fst cur, u64 (snd cur + GetSize r))
          else _ ← flush_run pt diff cur; mret (m_address r, GetSize r));
  let region_virt_addr := u64 (m_address r + diff) in
  _ ← (if negb (HasTypeAttribute r RegionType.KMemoryRegionAttr_ShouldKernelMap)
       then set_phys i (SetPairAddress region_virt_addr) else mret tt);
  _ ← insert_virt region_virt_addr (GetSize r) (value (RegionType.GetTypeForVirtualLinearMapping (m_type_id r))) 0;
  k ← st_get;
  j ← st_lift (of_option Aborted (FindModifiable (k_virt k) region_virt_addr));
  _ ← set_virt j (SetPairAddress (m_address r));
  mret cur'.
Fixpoint linear_loop (pt : KInitialPageTable) (diff : Z) (i : nat) (l : list KMemoryRegion) (cur : Z * Z) : kM (Z * Z) :=
  match l with
  | [] => mret cur
  | r :: l' =>
      if negb (HasTypeAttribute r RegionType.KMemoryRegionAttr_LinearMapped) then linear_loop pt diff (S i) l' cur else
      cur' ← linear_region pt diff i r cur;
      linear_loop pt diff (S i) l' cur'
  end.
Definition map_linear (pt : KInitialPageTable) (diff : Z) : kM unit :=
  k ← st_get;
  cur ← linear_loop pt diff 0 (k_phys k) (0, 0);
  if negb (snd cur =? 0) then flush_run pt diff cur else mret tt.

End with_fuel.
End StartUp.
