(* ===== verification/SlabSetup.v ===== *)
(** * Slab heaps at start-up

    libmesosphere, [init/kern_init_slab_setup.cpp]: how many objects of each kind
    the kernel has, the room their slab heaps need, and how [InitializeSlabHeaps]
    shuffles the heaps and spreads random gaps between them.  Sizes and alignments
    of the classes are inputs. *)

From S2P Require Import Prelude Vapours TinyMT MemoryRegion RegionType InitAllocator.

Module SlabSetup.
Import Util.

(** ** Kinds and counts *)
Inductive KSlabType : Set :=
  | KProcess | KThread | KEvent | KInterruptEvent | KPort | KSharedMemory | KSharedMemoryInfo | KTransferMemory
  | KCodeMemory | KDeviceAddressSpace | KSession | KSessionRequest | KLightSession | KThreadLocalPage | KObjectName
  | KResourceLimit | KEventInfo | KDebug | KIoPool | KIoRegion | KSessionRequestMappings | KSecureSystemResource
  | KThreadLockInfo.
#[export] Instance KSlabType_eq_dec : EqDecision KSlabType.
Proof. solve_decision. Defined.
Definition all_types : list KSlabType :=
  [KProcess; KThread; KEvent; KInterruptEvent; KPort; KSharedMemory; KSharedMemoryInfo; KTransferMemory;
   KCodeMemory; KDeviceAddressSpace; KSession; KSessionRequest; KLightSession; KThreadLocalPage; KObjectName;
   KResourceLimit; KEventInfo; KDebug; KIoPool; KIoRegion; KSessionRequestMappings; KSecureSystemResource;
   KThreadLockInfo].

Record KSlabResourceCounts := mkCounts {
  num_KProcess : Z; num_KThread : Z; num_KEvent : Z; num_KInterruptEvent : Z; num_KPort : Z; num_KSharedMemory : Z;
  num_KTransferMemory : Z; num_KCodeMemory : Z; num_KDeviceAddressSpace : Z; num_KSession : Z; num_KLightSession : Z;
  num_KObjectName : Z; num_KResourceLimit : Z; num_KDebug : Z; num_KIoPool : Z; num_KIoRegion : Z;
  num_KSessionRequestMappings : Z;
}.
Definition SlabCountKThread : Z := 800.
Definition SlabCountExtraKThread : Z := (1024 + 256 + 256) - SlabCountKThread.
Definition g_slab_resource_counts : KSlabResourceCounts :=
  mkCounts 80 SlabCountKThread 900 100 384 80 200 10 300 1133 100 7 5 4 1 6 40.
(** [InitializeSlabResourceCounts], for the answer of [ShouldIncreaseThreadResourceLimit]. *)
Definition InitializeSlabResourceCounts (increase : bool) (c : KSlabResourceCounts) : KSlabResourceCounts :=
  if increase then
    mkCounts (num_KProcess c) (num_KThread c + SlabCountExtraKThread) (num_KEvent c) (num_KInterruptEvent c) (num_KPort c)
      (num_KSharedMemory c) (num_KTransferMemory c) (num_KCodeMemory c) (num_KDeviceAddressSpace c) (num_KSession c)
      (num_KLightSession c) (num_KObjectName c) (num_KResourceLimit c) (num_KDebug c) (num_KIoPool c) (num_KIoRegion c)
      (num_KSessionRequestMappings c)
  else c.
(** The second column of [FOREACH_SLAB_TYPE]. *)
Definition slab_count (c : KSlabResourceCounts) (t : KSlabType) : Z :=
  match t with
  | KProcess => num_KProcess c
  | KThread => num_KThread c
  | KEvent => num_KEvent c
  | KInterruptEvent => num_KInterruptEvent c
  | KPort => num_KPort c
  | KSharedMemory => num_KSharedMemory c
  | KSharedMemoryInfo => num_KSharedMemory c * 8
  | KTransferMemory => num_KTransferMemory c
  | KCodeMemory => num_KCodeMemory c
  | KDeviceAddressSpace => num_KDeviceAddressSpace c
  | KSession => num_KSession c
  | KSessionRequest => num_KSession c * 2
  | KLightSession => num_KLightSession c
  | KThreadLocalPage => num_KProcess c + (num_KProcess c + num_KThread c) / 8
  | KObjectName => num_KObjectName c
  | KResourceLimit => num_KResourceLimit c
  | KEventInfo => num_KThread c + num_KDebug c
  | KDebug => num_KDebug c
  | KIoPool => num_KIoPool c
  | KIoRegion => num_KIoRegion c
  | KSessionRequestMappings => num_KSessionRequestMappings c
  | KSecureSystemResource => num_KProcess c
  | KThreadLockInfo => num_KThread c
  end.

Definition CalculateSlabHeapGapSize : Z := 0x200000 - 356 * 1024.

Section classes.
Context (sizeof alignof : KSlabType → Z) (c : KSlabResourceCounts).

Definition heap_size (t : KSlabType) : Z := AlignUp (u64 (sizeof t * slab_count c t)) 8.
Definition CalculateTotalSlabHeapSize : Z :=
  u64 (foldl (λ size t, u64 (u64 (size + alignof t) + heap_size t)) 0 all_types + CalculateSlabHeapGapSize).

(** ** [InitializeSlabHeaps] *)

(** What the function does to the outside: slab heaps that are set up, and ranges
    given to [FreeUnusedSlabMemory]. *)
Inductive event := HeapAt (t : KSlabType) (start size : Z) | Unused (start size : Z).

(** The last byte of a heap must lie in a region of the virtual tree made for slabs. *)
Context (tree : list Region.KMemoryRegion).
Definition InitializeSlabHeap (t : KSlabType) (address : Z) : res (Z * list event) :=
  let size := heap_size t in
  let start := AlignUp address (alignof t) in
  _ ← (if 0 <? size then
         region ← of_option Aborted (Region.Find tree (u64 (u64 (start + size) - 1)));
         check (Region.IsDerivedFrom region (RegionType.m_value RegionType.KernelSlab)) Aborted
       else Ok tt);
  Ok (u64 (start + size), if 0 <? size then [HeapAt t start size] else []).

(** [std::swap] of two elements. *)
Definition swap {A} (i j : nat) (l : list A) : list A :=
  match l !! i, l !! j with Some x, Some y => <[j := x]> (<[i := y]> l) | _, _ => l end.
(** The shuffle, for the numbers drawn. *)
Fixpoint shuffle {A} (i : nat) (draws : list Z) (l : list A) : list A :=
  match draws with [] => l | r :: draws' => shuffle (S i) draws' (swap i (Z.to_nat r) l) end.
(** The inner loop of the insertion sort, downwards from [j], and the outer one. *)
Fixpoint sift_down (j : nat) (l : list Z) : list Z :=
  match j with
  | O => l
  | S j' =>
      match l !! j', l !! j with
      | Some x, Some y => if y <? x then sift_down j' (swap j j' l) else l
      | _, _ => l
      end
  end.
Definition sort_gaps (l : list Z) : list Z := foldl (λ l i, sift_down i l) l (seq 1 (length l - 1)).

(** The main loop: each heap after its gap; a gap ends where a heap begins. *)
Fixpoint place_heaps (types : list KSlabType) (gaps : list Z) (prev_gap address gap_start gap_size : Z) : res (Z * Z * Z * list event) :=
  match types, gaps with
  | t :: types', g :: gaps' =>
      let cur_gap := u64 (g - prev_gap) in
      let address1 := u64 (address + cur_gap) in
      let gap_size1 := u64 (gap_size + cur_gap) in
      '(address2, ev) ← (if 0 <? slab_count c t then InitializeSlabHeap t address1 else Ok (address1, []));
      let hit := negb (u64 (gap_start + gap_size1) =? address2) in
      '(r, ev') ← place_heaps types' gaps' g address2 (if hit then address2 else gap_start) (if hit then 0 else gap_size1);
      Ok (r, ev ++ (if hit then [Unused gap_start gap_size1] else []) ++ ev')
  | _, _ => Ok (address, gap_start, gap_size, [])
  end.
Definition InitializeSlabHeaps_with (rnd_types rnd_gaps : list Z) : res (list event) :=
  slab_region ← Region.Dereference (Region.FindByType tree (RegionType.m_value RegionType.KernelSlab));
  let slab_start := Region.m_address slab_region in
  let slab_types := shuffle 0 rnd_types all_types in
  let slab_gaps := sort_gaps rnd_gaps in
  '((address, gap_start, gap_size), ev) ← place_heaps slab_types slab_gaps 0 slab_start slab_start 0;
  Ok (ev ++ [Unused gap_start (u64 (gap_size + u64 (Region.GetEndAddress slab_region - address)))]).

(** The numbers come from the generator: 23 for the shuffle, then 23 gaps. *)
Fixpoint draw (n fuel : nat) (max : Z) (rng : TinyMT.State) : res (list Z * TinyMT.State) :=
  match n with
  | O => Ok ([], rng)
  | S n' =>
      '(r, rng1) ← InitAlloc.GenerateUniformRange fuel 0 max rng;
      '(l, rng2) ← draw n' fuel max rng1;
      Ok (r :: l, rng2)
  end.
Definition InitializeSlabHeaps (fuel : nat) (rng : TinyMT.State) : res (list event * TinyMT.State) :=
  '(rnd_types, rng1) ← draw (length all_types) fuel (Z.of_nat (length all_types) - 1) rng;
  '(rnd_gaps, rng2) ← draw (length all_types) fuel CalculateSlabHeapGapSize rng1;
  ev ← InitializeSlabHeaps_with rnd_types rnd_gaps;
  Ok (ev, rng2).
End classes.

End SlabSetup.
