(* ===== verification/SlabSetupSpec.v ===== *)
(** * The slab heaps fit

    For every outcome of the draws of [InitializeSlabHeaps]: the shuffle permutes
    the kinds, the insertion sort orders the gaps, every heap is set up once and
    aligned, and the heaps and the ranges that are given back are disjoint parts of
    the slab region, which [CalculateTotalSlabHeapSize] bytes are enough for. *)

From Stdlib Require Import Sorted.
From S2P Require Import Prelude Vapours TinyMT MemoryRegion MemoryRegionSpec RegionType InitAllocator InitAllocatorLaws SlabSetup.

Module SlabSpec.
Import Util SlabSetup.

(** ** The shuffle *)
Lemma swap_perm {A} i j (l : list A) : swap i j l ≡ₚ l.
Proof. unfold swap. destruct (l !! i) as [x|] eqn:Hi, (l !! j) as [y|] eqn:Hj; try done. by apply Permutation_insert_swap. Qed.

Lemma shuffle_perm {A} i draws (l : list A) : shuffle i draws l ≡ₚ l.
Proof. revert i l. induction draws as [|r draws IH]; intros i l; [done|]. cbn [shuffle]. by rewrite IH, swap_perm. Qed.

(** ** The insertion sort *)
Abbreviation sorted := (StronglySorted Z.le).

Lemma sorted_snoc l x : sorted l → Forall (λ y, y ≤ x) l → sorted (l ++ [x]).
Proof.
  induction 1 as [|y l Hl IH Hy]; intros Hx; simpl; [by repeat constructor|]. inversion_clear Hx.
  constructor; [by apply IH|]. apply Forall_app. split; [done|by constructor].
Qed.

Lemma sorted_snoc_inv l x : sorted (l ++ [x]) → sorted l ∧ Forall (λ y, y ≤ x) l.
Proof.
  induction l as [|y l IH]; simpl; [by repeat constructor|]. intros Hs. inversion_clear Hs as [|? ? Hl Hy].
  destruct (IH Hl) as [IH1 IH2]. apply Forall_app in Hy as [Hy1 Hy2]. inversion_clear Hy2. split; by constructor.
Qed.

(** The inner loop inserts the element after a sorted prefix. *)
Lemma sift_down_spec l x tail : sorted l → ∃ l', sift_down (length l) (l ++ x :: tail) = l' ++ tail ∧ l' ≡ₚ x :: l ∧ sorted l'.
Proof.
  revert tail. induction l as [|z l IH] using rev_ind; intros tail Hs.
  - exists [x]. split; [done|]. split; [done|by repeat constructor].
  - apply sorted_snoc_inv in Hs as [Hl Hz]. rewrite length_app, Nat.add_1_r, <- app_assoc. cbn [sift_down app].
    assert ((l ++ z :: x :: tail) !! length l = Some z) as Ez by (by apply list_lookup_middle).
    assert ((l ++ z :: x :: tail) !! S (length l) = Some x) as Ex
      by (rewrite lookup_app_r by lia; replace (S (length l) - length l)%nat with 1%nat by lia; done).
    rewrite Ez, Ex. destruct (Z.ltb_spec x z).
    + assert (swap (S (length l)) (length l) (l ++ z :: x :: tail) = l ++ x :: z :: tail) as ->.
      { unfold swap. rewrite Ez, Ex. rewrite !insert_app_r_alt by lia.
        replace (S (length l) - length l)%nat with 1%nat by lia. by rewrite Nat.sub_diag. }
      destruct (IH (z :: tail) Hl) as (l' & E & Hp & Hs'). exists (l' ++ [z]). rewrite E, <- app_assoc.
      split; [done|]. split; [by rewrite Hp|]. apply sorted_snoc; [done|]. rewrite Hp. constructor; [lia|done].
    + exists ((l ++ [z]) ++ [x]). rewrite <- !app_assoc. split; [done|]. split; [by rewrite (app_assoc _ [z] [x]), (Permutation_app_comm _ [x])|].
      rewrite app_assoc. apply sorted_snoc; [by apply sorted_snoc|]. apply Forall_app. split; [|by repeat constructor; lia].
      eapply Forall_impl; [done|]. simpl. lia.
Qed.

Lemma sort_gaps_spec l : sort_gaps l ≡ₚ l ∧ sorted (sort_gaps l).
Proof.
  unfold sort_gaps. assert (∀ n pre tail, length tail = n → sorted pre → pre ≠ [] →
    ∃ l', foldl (λ l i, sift_down i l) (pre ++ tail) (seq (length pre) n) = l' ∧ l' ≡ₚ pre ++ tail ∧ sorted l') as Hgen.
  { induction n as [|n IH]; intros pre tail Ht Hs Hne.
    - destruct tail; [|done]. rewrite app_nil_r. by eexists.
    - destruct tail as [|x tail]; [done|]. cbn [seq foldl].
      destruct (sift_down_spec pre x tail Hs) as (pre' & -> & Hp & Hs').
      assert (length pre' = S (length pre)) as Hlen by (by rewrite Hp).
      destruct (IH pre' tail) as (l' & E & Hp' & Hs''); [by injection Ht|done|by intros ->|].
      exists l'. rewrite <- Hlen, E. split; [done|]. split; [|done]. rewrite Hp', Hp. by rewrite <- Permutation_middle. }
  destruct l as [|x l]; [by repeat constructor|].
  destruct (Hgen (length l) [x] l eq_refl) as (l' & E & Hp & Hs); [by repeat constructor|done|].
  simpl in *. rewrite Nat.sub_0_r. by rewrite E.
Qed.

(** ** Ranges *)
Definition range (e : event) : Z * Z := match e with HeapAt _ s z => (s, s + z) | Unused s z => (s, s + z) end.
Definition within (lo hi : Z) (e : event) : Prop := lo ≤ fst (range e) ∧ fst (range e) ≤ snd (range e) ∧ snd (range e) ≤ hi.
Definition apart (e e' : event) : Prop := snd (range e) ≤ fst (range e') ∨ snd (range e') ≤ fst (range e).
Definition kinds (l : list event) : list KSlabType := omap (λ e, match e with HeapAt t _ _ => Some t | Unused _ _ => None end) l.

(** Disjoint parts of a range. *)
Inductive parts (lo hi : Z) : list event → Prop :=
  | parts_nil : parts lo hi []
  | parts_cons e l : within lo hi e → Forall (apart e) l → parts lo hi l → parts lo hi (e :: l).

Lemma parts_app lo mid hi l1 l2 : lo ≤ mid ≤ hi → parts lo mid l1 → parts mid hi l2 → parts lo hi (l1 ++ l2).
Proof.
  intros Hm H1 H2. assert (parts lo hi l2 ∧ Forall (within mid hi) l2) as [H2' Hw].
  { induction H2 as [|e l He Ha _ [IH1 IH2]]; split; constructor; try done. unfold within in *. lia. }
  induction H1 as [|e l He Ha _ IH]; [done|]. simpl. constructor; [unfold within in *; lia| |done].
  apply Forall_app. split; [done|]. eapply Forall_impl; [exact Hw|]. intros x Hx. unfold apart, within in *. lia.
Qed.

Lemma parts_weaken lo hi hi' l : hi ≤ hi' → parts lo hi l → parts lo hi' l.
Proof. intros Hh. induction 1 as [|e l He Ha _ IH]; constructor; try done. unfold within in *. lia. Qed.

Section layout.
Context (sizeof alignof : KSlabType → Z) (c : KSlabResourceCounts) (tree : list Region.KMemoryRegion) (slab : Region.KMemoryRegion).
Abbreviation heap := (heap_size sizeof c).
Abbreviation slab_start := (Region.m_address slab).
Abbreviation slab_end := (Region.m_last_address slab + 1).

(** Alignments are powers of two, the products of sizes and counts are small, and the
    region of slabs is one of the tree's. *)
Record classes_ok : Prop := {
  co_align t : ∃ e, alignof t = 2 ^ e ∧ 0 ≤ e ≤ 12;
  co_size t : 0 ≤ sizeof t * slab_count c t ≤ 2 ^ 40;
  co_tiled : tiled tree;
  co_slab : slab ∈ tree ∧ Region.m_type_id slab = RegionType.m_value RegionType.KernelSlab;
  co_end : Region.m_last_address slab < 2 ^ 63;
}.
Context (Hok : classes_ok).

Definition need (t : KSlabType) : Z := alignof t + heap t.
Definition needs (l : list KSlabType) : Z := foldr (λ t n, need t + n) 0 l.

Lemma heap_range t : 0 ≤ heap t ≤ 2 ^ 41.
Proof using Hok.
  pose proof (co_size Hok t). unfold heap_size. rewrite wrap_small by (unfold in_width; lia).
  change 8 with (2 ^ 3). rewrite AlignUp_pow2 by lia. change (2 ^ 3) with 8.
  pose proof (Z.div_mod (sizeof t * slab_count c t + 8 - 1) 8 ltac:(lia)). pose proof (Z.mod_pos_bound (sizeof t * slab_count c t + 8 - 1) 8 ltac:(lia)). lia.
Qed.

Lemma align_range t : 1 ≤ alignof t ≤ 4096.
Proof using Hok.
  destruct (co_align Hok t) as (e & -> & He). pose proof (pow2_pos e ltac:(lia)). pose proof (Z.pow_le_mono_r 2 e 12). lia.
Qed.

Lemma needs_pos l : 0 ≤ needs l ≤ Z.of_nat (length l) * 2 ^ 42.
Proof using Hok.
  induction l as [|t l IH]; cbn [needs foldr length]; [lia|]. fold (needs l). pose proof (heap_range t). pose proof (align_range t). unfold need. lia.
Qed.

Lemma needs_perm l l' : l ≡ₚ l' → needs l = needs l'.
Proof. unfold needs. induction 1; simpl; lia. Qed.

(** One heap: aligned, after [address], and no further than it needs. *)
Lemma slab_step t address : slab_start ≤ address → address + need t ≤ slab_end → 0 ≤ slab_start →
  ∃ address' ev, (if 0 <? slab_count c t then InitializeSlabHeap sizeof alignof c tree t address else Ok (address, [])) = Ok (address', ev) ∧
    address ≤ address' ≤ address + need t ∧
    (ev = [] ∧ ¬ (0 < slab_count c t ∧ 0 < heap t) ∨
     0 < slab_count c t ∧ 0 < heap t ∧ ∃ s, ev = [HeapAt t s (heap t)] ∧ s mod alignof t = 0 ∧ address ≤ s ∧ s + heap t = address').
Proof using Hok.
  intros Ha Hend H0. pose proof (heap_range t) as Hh. pose proof (align_range t) as Hal. pose proof (co_end Hok) as He. unfold need in *.
  destruct (Z.ltb_spec 0 (slab_count c t)).
  2:{ eexists _, _. split; [reflexivity|]. split; [lia|]. left. split; [done|lia]. }
  assert (∃ q, AlignUp address (alignof t) = alignof t * q ∧ address ≤ alignof t * q ≤ address + alignof t) as (q & Eq & Hq).
  { destruct (co_align Hok t) as (e & Ee & Hre). rewrite Ee, AlignUp_pow2 by (rewrite <- ?Ee; lia). rewrite <- Ee. eexists. split; [done|].
    pose proof (Z.div_mod (address + alignof t - 1) (alignof t) ltac:(lia)). pose proof (Z.mod_pos_bound (address + alignof t - 1) (alignof t) ltac:(lia)). lia. }
  assert (alignof t * q mod alignof t = 0) as Hmod by (rewrite Z.mul_comm; apply Z.mod_mul; lia).
  unfold InitializeSlabHeap. rewrite Eq. set (s := alignof t * q) in *.
  rewrite (wrap_small 64 (s + heap t)) by (unfold in_width; lia).
  destruct (Z.ltb_spec 0 (heap t)).
  - destruct (co_slab Hok) as [Hin Hty].
    rewrite (wrap_small 64) by (unfold in_width; lia). rewrite (proj2 (Find_spec tree (s + heap t - 1) slab (co_tiled Hok))) by (split; [done|unfold inside; lia]).
    cbn [of_option mbind res_bind]. unfold Region.IsDerivedFrom. rewrite Hty, Z.lor_diag, Z.eqb_refl. cbn [check mbind res_bind].
    eexists _, _. split; [reflexivity|]. split; [lia|]. right. split; [done|]. split; [done|]. exists s. split_and!; try done; lia.
  - eexists _, _. split; [reflexivity|]. split; [lia|]. left. split; [done|lia].
Qed.
Definition heap_ok (e : event) : Prop :=
  match e with HeapAt t s z => s mod alignof t = 0 ∧ z = heap t | Unused _ _ => True end.
Definition present (t : KSlabType) : Prop := 0 < slab_count c t ∧ 0 < heap t.
#[local] Instance present_dec t : Decision (present t).
Proof. unfold present. apply _. Defined.

Lemma place_heaps_ok G types : ∀ gaps prev address gap_start gap_size,
  length types = length gaps → sorted gaps → Forall (λ g, prev ≤ g ≤ G) gaps → 0 ≤ prev ≤ G →
  gap_start + gap_size = address → 0 ≤ slab_start ≤ gap_start → 0 ≤ gap_size → address + (G - prev) + needs types ≤ slab_end →
  ∃ address' gap_start' gap_size' ev,
    place_heaps sizeof alignof c tree types gaps prev address gap_start gap_size = Ok (address', gap_start', gap_size', ev) ∧
    gap_start' + gap_size' = address' ∧ gap_start ≤ gap_start' ∧ 0 ≤ gap_size' ∧ address' ≤ slab_end ∧
    parts gap_start gap_start' ev ∧ kinds ev = filter present types ∧ Forall heap_ok ev.
Proof using Hok.
  induction types as [|t types IH]; intros [|g gaps] prev address gs gz Hlen Hs Hg Hp Hgs Hlo Hgz Hend; try done.
  - exists address, gs, gz, []. split_and!; try done; [simpl in Hend; lia|constructor].
  - inversion_clear Hs as [|? ? Hs' Hgg]. inversion_clear Hg as [|? ? Hg1 Hg']. cbn [place_heaps]. cbn [needs foldr] in Hend. fold (needs types) in Hend.
    pose proof (co_end Hok) as He. pose proof (needs_pos types) as Hn. pose proof (heap_range t). pose proof (align_range t).
    assert (need t = alignof t + heap t) as En by done.
    rewrite (wrap_small 64 (g - prev)) by (unfold in_width; lia). rewrite (wrap_small 64 (address + (g - prev))) by (unfold in_width; lia).
    rewrite (wrap_small 64 (gz + (g - prev))) by (unfold in_width; lia).
    destruct (slab_step t (address + (g - prev))) as (a2 & ev & -> & Ha2 & Hev); [lia..|].
    cbn [mbind res_bind]. rewrite (wrap_small 64) by (unfold in_width; lia). replace (gs + (gz + (g - prev))) with (address + (g - prev)) by lia.
    assert (Forall (λ y, g ≤ y ≤ G) gaps) as Hgg'.
    { apply Forall_forall. intros y Hy. split; [by apply (proj1 (Forall_forall _ _) Hgg)|by apply (proj1 (Forall_forall _ _) Hg' y)]. }
    set (hit := negb (address + (g - prev) =? a2)).
    destruct (IH gaps g a2 (if hit then a2 else gs) (if hit then 0 else gz + (g - prev))) as (a' & gs' & gz' & ev' & -> & E1 & E2 & E3 & E4 & E5 & E6 & E7);
      [by injection Hlen|done|done|lia|unfold hit; destruct (Z.eqb_spec (address + (g - prev)) a2); simpl; lia
      |unfold hit; destruct (Z.eqb_spec (address + (g - prev)) a2); simpl; lia|destruct hit; lia|lia|].
    cbn [mbind res_bind]. eexists a', gs', gz', _. split; [reflexivity|].
    split; [done|]. split; [destruct hit; lia|]. split; [done|]. split; [done|]. rewrite app_assoc.
    destruct Hev as [[-> Hno]|(Hc & Hh & s & -> & Hmod & Hs1 & Hs2)].
    + rewrite filter_cons_False by done. cbn [app]. destruct hit.
      * split_and!; [|done|by constructor]. apply (parts_app gs a2); [lia| |done].
        repeat constructor; unfold within; simpl; lia.
      * done.
    + rewrite filter_cons_True by done. unfold hit in *. rewrite (proj2 (Z.eqb_neq _ _)) in * by lia. cbn [negb app] in *.
      split_and!; [|by rewrite <- E6|by repeat constructor]. apply (parts_app gs a2 gs' [_; _]); [lia| |done].
      repeat constructor; unfold within, apart; simpl; lia.
Qed.
Lemma total_size : CalculateTotalSlabHeapSize sizeof alignof c = needs all_types + CalculateSlabHeapGapSize.
Proof using Hok.
  assert (∀ l n, 0 ≤ n → n + needs l ≤ 2 ^ 60 → foldl (λ size t, u64 (u64 (size + alignof t) + heap t)) n l = n + needs l) as Hfold.
  { induction l as [|t l IH]; intros n Hn Hb; cbn [foldl]; [cbn; lia|]. cbn [needs foldr] in Hb. fold (needs l) in Hb.
    pose proof (heap_range t). pose proof (align_range t). pose proof (needs_pos l). unfold need in *.
    rewrite (wrap_small 64 (n + alignof t)) by (unfold in_width; lia). rewrite wrap_small by (unfold in_width; lia).
    rewrite IH by lia. cbn [needs foldr]. fold (needs l). unfold need. lia. }
  pose proof (needs_pos all_types) as Hn. change (Z.of_nat (length all_types)) with 23 in Hn. unfold CalculateTotalSlabHeapSize.
  rewrite Hfold by lia. unfold CalculateSlabHeapGapSize. rewrite wrap_small by (unfold in_width; lia). lia.
Qed.

Lemma draw_range n fuel max rng l rng' : 0 ≤ max < 2 ^ 32 → draw n fuel max rng = Ok (l, rng') → length l = n ∧ Forall (λ r, 0 ≤ r ≤ max) l.
Proof.
  intros Hm. revert rng l rng'. induction n as [|n IH]; intros rng l rng'; cbn [draw]; [by intros [= <- <-]|]. intros Hd.
  apply res_bind_Ok in Hd as ([r rng1] & Hr & Hd). apply res_bind_Ok in Hd as ([l' rng2] & Hl & [= <- <-]).
  destruct (IH _ _ _ Hl) as [Hlen Hall]. split; [simpl; by rewrite Hlen|]. constructor; [|done].
  eapply (InitAllocLaws.GenerateRandomRange_range fuel 0 0 max (Some rng) r); [lia|lia|].
  unfold InitAlloc.GenerateRandomRange. rewrite Hr. reflexivity.
Qed.
End layout.

(** (C16) Whatever [InitializeSlabHeaps] draws, it does not abort: every kind with objects
    gets one heap of its size, aligned for it, and the heaps and the ranges given to
    [FreeUnusedSlabMemory] are disjoint parts of the slab region, as soon as the
    region has [CalculateTotalSlabHeapSize] bytes; so the gap that may be one byte
    longer than meant is indeed harmless. *)
Theorem slab_heaps_fit sizeof alignof c tree slab fuel rng rnd_types rng1 rnd_gaps rng2 :
  classes_ok sizeof alignof c tree slab →
  Region.FindByType tree (RegionType.m_value RegionType.KernelSlab) = Some slab →
  CalculateTotalSlabHeapSize sizeof alignof c ≤ Region.GetSize slab →
  draw (length all_types) fuel (Z.of_nat (length all_types) - 1) rng = Ok (rnd_types, rng1) →
  draw (length all_types) fuel CalculateSlabHeapGapSize rng1 = Ok (rnd_gaps, rng2) →
  ∃ ev, InitializeSlabHeaps sizeof alignof c tree fuel rng = Ok (ev, rng2) ∧
    parts (Region.m_address slab) (Region.m_last_address slab + 1) ev ∧
    kinds ev ≡ₚ filter (present sizeof c) all_types ∧ Forall (heap_ok sizeof alignof c) ev.
Proof.
  intros Hok Hslab Hsize Hd1 Hd2. destruct (draw_range (length all_types) fuel CalculateSlabHeapGapSize _ _ _ ltac:(done) Hd2) as [Hlen Hgaps].
  destruct (sort_gaps_spec rnd_gaps) as [Hperm Hsorted]. set (types := shuffle 0 rnd_types all_types).
  assert (types ≡ₚ all_types) as Htypes by apply shuffle_perm.
  assert (region_ok slab) as (H0 & H1 & _).
  { pose proof (co_slab _ _ _ _ _ Hok) as [(l1 & l2 & E)%list_elem_of_split _]. eapply found_ok. rewrite <- E. apply Hok. }
  pose proof (co_end _ _ _ _ _ Hok) as He. unfold Region.GetSize, Region.GetEndAddress in Hsize.
  rewrite (wrap_small 64 (Region.m_last_address slab + 1)), (wrap_small 64) in Hsize by (unfold in_width; rewrite ?wrap_small; unfold in_width; lia).
  rewrite (total_size _ _ _ _ _ Hok), <- (needs_perm _ _ _ _ _ Htypes) in Hsize.
  destruct (place_heaps_ok _ _ _ _ _ Hok CalculateSlabHeapGapSize types (sort_gaps rnd_gaps) 0 (Region.m_address slab) (Region.m_address slab) 0)
    as (a' & gs' & gz' & ev & Hrun & E1 & E2 & E3 & E4 & E5 & E6 & E7); [by rewrite Htypes, Hperm, Hlen|done|by rewrite Hperm|done|lia|lia|lia|lia|].
  eexists. unfold InitializeSlabHeaps. rewrite Hd1. cbn [mbind res_bind]. rewrite Hd2. cbn [mbind res_bind].
  unfold InitializeSlabHeaps_with. rewrite Hslab. cbn [Region.Dereference of_option mbind res_bind]. fold types. rewrite Hrun. cbn [mbind res_bind].
  split; [reflexivity|]. unfold Region.GetEndAddress. rewrite (wrap_small 64 (Region.m_last_address slab + 1)) by (unfold in_width; lia).
  rewrite (wrap_small 64 (_ - a')) by (unfold in_width; lia). rewrite wrap_small by (unfold in_width; lia).
  split_and!.
  - apply (parts_app _ gs'); [lia|done|]. repeat constructor; unfold within; simpl; lia.
  - unfold kinds. rewrite omap_app. cbn [omap list_omap]. rewrite app_nil_r. fold (kinds ev). rewrite E6. by rewrite Htypes.
  - apply Forall_app. split; [done|by repeat constructor].
Qed.

(** Classes of 256 bytes, and a slab region of 16 megabytes. *)
Definition slab0 : Region.KMemoryRegion := Region.mkRegion 0x40000000 (2 ^ 64 - 1) 0x40FFFFFF 0 (RegionType.m_value RegionType.KernelSlab).

Lemma slab_heaps_fit_witness :
  ∃ ev rng', InitializeSlabHeaps (λ _, 256) (λ _, 16) g_slab_resource_counts [slab0] 9 [1; 2; 3; 4] = Ok (ev, rng') ∧
    parts 0x40000000 0x41000000 ev ∧ kinds ev ≡ₚ all_types.
Proof.
  destruct (draw (length all_types) 9 (Z.of_nat (length all_types) - 1) [1; 2; 3; 4]) as [[rnd_types rng1]|] eqn:Hd1; [|by vm_compute in Hd1].
  destruct (draw (length all_types) 9 CalculateSlabHeapGapSize rng1) as [[rnd_gaps rng2]|] eqn:Hd2;
    [|vm_compute in Hd1; injection Hd1 as <- <-; by vm_compute in Hd2].
  destruct (slab_heaps_fit (λ _, 256) (λ _, 16) g_slab_resource_counts [slab0] slab0 9 [1; 2; 3; 4] rnd_types rng1 rnd_gaps rng2)
    as (ev & Hrun & Hparts & Hkinds & _); [|done|by vm_compute|done|done|].
  - clear. split.
    + intros t. by exists 4.
    + intros t. destruct t; split; by apply Z.leb_le; vm_compute.
    + split; [|split; [by intros x ?%not_elem_of_nil|done]]. split; [by simpl|]. split; [done|by left].
    + split; [by left|done].
    + done.
  - exists ev, rng2. split; [done|]. split; [done|]. rewrite Hkinds. reflexivity.
Defined.

End SlabSpec.
