(* ===== verification/StartUpPhases.v ===== *)
(** * The two phases of start-up

    [InitializeCorePhase1] and [InitializeCorePhase2] of kernel/host/kern_init_core.cpp,
    with the memory regions of the board (libmesosphere,
    [kern_k_memory_layout.board.host.cpp]) and the set-up of the cores.  The source
    splits each phase with comments; each part is a definition here. *)

From S2P Require Import Prelude Vapours TinyMT MemoryRegion RegionType PageHeap MemoryManager PageTableEntry InitPageTable InitAllocator InitPageTableEdit StartUp SlabSetup.

Module Phases.
Import PTE Util InitPT InitAlloc InitPTEdit Region StartUp.

(** ** Inputs *)

(** Variables of the board and symbols of the linker. *)
Record board := mkBoard {
  KernelVirtualAddressSpaceBase : Z;
  KernelVirtualAddressSpaceEnd : Z;
  KernelVirtualAddressSpaceLast : Z;
  KernelVirtualAddressSpaceSize : Z;
  KernelPhysicalAddressSpaceBase : Z;
  KernelPhysicalAddressSpaceSize : Z;
  KernelResourceSize : Z;
  start_symbol : Z;
  end_symbol : Z;
  IdentityMappedFunctionAreaBegin : Z;
  IdentityMappedFunctionAreaEnd : Z;
  InvokeMain : Z;
}.
(** System registers at the time of the call. *)
Record registers := mkRegs {
  reg_ttbr0 : Z; reg_ttbr1 : Z; reg_tcr : Z; reg_mair : Z; reg_cpuactlr : Z; reg_cpuectlr : Z; reg_sctlr : Z; reg_mpidr : Z;
}.

(** The generic register accessor. *)
Definition reg_bits (value offset count : Z) : Z := Z.land (Z.shiftr value offset) (Z.shiftl 1 count - 1).
Definition GetT0Size (tcr : Z) : Z := u64 (Z.shiftl 1 (64 - reg_bits tcr 0 6)).
Definition GetT1Size (tcr : Z) : Z := u64 (Z.shiftl 1 (64 - reg_bits tcr 16 6)).
Definition init_page_table (r : registers) : res KInitialPageTable :=
  from_registers (reg_ttbr0 r) (reg_ttbr1 r) (GetT0Size (reg_tcr r)) (GetT1Size (reg_tcr r)).

(** ** Cores *)
Definition GetCpuOnArgument (mpidr : Z) : Z := Z.land mpidr 0x000000FF00FFFF00.
Definition GetAff0 (mpidr : Z) : Z := reg_bits mpidr 0 8.
(** [TurnOnAllCores]: the calls of [TurnOnCpu], as the argument and the core. *)
Definition TurnOnAllCores (mpidr : Z) : list (Z * nat) :=
  (λ i, (Z.lor (GetCpuOnArgument mpidr) (Z.of_nat i), i)) <$>
    filter (λ i, GetAff0 mpidr ≠ Z.of_nat i) (seq 0 NumCores).

Record KInitArguments := mkInitArgs {
  ia_ttbr0 : Z; ia_ttbr1 : Z; ia_tcr : Z; ia_mair : Z; ia_cpuactlr : Z; ia_cpuectlr : Z; ia_sctlr : Z;
  ia_sp : Z; ia_entrypoint : Z; ia_argument : Z;
}.
Definition StackParametersSize : Z := 0x140.
Definition GetStackTopAddress (tree : list KMemoryRegion) (core_id type : Z) : res Z :=
  region ← Dereference (FindByTypeAndAttribute tree type core_id);
  _ ← check (negb (GetEndAddress region =? 0)) Aborted;
  Ok (GetEndAddress region).
Definition GetMainStackTopAddress (tree : list KMemoryRegion) (core_id : Z) : res Z :=
  GetStackTopAddress tree core_id (value RegionType.KernelMiscMainStack).
Definition GetExceptionStackTopAddress (tree : list KMemoryRegion) (core_id : Z) : res Z :=
  GetStackTopAddress tree core_id (value RegionType.KernelMiscExceptionStack).
Definition init_arguments (b : board) (r : registers) (tree : list KMemoryRegion) (i : nat) : res KInitArguments :=
  top ← GetMainStackTopAddress tree (Z.of_nat i);
  Ok (mkInitArgs (reg_ttbr0 r) (reg_ttbr1 r) (reg_tcr r) (reg_mair r) (reg_cpuactlr r) (reg_cpuectlr r) (reg_sctlr r)
        (u64 (top - StackParametersSize)) (InvokeMain b) (Z.of_nat i)).
Fixpoint setup_arguments (b : board) (r : registers) (tree : list KMemoryRegion) (cores : list nat) : res (list KInitArguments) :=
  match cores with
  | [] => Ok []
  | i :: cores' => a ← init_arguments b r tree i; l ← setup_arguments b r tree cores'; Ok (a :: l)
  end.
Definition SetupInitialArguments (b : board) (r : registers) (tree : list KMemoryRegion) : res (list KInitArguments) :=
  setup_arguments b r tree (seq 0 NumCores).

(** [InitializeDebugRegisters] and [InitializeExceptionVectors]: the registers
    written, in order. *)
Inductive sysreg : Set :=
  | Mdscr | OsLar | DbgWcr (n : nat) | DbgWvr (n : nat) | DbgBcr (n : nat) | DbgBvr (n : nat) | ContextIdr
  | Vbar | Tpidr | ExceptionThreadStackTop.
Definition clear_pair (wcr wvr : nat → sysreg) (id : nat) : list (sysreg * Z) := [(wcr id, 0); (wvr id, 0)].
(** The cases [n] down to 1 of a switch that falls through. *)
Fixpoint falling (wcr wvr : nat → sysreg) (n : nat) : list (sysreg * Z) :=
  match n with O => [] | S n' => clear_pair wcr wvr n ++ falling wcr wvr n' end.
Definition InitializeDebugRegisters (aa64dfr0 : Z) : list (sysreg * Z) :=
  let num_watchpoints := reg_bits aa64dfr0 20 4 in
  let num_breakpoints := reg_bits aa64dfr0 12 4 in
  [(Mdscr, 0); (OsLar, 0)] ++
  (if num_watchpoints <=? 15 then falling DbgWcr DbgWvr (Z.to_nat num_watchpoints) ++ clear_pair DbgWcr DbgWvr 0 else []) ++
  (if num_breakpoints <=? 15 then falling DbgBcr DbgBvr (Z.to_nat num_breakpoints) else []) ++
  clear_pair DbgBcr DbgBvr 0 ++
  [(ContextIdr, 2 ^ 32 - 1); (Mdscr, Z.lor (Z.shiftl 1 15) (Z.shiftl 1 12))].
Definition InitializeExceptionVectors (vectors : Z) : list (sysreg * Z) :=
  [(Vbar, vectors); (Tpidr, 0); (ExceptionThreadStackTop, 0)].

(** ** The regions of the board *)
Definition MainMemoryAddress : Z := 0x40000000.
Definition MainMemorySize : Z := 0x100000000.
Definition GetIntendedMemorySize : Z := MainMemorySize.
Definition GetRealMemorySize : Z := MainMemorySize.
Definition GetKernelPhysicalBaseAddress (base_address : Z) : Z :=
  if u64 (GetIntendedMemorySize * 2) <? GetRealMemorySize then base_address
  else u64 (base_address + (GetRealMemorySize - GetIntendedMemorySize) / 2).
Definition ReservedEarlyDramSize : Z := 0x00080000.
Definition InterruptCpuInterface : RegionType.KMemoryRegionTypeValue :=
  RegionType.typ (RegionType.chain (RegionType.DeriveSparse 0 3 1 RegionType.ArchDeviceBase) (RegionType.SetAttribute RegionType.KMemoryRegionAttr_NoUserMap)).
Definition InterruptDistributor : RegionType.KMemoryRegionTypeValue :=
  RegionType.typ (RegionType.chain (RegionType.DeriveSparse 0 3 2 RegionType.ArchDeviceBase) (RegionType.SetAttribute RegionType.KMemoryRegionAttr_NoUserMap)).
Definition GetMemoryRegionType (base attr : Z) : Z := Z.lor base attr.

Definition SetupDevicePhysicalMemoryRegions : kM unit :=
  _ ← insert_phys 0x08000000 0x10000 (GetMemoryRegionType (value InterruptDistributor) RegionType.KMemoryRegionAttr_ShouldKernelMap) 0;
  insert_phys 0x08010000 0x10000 (GetMemoryRegionType (value InterruptCpuInterface) RegionType.KMemoryRegionAttr_ShouldKernelMap) 0.
Definition SetupDramPhysicalMemoryRegions : kM unit :=
  let base := GetKernelPhysicalBaseAddress MainMemoryAddress in
  _ ← insert_phys base GetIntendedMemorySize (value RegionType.Dram) 0;
  insert_phys base ReservedEarlyDramSize (value RegionType.DramReservedEarly) 0.

(** A pool region goes into both trees, with the next attribute. *)
Definition InsertPoolPartitionRegionIntoBothTrees (start size phys_type virt_type cur_attr : Z) : kM Z :=
  _ ← insert_phys start size phys_type cur_attr;
  k ← st_get;
  phys ← st_lift (of_option Aborted (FindByTypeAndAttribute (k_phys k) phys_type cur_attr));
  _ ← st_check (negb (GetEndAddress phys =? 0)) Aborted;
  _ ← insert_virt (m_pair_address phys) size virt_type cur_attr;
  mret (u32 (cur_attr + 1)).

(** The sizes of the pools come from the board. *)
Section pools.
Context (application_pool_size applet_pool_size unsafe_system_pool_min_size : Z).

Definition overhead (size : Z) : kM Z := st_lift (Impl_CalculateManagementOverheadSize size).
(** A pool of [size > 0], its attribute and its overhead added to the sums. *)
Definition insert_pool (start size phys_type virt_type : Z) (acc : Z * Z) : kM (Z * Z) :=
  attr ← InsertPoolPartitionRegionIntoBothTrees start size phys_type virt_type (fst acc);
  o ← overhead size;
  mret (attr, u64 (snd acc + o)).
Definition application_pool (dram_start dram_end application_pool_start : Z) (acc : Z * Z) : kM (Z * Z) :=
  let dram_midpoint := u64 (dram_start + dram_end) / 2 in
  let pt := value RegionType.DramApplicationPool in
  let vt := value RegionType.VirtualDramApplicationPool in
  if negb (0 <? application_pool_size) then mret acc
  else if (dram_end <=? dram_midpoint) || (dram_midpoint <=? application_pool_start) then
    insert_pool application_pool_start application_pool_size pt vt acc
  else
    let first_application_pool_size := u64 (dram_midpoint - application_pool_start) in
    let second_application_pool_size := u64 (u64 (application_pool_start + application_pool_size) - dram_midpoint) in
    attr1 ← InsertPoolPartitionRegionIntoBothTrees application_pool_start first_application_pool_size pt vt (fst acc);
    attr2 ← InsertPoolPartitionRegionIntoBothTrees dram_midpoint second_application_pool_size pt vt attr1;
    o1 ← overhead first_application_pool_size;
    o2 ← overhead second_application_pool_size;
    mret (attr2, u64 (u64 (snd acc + o1) + o2)).
Definition SetupPoolPartitionMemoryRegions : kM unit :=
  k ← st_get;
  dram_extents ← st_lift (GetDerivedRegionExtents (k_phys k) (value RegionType.Dram));
  let dram_start := m_address (fst dram_extents) in
  let dram_end := GetEndAddress (snd dram_extents) in
  _ ← st_check (negb (dram_end =? 0)) Aborted;
  pool_partitions_region ← st_lift (of_option Aborted (FindByTypeAndAttribute (k_phys k) (value RegionType.DramPoolPartition) 0));
  let pool_partitions_start := m_address pool_partitions_region in
  let pool_end := GetEndAddress pool_partitions_region in
  _ ← st_check (pool_end =? dram_end) Aborted;
  _ ← st_lift (of_option Aborted (FindFirstDerived (k_phys k) (value RegionType.DramKernelBase)));
  let application_pool_start := u64 (pool_end - application_pool_size) in
  let applet_pool_start := u64 (application_pool_start - applet_pool_size) in
  let unsafe_system_pool_start := AlignDown (u64 (applet_pool_start - unsafe_system_pool_min_size)) PageSize in
  let unsafe_system_pool_size := u64 (applet_pool_start - unsafe_system_pool_start) in
  acc1 ← application_pool dram_start dram_end application_pool_start (0, 0);
  acc2 ← (if 0 <? applet_pool_size then
            insert_pool applet_pool_start applet_pool_size (value RegionType.DramAppletPool) (value RegionType.VirtualDramAppletPool) acc1
          else mret acc1);
  acc3 ← (if 0 <? unsafe_system_pool_size then
            insert_pool unsafe_system_pool_start unsafe_system_pool_size (value RegionType.DramSystemNonSecurePool)
              (value RegionType.VirtualDramSystemNonSecurePool) acc2
          else mret acc2);
  o ← overhead (u64 (u64 (unsafe_system_pool_start - pool_partitions_start) - snd acc3));
  let total_overhead_size := u64 (snd acc3 + o) in
  let system_pool_start := u64 (pool_partitions_start + total_overhead_size) in
  let system_pool_size := u64 (unsafe_system_pool_start - system_pool_start) in
  _ ← InsertPoolPartitionRegionIntoBothTrees system_pool_start system_pool_size (value RegionType.DramSystemPool)
        (value RegionType.VirtualDramSystemPool) (fst acc3);
  _ ← InsertPoolPartitionRegionIntoBothTrees pool_partitions_start total_overhead_size (value RegionType.DramPoolManagement)
        (value RegionType.VirtualDramPoolManagement) 0;
  mret tt.
End pools.

(** ** Phase 1 *)
Section phases.
Context (fuel : nat) (tick : Z) (b : board) (sizeof alignof : SlabSetup.KSlabType → Z).

(** [init_page_table] and [InsertDirectly] of the roots of both trees. *)
Definition insert_roots : kM unit :=
  _ ← on_virt (InsertDirectly (KernelVirtualAddressSpaceBase b)
        (u64 (u64 (KernelVirtualAddressSpaceBase b + KernelVirtualAddressSpaceSize b) - 1)) 0 0);
  on_phys (InsertDirectly (KernelPhysicalAddressSpaceBase b)
        (u64 (u64 (KernelPhysicalAddressSpaceBase b + KernelPhysicalAddressSpaceSize b) - 1)) 0 0).

Definition KernelRegionSize : Z := 0x40000000.
Definition kernel_region_size (kernel_region_start : Z) : Z :=
  if negb (u64 (u64 (kernel_region_start + KernelRegionSize) - 1) <=? KernelVirtualAddressSpaceLast b)
  then u64 (KernelVirtualAddressSpaceEnd b - kernel_region_start) else KernelRegionSize.
Definition code_region_start : Z := AlignDown (start_symbol b) PageSize.
Definition code_region_size : Z := u64 (AlignUp (end_symbol b) PageSize - code_region_start).
Definition setup_kernel_and_code : kM unit :=
  let kernel_region_start := AlignDown (start_symbol b) KernelRegionSize in
  _ ← insert_virt kernel_region_start (kernel_region_size kernel_region_start) (value RegionType.Kernel) 0;
  insert_virt code_region_start code_region_size (value RegionType.KernelCode) 0.

(** The room for the misc region: stacks, devices to map, and guards. *)
Fixpoint misc_needed (l : list KMemoryRegion) (misc_region_needed_size : Z) : res Z :=
  match l with
  | [] => Ok misc_region_needed_size
  | region :: l' =>
      if HasTypeAttribute region RegionType.KMemoryRegionAttr_ShouldKernelMap then
        _ ← check (negb (GetEndAddress region =? 0)) Aborted;
        let aligned_start := AlignDown (m_address region) PageSize in
        let aligned_end := AlignUp (m_last_address region) PageSize in
        let cur_region_size := u64 (aligned_end - aligned_start) in
        let min_align := Z.min (GetAlignment cur_region_size) (GetAlignment aligned_start) in
        misc_needed l' (u64 (u64 (misc_region_needed_size + cur_region_size)
                          + (if KernelAslrAlignment <=? min_align then KernelAslrAlignment else PageSize)))
      else misc_needed l' misc_region_needed_size
  end.
Definition GetMiscUnknownDebugRegionSize : Z := 0.
Definition misc_region_size (l : list KMemoryRegion) : res Z :=
  n ← misc_needed l (Z.of_nat NumCores * (3 * (PageSize + PageSize)));
  Ok (AlignUp (Z.max (u64 (u64 (n + GetMiscUnknownDebugRegionSize) * 3)) 0x2000000) KernelAslrAlignment).

(** A region of the kernel at a random place. *)
Definition setup_region (pt : KInitialPageTable) (size type : Z) : kM unit :=
  start ← GetRandomAlignedRegion fuel tick size KernelAslrAlignment pt (value RegionType.Kernel);
  insert_virt start size type 0.
Definition setup_misc (pt : KInitialPageTable) : kM unit :=
  k ← st_get;
  size ← st_lift (misc_region_size (k_phys k));
  _ ← st_check (0 <? size) Aborted;
  setup_region pt size (value RegionType.KernelMisc).
Definition ShouldIncreaseThreadResourceLimit : bool := true.
Definition setup_stack_region (pt : KInitialPageTable) : kM unit :=
  setup_region pt (if ShouldIncreaseThreadResourceLimit then 0x1800000 else 0xE00000) (value RegionType.KernelStack).

Definition SecureAppletMemorySize : Z := 0.
Definition KernelSlabHeapAdditionalSize : Z := 0x148000.
Definition KernelPageBufferAdditionalSize : Z := 0x33C000.
Definition GetResourceRegionSizeForInit (use_extra_resource : bool) : Z :=
  u64 (u64 (KernelResourceSize b + SecureAppletMemorySize)
       + (if use_extra_resource then KernelSlabHeapAdditionalSize + KernelPageBufferAdditionalSize else 0)).
Definition slab_region_size : Z :=
  AlignUp (SlabSetup.CalculateTotalSlabHeapSize sizeof alignof
             (SlabSetup.InitializeSlabResourceCounts ShouldIncreaseThreadResourceLimit SlabSetup.g_slab_resource_counts)) PageSize.

(** The slab region starts at the offset of its physical memory in a block: the
    physical address of the code and the virtual address of the slabs. *)
Definition setup_slab (pt : KInitialPageTable) : kM (Z * Z) :=
  _ ← st_check (slab_region_size <=? GetResourceRegionSizeForInit ShouldIncreaseThreadResourceLimit) Aborted;
  k ← st_get;
  code_start_phys_addr ← st_lift (GetPhysicalAddressOfRandomizedRange pt (k_mem k) (start_symbol b) code_region_size);
  let code_end_phys_addr := u64 (code_start_phys_addr + code_region_size) in
  let slab_region_needed_size := u64 (AlignUp (u64 (code_end_phys_addr + slab_region_size)) KernelAslrAlignment
                                      - AlignDown code_end_phys_addr KernelAslrAlignment) in
  start ← GetRandomAlignedRegion fuel tick slab_region_needed_size KernelAslrAlignment pt (value RegionType.Kernel);
  let slab_region_start := u64 (start + code_end_phys_addr mod KernelAslrAlignment) in
  _ ← insert_virt slab_region_start slab_region_size (value RegionType.KernelSlab) 0;
  mret (code_start_phys_addr, slab_region_start).

Definition TempRegionSize : Z := 0x8000000.

(** The physical regions of code, slabs and the page table heap; the slabs are
    mapped and shuffled. *)
Definition randomize (pt : KInitialPageTable) (virt_addr size : Z) : kM unit := λ k,
  '(m, rng) ← PhysicallyRandomize fuel tick pt virt_addr size false (k_mem k, s_random_generator (k_alloc k));
  Ok (tt, mkK m (mkAllocator (m_state (k_alloc k)) rng) (k_virt k) (k_phys k) (k_num k)).
Definition setup_kernel_dram (pt : KInitialPageTable) (code_start_phys_addr slab_region_start : Z) : kM Z :=
  let slab_start_phys_addr := u64 (code_start_phys_addr + code_region_size) in
  let slab_end_phys_addr := u64 (slab_start_phys_addr + slab_region_size) in
  _ ← insert_phys code_start_phys_addr code_region_size (value RegionType.DramKernelCode) 0;
  _ ← insert_phys slab_start_phys_addr slab_region_size (value RegionType.DramKernelSlab) 0;
  _ ← map_pages fuel tick pt slab_region_start slab_region_size slab_start_phys_addr KernelRwDataAttribute;
  _ ← randomize pt slab_region_start slab_region_size;
  let secure_applet_end_phys_addr := u64 (slab_end_phys_addr + SecureAppletMemorySize) in
  _ ← (if 0 <? SecureAppletMemorySize then
         insert_phys slab_end_phys_addr SecureAppletMemorySize (value RegionType.DramKernelSecureAppletMemory) 0
       else mret tt);
  let resource_end_phys_addr := u64 (slab_start_phys_addr + GetResourceRegionSizeForInit ShouldIncreaseThreadResourceLimit) in
  _ ← insert_phys secure_applet_end_phys_addr (u64 (resource_end_phys_addr - secure_applet_end_phys_addr)) (value RegionType.DramKernelPtHeap) 0;
  mret resource_end_phys_addr.

(** The linear region: aligned to a gigabyte around all linear memory. *)
Definition LinearRegionAlign : Z := 0x40000000.
Definition setup_linear (pt : KInitialPageTable) : kM Z :=
  k ← st_get;
  _ ← tag_linear 0 (k_phys k);
  k ← st_get;
  linear_extents ← st_lift (GetDerivedRegionExtents (k_phys k) RegionType.KMemoryRegionAttr_LinearMapped);
  let linear_end := GetEndAddress (snd linear_extents) in
  _ ← st_check (negb (linear_end =? 0)) Aborted;
  let aligned_linear_phys_start := AlignDown (m_address (fst linear_extents)) LinearRegionAlign in
  let linear_region_size := u64 (AlignUp linear_end LinearRegionAlign - aligned_linear_phys_start) in
  linear_region_start ← GetRandomAlignedRegionWithGuard fuel tick linear_region_size LinearRegionAlign pt
    (value RegionType.KMemoryRegionType_None) LinearRegionAlign;
  let diff := u64 (linear_region_start - aligned_linear_phys_start) in
  _ ← map_linear fuel tick pt diff;
  mret diff.

(** [std::memset] of the slab region. *)
Fixpoint zero_words (n : nat) (ptr : Z) (m : mem) : mem :=
  match n with O => m | S n' => zero_words n' (u64 (ptr + 8)) (<[ptr := 0]> m) end.
Definition clear_slab (address size : Z) : kM unit :=
  with_pages (st_mod (λ s, (zero_words (Z.to_nat (size / 8)) address (fst s), snd s))).

(** What phase 1 leaves for phase 2, and the arguments of the cores. *)
Record phase2_data := mkPhase2 {
  g_phase2_resource_end_phys_addr : Z;
  g_phase2_linear_region_phys_to_virt_diff : Z;
  g_init_arguments : list KInitArguments;
}.
Definition InitializeCorePhase1 (r : registers) (misc_unk_debug_phys_addr : Z) (initial_page_allocator_state : State) : kM phase2_data :=
  _ ← st_check (IsAligned misc_unk_debug_phys_addr PageSize) Aborted;
  _ ← with_pages (st_mod (λ s, (fst s, mkAllocator (InitializeFromState initial_page_allocator_state (m_state (snd s))) (s_random_generator (snd s)))));
  pt ← st_lift (init_page_table r);
  _ ← insert_roots;
  _ ← setup_kernel_and_code;
  _ ← SetupDevicePhysicalMemoryRegions;
  _ ← setup_misc pt;
  _ ← setup_stack_region pt;
  '(code_start_phys_addr, slab_region_start) ← setup_slab pt;
  _ ← setup_region pt TempRegionSize (value RegionType.KernelTemp);
  _ ← automap_devices fuel tick pt;
  _ ← SetupDramPhysicalMemoryRegions;
  _ ← automap_reserved fuel tick pt;
  resource_end ← setup_kernel_dram pt code_start_phys_addr slab_region_start;
  diff ← setup_linear pt;
  _ ← clear_slab slab_region_start slab_region_size;
  _ ← map_stacks fuel tick pt;
  k ← st_get;
  args ← st_lift (SetupInitialArguments b r (k_virt k));
  mret (mkPhase2 resource_end diff args).

(** ** Phase 2 *)

(** The words of [m] at their linear addresses too.  Page tables are reached at their
    physical addresses until the identity mapping goes, and at the linear ones from
    then on. *)
Definition linear_view (off : Z) (m : mem) : mem := m ∪ list_to_map ((λ w, (u64 (fst w + off), snd w)) <$> map_to_list m).
Definition FinalizeIdentityMapping (pt : KInitialPageTable) (phys_to_virt_offset : Z) : kM unit := λ k,
  '(f, (m, a)) ← @FinalizeAllocator_new _ (KInitialPageAllocator_ops fuel tick) phys_to_virt_offset (k_mem k, k_alloc k);
  start_phys_addr ← GetPhysicalAddress pt m (IdentityMappedFunctionAreaBegin b);
  m1 ← UnmapTtbr0Entries pt phys_to_virt_offset (linear_view phys_to_virt_offset m);
  let size := AlignUp (u64 (IdentityMappedFunctionAreaEnd b - IdentityMappedFunctionAreaBegin b)) PageSize in
  '(_, (m2, _)) ← Map pt start_phys_addr size start_phys_addr KernelTextAttribute phys_to_virt_offset (m1, f);
  Ok (tt, mkK m2 a (k_virt k) (k_phys k) (k_num k)).

Definition take_final_state : kM State := λ k,
  let '(final, empty) := GetFinalState (m_state (k_alloc k)) in
  Ok (final, mkK (k_mem k) (mkAllocator empty (s_random_generator (k_alloc k))) (k_virt k) (k_phys k) (k_num k)).

(** Linear DRAM that is still untagged becomes the pool partition. *)
Definition UntaggedLinearDram : Z := Z.lor (value RegionType.Dram) RegionType.KMemoryRegionAttr_LinearMapped.
Fixpoint tag_pools (i : nat) (l : list KMemoryRegion) : kM unit :=
  match l with
  | [] => mret tt
  | region :: l' =>
      _ ← (if m_type_id region =? UntaggedLinearDram then
             r' ← st_lift (SetType (value RegionType.DramPoolPartition) region);
             set_phys i (λ _, r')
           else mret tt);
      tag_pools (S i) l'
  end.
Definition validate_ini (ini_address : Z) : kM unit :=
  k ← st_get;
  ini_region ← st_lift (of_option NullDeref (Find (k_phys k) ini_address));
  _ ← st_check (IsDerivedFrom ini_region (value RegionType.DramUserPool)) Aborted;
  _ ← st_check (m_address ini_region <=? ini_address) Aborted;
  _ ← st_check (u64 (ini_address + InitialProcessBinarySizeMax) <=? GetEndAddress ini_region) Aborted;
  st_check (negb (GetEndAddress ini_region =? 0)) Aborted.
Definition GetApplicationPoolSize : Z := 0.
Definition GetAppletPoolSize : Z := 0.
Definition GetMinimumNonSecureSystemPoolSize : Z := 0.

(** The trees of linear regions, which share the array of regions too. *)
Definition InitializeLinearMemoryRegionTrees : kM (list KMemoryRegion * list KMemoryRegion) := λ k,
  '(_, tp) ← insert_linear (λ r, HasTypeAttribute r RegionType.KMemoryRegionAttr_LinearMapped) (k_phys k) (mkTree [] (k_num k));
  '(_, tv) ← insert_linear (λ r, IsDerivedFrom r (value RegionType.Dram)) (k_virt k) (mkTree [] (m_num_regions tp));
  Ok ((regions tv, regions tp), mkK (k_mem k) (k_alloc k) (k_virt k) (k_phys k) (m_num_regions tv)).

Record layout := mkLayout {
  s_virtual_linear_tree : list KMemoryRegion;
  s_physical_linear_tree : list KMemoryRegion;
  s_linear_phys_to_virt_diff : Z;
  s_linear_virt_to_phys_diff : Z;
  cores_turned_on : list (Z * nat);
}.
Definition InitializeCorePhase2 (r : registers) (d : phase2_data) (ini_address : Z) : kM layout :=
  pt ← st_lift (init_page_table r);
  _ ← FinalizeIdentityMapping pt (g_phase2_linear_region_phys_to_virt_diff d);
  final ← take_final_state;
  let resource_end := g_phase2_resource_end_phys_addr d in
  let diff := g_phase2_linear_region_phys_to_virt_diff d in
  let init_page_table_region_size := u64 (end_address final - resource_end) in
  _ ← insert_phys resource_end init_page_table_region_size (value RegionType.DramKernelInitPt) 0;
  _ ← insert_virt (u64 (resource_end + diff)) init_page_table_region_size (value RegionType.VirtualDramKernelInitPt) 0;
  k ← st_get;
  _ ← tag_pools 0 (k_phys k);
  _ ← st_check (negb (ini_address =? 0)) Aborted;
  _ ← SetupPoolPartitionMemoryRegions GetApplicationPoolSize GetAppletPoolSize GetMinimumNonSecureSystemPoolSize;
  _ ← validate_ini ini_address;
  '(v, p) ← InitializeLinearMemoryRegionTrees;
  mret (mkLayout v p diff (u64 (- diff)) (TurnOnAllCores (reg_mpidr r))).

(** ** The host's entry point

    kernel/host/kernel_main.cpp, for the backing memory of the kernel's [HostMemory]:
    phase 1 with an allocator state that spans it.  Phase 2 is not called. *)
Definition host_allocator_state (backing_base backing_size : Z) : State := mkState backing_base (u64 (backing_base + backing_size)) 0.
Definition InitForKernel (r : registers) (backing_base backing_size : Z) : kM phase2_data :=
  InitializeCorePhase1 r 0 (host_allocator_state backing_base backing_size).
End phases.

End Phases.
