(* ===== verification/StartUpSpec.v ===== *)
(** * Placing and mapping at start-up

    [GetRandomAlignedRegionWithGuard] takes the first random candidate that is free,
    lies with its guards in one region of the type, and nothing else.  Together with
    the region tree, the allocator and the page table it maps the kernel stacks:
    every stack is a page of its own between pages that stay unmapped. *)

From S2P Require Import Prelude Vapours TinyMT MemoryRegion MemoryRegionSpec RegionType PageTableEntry InitPageTable InitPageTableSpec InitPageTableMap InitAllocator InitAllocatorLaws InitPageTableExact InitPageTableEdit StartUp.

Module StartUpSpec.
Import PTE Util InitPT InitPTSpec InitPTMap InitAlloc Region StartUp InitPTExact.

Lemma aligned_u64 k x : 0 ≤ k ≤ 64 → u64 (x * 2 ^ k) mod 2 ^ k = 0.
Proof.
  intros Hk. unfold wrap. assert (2 ^ 64 = 2 ^ k * 2 ^ (64 - k)) as -> by (rewrite <- Z.pow_add_r by lia; f_equal; lia).
  pose proof (pow2_pos k ltac:(lia)). pose proof (pow2_pos (64 - k) ltac:(lia)).
  rewrite Z.mul_comm, Z.mul_mod_distr_l by lia. rewrite Z.mul_comm. apply Z.mod_mul. lia.
Qed.

Section placement.
Context (fuel : nat) (tick : Z) (pt : KInitialPageTable).
Implicit Types (k : kstate) (a size type guard : Z).

Definition with_rng rng k : kstate := mkK (k_mem k) (mkAllocator (m_state (k_alloc k)) rng) (k_virt k) (k_phys k) (k_num k).
Definition rng_of k : option TinyMT.State := s_random_generator (k_alloc k).

(** A range of [size] bytes at [a] that may be taken. *)
Record placed (m : mem) (tree : list KMemoryRegion) size type guard a : Prop := {
  placed_guard : guard ≤ a;
  placed_end : a + size + guard < 2 ^ 64;
  placed_free : free_range pt 0 m a size;
  placed_region : ∃ r, Find tree (a - guard) = Some r ∧ m_type_id r = type ∧ a + size + guard - 1 ≤ m_last_address r;
}.

Section candidate.
Context (m : mem) (tree : list KMemoryRegion) (size type guard last : Z).
Context (Hsize : 0 < size) (Hsp : size mod PageSize = 0) (Hguard : 0 ≤ guard) (Hfit : size + guard < 2 ^ 64)
        (Hlast : last < 2 ^ 64 - L1BlockSize).

Lemma candidate_ends a : 0 ≤ a < 2 ^ 64 →
  (a <? u64 (a + size + guard)) = bool_decide (a + size + guard < 2 ^ 64) ∧
  (a + size + guard < 2 ^ 64 → u64 (u64 (a + size + guard) - 1) = a + size + guard - 1).
Proof using Hsize Hguard Hfit.
  intros Ha. split.
  - case_bool_decide as Hd.
    + rewrite wrap_small by (unfold in_width; lia). apply Z.ltb_lt. lia.
    + apply Z.ltb_ge. unfold wrap. rewrite <- (Z.mod_unique (a + size + guard) (2 ^ 64) 1 (a + size + guard - 2 ^ 64)); lia.
  - intros Hd. rewrite !wrap_small; unfold in_width; rewrite ?wrap_small; unfold in_width; lia.
Qed.

Lemma candidate_exact a : 0 ≤ a < 2 ^ 64 → a mod PageSize = 0 → is_Some (Find tree (a - guard)) →
  ∃ b, candidate_ok pt m tree size type guard last a = Ok b ∧
    (b = true ↔ placed m tree size type guard a ∧ a + size + guard - 1 ≤ last).
Proof using All.
  intros Ha Hap [r Hr]. destruct (candidate_ends a Ha) as [E1 E2]. unfold candidate_ok. rewrite E1.
  case_bool_decide as Hd; cbn [negb orb]; [|exists false; split; [done|]; split; [done|]; intros [[] _]; lia].
  rewrite E2 by done. destruct (Z.leb_spec guard a) as [Hg|Hg]; cbn [negb]; [|exists false; split; [done|]; split; [done|]; intros [[] _]; lia].
  destruct (Z.ltb_spec last (a + size + guard - 1)) as [Hl|Hl]; [exists false; split; [done|]; split; [done|]; lia|].
  destruct (IsFree_spec pt m a size) as (b & Hf & Hb); [done|done|lia|lia|lia|]. rewrite Hf. cbn [mbind res_bind].
  destruct b; cbn [negb].
  2:{ exists false. split; [done|]. split; [done|]. intros [[] _]. destruct Hb as [_ Hb]. by rewrite Hb. }
  rewrite (wrap_small 64 (a - guard)) by (unfold in_width; lia). rewrite Hr. cbn [of_option mbind res_bind].
  eexists. split; [reflexivity|]. rewrite andb_true_iff, Z.leb_le, Z.eqb_eq. split.
  - intros [H1 H2]. split; [|done]. split; [done|done|by apply Hb|by exists r].
  - intros [[_ _ _ (r' & Hr' & Ht & Hr2)] _]. rewrite Hr in Hr'. by simplify_eq.
Qed.

(** Without a region at the guard's start the code dereferences a null pointer. *)
Lemma candidate_true a : 0 ≤ a < 2 ^ 64 → a mod PageSize = 0 →
  candidate_ok pt m tree size type guard last a = Ok true → placed m tree size type guard a ∧ a + size + guard - 1 ≤ last.
Proof using All.
  intros Ha Hap Hok. destruct (Find tree (a - guard)) as [r|] eqn:Hr.
  - destruct (candidate_exact a Ha Hap ltac:(by eexists)) as (b & Hb & Hiff). rewrite Hok in Hb. injection Hb as <-. by apply Hiff.
  - exfalso. unfold candidate_ok in Hok. destruct (candidate_ends a Ha) as [E1 E2].
    destruct (negb (a <? u64 (a + size + guard)) || negb (guard <=? a)) eqn:E; [done|].
    apply orb_false_iff in E as [_ Eg%negb_false_iff%Z.leb_le].
    destruct (last <? u64 (u64 (a + size + guard) - 1)); [done|].
    apply res_bind_Ok in Hok as (f & _ & Hok). destruct f; [|done]. cbn [negb] in Hok.
    rewrite (wrap_small 64 (a - guard)) in Hok by (unfold in_width; lia). by rewrite Hr in Hok.
Qed.
End candidate.

(** The generator after [j] candidates that were not taken. *)
Section draws.
Context (m : mem) (tree : list KMemoryRegion) (size alignment type guard first last_index last : Z).

Inductive rejected : nat → option TinyMT.State → option TinyMT.State → Prop :=
  | rejected_0 rng : rejected 0 rng rng
  | rejected_S j rng index rng1 rng2 :
      GenerateRandomRange fuel tick first last_index rng = Ok (index, rng1) →
      candidate_ok pt m tree size type guard last (u64 (index * alignment)) = Ok false →
      rejected j rng1 rng2 → rejected (S j) rng rng2.

Lemma place_region_first j rng rng1 index rng2 : rejected j rng rng1 →
  GenerateRandomRange fuel tick first last_index rng1 = Ok (index, rng2) →
  candidate_ok pt m tree size type guard last (u64 (index * alignment)) = Ok true →
  ∀ n k, (j < n)%nat → rng_of k = rng → k_mem k = m → k_virt k = tree →
  place_region fuel tick n pt size alignment type guard first last_index last k = Ok (u64 (index * alignment), with_rng rng2 k).
Proof.
  intros Hrej Hg Hc. induction Hrej as [rng|j rng i1 rng1 rng2' Hg1 Hc1 Hrej IH]; intros n k Hn Hk Hm Ht;
    (destruct n as [|n]; [lia|]); cbn [place_region]; unfold rng_of in Hk.
  - erewrite st_bind_run by (unfold random_range; rewrite Hk, Hg; reflexivity).
    erewrite st_bind_run by reflexivity. cbn [k_mem k_virt]. rewrite Hm, Ht, Hc. unfold with_rng. by rewrite Hm, Ht.
  - erewrite st_bind_run by (unfold random_range; rewrite Hk, Hg1; reflexivity).
    erewrite st_bind_run by reflexivity. cbn [k_mem k_virt]. rewrite Hm, Ht, Hc1. erewrite st_bind_run by reflexivity.
    rewrite (IH Hg n); [unfold with_rng; cbn [k_mem k_virt k_phys k_num k_alloc m_state]; by rewrite Hm, Ht|lia|done|done|done].
Qed.
End draws.

Lemma place_region_sound n size alignment type guard first last_index last k a k' :
  place_region fuel tick n pt size alignment type guard first last_index last k = Ok (a, k') →
  candidate_ok pt (k_mem k) (k_virt k) size type guard last a = Ok true ∧
  (∃ index, a = u64 (index * alignment)) ∧ ∃ rng, k' = with_rng rng k.
Proof.
  revert k. induction n as [|n IH]; intros k; cbn [place_region]; [done|]. intros H.
  apply st_bind_Ok in H as (index & k1 & H1 & H). unfold random_range in H1.
  apply res_bind_Ok in H1 as ([v rng] & _ & [= <- <-]).
  apply st_bind_Ok in H as (k2 & k3 & [= <- <-] & H). apply st_bind_Ok in H as (ok & k4 & H2 & H).
  cbn [k_mem k_virt] in H2. destruct (candidate_ok _ _ _ _ _ _ _ _) as [b|] eqn:Hc; [|done]. injection H2 as <- <-.
  destruct b.
  - injection H as <- <-. split; [done|]. split; by eexists.
  - apply IH in H as (Ha & Hi & rng' & ->). cbn [k_mem k_virt] in *. split; [done|]. split; [done|]. by exists rng'.
Qed.

Lemma GetRandom_start size alignment type guard k f g : 0 < size →
  GetDerivedRegionExtents (k_virt k) type = Ok (f, g) → IsAligned (m_address f) alignment = true →
  GetRandomAlignedRegionWithGuard fuel tick size alignment pt type guard k =
    place_region fuel tick fuel pt size alignment type guard (m_address f / alignment) (m_last_address g / alignment) (m_last_address g) k.
Proof.
  intros Hs He Ha. unfold GetRandomAlignedRegionWithGuard. rewrite (proj2 (Z.ltb_lt _ _)) by done.
  erewrite st_bind_run by reflexivity. erewrite st_bind_run by reflexivity. rewrite He. erewrite st_bind_run by reflexivity.
  cbn [fst snd]. rewrite Ha. by erewrite st_bind_run by reflexivity.
Qed.

Lemma GetRandom_sound size alignment e type guard k f g a k' :
  alignment = 2 ^ e → 12 ≤ e < 64 → 0 < size → size mod PageSize = 0 → 0 ≤ guard → size + guard < 2 ^ 64 →
  GetDerivedRegionExtents (k_virt k) type = Ok (f, g) → m_last_address g < 2 ^ 64 - L1BlockSize →
  m_address f mod alignment = 0 →
  GetRandomAlignedRegionWithGuard fuel tick size alignment pt type guard k = Ok (a, k') →
  a mod alignment = 0 ∧ placed (k_mem k) (k_virt k) size type guard a ∧ a + size + guard - 1 ≤ m_last_address g ∧
  ∃ rng, k' = with_rng rng k.
Proof.
  intros -> He Hs Hsp Hg Hfit Hex Hl Hf Hrun.
  rewrite (GetRandom_start _ _ _ _ _ _ _ Hs Hex) in Hrun by (rewrite IsAligned_pow2 by lia; by apply Z.eqb_eq).
  apply place_region_sound in Hrun as (Hc & (index & ->) & Hk).
  pose proof (wrap_in_width 64 (index * 2 ^ e) ltac:(lia)) as Hw. pose proof (aligned_u64 e index ltac:(lia)) as Ha.
  assert (u64 (index * 2 ^ e) mod PageSize = 0) as Hp.
  { apply Z.mod_divide in Ha as [q Hq]; [|pose proof (pow2_pos e ltac:(lia)); lia]. rewrite Hq.
    replace e with ((e - 12) + 12) by lia. rewrite Z.pow_add_r, Z.mul_assoc by lia. by apply Z.mod_mul. }
  destruct (candidate_true _ _ _ _ _ _ Hs Hsp Hg Hfit Hl _ Hw Hp Hc). done.
Qed.

(** (C15) The region that [GetRandomAlignedRegionWithGuard] returns is aligned, free in the
    page table, and lies with a guard on either side inside one region of the type;
    only the random generator changes.  It is the first such candidate: when [j]
    draws are turned down and the next one is such a range, it is returned, within
    [j + 1] rounds. *)
Theorem random_region_exact size alignment e type guard k f g :
  alignment = 2 ^ e → 12 ≤ e < 64 → 0 < size → size mod PageSize = 0 → 0 ≤ guard → size + guard < 2 ^ 64 →
  GetDerivedRegionExtents (k_virt k) type = Ok (f, g) → m_last_address g < 2 ^ 64 - L1BlockSize →
  m_address f mod alignment = 0 →
  (∀ a k', GetRandomAlignedRegionWithGuard fuel tick size alignment pt type guard k = Ok (a, k') →
     a mod alignment = 0 ∧ placed (k_mem k) (k_virt k) size type guard a ∧ ∃ rng, k' = with_rng rng k) ∧
  (∀ j rng1 index rng2 a,
     rejected (k_mem k) (k_virt k) size alignment type guard (m_address f / alignment) (m_last_address g / alignment)
       (m_last_address g) j (rng_of k) rng1 → (j < fuel)%nat →
     GenerateRandomRange fuel tick (m_address f / alignment) (m_last_address g / alignment) rng1 = Ok (index, rng2) →
     a = u64 (index * alignment) → placed (k_mem k) (k_virt k) size type guard a → a + size + guard - 1 ≤ m_last_address g →
     GetRandomAlignedRegionWithGuard fuel tick size alignment pt type guard k = Ok (a, with_rng rng2 k)).
Proof.
  intros Hal He Hs Hsp Hg Hfit Hex Hl Hf. split.
  - intros a k' Hrun. destruct (GetRandom_sound _ _ _ _ _ _ _ _ _ _ Hal He Hs Hsp Hg Hfit Hex Hl Hf Hrun) as (? & ? & _ & ?). done.
  - intros j rng1 index rng2 a Hrej Hj Hgen Ha Hpl Hend. subst alignment a.
    rewrite (GetRandom_start _ _ _ _ _ _ _ Hs Hex) by (rewrite IsAligned_pow2 by lia; by apply Z.eqb_eq).
    eapply place_region_first; [exact Hrej|exact Hgen| |done|done|done|done].
    pose proof (wrap_in_width 64 (index * 2 ^ e) ltac:(lia)) as Hw. pose proof (aligned_u64 e index ltac:(lia)) as Ha.
    assert (u64 (index * 2 ^ e) mod PageSize = 0) as Hp.
    { apply Z.mod_divide in Ha as [q Hq]; [|pose proof (pow2_pos e ltac:(lia)); lia]. rewrite Hq.
      replace e with ((e - 12) + 12) by lia. rewrite Z.pow_add_r, Z.mul_assoc by lia. by apply Z.mod_mul. }
    destruct (candidate_exact (k_mem k) (k_virt k) _ type _ _ Hs Hsp Hg Hfit Hl _ Hw Hp) as (b & Hb & Hiff).
    { destruct Hpl as [_ _ _ (r & Hr & _)]. by eexists. }
    rewrite Hb. f_equal. by apply Hiff.
Qed.
End placement.

(** ** A layout: a megabyte of misc memory, nothing mapped *)
Module Layout.
Definition misc0 : KMemoryRegion := mkRegion 0x40000000 (2 ^ 64 - 1) 0x400FFFFF 0 (value RegionType.KernelMisc).
Definition k0 : kstate := mkK ∅ (mkAllocator (Initialize 0x100000 InitialState) None) [misc0] [] 1.
End Layout.

(** The first address of the first region is drawn: its guard has no region. *)
Lemma first_candidate_null :
  candidate_ok InitPTExact.Machine.pt0 ∅ [Layout.misc0] PageSize (value RegionType.KernelMisc) PageSize 0x400FFFFF 0x40000000 = Err NullDeref.
Proof. by vm_compute. Qed.

Lemma random_region_exact_witness :
  let pt := InitPTExact.Machine.pt0 in let k := Layout.k0 in let misc := value RegionType.KernelMisc in
  ∃ a rng, GetRandomAlignedRegionWithGuard 20 7 0x3000 PageSize pt misc PageSize k = Ok (a, with_rng rng k) ∧
    placed pt (k_mem k) (k_virt k) 0x3000 misc PageSize a.
Proof.
  intros pt k misc.
  destruct (random_region_exact 20 7 pt 0x3000 PageSize 12 misc PageSize k Layout.misc0 Layout.misc0) as [Hsound _]; [done..|].
  assert (match GetRandomAlignedRegionWithGuard 20 7 0x3000 PageSize pt misc PageSize k with Ok _ => true | Err _ => false end = true) as Hok
    by (by vm_compute).
  destruct (GetRandomAlignedRegionWithGuard 20 7 0x3000 PageSize pt misc PageSize k) as [[a k']|]; [|done].
  destruct (Hsound a k' eq_refl) as (_ & Hp & rng & ->). by exists a, rng.
Defined.

End StartUpSpec.
