(* ===== verification/StartUpStacks.v ===== *)
(** * The kernel stacks

    [MapStackForCore] over the allocator, the region tree and the page table at
    once.  The invariant is that memory of the misc region is mapped only where the
    tree says so; a stack page is taken between two pages of that region, which
    nothing can take afterwards. *)

From S2P Require Import Prelude Vapours TinyMT MemoryRegion MemoryRegionSpec RegionType PageTableEntry InitPageTable InitPageTableSpec InitPageTableMap InitAllocator InitAllocatorSpec InitAllocatorLaws InitPageTableExact InitPageTableEdit StartUp StartUpSpec.

Module Stacks.
Import PTE Util InitPT InitPTSpec InitPTMap InitAlloc InitAllocLaws InitPTExact Region MemoryRegionSpec StartUp StartUpSpec.

(** ** Allocation of a page, as the page table sees it *)
Section allocate.
Context (pt : KInitialPageTable) (off : Z) (Hpt : pt_ok pt) {A : Type} `{LawfulAllocator A off}.
Implicit Types s : mem * A.

Lemma same_tables m m' : (∀ i P a k, vtable pt i P → table pt off m i P = Some a → 0 ≤ k < 512 →
    ld m' (slot off a k) = ld m (slot off a k)) →
  (∀ i P, vtable pt i P → table pt off m' i P = table pt off m i P) ∧ ∀ va, translate pt off m' va = translate pt off m va.
Proof using Hpt.
  intros Hs. assert (same_but pt off m m' false [0; 0; 0; 0]) as Hb.
  { intros i k P a Hv Hl Ha _. apply (Hs i P); [split; [by eapply vpath_tail|done]|done|by eapply vpath_index]. }
  assert (∀ Q : list Z, (length Q ≤ 3)%nat → ¬ [0; 0; 0; 0] `suffix_of` Q) as Hno.
  { intros Q HQ Hsuf%suffix_length. simpl in Hsuf. lia. }
  split.
  - intros i P HP. eapply table_same_but; [exact Hb|done|]. intros [_ Hsuf]. eapply Hno; [|exact Hsuf]. destruct HP. lia.
  - intros va. rewrite !translate_walk. unfold walk1, walk2, walk3.
    assert (∀ l, ent pt off m' (half va) (full pt l va) = ent pt off m (half va) (full pt l va)) as He.
    { intros l. destruct (full_valid pt l va Hpt). eapply ent_same_but; [exact Hb|done..|]. intros [_ Hsuf]. by eapply Hno. }
    by rewrite !He.
Qed.

Lemma minv_Allocate n s : minv pt off s → ready (S n) s →
  ∃ p s', alloc_Allocate PageSize s = Ok (p, s') ∧ owns s p ∧ ¬ owns s' p ∧ minv pt off s' ∧ tame pt off s s' ∧ ready n s' ∧
    ∀ va, translate pt off (fst s') va = translate pt off (fst s) va.
Proof using Hpt.
  intros Hm Hr. destruct (Allocate_ok n s (minv_alloc _ _ _ Hm) Hr) as (p & s' & Hal & Hown & Hai & Hno & Hsub & Hfr & Hr').
  exists p, s'. split; [done|]. split; [done|]. split; [done|].
  destruct (same_tables (fst s) (fst s')) as [Htab Htr].
  { intros i P a k HP Ha Hk. unfold ld. rewrite Hfr; [done|]. intros q j Hq Hj. eapply (apart_slot off s); try done;
      [apply Hm|eapply wf_phys; [apply Hm|done..]|by eapply minv_apart]. }
  assert (∀ i P a, vtable pt i P → table pt off (fst s') i P = Some a → table pt off (fst s) i P = Some a) as Hsubt
    by (intros i P a HP; by rewrite Htab).
  split_and!; [split|split|done|done].
  - eapply wf_sub; [apply Hm|done].
  - done.
  - intros i P a HP Ha Hq. eapply (minv_apart pt off s Hm); [exact HP|by apply Hsubt|by apply Hsub].
  - done.
  - intros w [W1 W2]. split; [|intros q k Hq; by apply W2, Hsub]. intros i P a k HP Ha. eapply W1; [done|by apply Hsubt].
  - intros w [_ W2]. by apply Hfr.
Qed.
End allocate.

(** ** The invariant *)
Section stacks.
Context (fuel : nat) (tick : Z) (pt : KInitialPageTable) (Hpt : pt_ok pt).
Implicit Types (k : kstate) (v p va : Z).
#[local] Instance ops : IsInitialPageAllocator KInitialPageAllocator := KInitialPageAllocator_ops fuel tick.
#[local] Instance law : LawfulAllocator KInitialPageAllocator 0 := KInitialPageAllocator_lawful fuel tick.

Abbreviation pages k := (k_mem k, k_alloc k).
Abbreviation misc := (value RegionType.KernelMisc).
Abbreviation tr k := (translate pt 0 (k_mem k)).

Record kinv k : Prop := {
  kinv_tiled : tiled (k_virt k);
  kinv_pages : minv pt 0 (pages k);
  kinv_misc r va : r ∈ k_virt k → m_type_id r = misc → inside r va → canon pt va ∧ tr k va = None;
  kinv_attr r : r ∈ k_virt k → m_type_id r = misc → m_attributes r = 0;
  kinv_derived r : r ∈ k_virt k → IsDerivedFrom r misc = true →
    m_address r mod PageSize = 0 ∧ m_last_address r < 2 ^ 64 - L1BlockSize;
}.

Lemma kinv_rng rng k : kinv k → kinv (with_rng rng k).
Proof.
  intros [Ht [Hwf Hai Hap] Hm Ha Hd]. split; [done|split; [exact Hwf|exact Hai|exact Hap]|done|done|done].
Qed.

(** The first and the last region of a type are regions of the type. *)
Lemma extents_in l type f g : GetDerivedRegionExtents l type = Ok (f, g) →
  f ∈ l ∧ g ∈ l ∧ IsDerivedFrom f type = true ∧ IsDerivedFrom g type = true.
Proof.
  set (P x := x ∈ l ∧ IsDerivedFrom x type = true). unfold GetDerivedRegionExtents.
  assert (∀ l' e, (∀ x, fst e = Some x ∨ snd e = Some x → P x) → (∀ x, x ∈ l' → x ∈ l) →
    ∀ x, fst (foldl (extents_step type) e l') = Some x ∨ snd (foldl (extents_step type) e l') = Some x → P x) as Hfold.
  { induction l' as [|y l' IH]; intros e He Hsub; cbn [foldl]; [done|].
    apply IH; [|intros z Hz; apply Hsub; by right]. unfold extents_step. destruct (IsDerivedFrom y type) eqn:Hy; [|done].
    assert (P y) by (split; [apply Hsub; by left|done]). cbn [fst snd].
    intros x [Hx|[= <-]]; [|done]. destruct (fst e) eqn:Ee; simplify_eq; [apply He; by left|done]. }
  specialize (Hfold l (None, None)). intros H. apply res_bind_Ok in H as (f' & Hf & H). apply res_bind_Ok in H as (g' & Hg & [= <- <-]).
  apply of_option_Ok in Hf, Hg. destruct (Hfold ltac:(by intros x [?|?]) ltac:(done) f' ltac:(by left)) as [? ?].
  by destruct (Hfold ltac:(by intros x [?|?]) ltac:(done) g' ltac:(by right)).
Qed.

(** Part of the misc region is tagged and mapped: the invariant stays. *)
Lemma kinv_step k l1 l2 r v size type attr n m' a' p rw : kinv k → k_virt k = l1 ++ r :: l2 → m_type_id r = misc →
  inside r v → 0 < size → v + size - 1 ≤ m_last_address r → v mod PageSize = 0 → size mod PageSize = 0 → type ≠ misc →
  minv pt 0 (m', a') → (∀ va, canon pt va → translate pt 0 m' va = extended pt 0 (k_mem k) v size p rw va) →
  kinv (mkK m' a' (l1 ++ pieces r v size type attr ++ l2) (k_phys k) n).
Proof using All.
  intros [Ht Hm Hmisc Hattr Hder] Hv Hr Hin Hs Hl Hva Hsa Hty Hm' Htr. rewrite Hv in *.
  pose proof (found_ok l1 l2 r Ht) as Hok. assert (r ∈ l1 ++ r :: l2) as Hrin by set_solver.
  assert (∀ x, x ∈ l1 ++ pieces r v size type attr ++ l2 →
    (x ∈ l1 ++ r :: l2 ∧ ∀ va, inside x va → ¬ (v ≤ va < v + size)) ∨
    (x ∈ pieces r v size type attr ∧ (m_type_id x = misc → m_attributes x = 0 ∧ ∀ va, inside x va → inside r va ∧ ¬ (v ≤ va < v + size)) ∧
      m_address x mod PageSize = 0 ∧ m_last_address x ≤ m_last_address r)) as Hcase.
  { intros x Hx. rewrite !elem_of_app in Hx.
    assert (x ∈ l1 ∨ x ∈ l2 → (x ∈ l1 ++ r :: l2 ∧ ∀ va, inside x va → ¬ (v ≤ va < v + size))) as Hold.
    { intros Hx'. split; [set_solver|]. intros va Hxa Hva'. apply tiled_app in Ht as (_ & (_ & H2 & _) & H1). unfold inside in *.
      destruct Hx' as [H'|H']; [specialize (H1 x r H' ltac:(set_solver)); lia|specialize (H2 x H'); lia]. }
    assert (m_address r mod PageSize = 0 ∧ m_last_address r < 2 ^ 64 - L1BlockSize) as [Hra _].
    { apply Hder; [done|]. unfold IsDerivedFrom. rewrite Hr, Z.lor_diag. apply Z.eqb_refl. }
    destruct Hx as [Hx|[Hx|Hx]]; [left; auto| |left; auto]. right. split; [done|].
    unfold pieces in Hx. apply elem_of_app in Hx as [Hx|[->|Hx]%elem_of_cons].
    - destruct (before_in _ _ _ Hok Hin Hs Hl x Hx) as (E1 & E2 & E3 & E4 & E5 & _). rewrite E1, E2, E4.
      split; [|split; [done|unfold inside in *; lia]]. intros _. split; [by apply Hattr|]. unfold inside in *. rewrite E1, E2. lia.
    - cbn [new_piece m_type_id m_address m_last_address]. split; [done|]. split; [done|lia].
    - destruct (after_in _ _ _ Hok Hin Hs Hl x Hx) as (E1 & E2 & E3 & E4 & E5 & _). rewrite E1, E2, E4.
      split; [|split; [by rewrite Z.add_mod, Hva, Hsa|lia]]. intros _. split; [by apply Hattr|]. unfold inside in *. rewrite E1, E2. lia. }
  split; cbn [k_virt k_mem k_alloc].
  - by apply split_tiled.
  - done.
  - intros x va Hx Hxt Hxa. destruct (Hcase x Hx) as [[Hx' Hno]|(Hx' & Hp & _)].
    + destruct (Hmisc x va Hx' Hxt Hxa) as [Hc Hn]. split; [done|]. rewrite Htr by done. unfold extended. rewrite decide_False; [done|by apply Hno].
    + destruct (Hp Hxt) as [_ Hpin]. destruct (Hpin va Hxa) as [Hra Hno]. destruct (Hmisc r va Hrin Hr Hra) as [Hc Hn].
      split; [done|]. rewrite Htr by done. unfold extended. by rewrite decide_False.
  - intros x Hx Hxt. destruct (Hcase x Hx) as [[Hx' _]|(_ & Hp & _)]; [by apply Hattr|by apply Hp].
  - intros x Hx Hxd. destruct (Hcase x Hx) as [[Hx' _]|(_ & _ & Hxa & Hxl)]; [by apply Hder|]. split; [done|].
    assert (m_last_address r < 2 ^ 64 - L1BlockSize); [|lia]. apply Hder; [done|].
    unfold IsDerivedFrom. rewrite Hr, Z.lor_diag. apply Z.eqb_refl.
Qed.

Lemma insert_virt_run k l1 l2 r v size type attr : k_virt k = l1 ++ r :: l2 → tiled (k_virt k) → m_attributes r = 0 →
  inside r v → 0 < size → v + size - 1 ≤ m_last_address r → CanDerive r type = true → (k_num k + 2 ≤ MaxMemoryRegions)%nat →
  ∃ n, insert_virt v size type attr k =
    Ok (tt, mkK (k_mem k) (k_alloc k) (l1 ++ pieces r v size type attr ++ l2) (k_phys k) n) ∧ (k_num k ≤ n ≤ k_num k + 2)%nat.
Proof.
  intros Hv Ht Ha Hin Hs Hl Hd Hn.
  destruct (Insert_run (mkTree (k_virt k) (k_num k)) l1 l2 r v size type attr Hv Ht Hin Hs Hl Hd Hn) as (n & Hrun & Hnn).
  exists n. split; [|done]. unfold insert_virt, on_virt. rewrite Ha in Hrun. unfold mbind, st_bind. by rewrite Hrun.
Qed.

Lemma page_tables v : v mod PageSize = 0 → tables_touched v PageSize = 2%nat.
Proof.
  intros Hv. unfold tables_touched, quot, shift. apply Z.mod_divide in Hv as [q ->]; [|done]. unfold PageSize.
  assert (∀ e, e = 18 ∨ e = 9 → (q * 0x1000 + 0x1000 - 1) / 2 ^ (12 + e) = (q * 0x1000) / 2 ^ (12 + e)) as E.
  { intros e He. rewrite Z.pow_add_r by lia. rewrite <- !Z.div_div by (try apply Z.pow_nonzero; lia). f_equal.
    change 0x1000 with (2 ^ 12). rewrite Z.div_mul by lia. symmetry. apply (Z.div_unique _ _ _ (2 ^ 12 - 1)); lia. }
  pose proof (E 18 ltac:(auto)) as E1. pose proof (E 9 ltac:(auto)) as E2. change (12 + 18) with 30 in E1. change (12 + 9) with 21 in E2.
  rewrite E1, E2. lia.
Qed.

(** ** One stack *)

(** Attribute and type of an address. *)
Definition tag l a : option (Z * Z) := (λ x, (x.1.1, x.1.2)) <$> view l a.

Record stack_mapped k k' v p type core : Prop := {
  sm_inv : kinv k';
  sm_aligned : v mod PageSize = 0;
  sm_placed : placed pt (k_mem k) (k_virt k) PageSize misc PageSize v;
  sm_translate va : canon pt va → tr k' va = extended pt 0 (k_mem k) v PageSize p KernelRwDataAttribute va;
  sm_tag a : tag (k_virt k') a = if decide (v ≤ a < v + PageSize) then Some (core, type) else tag (k_virt k) a;
  sm_owned : owns (pages k) p ∧ ¬ owns (pages k') p;
  sm_tame : tame pt 0 (pages k) (pages k');
  sm_old r : r ∈ k_virt k → m_type_id r ≠ misc → r ∈ k_virt k';
  sm_new : ∃ r, r ∈ k_virt k' ∧ m_address r = v ∧ m_last_address r = v + PageSize - 1;
  sm_phys : k_phys k' = k_phys k;
  sm_num : (k_num k' ≤ k_num k + 2)%nat;
}.

Lemma placed_misc k v : kinv k → placed pt (k_mem k) (k_virt k) PageSize misc PageSize v →
  ∃ l1 l2 r, k_virt k = l1 ++ r :: l2 ∧ m_type_id r = misc ∧ inside r (v - PageSize) ∧ v + PageSize + PageSize - 1 ≤ m_last_address r.
Proof.
  intros Hk [Hg He _ (r & Hf & Ht & Hl)]. apply Find_spec in Hf as [Hr Hin]; [|apply Hk].
  apply list_elem_of_split in Hr as (l1 & l2 & Hv). by exists l1, l2, r.
Qed.

Lemma random_misc k size v k1 : kinv k → 0 < size → size mod PageSize = 0 → size + PageSize < 2 ^ 64 →
  GetRandomAlignedRegionWithGuard fuel tick size PageSize pt misc PageSize k = Ok (v, k1) →
  v mod PageSize = 0 ∧ placed pt (k_mem k) (k_virt k) size misc PageSize v ∧ ∃ rng, k1 = with_rng rng k.
Proof.
  intros Hk Hs Hsp Hfit Hrun. pose proof Hrun as Hrun'. unfold GetRandomAlignedRegionWithGuard in Hrun.
  apply st_bind_Ok in Hrun as (? & k0 & [_ ->]%st_check_Ok & Hrun). apply st_bind_Ok in Hrun as (? & ? & [= <- <-] & Hrun).
  apply st_bind_Ok in Hrun as ([f g] & k2 & Hex & _). unfold st_lift in Hex.
  destruct (GetDerivedRegionExtents (k_virt k) misc) as [[f' g']|] eqn:Hext; [|done]. injection Hex as -> -> ->.
  destruct (extents_in _ _ _ _ Hext) as (Hf & Hg & Hfd & Hgd).
  destruct (kinv_derived _ Hk f Hf Hfd) as [Hfa _]. destruct (kinv_derived _ Hk g Hg Hgd) as [_ Hgl].
  destruct (GetRandom_sound fuel tick pt size PageSize 12 misc PageSize k2 f g v k1) as (Hva & Hp & _ & Hrng); try done; try lia.
Qed.

(** A page that the allocator held is mapped at a random page that lies, with a page on
    either side, in memory of the misc region; nothing else changes. *)
Lemma MapStackForCore_spec k type core v k1 : kinv k → Z.lor misc type = type → type ≠ misc →
  (k_num k + 2 ≤ MaxMemoryRegions)%nat →
  GetRandomAlignedRegionWithGuard fuel tick PageSize PageSize pt misc PageSize k = Ok (v, k1) → ready 3 (pages k1) →
  ∃ p k', MapStackForCore fuel tick pt type core k = Ok (tt, k') ∧ stack_mapped k k' v p type core.
Proof using Hpt.
  intros Hk Hty Hne Hnum Hrun Hrd. destruct (random_misc k PageSize v k1 Hk) as (Hva & Hpl & rng & ->); try done.
  destruct (placed_misc k v Hk Hpl) as (l1 & l2 & r & Hv & Hr & Hin & Hl). pose proof Hpl as [Hg He Hfree _].
  assert (r ∈ k_virt k) as Hrin by (rewrite Hv; set_solver).
  assert (inside r v) as Hinv by (unfold inside, PageSize in *; lia).
  unfold MapStackForCore. erewrite st_bind_run by exact Hrun.
  destruct (kinv_rng rng k Hk) as [_ Hm _ _ _].
  destruct (minv_Allocate pt 0 Hpt 2 (pages (with_rng rng k)) Hm Hrd) as (p & [m1 a1] & Hal & Hown & Hno & Hm1 & Hta1 & Hr1 & Htr1).
  cbn [fst] in Htr1.
  assert (with_pages (Allocate fuel tick PageSize) (with_rng rng k) = Ok (p, mkK m1 a1 (k_virt k) (k_phys k) (k_num k))) as Hwp
    by (unfold with_pages, mbind, res_bind; change (alloc_Allocate PageSize) with (Allocate fuel tick PageSize) in Hal;
        cbn [with_rng k_mem k_alloc k_virt k_phys k_num] in *; by rewrite Hal).
  erewrite st_bind_run by exact Hwp.
  destruct (insert_virt_run (mkK m1 a1 (k_virt k) (k_phys k) (k_num k)) l1 l2 r v PageSize type core) as (n & Hins & Hn);
    [done|apply Hk|by apply (kinv_attr _ Hk)|done|done|unfold PageSize in *; lia| |done|].
  { unfold CanDerive. by rewrite Hr, Hty, Z.eqb_refl. }
  erewrite st_bind_run by exact Hins. cbn [k_mem k_alloc k_phys k_num] in *.
  destruct (Map_spec pt 0 KInitialPageAllocator (m1, a1) v PageSize p KernelRwDataAttribute) as ([m2 a2] & HM & Hm2 & Hta2 & Htr2); try done.
  all: try (pose proof (owns_phys _ _ (minv_alloc _ _ _ Hm) Hown) as [Hp1 Hp2]).
  - exact Hp2.
  - lia.
  - change (2 ^ 12) with PageSize in *. apply Z.mod_divide in Hp2 as [q Hq]; [|done]. unfold PageSize in *. lia.
  - intros va Hva'. eapply (kinv_misc _ Hk r); [done|done|]. unfold inside, PageSize in *. lia.
  - intros va Hva'. cbn [fst]. rewrite Htr1. by apply Hfree.
  - by rewrite page_tables.
  - exists p. assert (∀ va, canon pt va → translate pt 0 m2 va = extended pt 0 (k_mem k) v PageSize p KernelRwDataAttribute va) as Htr.
    { intros va Hc. cbn [fst] in Htr2. rewrite Htr2 by done. unfold extended. by rewrite Htr1. }
    exists (mkK m2 a2 (l1 ++ pieces r v PageSize type core ++ l2) (k_phys k) n).
    split; [unfold map_pages, with_pages, mbind, res_bind; cbn [k_mem k_alloc k_virt k_phys k_num]; change (KInitialPageAllocator_ops fuel tick) with ops; by rewrite HM|].
    assert (tame pt 0 (pages k) (pages (with_rng rng k))) as Hta0 by (by split).
    split; cbn [k_virt k_mem k_alloc k_phys k_num]; [|done|done|done| |split|by repeat (etrans; [eassumption|])| | |done|lia].
    + by eapply kinv_step; try done; unfold PageSize in *; lia.
    + intros a. unfold tag. rewrite (split_view r v PageSize type core (found_ok l1 l2 r ltac:(rewrite <- Hv; apply Hk)) Hinv ltac:(done) ltac:(unfold PageSize in *; lia) l1 l2 a)
        by (rewrite <- Hv; apply Hk).
      rewrite <- Hv. by case_decide.
    + exact Hown.
    + intros Hq. by apply Hno, (tame_owns _ _ _ _ Hta2).
    + intros x Hx Hxt. rewrite Hv in Hx. rewrite !elem_of_app. apply elem_of_app in Hx as [Hx|[->|Hx]%elem_of_cons]; auto. done.
    + exists (new_piece r v PageSize type core). split; [|done]. unfold pieces. rewrite !elem_of_app, elem_of_cons. auto.
Qed.

(** ** Any number of stacks *)
Record stack_at k v p type core : Prop := {
  at_canon va : v - PageSize ≤ va < v + 2 * PageSize → canon pt va;
  at_translate va : v ≤ va < v + PageSize → tr k va = Some (p + (va - v), KernelRwDataAttribute);
  at_tag va : v ≤ va < v + PageSize → tag (k_virt k) va = Some (core, type);
  at_guard va : v - PageSize ≤ va < v ∨ v + PageSize ≤ va < v + 2 * PageSize → tag (k_virt k) va = Some (0, misc);
  at_region : ∃ r, r ∈ k_virt k ∧ m_address r = v ∧ m_last_address r = v + PageSize - 1;
  at_page : ¬ owns (pages k) p;
}.

Lemma tag_found k r a : kinv k → r ∈ k_virt k → inside r a → tag (k_virt k) a = Some (m_attributes r, m_type_id r).
Proof. intros Hk Hr Ha. unfold tag. by rewrite (view_found _ _ _ (kinv_tiled _ Hk) Hr Ha). Qed.

Lemma tag_region k a x : kinv k → tag (k_virt k) a = Some x → ∃ r, r ∈ k_virt k ∧ inside r a ∧ x = (m_attributes r, m_type_id r).
Proof.
  intros Hk. unfold tag, view. destruct (Find (k_virt k) a) as [r|] eqn:Hf; [|done]. intros [= <-].
  apply Find_spec in Hf as [Hr Hin]; [|apply Hk]. by exists r.
Qed.

(** Guard pages, like all misc memory that is not tagged, are not mapped. *)
Lemma misc_unmapped k va : kinv k → tag (k_virt k) va = Some (0, misc) → canon pt va ∧ tr k va = None.
Proof.
  intros Hk Ht. apply tag_region in Ht as (r & Hr & Hin & [= _ Hrt]); [|done]. by eapply (kinv_misc _ Hk r).
Qed.

Lemma placed_tag k v va : kinv k → placed pt (k_mem k) (k_virt k) PageSize misc PageSize v →
  v - PageSize ≤ va < v + 2 * PageSize → tag (k_virt k) va = Some (0, misc).
Proof.
  intros Hk Hp Hva. destruct (placed_misc k v Hk Hp) as (l1 & l2 & r & Hv & Hr & Hin & Hl).
  assert (r ∈ k_virt k) as Hrin by (rewrite Hv, elem_of_app, elem_of_cons; auto).
  rewrite (tag_found k r va Hk Hrin) by (unfold inside in *; lia). by rewrite (kinv_attr _ Hk r Hrin Hr), Hr.
Qed.

Section step.
Context (k k' : kstate) (v p type core : Z) (Hk : kinv k) (Hstep : stack_mapped k k' v p type core).

Lemma stack_new : stack_at k' v p type core.
Proof using Hk Hstep.
  destruct Hstep as [Hk' Ha Hp Htr Htag [_ Hno] _ _ Hnew _ _]. pose proof (placed_tag k v) as Hmisc.
  assert (∀ va, v - PageSize ≤ va < v + 2 * PageSize → canon pt va) as Hc by (intros va Hva; apply (misc_unmapped k va Hk); by apply Hmisc).
  split; [done| | | |done|done]; intros va Hva.
  - rewrite Htr by (apply Hc; unfold PageSize in *; lia). unfold extended. by rewrite decide_True.
  - rewrite Htag. by rewrite decide_True.
  - rewrite Htag, decide_False by lia. apply Hmisc; [done|done|unfold PageSize in *; lia].
Qed.

Lemma stack_kept w q t c : stack_at k w q t c → t ≠ misc →
  stack_at k' w q t c ∧ 2 * PageSize ≤ Z.abs (w - v) ∧ p ≠ q.
Proof using Hk Hstep.
  intros [Hc Htr Htag Hgd (r & Hr & Hr1 & Hr2) Hno] Hne. pose proof Hstep as [Hk' Ha Hp Htr' Htag' [Hown _] Hta Hold _ _ _].
  assert (2 * PageSize ≤ Z.abs (w - v)) as Hsep.
  { destruct (decide (2 * PageSize ≤ Z.abs (w - v))) as [|Hn]; [done|]. exfalso.
    assert (tag (k_virt k) (Z.max w (v - PageSize)) = Some (c, t)) as E1 by (apply Htag; unfold PageSize in *; lia).
    rewrite (placed_tag k v) in E1 by (done || unfold PageSize in *; lia). congruence. }
  split_and!; [split|done|by intros ->].
  - done.
  - intros va Hva. rewrite Htr' by (apply Hc; unfold PageSize in *; lia). unfold extended. rewrite decide_False by (unfold PageSize in *; lia). by apply Htr.
  - intros va Hva. rewrite Htag', decide_False by (unfold PageSize in *; lia). by apply Htag.
  - intros va Hva. rewrite Htag', decide_False by (unfold PageSize in *; lia). by apply Hgd.
  - exists r. split; [|done]. apply Hold; [done|]. intros Hrm. pose proof (Htag w ltac:(unfold PageSize; lia)) as E.
    rewrite (tag_found k r w Hk Hr) in E by (unfold inside, PageSize in *; lia). congruence.
  - intros Hq. by apply Hno, (tame_owns _ _ _ _ Hta).
Qed.
End step.

(** Each placement finds a page, and the allocator can give a page and two tables. *)
Fixpoint stacks_ready (l : list (Z * Z)) k : Prop :=
  match l with
  | [] => True
  | (type, core) :: l' =>
      ∃ v k1, GetRandomAlignedRegionWithGuard fuel tick PageSize PageSize pt misc PageSize k = Ok (v, k1) ∧ ready 3 (pages k1) ∧
        ∀ k', MapStackForCore fuel tick pt type core k = Ok (tt, k') → stacks_ready l' k'
  end.
Definition run_stacks (l : list (Z * Z)) : kM unit := st_iter (λ x, MapStackForCore fuel tick pt (fst x) (snd x)) l.

(** The stacks [done] hold in [k]: each mapped between guards, all apart. *)
Definition stacks_hold k (done : list ((Z * Z) * (Z * Z))) : Prop :=
  (∀ t c v p, ((t, c), (v, p)) ∈ done → t ≠ misc ∧ stack_at k v p t c) ∧
  ∀ i j t c v p t' c' v' p', i ≠ j → done !! i = Some ((t, c), (v, p)) → done !! j = Some ((t', c'), (v', p')) →
    2 * PageSize ≤ Z.abs (v - v') ∧ p ≠ p'.

Lemma stacks_hold_step k k' v p t c d : kinv k → stack_mapped k k' v p t c → t ≠ misc → stacks_hold k d →
  stacks_hold k' (d ++ [((t, c), (v, p))]).
Proof.
  intros Hk Hs Hne [Hall Hsep]. split.
  - intros t' c' v' p' [Hin|[= -> -> -> ->]%list_elem_of_singleton]%elem_of_app.
    + destruct (Hall _ _ _ _ Hin) as [Hn Hst]. split; [done|]. by apply (stack_kept k k' v p t c Hk Hs).
    + split; [done|]. by apply (stack_new k k').
  - intros i j t1 c1 v1 p1 t2 c2 v2 p2 Hij Hi Hj.
    assert (∀ m t0 c0 v0 p0, d !! m = Some ((t0, c0), (v0, p0)) → 2 * PageSize ≤ Z.abs (v0 - v) ∧ p ≠ p0) as Hnew.
    { intros m t0 c0 v0 p0 Hm. apply list_elem_of_lookup_2 in Hm. destruct (Hall _ _ _ _ Hm) as [Hn Hst].
      by destruct (stack_kept k k' v p t c Hk Hs v0 p0 t0 c0 Hst Hn) as (_ & ? & ?). }
    apply lookup_app_Some in Hi as [Hi|[Hi0 Hi]], Hj as [Hj|[Hj0 Hj]].
    + by eapply Hsep.
    + apply list_lookup_singleton_Some in Hj as [_ [= -> -> -> ->]]. destruct (Hnew _ _ _ _ _ Hi). split; [lia|congruence].
    + apply list_lookup_singleton_Some in Hi as [_ [= -> -> -> ->]]. destruct (Hnew _ _ _ _ _ Hj). split; [lia|congruence].
    + apply list_lookup_singleton_Some in Hi as [Hi _], Hj as [Hj _]. lia.
Qed.

(** One stack after the other. *)
Inductive chain : kstate → list ((Z * Z) * (Z * Z)) → kstate → Prop :=
  | chain_nil k : chain k [] k
  | chain_cons k k1 k2 v p t c d : stack_mapped k k1 v p t c → t ≠ misc → chain k1 d k2 → chain k (((t, c), (v, p)) :: d) k2.

Lemma run_stacks_chain l : Forall (λ x, Z.lor misc (fst x) = fst x ∧ fst x ≠ misc) l → ∀ k, kinv k →
  stacks_ready l k → (k_num k + 2 * length l ≤ MaxMemoryRegions)%nat →
  ∃ d k', run_stacks l k = Ok (tt, k') ∧ d.*1 = l ∧ chain k d k'.
Proof using Hpt.
  induction 1 as [|[t c] l [Ht Hne] _ IH]; intros k Hk Hr Hn.
  - exists [], k. split; [done|]. split; [done|constructor].
  - destruct Hr as (v & k1 & Hrun & Hrd & Hnext). cbn [length fst snd] in *.
    destruct (MapStackForCore_spec k t c v k1 Hk Ht Hne ltac:(lia) Hrun Hrd) as (p & k2 & HM & Hs).
    destruct (IH k2) as (d & k' & Hrun' & Hd & Hc); [apply Hs|by apply Hnext|pose proof (sm_num _ _ _ _ _ _ Hs); lia|].
    exists (((t, c), (v, p)) :: d), k'. split; [|split; [rewrite fmap_cons; by rewrite Hd|by eapply chain_cons]].
    unfold run_stacks. cbn [st_iter fst snd]. erewrite st_bind_run by exact HM. exact Hrun'.
Qed.

Lemma chain_hold k d k' : chain k d k' → ∀ d0, kinv k → stacks_hold k d0 → kinv k' ∧ stacks_hold k' (d0 ++ d).
Proof.
  induction 1 as [k|k k1 k2 v p t c d Hs Hne _ IH]; intros d0 Hk Hd; [by rewrite app_nil_r|].
  replace (d0 ++ ((t, c), (v, p)) :: d) with ((d0 ++ [((t, c), (v, p))]) ++ d) by (by rewrite <- app_assoc).
  apply IH; [apply Hs|by apply (stacks_hold_step k)].
Qed.

(** A type and core that nothing had before are found in their stack only. *)
Lemma chain_tags k d k' : chain k d k' → ∀ t c a, tag (k_virt k') a = Some (c, t) →
  tag (k_virt k) a = Some (c, t) ∨ ∃ v p, ((t, c), (v, p)) ∈ d ∧ v ≤ a < v + PageSize.
Proof.
  induction 1 as [k|k k1 k2 v p t c d Hs Hne _ IH]; intros t' c' a Ha; [by left|].
  destruct (IH t' c' a Ha) as [H1|(v' & p' & Hin & Hr)]; [|right; exists v', p'; split; [by right|done]].
  rewrite (sm_tag _ _ _ _ _ _ Hs) in H1. case_decide as Hd; [|by left]. right. injection H1 as <- <-. exists v, p. split; [by left|done].
Qed.

Lemma stacks_hold_nil k : stacks_hold k [].
Proof. split; [by intros ???? ?%not_elem_of_nil|]. intros i j ????????? Hi. by rewrite lookup_nil in Hi. Qed.

(** The stacks of [InitializeCorePhase1], in its order. *)
Definition core_stacks : list (Z * Z) :=
  i ← seq 0 NumCores; (λ t, (value t, Z.of_nat i)) <$> [RegionType.KernelMiscMainStack; RegionType.KernelMiscIdleStack; RegionType.KernelMiscExceptionStack].

Lemma map_stacks_run k : map_stacks fuel tick pt k = run_stacks core_stacks k.
Proof.
  assert (∀ t c (f g : kM unit) k, (∀ k', f k' = g k') →
    (MapStackForCore fuel tick pt t c ≫= λ _, f) k = (MapStackForCore fuel tick pt t c ≫= λ _, g) k) as Hcong.
  { intros t c f g k0 Hfg. unfold mbind, st_bind. by destruct (MapStackForCore fuel tick pt t c k0) as [[]|]. }
  assert (∀ (a b c d : kM unit) k, ((a ≫= λ _, b ≫= λ _, c) ≫= λ _, d) k = (a ≫= λ _, b ≫= λ _, c ≫= λ _, d) k) as Hassoc.
  { intros a b c d k0. unfold mbind, st_bind. destruct (a k0) as [[[] k1]|]; [|done]. by destruct (b k1) as [[[] k2]|]. }
  unfold map_stacks, run_stacks. generalize k. clear k. change core_stacks with (concat (map (λ i,
    (λ t, (value t, Z.of_nat i)) <$> [RegionType.KernelMiscMainStack; RegionType.KernelMiscIdleStack; RegionType.KernelMiscExceptionStack]) (seq 0 NumCores))).
  induction (seq 0 NumCores) as [|i l IH]; intros k; [done|]. cbn [st_iter map concat]. etrans; [exact (Hassoc _ _ _ _ k)|].
  do 3 (refine (Hcong _ _ _ _ _ _); intros ?). apply IH.
Qed.

End stacks.

(** (C13) The stacks of the cores.  [InitializeCorePhase1] maps the twelve of [core_stacks] one
    after the other; and for any list of stacks, when every placement finds a page
    and the allocator has one page and two tables for it, all are mapped: each on a
    physical page of its own, tagged with its type and core, at least one page
    apart, and with the pages below and above it unmapped. *)
Theorem stacks_guarded fuel tick pt : pt_ok pt →
  (∀ k, map_stacks fuel tick pt k = run_stacks fuel tick pt core_stacks k) ∧
  ∀ l k, Forall (λ x, Z.lor (value RegionType.KernelMisc) (fst x) = fst x ∧ fst x ≠ value RegionType.KernelMisc) l →
    kinv fuel tick pt k → stacks_ready fuel tick pt l k → (k_num k + 2 * length l ≤ MaxMemoryRegions)%nat →
    ∃ d k', run_stacks fuel tick pt l k = Ok (tt, k') ∧ kinv fuel tick pt k' ∧ d.*1 = l ∧ stacks_hold fuel tick pt k' d ∧
      ∀ t c v p va, ((t, c), (v, p)) ∈ d → v - PageSize ≤ va < v ∨ v + PageSize ≤ va < v + 2 * PageSize →
        translate pt 0 (k_mem k') va = None.
Proof.
  intros Hpt. split; [apply map_stacks_run|]. intros l k Hl Hk Hr Hn.
  destruct (run_stacks_chain fuel tick pt Hpt l Hl k Hk Hr Hn) as (d & k' & Hrun & Hd & Hch).
  destruct (chain_hold fuel tick pt k d k' Hch [] Hk (stacks_hold_nil _ _ _ _)) as [Hk' Hh].
  exists d, k'. split_and!; [done..|]. intros t c v p va Hin Hva. destruct Hh as [Hall _]. destruct (Hall _ _ _ _ Hin) as [_ Hst].
  apply (misc_unmapped fuel tick pt k'); [done|]. by apply Hst.
Qed.

(** ** A concrete machine: a megabyte of misc memory, nothing mapped *)
Module Machine.

#[local] Instance seg_dec m h l t : Decision (InitAllocSpec.seg m h l t).
Proof. revert h. induction l as [|[a sz] l IH]; intros h; simpl; apply _. Defined.
#[local] Instance chunk_ok_dec c : Decision (InitAllocSpec.chunk_ok c).
Proof. unfold InitAllocSpec.chunk_ok, InitAllocSpec.aligned. apply _. Defined.
#[local] Instance ordered_dec lo l : Decision (InitAllocSpec.ordered lo l).
Proof. revert lo. induction l as [|c l IH]; intros lo; simpl; apply _. Defined.

(** The chunks of the list in memory, and whether the next [n] pages are found. *)
Fixpoint chunks (n : nat) (m : mem) (h : Z) : list InitAllocSpec.chunk :=
  match n with
  | O => []
  | S n' => if h =? 0 then [] else (h, size_of m h) :: chunks n' m (next_of m h)
  end.
Fixpoint pages_left (fuel : nat) (tick : Z) (n : nat) (start : Z) (x : alist) : bool :=
  match n with
  | O => true
  | S n' => (x.1.2 + FreeUnitSize <=? 2 ^ 48) && (length x.1.1 <? fuel)%nat &&
      match alloc_list fuel tick start x with Ok (_, x') => pages_left fuel tick n' start x' | Err _ => false end
  end.
Definition can_give (fuel : nat) (tick : Z) (n : nat) (s : mem * KInitialPageAllocator) : bool :=
  let st := m_state (snd s) in let l := chunks fuel (fst s) (free_head st) in let start := start_address st in
  bool_decide (InitAllocSpec.seg (fst s) (free_head st) l 0 ∧ InitAllocSpec.ordered start l ∧ 0 < start ∧ start mod PageSize = 0 ∧
    end_address st mod PageSize = 0 ∧ start ≤ end_address st ≤ 2 ^ 48 ∧ Forall (λ c, c.1 + c.2 ≤ end_address st) l) &&
  pages_left fuel tick n start (held_list s l).

Lemma pages_left_ready fuel tick n start x : pages_left fuel tick n start x = true → ready_list fuel tick n start x.
Proof.
  revert x. induction n as [|n IH]; intros x; [done|]. cbn [pages_left ready_list].
  rewrite !andb_true_iff, Z.leb_le, Nat.ltb_lt. intros [[H1 H2] H3]. split; [done|]. split; [done|].
  destruct (alloc_list fuel tick start x) as [[p x']|]; [|done]. exists p, x'. auto.
Qed.

Lemma can_give_ready fuel tick n s : can_give fuel tick n s = true → ready (LawfulAllocator := law fuel tick) n s.
Proof.
  unfold can_give. rewrite andb_true_iff, bool_decide_eq_true. intros [(H1 & H2 & H3 & H4 & H5 & H6 & H7) H8].
  exists (chunks fuel (fst s) (free_head (m_state (snd s)))). split; [|by apply pages_left_ready].
  split; [exact H1|]. split; [done|by split|by split|]. by apply Forall_forall.
Qed.

(** [stacks_ready], evaluated. *)
Fixpoint check_stacks (fuel : nat) (tick : Z) (pt : KInitialPageTable) (l : list (Z * Z)) (k : kstate) : bool :=
  match l with
  | [] => true
  | (type, core) :: l' =>
      match GetRandomAlignedRegionWithGuard fuel tick PageSize PageSize pt (value RegionType.KernelMisc) PageSize k with
      | Ok (_, k1) => can_give fuel tick 3 (k_mem k1, k_alloc k1)
      | Err _ => false
      end &&
      match MapStackForCore fuel tick pt type core k with Ok (_, k') => check_stacks fuel tick pt l' k' | Err _ => false end
  end.

Lemma check_stacks_ready fuel tick pt l k : check_stacks fuel tick pt l k = true → stacks_ready fuel tick pt l k.
Proof.
  revert k. induction l as [|[t c] l IH]; intros k; [done|]. cbn [check_stacks stacks_ready].
  rewrite andb_true_iff. intros [H1 H2].
  destruct (GetRandomAlignedRegionWithGuard _ _ _ _ _ _ _ _) as [[v k1]|]; [|done].
  exists v, k1. split; [done|]. split; [by apply can_give_ready|]. intros k' Hk'. rewrite Hk' in H2. by apply IH.
Qed.

Import Layout.
Abbreviation pt0 := InitPTExact.Machine.pt0.

Lemma k0_translate : minv (H0 := law 20 7) pt0 0 (k_mem k0, k_alloc k0) ∧ ∀ va, translate pt0 0 (k_mem k0) va = None.
Proof.
  destruct (roots_wf pt0 0 ∅) as (Hroot & Hwf & Hnone); [split; [simpl; lia|done]|split; [simpl; lia|done]|done|done|].
  assert (held (∅ : mem, mkAllocator (Initialize 0x100000 InitialState) None) []) as Hheld.
  { split; [done|]. split; simpl; [done|done|split; [done|lia]|by intros c Hc%not_elem_of_nil]. }
  split; [|apply Hnone, InitPTExact.Machine.pt0_ok]. split; [done|by exists []|].
  intros i P a HP Ha. destruct (Hroot i P a HP Ha) as [_ ->]. intros [_ [(l & Hl & Hc)|Hge]].
  - rewrite (held_unique _ _ _ Hl Hheld) in Hc. by destruct Hc as (c & Hc%not_elem_of_nil & _).
  - destruct i; simpl in Hge; lia.
Qed.

Lemma k0_inv : kinv 20 7 pt0 k0.
Proof.
  destruct k0_translate as [Hm Hn]. split; [|done| | |].
  - simpl. split; [|split; [by intros x ?%not_elem_of_nil|done]]. split; [by simpl|]. split; [done|by left].
  - intros r va ->%list_elem_of_singleton _ Hva. split; [|apply Hn]. apply InitPTExact.Machine.canon_low.
    unfold inside, misc0 in Hva. simpl in Hva. unfold L1BlockSize. lia.
  - by intros r ->%list_elem_of_singleton _.
  - by intros r ->%list_elem_of_singleton _.
Qed.
End Machine.

Lemma stacks_guarded_witness : ∃ d k', map_stacks 20 7 Machine.pt0 Layout.k0 = Ok (tt, k') ∧ length d = 12%nat ∧
  stacks_hold 20 7 Machine.pt0 k' d.
Proof.
  destruct (stacks_guarded 20 7 Machine.pt0 InitPTExact.Machine.pt0_ok) as [Hmap Hall].
  destruct (Hall core_stacks Layout.k0) as (d & k' & Hrun & _ & Hd & Hh & _).
  - by repeat constructor.
  - apply Machine.k0_inv.
  - apply Machine.check_stacks_ready. by vm_compute.
  - by apply Nat.leb_le; vm_compute.
  - exists d, k'. rewrite Hmap. split; [exact Hrun|]. split; [|exact Hh]. rewrite <- (length_fmap fst), Hd. reflexivity.
Defined.
End Stacks.
