(* ===== verification/StartUpHost.v ===== *)
(** * The pages of the host kernel

    [InitForKernel] hands [InitializeCorePhase1] an allocator whose end is the end of
    the backing memory and whose list is empty.  The allocator takes that as memory
    already given out, and grows behind the end. *)

From S2P Require Import Prelude Vapours TinyMT PageTableEntry InitPageTable InitPageTableSpec InitPageTableMap InitAllocator InitAllocatorSpec InitAllocatorLaws StartUp StartUpPhases.

Module Host.
Import PTE InitPTMap InitAlloc InitAllocSpec InitAllocLaws Phases.

Section pages.
Context (fuel : nat) (tick : Z).
#[local] Instance host_ops : IsInitialPageAllocator KInitialPageAllocator := KInitialPageAllocator_ops fuel tick.
#[local] Instance host_law : LawfulAllocator KInitialPageAllocator 0 := KInitialPageAllocator_lawful fuel tick.

(** [n] pages, one after the other. *)
Fixpoint take_pages (n : nat) (s : mem * KInitialPageAllocator) : res (list Z * (mem * KInitialPageAllocator)) :=
  match n with
  | O => Ok ([], s)
  | S n' => '(p, s1) ← Allocate fuel tick PageSize s; '(l, s2) ← take_pages n' s1; Ok (p :: l, s2)
  end.

Lemma take_pages_owned n s : ainv s → ready n s → ∃ l s', take_pages n s = Ok (l, s') ∧ length l = n ∧ Forall (owns s) l.
Proof.
  revert s. induction n as [|n IH]; intros s Hi Hr; [by exists [], s|]. cbn [take_pages].
  destruct (Allocate_ok n s Hi Hr) as (p & s1 & Hal & Hown & Hi1 & _ & Hsub & _ & Hr1). change (Allocate fuel tick PageSize s) with (alloc_Allocate PageSize s).
  rewrite Hal. cbn [mbind res_bind]. destruct (IH s1 Hi1 Hr1) as (l & s2 & -> & Hl & Hall). cbn [mbind res_bind].
  exists (p :: l), s2. split; [done|]. split; [simpl; by rewrite Hl|]. constructor; [done|].
  eapply Forall_impl; [exact Hall|]. intros q Hq. by apply Hsub.
Qed.
End pages.

(** The allocator of [InitForKernel], with nothing in its list. *)
Lemma host_held m base size rng : 0 < base → aligned base → 0 ≤ size → aligned size → base + size ≤ 2 ^ 48 →
  held (m, mkAllocator (host_allocator_state base size) rng) [].
Proof.
  intros Hb Ha Hs Hsa Hend. unfold host_allocator_state. rewrite wrap_small by (unfold in_width; lia).
  split; [done|]. split; simpl; [done|done|split; [by apply aligned_add|lia]|by intros c Hc%not_elem_of_nil].
Qed.

(** (C20) Every page that the kernel's start-up takes on the host lies behind the backing
    memory it was given: none of the pages of [host_memory] is ever used. *)
Theorem host_pages_outside_backing fuel tick n m base size rng : 0 < base → aligned base → 0 ≤ size → aligned size → base + size ≤ 2 ^ 48 →
  ready (LawfulAllocator := host_law fuel tick) n (m, mkAllocator (host_allocator_state base size) rng) →
  ∃ l s', take_pages fuel tick n (m, mkAllocator (host_allocator_state base size) rng) = Ok (l, s') ∧ length l = n ∧
    Forall (λ p, base + size ≤ p) l.
Proof.
  intros Hb Ha Hs Hsa Hend Hr. pose proof (host_held m base size rng Hb Ha Hs Hsa Hend) as Hh.
  destruct (take_pages_owned fuel tick n _ ltac:(by exists []) Hr) as (l & s' & Hrun & Hl & Hall). exists l, s'. split_and!; [done..|].
  eapply Forall_impl; [exact Hall|]. intros p [_ [(k & Hk & Hc)|Hge]].
  - rewrite (held_unique _ _ _ Hk Hh) in Hc. by destruct Hc as (c & Hc%not_elem_of_nil & _).
  - cbn in Hge. unfold host_allocator_state in Hge. simpl in Hge. rewrite wrap_small in Hge by (unfold in_width; lia). done.
Qed.

(** A megabyte of backing memory, three pages. *)
Lemma host_pages_outside_backing_witness :
  ∃ l s', take_pages 50 7 3 (∅, mkAllocator (host_allocator_state 0x10000000 0x100000) (Some [1; 2; 3; 4])) = Ok (l, s') ∧ length l = 3%nat ∧
    Forall (λ p, 0x10100000 ≤ p) l.
Proof.
  apply (host_pages_outside_backing 50 7 3 ∅ 0x10000000 0x100000 (Some [1; 2; 3; 4])); [lia|done|lia|done|lia|].
  exists []. split; [by apply host_held|]. 
  repeat (split; [vm_compute; by try lia|]; split; [vm_compute; lia|]; eexists _, _; split; [vm_compute; reflexivity|]). done.
Defined.

End Host.
