(* ===== verification/StartUpCores.v ===== *)
(** * The stacks that the cores start on

    [SetupInitialArguments] looks the main stacks up by type and core in the region
    tree that [MapStackForCore] filled: every core gets the top of a stack of its
    own, which is mapped, with unmapped pages around it. *)

From S2P Require Import Prelude Vapours TinyMT MemoryRegion MemoryRegionSpec RegionType PageTableEntry InitPageTable InitPageTableSpec InitPageTableMap InitAllocator InitAllocatorLaws InitPageTableExact InitPageTableEdit StartUp StartUpSpec StartUpStacks StartUpPhases.

Module Cores.
Import PTE InitPT InitPTSpec Region MemoryRegionSpec StartUp StartUpSpec Stacks Phases.

Section cores.
Context (fuel : nat) (tick : Z) (pt : KInitialPageTable) (Hpt : pt_ok pt).
Implicit Types (k : kstate) (t c v p : Z).

(** The stack is the only region of its type and core. *)
Lemma stack_found k v p t c : kinv fuel tick pt k → stack_at fuel tick pt k v p t c →
  (∀ a, tag (k_virt k) a = Some (c, t) → v ≤ a < v + PageSize) →
  ∃ r, FindByTypeAndAttribute (k_virt k) t c = Some r ∧ m_last_address r = v + PageSize - 1.
Proof.
  intros Hk [_ _ Htag _ (r & Hr & Ha & Hl) _] Honly. pose proof (kinv_tiled _ _ _ _ Hk) as Hti.
  assert (inside r v) as Hin by (unfold inside, PageSize in *; lia).
  pose proof (Htag v ltac:(unfold PageSize; lia)) as E. rewrite (tag_found fuel tick pt k r v Hk Hr Hin) in E. injection E as Eattr Etype.
  unfold FindByTypeAndAttribute. destruct (List.find _ (k_virt k)) as [r'|] eqn:Hf.
  2:{ apply List.find_none with (x := r) in Hf; [|by apply list_elem_of_In]. by rewrite Etype, Eattr, !Z.eqb_refl in Hf. }
  apply List.find_some in Hf as [Hr'%list_elem_of_In [Et%Z.eqb_eq Ec%Z.eqb_eq]%andb_true_iff]. exists r'. split; [done|].
  assert (inside r' (m_address r')) as Hin'.
  { apply list_elem_of_split in Hr' as (l1 & l2 & El). rewrite El in Hti. destruct (found_ok _ _ _ Hti) as [? _]. unfold inside. lia. }
  pose proof (tag_found fuel tick pt k r' _ Hk Hr' Hin') as Ht'. rewrite Et, Ec in Ht'. apply Honly in Ht'.
  assert (Some r' = Some r) as [= ->]; [|done]. rewrite <- (proj2 (Find_spec _ (m_address r') r' Hti) (conj Hr' Hin')).
  apply Find_spec; [done|]. split; [done|]. unfold inside. lia.
Qed.

Lemma stack_top k v p t c : kinv fuel tick pt k → stack_at fuel tick pt k v p t c →
  (∀ a, tag (k_virt k) a = Some (c, t) → v ≤ a < v + PageSize) →
  GetStackTopAddress (k_virt k) c t = Ok (v + PageSize) ∧ PageSize ≤ v ∧ v + PageSize < 2 ^ 64.
Proof using Hpt.
  intros Hk Hs Honly. destruct (stack_found k v p t c Hk Hs Honly) as (r & Hf & Hl). pose proof Hs as [Hc _ _ _ _ _].
  pose proof (canon_range pt _ Hpt (Hc (v - PageSize) ltac:(unfold PageSize; lia))).
  pose proof (canon_range pt _ Hpt (Hc (v + PageSize) ltac:(unfold PageSize; lia))).
  unfold GetStackTopAddress. rewrite Hf. cbn [Dereference of_option mbind res_bind]. unfold GetEndAddress. rewrite Hl.
  rewrite wrap_small by (unfold in_width, PageSize in *; lia). rewrite (proj2 (Z.eqb_neq _ 0)) by (unfold PageSize in *; lia). cbn [negb check mbind res_bind].
  split; [f_equal; lia|lia].
Qed.

(** The arguments of a core whose main stack ends at [top]. *)
Definition core_args b r (top : Z) (i : nat) : KInitArguments :=
  mkInitArgs (reg_ttbr0 r) (reg_ttbr1 r) (reg_tcr r) (reg_mair r) (reg_cpuactlr r) (reg_cpuectlr r) (reg_sctlr r)
    (u64 (top - StackParametersSize)) (InvokeMain b) (Z.of_nat i).

Lemma setup_arguments_ok b r tree (top : nat → Z) cores : Forall (λ i, GetMainStackTopAddress tree (Z.of_nat i) = Ok (top i)) cores →
  setup_arguments b r tree cores = Ok ((λ i, core_args b r (top i) i) <$> cores).
Proof.
  induction 1 as [|i cores Hi _ IH]; [done|]. cbn [setup_arguments]. unfold init_arguments. rewrite Hi. cbn [mbind res_bind]. rewrite IH. done.
Qed.
Abbreviation main := (value RegionType.KernelMiscMainStack).

(** After the stacks of all cores: each main stack, by type and core. *)
Lemma main_stack_found k d k' i : chain fuel tick pt k d k' → kinv fuel tick pt k → d.*1 = core_stacks →
  (∀ a t c, tag (k_virt k) a = Some (c, t) → (t, c) ∉ core_stacks) → i ∈ seq 0 NumCores →
  ∃ v n p, d !! n = Some ((main, Z.of_nat i), (v, p)) ∧ stack_at fuel tick pt k' v p main (Z.of_nat i) ∧
    GetMainStackTopAddress (k_virt k') (Z.of_nat i) = Ok (v + PageSize) ∧ PageSize ≤ v ∧ v + PageSize < 2 ^ 64.
Proof using Hpt.
  intros Hch Hk Hd Hfresh Hi. destruct (chain_hold fuel tick pt k d k' Hch [] Hk (stacks_hold_nil _ _ _ _)) as [Hk' [Hall _]]. cbn [app] in *.
  assert (NoDup d.*1) as Hnd by (rewrite Hd; refine (bool_decide_unpack _ _); by vm_compute).
  assert ((main, Z.of_nat i) ∈ d.*1) as Hin.
  { rewrite Hd. unfold core_stacks. apply list_elem_of_bind. exists i. split; [|done]. by left. }
  apply list_elem_of_fmap in Hin as ([? [v p]] & E & Hin). simpl in E. subst. destruct (Hall _ _ _ _ Hin) as [_ Hst].
  apply list_elem_of_lookup in Hin as [n Hl]. exists v, n, p. split; [done|]. split; [done|].
  apply (stack_top k' v p main); [done|done|]. intros a Ha.
  destruct (chain_tags fuel tick pt k d k' Hch _ _ _ Ha) as [Hold|(v' & p' & Hin' & Hra)].
  - exfalso. eapply Hfresh; [exact Hold|]. rewrite <- Hd. apply list_elem_of_fmap. eexists. split; [|by eapply list_elem_of_lookup_2]. done.
  - apply list_elem_of_lookup in Hin' as [n' Hl']. assert (n' = n) as -> by (eapply (NoDup_lookup d.*1); [done|rewrite list_lookup_fmap, Hl'|rewrite list_lookup_fmap, Hl]; done).
    rewrite Hl in Hl'. by simplify_eq.
Qed.
End cores.

(** (C14) From the set-up of the stacks to the cores: after the stacks are mapped,
    [SetupInitialArguments] succeeds and gives every core its number, the entry point
    and a stack pointer just below the top of its own main stack, whose page is
    mapped between unmapped pages; the stacks of two cores are apart. *)
Theorem cores_start_on_own_stacks b r fuel tick pt k : pt_ok pt → kinv fuel tick pt k → stacks_ready fuel tick pt core_stacks k →
  (k_num k + 24 ≤ MaxMemoryRegions)%nat → (∀ a t c, tag (k_virt k) a = Some (c, t) → (t, c) ∉ core_stacks) →
  ∃ k' args, map_stacks fuel tick pt k = Ok (tt, k') ∧ SetupInitialArguments b r (k_virt k') = Ok args ∧ length args = NumCores ∧
    (∀ i x, args !! i = Some x → ia_argument x = Z.of_nat i ∧ ia_entrypoint x = InvokeMain b ∧
      ∃ v p, ia_sp x = v + PageSize - StackParametersSize ∧ stack_at fuel tick pt k' v p (value RegionType.KernelMiscMainStack) (Z.of_nat i)) ∧
    ∀ i j x y, i ≠ j → args !! i = Some x → args !! j = Some y → 2 * PageSize ≤ Z.abs (ia_sp x - ia_sp y).
Proof.
  intros Hpt Hk Hr Hn Hfresh.
  destruct (run_stacks_chain fuel tick pt Hpt core_stacks) with k as (d & k' & Hrun & Hd & Hch); [by repeat constructor|done|done|exact Hn|].
  destruct (chain_hold fuel tick pt k d k' Hch [] Hk (stacks_hold_nil _ _ _ _)) as [_ [_ Hsep]]. cbn [app] in *.
  assert (∀ i, i ∈ seq 0 NumCores → _) as Htop by exact (λ i, main_stack_found fuel tick pt Hpt k d k' i Hch Hk Hd Hfresh).
  set (top i := match GetMainStackTopAddress (k_virt k') (Z.of_nat i) with Ok a => a | Err _ => 0 end).
  exists k', ((λ i, core_args b r (top i) i) <$> seq 0 NumCores).
  assert (∀ i x, ((λ i, core_args b r (top i) i) <$> seq 0 NumCores) !! i = Some x →
    ia_argument x = Z.of_nat i ∧ ia_entrypoint x = InvokeMain b ∧ ∃ v n p, d !! n = Some (((value RegionType.KernelMiscMainStack), Z.of_nat i), (v, p)) ∧
      ia_sp x = v + PageSize - StackParametersSize ∧ stack_at fuel tick pt k' v p (value RegionType.KernelMiscMainStack) (Z.of_nat i)) as Hargs.
  { intros i x Hx. rewrite list_lookup_fmap in Hx. destruct (seq 0 NumCores !! i) as [i'|] eqn:Hi; [|done]. injection Hx as <-.
    pose proof Hi as Hin%list_elem_of_lookup_2. apply lookup_seq in Hi as [-> _]. destruct (Htop _ Hin) as (v & n & p & Hl & Hst & Ht & Hb).
    split; [done|]. split; [done|]. exists v, n, p. split; [done|]. split; [|done]. cbn [ia_sp]. unfold top. rewrite Ht.
    apply wrap_small. unfold in_width, StackParametersSize, PageSize in *. lia. }
  split; [rewrite map_stacks_run; exact Hrun|]. split; [|split; [done|split]].
  - apply setup_arguments_ok. apply Forall_forall. intros i Hi. destruct (Htop i Hi) as (v & n & p & _ & _ & Ht & _). unfold top. by rewrite Ht.
  - intros i x Hx. destruct (Hargs i x Hx) as (? & ? & v & n & p & _ & ? & ?). split; [done|]. split; [done|]. by exists v, p.
  - intros i j x y Hij Hx Hy. destruct (Hargs i x Hx) as (_ & _ & v & n & p & Hl & -> & _). destruct (Hargs j y Hy) as (_ & _ & v' & n' & p' & Hl' & -> & _).
    destruct (decide (n = n')) as [->|Hne]; [rewrite Hl in Hl'; simplify_eq; lia|].
    destruct (Hsep _ _ _ _ _ _ _ _ _ _ Hne Hl Hl') as [? _]. lia.
Qed.

Lemma cores_start_on_own_stacks_witness :
  let b := mkBoard 0 0 0 0 0 0 0 0 0 0 0 0x5000 in let r := mkRegs 0 0 0 0 0 0 0 0 in let pt := InitPTExact.Machine.pt0 in
  ∃ k' args, map_stacks 20 7 pt Layout.k0 = Ok (tt, k') ∧ SetupInitialArguments b r (k_virt k') = Ok args ∧ length args = 4%nat ∧
    ∀ i j x y, i ≠ j → args !! i = Some x → args !! j = Some y → 2 * PageSize ≤ Z.abs (ia_sp x - ia_sp y).
Proof.
  intros b r pt. destruct (cores_start_on_own_stacks b r 20 7 pt Layout.k0) as (k' & args & H1 & H2 & H3 & _ & H4).
  - apply InitPTExact.Machine.pt0_ok.
  - apply Stacks.Machine.k0_inv.
  - apply Stacks.Machine.check_stacks_ready. by vm_compute.
  - by apply Nat.leb_le; vm_compute.
  - intros a t c Ht. apply (tag_region 20 7 pt) in Ht as (x & Hx & _ & [= -> ->]); [|apply Stacks.Machine.k0_inv].
    apply list_elem_of_singleton in Hx as ->. refine (bool_decide_unpack _ _). by vm_compute.
  - exact (ex_intro _ k' (ex_intro _ args (conj H1 (conj H2 (conj H3 H4))))).
Defined.

End Cores.
